(* ===== verification/_CoqProject ===== *)
-Q . S2P
Prelude.v
GoStd.v
Tuple.v
CacheKeys.v
Iterators.v
Model.v
Memory.v
MemorySpec.v
Typesystem.v
Entrypoints.v
TypesystemSpec.v
Condition.v
Validation.v
ValidationSpec.v
Check.v
CheckSpec.v
CheckSemantics.v
CheckExact.v
CheckMemory.v
CombinedReader.v
RelationshipGraph.v
ReverseExpand.v
ReverseExpandSpec.v
ReverseExpandMemory.v
FastPathStreams.v
FastPathStreamsSpec.v
FastPath.v
FastPathSpec.v
SortedCombined.v
FastPathExact.v
WeightedGraph.v
FastPathMemory.v
RecursivePath.v
RecursivePathSpec.v
RecursivePathExact.v
RecursivePathMemory.v
ListUsers.v
ListUsersSpec.v
ServerErrors.v
CheckCommand.v
Expand.v
CachedResolver.v
BatchCheck.v
ListObjects.v
ListObjectsSpec.v
ListObjectsCommand.v
Tokens.v
ReadCommands.v
WriteCommands.v
Server.v
ListUsersCommand.v
ListUsersMemory.v
CheckReaders.v
MongoDriver.v
Mongo.v
MongoSpec.v
MongoList.v
MongoDatastore.v
MongoCheck.v
