(* ===== verification/Prelude.v ===== *)
(** * OpenFGA (mongopenfga): a verification development

    ** The program

    The repository is an authorization server.  An authorization model defines types and,
    for every type, relations by rewrites (direct assignment, computed userset,
    tuple-to-userset, union, intersection, exclusion).  A store holds relationship tuples
    object#relation@user, possibly conditioned by a CEL expression.  The questions the
    server answers are Check (has this user this relation with this object?), ListObjects
    (with which objects of a type has this user this relation?) and ListUsers (which users
    have this relation with this object?).

    The parts and how they interact:
    - pkg/tuple reads and prints objects, usersets and tuples;
    - pkg/storage defines the datastore interface, the iterators every read returns and
      the wrappers that filter, map, concatenate and merge them;
    - pkg/storage/memory is the in-memory datastore, pkg/storage/mongo the datastore on
      MongoDB that this repository adds;
    - pkg/typesystem indexes a model, walks its rewrites and validates it;
    - internal/condition types, compiles and evaluates the conditions of tuples;
    - internal/validation says which tuples a model allows, for writes and for reads;
    - internal/graph resolves checks: LocalChecker evaluates rewrites recursively and
      concurrently over the tuples the datastore returns through those filters, behind a
      cache of its answers; graph.go finds the edges of a model that lead from a user to a
      relation;
    - pkg/server/commands is the API: the Check, BatchCheck and ListObjects commands
      validate a request and run the resolver, or the search of reverseexpand along the
      edges with a check of every candidate that needs one; ListUsers expands the relation
      of the object itself; the commands that read and write tuples, changes, models,
      assertions and stores call the datastore;
    - pkg/server finds the model of a request, through a cache, and calls the command.

    ** The files

    - [Prelude.v]: outcomes of Go calls (value, error, panic) with their [let!] notation,
      strings as byte sequences, generic lemmas, tactics and hint databases.
    - [GoStd.v]: the parts of the Go standard library the sources call.
    - [Tuple.v]: pkg/tuple/tuple.go.  Parsing and printing are inverse, user strings round
      trip, the order of tuples.
    - [Iterators.v]: pkg/storage/tuple_iterators.go and tuple_mappers.go.  The class
      [IteratorSpec] is the contract of an iterator; every wrapper is proved to meet it
      from its inner iterator's, with what the read pipeline of Check yields and what the
      ordered merge does with and without duplicate keys.
    - [Model.v]: the messages of a model and their constructors.
    - [Memory.v], [MemorySpec.v]: pkg/storage/memory/memory.go, every method.  [Write]
      refines an abstract set of tuples with its changelog; invariants of all reachable
      backends; reads after writes; pagination of tuples and of changes; models, stores.
    - [Typesystem.v], [Entrypoints.v], [TypesystemSpec.v]: pkg/typesystem/typesystem.go
      (its weighted-graph functions are in [WeightedGraph.v]).  Cycle detection is exact; hasEntrypoints is
      sound although its visited maps are shared (they live in an explicit heap); a model
      accepted by [NewAndValidate] satisfies [model_valid], on which the later files rely.
    - [Condition.v]: internal/condition/condition.go, eval/eval.go and the condition filter
      of internal/checkutil.
    - [Validation.v], [ValidationSpec.v]: internal/validation/validation.go.
    - [Check.v]: internal/graph/check.go, with the requests and responses.  A computed
      userset is resolved by the checker itself ([self]), every dispatched sub-problem by
      its [delegate], the first resolver of the chain.
    - [CheckSpec.v]: the reducers, and the termination of [ResolveCheck].
    - [CheckSemantics.v]: what a check means: derivations and refutations of a relation
      from the usable tuples, the interface of the datastore and the law of the model
      graph that the proofs use.
    - [CheckExact.v]: the lemmas of [ResolveCheck] against that semantics: answers are sound
      on every model, and exact on models without exclusion, for every implementation of the
      fast paths that keeps [fast_paths_ok], or for exactness [fast_paths_positive].  The
      theorems about the program's own fast paths follow in [FastPathExact.v] and
      [RecursivePathExact.v], where these contracts are discharged.
    - [CheckMemory.v]: the in-memory datastore meets the interface of Check; worked checks,
      and a check whose answer depends on the order of arrival.
    - [CombinedReader.v]: pkg/storage/storagewrappers/combinedtuplereader.go: the contextual
      tuples of a request in front of a datastore, another instance of Check's interface.
    - [RelationshipGraph.v]: internal/graph/graph.go: the edges from a user to a relation,
      exactly those of the model.
    - [ReverseExpand.v], [ReverseExpandSpec.v], [ReverseExpandMemory.v]: the search of
      ListObjects, pkg/server/commands/reverseexpand/reverse_expand.go, as a transition
      system of its concurrent calls: it ends, what it sends is sound and, at the end,
      complete for the meaning of [CheckSemantics.v]; instances over the in-memory datastore
      and contextual tuples.
    - [FastPathStreams.v], [FastPathStreamsSpec.v]: the streams of sorted object ids of
      internal/graph (their skip and head operations, union, intersection and difference
      of streams): each operation sends exactly the union, intersection or difference of
      its inputs, in order.
    - [FastPath.v], [FastPathSpec.v]: the weight-two fast paths of
      internal/graph/check_fast_path.go, with what each stream and each answer means.
    - [SortedCombined.v]: ReadStartingWithUser of the combined reader with sorted results.
    - [FastPathExact.v]: the weight-two fast paths keep [fast_paths_ok] under
      [weight2_ready]: where one is selected for the user's type, what is referenced has
      weight one, a relation refers to at most one userset of each type, every stored
      condition is decided and no object has both a tuple of the user and one of everybody.
      Then answers of Check are sound with them, exclusions included, and those of the slow
      paths.
    - [WeightedGraph.v]: the functions of typesystem.go and weighted_graph.go that read the
      weighted graph and select the fast paths.
    - [FastPathMemory.v]: fast paths over the in-memory datastore, worked checks, and the
      models on which a fast path answers another question.
    - [RecursivePath.v]: the recursive fast paths of internal/graph/check_fast_path.go and
      object_providers.go, for relations that refer to themselves.
    - [RecursivePathSpec.v]: the first level in any order of arrival, and the breadth-first
      search over an abstract step relation: it finds exactly what can be reached, cycles
      included, or exceeds the depth.
    - [RecursivePathExact.v]: a recursive relation means reachability; the recursive fast
      paths keep [fast_paths_positive] where they are selected for relations whose only
      recursion they follow, and Check with all its fast paths is exact on models without
      exclusion under [paths_ready], which asks this of the recursive paths and the
      conditions of [weight2_ready] of the others.
    - [RecursivePathMemory.v]: worked checks on recursive relations, and the models on which
      a recursive fast path answers another question than the checks it replaces.
    - [CacheKeys.v]: the keys of pkg/storage/cache.go: what they identify and what not.
    - [ServerErrors.v]: pkg/server/errors/errors.go, and the translation of errors.
    - [CheckCommand.v]: pkg/server/commands/check_command.go: a check from validation to
      answer is exact, with the fast paths of the program over the tuples of the request.
    - [Expand.v]: pkg/server/commands/expand.go: the tree means the relation it expands,
      where conditions are met and computed usersets name no object.
    - [CachedResolver.v]: internal/graph/cached_resolver.go in front of the local checker.
      For checks with one context, one set of contextual tuples and one content of the
      store, and without a collision of the hash, what the cache holds is right and a check
      through it exact.
    - [BatchCheck.v]: pkg/server/commands/batch_check_command.go; which checks find their
      context done is an oracle.
    - [ListObjects.v], [ListObjectsSpec.v], [ListObjectsCommand.v]:
      pkg/server/commands/list_objects.go as a transition system of search, consumer, checks,
      deadline and cancellation: it ends, and the answer of [Execute] is sound, bounded and
      complete for users with fewer objects than the maximum, on every interleaving.
    - [ListUsers.v], [ListUsersSpec.v]: pkg/server/commands/listusers/list_users_rpc.go: the
      expansion of a relation into its users.  A call is the messages it sends and how it
      ends; what the scheduler, failing tasks and contexts that are done decide is an oracle.
      Exact on models without exclusion.
    - [ListUsersCommand.v], [ListUsersMemory.v]: its validation and the handler of pkg/server,
      exact on a server with any history; models with exclusion on which it lists users that
      Check denies.
    - [Tokens.v]: pkg/encoder and pkg/encrypter: continuation tokens round trip through
      serialization, encryption and base 64.
    - [ReadCommands.v]: read.go, read_changes.go and the commands that read models,
      assertions and stores, in pkg/server/commands: following tokens reads everything.
    - [WriteCommands.v]: write.go and the commands that write models, assertions and stores:
      the Write command is exact; what every history of commands keeps true.
    - [Server.v]: pkg/typesystem/resolver.go and the handlers Check and Write of pkg/server:
      the cache of models is transparent for ids of stores without a slash (as the generated
      validation of requests demands), and a check on a server with any history is exact.
    - [CheckReaders.v]: Check depends on a datastore only through its filtered reads.
    - [MongoDriver.v], [MongoList.v]: the MongoDB driver and server as an interface with laws,
      and a server of lists that meets them.
    - [Mongo.v]: pkg/storage/mongo/mongo.go, every method.
    - [MongoSpec.v], [MongoDatastore.v]: for every such server [Write] refines the abstract
      store of [MemorySpec.v] and is atomic, an invariant of all reachable datastores,
      following the tokens of the changelog reads it all, where conditions have no context
      ([cond_plain]); where the datastore departs from the in-memory one.
    - [MongoCheck.v]: Check over MongoDB without fast paths is exact for users of a type
      that no relation makes public, and grants strangers where one does.

    ** How the code is modelled

    A Go function that can fail is a function to [outcome]; Go errors are values of an
    inductive type per component, and run-time panics (slice bounds, nil pointers) are
    [Panic].  State is passed explicitly: the backend, the memo tables, the inner maps of
    hasEntrypoints, the once-flag of a condition.  Go maps are finite maps; where the code
    ranges over a map, the order is the argument [MapRange] and theorems hold for every
    order.  The unstable sort is the class [SortSlice].  Goroutines of a check appear as an
    arbitrary order of arrival of their outcomes ([Scheduler], and for the fast paths
    [FastScheduler] and [RecursiveScheduler]), those of ListObjects as the
    rules [step] and [lstep] of transition systems, cancellation included, and those of
    ListUsers as the oracle [ListUsersSchedule]; tracing, metrics
    and the cancellation of a check are left out.  Integers whose width matters wrap (64-bit tokens, the 32-bit
    depth).

    Code outside the repository is a parameter with named laws: the ULID library
    ([Ulid], [UlidLaws]), CEL and its parameter types ([Cel], [CelLaws]), the graph library
    ([ModelGraph], [GraphLaws]), the compilation of conditions ([ConditionCompiler]), the
    text form of messages ([ProtoText], [ProtoTextLaws]) and their size ([ProtoSize]), the
    hash of cache keys ([XXHash]), AES-GCM ([AEAD], [AEADLaws]), the clock ([Clock],
    [ClockLaws]), MongoDB ([Mongo], [MongoLaws]).  The laws of MongoDB let every call fail
    and a failed update be applied, leave the order of an unsorted answer open and let the
    body of a transaction run several times; a transaction is atomic and isolated, and one
    process makes the ULIDs.  Theorems that need answers ask for [MongoUp].  Of decoding,
    [BsonLaws] says that a tuple or a change whose condition has no context is decoded to
    what was encoded; nothing is assumed of the protobuf oneofs in contexts and models.
    Each has a concrete instance with which the witnesses run.  The weighted graph of the
    graph library is the class [WeightedGraph].  The fast-path resolvers of Check are the
    parameter [FastPaths] of [Check.v], which the theorems instantiate with the program's:
    [weight2_paths] of [FastPath.v] and [all_paths] of [RecursivePath.v], for any selection.
    The theorems carry the conditions [weight2_ready] and [paths_ready] on the model, the
    tuples and the selection under which these paths answer what the checks they replace
    would; without them they do not ([fast_path_grants_other_relation],
    [fast_path_loses_group], [recursive_path_grants_other_userset]).

    ** Bounds and fuel

    Loops over iterators take one unit of fuel per call of the inner iterator, and
    [remaining] of an iterator is enough.  The walks over a model take the number of
    relations as fuel ([relation_count], the size of a type's relations): the theorems show
    that the error of running out never occurs.  [ResolveCheck] takes [check_fuel]: the
    remaining depth times the relations of a type, plus the relations not visited; more
    does not change the outcome.  The streams of the fast paths take a unit of fuel per entry of
    their inputs and per node of the rewrite they walk; the recursive search has as many
    levels as the 32-bit depth leaves, and its last is the code's own error.  The transition systems have no
    fuel: every interleaving is bounded, by a measure of the calls that are pending and the
    depth they have left.

    ** Not modelled

    The weighted search of ListObjects, throttling and
    shadowing, the caching and limiting storage wrappers, the SQL datastores (the answers
    of their queries are the meaning of SQL), configuration, authentication and telemetry. *)

From Stdlib Require Export Ascii.
From stdpp Require Export base tactics list sets gmap strings sorting.
From Stdlib Require Export ZArith Lia.
From Stdlib Require Import DecimalString DecimalZ DecimalNat.

Local Open Scope Z_scope.

(** ** Outcomes of Go calls

    A Go function that can fail returns a value and an [error]; it can also
    panic.  [outcome E A] keeps the three results apart: [Ret], [Throw] for a
    non-nil error, [Panic] for a run-time panic. *)
Inductive outcome (E A : Type) : Type :=
| Ret (a : A)
| Throw (e : E)
| Panic (why : string).
Arguments Ret {E A} a.
Arguments Throw {E A} e.
Arguments Panic {E A} why.

Global Instance outcome_eq_dec {E A} `{!EqDecision E, !EqDecision A} :
  EqDecision (outcome E A).
Proof. solve_decision. Defined.

Definition outcome_bind {E A B} (m : outcome E A) (k : A → outcome E B) : outcome E B :=
  match m with
  | Ret a => k a
  | Throw e => Throw e
  | Panic w => Panic w
  end.

Definition outcome_map {E A B} (f : A → B) (m : outcome E A) : outcome E B :=
  outcome_bind m (λ a, Ret (f a)).

Definition is_ret {E A} (m : outcome E A) : bool :=
  match m with Ret _ => true | _ => false end.

(** The non-panicking part of an outcome. *)
Definition no_panic {E A} (m : outcome E A) : Prop :=
  match m with Panic _ => False | _ => True end.

Lemma no_panic_bind {E A B} (m : outcome E A) (k : A → outcome E B) :
  no_panic m → (∀ a, no_panic (k a)) → no_panic (outcome_bind m k).
Proof. destruct m; simpl; auto. Qed.

Declare Scope go_scope.
Delimit Scope go_scope with go.

(** [let! x := m in k] is "[x, err := m; if err != nil { return err }; k]". *)
Notation "'let!' p := m 'in' k" := (outcome_bind m (λ p, k))
  (at level 10, p pattern, m at level 100, k at level 200, only parsing) : go_scope.

(** Boolean tests of the source on strings: [s == t], [s != ""]. *)
Notation "s =s t" := (bool_decide (s = t :> string)) (at level 70, no associativity) : go_scope.

(** ** Tactics shared by the files *)

Create HintDb go discriminated.

(** Split every boolean test on which the goal or a hypothesis branches. *)
Ltac split_if :=
  match goal with
  | |- context [if ?b then _ else _] => destruct b eqn:?
  | H : context [if ?b then _ else _] |- _ => destruct b eqn:?
  end.

(** Turn [bool_decide]/[negb]/[&&] equations into propositions. *)
Ltac bool_norm :=
  repeat match goal with
  | H : bool_decide _ = true |- _ => apply bool_decide_eq_true in H
  | H : bool_decide _ = false |- _ => apply bool_decide_eq_false in H
  | H : negb _ = true |- _ => apply negb_true_iff in H
  | H : negb _ = false |- _ => apply negb_false_iff in H
  | H : andb _ _ = true |- _ => apply andb_true_iff in H as [? ?]
  | H : orb _ _ = false |- _ => apply orb_false_iff in H as [? ?]
  end.

(** Unfold one bind on a decided outcome. *)
Ltac case_outcome :=
  match goal with
  | |- context [outcome_bind ?m _] => destruct m eqn:?; simpl
  | H : context [outcome_bind ?m _] |- _ => destruct m eqn:?; simpl in H
  end.

Lemma outcome_bind_Ret {E A B} (m : outcome E A) (k : A → outcome E B) b :
  outcome_bind m k = Ret b ↔ ∃ a, m = Ret a ∧ k a = Ret b.
Proof.
  destruct m as [a|e|w]; simpl.
  - split; [by eauto|]. by intros (a'&[= ->]&Hk).
  - split; [done|]. by intros (a'&Hm&_).
  - split; [done|]. by intros (a'&Hm&_).
Qed.

(** ** Strings

    A Go string is a sequence of bytes, so [string] (a sequence of 8-bit
    [ascii] values) is the same data. *)
Fixpoint has_byte (c : ascii) (s : string) : bool :=
  match s with
  | EmptyString => false
  | String d s' => bool_decide (c = d) || has_byte c s'
  end.

Fixpoint str_take (n : nat) (s : string) : string :=
  match n, s with
  | S n', String c s' => String c (str_take n' s')
  | _, _ => EmptyString
  end.

Fixpoint str_drop (n : nat) (s : string) : string :=
  match n, s with
  | S n', String _ s' => str_drop n' s'
  | _, _ => s
  end.

Lemma str_app_nil_l s : "" +:+ s = s.
Proof. done. Qed.

Lemma str_app_cons c s t : String c s +:+ t = String c (s +:+ t).
Proof. done. Qed.

(** [":" +:+ s] as one byte in front of [s]. *)
Lemma str_app_char c s : String c "" +:+ s = String c s.
Proof. done. Qed.

Lemma str_app_nil_r s : s +:+ "" = s.
Proof. induction s as [|c s IH]; [done|]. by rewrite str_app_cons, IH. Qed.

Lemma str_app_assoc s t u : (s +:+ t) +:+ u = s +:+ (t +:+ u).
Proof. induction s as [|c s IH]; [done|]. by rewrite !str_app_cons, IH. Qed.

Lemma str_length_app s t :
  String.length (s +:+ t) = (String.length s + String.length t)%nat.
Proof. induction s as [|c s IH]; [done|]. rewrite str_app_cons; simpl. by rewrite IH. Qed.

Lemma str_take_app s t : str_take (String.length s) (s +:+ t) = s.
Proof. induction s as [|c s IH]; [by destruct t|]. rewrite str_app_cons; simpl. by rewrite IH. Qed.

Lemma str_drop_app s t : str_drop (String.length s) (s +:+ t) = t.
Proof. induction s as [|c s IH]; [done|]. by rewrite str_app_cons. Qed.

Lemma str_drop_app_S s c t : str_drop (S (String.length s)) (s +:+ String c t) = t.
Proof. induction s as [|d s IH]; [done|]. rewrite str_app_cons. exact IH. Qed.

Lemma has_byte_app c s t : has_byte c (s +:+ t) = has_byte c s || has_byte c t.
Proof.
  induction s as [|d s IH]; [done|]. rewrite str_app_cons; simpl.
  by rewrite IH, orb_assoc.
Qed.

Lemma has_byte_cons c d s : has_byte c (String d s) = bool_decide (c = d) || has_byte c s.
Proof. done. Qed.

Lemma str_app_inj_l (a b c : string) : a +:+ b = a +:+ c → b = c.
Proof. induction a as [|d a IH]; [done|]. rewrite !str_app_cons. intros [= ?]. by apply IH. Qed.

Lemma str_app_inj_r s t u : s +:+ u = t +:+ u → s = t.
Proof.
  intros Heq.
  assert (String.length s = String.length t) as Hlen.
  { apply (f_equal String.length) in Heq. rewrite !str_length_app in Heq. lia. }
  apply (f_equal (str_take (String.length s))) in Heq.
  by rewrite str_take_app, Hlen, str_take_app in Heq.
Qed.

(** A string split at an occurrence of [c] whose left part has no [c] has only
    one such split. *)
Lemma str_split_unique c a b a' b' :
  has_byte c a = false → has_byte c a' = false →
  a +:+ String c b = a' +:+ String c b' → a = a' ∧ b = b'.
Proof.
  revert a'. induction a as [|d a IH]; intros [|d' a'] Ha Ha' Heq;
    rewrite ?str_app_nil_l, ?str_app_cons in Heq; simplify_eq/=; bool_norm;
    [done|done|done|].
  destruct (IH a') as [-> ->]; done.
Qed.

Create Rewrite HintDb str.
#[export] Hint Rewrite str_app_nil_r str_app_assoc str_length_app has_byte_app : str.

(** *** Go's [<] on strings: bytewise lexicographic, [String.ltb] *)
Lemma str_ltb_lt s t : String.ltb s t = true ↔ ¬ String.le t s.
Proof.
  unfold String.le, String.ltb, String.leb. rewrite (String.compare_antisym t s).
  destruct (s ?= t)%string; simpl; naive_solver.
Qed.

Lemma str_ltb_ge s t : String.ltb s t = false ↔ String.le t s.
Proof.
  rewrite <-not_true_iff_false, str_ltb_lt.
  destruct (decide (String.le t s)); naive_solver.
Qed.

Lemma str_ltb_irrefl s : String.ltb s s = false.
Proof. by apply str_ltb_ge. Qed.

Lemma str_ltb_trans s t u :
  String.ltb s t = true → String.ltb t u = true → String.ltb s u = true.
Proof.
  rewrite !str_ltb_lt. intros Hst Htu Hus. destruct (total String.le s t) as [Hle|Hle].
  - apply Htu. by etrans.
  - done.
Qed.

Lemma str_ltb_total s t : String.ltb s t = false → String.ltb t s = false → s = t.
Proof. rewrite !str_ltb_ge. intros. by apply (anti_symm String.le). Qed.

Lemma str_ltb_le s t : String.ltb s t = true → String.le s t.
Proof. rewrite str_ltb_lt. destruct (total String.le s t); naive_solver. Qed.

(** Elements of a list whose images are distinct are determined by their images. *)
Lemma NoDup_fmap_elem {A B} (f : A → B) (l : list A) (x y : A) :
  NoDup (f <$> l) → x ∈ l → y ∈ l → f x = f y → x = y.
Proof.
  intros Hnd [i Hi]%list_elem_of_lookup [j Hj]%list_elem_of_lookup Heq.
  assert (i = j) as ->; [|by simplify_eq].
  eapply (NoDup_lookup _ _ _ (f x) Hnd); rewrite list_lookup_fmap; [by rewrite Hi|rewrite Hj; simpl; by rewrite Heq].
Qed.

Lemma forallb_perm {A} (f : A → bool) (l k : list A) : l ≡ₚ k → forallb f l = forallb f k.
Proof.
  induction 1 as [|x l k _ IH|x y l|l k m _ IH1 _ IH2]; simpl; [done|by rewrite IH| |congruence].
  by rewrite !andb_assoc, (andb_comm (f x)).
Qed.

(** *** Filters *)
Lemma filter_filter {A} (p q : A → bool) l : List.filter p (List.filter q l) = List.filter (λ x, q x && p x) l.
Proof. induction l as [|x l IH]; simpl; [done|]. destruct (q x); simpl; [destruct (p x)|]; by rewrite ?IH. Qed.
