(* ===== verification/GoStd.v ===== *)
(** * The parts of Go and of its standard library the sources use

    Byte search and splitting of strings ([strings.IndexByte],
    [strings.LastIndexByte], [strings.Cut], [strings.HasPrefix]), the regular
    expressions of [pkg/tuple] ([regexp.MatchString]), decimal integers
    ([strconv.Itoa], [strconv.Atoi], [strconv.ParseInt]), slicing with its
    panics, 64-bit [int] arithmetic, and the two sorts ([sort.Slice],
    [sort.SliceStable]).  None of it is code of the repository. *)

From S2P Require Import Prelude.
From Stdlib Require Import DecimalString DecimalZ.

Local Open Scope Z_scope.
Local Open Scope go_scope.

(** ** strings *)

(** [strings.IndexByte]; -1 is [None]. *)
Fixpoint IndexByte (s : string) (c : ascii) : option nat :=
  match s with
  | EmptyString => None
  | String d s' => if bool_decide (c = d) then Some 0%nat else S <$> IndexByte s' c
  end.

(** [strings.LastIndexByte]; -1 is [None]. *)
Fixpoint LastIndexByte (s : string) (c : ascii) : option nat :=
  match s with
  | EmptyString => None
  | String d s' =>
      match LastIndexByte s' c with
      | Some i => Some (S i)
      | None => if bool_decide (c = d) then Some 0%nat else None
      end
  end.

(** [strings.Cut(s, sep)] for a one-byte separator: (before, after, found). *)
Definition Cut (s : string) (c : ascii) : string * string * bool :=
  match IndexByte s c with
  | Some i => (str_take i s, str_drop (S i) s, true)
  | None => (s, "", false)
  end.

Fixpoint HasPrefix (s p : string) : bool :=
  match p, s with
  | EmptyString, _ => true
  | String c p', String d s' => bool_decide (c = d) && HasPrefix s' p'
  | _, _ => false
  end.

Lemma IndexByte_None s c : IndexByte s c = None ↔ has_byte c s = false.
Proof.
  induction s as [|d s IH]; [done|]. simpl. case_bool_decide; simpl; [done|].
  rewrite <-IH. destruct (IndexByte s c); simpl; split; congruence.
Qed.

Lemma IndexByte_Some s c i :
  IndexByte s c = Some i ↔
  ∃ a b, s = a +:+ String c b ∧ has_byte c a = false ∧ i = String.length a.
Proof.
  revert i. induction s as [|d s IH]; intros i; simpl.
  { split; [done|]. intros (a&b&Heq&_). by destruct a. }
  case_bool_decide as Hc; simpl.
  - subst d. split.
    + intros [= <-]. by exists "", s.
    + intros (a&b&Heq&Ha&->). destruct a as [|e a]; [done|].
      rewrite str_app_cons in Heq. simplify_eq/=. by rewrite bool_decide_true in Ha.
  - split.
    + intros (j&Hj&->)%fmap_Some. apply IH in Hj as (a&b&->&Ha&->).
      exists (String d a), b. simpl. by rewrite bool_decide_false.
    + intros (a&b&Heq&Ha&->). destruct a as [|e a];
        [rewrite str_app_nil_l in Heq; congruence|].
      rewrite str_app_cons in Heq. simplify_eq/=. bool_norm.
      apply fmap_Some. exists (String.length a). split; [|done]. apply IH. eauto.
Qed.

Lemma IndexByte_app a c b :
  has_byte c a = false → IndexByte (a +:+ String c b) c = Some (String.length a).
Proof. intros. apply IndexByte_Some. eauto. Qed.

Lemma LastIndexByte_None s c : LastIndexByte s c = None ↔ has_byte c s = false.
Proof.
  induction s as [|d s IH]; [done|]. simpl.
  destruct (LastIndexByte s c) as [i|]; case_bool_decide; simpl; rewrite <-?IH;
    split; congruence.
Qed.

Lemma LastIndexByte_app a c b :
  has_byte c b = false → LastIndexByte (a +:+ String c b) c = Some (String.length a).
Proof.
  intros Hb. induction a as [|d a IH].
  - rewrite str_app_nil_l. simpl. apply LastIndexByte_None in Hb. rewrite Hb.
    by rewrite bool_decide_true.
  - rewrite str_app_cons. simpl. by rewrite IH.
Qed.

Lemma LastIndexByte_Some s c i :
  LastIndexByte s c = Some i ↔
  ∃ a b, s = a +:+ String c b ∧ has_byte c b = false ∧ i = String.length a.
Proof.
  split; [|intros (a&b&->&Hb&->); by apply LastIndexByte_app].
  revert i. induction s as [|d s IH]; intros i; simpl; [done|].
  destruct (LastIndexByte s c) as [j|] eqn:E.
  - intros [= <-]. destruct (IH j eq_refl) as (a&b&->&Hb&->).
    exists (String d a), b. by rewrite str_app_cons.
  - case_bool_decide; [|done]. intros [= <-]. subst d.
    exists "", s. apply LastIndexByte_None in E. done.
Qed.

Lemma Cut_app a c b : has_byte c a = false → Cut (a +:+ String c b) c = (a, b, true).
Proof.
  intros Ha. unfold Cut. rewrite IndexByte_app by done.
  by rewrite str_take_app, str_drop_app_S.
Qed.

Lemma Cut_none s c : has_byte c s = false → Cut s c = (s, "", false).
Proof. intros Ha%IndexByte_None. unfold Cut. by rewrite Ha. Qed.

(** Every string is either free of [c] or splits at its first [c]. *)
Lemma first_byte_split s c :
  has_byte c s = false ∨ ∃ a b, s = a +:+ String c b ∧ has_byte c a = false.
Proof.
  destruct (IndexByte s c) eqn:E.
  - right. apply IndexByte_Some in E as (a&b&->&Ha&_). eauto.
  - left. by apply IndexByte_None.
Qed.

Lemma last_byte_split s c :
  has_byte c s = false ∨ ∃ a b, s = a +:+ String c b ∧ has_byte c b = false.
Proof.
  destruct (LastIndexByte s c) eqn:E.
  - right. apply LastIndexByte_Some in E as (a&b&->&Ha&_). eauto.
  - left. by apply LastIndexByte_None.
Qed.

Lemma HasPrefix_spec s p : HasPrefix s p = true ↔ ∃ t, s = p +:+ t.
Proof.
  revert s. induction p as [|c p IH]; intros s; simpl.
  { split; [eexists; done|by destruct s]. }
  destruct s as [|d s]; simpl.
  { split; [done|]. intros [t Ht]. by rewrite str_app_cons in Ht. }
  rewrite andb_true_iff, bool_decide_eq_true, IH. split.
  - intros [-> [t ->]]. exists t. by rewrite str_app_cons.
  - intros [t Ht]. rewrite str_app_cons in Ht. simplify_eq. eauto.
Qed.

(** ** regexp

    The four expressions of [pkg/tuple/tuple.go] are anchored sequences of
    literals and of [[^...]+] classes.  [\s] is the RE2 class [[\t\n\f\r ]].  All
    classes are negated sets of ASCII bytes, so matching on the bytes of a string
    agrees with matching on its code points. *)
Inductive re_item :=
| ReLit (c : ascii)
| ReNegPlus (bad : list ascii).

Definition re_space : list ascii := ["009"; "010"; "012"; "013"; " "]%char.

(** [MatchString] of the anchored expression [^r$]. *)
Fixpoint re_match (r : list re_item) : string → bool :=
  match r with
  | [] => λ s, match s with EmptyString => true | _ => false end
  | ReLit c :: r' => λ s,
      match s with
      | String d s' => bool_decide (c = d) && re_match r' s'
      | EmptyString => false
      end
  | ReNegPlus bad :: r' =>
      fix plus (s : string) : bool :=
        match s with
        | String d s' => bool_decide (d ∉ bad) && (re_match r' s' || plus s')
        | EmptyString => false
        end
  end.

(** A non-empty string all of whose bytes avoid [bad]. *)
Fixpoint all_avoid (bad : list ascii) (s : string) : bool :=
  match s with
  | EmptyString => true
  | String d s' => bool_decide (d ∉ bad) && all_avoid bad s'
  end.

Definition word (bad : list ascii) (s : string) : Prop :=
  s ≠ "" ∧ all_avoid bad s = true.

Lemma all_avoid_has_byte bad s c : all_avoid bad s = true → c ∈ bad → has_byte c s = false.
Proof.
  induction s as [|d s IH]; simpl; [done|]. intros [Hd Hs]%andb_true_iff Hc.
  apply orb_false_iff. split; [|by apply IH].
  apply bool_decide_eq_true in Hd. apply bool_decide_eq_false. set_solver.
Qed.

Lemma word_has_byte bad s c : word bad s → c ∈ bad → has_byte c s = false.
Proof. intros [_ Hs]. by apply all_avoid_has_byte. Qed.

Lemma all_avoid_app bad s t : all_avoid bad (s +:+ t) = all_avoid bad s && all_avoid bad t.
Proof.
  induction s as [|d s IH]; [done|]. rewrite str_app_cons; simpl.
  by rewrite IH, andb_assoc.
Qed.

Lemma re_match_lit c r s : re_match (ReLit c :: r) s = true ↔ ∃ t, s = String c t ∧ re_match r t = true.
Proof.
  destruct s as [|d s]; simpl; [naive_solver|].
  rewrite andb_true_iff, bool_decide_eq_true. naive_solver.
Qed.

Lemma re_match_plus bad r s :
  re_match (ReNegPlus bad :: r) s = true ↔
  ∃ a b, s = a +:+ b ∧ word bad a ∧ re_match r b = true.
Proof.
  induction s as [|d s IH]; simpl.
  { split; [done|]. intros (a&b&Heq&[Ha _]&_). by destruct a. }
  rewrite andb_true_iff, orb_true_iff, bool_decide_eq_true.
  change ((fix plus (s : string) : bool := _) s) with (re_match (ReNegPlus bad :: r) s).
  rewrite IH. split.
  - intros [Hd [Hr|(a&b&->&[Hne Ha]&Hr)]].
    + exists (String d ""), s. split_and!; [done| |done]. split; [done|]. simpl.
      by rewrite bool_decide_true.
    + exists (String d a), b. split_and!; [done| |done]. split; [done|]. simpl.
      by rewrite bool_decide_true, Ha.
  - intros (a&b&Heq&[Hne Ha]&Hr). destruct a as [|e a]; [done|].
    rewrite str_app_cons in Heq. simplify_eq/=. bool_norm. split; [done|].
    destruct a as [|e' a]; [by left|right].
    exists (String e' a), b. split_and!; done.
Qed.

Lemma re_match_nil s : re_match [] s = true ↔ s = "".
Proof. destruct s; simpl; naive_solver. Qed.

(** ** strconv *)

Definition int64_min : Z := -2^63.
Definition int64_max : Z := 2^63 - 1.

(** Two's-complement wrap-around of a 64-bit [int]. *)
Definition wrap64 (z : Z) : Z := (z + 2^63) mod 2^64 - 2^63.

Definition int64_range (z : Z) : Prop := int64_min ≤ z ≤ int64_max.

Lemma wrap64_id z : int64_range z → wrap64 z = z.
Proof.
  unfold int64_range, wrap64, int64_min, int64_max. intros Hz.
  rewrite Z.mod_small; lia.
Qed.

(** [strconv.Itoa]. *)
Definition Itoa (z : Z) : string := NilZero.string_of_int (Z.to_int z).

(** The digits of [strconv.ParseInt(s, 10, bits)]: an optional sign and at least
    one decimal digit; no range check yet. *)
Definition parse_digits (s : string) : option Z :=
  match s with
  | String "+"%char s' => (λ d, Z.of_int (Decimal.Pos d)) <$> NilZero.uint_of_string s'
  | String "-"%char s' => (λ d, Z.of_int (Decimal.Neg d)) <$> NilZero.uint_of_string s'
  | _ => (λ d, Z.of_int (Decimal.Pos d)) <$> NilZero.uint_of_string s
  end.

(** [strconv.ParseInt(s, 10, bits)]; the syntax and range errors are [None]. *)
Definition ParseInt (s : string) (bits : Z) : option Z :=
  match parse_digits s with
  | Some z => if bool_decide (-2^(bits-1) ≤ z < 2^(bits-1)) then Some z else None
  | None => None
  end.

(** [strconv.Atoi]: [ParseInt] at the width of [int]. *)
Definition Atoi (s : string) : option Z := ParseInt s 64.

Example Itoa_ex : Itoa 1205 = "1205". Proof. reflexivity. Qed.
Example Atoi_ex : Atoi "+0050" = Some 50 ∧ Atoi "-3" = Some (-3) ∧ Atoi "" = None ∧
  Atoi "4x" = None ∧ Atoi "9223372036854775808" = None. Proof. by vm_compute. Qed.

Lemma to_int_nonnil z :
  match Z.to_int z with Decimal.Pos u | Decimal.Neg u => u ≠ Decimal.Nil end.
Proof. destruct z; simpl; [done| |]; by apply DecimalPos.Unsigned.to_uint_nonnil. Qed.

Lemma parse_digits_unsigned u :
  u ≠ Decimal.Nil →
  parse_digits (NilZero.string_of_uint u) = Some (Z.of_int (Decimal.Pos u)).
Proof.
  intros Hu. transitivity ((λ d, Z.of_int (Decimal.Pos d)) <$>
    NilZero.uint_of_string (NilZero.string_of_uint u)).
  - by destruct u.
  - by rewrite NilZero.usu.
Qed.

Lemma parse_digits_Itoa z : parse_digits (Itoa z) = Some z.
Proof.
  pose proof (to_int_nonnil z) as Hnn. pose proof (of_to z) as Hz.
  unfold Itoa. destruct (Z.to_int z) as [u|u]; unfold NilZero.string_of_int.
  - by rewrite parse_digits_unsigned, Hz.
  - unfold parse_digits. by rewrite NilZero.usu, <-Hz.
Qed.

Lemma ParseInt_Itoa z bits :
  -2^(bits-1) ≤ z < 2^(bits-1) → ParseInt (Itoa z) bits = Some z.
Proof. intros. unfold ParseInt. by rewrite parse_digits_Itoa, bool_decide_true. Qed.

Lemma Atoi_Itoa z : int64_range z → Atoi (Itoa z) = Some z.
Proof. unfold int64_range, int64_min, int64_max. intros. apply ParseInt_Itoa. lia. Qed.

Lemma Itoa_nonempty z : Itoa z ≠ "".
Proof.
  intros Heq. pose proof (parse_digits_Itoa z) as Hp. by rewrite Heq in Hp.
Qed.

(** ** Slices *)

(** [len(l)] *)
Definition zlen {A} (l : list A) : Z := Z.of_nat (length l).

(** [l[i:j]]: panics unless 0 <= i <= j <= len(l).  (Go checks the upper bound
    against the capacity; the sources only slice up to [len].) *)
Definition go_slice {E A} (l : list A) (i j : Z) : outcome E (list A) :=
  if bool_decide (0 ≤ i ≤ j ∧ j ≤ zlen l)
  then Ret (take (Z.to_nat (j - i)) (drop (Z.to_nat i) l))
  else Panic "slice bounds out of range".

Lemma zlen_nonneg {A} (l : list A) : 0 ≤ zlen l.
Proof. unfold zlen. lia. Qed.

Lemma zlen_cons {A} (x : A) l : zlen (x :: l) = 1 + zlen l.
Proof. unfold zlen. simpl. lia. Qed.

Lemma zlen_app {A} (l k : list A) : zlen (l ++ k) = zlen l + zlen k.
Proof. unfold zlen. rewrite length_app. lia. Qed.

Lemma zlen_drop {A} (n : nat) (l : list A) :
  Z.of_nat n ≤ zlen l → zlen (drop n l) = zlen l - Z.of_nat n.
Proof. unfold zlen. rewrite length_drop. lia. Qed.

Lemma go_slice_ok {E A} (l : list A) i j :
  0 ≤ i ≤ j → j ≤ zlen l →
  go_slice (E:=E) l i j = Ret (take (Z.to_nat (j - i)) (drop (Z.to_nat i) l)).
Proof. intros. unfold go_slice. by rewrite bool_decide_true. Qed.

Lemma go_slice_panic {E A} (l : list A) i j :
  i < 0 ∨ j < i ∨ zlen l < j → go_slice (E:=E) l i j = Panic "slice bounds out of range".
Proof. intros. unfold go_slice. rewrite bool_decide_false; [done|]. lia. Qed.

(** ** Sorting *)

(** [less] is a strict weak order, what [sort] documents it needs. *)
Class StrictWeak {A} (less : A → A → bool) : Prop := {
  sw_irrefl x : less x x = false;
  sw_trans x y z : less x y = true → less y z = true → less x z = true;
  sw_incomp x y z : less x y = false → less y z = false → less x z = false;
}.

(** The order [sort] puts a slice in: no later element is less than an earlier one. *)
Definition not_less {A} (less : A → A → bool) : relation A := λ x y, less y x = false.

(** [sort.Slice]: some permutation of the slice that is sorted; the order of equal
    elements is unspecified, so the sort is an interface and what is proved of its
    clients holds for every implementation. *)
Class SortSlice := {
  sort_slice : ∀ {A}, (A → A → bool) → list A → list A;
  sort_slice_perm {A} (less : A → A → bool) l : sort_slice less l ≡ₚ l;
  sort_slice_sorted {A} (less : A → A → bool) l :
    StrictWeak less → StronglySorted (not_less less) (sort_slice less l);
}.

(** [sort.SliceStable]: insertion that keeps equal elements in their order. *)
Fixpoint stable_insert {A} (less : A → A → bool) (x : A) (l : list A) : list A :=
  match l with
  | [] => [x]
  | y :: l' => if less y x then y :: stable_insert less x l' else x :: y :: l'
  end.

Fixpoint SliceStable {A} (less : A → A → bool) (l : list A) : list A :=
  match l with
  | [] => []
  | x :: l' => stable_insert less x (SliceStable less l')
  end.

Lemma stable_insert_perm {A} (less : A → A → bool) x l : stable_insert less x l ≡ₚ x :: l.
Proof.
  induction l as [|y l IH]; simpl; [done|]. destruct (less y x); [|done].
  rewrite IH. apply Permutation_swap.
Qed.

Lemma SliceStable_perm {A} (less : A → A → bool) l : SliceStable less l ≡ₚ l.
Proof. induction l as [|x l IH]; simpl; [done|]. by rewrite stable_insert_perm, IH. Qed.

Section sorting.
Context {A : Type} (less : A → A → bool) `{!StrictWeak less}.

Lemma sw_asym x y : less x y = true → less y x = false.
Proof.
  intros Hxy. destruct (less y x) eqn:Hyx; [|done].
  pose proof (sw_trans (less:=less) x y x Hxy Hyx) as Hxx.
  by rewrite (sw_irrefl (less:=less)) in Hxx.
Qed.

Lemma stable_insert_sorted x l :
  StronglySorted (not_less less) l → StronglySorted (not_less less) (stable_insert less x l).
Proof.
  induction 1 as [|y l Hs IH Hy]; simpl; [by repeat constructor|].
  destruct (less y x) eqn:Hyx.
  - constructor; [done|]. rewrite stable_insert_perm. constructor; [|done].
    by apply sw_asym.
  - constructor; [by constructor|]. constructor; [done|].
    eapply Forall_impl; [exact Hy|]. intros z Hz. unfold not_less in *.
    by apply (sw_incomp z y x).
Qed.

Lemma SliceStable_sorted l : StronglySorted (not_less less) (SliceStable less l).
Proof. induction l; simpl; [constructor|by apply stable_insert_sorted]. Qed.
End sorting.

(** The stable sort is an implementation of [sort.Slice]. *)
Definition stable_SortSlice : SortSlice := {|
  sort_slice := @SliceStable;
  sort_slice_perm := @SliceStable_perm;
  sort_slice_sorted A less l H := @SliceStable_sorted A less H l;
|}.

(** Comparison of a string key with Go's [<]. *)
Global Instance str_key_StrictWeak {A} (key : A → string) :
  StrictWeak (λ x y, String.ltb (key x) (key y)).
Proof.
  split; intros *.
  - apply str_ltb_irrefl.
  - apply str_ltb_trans.
  - rewrite !str_ltb_ge. intros. by etrans.
Qed.

(** Comparison of a string key with Go's [>]. *)
Global Instance str_key_desc_StrictWeak {A} (key : A → string) :
  StrictWeak (λ x y, String.ltb (key y) (key x)).
Proof.
  split; intros *.
  - apply str_ltb_irrefl.
  - intros ? ?. by eapply str_ltb_trans.
  - rewrite !str_ltb_ge. intros. by etrans.
Qed.

(** ** Maps *)

(** [range] over a map visits every entry once, in an unspecified order: an
    interface, so that what is proved of its clients holds for every order. *)
Class MapRange := {
  range_map : ∀ {V}, gmap string V → list (string * V);
  range_map_perm {V} (m : gmap string V) : range_map m ≡ₚ map_to_list m;
}.

Definition map_to_list_MapRange : MapRange := {|
  range_map V m := map_to_list m;
  range_map_perm V m := Permutation_refl _;
|}.

Lemma elem_of_range_map `{!MapRange} {V} (m : gmap string V) k v :
  (k, v) ∈ range_map m ↔ m !! k = Some v.
Proof. by rewrite range_map_perm, elem_of_map_to_list. Qed.
