(* ===== verification/Tuple.v ===== *)
(** * Relationship tuples: [pkg/tuple/tuple.go], [pkg/tuple/tuple_errors.go]

    The protobuf messages the package handles (their Go types are generated code;
    only their fields are used), the string notation of objects, usersets and
    tuples, its validity predicates, parsing and printing, and the comparison
    [TupleKeys.Less] that sorts tuples. *)

From S2P Require Import Prelude GoStd.

Local Open Scope go_scope.

(** ** Protobuf messages *)

(** [structpb.Value]; a float64 is carried as its shortest decimal text, and
    [Value_nil] is a value without kind. *)
Inductive Value :=
| NullValue
| NumberValue (text : string)
| StringValue (s : string)
| BoolValue (b : bool)
| StructValue (fields : gmap string Value)
| ListValue (values : list Value)
| Value_nil.

(** [structpb.Struct]: the fields of a condition context. *)
Record Struct := mkStruct { Fields : gmap string Value }.

Definition empty_struct : Struct := mkStruct ∅.

Record RelationshipCondition := mkCondition {
  cond_Name : string;
  cond_Context : option Struct;
}.

Record TupleKey := mkTupleKey {
  Object : string;
  Relation : string;
  User : string;
  Condition : option RelationshipCondition;
}.

(** [TupleKeyWithoutCondition], [CheckRequestTupleKey], [AssertionTupleKey] and
    [ReadRequestTupleKey] have the same three fields. *)
Record TupleKeyWithoutCondition := mkTupleKeyWithoutCondition {
  woc_Object : string;
  woc_Relation : string;
  woc_User : string;
}.

Record ObjectRelation := mkObjectRelation { or_Object : string; or_Relation : string }.

(** The oneof of [openfgav1.User]; [UserUnset] is a nil oneof. *)
Inductive UserProto :=
| User_Wildcard (Type_ : string)
| User_Userset (Type_ Id Rel : string)
| User_Object (Type_ Id : string)
| UserUnset.

(** Values nest in maps and lists: their size, and induction on it. *)
Fixpoint Value_size (v : Value) : nat :=
  match v with
  | StructValue m => S (map_fold (λ _ v n, Value_size v + n) 0 m)
  | ListValue l => S (foldr (λ v n, Value_size v + n) 0 l)
  | _ => 1
  end.

Lemma Value_size_field k v m : m !! k = Some v → Value_size v < Value_size (StructValue m).
Proof.
  intros Hk. simpl. rewrite (map_fold_delete_L _ 0 k v m); [lia|intros; lia|done].
Qed.

Lemma Value_size_item v l : v ∈ l → Value_size v < Value_size (ListValue l).
Proof. simpl. induction 1 as [|v' w l _ IH]; simpl in *; lia. Qed.

Lemma Value_nested_ind (P : Value → Prop) :
  P NullValue → (∀ t, P (NumberValue t)) → (∀ s, P (StringValue s)) → (∀ b, P (BoolValue b)) →
  (∀ m, (∀ k v, m !! k = Some v → P v) → P (StructValue m)) →
  (∀ l, (∀ v, v ∈ l → P v) → P (ListValue l)) → P Value_nil → ∀ v, P v.
Proof.
  intros Hnull Hnum Hstr Hbool Hst Hl Hnil v. induction v as [v IH] using (induction_ltof1 _ Value_size). unfold ltof in IH.
  destruct v as [| | | |m|l|]; auto.
  - apply Hst. intros k v Hk. by eapply IH, Value_size_field.
  - apply Hl. intros v Hv. by eapply IH, Value_size_item.
Qed.

(** Values as trees, for their decidable equality. *)
Fixpoint Value_encode (v : Value) : gen_tree (nat * string) :=
  match v with
  | NullValue => GenLeaf (0, "")
  | NumberValue t => GenLeaf (1, t)
  | StringValue s => GenLeaf (2, s)
  | BoolValue b => GenLeaf (3, if b then "t" else "f")
  | StructValue m => GenNode 0 (map_fold (λ k v l, GenLeaf (0, k) :: Value_encode v :: l) [] m)
  | ListValue l => GenNode 1 (Value_encode <$> l)
  | Value_nil => GenLeaf (4, "")
  end.

Fixpoint Value_decode (t : gen_tree (nat * string)) : Value :=
  match t with
  | GenLeaf (0, _) => NullValue
  | GenLeaf (1, t) => NumberValue t
  | GenLeaf (2, s) => StringValue s
  | GenLeaf (3, s) => BoolValue (bool_decide (s = "t"))
  | GenLeaf (_, _) => Value_nil
  | GenNode 0 l =>
      let fix fields l := match l with
                          | GenLeaf (_, k) :: v :: l => <[k := Value_decode v]> (fields l)
                          | _ => ∅
                          end in StructValue (fields l)
  | GenNode _ l => ListValue (Value_decode <$> l)
  end.

Lemma Value_decode_encode v : Value_decode (Value_encode v) = v.
Proof.
  induction v as [| | |[]|m IH|l IH|] using Value_nested_ind; try done; simpl; f_equal.
  - revert IH. apply (map_fold_weak_ind (λ l m, (∀ k v, m !! k = Some v → Value_decode (Value_encode v) = v) →
      (fix fields l := match l with
                       | GenLeaf (_, k) :: v :: l => <[k := Value_decode v]> (fields l)
                       | _ => ∅
                       end) l = m)); [done|].
    intros k v m' l Hk IHm Hall. rewrite IHm, (Hall k v); [done|by rewrite lookup_insert_eq|].
    intros k' v' Hk'. apply (Hall k'). rewrite lookup_insert_ne; [done|]. by intros ->; rewrite Hk in Hk'.
  - rewrite <-list_fmap_compose. rewrite <-(list_fmap_id l) at 2. apply list_fmap_ext. intros i v Hv. simpl.
    by eapply IH, list_elem_of_lookup_2.
Qed.

Global Instance Value_eq_dec : EqDecision Value.
Proof.
  refine (λ v w, cast_if (decide (Value_encode v = Value_encode w))); [|by intros ->].
  by rewrite <-(Value_decode_encode v), <-(Value_decode_encode w), e.
Defined.

Global Instance Struct_eq_dec : EqDecision Struct.
Proof. solve_decision. Defined.
Global Instance RelationshipCondition_eq_dec : EqDecision RelationshipCondition.
Proof. solve_decision. Defined.
Global Instance TupleKey_eq_dec : EqDecision TupleKey.
Proof. solve_decision. Defined.
Global Instance TupleKeyWithoutCondition_eq_dec : EqDecision TupleKeyWithoutCondition.
Proof. solve_decision. Defined.
Global Instance UserProto_eq_dec : EqDecision UserProto.
Proof. solve_decision. Defined.

(** [cond.GetName()] on a possibly nil condition. *)
Definition GetName (c : option RelationshipCondition) : string :=
  from_option cond_Name "" c.

(** ** Constructors and conversions *)

Definition TupleKeyToTupleKeyWithoutCondition (tk : TupleKey) : TupleKeyWithoutCondition :=
  mkTupleKeyWithoutCondition (Object tk) (Relation tk) (User tk).

Definition TupleKeyWithoutConditionToTupleKey (tk : TupleKeyWithoutCondition) : TupleKey :=
  mkTupleKey (woc_Object tk) (woc_Relation tk) (woc_User tk) None.

Fixpoint TupleKeysWithoutConditionToTupleKeys
    (tks : list TupleKeyWithoutCondition) : list TupleKey :=
  match tks with
  | [] => []
  | tk :: rest =>
      TupleKeyWithoutConditionToTupleKey tk :: TupleKeysWithoutConditionToTupleKeys rest
  end.

Definition NewTupleKey (object relation user : string) : TupleKey :=
  mkTupleKey object relation user None.

Definition NewRelationshipCondition (name : string) (context : option Struct)
  : option RelationshipCondition :=
  if name =s "" then None
  else match context with
  | None => Some (mkCondition name (Some empty_struct))
  | Some c => Some (mkCondition name (Some c))
  end.

Definition NewTupleKeyWithCondition
    (object relation user conditionName : string) (context : option Struct) : TupleKey :=
  mkTupleKey object relation user (NewRelationshipCondition conditionName context).

(** ** Splitting and building *)

Definition Wildcard : string := "*".

Definition SplitObject (object : string) : string * string :=
  match IndexByte object ":" with
  | None => ("", object)
  | Some i =>
      if bool_decide (i = String.length object - 1)%nat
      then (str_take i object, "")
      else (str_take i object, str_drop (S i) object)
  end.

Definition BuildObject (objectType objectID : string) : string :=
  objectType +:+ ":" +:+ objectID.

Definition GetObjectRelationAsString (objectRelation : ObjectRelation) : string :=
  if negb (or_Relation objectRelation =s "")
  then or_Object objectRelation +:+ "#" +:+ or_Relation objectRelation
  else or_Object objectRelation.

Definition SplitObjectRelation (objectRelation : string) : string * string :=
  match LastIndexByte objectRelation "#" with
  | None => (objectRelation, "")
  | Some i =>
      if bool_decide (i = String.length objectRelation - 1)%nat
      then (str_take i objectRelation, "")
      else (str_take i objectRelation, str_drop (S i) objectRelation)
  end.

Definition GetType (objectID : string) : string := (SplitObject objectID).1.

Definition GetRelation (objectRelation : string) : string :=
  (SplitObjectRelation objectRelation).2.

Definition IsObjectRelation (userset : string) : bool :=
  negb (GetType userset =s "") && negb (GetRelation userset =s "").

Definition ToObjectRelationString (object relation : string) : string :=
  object +:+ "#" +:+ relation.

Definition IsTypedWildcard (s : string) : bool :=
  let '(t, id) := SplitObject s in negb (t =s "") && (id =s Wildcard).

Definition IsWildcard (s : string) : bool := (s =s Wildcard) || IsTypedWildcard s.

Definition TypedPublicWildcard (objectType : string) : string :=
  BuildObject objectType Wildcard.

(** [UserType]: "user" or "userset". *)
Inductive UserType := UserTypeUser | UserTypeUserSet.

Definition GetUserTypeFromUser (user : string) : UserType :=
  if IsObjectRelation user || IsWildcard user then UserTypeUserSet else UserTypeUser.

Definition UserProtoToString (obj : UserProto) : outcome unit string :=
  match obj with
  | User_Wildcard t => Ret (t +:+ ":*")
  | User_Userset t id r => Ret (t +:+ ":" +:+ id +:+ "#" +:+ r)
  | User_Object t id => Ret (t +:+ ":" +:+ id)
  | UserUnset => Panic "unsupported type"
  end.

Definition StringToUserProto (userKey : string) : UserProto :=
  let '(userObj, userRel) := SplitObjectRelation userKey in
  let '(userObjType, userObjID) := SplitObject userObj in
  if (userRel =s "") && (userObjID =s "*") then User_Wildcard userObjType
  else if userRel =s "" then User_Object userObjType userObjID
  else User_Userset userObjType userObjID userRel.

Definition ToUserParts (user : string) : string * string * string :=
  let '(userObject, userRelation) := SplitObjectRelation user in
  let '(userObjectType, userObjectID) := SplitObject userObject in
  (userObjectType, userObjectID, userRelation).

Definition ToUserPartsFromObjectRelation (u : ObjectRelation) : string * string * string :=
  let '(userObjectType, userObjectID) := SplitObject (or_Object u) in
  (userObjectType, userObjectID, or_Relation u).

Definition FromUserParts (userObjectType userObjectID userRelation : string) : string :=
  let user := userObjectID in
  let user := if negb (userObjectType =s "")
              then userObjectType +:+ ":" +:+ userObjectID else user in
  if negb (userRelation =s "") then user +:+ "#" +:+ userRelation else user.

Definition IsSelfDefining (tuple : TupleKey) : bool :=
  let '(userObject, userRelation) := SplitObjectRelation (User tuple) in
  (Relation tuple =s userRelation) && (Object tuple =s userObject).

Definition UsersetMatchTypeAndRelation (userset relation typee : string) : bool :=
  let '(userObjectType, _, userRelation) := ToUserParts userset in
  (relation =s userRelation) && (typee =s userObjectType).

(** ** Printing, validity, parsing *)

Definition TupleKeyToString (tk : TupleKey) : string :=
  Object tk +:+ "#" +:+ Relation tk +:+ "@" +:+ User tk.

Definition TupleKeyWithConditionToString (tk : TupleKey) : string :=
  match Condition tk with
  | Some c => TupleKeyToString tk +:+ " (condition " +:+ cond_Name c +:+ ")"
  | None => TupleKeyToString tk
  end.

Definition userIDRegex : list re_item := [ReNegPlus (":" :: "#" :: re_space)%char].
Definition objectRegex : list re_item :=
  [ReNegPlus (":" :: "#" :: re_space)%char; ReLit ":"; ReNegPlus ("#" :: ":" :: re_space)%char].
Definition userSetRegex : list re_item :=
  [ReNegPlus (":" :: "#" :: re_space)%char; ReLit ":";
   ReNegPlus ("#" :: ":" :: "*" :: re_space)%char; ReLit "#";
   ReNegPlus (":" :: "#" :: "*" :: re_space)%char].
Definition relationRegex : list re_item := [ReNegPlus (":" :: "#" :: "@" :: re_space)%char].

Definition IsValidObject (s : string) : bool := re_match objectRegex s.
Definition IsValidRelation (s : string) : bool := re_match relationRegex s.
Definition IsValidUser (user : string) : bool :=
  (user =s Wildcard) || re_match userIDRegex user || re_match objectRegex user
  || re_match userSetRegex user.

(** The five errors of [ParseTupleString]. *)
Inductive ParseError :=
| ErrNoHash | ErrObjectFormat | ErrNoAt | ErrRelationFormat | ErrUserFormat.

Definition ParseTupleString (s : string) : outcome ParseError TupleKey :=
  let '(object, rhs, found) := Cut s "#" in
  if negb found then Throw ErrNoHash
  else if negb (IsValidObject object) then Throw ErrObjectFormat
  else
    let '(relation, user, found) := Cut rhs "@" in
    if negb found then Throw ErrNoAt
    else if negb (IsValidRelation relation) then Throw ErrRelationFormat
    else if negb (IsValidUser user) then Throw ErrUserFormat
    else Ret (mkTupleKey object relation user None).

Definition MustParseTupleString (s : string) : outcome unit TupleKey :=
  match ParseTupleString s with
  | Ret t => Ret t
  | Throw _ => Panic "parse error"
  | Panic w => Panic w
  end.

(** ** Ordering *)

(** [TupleKeys.Less(i, j)] on the two keys at [i] and [j]. *)
Definition Less (ti tj : TupleKey) : bool :=
  if negb (Object ti =s Object tj) then String.ltb (Object ti) (Object tj)
  else if negb (Relation ti =s Relation tj) then String.ltb (Relation ti) (Relation tj)
  else if negb (User ti =s User tj) then String.ltb (User ti) (User tj)
  else if (bool_decide (is_Some (Condition ti)) || bool_decide (is_Some (Condition tj)))
          && negb (GetName (Condition ti) =s GetName (Condition tj))
  then String.ltb (GetName (Condition ti)) (GetName (Condition tj))
  else true.

(** ** Lemmas: splitting *)

Lemma SplitObject_none s : has_byte ":" s = false → SplitObject s = ("", s).
Proof. intros Hs%IndexByte_None. unfold SplitObject. by rewrite Hs. Qed.

Lemma SplitObject_build t id : has_byte ":" t = false → SplitObject (BuildObject t id) = (t, id).
Proof.
  intros Ht. unfold SplitObject, BuildObject. rewrite str_app_char, (IndexByte_app t ":" id) by done.
  rewrite str_take_app, str_drop_app_S. case_bool_decide as Hlen; [|done].
  rewrite str_length_app in Hlen. simpl in Hlen.
  assert (String.length id = 0)%nat as Hid by lia. by destruct id.
Qed.

(** [SplitObject] cuts at the first colon, or returns an empty type. *)
Lemma SplitObject_cases s :
  (has_byte ":" s = false ∧ SplitObject s = ("", s)) ∨
  (∃ t id, s = BuildObject t id ∧ has_byte ":" t = false ∧ SplitObject s = (t, id)).
Proof.
  destruct (first_byte_split s ":") as [Hs|(t&id&->&Ht)].
  - left. split; [done|by apply SplitObject_none].
  - right. exists t, id. split_and!; [done|done|by apply SplitObject_build].
Qed.

Lemma SplitObjectRelation_none s : has_byte "#" s = false → SplitObjectRelation s = (s, "").
Proof. intros Hs%LastIndexByte_None. unfold SplitObjectRelation. by rewrite Hs. Qed.

Lemma SplitObjectRelation_build o r :
  has_byte "#" r = false → SplitObjectRelation (ToObjectRelationString o r) = (o, r).
Proof.
  intros Hr. unfold SplitObjectRelation, ToObjectRelationString.
  rewrite str_app_char, (LastIndexByte_app o "#" r) by done.
  rewrite str_take_app, str_drop_app_S. case_bool_decide as Hlen; [|done].
  rewrite str_length_app in Hlen. simpl in Hlen.
  assert (String.length r = 0)%nat as Hid by lia. by destruct r.
Qed.

Lemma SplitObjectRelation_cases s :
  (has_byte "#" s = false ∧ SplitObjectRelation s = (s, "")) ∨
  (∃ o r, s = ToObjectRelationString o r ∧ has_byte "#" r = false ∧
          SplitObjectRelation s = (o, r)).
Proof.
  destruct (last_byte_split s "#") as [Hs|(o&r&->&Hr)].
  - left. split; [done|by apply SplitObjectRelation_none].
  - right. exists o, r. split_and!; [done|done|by apply SplitObjectRelation_build].
Qed.

Lemma has_byte_BuildObject c t id :
  has_byte c (BuildObject t id) = has_byte c t || (bool_decide (c = ":"%char) || has_byte c id).
Proof. unfold BuildObject. by rewrite has_byte_app. Qed.

Lemma GetType_build t id : has_byte ":" t = false → GetType (BuildObject t id) = t.
Proof. intros. unfold GetType. by rewrite SplitObject_build. Qed.

(** ** Lemmas: the regular expressions *)

(** The class the expressions use for types. *)
Abbreviation type_word := (word (":" :: "#" :: re_space)%char).

Lemma IsValidObject_spec s :
  IsValidObject s = true ↔
  ∃ t id, s = BuildObject t id ∧ type_word t ∧ word ("#" :: ":" :: re_space)%char id.
Proof.
  unfold IsValidObject, objectRegex. rewrite re_match_plus. setoid_rewrite re_match_lit.
  setoid_rewrite re_match_plus. setoid_rewrite re_match_nil. split.
  - intros (t&?&->&Ht&?&->&id&?&->&Hid&->). exists t, id. by rewrite str_app_nil_r.
  - intros (t&id&->&Ht&Hid). exists t, (String ":" id). split_and!; [done..|].
    exists id. split; [done|]. exists id, "". by rewrite str_app_nil_r.
Qed.

Lemma IsValidRelation_spec s :
  IsValidRelation s = true ↔ word (":" :: "#" :: "@" :: re_space)%char s.
Proof.
  unfold IsValidRelation, relationRegex. rewrite re_match_plus. setoid_rewrite re_match_nil.
  split.
  - intros (a&?&->&Ha&->). by rewrite str_app_nil_r.
  - intros Hs. exists s, "". by rewrite str_app_nil_r.
Qed.

(** A string [type:id#relation] the way [userSetRegex] reads it. *)
Definition UsersetString (t id r : string) : string :=
  ToObjectRelationString (BuildObject t id) r.

Lemma userSetRegex_spec s :
  re_match userSetRegex s = true ↔
  ∃ t id r, s = UsersetString t id r ∧ type_word t ∧
    word ("#" :: ":" :: "*" :: re_space)%char id ∧
    word (":" :: "#" :: "*" :: re_space)%char r.
Proof.
  unfold userSetRegex, UsersetString, ToObjectRelationString, BuildObject.
  rewrite re_match_plus. setoid_rewrite re_match_lit.
  setoid_rewrite re_match_plus. setoid_rewrite re_match_lit. setoid_rewrite re_match_plus.
  setoid_rewrite re_match_nil. split.
  - intros (t&?&->&Ht&?&->&id&?&->&Hid&?&->&r&?&->&Hr&->).
    exists t, id, r. by rewrite str_app_nil_r, str_app_assoc.
  - intros (t&id&r&->&Ht&Hid&Hr). exists t, (String ":" (id +:+ String "#" r)).
    split_and!; [by rewrite str_app_assoc|done|].
    eexists; split; [done|]. exists id, (String "#" r). split_and!; [done..|].
    eexists; split; [done|]. exists r, "". by rewrite str_app_nil_r.
Qed.

Lemma userIDRegex_spec s : re_match userIDRegex s = true ↔ type_word s.
Proof.
  unfold userIDRegex. rewrite re_match_plus. setoid_rewrite re_match_nil. split.
  - intros (a&?&->&Ha&->). by rewrite str_app_nil_r.
  - intros Hs. exists s, "". by rewrite str_app_nil_r.
Qed.

(** The three shapes of a valid user. *)
Lemma IsValidUser_cases s :
  IsValidUser s = true →
  (has_byte ":" s = false ∧ has_byte "#" s = false ∧ s ≠ "") ∨
  (∃ t id, s = BuildObject t id ∧ type_word t ∧ word ("#" :: ":" :: re_space)%char id) ∨
  (∃ t id r, s = UsersetString t id r ∧ type_word t ∧
     word ("#" :: ":" :: "*" :: re_space)%char id ∧
     word (":" :: "#" :: "*" :: re_space)%char r).
Proof.
  unfold IsValidUser. rewrite !orb_true_iff. intros [[[Hs|Hs]|Hs]|Hs].
  - apply bool_decide_eq_true in Hs as ->. by left.
  - left. apply userIDRegex_spec in Hs. split_and!; [| |by destruct Hs].
    all: eapply word_has_byte; [done|set_solver].
  - right; left. by apply IsValidObject_spec.
  - right; right. by apply userSetRegex_spec.
Qed.

(** Discharge a goal [has_byte c s = false] from a [word] hypothesis on [s]. *)
Ltac word_byte :=
  match goal with
  | H : word _ ?s |- has_byte _ ?s = false => eapply word_has_byte; [exact H|set_solver]
  | H : word _ ?s |- ?s ≠ "" => exact (proj1 H)
  end.

Lemma has_byte_UsersetString c t id r :
  has_byte c (UsersetString t id r) = has_byte c t || (bool_decide (c = ":"%char) || has_byte c id) || (bool_decide (c = "#"%char) || has_byte c r).
Proof. unfold UsersetString, ToObjectRelationString. by rewrite has_byte_app, has_byte_BuildObject. Qed.

(** Valid users have no white space. *)
Lemma IsValidUser_no_re_space c s : c ∈ re_space → IsValidUser s = true → has_byte c s = false.
Proof.
  intros Hc. assert (c ≠ ":"%char ∧ c ≠ "#"%char ∧ c ≠ "*"%char) as (H1&H2&H3).
  { split_and!; intros ->; unfold re_space in Hc; set_solver. }
  unfold IsValidUser. rewrite !orb_true_iff. intros [[[Hs|Hs]|Hs]|Hs].
  - apply bool_decide_eq_true in Hs as ->. unfold Wildcard. by rewrite has_byte_cons, bool_decide_false.
  - apply userIDRegex_spec in Hs. word_byte.
  - apply IsValidObject_spec in Hs as (t&id&->&Ht&Hid). rewrite has_byte_BuildObject, bool_decide_false by done.
    by rewrite (word_has_byte _ t), (word_has_byte _ id) by (done || set_solver).
  - apply userSetRegex_spec in Hs as (t&id&r&->&Ht&Hid&Hr). rewrite has_byte_UsersetString, !bool_decide_false by done.
    by rewrite (word_has_byte _ t), (word_has_byte _ id), (word_has_byte _ r) by (done || set_solver).
Qed.

Lemma IsValidUser_no_space s : IsValidUser s = true → has_byte " " s = false.
Proof. apply IsValidUser_no_re_space. unfold re_space. set_solver. Qed.

Lemma ToUserParts_userset t id r :
  has_byte ":" t = false → has_byte "#" r = false →
  ToUserParts (UsersetString t id r) = (t, id, r).
Proof.
  intros. unfold ToUserParts, UsersetString.
  by rewrite SplitObjectRelation_build, SplitObject_build.
Qed.

Lemma ToUserParts_object t id :
  has_byte ":" t = false → has_byte "#" t = false → has_byte "#" id = false →
  ToUserParts (BuildObject t id) = (t, id, "").
Proof.
  intros Ht Ht' Hid. unfold ToUserParts. rewrite SplitObjectRelation_none.
  - by rewrite SplitObject_build.
  - by rewrite has_byte_BuildObject, Ht', Hid.
Qed.

(** ** Theorems *)

(** [ParseTupleString] and [TupleKeyToString] are inverse to each other:
    parsing succeeds with [tk] exactly when the input is the printed form of a
    condition-free [tk] whose object, relation and user are valid. *)
Theorem ParseTupleString_iff s tk :
  ParseTupleString s = Ret tk ↔
  s = TupleKeyToString tk ∧ Condition tk = None ∧
  IsValidObject (Object tk) = true ∧ IsValidRelation (Relation tk) = true ∧
  IsValidUser (User tk) = true.
Proof.
  unfold ParseTupleString. split.
  - destruct (first_byte_split s "#") as [Hs|(o&rhs&->&Ho)]; [by rewrite Cut_none|].
    rewrite Cut_app by done. simpl.
    destruct (IsValidObject o) eqn:Hvo; simpl; [|done].
    destruct (first_byte_split rhs "@") as [Hr|(r&u&->&Hr)]; [by rewrite Cut_none|].
    rewrite Cut_app by done. simpl.
    destruct (IsValidRelation r) eqn:Hvr; simpl; [|done].
    destruct (IsValidUser u) eqn:Hvu; simpl; [|done].
    intros [= <-]. done.
  - destruct tk as [o r u c]; simpl. intros (->&->&Hvo&Hvr&Hvu).
    unfold TupleKeyToString; simpl. rewrite !str_app_char.
    apply IsValidObject_spec in Hvo as Hwo. destruct Hwo as (t&id&Heq&Ht&Hid).
    apply IsValidRelation_spec in Hvr as Hwr.
    rewrite Cut_app; [simpl; rewrite Hvo; simpl|].
    + rewrite Cut_app by word_byte. simpl. by rewrite Hvr, Hvu.
    + rewrite Heq, has_byte_BuildObject. apply orb_false_iff. split; [word_byte|].
      apply orb_false_iff. split; [done|word_byte].
Qed.

(** Splitting a valid user string into type, id and relation and joining the
    parts again gives the string back ([FromUserParts] after [ToUserParts]). *)
Theorem FromUserParts_ToUserParts s :
  IsValidUser s = true →
  let '(t, id, r) := ToUserParts s in FromUserParts t id r = s.
Proof.
  intros [(Hc&Hh&_)|[(t&id&->&Ht&Hid)|(t&id&r&->&Ht&Hid&Hr)]]%IsValidUser_cases.
  - unfold ToUserParts. rewrite SplitObjectRelation_none, SplitObject_none by done. done.
  - rewrite ToUserParts_object by word_byte. unfold FromUserParts.
    by rewrite (bool_decide_false (t = "")) by word_byte.
  - rewrite ToUserParts_userset by word_byte. unfold FromUserParts.
    rewrite (bool_decide_false (t = "")), (bool_decide_false (r = "")) by word_byte.
    simpl. done.
Qed.

Lemma FromUserParts_ToUserParts_witness :
  IsValidUser "group:eng#member" = true ∧ FromUserParts "group" "eng" "member" = "group:eng#member".
Proof. split; [reflexivity|]. apply (FromUserParts_ToUserParts "group:eng#member"). reflexivity. Defined.

(** The user protos whose string form is unambiguous: an object or wildcard type
    without a colon, no hash inside, a relation that is present. *)
Definition wf_user_proto (u : UserProto) : Prop :=
  match u with
  | User_Wildcard t => has_byte ":" t = false ∧ has_byte "#" t = false
  | User_Object t id =>
      has_byte ":" t = false ∧ has_byte "#" t = false ∧ has_byte "#" id = false ∧ id ≠ "*"
  | User_Userset t id r => has_byte ":" t = false ∧ has_byte "#" r = false ∧ r ≠ ""
  | UserUnset => False
  end.

(** [StringToUserProto] is a left inverse of [UserProtoToString] on every
    well-formed user (object, userset or typed wildcard), and the printing does
    not panic. *)
Theorem StringToUserProto_inverse u :
  wf_user_proto u → ∃ s, UserProtoToString u = Ret s ∧ StringToUserProto s = u.
Proof.
  unfold StringToUserProto. destruct u as [t|t id r|t id|]; simpl.
  - intros [Hc Hh]. exists (BuildObject t "*"). split; [done|].
    rewrite SplitObjectRelation_none by by rewrite has_byte_BuildObject, Hh.
    by rewrite SplitObject_build.
  - intros (Hc&Hh&Hr). exists (UsersetString t id r). split.
    { unfold UsersetString, ToObjectRelationString, BuildObject. by rewrite !str_app_assoc. }
    unfold UsersetString. rewrite SplitObjectRelation_build, SplitObject_build by done.
    by rewrite (bool_decide_false (r = "")).
  - intros (Hc&Hh&Hi&Hw). exists (BuildObject t id). split; [done|].
    rewrite SplitObjectRelation_none by by rewrite has_byte_BuildObject, Hh, Hi.
    rewrite SplitObject_build by done. by rewrite (bool_decide_false (id = "*")).
  - done.
Qed.

Lemma StringToUserProto_inverse_witness :
  wf_user_proto (User_Userset "group" "eng" "member") ∧
  ∃ s, UserProtoToString (User_Userset "group" "eng" "member") = Ret s ∧
       StringToUserProto s = User_Userset "group" "eng" "member".
Proof.
  assert (wf_user_proto (User_Userset "group" "eng" "member")) as Hwf by (vm_compute; split_and!; done).
  split; [exact Hwf|]. exact (StringToUserProto_inverse _ Hwf).
Defined.

(** The key [TupleKeys.Less] sorts by. *)
Definition sort_key (tk : TupleKey) : string * string * string * string :=
  (Object tk, Relation tk, User tk, GetName (Condition tk)).

(** Lexicographic strict order on the sort key. *)
Definition key_lt (a b : TupleKey) : Prop :=
  String.ltb (Object a) (Object b) = true ∨
  Object a = Object b ∧ (String.ltb (Relation a) (Relation b) = true ∨
  Relation a = Relation b ∧ (String.ltb (User a) (User b) = true ∨
  User a = User b ∧ String.ltb (GetName (Condition a)) (GetName (Condition b)) = true)).

(** One level of a lexicographic comparison. *)
Lemma lex_level s t (rest : bool) :
  (if negb (s =s t) then String.ltb s t else rest) = true ↔
  String.ltb s t = true ∨ s = t ∧ rest = true.
Proof.
  case_bool_decide as Hst; simpl; [subst|].
  - rewrite str_ltb_irrefl. naive_solver.
  - naive_solver.
Qed.

Lemma lex_last c d (n := GetName c) (m := GetName d) :
  (if (bool_decide (is_Some c) || bool_decide (is_Some d)) && negb (n =s m)
   then String.ltb n m else true) = true ↔ String.ltb n m = true ∨ n = m.
Proof.
  subst n m. destruct (bool_decide (GetName c = GetName d)) eqn:Hn; bool_norm; simpl.
  - rewrite andb_false_r. naive_solver.
  - rewrite andb_true_r. destruct c, d; simpl; naive_solver.
Qed.

Lemma Less_key_lt a b : Less a b = true ↔ key_lt a b ∨ sort_key a = sort_key b.
Proof.
  unfold Less, key_lt, sort_key. rewrite !lex_level, lex_last.
  rewrite !pair_equal_spec. tauto.
Qed.

Lemma Less_antisym a b : Less a b = true → Less b a = true → sort_key a = sort_key b.
Proof.
  rewrite !Less_key_lt. intros [Hab|?] [Hba|?]; try done. exfalso. revert Hab Hba. unfold key_lt.
  assert (∀ s t, String.ltb s t = true → String.ltb t s = true → False) as Hasym.
  { intros s t Hst Hts. pose proof (str_ltb_trans _ _ _ Hst Hts) as H. by rewrite str_ltb_irrefl in H. }
  intros [H1|(E1&[H2|(E2&[H3|(E3&H4)])])] [K1|(F1&[K2|(F2&[K3|(F3&K4)])])]; try (by eapply Hasym);
    rewrite ?E1, ?E2, ?E3, ?F1, ?F2, ?F3, ?str_ltb_irrefl in *; try done; by eapply Hasym.
Qed.

Lemma str_ltb_trichotomy s t : String.ltb s t = true ∨ s = t ∨ String.ltb t s = true.
Proof.
  destruct (String.ltb s t) eqn:E; [by left|]. destruct (String.ltb t s) eqn:E'; [by right; right|]. right; left.
  by apply str_ltb_total.
Qed.

Lemma key_lt_trichotomy a b : key_lt a b ∨ sort_key a = sort_key b ∨ key_lt b a.
Proof.
  unfold key_lt, sort_key.
  destruct (str_ltb_trichotomy (Object a) (Object b)) as [?|[E1|?]]; [naive_solver| |naive_solver].
  destruct (str_ltb_trichotomy (Relation a) (Relation b)) as [?|[E2|?]]; [naive_solver| |naive_solver].
  destruct (str_ltb_trichotomy (User a) (User b)) as [?|[E3|?]]; [naive_solver| |naive_solver].
  destruct (str_ltb_trichotomy (GetName (Condition a)) (GetName (Condition b))) as [?|[E4|?]]; [naive_solver| |naive_solver].
  right. left. by rewrite E1, E2, E3, E4.
Qed.

Lemma Less_total a b : Less a b = false → Less b a = true.
Proof.
  intros Hab. apply Less_key_lt. destruct (key_lt_trichotomy a b) as [Hlt|[Heq|Hlt]]; [|by right|by left].
  by rewrite (proj2 (Less_key_lt a b) (or_introl Hlt)) in Hab.
Qed.

Lemma key_lt_trans a b c : key_lt a b → key_lt b c → key_lt a c.
Proof.
  unfold key_lt. intros [H1|(E1&[H2|(E2&[H3|(E3&H4)])])] [K1|(F1&[K2|(F2&[K3|(F3&K4)])])];
    rewrite ?E1, ?E2, ?E3, ?F1, ?F2, ?F3 in *; eauto 10 using str_ltb_trans.
Qed.

Lemma Less_trans a b c : Less a b = true → Less b c = true → Less a c = true.
Proof.
  rewrite !Less_key_lt. intros [Hab|Hab] [Hbc|Hbc].
  - left. by eapply key_lt_trans.
  - left. injection Hbc as E1 E2 E3 E4. unfold key_lt in *. by rewrite <-E1, <-E2, <-E3, <-E4.
  - left. injection Hab as E1 E2 E3 E4. unfold key_lt in *. by rewrite E1, E2, E3, E4.
  - right. congruence.
Qed.

(** [TupleKeys.Less] is the reflexive closure of the lexicographic order on
    (object, relation, user, condition name).  In particular it answers true on
    two tuples with equal keys, in both directions, where its comment says that
    two false answers mean equality. *)
Theorem Less_reflexive_closure a b :
  Less a b = true ↔ key_lt a b ∨ sort_key a = sort_key b.
Proof. apply Less_key_lt. Qed.
