(* ===== verification/CacheKeys.v ===== *)
(** * Cache keys: [pkg/storage/cache.go]

    The string under which the answer of a check is cached: the tuple, the store, the
    model, the contextual tuples in sorted order and the fields of the request's context in
    sorted order.  Also the keys of the other caches. *)

From S2P Require Import Prelude GoStd Tuple.

Local Open Scope go_scope.

Inductive KeyErr := ErrUnexpectedStructValue.

(** [sort.Sort(tuple.TupleKeys)]: some permutation, in the order of [Less] when no two keys
    compare equal ([Less] is not a strict order on equal keys). *)
Class SortTupleKeys := {
  sort_TupleKeys : list TupleKey → list TupleKey;
  sort_TupleKeys_perm l : sort_TupleKeys l ≡ₚ l;
  sort_TupleKeys_sorted l : NoDup (sort_key <$> l) → StronglySorted (λ a b, Less a b = true) (sort_TupleKeys l);
}.

(** ** Values *)

(** The strings written one after the other, the first error ending the writing. *)
Fixpoint write_all (ws : list (outcome KeyErr string)) : outcome KeyErr string :=
  match ws with
  | [] => Ret ""
  | w :: ws => let! s := w in let! rest := write_all ws in Ret (s +:+ rest)
  end.

(** The elements of a list, with a comma after each but the last. *)
Fixpoint write_separated (ws : list (outcome KeyErr string)) : outcome KeyErr string :=
  match ws with
  | [] => Ret ""
  | [w] => w
  | w :: ws => let! s := w in let! rest := write_separated ws in Ret (s +:+ "," +:+ rest)
  end.

(** The fields in the sorted order of their names, which are distinct. *)
Definition sort_fields {A} (fields : list (string * A)) : list (string * A) :=
  SliceStable (λ a b, String.ltb a.1 b.1) fields.

Definition write_fields (fields : list (string * outcome KeyErr string)) : outcome KeyErr string :=
  write_all ((λ p : string * outcome KeyErr string, let! v := p.2 in Ret ("'" +:+ p.1 +:+ ":'" +:+ v +:+ ",")) <$> sort_fields fields).

Fixpoint writeValue (v : Value) : outcome KeyErr string :=
  match v with
  | BoolValue b => Ret (if b then "true" else "false")
  | NullValue => Ret "null"
  | StringValue s => Ret s
  | NumberValue text => Ret text
  | ListValue values => write_separated (writeValue <$> values)
  | StructValue m => write_fields (map_fold (λ k v fields, (k, writeValue v) :: fields) [] m)
  | Value_nil => Throw ErrUnexpectedStructValue
  end.

Definition writeStruct (s : option Struct) : outcome KeyErr string :=
  match s with
  | None => Ret ""
  | Some s => writeValue (StructValue (Fields s))
  end.

(** ** Tuples *)

Definition writeTuple (tk : TupleKey) : outcome KeyErr string :=
  let! cond := match Condition tk with
               | None => Ret ""
               | Some c =>
                   let! ctx := writeStruct (cond_Context c) in
                   Ret (" with " +:+ cond_Name c +:+ match cond_Context c with Some _ => " " | None => "" end +:+ ctx)
               end in
  Ret (Object tk +:+ "#" +:+ Relation tk +:+ cond +:+ "@" +:+ User tk).

Definition writeTuples `{!SortTupleKeys} (tuples : list TupleKey) : outcome KeyErr string :=
  let! s := write_separated (writeTuple <$> sort_TupleKeys tuples) in
  Ret ("/" +:+ s).

(** ** Checks *)

Definition SubproblemCachePrefix : string := "sp.".

Record CheckCacheKeyParams := mkCheckCacheKeyParams {
  ck_StoreID : string;
  ck_AuthorizationModelID : string;
  ck_TupleKey : TupleKey;
  ck_ContextualTuples : list TupleKey;
  ck_Context : option Struct;
}.

Definition WriteInvariantCheckCacheKey `{!SortTupleKeys} (params : CheckCacheKeyParams) : outcome KeyErr string :=
  let! tuples := if bool_decide (ck_ContextualTuples params = []) then Ret "" else writeTuples (ck_ContextualTuples params) in
  let! context := match ck_Context params with None => Ret "" | Some s => writeStruct (Some s) end in
  Ret (" " +:+ SubproblemCachePrefix +:+ ck_StoreID params +:+ "/" +:+ ck_AuthorizationModelID params +:+ tuples +:+ context).

Definition WriteCheckCacheKey `{!SortTupleKeys} (params : CheckCacheKeyParams) : outcome KeyErr string :=
  let! invariant := WriteInvariantCheckCacheKey params in
  Ret (TupleKeyToString (ck_TupleKey params) +:+ invariant).

(** ** The keys of the iterator and changelog caches *)

Definition GetChangelogCacheKey (storeID : string) : string := "cc." +:+ storeID.
Definition GetInvalidIteratorCacheKey (storeID : string) : string := "iq." +:+ storeID.
Definition GetInvalidIteratorByObjectRelationCacheKey (storeID object relation : string) : string :=
  "iq." +:+ storeID +:+ "-or/" +:+ object +:+ "#" +:+ relation.
Definition GetInvalidIteratorByUserObjectTypeCacheKeys (storeID : string) (users : list string) (objectType : string) : list string :=
  (λ user, "iq." +:+ storeID +:+ "-otr/" +:+ user +:+ "|" +:+ objectType) <$> users.
Definition GetReadUsersetTuplesCacheKeyPrefix (store object relation : string) : string :=
  "ic.rut/" +:+ store +:+ "/" +:+ object +:+ "#" +:+ relation.
Definition GetReadStartingWithUserCacheKeyPrefix (store objectType relation : string) : string :=
  "ic.rtwu/" +:+ store +:+ "/" +:+ objectType +:+ "#" +:+ relation.
Definition GetReadCacheKey (store tuple : string) : string := "ic.r/" +:+ store +:+ "/" +:+ tuple.

(** ** Errors *)

(** No value without kind. *)
Fixpoint kinded (v : Value) : bool :=
  match v with
  | Value_nil => false
  | ListValue values => forallb kinded values
  | StructValue m => map_fold (λ _ v b, kinded v && b) true m
  | _ => true
  end.

Definition kinded_struct (s : option Struct) : bool := match s with Some s => kinded (StructValue (Fields s)) | None => true end.
Definition kinded_tuple (tk : TupleKey) : bool := match Condition tk with Some c => kinded_struct (cond_Context c) | None => true end.

Lemma write_all_ok ws : is_ret (write_all ws) = forallb is_ret ws.
Proof. induction ws as [|[s|[]|w] ws IH]; simpl; try done. rewrite <-IH. by destruct (write_all ws). Qed.

Lemma write_separated_ok ws : is_ret (write_separated ws) = forallb is_ret ws.
Proof.
  induction ws as [|w ws IH]; [done|]. destruct ws as [|w' ws]; [by destruct w|]. cbn [write_separated forallb] in *.
  destruct w as [s|[]|w]; try done. cbn. rewrite <-IH. by destruct (match ws with [] => _ | _ => _ end).
Qed.

Lemma write_fields_ok fields : is_ret (write_fields fields) = forallb (λ p, is_ret p.2) fields.
Proof.
  unfold write_fields. rewrite write_all_ok. rewrite <-(forallb_perm _ _ _ (SliceStable_perm (λ a b, String.ltb a.1 b.1) fields)).
  unfold sort_fields. induction (SliceStable _ fields) as [|[k [v| |]] l IH]; simpl; by rewrite ?IH.
Qed.

Lemma writeValue_kinded v : is_ret (writeValue v) = kinded v.
Proof.
  induction v as [| | | |m IH|l IH|] using Value_nested_ind; try done; simpl.
  - rewrite write_fields_ok. revert IH.
    apply (map_fold_weak_ind (λ (l : list (string * outcome KeyErr string)) m, (∀ k v, m !! k = Some v → is_ret (writeValue v) = kinded v) →
      forallb (λ p, is_ret p.2) l = map_fold (λ _ v b, kinded v && b) true m)); [done|].
    intros k v m' l Hk IHm Hall. simpl. rewrite (Hall k v) by by rewrite lookup_insert_eq.
    rewrite map_fold_insert_L; [|intros; by destruct (kinded _), (kinded _)|done]. rewrite IHm; [done|].
    intros k' v' Hk'. apply (Hall k'). rewrite lookup_insert_ne; [done|]. by intros ->; rewrite Hk in Hk'.
  - rewrite write_separated_ok. induction l as [|v l IHl]; [done|]. csimpl. rewrite (IH v) by by left.
    rewrite IHl; [done|]. intros w Hw. apply IH. by right.
Qed.

Lemma writeStruct_kinded s : is_ret (writeStruct s) = kinded_struct s.
Proof. destruct s; [apply writeValue_kinded|done]. Qed.

Lemma writeTuple_kinded tk : is_ret (writeTuple tk) = kinded_tuple tk.
Proof.
  unfold writeTuple, kinded_tuple. destruct (Condition tk) as [c|]; [|done]. rewrite <-writeStruct_kinded.
  by destruct (writeStruct (cond_Context c)).
Qed.

Lemma writeTuples_kinded `{!SortTupleKeys} l : is_ret (writeTuples l) = forallb kinded_tuple l.
Proof.
  unfold writeTuples. rewrite <-(forallb_perm _ _ _ (sort_TupleKeys_perm l)).
  assert (forallb kinded_tuple (sort_TupleKeys l) = is_ret (write_separated (writeTuple <$> sort_TupleKeys l))) as ->.
  { rewrite write_separated_ok. induction (sort_TupleKeys l) as [|tk k IH]; [done|]. csimpl. by rewrite IH, writeTuple_kinded. }
  by destruct (write_separated _).
Qed.

(** The key of a check can be written exactly when every value in it has a kind. *)
Lemma WriteCheckCacheKey_ok `{!SortTupleKeys} p :
  is_ret (WriteCheckCacheKey p) = forallb kinded_tuple (ck_ContextualTuples p) && kinded_struct (ck_Context p).
Proof.
  assert (is_ret (WriteCheckCacheKey p) = is_ret (WriteInvariantCheckCacheKey p)) as ->.
  { unfold WriteCheckCacheKey. by destruct (WriteInvariantCheckCacheKey p). }
  unfold WriteInvariantCheckCacheKey. set (w := if bool_decide _ then _ else _).
  assert (is_ret w = forallb kinded_tuple (ck_ContextualTuples p)) as <-.
  { unfold w. case_bool_decide as Hc; [by rewrite Hc|apply writeTuples_kinded]. }
  rewrite <-writeStruct_kinded. destruct (ck_Context p) as [st|]; [destruct w, (writeStruct (Some st))|destruct w]; done.
Qed.

Lemma write_all_no_panic ws : Forall no_panic ws → no_panic (write_all ws).
Proof. induction 1 as [|w ws Hw _ IH]; simpl; [done|]. apply no_panic_bind; [done|]. intros s. by apply no_panic_bind. Qed.

Lemma write_separated_no_panic ws : Forall no_panic ws → no_panic (write_separated ws).
Proof.
  induction 1 as [|w ws Hw _ IH]; simpl; [done|]. destruct ws; [done|]. apply no_panic_bind; [done|]. intros s. by apply no_panic_bind.
Qed.

Lemma writeValue_no_panic v : no_panic (writeValue v).
Proof.
  induction v as [| | | |m IH|l IH|] using Value_nested_ind; try done.
  - apply write_all_no_panic, Forall_forall. intros w (p&->&Hp)%list_elem_of_fmap. apply no_panic_bind; [|done].
    assert (p ∈ map_fold (λ k v fields, (k, writeValue v) :: fields) [] m) as Hin by by rewrite <-(SliceStable_perm (λ a b, String.ltb a.1 b.1)).
    revert IH Hin. apply (map_fold_weak_ind (λ l m, (∀ k v, m !! k = Some v → no_panic (writeValue v)) → p ∈ l → no_panic p.2)).
    + by intros _ ?%not_elem_of_nil.
    + intros k v m' l Hk IHm Hall [->|Hin]%elem_of_cons; [apply (Hall k); by rewrite lookup_insert_eq|]. apply IHm; [|done].
      intros k' v' Hk'. apply (Hall k'). rewrite lookup_insert_ne; [done|]. by intros ->; rewrite Hk in Hk'.
  - apply write_separated_no_panic, Forall_forall. intros w (v&->&Hv)%list_elem_of_fmap. by apply IH.
Qed.

Lemma writeStruct_no_panic s : no_panic (writeStruct s).
Proof. destruct s; [apply writeValue_no_panic|done]. Qed.

Lemma WriteInvariantCheckCacheKey_no_panic `{!SortTupleKeys} p : no_panic (WriteInvariantCheckCacheKey p).
Proof.
  apply no_panic_bind; [|intros s; apply no_panic_bind; [|done]].
  - case_bool_decide; [done|]. apply no_panic_bind; [|done]. apply write_separated_no_panic, Forall_forall.
    intros w (tk&->&_)%list_elem_of_fmap. apply no_panic_bind; [|done]. destruct (Condition tk); [|done].
    apply no_panic_bind; [apply writeStruct_no_panic|done].
  - destruct (ck_Context p); [apply writeStruct_no_panic|done].
Qed.

(** ** Order *)

Lemma StronglySorted_Less_unique l k :
  NoDup (sort_key <$> l) → l ≡ₚ k → StronglySorted (λ a b, Less a b = true) l → StronglySorted (λ a b, Less a b = true) k → l = k.
Proof.
  intros Hn Hp Hl. revert k Hp. induction Hl as [|x l Hl IH Hx]; intros k Hp Hk.
  - by apply Permutation_nil_l in Hp.
  - destruct Hk as [|y k Hk Hy]; [by apply Permutation_nil_r in Hp|].
    assert (x = y) as ->.
    { destruct (decide (x = y)) as [|Hne]; [done|]. exfalso. rewrite Forall_forall in Hx, Hy.
      assert (y ∈ l) as Hyl by (assert (y ∈ x :: l) by (rewrite Hp; by left); set_solver).
      assert (x ∈ k) as Hxk by (assert (x ∈ y :: k) by (rewrite <-Hp; by left); set_solver).
      apply NoDup_cons in Hn as [Hn _]. apply Hn. apply list_elem_of_fmap. exists y. split; [|done].
      specialize (Hx y Hyl). specialize (Hy x Hxk). simpl in *. by apply Less_antisym. }
    f_equal. apply Permutation_cons_inv in Hp. apply NoDup_cons in Hn as [_ Hn]. by apply IH.
Qed.

(** The order of the contextual tuples does not change the cache key of a check, as long
    as no two of them agree on object, relation, user and condition name: any two requests
    whose contextual tuples are permutations of each other share their key, whatever the
    sort does with equal elements. *)
Theorem WriteCheckCacheKey_order_independent (st st' : SortTupleKeys) (store model : string) (tk : TupleKey)
    (tuples tuples' : list TupleKey) (context : option Struct) :
  tuples ≡ₚ tuples' → NoDup (sort_key <$> tuples) →
  @WriteCheckCacheKey st (mkCheckCacheKeyParams store model tk tuples context) =
  @WriteCheckCacheKey st' (mkCheckCacheKeyParams store model tk tuples' context).
Proof.
  intros Hp Hn.
  assert (NoDup (sort_key <$> tuples')) as Hn' by by rewrite <-Hp.
  assert (@sort_TupleKeys st tuples = @sort_TupleKeys st' tuples') as Hs.
  { apply StronglySorted_Less_unique; [by rewrite sort_TupleKeys_perm|by rewrite !sort_TupleKeys_perm|by apply sort_TupleKeys_sorted..]. }
  assert (bool_decide (tuples = []) = bool_decide (tuples' = [])) as Hnil.
  { apply bool_decide_ext. split; intros ->; [by apply Permutation_nil_l in Hp|by apply Permutation_nil_r in Hp]. }
  unfold WriteCheckCacheKey, WriteInvariantCheckCacheKey, writeTuples. simpl. by rewrite Hs, Hnil.
Qed.

(** ** What a key determines *)

Definition key_tuple_ok (tk : TupleKey) : Prop :=
  IsValidObject (Object tk) = true ∧ IsValidRelation (Relation tk) = true ∧ IsValidUser (User tk) = true.

Lemma valid_no_space tk :
  key_tuple_ok tk →
  has_byte " " (TupleKeyToString tk) = false ∧ has_byte "#" (Object tk) = false ∧ has_byte "@" (Relation tk) = false.
Proof.
  intros (Ho&Hr%IsValidRelation_spec&Hu%IsValidUser_no_space). apply IsValidObject_spec in Ho as (t&id&Ho&Ht&Hid).
  assert (∀ c, c ∈ ("#" :: " " :: [])%char → has_byte c (Object tk) = false) as Hob.
  { intros c Hc. rewrite Ho, has_byte_BuildObject.
    rewrite (word_has_byte _ t c Ht), (word_has_byte _ id c Hid) by set_solver.
    rewrite bool_decide_false; [done|]. intros ->. set_solver. }
  split_and!; [|apply Hob; set_solver|word_byte].
  unfold TupleKeyToString. rewrite !has_byte_app, Hu, (Hob " "%char), (word_has_byte _ (Relation tk) " " Hr) by set_solver. done.
Qed.

Lemma TupleKeyToString_valid_inj tk tk' :
  key_tuple_ok tk → key_tuple_ok tk' → TupleKeyToString tk = TupleKeyToString tk' →
  TupleKeyToTupleKeyWithoutCondition tk = TupleKeyToTupleKeyWithoutCondition tk'.
Proof.
  intros (_&Ho&Hr)%valid_no_space (_&Ho'&Hr')%valid_no_space Heq. unfold TupleKeyToString in Heq. rewrite !str_app_char in Heq.
  apply str_split_unique in Heq as [Heo Heq]; [|done..].
  apply str_split_unique in Heq as [Her Heu]; [|done..]. unfold TupleKeyToTupleKeyWithoutCondition. congruence.
Qed.

(** What follows the model in a key: nothing, contextual tuples or context fields. *)
Definition rest_starts (s : string) : Prop := s = "" ∨ ∃ s', s = String "/" s' ∨ s = String "'" s'.

Lemma write_fields_starts fields s : write_fields fields = Ret s → rest_starts s.
Proof.
  unfold write_fields. destruct (sort_fields fields) as [|[k v] l]; csimpl; [intros [= <-]; by left|].
  destruct v as [v| |]; csimpl; [|done..]. destruct (write_all _); csimpl; [|done..]. intros [= <-]. right.
  eexists. right. rewrite str_app_assoc, !str_app_char. done.
Qed.

Lemma WriteInvariant_shape `{!SortTupleKeys} p s :
  WriteInvariantCheckCacheKey p = Ret s →
  ∃ rest, s = String " " ("sp." +:+ (ck_StoreID p +:+ String "/" (ck_AuthorizationModelID p +:+ rest))) ∧ rest_starts rest.
Proof.
  unfold WriteInvariantCheckCacheKey. set (w := if bool_decide _ then _ else _).
  assert (∀ s', w = Ret s' → s' = "" ∨ ∃ s'', s' = String "/" s'') as Hw.
  { intros s'. unfold w. case_bool_decide; [intros [= <-]; by left|]. unfold writeTuples.
    destruct (write_separated _); csimpl; [|done..]. intros [= <-]. right. eexists. by rewrite str_app_char. }
  set (c := match ck_Context p with Some _ => _ | None => _ end).
  assert (∀ s', c = Ret s' → rest_starts s') as Hc.
  { intros s'. unfold c. destruct (ck_Context p); [|intros [= <-]; by left]. apply write_fields_starts. }
  destruct w as [t| |]; csimpl; [|done..]. destruct c as [x| |]; csimpl; [|done..]. intros [= <-]. exists (t +:+ x). split.
  - unfold SubproblemCachePrefix. by rewrite !str_app_char.
  - destruct (Hw t eq_refl) as [->|[t' ->]]; [by apply Hc|]. right. eexists. left. by rewrite str_app_cons.
Qed.

(** An identifier that the separators of the key do not occur in (the ids are ULIDs). *)
Definition key_id (s : string) : Prop := has_byte "/" s = false ∧ has_byte "'" s = false.

Lemma key_id_split a b r r' :
  key_id a → key_id b → rest_starts r → rest_starts r' → a +:+ r = b +:+ r' → a = b.
Proof.
  intros Ha Hb Hr Hr'. revert b Hb. induction a as [|c a IH]; intros [|d b] Hb Heq; rewrite ?str_app_cons in Heq; try done.
  - exfalso. change ("" +:+ r) with r in Heq. subst r. destruct Hb as [Hb1 Hb2]. cbn [has_byte] in Hb1, Hb2.
    destruct Hr as [?|[s' [[= -> _]|[= -> _]]]]; done.
  - exfalso. change ("" +:+ r') with r' in Heq. subst r'. destruct Ha as [Ha1 Ha2]. cbn [has_byte] in Ha1, Ha2.
    destruct Hr' as [?|[s' [[= -> _]|[= -> _]]]]; done.
  - injection Heq as -> Heq. f_equal. destruct Ha as [Ha1 Ha2], Hb as [Hb1 Hb2]. cbn [has_byte] in *.
    apply orb_false_iff in Ha1 as [_ ?], Ha2 as [_ ?], Hb1 as [_ ?], Hb2 as [_ ?]. by apply IH.
Qed.

(** C24: two checks with the same cache key are checks of the same object, relation and user
    in the same store under the same model, whatever their contextual tuples and contexts
    are: an entry is never read for another tuple, store or model. *)
Theorem WriteCheckCacheKey_inj `{!SortTupleKeys} (p p' : CheckCacheKeyParams) (k : string) :
  WriteCheckCacheKey p = Ret k → WriteCheckCacheKey p' = Ret k →
  key_tuple_ok (ck_TupleKey p) → key_tuple_ok (ck_TupleKey p') →
  key_id (ck_StoreID p) → key_id (ck_StoreID p') → key_id (ck_AuthorizationModelID p) → key_id (ck_AuthorizationModelID p') →
  TupleKeyToTupleKeyWithoutCondition (ck_TupleKey p) = TupleKeyToTupleKeyWithoutCondition (ck_TupleKey p') ∧
  ck_StoreID p = ck_StoreID p' ∧ ck_AuthorizationModelID p = ck_AuthorizationModelID p'.
Proof.
  unfold WriteCheckCacheKey. destruct (WriteInvariantCheckCacheKey p) as [s| |] eqn:E; csimpl; [|done..].
  destruct (WriteInvariantCheckCacheKey p') as [s'| |] eqn:E'; csimpl; [|done..]. intros [= <-] [= Heq] Ht Ht' Hs Hs' Hm Hm'.
  apply WriteInvariant_shape in E as (rest&->&Hr). apply WriteInvariant_shape in E' as (rest'&->&Hr').
  apply str_split_unique in Heq as [Htk Heq]; [|by apply valid_no_space..]. apply str_app_inj_l in Heq.
  apply str_split_unique in Heq as [Hst Heq]; [|by apply Hs'|by apply Hs].
  split_and!; [symmetry; by apply TupleKeyToString_valid_inj|done|apply (key_id_split _ _ rest rest'); done].
Qed.

(** The context of a check is not determined by its key: a list and the string of its
    elements joined by commas, a number and the string of its digits, and a string that
    spells out another field all give the same key, so that, with the query cache, a check
    can be answered with the answer for another context. *)
Theorem WriteCheckCacheKey_context_collisions `{!SortTupleKeys} (store model : string) (tk : TupleKey) (tuples : list TupleKey) :
  let key fields := WriteCheckCacheKey (mkCheckCacheKeyParams store model tk tuples (Some (mkStruct fields))) in
  key {["x" := ListValue [StringValue "a"; StringValue "b"]]} = key {["x" := StringValue "a,b"]} ∧
  key {["x" := NumberValue "1"]} = key {["x" := StringValue "1"]} ∧
  key (<["x" := StringValue "1"]> {["y" := StringValue "2"]}) = key {["x" := StringValue "1,'y:'2"]}.
Proof. done. Qed.

(** ** Witnesses *)

(** Insertion by [Less], the way [sort.Sort] sorts short slices. *)
Fixpoint insert_TupleKey (x : TupleKey) (l : list TupleKey) : list TupleKey :=
  match l with
  | [] => [x]
  | y :: l => if Less x y then x :: y :: l else y :: insert_TupleKey x l
  end.

Lemma insert_TupleKey_perm x l : insert_TupleKey x l ≡ₚ x :: l.
Proof. induction l as [|y l IH]; simpl; [done|]. destruct (Less x y); [done|]. by rewrite IH, (Permutation_swap x). Qed.

Lemma insertion_perm l : foldr insert_TupleKey [] l ≡ₚ l.
Proof. induction l as [|x l IH]; simpl; [done|]. by rewrite insert_TupleKey_perm, IH. Qed.

Lemma insertion_sorted l : StronglySorted (λ a b, Less a b = true) (foldr insert_TupleKey [] l).
Proof.
  induction l as [|x l IH]; simpl; [constructor|]. induction IH as [|y k Hk IHk Hy]; simpl; [by repeat constructor|].
  destruct (Less x y) eqn:Hxy.
  - constructor; [by constructor|]. constructor; [done|]. eapply Forall_impl; [exact Hy|]. intros z Hz. by eapply Less_trans.
  - constructor; [done|]. rewrite insert_TupleKey_perm. constructor; [|done]. by apply Less_total.
Qed.

Definition insertion_SortTupleKeys : SortTupleKeys := {|
  sort_TupleKeys := foldr insert_TupleKey [];
  sort_TupleKeys_perm := insertion_perm;
  sort_TupleKeys_sorted l _ := insertion_sorted l;
|}.

Definition key_tk : TupleKey := mkTupleKey "doc:1" "viewer" "user:x" None.
Definition key_contextual : list TupleKey :=
  [mkTupleKey "doc:2" "viewer" "user:x" (Some (mkCondition "c" (Some (mkStruct {["x" := BoolValue true]}))));
   mkTupleKey "doc:1" "owner" "group:g#member" None].
Definition key_context : option Struct := Some (mkStruct (<["b" := NumberValue "1"]> {["a" := NullValue]})).

(** A key, and the same one for the tuples in the other order. *)
Lemma WriteCheckCacheKey_order_independent_witness :
  @WriteCheckCacheKey insertion_SortTupleKeys (mkCheckCacheKeyParams "S" "M" key_tk key_contextual key_context) =
  Ret "doc:1#viewer@user:x sp.S/M/doc:1#owner@group:g#member,doc:2#viewer with c 'x:'true,@user:x'a:'null,'b:'1," ∧
  @WriteCheckCacheKey insertion_SortTupleKeys (mkCheckCacheKeyParams "S" "M" key_tk (reverse key_contextual) key_context) =
  @WriteCheckCacheKey insertion_SortTupleKeys (mkCheckCacheKeyParams "S" "M" key_tk key_contextual key_context).
Proof.
  split; [by vm_compute|].
  apply (@WriteCheckCacheKey_order_independent insertion_SortTupleKeys insertion_SortTupleKeys "S" "M" key_tk
    (reverse key_contextual) key_contextual key_context).
  - apply reverse_Permutation.
  - apply (bool_decide_unpack _). by vm_compute.
Defined.

Lemma WriteCheckCacheKey_inj_witness :
  let p := mkCheckCacheKeyParams "S" "M" key_tk key_contextual key_context in
  let p' := mkCheckCacheKeyParams "S" "M" (mkTupleKey "doc:1" "viewer" "user:x" (Some (mkCondition "c" None)))
              (reverse key_contextual) key_context in
  TupleKeyToTupleKeyWithoutCondition (ck_TupleKey p) = TupleKeyToTupleKeyWithoutCondition (ck_TupleKey p').
Proof.
  intros p p'.
  refine (proj1 (@WriteCheckCacheKey_inj insertion_SortTupleKeys p p'
    "doc:1#viewer@user:x sp.S/M/doc:1#owner@group:g#member,doc:2#viewer with c 'x:'true,@user:x'a:'null,'b:'1," _ _ _ _ _ _ _ _)).
  all: by vm_compute.
Defined.
