(* ===== verification/Iterators.v ===== *)
(** * Iterators: [pkg/storage/tuple_iterators.go], [pkg/storage/tuple_mappers.go]

    The generic [Iterator] interface as a class of operations on an iterator's
    state, the law an error-free implementation satisfies, and the iterators the
    storage layer composes: static, combined, tuple-key, filtered,
    conditions-filtered and ordered-combined ones, with the tuple mappers.  Loops
    that run until the inner iterator ends take fuel, one unit per call of the
    inner iterator; [None] means that the fuel ran out. *)

From S2P Require Import Prelude GoStd Tuple.

Local Open Scope go_scope.

(** ** The interface *)

(** What [ctx.Err()] returns when a call starts. *)
Inductive CtxErr := Canceled | DeadlineExceeded.
Definition Ctx : Type := option CtxErr.

(** Errors an iterator returns: [ErrIteratorDone], the context's, a mapper's or
    filter's, the datastore's. *)
Inductive IterErr :=
| ErrIteratorDone
| ErrCtx (e : CtxErr)
| ErrNotAscending (idx : nat)
| ErrUnexpectedUserset (user : string)
| ErrOther (why : string).

Global Instance CtxErr_eq_dec : EqDecision CtxErr.
Proof. solve_decision. Defined.
Global Instance IterErr_eq_dec : EqDecision IterErr.
Proof. solve_decision. Defined.

Definition IterIsDoneOrCancelled (err : IterErr) : bool :=
  match err with
  | ErrIteratorDone | ErrCtx Canceled | ErrCtx DeadlineExceeded => true
  | _ => false
  end.

(** [storage.Iterator[T]]: the methods on an iterator's state.  [remaining] is not
    a method: it bounds the number of items still to come, and is the fuel of the
    loops that read an iterator to its end. *)
Class Iterator (S T : Type) := {
  Next : Ctx → S → outcome IterErr T * S;
  Head : Ctx → S → outcome IterErr T * S;
  Stop : S → S;
  remaining : S → nat;
}.

(** The contract: [items s] is what the iterator still yields.  [Next] yields it in
    order and then answers [ErrIteratorDone]; [Head] shows the first item and, even if
    it moves the state, loses nothing. *)
Class IteratorSpec (S T : Type) `{!Iterator S T} := {
  items : S → list T;
  Next_items s :
    match items s with
    | x :: l => ∃ s', Next None s = (Ret x, s') ∧ items s' = l
    | [] => ∃ s', Next None s = (Throw ErrIteratorDone, s') ∧ items s' = []
    end;
  Head_items s :
    match items s with
    | x :: l => ∃ s', Head None s = (Ret x, s') ∧ items s' = x :: l
    | [] => ∃ s', Head None s = (Throw ErrIteratorDone, s') ∧ items s' = []
    end;
  remaining_items s : (length (items s) ≤ remaining s)%nat;
}.

(** Call [Next] until it fails: the values yielded and the final error. *)
Fixpoint drain {S T} `{!Iterator S T} (fuel : nat) (s : S) : list T * option IterErr :=
  match fuel with
  | O => ([], None)
  | Datatypes.S fuel =>
      match Next None s with
      | (Ret x, s') => let '(l, e) := drain fuel s' in (x :: l, e)
      | (Throw e, _) => ([], Some e)
      | (Panic _, _) => ([], None)
      end
  end.

(** The same for an iterator whose [Next] takes fuel. *)
Fixpoint drain_fuel {X T} (next : X → option (outcome IterErr T * X)) (n : nat) (x : X)
  : list T * option IterErr :=
  match n with
  | O => ([], None)
  | Datatypes.S n =>
      match next x with
      | Some (Ret t, x') => let '(l, e) := drain_fuel next n x' in (t :: l, e)
      | Some (Throw e, _) => ([], Some e)
      | _ => ([], None)
      end
  end.

(** ** StaticIterator *)

(** [StaticIterator[T]] (and the two constructors [NewStaticTupleIterator] and
    [NewStaticTupleKeyIterator]). *)
Record StaticIterator (T : Type) := NewStaticIterator { st_items : list T }.
Arguments NewStaticIterator {T} st_items.
Arguments st_items {T} s.

Definition static_Next {T} (ctx : Ctx) (s : StaticIterator T)
  : outcome IterErr T * StaticIterator T :=
  match ctx with
  | Some e => (Throw (ErrCtx e), s)
  | None =>
      match st_items s with
      | [] => (Throw ErrIteratorDone, s)
      | next :: rest => (Ret next, NewStaticIterator rest)
      end
  end.

Definition static_Stop {T} (s : StaticIterator T) : StaticIterator T := NewStaticIterator [].

Definition static_Head {T} (ctx : Ctx) (s : StaticIterator T)
  : outcome IterErr T * StaticIterator T :=
  match ctx with
  | Some e => (Throw (ErrCtx e), s)
  | None =>
      match st_items s with
      | [] => (Throw ErrIteratorDone, s)
      | next :: _ => (Ret next, s)
      end
  end.

Global Instance static_Iterator {T} : Iterator (StaticIterator T) T :=
  {| Next := static_Next; Head := static_Head; Stop := static_Stop;
     remaining s := length (st_items s) |}.

(** ** combinedIterator *)

Section combined.
Context {S T : Type} `{!Iterator S T}.

(** [pending]; the mutex and the once are not needed by a sequential model. *)
Record combinedIterator := mkCombined { cb_pending : list S; cb_stopped : bool }.

(** [NewCombinedIterator]: nil iterators are dropped. *)
Definition NewCombinedIterator (iters : list (option S)) : combinedIterator :=
  mkCombined (omap id iters) false.

Fixpoint combined_next (ctx : Ctx) (pending : list S) : outcome IterErr T * list S :=
  match pending with
  | [] => (Throw ErrIteratorDone, [])
  | iter :: rest =>
      match Next ctx iter with
      | (Throw ErrIteratorDone, _) => combined_next ctx rest
      | (r, iter') => (r, iter' :: rest)
      end
  end.

Definition combined_Next (ctx : Ctx) (c : combinedIterator) : outcome IterErr T * combinedIterator :=
  let '(r, p) := combined_next ctx (cb_pending c) in (r, mkCombined p (cb_stopped c)).

Fixpoint combined_head (ctx : Ctx) (pending : list S) : outcome IterErr T * list S :=
  match pending with
  | [] => (Throw ErrIteratorDone, [])
  | iter :: rest =>
      match Head ctx iter with
      | (Throw ErrIteratorDone, _) => combined_head ctx rest
      | (r, iter') => (r, iter' :: rest)
      end
  end.

Definition combined_Head (ctx : Ctx) (c : combinedIterator) : outcome IterErr T * combinedIterator :=
  let '(r, p) := combined_head ctx (cb_pending c) in (r, mkCombined p (cb_stopped c)).

(** [Stop]: once, stop every pending iterator. *)
Definition combined_Stop (c : combinedIterator) : combinedIterator :=
  if cb_stopped c then c else mkCombined (Stop <$> cb_pending c) true.

Global Instance combined_Iterator : Iterator combinedIterator T :=
  {| Next := combined_Next; Head := combined_Head; Stop := combined_Stop;
     remaining c := sum_list (remaining <$> cb_pending c) |}.
End combined.
Arguments combinedIterator S : clear implicits.

(** ** tupleKeyIterator *)

(** [openfgav1.Tuple]; the timestamp in nanoseconds. *)
Record Tuple := mkTuple { Key : TupleKey; Timestamp : option Z }.

Section tuple_key.
Context {S : Type} `{!Iterator S Tuple}.

Record tupleKeyIterator := NewTupleKeyIteratorFromTupleIterator_ { tk_iter : S; tk_stopped : bool }.

Definition NewTupleKeyIteratorFromTupleIterator (iter : S) : tupleKeyIterator :=
  NewTupleKeyIteratorFromTupleIterator_ iter false.

Definition tupleKey_Next (ctx : Ctx) (t : tupleKeyIterator)
  : outcome IterErr TupleKey * tupleKeyIterator :=
  let '(r, i) := Next ctx (tk_iter t) in
  (outcome_map Key r, NewTupleKeyIteratorFromTupleIterator_ i (tk_stopped t)).

Definition tupleKey_Head (ctx : Ctx) (t : tupleKeyIterator)
  : outcome IterErr TupleKey * tupleKeyIterator :=
  let '(r, i) := Head ctx (tk_iter t) in
  (outcome_map Key r, NewTupleKeyIteratorFromTupleIterator_ i (tk_stopped t)).

Definition tupleKey_Stop (t : tupleKeyIterator) : tupleKeyIterator :=
  if tk_stopped t then t
  else NewTupleKeyIteratorFromTupleIterator_ (Stop (tk_iter t)) true.

Global Instance tupleKey_Iterator : Iterator tupleKeyIterator TupleKey :=
  {| Next := tupleKey_Next; Head := tupleKey_Head; Stop := tupleKey_Stop;
     remaining t := remaining (tk_iter t) |}.
End tuple_key.
Arguments tupleKeyIterator S : clear implicits.

(** ** filteredTupleKeyIterator *)

Section filtered.
Context {S T : Type} `{!Iterator S T} (filter : T → bool).

(** The loop of [Next]. *)
Fixpoint filtered_Next (fuel : nat) (ctx : Ctx) (iter : S) : option (outcome IterErr T * S) :=
  match fuel with
  | O => None
  | Datatypes.S fuel =>
      match Next ctx iter with
      | (Ret t, iter') => if filter t then Some (Ret t, iter') else filtered_Next fuel ctx iter'
      | (r, iter') => Some (r, iter')
      end
  end.

(** The loop of [Head]: an item that fails the filter is dropped with [Next]. *)
Fixpoint filtered_Head (fuel : nat) (ctx : Ctx) (iter : S) : option (outcome IterErr T * S) :=
  match fuel with
  | O => None
  | Datatypes.S fuel =>
      match Head ctx iter with
      | (Ret t, iter') =>
          if filter t then Some (Ret t, iter')
          else match Next ctx iter' with
               | (Ret _, iter'') => filtered_Head fuel ctx iter''
               | (r, iter'') => Some (r, iter'')
               end
      | (r, iter') => Some (r, iter')
      end
  end.
End filtered.

Record filteredTupleKeyIterator (S T : Type) := mkFiltered {
  ft_iter : S;
  ft_filter : T → bool;
  ft_stopped : bool;
}.
Arguments mkFiltered {S T} _ _ _.
Arguments ft_iter {S T} _.
Arguments ft_filter {S T} _ _.
Arguments ft_stopped {S T} _.

Definition NewFilteredTupleKeyIterator {S T} (iter : S) (filter : T → bool)
  : filteredTupleKeyIterator S T := mkFiltered iter filter false.

(** Close a fuelled loop of a wrapper over its inner iterator. *)
Definition run_loop {S T W} (wrap : S → W) (w : W)
    (r : option (outcome IterErr T * S)) : outcome IterErr T * W :=
  match r with
  | Some (x, s) => (x, wrap s)
  | None => (Panic "out of fuel", w)
  end.

Definition filteredTupleKey_Next {S T} `{!Iterator S T} (ctx : Ctx)
    (f : filteredTupleKeyIterator S T) : outcome IterErr T * filteredTupleKeyIterator S T :=
  run_loop (λ i, mkFiltered i (ft_filter f) (ft_stopped f)) f
    (filtered_Next (ft_filter f) (Datatypes.S (remaining (ft_iter f))) ctx (ft_iter f)).

Definition filteredTupleKey_Head {S T} `{!Iterator S T} (ctx : Ctx)
    (f : filteredTupleKeyIterator S T) : outcome IterErr T * filteredTupleKeyIterator S T :=
  run_loop (λ i, mkFiltered i (ft_filter f) (ft_stopped f)) f
    (filtered_Head (ft_filter f) (Datatypes.S (remaining (ft_iter f))) ctx (ft_iter f)).

Definition filteredTupleKey_Stop {S T} `{!Iterator S T}
    (f : filteredTupleKeyIterator S T) : filteredTupleKeyIterator S T :=
  if ft_stopped f then f else mkFiltered (Stop (ft_iter f)) (ft_filter f) true.

Global Instance filtered_Iterator {S T} `{!Iterator S T} : Iterator (filteredTupleKeyIterator S T) T :=
  {| Next := filteredTupleKey_Next; Head := filteredTupleKey_Head;
     Stop := filteredTupleKey_Stop; remaining f := remaining (ft_iter f) |}.

(** ** ConditionsFilteredTupleKeyIterator *)

Section conditions.
Context {S T : Type} `{!Iterator S T} (filter : T → outcome IterErr bool).

(** The iterator's mutable fields; the filter is the section's. *)
Record ConditionsFiltered := mkConditionsFiltered {
  cf_iter : S;
  cf_lastError : option IterErr;
  cf_onceValid : bool;
}.

Definition NewConditionsFiltered (iter : S) : ConditionsFiltered :=
  mkConditionsFiltered iter None false.

Fixpoint conditions_Next (fuel : nat) (ctx : Ctx) (f : ConditionsFiltered)
  : option (outcome IterErr T * ConditionsFiltered) :=
  match fuel with
  | O => None
  | Datatypes.S fuel =>
      match Next ctx (cf_iter f) with
      | (Throw ErrIteratorDone, i) =>
          match cf_onceValid f, cf_lastError f with
          | false, Some e => Some (Throw e, mkConditionsFiltered i None (cf_onceValid f))
          | _, _ => Some (Throw ErrIteratorDone, mkConditionsFiltered i (cf_lastError f) (cf_onceValid f))
          end
      | (Ret t, i) =>
          match filter t with
          | Ret true => Some (Ret t, mkConditionsFiltered i (cf_lastError f) true)
          | Ret false => conditions_Next fuel ctx (mkConditionsFiltered i (cf_lastError f) (cf_onceValid f))
          | Throw e => conditions_Next fuel ctx (mkConditionsFiltered i (Some e) (cf_onceValid f))
          | Panic w => Some (Panic w, mkConditionsFiltered i (cf_lastError f) (cf_onceValid f))
          end
      | (r, i) => Some (r, mkConditionsFiltered i (cf_lastError f) (cf_onceValid f))
      end
  end.

Fixpoint conditions_Head (fuel : nat) (ctx : Ctx) (f : ConditionsFiltered)
  : option (outcome IterErr T * ConditionsFiltered) :=
  match fuel with
  | O => None
  | Datatypes.S fuel =>
      (* a rejected item: remember an error, drop the item with Next *)
      let skip (i : S) (lastError : option IterErr) :=
        match Next ctx i with
        | (Ret _, i') => conditions_Head fuel ctx (mkConditionsFiltered i' lastError (cf_onceValid f))
        | (r, i') => Some (r, mkConditionsFiltered i' lastError (cf_onceValid f))
        end in
      match Head ctx (cf_iter f) with
      | (Throw ErrIteratorDone, i) =>
          match cf_onceValid f, cf_lastError f with
          | false, Some e => Some (Throw e, mkConditionsFiltered i (cf_lastError f) (cf_onceValid f))
          | _, _ => Some (Throw ErrIteratorDone, mkConditionsFiltered i (cf_lastError f) (cf_onceValid f))
          end
      | (Ret t, i) =>
          match filter t with
          | Ret true => Some (Ret t, mkConditionsFiltered i (cf_lastError f) true)
          | Ret false => skip i (cf_lastError f)
          | Throw e => skip i (Some e)
          | Panic w => Some (Panic w, mkConditionsFiltered i (cf_lastError f) (cf_onceValid f))
          end
      | (r, i) => Some (r, mkConditionsFiltered i (cf_lastError f) (cf_onceValid f))
      end
  end.
End conditions.
Arguments ConditionsFiltered S : clear implicits.

(** ** OrderedCombinedIterator *)

Section ordered.
Context {S T : Type} `{!Iterator S T} (mapper : T → string).

(** [pending] may hold nil entries; [oc_pending] has [None] for them. *)
Record OrderedCombined := mkOrderedCombined {
  oc_pending : list (option S);
  oc_lastHead : option T;
  oc_lastYielded : option T;
  oc_stopped : bool;
}.

Definition NewOrderedCombinedIterator (sortedIters : list (option S)) : OrderedCombined :=
  mkOrderedCombined (Some <$> omap id sortedIters) None None false.

(** [slices.DeleteFunc(c.pending, func(t) bool { return t == nil })]. *)
Definition clearPendingThatAreNil (pending : list (option S)) : list (option S) :=
  List.filter (λ o, match o with Some _ => true | None => false end) pending.

(** [for c.mapper(head) == c.mapper(c.lastYielded) { head, err = iter.Next(ctx) ... }]:
    [inl] is the head that remains, [inr] the error of [Next]. *)
Fixpoint discard_duplicates (fuel : nat) (ctx : Ctx) (last head : T) (iter : S)
  : option ((T + outcome IterErr T) * S) :=
  if mapper head =s mapper last then
    match fuel with
    | O => None
    | Datatypes.S fuel =>
        match Next ctx iter with
        | (Ret head', iter') => discard_duplicates fuel ctx last head' iter'
        | (r, iter') => Some (inr r, iter')
        end
    end
  else Some (inl head, iter).

(** The loop of [head] over [c.pending], from index [idx] on: the index of the
    smallest head (or the error), and the entries as they are after the loop. *)
Fixpoint head_loop (fuel : nat) (ctx : Ctx) (lastYielded : option T) (idx : nat)
    (pending : list (option S)) (headMin : option T) (minIdx : option nat)
  : option (outcome IterErr nat * list (option S)) :=
  match pending with
  | [] =>
      match minIdx with
      | None => Some (Throw ErrIteratorDone, [])
      | Some i => Some (Ret i, [])
      end
  | None :: _ => Some (Panic "nil iterator", pending)
  | Some iter :: rest =>
      let continue_ entry headMin minIdx :=
        match head_loop fuel ctx lastYielded (Datatypes.S idx) rest headMin minIdx with
        | Some (r, rest') => Some (r, entry :: rest')
        | None => None
        end in
      let consider iter head :=
        match headMin with
        | Some m =>
            if String.ltb (mapper head) (mapper m)
            then continue_ (Some iter) (Some head) (Some idx)
            else continue_ (Some iter) headMin minIdx
        | None => continue_ (Some iter) (Some head) (Some idx)
        end in
      match Head ctx iter with
      | (Throw ErrIteratorDone, iter') => continue_ None headMin minIdx
      | (Throw e, iter') => Some (Throw e, Some iter' :: rest)
      | (Panic w, iter') => Some (Panic w, Some iter' :: rest)
      | (Ret head, iter') =>
          match lastYielded with
          | None => consider iter' head
          | Some last =>
              if String.ltb (mapper head) (mapper last)
              then Some (Throw (ErrNotAscending idx), Some iter' :: rest)
              else match discard_duplicates fuel ctx last head iter' with
                   | None => None
                   | Some (inl head', iter'') => consider iter'' head'
                   | Some (inr (Throw ErrIteratorDone), iter'') => continue_ None headMin minIdx
                   | Some (inr (Throw e), iter'') => Some (Throw e, Some iter'' :: rest)
                   | Some (inr _, iter'') => Some (Panic "unreachable", Some iter'' :: rest)
                   end
          end
      end
  end.

Definition oc_head (fuel : nat) (ctx : Ctx) (c : OrderedCombined)
  : option (outcome IterErr nat * list (option S)) :=
  head_loop fuel ctx (oc_lastYielded c) 0 (clearPendingThatAreNil (oc_pending c)) None None.

Definition ordered_Next (fuel : nat) (ctx : Ctx) (c : OrderedCombined)
  : option (outcome IterErr T * OrderedCombined) :=
  match oc_head fuel ctx c with
  | None => None
  | Some (Throw e, p) =>
      Some (Throw e, mkOrderedCombined p (oc_lastHead c) (oc_lastYielded c) (oc_stopped c))
  | Some (Panic w, p) =>
      Some (Panic w, mkOrderedCombined p (oc_lastHead c) (oc_lastYielded c) (oc_stopped c))
  | Some (Ret idx, p) =>
      match mjoin (p !! idx) with
      | None => Some (Panic "nil iterator", c)
      | Some iter =>
          match Next ctx iter with
          | (Ret t, iter') =>
              Some (Ret t, mkOrderedCombined (<[idx := Some iter']> p) None (Some t) (oc_stopped c))
          | (r, iter') =>
              Some (r, mkOrderedCombined (<[idx := Some iter']> p) None (oc_lastYielded c) (oc_stopped c))
          end
      end
  end.

Definition ordered_Head (fuel : nat) (ctx : Ctx) (c : OrderedCombined)
  : option (outcome IterErr T * OrderedCombined) :=
  match oc_lastHead c with
  | Some t => Some (Ret t, c)
  | None =>
      match oc_head fuel ctx c with
      | None => None
      | Some (Throw e, p) =>
          Some (Throw e, mkOrderedCombined p None (oc_lastYielded c) (oc_stopped c))
      | Some (Panic w, p) =>
          Some (Panic w, mkOrderedCombined p None (oc_lastYielded c) (oc_stopped c))
      | Some (Ret idx, p) =>
          match mjoin (p !! idx) with
          | None => Some (Panic "nil iterator", c)
          | Some iter =>
              match Head ctx iter with
              | (Ret t, iter') =>
                  Some (Ret t, mkOrderedCombined (<[idx := Some iter']> p) (Some t)
                                 (oc_lastYielded c) (oc_stopped c))
              | (r, iter') =>
                  Some (r, mkOrderedCombined (<[idx := Some iter']> p) None
                             (oc_lastYielded c) (oc_stopped c))
              end
          end
      end
  end.

Definition ordered_Stop (c : OrderedCombined) : OrderedCombined :=
  if oc_stopped c then c
  else mkOrderedCombined (fmap (M:=option) Stop <$> clearPendingThatAreNil (oc_pending c))
         (oc_lastHead c) (oc_lastYielded c) true.
End ordered.
Arguments OrderedCombined S T : clear implicits.

(** ** Tuple mappers *)

Definition UserMapper (t : Tuple) : string := User (Key t).
Definition ObjectMapper (t : Tuple) : string := Object (Key t).

Inductive TupleMapperKind := UsersetKind | TTUKind | ObjectIDKind.

Definition UsersetMapper_doMap (t : TupleKey) : outcome IterErr string :=
  let '(usersetName, relation) := SplitObjectRelation (User t) in
  if (relation =s "") && negb (IsWildcard usersetName)
  then Throw (ErrUnexpectedUserset (User t))
  else Ret usersetName.

Definition TTUMapper_doMap (t : TupleKey) : outcome IterErr string := Ret (User t).

Definition ObjectIDMapper_doMap (t : TupleKey) : outcome IterErr string := Ret (Object t).

(** The [doMap] that [WrapIterator] selects. *)
Definition doMap (kind : TupleMapperKind) : TupleKey → outcome IterErr string :=
  match kind with
  | UsersetKind => UsersetMapper_doMap
  | TTUKind => TTUMapper_doMap
  | ObjectIDKind => ObjectIDMapper_doMap
  end.

Section mapper.
Context {S : Type} `{!Iterator S TupleKey} (kind : TupleMapperKind).

(** [WrapIterator(kind, iter)]. *)
Record TupleMapper := WrapIterator_ { mp_iter : S; mp_stopped : bool }.

Definition mapper_Next (ctx : Ctx) (n : TupleMapper) : outcome IterErr string * TupleMapper :=
  let '(r, i) := Next ctx (mp_iter n) in
  (outcome_bind r (doMap kind), WrapIterator_ i (mp_stopped n)).

Definition mapper_Head (ctx : Ctx) (n : TupleMapper) : outcome IterErr string * TupleMapper :=
  let '(r, i) := Head ctx (mp_iter n) in
  (outcome_bind r (doMap kind), WrapIterator_ i (mp_stopped n)).

Definition mapper_Stop (n : TupleMapper) : TupleMapper :=
  if mp_stopped n then n else WrapIterator_ (Stop (mp_iter n)) true.
End mapper.
Arguments TupleMapper S : clear implicits.

(** ** Lemmas: the composed iterators implement the interface *)

Section laws.
Context {S T : Type} `{!Iterator S T, !IteratorSpec S T}.

Lemma Next_cons s x l : items s = x :: l → ∃ s', Next None s = (Ret x, s') ∧ items s' = l.
Proof. intros Hs. pose proof (Next_items s) as HN. by rewrite Hs in HN. Qed.

Lemma Next_nil s : items s = [] → ∃ s', Next None s = (Throw ErrIteratorDone, s') ∧ items s' = [].
Proof. intros Hs. pose proof (Next_items s) as HN. by rewrite Hs in HN. Qed.

Lemma Head_cons s x l : items s = x :: l → ∃ s', Head None s = (Ret x, s') ∧ items s' = x :: l.
Proof. intros Hs. pose proof (Head_items s) as HN. by rewrite Hs in HN. Qed.

Lemma Head_nil s : items s = [] → ∃ s', Head None s = (Throw ErrIteratorDone, s') ∧ items s' = [].
Proof. intros Hs. pose proof (Head_items s) as HN. by rewrite Hs in HN. Qed.

Lemma drain_items n s : (length (items s) < n)%nat → drain n s = (items s, Some ErrIteratorDone).
Proof.
  revert s. induction n as [|n IH]; intros s Hn; [lia|]. simpl.
  destruct (items s) as [|x l] eqn:Hs.
  - destruct (Next_nil s Hs) as (s'&->&_). done.
  - destruct (Next_cons s x l Hs) as (s'&->&Hs'). simpl in Hn.
    rewrite IH by (rewrite Hs'; lia). by rewrite Hs'.
Qed.
End laws.

Global Program Instance static_Spec {T} : IteratorSpec (StaticIterator T) T :=
  {| items := st_items |}.
Next Obligation. intros T [[|x l]]; simpl; eauto. Qed.
Next Obligation. intros T [[|x l]]; simpl; eauto. Qed.
Next Obligation. done. Qed.

Section combined_spec.
Context {S T : Type} `{!Iterator S T, !IteratorSpec S T}.

(** What a combined iterator yields: the pending iterators one after the other. *)
Definition combined_items (c : combinedIterator S) : list T :=
  concat (items <$> cb_pending c).

Lemma combined_next_spec p :
  match concat (items <$> p) with
  | x :: l => ∃ p', combined_next None p = (Ret x, p') ∧ concat (items <$> p') = l
  | [] => ∃ p', combined_next None p = (Throw ErrIteratorDone, p') ∧ concat (items <$> p') = []
  end.
Proof.
  induction p as [|i p IH]; simpl; [by exists []|].
  destruct (items i) as [|x l] eqn:Hi; simpl.
  - destruct (Next_nil i Hi) as (i'&->&_). exact IH.
  - destruct (Next_cons i x l Hi) as (i'&->&Hi'). eexists. split; [done|]. simpl.
    by rewrite Hi'.
Qed.

Lemma combined_head_spec p :
  match concat (items <$> p) with
  | x :: l => ∃ p', combined_head None p = (Ret x, p') ∧ concat (items <$> p') = x :: l
  | [] => ∃ p', combined_head None p = (Throw ErrIteratorDone, p') ∧ concat (items <$> p') = []
  end.
Proof.
  induction p as [|i p IH]; simpl; [by exists []|].
  destruct (items i) as [|x l] eqn:Hi; simpl.
  - destruct (Head_nil i Hi) as (i'&->&_). exact IH.
  - destruct (Head_cons i x l Hi) as (i'&->&Hi'). eexists. split; [done|]. simpl.
    by rewrite Hi'.
Qed.

Global Program Instance combined_Spec : IteratorSpec (combinedIterator S) T :=
  {| items := combined_items |}.
Next Obligation.
  intros [p b]. unfold combined_items; simpl. unfold combined_Next; simpl.
  pose proof (combined_next_spec p) as HN.
  destruct (concat _); destruct HN as (p'&->&Hp'); eexists; split; done.
Qed.
Next Obligation.
  intros [p b]. unfold combined_items; simpl. unfold combined_Head; simpl.
  pose proof (combined_head_spec p) as HN.
  destruct (concat _); destruct HN as (p'&->&Hp'); eexists; split; done.
Qed.
Next Obligation.
  intros [p b]. unfold combined_items; simpl. induction p as [|i p IH]; simpl; [done|].
  rewrite length_app. pose proof (remaining_items i). unfold fmap in IH. lia.
Qed.
End combined_spec.

Section tuple_key_spec.
Context {S : Type} `{!Iterator S Tuple, !IteratorSpec S Tuple}.

Global Program Instance tupleKey_Spec : IteratorSpec (tupleKeyIterator S) TupleKey :=
  {| items t := Key <$> items (tk_iter t) |}.
Next Obligation.
  intros [i b]; simpl. unfold tupleKey_Next; simpl. pose proof (Next_items i) as HN.
  destruct (items i); simpl; destruct HN as (i'&->&Hi'); eexists; split; [done| |done|];
    simpl; by rewrite Hi'.
Qed.
Next Obligation.
  intros [i b]; simpl. unfold tupleKey_Head; simpl. pose proof (Head_items i) as HN.
  destruct (items i); simpl; destruct HN as (i'&->&Hi'); eexists; split; [done| |done|];
    simpl; by rewrite Hi'.
Qed.
Next Obligation. intros [i b]; simpl. rewrite length_fmap. apply remaining_items. Qed.
End tuple_key_spec.

Section filtered_spec.
Context {S T : Type} `{!Iterator S T, !IteratorSpec S T} (filter : T → bool).

Lemma filtered_Next_spec fuel s :
  (length (items s) < fuel)%nat →
  match List.filter filter (items s) with
  | x :: l => ∃ s', filtered_Next filter fuel None s = Some (Ret x, s') ∧
      List.filter filter (items s') = l ∧ (length (items s') < length (items s))%nat
  | [] => ∃ s', filtered_Next filter fuel None s = Some (Throw ErrIteratorDone, s') ∧ items s' = []
  end.
Proof.
  revert s. induction fuel as [|fuel IH]; intros s Hf; [lia|]. simpl.
  destruct (items s) as [|x l] eqn:Hs; simpl.
  { destruct (Next_nil s Hs) as (s'&->&?). eauto. }
  destruct (Next_cons s x l Hs) as (s'&->&Hs'). simpl in Hf.
  destruct (filter x).
  { eexists. split_and!; [done|by rewrite Hs'|rewrite Hs'; lia]. }
  specialize (IH s'). rewrite Hs' in IH. specialize (IH ltac:(lia)).
  destruct (List.filter filter l); [done|].
  destruct IH as (s''&?&?&?). eexists. split_and!; [done..|lia].
Qed.

Lemma filtered_Head_spec fuel s :
  (length (items s) < fuel)%nat →
  match List.filter filter (items s) with
  | x :: l => ∃ s' l', filtered_Head filter fuel None s = Some (Ret x, s') ∧
      items s' = x :: l' ∧ List.filter filter (items s') = x :: l
  | [] => ∃ s', filtered_Head filter fuel None s = Some (Throw ErrIteratorDone, s') ∧ items s' = []
  end.
Proof.
  revert s. induction fuel as [|fuel IH]; intros s Hf; [lia|]. simpl.
  destruct (items s) as [|x l] eqn:Hs; simpl.
  { destruct (Head_nil s Hs) as (s'&->&?). eauto. }
  destruct (Head_cons s x l Hs) as (s'&->&Hs'). simpl in Hf.
  destruct (filter x) eqn:Hx.
  { exists s', l. rewrite Hs'; simpl. by rewrite Hx. }
  destruct (Next_cons s' x l Hs') as (s''&->&Hs''). specialize (IH s'').
  rewrite Hs'' in IH. exact (IH ltac:(lia)).
Qed.
End filtered_spec.

Global Program Instance filtered_Spec {S T} `{!Iterator S T, !IteratorSpec S T} :
    IteratorSpec (filteredTupleKeyIterator S T) T :=
  {| items f := List.filter (ft_filter f) (items (ft_iter f)) |}.
Next Obligation.
  intros S T ?? [i p b]; simpl. pose proof (remaining_items i).
  unfold filteredTupleKey_Next; cbn [ft_iter ft_filter].
  pose proof (filtered_Next_spec p (Datatypes.S (remaining i)) i) as HN.
  destruct (List.filter p (items i)).
  - destruct HN as (s'&->&Hs'); [lia|]. eexists. split; [done|]. simpl. by rewrite Hs'.
  - destruct HN as (s'&->&Hs'&_); [lia|]. eexists. split; [done|]. done.
Qed.
Next Obligation.
  intros S T ?? [i p b]; simpl. pose proof (remaining_items i).
  unfold filteredTupleKey_Head; cbn [ft_iter ft_filter].
  pose proof (filtered_Head_spec p (Datatypes.S (remaining i)) i) as HN.
  destruct (List.filter p (items i)).
  - destruct HN as (s'&->&Hs'); [lia|]. eexists. split; [done|]. simpl. by rewrite Hs'.
  - destruct HN as (s'&l'&->&_&Hs'); [lia|]. eexists. split; [done|]. done.
Qed.
Next Obligation.
  intros S T ?? [i p b]; simpl. etrans; [|apply remaining_items].
  rewrite filter_length_le. done.
Qed.

Section conditions_spec.
Context {S T : Type} `{!Iterator S T, !IteratorSpec S T}.
Context (filter : T → outcome IterErr bool) (filter_ok : ∀ t, no_panic (filter t)).

(** The tuples whose condition is met. *)
Fixpoint cond_valid (l : list T) : list T :=
  match l with
  | [] => []
  | t :: l' => match filter t with Ret true => t :: cond_valid l' | _ => cond_valid l' end
  end.

(** The last error of the filter on [l], [e] if there is none. *)
Fixpoint cond_last_error (e : option IterErr) (l : list T) : option IterErr :=
  match l with
  | [] => e
  | t :: l' => match filter t with Throw e' => cond_last_error (Some e') l' | _ => cond_last_error e l' end
  end.

(** What the iterator answers when the inner one is exhausted. *)
Definition final_error (onceValid : bool) (e : option IterErr) : IterErr :=
  if onceValid then ErrIteratorDone else default ErrIteratorDone e.

Lemma conditions_Next_spec fuel f :
  (length (items (cf_iter f)) < fuel)%nat →
  match cond_valid (items (cf_iter f)) with
  | x :: l => ∃ f', conditions_Next filter fuel None f = Some (Ret x, f') ∧
      cond_valid (items (cf_iter f')) = l ∧ cf_onceValid f' = true ∧
      (length (items (cf_iter f')) < length (items (cf_iter f)))%nat
  | [] => ∃ f', conditions_Next filter fuel None f =
      Some (Throw (final_error (cf_onceValid f)
               (cond_last_error (cf_lastError f) (items (cf_iter f)))), f')
  end.
Proof.
  revert f. induction fuel as [|fuel IH]; intros [i e b] Hf; [lia|]. simpl in *.
  destruct (items i) as [|x l] eqn:Hi; simpl in *.
  { destruct (Next_nil i Hi) as (i'&->&?). unfold final_error.
    destruct b, e; eexists; done. }
  destruct (Next_cons i x l Hi) as (i'&->&Hi').
  pose proof (filter_ok x) as Hx. destruct (filter x) as [[|]|e'|w]; [| | |done].
  - eexists. split; [done|]. simpl. rewrite Hi'. split_and!; [done..|lia].
  - specialize (IH (mkConditionsFiltered i' e b)). simpl in IH. rewrite Hi' in IH.
    specialize (IH ltac:(lia)). destruct (cond_valid l); [done|].
    destruct IH as (f'&?&?&?&?). eexists. split_and!; [done..|lia].
  - specialize (IH (mkConditionsFiltered i' (Some e') b)). simpl in IH. rewrite Hi' in IH.
    specialize (IH ltac:(lia)). destruct (cond_valid l); [done|].
    destruct IH as (f'&?&?&?&?). eexists. split_and!; [done..|lia].
Qed.

Lemma conditions_Head_spec fuel f x f' :
  (length (items (cf_iter f)) < fuel)%nat →
  conditions_Head filter fuel None f = Some (Ret x, f') →
  ∃ l, items (cf_iter f') = x :: l ∧ filter x = Ret true ∧
       cond_valid (items (cf_iter f)) = x :: cond_valid l.
Proof.
  revert f. induction fuel as [|fuel IH]; intros [i e b] Hf; [lia|]. simpl in *.
  destruct (items i) as [|y l] eqn:Hi; simpl in *.
  { destruct (Head_nil i Hi) as (i'&->&?). destruct b, e; by intros. }
  destruct (Head_cons i y l Hi) as (i'&->&Hi').
  destruct (Next_cons i' y l Hi') as (i''&->&Hi'').
  pose proof (filter_ok y) as Hy. destruct (filter y) as [[|]|e'|w] eqn:Hfy; [| | |done].
  - intros [= <- <-]. simpl. eauto.
  - intros HH. apply IH in HH; simpl in *; rewrite Hi'' in *; [done|lia].
  - intros HH. apply IH in HH; simpl in *; rewrite Hi'' in *; [done|lia].
Qed.

Lemma conditions_drain_gen n fuel f :
  (length (items (cf_iter f)) < fuel)%nat → (length (items (cf_iter f)) < n)%nat →
  drain_fuel (conditions_Next filter fuel None) n f =
    (cond_valid (items (cf_iter f)),
     Some (final_error (cf_onceValid f || bool_decide (cond_valid (items (cf_iter f)) ≠ []))
             (cond_last_error (cf_lastError f) (items (cf_iter f))))).
Proof.
  revert f. induction n as [|n IH]; intros f Hf Hn; [lia|]. simpl.
  pose proof (conditions_Next_spec fuel f Hf) as HN.
  destruct (cond_valid (items (cf_iter f))) as [|x l].
  - destruct HN as (f'&->). by rewrite orb_false_r.
  - destruct HN as (f'&->&Hl&Hv&Hlen). rewrite IH by lia.
    by rewrite Hl, Hv, orb_true_r.
Qed.
End conditions_spec.

(** ** Lemmas: the ordered merge *)

Section ordered_spec.
Context {S T : Type} `{!Iterator S T, !IteratorSpec S T} (mapper : T → string).

Definition key_before (x y : T) : Prop := String.ltb (mapper x) (mapper y) = true.

(** The index of the list with the smallest head, as the loop of [head] computes it. *)
Fixpoint argmin (idx : nat) (ls : list (list T)) (hm : option T) (mi : option nat) : option nat :=
  match ls with
  | [] => mi
  | [] :: r => argmin (Datatypes.S idx) r hm mi
  | (x :: _) :: r =>
      match hm with
      | Some m =>
          if String.ltb (mapper x) (mapper m)
          then argmin (Datatypes.S idx) r (Some x) (Some idx)
          else argmin (Datatypes.S idx) r hm mi
      | None => argmin (Datatypes.S idx) r (Some x) (Some idx)
      end
  end.

(** An entry of [pending] after the loop: nil only for an exhausted iterator. *)
Definition entry_of (l : list T) (o : option S) : Prop :=
  match o with None => l = [] | Some s => items s = l end.

(** No list starts at or before the last yielded value. *)
Definition heads_after (ly : option T) (ls : list (list T)) : Prop :=
  ∀ last x l, ly = Some last → x :: l ∈ ls → key_before last x.

Lemma head_loop_spec fuel ly idx p hm mi :
  heads_after ly (items <$> p) →
  ∃ p', head_loop mapper fuel None ly idx (Some <$> p) hm mi =
    Some (match argmin idx (items <$> p) hm mi with
          | Some i => Ret i
          | None => Throw ErrIteratorDone
          end, p') ∧ Forall2 entry_of (items <$> p) p'.
Proof.
  revert idx hm mi. induction p as [|s p IH]; intros idx hm mi Hly.
  { exists []. split; [by destruct mi|constructor]. }
  assert (heads_after ly (items <$> p)) as Hly'.
  { intros last x l ? ?. eapply Hly; [done|]. by constructor. }
  assert (∀ hm mi o, entry_of (items s) o →
    ∃ p', match head_loop mapper fuel None ly (Datatypes.S idx) (Some <$> p) hm mi with
          | Some (r, rest') => Some (r, o :: rest') | None => None end =
      Some (match argmin (Datatypes.S idx) (items <$> p) hm mi with
            | Some i => Ret i | None => Throw ErrIteratorDone end, p') ∧
      Forall2 entry_of (items s :: (items <$> p)) p') as Hcont.
  { intros hm' mi' o Ho. destruct (IH (Datatypes.S idx) hm' mi' Hly') as (p'&->&Hp').
    exists (o :: p'). split; [done|]. by constructor. }
  clear IH. simpl. destruct (items s) as [|x l] eqn:Hs.
  { destruct (Head_nil s Hs) as (s'&->&_). by apply Hcont. }
  destruct (Head_cons s x l Hs) as (s'&->&Hs').
  assert (entry_of (x :: l) (Some s')) as He by done.
  destruct ly as [last|].
  - assert (key_before last x) as Hlt by (eapply Hly; [done|rewrite fmap_cons, Hs; by left]).
    rewrite (sw_asym (λ a b, String.ltb (mapper a) (mapper b)) last x Hlt).
    assert (mapper x ≠ mapper last) as Hne.
    { intros Heq. unfold key_before in Hlt. by rewrite Heq, str_ltb_irrefl in Hlt. }
    assert (discard_duplicates mapper fuel None last x s' = Some (inl x, s')) as ->.
    { destruct fuel; simpl; by rewrite bool_decide_false. }
    destruct hm as [m|]; [destruct (String.ltb _ _)|]; by apply Hcont.
  - destruct hm as [m|]; [destruct (String.ltb _ _)|]; by apply Hcont.
Qed.

(** The list [argmin] selects starts with a value no other list starts below. *)
Definition selects (ls : list (list T)) (i : nat) : Prop :=
  ∃ x l, ls !! i = Some (x :: l) ∧
    ∀ y l', y :: l' ∈ ls → String.ltb (mapper y) (mapper x) = false.

Lemma argmin_spec pre ls hm mi :
  match hm, mi with
  | Some m, Some i => ∃ l, (pre ++ ls) !! i = Some (m :: l) ∧
      ∀ y l', y :: l' ∈ pre → String.ltb (mapper y) (mapper m) = false
  | None, None => ∀ l, l ∈ pre → l = []
  | _, _ => False
  end →
  match argmin (length pre) ls hm mi with
  | Some i => selects (pre ++ ls) i
  | None => concat (pre ++ ls) = []
  end.
Proof.
  revert pre hm mi. induction ls as [|l ls IH]; intros pre hm mi Hpre; simpl.
  { rewrite app_nil_r in *. destruct hm as [m|], mi as [i|]; try done.
    - destruct Hpre as (l&Hl&Hmin). exists m, l. done.
    - clear -Hpre. induction pre as [|l pre IH]; [done|]. simpl.
      rewrite (Hpre l) by by left. apply IH. intros l' Hl'. apply Hpre. by right. }
  specialize (IH (pre ++ [l])). rewrite length_app, Nat.add_1_r, <-app_assoc in IH.
  simpl in IH. destruct l as [|x l].
  { apply IH. destruct hm, mi; try done.
    - destruct Hpre as (l&?&Hmin). exists l. split; [done|]. intros y l' Hy.
      apply (Hmin y l'). set_solver.
    - set_solver. }
  assert ((pre ++ (x :: l) :: ls) !! length pre = Some (x :: l)) as Hx.
  { by rewrite list_lookup_middle. }
  destruct hm as [m|], mi as [i|]; try done; [destruct (String.ltb _ _) eqn:Hlt|].
  - apply IH. exists l. split; [done|]. destruct Hpre as (l0&_&Hmin). intros y l' [Hy|Hy]%elem_of_app.
    + destruct (String.ltb (mapper y) (mapper x)) eqn:E; [|done].
      rewrite <-(Hmin y l' Hy). symmetry. by eapply str_ltb_trans.
    + apply list_elem_of_singleton in Hy. simplify_eq. apply str_ltb_irrefl.
  - apply IH. destruct Hpre as (l0&?&Hmin). exists l0. split; [done|].
    intros y l' [Hy|Hy]%elem_of_app; [by eauto|].
    apply list_elem_of_singleton in Hy. by simplify_eq.
  - apply IH. exists l. split; [done|]. intros y l' [Hy|Hy]%elem_of_app.
    + by apply Hpre in Hy.
    + apply list_elem_of_singleton in Hy. simplify_eq. apply str_ltb_irrefl.
Qed.

(** The state of the merge: the lists still to be merged are strictly ascending,
    no key occurs twice, and every key is after the last yielded one. *)
Record merge_inv (ly : option T) (ls : list (list T)) : Prop := {
  mi_sorted : Forall (StronglySorted key_before) ls;
  mi_nodup : NoDup (mapper <$> concat ls);
  mi_after : ∀ last x, ly = Some last → x ∈ concat ls → key_before last x;
}.

Lemma elem_of_concat (x : T) ls : x ∈ concat ls ↔ ∃ l, l ∈ ls ∧ x ∈ l.
Proof.
  rewrite list_elem_of_In, in_concat. setoid_rewrite list_elem_of_In. done.
Qed.

Lemma omap_Some_id (l : list S) : omap id (Some <$> l) = l.
Proof. induction l as [|x l IH]; [done|]. rewrite fmap_cons. simpl. by f_equal. Qed.

(** The lists behind the non-nil entries of [pending]. *)
Definition pending_items (p : list (option S)) : list (list T) :=
  items <$> omap id p.

Lemma clearPending_omap (p : list (option S)) :
  clearPendingThatAreNil p = Some <$> omap id p.
Proof. induction p as [|[s|] p IH]; simpl; by rewrite ?IH. Qed.

Lemma concat_insert_cons (ls : list (list T)) i x l :
  ls !! i = Some (x :: l) → x :: concat (<[i := l]> ls) ≡ₚ concat ls.
Proof.
  revert i. induction ls as [|l0 ls IH]; intros [|i] Hi; simplify_eq/=; [done|].
  rewrite <-(IH i Hi). by rewrite Permutation_middle.
Qed.

Lemma concat_pending ls (p : list (option S)) :
  Forall2 entry_of ls p → concat (pending_items p) = concat ls.
Proof.
  induction 1 as [|l o ls p Hlo _ IH]; [done|]. unfold pending_items in *. simpl.
  destruct o as [s|]; simpl in *; [|by rewrite Hlo].
  rewrite Hlo. by f_equal.
Qed.

Lemma pending_sub ls (p : list (option S)) l :
  Forall2 entry_of ls p → l ∈ pending_items p → l ∈ ls.
Proof.
  induction 1 as [|l0 o ls p Hlo _ IH]; unfold pending_items in *; simpl; [done|].
  destruct o as [s|]; simpl in *; [|set_solver]. subst l0. set_solver.
Qed.

(** The selected head is not after any value still to be merged. *)
Lemma selected_min ls i x l :
  Forall (StronglySorted key_before) ls → ls !! i = Some (x :: l) →
  (∀ y l', y :: l' ∈ ls → String.ltb (mapper y) (mapper x) = false) →
  ∀ y, y ∈ concat ls → String.ltb (mapper y) (mapper x) = false.
Proof.
  intros Hs Hi Hmin y (l'&Hl'&Hy)%elem_of_concat. destruct l' as [|z l']; [by apply not_elem_of_nil in Hy|].
  specialize (Hmin z l' Hl'). apply elem_of_cons in Hy as [->|Hy]; [done|].
  rewrite Forall_forall in Hs. specialize (Hs _ Hl'). inversion_clear Hs as [|? ? _ Hz].
  rewrite Forall_forall in Hz. specialize (Hz y Hy). unfold key_before in Hz.
  rewrite str_ltb_ge in Hmin |- *. etrans; [exact Hmin|]. by apply str_ltb_le.
Qed.

Lemma merge_inv_step ly ls i x l p :
  merge_inv ly ls → ls !! i = Some (x :: l) →
  (∀ y l', y :: l' ∈ ls → String.ltb (mapper y) (mapper x) = false) →
  Forall2 entry_of (<[i := l]> ls) p →
  x :: concat (pending_items p) ≡ₚ concat ls ∧ merge_inv (Some x) (pending_items p).
Proof.
  intros [Hsort Hnd _] Hi Hmin Hp.
  pose proof (selected_min ls i x l Hsort Hi Hmin) as Hall.
  assert (x :: concat (pending_items p) ≡ₚ concat ls) as Hperm.
  { rewrite (concat_pending _ _ Hp). by apply concat_insert_cons. }
  split; [done|]. rewrite <-Hperm in Hnd. apply NoDup_cons in Hnd as [Hx Hnd]. split.
  - apply Forall_forall. intros l' Hl'. eapply pending_sub in Hl'; [|done].
    rewrite Forall_forall in Hsort. apply list_elem_of_lookup in Hl' as [j Hj].
    apply list_lookup_insert_Some in Hj as [(<-&<-&_)|(_&Hj)].
    + assert (StronglySorted key_before (x :: l)) as Hxl by (apply Hsort; by eapply list_elem_of_lookup_2).
      by inversion Hxl.
    + apply Hsort. by eapply list_elem_of_lookup_2.
  - done.
  - intros last y [= <-] Hy. unfold key_before.
    destruct (String.ltb (mapper x) (mapper y)) eqn:E; [done|]. exfalso. apply Hx.
    apply list_elem_of_fmap. exists y. split; [|done].
    apply str_ltb_total; [done|]. apply Hall. rewrite <-Hperm. by right.
Qed.

(** The loop of [head] keeps the lists, and the merge goes on from them. *)
Lemma merge_inv_entries ly ls (p : list (option S)) :
  Forall2 entry_of ls p → merge_inv ly ls → merge_inv ly (pending_items p).
Proof.
  intros Hp [Hs Hnd Ha]. pose proof (concat_pending _ _ Hp) as Hc. split.
  - apply Forall_forall. intros l Hl. rewrite Forall_forall in Hs. apply Hs. by eapply pending_sub.
  - by rewrite Hc.
  - intros last x. rewrite Hc. apply Ha.
Qed.

(** The entry with the smallest head. *)
Lemma oc_head_spec fuel c :
  merge_inv (oc_lastYielded c) (pending_items (oc_pending c)) →
  ∃ p', Forall2 entry_of (pending_items (oc_pending c)) p' ∧
    ((concat (pending_items (oc_pending c)) = [] ∧ oc_head mapper fuel None c = Some (Throw ErrIteratorDone, p')) ∨
     ∃ i x l s, oc_head mapper fuel None c = Some (Ret i, p') ∧ pending_items (oc_pending c) !! i = Some (x :: l) ∧
       (∀ y l', y :: l' ∈ pending_items (oc_pending c) → String.ltb (mapper y) (mapper x) = false) ∧
       p' !! i = Some (Some s) ∧ items s = x :: l).
Proof.
  intros Hinv. unfold oc_head. rewrite clearPending_omap.
  destruct (head_loop_spec fuel (oc_lastYielded c) 0 (omap id (oc_pending c)) None None)
    as (p'&->&Hp').
  { intros last x l Hly Hx. eapply (mi_after _ _ Hinv); [done|].
    apply elem_of_concat. exists (x :: l). split; [done|]. by left. }
  exists p'. split; [done|]. pose proof (argmin_spec [] (pending_items (oc_pending c)) None None) as Harg.
  simpl in Harg. specialize (Harg ltac:(intros l Hl; by apply not_elem_of_nil in Hl)).
  unfold pending_items in Harg at 1. destruct (argmin _ _ _ _) as [i|]; [|by left].
  right. destruct Harg as (x&l&Hi&Hmin).
  destruct (Forall2_lookup_l _ _ _ _ _ Hp' Hi) as (o&Ho&Heo). destruct o as [s|]; simpl in Heo; [|done].
  by exists i, x, l, s.
Qed.

Lemma ordered_Next_spec fuel c :
  merge_inv (oc_lastYielded c) (pending_items (oc_pending c)) →
  (concat (pending_items (oc_pending c)) = [] ∧
   ∃ c', ordered_Next mapper fuel None c = Some (Throw ErrIteratorDone, c') ∧
     oc_lastHead c' = oc_lastHead c ∧ concat (pending_items (oc_pending c')) = [] ∧
     merge_inv (oc_lastYielded c') (pending_items (oc_pending c'))) ∨
  (∃ x c', ordered_Next mapper fuel None c = Some (Ret x, c') ∧
     oc_lastYielded c' = Some x ∧ oc_lastHead c' = None ∧
     x :: concat (pending_items (oc_pending c')) ≡ₚ concat (pending_items (oc_pending c)) ∧
     merge_inv (Some x) (pending_items (oc_pending c'))).
Proof.
  intros Hinv. unfold ordered_Next.
  destruct (oc_head_spec fuel c Hinv) as (p'&Hp'&[[Hnil ->]|(i&x&l&s&->&Hi&Hmin&Ho&Heo)]).
  { left. split; [done|]. eexists. split_and!; [done|done|by rewrite <-Hnil; apply concat_pending|by eapply merge_inv_entries]. }
  right. rewrite Ho. simpl. destruct (Next_cons s x l Heo) as (s'&->&Hs').
  assert (Forall2 entry_of (<[i:=l]> (pending_items (oc_pending c))) (<[i:=Some s']> p')) as Hp''.
  { apply Forall2_insert; [done|]. exact Hs'. }
  destruct (merge_inv_step _ _ i x l _ Hinv Hi Hmin Hp'') as [Hperm Hinv'].
  eexists x, _. split_and!; [done|done|done|done|done].
Qed.

Lemma ordered_Head_spec fuel c :
  merge_inv (oc_lastYielded c) (pending_items (oc_pending c)) → oc_lastHead c = None →
  (concat (pending_items (oc_pending c)) = [] ∧
   ∃ c', ordered_Head mapper fuel None c = Some (Throw ErrIteratorDone, c') ∧
     oc_lastHead c' = None ∧ concat (pending_items (oc_pending c')) = [] ∧
     merge_inv (oc_lastYielded c') (pending_items (oc_pending c'))) ∨
  (∃ x c', ordered_Head mapper fuel None c = Some (Ret x, c') ∧
     oc_lastHead c' = Some x ∧ concat (pending_items (oc_pending c')) = concat (pending_items (oc_pending c)) ∧
     x ∈ concat (pending_items (oc_pending c)) ∧
     (∀ y, y ∈ concat (pending_items (oc_pending c)) → String.ltb (mapper y) (mapper x) = false) ∧
     merge_inv (oc_lastYielded c') (pending_items (oc_pending c'))).
Proof.
  intros Hinv Hlh. unfold ordered_Head. rewrite Hlh.
  destruct (oc_head_spec fuel c Hinv) as (p'&Hp'&[[Hnil ->]|(i&x&l&s&->&Hi&Hmin&Ho&Heo)]).
  { left. split; [done|]. eexists. split_and!; [done|done|by rewrite <-Hnil; apply concat_pending|by eapply merge_inv_entries]. }
  right. rewrite Ho. simpl. destruct (Head_cons s x l Heo) as (s'&->&Hs').
  assert (Forall2 entry_of (pending_items (oc_pending c)) (<[i:=Some s']> p')) as Hp''.
  { rewrite <-(list_insert_id (pending_items (oc_pending c)) i (x :: l)) by done. by apply Forall2_insert. }
  eexists x, _. split_and!; [done|done|by apply concat_pending| | |by eapply merge_inv_entries].
  - apply elem_of_concat. exists (x :: l). split; [by eapply list_elem_of_lookup_2|by left].
  - eapply selected_min; [apply Hinv|done|done].
Qed.

Lemma ordered_drain_spec n fuel c :
  merge_inv (oc_lastYielded c) (pending_items (oc_pending c)) →
  (length (concat (pending_items (oc_pending c))) < n)%nat →
  ∃ out, drain_fuel (ordered_Next mapper fuel None) n c = (out, Some ErrIteratorDone) ∧
    out ≡ₚ concat (pending_items (oc_pending c)) ∧ StronglySorted key_before out.
Proof.
  revert c. induction n as [|n IH]; intros c Hinv Hn; [lia|]. simpl.
  destruct (ordered_Next_spec fuel c Hinv) as [(Hnil&c'&->&_)|(x&c'&->&Hly&_&Hperm&Hinv')].
  { exists []. rewrite Hnil. split_and!; [done..|constructor]. }
  rewrite <-Hly in Hinv'. destruct (IH c' Hinv') as (out&->&Hout&Hsorted).
  { rewrite <-Hperm in Hn. simpl in Hn. lia. }
  exists (x :: out). split_and!; [done|by rewrite Hout|]. constructor; [done|].
  rewrite Hout. apply Forall_forall. intros y Hy. by eapply (mi_after _ _ Hinv').
Qed.
End ordered_spec.

(** ** Theorems *)

(** A combined iterator yields every item of every non-nil input, one input
    after the other, duplicates included, and then [ErrIteratorDone]. *)
Theorem NewCombinedIterator_drain {S T} `{!Iterator S T, !IteratorSpec S T}
    (iters : list (option S)) n :
  (length (concat (items <$> omap id iters)) < n)%nat →
  drain n (NewCombinedIterator iters) =
    (concat (items <$> omap id iters), Some ErrIteratorDone).
Proof. intros Hn. exact (drain_items n (NewCombinedIterator iters) Hn). Qed.

Lemma NewCombinedIterator_drain_witness :
  drain 5 (NewCombinedIterator [Some (NewStaticIterator [1; 2]); None; Some (NewStaticIterator [2; 3])])
  = ([1; 2; 2; 3], Some ErrIteratorDone).
Proof.
  etrans; [apply (NewCombinedIterator_drain
    [Some (NewStaticIterator [1; 2]); None; Some (NewStaticIterator [2; 3])] 5)|reflexivity].
  simpl. lia.
Defined.

(** The pipeline of filters that every check resolver reads through. *)
Lemma read_pipeline_spec {S} `{!Iterator S Tuple, !IteratorSpec S Tuple}
    (iter : S) (valid : TupleKey → bool) (cond : TupleKey → outcome IterErr bool) fuel n
    (keys := List.filter valid (Key <$> items iter)) :
  (∀ tk, no_panic (cond tk)) →
  (length (items iter) < fuel)%nat → (length (items iter) < n)%nat →
  drain_fuel (conditions_Next cond fuel None) n
    (NewConditionsFiltered (NewFilteredTupleKeyIterator
       (NewTupleKeyIteratorFromTupleIterator iter) valid)) =
  (cond_valid cond keys,
   Some (match cond_valid cond keys, cond_last_error cond None keys with
         | [], Some e => e
         | _, _ => ErrIteratorDone
         end)).
Proof.
  intros Hcond Hfuel Hn.
  assert (length keys ≤ length (items iter))%nat as Hlen.
  { subst keys. etrans; [apply filter_length_le|]. by rewrite length_fmap. }
  rewrite conditions_drain_gen; simpl; [|done|subst keys; simpl; lia..].
  fold keys. f_equal. f_equal. unfold final_error.
  destruct (cond_valid cond keys); simpl; [|done].
  by destruct (cond_last_error cond None keys).
Qed.

(** Reading tuples through [NewConditionsFilteredTupleKeyIterator] over
    [NewFilteredTupleKeyIterator] over [NewTupleKeyIteratorFromTupleIterator], the
    pipeline every check resolver uses, yields in order exactly the keys that pass
    the validity filter and whose condition is met.  It ends with
    [ErrIteratorDone], except that when no tuple at all qualified and some
    condition failed to evaluate it ends with the last such error. *)
Theorem read_pipeline_drain {S} `{!Iterator S Tuple, !IteratorSpec S Tuple}
    (iter : S) (valid : TupleKey → bool) (cond : TupleKey → outcome IterErr bool) fuel n
    (keys := List.filter valid (Key <$> items iter)) :
  (∀ tk, no_panic (cond tk)) →
  (length (items iter) < fuel)%nat → (length (items iter) < n)%nat →
  drain_fuel (conditions_Next cond fuel None) n
    (NewConditionsFiltered (NewFilteredTupleKeyIterator
       (NewTupleKeyIteratorFromTupleIterator iter) valid)) =
  (cond_valid cond keys,
   Some (match cond_valid cond keys, cond_last_error cond None keys with
         | [], Some e => e
         | _, _ => ErrIteratorDone
         end)).
Proof. apply read_pipeline_spec. Qed.

Definition demo_tuple (o u : string) : Tuple := mkTuple (NewTupleKey o "viewer" u) None.

Lemma read_pipeline_drain_witness :
  drain_fuel (conditions_Next (λ tk, if User tk =s "user:b" then Throw (ErrOther "eval") else Ret true) 4 None) 4
    (NewConditionsFiltered (NewFilteredTupleKeyIterator
       (NewTupleKeyIteratorFromTupleIterator
          (NewStaticIterator [demo_tuple "doc:1" "user:a"; demo_tuple "doc:1" "user:b"]))
       (λ tk, negb (User tk =s "user:a"))))
  = ([], Some (ErrOther "eval")).
Proof.
  rewrite (read_pipeline_drain (NewStaticIterator [demo_tuple "doc:1" "user:a"; demo_tuple "doc:1" "user:b"])
    (λ tk, negb (User tk =s "user:a")) _ 4 4).
  - reflexivity.
  - intros tk. by case_bool_decide.
  - simpl. lia.
  - simpl. lia.
Defined.

(** [Head] and [Next] of the conditions-filtered iterator agree: the item that
    [Head] shows is the one the following [Next] returns, although [Head] may have
    advanced the underlying iterator. *)
Theorem conditions_Head_Next {S T} `{!Iterator S T, !IteratorSpec S T}
    (cond : T → outcome IterErr bool) fuel f x f' :
  (∀ t, no_panic (cond t)) →
  (length (items (cf_iter f)) < fuel)%nat →
  conditions_Head cond fuel None f = Some (Ret x, f') →
  ∃ f'', conditions_Next cond fuel None f' = Some (Ret x, f'').
Proof.
  intros Hok Hf HH. apply conditions_Head_spec in HH as (l&Hi&Hx&_); [|done..].
  destruct fuel as [|fuel]; [lia|]. simpl.
  destruct (Next_cons _ x l Hi) as (i'&->&_). rewrite Hx. eauto.
Qed.

Lemma conditions_Head_Next_witness :
  ∃ f'', conditions_Next (λ n : nat, Ret (bool_decide (1 < n)%nat)) 4 None
    (mkConditionsFiltered (NewStaticIterator [2; 3]) None true) = Some (Ret 2, f'').
Proof.
  apply (conditions_Head_Next (λ n : nat, Ret (bool_decide (1 < n)%nat)) 4
           (NewConditionsFiltered (NewStaticIterator [1; 2; 3])) 2).
  - done.
  - simpl. lia.
  - reflexivity.
Defined.

(** C39: when its inputs are strictly ascending and no key occurs in two of them,
    [OrderedCombinedIterator] yields their sorted merge: every item exactly once, in
    strictly ascending key order, and then [ErrIteratorDone]. *)
Theorem ordered_combined_merge {S T} `{!Iterator S T, !IteratorSpec S T} (mapper : T → string)
    (iters : list (option S)) fuel n :
  Forall (StronglySorted (key_before mapper)) (items <$> omap id iters) →
  NoDup (mapper <$> concat (items <$> omap id iters)) →
  (length (concat (items <$> omap id iters)) < n)%nat →
  ∃ out, drain_fuel (ordered_Next mapper fuel None) n (NewOrderedCombinedIterator iters)
           = (out, Some ErrIteratorDone) ∧
    out ≡ₚ concat (items <$> omap id iters) ∧ StronglySorted (key_before mapper) out.
Proof.
  intros Hs Hnd Hn.
  assert (pending_items (oc_pending (NewOrderedCombinedIterator (T:=T) iters)) = items <$> omap id iters) as Hp.
  { unfold pending_items; simpl. by rewrite omap_Some_id. }
  rewrite <-Hp in *. apply ordered_drain_spec; [|done]. split; [done..|]. by intros.
Qed.

Definition demo_iters : list (option (StaticIterator string)) :=
  [Some (NewStaticIterator ["a"; "d"]); None; Some (NewStaticIterator ["b"; "c"])].

Lemma ordered_combined_merge_witness :
  ∃ out, drain_fuel (ordered_Next (λ s : string, s) 1 None) 5 (NewOrderedCombinedIterator demo_iters)
     = (out, Some ErrIteratorDone) ∧ out ≡ₚ concat (items <$> omap id demo_iters) ∧
     StronglySorted (key_before (λ s : string, s)) out.
Proof.
  apply (ordered_combined_merge (λ s : string, s) demo_iters 1 5).
  - repeat constructor.
  - apply (bool_decide_unpack _). vm_compute. done.
  - simpl. lia.
Defined.

(** [OrderedCombinedIterator] loses items when two inputs share a key: with
    inputs a,c and a,b,d the second "a" is discarded by calls of [Next] that also
    consume "b", and the merge then stops with "not in ascending order" although
    both inputs are ascending. *)
Theorem ordered_combined_drops_after_duplicate :
  drain_fuel (ordered_Next (λ s : string, s) 10 None) 10
    (NewOrderedCombinedIterator [Some (NewStaticIterator ["a"]); Some (NewStaticIterator ["a"; "b"])])
    = (["a"], Some ErrIteratorDone) ∧
  drain_fuel (ordered_Next (λ s : string, s) 10 None) 10
    (NewOrderedCombinedIterator [Some (NewStaticIterator ["a"; "c"]); Some (NewStaticIterator ["a"; "b"; "d"])])
    = (["a"; "d"], Some (ErrNotAscending 0)).
Proof. split; vm_compute; reflexivity. Qed.
