(* ===== verification/Model.v ===== *)
(** * Authorization models: the protobuf messages and their constructors

    The messages of an authorization model (generated Go types; only their fields
    are used) and the helpers of [pkg/typesystem/typesystem.go] that build and
    compare them. *)

From S2P Require Import Prelude GoStd Tuple.

Local Open Scope go_scope.

(** ** Messages *)

(** The oneof of [RelationReference]. *)
Inductive RelationOrWildcard :=
| RR_Relation (relation : string)
| RR_Wildcard.

Record RelationReference := mkRelationReference {
  rr_Type : string;
  rr_RelationOrWildcard : option RelationOrWildcard;
  rr_Condition : string;
}.

(** [openfgav1.Userset], a rewrite; [Userset_nil] is a nil message or a nil oneof.  A computed
    userset may name an object, which only Expand reads; the objects of the two references
    of a tuple-to-userset are never read. *)
Inductive Userset :=
| Userset_This
| Userset_ComputedUserset (object relation : string)
| Userset_TupleToUserset (tupleset computedUserset : string)
| Userset_Union (child : list Userset)
| Userset_Intersection (child : list Userset)
| Userset_Difference (base subtract : Userset)
| Userset_nil.

(** [openfgav1.Condition]: name, CEL expression, declared parameters and their types. *)
Record ModelCondition := mkModelCondition {
  mc_Name : string;
  mc_Expression : string;
  mc_Parameters : gmap string string;
}.

Record TypeDefinition := mkTypeDefinition {
  td_Type : string;
  td_Relations : gmap string Userset;
  td_Metadata : gmap string (list RelationReference);
}.

Record AuthorizationModel := mkAuthorizationModel {
  am_Id : string;
  am_SchemaVersion : string;
  am_TypeDefinitions : list TypeDefinition;
  am_Conditions : gmap string ModelCondition;
}.

Global Instance RelationOrWildcard_eq_dec : EqDecision RelationOrWildcard.
Proof. solve_decision. Defined.
Global Instance RelationReference_eq_dec : EqDecision RelationReference.
Proof. solve_decision. Defined.

(** ** Accessors on the oneof *)

(** [ref.GetRelation()]. *)
Definition rr_GetRelation (r : RelationReference) : string :=
  match rr_RelationOrWildcard r with Some (RR_Relation rel) => rel | _ => "" end.

(** [ref.GetWildcard() != nil]. *)
Definition rr_HasWildcard (r : RelationReference) : bool :=
  match rr_RelationOrWildcard r with Some RR_Wildcard => true | _ => false end.

(** [ref.GetRelationOrWildcard() == nil]. *)
Definition rr_IsPlain (r : RelationReference) : bool :=
  match rr_RelationOrWildcard r with None => true | _ => false end.

(** ** Constructors *)

Definition DirectRelationReference (objectType relation : string) : RelationReference :=
  mkRelationReference objectType
    (if negb (relation =s "") then Some (RR_Relation relation) else None) "".

Lemma DirectRelationReference_relation ty r : rr_GetRelation (DirectRelationReference ty r) = r.
Proof. unfold DirectRelationReference, rr_GetRelation. simpl. by case_bool_decide. Qed.

Definition WildcardRelationReference (objectType : string) : RelationReference :=
  mkRelationReference objectType (Some RR_Wildcard) "".

Definition ConditionedRelationReference (rel : RelationReference) (condition : string)
  : RelationReference :=
  mkRelationReference (rr_Type rel) (rr_RelationOrWildcard rel) condition.

Definition This : Userset := Userset_This.
Definition ComputedUserset (relation : string) : Userset := Userset_ComputedUserset "" relation.
Definition TupleToUserset (tupleset computedUserset : string) : Userset :=
  Userset_TupleToUserset tupleset computedUserset.
Definition Union (children : list Userset) : Userset := Userset_Union children.
Definition Intersection (children : list Userset) : Userset := Userset_Intersection children.
Definition Difference (base sub : Userset) : Userset := Userset_Difference base sub.

Definition SchemaVersion1_0 : string := "1.0".
Definition SchemaVersion1_1 : string := "1.1".
Definition SchemaVersion1_2 : string := "1.2".

Definition IsSchemaVersionSupported (version : string) : bool :=
  (version =s SchemaVersion1_1) || (version =s SchemaVersion1_2).

Definition GetRelationReferenceAsString (rr : option RelationReference) : outcome unit string :=
  match rr with
  | None => Ret ""
  | Some r =>
      match rr_RelationOrWildcard r with
      | Some (RR_Relation rel) => Ret (rr_Type r +:+ "#" +:+ rel)
      | Some RR_Wildcard => Ret (TypedPublicWildcard (rr_Type r))
      | None => Panic "unexpected relation reference"
      end
  end.

Definition RelationEquals (a b : RelationReference) : bool :=
  if negb (rr_Type a =s rr_Type b) then false
  else if rr_IsPlain a && rr_IsPlain b then true
  else if rr_HasWildcard a && rr_HasWildcard b then true
  else negb (rr_GetRelation a =s "") && negb (rr_GetRelation b =s "")
       && (rr_GetRelation a =s rr_GetRelation b).

(** ** Induction on rewrites *)

Section userset_induction.
Variable P : Userset → Prop.
Hypothesis H_this : P Userset_This.
Hypothesis H_computed : ∀ ob r, P (Userset_ComputedUserset ob r).
Hypothesis H_ttu : ∀ t c, P (Userset_TupleToUserset t c).
Hypothesis H_union : ∀ child, Forall P child → P (Userset_Union child).
Hypothesis H_intersection : ∀ child, Forall P child → P (Userset_Intersection child).
Hypothesis H_difference : ∀ b s, P b → P s → P (Userset_Difference b s).
Hypothesis H_nil : P Userset_nil.

(** Induction with a hypothesis for every child of a union or an intersection. *)
Fixpoint Userset_nested_ind (u : Userset) : P u :=
  let children := fix go (l : list Userset) : Forall P l :=
    match l with
    | [] => List.Forall_nil P
    | x :: l' => List.Forall_cons P x l' (Userset_nested_ind x) (go l')
    end in
  match u with
  | Userset_This => H_this
  | Userset_ComputedUserset ob r => H_computed ob r
  | Userset_TupleToUserset t c => H_ttu t c
  | Userset_Union child => H_union child (children child)
  | Userset_Intersection child => H_intersection child (children child)
  | Userset_Difference b s => H_difference b s (Userset_nested_ind b) (Userset_nested_ind s)
  | Userset_nil => H_nil
  end.
End userset_induction.

(** Number of nodes of a rewrite. *)
Fixpoint userset_size (u : Userset) : nat :=
  match u with
  | Userset_Union child | Userset_Intersection child => S (sum_list (userset_size <$> child))
  | Userset_Difference b s => S (userset_size b + userset_size s)
  | _ => 1
  end.

(** [RelationEquals] is equality of type and oneof, conditions ignored, on
    references whose relation, if any, is not the empty string. *)
Lemma RelationEquals_spec a b :
  rr_RelationOrWildcard a ≠ Some (RR_Relation "") →
  RelationEquals a b = true ↔
  rr_Type a = rr_Type b ∧ rr_RelationOrWildcard a = rr_RelationOrWildcard b.
Proof.
  destruct a as [ta wa ca], b as [tb wb cb]; unfold RelationEquals; simpl; intros Ha.
  case_bool_decide as Ht; simpl; [|naive_solver].
  destruct wa as [[r|]|], wb as [[r'|]|]; unfold rr_IsPlain, rr_HasWildcard, rr_GetRelation; simpl;
    repeat case_bool_decide; simpl; naive_solver.
Qed.
