(* ===== verification/Memory.v ===== *)
(** * The in-memory datastore: [pkg/storage/memory/memory.go]

    [MemoryBackend] and its methods, with [pkg/storage/record.go] (the stored
    tuple), [pkg/storage/errors.go] and the option types of
    [pkg/storage/storage.go].  Every method runs under the backend's mutexes, so a
    method is one atomic step on the state.  The clock and the ULID generator are
    arguments: [now] in nanoseconds, and a class for the ULID library. *)

From S2P Require Import Prelude GoStd Tuple Iterators Model.

Local Open Scope Z_scope.
Local Open Scope go_scope.

(** ** The ULID library (github.com/oklog/ulid)

    A ULID is a 128-bit number; [MustNew] takes the millisecond timestamp and the
    process-wide entropy source. *)
Class Ulid := {
  entropy : Type;
  MustNew : Z → entropy → N * entropy;
  ulid_String : N → string;
  ulid_Parse : string → option N;
}.

(** The library's documented contract: printing is invertible, and the process-wide
    entropy source is monotonic: as long as the millisecond does not go back, each
    ULID is greater than the previous one. *)
Class UlidLaws `{!Ulid} := {
  ulid_Parse_String u : ulid_Parse (ulid_String u) = Some u;
  ulid_String_nonempty u : ulid_String u ≠ "";
  last_ulid : entropy → N;
  last_ms : entropy → Z;
  MustNew_monotonic ms e :
    last_ms e ≤ ms →
    (last_ulid e < (MustNew ms e).1)%N ∧
    last_ulid (MustNew ms e).2 = (MustNew ms e).1 ∧ last_ms (MustNew ms e).2 = ms;
}.

(** ** Records, errors and options *)

Record TupleRecord := mkTupleRecord {
  tr_Store : string;
  tr_ObjectType : string;
  tr_ObjectID : string;
  tr_Relation : string;
  tr_User : string;
  tr_UserObjectType : string;
  tr_UserObjectID : string;
  tr_UserRelation : string;
  tr_ConditionName : string;
  tr_ConditionContext : option Struct;
  tr_Ulid : string;
  tr_InsertedAt : Z;
}.

Definition AsTuple (t : TupleRecord) : Tuple :=
  let user := if tr_User t =s ""
              then FromUserParts (tr_UserObjectType t) (tr_UserObjectID t) (tr_UserRelation t)
              else tr_User t in
  mkTuple (NewTupleKeyWithCondition (BuildObject (tr_ObjectType t) (tr_ObjectID t))
             (tr_Relation t) user (tr_ConditionName t) (tr_ConditionContext t))
          (Some (tr_InsertedAt t)).

Inductive TupleOperation := OperationWrite | OperationDelete.

Inductive StorageErr :=
| ErrCollision
| ErrInvalidContinuationToken
| ErrInvalidStartTime
| ErrInvalidWriteInput (user relation object : string) (op : TupleOperation)
| ErrTransactionalWriteFailed
| ErrTransactionThrottled
| ErrNotFound
| ErrStrconv
| ErrIterator (e : IterErr).

Definition InvalidWriteInputError (tk : TupleKey) (operation : TupleOperation) : StorageErr :=
  ErrInvalidWriteInput (User tk) (Relation tk) (Object tk) operation.

Record TupleChange := mkTupleChange {
  tc_TupleKey : TupleKey;
  tc_Operation : TupleOperation;
  tc_Timestamp : Z;
}.

Record tupleChangeRec := mkTupleChangeRec { Change : TupleChange; ChangeUlid : N }.

Record PaginationOptions := mkPagination { PageSize : Z; From_ : string }.

Definition DefaultPageSize : Z := 50.

Record ReadUsersetTuplesFilter := mkReadUsersetTuplesFilter {
  ruf_Object : string;
  ruf_Relation : string;
  ruf_AllowedUserTypeRestrictions : list RelationReference;
}.

(** [ObjectIDs] is an optional [SortedSet]; only membership is used. *)
Record ReadStartingWithUserFilter := mkReadStartingWithUserFilter {
  rsf_ObjectType : string;
  rsf_Relation : string;
  rsf_UserFilter : list ObjectRelation;
  rsf_ObjectIDs : option (list string);
}.

Record ReadChangesFilter := mkReadChangesFilter { rcf_ObjectType : string; rcf_HorizonOffset : Z }.

Record Store := mkStore { store_Id : string; store_Name : string; store_CreatedAt : Z; store_UpdatedAt : Z }.

Record Assertion := mkAssertion {
  as_TupleKey : TupleKeyWithoutCondition;
  as_Expectation : bool;
  as_ContextualTuples : list TupleKey;
  as_Context : option Struct;
}.

Record ListStoresOptions := mkListStoresOptions {
  lso_IDs : list string;
  lso_Name : string;
  lso_Pagination : PaginationOptions;
}.

(** ** The backend *)

Record AuthorizationModelEntry := mkModelEntry { entry_model : AuthorizationModel; entry_latest : bool }.

Record MemoryBackend := mkMemoryBackend {
  maxTuplesPerWrite : Z;
  maxTypesPerAuthorizationModel : Z;
  tuples : gmap string (list TupleRecord);
  changes : gmap string (list tupleChangeRec);
  authorizationModels : gmap string (gmap string AuthorizationModelEntry);
  stores : gmap string Store;
  assertions : gmap string (list Assertion);
}.

Definition set_tuples (s : MemoryBackend) t c : MemoryBackend :=
  mkMemoryBackend (maxTuplesPerWrite s) (maxTypesPerAuthorizationModel s)
    t c (authorizationModels s) (stores s) (assertions s).
Definition set_models (s : MemoryBackend) m : MemoryBackend :=
  mkMemoryBackend (maxTuplesPerWrite s) (maxTypesPerAuthorizationModel s)
    (tuples s) (changes s) m (stores s) (assertions s).
Definition set_stores (s : MemoryBackend) st : MemoryBackend :=
  mkMemoryBackend (maxTuplesPerWrite s) (maxTypesPerAuthorizationModel s)
    (tuples s) (changes s) (authorizationModels s) st (assertions s).
Definition set_assertions (s : MemoryBackend) a : MemoryBackend :=
  mkMemoryBackend (maxTuplesPerWrite s) (maxTypesPerAuthorizationModel s)
    (tuples s) (changes s) (authorizationModels s) (stores s) a.

(** [New] with the options [WithMaxTuplesPerWrite] and
    [WithMaxTypesPerAuthorizationModel] applied ([None]: the defaults). *)
Definition New (optTuples optTypes : option Z) : MemoryBackend :=
  mkMemoryBackend (default 100 optTuples) (default 100 optTypes) ∅ ∅ ∅ ∅ ∅.

(** [s.tuples[store]]: a missing key is a nil slice. *)
Definition store_tuples (s : MemoryBackend) (store : string) : list TupleRecord :=
  default [] (tuples s !! store).
Definition store_changes (s : MemoryBackend) (store : string) : list tupleChangeRec :=
  default [] (changes s !! store).

(** *** Reading tuples *)

Definition match_ (t : TupleRecord) (target : TupleKey) : bool :=
  (if negb (Object target =s "") then
     let '(td, objectid) := SplitObject (Object target) in
     if objectid =s "" then td =s tr_ObjectType t
     else (td =s tr_ObjectType t) && (objectid =s tr_ObjectID t)
   else true)
  && negb (negb (Relation target =s "") && negb (tr_Relation t =s Relation target))
  && negb (negb (User target =s "") && negb (tr_User t =s User target)).

Fixpoint find (records : list TupleRecord) (tupleKey : TupleKey) : bool :=
  match records with
  | [] => false
  | tr :: rest => if match_ tr tupleKey then true else find rest tupleKey
  end.

(** [staticIterator]. *)
Record staticIterator := mkStatic { records : list TupleRecord; continuationToken : string }.

Definition si_Next (ctx : Ctx) (s : staticIterator) : outcome IterErr Tuple * staticIterator :=
  match ctx with
  | Some e => (Throw (ErrCtx e), s)
  | None =>
      match records s with
      | [] => (Throw ErrIteratorDone, s)
      | next :: rest => (Ret (AsTuple next), mkStatic rest (continuationToken s))
      end
  end.

Definition si_Head (ctx : Ctx) (s : staticIterator) : outcome IterErr Tuple * staticIterator :=
  match ctx with
  | Some e => (Throw (ErrCtx e), s)
  | None =>
      match records s with
      | [] => (Throw ErrIteratorDone, s)
      | rec :: _ => (Ret (AsTuple rec), s)
      end
  end.

(** "Stop does not do anything for staticIterator." *)
Definition si_Stop (s : staticIterator) : staticIterator := s.

Global Instance si_Iterator : Iterator staticIterator Tuple :=
  {| Next := si_Next; Head := si_Head; Stop := si_Stop; remaining s := length (records s) |}.

(** [ToArray]: the loop [for range s.records] runs [n] times. *)
Fixpoint to_array_loop (n : nat) (ctx : Ctx) (s : staticIterator) : outcome IterErr (list Tuple * staticIterator) :=
  match n with
  | O => Ret ([], s)
  | S n =>
      match si_Next ctx s with
      | (Ret t, s') =>
          match to_array_loop n ctx s' with
          | Ret (res, s'') => Ret (t :: res, s'')
          | Throw e => Throw e
          | Panic w => Panic w
          end
      | (Throw e, _) => Throw e
      | (Panic w, _) => Panic w
      end
  end.

Definition ToArray (ctx : Ctx) (s : staticIterator) : outcome IterErr (list Tuple * string) :=
  let! (res, s') := to_array_loop (length (records s)) ctx s in
  Ret (res, continuationToken s').

(** [read]: [options] is [None] for an unpaginated read. *)
Definition read (s : MemoryBackend) (store : string) (tk : TupleKey) (options : option PaginationOptions)
  : outcome StorageErr staticIterator :=
  let matches :=
    if (Object tk =s "") && (Relation tk =s "") && (User tk =s "") then store_tuples s store
    else List.filter (λ t, match_ t tk) (store_tuples s store) in
  let! from :=
    match options with
    | Some o => if negb (From_ o =s "")
                then match Atoi (From_ o) with Some z => Ret z | None => Throw ErrStrconv end
                else Ret 0
    | None => Ret 0
    end in
  let! matches := if bool_decide (from ≤ zlen matches)
                  then go_slice matches from (zlen matches) else Ret matches in
  let to := match options with Some o => PageSize o | None => 0 end in
  if negb (bool_decide (to = 0)) && bool_decide (to < zlen matches) then
    let! page := go_slice matches 0 to in
    Ret (mkStatic page (Itoa (wrap64 (from + to))))
  else Ret (mkStatic matches "").

Definition Read (s : MemoryBackend) (store : string) (key : TupleKey) : outcome StorageErr staticIterator :=
  read s store key None.

Definition ReadPage (ctx : Ctx) (s : MemoryBackend) (store : string) (key : TupleKey) (options : PaginationOptions)
  : outcome StorageErr (list Tuple * string) :=
  let! it := read s store key (Some options) in
  match ToArray ctx it with
  | Ret r => Ret r
  | Throw e => Throw (ErrIterator e)
  | Panic w => Panic w
  end.

Fixpoint read_user_tuple_loop (l : list TupleRecord) (key : TupleKey) : outcome StorageErr Tuple :=
  match l with
  | [] => Throw ErrNotFound
  | t :: rest => if match_ t key then Ret (AsTuple t) else read_user_tuple_loop rest key
  end.

Definition ReadUserTuple (s : MemoryBackend) (store : string) (key : TupleKey) : outcome StorageErr Tuple :=
  read_user_tuple_loop (store_tuples s store) key.

(** The copies of [t] that [ReadUsersetTuples] appends: one when no restriction is
    given, otherwise one for every restriction that allows it. *)
Definition userset_matches (filter : ReadUsersetTuplesFilter) (t : TupleRecord) : list TupleRecord :=
  if match_ t (mkTupleKey (ruf_Object filter) (ruf_Relation filter) "" None)
     && (match GetUserTypeFromUser (tr_User t) with UserTypeUserSet => true | _ => false end)
  then match ruf_AllowedUserTypeRestrictions filter with
       | [] => [t]
       | allowed =>
           let userType := GetType (tr_User t) in
           let userRelation := (SplitObjectRelation (tr_User t)).2 in
           omap (λ a : RelationReference,
             if (rr_Type a =s userType) && (rr_GetRelation a =s userRelation)
             then Some t else None) allowed
       end
  else [].

Definition ReadUsersetTuples (s : MemoryBackend) (store : string) (filter : ReadUsersetTuplesFilter)
  : outcome StorageErr staticIterator :=
  Ret (mkStatic (concat (userset_matches filter <$> store_tuples s store)) "").

(** The copies of [t] that [ReadStartingWithUser] appends: one for every user filter
    that names its user. *)
Definition starting_matches (filter : ReadStartingWithUserFilter) (t : TupleRecord) : list TupleRecord :=
  if negb (tr_ObjectType t =s rsf_ObjectType filter) then []
  else if negb (tr_Relation t =s rsf_Relation filter) then []
  else if match rsf_ObjectIDs filter with
          | Some ids => negb (bool_decide (tr_ObjectID t ∈ ids))
          | None => false
          end then []
  else omap (λ u : ObjectRelation,
         let targetUser := if negb (or_Relation u =s "") then GetObjectRelationAsString u else or_Object u in
         if negb (targetUser =s tr_User t) then None else Some t) (rsf_UserFilter filter).

Definition ReadStartingWithUser `{!SortSlice} (s : MemoryBackend) (store : string)
    (filter : ReadStartingWithUserFilter) : outcome StorageErr staticIterator :=
  let matches := concat (starting_matches filter <$> store_tuples s store) in
  Ret (mkStatic (sort_slice (λ a b, String.ltb (tr_ObjectID a) (tr_ObjectID b)) matches) "").

(** *** Writing tuples *)

Fixpoint validate_deletes (recs : list TupleRecord) (deletes : list TupleKeyWithoutCondition)
  : outcome StorageErr unit :=
  match deletes with
  | [] => Ret tt
  | tk :: rest =>
      let tk' := TupleKeyWithoutConditionToTupleKey tk in
      if negb (find recs tk') then Throw (InvalidWriteInputError tk' OperationDelete)
      else validate_deletes recs rest
  end.

Fixpoint validate_writes (recs : list TupleRecord) (writes : list TupleKey) : outcome StorageErr unit :=
  match writes with
  | [] => Ret tt
  | tk :: rest =>
      if find recs tk then Throw (InvalidWriteInputError tk OperationWrite)
      else validate_writes recs rest
  end.

Definition validateTuples (recs : list TupleRecord) (deletes : list TupleKeyWithoutCondition)
    (writes : list TupleKey) : outcome StorageErr unit :=
  let! _ := validate_deletes recs deletes in validate_writes recs writes.

Section write.
Context `{!Ulid}.

(** [ulid.MustNew(ulid.Timestamp(now.AsTime()), entropy)]. *)
Definition new_ulid (now : Z) (e : entropy) : N * entropy := MustNew (now / 1000000) e.

(** [for _, k := range deletes { if match(tr, k) ... }]. *)
Definition deleted_by (tr : TupleRecord) (deletes : list TupleKeyWithoutCondition) : bool :=
  existsb (λ k, match_ tr (TupleKeyWithoutConditionToTupleKey k)) deletes.

(** The loop labelled [Delete]: the records kept, the changes appended. *)
Fixpoint delete_loop (now : Z) (deletes : list TupleKeyWithoutCondition) (recs : list TupleRecord) (e : entropy)
  : list TupleRecord * list tupleChangeRec * entropy :=
  match recs with
  | [] => ([], [], e)
  | tr :: rest =>
      if deleted_by tr deletes then
        let tk := Key (AsTuple tr) in
        let '(u, e1) := new_ulid now e in
        let c := mkTupleChangeRec
                   (mkTupleChange (NewTupleKey (Object tk) (Relation tk) (User tk)) OperationDelete now) u in
        let '(kept, cs, e2) := delete_loop now deletes rest e1 in (kept, c :: cs, e2)
      else
        let '(kept, cs, e1) := delete_loop now deletes rest e in (tr :: kept, cs, e1)
  end.

(** The record and the changelog key [Write] makes for a tuple [t]. *)
Definition new_record (store : string) (now : Z) (t : TupleKey) (u : N) : TupleRecord :=
  let conditionName := match Condition t with Some c => cond_Name c | None => "" end in
  let conditionContext := match Condition t with Some c => cond_Context c | None => None end in
  let '(objectType, objectID) := SplitObject (Object t) in
  mkTupleRecord store objectType objectID (Relation t) (User t) "" "" ""
    conditionName conditionContext (ulid_String u) now.

Definition change_key (t : TupleKey) : TupleKey :=
  let conditionName := match Condition t with Some c => cond_Name c | None => "" end in
  let conditionContext := match Condition t with Some c => cond_Context c | None => None end in
  let '(objectType, objectID) := SplitObject (Object t) in
  NewTupleKeyWithCondition (BuildObject objectType objectID) (Relation t) (User t)
    conditionName conditionContext.

(** The loop labelled [Write]: [recs] is the slice it appends to. *)
Fixpoint write_loop (store : string) (now : Z) (writes : list TupleKey) (recs : list TupleRecord) (e : entropy)
  : list TupleRecord * list tupleChangeRec * entropy :=
  match writes with
  | [] => (recs, [], e)
  | t :: rest =>
      if existsb (λ et, match_ et t) recs then write_loop store now rest recs e
      else
        let '(u1, e1) := new_ulid now e in
        let '(u2, e2) := new_ulid now e1 in
        let c := mkTupleChangeRec (mkTupleChange (change_key t) OperationWrite now) u2 in
        let '(recs', cs, e3) := write_loop store now rest (recs ++ [new_record store now t u1]) e2 in
        (recs', c :: cs, e3)
  end.

(** [Write]: on an error nothing changes. *)
Definition Write (now : Z) (store : string) (deletes : list TupleKeyWithoutCondition) (writes : list TupleKey)
    (s : MemoryBackend) (e : entropy) : outcome StorageErr (MemoryBackend * entropy) :=
  let! _ := validateTuples (store_tuples s store) deletes writes in
  let '(kept, cs1, e1) := delete_loop now deletes (store_tuples s store) e in
  let '(recs, cs2, e2) := write_loop store now writes kept e1 in
  Ret (set_tuples s (<[store := recs]> (tuples s))
         (<[store := store_changes s store ++ cs1 ++ cs2]> (changes s)), e2).

(** *** The changelog *)

(** The selection loop of [ReadChanges]; [break] ends it at the first matching change
    younger than the horizon. *)
Fixpoint select_changes (objectType : string) (horizon : Z) (from : option N) (sortDesc : bool)
    (l : list tupleChangeRec) : list tupleChangeRec :=
  match l with
  | [] => []
  | c :: rest =>
      if (objectType =s "") || HasPrefix (Object (tc_TupleKey (Change c))) (objectType +:+ ":") then
        if bool_decide (horizon < tc_Timestamp (Change c)) then []
        else
          let skip := match from with
                      | Some f => if sortDesc then bool_decide (f ≤ ChangeUlid c)%N
                                  else bool_decide (ChangeUlid c ≤ f)%N
                      | None => false
                      end in
          if skip then select_changes objectType horizon from sortDesc rest
          else c :: select_changes objectType horizon from sortDesc rest
      else select_changes objectType horizon from sortDesc rest
  end.

(** [options.Pagination.PageSize] or the default. *)
Definition page_size (p : PaginationOptions) : Z :=
  if bool_decide (0 < PageSize p) then PageSize p else DefaultPageSize.

Definition ReadChanges (now : Z) (s : MemoryBackend) (store : string) (filter : ReadChangesFilter)
    (pagination : PaginationOptions) (sortDesc : bool) : outcome StorageErr (list TupleChange * string) :=
  let! from :=
    if negb (From_ pagination =s "")
    then match ulid_Parse (From_ pagination) with
         | Some u => Ret (Some u)
         | None => Throw ErrInvalidContinuationToken
         end
    else Ret None in
  let allChanges := select_changes (rcf_ObjectType filter) (now - rcf_HorizonOffset filter) from sortDesc
                      (store_changes s store) in
  if bool_decide (allChanges = []) then Throw ErrNotFound
  else
    let pageSize := page_size pagination in
    let allChanges := if sortDesc then reverse allChanges else allChanges in
    let to := if bool_decide (zlen allChanges < pageSize) then zlen allChanges else pageSize in
    if bool_decide (to = 0) then Throw ErrNotFound
    else
      let! page := go_slice allChanges 0 to in
      Ret (Change <$> page, ulid_String (default 0%N (ChangeUlid <$> last page))).
End write.

(** *** Authorization models *)

(** [for _, entry := range configurations { if entry.latest ... }]. *)
Fixpoint find_latest (order : list (string * AuthorizationModelEntry)) : option AuthorizationModel :=
  match order with
  | [] => None
  | (_, entry) :: rest => if entry_latest entry then Some (entry_model entry) else find_latest rest
  end.

Definition findAuthorizationModelByID `{!MapRange} (id : string) (configurations : gmap string AuthorizationModelEntry)
  : option AuthorizationModel :=
  if negb (id =s "") then entry_model <$> configurations !! id
  else find_latest (range_map configurations).

Definition ReadAuthorizationModel `{!MapRange} (s : MemoryBackend) (store id : string)
  : outcome StorageErr AuthorizationModel :=
  match authorizationModels s !! store with
  | None => Throw ErrNotFound
  | Some tm =>
      match findAuthorizationModelByID id tm with
      | Some model => match am_TypeDefinitions model with [] => Throw ErrNotFound | _ => Ret model end
      | None => Throw ErrNotFound
      end
  end.

(** [ParseInt(from, 10, 32)] of a continuation token, 0 when absent. *)
Definition page_from (p : PaginationOptions) : outcome StorageErr Z :=
  if negb (From_ p =s "")
  then match ParseInt (From_ p) 32 with Some z => Ret z | None => Throw ErrStrconv end
  else Ret 0.

(** The page [l[from:to]] with its end index, as [ReadAuthorizationModels] and
    [ListStores] cut it. *)
Definition cut_page {A} (l : list A) (p : PaginationOptions) (from : Z) : outcome StorageErr (list A * Z) :=
  let to := wrap64 (from + page_size p) in
  let to := if bool_decide (zlen l < to) then zlen l else to in
  let! res := go_slice l from to in Ret (res, to).

Definition ReadAuthorizationModels `{!SortSlice, !MapRange} (s : MemoryBackend) (store : string)
    (p : PaginationOptions)
  : outcome StorageErr (list AuthorizationModel * string) :=
  let entries := range_map (default ∅ (authorizationModels s !! store)) in
  let models := sort_slice (λ a b, String.ltb (am_Id b) (am_Id a)) (entry_model ∘ snd <$> entries) in
  let! from := page_from p in
  let! (res, to) := cut_page models p from in
  Ret (res, if negb (bool_decide (to = zlen models)) then Itoa to else "").

Definition FindLatestAuthorizationModel `{!MapRange} (s : MemoryBackend) (store : string)
  : outcome StorageErr AuthorizationModel :=
  match authorizationModels s !! store with
  | None => Throw ErrNotFound
  | Some tm =>
      match findAuthorizationModelByID "" tm with
      | Some nsc => Ret nsc
      | None => Throw ErrNotFound
      end
  end.

Definition WriteAuthorizationModel (s : MemoryBackend) (store : string) (model : AuthorizationModel) : MemoryBackend :=
  let tm := default ∅ (authorizationModels s !! store) in
  let tm := (λ entry, mkModelEntry (entry_model entry) false) <$> tm in
  set_models s (<[store := <[am_Id model := mkModelEntry model true]> tm]> (authorizationModels s)).

(** *** Stores and assertions *)

Definition CreateStore (now : Z) (s : MemoryBackend) (newStore : Store) : outcome StorageErr (Store * MemoryBackend) :=
  match stores s !! store_Id newStore with
  | Some _ => Throw ErrCollision
  | None =>
      let st := mkStore (store_Id newStore) (store_Name newStore) now now in
      Ret (st, set_stores s (<[store_Id newStore := st]> (stores s)))
  end.

Definition DeleteStore (s : MemoryBackend) (id : string) : MemoryBackend :=
  set_stores s (delete id (stores s)).

Definition GetStore (s : MemoryBackend) (storeID : string) : outcome StorageErr Store :=
  match stores s !! storeID with
  | None => Throw ErrNotFound
  | Some st => Ret st
  end.

Definition ListStores `{!MapRange} (s : MemoryBackend) (options : ListStoresOptions)
  : outcome StorageErr (list Store * string) :=
  let all := (range_map (stores s)).*2 in
  let all := if bool_decide (lso_IDs options = []) then all
             else concat ((λ storeID, List.filter (λ st, store_Id st =s storeID) all) <$> lso_IDs options) in
  let all := if negb (lso_Name options =s "") then List.filter (λ st, store_Name st =s lso_Name options) all
             else all in
  let all := SliceStable (λ a b, String.ltb (store_Id a) (store_Id b)) all in
  let! from := page_from (lso_Pagination options) in
  let! (res, to) := cut_page all (lso_Pagination options) from in
  if bool_decide (res = []) then Ret ([], "")
  else Ret (res, if negb (bool_decide (to = zlen all)) then Itoa to else "").

(** [fmt.Sprintf("%s|%s", store, modelID)]. *)
Definition assertionsID (store modelID : string) : string := store +:+ "|" +:+ modelID.

Definition WriteAssertions (s : MemoryBackend) (store modelID : string) (a : list Assertion) : MemoryBackend :=
  set_assertions s (<[assertionsID store modelID := a]> (assertions s)).

Definition ReadAssertions (s : MemoryBackend) (store modelID : string) : list Assertion :=
  default [] (assertions s !! assertionsID store modelID).

(** ** The abstract store *)

(** A tuple of the abstract store: object, relation, user. *)
Abbreviation akey := (string * string * string)%type.

Definition key_of (tk : TupleKey) : akey := (Object tk, Relation tk, User tk).
Definition key_of_woc (tk : TupleKeyWithoutCondition) : akey := (woc_Object tk, woc_Relation tk, woc_User tk).
Definition rec_key (t : TupleRecord) : akey :=
  (BuildObject (tr_ObjectType t) (tr_ObjectID t), tr_Relation t, tr_User t).

(** Keys with all three fields, as the write command sends them. *)
Definition complete_key (k : akey) : Prop :=
  let '(o, r, u) := k in
  (∃ t id, o = BuildObject t id ∧ has_byte ":" t = false ∧ id ≠ "") ∧ r ≠ "" ∧ u ≠ "".

Definition wf_record (t : TupleRecord) : Prop :=
  has_byte ":" (tr_ObjectType t) = false ∧ tr_ObjectID t ≠ "" ∧ tr_Relation t ≠ "" ∧ tr_User t ≠ "".

(** The set of tuples of a slice of records. *)
Definition tuple_set (recs : list TupleRecord) : gset akey := list_to_set (rec_key <$> recs).

(** What [Write] promises: the deletes must be present, the writes absent. *)
Definition spec_write (S D W : gset akey) : option (gset akey) :=
  if bool_decide (D ⊆ S ∧ W ∩ S = ∅) then Some ((S ∖ D) ∪ W) else None.

(** Replaying a changelog on a set. *)
Definition replay1 (S : gset akey) (c : tupleChangeRec) : gset akey :=
  let k := key_of (tc_TupleKey (Change c)) in
  match tc_Operation (Change c) with
  | OperationWrite => S ∪ {[k]}
  | OperationDelete => S ∖ {[k]}
  end.
Definition replay (S : gset akey) (cs : list tupleChangeRec) : gset akey := foldl replay1 S cs.

(** ** Lemmas: matching *)

Lemma rec_key_complete t : wf_record t → complete_key (rec_key t).
Proof. intros (?&?&?&?). split_and!; [|done..]. eauto. Qed.

Lemma BuildObject_inj t id t' id' :
  has_byte ":" t = false → has_byte ":" t' = false →
  BuildObject t id = BuildObject t' id' → t = t' ∧ id = id'.
Proof. intros Ht Ht' Heq. apply (str_split_unique ":" t id t' id'); done. Qed.

(** On complete keys [match] is equality of object, relation and user. *)
Lemma match_spec t tk :
  wf_record t → complete_key (key_of tk) → match_ t tk = true ↔ rec_key t = key_of tk.
Proof.
  intros (Ht&Hid&Hr&Hu) ((ot&oid&Ho&Hot&Hoid)&Hr'&Hu').
  unfold match_, key_of, rec_key in *. destruct tk as [o r u c]; simpl in *. subst o.
  assert (BuildObject ot oid ≠ "") as Hne by (unfold BuildObject; by destruct ot).
  rewrite SplitObject_build by done.
  rewrite (bool_decide_false (BuildObject ot oid = "")), (bool_decide_false (oid = "")),
    (bool_decide_false (r = "")), (bool_decide_false (u = "")) by done. simpl.
  rewrite !negb_involutive, !andb_true_iff, !bool_decide_eq_true, !pair_equal_spec.
  split; [by intros [[[-> ->] ->] ->]|].
  intros [[Heq ->] ->]. apply BuildObject_inj in Heq as [-> ->]; done.
Qed.

Lemma find_spec recs tk :
  Forall wf_record recs → complete_key (key_of tk) →
  find recs tk = true ↔ key_of tk ∈ tuple_set recs.
Proof.
  intros Hwf Hk. unfold tuple_set. induction Hwf as [|t recs Ht _ IH]; simpl; [set_solver|].
  destruct (match_ t tk) eqn:Hm.
  - apply match_spec in Hm; [|done..]. rewrite <-Hm. set_solver.
  - rewrite IH. assert (rec_key t ≠ key_of tk); [|set_solver].
    intros Heq. apply match_spec in Heq; [|done..]. congruence.
Qed.

Lemma existsb_find recs tk : existsb (λ et, match_ et tk) recs = find recs tk.
Proof. induction recs as [|t recs IH]; simpl; [done|]. rewrite IH. by destruct (match_ t tk). Qed.

Lemma key_of_conv k : key_of (TupleKeyWithoutConditionToTupleKey k) = key_of_woc k.
Proof. done. Qed.

Lemma deleted_by_spec t deletes :
  wf_record t → Forall (λ k, complete_key (key_of_woc k)) deletes →
  deleted_by t deletes = true ↔ rec_key t ∈ (key_of_woc <$> deletes).
Proof.
  intros Ht Hd. unfold deleted_by. rewrite existsb_exists, list_elem_of_fmap.
  setoid_rewrite <-list_elem_of_In. rewrite Forall_forall in Hd. split.
  - intros (k&Hk&Hm). exists k. split; [|done].
    apply match_spec in Hm; [done|done|by apply Hd].
  - intros (k&Heq&Hk). exists k. split; [done|].
    apply match_spec; [done|by apply (Hd k)|done].
Qed.

(** ** Lemmas: validation *)

Lemma validate_deletes_spec recs deletes :
  Forall wf_record recs → Forall (λ k, complete_key (key_of_woc k)) deletes →
  match validate_deletes recs deletes with
  | Ret _ => ∀ k, k ∈ (key_of_woc <$> deletes) → k ∈ tuple_set recs
  | Throw e => ∃ k, k ∈ (key_of_woc <$> deletes) ∧ (k ∉ tuple_set recs) ∧
      e = ErrInvalidWriteInput k.2 k.1.2 k.1.1 OperationDelete
  | Panic _ => False
  end.
Proof.
  intros Hwf Hd. induction Hd as [|k deletes Hk _ IH]; simpl; [set_solver|].
  destruct (find recs (TupleKeyWithoutConditionToTupleKey k)) eqn:Hf; simpl.
  - apply find_spec in Hf; [|done..]. destruct (validate_deletes _ _).
    + set_solver.
    + destruct IH as (k'&?&?&?). exists k'. set_solver.
    + done.
  - exists (key_of_woc k). split_and!; [set_solver| |done].
    intros Hin. apply (find_spec recs (TupleKeyWithoutConditionToTupleKey k)) in Hin; [|done..].
    congruence.
Qed.

Lemma validate_writes_spec recs writes :
  Forall wf_record recs → Forall (λ k, complete_key (key_of k)) writes →
  match validate_writes recs writes with
  | Ret _ => ∀ k, k ∈ (key_of <$> writes) → k ∉ tuple_set recs
  | Throw e => ∃ k, k ∈ (key_of <$> writes) ∧ k ∈ tuple_set recs ∧
      e = ErrInvalidWriteInput k.2 k.1.2 k.1.1 OperationWrite
  | Panic _ => False
  end.
Proof.
  intros Hwf Hd. induction Hd as [|k writes Hk _ IH]; simpl; [set_solver|].
  destruct (find recs k) eqn:Hf; simpl.
  - apply find_spec in Hf; [|done..]. exists (key_of k). split_and!; [set_solver|done|done].
  - assert (key_of k ∉ tuple_set recs).
    { intros Hin. apply find_spec in Hin; [|done..]. congruence. }
    destruct (validate_writes _ _); [set_solver| |done].
    destruct IH as (k'&?&?&?). exists k'. set_solver.
Qed.

(** ** Lemmas: the two loops of [Write] *)

Lemma AsTuple_key t : tr_User t ≠ "" → key_of (Key (AsTuple t)) = rec_key t.
Proof. intros Hu. unfold AsTuple, key_of, rec_key. simpl. by rewrite bool_decide_false. Qed.

Lemma tuple_set_app l k : tuple_set (l ++ k) = tuple_set l ∪ tuple_set k.
Proof. unfold tuple_set. by rewrite fmap_app, list_to_set_app_L. Qed.

Lemma elem_of_tuple_set k recs : k ∈ tuple_set recs ↔ ∃ t, k = rec_key t ∧ t ∈ recs.
Proof. unfold tuple_set. by rewrite elem_of_list_to_set, list_elem_of_fmap. Qed.

Lemma SplitObject_complete k : complete_key k →
  ∃ t id, SplitObject k.1.1 = (t, id) ∧ k.1.1 = BuildObject t id ∧ has_byte ":" t = false ∧ id ≠ "".
Proof.
  destruct k as [[o r] u]. intros ((t&id&->&Ht&Hid)&_). exists t, id. simpl.
  by rewrite SplitObject_build.
Qed.

Section write_lemmas.
Context `{!Ulid}.

Lemma new_record_spec store now t u :
  complete_key (key_of t) →
  wf_record (new_record store now t u) ∧ rec_key (new_record store now t u) = key_of t.
Proof.
  intros Hk. destruct (SplitObject_complete _ Hk) as (ty&id&Hs&Ho&Hty&Hid).
  destruct t as [o r us c]; simpl in *. destruct Hk as (_&Hr&Hu).
  unfold new_record, wf_record, rec_key, key_of; simpl. rewrite Hs; simpl. by rewrite Ho.
Qed.

Lemma change_key_spec t : complete_key (key_of t) → key_of (change_key t) = key_of t.
Proof.
  intros Hk. destruct (SplitObject_complete _ Hk) as (ty&id&Hs&Ho&_).
  destruct t as [o r us c]; simpl in *. unfold change_key, key_of; simpl. rewrite Hs; simpl.
  by rewrite Ho.
Qed.

(** The key a reader gets back for a written tuple is the one in the changelog. *)
Lemma AsTuple_new_record store now t u :
  User t ≠ "" → Key (AsTuple (new_record store now t u)) = change_key t.
Proof.
  intros Hu. unfold AsTuple, new_record, change_key.
  destruct (SplitObject (Object t)) as [ty id]; simpl. by rewrite bool_decide_false.
Qed.

Lemma replay_app S cs ds : replay S (cs ++ ds) = replay (replay S cs) ds.
Proof. apply foldl_app. Qed.

Lemma delete_loop_spec now deletes recs e kept cs e' :
  Forall wf_record recs →
  delete_loop now deletes recs e = (kept, cs, e') →
  kept = List.filter (λ t, negb (deleted_by t deletes)) recs ∧
  ∀ S, replay S cs = S ∖ tuple_set (List.filter (λ t, deleted_by t deletes) recs).
Proof.
  intros Hwf. revert e kept cs e'. induction Hwf as [|t recs Ht _ IH]; intros e kept cs e'; simpl.
  { intros [= <- <- <-]. split; [done|]. intros S. unfold replay, tuple_set. simpl. set_solver. }
  destruct (deleted_by t deletes) eqn:Hd; simpl.
  - destruct (new_ulid now e) as [u e1]. destruct (delete_loop now deletes recs e1) as [[k' c'] e2] eqn:E.
    intros [= <- <- <-]. destruct (IH _ _ _ _ E) as [-> Hrep]. split; [done|]. intros S.
    unfold replay in *. simpl. rewrite Hrep. unfold replay1; simpl.
    change (key_of (NewTupleKey _ _ _)) with (key_of (Key (AsTuple t))).
    rewrite AsTuple_key by apply Ht. unfold tuple_set; simpl. set_solver.
  - destruct (delete_loop now deletes recs e) as [[k' c'] e2] eqn:E.
    intros [= <- <- <-]. destruct (IH _ _ _ _ E) as [-> Hrep]. done.
Qed.

Lemma write_loop_spec store now writes recs e recs' cs e' :
  Forall wf_record recs → NoDup (rec_key <$> recs) →
  Forall (λ k, complete_key (key_of k)) writes →
  write_loop store now writes recs e = (recs', cs, e') →
  Forall wf_record recs' ∧ NoDup (rec_key <$> recs') ∧
  tuple_set recs' = tuple_set recs ∪ list_to_set (key_of <$> writes) ∧
  (∀ S, tuple_set recs ⊆ S → replay S cs = S ∪ tuple_set recs').
Proof.
  intros Hwf Hnd Hw. revert recs e recs' cs e' Hwf Hnd.
  induction Hw as [|t writes Ht _ IH]; intros recs e recs' cs e' Hwf Hnd; simpl.
  { intros [= <- <- <-]. split_and!; [done|done|set_solver|]. intros S HS. unfold replay. simpl. set_solver. }
  rewrite existsb_find. destruct (find recs t) eqn:Hf.
  { intros Hloop. apply find_spec in Hf; [|done..].
    destruct (IH _ _ _ _ _ Hwf Hnd Hloop) as (?&?&->&?). split_and!; [done|done|set_solver|done]. }
  destruct (new_ulid now e) as [u1 e1]. destruct (new_ulid now e1) as [u2 e2].
  destruct (new_record_spec store now t u1 Ht) as [Hnwf Hnkey].
  destruct (write_loop store now writes (recs ++ [new_record store now t u1]) e2) as [[r' c'] e3] eqn:E.
  intros [= <- <- <-].
  assert (key_of t ∉ tuple_set recs) as Hfresh.
  { intros Hin. apply find_spec in Hin; [|done..]. congruence. }
  assert (tuple_set (recs ++ [new_record store now t u1]) = tuple_set recs ∪ {[key_of t]}) as Hset.
  { rewrite tuple_set_app. unfold tuple_set at 2. simpl. rewrite Hnkey. set_solver. }
  apply IH in E as (Hwf'&Hnd'&Hset'&Hrep).
  - split_and!; [done|done|rewrite Hset', Hset; set_solver|]. intros S HS.
    unfold replay in *. simpl. unfold replay1 at 2; simpl. rewrite change_key_spec by done.
    rewrite Hrep by set_solver. rewrite Hset', Hset. set_solver.
  - apply Forall_app. split; [done|]. by constructor.
  - rewrite fmap_app. apply NoDup_app. split_and!; [done| |simpl; apply NoDup_singleton].
    intros k Hk Hk'. simpl in Hk'. apply list_elem_of_singleton in Hk'. subst k.
    rewrite Hnkey in Hk. apply Hfresh. unfold tuple_set. by apply elem_of_list_to_set.
Qed.
End write_lemmas.

(** ** The invariant of the tuple tables *)

(** Every stored record is complete, no tuple is stored twice, and replaying the
    changelog from nothing gives exactly the stored tuples. *)
Record store_inv (recs : list TupleRecord) (cs : list tupleChangeRec) : Prop := {
  si_wf : Forall wf_record recs;
  si_nodup : NoDup (rec_key <$> recs);
  si_replay : replay ∅ cs = tuple_set recs;
}.

(** At most one model of a store is marked latest, and a model is stored under its id. *)
Definition models_inv (tm : gmap string AuthorizationModelEntry) : Prop :=
  (∀ k1 k2 e1 e2, tm !! k1 = Some e1 → tm !! k2 = Some e2 →
     entry_latest e1 = true → entry_latest e2 = true → k1 = k2) ∧
  (∀ k e, tm !! k = Some e → am_Id (entry_model e) = k) ∧
  (tm ≠ ∅ → ∃ k e, tm !! k = Some e ∧ entry_latest e = true).

Definition backend_inv (s : MemoryBackend) : Prop :=
  (∀ store, store_inv (store_tuples s store) (store_changes s store)) ∧
  (∀ store tm, authorizationModels s !! store = Some tm → models_inv tm) ∧
  (∀ id st, stores s !! id = Some st → store_Id st = id).

Lemma tuple_set_filter_del recs deletes :
  Forall wf_record recs → Forall (λ k, complete_key (key_of_woc k)) deletes →
  tuple_set (List.filter (λ t, negb (deleted_by t deletes)) recs) =
  tuple_set recs ∖ list_to_set (key_of_woc <$> deletes).
Proof.
  intros Hwf Hd. apply set_eq. intros k.
  rewrite elem_of_difference, !elem_of_tuple_set, elem_of_list_to_set.
  setoid_rewrite list_elem_of_In. setoid_rewrite List.filter_In.
  setoid_rewrite <-list_elem_of_In. rewrite Forall_forall in Hwf. split.
  - intros (t&->&Ht&Hdel). split; [by eauto|]. intros Hin.
    apply (deleted_by_spec t) in Hin; [|by apply Hwf|done]. by rewrite Hin in Hdel.
  - intros ((t&->&Ht)&Hdel). exists t. split_and!; [done..|].
    destruct (deleted_by t deletes) eqn:E; [|done]. exfalso. apply Hdel.
    apply deleted_by_spec in E; [done|by apply Hwf|done].
Qed.

(** Keys are stored once, so removing the records that [f] selects removes their keys. *)
Lemma tuple_set_filter_split f recs :
  NoDup (rec_key <$> recs) →
  tuple_set recs ∖ tuple_set (List.filter f recs) = tuple_set (List.filter (λ t, negb (f t)) recs).
Proof.
  intros Hnd. apply set_eq. intros k. rewrite elem_of_difference, !elem_of_tuple_set.
  setoid_rewrite list_elem_of_In. setoid_rewrite List.filter_In. setoid_rewrite <-list_elem_of_In. split.
  - intros [(t&->&Ht) Hn]. exists t. split_and!; [done..|]. destruct (f t) eqn:Hf; [|done]. destruct Hn. by exists t.
  - intros (t&->&Ht&Hf). split; [by exists t|]. intros (t'&Heq&Ht'&Hf').
    assert (t = t') as <- by by eapply NoDup_fmap_elem. by rewrite Hf' in Hf.
Qed.

Lemma Forall_List_filter {A} (P : A → Prop) f l : Forall P l → Forall P (List.filter f l).
Proof.
  intros H. induction H as [|x l Hx _ IH]; simpl; [done|]. destruct (f x); [by constructor|done].
Qed.

Lemma NoDup_fmap_filter {A B} (g : A → B) f l : NoDup (g <$> l) → NoDup (g <$> List.filter f l).
Proof.
  induction l as [|x l IH]; simpl; [done|]. intros [Hx Hnd]%NoDup_cons.
  destruct (f x); simpl; [|by apply IH]. apply NoDup_cons. split; [|by apply IH].
  intros (y&Hy&Hin)%list_elem_of_fmap. apply Hx. apply list_elem_of_fmap. exists y.
  split; [done|]. rewrite list_elem_of_In, List.filter_In, <-list_elem_of_In in Hin. apply Hin.
Qed.

Section write_theorems.
Context `{!Ulid}.

(** The whole of [Write] on one store, given that validation passed; the deletes may be
    any keys. *)
Lemma Write_loops now store deletes writes recs cs e kept cs1 e1 recs' cs2 e2 :
  store_inv recs cs →
  Forall (λ k, complete_key (key_of k)) writes →
  delete_loop now deletes recs e = (kept, cs1, e1) →
  write_loop store now writes kept e1 = (recs', cs2, e2) →
  store_inv recs' (cs ++ cs1 ++ cs2) ∧
  tuple_set recs' = tuple_set (List.filter (λ t, negb (deleted_by t deletes)) recs) ∪ list_to_set (key_of <$> writes).
Proof.
  intros [Hwf Hnd Hrep] Hw Hdl Hwl.
  destruct (delete_loop_spec _ _ _ _ _ _ _ Hwf Hdl) as [-> Hrep1].
  apply write_loop_spec in Hwl as (Hwf'&Hnd'&Hset&Hrep2);
    [|by apply Forall_List_filter|by apply NoDup_fmap_filter|done].
  split; [|done]. split; [done..|].
  rewrite !replay_app, Hrep, Hrep1, tuple_set_filter_split, Hrep2 by done. rewrite Hset. set_solver.
Qed.

(** [Write] on its store: what is deleted, what is kept and that the invariant holds, for
    any deletes. *)
Lemma Write_Ret now store deletes writes s e s' e' :
  store_inv (store_tuples s store) (store_changes s store) →
  Forall (λ k, complete_key (key_of k)) writes →
  Write now store deletes writes s e = Ret (s', e') →
  store_inv (store_tuples s' store) (store_changes s' store) ∧
  tuple_set (store_tuples s' store) =
    tuple_set (List.filter (λ t, negb (deleted_by t deletes)) (store_tuples s store)) ∪ list_to_set (key_of <$> writes) ∧
  store_changes s store `prefix_of` store_changes s' store ∧
  (∀ other, other ≠ store → store_tuples s' other = store_tuples s other ∧ store_changes s' other = store_changes s other) ∧
  authorizationModels s' = authorizationModels s ∧ stores s' = stores s ∧ assertions s' = assertions s.
Proof.
  intros Hinv Hw. unfold Write. destruct (validateTuples _ _ _); simpl; [|done..].
  destruct (delete_loop _ _ _ _) as [[kept cs1] e1] eqn:Hdl.
  destruct (write_loop _ _ _ _ _) as [[recs cs2] e2] eqn:Hwl. intros [= <- <-].
  destruct (Write_loops _ _ _ _ _ _ _ _ _ _ _ _ _ Hinv Hw Hdl Hwl) as [Hinv' Hset].
  unfold store_tuples, store_changes in *; simpl. rewrite !lookup_insert_eq; simpl.
  split_and!; [done|done|by apply prefix_app_r| |done..].
  intros other Hne. by rewrite !lookup_insert_ne.
Qed.

(** What a call of [Write] does, on every branch. *)
Lemma Write_spec (now : Z) (store : string) (deletes : list TupleKeyWithoutCondition)
    (writes : list TupleKey) (s : MemoryBackend) (e : entropy)
    (S := tuple_set (store_tuples s store))
    (D := list_to_set (key_of_woc <$> deletes) : gset akey)
    (W := list_to_set (key_of <$> writes) : gset akey) :
  store_inv (store_tuples s store) (store_changes s store) →
  Forall (λ k, complete_key (key_of_woc k)) deletes →
  Forall (λ k, complete_key (key_of k)) writes →
  match Write now store deletes writes s e with
  | Ret (s', _) =>
      spec_write S D W = Some (tuple_set (store_tuples s' store)) ∧
      store_inv (store_tuples s' store) (store_changes s' store) ∧
      store_changes s store `prefix_of` store_changes s' store ∧
      (∀ other, other ≠ store → store_tuples s' other = store_tuples s other ∧
                                store_changes s' other = store_changes s other) ∧
      authorizationModels s' = authorizationModels s ∧ stores s' = stores s ∧ assertions s' = assertions s
  | Throw err => spec_write S D W = None ∧ ∃ k op, err = ErrInvalidWriteInput k.2 k.1.2 k.1.1 op ∧
      match op with OperationDelete => k ∈ D ∧ k ∉ S | OperationWrite => k ∈ W ∧ k ∈ S end
  | Panic _ => False
  end.
Proof.
  intros Hinv Hd Hw. unfold Write, validateTuples.
  pose proof (validate_deletes_spec _ _ (si_wf _ _ Hinv) Hd) as Hvd.
  pose proof (validate_writes_spec _ _ (si_wf _ _ Hinv) Hw) as Hvw.
  fold S in Hvd, Hvw. unfold spec_write.
  destruct (validate_deletes _ _) as [[]|err|]; simpl; [| |done].
  2: { destruct Hvd as (k&Hk&Hn&->). split; [|exists k, OperationDelete; set_solver].
       rewrite bool_decide_false; [done|]. set_solver. }
  destruct (validate_writes _ _) as [[]|err|]; simpl; [| |done].
  2: { destruct Hvw as (k&Hk&Hn&->). split; [|exists k, OperationWrite; set_solver].
       rewrite bool_decide_false; [done|]. set_solver. }
  destruct (delete_loop _ _ _ _) as [[kept cs1] e1] eqn:Hdl.
  destruct (write_loop _ _ _ _ _) as [[recs cs2] e2] eqn:Hwl.
  destruct (Write_loops _ _ _ _ _ _ _ _ _ _ _ _ _ Hinv Hw Hdl Hwl) as [Hinv' Hset].
  rewrite tuple_set_filter_del in Hset by (done || apply Hinv).
  unfold store_tuples, store_changes in *; simpl. rewrite !lookup_insert_eq; simpl.
  rewrite bool_decide_true by set_solver. split_and!; [|done|by apply prefix_app_r| |done..].
  - f_equal. by rewrite Hset.
  - intros other Hne. by rewrite !lookup_insert_ne.
Qed.
End write_theorems.

(** ** Lemmas: the order of the changelog *)

Section ulid_order.
Context `{!Ulid, !UlidLaws}.

(** The ULIDs of [cs] ascend strictly within ([lo], [hi]]. *)
Definition ulid_between (lo : N) (cs : list tupleChangeRec) (hi : N) : Prop :=
  StronglySorted N.lt (ChangeUlid <$> cs) ∧
  Forall (λ c, lo < ChangeUlid c ≤ hi)%N cs ∧ (lo ≤ hi)%N.

Lemma ulid_between_nil lo : ulid_between lo [] lo.
Proof. split_and!; [constructor..|done]. Qed.

Lemma ulid_between_cons lo c mid cs hi :
  (lo < ChangeUlid c)%N → (ChangeUlid c ≤ mid)%N → ulid_between mid cs hi → ulid_between lo (c :: cs) hi.
Proof.
  intros Hlo Hmid (Hs&Hb&Hle). split_and!; [|constructor; [lia|]|lia].
  - rewrite fmap_cons. constructor; [done|]. apply Forall_fmap.
    eapply Forall_impl; [exact Hb|]. simpl. intros; lia.
  - eapply Forall_impl; [exact Hb|]. simpl. intros; lia.
Qed.

Lemma ulid_between_app lo cs mid ds hi :
  ulid_between lo cs mid → ulid_between mid ds hi → ulid_between lo (cs ++ ds) hi.
Proof.
  intros (Hs&Hb&Hle) Hds. induction cs as [|c cs IH]; simpl in *.
  - destruct Hds as (?&Hb'&?). split_and!; [done| |lia].
    eapply Forall_impl; [exact Hb'|]. simpl. intros; lia.
  - inversion_clear Hs as [|? ? Hs' Hc]. inversion_clear Hb as [|? ? Hbc Hb'].
    destruct (IH Hs' Hb') as (Hs2&Hb2&_). split_and!; [| |destruct Hds as (_&_&?); lia].
    + rewrite fmap_cons. constructor; [done|]. rewrite fmap_app. apply Forall_app. split; [done|].
      destruct Hds as (_&Hb3&_). apply Forall_fmap. eapply Forall_impl; [exact Hb3|]. simpl. intros; lia.
    + constructor; [destruct Hds as (_&_&?); lia|]. done.
Qed.

Lemma delete_loop_ulids now deletes recs e kept cs e' :
  last_ms e ≤ now / 1000000 → delete_loop now deletes recs e = (kept, cs, e') →
  ulid_between (last_ulid e) cs (last_ulid e') ∧ last_ms e' ≤ now / 1000000.
Proof.
  revert e kept cs e'. induction recs as [|t recs IH]; intros e kept cs e' Hms; simpl.
  { intros [= <- <- <-]. split; [apply ulid_between_nil|done]. }
  unfold new_ulid. destruct (deleted_by t deletes).
  - destruct (MustNew_monotonic _ _ Hms) as (Hlt&Hlast&Hms').
    destruct (MustNew _ e) as [u e1]; simpl in *.
    destruct (delete_loop now deletes recs e1) as [[k' c'] e2] eqn:E.
    intros [= <- <- <-]. apply IH in E as [Hb ?]; [|lia]. split; [|done].
    eapply ulid_between_cons; [exact Hlt| |exact Hb]. simpl. lia.
  - destruct (delete_loop now deletes recs e) as [[k' c'] e2] eqn:E.
    intros [= <- <- <-]. by apply IH in E.
Qed.

Lemma write_loop_ulids store now writes recs e recs' cs e' :
  last_ms e ≤ now / 1000000 → write_loop store now writes recs e = (recs', cs, e') →
  ulid_between (last_ulid e) cs (last_ulid e') ∧ last_ms e' ≤ now / 1000000.
Proof.
  revert recs e recs' cs e'. induction writes as [|t writes IH]; intros recs e recs' cs e' Hms; simpl.
  { intros [= <- <- <-]. split; [apply ulid_between_nil|done]. }
  unfold new_ulid. destruct (existsb _ _); [by apply IH|].
  destruct (MustNew_monotonic _ _ Hms) as (Hlt&Hlast&Hms').
  destruct (MustNew _ e) as [u1 e1]; simpl in *.
  destruct (MustNew_monotonic (now / 1000000) e1) as (Hlt2&Hlast2&Hms2); [lia|].
  destruct (MustNew _ e1) as [u2 e2]; simpl in *.
  destruct (write_loop _ _ _ _ e2) as [[r' c'] e3] eqn:E.
  intros [= <- <- <-]. apply IH in E as [Hb ?]; [|lia]. split; [|done].
  eapply ulid_between_cons; [| |exact Hb]; simpl; lia.
Qed.

Lemma Write_ulids now store deletes writes s e s' e' :
  last_ms e ≤ now / 1000000 → Write now store deletes writes s e = Ret (s', e') →
  last_ms e' ≤ now / 1000000 ∧ (last_ulid e ≤ last_ulid e')%N ∧
  ∃ cs, store_changes s' store = store_changes s store ++ cs ∧
        ulid_between (last_ulid e) cs (last_ulid e').
Proof.
  intros Hms. unfold Write. destruct (validateTuples _ _ _); simpl; [|done..].
  destruct (delete_loop _ _ _ _) as [[kept cs1] e1] eqn:Hdl.
  destruct (write_loop _ _ _ _ _) as [[recs cs2] e2] eqn:Hwl. intros [= <- <-].
  apply delete_loop_ulids in Hdl as [Hb1 Hms1]; [|done].
  apply write_loop_ulids in Hwl as [Hb2 Hms2]; [|done].
  split; [done|]. pose proof (ulid_between_app _ _ _ _ _ Hb1 Hb2) as Hb.
  split; [apply Hb|]. exists (cs1 ++ cs2). split; [|done].
  unfold store_changes; simpl. by rewrite lookup_insert_eq.
Qed.
End ulid_order.

(** ** The backend as a state machine *)

Section machine.
Context `{!Ulid, !UlidLaws}.

(** The methods that change the backend; the clock of a [Write] does not go back. *)
Inductive backend_step : MemoryBackend * entropy → MemoryBackend * entropy → Prop :=
| step_Write now store deletes writes s e s' e' :
    last_ms e ≤ now / 1000000 →
    Forall (λ k, complete_key (key_of k)) writes →
    Write now store deletes writes s e = Ret (s', e') →
    backend_step (s, e) (s', e')
| step_WriteAuthorizationModel store model s e :
    backend_step (s, e) (WriteAuthorizationModel s store model, e)
| step_CreateStore now st st' s s' e :
    CreateStore now s st = Ret (st', s') → backend_step (s, e) (s', e)
| step_DeleteStore id s e : backend_step (s, e) (DeleteStore s id, e)
| step_WriteAssertions store modelID a s e :
    backend_step (s, e) (WriteAssertions s store modelID a, e).

Definition machine_inv (x : MemoryBackend * entropy) : Prop :=
  backend_inv x.1 ∧ ∀ store, ulid_between 0 (store_changes x.1 store) (last_ulid x.2).

Lemma models_inv_write tm model :
  models_inv tm →
  models_inv (<[am_Id model := mkModelEntry model true]>
                ((λ entry, mkModelEntry (entry_model entry) false) <$> tm)).
Proof.
  intros (Hu&Hid&_).
  assert (∀ k e, <[am_Id model := mkModelEntry model true]>
     ((λ entry, mkModelEntry (entry_model entry) false) <$> tm) !! k = Some e →
     entry_latest e = true → k = am_Id model) as Hl.
  { intros k e Hk Hle. destruct (decide (k = am_Id model)) as [|Hne]; [done|].
    rewrite lookup_insert_ne, lookup_fmap in Hk by done.
    apply fmap_Some in Hk as (e0&_&->). done. }
  split_and!.
  - intros k1 k2 e1 e2 H1 H2 L1 L2. by rewrite (Hl _ _ H1 L1), (Hl _ _ H2 L2).
  - intros k e Hk. destruct (decide (k = am_Id model)) as [->|Hne].
    + rewrite lookup_insert_eq in Hk. by simplify_eq.
    + rewrite lookup_insert_ne, lookup_fmap in Hk by done.
      apply fmap_Some in Hk as (e0&He0&->). simpl. by apply Hid.
  - intros _. exists (am_Id model), (mkModelEntry model true). by rewrite lookup_insert_eq.
Qed.

Lemma machine_inv_init a b e : machine_inv (New a b, e).
Proof.
  split; [split_and!|].
  - intros store. unfold store_tuples, store_changes; simpl. rewrite !lookup_empty. simpl.
    split; [constructor..|done].
  - intros store tm. simpl. by rewrite lookup_empty.
  - intros id st. simpl. by rewrite lookup_empty.
  - intros store. unfold store_changes; simpl. rewrite lookup_empty. simpl.
    split_and!; [constructor..|lia].
Qed.

Lemma machine_inv_write now store deletes writes s e s' e' :
  machine_inv (s, e) → last_ms e ≤ now / 1000000 →
  Forall (λ k, complete_key (key_of k)) writes →
  Write now store deletes writes s e = Ret (s', e') → machine_inv (s', e').
Proof.
  intros [(Hs&Hm&Hst) Hul] Hms Hw HW; simpl in *.
  apply Write_ulids in HW as Hu; [|done]. destruct Hu as (_&Hle&cs&Hcs&Hb).
  destruct (Write_Ret _ _ _ _ _ _ _ _ (Hs store) Hw HW) as (Hinv&_&_&Hother&Hmod&Hsts&_).
  split; [split_and!|]; simpl.
  - intros other. destruct (decide (other = store)) as [->|Hne]; [done|].
    destruct (Hother _ Hne) as [-> ->]. done.
  - by rewrite Hmod.
  - by rewrite Hsts.
  - intros other. destruct (decide (other = store)) as [->|Hne].
    + rewrite Hcs. by eapply ulid_between_app.
    + destruct (Hother _ Hne) as [_ ->]. destruct (Hul other) as (?&Hb'&?). split_and!; [done| |lia].
      eapply Forall_impl; [exact Hb'|]. simpl. intros; lia.
Qed.

Lemma machine_inv_step x y : backend_step x y → machine_inv x → machine_inv y.
Proof.
  intros Hstep Hinv.
  destruct Hstep as [now store deletes writes s e s' e' Hms Hw HW|store model s e|now st st' s s' e HC|id s e|store mid a s e].
  - by eapply machine_inv_write.
  - destruct Hinv as [(Hs&Hm&Hst) Hul]. split; [split_and!|]; [done| |done|done].
    intros store' tm. simpl. intros [(<-&<-)|(_&Hl)]%lookup_insert_Some; [|by eapply Hm].
    apply models_inv_write. destruct (authorizationModels s !! store) eqn:E; [by eapply Hm|].
    simpl. split_and!; [by intros ???? ?%lookup_empty_Some|by intros ?? ?%lookup_empty_Some|done].
  - destruct Hinv as [(Hs&Hm&Hst) Hul]. unfold CreateStore in HC.
    destruct (stores s !! _); simplify_eq/=. split; [split_and!|]; [done|done| |done].
    intros id st0. simpl. intros [(<-&<-)|(_&Hl)]%lookup_insert_Some; [done|by eapply Hst].
  - destruct Hinv as [(Hs&Hm&Hst) Hul]. split; [split_and!|]; [done|done| |done].
    intros id' st. simpl. intros [_ Hl]%lookup_delete_Some. by eapply Hst.
  - done.
Qed.
End machine.
