(* ===== verification/MemorySpec.v ===== *)
(** * The contract of the in-memory datastore

    The theorems about [Memory.v]: [Write] refines an abstract set of tuples, the
    backend's invariant holds in every reachable state, what is written can be read
    back, and how the paginated reads behave on their own tokens and on others. *)

From S2P Require Import Prelude GoStd Tuple Iterators Model Memory.

Local Open Scope Z_scope.
Local Open Scope go_scope.

(** ** Following continuation tokens *)

(** The tuples of [store] that [Read] and [ReadPage] select. *)
Definition matching (s : MemoryBackend) (store : string) (tk : TupleKey) : list TupleRecord :=
  if (Object tk =s "") && (Relation tk =s "") && (User tk =s "") then store_tuples s store
  else List.filter (λ t, match_ t tk) (store_tuples s store).

(** A client of [ReadPage] that asks for pages of [size] until the token is empty. *)
Fixpoint read_pages (fuel : nat) (s : MemoryBackend) (store : string) (tk : TupleKey) (size : Z) (token : string)
  : outcome StorageErr (list Tuple) :=
  match fuel with
  | O => Panic "out of fuel"
  | S fuel =>
      let! (page, token') := ReadPage None s store tk (mkPagination size token) in
      if token' =s "" then Ret page
      else let! rest := read_pages fuel s store tk size token' in Ret (page ++ rest)
  end.

(** A client of [ReadChanges] that follows tokens, ascending, until ErrNotFound. *)
Fixpoint follow_changes `{!Ulid} (fuel : nat) (now : Z) (s : MemoryBackend) (store : string)
    (filter : ReadChangesFilter) (size : Z) (token : string) : outcome StorageErr (list TupleChange) :=
  match fuel with
  | O => Panic "out of fuel"
  | S fuel =>
      match ReadChanges now s store filter (mkPagination size token) false with
      | Ret (page, token') =>
          let! rest := follow_changes fuel now s store filter size token' in Ret (page ++ rest)
      | Throw ErrNotFound => Ret []
      | Throw e => Throw e
      | Panic w => Panic w
      end
  end.

(** A ULID library that counts, printing a ULID in unary. *)
Definition counter_Ulid : Ulid := {|
  entropy := N * Z;
  MustNew ms e := (N.succ e.1, (N.succ e.1, ms));
  ulid_String u := N.iter u (String "1") "U";
  ulid_Parse s :=
    let u := N.of_nat (pred (String.length s)) in
    if N.iter u (String "1") "U" =s s then Some u else None;
|}.

Lemma unary_length u : String.length (N.iter u (String "1") "U") = S (N.to_nat u).
Proof.
  induction u as [|u IH] using N.peano_ind; [done|]. rewrite N.iter_succ. simpl. rewrite IH. lia.
Qed.

Lemma unary_no_byte c u : c ≠ "1"%char → c ≠ "U"%char → has_byte c (N.iter u (String "1") "U") = false.
Proof.
  intros Hx1 Hx2. induction u as [|u IH] using N.peano_ind.
  - change (has_byte c (String "U" "") = false). by rewrite has_byte_cons, bool_decide_false.
  - by rewrite N.iter_succ, has_byte_cons, IH, bool_decide_false.
Qed.

Definition counter_UlidLaws : @UlidLaws counter_Ulid.
Proof.
  refine (@Build_UlidLaws counter_Ulid _ _ (fst : N * Z → N) (snd : N * Z → Z) _); simpl.
  - intros u. rewrite unary_length. simpl. rewrite N2Nat.id. by rewrite bool_decide_true.
  - intros u Heq. apply (f_equal String.length) in Heq. by rewrite unary_length in Heq.
  - intros ms e _. split; [lia|done].
Defined.

(** ** The iterator contract *)

(** [staticIterator] meets the interface's contract, [Stop] apart. *)
Global Instance si_IteratorSpec : IteratorSpec staticIterator Tuple.
Proof.
  refine {| items (s : staticIterator) := AsTuple <$> records s |}.
  - intros [[|r l] tok]; simpl; eexists; done.
  - intros [[|r l] tok]; simpl; eexists; done.
  - intros [l tok]; simpl. by rewrite length_fmap.
Defined.

Lemma to_array_loop_all l tok :
  to_array_loop (length l) None (mkStatic l tok) = Ret (AsTuple <$> l, mkStatic [] tok).
Proof. induction l as [|r l IH]; simpl; [done|]. by rewrite IH. Qed.

Lemma ToArray_all l tok : ToArray None (mkStatic l tok) = Ret (AsTuple <$> l, tok).
Proof. unfold ToArray; simpl. by rewrite to_array_loop_all. Qed.

(** ** Pagination of tuples *)

Lemma read_page s store tk size token from :
  (token = "" ∧ from = 0) ∨ (token ≠ "" ∧ Atoi token = Some from) →
  0 ≤ from ≤ zlen (matching s store tk) → 0 < size →
  zlen (matching s store tk) ≤ int64_max →
  let rest := drop (Z.to_nat from) (matching s store tk) in
  ReadPage None s store tk (mkPagination size token) =
  Ret (AsTuple <$> take (Z.to_nat size) rest,
       if bool_decide (from + size < zlen (matching s store tk)) then Itoa (from + size) else "").
Proof.
  intros Htok Hfrom Hsize Hmax rest. unfold ReadPage, read. fold (matching s store tk).
  set (ms := matching s store tk) in *. simpl.
  assert ((if negb (token =s "") then match Atoi token with Some z => Ret z | None => Throw ErrStrconv end
           else Ret 0) = Ret from :> outcome StorageErr Z) as ->.
  { destruct Htok as [[-> ->]|[Hne ->]]; [done|]. by rewrite bool_decide_false. }
  simpl. rewrite (bool_decide_true (from ≤ zlen ms)), go_slice_ok by lia. simpl.
  rewrite (take_ge (drop _ ms)) by (rewrite length_drop; unfold zlen in *; lia).
  fold rest. assert (zlen rest = zlen ms - from) as Hlen.
  { unfold rest. rewrite zlen_drop by lia. lia. }
  rewrite (bool_decide_false (size = 0)) by lia. simpl.
  assert (bool_decide (size < zlen rest) = bool_decide (from + size < zlen ms)) as ->.
  { apply bool_decide_ext. lia. }
  case_bool_decide as Hlt; simpl.
  - rewrite go_slice_ok by lia. simpl. rewrite ToArray_all, Z.sub_0_r, wrap64_id; [done|].
    unfold int64_range, int64_min in *. lia.
  - rewrite ToArray_all, take_ge; [done|]. unfold zlen in *. lia.
Qed.

Lemma read_pages_from fuel s store tk size token from :
  (token = "" ∧ from = 0) ∨ (token ≠ "" ∧ Atoi token = Some from) →
  0 ≤ from ≤ zlen (matching s store tk) → 0 < size →
  zlen (matching s store tk) ≤ int64_max →
  (length (matching s store tk) - Z.to_nat from < fuel)%nat →
  read_pages fuel s store tk size token =
  Ret (AsTuple <$> drop (Z.to_nat from) (matching s store tk)).
Proof.
  revert token from. induction fuel as [|fuel IH]; intros token from Htok Hfrom Hsize Hmax Hfuel; [lia|].
  simpl. rewrite (read_page _ _ _ _ _ from) by done. simpl.
  destruct (bool_decide (from + size < _)) eqn:Hlt; bool_norm.
  - rewrite bool_decide_false by apply Itoa_nonempty.
    rewrite (IH _ (from + size)); try lia.
    + simpl. rewrite <-fmap_app, Z2Nat.inj_add, <-drop_drop, take_drop by lia. done.
    + right. split; [apply Itoa_nonempty|]. apply Atoi_Itoa. unfold int64_range, int64_min. lia.
    + unfold zlen in *. lia.
  - simpl. rewrite take_ge; [done|].
    rewrite length_drop. unfold zlen in *. lia.
Qed.

(** A client that follows [ReadPage]'s continuation tokens from the empty token, with
    any positive page size, terminates and gets every matching tuple exactly once, in
    storage order, whatever the number of pages. *)
Theorem ReadPage_pagination (s : MemoryBackend) (store : string) (tk : TupleKey) (size : Z) (fuel : nat) :
  0 < size → zlen (matching s store tk) ≤ int64_max → (length (matching s store tk) < fuel)%nat →
  read_pages fuel s store tk size "" = Ret (AsTuple <$> matching s store tk).
Proof.
  intros Hsize Hmax Hfuel. pose proof (zlen_nonneg (matching s store tk)).
  rewrite (read_pages_from _ _ _ _ _ _ 0); [done|by left|lia..].
Qed.

(** A store with three tuples, for the witnesses. *)
Definition demo_record (id user : string) : TupleRecord :=
  mkTupleRecord "store" "doc" id "viewer" user "" "" "" "" None "" 0.
Definition demo_backend : MemoryBackend :=
  set_tuples (New None None)
    {["store" := [demo_record "1" "user:a"; demo_record "2" "user:b"; demo_record "3" "group:g#member"]]} ∅.
Definition all_keys : TupleKey := mkTupleKey "" "" "" None.

Lemma ReadPage_pagination_witness :
  read_pages 4 demo_backend "store" all_keys 2 "" = Ret (AsTuple <$> matching demo_backend "store" all_keys).
Proof. apply ReadPage_pagination; vm_compute; [done|done|lia]. Defined.

(** A token past the end of the matches does not give an empty page: [read] skips the
    slicing and the reader is sent back to the first page, with a token that grows on. *)
Theorem ReadPage_past_end (s : MemoryBackend) (store : string) (tk : TupleKey) (size from : Z) :
  zlen (matching s store tk) < from → from + size ≤ int64_max → 0 < size →
  ReadPage None s store tk (mkPagination size (Itoa from)) =
  Ret (AsTuple <$> take (Z.to_nat size) (matching s store tk),
       if bool_decide (size < zlen (matching s store tk)) then Itoa (from + size) else "").
Proof.
  intros Hfrom Hmax Hsize. unfold ReadPage, read. fold (matching s store tk).
  set (ms := matching s store tk) in *. simpl. pose proof (zlen_nonneg ms).
  assert (int64_range from ∧ int64_range (from + size)) as [Hr Hr']
    by (unfold int64_range, int64_min; lia).
  rewrite bool_decide_false by apply Itoa_nonempty. simpl. rewrite Atoi_Itoa by done. simpl.
  rewrite (bool_decide_false (from ≤ zlen ms)) by lia. simpl.
  rewrite (bool_decide_false (size = 0)) by lia. simpl. case_bool_decide; simpl.
  - rewrite go_slice_ok by lia. simpl. by rewrite ToArray_all, Z.sub_0_r, wrap64_id.
  - rewrite ToArray_all, take_ge; [done|]. unfold zlen in *. lia.
Qed.

Lemma ReadPage_past_end_witness :
  ReadPage None demo_backend "store" all_keys (mkPagination 2 (Itoa 7)) =
  Ret (AsTuple <$> [demo_record "1" "user:a"; demo_record "2" "user:b"], "9").
Proof. rewrite ReadPage_past_end; [reflexivity|vm_compute; congruence..]. Defined.

(** ** Write *)

Section write_claims.
Context `{!Ulid}.

(** C25: [Write] refines the abstract store. On complete keys it succeeds exactly when
    every delete names a stored tuple and no write does; the new set of tuples is then
    (S \ deletes) ∪ writes, the invariant of the store holds again (no duplicate tuple,
    replaying the changelog gives the tuples), the changelog only grows, and nothing else
    in the backend changes. Otherwise the error names the offending tuple. *)
Theorem Write_refines (now : Z) (store : string) (deletes : list TupleKeyWithoutCondition)
    (writes : list TupleKey) (s : MemoryBackend) (e : entropy) :
  store_inv (store_tuples s store) (store_changes s store) →
  Forall (λ k, complete_key (key_of_woc k)) deletes →
  Forall (λ k, complete_key (key_of k)) writes →
  let S := tuple_set (store_tuples s store) in
  let D : gset akey := list_to_set (key_of_woc <$> deletes) in
  let W : gset akey := list_to_set (key_of <$> writes) in
  match Write now store deletes writes s e with
  | Ret (s', _) =>
      spec_write S D W = Some (tuple_set (store_tuples s' store)) ∧
      store_inv (store_tuples s' store) (store_changes s' store) ∧
      store_changes s store `prefix_of` store_changes s' store ∧
      (∀ other, other ≠ store → store_tuples s' other = store_tuples s other ∧
                                store_changes s' other = store_changes s other) ∧
      authorizationModels s' = authorizationModels s ∧ stores s' = stores s ∧ assertions s' = assertions s
  | Throw err => spec_write S D W = None ∧ ∃ k op, err = ErrInvalidWriteInput k.2 k.1.2 k.1.1 op ∧
      match op with OperationDelete => k ∈ D ∧ k ∉ S | OperationWrite => k ∈ W ∧ k ∈ S end
  | Panic _ => False
  end.
Proof. apply Write_spec. Qed.

(** *** Reading back *)

Lemma read_user_tuple_found recs tk r :
  Forall wf_record recs → NoDup (rec_key <$> recs) → complete_key (key_of tk) →
  r ∈ recs → rec_key r = key_of tk → read_user_tuple_loop recs tk = Ret (AsTuple r).
Proof.
  intros Hwf Hnd Hk Hr Hkey. induction Hwf as [|t recs Ht _ IH]; [by apply not_elem_of_nil in Hr|].
  simpl in *. apply NoDup_cons in Hnd as [Hnot Hnd].
  apply elem_of_cons in Hr as [->|Hr].
  - by rewrite (proj2 (match_spec t tk Ht Hk)).
  - destruct (match_ t tk) eqn:Hm; [|by apply IH]. apply match_spec in Hm; [|done..].
    destruct Hnot. rewrite Hm, <-Hkey. by apply list_elem_of_fmap_2.
Qed.

Lemma read_user_tuple_missing recs tk :
  Forall wf_record recs → complete_key (key_of tk) → key_of tk ∉ tuple_set recs →
  read_user_tuple_loop recs tk = Throw ErrNotFound.
Proof.
  intros Hwf Hk. induction Hwf as [|t recs Ht _ IH]; simpl; [done|]. intros Hnot.
  destruct (match_ t tk) eqn:Hm.
  - apply match_spec in Hm; [|done..]. destruct Hnot. apply elem_of_tuple_set. set_solver.
  - apply IH. unfold tuple_set in *. set_solver.
Qed.

Lemma write_loop_records store now writes recs e recs' cs e' :
  write_loop store now writes recs e = (recs', cs, e') →
  ∃ news, recs' = recs ++ news ∧ ∀ r, r ∈ news → ∃ t u, t ∈ writes ∧ r = new_record store now t u.
Proof.
  revert recs e recs' cs e'. induction writes as [|t writes IH]; intros recs e recs' cs e'; simpl.
  { intros [= <- <- <-]. exists []. split; [by rewrite app_nil_r|]. set_solver. }
  destruct (existsb _ _).
  { intros (news&->&Hn)%IH. exists news. split; [done|]. intros r (t'&u&?&->)%Hn.
    exists t', u. set_solver. }
  destruct (new_ulid now e) as [u1 e1], (new_ulid now e1) as [u2 e2].
  destruct (write_loop _ _ _ _ e2) as [[r' c'] e3] eqn:E. intros [= <- <- <-].
  apply IH in E as (news&->&Hn). exists (new_record store now t u1 :: news).
  split; [by rewrite <-app_assoc|]. intros r [->|Hr]%elem_of_cons; [exists t, u1; set_solver|].
  apply Hn in Hr as (t'&u&?&->). exists t', u. set_solver.
Qed.

(** The records after a successful [Write]: those not deleted, then the new ones. *)
Lemma Write_records now store deletes writes s e s' e' :
  store_inv (store_tuples s store) (store_changes s store) →
  Write now store deletes writes s e = Ret (s', e') →
  ∃ news, store_tuples s' store =
            List.filter (λ t, negb (deleted_by t deletes)) (store_tuples s store) ++ news ∧
          ∀ r, r ∈ news → ∃ t u, t ∈ writes ∧ r = new_record store now t u.
Proof.
  intros Hinv. unfold Write. destruct (validateTuples _ _ _); simpl; [|done..].
  destruct (delete_loop _ _ _ _) as [[kept cs1] e1] eqn:Hdl.
  destruct (write_loop _ _ _ _ _) as [[recs cs2] e2] eqn:Hwl. intros [= <- <-].
  apply delete_loop_spec in Hdl as [-> _]; [|apply Hinv].
  apply write_loop_records in Hwl as (news&->&Hn). exists news. split; [|done].
  unfold store_tuples; simpl. by rewrite lookup_insert_eq.
Qed.

Lemma spec_write_Some (S D W S' : gset akey) :
  spec_write S D W = Some S' → D ⊆ S ∧ (∀ k, k ∈ W → k ∉ S) ∧ S' = (S ∖ D) ∪ W.
Proof. unfold spec_write. case_bool_decide as Hok; [|done]. intros [= <-]. set_solver. Qed.

Lemma new_record_AsTuple store now tk u :
  User tk ≠ "" → AsTuple (new_record store now tk u) = mkTuple (change_key tk) (Some now).
Proof.
  intros Hu. rewrite <-(AsTuple_new_record store now tk u) by done.
  unfold AsTuple, new_record. by destruct (SplitObject (Object tk)).
Qed.

(** What was written is what is read. After a successful [Write], [ReadUserTuple]
    returns a written tuple with its condition and the write's timestamp (when the request
    has no two writes of one tuple), answers ErrNotFound for a deleted one, and its answer
    for any other complete key is the one it gave before. *)
Theorem Write_ReadUserTuple (now : Z) (store : string) (deletes : list TupleKeyWithoutCondition)
    (writes : list TupleKey) (s s' : MemoryBackend) (e e' : entropy) (tk : TupleKey) :
  store_inv (store_tuples s store) (store_changes s store) →
  Forall (λ k, complete_key (key_of_woc k)) deletes →
  Forall (λ k, complete_key (key_of k)) writes →
  Write now store deletes writes s e = Ret (s', e') →
  complete_key (key_of tk) →
  (tk ∈ writes → NoDup (key_of <$> writes) →
     ReadUserTuple s' store tk = Ret (mkTuple (change_key tk) (Some now))) ∧
  (key_of tk ∈ (key_of_woc <$> deletes) → ReadUserTuple s' store tk = Throw ErrNotFound) ∧
  (key_of tk ∉ (key_of_woc <$> deletes) → key_of tk ∉ (key_of <$> writes) →
     ReadUserTuple s' store tk = ReadUserTuple s store tk).
Proof.
  intros Hinv Hd Hw HW Hk. pose proof (Write_spec now store deletes writes s e Hinv Hd Hw) as Hspec.
  rewrite HW in Hspec. destruct Hspec as (Hspec&[Hwf' Hnd' _]&_).
  apply spec_write_Some in Hspec as (HDS&HWS0&Hset).
  assert (∀ k, k ∈ (key_of <$> writes) → k ∉ tuple_set (store_tuples s store)) as HWS.
  { intros k Hin. apply HWS0. by apply elem_of_list_to_set. }
  assert (∀ k, k ∈ (key_of_woc <$> deletes) → k ∈ tuple_set (store_tuples s store)) as HDS'.
  { intros k Hin. apply HDS. by apply elem_of_list_to_set. }
  destruct (Write_records _ _ _ _ _ _ _ _ Hinv HW) as (news&Hrecs&Hnews).
  unfold ReadUserTuple. split_and!.
  - intros Htk Hnd. assert (key_of tk ∈ (key_of <$> writes)) as HinW by by apply list_elem_of_fmap_2.
    assert (key_of tk ∈ tuple_set (store_tuples s' store)) as Hin.
    { rewrite Hset. by apply elem_of_union_r, elem_of_list_to_set. }
    apply elem_of_tuple_set in Hin as (r&Hr&Hrin). rewrite (read_user_tuple_found _ _ r) by done.
    rewrite Hrecs in Hrin. apply elem_of_app in Hrin as [Hrin|Hrin].
    { rewrite list_elem_of_In, List.filter_In, <-list_elem_of_In in Hrin.
      destruct (HWS _ HinW). apply elem_of_tuple_set. exists r. naive_solver. }
    apply Hnews in Hrin as (t&u&Ht&->). rewrite Forall_forall in Hw.
    destruct (new_record_spec store now t u (Hw _ Ht)) as [Hwf Hkey].
    assert (t = tk) as ->.
    { apply (NoDup_fmap_elem key_of writes); [done|done|done|]. by rewrite <-Hkey. }
    rewrite new_record_AsTuple; [done|]. destruct tk; apply Hk.
  - intros Hdel. apply read_user_tuple_missing; [done..|].
    rewrite Hset, elem_of_union, elem_of_difference, !elem_of_list_to_set.
    intros [[_ ?]|Hin]; [done|]. by destruct (HWS _ Hin (HDS' _ Hdel)).
  - intros Hnd Hnw. destruct (decide (key_of tk ∈ tuple_set (store_tuples s store))) as [Hin|Hnin].
    + apply elem_of_tuple_set in Hin as (r&Hr&Hrin).
      rewrite !(read_user_tuple_found _ _ r); try done; try apply Hinv.
      rewrite Hrecs. apply elem_of_app. left.
      rewrite list_elem_of_In, List.filter_In, <-list_elem_of_In. split; [done|].
      destruct (deleted_by r deletes) eqn:E; [|done]. exfalso. apply Hnd. rewrite Hr.
      apply deleted_by_spec; [|done..]. destruct Hinv as [Hwf _ _]. by eapply Forall_forall in Hwf.
    + rewrite !read_user_tuple_missing; try done; [apply Hinv|].
      rewrite Hset, elem_of_union, elem_of_difference, !elem_of_list_to_set. naive_solver.
Qed.
End write_claims.

Definition demo_write : TupleKey := NewTupleKeyWithCondition "doc:1" "viewer" "user:a" "cond" None.
Definition demo_delete : TupleKeyWithoutCondition := mkTupleKeyWithoutCondition "doc:2" "viewer" "user:b".

Lemma complete_demo (id r u : string) :
  id ≠ "" → r ≠ "" → u ≠ "" → complete_key ("doc:" +:+ id, r, u).
Proof. intros ???. split_and!; [|done..]. by exists "doc", id. Qed.

Lemma store_inv_New store : store_inv (store_tuples (New None None) store) (store_changes (New None None) store).
Proof. split; [constructor..|done]. Qed.

(** A store holding doc:2#viewer@user:b, made by [Write] itself. *)
Definition demo_store : MemoryBackend :=
  match @Write counter_Ulid 0 "store" [] [TupleKeyWithoutConditionToTupleKey demo_delete]
          (New None None) (0%N, 0) with
  | Ret (s, _) => s
  | _ => New None None
  end.

Lemma demo_store_inv : store_inv (store_tuples demo_store "store") (store_changes demo_store "store").
Proof.
  pose proof (@Write_spec counter_Ulid 0 "store" [] [TupleKeyWithoutConditionToTupleKey demo_delete]
    (New None None) (0%N, 0) (store_inv_New _) (List.Forall_nil _)) as Hspec.
  destruct Hspec as (_&Hinv&_); [|exact Hinv].
  apply Forall_singleton. by apply (complete_demo "2").
Qed.

Lemma Write_refines_witness :
  store_inv (store_tuples demo_store "store") (store_changes demo_store "store") ∧
  match @Write counter_Ulid 5 "store" [demo_delete] [demo_write] demo_store (7%N, 0) with
  | Ret (s', _) => tuple_set (store_tuples s' "store") = {[("doc:1", "viewer", "user:a")]}
  | _ => False
  end.
Proof.
  split; [exact demo_store_inv|].
  pose proof (@Write_refines counter_Ulid 5 "store" [demo_delete] [demo_write] demo_store (7%N, 0)
    demo_store_inv) as H.
  destruct H as (Hs&_).
  - apply Forall_singleton. by apply (complete_demo "2").
  - apply Forall_singleton. by apply (complete_demo "1").
  - simpl in Hs. reflexivity.
Defined.

Lemma Write_ReadUserTuple_witness :
  match @Write counter_Ulid 5 "store" [demo_delete] [demo_write] demo_store (7%N, 0) with
  | Ret (s', _) =>
      ReadUserTuple s' "store" demo_write = Ret (mkTuple demo_write (Some 5)) ∧
      ReadUserTuple s' "store" (TupleKeyWithoutConditionToTupleKey demo_delete) = Throw ErrNotFound
  | _ => False
  end.
Proof.
  destruct (@Write counter_Ulid 5 "store" [demo_delete] [demo_write] demo_store (7%N, 0))
    as [[s' e']| |] eqn:E; [|by vm_compute in E..].
  split.
  - apply (@Write_ReadUserTuple counter_Ulid 5 "store" [demo_delete] [demo_write] demo_store s' (7%N, 0) e' demo_write
      demo_store_inv); [| |done| |set_solver|apply NoDup_singleton].
    + apply Forall_singleton. by apply (complete_demo "2").
    + apply Forall_singleton. by apply (complete_demo "1").
    + by apply (complete_demo "1").
  - apply (@Write_ReadUserTuple counter_Ulid 5 "store" [demo_delete] [demo_write] demo_store s' (7%N, 0) e'
      (TupleKeyWithoutConditionToTupleKey demo_delete) demo_store_inv); [| |done| |by apply list_elem_of_here].
    + apply Forall_singleton. by apply (complete_demo "2").
    + apply Forall_singleton. by apply (complete_demo "1").
    + by apply (complete_demo "2").
Defined.

(** ** Reachable backends *)

Section reachable.
Context `{!Ulid, !UlidLaws}.

Lemma reachable_inv (x y : MemoryBackend * entropy) :
  rtc backend_step x y → machine_inv x → machine_inv y.
Proof. induction 1 as [|x y z Hxy _ IH]; [done|]. intros Hx. by apply IH, (machine_inv_step x). Qed.

(** In every state reachable from a new backend by any sequence of writes, model
    writes, store creations and deletions and assertion writes: no store holds a tuple
    twice, replaying a store's changelog from the empty set gives its tuples, the ULIDs of
    the changelog ascend strictly (so a continuation token names one position), at most
    one authorization model per store is marked latest and a store with models has one,
    and every store is filed under its id. *)
Theorem reachable_backend_inv (a b : option Z) (e0 : entropy) (s : MemoryBackend) (e : entropy) :
  rtc backend_step (New a b, e0) (s, e) →
  (∀ store, NoDup (rec_key <$> store_tuples s store) ∧
            replay ∅ (store_changes s store) = tuple_set (store_tuples s store) ∧
            StronglySorted N.lt (ChangeUlid <$> store_changes s store)) ∧
  (∀ store tm, authorizationModels s !! store = Some tm → models_inv tm) ∧
  (∀ id st, stores s !! id = Some st → store_Id st = id).
Proof.
  intros Hr. destruct (reachable_inv _ _ Hr (machine_inv_init a b e0)) as [(Hs&Hm&Hst) Hu].
  split_and!; [|done..]. intros store. destruct (Hs store) as [_ Hnd Hrep]. split_and!; [done..|].
  apply (Hu store).
Qed.
End reachable.

Lemma reachable_backend_inv_witness :
  @rtc (MemoryBackend * @entropy counter_Ulid) (@backend_step counter_Ulid counter_UlidLaws)
    (New None None, (0%N, 0)) (demo_store, (2%N, 0)) ∧
  (∀ store, NoDup (rec_key <$> store_tuples demo_store store)).
Proof.
  assert (@rtc (MemoryBackend * @entropy counter_Ulid) (@backend_step counter_Ulid counter_UlidLaws)
    (New None None, (0%N, 0)) (demo_store, (2%N, 0))) as Hr.
  { apply rtc_once.
    apply (@step_Write counter_Ulid counter_UlidLaws 0 "store" [] [TupleKeyWithoutConditionToTupleKey demo_delete]).
    - done.
    - apply Forall_singleton. by apply (complete_demo "2").
    - reflexivity. }
  split; [exact Hr|]. intros store.
  apply (proj1 (@reachable_backend_inv counter_Ulid counter_UlidLaws None None (0%N, 0) demo_store (2%N, 0) Hr) store).
Defined.

(** ** The changelog *)

Section changes.
Context `{!Ulid, !UlidLaws}.

Lemma select_changes_from ot h f l :
  select_changes ot h (Some f) false l =
  List.filter (λ c, negb (bool_decide (ChangeUlid c ≤ f)%N)) (select_changes ot h None false l).
Proof.
  induction l as [|c l IH]; simpl; [done|]. destruct (_ || _); [|done].
  case_bool_decide; [done|]. simpl. case_bool_decide; simpl; by rewrite IH.
Qed.

Lemma select_changes_sublist ot h from desc l : select_changes ot h from desc l `sublist_of` l.
Proof.
  induction l as [|c l IH]; simpl; [done|]. destruct (_ || _); [|by constructor].
  case_bool_decide; [apply sublist_nil_l|]. by destruct (match from with Some _ => _ | None => _ end); constructor.
Qed.

Lemma sorted_sublist {A} (R : relation A) (l k : list A) :
  l `sublist_of` k → StronglySorted R k → StronglySorted R l.
Proof.
  induction 1 as [|x l k Hlk IH|x l k Hlk IH]; intros Hs; [done| |];
    inversion_clear Hs as [|? ? Hs' Hx]; [|by apply IH].
  constructor; [by apply IH|]. rewrite Forall_forall in *. intros y Hy. apply Hx.
  by eapply elem_of_sublist.
Qed.

Lemma sorted_weaken {A} (R R' : relation A) (l : list A) :
  (∀ x y, R x y → R' x y) → StronglySorted R l → StronglySorted R' l.
Proof.
  intros HR. induction 1 as [|x l _ IH Hx]; constructor; [done|].
  eapply Forall_impl; [exact Hx|]. auto.
Qed.

(** Skipping up to the last change of a prefix leaves the suffix. *)
Lemma filter_after (p q : list tupleChangeRec) (x : tupleChangeRec) :
  StronglySorted N.lt (ChangeUlid <$> p ++ x :: q) →
  List.filter (λ c, negb (bool_decide (ChangeUlid c ≤ ChangeUlid x)%N)) (p ++ x :: q) = q.
Proof.
  induction p as [|y p IH]; simpl; intros Hs; inversion_clear Hs as [|? ? Hs' Hf].
  - rewrite bool_decide_true by done. simpl. clear Hs'.
    induction q as [|z q IHq]; simpl in *; [done|]. inversion_clear Hf as [|? ? Hz Hf'].
    rewrite bool_decide_false by lia. simpl. by rewrite IHq.
  - rewrite Forall_fmap, Forall_app, Forall_cons in Hf. destruct Hf as (_&Hyx&_). simpl in Hyx.
    rewrite bool_decide_true by lia. simpl. by apply IH.
Qed.

(** The changes [ReadChanges] offers: of the object type, up to the horizon. *)
Definition offered (now : Z) (s : MemoryBackend) (store : string) (filter : ReadChangesFilter) :=
  select_changes (rcf_ObjectType filter) (now - rcf_HorizonOffset filter) None false (store_changes s store).

Lemma ReadChanges_page now s store filter size token p q :
  0 < size → StronglySorted N.lt (ChangeUlid <$> store_changes s store) →
  offered now s store filter = p ++ q →
  (token = "" ∧ p = []) ∨ (∃ p' x, token = ulid_String (ChangeUlid x) ∧ p = p' ++ [x]) →
  ReadChanges now s store filter (mkPagination size token) false =
  if bool_decide (q = []) then Throw ErrNotFound
  else Ret (Change <$> take (Z.to_nat size) q,
            ulid_String (default 0%N (ChangeUlid <$> last (take (Z.to_nat size) q)))).
Proof.
  intros Hsize Hs Hoff Htok. unfold ReadChanges. simpl.
  assert (StronglySorted N.lt (ChangeUlid <$> p ++ q)) as Hspq.
  { rewrite <-Hoff. eapply sorted_sublist; [|exact Hs]. apply fmap_sublist, select_changes_sublist. }
  assert (∃ from, (if negb (token =s "") then match ulid_Parse token with
            | Some u => Ret (Some u) | None => Throw ErrInvalidContinuationToken end
            else Ret None) = Ret from :> outcome StorageErr (option N) ∧
          select_changes (rcf_ObjectType filter) (now - rcf_HorizonOffset filter) from false
            (store_changes s store) = q) as (from&->&Hsel).
  { destruct Htok as [[-> ->]|(p'&x&->&->)].
    - exists None. by split.
    - exists (Some (ChangeUlid x)). rewrite bool_decide_false by apply ulid_String_nonempty.
      simpl. rewrite ulid_Parse_String. split; [done|]. rewrite select_changes_from.
      fold (offered now s store filter). rewrite Hoff.
      rewrite <-app_assoc in *. by apply filter_after. }
  simpl. rewrite Hsel. case_bool_decide as Hq; [done|]. unfold page_size; simpl.
  rewrite (bool_decide_true (0 < size)) by done.
  assert (0 < zlen q) by (destruct q; [done|]; rewrite zlen_cons; pose proof (zlen_nonneg q); lia).
  destruct (bool_decide (zlen q < size)) eqn:Hl; bool_norm;
    rewrite (bool_decide_false (_ = 0)), go_slice_ok by lia; simpl; [|by rewrite Z.sub_0_r].
  rewrite Z.sub_0_r. unfold zlen in *. rewrite (take_ge q (Z.to_nat size)) by lia. rewrite Nat2Z.id, firstn_all. done.
Qed.

Lemma follow_changes_from fuel now s store filter size token p q :
  0 < size → StronglySorted N.lt (ChangeUlid <$> store_changes s store) →
  offered now s store filter = p ++ q →
  (token = "" ∧ p = []) ∨ (∃ p' x, token = ulid_String (ChangeUlid x) ∧ p = p' ++ [x]) →
  (length q < fuel)%nat →
  follow_changes fuel now s store filter size token = Ret (Change <$> q).
Proof.
  revert token p q. induction fuel as [|fuel IH]; intros token p q Hsize Hs Hoff Htok Hfuel; [lia|].
  simpl. rewrite (ReadChanges_page _ _ _ _ _ _ p q) by done. case_bool_decide as Hq; [by rewrite Hq|].
  rewrite <-(take_drop (Z.to_nat size) q) in Hoff.
  destruct (last (take (Z.to_nat size) q)) as [x|] eqn:Hlast.
  2: { apply last_None in Hlast. destruct q; [done|]. destruct (Z.to_nat size) eqn:?; [lia|done]. }
  apply last_Some in Hlast as (p'&Hp'). simpl.
  rewrite (IH _ (p ++ take (Z.to_nat size) q) (drop (Z.to_nat size) q)); try done.
  - simpl. by rewrite <-fmap_app, take_drop.
  - by rewrite <-app_assoc.
  - right. exists (p ++ p'), x. split; [done|]. by rewrite Hp', app_assoc.
  - rewrite length_drop. destruct q; [done|]. simpl in *. lia.
Qed.

(** Following the continuation tokens of [ReadChanges] (ascending) from the empty
    token terminates and delivers every change of the requested object type up to the
    horizon exactly once, in the order they were made, for every positive page size. *)
Theorem ReadChanges_complete (now : Z) (s : MemoryBackend) (store : string) (filter : ReadChangesFilter)
    (size : Z) (fuel : nat) :
  0 < size → StronglySorted N.lt (ChangeUlid <$> store_changes s store) →
  (length (offered now s store filter) < fuel)%nat →
  follow_changes fuel now s store filter size "" = Ret (Change <$> offered now s store filter).
Proof. intros. apply (follow_changes_from _ _ _ _ _ _ _ []); [done..|by left|done]. Qed.
End changes.

Lemma ReadChanges_complete_witness :
  @follow_changes counter_Ulid 2 10 demo_store "store" (mkReadChangesFilter "doc" 0) 1 "" =
  Ret [mkTupleChange (TupleKeyWithoutConditionToTupleKey demo_delete) OperationWrite 0].
Proof.
  etrans; [apply (@ReadChanges_complete counter_Ulid counter_UlidLaws 10 demo_store "store"
    (mkReadChangesFilter "doc" 0) 1 2)|reflexivity].
  - done.
  - repeat constructor.
  - vm_compute. lia.
Defined.

(** ** Sorted reads do not depend on Go's map order *)

(** Two lists sorted on a key that determines the element are equal when they hold the
    same elements. *)
Lemma sorted_by_key_unique {A} (key : A → string) (less : A → A → bool) (l k : list A) :
  (∀ x y, less x y = false → less y x = false → key x = key y) →
  (∀ x y, x ∈ l → y ∈ l → key x = key y → x = y) →
  l ≡ₚ k → StronglySorted (not_less less) l → StronglySorted (not_less less) k → l = k.
Proof.
  intros Htot. revert k. induction l as [|x l IH]; intros k Hinj Hp Hl Hk.
  { apply Permutation_nil_l in Hp. by subst. }
  destruct k as [|y k]; [by apply Permutation_nil_r in Hp|].
  inversion_clear Hl as [|? ? Hl' Hx]. inversion_clear Hk as [|? ? Hk' Hy].
  assert (x = y) as ->.
  { assert (y ∈ x :: l) as Hyin by (rewrite Hp; apply list_elem_of_here).
    assert (x ∈ y :: k) as Hxin by (rewrite <-Hp; apply list_elem_of_here).
    apply Hinj; [apply list_elem_of_here|done|].
    rewrite Forall_forall in Hx, Hy.
    apply elem_of_cons in Hyin as [->|Hyin]; [done|]. apply elem_of_cons in Hxin as [->|Hxin]; [done|].
    apply Htot; [by apply Hy|by apply Hx]. }
  f_equal. apply IH; [|by eapply Permutation_cons_inv|done..].
  intros x' y' Hx' Hy'. by apply Hinj; apply list_elem_of_further.
Qed.

Lemma elem_of_snd_range `{!MapRange} {V} (m : gmap string V) v :
  v ∈ (range_map m).*2 ↔ ∃ k, m !! k = Some v.
Proof.
  rewrite list_elem_of_fmap. split.
  - intros ([k v']&->&Hin). exists k. by apply elem_of_range_map.
  - intros (k&Hk). exists (k, v). split; [done|]. by apply elem_of_range_map.
Qed.

Section store_lists.

(** The stores [ListStores] selects from [all] before sorting. *)
Definition selected_stores (options : ListStoresOptions) (all : list Store) : list Store :=
  let all := if bool_decide (lso_IDs options = []) then all
             else concat ((λ storeID, List.filter (λ st, store_Id st =s storeID) all) <$> lso_IDs options) in
  if negb (lso_Name options =s "") then List.filter (λ st, store_Name st =s lso_Name options) all else all.

Lemma Permutation_List_filter {A} (f : A → bool) (l k : list A) :
  l ≡ₚ k → List.filter f l ≡ₚ List.filter f k.
Proof.
  induction 1 as [|x l k _ IH|x y l|l k m _ IH1 _ IH2]; simpl.
  - done.
  - by destruct (f x); rewrite IH.
  - destruct (f x), (f y); [apply Permutation_swap|done..].
  - by etrans.
Qed.

Lemma Permutation_concat_map {A B} (f g : B → list A) (l : list B) :
  (∀ x, f x ≡ₚ g x) → concat (f <$> l) ≡ₚ concat (g <$> l).
Proof. intros Hfg. induction l as [|x l IH]; simpl; [done|]. by rewrite IH, Hfg. Qed.

Lemma selected_stores_perm o l k : l ≡ₚ k → selected_stores o l ≡ₚ selected_stores o k.
Proof.
  intros Hp. unfold selected_stores. destruct (negb _).
  - apply Permutation_List_filter. case_bool_decide; [done|].
    apply Permutation_concat_map. intros id. by apply Permutation_List_filter.
  - case_bool_decide; [done|]. apply Permutation_concat_map. intros id. by apply Permutation_List_filter.
Qed.

Lemma selected_stores_elem o l st : st ∈ selected_stores o l → st ∈ l.
Proof.
  unfold selected_stores. assert (∀ f (k : list Store), st ∈ List.filter f k → st ∈ k) as Hf.
  { intros f k. rewrite !list_elem_of_In, List.filter_In. tauto. }
  assert (st ∈ (if bool_decide (lso_IDs o = []) then l
     else concat ((λ storeID, List.filter (λ st0, store_Id st0 =s storeID) l) <$> lso_IDs o)) → st ∈ l).
  { case_bool_decide; [done|]. rewrite list_elem_of_In, in_concat.
    intros (k&Hk&Hin). apply list_elem_of_In in Hk, Hin.
    apply list_elem_of_fmap in Hk as (id&->&_). by apply Hf in Hin. }
  destruct (negb _); [intros ?%Hf|]; auto.
Qed.

(** Stores are filed under their ids. *)
Definition stores_filed (m : gmap string Store) : Prop := ∀ id st, m !! id = Some st → store_Id st = id.

Lemma sorted_stores_unique (mr1 mr2 : MapRange) (m : gmap string Store) o :
  stores_filed m →
  SliceStable (λ a b, String.ltb (store_Id a) (store_Id b)) (selected_stores o (@range_map mr1 _ m).*2) =
  SliceStable (λ a b, String.ltb (store_Id a) (store_Id b)) (selected_stores o (@range_map mr2 _ m).*2).
Proof.
  intros Hm. set (less := λ a b, String.ltb (store_Id a) (store_Id b)).
  assert (StrictWeak less) by apply (str_key_StrictWeak store_Id).
  apply (sorted_by_key_unique store_Id less).
  - intros x y. apply str_ltb_total.
  - intros x y. rewrite !SliceStable_perm. intros Hx%selected_stores_elem Hy%selected_stores_elem.
    apply elem_of_snd_range in Hx as (kx&Hx), Hy as (ky&Hy).
    apply Hm in Hx as Ex. apply Hm in Hy as Ey. congruence.
  - rewrite !SliceStable_perm. apply selected_stores_perm.
    by rewrite !range_map_perm.
  - by apply SliceStable_sorted.
  - by apply SliceStable_sorted.
Qed.

(** The answer of [ListStores] does not depend on the order in which Go ranges over
    the stores map: for every filter and token, two runs with different iteration orders
    return the same page and the same token, so paging through them is well defined. *)
Theorem ListStores_order_independent (mr1 mr2 : MapRange) (s : MemoryBackend) (options : ListStoresOptions) :
  (∀ id st, stores s !! id = Some st → store_Id st = id) →
  @ListStores mr1 s options = @ListStores mr2 s options.
Proof.
  intros Hs. unfold ListStores.
  pose proof (sorted_stores_unique mr1 mr2 (stores s) options Hs) as Heq.
  unfold selected_stores in Heq. by rewrite Heq.
Qed.

(** A continuation token outside the list is not refused: [ListStores] slices with it
    and panics, whether it is negative or larger than the number of selected stores. *)
Theorem ListStores_token_panics `{!MapRange} (s : MemoryBackend) (ids : list string) (name : string)
    (size from : Z) (options := mkListStoresOptions ids name (mkPagination size (Itoa from))) :
  from < 0 ∨ zlen (selected_stores options (range_map (stores s)).*2) < from →
  -2^31 ≤ from < 2^31 → size < 2^32 →
  ListStores s options = Panic "slice bounds out of range".
Proof.
  intros Hout Hfrom Hsize. unfold ListStores.
  change (if negb (lso_Name options =s "") then _ else _)
    with (selected_stores options (range_map (stores s)).*2).
  set (all := SliceStable _ _).
  assert (zlen all = zlen (selected_stores options (range_map (stores s)).*2)) as Hlen.
  { unfold all, zlen. by rewrite SliceStable_perm. }
  unfold page_from. simpl. rewrite bool_decide_false by apply Itoa_nonempty. simpl.
  rewrite ParseInt_Itoa by (simpl; lia). simpl. unfold cut_page.
  assert (0 < page_size (mkPagination size (Itoa from)) < 2^32) as Hps.
  { unfold page_size; simpl. case_bool_decide; unfold DefaultPageSize; lia. }
  rewrite wrap64_id by (unfold int64_range, int64_min, int64_max; lia).
  pose proof (zlen_nonneg all).
  rewrite go_slice_panic; [done|]. case_bool_decide; lia.
Qed.
End store_lists.

Definition two_stores : MemoryBackend :=
  set_stores (New None None) {["a" := mkStore "a" "A" 0 0; "b" := mkStore "b" "B" 0 0]}.

Definition reversed_MapRange : MapRange := {|
  range_map V m := reverse (map_to_list m);
  range_map_perm V m := reverse_Permutation _;
|}.

Lemma ListStores_order_independent_witness :
  @ListStores map_to_list_MapRange two_stores (mkListStoresOptions [] "" (mkPagination 1 "")) =
  @ListStores reversed_MapRange two_stores (mkListStoresOptions [] "" (mkPagination 1 "")).
Proof.
  apply ListStores_order_independent. intros id st. simpl.
  rewrite lookup_insert_Some, lookup_singleton_Some. naive_solver.
Defined.

Lemma ListStores_token_panics_witness :
  @ListStores map_to_list_MapRange two_stores (mkListStoresOptions [] "" (mkPagination 1 (Itoa 3))) =
  Panic "slice bounds out of range".
Proof. apply ListStores_token_panics; [right; by vm_compute|lia..]. Defined.

(** ** Authorization models *)

Lemma find_latest_elem order m :
  find_latest order = Some m → ∃ k entry, (k, entry) ∈ order ∧ entry_model entry = m.
Proof.
  induction order as [|[k entry] order IH]; simpl; [done|]. destruct (entry_latest entry).
  - intros [= <-]. exists k, entry. split; [left|done].
  - intros (k'&entry'&?&?)%IH. exists k', entry'. split; [by right|done].
Qed.

Lemma find_latest_unique order id entry :
  (id, entry) ∈ order → entry_latest entry = true →
  (∀ k e, (k, e) ∈ order → entry_latest e = true → entry_model e = entry_model entry) →
  find_latest order = Some (entry_model entry).
Proof.
  induction order as [|[k e] order IH]; intros Hin Hl Huniq; [by apply not_elem_of_nil in Hin|].
  simpl. destruct (entry_latest e) eqn:He.
  - f_equal. apply (Huniq k); [apply list_elem_of_here|done].
  - apply elem_of_cons in Hin as [[= <- <-]|Hin]; [congruence|]. apply IH; [done..|].
    intros k' e' Hin'. apply (Huniq k'). by apply list_elem_of_further.
Qed.


(** ** ReadStartingWithUser *)

(** The user string a filter entry stands for. *)
Definition target_user (u : ObjectRelation) : string :=
  if negb (or_Relation u =s "") then GetObjectRelationAsString u else or_Object u.

Lemma elem_of_starting_matches filter t r :
  r ∈ starting_matches filter t ↔
  r = t ∧ tr_ObjectType t = rsf_ObjectType filter ∧ tr_Relation t = rsf_Relation filter ∧
  (∀ ids, rsf_ObjectIDs filter = Some ids → tr_ObjectID t ∈ ids) ∧
  tr_User t ∈ (target_user <$> rsf_UserFilter filter).
Proof.
  unfold starting_matches. case_bool_decide; simpl; [|set_solver].
  case_bool_decide; simpl; [|set_solver].
  destruct (match rsf_ObjectIDs filter with Some ids => _ | None => false end) eqn:Hids.
  - split; [set_solver|]. intros (->&_&_&Hi&_). destruct (rsf_ObjectIDs filter) as [ids|]; [|done].
    bool_norm. destruct Hids. by apply Hi.
  - rewrite list_elem_of_omap, list_elem_of_fmap. setoid_rewrite (comm _ (tr_User t)).
    assert (∀ ids, rsf_ObjectIDs filter = Some ids → tr_ObjectID t ∈ ids) as Hi.
    { intros ids E. rewrite E in Hids. by bool_norm. }
    split.
    + intros (u&Hu&Heq). change (if negb (or_Relation u =s "") then _ else _) with (target_user u) in Heq.
      case_bool_decide; simplify_eq/=. split_and!; try done. by exists u.
    + intros (->&_&_&_&u&Hu&Hin). exists u. split; [done|].
      change (if negb (or_Relation u =s "") then _ else _) with (target_user u).
      by rewrite bool_decide_true.
Qed.

Lemma ReadStartingWithUser_elements `{!SortSlice} (s : MemoryBackend) (store : string) (filter : ReadStartingWithUserFilter) :
  ∃ recs, ReadStartingWithUser s store filter = Ret (mkStatic recs "") ∧
    StronglySorted (λ a b, String.le (tr_ObjectID a) (tr_ObjectID b)) recs ∧
    ∀ r, r ∈ recs ↔
      r ∈ store_tuples s store ∧ tr_ObjectType r = rsf_ObjectType filter ∧ tr_Relation r = rsf_Relation filter ∧
      (∀ ids, rsf_ObjectIDs filter = Some ids → tr_ObjectID r ∈ ids) ∧
      tr_User r ∈ (target_user <$> rsf_UserFilter filter).
Proof.
  eexists. split; [done|]. split.
  - eapply sorted_weaken; [|apply sort_slice_sorted, (str_key_StrictWeak tr_ObjectID)].
    intros a b. unfold not_less. by rewrite str_ltb_ge.
  - intros r. rewrite sort_slice_perm, list_elem_of_In, in_concat. split.
    + intros (l&Hl&Hin). apply list_elem_of_In in Hl, Hin. apply list_elem_of_fmap in Hl as (t&->&Ht).
      by apply elem_of_starting_matches in Hin as (->&?).
    + intros (Hr&Hrest). exists (starting_matches filter r). rewrite <-!list_elem_of_In.
      split; [by apply list_elem_of_fmap_2|]. by apply elem_of_starting_matches.
Qed.

(** C38: [ReadStartingWithUser] returns exactly the stored tuples of the object type and
    relation whose object id is allowed and whose user is named by a filter, sorted by
    object id, whatever sort [sort.Slice] is: the order [OrderedCombinedIterator] needs. *)
Theorem ReadStartingWithUser_spec `{!SortSlice} (s : MemoryBackend) (store : string) (filter : ReadStartingWithUserFilter) :
  ∃ recs, ReadStartingWithUser s store filter = Ret (mkStatic recs "") ∧
    StronglySorted (λ a b, String.le (tr_ObjectID a) (tr_ObjectID b)) recs ∧
    ∀ r, r ∈ recs ↔
      r ∈ store_tuples s store ∧ tr_ObjectType r = rsf_ObjectType filter ∧ tr_Relation r = rsf_Relation filter ∧
      (∀ ids, rsf_ObjectIDs filter = Some ids → tr_ObjectID r ∈ ids) ∧
      tr_User r ∈ (target_user <$> rsf_UserFilter filter).
Proof. apply ReadStartingWithUser_elements. Qed.

(** ** Stop *)

(** [Stop] does not stop the in-memory iterator: the interface says that after [Stop]
    every [Next] returns ErrIteratorDone, and here the tuples go on. *)
Theorem staticIterator_Stop_continues (r : TupleRecord) (rest : list TupleRecord) (tok : string) :
  (Next None (Stop (mkStatic (r :: rest) tok))).1 = Ret (AsTuple r).
Proof. done. Qed.
