(* ===== verification/Typesystem.v ===== *)
(** * The type system: [pkg/typesystem/typesystem.go], [error.go]

    A [TypeSystem] indexes an authorization model; this file has its construction,
    its lookups, the walks over rewrites and the validation of models
    ([NewAndValidate]).  The graph library (github.com/openfga/language) and the
    compilation of conditions (CEL) are interfaces.  Recursion through the model, which
    Go leaves to the stack, takes a fuel; running out of it is the error [ErrFuel],
    which the theorems show never to occur at the fuel the top-level functions pass.
    The functions over the weighted graph are not part of it. *)

From S2P Require Import Prelude GoStd Tuple Model.

Local Open Scope Z_scope.
Local Open Scope go_scope.

(** ** Errors *)

(** The causes wrapped by the error types. *)
Inductive Cause :=
| CauseInvalidUsersetRewrite
| CauseReservedKeywords
| CauseCycle
| CauseNoEntrypoints
| CauseNoEntryPointsLoop.

Inductive TsErr :=
| ErrGraph                                              (* the graph library failed *)
| ErrDuplicateTypes
| ErrInvalidSchemaVersion
| ErrInvalidModel                                       (* a userset restriction on a tupleset relation *)
| ObjectTypeUndefinedError (objectType : string)
| RelationUndefinedError (objectType relation : string)
| InvalidTypeError (objectType : string) (cause : Cause)
| InvalidRelationError (objectType relation : string) (cause : Cause)
| RelationConditionError (relation condition : string)
| AssignableRelationError (objectType relation : string)
| NonAssignableRelationError (objectType relation : string)
| InvalidRelationTypeError (objectType relation relatedObjectType relatedRelation : string)
| ErrEmptyTypeName
| ErrEmptyRelationName (objectType : string)
| ErrTuplesetNotDirect (objectType tupleset : string)
| ErrTuplesetRelationUndefined (computedUserset : string)
| ErrUndefinedTypeDefinition (typeName relation : string)
| ErrUnknownRewrite
| ErrUnsupportedRewrite
| ErrUnexpectedRewrite
| ErrConditionName (key name : string)
| ErrCompile
| ErrFuel.                                              (* the model's recursion bound; not a Go error *)

Global Instance Cause_eq_dec : EqDecision Cause.
Proof. solve_decision. Defined.
Global Instance TsErr_eq_dec : EqDecision TsErr.
Proof. solve_decision. Defined.

(** [errors.Is(err, ErrObjectTypeUndefined) || errors.Is(err, ErrRelationUndefined)]. *)
Definition is_undefined_err (e : TsErr) : bool :=
  match e with
  | ObjectTypeUndefinedError _ | RelationUndefinedError _ _ | ErrTuplesetRelationUndefined _ => true
  | _ => false
  end.

(** ** The libraries the type system calls *)

(** The graph of a model: [graph.NewAuthorizationModelGraph], its direction and
    [PathExists], whose only error is an unknown label. *)
Class ModelGraph := {
  AuthorizationModelGraph : Type;
  NewAuthorizationModelGraph : AuthorizationModel → option AuthorizationModelGraph;
  IsListObjectsDirection : AuthorizationModelGraph → bool;
  Reversed : AuthorizationModelGraph → option AuthorizationModelGraph;
  graph_PathExists : AuthorizationModelGraph → string → string → option bool;
}.

(** [condition.EvaluableCondition.Compile]: does the condition compile. *)
Class ConditionCompiler := { Compile : ModelCondition → bool }.

(** ** Data *)

(** [openfgav1.Relation], its type info flattened to the list of type restrictions
    ([New] always sets a non-nil [TypeInfo]). *)
Record RelationDef := mkRelationDef {
  rel_Name : string;
  rel_Rewrite : Userset;
  rel_DirectlyRelatedUserTypes : list RelationReference;
}.

Record TypeSystem `{!ModelGraph} := mkTypeSystem {
  typeDefinitions : gmap string TypeDefinition;
  relations : gmap string (gmap string RelationDef);
  conditions : gmap string ModelCondition;
  ttuRelations : gmap string (gmap string (list (string * string)));
  modelID : string;
  schemaVersion : string;
  authorizationModelGraph : AuthorizationModelGraph;
}.

(** The visited maps of [hasEntrypoints], [map[string]map[string]bool]: the outer map holds
    references to inner maps, which live in a heap.  [maps.Clone] of the outer map copies
    the references only, so a clone and its original share their inner maps. *)
Abbreviation inner_heap := (list (gmap string bool)).
Abbreviation visited_map := (gmap string nat).

(** The two results of a call of [hasEntrypoints] and the heap it leaves. *)
Abbreviation entry_result := (outcome TsErr (bool * bool) * inner_heap)%type.

(** ** Walks over a rewrite *)

(** The (tupleset, computed userset) pairs of the tuple-to-usersets of a rewrite. *)
Fixpoint flattenUserset (relationDef : Userset) : list (string * string) :=
  match relationDef with
  | Userset_TupleToUserset tupleset computed => [(tupleset, computed)]
  | Userset_Union child | Userset_Intersection child => concat (flattenUserset <$> child)
  | Userset_Difference base subtract => flattenUserset base ++ flattenUserset subtract
  | _ => []
  end.

Section walk.
Context {St R : Type} (handler : Userset → St → option R * St).

(** [WalkUsersetRewrite]: the handler is called at every node until its first non-nil
    answer, and a second time at a leaf where it answered nil. *)
Fixpoint WalkUsersetRewrite (rewrite : Userset) (st : St) : outcome TsErr (option R) * St :=
  let walk_children := fix walk_children (children : list Userset) (st : St) :=
    match children with
    | [] => (Ret None, st)
    | child :: rest =>
        match WalkUsersetRewrite child st with
        | (Ret None, st) => walk_children rest st
        | stop => stop
        end
    end in
  match handler rewrite st with
  | (Some result, st) => (Ret (Some result), st)
  | (None, st) =>
      match rewrite with
      | Userset_This | Userset_ComputedUserset _ _ | Userset_TupleToUserset _ _ =>
          let '(result, st) := handler rewrite st in (Ret result, st)
      | Userset_Union child | Userset_Intersection child => walk_children child st
      | Userset_Difference base subtract =>
          match WalkUsersetRewrite base st with
          | (Ret None, st) => WalkUsersetRewrite subtract st
          | stop => stop
          end
      | Userset_nil => (Throw ErrUnexpectedRewrite, st)
      end
  end.
End walk.

Definition RewriteContainsSelf (rewrite : Userset) : outcome TsErr bool :=
  match WalkUsersetRewrite (λ r (st : unit), (match r with Userset_This => Some true | _ => None end, st)) rewrite tt with
  | (Ret result, _) => Ret (default false result)
  | _ => Panic "unexpected error during rewrite evaluation"
  end.

(** ** Construction *)

Section typesystem.
Context `{!ModelGraph}.

(** The relation [New] builds for an entry of a type definition's relations. *)
Definition new_relation (td : TypeDefinition) (relation : string) (rewrite : Userset) : RelationDef :=
  mkRelationDef relation rewrite (default [] (td_Metadata td !! relation)).

Definition td_relations (td : TypeDefinition) : gmap string RelationDef :=
  map_imap (λ relation rewrite, Some (new_relation td relation rewrite)) (td_Relations td).

(** One iteration of [New]'s loop over the type definitions: later ones overwrite. *)
Definition new_step (acc : gmap string TypeDefinition * gmap string (gmap string RelationDef) *
    gmap string (gmap string (list (string * string)))) (td : TypeDefinition) :=
  let '(tds, rels, ttus) := acc in
  (<[td_Type td := td]> tds,
   <[td_Type td := td_relations td]> rels,
   <[td_Type td := flattenUserset <$> td_Relations td]> ttus).

Definition New (model : AuthorizationModel) : outcome TsErr TypeSystem :=
  let '(tds, rels, ttus) := foldl new_step (∅, ∅, ∅) (am_TypeDefinitions model) in
  match NewAuthorizationModelGraph model with
  | None => Throw ErrGraph
  | Some g =>
      let! g := if negb (IsListObjectsDirection g)
                then match Reversed g with Some g => Ret g | None => Throw ErrGraph end
                else Ret g in
      Ret (mkTypeSystem _ tds rels (am_Conditions model) ttus (am_Id model) (am_SchemaVersion model) g)
  end.

(** ** Lookups *)

Definition GetTypeDefinition (t : TypeSystem) (objectType : string) : option TypeDefinition :=
  typeDefinitions t !! objectType.

Definition GetRelations (t : TypeSystem) (objectType : string) : outcome TsErr (gmap string RelationDef) :=
  match GetTypeDefinition t objectType with
  | None => Throw (ObjectTypeUndefinedError objectType)
  | Some _ => Ret (default ∅ (relations t !! objectType))
  end.

Definition GetRelation (t : TypeSystem) (objectType relation : string) : outcome TsErr RelationDef :=
  let! rels := GetRelations t objectType in
  match rels !! relation with
  | None => Throw (RelationUndefinedError objectType relation)
  | Some r => Ret r
  end.

Definition GetCondition (t : TypeSystem) (name : string) : option ModelCondition := conditions t !! name.

Definition GetDirectlyRelatedUserTypes (t : TypeSystem) (objectType relation : string)
  : outcome TsErr (list RelationReference) :=
  let! r := GetRelation t objectType relation in Ret (rel_DirectlyRelatedUserTypes r).

Definition DirectlyRelatedUsersets (t : TypeSystem) (objectType relation : string)
  : outcome TsErr (list RelationReference) :=
  let! refs := GetDirectlyRelatedUserTypes t objectType relation in
  Ret (List.filter (λ ref, negb (rr_GetRelation ref =s "")) refs).

(** [target.GetType(), target.GetRelation()] name the relation looked up. *)
Definition IsDirectlyRelated (t : TypeSystem) (target source : RelationReference) : outcome TsErr bool :=
  let! relation := GetRelation t (rr_Type target) (rr_GetRelation target) in
  Ret (existsb (λ typeRestriction, RelationEquals source typeRestriction) (rel_DirectlyRelatedUserTypes relation)).

Definition PubliclyAssignableReferences (t : TypeSystem) (target : RelationReference) (objectType : string)
  : outcome TsErr (option RelationReference) :=
  let! relation := GetRelation t (rr_Type target) (rr_GetRelation target) in
  Ret (List.find (λ r, (rr_Type r =s objectType) && rr_HasWildcard r) (rel_DirectlyRelatedUserTypes relation)).

Definition IsPubliclyAssignable (t : TypeSystem) (target : RelationReference) (objectType : string)
  : outcome TsErr bool :=
  let! ref := PubliclyAssignableReferences t target objectType in
  Ret (match ref with Some _ => true | None => false end).

Definition HasTypeInfo (t : TypeSystem) (objectType relation : string) : outcome TsErr bool :=
  let! r := GetRelation t objectType relation in
  Ret (IsSchemaVersionSupported (schemaVersion t)).

Definition IsTuplesetRelation (t : TypeSystem) (objectType relation : string) : outcome TsErr bool :=
  let! _ := GetRelation t objectType relation in
  Ret (existsb (existsb (λ ttu : string * string, ttu.1 =s relation))
         (map_to_list (default ∅ (ttuRelations t !! objectType))).*2).

(** [PathExists]: the wildcard query's error means there is no such node, so no path. *)
Definition PathExists (t : TypeSystem) (user relation objectType : string) : outcome TsErr bool :=
  let '(userType, _, userRelation) := ToUserParts user in
  let isUserset := negb (userRelation =s "") in
  let fromLabel := if isUserset then ToObjectRelationString userType userRelation else userType in
  let toLabel := ToObjectRelationString objectType relation in
  match graph_PathExists (authorizationModelGraph t) fromLabel toLabel with
  | None => Throw ErrGraph
  | Some true => Ret true
  | Some false =>
      if isUserset then Ret false
      else match graph_PathExists (authorizationModelGraph t) (TypedPublicWildcard userType) toLabel with
           | None => Ret false
           | Some b => Ret b
           end
  end.

(** [ResolveComputedRelation].  The memo table ([computedRelations]) is threaded: it maps
    "type-relation" to the resolution found for that key. *)
Fixpoint ResolveComputedRelation (fuel : nat) (t : TypeSystem) (objectType relation : string)
    (computedRelations : gmap string string) : outcome TsErr string * gmap string string :=
  match fuel with
  | O => (Throw ErrFuel, computedRelations)
  | S fuel =>
      let memoizeKey := objectType +:+ "-" +:+ relation in
      match computedRelations !! memoizeKey with
      | Some val => (Ret val, computedRelations)
      | None =>
          match GetRelation t objectType relation with
          | Throw e => (Throw e, computedRelations)
          | Panic w => (Panic w, computedRelations)
          | Ret rel =>
              match rel_Rewrite rel with
              | Userset_ComputedUserset _ r => ResolveComputedRelation fuel t objectType r computedRelations
              | Userset_This => (Ret relation, <[memoizeKey := relation]> computedRelations)
              | _ => (Throw ErrUnsupportedRewrite, computedRelations)
              end
          end
      end
  end.

(** ** relationInvolves *)

(** What a walk handler of [relationInvolves] answers: a bool or an error, in an
    [interface{}]. *)
Inductive WalkAnswer := AnsBool (b : bool) | AnsErr (e : TsErr) | AnsPanic (w : string).

Inductive SetOperator := intersectionSetOperator | exclusionSetOperator.

Section involves.
Context (t : TypeSystem) (target : SetOperator).
(** The recursive call, on the shared [visited] map. *)
Context (rec : string → string → gset string → outcome TsErr bool * gset string).

(** "[containsTarget, err := ...; if err != nil { return err }; if containsTarget { return true }]". *)
Definition involves_answer (r : outcome TsErr bool) : option WalkAnswer :=
  match r with
  | Ret true => Some (AnsBool true)
  | Ret false => None
  | Throw e => Some (AnsErr e)
  | Panic w => Some (AnsPanic w)
  end.

(** The loop over the types of a tupleset relation. *)
Fixpoint involves_ttu (objectType tupleset computed : string) (types : list RelationReference)
    (visited : gset string) : option WalkAnswer * gset string :=
  match types with
  | [] => (None, visited)
  | relatedType :: rest =>
      if negb (rr_GetRelation relatedType =s "") then (Some (AnsErr ErrInvalidModel), visited)
      else
        match GetRelation t (rr_Type relatedType) computed with
        | Throw e => if is_undefined_err e then involves_ttu objectType tupleset computed rest visited
                     else (Some (AnsErr e), visited)
        | Panic w => (Some (AnsPanic w), visited)
        | Ret rel =>
            let '(r, visited) := rec (rr_Type relatedType) (rel_Name rel) visited in
            match involves_answer r with
            | Some a => (Some a, visited)
            | None => involves_ttu objectType tupleset computed rest visited
            end
        end
  end.

Definition involves_handler (objectType : string) (r : Userset) (visited : gset string)
  : option WalkAnswer * gset string :=
  match r with
  | Userset_ComputedUserset _ rewrittenRelation =>
      match GetRelation t objectType rewrittenRelation with
      | Throw e => (Some (AnsErr e), visited)
      | Panic w => (Some (AnsPanic w), visited)
      | Ret rewritten =>
          let '(r, visited) := rec objectType (rel_Name rewritten) visited in (involves_answer r, visited)
      end
  | Userset_TupleToUserset tupleset computed =>
      match GetRelation t objectType tupleset with
      | Throw e => (Some (AnsErr e), visited)
      | Panic w => (Some (AnsPanic w), visited)
      | Ret tuplesetRel =>
          involves_ttu objectType tupleset computed (rel_DirectlyRelatedUserTypes tuplesetRel) visited
      end
  | Userset_Intersection _ =>
      (Some (AnsBool (match target with intersectionSetOperator => true | _ => false end)), visited)
  | Userset_Difference _ _ =>
      (Some (AnsBool (match target with exclusionSetOperator => true | _ => false end)), visited)
  | _ => (None, visited)
  end.

(** The loop over the type restrictions of the relation itself. *)
Fixpoint involves_restrictions (types : list RelationReference) (visited : gset string)
  : outcome TsErr bool * gset string :=
  match types with
  | [] => (Ret false, visited)
  | typeRestriction :: rest =>
      if negb (rr_GetRelation typeRestriction =s "") then
        let key := ToObjectRelationString (rr_Type typeRestriction) (rr_GetRelation typeRestriction) in
        if bool_decide (key ∈ visited) then involves_restrictions rest visited
        else
          match rec (rr_Type typeRestriction) (rr_GetRelation typeRestriction) visited with
          | (Ret false, visited) => involves_restrictions rest visited
          | stop => stop
          end
      else involves_restrictions rest visited
  end.
End involves.

(** [relationInvolves]; [result.(bool)] panics when the handler answered an error. *)
Fixpoint relationInvolves (fuel : nat) (t : TypeSystem) (target : SetOperator) (objectType relation : string)
    (visited : gset string) : outcome TsErr bool * gset string :=
  match fuel with
  | O => (Throw ErrFuel, visited)
  | S fuel =>
      let rec := relationInvolves fuel t target in
      let key := ToObjectRelationString objectType relation in
      if bool_decide (key ∈ visited) then (Ret false, visited)
      else
        let visited := {[key]} ∪ visited in
        match GetRelation t objectType relation with
        | Throw e => (Throw e, visited)
        | Panic w => (Panic w, visited)
        | Ret rel =>
            match WalkUsersetRewrite (involves_handler t target rec objectType) (rel_Rewrite rel) visited with
            | (Throw e, visited) => (Throw e, visited)
            | (Panic w, visited) => (Panic w, visited)
            | (Ret (Some (AnsBool true)), visited) => (Ret true, visited)
            | (Ret (Some (AnsErr _)), visited) => (Panic "interface conversion", visited)
            | (Ret (Some (AnsPanic w)), visited) => (Panic w, visited)
            | (Ret (Some (AnsBool false)), visited) | (Ret None, visited) =>
                involves_restrictions rec (rel_DirectlyRelatedUserTypes rel) visited
            end
        end
  end.

(** The number of relations of the model, plus one: no chain of distinct relations is
    longer. *)
Definition relation_count (rels : gmap string (gmap string RelationDef)) : nat :=
  sum_list ((λ p : string * gmap string RelationDef, size p.2) <$> map_to_list rels).

Definition RelationInvolvesIntersection (t : TypeSystem) (objectType relation : string) : outcome TsErr bool :=
  (relationInvolves (S (S (relation_count (relations t)))) t intersectionSetOperator objectType relation ∅).1.

Definition RelationInvolvesExclusion (t : TypeSystem) (objectType relation : string) : outcome TsErr bool :=
  (relationInvolves (S (S (relation_count (relations t)))) t exclusionSetOperator objectType relation ∅).1.

(** ** hasCycle *)

Section cycle.
Context (objectType : string).
(** What happens at a computed userset. *)
Context (jump : string → outcome TsErr bool).

Fixpoint hasCycle_walk (rewrite : Userset) : outcome TsErr bool :=
  let children := fix children (l : list Userset) : outcome TsErr bool :=
    match l with
    | [] => Ret false
    | child :: rest =>
        let! b := hasCycle_walk child in
        if b then Ret true else children rest
    end in
  match rewrite with
  | Userset_This | Userset_TupleToUserset _ _ | Userset_nil => Ret false
  | Userset_ComputedUserset _ rewrittenRelation => jump rewrittenRelation
  | Userset_Union child | Userset_Intersection child => children child
  | Userset_Difference base subtract =>
      let! b := hasCycle_walk base in
      if b then Ret true else hasCycle_walk subtract
  end.
End cycle.

(** [hasCycle]: every call adds its own relation to [visited] and passes copies on, so
    [visited] is the set of relations on the way from the start; the calls on the
    children of a set operation add the relation again, which is already there. *)
Fixpoint hasCycle (fuel : nat) (t : TypeSystem) (objectType relationName : string) (rewrite : Userset)
    (visited : gset string) : outcome TsErr bool :=
  let visited := {[objectType +:+ "#" +:+ relationName]} ∪ visited in
  hasCycle_walk (λ rewrittenRelation,
    if bool_decide (objectType +:+ "#" +:+ rewrittenRelation ∈ visited) then Ret true
    else
      let! r := GetRelation t objectType rewrittenRelation in
      match fuel with
      | O => Throw ErrFuel
      | S fuel => hasCycle fuel t objectType rewrittenRelation (rel_Rewrite r) visited
      end) rewrite.

Definition HasCycle (t : TypeSystem) (objectType relationName : string) : outcome TsErr bool :=
  let! relation := GetRelation t objectType relationName in
  hasCycle (size (default ∅ (relations t !! objectType))) t objectType relationName (rel_Rewrite relation) ∅.


(** ** hasEntrypoints *)

(** [v[typeName][relationName]]. *)
Definition visited_get (v : visited_map) (h : inner_heap) (typeName relationName : string) : option bool :=
  l ← v !! typeName; m ← h !! l; m !! relationName.

(** [v[typeName][relationName] = b] where the inner map exists. *)
Definition visited_set (v : visited_map) (h : inner_heap) (typeName relationName : string) (b : bool) : inner_heap :=
  match v !! typeName with
  | Some l => alter (<[relationName := b]>) l h
  | None => h
  end.

(** The prologue of a call: mark the relation visited in the clone. *)
Definition visited_enter (v : visited_map) (h : inner_heap) (typeName relationName : string)
  : visited_map * inner_heap :=
  match v !! typeName with
  | Some _ => (v, visited_set v h typeName relationName false)
  | None => (<[typeName := length h]> v, h ++ [{[relationName := false]}])
  end.

(** [typedefs[typeName][relationName]]. *)
Definition typedef_get (typedefs : gmap string (gmap string RelationDef)) (typeName relationName : string)
  : option RelationDef := m ← typedefs !! typeName; m !! relationName.

Section entrypoints.
Context (typedefs : gmap string (gmap string RelationDef)).
(** The recursive call on another relation. *)
Context (jump : string → string → Userset → visited_map → inner_heap → entry_result).

(** The loop over the type restrictions of a directly assignable relation. *)
Fixpoint entry_this (typeName relationName : string) (types : list RelationReference)
    (v : visited_map) (h : inner_heap) : entry_result :=
  match types with
  | [] => (Ret (false, false), h)
  | assignableType :: rest =>
      if rr_IsPlain assignableType || rr_HasWildcard assignableType
      then (Ret (true, false), visited_set v h typeName relationName true)
      else
        let ty := rr_Type assignableType in
        let rel := rr_GetRelation assignableType in
        match typedef_get typedefs ty rel with
        | None => (Throw (ErrUndefinedTypeDefinition ty rel), h)
        | Some assignableRelation =>
            match visited_get v h ty rel with
            | Some _ => entry_this typeName relationName rest v h
            | None =>
                match jump ty rel (rel_Rewrite assignableRelation) v h with
                | (Ret (true, _), h) => (Ret (true, false), h)
                | (Ret (false, _), h) => entry_this typeName relationName rest v h
                | (Throw e, h) => (Throw e, h)
                | (Panic w, h) => (Panic w, h)
                end
            end
        end
  end.

(** The loop over the types of the tupleset relation. *)
Fixpoint entry_ttu (computedRelationName : string) (types : list RelationReference)
    (v : visited_map) (h : inner_heap) : entry_result :=
  match types with
  | [] => (Ret (false, false), h)
  | assignableType :: rest =>
      let ty := rr_Type assignableType in
      match typedef_get typedefs ty computedRelationName with
      | None => entry_ttu computedRelationName rest v h
      | Some assignableRelation =>
          match visited_get v h ty computedRelationName with
          | Some true => (Ret (true, false), h)
          | Some false => entry_ttu computedRelationName rest v h
          | None =>
              match jump ty computedRelationName (rel_Rewrite assignableRelation) v h with
              | (Ret (true, _), h) => (Ret (true, false), h)
              | (Ret (false, _), h) => entry_ttu computedRelationName rest v h
              | (Throw e, h) => (Throw e, h)
              | (Panic w, h) => (Panic w, h)
              end
          end
      end
  end.

(** One call, with its recursive calls on the children of a set operation. *)
Fixpoint entry_walk (typeName relationName : string) (rewrite : Userset)
    (visitedRelations : visited_map) (h : inner_heap) : entry_result :=
  let union := fix union (children : list Userset) (loop : bool) (h : inner_heap) : entry_result :=
    match children with
    | [] => (Ret (false, loop), h)
    | child :: rest =>
        match entry_walk typeName relationName child visitedRelations h with
        | (Ret (true, _), h) => (Ret (true, false), h)
        | (Ret (false, childLoop), h) => union rest (loop || childLoop) h
        | (Throw e, h) => (Throw e, h)
        | (Panic w, h) => (Panic w, h)
        end
    end in
  let intersection := fix intersection (children : list Userset) (h : inner_heap) : entry_result :=
    match children with
    | [] => (Ret (true, false), h)
    | child :: rest =>
        match entry_walk typeName relationName child visitedRelations h with
        | (Ret (true, _), h) => intersection rest h
        | (Ret (false, childLoop), h) => (Ret (false, childLoop), h)
        | (Throw e, h) => (Throw e, h)
        | (Panic w, h) => (Panic w, h)
        end
    end in
  let '(v, h) := visited_enter visitedRelations h typeName relationName in
  match typedef_get typedefs typeName relationName with
  | None => (Throw (ErrUndefinedTypeDefinition typeName relationName), h)
  | Some relation =>
      match rewrite with
      | Userset_This => entry_this typeName relationName (rel_DirectlyRelatedUserTypes relation) v h
      | Userset_ComputedUserset _ computedRelationName =>
          match typedef_get typedefs typeName computedRelationName with
          | None => (Throw (ErrUndefinedTypeDefinition typeName computedRelationName), h)
          | Some computedRelation =>
              match visited_get v h typeName computedRelationName with
              | Some hasEntrypoint => (Ret (hasEntrypoint, true), h)
              | None => jump typeName computedRelationName (rel_Rewrite computedRelation) v h
              end
          end
      | Userset_TupleToUserset tuplesetRelationName computedRelationName =>
          match typedef_get typedefs typeName tuplesetRelationName with
          | None => (Throw (ErrUndefinedTypeDefinition typeName tuplesetRelationName), h)
          | Some tuplesetRelation =>
              entry_ttu computedRelationName (rel_DirectlyRelatedUserTypes tuplesetRelation) v h
          end
      | Userset_Union child => union child false h
      | Userset_Intersection child => intersection child h
      | Userset_Difference base subtract =>
          match entry_walk typeName relationName base visitedRelations h with
          | (Ret (true, _), h) =>
              match entry_walk typeName relationName subtract visitedRelations h with
              | (Ret (true, _), h) => (Ret (true, false), h)
              | res => res
              end
          | res => res
          end
      | Userset_nil => (Throw ErrUnknownRewrite, h)
      end
  end.
End entrypoints.

Fixpoint hasEntrypoints (fuel : nat) (typedefs : gmap string (gmap string RelationDef))
    (typeName relationName : string) (rewrite : Userset) (visitedRelations : visited_map) (h : inner_heap)
  : entry_result :=
  entry_walk typedefs
    (λ ty rel rw v h, match fuel with
                      | O => (Throw ErrFuel, h)
                      | S fuel => hasEntrypoints fuel typedefs ty rel rw v h
                      end)
    typeName relationName rewrite visitedRelations h.

(** ** Validation *)

Definition containsDuplicateType_step (acc : bool * gset string) (td : TypeDefinition) : bool * gset string :=
  let '(dup, seen) := acc in
  if dup then acc
  else if bool_decide (td_Type td ∈ seen) then (true, seen) else (false, {[td_Type td]} ∪ seen).

Definition containsDuplicateType (model : AuthorizationModel) : bool :=
  (foldl containsDuplicateType_step (false, ∅) (am_TypeDefinitions model)).1.

(** The inner loop of [validateNames] over the names of a type's relations. *)
Fixpoint validate_relation_names (objectType : string) (names : list string) : outcome TsErr unit :=
  match names with
  | [] => Ret tt
  | relation :: rest =>
      if relation =s "" then Throw (ErrEmptyRelationName objectType)
      else if (relation =s "self") || (relation =s "this")
      then Throw (InvalidRelationError objectType relation CauseReservedKeywords)
      else validate_relation_names objectType rest
  end.

Fixpoint validate_type_names `{!MapRange} (tds : list TypeDefinition) : outcome TsErr unit :=
  match tds with
  | [] => Ret tt
  | td :: rest =>
      if td_Type td =s "" then Throw ErrEmptyTypeName
      else if (td_Type td =s "self") || (td_Type td =s "this")
      then Throw (InvalidTypeError (td_Type td) CauseReservedKeywords)
      else
        let! _ := validate_relation_names (td_Type td) (range_map (td_Relations td)).*1 in
        validate_type_names rest
  end.

Definition validateNames `{!MapRange} (t : TypeSystem) : outcome TsErr unit :=
  validate_type_names (range_map (typeDefinitions t)).*2.

(** The tuple-to-userset case of [isUsersetRewriteValid]. *)
Definition ttu_rewrite_valid (t : TypeSystem) (objectType tupleset computed : string) : outcome TsErr unit :=
  match GetRelation t objectType tupleset with
  | Ret tuplesetRelation =>
      match rel_Rewrite tuplesetRelation with
      | Userset_This =>
          if IsSchemaVersionSupported (schemaVersion t) then
            if existsb (λ rr, is_ret (GetRelation t (rr_Type rr) computed))
                 (rel_DirectlyRelatedUserTypes tuplesetRelation)
            then Ret tt else Throw (ErrTuplesetRelationUndefined computed)
          else if existsb (λ typeName, is_ret (GetRelation t typeName computed)) (map_to_list (relations t)).*1
          then Ret tt else Throw (RelationUndefinedError "" computed)
      | _ => Throw (ErrTuplesetNotDirect objectType tupleset)
      end
  | _ => Throw (RelationUndefinedError objectType tupleset)
  end.

Fixpoint isUsersetRewriteValid (t : TypeSystem) (objectType relation : string) (rewrite : Userset)
  : outcome TsErr unit :=
  let children := fix children (l : list Userset) : outcome TsErr unit :=
    match l with
    | [] => Ret tt
    | child :: rest => let! _ := isUsersetRewriteValid t objectType relation child in children rest
    end in
  match rewrite with
  | Userset_nil => Throw (InvalidRelationError objectType relation CauseInvalidUsersetRewrite)
  | Userset_This => Ret tt
  | Userset_ComputedUserset _ computedUserset =>
      if computedUserset =s relation
      then Throw (InvalidRelationError objectType relation CauseInvalidUsersetRewrite)
      else match GetRelation t objectType computedUserset with
           | Ret _ => Ret tt
           | _ => Throw (RelationUndefinedError objectType computedUserset)
           end
  | Userset_TupleToUserset tupleset computed => ttu_rewrite_valid t objectType tupleset computed
  | Userset_Union child | Userset_Intersection child => children child
  | Userset_Difference base subtract =>
      let! _ := isUsersetRewriteValid t objectType relation base in
      isUsersetRewriteValid t objectType relation subtract
  end.

Definition IsDirectlyAssignable (relation : RelationDef) : outcome TsErr bool :=
  RewriteContainsSelf (rel_Rewrite relation).

(** The loop over the type restrictions of a relation. *)
Fixpoint validate_restrictions (t : TypeSystem) (objectType relationName : string)
    (relatedTypes : list RelationReference) : outcome TsErr unit :=
  match relatedTypes with
  | [] => Ret tt
  | related :: rest =>
      let relatedObjectType := rr_Type related in
      let relatedRelation := rr_GetRelation related in
      let invalid := InvalidRelationTypeError objectType relationName relatedObjectType relatedRelation in
      match GetRelations t relatedObjectType with
      | Ret _ =>
          let! _ :=
            if negb (rr_IsPlain related) then
              match IsTuplesetRelation t objectType relationName with
              | Ret true => Throw invalid
              | _ =>
                  if negb (relatedRelation =s "")
                  then match GetRelation t relatedObjectType relatedRelation with
                       | Ret _ => Ret tt
                       | _ => Throw invalid
                       end
                  else Ret tt
              end
            else Ret tt in
          let! _ :=
            if negb (rr_Condition related =s "")
            then match conditions t !! rr_Condition related with
                 | Some _ => Ret tt
                 | None => Throw (RelationConditionError relationName (rr_Condition related))
                 end
            else Ret tt in
          validate_restrictions t objectType relationName rest
      | _ => Throw invalid
      end
  end.

Definition validateTypeRestrictions (t : TypeSystem) (objectType relationName : string) : outcome TsErr unit :=
  let! relation := GetRelation t objectType relationName in
  let relatedTypes := rel_DirectlyRelatedUserTypes relation in
  let! assignable := IsDirectlyAssignable relation in
  if assignable && bool_decide (relatedTypes = []) then Throw (AssignableRelationError objectType relationName)
  else if negb assignable && negb (bool_decide (relatedTypes = []))
  then Throw (NonAssignableRelationError objectType relationName)
  else validate_restrictions t objectType relationName relatedTypes.

Definition validateRelation (t : TypeSystem) (typeName relationName : string) (relationMap : gmap string Userset)
  : outcome TsErr unit :=
  let rewrite := default Userset_nil (relationMap !! relationName) in
  let! _ := isUsersetRewriteValid t typeName relationName rewrite in
  let! _ := validateTypeRestrictions t typeName relationName in
  let! (has, loop) := (hasEntrypoints (relation_count (relations t)) (relations t) typeName relationName rewrite ∅ []).1 in
  if negb has
  then Throw (InvalidRelationError typeName relationName
                (if loop then CauseNoEntryPointsLoop else CauseNoEntrypoints))
  else
    let! cyclic := HasCycle t typeName relationName in
    if cyclic then Throw (InvalidRelationError typeName relationName CauseCycle) else Ret tt.

Fixpoint validate_relations (t : TypeSystem) (typeName : string) (relationMap : gmap string Userset)
    (names : list string) : outcome TsErr unit :=
  match names with
  | [] => Ret tt
  | relationName :: rest =>
      let! _ := validateRelation t typeName relationName relationMap in
      validate_relations t typeName relationMap rest
  end.

(** [sort.Strings] of the keys of a map. *)
Definition sorted_keys {V} (m : gmap string V) : list string :=
  SliceStable String.ltb (map_to_list m).*1.

Fixpoint validate_types (t : TypeSystem) (typeNames : list string) : outcome TsErr unit :=
  match typeNames with
  | [] => Ret tt
  | typeName :: rest =>
      let relationMap := match typeDefinitions t !! typeName with Some td => td_Relations td | None => ∅ end in
      let! _ := validate_relations t typeName relationMap (sorted_keys relationMap) in
      validate_types t rest
  end.

Section validate.
Context `{!MapRange, !ConditionCompiler}.

Fixpoint validate_conditions_loop (l : list (string * ModelCondition)) : outcome TsErr unit :=
  match l with
  | [] => Ret tt
  | (key, c) :: rest =>
      if negb (key =s mc_Name c) then Throw (ErrConditionName key (mc_Name c))
      else if negb (Compile c) then Throw ErrCompile
      else validate_conditions_loop rest
  end.

Definition validateConditions (t : TypeSystem) : outcome TsErr unit :=
  validate_conditions_loop (range_map (conditions t)).

Definition NewAndValidate (model : AuthorizationModel) : outcome TsErr TypeSystem :=
  let! t := New model in
  if negb (IsSchemaVersionSupported (schemaVersion t)) then Throw ErrInvalidSchemaVersion
  else if containsDuplicateType model then Throw ErrDuplicateTypes
  else
    let! _ := validateNames t in
    let! _ := validate_types t (sorted_keys (typeDefinitions t)) in
    let! _ := validateConditions t in
    Ret t.
End validate.
End typesystem.
