(* ===== verification/Entrypoints.v ===== *)
(** * hasEntrypoints: soundness and termination

    [hasEntrypoints] marks relations in maps that its calls share (the clone of the outer
    map is shallow).  This file proves that its positive answers are right whatever the
    sharing, and that its recursion ends; [TypesystemSpec.v] has a valid model that the
    sharing makes it refuse. *)

From S2P Require Import Prelude GoStd Tuple Model Typesystem.

Local Open Scope nat_scope.
Local Open Scope go_scope.

Section entrypoints.
Context (typedefs : gmap string (gmap string RelationDef)).

(** The relation can be reached from some object type: the intended meaning of an
    entrypoint, as the least predicate closed under the rewrite rules. *)
Inductive entry : string → string → Userset → Prop :=
| entry_direct T r rel rr :
    typedef_get typedefs T r = Some rel → rr ∈ rel_DirectlyRelatedUserTypes rel →
    rr_IsPlain rr || rr_HasWildcard rr = true → entry T r Userset_This
| entry_userset T r rel rr rel' :
    typedef_get typedefs T r = Some rel → rr ∈ rel_DirectlyRelatedUserTypes rel →
    typedef_get typedefs (rr_Type rr) (rr_GetRelation rr) = Some rel' →
    entry (rr_Type rr) (rr_GetRelation rr) (rel_Rewrite rel') → entry T r Userset_This
| entry_computed T r ob c rel :
    typedef_get typedefs T c = Some rel → entry T c (rel_Rewrite rel) → entry T r (Userset_ComputedUserset ob c)
| entry_ttu_ T r ts c tsrel rr rel :
    typedef_get typedefs T ts = Some tsrel → rr ∈ rel_DirectlyRelatedUserTypes tsrel →
    typedef_get typedefs (rr_Type rr) c = Some rel → entry (rr_Type rr) c (rel_Rewrite rel) →
    entry T r (Userset_TupleToUserset ts c)
| entry_union T r child children :
    child ∈ children → entry T r child → entry T r (Userset_Union children)
| entry_intersection T r children :
    (∀ child, child ∈ children → entry T r child) → entry T r (Userset_Intersection children)
| entry_difference T r b s : entry T r b → entry T r s → entry T r (Userset_Difference b s).

Definition full_entry (T r : string) : Prop :=
  ∃ rel, typedef_get typedefs T r = Some rel ∧ entry T r (rel_Rewrite rel).

(** ** Views of the shared heap *)

(** The references of [v] are allocated and no two types share an inner map. *)
Definition wf_view (v : visited_map) (h : inner_heap) : Prop :=
  (∀ T l, v !! T = Some l → l < length h) ∧
  (∀ T T' l, v !! T = Some l → v !! T' = Some l → T = T').

Lemma wf_view_grow v h h' : wf_view v h → length h ≤ length h' → wf_view v h'.
Proof. intros [H1 H2] ?. split; [|done]. intros T l Hl. apply H1 in Hl. lia. Qed.

Lemma visited_get_dom v h T r b : visited_get v h T r = Some b → is_Some (v !! T).
Proof. unfold visited_get. by destruct (v !! T). Qed.

Lemma visited_get_sub v v' h T r :
  v ⊆ v' → is_Some (v !! T) → visited_get v' h T r = visited_get v h T r.
Proof.
  intros Hsub [l Hl]. unfold visited_get. rewrite Hl.
  by rewrite (lookup_weaken v v' T l Hl Hsub).
Qed.

Lemma visited_set_length v h T r b : length (visited_set v h T r b) = length h.
Proof. unfold visited_set. destruct (v !! T); [apply length_alter|done]. Qed.

Lemma visited_get_set v h T r b T0 r0 :
  wf_view v h →
  visited_get v (visited_set v h T r b) T0 r0 =
  if bool_decide ((T0, r0) = (T, r)) then (if v !! T is Some _ then Some b else None) else visited_get v h T0 r0.
Proof.
  intros [Hlen Hinj]. unfold visited_get, visited_set.
  destruct (v !! T) as [l|] eqn:HT; simpl.
  2: { case_bool_decide; [|done]. simplify_eq. by rewrite HT. }
  destruct (v !! T0) as [l0|] eqn:HT0; simpl; [|case_bool_decide; [|done]; congruence].
  destruct (decide (T0 = T)) as [->|HneT].
  - assert (l0 = l) as -> by congruence. rewrite list_lookup_alter_eq.
    destruct (lookup_lt_is_Some_2 h l (Hlen _ _ HT)) as [m Hm]. rewrite Hm; simpl.
    case_bool_decide as Heq; simplify_eq; [by rewrite lookup_insert_eq|].
    rewrite lookup_insert_ne; [done|]. congruence.
  - assert (l0 ≠ l) as Hl by (intros ->; by apply HneT, (Hinj _ _ l)).
    rewrite list_lookup_alter_ne by done. case_bool_decide; [congruence|done].
Qed.

(** The prologue of a call, seen through its own map and through the caller's. *)
Lemma visited_enter_spec v h T r v1 h1 :
  wf_view v h → visited_enter v h T r = (v1, h1) →
  v ⊆ v1 ∧ wf_view v1 h1 ∧ length h ≤ length h1 ∧
  (∀ T0 r0, visited_get v1 h1 T0 r0 =
     if bool_decide ((T0, r0) = (T, r)) then Some false else visited_get v h T0 r0) ∧
  (∀ T0 r0, visited_get v h1 T0 r0 =
     if bool_decide ((T0, r0) = (T, r)) then (if v !! T is Some _ then Some false else None) else visited_get v h T0 r0).
Proof.
  intros Hwf. unfold visited_enter. destruct (v !! T) as [l|] eqn:HT; intros [= <- <-].
  - split_and!; [done| | | |].
    + eapply wf_view_grow; [done|]. by rewrite visited_set_length.
    + by rewrite visited_set_length.
    + intros T0 r0. rewrite visited_get_set by done. case_bool_decide; [by rewrite HT|done].
    + intros T0 r0. rewrite visited_get_set by done. case_bool_decide; [by rewrite HT|done].
  - destruct Hwf as [Hlen Hinj]. split_and!.
    + by apply insert_subseteq.
    + split.
      * intros T0 l [(<-&<-)|(_&Hl)]%lookup_insert_Some; rewrite length_app; simpl; [lia|].
        apply Hlen in Hl. lia.
      * intros T0 T0' l [(<-&H1)|(Hne&Hl)]%lookup_insert_Some [(<-&H2)|(Hne'&Hl')]%lookup_insert_Some; subst; try done.
        -- apply Hlen in Hl'. lia.
        -- apply Hlen in Hl. lia.
        -- by apply (Hinj _ _ l).
    + rewrite length_app. lia.
    + intros T0 r0. unfold visited_get. destruct (decide (T0 = T)) as [->|Hne].
      * rewrite lookup_insert_eq, HT. simpl. rewrite list_lookup_middle by done. simpl.
        case_bool_decide; simplify_eq; [by rewrite lookup_singleton_eq|].
        rewrite lookup_singleton_ne; [done|]. congruence.
      * rewrite lookup_insert_ne by done. rewrite bool_decide_false by congruence.
        destruct (v !! T0) as [l0|] eqn:HT0; simpl; [|done].
        rewrite lookup_app_l; [done|]. by apply (Hlen T0).
    + intros T0 r0. unfold visited_get. case_bool_decide; simplify_eq; [by rewrite HT|].
      destruct (v !! T0) as [l0|] eqn:HT0; simpl; [|done].
      rewrite lookup_app_l; [done|]. by apply (Hlen T0).
Qed.

(** Every relation the map says has an entrypoint, [cur] apart, has one. *)
Definition true_ok (v : visited_map) (h : inner_heap) (cur : option (string * string)) : Prop :=
  ∀ T r, Some (T, r) ≠ cur → visited_get v h T r = Some true → full_entry T r.

(** What is marked, [cur] apart, keeps its mark. *)
Definition kept (v : visited_map) (h h' : inner_heap) (cur : option (string * string)) : Prop :=
  length h ≤ length h' ∧
  ∀ T r b, visited_get v h T r = Some b →
    is_Some (visited_get v h' T r) ∧ (Some (T, r) ≠ cur → visited_get v h' T r = Some b).

Lemma kept_refl v h cur : kept v h h cur.
Proof. split; [done|]. intros T r b Hb. split; [by rewrite Hb|done]. Qed.

Lemma kept_trans v h1 h2 h3 cur : kept v h1 h2 cur → kept v h2 h3 cur → kept v h1 h3 cur.
Proof.
  intros [Hl1 H1] [Hl2 H2]. split; [lia|]. intros T r b Hb.
  destruct (H1 _ _ _ Hb) as [[b' Hb'] Hcur]. destruct (H2 _ _ _ Hb') as [Hs Hcur']. split; [done|].
  intros Hne. specialize (Hcur Hne). assert (b' = b) as -> by congruence. by apply Hcur'.
Qed.

(** ** The measure: relations of the model not yet marked *)

Definition all_pairs : list (string * string) :=
  concat ((λ p : string * gmap string RelationDef, (λ q : string * RelationDef, (p.1, q.1)) <$> map_to_list p.2)
    <$> map_to_list typedefs).

Lemma elem_of_all_pairs T r rel : typedef_get typedefs T r = Some rel → (T, r) ∈ all_pairs.
Proof.
  unfold typedef_get, all_pairs. destruct (typedefs !! T) as [m|] eqn:HT; simpl; [|done]. intros Hr.
  rewrite list_elem_of_In, in_concat. eexists. split.
  - apply list_elem_of_In, list_elem_of_fmap. exists (T, m). split; [done|]. by apply elem_of_map_to_list.
  - apply list_elem_of_In, list_elem_of_fmap. exists (r, rel). split; [done|]. by apply elem_of_map_to_list.
Qed.

Lemma length_all_pairs : length all_pairs = relation_count typedefs.
Proof.
  unfold all_pairs, relation_count. induction (map_to_list typedefs) as [|[T m] l IH]; [done|].
  rewrite !fmap_cons. cbn [concat]. rewrite length_app, length_fmap, IH. simpl.
  by rewrite length_map_to_list.
Qed.

Definition unvisited (v : visited_map) (h : inner_heap) : list (string * string) :=
  List.filter (λ p, bool_decide (visited_get v h p.1 p.2 = None)) all_pairs.

Lemma filter_length_mono {A} (f g : A → bool) (l : list A) :
  (∀ x, f x = true → g x = true) → length (List.filter f l) ≤ length (List.filter g l).
Proof.
  intros Hfg. induction l as [|x l IH]; simpl; [lia|].
  destruct (f x) eqn:E; [rewrite (Hfg _ E); simpl; lia|]. destruct (g x); simpl; lia.
Qed.

Lemma filter_length_lt {A} (f g : A → bool) (l : list A) x :
  (∀ x, f x = true → g x = true) → x ∈ l → f x = false → g x = true →
  length (List.filter f l) < length (List.filter g l).
Proof.
  intros Hfg Hx Hf Hg. induction l as [|y l IH]; [by apply not_elem_of_nil in Hx|]. simpl.
  apply elem_of_cons in Hx as [<-|Hx].
  - rewrite Hf, Hg. simpl. pose proof (filter_length_mono f g l Hfg). lia.
  - specialize (IH Hx). destruct (f y) eqn:E; [rewrite (Hfg _ E); simpl; lia|]. destruct (g y); simpl; lia.
Qed.

Lemma unvisited_mono v h v' h' :
  (∀ T r, is_Some (visited_get v h T r) → is_Some (visited_get v' h' T r)) →
  length (unvisited v' h') ≤ length (unvisited v h).
Proof.
  intros Hm. apply filter_length_mono. intros [T r]. rewrite !bool_decide_eq_true. simpl.
  rewrite !eq_None_not_Some. auto.
Qed.

Lemma unvisited_enter v h T r rel v1 h1 :
  wf_view v h → visited_enter v h T r = (v1, h1) →
  visited_get v h T r = None → typedef_get typedefs T r = Some rel →
  length (unvisited v1 h1) < length (unvisited v h).
Proof.
  intros Hwf He Hn Hrel. apply visited_enter_spec in He as (_&_&_&Hv1&_); [|done].
  apply (filter_length_lt _ _ _ (T, r)); simpl.
  - intros [T0 r0]. rewrite !bool_decide_eq_true. simpl. rewrite Hv1. by case_bool_decide.
  - by eapply elem_of_all_pairs.
  - rewrite Hv1, (bool_decide_true ((T, r) = (T, r))) by done. by apply bool_decide_false.
  - by rewrite bool_decide_true.
Qed.

(** ** Contracts of the recursive calls *)

(** What a call on another relation guarantees when at most [f] relations are unmarked. *)
Definition jump_ok (f : nat) (jump : string → string → Userset → visited_map → inner_heap → entry_result) : Prop :=
  ∀ T r rel v h,
    wf_view v h → true_ok v h None → typedef_get typedefs T r = Some rel →
    visited_get v h T r = None → length (unvisited v h) ≤ f →
    match jump T r (rel_Rewrite rel) v h with
    | (Ret (b, _), h') => kept v h h' None ∧ true_ok v h' None ∧ (b = true → entry T r (rel_Rewrite rel))
    | (Throw e, _) => e ≠ ErrFuel
    | (Panic _, _) => False
    end.

(** What a call on (a part of) the rewrite of [T]#[r] guarantees. *)
Definition walk_post (T r : string) (rw : Userset) (v : visited_map) (h : inner_heap) (res : entry_result) : Prop :=
  match res with
  | (Ret (b, _), h') =>
      kept v h h' (Some (T, r)) ∧ true_ok v h' (Some (T, r)) ∧
      (visited_get v h' T r = Some true → b = true) ∧ (b = true → entry T r rw)
  | (Throw e, _) => e ≠ ErrFuel
  | (Panic _, _) => False
  end.

Lemma kept_weaken v h h' cur : kept v h h' None → kept v h h' cur.
Proof. intros [Hl Hk]. split; [done|]. intros T r b Hb. destruct (Hk _ _ _ Hb) as [? Hk']. auto. Qed.

Lemma true_ok_weaken v h cur : true_ok v h None → true_ok v h cur.
Proof. intros Ht T r _ Hb. by apply Ht. Qed.

Lemma walk_post_trans T r rw v h h1 res :
  kept v h h1 (Some (T, r)) → walk_post T r rw v h1 res → walk_post T r rw v h res.
Proof.
  intros Hk. destruct res as [[[b l]| |] h']; simpl; [|done..].
  intros (Hk'&?&?&?). split_and!; [by eapply kept_trans|done..].
Qed.

Lemma walk_post_rw T r rw rw' v h res :
  (∀ b l h', res = (Ret (b, l), h') → b = true → entry T r rw → entry T r rw') →
  walk_post T r rw v h res → walk_post T r rw' v h res.
Proof.
  destruct res as [[[b l]| |] h']; simpl; [|done..]. intros Hrw (?&?&?&Hb).
  split_and!; [done..|]. intros Ht. eapply Hrw; [done..|auto].
Qed.

(** What a call sees through its own map, its caller sees through the original. *)
Lemma walk_post_enter T r rw v h v1 h1 res :
  wf_view v h → visited_enter v h T r = (v1, h1) → walk_post T r rw v1 h1 res → walk_post T r rw v h res.
Proof.
  intros Hwf He. apply visited_enter_spec in He as (Hsub&_&Hlen&Hv1&_); [|done].
  destruct res as [[[b l]| |] h']; simpl; [|done..]. intros ([Hl Hk]&Ht&Hb&Hrw). split_and!; [|..|done].
  - split; [lia|]. intros T0 r0 b0 Hb0. pose proof (visited_get_dom _ _ _ _ _ Hb0) as Hdom.
    rewrite <-!(visited_get_sub v v1) by done.
    destruct (decide ((T0, r0) = (T, r))) as [Heq|Hne].
    + destruct (Hk T0 r0 false) as [Hs _]; [|split; [done|congruence]].
      by rewrite Hv1, bool_decide_true.
    + apply Hk. by rewrite Hv1, bool_decide_false.
  - intros T0 r0 Hne Hg. apply Ht; [done|].
    rewrite (visited_get_sub v v1); [done..|]. by eapply visited_get_dom.
  - intros Hg. apply Hb. rewrite (visited_get_sub v v1); [done..|]. by eapply visited_get_dom.
Qed.

Lemma walk_post_stop T r rw v h (b l : bool) :
  true_ok v h None → visited_get v h T r = Some false → (b = true → entry T r rw) →
  walk_post T r rw v h (Ret (b, l), h).
Proof.
  intros Ht Hg Hb. simpl. split_and!; [apply kept_refl|by apply true_ok_weaken|congruence|done].
Qed.

Lemma kept_unvisited v h h' cur : kept v h h' cur → length (unvisited v h') ≤ length (unvisited v h).
Proof. intros [_ Hk]. apply unvisited_mono. intros T r [b Hb]. by apply Hk in Hb as [? _]. Qed.

(** The state a loop starts from and comes back to: its own relation is marked false. *)
Definition loop_state (f : nat) (T r : string) (v : visited_map) (h : inner_heap) : Prop :=
  wf_view v h ∧ true_ok v h None ∧ visited_get v h T r = Some false ∧ length (unvisited v h) ≤ f.

Lemma loop_state_kept f T r v h h' :
  loop_state f T r v h → kept v h h' None → true_ok v h' None → loop_state f T r v h'.
Proof.
  intros (Hwf&_&Hg&Hf) Hk Ht. pose proof (kept_unvisited _ _ _ _ Hk). destruct Hk as [Hl Hk]. split_and!.
  - by eapply wf_view_grow.
  - done.
  - apply Hk in Hg as [_ Hg]. by apply Hg.
  - lia.
Qed.

Lemma entry_this_spec f jump T r rel types v h :
  jump_ok f jump → loop_state f T r v h → typedef_get typedefs T r = Some rel →
  (∀ rr, rr ∈ types → rr ∈ rel_DirectlyRelatedUserTypes rel) →
  walk_post T r Userset_This v h (entry_this typedefs jump T r types v h).
Proof.
  intros Hj Hst Hrel. revert h Hst. induction types as [|rr types IH]; intros h Hst Hin; simpl entry_this.
  { destruct Hst as (_&?&?&_). by apply walk_post_stop. }
  pose proof (Hin rr (list_elem_of_here _ _)) as Hrr.
  destruct (rr_IsPlain rr || rr_HasWildcard rr) eqn:Hd.
  { destruct Hst as (Hwf&Ht&Hg&_). split_and!; [| |done|by intros; eapply entry_direct].
    - split; [by rewrite visited_set_length|]. intros T0 r0 b0 Hb0. rewrite visited_get_set by done.
      case_bool_decide as Heq; [|by rewrite Hb0]. injection Heq as -> ->.
      apply visited_get_dom in Hg as [l ->]. split; [done|congruence].
    - intros T0 r0 Hne Hg0. apply Ht; [done|]. rewrite visited_get_set in Hg0 by done.
      rewrite bool_decide_false in Hg0 by congruence. done. }
  destruct (typedef_get typedefs (rr_Type rr) (rr_GetRelation rr)) as [rel'|] eqn:Hrel'; [|done].
  assert (∀ rr', rr' ∈ types → rr' ∈ rel_DirectlyRelatedUserTypes rel) as Hin'
    by (intros; by apply Hin, list_elem_of_further).
  destruct (visited_get v h (rr_Type rr) (rr_GetRelation rr)) eqn:Hv; [by apply IH|].
  pose proof (Hj (rr_Type rr) (rr_GetRelation rr) rel' v h) as Hjr.
  destruct Hst as (Hwf&Ht&Hg&Hf). specialize (Hjr Hwf Ht Hrel' Hv Hf).
  destruct (jump _ _ _ _ _) as [[[[] l]| |] h']; [| |done..].
  - destruct Hjr as (Hk&Ht'&He). eapply walk_post_trans; [by apply kept_weaken|].
    apply walk_post_stop; [done| |]. { apply Hk in Hg as [_ Hg]. by apply Hg. }
    intros _. by eapply entry_userset; [..|apply He].
  - destruct Hjr as (Hk&Ht'&_). eapply walk_post_trans; [by apply kept_weaken|].
    apply IH; [|done]. by eapply loop_state_kept; [split_and!|..].
Qed.

Lemma entry_ttu_spec f jump T r ts c tsrel types v h :
  jump_ok f jump → loop_state f T r v h → typedef_get typedefs T ts = Some tsrel →
  (∀ rr, rr ∈ types → rr ∈ rel_DirectlyRelatedUserTypes tsrel) →
  walk_post T r (Userset_TupleToUserset ts c) v h (entry_ttu typedefs jump c types v h).
Proof.
  intros Hj Hst Hrel. revert h Hst. induction types as [|rr types IH]; intros h Hst Hin; simpl entry_ttu.
  { destruct Hst as (_&?&?&_). by apply walk_post_stop. }
  pose proof (Hin rr (list_elem_of_here _ _)) as Hrr.
  assert (∀ rr', rr' ∈ types → rr' ∈ rel_DirectlyRelatedUserTypes tsrel) as Hin'
    by (intros; by apply Hin, list_elem_of_further).
  destruct (typedef_get typedefs (rr_Type rr) c) as [rel'|] eqn:Hrel'; [|by apply IH].
  destruct (visited_get v h (rr_Type rr) c) as [[]|] eqn:Hv; [|by apply IH|].
  { destruct Hst as (_&Ht&Hg&_). apply walk_post_stop; [done..|]. intros _.
    destruct (Ht _ _ ltac:(done) Hv) as (rel&Hrel0&He). by eapply entry_ttu_. }
  pose proof (Hj (rr_Type rr) c rel' v h) as Hjr.
  destruct Hst as (Hwf&Ht&Hg&Hf). specialize (Hjr Hwf Ht Hrel' Hv Hf).
  destruct (jump _ _ _ _ _) as [[[[] l]| |] h']; [| |done..].
  - destruct Hjr as (Hk&Ht'&He). eapply walk_post_trans; [by apply kept_weaken|].
    apply walk_post_stop; [done| |]. { apply Hk in Hg as [_ Hg]. by apply Hg. }
    intros _. by eapply entry_ttu_; [..|apply He].
  - destruct Hjr as (Hk&Ht'&_). eapply walk_post_trans; [by apply kept_weaken|].
    apply IH; [|done]. by eapply loop_state_kept; [split_and!|..].
Qed.

(** The state in which a call on a part of the rewrite of [T]#[r] starts. *)
Definition call_state (f : nat) (T r : string) (v : visited_map) (h : inner_heap) : Prop :=
  wf_view v h ∧ true_ok v h (Some (T, r)) ∧
  ∀ v1 h1, visited_enter v h T r = (v1, h1) → length (unvisited v1 h1) ≤ f.

Lemma call_state_kept f T r v h h' :
  call_state f T r v h → kept v h h' (Some (T, r)) → true_ok v h' (Some (T, r)) → call_state f T r v h'.
Proof.
  intros (Hwf&_&Hf) [Hl Hk] Ht. assert (wf_view v h') as Hwf' by by eapply wf_view_grow.
  split_and!; [done..|]. intros v1 h1 He.
  destruct (visited_enter v h T r) as [v0 h0] eqn:He0. specialize (Hf _ _ eq_refl).
  apply visited_enter_spec in He as (_&_&_&Hg1&_); [|done].
  apply visited_enter_spec in He0 as (_&_&_&Hg0&_); [|done].
  etrans; [|exact Hf]. apply unvisited_mono. intros T0 r0. rewrite Hg0, Hg1.
  case_bool_decide; [done|]. intros [b Hb]. by apply Hk in Hb as [? _].
Qed.

Lemma call_state_enter f T r v h v1 h1 :
  call_state f T r v h → visited_enter v h T r = (v1, h1) →
  loop_state f T r v1 h1 ∧ call_state f T r v h1 ∧ kept v h h1 (Some (T, r)) ∧ visited_get v h1 T r ≠ Some true.
Proof.
  intros Hst He. pose proof Hst as (Hwf&Ht&Hf). specialize (Hf _ _ He).
  apply visited_enter_spec in He as (Hsub&Hwf1&Hl&Hg1&Hg); [|done].
  assert (kept v h h1 (Some (T, r))) as Hk.
  { split; [done|]. intros T0 r0 b Hb. rewrite Hg. case_bool_decide as Heq; [|by rewrite Hb].
    injection Heq as -> ->. apply visited_get_dom in Hb as [l ->]. split; [done|congruence]. }
  assert (true_ok v h1 (Some (T, r))) as Ht1.
  { intros T0 r0 Hne. rewrite Hg. rewrite bool_decide_false by congruence. by apply Ht. }
  split; [|split; [by apply (call_state_kept f T r v h)|split; [done|]]].
  - split; [done|split; [|split; [|done]]].
    + intros T0 r0 _. rewrite Hg1. case_bool_decide; [done|]. apply Ht. congruence.
    + by rewrite Hg1, bool_decide_true.
  - rewrite Hg, bool_decide_true by done. by destruct (v !! T).
Qed.

(** The loop over the children of a union, the earlier ones having had no entrypoint. *)
Lemma entry_union_spec f jump T r v (children all : list Userset) loop h :
  (∀ child, child ∈ children → ∀ h, call_state f T r v h →
     walk_post T r child v h (entry_walk typedefs jump T r child v h)) →
  (∀ child, child ∈ children → child ∈ all) →
  call_state f T r v h → visited_get v h T r ≠ Some true →
  walk_post T r (Userset_Union all) v h
    ((fix union (children : list Userset) (loop : bool) (h : inner_heap) : entry_result :=
      match children with
      | [] => (Ret (false, loop), h)
      | child :: rest =>
          match entry_walk typedefs jump T r child v h with
          | (Ret (true, _), h) => (Ret (true, false), h)
          | (Ret (false, childLoop), h) => union rest (loop || childLoop) h
          | (Throw e, h) => (Throw e, h)
          | (Panic w, h) => (Panic w, h)
          end
      end) children loop h).
Proof.
  revert loop h. induction children as [|child children IH]; intros loop h Hc Hall Hst Hg.
  { split_and!; [apply kept_refl|apply Hst|congruence|done]. }
  pose proof (Hc child (list_elem_of_here _ _) h Hst) as Hpost.
  destruct (entry_walk typedefs jump T r child v h) as [[[[] l]| |] h'] eqn:E; [| |done..].
  - destruct Hpost as (Hk&Ht&Hb&He). split_and!; [done..|]. intros _.
    eapply entry_union; [apply Hall, list_elem_of_here|by apply He].
  - destruct Hpost as (Hk&Ht&Hb&_). eapply walk_post_trans; [done|]. apply IH.
    + intros c Hin. apply Hc. by apply list_elem_of_further.
    + intros c Hin. apply Hall. by apply list_elem_of_further.
    + by eapply call_state_kept.
    + intros Hgt. by apply Hb in Hgt.
Qed.

(** The loop over the children of an intersection. *)
Lemma entry_intersection_spec f jump T r v (children : list Userset) h :
  (∀ child, child ∈ children → ∀ h, call_state f T r v h →
     walk_post T r child v h (entry_walk typedefs jump T r child v h)) →
  call_state f T r v h →
  walk_post T r (Userset_Intersection children) v h
    ((fix intersection (children : list Userset) (h : inner_heap) : entry_result :=
      match children with
      | [] => (Ret (true, false), h)
      | child :: rest =>
          match entry_walk typedefs jump T r child v h with
          | (Ret (true, _), h) => intersection rest h
          | (Ret (false, childLoop), h) => (Ret (false, childLoop), h)
          | (Throw e, h) => (Throw e, h)
          | (Panic w, h) => (Panic w, h)
          end
      end) children h).
Proof.
  revert h. induction children as [|child children IH]; intros h Hc Hst.
  { split_and!; [apply kept_refl|apply Hst|done|]. intros _. apply entry_intersection. set_solver. }
  pose proof (Hc child (list_elem_of_here _ _) h Hst) as Hpost.
  destruct (entry_walk typedefs jump T r child v h) as [[[[] l]| |] h'] eqn:E; [| |done..].
  - destruct Hpost as (Hk&Ht&Hb&He). eapply walk_post_trans; [done|].
    assert (walk_post T r (Userset_Intersection children) v h' ((fix intersection (children : list Userset)
      (h : inner_heap) : entry_result := match children with
      | [] => (Ret (true, false), h)
      | child :: rest =>
          match entry_walk typedefs jump T r child v h with
          | (Ret (true, _), h) => intersection rest h
          | (Ret (false, childLoop), h) => (Ret (false, childLoop), h)
          | (Throw e, h) => (Throw e, h)
          | (Panic w, h) => (Panic w, h)
          end
      end) children h')) as Hrest.
    { apply IH; [intros c Hin; apply Hc; by apply list_elem_of_further|by eapply call_state_kept]. }
    eapply walk_post_rw; [|exact Hrest]. intros b l' h'' _ _ Hi. inversion Hi as [| | | | |? ? ? Hall|]; subst.
    apply entry_intersection. intros c [->|Hin]%elem_of_cons; [by apply He|by apply Hall].
  - destruct Hpost as (Hk&Ht&Hb&_). by split_and!.
Qed.

Lemma entry_walk_spec f jump T r rw v h :
  jump_ok f jump → call_state f T r v h → walk_post T r rw v h (entry_walk typedefs jump T r rw v h).
Proof.
  intros Hj. revert h. induction rw as [|ob c|ts c|child IH|child IH|b s IHb IHs|] using Userset_nested_ind;
    intros h Hst; simpl entry_walk;
    destruct (visited_enter v h T r) as [v1 h1] eqn:He;
    destruct (call_state_enter _ _ _ _ _ _ _ Hst He) as (Hloop&Hst1&Hk1&Hg1);
    (destruct (typedef_get typedefs T r) as [rel|] eqn:Hrel; [|done]).
  - eapply walk_post_enter; [apply Hst|done|]. by eapply entry_this_spec.
  - destruct (typedef_get typedefs T c) as [crel|] eqn:Hcrel; [|done].
    eapply walk_post_enter; [apply Hst|done|]. pose proof Hloop as (Hwf1&Ht1&Hgf&Hf1).
    destruct (visited_get v1 h1 T c) as [b|] eqn:Hv.
    + apply walk_post_stop; [done..|]. intros ->. destruct (Ht1 _ _ ltac:(done) Hv) as (rel'&Hrel'&He').
      by eapply entry_computed.
    + pose proof (Hj T c crel v1 h1 Hwf1 Ht1 Hcrel Hv Hf1) as Hjr.
      destruct (jump T c _ v1 h1) as [[[b l]| |] h']; [|done..]. destruct Hjr as (Hk&Ht&He').
      split_and!; [by apply kept_weaken|by apply true_ok_weaken| |].
      * apply Hk in Hgf as [_ Hgf]. rewrite Hgf by done. done.
      * intros Hb. by eapply entry_computed; [|apply He'].
  - destruct (typedef_get typedefs T ts) as [tsrel|] eqn:Htsrel; [|done].
    eapply walk_post_enter; [apply Hst|done|]. by eapply entry_ttu_spec.
  - eapply walk_post_trans; [exact Hk1|]. rewrite Forall_forall in IH. by eapply entry_union_spec.
  - eapply walk_post_trans; [exact Hk1|]. rewrite Forall_forall in IH. by eapply entry_intersection_spec.
  - eapply walk_post_trans; [exact Hk1|]. specialize (IHb _ Hst1).
    destruct (entry_walk typedefs jump T r b v h1) as [[[[] l]| |] h2]; [| |done..].
    + destruct IHb as (Hk2&Ht2&Hb2&He2). specialize (IHs h2 (call_state_kept _ _ _ _ _ _ Hst1 Hk2 Ht2)).
      eapply walk_post_trans; [exact Hk2|].
      destruct (entry_walk typedefs jump T r s v h2) as [[[[] l']| |] h3]; [| |done..].
      * destruct IHs as (?&?&?&He3). split_and!; [done..|]. intros _.
        apply entry_difference; [by apply He2|by apply He3].
      * destruct IHs as (?&?&?&_). by split_and!.
    + destruct IHb as (?&?&?&_). by split_and!.
  - done.
Qed.

(** The recursive function meets the contract at every fuel. *)
Lemma hasEntrypoints_jump fuel :
  jump_ok fuel (λ T r rw v h, match fuel with
    | O => (Throw ErrFuel, h)
    | S fuel => hasEntrypoints fuel typedefs T r rw v h
    end).
Proof.
  induction fuel as [|fuel IH]; intros T r rel v h Hwf Ht Hrel Hv Hf;
    destruct (visited_enter v h T r) as [v1 h1] eqn:He;
    pose proof (unvisited_enter _ _ _ _ _ _ _ Hwf He Hv Hrel) as Hlt; [lia|].
  assert (call_state fuel T r v h) as Hst.
  { split_and!; [done|by apply true_ok_weaken|]. intros v2 h2 He2. rewrite He in He2.
    injection He2 as <- <-. lia. }
  destruct fuel as [|fuel]; simpl;
  match goal with |- context [entry_walk _ ?j] =>
    pose proof (entry_walk_spec _ j T r (rel_Rewrite rel) v h IH Hst) as Hpost end;
  destruct (entry_walk _ _ _ _ _ _ _) as [[[b l]| |] h']; try done;
  destruct Hpost as ([Hl Hk]&Ht'&Hb&Hrw);
  (split_and!; [split; [done|]; intros T0 r0 b0 Hb0; destruct (Hk _ _ _ Hb0) as [? Hk0]; split; [done|]; intros _;
      apply Hk0; congruence
     |intros T0 r0 _ Hg; destruct (decide ((T0, r0) = (T, r))) as [[= -> ->]|Hne];
      [exists rel; auto|apply Ht'; [congruence|done]]
     |done]).
Qed.

Lemma hasEntrypoints_spec (T r : string) (rel : RelationDef) :
  typedef_get typedefs T r = Some rel →
  match (hasEntrypoints (relation_count typedefs) typedefs T r (rel_Rewrite rel) ∅ []).1 with
  | Ret (b, _) => b = true → entry T r (rel_Rewrite rel)
  | Throw e => e ≠ ErrFuel
  | Panic _ => False
  end.
Proof.
  intros Hrel. assert (wf_view ∅ []) as Hwf by (split; intros ?; by rewrite lookup_empty).
  assert (true_ok ∅ [] None) as Ht by by intros T0 r0 _ ?%visited_get_dom%lookup_empty_is_Some.
  pose proof (hasEntrypoints_jump (S (relation_count typedefs)) T r rel ∅ [] Hwf Ht Hrel eq_refl) as Hj.
  rewrite <-length_all_pairs in Hj at 1.
  assert (length (unvisited ∅ []) ≤ S (length all_pairs)) as Hle.
  { unfold unvisited. pose proof (filter_length_mono (λ p : string * string,
      bool_decide (visited_get ∅ [] p.1 p.2 = None)) (λ _, true) all_pairs ltac:(done)) as Hm.
    etrans; [exact Hm|]. rewrite filter_true. lia. }
  specialize (Hj Hle). destruct (hasEntrypoints _ _ _ _ _ _ _) as [[[b l]| |] h']; [|done..].
  intros Hb. by apply Hj.
Qed.

(** At the bound [validateRelation] uses, [hasEntrypoints] always ends, and when it
    answers that a relation has an entrypoint the relation really can be reached from some
    object type by the rewrite rules: the maps its calls share never produce a wrong
    positive answer. *)
Theorem hasEntrypoints_sound (T r : string) (rel : RelationDef) :
  typedef_get typedefs T r = Some rel →
  match (hasEntrypoints (relation_count typedefs) typedefs T r (rel_Rewrite rel) ∅ []).1 with
  | Ret (b, _) => b = true → entry T r (rel_Rewrite rel)
  | Throw e => e ≠ ErrFuel
  | Panic _ => False
  end.
Proof. apply hasEntrypoints_spec. Qed.
End entrypoints.

Definition demo_rel : RelationDef := mkRelationDef "v" Userset_This [DirectRelationReference "user" ""].
Definition demo_typedefs : gmap string (gmap string RelationDef) := {["doc" := {["v" := demo_rel]}]}.

Lemma hasEntrypoints_sound_witness : entry demo_typedefs "doc" "v" Userset_This.
Proof.
  pose proof (hasEntrypoints_sound demo_typedefs "doc" "v" demo_rel eq_refl) as H.
  assert ((hasEntrypoints (relation_count demo_typedefs) demo_typedefs "doc" "v" (rel_Rewrite demo_rel) ∅ []).1
    = Ret (true, false)) as E by (vm_compute; reflexivity).
  rewrite E in H. by apply H.
Defined.
