(* ===== verification/TypesystemSpec.v ===== *)
(** * What model validation guarantees

    The theorems about [Typesystem.v]: cycle detection is exact and terminates, a model
    that [NewAndValidate] accepts is well formed in the sense the rest of the program
    relies on, and the places where the walks over a model differ from their
    documentation. *)

From stdpp Require Import fin_map_dom.
From S2P Require Import Prelude GoStd Tuple Model Typesystem Entrypoints.

Local Open Scope Z_scope.
Local Open Scope go_scope.

(** ** Leaves of a rewrite *)

(** The relations a rewrite mentions as computed usersets. *)
Fixpoint computed_leaves (u : Userset) : list string :=
  match u with
  | Userset_ComputedUserset _ r => [r]
  | Userset_Union child | Userset_Intersection child => concat (computed_leaves <$> child)
  | Userset_Difference b s => computed_leaves b ++ computed_leaves s
  | _ => []
  end.

(** Some part of the rewrite is missing. *)
Fixpoint has_nil (u : Userset) : bool :=
  match u with
  | Userset_nil => true
  | Userset_Union child | Userset_Intersection child => existsb has_nil child
  | Userset_Difference b s => has_nil b || has_nil s
  | _ => false
  end.

(** A direct assignment occurs in the rewrite. *)
Fixpoint has_this (u : Userset) : bool :=
  match u with
  | Userset_This => true
  | Userset_Union child | Userset_Intersection child => existsb has_this child
  | Userset_Difference b s => has_this b || has_this s
  | _ => false
  end.

Section spec.
Context `{!ModelGraph}.

(** [r'] occurs as a computed userset in the rewrite of [r], a relation of [ty]. *)
Definition computed_step (t : TypeSystem) (ty : string) (r r' : string) : Prop :=
  ∃ rel, GetRelation t ty r = Ret rel ∧ r' ∈ computed_leaves (rel_Rewrite rel).

(** A chain of computed usersets from [r] ends. *)
Definition computed_terminates (t : TypeSystem) (ty r : string) : Prop :=
  Acc (λ y x, computed_step t ty x y) r.

(** ** Lookups *)

Lemma GetRelation_Ret t ty r rel :
  GetRelation t ty r = Ret rel ↔
  is_Some (typeDefinitions t !! ty) ∧ default ∅ (relations t !! ty) !! r = Some rel.
Proof.
  unfold GetRelation, GetRelations, GetTypeDefinition.
  destruct (typeDefinitions t !! ty) as [td|]; simpl.
  - destruct (default ∅ _ !! r); naive_solver.
  - split; [done|]. by intros [[? ?] _].
Qed.

Lemma GetRelation_no_panic t ty r w : GetRelation t ty r ≠ Panic w.
Proof.
  unfold GetRelation, GetRelations. destruct (GetTypeDefinition t ty); simpl; [|done].
  by destruct (_ !! r).
Qed.

Lemma GetRelation_Throw t ty r e : GetRelation t ty r = Throw e → e ≠ ErrFuel.
Proof.
  unfold GetRelation, GetRelations. destruct (GetTypeDefinition t ty); simpl; [|congruence].
  destruct (_ !! r); congruence.
Qed.

(** ** Cycles *)

(** Which leaf decides [hasCycle_walk]. *)
Lemma hasCycle_walk_spec jump u :
  match hasCycle_walk jump u with
  | Ret false => ∀ r, r ∈ computed_leaves u → jump r = Ret false
  | res => ∃ r, r ∈ computed_leaves u ∧ jump r = res
  end.
Proof.
  induction u as [|ob r|ts c|child IH|child IH|b s IHb IHs|] using Userset_nested_ind; simpl.
  1,3,7: set_solver.
  - destruct (jump r) as [[]| |] eqn:E; try (exists r; set_solver). set_solver.
  - induction IH as [|u l Hu _ IHl]; simpl; [set_solver|].
    destruct (hasCycle_walk jump u) as [[]| |]; simpl.
    1,3,4: destruct Hu as (r&?&?); exists r; set_solver.
    destruct ((fix children (l : list Userset) : outcome TsErr bool := _) l) as [[]| |].
    1,3,4: destruct IHl as (r&?&?); exists r; set_solver.
    intros r. rewrite elem_of_app. naive_solver.
  - induction IH as [|u l Hu _ IHl]; simpl; [set_solver|].
    destruct (hasCycle_walk jump u) as [[]| |]; simpl.
    1,3,4: destruct Hu as (r&?&?); exists r; set_solver.
    destruct ((fix children (l : list Userset) : outcome TsErr bool := _) l) as [[]| |].
    1,3,4: destruct IHl as (r&?&?); exists r; set_solver.
    intros r. rewrite elem_of_app. naive_solver.
  - destruct (hasCycle_walk jump b) as [[]| |]; simpl.
    1,3,4: destruct IHb as (r&?&?); exists r; set_solver.
    destruct (hasCycle_walk jump s) as [[]| |].
    1,3,4: destruct IHs as (r&?&?); exists r; set_solver.
    intros r. rewrite elem_of_app. naive_solver.
Qed.

(** The key of a relation in the visited set. *)
Definition cycle_key (ty r : string) : string := ty +:+ "#" +:+ r.

Lemma cycle_key_inj ty r r' : cycle_key ty r = cycle_key ty r' → r = r'.
Proof. unfold cycle_key. by intros ?%str_app_inj_l%str_app_inj_l. Qed.

(** What [hasCycle] does at a computed userset [r'], [path] being the relations on the way. *)
Definition cycle_jump (fuel : nat) (t : TypeSystem) (ty : string) (path : list string) (r' : string)
  : outcome TsErr bool :=
  if bool_decide (cycle_key ty r' ∈ (list_to_set (cycle_key ty <$> path) : gset string)) then Ret true
  else
    let! rel := GetRelation t ty r' in
    match fuel with
    | O => Throw ErrFuel
    | S fuel => hasCycle fuel t ty r' (rel_Rewrite rel) (list_to_set (cycle_key ty <$> path))
    end.

Lemma hasCycle_unfold fuel t ty r rw path :
  hasCycle fuel t ty r rw (list_to_set (cycle_key ty <$> path)) =
  hasCycle_walk (cycle_jump fuel t ty (r :: path)) rw.
Proof. by destruct fuel. Qed.

Lemma elem_of_cycle_keys ty r path :
  cycle_key ty r ∈ (list_to_set (cycle_key ty <$> path) : gset string) ↔ r ∈ path.
Proof.
  rewrite elem_of_list_to_set, list_elem_of_fmap. split.
  - by intros (v&->%cycle_key_inj&?).
  - intros ?. by exists r.
Qed.

Lemma path_bound (rels : gmap string RelationDef) (path : list string) :
  NoDup path → (∀ v, v ∈ path → v ∈ dom rels) → (length path ≤ size rels)%nat.
Proof.
  intros Hnd Hsub. rewrite <-(size_list_to_set (C:=gset string) path), <-(size_dom (D:=gset string)) by done.
  apply subseteq_size. intros v. rewrite elem_of_list_to_set. apply Hsub.
Qed.

Lemma hasCycle_path t ty (rels := default ∅ (relations t !! ty)) fuel r rel path :
  GetRelation t ty r = Ret rel →
  NoDup (r :: path) → (∀ v, v ∈ r :: path → v ∈ dom rels ∧ rtc (computed_step t ty) v r) →
  (size rels ≤ fuel + length (r :: path))%nat →
  match hasCycle fuel t ty r (rel_Rewrite rel) (list_to_set (cycle_key ty <$> path)) with
  | Ret false => computed_terminates t ty r
  | Ret true => ∃ c, rtc (computed_step t ty) r c ∧ tc (computed_step t ty) c c
  | Throw e => ∃ r1 r2, rtc (computed_step t ty) r r1 ∧ computed_step t ty r1 r2 ∧ GetRelation t ty r2 = Throw e
  | Panic _ => False
  end.
Proof.
  revert r rel path. induction fuel as [fuel IH] using lt_wf_ind. intros r rel path Hr Hnd Hpath Hfuel.
  assert (∀ r', r' ∈ computed_leaves (rel_Rewrite rel) →
    match cycle_jump fuel t ty (r :: path) r' with
    | Ret false => computed_terminates t ty r'
    | Ret true => ∃ c, rtc (computed_step t ty) r c ∧ tc (computed_step t ty) c c
    | Throw e => ∃ r1 r2, rtc (computed_step t ty) r r1 ∧ computed_step t ty r1 r2 ∧ GetRelation t ty r2 = Throw e
    | Panic _ => False
    end) as Hjump.
  { intros r' Hleaf. assert (computed_step t ty r r') as Hstep by by exists rel.
    unfold cycle_jump. case_bool_decide as Hin; rewrite elem_of_cycle_keys in Hin.
    { exists r'. split; [by apply rtc_once|]. eapply tc_rtc_l; [by apply Hpath|by apply tc_once]. }
    destruct (GetRelation t ty r') as [rel'|e|w] eqn:Hr'; simpl.
    2: by exists r, r'. 2: by apply GetRelation_no_panic in Hr'.
    assert (∀ v, v ∈ r' :: r :: path → v ∈ dom rels ∧ rtc (computed_step t ty) v r') as Hpath'.
    { intros v [->|Hv]%elem_of_cons.
      - split; [|done]. apply GetRelation_Ret in Hr' as [_ Hl]. by apply elem_of_dom_2 in Hl.
      - split; [by apply Hpath|]. eapply rtc_r; [by apply Hpath|done]. }
    assert (NoDup (r' :: r :: path)) as Hnd' by by constructor.
    pose proof (path_bound rels _ Hnd' (λ v Hv, proj1 (Hpath' v Hv))) as Hb. simpl in Hb, Hfuel.
    destruct fuel as [|fuel]; [simpl in Hfuel; lia|].
    specialize (IH fuel ltac:(lia) r' rel' (r :: path) Hr' Hnd' Hpath' ltac:(simpl; lia)).
    destruct (hasCycle fuel t ty r' _ _) as [[]| |].
    - destruct IH as (c&?&?). exists c. split; [by eapply rtc_l|done].
    - done.
    - destruct IH as (r1&r2&?&?&?). exists r1, r2. split_and!; [by eapply rtc_l|done..].
    - done. }
  rewrite hasCycle_unfold. pose proof (hasCycle_walk_spec (cycle_jump fuel t ty (r :: path)) (rel_Rewrite rel)) as Hw.
  destruct (hasCycle_walk _ _) as [[]| |].
  1,3,4: destruct Hw as (r'&Hleaf&Hj); specialize (Hjump r' Hleaf); by rewrite Hj in Hjump.
  constructor. intros r' (rel'&Hrel'&Hleaf). rewrite Hr in Hrel'. injection Hrel' as <-.
  specialize (Hjump r' Hleaf). by rewrite (Hw _ Hleaf) in Hjump.
Qed.

Lemma HasCycle_spec (t : TypeSystem) (ty r : string) :
  match HasCycle t ty r with
  | Ret true => ∃ c, rtc (computed_step t ty) r c ∧ tc (computed_step t ty) c c
  | Ret false => computed_terminates t ty r
  | Throw e => e ≠ ErrFuel ∧ ∃ r', rtc (computed_step t ty) r r' ∧ GetRelation t ty r' = Throw e
  | Panic _ => False
  end.
Proof.
  unfold HasCycle. destruct (GetRelation t ty r) as [rel|e|w] eqn:Hr; simpl.
  2: { split; [by eapply GetRelation_Throw|]. by exists r. }
  2: by apply GetRelation_no_panic in Hr.
  assert (∀ v, v ∈ [r] → v ∈ dom (default ∅ (relations t !! ty)) ∧ rtc (computed_step t ty) v r) as Hpath.
  { intros v ->%list_elem_of_singleton. split; [|done].
    apply GetRelation_Ret in Hr as [_ Hl]. by apply elem_of_dom_2 in Hl. }
  pose proof (hasCycle_path t ty (size (default ∅ (relations t !! ty))) r rel [] Hr
    (NoDup_singleton r) Hpath ltac:(lia)) as Hc. simpl in Hc.
  destruct (hasCycle _ _ _ _ _ _) as [[]| |]; [done..| |done].
  destruct Hc as (r1&r2&H1&H2&H3). split; [by eapply GetRelation_Throw|].
  exists r2. split; [by eapply rtc_r|done].
Qed.

(** C34: cycle detection is exact and always ends. [HasCycle] answers true only when a
    chain of computed usersets from the relation runs into a cycle, false only when every
    such chain ends (so resolving computed usersets terminates), and fails only on an
    undefined relation; the recursion bound is never reached. *)
Theorem HasCycle_correct (t : TypeSystem) (ty r : string) :
  match HasCycle t ty r with
  | Ret true => ∃ c, rtc (computed_step t ty) r c ∧ tc (computed_step t ty) c c
  | Ret false => computed_terminates t ty r
  | Throw e => e ≠ ErrFuel ∧ ∃ r', rtc (computed_step t ty) r r' ∧ GetRelation t ty r' = Throw e
  | Panic _ => False
  end.
Proof. apply HasCycle_spec. Qed.

(** ** What the passes of validation establish *)

Lemma New_maps m t :
  New m = Ret t →
  relations t = td_relations <$> typeDefinitions t ∧
  ttuRelations t = (λ td, flattenUserset <$> td_Relations td) <$> typeDefinitions t ∧
  (∀ ty td, typeDefinitions t !! ty = Some td → td ∈ am_TypeDefinitions m ∧ td_Type td = ty) ∧
  conditions t = am_Conditions m ∧ schemaVersion t = am_SchemaVersion m.
Proof.
  unfold New. assert (∀ tds acc,
    acc.1.2 = td_relations <$> acc.1.1 → acc.2 = (λ td, flattenUserset <$> td_Relations td) <$> acc.1.1 →
    (∀ ty td, acc.1.1 !! ty = Some td → td ∈ am_TypeDefinitions m ∧ td_Type td = ty) →
    (∀ td, td ∈ tds → td ∈ am_TypeDefinitions m) →
    let acc' := foldl new_step acc tds in
    acc'.1.2 = td_relations <$> acc'.1.1 ∧ acc'.2 = (λ td, flattenUserset <$> td_Relations td) <$> acc'.1.1 ∧
    (∀ ty td, acc'.1.1 !! ty = Some td → td ∈ am_TypeDefinitions m ∧ td_Type td = ty)) as Hfold.
  { induction tds as [|td tds IH]; intros [[tds0 rels] ttus] H1 H2 H3 H4; simpl in *; [done|].
    apply IH; simpl.
    - by rewrite fmap_insert, H1.
    - by rewrite fmap_insert, H2.
    - intros ty td' [[<- <-]|[_ Hl]]%lookup_insert_Some; [|by apply H3].
      split; [apply H4, list_elem_of_here|done].
    - intros td' ?. by apply H4, list_elem_of_further. }
  specialize (Hfold (am_TypeDefinitions m) (∅, ∅, ∅)).
  destruct (foldl _ _ _) as [[tds rels] ttus]; simpl in *.
  destruct (NewAuthorizationModelGraph m) as [g|]; simpl; [|done].
  destruct (if negb (IsListObjectsDirection g) then _ else _); simpl; [|done..].
  intros [= <-]; simpl. destruct Hfold as (?&?&?); [by rewrite fmap_empty..|done|done|].
  done.
Qed.

(** [GetRelation] in terms of the type definition. *)
Lemma GetRelation_td m t ty r rel :
  New m = Ret t →
  GetRelation t ty r = Ret rel ↔
  ∃ td rw, typeDefinitions t !! ty = Some td ∧ td_Relations td !! r = Some rw ∧ rel = new_relation td r rw.
Proof.
  intros (Hrel&_)%New_maps. rewrite GetRelation_Ret, Hrel, lookup_fmap. split.
  - intros [[td Htd] Hl]. rewrite Htd in Hl. simpl in Hl. unfold td_relations in Hl.
    rewrite map_lookup_imap in Hl. destruct (td_Relations td !! r) as [rw|] eqn:E; simplify_eq/=. eauto.
  - intros (td&rw&->&Hrw&->). split; [done|]. simpl. unfold td_relations. by rewrite map_lookup_imap, Hrw.
Qed.

Lemma containsDuplicateType_step_true tds seen : (foldl containsDuplicateType_step (true, seen) tds).1 = true.
Proof. induction tds; simpl; done. Qed.

Lemma containsDuplicateType_NoDup m :
  containsDuplicateType m = false → NoDup (td_Type <$> am_TypeDefinitions m).
Proof.
  unfold containsDuplicateType. assert (∀ tds seen,
    (foldl containsDuplicateType_step (false, seen) tds).1 = false →
    NoDup (td_Type <$> tds) ∧ ∀ ty, ty ∈ (td_Type <$> tds) → ty ∉ seen) as Hgen.
  { induction tds as [|td tds IH]; intros seen; simpl; [intros _; split; [constructor|set_solver]|].
    case_bool_decide as Hin; simpl; [by rewrite containsDuplicateType_step_true|].
    intros [Hnd Hs]%IH. split; [constructor; [|done]|set_solver].
    intros Hty. apply Hs in Hty. set_solver. }
  intros [? _]%Hgen. done.
Qed.

(** A name that is neither empty nor reserved. *)
Definition name_ok (s : string) : Prop := s ∉ [""; "self"; "this"].

Lemma validate_relation_names_Ret ty names :
  validate_relation_names ty names = Ret tt → Forall name_ok names.
Proof.
  induction names as [|r names IH]; simpl; [constructor|]. unfold name_ok in *.
  repeat case_bool_decide; simpl; try done. intros ?%IH. constructor; [set_solver|done].
Qed.

Lemma validate_type_names_Ret `{!MapRange} tds :
  validate_type_names tds = Ret tt →
  Forall (λ td, name_ok (td_Type td) ∧ ∀ r, is_Some (td_Relations td !! r) → name_ok r) tds.
Proof.
  induction tds as [|td tds IH]; simpl; [constructor|].
  destruct (td_Type td =s "") eqn:E1; [done|].
  destruct ((td_Type td =s "self") || (td_Type td =s "this")) eqn:E2; [done|].
  destruct (validate_relation_names _ _) as [[]| |] eqn:Hn; simpl; [|done..].
  intros Hrest%IH. constructor; [|done]. bool_norm. split; [unfold name_ok; set_solver|].
  intros r [rw Hr]. apply validate_relation_names_Ret in Hn. rewrite Forall_forall in Hn.
  apply Hn. apply list_elem_of_fmap. exists (r, rw). split; [done|]. by apply elem_of_range_map.
Qed.

Lemma walk_self_spec u :
  has_nil u = false →
  WalkUsersetRewrite (λ r (st : unit), (match r with Userset_This => Some true | _ => None end, st)) u tt =
  (Ret (if has_this u then Some true else None), tt).
Proof.
  induction u as [|ob r|ts c|child IH|child IH|b s IHb IHs|] using Userset_nested_ind; simpl; try done.
  1,2: induction IH as [|u l Hu _ IHl]; simpl; [done|]; intros [Hn1 Hn2]%orb_false_iff;
       rewrite (Hu Hn1); destruct (has_this u); simpl; [done|]; by apply IHl.
  intros [Hn1 Hn2]%orb_false_iff. rewrite (IHb Hn1). by destruct (has_this b); simpl; [|apply IHs].
Qed.

Lemma RewriteContainsSelf_spec u : has_nil u = false → RewriteContainsSelf u = Ret (has_this u).
Proof. intros Hn. unfold RewriteContainsSelf. rewrite (walk_self_spec u Hn). by destruct (has_this u). Qed.

Lemma isUsersetRewriteValid_Ret t ty r u :
  isUsersetRewriteValid t ty r u = Ret tt →
  has_nil u = false ∧
  (∀ c, c ∈ computed_leaves u → c ≠ r ∧ ∃ rel, GetRelation t ty c = Ret rel) ∧
  (∀ ts c, (ts, c) ∈ flattenUserset u → ttu_rewrite_valid t ty ts c = Ret tt).
Proof.
  induction u as [|ob c|ts c|child IH|child IH|b s IHb IHs|] using Userset_nested_ind; simpl.
  - set_solver.
  - case_bool_decide; [done|]. destruct (GetRelation t ty c) as [rel| |] eqn:E; [|done..].
    intros _. split_and!; [done| |set_solver]. intros c' ->%list_elem_of_singleton. eauto.
  - intros Hv. split_and!; [done|set_solver|]. intros ts' c' [= -> ->]%list_elem_of_singleton. done.
  - induction IH as [|u l Hu _ IHl]; simpl; [set_solver|].
    destruct (isUsersetRewriteValid t ty r u) as [[]| |]; simpl; [|done..]. intros Hl.
    destruct (Hu eq_refl) as (->&H1&H2), (IHl Hl) as (->&H3&H4). set_solver.
  - induction IH as [|u l Hu _ IHl]; simpl; [set_solver|].
    destruct (isUsersetRewriteValid t ty r u) as [[]| |]; simpl; [|done..]. intros Hl.
    destruct (Hu eq_refl) as (->&H1&H2), (IHl Hl) as (->&H3&H4). set_solver.
  - destruct (isUsersetRewriteValid t ty r b) as [[]| |]; simpl; [|done..]. intros Hs.
    destruct (IHb eq_refl) as (->&H1&H2), (IHs Hs) as (->&H3&H4). set_solver.
  - done.
Qed.

Lemma ttu_rewrite_valid_Ret t ty ts c :
  IsSchemaVersionSupported (schemaVersion t) = true →
  ttu_rewrite_valid t ty ts c = Ret tt →
  ∃ tsrel rr crel, GetRelation t ty ts = Ret tsrel ∧ rel_Rewrite tsrel = Userset_This ∧
    rr ∈ rel_DirectlyRelatedUserTypes tsrel ∧ GetRelation t (rr_Type rr) c = Ret crel.
Proof.
  intros Hs. unfold ttu_rewrite_valid. destruct (GetRelation t ty ts) as [tsrel| |]; [|done..].
  destruct (rel_Rewrite tsrel) eqn:Erw; try done. rewrite Hs.
  destruct (existsb _ _) eqn:Ex; [|done]. intros _.
  apply existsb_exists in Ex as (rr&Hin%list_elem_of_In&Hrr).
  destruct (GetRelation t (rr_Type rr) c) as [crel| |] eqn:E; [|done..]. eauto 10.
Qed.

(** The tupleset of a tuple-to-userset of the type is found in the index of [New]. *)
Lemma IsTuplesetRelation_true m t ty r rel ts c tsrel :
  New m = Ret t → GetRelation t ty r = Ret rel → (ts, c) ∈ flattenUserset (rel_Rewrite rel) →
  GetRelation t ty ts = Ret tsrel → IsTuplesetRelation t ty ts = Ret true.
Proof.
  intros HN Hrel Hin Hts. unfold IsTuplesetRelation. rewrite Hts. simpl. f_equal.
  apply (GetRelation_td m) in Hrel as (td&rw&Htd&Hrw&->); [|done]. apply New_maps in HN as (_&Httu&_).
  rewrite Httu, lookup_fmap, Htd. simpl. apply existsb_exists.
  exists (flattenUserset rw). split.
  - apply list_elem_of_In, list_elem_of_fmap. exists (r, flattenUserset rw). split; [done|].
    apply elem_of_map_to_list. by rewrite lookup_fmap, Hrw.
  - apply existsb_exists. exists (ts, c). split; [by apply list_elem_of_In|]. by apply bool_decide_true.
Qed.

(** A type restriction that passed validation. *)
Definition restriction_ok (t : TypeSystem) (ty r : string) (rr : RelationReference) : Prop :=
  is_Some (typeDefinitions t !! rr_Type rr) ∧
  (rr_GetRelation rr ≠ "" → ∃ rel, GetRelation t (rr_Type rr) (rr_GetRelation rr) = Ret rel) ∧
  (IsTuplesetRelation t ty r = Ret true → rr_RelationOrWildcard rr = None) ∧
  (rr_Condition rr ≠ "" → is_Some (conditions t !! rr_Condition rr)).

Lemma validate_restrictions_Ret t ty r l :
  validate_restrictions t ty r l = Ret tt → Forall (restriction_ok t ty r) l.
Proof.
  induction l as [|rr l IH]; simpl; [constructor|].
  destruct (GetRelations t (rr_Type rr)) as [rels| |] eqn:Hrels; [|done..].
  destruct (if negb (rr_IsPlain rr) then _ else _) as [[]| |] eqn:Hrel; simpl; [|done..].
  destruct (if negb (rr_Condition rr =s "") then _ else _) as [[]| |] eqn:Hcond; simpl; [|done..].
  intros Hl. constructor; [|by apply IH]. unfold restriction_ok. split_and!.
  - unfold GetRelations, GetTypeDefinition in Hrels. by destruct (typeDefinitions t !! rr_Type rr).
  - intros Hne. unfold rr_IsPlain in Hrel. destruct (rr_RelationOrWildcard rr) eqn:Erw.
    2: { unfold rr_GetRelation in Hne. by rewrite Erw in Hne. }
    simpl in Hrel. destruct (IsTuplesetRelation t ty r) as [[]| |]; try done;
      rewrite bool_decide_false in Hrel by done; simpl in Hrel;
      destruct (GetRelation t (rr_Type rr) (rr_GetRelation rr)); eauto; done.
  - intros Ht. unfold rr_IsPlain in Hrel. rewrite Ht in Hrel. by destruct (rr_RelationOrWildcard rr).
  - intros Hne. rewrite bool_decide_false in Hcond by done. simpl in Hcond.
    by destruct (conditions t !! rr_Condition rr).
Qed.

(** ** The valid models *)

(** What the rest of the program may rely on about a validated type system. *)
Record model_valid `{!ConditionCompiler} (t : TypeSystem) : Prop := {
  mv_schema : IsSchemaVersionSupported (schemaVersion t) = true;
  mv_names ty r rel : GetRelation t ty r = Ret rel → name_ok ty ∧ name_ok r;
  mv_complete ty r rel : GetRelation t ty r = Ret rel → has_nil (rel_Rewrite rel) = false;
  (** a computed userset names another relation of the type, *)
  mv_computed ty r rel c : GetRelation t ty r = Ret rel → c ∈ computed_leaves (rel_Rewrite rel) →
    c ≠ r ∧ ∃ crel, GetRelation t ty c = Ret crel;
  (** and chains of computed usersets end; *)
  mv_acyclic ty r rel : GetRelation t ty r = Ret rel → computed_terminates t ty r;
  (** a tupleset relation is direct, restricted to plain types, one of which has the
      computed relation; *)
  mv_ttu ty r rel ts c : GetRelation t ty r = Ret rel → (ts, c) ∈ flattenUserset (rel_Rewrite rel) →
    ∃ tsrel, GetRelation t ty ts = Ret tsrel ∧ rel_Rewrite tsrel = Userset_This ∧
      Forall (λ rr, rr_RelationOrWildcard rr = None) (rel_DirectlyRelatedUserTypes tsrel) ∧
      ∃ rr crel, rr ∈ rel_DirectlyRelatedUserTypes tsrel ∧ GetRelation t (rr_Type rr) c = Ret crel;
  (** a relation has type restrictions exactly when it is directly assignable, *)
  mv_assignable ty r rel : GetRelation t ty r = Ret rel →
    has_this (rel_Rewrite rel) = true ↔ rel_DirectlyRelatedUserTypes rel ≠ [];
  (** and they name defined types, relations and conditions; *)
  mv_restrictions ty r rel : GetRelation t ty r = Ret rel →
    Forall (restriction_ok t ty r) (rel_DirectlyRelatedUserTypes rel);
  (** every relation can be reached from some object type; *)
  mv_entry ty r rel : GetRelation t ty r = Ret rel → entry (relations t) ty r (rel_Rewrite rel);
  (** conditions are filed under their names and compile. *)
  mv_conditions k c : conditions t !! k = Some c → mc_Name c = k ∧ Compile c = true;
}.

Lemma validate_relations_Ret t ty rm names :
  validate_relations t ty rm names = Ret tt → Forall (λ r, validateRelation t ty r rm = Ret tt) names.
Proof.
  induction names as [|r names IH]; simpl; [constructor|].
  destruct (validateRelation t ty r rm) as [[]| |] eqn:E; simpl; [|done..]. intros ?%IH. by constructor.
Qed.

Lemma elem_of_sorted_keys {V} (m : gmap string V) k : k ∈ sorted_keys m ↔ is_Some (m !! k).
Proof.
  unfold sorted_keys. rewrite SliceStable_perm, list_elem_of_fmap. split.
  - intros ([k' v]&->&Hin%elem_of_map_to_list). by exists v.
  - intros [v Hv]. exists (k, v). split; [done|]. by apply elem_of_map_to_list.
Qed.

Lemma validate_types_Ret t tys ty td r :
  validate_types t tys = Ret tt → ty ∈ tys → typeDefinitions t !! ty = Some td → is_Some (td_Relations td !! r) →
  validateRelation t ty r (td_Relations td) = Ret tt.
Proof.
  intros Hv Hty Htd Hr. induction tys as [|ty' tys IH]; [by apply not_elem_of_nil in Hty|].
  simpl in Hv. destruct (validate_relations _ _ _ _) as [[]| |] eqn:E; simpl in Hv; [|done..].
  apply elem_of_cons in Hty as [->|Hty]; [|by apply IH].
  rewrite Htd in E. apply validate_relations_Ret in E. rewrite Forall_forall in E.
  by apply E, elem_of_sorted_keys.
Qed.

Lemma validate_conditions_loop_Ret `{!ConditionCompiler} l :
  validate_conditions_loop l = Ret tt → Forall (λ p, p.1 = mc_Name p.2 ∧ Compile p.2 = true) l.
Proof.
  induction l as [|[k c] l IH]; simpl; [constructor|].
  case_bool_decide; simpl; [|done]. destruct (Compile c) eqn:E; simpl; [|done].
  intros ?%IH. by constructor.
Qed.

(** What [validateRelation] checked about one relation. *)
Lemma validateRelation_Ret t ty r rm rel :
  GetRelation t ty r = Ret rel → rm !! r = Some (rel_Rewrite rel) → validateRelation t ty r rm = Ret tt →
  isUsersetRewriteValid t ty r (rel_Rewrite rel) = Ret tt ∧
  Forall (restriction_ok t ty r) (rel_DirectlyRelatedUserTypes rel) ∧
  (has_this (rel_Rewrite rel) = true ↔ rel_DirectlyRelatedUserTypes rel ≠ []) ∧
  entry (relations t) ty r (rel_Rewrite rel) ∧ computed_terminates t ty r.
Proof.
  intros Hrel Hrm. unfold validateRelation. rewrite Hrm. simpl.
  destruct (isUsersetRewriteValid t ty r (rel_Rewrite rel)) as [[]| |] eqn:Hrw; simpl; [|done..].
  destruct (validateTypeRestrictions t ty r) as [[]| |] eqn:Htr; simpl; [|done..].
  destruct (hasEntrypoints _ _ _ _ _ _ _).1 as [[has loop]| |] eqn:He; simpl; [|done..].
  destruct has; simpl; [|done]. destruct (HasCycle t ty r) as [[]| |] eqn:Hc; simpl; [done| |done..]. intros _.
  pose proof (isUsersetRewriteValid_Ret _ _ _ _ Hrw) as (Hnil&_).
  unfold validateTypeRestrictions in Htr. rewrite Hrel in Htr. simpl in Htr. unfold IsDirectlyAssignable in Htr.
  rewrite RewriteContainsSelf_spec in Htr by done. simpl in Htr. split_and!; [done| | | |].
  - repeat case_match; try done; by apply validate_restrictions_Ret.
  - destruct (has_this _), (rel_DirectlyRelatedUserTypes rel); simpl in Htr; naive_solver.
  - apply GetRelation_Ret in Hrel as [_ Hl].
    assert (typedef_get (relations t) ty r = Some rel) as Htg
      by (unfold typedef_get; by destruct (relations t !! ty)).
    pose proof (hasEntrypoints_spec (relations t) ty r rel Htg) as Hs. rewrite He in Hs. by apply Hs.
  - pose proof (HasCycle_spec t ty r) as Hcc. by rewrite Hc in Hcc.
Qed.

Lemma NewAndValidate_valid `{!MapRange, !ConditionCompiler} (m : AuthorizationModel) (t : TypeSystem) :
  NewAndValidate m = Ret t → model_valid t ∧ NoDup (td_Type <$> am_TypeDefinitions m).
Proof.
  unfold NewAndValidate. destruct (New m) as [t'| |] eqn:HN; simpl; [|done..].
  destruct (IsSchemaVersionSupported (schemaVersion t')) eqn:Hschema; simpl; [|done].
  destruct (containsDuplicateType m) eqn:Hdup; [done|].
  destruct (validateNames t') as [[]| |] eqn:Hnames; simpl; [|done..].
  destruct (validate_types t' _) as [[]| |] eqn:Htypes; simpl; [|done..].
  destruct (validateConditions t') as [[]| |] eqn:Hconds; simpl; [|done..].
  intros [= <-]. split; [|by apply containsDuplicateType_NoDup].
  assert (∀ ty r rel, GetRelation t' ty r = Ret rel →
    isUsersetRewriteValid t' ty r (rel_Rewrite rel) = Ret tt ∧
    Forall (restriction_ok t' ty r) (rel_DirectlyRelatedUserTypes rel) ∧
    (has_this (rel_Rewrite rel) = true ↔ rel_DirectlyRelatedUserTypes rel ≠ []) ∧
    entry (relations t') ty r (rel_Rewrite rel) ∧ computed_terminates t' ty r) as Hrels.
  { intros ty r rel Hrel. pose proof Hrel as Hrel'.
    apply (GetRelation_td m) in Hrel' as (td&rw&Htd&Hrw&->); [|done].
    eapply validateRelation_Ret; [done|exact Hrw|].
    eapply validate_types_Ret; [done| |done|by rewrite Hrw]. apply elem_of_sorted_keys. by rewrite Htd. }
  split.
  - done.
  - intros ty r rel Hrel. apply (GetRelation_td m) in Hrel as (td&rw&Htd&Hrw&->); [|done].
    apply validate_type_names_Ret in Hnames. rewrite Forall_forall in Hnames.
    destruct (Hnames td) as [Hn1 Hn2].
    { apply list_elem_of_fmap. exists (ty, td). split; [done|]. by apply elem_of_range_map. }
    apply New_maps in HN as (_&_&Hty&_). apply Hty in Htd as [_ <-]. split; [done|]. apply Hn2. by rewrite Hrw.
  - intros ty r rel (Hv&_)%Hrels. by apply isUsersetRewriteValid_Ret in Hv as (?&_).
  - intros ty r rel c (Hv&_)%Hrels Hc. apply isUsersetRewriteValid_Ret in Hv as (_&Hv&_). by apply Hv.
  - intros ty r rel Hrel. by apply Hrels in Hrel as (_&_&_&_&?).
  - intros ty r rel ts c Hrel Hts. pose proof (Hrels _ _ _ Hrel) as (Hv&_).
    apply isUsersetRewriteValid_Ret in Hv as (_&_&Hv). apply Hv in Hts as Hval.
    apply ttu_rewrite_valid_Ret in Hval as (tsrel&rr&crel&Hts1&Hts2&Hin&Hcrel); [|done].
    exists tsrel. split_and!; [done..| |by exists rr, crel].
    pose proof (Hrels _ _ _ Hts1) as (_&Hok&_). eapply Forall_impl; [exact Hok|].
    intros rr' (_&_&Hplain&_). apply Hplain. by apply (IsTuplesetRelation_true m _ ty r rel ts c tsrel).
  - intros ty r rel Hrel. by apply Hrels in Hrel as (_&_&?&_).
  - intros ty r rel Hrel. by apply Hrels in Hrel as (_&?&_).
  - intros ty r rel Hrel. by apply Hrels in Hrel as (_&_&_&?&_).
  - intros k c Hkc. apply validate_conditions_loop_Ret in Hconds. rewrite Forall_forall in Hconds.
    destruct (Hconds (k, c)) as [? ?]; [by apply elem_of_range_map|]. by simpl in *.
Qed.

(** C32: a model that [NewAndValidate] accepts is well formed: schema 1.1 or 1.2, no
    reserved or empty name, no missing rewrite, computed usersets defined and acyclic,
    tupleset relations direct and of plain types, type restrictions exactly on assignable
    relations and naming defined types, relations and conditions, an entrypoint for every
    relation, and conditions filed under their names that compile. *)
Theorem NewAndValidate_sound `{!MapRange, !ConditionCompiler} (m : AuthorizationModel) (t : TypeSystem) :
  NewAndValidate m = Ret t → model_valid t ∧ NoDup (td_Type <$> am_TypeDefinitions m).
Proof. apply NewAndValidate_valid. Qed.

(** ** Resolving computed relations *)

(** [r'] is the direct relation at the end of the chain of computed usersets from [r]. *)
Definition resolves (t : TypeSystem) (ty r r' : string) : Prop :=
  rtc (λ x y, ∃ rel ob, GetRelation t ty x = Ret rel ∧ rel_Rewrite rel = Userset_ComputedUserset ob y) r r' ∧
  ∃ rel, GetRelation t ty r' = Ret rel ∧ rel_Rewrite rel = Userset_This.

(** Along a chain that ends, resolution ends: some fuel is enough, and more fuel does not
    change the answer. *)
Lemma ResolveComputedRelation_total t ty r memo :
  computed_terminates t ty r →
  ∃ n, ∀ fuel, (n ≤ fuel)%nat →
    ResolveComputedRelation fuel t ty r memo = ResolveComputedRelation n t ty r memo ∧
    (ResolveComputedRelation fuel t ty r memo).1 ≠ Throw ErrFuel.
Proof.
  intros Hacc. induction Hacc as [r _ IH].
  destruct (memo !! (ty +:+ "-" +:+ r)) as [val|] eqn:Hmemo.
  { exists 1%nat. intros [|fuel] Hf; [lia|]. simpl. by rewrite Hmemo. }
  destruct (GetRelation t ty r) as [rel|e|w] eqn:Hrel.
  2: { exists 1%nat. intros [|fuel] Hf; [lia|]. simpl. rewrite Hmemo, Hrel. simpl. split; [done|].
       intros [= ->]. by apply GetRelation_Throw in Hrel. }
  2: by apply GetRelation_no_panic in Hrel.
  destruct (rel_Rewrite rel) as [|ob c|ts c|ch|ch|b s|] eqn:Hrw.
  2: { destruct (IH c) as [n Hn]; [exists rel; split; [done|]; rewrite Hrw; by apply list_elem_of_here|].
       exists (S n). intros [|fuel] Hf; [lia|]. simpl. rewrite Hmemo, Hrel. simpl. rewrite Hrw.
       apply Hn. lia. }
  all: exists 1%nat; intros [|fuel] Hf; [lia|]; simpl; rewrite Hmemo, Hrel; simpl; by rewrite Hrw.
Qed.

Lemma ResolveComputedRelation_resolves fuel t ty r r' memo' :
  ResolveComputedRelation fuel t ty r ∅ = (Ret r', memo') → resolves t ty r r'.
Proof.
  revert r. induction fuel as [|fuel IH]; intros r; simpl; [done|]. rewrite lookup_empty.
  destruct (GetRelation t ty r) as [rel| |] eqn:Hrel; [|done..].
  destruct (rel_Rewrite rel) as [|ob c|ts c|ch|ch|b s|] eqn:Hrw; try done.
  - intros [= <- _]. split; [done|]. by exists rel.
  - intros [Hrtc Hend]%IH. split; [|done]. eapply rtc_l; [|done]. by exists rel, ob.
Qed.

End spec.

(** ** Models on which the walks disagree with their documentation *)

(** A graph library and a condition compiler, to run validation. *)
Definition demo_Graph : ModelGraph := {|
  AuthorizationModelGraph := unit;
  NewAuthorizationModelGraph _ := Some tt;
  IsListObjectsDirection _ := true;
  Reversed := Some;
  graph_PathExists _ _ _ := Some true;
|}.
Definition demo_Compiler : ConditionCompiler := {| Compile _ := true |}.

(** type user; type doc with v: [user], x: [doc#y], y: x or v, w: y and x, and, when
    [alias], r: w. *)
Definition loop_model (alias : bool) : AuthorizationModel :=
  let rels := <["v" := This]> (<["x" := This]>
    (<["y" := Union [ComputedUserset "x"; ComputedUserset "v"]]>
    {["w" := Intersection [ComputedUserset "y"; ComputedUserset "x"]]})) in
  mkAuthorizationModel "model" "1.1"
    [mkTypeDefinition "user" ∅ ∅;
     mkTypeDefinition "doc" (if alias then <["r" := ComputedUserset "w"]> rels else rels)
       (<["v" := [DirectRelationReference "user" ""]]> {["x" := [DirectRelationReference "doc" "y"]]})] ∅.

Definition validate (m : AuthorizationModel) : outcome TsErr (@TypeSystem demo_Graph) :=
  @NewAndValidate demo_Graph map_to_list_MapRange demo_Compiler m.

(** The type system of a model, without validation. *)
Definition demo_relations (m : AuthorizationModel) : gmap string (gmap string RelationDef) :=
  match @New demo_Graph m with Ret t => relations t | _ => ∅ end.

(** [hasEntrypoints] can miss an entrypoint. The model [loop_model false] is accepted;
    adding the relation "define r: w", a plain alias of a relation that has an entrypoint,
    makes validation fail with "potential loop": the clone of the visited map is shallow,
    so the mark that the evaluation of y left on x is still there when x is evaluated. *)
Theorem hasEntrypoints_refuses_alias :
  is_ret (validate (loop_model false)) = true ∧
  validate (loop_model true) = Throw (InvalidRelationError "doc" "r" CauseNoEntryPointsLoop) ∧
  entry (demo_relations (loop_model true)) "doc" "r" (ComputedUserset "w").
Proof.
  split; [by vm_compute|]. split; [by vm_compute|].
  set (td := demo_relations (loop_model true)).
  assert (entry td "doc" "y" (Union [ComputedUserset "x"; ComputedUserset "v"])) as Hy.
  { eapply (entry_union _ _ _ (ComputedUserset "v")); [set_solver|].
    eapply entry_computed; [by vm_compute|]. eapply entry_direct; [by vm_compute|apply list_elem_of_here|done]. }
  eapply entry_computed; [by vm_compute|]. apply entry_intersection.
  intros c [->|[->|[]%not_elem_of_nil]%elem_of_cons]%elem_of_cons.
  - eapply entry_computed; [by vm_compute|exact Hy].
  - eapply entry_computed; [by vm_compute|]. eapply entry_userset; [by vm_compute|apply list_elem_of_here|by vm_compute|].
    exact Hy.
Qed.

Lemma NewAndValidate_sound_witness :
  match validate (loop_model false) with
  | Ret t => @model_valid demo_Graph demo_Compiler t
  | _ => False
  end.
Proof.
  destruct (validate (loop_model false)) as [t| |] eqn:E; [|by vm_compute in E..].
  apply (@NewAndValidate_sound demo_Graph map_to_list_MapRange demo_Compiler (loop_model false) t E).
Defined.


(** Two types whose relations share a memo key: "a" with relation "b-c", "a-b" with
    relation "c". *)
Definition memo_model : AuthorizationModel :=
  mkAuthorizationModel "model" "1.1"
    [mkTypeDefinition "user" ∅ ∅;
     mkTypeDefinition "a" {["b-c" := This]} {["b-c" := [DirectRelationReference "user" ""]]};
     mkTypeDefinition "a-b" {["c" := This]} {["c" := [DirectRelationReference "user" ""]]}] ∅.

(** The memo table of [ResolveComputedRelation] confuses types: its key "type-relation"
    is the same for relation b-c of type a and relation c of type a-b, so after the first
    is resolved the second resolves to a relation its type does not have. *)
Theorem ResolveComputedRelation_memo_collision :
  match validate memo_model with
  | Ret t =>
      let '(first, memo) := ResolveComputedRelation 2 t "a" "b-c" ∅ in
      first = Ret "b-c" ∧
      (ResolveComputedRelation 2 t "a-b" "c" ∅).1 = Ret "c" ∧
      (ResolveComputedRelation 2 t "a-b" "c" memo).1 = Ret "b-c" ∧
      GetRelation t "a-b" "b-c" = Throw (RelationUndefinedError "a-b" "b-c")
  | _ => False
  end.
Proof. by vm_compute. Qed.

(** type doc with a, b, c: [user], v: (a and b) but not c, and u: a and (b but not c). *)
Definition nested_model : AuthorizationModel :=
  let user := [DirectRelationReference "user" ""] in
  mkAuthorizationModel "model" "1.1"
    [mkTypeDefinition "user" ∅ ∅;
     mkTypeDefinition "doc"
       (<["a" := This]> (<["b" := This]> (<["c" := This]>
        (<["v" := Difference (Intersection [ComputedUserset "a"; ComputedUserset "b"]) (ComputedUserset "c")]>
        {["u" := Intersection [ComputedUserset "a"; Difference (ComputedUserset "b") (ComputedUserset "c")]]}))))
       (<["a" := user]> (<["b" := user]> {["c" := user]}))] ∅.

(** [RelationInvolvesIntersection] and [RelationInvolvesExclusion] miss an operator
    nested under the other one: their walk answers a non-nil false at the outer operator,
    which ends the walk, although they are documented to cover "one or more direct or
    indirect" operators. *)
Theorem relationInvolves_misses_nested :
  match validate nested_model with
  | Ret t =>
      RelationInvolvesIntersection t "doc" "v" = Ret false ∧ RelationInvolvesExclusion t "doc" "v" = Ret true ∧
      RelationInvolvesExclusion t "doc" "u" = Ret false ∧ RelationInvolvesIntersection t "doc" "u" = Ret true
  | _ => False
  end.
Proof. by vm_compute. Qed.
