(* ===== verification/Condition.v ===== *)
(** * Conditions: [internal/condition/condition.go], [internal/condition/eval/eval.go]

    An [EvaluableCondition] with its one-shot compilation, the typing of context
    parameters and evaluation, and the filter [checkutil.BuildTupleKeyConditionFilter]
    that the readers apply.  CEL and the parameter types are an interface. *)

From S2P Require Import Prelude GoStd Tuple Iterators Model Typesystem.

Local Open Scope go_scope.

(** ** CEL and the parameter types *)

(** What [ContextEval] and the conversion of its output to a Go bool yield. *)
Inductive CelOutput := CelError | CelUnknown | CelNotBool | CelBool (b : bool).

Class Cel := {
  cel_Program : Type;
  TypedValue : Type;
  (** decoding the parameter types, building the environment, compiling, checking that
      the output is a bool *)
  cel_compile : ModelCondition → option cel_Program;
  (** [types.DecodeParameterType] and [ConvertValue] of one context value *)
  convert_param : string → Value → option TypedValue;
  (** [celEnv.PartialVars] *)
  cel_PartialVars : gmap string TypedValue → bool;
  (** [activation.ResolveName] *)
  cel_ResolveName : gmap string TypedValue → string → bool;
  cel_ContextEval : cel_Program → gmap string TypedValue → CelOutput;
}.

(** [activation.ResolveName(key)] finds the variables the activation was made with. *)
Class CelLaws `{!Cel} := {
  cel_ResolveName_spec m k : cel_ResolveName m k = true ↔ is_Some (m !! k);
}.

Inductive CondErr :=
| CompilationError (condition : string)
| ParameterTypeError (condition : string)
| EvaluationError (condition : string)
| MissingParametersError (condition : string) (missing : gset string).

Record EvaluationResult := mkEvaluationResult {
  ConditionMet : bool;
  MissingParameters : gset string;
}.

Section condition.
Context `{!Cel}.

(** ** EvaluableCondition *)

(** [compileOnce] has run; [celProgram] (with [celEnv]) is set by a successful
    compilation. *)
Record EvaluableCondition := mkEvaluable {
  ec_Condition : ModelCondition;
  ec_once : bool;
  ec_program : option cel_Program;
}.

Definition NewUncompiled (condition : ModelCondition) : EvaluableCondition :=
  mkEvaluable condition false None.

(** [Compile]: the body runs once; a later call returns nil whatever happened. *)
Definition Compile_ (e : EvaluableCondition) : outcome CondErr unit * EvaluableCondition :=
  if ec_once e then (Ret tt, e)
  else
    match cel_compile (ec_Condition e) with
    | Some prg => (Ret tt, mkEvaluable (ec_Condition e) true (Some prg))
    | None => (Throw (CompilationError (mc_Name (ec_Condition e))), mkEvaluable (ec_Condition e) true None)
    end.

Definition NewCompiled (condition : ModelCondition) : outcome CondErr EvaluableCondition :=
  let '(res, e) := Compile_ (NewUncompiled condition) in
  let! _ := res in Ret e.

(** The value converted for a parameter: absent from the context, unconvertible, or
    typed. *)
Definition cast_param (contextMap : gmap string Value) (parameterKey paramType : string)
  : option (option TypedValue) :=
  convert_param paramType <$> contextMap !! parameterKey.

Definition CastContextToTypedParameters (e : EvaluableCondition) (contextMap : gmap string Value)
  : outcome CondErr (gmap string TypedValue) :=
  let name := mc_Name (ec_Condition e) in
  if bool_decide (contextMap = ∅) then Ret ∅
  else
    let parameterTypes := mc_Parameters (ec_Condition e) in
    if bool_decide (parameterTypes = ∅) then Throw (ParameterTypeError name)
    else
      let casts := map_imap (cast_param contextMap) parameterTypes in
      if existsb (λ p : string * option TypedValue, match p.2 with None => true | Some _ => false end)
           (map_to_list casts)
      then Throw (ParameterTypeError name)
      else Ret (omap id casts).

(** [maps.Copy(dst, src)]: the entries of [src] win. *)
Definition maps_Copy (dst src : gmap string Value) : gmap string Value := src ∪ dst.

(** [Evaluate]; the first of [contextMaps] is the request's. *)
Definition Evaluate (e : EvaluableCondition) (contextMaps : list (gmap string Value))
  : outcome CondErr EvaluationResult * EvaluableCondition :=
  let '(compiled, e) := Compile_ e in
  let name := mc_Name (ec_Condition e) in
  (let! _ := match compiled with Throw _ => Throw (EvaluationError name) | r => r end in
   let! contextFields := match contextMaps with
                         | first :: rest => Ret (foldl maps_Copy first rest)
                         | [] => Panic "index out of range"
                         end in
   let! typedParams := match CastContextToTypedParameters e contextFields with
                       | Throw _ => Throw (EvaluationError name)
                       | r => r
                       end in
   match ec_program e with
   | None => Panic "nil pointer dereference"
   | Some prg =>
       if negb (cel_PartialVars typedParams) then Throw (EvaluationError name)
       else
         let missing : gset string :=
           filter (λ key, cel_ResolveName typedParams key = false) (dom (mc_Parameters (ec_Condition e))) in
         match cel_ContextEval prg typedParams with
         | CelError => Throw (EvaluationError name)
         | CelUnknown => Ret (mkEvaluationResult false missing)
         | CelNotBool => Throw (EvaluationError name)
         | CelBool b => Ret (mkEvaluationResult b missing)
         end
   end, e).

(** ** Evaluation of a tuple's condition *)

(** The conditions of a type system. *)
Abbreviation conditions_state := (gmap string EvaluableCondition).

Definition EvaluateTupleCondition (tupleKey : TupleKey) (conds : conditions_state) (context : option Struct)
  : outcome CondErr EvaluationResult * conditions_state :=
  let conditionName := GetName (Condition tupleKey) in
  if conditionName =s "" then (Ret (mkEvaluationResult true ∅), conds)
  else
    match conds !! conditionName with
    | None => (Throw (EvaluationError conditionName), conds)
    | Some evaluableCondition =>
        let contextFields := [match context with Some c => Fields c | None => ∅ end] in
        let tupleContext := match Condition tupleKey with Some c => cond_Context c | None => None end in
        let contextFields := match tupleContext with
                             | Some c => contextFields ++ [Fields c]
                             | None => contextFields
                             end in
        let '(res, e) := Evaluate evaluableCondition contextFields in
        (res, <[conditionName := e]> conds)
    end.

(** [checkutil.BuildTupleKeyConditionFilter]. *)
Definition BuildTupleKeyConditionFilter (reqCtx : option Struct) (conds : conditions_state) (t : TupleKey)
  : outcome CondErr bool * conditions_state :=
  let '(res, conds) := EvaluateTupleCondition t conds reqCtx in
  (let! condEvalResult := res in
   if bool_decide (MissingParameters condEvalResult = ∅) then Ret (ConditionMet condEvalResult)
   else Throw (MissingParametersError (GetName (Condition t)) (MissingParameters condEvalResult)), conds).

(** ** Typing of the context *)

(** [CastContextToTypedParameters] keeps exactly the context fields the condition
    declares: when it succeeds on a non-empty context, a parameter is typed if and only if
    it is declared and given, with the conversion of its own value; the empty context
    gives no parameters. *)
Lemma CastContextToTypedParameters_spec (e : EvaluableCondition) (ctx : gmap string Value)
    (typed : gmap string TypedValue) :
  CastContextToTypedParameters e ctx = Ret typed →
  ∀ k v, typed !! k = Some v ↔
    ∃ ty raw, mc_Parameters (ec_Condition e) !! k = Some ty ∧ ctx !! k = Some raw ∧ convert_param ty raw = Some v.
Proof.
  unfold CastContextToTypedParameters. case_bool_decide as Hctx.
  { intros [= <-] k v. rewrite lookup_empty. split; [done|]. intros (ty&raw&_&Hr&_).
    by rewrite Hctx, lookup_empty in Hr. }
  case_bool_decide as Hp; [done|].
  destruct (existsb _ _) eqn:Hex; [done|]. intros [= <-] k v.
  rewrite lookup_omap, map_lookup_imap. unfold cast_param.
  destruct (mc_Parameters (ec_Condition e) !! k) as [ty|] eqn:Hty; simpl; [|naive_solver].
  destruct (ctx !! k) as [raw|]; simpl; [|naive_solver].
  split; [naive_solver|]. intros (ty'&raw'&?&?&?). by simplify_eq.
Qed.

(** Evaluating a compiled condition leaves it as it is. *)
Lemma Evaluate_compiled_state e maps :
  ec_once e = true → (Evaluate e maps).2 = e.
Proof. intros Ho. unfold Evaluate, Compile_. by rewrite Ho. Qed.

(** [maps_Copy] of two contexts: the second one's fields win. *)
Lemma lookup_maps_Copy dst src k : maps_Copy dst src !! k = match src !! k with Some v => Some v | None => dst !! k end.
Proof. unfold maps_Copy. rewrite lookup_union. by destruct (src !! k), (dst !! k). Qed.

(** A request cannot override what a tuple's condition was written with: two requests
    whose contexts agree outside the fields of the tuple's own context get the same
    evaluation. *)
Theorem EvaluateTupleCondition_tuple_context_wins (tk : TupleKey) (conds : conditions_state)
    (c : RelationshipCondition) (stored req1 req2 : Struct) :
  Condition tk = Some c → cond_Context c = Some stored →
  (∀ k, Fields stored !! k = None → Fields req1 !! k = Fields req2 !! k) →
  EvaluateTupleCondition tk conds (Some req1) = EvaluateTupleCondition tk conds (Some req2).
Proof.
  intros Htk Hc Hreq. unfold EvaluateTupleCondition. rewrite Htk. simpl.
  case_bool_decide; [done|]. destruct (conds !! cond_Name c); [|done]. rewrite Hc. simpl.
  unfold Evaluate. simpl. replace (maps_Copy (Fields req1) (Fields stored))
    with (maps_Copy (Fields req2) (Fields stored)); [done|].
  apply map_eq. intros k. rewrite !lookup_maps_Copy.
  destruct (Fields stored !! k) eqn:Hk; [done|]. symmetry. by apply Hreq.
Qed.

(** A condition that does not compile fails with an error the first time it is
    evaluated, and panics the second: [compileOnce] swallows the error and [Evaluate] goes
    on with a nil environment. *)
Theorem Evaluate_twice_panics (c : ModelCondition) (first : gmap string Value) :
  cel_compile c = None → is_ret (CastContextToTypedParameters (NewUncompiled c) first) = true →
  let '(res, e) := Evaluate (NewUncompiled c) [first] in
  res = Throw (EvaluationError (mc_Name c)) ∧ (Evaluate e [first]).1 = Panic "nil pointer dereference".
Proof.
  intros Hcomp Hcast. unfold Evaluate, Compile_. simpl. rewrite Hcomp. simpl. split; [done|].
  unfold CastContextToTypedParameters in *. simpl in *. repeat case_bool_decide; simpl in *; try done.
  by destruct (existsb _ _).
Qed.

(** A result with no missing parameter had a value for every declared one. *)
Lemma Evaluate_covers `{!CelLaws} e maps r :
  Evaluate e maps = (Ret r, e) → MissingParameters r = ∅ →
  ∀ p, p ∈ dom (mc_Parameters (ec_Condition e)) →
    ∃ merged, match maps with first :: rest => Some (foldl maps_Copy first rest) | [] => None end = Some merged ∧
      ∃ raw, merged !! p = Some raw.
Proof.
  unfold Evaluate. destruct (Compile_ e) as [compiled e0] eqn:Hc.
  intros [= Hres ->] Hmiss p Hp. destruct compiled; simpl in Hres; [|done..].
  destruct maps as [|first rest]; simpl in Hres; [done|]. eexists. split; [done|].
  destruct (CastContextToTypedParameters e _) as [typed| |] eqn:Hcast; simpl in Hres; [|done..].
  destruct (ec_program e); [|done]. destruct (cel_PartialVars typed); simpl in Hres; [|done].
  assert (MissingParameters r = filter (λ key, cel_ResolveName typed key = false)
    (dom (mc_Parameters (ec_Condition e)))) as Hm.
  { destruct (cel_ContextEval _ typed); by simplify_eq/=. }
  destruct (cel_ResolveName typed p) eqn:Hr.
  - apply cel_ResolveName_spec in Hr as [v Hv].
    apply (CastContextToTypedParameters_spec _ _ _ Hcast) in Hv as (ty&raw&_&Hraw&_). by exists raw.
  - exfalso. rewrite Hmiss in Hm. apply (not_elem_of_empty (C:=gset string) p). rewrite Hm.
    by apply elem_of_filter.
Qed.

(** On conditions that are compiled, the filter of the readers answers true or false
    only when every declared parameter has a value from the request or the tuple, and it
    never changes the conditions; a tuple without condition always passes. *)
Theorem condition_filter_complete `{!CelLaws} (reqCtx : option Struct) (conds : conditions_state) (tk : TupleKey) (b : bool) :
  (∀ name e, conds !! name = Some e → ec_once e = true) →
  (BuildTupleKeyConditionFilter reqCtx conds tk).1 = Ret b →
  (BuildTupleKeyConditionFilter reqCtx conds tk).2 = conds ∧
  (GetName (Condition tk) = "" → b = true) ∧
  (∀ e, GetName (Condition tk) ≠ "" → conds !! GetName (Condition tk) = Some e →
     ∀ p, p ∈ dom (mc_Parameters (ec_Condition e)) →
       (∃ raw, match reqCtx with Some r => Fields r !! p | None => None end = Some raw) ∨
       (∃ raw, (c ← Condition tk; s ← cond_Context c; Fields s !! p) = Some raw)).
Proof.
  intros Honce. unfold BuildTupleKeyConditionFilter, EvaluateTupleCondition.
  case_bool_decide as Hname; simpl; [by intros [= <-]|].
  destruct (conds !! GetName (Condition tk)) as [e|] eqn:He; simpl; [|done].
  set (maps := match _ with Some c => _ | None => _ end).
  pose proof (Evaluate_compiled_state e maps (Honce _ _ He)) as Hstate.
  destruct (Evaluate e maps) as [res e'] eqn:Hev. simpl in Hstate. subst e'. simpl. intros Hres.
  split_and!; [by apply insert_id|done|]. intros e0 _ [= <-] p Hp.
  destruct res as [r| |]; simpl in Hres; [|done..]. case_bool_decide as Hmiss; [|done].
  destruct (Evaluate_covers e maps r Hev Hmiss p Hp) as (merged&Hm&raw&Hraw).
  unfold maps in Hm. destruct (Condition tk) as [c|]; simpl in *; [destruct (cond_Context c) as [st|]; simpl in *|].
  - injection Hm as <-. rewrite lookup_maps_Copy in Hraw.
    destruct (Fields st !! p) eqn:Hp'; [right; by eauto|left]. destruct reqCtx; [by eauto|].
    by rewrite lookup_empty in Hraw.
  - injection Hm as <-. left. destruct reqCtx; [by eauto|]. by rewrite lookup_empty in Hraw.
  - injection Hm as <-. left. destruct reqCtx; [by eauto|]. by rewrite lookup_empty in Hraw.
Qed.
End condition.

(** A CEL with one-parameter conditions: the value itself is the output. *)
Definition demo_Cel : Cel := {|
  cel_Program := unit;
  TypedValue := Value;
  cel_compile c := if mc_Expression c =s "" then None else Some tt;
  convert_param _ raw := Some raw;
  cel_PartialVars _ := true;
  cel_ResolveName m k := bool_decide (is_Some (m !! k));
  cel_ContextEval _ m := match m !! "x" with Some v => CelBool (bool_decide (v = BoolValue true)) | None => CelUnknown end;
|}.
Definition demo_CelLaws : @CelLaws demo_Cel.
Proof. split. intros m k. simpl. apply bool_decide_eq_true. Defined.

Definition demo_condition (expr : string) : ModelCondition := mkModelCondition "c" expr {["x" := "string"]}.
Definition demo_conds : gmap string (@EvaluableCondition demo_Cel) :=
  {["c" := @mkEvaluable demo_Cel (demo_condition "x") true (Some tt)]}.
Definition conditioned_key : TupleKey :=
  mkTupleKey "doc:1" "viewer" "user:a" (Some (mkCondition "c" (Some (mkStruct {["x" := BoolValue true]})))).

Lemma EvaluateTupleCondition_tuple_context_wins_witness :
  @EvaluateTupleCondition demo_Cel conditioned_key demo_conds (Some (mkStruct {["x" := BoolValue false]})) =
  @EvaluateTupleCondition demo_Cel conditioned_key demo_conds (Some (mkStruct ∅)).
Proof.
  apply (@EvaluateTupleCondition_tuple_context_wins demo_Cel conditioned_key demo_conds
    (mkCondition "c" (Some (mkStruct {["x" := BoolValue true]}))) (mkStruct {["x" := BoolValue true]})); [done|done|].
  intros k. simpl. destruct (decide (k = "x")) as [->|Hne]; [by rewrite lookup_singleton_eq|].
  by rewrite !lookup_singleton_ne.
Defined.

Lemma Evaluate_twice_panics_witness :
  (@Evaluate demo_Cel (@Evaluate demo_Cel (@NewUncompiled demo_Cel (demo_condition "")) [∅]).2 [∅]).1 =
  Panic "nil pointer dereference".
Proof.
  destruct (@Evaluate demo_Cel (@NewUncompiled demo_Cel (demo_condition "")) [∅]) as [res e] eqn:E.
  pose proof (@Evaluate_twice_panics demo_Cel (demo_condition "") ∅ eq_refl eq_refl) as H.
  rewrite E in H. apply H.
Defined.

Lemma condition_filter_complete_witness :
  (@BuildTupleKeyConditionFilter demo_Cel None demo_conds conditioned_key).1 = Ret true ∧
  (@BuildTupleKeyConditionFilter demo_Cel None demo_conds conditioned_key).2 = demo_conds.
Proof.
  split; [by vm_compute|].
  apply (@condition_filter_complete demo_Cel demo_CelLaws None demo_conds conditioned_key true); [|by vm_compute].
  intros name e. unfold demo_conds. intros [_ <-]%lookup_singleton_Some. done.
Defined.
