(* ===== verification/Validation.v ===== *)
(** * Validation of tuples against a model: [internal/validation/validation.go]

    Which tuples may be written ([ValidateTupleForWrite]) and which stored tuples a reader
    must ignore ([ValidateTupleForRead], the filter of every read in a check). *)

From S2P Require Import Prelude GoStd Tuple Iterators Model Typesystem Condition.

Local Open Scope go_scope.

Inductive ValErr :=
| ErrMalformedUser
| ErrUserNotObjectOrUserset
| ErrMalformedObject
| ErrObjectWildcard
| ErrMalformedRelation
| TypeNotFoundError (typeName : string)
| RelationNotFoundError (typeName relation : string)
| ErrTypesystem (e : TsErr)
| ErrTuplesetRewrite (objectType relation : string)
| ErrTuplesetWildcard (objectType relation : string)
| ErrTuplesetUser (user objectType relation : string)
| ErrTypeDoesNotExist (objectType : string)
| ErrTypeRestriction (user objectType relation : string)
| InvalidTupleError (cause : ValErr) (tk : TupleKey)
| InvalidConditionalTupleError (cause : CondCause) (tk : TupleKey)
with CondCause :=
| ConditionMissing
| UndefinedCondition
| InvalidConditionForRestriction
| CastFailed
| InvalidContextParameter.

(** A type system error passed on as it is. *)
Definition lift_ts {A} (m : outcome TsErr A) : outcome ValErr A :=
  match m with Ret a => Ret a | Throw e => Throw (ErrTypesystem e) | Panic w => Panic w end.

(** [return &tuple.InvalidTupleError{Cause: err, TupleKey: tk}]. *)
Definition wrap_invalid {A} (tk : TupleKey) (m : outcome ValErr A) : outcome ValErr A :=
  match m with Throw e => Throw (InvalidTupleError e tk) | r => r end.

Section validation.
Context `{!ModelGraph, !Cel}.

Definition ValidateUser (typesys : TypeSystem) (user : string) : outcome ValErr unit :=
  if negb (IsValidUser user) then Throw ErrMalformedUser
  else
    let isValidObject := IsValidObject user in
    let isValidUserset := IsObjectRelation user in
    let '(userObject, userRelation) := SplitObjectRelation user in
    let userObjectType := GetType userObject in
    let! _ :=
      if IsSchemaVersionSupported (schemaVersion typesys) then
        if negb isValidObject && negb isValidUserset then Throw ErrUserNotObjectOrUserset
        else match GetTypeDefinition typesys userObjectType with
             | Some _ => Ret tt
             | None => Throw (TypeNotFoundError userObjectType)
             end
      else Ret tt in
    if isValidUserset then
      match Typesystem.GetRelation typesys userObjectType userRelation with
      | Throw (ObjectTypeUndefinedError _) => Throw (TypeNotFoundError userObjectType)
      | Throw (RelationUndefinedError _ _) => Throw (RelationNotFoundError userObjectType userRelation)
      | _ => Ret tt
      end
    else Ret tt.

Definition ValidateObject (typesys : TypeSystem) (tk : TupleKey) : outcome ValErr unit :=
  let object := Object tk in
  if negb (IsValidObject object) then Throw ErrMalformedObject
  else
    let '(objectType, id) := SplitObject object in
    if id =s Wildcard then Throw ErrObjectWildcard
    else match GetTypeDefinition typesys objectType with
         | Some _ => Ret tt
         | None => Throw (TypeNotFoundError objectType)
         end.

Definition ValidateRelation (typesys : TypeSystem) (tk : TupleKey) : outcome ValErr unit :=
  if negb (IsValidRelation (Relation tk)) then Throw ErrMalformedRelation
  else
    let objectType := GetType (Object tk) in
    match Typesystem.GetRelation typesys objectType (Relation tk) with
    | Ret _ => Ret tt
    | Throw (ObjectTypeUndefinedError _) => Throw (TypeNotFoundError objectType)
    | Throw (RelationUndefinedError _ _) => Throw (RelationNotFoundError objectType (Relation tk))
    | Throw e => Throw (ErrTypesystem e)
    | Panic w => Panic w
    end.

Definition ValidateUserObjectRelation (typesys : TypeSystem) (tk : TupleKey) : outcome ValErr unit :=
  let! _ := ValidateUser typesys (User tk) in
  let! _ := ValidateObject typesys tk in
  ValidateRelation typesys tk.

Definition validateTuplesetRestrictions (typesys : TypeSystem) (tk : TupleKey) : outcome ValErr unit :=
  let objectType := GetType (Object tk) in
  let relation := Relation tk in
  let! isTupleset := lift_ts (IsTuplesetRelation typesys objectType relation) in
  if negb isTupleset then Ret tt
  else
    let! rel := lift_ts (Typesystem.GetRelation typesys objectType relation) in
    match rel_Rewrite rel with
    | Userset_This | Userset_nil =>
        let user := User tk in
        if IsWildcard user then Throw (ErrTuplesetWildcard objectType relation)
        else if negb (IsValidObject user) then Throw (ErrTuplesetUser user objectType relation)
        else Ret tt
    | _ => Throw (ErrTuplesetRewrite objectType relation)
    end.

Definition validateTypeRestrictions (typesys : TypeSystem) (tk : TupleKey) : outcome ValErr unit :=
  let objectType := GetType (Object tk) in
  let userType := (SplitObject (User tk)).1 in
  let userRel := (SplitObjectRelation (User tk)).2 in
  match GetTypeDefinition typesys objectType with
  | None => Throw (ErrTypeDoesNotExist objectType)
  | Some td =>
      let types := default [] (td_Metadata td !! Relation tk) in
      let user := User tk in
      let fail := Throw (ErrTypeRestriction user objectType (Relation tk)) in
      if IsObjectRelation user then
        if existsb (λ ti, (rr_Type ti =s userType) && (rr_GetRelation ti =s userRel)) types then Ret tt else fail
      else if IsTypedWildcard user then
        if existsb (λ ti, (rr_Type ti =s userType) && rr_HasWildcard ti) types then Ret tt else fail
      else
        if existsb (λ ti, (rr_Type ti =s userType) && negb (rr_HasWildcard ti) && (rr_GetRelation ti =s "")) types
        then Ret tt else fail
  end.

(** A restriction without condition that [validateCondition] takes to allow an
    unconditioned tuple. *)
Definition allows_unconditioned (user : string) (t : RelationReference) : bool :=
  (rr_Condition t =s "") && (rr_Type t =s GetType user)
  && (rr_IsPlain t
      || (negb (negb (rr_GetRelation t =s "") && negb (rr_GetRelation t =s Tuple.GetRelation user))
          && negb (rr_HasWildcard t && negb (IsTypedWildcard user)))).

Definition validateCondition (typesys : TypeSystem) (tk : TupleKey) : outcome ValErr unit :=
  let objectType := GetType (Object tk) in
  let userType := GetType (User tk) in
  let! typeRestrictions := lift_ts (GetDirectlyRelatedUserTypes typesys objectType (Relation tk)) in
  match Condition tk with
  | None => if existsb (allows_unconditioned (User tk)) typeRestrictions then Ret tt
            else Throw (InvalidConditionalTupleError ConditionMissing tk)
  | Some c =>
      match GetCondition typesys (cond_Name c) with
      | None => Throw (InvalidConditionalTupleError UndefinedCondition tk)
      | Some condition =>
          if negb (existsb (λ t, (rr_Type t =s userType) && (rr_Condition t =s cond_Name c)) typeRestrictions)
          then Throw (InvalidConditionalTupleError InvalidConditionForRestriction tk)
          else
            let contextFieldMap := match cond_Context c with Some s => Fields s | None => ∅ end in
            match CastContextToTypedParameters (NewUncompiled condition) contextFieldMap with
            | Ret typedParams =>
                if existsb (λ key, bool_decide (typedParams !! key = None)) (map_to_list contextFieldMap).*1
                then Throw (InvalidConditionalTupleError InvalidContextParameter tk)
                else Ret tt
            | Throw _ => Throw (InvalidConditionalTupleError CastFailed tk)
            | Panic w => Panic w
            end
      end
  end.

Definition ValidateTupleForRead (typesys : TypeSystem) (tk : TupleKey) : outcome ValErr unit :=
  let! _ := wrap_invalid tk (validateTuplesetRestrictions typesys tk) in
  let objectType := GetType (Object tk) in
  let! hasTypeInfo := lift_ts (HasTypeInfo typesys objectType (Relation tk)) in
  if hasTypeInfo then
    let! _ := wrap_invalid tk (validateTypeRestrictions typesys tk) in
    validateCondition typesys tk
  else Ret tt.

Definition ValidateTupleForWrite (typesys : TypeSystem) (tk : TupleKey) : outcome ValErr unit :=
  let! _ := wrap_invalid tk (ValidateUserObjectRelation typesys tk) in
  ValidateTupleForRead typesys tk.

Definition FilterInvalidTuples (typesys : TypeSystem) (tupleKey : TupleKey) : bool :=
  is_ret (ValidateTupleForRead typesys tupleKey).
End validation.
