(* ===== verification/ValidationSpec.v ===== *)
(** * What tuple validation guarantees

    The theorems about [Validation.v]: a tuple accepted for writing has the shape the
    datastore needs and is allowed by a type restriction of a directly assignable relation,
    and the condition a restriction asks for can be left out in two cases. *)

From S2P Require Import Prelude GoStd Tuple Iterators Model Memory Typesystem Entrypoints TypesystemSpec.
From S2P Require Import Condition Validation.

Local Open Scope go_scope.

Section spec.
Context `{!ModelGraph, !Cel}.

(** The restriction allows a user of this shape: userset, typed wildcard or object. *)
Definition shape_allowed (user : string) (rr : RelationReference) : Prop :=
  rr_Type rr = (SplitObject user).1 ∧
  if IsObjectRelation user then rr_GetRelation rr = (SplitObjectRelation user).2
  else if IsTypedWildcard user then rr_HasWildcard rr = true
  else rr_HasWildcard rr = false ∧ rr_GetRelation rr = "".

Lemma validateTypeRestrictions_Ret m t tk :
  New m = Ret t → validateTypeRestrictions t tk = Ret tt →
  ∀ rel, Typesystem.GetRelation t (GetType (Object tk)) (Relation tk) = Ret rel →
  ∃ rr, rr ∈ rel_DirectlyRelatedUserTypes rel ∧ shape_allowed (User tk) rr.
Proof.
  intros HN Hv rel Hrel. apply (GetRelation_td m) in Hrel as (td&rw&Htd&Hrw&->); [|done].
  unfold validateTypeRestrictions, GetTypeDefinition in Hv. rewrite Htd in Hv.
  unfold shape_allowed, new_relation; simpl.
  destruct (IsObjectRelation (User tk)); [|destruct (IsTypedWildcard (User tk))];
    (destruct (existsb _ _) eqn:Hex in Hv; [|done]);
    apply existsb_exists in Hex as (rr&Hin%list_elem_of_In&Hrr); exists rr; (split; [done|]);
    bool_norm; by repeat split.
Qed.

Lemma validateTuplesetRestrictions_Ret t tk :
  validateTuplesetRestrictions t tk = Ret tt →
  IsTuplesetRelation t (GetType (Object tk)) (Relation tk) = Ret true →
  IsValidObject (User tk) = true ∧ IsWildcard (User tk) = false.
Proof.
  unfold validateTuplesetRestrictions. intros Hv Hts. rewrite Hts in Hv. simpl in Hv.
  destruct (Typesystem.GetRelation _ _ _) as [rel| |]; simpl in Hv; [|done..].
  destruct (rel_Rewrite rel); try done;
    (destruct (IsWildcard (User tk)); [done|]); by destruct (IsValidObject (User tk)).
Qed.

Lemma validateCondition_Ret t tk c :
  validateCondition t tk = Ret tt → Condition tk = Some c → is_Some (conditions t !! cond_Name c).
Proof.
  unfold validateCondition. intros Hv Hc. rewrite Hc in Hv.
  destruct (lift_ts _); simpl in Hv; [|done..]. unfold GetCondition in Hv.
  by destruct (conditions t !! cond_Name c).
Qed.

(** A user that passed [ValidateUser] is valid, and has a type under a supported schema. *)
Lemma ValidateUser_Ret t user :
  ValidateUser t user = Ret tt →
  IsValidUser user = true ∧ (IsSchemaVersionSupported (schemaVersion t) = true → GetType user ≠ "").
Proof.
  unfold ValidateUser. destruct (IsValidUser user) eqn:Hv; simpl; [|done].
  destruct (SplitObjectRelation user) as [o r]. intros Hu. split; [done|]. intros Hs. rewrite Hs in Hu.
  destruct (IsValidObject user) eqn:Ho; simpl in Hu.
  - apply IsValidObject_spec in Ho as (ty&id&->&Hty&_). rewrite GetType_build by word_byte. by destruct Hty.
  - unfold IsObjectRelation in Hu. by case_bool_decide.
Qed.

(** The validations do not panic. *)
Lemma lift_ts_no_panic {A} (m : outcome TsErr A) : no_panic m → no_panic (lift_ts m).
Proof. by destruct m. Qed.

Lemma wrap_invalid_no_panic {A} tk (m : outcome ValErr A) : no_panic m → no_panic (wrap_invalid tk m).
Proof. by destruct m. Qed.

Lemma GetRelation_np t ty r : no_panic (Typesystem.GetRelation t ty r).
Proof. pose proof (GetRelation_no_panic t ty r) as Hn. destruct (Typesystem.GetRelation t ty r); [done|done|by eapply Hn]. Qed.

Lemma ValidateUser_no_panic t user : no_panic (ValidateUser t user).
Proof.
  unfold ValidateUser. destruct (IsValidUser user); simpl; [|done]. destruct (SplitObjectRelation user) as [o r].
  apply no_panic_bind.
  - destruct (IsSchemaVersionSupported _); [|done]. destruct (negb _ && _); [done|]. by destruct (GetTypeDefinition _ _).
  - intros _. destruct (IsObjectRelation user); [|done]. by destruct (Typesystem.GetRelation _ _ _) as [|[]|].
Qed.

Lemma ValidateUserObjectRelation_no_panic t tk : no_panic (ValidateUserObjectRelation t tk).
Proof.
  apply no_panic_bind; [apply ValidateUser_no_panic|intros _; apply no_panic_bind; [|intros _]].
  - unfold ValidateObject. destruct (IsValidObject (Object tk)); simpl; [|done]. destruct (SplitObject (Object tk)) as [ty id].
    case_bool_decide; simpl; [done|]. by destruct (GetTypeDefinition t ty).
  - unfold ValidateRelation. destruct (IsValidRelation (Relation tk)); simpl; [|done].
    pose proof (GetRelation_np t (GetType (Object tk)) (Relation tk)). by destruct (Typesystem.GetRelation _ _ _) as [|[]|].
Qed.

Lemma validateTuplesetRestrictions_no_panic t tk : no_panic (validateTuplesetRestrictions t tk).
Proof.
  apply no_panic_bind; [|intros [|]; [|done]].
  - apply lift_ts_no_panic, no_panic_bind; [apply GetRelation_np|done].
  - simpl. apply no_panic_bind; [apply lift_ts_no_panic, GetRelation_np|]. intros rel.
    destruct (rel_Rewrite rel); try done; (destruct (IsWildcard _); [done|]); by destruct (IsValidObject _).
Qed.

Lemma validateTypeRestrictions_no_panic t tk : no_panic (validateTypeRestrictions t tk).
Proof.
  unfold validateTypeRestrictions. destruct (GetTypeDefinition _ _); [|done].
  destruct (IsObjectRelation _); [|destruct (IsTypedWildcard _)]; by destruct (existsb _ _).
Qed.

Lemma validateCondition_no_panic t tk : no_panic (validateCondition t tk).
Proof.
  apply no_panic_bind; [apply lift_ts_no_panic, no_panic_bind; [apply GetRelation_np|done]|]. intros refs.
  destruct (Condition tk) as [c|]; [|by destruct (existsb _ _)].
  destruct (GetCondition _ _) as [cnd|]; [|done]. destruct (negb _); [done|].
  unfold CastContextToTypedParameters. repeat (case_bool_decide || destruct (existsb _ _)); done.
Qed.

Lemma ValidateTupleForWrite_no_panic t tk : no_panic (ValidateTupleForWrite t tk).
Proof.
  apply no_panic_bind; [apply wrap_invalid_no_panic, ValidateUserObjectRelation_no_panic|]. intros _.
  apply no_panic_bind; [apply wrap_invalid_no_panic, validateTuplesetRestrictions_no_panic|]. intros _.
  apply no_panic_bind; [apply lift_ts_no_panic, no_panic_bind; [apply GetRelation_np|done]|]. intros [|]; [|done].
  apply no_panic_bind; [apply wrap_invalid_no_panic, validateTypeRestrictions_no_panic|]. intros _.
  apply validateCondition_no_panic.
Qed.

(** The strings of a tuple that passed [ValidateUserObjectRelation]. *)
Lemma ValidateUserObjectRelation_Ret t tk :
  ValidateUserObjectRelation t tk = Ret tt →
  complete_key (key_of tk) ∧ (SplitObject (Object tk)).2 ≠ Wildcard ∧
  ∃ rel, Typesystem.GetRelation t (GetType (Object tk)) (Relation tk) = Ret rel.
Proof.
  unfold ValidateUserObjectRelation.
  destruct (ValidateUser t (User tk)) as [[]| |] eqn:Hu; simpl; [|done..].
  destruct (ValidateObject t tk) as [[]| |] eqn:Ho; simpl; [|done..]. intros Hr.
  assert (IsValidUser (User tk) = true) as Hvu.
  { unfold ValidateUser in Hu. by destruct (IsValidUser (User tk)). }
  assert (User tk ≠ "") as Hune by (intros Heq; by rewrite Heq in Hvu).
  unfold ValidateObject in Ho. destruct (IsValidObject (Object tk)) eqn:Hvo; simpl in Ho; [|done].
  apply IsValidObject_spec in Hvo as (ty&id&Hobj&Hty&Hid).
  assert (has_byte ":" ty = false) as Hcolon by (eapply word_has_byte; [exact Hty|set_solver]).
  assert (SplitObject (Object tk) = (ty, id)) as Hsplit by (rewrite Hobj; by apply SplitObject_build).
  rewrite Hsplit in *.
  case_bool_decide as Hw; [done|]. unfold ValidateRelation in Hr.
  destruct (IsValidRelation (Relation tk)) eqn:Hvr; simpl in Hr; [|done].
  assert (Relation tk ≠ "") as Hrne by (intros Heq; by rewrite Heq in Hvr).
  split; [|split; [done|]].
  - destruct tk as [o r u c]; simpl in *. split; [|done]. exists ty, id. split_and!; [done..|apply Hid].
  - destruct (Typesystem.GetRelation _ _ _) as [rel|[]|]; try done. by exists rel.
Qed.

(** C33: a tuple that [ValidateTupleForWrite] accepts under a validated model is one the
    datastore can hold (object with a type and an id that is not a wildcard, relation and
    user not empty: the precondition of [Write]'s refinement), names a directly assignable
    relation, is allowed in its shape by one of the relation's type restrictions, names
    only a condition of the model, and if its relation is a tupleset its user is a plain
    object. *)
Theorem ValidateTupleForWrite_sound `{!MapRange, !ConditionCompiler} (m : AuthorizationModel) (t : TypeSystem) (tk : TupleKey) :
  NewAndValidate m = Ret t → ValidateTupleForWrite t tk = Ret tt →
  complete_key (key_of tk) ∧ (SplitObject (Object tk)).2 ≠ Wildcard ∧
  ∃ rel, Typesystem.GetRelation t (GetType (Object tk)) (Relation tk) = Ret rel ∧
    has_this (rel_Rewrite rel) = true ∧
    (∃ rr, rr ∈ rel_DirectlyRelatedUserTypes rel ∧ shape_allowed (User tk) rr) ∧
    (∀ c, Condition tk = Some c → is_Some (conditions t !! cond_Name c)) ∧
    (IsTuplesetRelation t (GetType (Object tk)) (Relation tk) = Ret true →
     IsValidObject (User tk) = true ∧ IsWildcard (User tk) = false).
Proof.
  intros Hm. apply NewAndValidate_valid in Hm as Hv. destruct Hv as [Hv _].
  assert (New m = Ret t) as HN.
  { unfold NewAndValidate in Hm. destruct (New m) as [t'| |]; simpl in Hm; [|done..].
    repeat case_match; try done. repeat case_outcome; by simplify_eq/=. }
  unfold ValidateTupleForWrite.
  destruct (ValidateUserObjectRelation t tk) as [[]| |] eqn:Huor; simpl; [|done..].
  apply ValidateUserObjectRelation_Ret in Huor as (Hck&Hw&rel&Hrel).
  unfold ValidateTupleForRead.
  destruct (validateTuplesetRestrictions t tk) as [[]| |] eqn:Hts; simpl; [|done..].
  unfold HasTypeInfo. rewrite Hrel. simpl. rewrite (mv_schema t Hv).
  destruct (validateTypeRestrictions t tk) as [[]| |] eqn:Htr; simpl; [|done..]. intros Hcond.
  split; [done|]. split; [done|]. exists rel.
  destruct (validateTypeRestrictions_Ret m t tk HN Htr rel Hrel) as (rr&Hin&Hshape).
  split_and!; [done| |by exists rr| |].
  - apply (mv_assignable t Hv _ _ _ Hrel). intros Hnil. rewrite Hnil in Hin. by apply not_elem_of_nil in Hin.
  - intros c Hc. by eapply validateCondition_Ret.
  - intros Hset. by apply (validateTuplesetRestrictions_Ret t).
Qed.
End spec.

(** ** Conditions that can be left out *)

Definition cond_ref (rr : RelationReference) : RelationReference := ConditionedRelationReference rr "c".

(** type group with member: [user]; type doc with viewer: [user:* with c] and
    editor: [group#member with c], when [plain] with the restrictions user and group in
    front. *)
Definition cond_model (plain : bool) : AuthorizationModel :=
  let with_plain ty refs := if plain then DirectRelationReference ty "" :: refs else refs in
  mkAuthorizationModel "model" "1.1"
    [mkTypeDefinition "user" ∅ ∅;
     mkTypeDefinition "group" {["member" := This]} {["member" := [DirectRelationReference "user" ""]]};
     mkTypeDefinition "doc" {["viewer" := This; "editor" := This]}
       {["viewer" := with_plain "user" [cond_ref (WildcardRelationReference "user")];
         "editor" := with_plain "group" [cond_ref (DirectRelationReference "group" "member")]]}]
    {["c" := mkModelCondition "c" "x" {["x" := "string"]}]}.

(** A required condition can be left out. When doc#viewer allows [user, user:* with c]
    the tuple doc:1#viewer@user:* without condition is accepted for writing, although only
    the conditioned wildcard is allowed: [validateCondition] takes the plain restriction
    for the wildcard's. The same holds for a userset next to a plain restriction of its
    type; without the plain restriction both are refused, as its comment says. *)
Theorem validateCondition_plain_restriction_hides_condition :
  let wildcard := NewTupleKey "doc:1" "viewer" "user:*" in
  let userset := NewTupleKey "doc:1" "editor" "group:1#member" in
  match validate (cond_model true), validate (cond_model false) with
  | Ret t, Ret t' =>
      @ValidateTupleForWrite demo_Graph demo_Cel t wildcard = Ret tt ∧
      @ValidateTupleForWrite demo_Graph demo_Cel t userset = Ret tt ∧
      @ValidateTupleForWrite demo_Graph demo_Cel t' wildcard =
        Throw (InvalidConditionalTupleError ConditionMissing wildcard) ∧
      @ValidateTupleForWrite demo_Graph demo_Cel t' userset =
        Throw (InvalidConditionalTupleError ConditionMissing userset)
  | _, _ => False
  end.
Proof. by vm_compute. Qed.

Lemma ValidateTupleForWrite_sound_witness :
  match validate (cond_model true) with
  | Ret t => complete_key (key_of (NewTupleKey "doc:1" "viewer" "user:a"))
             ∧ @ValidateTupleForWrite demo_Graph demo_Cel t (NewTupleKey "doc:1" "viewer" "user:a") = Ret tt
  | _ => False
  end.
Proof.
  destruct (validate (cond_model true)) as [t| |] eqn:E; [|by vm_compute in E..].
  assert (@ValidateTupleForWrite demo_Graph demo_Cel t (NewTupleKey "doc:1" "viewer" "user:a") = Ret tt) as Hv.
  { vm_compute in E. injection E as <-. vm_compute. reflexivity. }
  split; [|exact Hv].
  apply (@ValidateTupleForWrite_sound demo_Graph demo_Cel map_to_list_MapRange demo_Compiler (cond_model true) t
    (NewTupleKey "doc:1" "viewer" "user:a") E Hv).
Defined.
