(* ===== verification/Check.v ===== *)
(** * Check: [internal/graph/check.go], [resolve_check_request.go], [resolve_check_response.go]

    [LocalChecker] decides whether a user has a relation with an object: the set
    reducers, the dispatch of sub-problems, the handlers of every rewrite and the
    recursion [ResolveCheck] with its depth limit and its cycle detection.

    Concurrency.  A reducer's handlers and the dispatched sub-problems run in goroutines
    and their outcomes arrive in an unspecified order.  Here a handler is its outcome, and
    a [Scheduler] says in which order the outcomes of a node arrive; theorems hold for
    every scheduler.  Cancellation of the request's context, tracing and the dispatch
    counter (a metric) are left out.

    Dispatched sub-problems go to a delegate: the checker itself, as [NewLocalChecker] sets
    it, or the resolver with a cache of [CachedResolver.v].  Computed usersets are resolved
    by the checker itself whatever the delegate is.

    The fast-path resolvers and the predicates that select them are a parameter
    ([FastPaths]); [no_fast_paths] is the configuration in which none applies, as for a
    model without weighted graph. *)

From S2P Require Import Prelude GoStd Tuple Iterators Model Memory Typesystem Condition Validation.

Local Open Scope Z_scope.
Local Open Scope go_scope.

(** ** Requests, responses, errors *)

(** The parts of [ResolveCheckRequest] the local checker reads. *)
Record ResolveCheckRequest := mkResolveCheckRequest {
  rq_StoreID : string;
  rq_TupleKey : TupleKey;
  rq_Context : option Struct;
  rq_Depth : Z;
  rq_VisitedPaths : gset string;
}.

Record ResolveCheckResponse := mkResolveCheckResponse {
  Allowed : bool;
  CycleDetected : bool;
}.

Inductive CheckErr :=
| ErrResolutionDepthExceeded
| ErrRelationUndefinedForType (relation objectType : string)
| ErrPathExists (e : TsErr)
| ErrTypesystem (e : TsErr)
| ErrDatastore (e : StorageErr)
| ErrCheckIterator (e : IterErr)
| ErrUnknownSetOperator
| ErrExclusionOperands (n : nat)
| ErrJoin (a b : CheckErr)
| ErrPanic
| ErrCheckFuel.                      (* the model's recursion bound; not a Go error *)

(** [checkOutcome]: a response or an error. *)
Abbreviation checkOutcome := (outcome CheckErr ResolveCheckResponse).

(** [errors.Join(a, b)], nil arguments dropped. *)
Definition errors_Join (a b : option CheckErr) : option CheckErr :=
  match a, b with
  | None, _ => b
  | _, None => a
  | Some x, Some y => Some (ErrJoin x y)
  end.

(** ** Reducers, on outcomes in their order of arrival *)

Definition is_panic (o : checkOutcome) : bool := match o with Panic _ => true | _ => false end.

(** [drain]: a handler that panicked makes the reducer fail, whatever it had decided. *)
Definition recovered (results : list checkOutcome) (r : checkOutcome) : checkOutcome :=
  if existsb is_panic results then Throw ErrPanic else r.

Fixpoint union_loop (elErr : option CheckErr) (cycleDetected : bool) (results : list checkOutcome) : checkOutcome :=
  match results with
  | [] => match elErr with
          | Some e => Throw e
          | None => Ret (mkResolveCheckResponse false cycleDetected)
          end
  | Throw e :: rest => union_loop (Some e) cycleDetected rest
  | Panic _ :: rest => union_loop elErr cycleDetected rest
  | Ret resp :: rest =>
      if Allowed resp then Ret resp
      else union_loop elErr (cycleDetected || CycleDetected resp) rest
  end.

Definition union (arrived : list checkOutcome) : checkOutcome :=
  recovered arrived (union_loop None false arrived).

Fixpoint intersection_loop (elErr : option CheckErr) (results : list checkOutcome) : checkOutcome :=
  match results with
  | [] => match elErr with
          | Some e => Throw e
          | None => Ret (mkResolveCheckResponse true false)
          end
  | Throw e :: rest => intersection_loop (errors_Join elErr (Some e)) rest
  | Panic _ :: _ => Ret (mkResolveCheckResponse false false)
  | Ret resp :: rest =>
      if CycleDetected resp || negb (Allowed resp) then Ret resp
      else intersection_loop elErr rest
  end.

Definition intersection (arrived : list checkOutcome) : checkOutcome :=
  match arrived with
  | [] => Ret (mkResolveCheckResponse false false)
  | _ => recovered arrived (intersection_loop None arrived)
  end.

(** The results of an exclusion, tagged with the channel they came from. *)
Inductive ExclusionResult := BaseResult (o : checkOutcome) | SubResult (o : checkOutcome).

Fixpoint exclusion_loop (baseErr subErr : option CheckErr) (results : list ExclusionResult) : checkOutcome :=
  match results with
  | [] => match errors_Join baseErr subErr with
          | Some e => Throw e
          | None => Ret (mkResolveCheckResponse true false)
          end
  | BaseResult (Throw e) :: rest => exclusion_loop (Some e) subErr rest
  | SubResult (Throw e) :: rest => exclusion_loop baseErr (Some e) rest
  | BaseResult (Panic _) :: rest => exclusion_loop (Some ErrPanic) subErr rest
  | SubResult (Panic _) :: rest => exclusion_loop baseErr (Some ErrPanic) rest
  | BaseResult (Ret resp) :: rest =>
      if CycleDetected resp then Ret (mkResolveCheckResponse false true)
      else if negb (Allowed resp) then Ret (mkResolveCheckResponse false false)
      else exclusion_loop baseErr subErr rest
  | SubResult (Ret resp) :: rest =>
      if CycleDetected resp then Ret (mkResolveCheckResponse false true)
      else if Allowed resp then Ret (mkResolveCheckResponse false false)
      else exclusion_loop baseErr subErr rest
  end.

(** [exclusion]: [baseFirst] says whose result arrives first. *)
Definition exclusion (baseFirst : bool) (handlers : list checkOutcome) : checkOutcome :=
  match handlers with
  | [base; sub] =>
      exclusion_loop None None
        (if baseFirst then [BaseResult base; SubResult sub] else [SubResult sub; BaseResult base])
  | _ => Throw (ErrExclusionOperands (length handlers))
  end.

(** [consumeDispatches]: like a union, over the outcomes of the dispatched checks. *)
Fixpoint consume_loop (finalErr : option CheckErr) (cycleDetected : bool) (outcomes : list checkOutcome)
  : checkOutcome :=
  match outcomes with
  | [] => match finalErr with
          | Some e => Throw e
          | None => Ret (mkResolveCheckResponse false cycleDetected)
          end
  | Throw e :: rest => consume_loop (Some e) cycleDetected rest
  | Panic _ :: rest => consume_loop (Some ErrPanic) cycleDetected rest
  | Ret resp :: rest =>
      if Allowed resp then Ret resp
      else consume_loop finalErr (cycleDetected || CycleDetected resp) rest
  end.

Definition consumeDispatches (arrived : list checkOutcome) : checkOutcome := consume_loop None false arrived.

(** ** The interfaces of the checker *)

(** The order in which the outcomes of the handlers of a node arrive, and which operand
    of an exclusion is first. *)
Class Scheduler := {
  arrive : ResolveCheckRequest → Userset → list checkOutcome → list checkOutcome;
  arrive_perm req rw l : arrive req rw l ≡ₚ l;
  base_first : ResolveCheckRequest → Userset → bool;
}.

(** [storage.RelationshipTupleReader], the methods the checker calls. *)
Class RelationshipTupleReader := {
  reader_iter : Type;
  #[global] reader_Iterator :: Iterator reader_iter Tuple;
  rd_Read : string → TupleKey → outcome StorageErr reader_iter;
  rd_ReadUserTuple : string → TupleKey → outcome StorageErr Tuple;
  rd_ReadUsersetTuples : string → ReadUsersetTuplesFilter → outcome StorageErr reader_iter;
}.

(** The fast-path predicates of the type system and the resolvers they select; a resolver
    gets the request and the filtered iterator, here what it yields and how it ends. *)
Record FastPaths := mkFastPaths {
  UsersetCanFastPathWeight2 : string → string → string → list RelationReference → bool;
  RecursiveUsersetCanFastPathV2 : string → string → string → bool;
  TTUCanFastPathWeight2 : string → string → string → string → string → bool;
  RecursiveTTUCanFastPathV2 : string → string → string → string → string → bool;
  checkUsersetFastPathV2 : ResolveCheckRequest → list TupleKey * option IterErr → checkOutcome;
  recursiveUsersetFastPathV2 : ResolveCheckRequest → list TupleKey * option IterErr → checkOutcome;
  checkTTUFastPathV2 : ResolveCheckRequest → Userset → list TupleKey * option IterErr → checkOutcome;
  recursiveTTUFastPathV2 : ResolveCheckRequest → Userset → list TupleKey * option IterErr → checkOutcome;
}.

Definition no_fast_paths (fp : FastPaths) : Prop :=
  (∀ o r u l, UsersetCanFastPathWeight2 fp o r u l = false) ∧
  (∀ o r u, RecursiveUsersetCanFastPathV2 fp o r u = false) ∧
  (∀ o r u a b, TTUCanFastPathWeight2 fp o r u a b = false) ∧
  (∀ o r u a b, RecursiveTTUCanFastPathV2 fp o r u a b = false).

Section check.
Context `{!ModelGraph, !Cel, !Scheduler, !RelationshipTupleReader}.
Context (typesys : TypeSystem) (conds : gmap string EvaluableCondition) (fp : FastPaths).
Context (maxResolutionDepth : Z).

(** ** Reading tuples *)

(** The condition filter, its errors seen as iterator errors. *)
Definition condition_filter (reqCtx : option Struct) (tk : TupleKey) : outcome IterErr bool :=
  match (BuildTupleKeyConditionFilter reqCtx conds tk).1 with
  | Ret b => Ret b
  | Throw _ => Throw (ErrOther "condition")
  | Panic w => Panic w
  end.

(** Reading [iter] to its end through the validity and condition filters: the keys
    yielded, and the error that ended the iteration. *)
Definition read_filtered (reqCtx : option Struct) (iter : reader_iter) : list TupleKey * option IterErr :=
  drain_fuel (conditions_Next (condition_filter reqCtx) (S (remaining iter)) None) (S (remaining iter))
    (NewConditionsFiltered (NewFilteredTupleKeyIterator (NewTupleKeyIteratorFromTupleIterator iter)
       (FilterInvalidTuples typesys))).

(** ** Dispatches *)

(** [dispatchMsg]; [ProducerPanic] is not sent: it ends the stream of a producer whose
    iterator panicked. *)
Inductive dispatchMsg :=
| MsgErr (e : IterErr)
| MsgShortCircuit
| MsgDispatch (tk : TupleKey)
| ProducerPanic.

Definition is_producer_panic (m : dispatchMsg) : bool :=
  match m with ProducerPanic => true | _ => false end.

(** [produceUsersetDispatches] over what the iterator yields. *)
Fixpoint produceUsersetDispatches (reqTupleKey : TupleKey) (keys : list TupleKey) (final : option IterErr)
  : list dispatchMsg :=
  match keys with
  | [] => match final with
          | Some e => if IterIsDoneOrCancelled e then [] else [MsgErr e]
          | None => [ProducerPanic]
          end
  | t :: rest =>
      let '(usersetObject, usersetRelation) := SplitObjectRelation (User t) in
      if IsTypedWildcard usersetObject && IsSchemaVersionSupported (schemaVersion typesys)
         && (GetType (User reqTupleKey) =s GetType usersetObject)
      then [MsgShortCircuit]
      else
        let more := produceUsersetDispatches reqTupleKey rest final in
        if negb (usersetRelation =s "")
        then MsgDispatch (NewTupleKey usersetObject usersetRelation (User reqTupleKey)) :: more
        else more
  end.

(** [produceTTUDispatches]. *)
Fixpoint produceTTUDispatches (computedRelation : string) (reqTupleKey : TupleKey) (keys : list TupleKey)
    (final : option IterErr) : list dispatchMsg :=
  match keys with
  | [] => match final with
          | Some e => if IterIsDoneOrCancelled e then [] else [MsgErr e]
          | None => [ProducerPanic]
          end
  | t :: rest =>
      let '(userObj, _) := SplitObjectRelation (User t) in
      let more := produceTTUDispatches computedRelation reqTupleKey rest final in
      match Typesystem.GetRelation typesys (GetType userObj) computedRelation with
      | Throw (RelationUndefinedError _ _) => more
      | _ => MsgDispatch (mkTupleKey userObj computedRelation (User reqTupleKey) None) :: more
      end
  end.

Section handlers.
(** [c.ResolveCheck], for computed usersets, and [c.delegate.ResolveCheck], for what is
    dispatched. *)
Context (self resolve : ResolveCheckRequest → checkOutcome).

(** [dispatch]: one level deeper, with a copy of the visited paths; the depth is a uint32. *)
Definition dispatch (parentReq : ResolveCheckRequest) (tk : TupleKey) : checkOutcome :=
  resolve (mkResolveCheckRequest (rq_StoreID parentReq) tk (rq_Context parentReq)
             ((rq_Depth parentReq + 1) mod 2^32) (rq_VisitedPaths parentReq)).

(** [processDispatches]: the outcome of each message, up to a short circuit. *)
Fixpoint processDispatches (req : ResolveCheckRequest) (msgs : list dispatchMsg) : list checkOutcome :=
  match msgs with
  | [] => []
  | ProducerPanic :: _ => []
  | MsgErr e :: rest => Throw (ErrCheckIterator e) :: processDispatches req rest
  | MsgShortCircuit :: _ => [Ret (mkResolveCheckResponse true false)]
  | MsgDispatch tk :: rest => dispatch req tk :: processDispatches req rest
  end.

(** The userset producer recovers from a panic and makes the check fail with it; the one
    of a tuple-to-userset does not, and the panic reaches the handler. *)
Definition checkUsersetSlowPath (req : ResolveCheckRequest) (read : list TupleKey * option IterErr) : checkOutcome :=
  let msgs := produceUsersetDispatches (rq_TupleKey req) read.1 read.2 in
  let resp := consumeDispatches (arrive req Userset_This (processDispatches req msgs)) in
  if existsb is_producer_panic msgs then Throw ErrPanic else resp.

Definition checkTTUSlowPath (req : ResolveCheckRequest) (rewrite : Userset) (computedRelation : string)
    (read : list TupleKey * option IterErr) : checkOutcome :=
  let msgs := produceTTUDispatches computedRelation (rq_TupleKey req) read.1 read.2 in
  let resp := consumeDispatches (arrive req rewrite (processDispatches req msgs)) in
  if existsb is_producer_panic msgs then Panic "tuple-to-userset producer" else resp.

(** ** Direct relationships *)

Definition checkPublicAssignable (req : ResolveCheckRequest) : checkOutcome :=
  let reqTupleKey := rq_TupleKey req in
  let wildcardRelationReference := WildcardRelationReference (GetType (User reqTupleKey)) in
  match rd_ReadUsersetTuples (rq_StoreID req)
          (mkReadUsersetTuplesFilter (Object reqTupleKey) (Relation reqTupleKey) [wildcardRelationReference]) with
  | Throw e => Throw (ErrDatastore e)
  | Panic w => Panic w
  | Ret iter =>
      match read_filtered (rq_Context req) iter with
      | (_ :: _, _) => Ret (mkResolveCheckResponse true false)
      | ([], Some ErrIteratorDone) => Ret (mkResolveCheckResponse false false)
      | ([], Some e) => Throw (ErrCheckIterator e)
      | ([], None) => Panic "iterator"
      end
  end.

Definition checkDirectUserTuple (req : ResolveCheckRequest) : checkOutcome :=
  match rd_ReadUserTuple (rq_StoreID req) (rq_TupleKey req) with
  | Throw ErrNotFound => Ret (mkResolveCheckResponse false false)
  | Throw e => Throw (ErrDatastore e)
  | Panic w => Panic w
  | Ret t =>
      if negb (FilterInvalidTuples typesys (Key t)) then Ret (mkResolveCheckResponse false false)
      else match condition_filter (rq_Context req) (Key t) with
           | Ret conditionMet => Ret (mkResolveCheckResponse conditionMet false)
           | Throw e => Throw (ErrCheckIterator e)
           | Panic w => Panic w
           end
  end.

(** An ignored error leaves the zero value. *)
Definition or_false (r : outcome TsErr bool) : bool := match r with Ret b => b | _ => false end.

Definition shouldCheckDirectTuple (reqTupleKey : TupleKey) : bool :=
  or_false (IsDirectlyRelated typesys
    (DirectRelationReference (GetType (Object reqTupleKey)) (Relation reqTupleKey))
    (DirectRelationReference (GetType (User reqTupleKey)) (Tuple.GetRelation (User reqTupleKey)))).

Definition shouldCheckPublicAssignable (reqTupleKey : TupleKey) : bool :=
  if IsObjectRelation (User reqTupleKey) then false
  else or_false (IsPubliclyAssignable typesys
         (DirectRelationReference (GetType (Object reqTupleKey)) (Relation reqTupleKey))
         (GetType (User reqTupleKey))).

Definition checkDirectUsersetTuples (req : ResolveCheckRequest) (usersetTypes : list RelationReference) : checkOutcome :=
  let reqTupleKey := rq_TupleKey req in
  let objectType := GetType (Object reqTupleKey) in
  let relation := Relation reqTupleKey in
  let userType := GetType (User reqTupleKey) in
  let resolver :=
    if negb (IsObjectRelation (User reqTupleKey)) then
      if UsersetCanFastPathWeight2 fp objectType relation userType usersetTypes
      then checkUsersetFastPathV2 fp req
      else if RecursiveUsersetCanFastPathV2 fp objectType relation userType
      then recursiveUsersetFastPathV2 fp req
      else checkUsersetSlowPath req
    else checkUsersetSlowPath req in
  match rd_ReadUsersetTuples (rq_StoreID req)
          (mkReadUsersetTuplesFilter (Object reqTupleKey) relation usersetTypes) with
  | Throw e => Throw (ErrDatastore e)
  | Panic w => Panic w
  | Ret iter => resolver (read_filtered (rq_Context req) iter)
  end.

Definition checkDirect (req : ResolveCheckRequest) : checkOutcome :=
  let reqTupleKey := rq_TupleKey req in
  let usersetTypes := match DirectlyRelatedUsersets typesys (GetType (Object reqTupleKey)) (Relation reqTupleKey) with
                      | Ret l => l
                      | _ => []
                      end in
  let checkFuncs :=
    (if shouldCheckDirectTuple reqTupleKey then [checkDirectUserTuple req] else [])
    ++ (if shouldCheckPublicAssignable reqTupleKey then [checkPublicAssignable req] else [])
    ++ (if bool_decide (usersetTypes = []) then [] else [checkDirectUsersetTuples req usersetTypes]) in
  union (arrive req Userset_This checkFuncs).

(** ** Rewrites *)

(** [checkComputedUserset]: no dispatch, so the depth stays and the checker itself answers. *)
Definition checkComputedUserset (req : ResolveCheckRequest) (relation : string) : checkOutcome :=
  self (mkResolveCheckRequest (rq_StoreID req)
             (NewTupleKey (Object (rq_TupleKey req)) relation (User (rq_TupleKey req)))
             (rq_Context req) (rq_Depth req) (rq_VisitedPaths req)).

Definition checkTTU (req : ResolveCheckRequest) (tuplesetRelation computedRelation : string) : checkOutcome :=
  let tk := rq_TupleKey req in
  let rewrite := Userset_TupleToUserset tuplesetRelation computedRelation in
  let objectType := GetType (Object tk) in
  let userType := GetType (User tk) in
  match rd_Read (rq_StoreID req) (NewTupleKey (Object tk) tuplesetRelation "") with
  | Throw e => Throw (ErrDatastore e)
  | Panic w => Panic w
  | Ret iter =>
      let read := read_filtered (rq_Context req) iter in
      if negb (IsObjectRelation (User tk)) then
        if TTUCanFastPathWeight2 fp objectType (Relation tk) userType tuplesetRelation computedRelation
        then checkTTUFastPathV2 fp req rewrite read
        else if RecursiveTTUCanFastPathV2 fp objectType (Relation tk) userType tuplesetRelation computedRelation
        then recursiveTTUFastPathV2 fp req rewrite read
        else checkTTUSlowPath req rewrite computedRelation read
      else checkTTUSlowPath req rewrite computedRelation read
  end.

(** [CheckRewrite], with the cases of [checkSetOperation]. *)
Fixpoint CheckRewrite (req : ResolveCheckRequest) (rewrite : Userset) : checkOutcome :=
  match rewrite with
  | Userset_This => checkDirect req
  | Userset_ComputedUserset _ relation => checkComputedUserset req relation
  | Userset_TupleToUserset tupleset computed => checkTTU req tupleset computed
  | Userset_Union child => union (arrive req rewrite (CheckRewrite req <$> child))
  | Userset_Intersection child => intersection (arrive req rewrite (CheckRewrite req <$> child))
  | Userset_Difference base subtract =>
      exclusion (base_first req rewrite) [CheckRewrite req base; CheckRewrite req subtract]
  | Userset_nil => Throw ErrUnknownSetOperator
  end.
End handlers.

(** [hasCycle]: it also records the request among the visited paths. *)
Definition hasCycle (req : ResolveCheckRequest) : bool * ResolveCheckRequest :=
  let key := TupleKeyToString (rq_TupleKey req) in
  if bool_decide (key ∈ rq_VisitedPaths req) then (true, req)
  else (false, mkResolveCheckRequest (rq_StoreID req) (rq_TupleKey req) (rq_Context req) (rq_Depth req)
                 ({[key]} ∪ rq_VisitedPaths req)).

(** [LocalChecker.ResolveCheck], computed usersets going to [self] and dispatches to
    [delegate]. *)
Definition LocalChecker_ResolveCheck (self delegate : ResolveCheckRequest → checkOutcome) (req : ResolveCheckRequest) : checkOutcome :=
  if bool_decide (rq_Depth req = maxResolutionDepth) then Throw ErrResolutionDepthExceeded
  else
    let '(cycle, req) := hasCycle req in
    if cycle then Ret (mkResolveCheckResponse false true)
    else
      let tupleKey := rq_TupleKey req in
      let relation := Relation tupleKey in
      if IsSelfDefining tupleKey then Ret (mkResolveCheckResponse true false)
      else
        let objectType := (SplitObject (Object tupleKey)).1 in
        match Typesystem.GetRelation typesys objectType relation with
        | Ret rel =>
            match PathExists typesys (User tupleKey) relation objectType with
            | Throw e => Throw (ErrPathExists e)
            | Panic w => Panic w
            | Ret false => Ret (mkResolveCheckResponse false false)
            | Ret true => CheckRewrite self delegate req (rel_Rewrite rel)
            end
        | _ => Throw (ErrRelationUndefinedForType relation objectType)
        end.

(** The checker as its own delegate. *)
Fixpoint ResolveCheck (fuel : nat) (req : ResolveCheckRequest) : checkOutcome :=
  match fuel with
  | O => Throw ErrCheckFuel
  | S fuel => LocalChecker_ResolveCheck (ResolveCheck fuel) (ResolveCheck fuel) req
  end.

(** The request of a check that starts: [NewResolveCheckRequest]'s, as far as the checker
    reads it. *)
Definition initial_request (storeID : string) (tk : TupleKey) (context : option Struct) : ResolveCheckRequest :=
  mkResolveCheckRequest storeID tk context 0 ∅.
End check.
