(* ===== verification/CheckSpec.v ===== *)
(** * The reducers and the recursion of Check

    What the reducers of [Check.v] decide, whatever the order in which outcomes arrive, and
    that the recursion of [ResolveCheck] ends. *)

From S2P Require Import Prelude GoStd Tuple Iterators Model Memory MemorySpec Typesystem Entrypoints TypesystemSpec.
From S2P Require Import Condition Validation Check.

Local Open Scope Z_scope.
Local Open Scope go_scope.

(** ** Reducers *)

Definition allowed_outcome (o : checkOutcome) : Prop := ∃ r, o = Ret r ∧ Allowed r = true.
Definition denied_outcome (o : checkOutcome) : Prop := ∃ r, o = Ret r ∧ Allowed r = false.
Definition failed_outcome (o : checkOutcome) : Prop := ∃ e, o = Throw e.

Lemma union_loop_spec elErr cyc l :
  existsb is_panic l = false →
  match union_loop elErr cyc l with
  | Ret r => (Allowed r = true ∧ Ret r ∈ l) ∨
             (Allowed r = false ∧ elErr = None ∧ (∀ o, o ∈ l → denied_outcome o) ∧
              (CycleDetected r = true ↔ cyc = true ∨ ∃ r', Ret r' ∈ l ∧ CycleDetected r' = true))
  | Throw e => (elErr = Some e ∨ Throw e ∈ l) ∧ (∀ o, o ∈ l → ¬ allowed_outcome o)
  | Panic _ => False
  end.
Proof.
  revert elErr cyc. induction l as [|o l IH]; intros elErr cyc; simpl.
  { intros _. destruct elErr as [e|]; simpl; [set_solver|]. right. split_and!; [done|done|set_solver|].
    simpl. split; [by left|]. intros [?|(r&Hr&_)]; [done|]. by apply not_elem_of_nil in Hr. }
  destruct o as [r|e|w]; simpl; [| |done].
  - intros Hp. destruct (Allowed r) eqn:Ha; [left; split; [done|apply list_elem_of_here]|].
    specialize (IH elErr (cyc || CycleDetected r) Hp). destruct (union_loop _ _ l) as [r'|e|w]; [| |done].
    + destruct IH as [[??]|(Ha'&He&Hall&Hcyc)]; [left; split; [done|by apply list_elem_of_further]|right].
      split_and!; [done|done| |].
      * intros o [->|Ho]%elem_of_cons; [by exists r|by apply Hall].
      * rewrite Hcyc, orb_true_iff. setoid_rewrite elem_of_cons. naive_solver.
    + destruct IH as [He Hall]. split; [set_solver|].
      intros o [->|Ho]%elem_of_cons; [|by apply Hall]. intros (r'&[= <-]&?). congruence.
  - intros Hp. specialize (IH (Some e) cyc Hp). destruct (union_loop _ _ l) as [r'|e'|w]; [| |done].
    + destruct IH as [[??]|(Ha'&He&_)]; [left; split; [done|by apply list_elem_of_further]|done].
    + destruct IH as [He Hall]. split; [right; destruct He as [[= ->]|He]; set_solver|].
      intros o [->|Ho]%elem_of_cons; [|by apply Hall]. by intros (r'&?&_).
Qed.

Lemma consume_loop_union finalErr cyc l :
  existsb is_panic l = false → consume_loop finalErr cyc l = union_loop finalErr cyc l.
Proof.
  revert finalErr cyc. induction l as [|[r|e|w] l IH]; intros finalErr cyc; simpl; [done| | |done].
  - intros ?. destruct (Allowed r); [done|by apply IH].
  - by apply IH.
Qed.

Lemma existsb_perm {A} (f : A → bool) (l k : list A) : l ≡ₚ k → existsb f l = existsb f k.
Proof.
  induction 1 as [|x l k _ IH|x y l|l k m _ IH1 _ IH2]; simpl; [done|by rewrite IH| |congruence].
  by rewrite !orb_assoc, (orb_comm (f x)).
Qed.

(** Whether a result grants, denies or fails. *)
Definition decision (o : checkOutcome) : option bool :=
  match o with Ret r => Some (Allowed r) | _ => None end.

Lemma union_decision l :
  existsb is_panic l = false →
  match decision (union l) with
  | Some true => ∃ o, o ∈ l ∧ allowed_outcome o
  | Some false => ∀ o, o ∈ l → denied_outcome o
  | None => (∃ o, o ∈ l ∧ failed_outcome o) ∧ ∀ o, o ∈ l → ¬ allowed_outcome o
  end.
Proof.
  intros Hp. unfold union, recovered. rewrite Hp.
  pose proof (union_loop_spec None false l Hp) as Hs. destruct (union_loop None false l) as [r|e|w]; simpl; [| |done].
  - destruct (Allowed r) eqn:Ha.
    + destruct Hs as [[_ ?]|[??]]; [|congruence]. exists (Ret r). split; [done|]. by exists r.
    + destruct Hs as [[??]|(_&_&?&_)]; [congruence|done].
  - destruct Hs as [[?|?] ?]; [done|]. split; [|done]. exists (Throw e). split; [done|]. by exists e.
Qed.

Lemma intersection_loop_spec elErr l :
  existsb is_panic l = false →
  match intersection_loop elErr l with
  | Ret r => (Ret r ∈ l ∧ CycleDetected r || negb (Allowed r) = true) ∨
             (r = mkResolveCheckResponse true false ∧ elErr = None ∧
              ∀ o, o ∈ l → ∃ r', o = Ret r' ∧ Allowed r' = true ∧ CycleDetected r' = false)
  | Throw _ => (elErr ≠ None ∨ ∃ o, o ∈ l ∧ failed_outcome o) ∧
               ∀ r, Ret r ∈ l → Allowed r = true ∧ CycleDetected r = false
  | Panic _ => False
  end.
Proof.
  revert elErr. induction l as [|o l IH]; intros elErr; simpl.
  { intros _. destruct elErr as [e|]; simpl; [|right; set_solver]. split; [by left|].
    by intros r ?%not_elem_of_nil. }
  destruct o as [r|e|w]; simpl; [| |done]; intros Hp.
  - destruct (CycleDetected r || negb (Allowed r)) eqn:Hr; [left; split; [apply list_elem_of_here|done]|].
    apply orb_false_iff in Hr as [Hc Ha%negb_false_iff].
    specialize (IH elErr Hp). destruct (intersection_loop elErr l) as [r'|e|w]; [| |done].
    + destruct IH as [[??]|(->&->&Hall)]; [left; split; [by apply list_elem_of_further|done]|right].
      split_and!; [done..|]. intros o [->|Ho]%elem_of_cons; [by exists r|by apply Hall].
    + destruct IH as [He Hall]. split; [set_solver|]. intros r' [[= ->]|Hr']%elem_of_cons; [done|by apply Hall].
  - specialize (IH (errors_Join elErr (Some e)) Hp).
    assert (errors_Join elErr (Some e) ≠ None) as Hne by by destruct elErr.
    destruct (intersection_loop _ l) as [r'|e'|w]; [| |done].
    + destruct IH as [[??]|(_&?&_)]; [left; split; [by apply list_elem_of_further|done]|done].
    + destruct IH as [_ Hall]. split.
      * right. exists (Throw e). split; [apply list_elem_of_here|by exists e].
      * intros r [?|Hr]%elem_of_cons; [done|by apply Hall].
Qed.

(** A response is well formed when an allowed one reports no cycle. *)
Definition wf_outcome (o : checkOutcome) : Prop := ∀ r, o = Ret r → Allowed r = true → CycleDetected r = false.

Lemma intersection_decision l :
  existsb is_panic l = false → l ≠ [] → (∀ o, o ∈ l → wf_outcome o) →
  match decision (intersection l) with
  | Some true => ∀ o, o ∈ l → allowed_outcome o
  | Some false => ∃ o, o ∈ l ∧ denied_outcome o
  | None => (∃ o, o ∈ l ∧ failed_outcome o) ∧ ∀ o, o ∈ l → ¬ denied_outcome o
  end.
Proof.
  intros Hp Hne Hwf. unfold intersection, recovered. destruct l as [|o0 l0]; [done|].
  set (l := o0 :: l0) in *. rewrite Hp.
  pose proof (intersection_loop_spec None l Hp) as Hs.
  destruct (intersection_loop None l) as [r|e|w]; simpl; [| |done].
  - destruct Hs as [[Hin Hr]|(->&_&Hall)]; simpl.
    + destruct (Allowed r) eqn:Ha.
      * rewrite (Hwf _ Hin r eq_refl Ha) in Hr. done.
      * exists (Ret r). split; [done|]. by exists r.
    + intros o Ho. destruct (Hall _ Ho) as (r'&->&?&_). by exists r'.
  - destruct Hs as [[?|?] Hall]; [done|]. split; [done|]. intros o Ho (r&->&Hr).
    destruct (Hall _ Ho). congruence.
Qed.

(** What the union and intersection reducers decide does not depend on the order in
    which the outcomes arrive: a union grants when some handler does (even if others
    fail), fails when none grants and one fails, and denies otherwise; an intersection
    denies when some handler does (even if others fail), fails when none denies and one
    fails, and grants otherwise. *)
Theorem reducers_order_independent (l l' : list checkOutcome) :
  l ≡ₚ l' → existsb is_panic l = false → (∀ o, o ∈ l → wf_outcome o) →
  decision (union l) = decision (union l') ∧ decision (intersection l) = decision (intersection l').
Proof.
  intros Hp Hpanic Hwf.
  assert (existsb is_panic l' = false) as Hpanic' by by rewrite <-(existsb_perm _ _ _ Hp).
  assert (∀ o, o ∈ l' → wf_outcome o) as Hwf' by (intros o; rewrite <-Hp; apply Hwf).
  assert (∀ o, o ∈ l' ↔ o ∈ l) as Hin by (intros o; by rewrite Hp).
  split.
  - pose proof (union_decision l Hpanic) as H1. pose proof (union_decision l' Hpanic') as H2.
    destruct (decision (union l)) as [[]|], (decision (union l')) as [[]|]; try done; exfalso.
    + destruct H1 as (o&Ho%Hin&r&->&?). destruct (H2 _ Ho) as (r'&[= <-]&?). congruence.
    + destruct H1 as (o&Ho%Hin&?). by apply (proj2 H2 o).
    + destruct H2 as (o&Ho%Hin&r&->&?). destruct (H1 _ Ho) as (r'&[= <-]&?). congruence.
    + destruct H2 as [(o&Ho%Hin&e&->) _]. by destruct (H1 _ Ho) as (r'&?&?).
    + destruct H2 as (o&Ho%Hin&?). by apply (proj2 H1 o).
    + destruct H1 as [(o&Ho%Hin&e&->) _]. by destruct (H2 _ Ho) as (r'&?&?).
  - destruct l as [|o0 l0].
    { apply Permutation_nil_l in Hp. by subst. }
    assert (l' ≠ []) as Hne' by (intros ->; by apply Permutation_nil_r in Hp).
    pose proof (intersection_decision _ Hpanic ltac:(done) Hwf) as H1.
    pose proof (intersection_decision l' Hpanic' Hne' Hwf') as H2.
    destruct (decision (intersection (o0 :: l0))) as [[]|], (decision (intersection l')) as [[]|]; try done; exfalso.
    + destruct H2 as (o&Ho%Hin&r&->&?). destruct (H1 _ Ho) as (r'&[= <-]&?). congruence.
    + destruct H2 as [(o&Ho%Hin&e&->) _]. by destruct (H1 _ Ho) as (r'&?&?).
    + destruct H1 as (o&Ho%Hin&r&->&?). destruct (H2 _ Ho) as (r'&[= <-]&?). congruence.
    + destruct H1 as (o&Ho%Hin&?). by apply (proj2 H2 o).
    + destruct H1 as [(o&Ho%Hin&e&->) _]. by destruct (H2 _ Ho) as (r'&?&?).
    + destruct H2 as (o&Ho%Hin&?). by apply (proj2 H1 o).
Qed.

Lemma reducers_order_independent_witness :
  decision (union [Throw ErrPanic; Ret (mkResolveCheckResponse true false)]) =
  decision (union [Ret (mkResolveCheckResponse true false); Throw ErrPanic]).
Proof.
  apply (reducers_order_independent [Throw ErrPanic; Ret (mkResolveCheckResponse true false)]).
  - apply Permutation_swap.
  - done.
  - intros o [->|[->|[]%not_elem_of_nil]%elem_of_cons]%elem_of_cons r; [done|]. by intros [= <-].
Defined.

(** An exclusion grants only when its base granted and its subtracted operand denied,
    both without error and without a cycle, whichever arrives first: an error or a cycle
    on either side never grants. *)
Theorem exclusion_grants (baseFirst : bool) (base sub : checkOutcome) :
  decision (exclusion baseFirst [base; sub]) = Some true ↔
  base = Ret (mkResolveCheckResponse true false) ∧ sub = Ret (mkResolveCheckResponse false false).
Proof.
  destruct baseFirst, base as [[[] []]|eb|wb], sub as [[[] []]|es|ws]; simpl; naive_solver.
Qed.

(** Reducers recover from panics. *)
Lemma union_no_panic l w : union l ≠ Panic w.
Proof.
  unfold union, recovered. destruct (existsb is_panic l) eqn:Hp; [done|]. intros Heq.
  pose proof (union_loop_spec None false l Hp) as Hs. by rewrite Heq in Hs.
Qed.

Lemma intersection_no_panic l w : intersection l ≠ Panic w.
Proof.
  unfold intersection, recovered. destruct l as [|o l]; [done|].
  destruct (existsb is_panic (o :: l)) eqn:Hp; [done|]. intros Heq.
  pose proof (intersection_loop_spec None (o :: l) Hp) as Hs. by rewrite Heq in Hs.
Qed.

Lemma consume_loop_no_panic e cyc l w : consume_loop e cyc l ≠ Panic w.
Proof.
  revert e cyc. induction l as [|[r|e'|w'] l IH]; intros e cyc; simpl; [by destruct e| |apply IH..].
  destruct (Allowed r); [done|apply IH].
Qed.

(** ** Termination *)

(** The error does not come from the model's recursion bound. *)
Fixpoint fuel_free (e : CheckErr) : Prop :=
  match e with
  | ErrCheckFuel => False
  | ErrJoin a b => fuel_free a ∧ fuel_free b
  | _ => True
  end.

Definition concluded (o : checkOutcome) : Prop := ∀ e, o = Throw e → fuel_free e.

(** The fast-path resolvers that are selected return errors of the program. *)
Definition fast_paths_conclude (fp : FastPaths) : Prop :=
  (∀ o r u refs, UsersetCanFastPathWeight2 fp o r u refs = true → ∀ req l, concluded (checkUsersetFastPathV2 fp req l)) ∧
  (∀ o r u, RecursiveUsersetCanFastPathV2 fp o r u = true → ∀ req l, concluded (recursiveUsersetFastPathV2 fp req l)) ∧
  (∀ o r u ts c, TTUCanFastPathWeight2 fp o r u ts c = true → ∀ req rw l, concluded (checkTTUFastPathV2 fp req rw l)) ∧
  (∀ o r u ts c, RecursiveTTUCanFastPathV2 fp o r u ts c = true → ∀ req rw l, concluded (recursiveTTUFastPathV2 fp req rw l)).

Lemma no_fast_paths_conclude fp : no_fast_paths fp → fast_paths_conclude fp.
Proof.
  intros (H1&H2&H3&H4). repeat split; intros; exfalso; [by rewrite H1 in *|by rewrite H2 in *|by rewrite H3 in *|by rewrite H4 in *].
Qed.

Lemma concluded_ret r : concluded (Ret r).
Proof. by intros e. Qed.
Lemma concluded_panic w : concluded (Panic w).
Proof. by intros e. Qed.
Lemma concluded_throw e : concluded (Throw e) ↔ fuel_free e.
Proof. split; [intros H; by apply H|by intros ? e' [= <-]]. Qed.

Create HintDb check.
#[export] Hint Resolve concluded_ret concluded_panic : check.

Definition fuel_free_opt (o : option CheckErr) : Prop := match o with Some e => fuel_free e | None => True end.

Lemma union_loop_concluded elErr cyc l :
  fuel_free_opt elErr → Forall concluded l → concluded (union_loop elErr cyc l).
Proof.
  intros He Hl. revert elErr cyc He. induction Hl as [|o l Ho _ IH]; intros elErr cyc He; simpl.
  { destruct elErr as [e|]; [by apply concluded_throw|auto with check]. }
  destruct o as [r|e|w]; [|by apply IH, concluded_throw|by apply IH].
  destruct (Allowed r); [auto with check|by apply IH].
Qed.

Lemma consume_loop_concluded finalErr cyc l :
  fuel_free_opt finalErr → Forall concluded l → concluded (consume_loop finalErr cyc l).
Proof.
  intros He Hl. revert finalErr cyc He. induction Hl as [|o l Ho _ IH]; intros finalErr cyc He; simpl.
  { destruct finalErr as [e|]; [by apply concluded_throw|auto with check]. }
  destruct o as [r|e|w]; [|by apply IH, concluded_throw|by apply IH].
  destruct (Allowed r); [auto with check|by apply IH].
Qed.

Lemma intersection_loop_concluded elErr l :
  fuel_free_opt elErr → Forall concluded l → concluded (intersection_loop elErr l).
Proof.
  intros He Hl. revert elErr He. induction Hl as [|o l Ho _ IH]; intros elErr He; simpl.
  { destruct elErr as [e|]; [by apply concluded_throw|auto with check]. }
  destruct o as [r|e|w]; [| |auto with check].
  - destruct (CycleDetected r || negb (Allowed r)); [auto with check|by apply IH].
  - apply IH. apply concluded_throw in Ho. by destruct elErr.
Qed.

Lemma recovered_concluded l o : concluded o → concluded (recovered l o).
Proof. intros Ho. unfold recovered. destruct (existsb is_panic l); [by apply concluded_throw|done]. Qed.

Lemma union_concluded l : Forall concluded l → concluded (union l).
Proof. intros Hl. by apply recovered_concluded, union_loop_concluded. Qed.

Lemma intersection_concluded l : Forall concluded l → concluded (intersection l).
Proof.
  intros Hl. unfold intersection. destruct l as [|o l]; [apply concluded_ret|]. by apply recovered_concluded, intersection_loop_concluded.
Qed.

Lemma exclusion_concluded bf base sub : concluded base → concluded sub → concluded (exclusion bf [base; sub]).
Proof.
  unfold concluded. intros Hb Hs.
  destruct bf, base as [[[] []]|eb|wb], sub as [[[] []]|es|ws]; simpl; naive_solver.
Qed.

#[export] Hint Resolve union_concluded intersection_concluded exclusion_concluded : check.

Section termination.
Context `{!ModelGraph, !Cel, !Scheduler, !RelationshipTupleReader}.
Context (typesys : TypeSystem) (conds : gmap string EvaluableCondition) (fp : FastPaths).
Context (maxResolutionDepth : Z).

(** The requests that evaluating a rewrite for [req] resolves. *)
Inductive child_of (req : ResolveCheckRequest) : ResolveCheckRequest → Prop :=
| child_computed relation :
    child_of req (mkResolveCheckRequest (rq_StoreID req)
      (NewTupleKey (Object (rq_TupleKey req)) relation (User (rq_TupleKey req)))
      (rq_Context req) (rq_Depth req) (rq_VisitedPaths req))
| child_dispatch tk :
    User tk = User (rq_TupleKey req) →
    child_of req (mkResolveCheckRequest (rq_StoreID req) tk (rq_Context req)
      ((rq_Depth req + 1) mod 2^32) (rq_VisitedPaths req)).

Lemma arrive_Forall (P : checkOutcome → Prop) req rw l : Forall P l → Forall P (arrive req rw l).
Proof. intros Hl. by rewrite arrive_perm. Qed.

Section rewrite.
Context (self resolve : ResolveCheckRequest → checkOutcome) (req : ResolveCheckRequest).
Hypothesis Hself : ∀ req', child_of req req' → concluded (self req').
Hypothesis Hres : ∀ req', child_of req req' → concluded (resolve req').
Hypothesis Hfp : fast_paths_conclude fp.

(** The messages of a producer check for the user of the request. *)
Definition msg_ok (m : dispatchMsg) : Prop :=
  match m with MsgDispatch tk => User tk = User (rq_TupleKey req) | _ => True end.

Lemma final_ok (final : option IterErr) :
  Forall msg_ok (match final with
                 | Some e => if IterIsDoneOrCancelled e then [] else [MsgErr e]
                 | None => [ProducerPanic]
                 end).
Proof. destruct final as [e|]; [destruct (IterIsDoneOrCancelled e)|]; repeat constructor. Qed.

Lemma produceUsersetDispatches_ok keys final :
  Forall msg_ok (produceUsersetDispatches typesys (rq_TupleKey req) keys final).
Proof.
  induction keys as [|t keys IH]; simpl; [apply final_ok|].
  destruct (SplitObjectRelation (User t)) as [o r].
  destruct (IsTypedWildcard o && _ && _); [by repeat constructor|].
  destruct (negb (r =s "")); [by constructor|done].
Qed.

Lemma produceTTUDispatches_ok c keys final :
  Forall msg_ok (produceTTUDispatches typesys c (rq_TupleKey req) keys final).
Proof.
  induction keys as [|t keys IH]; simpl; [apply final_ok|].
  destruct (SplitObjectRelation (User t)) as [o r].
  destruct (GetRelation typesys (GetType o) c) as [?|[]|?]; try done; by constructor.
Qed.

Lemma processDispatches_concluded msgs :
  Forall msg_ok msgs → Forall concluded (processDispatches resolve req msgs).
Proof.
  induction 1 as [|[e| |tk|] msgs Hm Hmsgs IH]; simpl; [done|..].
  - constructor; [by apply concluded_throw|done].
  - constructor; [auto with check|done].
  - constructor; [|done]. by apply Hres, child_dispatch.
  - done.
Qed.

Lemma checkUsersetSlowPath_concluded read : concluded (checkUsersetSlowPath typesys resolve req read).
Proof.
  unfold checkUsersetSlowPath. destruct (existsb _ _); [by apply concluded_throw|].
  by apply consume_loop_concluded, arrive_Forall, processDispatches_concluded, produceUsersetDispatches_ok.
Qed.

Lemma checkTTUSlowPath_concluded rw c read : concluded (checkTTUSlowPath typesys resolve req rw c read).
Proof.
  unfold checkTTUSlowPath. destruct (existsb _ _); [auto with check|].
  by apply consume_loop_concluded, arrive_Forall, processDispatches_concluded, produceTTUDispatches_ok.
Qed.

Lemma checkDirect_concluded : concluded (checkDirect typesys conds fp resolve req).
Proof.
  destruct Hfp as (Hf1&Hf2&_&_).
  apply union_concluded, arrive_Forall. apply Forall_app; split; [|apply Forall_app; split].
  - destruct (shouldCheckDirectTuple _ _); [|done]. constructor; [|done].
    unfold checkDirectUserTuple. destruct (rd_ReadUserTuple _ _) as [t|[]|w]; try (by apply concluded_throw);
      auto with check. destruct (negb _); [auto with check|].
    destruct (condition_filter _ _ _); [auto with check|by apply concluded_throw|auto with check].
  - destruct (shouldCheckPublicAssignable _ _); [|done]. constructor; [|done].
    unfold checkPublicAssignable. destruct (rd_ReadUsersetTuples _ _); [|by apply concluded_throw|auto with check].
    destruct (read_filtered _ _ _ _) as [[|] [[]|]]; try (by apply concluded_throw); auto with check.
  - case_bool_decide; [done|]. constructor; [|done]. unfold checkDirectUsersetTuples.
    destruct (rd_ReadUsersetTuples _ _); [|by apply concluded_throw|auto with check].
    destruct (negb _); [|apply checkUsersetSlowPath_concluded].
    destruct (UsersetCanFastPathWeight2 _ _ _ _ _) eqn:E1; [by eapply Hf1|].
    destruct (RecursiveUsersetCanFastPathV2 _ _ _ _) eqn:E2; [by eapply Hf2|apply checkUsersetSlowPath_concluded].
Qed.

Lemma checkTTU_concluded ts c : concluded (checkTTU typesys conds fp resolve req ts c).
Proof.
  destruct Hfp as (_&_&Hf3&Hf4). unfold checkTTU.
  destruct (rd_Read _ _); [|by apply concluded_throw|auto with check].
  destruct (negb _); [|apply checkTTUSlowPath_concluded].
  destruct (TTUCanFastPathWeight2 _ _ _ _ _ _) eqn:E1; [by eapply Hf3|].
  destruct (RecursiveTTUCanFastPathV2 _ _ _ _ _ _) eqn:E2; [by eapply Hf4|apply checkTTUSlowPath_concluded].
Qed.

Lemma CheckRewrite_concluded rw : concluded (CheckRewrite typesys conds fp self resolve req rw).
Proof.
  induction rw as [|ob r|ts c|l IH|l IH|b s IHb IHs|] using Userset_nested_ind; simpl.
  - apply checkDirect_concluded.
  - apply Hself, child_computed.
  - apply checkTTU_concluded.
  - apply union_concluded, arrive_Forall. by apply Forall_fmap.
  - apply intersection_concluded, arrive_Forall. by apply Forall_fmap.
  - by apply exclusion_concluded.
  - by apply concluded_throw.
Qed.
End rewrite.

(** *** The recursion of [ResolveCheck]

    The depth grows with every dispatch; computed usersets keep it, but they keep the
    object and the user too, and every relation they reach is a relation of the object's
    type that the visited paths do not hold yet. *)

Definition type_relations (ty : string) : gset string := dom (default ∅ (relations typesys !! ty)).

Definition max_relations : nat := max_list ((λ p, size (p.2 : gmap string RelationDef)) <$> map_to_list (relations typesys)).

Definition unvisited (req : ResolveCheckRequest) : gset string :=
  let tk := rq_TupleKey req in
  filter (λ r, TupleKeyToString (NewTupleKey (Object tk) r (User tk)) ∉ rq_VisitedPaths req)
    (type_relations (SplitObject (Object tk)).1).

(** The calls a request can nest. *)
Definition check_fuel (req : ResolveCheckRequest) : nat :=
  Z.to_nat (maxResolutionDepth - rq_Depth req) * (max_relations + 1) + size (unvisited req) + 1.

Lemma check_fuel_pos req : check_fuel req ≠ O.
Proof. unfold check_fuel. by rewrite Nat.add_1_r. Qed.

Definition depth_ok (req : ResolveCheckRequest) : Prop :=
  0 ≤ rq_Depth req ≤ maxResolutionDepth ∧ maxResolutionDepth < 2^32.

Lemma max_list_elem (x : nat) l : x ∈ l → (x ≤ max_list l)%nat.
Proof. induction 1; simpl; lia. Qed.

Lemma type_relations_bound ty : (size (type_relations ty) ≤ max_relations)%nat.
Proof.
  unfold type_relations, max_relations. rewrite size_dom.
  destruct (relations typesys !! ty) as [m|] eqn:E; simpl; [|rewrite map_size_empty; lia].
  apply max_list_elem, list_elem_of_fmap. exists (ty, m). split; [done|]. by apply elem_of_map_to_list.
Qed.

Lemma unvisited_bound req : (size (unvisited req) ≤ max_relations)%nat.
Proof.
  etrans; [|apply (type_relations_bound (SplitObject (Object (rq_TupleKey req))).1)].
  apply subseteq_size. unfold unvisited. set_solver.
Qed.

Lemma TupleKeyToString_relation o r r' u :
  TupleKeyToString (NewTupleKey o r u) = TupleKeyToString (NewTupleKey o r' u) → r = r'.
Proof. unfold TupleKeyToString; simpl. by intros ?%str_app_inj_l%str_app_inj_l%str_app_inj_r. Qed.

(** A child of a request that has been recorded nests fewer calls. *)
Lemma child_fuel req child rel :
  depth_ok req → rq_Depth req ≠ maxResolutionDepth →
  TupleKeyToString (rq_TupleKey req) ∉ rq_VisitedPaths req →
  GetRelation typesys (SplitObject (Object (rq_TupleKey req))).1 (Relation (rq_TupleKey req)) = Ret rel →
  child_of (hasCycle req).2 child →
  depth_ok child ∧ (check_fuel child < check_fuel req)%nat.
Proof.
  intros [Hd Hmax] Hne Hv Hrel Hc. unfold hasCycle in Hc. rewrite bool_decide_false in Hc by done. simpl in Hc.
  assert (Hmod : (rq_Depth req + 1) mod 2^32 = rq_Depth req + 1) by (apply Z.mod_small; lia).
  destruct Hc as [r|tk Hu]; unfold depth_ok, check_fuel; simpl.
  - split; [lia|]. cut (size (unvisited (mkResolveCheckRequest (rq_StoreID req)
       (NewTupleKey (Object (rq_TupleKey req)) r (User (rq_TupleKey req))) (rq_Context req) (rq_Depth req)
       ({[TupleKeyToString (rq_TupleKey req)]} ∪ rq_VisitedPaths req))) < size (unvisited req))%nat; [lia|].
    apply subset_size. unfold unvisited; simpl. split.
    + intros r'. rewrite !elem_of_filter. set_solver.
    + intros Hsub. specialize (Hsub (Relation (rq_TupleKey req))). rewrite !elem_of_filter in Hsub.
      apply GetRelation_Ret in Hrel as (_&Hrel). destruct Hsub as [Hin _]; [|set_solver].
      split; [done|]. unfold type_relations. by apply elem_of_dom.
  - rewrite Hmod. split; [lia|].
    pose proof (unvisited_bound (mkResolveCheckRequest (rq_StoreID req) tk (rq_Context req) ((rq_Depth req + 1) mod 2^32)
       ({[TupleKeyToString (rq_TupleKey req)]} ∪ rq_VisitedPaths req))) as Hb. rewrite Hmod in Hb.
    replace (Z.to_nat (maxResolutionDepth - rq_Depth req)) with (S (Z.to_nat (maxResolutionDepth - (rq_Depth req + 1)))) by lia.
    lia.
Qed.

(** The outcome depends on the sub-problems of the children only. *)
Section extensionality.
Context (self1 self2 res1 res2 : ResolveCheckRequest → checkOutcome) (req : ResolveCheckRequest).
Hypothesis Hself_ext : ∀ req', child_of req req' → self1 req' = self2 req'.
Hypothesis Hext : ∀ req', child_of req req' → res1 req' = res2 req'.

Lemma processDispatches_ext msgs :
  Forall (msg_ok req) msgs → processDispatches res1 req msgs = processDispatches res2 req msgs.
Proof.
  induction 1 as [|[e| |tk|] msgs Hm Hmsgs IH]; simpl; [done|by rewrite IH|done| |done].
  rewrite IH. f_equal. by apply Hext, child_dispatch.
Qed.

Lemma CheckRewrite_ext rw : CheckRewrite typesys conds fp self1 res1 req rw = CheckRewrite typesys conds fp self2 res2 req rw.
Proof.
  assert (∀ read, checkUsersetSlowPath typesys res1 req read = checkUsersetSlowPath typesys res2 req read) as Hu.
  { intros read. unfold checkUsersetSlowPath. by rewrite processDispatches_ext by apply produceUsersetDispatches_ok. }
  assert (∀ rw c read, checkTTUSlowPath typesys res1 req rw c read = checkTTUSlowPath typesys res2 req rw c read) as Ht.
  { intros rw' c read. unfold checkTTUSlowPath. by rewrite processDispatches_ext by apply produceTTUDispatches_ok. }
  assert (∀ l, Forall (λ u, CheckRewrite typesys conds fp self1 res1 req u = CheckRewrite typesys conds fp self2 res2 req u) l →
               CheckRewrite typesys conds fp self1 res1 req <$> l = CheckRewrite typesys conds fp self2 res2 req <$> l) as Hmap.
  { induction 1 as [|u l Hu' _ IH]; csimpl; [done|by rewrite Hu', IH]. }
  induction rw as [|ob r|ts c|l IH|l IH|b s IHb IHs|] using Userset_nested_ind; simpl; try done.
  - unfold checkDirect. do 4 f_equal. case_bool_decide; [done|]. f_equal. unfold checkDirectUsersetTuples.
    destruct (rd_ReadUsersetTuples _ _); [|done..].
    repeat case_match; auto.
  - apply Hself_ext, child_computed.
  - unfold checkTTU. destruct (rd_Read _ _); [|done..].
    repeat case_match; auto.
  - by rewrite Hmap.
  - by rewrite Hmap.
  - by rewrite IHb, IHs.
Qed.
End extensionality.

(** What one level of the recursion needs of the checker and its delegate: to conclude, and
    to be the same. *)
Lemma LocalChecker_delegates self1 self2 res1 res2 req :
  fast_paths_conclude fp → depth_ok req →
  (∀ child, depth_ok child → (check_fuel child < check_fuel req)%nat →
     (concluded (self1 child) ∧ self1 child = self2 child) ∧ concluded (res1 child) ∧ res1 child = res2 child) →
  concluded (LocalChecker_ResolveCheck typesys conds fp maxResolutionDepth self1 res1 req) ∧
  LocalChecker_ResolveCheck typesys conds fp maxResolutionDepth self1 res1 req =
  LocalChecker_ResolveCheck typesys conds fp maxResolutionDepth self2 res2 req.
Proof.
  intros Hfp Hd Hres. unfold LocalChecker_ResolveCheck. case_bool_decide as Hdepth; [by rewrite concluded_throw|].
  pose proof (child_fuel req) as Hchild. unfold hasCycle in *. case_bool_decide as Hcyc; simpl; [auto with check|].
  simpl in Hchild. destruct (IsSelfDefining _); [auto with check|].
  destruct (GetRelation typesys _ _) as [rel|e|w] eqn:Hrel; [|by rewrite concluded_throw..].
  destruct (PathExists _ _ _ _) as [[]|e|w]; [|auto with check|by rewrite concluded_throw|auto with check].
  split; [apply CheckRewrite_concluded; [..|done]|apply CheckRewrite_ext];
    intros child Hc; destruct (Hchild child rel) as [Hd' Hlt]; try done; by apply Hres.
Qed.

Lemma ResolveCheck_fuel fuel fuel' req :
  fast_paths_conclude fp → depth_ok req → (check_fuel req ≤ fuel)%nat → (check_fuel req ≤ fuel')%nat →
  concluded (ResolveCheck typesys conds fp maxResolutionDepth fuel req) ∧
  ResolveCheck typesys conds fp maxResolutionDepth fuel req = ResolveCheck typesys conds fp maxResolutionDepth fuel' req.
Proof.
  intros Hfp. revert fuel' req. induction fuel as [|fuel IH]; intros fuel' req Hd Hf Hf'; [pose proof (check_fuel_pos req); lia|].
  destruct fuel' as [|fuel']; [pose proof (check_fuel_pos req); lia|]. cbn [ResolveCheck].
  apply LocalChecker_delegates; [done..|]. intros child Hc Hlt. split; apply IH; try done; lia.
Qed.
End termination.

(** C20: Check ends.  From a request whose depth is within the limit, the nesting of
    [ResolveCheck] is bounded by (remaining depth) x (relations of a type + 1) plus the
    relations of the object's type not visited yet: with that much recursion the outcome is
    a response or an error of the program, and more recursion does not change it.  This
    holds for every model, even one with cyclic computed usersets, every datastore and
    every order of arrival. *)
Theorem ResolveCheck_terminates `{!ModelGraph, !Cel, !Scheduler, !RelationshipTupleReader}
    (typesys : TypeSystem) (conds : gmap string EvaluableCondition) (fp : FastPaths) (maxResolutionDepth : Z)
    (req : ResolveCheckRequest) :
  fast_paths_conclude fp → depth_ok maxResolutionDepth req →
  ∃ o, concluded o ∧
    ∀ fuel, (check_fuel typesys maxResolutionDepth req ≤ fuel)%nat →
            ResolveCheck typesys conds fp maxResolutionDepth fuel req = o.
Proof.
  intros Hfp Hd. exists (ResolveCheck typesys conds fp maxResolutionDepth (check_fuel typesys maxResolutionDepth req) req).
  split; [by eapply ResolveCheck_fuel|]. intros fuel Hf. by eapply ResolveCheck_fuel.
Qed.
