(* ===== verification/CheckSemantics.v ===== *)
(** * What a relationship check means

    The relationships a model and a set of stored tuples define, independently of the
    order, depth and cycle bookkeeping of [Check.v]: [granted n o r] and [refuted n o r],
    the derivations of height at most [n] that the user has, or cannot have, the relation
    [r] with the object [o].  The interface [RelationshipTupleReaderSpec] says what the
    checker expects of a datastore, [GraphLaws] what it expects of the model graph. *)

From S2P Require Import Prelude GoStd Tuple Iterators Model Memory Typesystem Entrypoints TypesystemSpec.
From S2P Require Import Condition Validation ValidationSpec Check CheckSpec.

Local Open Scope go_scope.

(** ** The datastore *)

(** An object of the form type:id that a request can name. *)
Definition object_ok (o : string) : Prop :=
  (∃ t id, o = BuildObject t id ∧ has_byte ":" t = false ∧ id ≠ "") ∧ has_byte "#" o = false.

(** A restriction that userset reads are asked for: a wildcard or a relation. *)
Definition userset_ref (rr : RelationReference) : Prop := rr_HasWildcard rr = true ∨ rr_GetRelation rr ≠ "".

(** A datastore holds, in a store, at most one tuple for an object, relation and user, and
    its reads return exactly the tuples asked for. *)
Class RelationshipTupleReaderSpec `{!RelationshipTupleReader} (store : string) := {
  stored : list Tuple;
  #[global] reader_IteratorSpec :: IteratorSpec reader_iter Tuple;
  stored_unique t t' : t ∈ stored → t' ∈ stored → key_of (Key t) = key_of (Key t') → t = t';
  Read_spec o r : object_ok o → r ≠ "" →
    ∃ it, rd_Read store (NewTupleKey o r "") = Ret it ∧
      ∀ t, t ∈ items it ↔ t ∈ stored ∧ Object (Key t) = o ∧ Relation (Key t) = r;
  ReadUserTuple_spec tk : complete_key (key_of tk) →
    match rd_ReadUserTuple store tk with
    | Ret t => t ∈ stored ∧ key_of (Key t) = key_of tk
    | Throw e => e = ErrNotFound ∧ ∀ t, t ∈ stored → key_of (Key t) ≠ key_of tk
    | Panic _ => False
    end;
  ReadUsersetTuples_spec o r refs : object_ok o → r ≠ "" → refs ≠ [] → Forall userset_ref refs →
    ∃ it, rd_ReadUsersetTuples store (mkReadUsersetTuplesFilter o r refs) = Ret it ∧
      ∀ t, t ∈ items it ↔ t ∈ stored ∧ Object (Key t) = o ∧ Relation (Key t) = r ∧
        GetUserTypeFromUser (User (Key t)) = UserTypeUserSet ∧
        ∃ rr, rr ∈ refs ∧ rr_Type rr = GetType (User (Key t)) ∧
              rr_GetRelation rr = (SplitObjectRelation (User (Key t))).2;
}.
Arguments stored {_} store {_}.

(** ** Paths in a model *)

Section model_path.
Context `{!ModelGraph}.

(** A user with label [from] (a type, a type's wildcard or a type's relation) can be
    reached from relation [r] of type [ty] by the model's rewrites. *)
Inductive model_path (t : TypeSystem) (from : string) : string → string → Prop :=
| path_self ty r rel :
    GetRelation t ty r = Ret rel → from = ToObjectRelationString ty r → model_path t from ty r
| path_assign ty r rel rr :
    GetRelation t ty r = Ret rel → rr ∈ rel_DirectlyRelatedUserTypes rel → rr_GetRelation rr = "" →
    from = (if rr_HasWildcard rr then TypedPublicWildcard (rr_Type rr) else rr_Type rr) → model_path t from ty r
| path_userset ty r rel rr :
    GetRelation t ty r = Ret rel → rr ∈ rel_DirectlyRelatedUserTypes rel → rr_GetRelation rr ≠ "" →
    model_path t from (rr_Type rr) (rr_GetRelation rr) → model_path t from ty r
| path_computed ty r rel c :
    GetRelation t ty r = Ret rel → c ∈ computed_leaves (rel_Rewrite rel) →
    model_path t from ty c → model_path t from ty r
| path_ttu ty r rel ts c tsrel rr :
    GetRelation t ty r = Ret rel → (ts, c) ∈ flattenUserset (rel_Rewrite rel) →
    GetRelation t ty ts = Ret tsrel → rr ∈ rel_DirectlyRelatedUserTypes tsrel →
    model_path t from (rr_Type rr) c → model_path t from ty r.
End model_path.

(** The graph library finds the paths of the model it was built from. *)
Class GraphLaws `{!ModelGraph} := {
  graph_paths m t from ty r :
    New m = Ret t → model_path t from ty r →
    graph_PathExists (authorizationModelGraph t) from (ToObjectRelationString ty r) = Some true;
}.

(** ** The semantics *)

Section semantics.
Context `{!ModelGraph, !Cel}.
Context (typesys : TypeSystem) (conds : gmap string EvaluableCondition).
Context (tuples : list Tuple) (reqCtx : option Struct) (user : string).

(** A stored tuple that counts: valid under the model and with its condition met. *)
Definition usable_key (tk : TupleKey) : bool :=
  FilterInvalidTuples typesys tk
  && match condition_filter conds reqCtx tk with Ret true => true | _ => false end.

Definition usable (o r u : string) : Prop :=
  ∃ t, t ∈ tuples ∧ usable_key (Key t) = true ∧ key_of (Key t) = (o, r, u).

(** The user is the userset [o#r] itself. *)
Definition self_defining (o r : string) : bool := IsSelfDefining (NewTupleKey o r user).

(** Tuple-to-usersets skip the objects whose type has no such relation. *)
Definition ttu_skips (o c : string) : bool :=
  match GetRelation typesys (GetType o) c with Throw (RelationUndefinedError _ _) => true | _ => false end.

Definition user_label : string :=
  if negb (Tuple.GetRelation user =s "") then ToObjectRelationString (GetType user) (Tuple.GetRelation user) else GetType user.

(** The model has a path from the user's type, or from its wildcard. *)
Definition path_possible (ty r : string) : Prop :=
  model_path typesys user_label ty r ∨
  (Tuple.GetRelation user = "" ∧ model_path typesys (TypedPublicWildcard (GetType user)) ty r).

Section rewrites.
Context (G R : string → string → Prop) (o r : string).

Definition granted_this : Prop :=
  usable o r user ∨
  (IsObjectRelation user = false ∧ usable o r (TypedPublicWildcard (GetType user))) ∨
  (∃ u, usable o r u ∧ Tuple.GetRelation u ≠ "" ∧ G (SplitObjectRelation u).1 (Tuple.GetRelation u)).

Definition refuted_this : Prop :=
  ¬ usable o r user ∧
  (IsObjectRelation user = false → ¬ usable o r (TypedPublicWildcard (GetType user))) ∧
  (∀ u, usable o r u → Tuple.GetRelation u ≠ "" → R (SplitObjectRelation u).1 (Tuple.GetRelation u)).

Definition granted_ttu (ts c : string) : Prop :=
  ∃ u, usable o ts u ∧ ttu_skips (SplitObjectRelation u).1 c = false ∧ G (SplitObjectRelation u).1 c.

Definition refuted_ttu (ts c : string) : Prop :=
  ∀ u, usable o ts u → ttu_skips (SplitObjectRelation u).1 c = false → R (SplitObjectRelation u).1 c.

(** What a rewrite needs to be granted, and to be refuted: an exclusion is granted when
    its base is granted and its subtracted operand refuted. *)
Fixpoint granted_rw (rw : Userset) : Prop :=
  match rw with
  | Userset_This => granted_this
  | Userset_ComputedUserset _ c => G o c
  | Userset_TupleToUserset ts c => granted_ttu ts c
  | Userset_Union l => foldr (λ c P, granted_rw c ∨ P) False l
  | Userset_Intersection l => l ≠ [] ∧ foldr (λ c P, granted_rw c ∧ P) True l
  | Userset_Difference b s => granted_rw b ∧ refuted_rw s
  | Userset_nil => False
  end
with refuted_rw (rw : Userset) : Prop :=
  match rw with
  | Userset_This => refuted_this
  | Userset_ComputedUserset _ c => R o c
  | Userset_TupleToUserset ts c => refuted_ttu ts c
  | Userset_Union l => foldr (λ c P, refuted_rw c ∧ P) True l
  | Userset_Intersection l => l = [] ∨ foldr (λ c P, refuted_rw c ∨ P) False l
  | Userset_Difference b s => refuted_rw b ∨ granted_rw s
  | Userset_nil => True
  end.
End rewrites.

Fixpoint granted (n : nat) (o r : string) : Prop :=
  match n with
  | O => False
  | S n => self_defining o r = true ∨
      ∃ rel, GetRelation typesys (GetType o) r = Ret rel ∧
        granted_rw (granted n) (refuted n) o r (rel_Rewrite rel)
  end
with refuted (n : nat) (o r : string) : Prop :=
  match n with
  | O => False
  | S n => self_defining o r = false ∧
      (¬ path_possible (GetType o) r ∨
       ∃ rel, GetRelation typesys (GetType o) r = Ret rel ∧
         refuted_rw (granted n) (refuted n) o r (rel_Rewrite rel))
  end.
End semantics.

(** ** Lemmas: the operators of rewrites *)

Lemma foldr_or {A} (P : A → Prop) l : foldr (λ c Q, P c ∨ Q) False l ↔ ∃ c, c ∈ l ∧ P c.
Proof.
  induction l as [|x l IH]; simpl; [set_solver|]. rewrite IH. set_solver.
Qed.

Lemma foldr_and {A} (P : A → Prop) l : foldr (λ c Q, P c ∧ Q) True l ↔ ∀ c, c ∈ l → P c.
Proof.
  induction l as [|x l IH]; simpl; [set_solver|]. rewrite IH. set_solver.
Qed.

Lemma elem_of_concat_fmap {A B} (f : A → list B) l x c : c ∈ l → x ∈ f c → x ∈ concat (f <$> l).
Proof.
  intros Hc Hx. rewrite list_elem_of_In, in_concat. exists (f c). split; [|by apply list_elem_of_In].
  apply list_elem_of_In, list_elem_of_fmap. by exists c.
Qed.

Section semantics_lemmas.
Context `{!ModelGraph, !Cel}.
Context (typesys : TypeSystem) (conds : gmap string EvaluableCondition).
Context (tuples : list Tuple) (reqCtx : option Struct) (user : string).

Abbreviation granted_rw := (granted_rw typesys conds tuples reqCtx user).
Abbreviation refuted_rw := (refuted_rw typesys conds tuples reqCtx user).
Abbreviation granted := (granted typesys conds tuples reqCtx user).
Abbreviation refuted := (refuted typesys conds tuples reqCtx user).

Lemma rw_mono (G R G' R' : string → string → Prop) o r rw :
  (∀ o r, G o r → G' o r) → (∀ o r, R o r → R' o r) →
  (granted_rw G R o r rw → granted_rw G' R' o r rw) ∧ (refuted_rw G R o r rw → refuted_rw G' R' o r rw).
Proof.
  intros HG HR. induction rw as [|ob c|ts c|l IH|l IH|b s [IHb1 IHb2] [IHs1 IHs2]|] using Userset_nested_ind; simpl;
    try rewrite Forall_forall in IH.
  - unfold granted_this, refuted_this. naive_solver.
  - auto.
  - unfold granted_ttu, refuted_ttu. naive_solver.
  - rewrite !foldr_or, !foldr_and. split; [intros (c&?&?); exists c|intros Hl c ?]; naive_solver.
  - rewrite !foldr_or, !foldr_and. split; [|intros [?|(c&?&?)]; [by left|right; exists c]]; naive_solver.
  - naive_solver.
  - done.
Qed.

Lemma granted_refuted_mono n o r :
  (granted n o r → granted (S n) o r) ∧ (refuted n o r → refuted (S n) o r).
Proof.
  revert o r. induction n as [|n IH]; intros o r; [done|].
  assert (∀ rw, (granted_rw (granted n) (refuted n) o r rw → granted_rw (granted (S n)) (refuted (S n)) o r rw) ∧
                (refuted_rw (granted n) (refuted n) o r rw → refuted_rw (granted (S n)) (refuted (S n)) o r rw)) as Hrw.
  { intros rw. apply rw_mono; intros; by apply IH. }
  split.
  - intros [?|(rel&?&?)]; [by left|right]. exists rel. split; [done|by apply Hrw].
  - intros (?&[?|(rel&?&?)]); (split; [done|]); [by left|right]. exists rel. split; [done|by apply Hrw].
Qed.

Lemma granted_refuted_le n n' o r :
  (n ≤ n')%nat → (granted n o r → granted n' o r) ∧ (refuted n o r → refuted n' o r).
Proof. induction 1 as [|n' _ [IH1 IH2]]; [done|]. pose proof (granted_refuted_mono n' o r). tauto. Qed.

(** What holds of each element of a list from some level on holds of all from some level. *)
Lemma finite_limit {A} (P : nat → A → Prop) (l : list A) :
  (∀ n n' x, (n ≤ n')%nat → P n x → P n' x) → (∀ x, x ∈ l → ∃ n, P n x) → ∃ n, ∀ x, x ∈ l → P n x.
Proof.
  intros Hmono. induction l as [|x l IH]; intros Hl; [exists O; by intros x ?%not_elem_of_nil|].
  destruct IH as [n Hn]; [intros; by apply Hl, elem_of_cons; right|]. destruct (Hl x) as [n' Hn']; [by left|].
  exists (Nat.max n n'). intros y [->|Hy]%elem_of_cons; [eapply Hmono; [|exact Hn']; lia|]. eapply Hmono; [|by apply Hn]. lia.
Qed.

Definition has_some (o r : string) : Prop := ∃ n, granted n o r.
Definition cannot_some (o r : string) : Prop := ∃ n, refuted n o r.

(** The tuples are finitely many, so a refutation of each of them is one of all. *)
Lemma usable_limit o r (p : string → bool) (f : string → string * string) :
  (∀ u, usable typesys conds tuples reqCtx o r u → p u = true → cannot_some (f u).1 (f u).2) →
  ∃ n, ∀ u, usable typesys conds tuples reqCtx o r u → p u = true → refuted n (f u).1 (f u).2.
Proof.
  intros Hall. destruct (finite_limit (λ n t, usable_key typesys conds reqCtx (Key t) = true →
    (Object (Key t), Relation (Key t)) = (o, r) → p (User (Key t)) = true → refuted n (f (User (Key t))).1 (f (User (Key t))).2) tuples)
    as [n Hn].
  - intros n n' t Hle Hr H1 H2 H3. by eapply (proj2 (granted_refuted_le n n' _ _ Hle)), Hr.
  - intros t Ht. destruct (usable_key typesys conds reqCtx (Key t)) eqn:Hk; [|by exists O].
    destruct (decide ((Object (Key t), Relation (Key t)) = (o, r))) as [Heq|]; [|by exists O].
    destruct (p (User (Key t))) eqn:Hp; [|by exists O]. destruct (Hall (User (Key t))) as [n Hn]; [|done|by exists n].
    exists t. split_and!; [done..|]. injection Heq as <- <-. done.
  - exists n. intros u (t&Ht&Hk&[= <- <- <-]) Hp. by apply Hn.
Qed.

Lemma rw_limit o r rw :
  (granted_rw has_some cannot_some o r rw → ∃ n, granted_rw (granted n) (refuted n) o r rw) ∧
  (refuted_rw has_some cannot_some o r rw → ∃ n, refuted_rw (granted n) (refuted n) o r rw).
Proof.
  assert (∀ n n' rw, (n ≤ n')%nat →
    (granted_rw (granted n) (refuted n) o r rw → granted_rw (granted n') (refuted n') o r rw) ∧
    (refuted_rw (granted n) (refuted n) o r rw → refuted_rw (granted n') (refuted n') o r rw)) as Hmono.
  { intros n n' rw' Hle. apply rw_mono; intros; by eapply granted_refuted_le. }
  induction rw as [|ob c|ts c|l IH|l IH|b s [IHb1 IHb2] [IHs1 IHs2]|] using Userset_nested_ind; simpl;
    try rewrite Forall_forall in IH.
  - unfold granted_this, refuted_this. split.
    + intros [?|[?|(u&?&?&n&?)]]; [by exists O; left|by exists O; right; left|]. exists n. right; right. by exists u.
    + intros (?&?&Hu). destruct (usable_limit o r (λ u, negb (Tuple.GetRelation u =s ""))
        (λ u, ((SplitObjectRelation u).1, Tuple.GetRelation u))) as [n Hn].
      { intros u Hus Hp. apply Hu; [done|]. by apply negb_true_iff, bool_decide_eq_false in Hp. }
      exists n. split_and!; [done..|]. intros u Hus Hne. apply (Hn u Hus). by apply negb_true_iff, bool_decide_eq_false.
  - done.
  - unfold granted_ttu, refuted_ttu. split.
    + intros (u&?&?&n&?). exists n, u. done.
    + intros Hu. destruct (usable_limit o ts (λ u, negb (ttu_skips typesys (SplitObjectRelation u).1 c))
        (λ u, ((SplitObjectRelation u).1, c))) as [n Hn].
      { intros u Hus Hp. apply Hu; [done|]. by apply negb_true_iff in Hp. }
      exists n. intros u Hus Hsk. apply (Hn u Hus). by rewrite Hsk.
  - rewrite !foldr_or, !foldr_and. split.
    + intros (c&Hc&Hg). destruct (proj1 (IH c Hc) Hg) as [n Hn]. exists n. rewrite foldr_or. by exists c.
    + intros Hl. destruct (finite_limit (λ n c, refuted_rw (granted n) (refuted n) o r c) l) as [n Hn].
      * intros n n' x Hle. by apply Hmono.
      * intros c Hc. by apply (IH c Hc), Hl.
      * exists n. by rewrite foldr_and.
  - rewrite !foldr_or, !foldr_and. split.
    + intros [Hne Hl]. destruct (finite_limit (λ n c, granted_rw (granted n) (refuted n) o r c) l) as [n Hn].
      * intros n n' x Hle. by apply Hmono.
      * intros c Hc. by apply (IH c Hc), Hl.
      * exists n. by rewrite foldr_and.
    + intros [?|(c&Hc&Hg)]; [by exists O; left|]. destruct (proj2 (IH c Hc) Hg) as [n Hn]. exists n. right. rewrite foldr_or. by exists c.
  - split.
    + intros [[n Hn]%IHb1 [n' Hn']%IHs2]. exists (Nat.max n n'). split; [eapply Hmono; [|exact Hn]; lia|eapply Hmono; [|exact Hn']; lia].
    + intros [[n Hn]%IHb2|[n Hn]%IHs1]; exists n; auto.
  - split; [done|by exists O].
Qed.

(** A rewrite is not both granted and refuted when its parts are not. *)
Lemma rw_exclusive (G R G' R' : string → string → Prop) o r rw :
  (∀ o r, G o r → R' o r → False) → (∀ o r, G' o r → R o r → False) →
  (granted_rw G R o r rw → refuted_rw G' R' o r rw → False) ∧
  (granted_rw G' R' o r rw → refuted_rw G R o r rw → False).
Proof.
  intros H1 H2. induction rw as [|ob c|ts c|l IH|l IH|b s [IHb1 IHb2] [IHs1 IHs2]|] using Userset_nested_ind; simpl;
    try rewrite Forall_forall in IH.
  - unfold granted_this, refuted_this. split; intros [?|[[??]|(u&?&?&?)]] (?&?&?); naive_solver.
  - split; [apply H1|apply H2].
  - unfold granted_ttu, refuted_ttu. split; intros (u&?&?&?) ?; naive_solver.
  - rewrite !foldr_or, !foldr_and. split; intros (c&?&?) Hl; naive_solver.
  - rewrite !foldr_or, !foldr_and. split; intros [? Hl] [?|(c&?&?)]; naive_solver.
  - naive_solver.
  - naive_solver.
Qed.
End semantics_lemmas.

(** ** Lemmas: users and usable tuples *)

Lemma BuildObject_no_hash t id :
  has_byte "#" t = false → has_byte "#" id = false → has_byte "#" (BuildObject t id) = false.
Proof. intros Ht Hid. by rewrite has_byte_BuildObject, Ht, Hid. Qed.

Lemma BuildObject_app t id s : BuildObject t id +:+ s = BuildObject t (id +:+ s).
Proof. unfold BuildObject. by rewrite !str_app_assoc. Qed.

Lemma valid_user_facts u :
  IsValidUser u = true →
  u ≠ "" ∧ GetType (SplitObjectRelation u).1 = GetType u ∧
  IsObjectRelation u = negb (Tuple.GetRelation u =s "") ∧
  (Tuple.GetRelation u ≠ "" → object_ok (SplitObjectRelation u).1 ∧ IsTypedWildcard (SplitObjectRelation u).1 = false) ∧
  (Tuple.GetRelation u = "" → (SplitObjectRelation u).1 = u).
Proof.
  intros Hu. unfold IsObjectRelation, Tuple.GetRelation.
  apply IsValidUser_cases in Hu as [(Hc&Hh&Hne)|[(t&id&->&Ht&Hid)|(t&id&r&->&Ht&Hid&Hr)]].
  - rewrite SplitObjectRelation_none by done. simpl. by rewrite andb_false_r.
  - assert (has_byte "#" (BuildObject t id) = false) as Hh.
    { rewrite has_byte_BuildObject. apply orb_false_iff. split; [word_byte|]. apply orb_false_iff. split; [done|word_byte]. }
    rewrite SplitObjectRelation_none by done. simpl. rewrite andb_false_r. split_and!; try done.
    unfold BuildObject. by destruct t.
  - assert (has_byte ":" t = false) as Htc by word_byte. assert (has_byte "#" r = false) as Hrh by word_byte.
    assert (has_byte "#" (BuildObject t id) = false) as Hh by (apply BuildObject_no_hash; word_byte).
    assert (GetType (UsersetString t id r) = t) as Hty.
    { unfold UsersetString, ToObjectRelationString, BuildObject. rewrite !str_app_assoc. by apply GetType_build. }
    rewrite Hty. unfold UsersetString. rewrite SplitObjectRelation_build by done. simpl.
    rewrite GetType_build by done. split_and!.
    + unfold ToObjectRelationString, BuildObject. by destruct t.
    + done.
    + rewrite (bool_decide_false (t = "")); [done|]. by destruct Ht.
    + intros _. split; [split; [|done]|].
      * exists t, id. split_and!; [done..|]. by destruct Hid.
      * unfold IsTypedWildcard. rewrite SplitObject_build by done. apply andb_false_iff. right.
        apply bool_decide_false. intros ->. destruct Hid as [_ Hid]. by vm_compute in Hid.
    + intros ->. by destruct Hr.
Qed.

(** What is known of a tuple that the readers let through. *)
Section usable_facts.
Context `{!ModelGraph, !Cel, !MapRange, !ConditionCompiler} (m : AuthorizationModel) (typesys : TypeSystem).
Context (conds : gmap string EvaluableCondition) (reqCtx : option Struct).
Hypothesis Hmodel : NewAndValidate m = Ret typesys.

Lemma model_New : New m = Ret typesys.
Proof.
  unfold NewAndValidate in Hmodel. destruct (New m) as [t'| |]; simpl in Hmodel; [|done..].
  repeat case_match; try done. repeat case_outcome; by simplify_eq/=.
Qed.

Lemma valid_restriction tk :
  FilterInvalidTuples typesys tk = true →
  ∃ rel rr, GetRelation typesys (GetType (Object tk)) (Relation tk) = Ret rel ∧
    rr ∈ rel_DirectlyRelatedUserTypes rel ∧ shape_allowed (User tk) rr.
Proof.
  unfold FilterInvalidTuples. intros Hv.
  pose proof (NewAndValidate_valid m typesys Hmodel) as [Hmv _].
  unfold ValidateTupleForRead, HasTypeInfo in Hv.
  destruct (validateTuplesetRestrictions typesys tk) as [[]| |]; simpl in Hv; [|done..].
  destruct (GetRelation typesys (GetType (Object tk)) (Relation tk)) as [rel| |] eqn:Hrel; simpl in Hv; [|done..].
  rewrite (mv_schema _ Hmv) in Hv.
  destruct (Validation.validateTypeRestrictions typesys tk) as [[]| |] eqn:Htr; simpl in Hv; [|done..].
  destruct (validateTypeRestrictions_Ret m typesys tk model_New Htr rel Hrel) as (rr&?&?). by exists rel, rr.
Qed.

Lemma usable_restriction tk :
  usable_key typesys conds reqCtx tk = true →
  ∃ rel rr, GetRelation typesys (GetType (Object tk)) (Relation tk) = Ret rel ∧
    rr ∈ rel_DirectlyRelatedUserTypes rel ∧ shape_allowed (User tk) rr.
Proof. unfold usable_key. intros [Hv _]%andb_true_iff. by apply valid_restriction. Qed.

Lemma usable_tupleset tk :
  usable_key typesys conds reqCtx tk = true →
  IsTuplesetRelation typesys (GetType (Object tk)) (Relation tk) = Ret true →
  IsValidObject (User tk) = true.
Proof.
  unfold usable_key, FilterInvalidTuples. intros [Hv _]%andb_true_iff Hts.
  unfold ValidateTupleForRead in Hv.
  destruct (validateTuplesetRestrictions typesys tk) as [[]| |] eqn:E; simpl in Hv; [|done..].
  by apply validateTuplesetRestrictions_Ret in E as [? _].
Qed.
End usable_facts.

Lemma valid_object_facts o :
  IsValidObject o = true → object_ok o ∧ SplitObjectRelation o = (o, "") ∧ IsObjectRelation o = false.
Proof.
  intros (t&id&->&Ht&Hid)%IsValidObject_spec.
  assert (has_byte "#" (BuildObject t id) = false) as Hh by (apply BuildObject_no_hash; word_byte).
  assert (has_byte ":" t = false) by word_byte.
  unfold IsObjectRelation, Tuple.GetRelation. rewrite SplitObjectRelation_none by done. simpl.
  rewrite andb_false_r. split_and!; [|done..]. split; [|done]. exists t, id. split_and!; [done..|]. by destruct Hid.
Qed.

(** A stored typed wildcard. *)
Lemma wildcard_facts ty :
  has_byte ":" ty = false → IsValidUser (TypedPublicWildcard ty) = true →
  Tuple.GetRelation (TypedPublicWildcard ty) = "" ∧ IsObjectRelation (TypedPublicWildcard ty) = false ∧
  IsTypedWildcard (TypedPublicWildcard ty) = true ∧ GetType (TypedPublicWildcard ty) = ty.
Proof.
  intros Hty Hv. unfold TypedPublicWildcard in *.
  assert (has_byte "#" ty = false ∧ ty ≠ "") as [Hh Hne].
  { apply IsValidUser_cases in Hv as [(Hc&_)|[(t&id&Heq&Ht&_)|(t&id&r&Heq&Ht&Hid&_)]].
    - rewrite has_byte_BuildObject in Hc. by rewrite orb_true_r in Hc.
    - apply BuildObject_inj in Heq as [-> _]; [|done|word_byte]. split; [word_byte|by destruct Ht].
    - unfold UsersetString, ToObjectRelationString in Heq. rewrite BuildObject_app in Heq.
      apply BuildObject_inj in Heq as [-> Hstar]; [|done|word_byte]. exfalso.
      destruct Hid as [Hne Hid]. destruct id as [|d id]; [done|]. rewrite str_app_cons in Hstar.
      injection Hstar as <- _. by vm_compute in Hid. }
  assert (Tuple.GetRelation (BuildObject ty Wildcard) = "") as Hr.
  { unfold Tuple.GetRelation. by rewrite SplitObjectRelation_none by by apply BuildObject_no_hash. }
  unfold IsObjectRelation, IsTypedWildcard. rewrite Hr, SplitObject_build, GetType_build by done. simpl.
  rewrite andb_false_r, (bool_decide_false (ty = "")) by done. done.
Qed.

Lemma GetType_no_colon u : has_byte ":" (GetType u) = false.
Proof. unfold GetType. by destruct (SplitObject_cases u) as [[_ ->]|(t&id&_&?&->)]. Qed.

(** ** Derivations follow paths of the model *)

Section paths.
Context `{!ModelGraph, !Cel, !MapRange, !ConditionCompiler} (m : AuthorizationModel) (typesys : TypeSystem).
Context (conds : gmap string EvaluableCondition) (tuples : list Tuple) (reqCtx : option Struct) (user : string).
Hypothesis Hmodel : NewAndValidate m = Ret typesys.
Hypothesis Husers : ∀ t, t ∈ tuples → IsValidUser (User (Key t)) = true.
Hypothesis Huser : IsValidUser user = true.

Abbreviation granted_rw := (granted_rw typesys conds tuples reqCtx user).
Abbreviation refuted_rw := (refuted_rw typesys conds tuples reqCtx user).
Abbreviation granted := (granted typesys conds tuples reqCtx user).
Abbreviation refuted := (refuted typesys conds tuples reqCtx user).
Abbreviation usable := (usable typesys conds tuples reqCtx).
Abbreviation path_possible := (path_possible typesys user).

Lemma usable_facts o r u :
  usable o r u →
  IsValidUser u = true ∧
  ∃ rel rr, GetRelation typesys (GetType o) r = Ret rel ∧ rr ∈ rel_DirectlyRelatedUserTypes rel ∧ shape_allowed u rr.
Proof.
  intros (t&Ht&Hus&[= <- <- <-]). split; [by apply Husers|].
  by eapply usable_restriction.
Qed.

(** A userset among the usable tuples is allowed by a userset restriction. *)
Lemma usable_userset o r u :
  usable o r u → Tuple.GetRelation u ≠ "" →
  ∃ rel rr, GetRelation typesys (GetType o) r = Ret rel ∧ rr ∈ rel_DirectlyRelatedUserTypes rel ∧
    rr_Type rr = GetType u ∧ rr_GetRelation rr = Tuple.GetRelation u ∧
    is_Some (typeDefinitions typesys !! rr_Type rr) ∧
    ∃ rel', GetRelation typesys (rr_Type rr) (rr_GetRelation rr) = Ret rel'.
Proof.
  intros Hus Hne. apply usable_facts in Hus as (Hu&rel&rr&Hrel&Hrr&Hty&Hshape).
  apply valid_user_facts in Hu as (_&_&Hor&_). rewrite Hor, bool_decide_false in Hshape by done. simpl in Hshape.
  pose proof (NewAndValidate_valid m typesys Hmodel) as [Hmv _].
  pose proof (mv_restrictions _ Hmv _ _ _ Hrel) as Hok. rewrite Forall_forall in Hok.
  destruct (Hok _ Hrr) as (?&Hdef&_). exists rel, rr. split_and!; [done..|]. apply Hdef. by rewrite Hshape.
Qed.

(** The objects a tupleset names. *)
Lemma usable_ttu o r rel ts c u :
  GetRelation typesys (GetType o) r = Ret rel → (ts, c) ∈ flattenUserset (rel_Rewrite rel) → usable o ts u →
  SplitObjectRelation u = (u, "") ∧ object_ok u ∧
  ∃ tsrel rr, GetRelation typesys (GetType o) ts = Ret tsrel ∧ rr ∈ rel_DirectlyRelatedUserTypes tsrel ∧
    rr_Type rr = GetType u ∧
    (ttu_skips typesys u c = false → ∃ crel, GetRelation typesys (GetType u) c = Ret crel).
Proof.
  intros Hrel Hin Hus. pose proof (usable_facts _ _ _ Hus) as (Hu&tsrel&rr&Hts&Hrr&Hty&_).
  pose proof (NewAndValidate_valid m typesys Hmodel) as [Hmv _].
  pose proof (mv_restrictions _ Hmv _ _ _ Hts) as Hok. rewrite Forall_forall in Hok.
  destruct (Hok _ Hrr) as ([td Htd]&_). destruct Hus as (t&Ht&Hk&[= <- Hr <-]).
  assert (IsValidObject (User (Key t)) = true) as (?&?&_)%valid_object_facts.
  { eapply usable_tupleset; [done|]. rewrite Hr.
    by apply (IsTuplesetRelation_true m typesys _ r rel ts c tsrel); [apply model_New|..]. }
  split_and!; [done..|]. exists tsrel, rr. split_and!; [done..|]. unfold ttu_skips.
  destruct (GetRelation typesys (GetType (User (Key t))) c) as [crel|e|w] eqn:E; [by eauto| |by apply GetRelation_no_panic in E].
  unfold Typesystem.GetRelation, GetRelations, GetTypeDefinition, GetType in E. rewrite <-Hty, Htd in E. simpl in E.
  by destruct (_ !! c); simplify_eq/=.
Qed.

Lemma path_possible_step ty r ty' r' :
  (∀ from, model_path typesys from ty' r' → model_path typesys from ty r) →
  path_possible ty' r' → path_possible ty r.
Proof. unfold CheckSemantics.path_possible. naive_solver. Qed.

Lemma granted_this_path G o r rel :
  GetRelation typesys (GetType o) r = Ret rel →
  (∀ o r rel, G o r → GetRelation typesys (GetType o) r = Ret rel → path_possible (GetType o) r) →
  granted_this typesys conds tuples reqCtx user G o r → path_possible (GetType o) r.
Proof.
  intros Hrel HG [Hus|[[Hor Hus]|(u&Hus&Hne&Hg)]].
  - pose proof (usable_facts _ _ _ Hus) as (_&rel'&rr&Hrel'&Hrr&Hty&Hshape). simplify_eq.
    pose proof (valid_user_facts _ Huser) as (_&_&Hor&_). unfold CheckSemantics.path_possible, user_label.
    case_bool_decide as Hr.
    + rewrite Hor in Hshape. rewrite Hr in *. simpl in *. destruct (IsTypedWildcard user).
      * right. split; [done|]. eapply path_assign; [done..| |].
        -- unfold rr_GetRelation. unfold rr_HasWildcard in Hshape. by destruct (rr_RelationOrWildcard rr) as [[]|].
        -- by rewrite Hshape, Hty.
      * left. destruct Hshape as [Hw Hg]. eapply path_assign; [done..|]. by rewrite Hw, Hty.
    + left. simpl. pose proof (usable_userset _ _ _ Hus Hr) as (rel''&rr'&Hrel''&Hrr'&Hty'&Hg'&_&rel3&Hrel3). simplify_eq.
      eapply path_userset; [done..|by rewrite Hg'|]. eapply path_self; [done|]. by rewrite Hty', Hg'.
  - pose proof (usable_facts _ _ _ Hus) as (Hv&rel'&rr&Hrel'&Hrr&Hty&Hshape). simplify_eq.
    pose proof (valid_user_facts _ Huser) as (_&_&Hor'&_).
    destruct (wildcard_facts _ (GetType_no_colon user) Hv) as (_&Ho&Hw&Ht).
    rewrite Ho, Hw in Hshape. right. split.
    { rewrite Hor in Hor'. symmetry in Hor'. by apply negb_false_iff, bool_decide_eq_true in Hor'. }
    eapply path_assign; [done..| |].
    + unfold rr_GetRelation. unfold rr_HasWildcard in Hshape. by destruct (rr_RelationOrWildcard rr) as [[]|].
    + rewrite Hshape, Hty. f_equal. symmetry. exact Ht.
  - pose proof (usable_userset _ _ _ Hus Hne) as (rel'&rr&Hrel'&Hrr&Hty&Hg'&_&rel''&Hrel''). simplify_eq.
    pose proof (usable_facts _ _ _ Hus) as (Hv&_). pose proof (valid_user_facts _ Hv) as (_&Ht&_).
    eapply path_possible_step; [|eapply HG; [exact Hg|]].
    + intros from Hp. eapply path_userset; [done..|by rewrite Hg'|]. rewrite Hty, Hg'. by rewrite Ht in Hp.
    + rewrite Ht, <-Hty, <-Hg'. done.
Qed.

Lemma granted_rw_path (G R : string → string → Prop) o r rel rw :
  GetRelation typesys (GetType o) r = Ret rel →
  (∀ o r rel, G o r → GetRelation typesys (GetType o) r = Ret rel → path_possible (GetType o) r) →
  (∀ c, c ∈ computed_leaves rw → c ∈ computed_leaves (rel_Rewrite rel)) →
  (∀ p, p ∈ flattenUserset rw → p ∈ flattenUserset (rel_Rewrite rel)) →
  granted_rw G R o r rw → path_possible (GetType o) r.
Proof.
  intros Hrel HG. pose proof (NewAndValidate_valid m typesys Hmodel) as [Hmv _].
  induction rw as [|ob c|ts c|l IH|l IH|b s IHb _|] using Userset_nested_ind; simpl; intros Hc Ht; try rewrite Forall_forall in IH.
  - by apply granted_this_path with rel.
  - intros Hg. destruct (mv_computed _ Hmv _ _ _ c Hrel) as (_&crel&Hcrel); [set_solver|].
    eapply path_possible_step; [|by eapply HG]. intros from Hp. eapply path_computed; [done| |done]. set_solver.
  - intros (u&Hus&Hsk&Hg). assert ((ts, c) ∈ flattenUserset (rel_Rewrite rel)) as Hin by set_solver.
    destruct (usable_ttu o r rel ts c u Hrel Hin Hus) as (Hsp&_&tsrel&rr&Hts&Hrr&Hty&Hdef).
    rewrite Hsp in *. simpl in *. destruct (Hdef Hsk) as [crel Hcrel].
    eapply path_possible_step; [|by eapply HG]. intros from Hp.
    eapply path_ttu; [exact Hrel|exact Hin|exact Hts|exact Hrr|]. by rewrite Hty.
  - rewrite foldr_or. intros (c&Hcl&Hg). apply (IH c Hcl); [| |done].
    + intros c' Hc'. apply Hc. by eapply elem_of_concat_fmap.
    + intros c' Hc'. apply Ht. by eapply elem_of_concat_fmap.
  - rewrite foldr_and. intros [Hne Hg]. destruct l as [|c l]; [done|].
    apply (IH c); [apply list_elem_of_here| | |apply Hg, list_elem_of_here].
    + intros c' Hc'. apply Hc. eapply elem_of_concat_fmap; [apply list_elem_of_here|done].
    + intros c' Hc'. apply Ht. eapply elem_of_concat_fmap; [apply list_elem_of_here|done].
  - intros [Hg _]. apply IHb; set_solver.
  - done.
Qed.

Lemma granted_path n o r rel :
  granted n o r → GetRelation typesys (GetType o) r = Ret rel → path_possible (GetType o) r.
Proof.
  revert o r rel. induction n as [|n IH]; intros o r rel; [done|]. intros [Hself|(rel'&Hrel'&Hg)] Hrel.
  - left. pose proof (NewAndValidate_valid m typesys Hmodel) as [Hmv _].
    unfold self_defining, IsSelfDefining in Hself. simpl in Hself.
    pose proof (valid_user_facts _ Huser) as (_&Hty&_). destruct (mv_names _ Hmv _ _ _ Hrel) as [_ Hname].
    unfold user_label, Tuple.GetRelation. destruct (SplitObjectRelation user) as [uo ur]. simpl in *. bool_norm. subst uo ur.
    rewrite bool_decide_false by (unfold name_ok in Hname; set_solver). simpl. eapply path_self; [done|]. by rewrite Hty.
  - rewrite Hrel in Hrel'. injection Hrel' as <-. eapply granted_rw_path; [exact Hrel|exact IH|done|done|exact Hg].
Qed.

(** No request is both granted and refuted. *)
Lemma granted_refuted_exclusive n :
  (∀ k o r, granted n o r → refuted k o r → False) ∧ (∀ k o r, granted k o r → refuted n o r → False).
Proof.
  assert (∀ n k o r, (∀ o r rw, granted_rw (granted n) (refuted n) o r rw → refuted_rw (granted k) (refuted k) o r rw → False) →
    granted (S n) o r → refuted (S k) o r → False) as Hstep.
  { intros n' k o r Hrw Hg (Hself&Hr). destruct Hg as [?|(rel&Hrel&Hg)]; [congruence|].
    destruct Hr as [Hr|(rel'&Hrel'&Hr)]; [|rewrite Hrel in Hrel'; injection Hrel' as <-; by eapply Hrw].
    apply Hr. apply (granted_path (S n') o r rel); [|done]. right. by exists rel. }
  induction n as [|n [IH1 IH2]]; [split; intros k o r; [done|]; by destruct k|].
  split; intros [|k] o r; [done| |done|]; apply Hstep; intros o' r' rw; eapply rw_exclusive; eauto.
Qed.
End paths.
