(* ===== verification/CheckExact.v ===== *)
(** * Check computes the relationships of the model

    [ResolveCheck] against the semantics of [CheckSemantics.v]: for every model, an allowed
    answer is a derivation and a denied answer without cycle a refutation; on models
    without exclusion the answer is exact; both for every order of arrival.  The in-memory
    datastore satisfies the interface the proof asks for. *)

From S2P Require Import Prelude GoStd Tuple Iterators Model Memory MemorySpec Typesystem Entrypoints TypesystemSpec.
From S2P Require Import Condition Validation ValidationSpec Check CheckSpec CheckSemantics.

Local Open Scope go_scope.

(** ** Verdicts *)

(** An outcome that allows shows [Pt]; one that denies shows [Pf], where [all] says
    whether a denial that reports a cycle counts.  No outcome is a panic. *)
Definition verdict (all : bool) (Pt Pf : Prop) (o : checkOutcome) : Prop :=
  match o with
  | Ret resp => if Allowed resp then Pt ∧ CycleDetected resp = false
                else all = true ∨ CycleDetected resp = false → Pf
  | Throw _ => True
  | Panic _ => False
  end.

Lemma verdict_impl all (Pt Pf Qt Qf : Prop) o :
  (Pt → Qt) → (Pf → Qf) → verdict all Pt Pf o → verdict all Qt Qf o.
Proof. intros Ht Hf. destruct o as [r| |]; simpl; [|done..]. destruct (Allowed r); tauto. Qed.

#[global] Instance verdict_proper all : Proper (iff ==> iff ==> eq ==> iff) (verdict all).
Proof. intros Pt Qt Ht Pf Qf Hf o ? <-. split; apply verdict_impl; tauto. Qed.

(** What a union answers, in terms of what arrived. *)
Definition union_answer (arrived : list checkOutcome) (resp : ResolveCheckResponse) : Prop :=
  if Allowed resp then Ret resp ∈ arrived
  else ∀ o, o ∈ arrived →
    ∃ r', o = Ret r' ∧ Allowed r' = false ∧ (CycleDetected resp = false → CycleDetected r' = false).

Lemma union_Ret arrived resp : union arrived = Ret resp → union_answer arrived resp.
Proof.
  unfold union, recovered, union_answer. destruct (existsb is_panic arrived) eqn:Hp; [done|]. intros Hu.
  pose proof (union_loop_spec None false arrived Hp) as Hs. rewrite Hu in Hs.
  destruct Hs as [[-> ?]|(->&_&Hall&Hcyc)]; [done|]. intros o Ho.
  destruct (Hall o Ho) as (r'&->&Hr'). exists r'. split_and!; [done..|]. intros Hc.
  destruct (CycleDetected r') eqn:E; [|done]. rewrite <-Hc. symmetry. apply Hcyc. right. by exists r'.
Qed.

Lemma consume_loop_Ret err cyc arrived resp :
  consume_loop err cyc arrived = Ret resp →
  union_answer arrived resp ∧ (Allowed resp = false → CycleDetected resp = false → cyc = false) ∧
  (Allowed resp = false → err = None).
Proof.
  revert err cyc. induction arrived as [|o arrived IH]; intros err cyc; simpl.
  { destruct err; [done|]. intros [= <-]. unfold union_answer; simpl. split_and!; [by intros ? ?%not_elem_of_nil|done..]. }
  destruct o as [r|e|w].
  - destruct (Allowed r) eqn:Ha.
    + intros [= <-]. unfold union_answer. rewrite Ha. split_and!; [apply list_elem_of_here|done..].
    + intros (Hu&Hc&He)%IH. split_and!; [|intros H1 H2; by destruct (orb_false_elim _ _ (Hc H1 H2))|done].
      unfold union_answer in *. destruct (Allowed resp); [by apply list_elem_of_further|].
      intros o [->|Ho]%elem_of_cons; [|by apply Hu]. exists r. split_and!; [done..|].
      intros H1. by destruct (orb_false_elim _ _ (Hc eq_refl H1)).
  - intros (Hu&Hc&He)%IH. unfold union_answer in *. destruct (Allowed resp); [|by discriminate (He eq_refl)].
    split_and!; [by apply list_elem_of_further|done..].
  - intros (Hu&Hc&He)%IH. unfold union_answer in *. destruct (Allowed resp); [|by discriminate (He eq_refl)].
    split_and!; [by apply list_elem_of_further|done..].
Qed.

(** Verdicts through the reducers: [l] pairs every handler's outcome with what its answers
    show. *)
Lemma union_verdict {A} all (f : A → checkOutcome) (Pt Pf : A → Prop) (l : list A) arrived :
  arrived ≡ₚ f <$> l → (∀ x, x ∈ l → verdict all (Pt x) (Pf x) (f x)) →
  ∀ resp, union_answer arrived resp → verdict all (∃ x, x ∈ l ∧ Pt x) (∀ x, x ∈ l → Pf x) (Ret resp).
Proof.
  intros Hp Hl resp Ha. unfold union_answer in Ha. simpl. destruct (Allowed resp) eqn:Hal.
  - rewrite Hp in Ha. apply list_elem_of_fmap in Ha as (x&Hx&Hin). pose proof (Hl x Hin) as Hv.
    rewrite <-Hx in Hv. simpl in Hv. rewrite Hal in Hv. destruct Hv. eauto.
  - intros Hc x Hx. destruct (Ha (f x)) as (r'&Hr'&Hden&Hcyc).
    { rewrite Hp. apply list_elem_of_fmap. by exists x. }
    pose proof (Hl x Hx) as Hv. rewrite Hr' in Hv. simpl in Hv. rewrite Hden in Hv. naive_solver.
Qed.

Lemma intersection_verdict {A} all (f : A → checkOutcome) (Pt Pf : A → Prop) (l : list A) arrived :
  arrived ≡ₚ f <$> l → (∀ x, x ∈ l → verdict all (Pt x) (Pf x) (f x)) →
  verdict all (l ≠ [] ∧ ∀ x, x ∈ l → Pt x) (l = [] ∨ ∃ x, x ∈ l ∧ Pf x) (intersection arrived).
Proof.
  intros Hp Hl. unfold intersection. destruct arrived as [|o0 arr0].
  { symmetry in Hp. apply Permutation_nil_r, fmap_nil_inv in Hp as ->. simpl. intros _. by left. }
  set (arrived := o0 :: arr0) in *. unfold recovered. destruct (existsb is_panic arrived) eqn:Hpan; [done|].
  pose proof (intersection_loop_spec None arrived Hpan) as Hs.
  destruct (intersection_loop None arrived) as [resp|e|w]; [|done..].
  destruct Hs as [[Hin Hc]|(->&_&Hall)].
  - rewrite Hp in Hin. apply list_elem_of_fmap in Hin as (x&Hx&Hin). pose proof (Hl x Hin) as Hv.
    rewrite <-Hx in Hv. simpl in Hv |- *. destruct (Allowed resp).
    + destruct Hv as [_ Hv]. by rewrite Hv in Hc.
    + intros ?. right. eauto.
  - simpl. split; [|done]. split.
    { intros ->. by apply Permutation_nil_r in Hp. }
    intros x Hx. destruct (Hall (f x)) as (r'&Hr'&Ha'&_); [rewrite Hp; apply list_elem_of_fmap; by exists x|].
    pose proof (Hl x Hx) as Hv. rewrite Hr' in Hv. simpl in Hv. rewrite Ha' in Hv. naive_solver.
Qed.

Lemma exclusion_verdict bf (Bt Bf St Sf : Prop) base sub :
  verdict false Bt Bf base → verdict false St Sf sub →
  verdict false (Bt ∧ Sf) (Bf ∨ St) (exclusion bf [base; sub]).
Proof.
  destruct bf, base as [[[] []]|eb|wb], sub as [[[] []]|es|ws]; simpl; naive_solver.
Qed.

(** ** Reading usable tuples *)

(** The conditions have been compiled, as [NewAndValidate] and [NewCompiled] leave them. *)
Definition conds_compiled `{!Cel} (conds : gmap string EvaluableCondition) : Prop :=
  ∀ name e, conds !! name = Some e → ec_once e = true ∧ is_Some (ec_program e).

Lemma condition_filter_no_panic `{!Cel} conds reqCtx tk :
  conds_compiled conds → no_panic (condition_filter conds reqCtx tk).
Proof.
  intros Hc. unfold condition_filter, BuildTupleKeyConditionFilter, EvaluateTupleCondition.
  case_bool_decide; simpl; [done|]. destruct (conds !! GetName (Condition tk)) as [e|] eqn:He; simpl; [|done].
  destruct (Hc _ _ He) as [Ho [prg Hprg]]. unfold Evaluate, Compile_. rewrite Ho. simpl.
  assert (∀ maps w, CastContextToTypedParameters e maps ≠ Panic w) as Hcast.
  { intros maps w. unfold CastContextToTypedParameters. repeat case_bool_decide; simpl; try done. by destruct (existsb _ _). }
  set (maps := match Condition tk with Some c => cond_Context c | None => None end).
  destruct maps as [st|]; simpl; rewrite Hprg;
    (destruct (CastContextToTypedParameters e _) eqn:E; simpl; [|done|by apply Hcast in E]);
    destruct (cel_PartialVars _); simpl; try done; destruct (cel_ContextEval _ _); simpl; try done;
    by repeat case_bool_decide.
Qed.

Lemma cond_valid_filter (f : TupleKey → outcome IterErr bool) l :
  cond_valid f l = List.filter (λ tk, match f tk with Ret true => true | _ => false end) l.
Proof. induction l as [|tk l IH]; simpl; [done|]. destruct (f tk) as [[]| |]; by rewrite IH. Qed.

Section reading.
Context `{!ModelGraph, !Cel, !RelationshipTupleReader, !IteratorSpec reader_iter Tuple}.
Context (typesys : TypeSystem) (conds : gmap string EvaluableCondition) (reqCtx : option Struct).
Hypothesis Hconds : conds_compiled conds.

Lemma read_filtered_spec iter :
  ∃ e, read_filtered typesys conds reqCtx iter =
    (List.filter (usable_key typesys conds reqCtx) (Key <$> items iter), Some e).
Proof.
  unfold read_filtered. rewrite read_pipeline_spec.
  - rewrite cond_valid_filter, filter_filter. eexists. reflexivity.
  - intros tk. by apply condition_filter_no_panic.
  - pose proof (remaining_items iter). lia.
  - pose proof (remaining_items iter). lia.
Qed.

(** The keys read through the filters are usable tuples. *)
Lemma elem_of_read iter tk e l :
  read_filtered typesys conds reqCtx iter = (l, e) →
  tk ∈ l ↔ ∃ t, t ∈ items iter ∧ Key t = tk ∧ usable_key typesys conds reqCtx tk = true.
Proof.
  destruct (read_filtered_spec iter) as [e' ->]. intros [= <- _].
  rewrite list_elem_of_In, List.filter_In, <-list_elem_of_In, list_elem_of_fmap. naive_solver.
Qed.
End reading.

(** ** The handlers *)

(** No restriction names the empty relation. *)
Definition refs_named `{!ModelGraph} (t : TypeSystem) : Prop :=
  ∀ ty r rel rr, GetRelation t ty r = Ret rel → rr ∈ rel_DirectlyRelatedUserTypes rel →
    rr_RelationOrWildcard rr ≠ Some (RR_Relation "").

(** The rewrite contains an exclusion. *)
Fixpoint has_difference (u : Userset) : bool :=
  match u with
  | Userset_Union child | Userset_Intersection child => existsb has_difference child
  | Userset_Difference _ _ => true
  | _ => false
  end.

Lemma existsb_false_elem {A} (f : A → bool) l x : existsb f l = false → x ∈ l → f x = false.
Proof.
  intros Hf Hx. destruct (f x) eqn:E; [|done]. rewrite <-Hf. symmetry. apply existsb_exists. exists x.
  split; [by apply list_elem_of_In|done].
Qed.

(** ** What Check expects of its fast paths *)

(** A request for the user, about an object a datastore can hold. *)
Definition request_ok (store : string) (reqCtx : option Struct) (user : string) (req : ResolveCheckRequest) : Prop :=
  rq_StoreID req = store ∧ rq_Context req = reqCtx ∧ User (rq_TupleKey req) = user ∧
  object_ok (Object (rq_TupleKey req)).

(** The restrictions of a relation to usersets. *)
Definition userset_references (rel : RelationDef) : list RelationReference :=
  List.filter (λ ref, negb (rr_GetRelation ref =s "")) (rel_DirectlyRelatedUserTypes rel).

Section contract.
Context `{!ModelGraph, !Cel, !MapRange, !ConditionCompiler}.
Context (typesys : TypeSystem) (conds : gmap string EvaluableCondition) (fp : FastPaths).
Context `{!RelationshipTupleReader} (store : string) `{!RelationshipTupleReaderSpec store}.
Context (reqCtx : option Struct) (user : string).
Abbreviation usable := (usable typesys conds (stored store) reqCtx).
Abbreviation has_some := (has_some typesys conds (stored store) reqCtx user).
Abbreviation cannot_some := (cannot_some typesys conds (stored store) reqCtx user).

(** The keys [l] were read for the request, and the read ended with [e]. *)
Definition fast_read (req : ResolveCheckRequest) (r : string) (l : list TupleKey) (e : IterErr) : Prop :=
  (∃ it, (∀ t, t ∈ items it → t ∈ stored store) ∧ read_filtered typesys conds reqCtx it = (l, Some e)) ∧
  ∀ tk, tk ∈ l → usable (Object (rq_TupleKey req)) r (User tk).

(** What a denial of a fast path shows of an object and a relation. *)
Context (denied : string → string → Prop).

(** The answers over the usersets and over the parents that were read. *)
Definition usersets_answer (l : list TupleKey) : checkOutcome → Prop :=
  verdict true (∃ tk, tk ∈ l ∧ has_some (SplitObjectRelation (User tk)).1 (Tuple.GetRelation (User tk)))
               (∀ tk, tk ∈ l → denied (SplitObjectRelation (User tk)).1 (Tuple.GetRelation (User tk))).

Definition parents_answer (c : string) (l : list TupleKey) : checkOutcome → Prop :=
  verdict true (∃ tk, tk ∈ l ∧ ttu_skips typesys (SplitObjectRelation (User tk)).1 c = false ∧ has_some (SplitObjectRelation (User tk)).1 c)
               (∀ tk, tk ∈ l → ttu_skips typesys (SplitObjectRelation (User tk)).1 c = false → denied (SplitObjectRelation (User tk)).1 c).

(** A fast path that is selected answers what the checks it replaces would. *)
Record fast_paths_answer : Prop := {
  fpo_conclude : fast_paths_conclude fp;
  fpo_userset req rel l e (o := Object (rq_TupleKey req)) (r := Relation (rq_TupleKey req)) :
    request_ok store reqCtx user req → IsObjectRelation user = false → GetRelation typesys (GetType o) r = Ret rel →
    fast_read req r l e → (∀ tk, tk ∈ l → Tuple.GetRelation (User tk) ≠ "") →
    (UsersetCanFastPathWeight2 fp (GetType o) r (GetType user) (userset_references rel) = true →
       usersets_answer l (checkUsersetFastPathV2 fp req (l, Some e))) ∧
    (RecursiveUsersetCanFastPathV2 fp (GetType o) r (GetType user) = true →
       usersets_answer l (recursiveUsersetFastPathV2 fp req (l, Some e)));
  fpo_ttu req rel ts c l e (o := Object (rq_TupleKey req)) (r := Relation (rq_TupleKey req)) (rw := Userset_TupleToUserset ts c) :
    request_ok store reqCtx user req → IsObjectRelation user = false → GetRelation typesys (GetType o) r = Ret rel →
    (ts, c) ∈ flattenUserset (rel_Rewrite rel) → fast_read req ts l e →
    (TTUCanFastPathWeight2 fp (GetType o) r (GetType user) ts c = true →
       parents_answer c l (checkTTUFastPathV2 fp req rw (l, Some e))) ∧
    (RecursiveTTUCanFastPathV2 fp (GetType o) r (GetType user) ts c = true →
       parents_answer c l (recursiveTTUFastPathV2 fp req rw (l, Some e)));
}.

Lemma no_fast_paths_answer : no_fast_paths fp → fast_paths_answer.
Proof.
  intros Hno. pose proof Hno as (Hx1&Hx2&Hx3&Hx4). split; [by apply no_fast_paths_conclude| |];
    intros; rewrite ?Hx1, ?Hx2, ?Hx3, ?Hx4; by split.
Qed.
End contract.

(** The contract on every model: a denial is a refutation. *)
Definition fast_paths_ok `{!ModelGraph, !Cel} (typesys : TypeSystem) (conds : gmap string EvaluableCondition) (fp : FastPaths)
    `{!RelationshipTupleReader} (store : string) `{!RelationshipTupleReaderSpec store} (reqCtx : option Struct) (user : string) : Prop :=
  fast_paths_answer typesys conds fp store reqCtx user (cannot_some typesys conds (stored store) reqCtx user).

(** The contract on models without exclusion: a denial says that there is no derivation. *)
Definition fast_paths_positive `{!ModelGraph, !Cel} (typesys : TypeSystem) (conds : gmap string EvaluableCondition) (fp : FastPaths)
    `{!RelationshipTupleReader} (store : string) `{!RelationshipTupleReaderSpec store} (reqCtx : option Struct) (user : string) : Prop :=
  fast_paths_answer typesys conds fp store reqCtx user (λ o r, ¬ has_some typesys conds (stored store) reqCtx user o r).

Lemma no_fast_paths_ok `{!ModelGraph, !Cel, !RelationshipTupleReader, !RelationshipTupleReaderSpec store} typesys conds fp reqCtx user :
  no_fast_paths fp → fast_paths_ok typesys conds fp store reqCtx user.
Proof. apply no_fast_paths_answer. Qed.

Lemma fast_paths_answer_impl `{!ModelGraph, !Cel, !RelationshipTupleReader, !RelationshipTupleReaderSpec store}
    typesys conds fp reqCtx user (D D' : string → string → Prop) :
  (∀ o r, D o r → D' o r) → fast_paths_answer typesys conds fp store reqCtx user D →
  fast_paths_answer typesys conds fp store reqCtx user D'.
Proof.
  intros HD [Hc Hu Ht]. split; [done| |].
  - intros req rel l e o r ?????. destruct (Hu req rel l e) as [Hw Hr]; [done..|].
    split; intros Hsel; (eapply verdict_impl; [| |by (apply Hw || apply Hr)]; [done|]; intros Hd tk Htk; by apply HD, Hd).
  - intros req rel ts c l e o r rw ?????. destruct (Ht req rel ts c l e) as [Hw Hr]; [done..|].
    split; intros Hsel; (eapply verdict_impl; [| |by (apply Hw || apply Hr)]; [done|]; intros Hd tk Htk Hsk; by apply HD, Hd).
Qed.

Lemma verdict_all all Pt Pf o : verdict true Pt Pf o → verdict all Pt Pf o.
Proof. destruct o as [r| |]; simpl; [|done..]. destruct (Allowed r); tauto. Qed.

(** ** What the reads return *)

Lemma relation_nonempty `{!ModelGraph, !Cel, !MapRange, !ConditionCompiler} m typesys ty r rel :
  NewAndValidate m = Ret typesys → GetRelation typesys ty r = Ret rel → r ≠ "".
Proof.
  intros Hm Hrel. pose proof (NewAndValidate_valid m typesys Hm) as [Hmv _].
  destruct (mv_names _ Hmv _ _ _ Hrel) as [_ Hn]. unfold name_ok in Hn. set_solver.
Qed.

Section usable_reads.
Context `{!ModelGraph, !Cel, !MapRange, !ConditionCompiler}.
Context (m : AuthorizationModel) (typesys : TypeSystem) (conds : gmap string EvaluableCondition).
Context `{!RelationshipTupleReader} (store : string) `{!RelationshipTupleReaderSpec store} (reqCtx : option Struct).
Hypothesis Hmodel : NewAndValidate m = Ret typesys.
Hypothesis Hconds : conds_compiled conds.
Hypothesis Husers : ∀ t, t ∈ stored store → IsValidUser (User (Key t)) = true.
Abbreviation tuples := (stored store).
Abbreviation usable := (usable typesys conds tuples reqCtx).

(** The keys read from the tuples that [P] selects. *)
Lemma read_usable iter (P : Tuple → Prop) o r l e :
  (∀ t, t ∈ items iter ↔ t ∈ tuples ∧ Object (Key t) = o ∧ Relation (Key t) = r ∧ P t) →
  read_filtered typesys conds reqCtx iter = (l, e) →
  ∀ tk, tk ∈ l ↔ ∃ t, t ∈ tuples ∧ Key t = tk ∧ usable_key typesys conds reqCtx tk = true ∧
                      Object tk = o ∧ Relation tk = r ∧ P t.
Proof. intros Hit Hread tk. rewrite (elem_of_read _ _ _ Hconds _ _ _ _ Hread). naive_solver. Qed.

Context (o r : string) (rel : RelationDef).
Hypothesis Ho : object_ok o.
Hypothesis Hrel : GetRelation typesys (GetType o) r = Ret rel.

(** The userset read returns the usable usersets. *)
Lemma userset_read :
  userset_references rel ≠ [] →
  ∃ it l e, rd_ReadUsersetTuples store (mkReadUsersetTuplesFilter o r (userset_references rel)) = Ret it ∧
    read_filtered typesys conds reqCtx it = (l, Some e) ∧ (∀ t, t ∈ items it → t ∈ tuples) ∧
    (∀ tk, tk ∈ l → usable o r (User tk) ∧ IsValidUser (User tk) = true ∧ Tuple.GetRelation (User tk) ≠ "") ∧
    (∀ u, usable o r u → Tuple.GetRelation u ≠ "" → ∃ tk, tk ∈ l ∧ User tk = u).
Proof.
  intros Hne. pose proof (relation_nonempty m typesys _ _ _ Hmodel Hrel) as Hr.
  destruct (ReadUsersetTuples_spec o r (userset_references rel)) as (it&Hget&Hit); [done..| |].
  { apply Forall_forall. intros rr Hrr. right. apply list_elem_of_In, List.filter_In in Hrr as [_ Hrr]. by bool_norm. }
  destruct (read_filtered_spec typesys conds reqCtx Hconds it) as [e Hread].
  pose proof (read_usable it _ o r _ _ Hit Hread) as Hl.
  set (l := List.filter _ (Key <$> items it)) in *. exists it, l, e. split_and!; [done..|intros t [? _]%Hit; done| |].
  - intros tk (t&Ht&<-&Hk&Hto&Htr&_&rr&Hrr&_&Hrg)%Hl. split_and!; [|by apply Husers|].
    + exists t. split_and!; [done..|]. unfold key_of. by rewrite Hto, Htr.
    + apply list_elem_of_In, List.filter_In in Hrr as [_ Hrr]. bool_norm. unfold Tuple.GetRelation. by rewrite <-Hrg.
  - intros u Hus Hg. pose proof (usable_userset m typesys conds tuples reqCtx Hmodel Husers _ _ _ Hus Hg)
      as (rel'&rr&Hrel'&Hrr&Hty&Hrg&_). rewrite Hrel in Hrel'. injection Hrel' as <-.
    destruct Hus as (t&Ht&Hk&[= Hto Htr Htu]). exists (Key t). split; [|done]. apply Hl. exists t.
    pose proof (valid_user_facts _ (Husers t Ht)) as (_&_&Hor&_). rewrite Htu in *.
    split_and!; try done.
    + unfold GetUserTypeFromUser. rewrite Hor, bool_decide_false by done. done.
    + exists rr. split_and!; [|done..]. apply list_elem_of_In, List.filter_In. split; [by apply list_elem_of_In|].
      by rewrite Hrg, bool_decide_false.
Qed.

(** The tupleset read returns the usable parents. *)
Lemma tupleset_read ts c :
  (ts, c) ∈ flattenUserset (rel_Rewrite rel) →
  ∃ it l e, rd_Read store (NewTupleKey o ts "") = Ret it ∧ read_filtered typesys conds reqCtx it = (l, Some e) ∧
    (∀ t, t ∈ items it → t ∈ tuples) ∧ ∀ u, usable o ts u ↔ ∃ tk, tk ∈ l ∧ User tk = u.
Proof.
  intros Hts.
  pose proof (NewAndValidate_valid m typesys Hmodel) as [Hmv _].
  destruct (mv_ttu _ Hmv _ _ _ ts c Hrel Hts) as (tsrel&Htsrel&_). destruct (mv_names _ Hmv _ _ _ Htsrel) as [_ Hn].
  destruct (Read_spec o ts) as (it&Hget&Hit); [done|unfold name_ok in Hn; set_solver|].
  destruct (read_filtered_spec typesys conds reqCtx Hconds it) as [e Hread].
  set (l := List.filter (usable_key _ _ _) (Key <$> items it)) in Hread.
  assert (∀ tk, tk ∈ l ↔ ∃ t, t ∈ tuples ∧ Key t = tk ∧ usable_key typesys conds reqCtx tk = true ∧
            Object tk = o ∧ Relation tk = ts ∧ True) as Hl.
  { eapply read_usable; [|exact Hread]. intros t. rewrite Hit. tauto. }
  exists it, l, e. split_and!; [done..|by intros t [? _]%Hit|]. intros u. split.
  - intros (t&Ht&Hk&[= Hto Htr Htu]). exists (Key t). split; [|done]. apply Hl. by exists t.
  - intros (tk&(t&Ht&<-&Hk&Hto&Htr&_)%Hl&<-). exists t. split_and!; [done..|]. unfold key_of. by rewrite Hto, Htr.
Qed.
End usable_reads.

Section handlers.
Context `{!ModelGraph, !Cel, !MapRange, !ConditionCompiler, !Scheduler}.
Context (m : AuthorizationModel) (typesys : TypeSystem) (conds : gmap string EvaluableCondition) (fp : FastPaths).
Context `{!RelationshipTupleReader} (store : string) `{!RelationshipTupleReaderSpec store}.
Context (reqCtx : option Struct) (user : string).
Hypothesis Hmodel : NewAndValidate m = Ret typesys.
Hypothesis Hrefs : refs_named typesys.
Hypothesis Hconds : conds_compiled conds.
Context (denied : string → string → Prop).
Hypothesis Hfp : fast_paths_answer typesys conds fp store reqCtx user denied.
Hypothesis Husers : ∀ t, t ∈ stored store → IsValidUser (User (Key t)) = true.
Hypothesis Huser : IsValidUser user = true.
Hypothesis Htyped : GetType user ≠ "".

Abbreviation tuples := (stored store).
Abbreviation usable := (usable typesys conds tuples reqCtx).
Abbreviation granted_rw := (granted_rw typesys conds tuples reqCtx user).
Abbreviation refuted_rw := (refuted_rw typesys conds tuples reqCtx user).

Abbreviation request_ok := (request_ok store reqCtx user).
Abbreviation has_some := (has_some typesys conds tuples reqCtx user).
Abbreviation cannot_some := (cannot_some typesys conds tuples reqCtx user).

(** *** The choice of the direct checks *)

Lemma direct_checked o r :
  usable o r user →
  shouldCheckDirectTuple typesys (NewTupleKey o r user) = true ∨
  (IsObjectRelation user = false ∧ user = TypedPublicWildcard (GetType user)).
Proof.
  intros Hus. pose proof (usable_facts m typesys conds tuples reqCtx Hmodel Husers _ _ _ Hus) as (_&rel&rr&Hrel&Hrr&Hty&Hshape).
  pose proof (valid_user_facts _ Huser) as (_&_&Hor&_).
  unfold shouldCheckDirectTuple, IsDirectlyRelated. simpl. rewrite DirectRelationReference_relation, Hrel. simpl.
  destruct (IsObjectRelation user) eqn:Ho; [|destruct (IsTypedWildcard user) eqn:Hw].
  - left. apply existsb_exists. exists rr. split; [by apply list_elem_of_In|]. unfold RelationEquals.
    symmetry in Hor. apply negb_true_iff, bool_decide_eq_false in Hor.
    rewrite DirectRelationReference_relation. simpl. unfold rr_IsPlain at 1. simpl.
    rewrite Hty. rewrite (bool_decide_true (GetType user = _)) by done. simpl.
    rewrite (bool_decide_false (Tuple.GetRelation user = "")) by done. simpl.
    rewrite Hshape. unfold rr_HasWildcard at 1. simpl. unfold Tuple.GetRelation in *.
    by rewrite !bool_decide_false, bool_decide_true by done.
  - right. split; [done|]. unfold IsTypedWildcard in Hw.
    destruct (SplitObject_cases user) as [[_ Hs]|(t&id&Heq&Ht&Hs)]; rewrite Hs in Hw; bool_norm; [done|]. subst id.
    rewrite Heq. by rewrite GetType_build.
  - left. apply existsb_exists. exists rr. split; [by apply list_elem_of_In|]. unfold RelationEquals.
    symmetry in Hor. apply negb_false_iff, bool_decide_eq_true in Hor. rewrite Hor.
    unfold rr_IsPlain. simpl. rewrite Hty, bool_decide_true by done. simpl.
    destruct Hshape as [Hwc Hg]. pose proof (Hrefs _ _ _ _ Hrel Hrr) as Hn.
    unfold rr_HasWildcard, rr_GetRelation in *. by destruct (rr_RelationOrWildcard rr) as [[]|]; subst.
Qed.

Lemma public_checked o r :
  IsObjectRelation user = false → usable o r (TypedPublicWildcard (GetType user)) →
  shouldCheckPublicAssignable typesys (NewTupleKey o r user) = true.
Proof.
  intros Ho Hus. pose proof (usable_facts m typesys conds tuples reqCtx Hmodel Husers _ _ _ Hus) as (Hv&rel&rr&Hrel&Hrr&Hty&Hshape).
  destruct (wildcard_facts _ (GetType_no_colon user) Hv) as (_&Ho'&Hw&Ht). rewrite Ho', Hw in Hshape.
  unfold shouldCheckPublicAssignable. simpl. rewrite Ho.
  unfold IsPubliclyAssignable, PubliclyAssignableReferences. rewrite DirectRelationReference_relation. simpl. rewrite Hrel. simpl.
  destruct (List.find _ _) eqn:Hf; [done|]. exfalso. apply List.find_none with (x := rr) in Hf; [|by apply list_elem_of_In].
  simpl in Hf. rewrite Hshape, Hty in Hf. unfold GetType in Ht at 1. rewrite Ht in Hf.
  by rewrite bool_decide_true in Hf.
Qed.

Lemma request_complete req :
  request_ok req → Relation (rq_TupleKey req) ≠ "" → complete_key (key_of (rq_TupleKey req)).
Proof.
  intros (_&_&Hu&Ho&_) Hr. unfold key_of. split_and!; [done..|]. rewrite Hu. by apply valid_user_facts.
Qed.

Lemma checkDirectUserTuple_verdict all req (o := Object (rq_TupleKey req)) (r := Relation (rq_TupleKey req)) :
  request_ok req → r ≠ "" →
  verdict all (usable o r user) (¬ usable o r user) (checkDirectUserTuple typesys conds req).
Proof.
  intros Hreq Hr. pose proof (ReadUserTuple_spec _ (request_complete _ Hreq Hr)) as Hread.
  destruct Hreq as (Hs&Hc&Hu&_). unfold checkDirectUserTuple. rewrite Hs, Hc.
  assert (key_of (rq_TupleKey req) = (o, r, user)) as Hk by (unfold key_of; by rewrite Hu). rewrite Hk in Hread.
  destruct (rd_ReadUserTuple _ _) as [t|e|w]; [|destruct Hread as [-> Hread]|done].
  - destruct Hread as [Hin Hkey].
    assert (usable o r user ↔ usable_key typesys conds reqCtx (Key t) = true) as Hiff.
    { split; [|intros; by exists t]. intros (t'&Hin'&Hus&Hkey').
      assert (t' = t) as -> by (eapply stored_unique; [done..|congruence]). done. }
    unfold usable_key in Hiff. destruct (FilterInvalidTuples typesys (Key t)); simpl in *.
    + pose proof (condition_filter_no_panic conds reqCtx (Key t) Hconds) as Hnp.
      destruct (condition_filter conds reqCtx (Key t)) as [[]|e|w]; simpl; try done.
      * split; [by apply Hiff|done].
      * intros _ Hus. by apply Hiff in Hus.
    + intros _ Hus. by apply Hiff in Hus.
  - simpl. intros _ (t&Hin&_&Hkey). by apply (Hread t).
Qed.

(** The userset reads for the wildcard of the user's type return its typed wildcard. *)
Lemma wildcard_read u :
  IsValidUser u = true →
  (GetUserTypeFromUser u = UserTypeUserSet ∧
   ∃ rr, rr ∈ [WildcardRelationReference (GetType user)] ∧ rr_Type rr = GetType u ∧
         rr_GetRelation rr = (SplitObjectRelation u).2) ↔
  u = TypedPublicWildcard (GetType user).
Proof.
  intros Hv. split.
  - intros [Hus (rr&->%list_elem_of_singleton&Hty&Hrel)]. simpl in Hty. unfold rr_GetRelation in Hrel; simpl in Hrel.
    pose proof (valid_user_facts _ Hv) as (_&_&Hor&_). unfold Tuple.GetRelation in Hor. rewrite <-Hrel in Hor. simpl in Hor.
    unfold GetUserTypeFromUser in Hus. rewrite Hor in Hus. simpl in Hus. unfold IsWildcard, IsTypedWildcard in Hus.
    case_bool_decide as Hstar; [by subst u|]. simpl in Hus.
    destruct (SplitObject_cases u) as [[_ Hs]|(t&id&Heq&Ht&Hs)]; rewrite Hs in Hus; [done|].
    destruct (negb (t =s "") && (id =s Wildcard)) eqn:E; [|done]. bool_norm. subst id.
    rewrite Heq, GetType_build in Hty by done. by rewrite Heq, Hty.
  - intros ->. destruct (wildcard_facts _ (GetType_no_colon user) Hv) as (Hr&_&Hw&Ht). split.
    + unfold GetUserTypeFromUser, IsWildcard. rewrite Hw. by rewrite !orb_true_r.
    + exists (WildcardRelationReference (GetType user)). split_and!; [by apply list_elem_of_singleton|by rewrite Ht|done].
Qed.

Lemma checkPublicAssignable_verdict all req (o := Object (rq_TupleKey req)) (r := Relation (rq_TupleKey req)) :
  request_ok req → r ≠ "" →
  verdict all (usable o r (TypedPublicWildcard (GetType user))) (¬ usable o r (TypedPublicWildcard (GetType user)))
    (checkPublicAssignable typesys conds req).
Proof.
  intros (Hs&Hc&Hu&Ho) Hr. unfold checkPublicAssignable. rewrite Hs, Hc, Hu. fold o r.
  destruct (ReadUsersetTuples_spec o r [WildcardRelationReference (GetType user)]) as (it&->&Hit); [done..| |].
  { apply Forall_singleton. by left. }
  destruct (read_filtered _ _ _ it) as [l e] eqn:Hread.
  destruct (read_filtered_spec typesys conds reqCtx Hconds it) as [e' He']. rewrite Hread in He'. injection He' as _ ->.
  pose proof (read_usable typesys conds store reqCtx Hconds it _ o r _ _ Hit Hread) as Hl.
  assert (∀ t, t ∈ tuples → (GetUserTypeFromUser (User (Key t)) = UserTypeUserSet ∧
            ∃ rr, rr ∈ [WildcardRelationReference (GetType user)] ∧ rr_Type rr = GetType (User (Key t)) ∧
              rr_GetRelation rr = (SplitObjectRelation (User (Key t))).2) ↔
            User (Key t) = TypedPublicWildcard (GetType user)) as Hwild.
  { intros t Ht. by apply wildcard_read, Husers. }
  assert (∀ tk, tk ∈ l → usable o r (TypedPublicWildcard (GetType user))) as Hsome.
  { intros tk (t&Ht&<-&Hk&Hto&Htr&HP)%Hl. apply Hwild in HP; [|done]. exists t. split_and!; [done..|].
    unfold key_of. by rewrite Hto, Htr, HP. }
  assert (l = [] → ¬ usable o r (TypedPublicWildcard (GetType user))) as Hnone.
  { intros -> (t&Ht&Hk&[= Hto Htr Htu]). apply (not_elem_of_nil (Key t)), Hl. exists t.
    pose proof (proj2 (Hwild t Ht) Htu) as HP. destruct HP as [HP1 HP2]. by split_and!. }
  destruct l as [|tk l]; simpl.
  - destruct e'; simpl; auto.
  - split; [|done]. by apply (Hsome tk), list_elem_of_here.
Qed.

(** *** Dispatched sub-problems *)

(** The relation of a request is one of its object's type. *)
Definition defined_relation (tk : TupleKey) : Prop := ∃ rel, GetRelation typesys (GetType (Object tk)) (Relation tk) = Ret rel.

(** What a resolver answers for the sub-problems of a request. *)
Definition children_answered (all : bool) (T D : string → string → Prop) (req : ResolveCheckRequest)
    (f : ResolveCheckRequest → checkOutcome) : Prop :=
  ∀ req', child_of req req' → object_ok (Object (rq_TupleKey req')) → defined_relation (rq_TupleKey req') →
    verdict all (T (Object (rq_TupleKey req')) (Relation (rq_TupleKey req')))
                (D (Object (rq_TupleKey req')) (Relation (rq_TupleKey req'))) (f req').

Section dispatched.
Context (all : bool) (T D : string → string → Prop).
Hypothesis HTsome : ∀ o r, has_some o r → T o r.
Hypothesis HDsome : ∀ o r, denied o r → D o r.
Context (self resolve : ResolveCheckRequest → checkOutcome) (req : ResolveCheckRequest).
Hypothesis Hreq : request_ok req.
Hypothesis Hself : children_answered all T D req self.
Hypothesis Hchild : children_answered all T D req resolve.

(** The outcome of one message: [None] is the message of an iterator error. *)
Definition message_outcome (target : TupleKey → TupleKey) (e : IterErr) (k : option TupleKey) : checkOutcome :=
  match k with Some tk => dispatch resolve req (target tk) | None => Throw (ErrCheckIterator e) end.

Definition error_message (e : IterErr) : list (option TupleKey) :=
  if IterIsDoneOrCancelled e then [] else [None].

Definition userset_target (tk : TupleKey) : TupleKey :=
  NewTupleKey (SplitObjectRelation (User tk)).1 (Tuple.GetRelation (User tk)) (User (rq_TupleKey req)).

Lemma userset_messages keys e :
  (∀ tk, tk ∈ keys → Tuple.GetRelation (User tk) ≠ "" ∧ IsTypedWildcard (SplitObjectRelation (User tk)).1 = false) →
  let msgs := produceUsersetDispatches typesys (rq_TupleKey req) keys (Some e) in
  existsb is_producer_panic msgs = false ∧
  processDispatches resolve req msgs = message_outcome userset_target e <$> (Some <$> keys) ++ error_message e.
Proof.
  intros Hk. unfold error_message. induction keys as [|tk keys IH]; simpl.
  { by destruct (IterIsDoneOrCancelled e). }
  destruct IH as [IH1 IH2]; [intros; apply Hk; by apply list_elem_of_further|].
  destruct (Hk tk (list_elem_of_here _ _)) as [Hr Hw]. unfold Tuple.GetRelation in Hr.
  unfold userset_target, Tuple.GetRelation in *.
  destruct (SplitObjectRelation (User tk)) as [uo ur] eqn:Hs. simpl in *. rewrite Hw. simpl.
  rewrite bool_decide_false by done. simpl. rewrite ?Hs, IH2. by split.
Qed.

Definition ttu_target (c : string) (tk : TupleKey) : TupleKey :=
  mkTupleKey (SplitObjectRelation (User tk)).1 c (User (rq_TupleKey req)) None.

Definition not_skipped (c : string) (tk : TupleKey) : bool :=
  negb (ttu_skips typesys (SplitObjectRelation (User tk)).1 c).

Lemma ttu_messages c keys e :
  let msgs := produceTTUDispatches typesys c (rq_TupleKey req) keys (Some e) in
  existsb is_producer_panic msgs = false ∧
  processDispatches resolve req msgs =
    message_outcome (ttu_target c) e <$> (Some <$> List.filter (not_skipped c) keys) ++ error_message e.
Proof.
  unfold error_message. induction keys as [|tk keys IH]; simpl.
  { by destruct (IterIsDoneOrCancelled e). }
  destruct IH as [IH1 IH2]. unfold not_skipped, ttu_skips, ttu_target in *.
  destruct (SplitObjectRelation (User tk)) as [uo ur] eqn:Hs. simpl.
  destruct (GetRelation typesys (GetType uo) c) as [?|[]|?]; simpl; rewrite ?Hs, ?IH2; by split.
Qed.

(** Verdicts of the dispatched checks over the keys [l]. *)
Lemma consume_verdict rw (target : TupleKey → TupleKey) e (l : list TupleKey) outcomes :
  outcomes = message_outcome target e <$> (Some <$> l) ++ error_message e →
  (∀ tk, tk ∈ l → User (target tk) = User (rq_TupleKey req) ∧ object_ok (Object (target tk)) ∧ defined_relation (target tk)) →
  verdict all (∃ tk, tk ∈ l ∧ T (Object (target tk)) (Relation (target tk)))
              (∀ tk, tk ∈ l → D (Object (target tk)) (Relation (target tk)))
    (consumeDispatches (arrive req rw outcomes)).
Proof.
  intros -> Hl. unfold consumeDispatches.
  destruct (consume_loop None false (arrive req rw _)) as [resp|e'|w] eqn:Hc; [|done|by apply consume_loop_no_panic in Hc].
  apply consume_loop_Ret in Hc as [Ha _].
  eapply verdict_impl; [| |eapply (union_verdict all (message_outcome target e)
    (λ k, ∃ tk, k = Some tk ∧ T (Object (target tk)) (Relation (target tk)))
    (λ k, ∀ tk, k = Some tk → D (Object (target tk)) (Relation (target tk))));
    [apply arrive_perm| |exact Ha]].
  - intros (k&Hk&tk&->&HT). exists tk. split; [|done].
    apply elem_of_app in Hk as [Hk|Hk]; [by apply list_elem_of_fmap in Hk as (?&[= <-]&?)|].
    unfold error_message in Hk. destruct (IterIsDoneOrCancelled e); set_solver.
  - intros Hall tk Htk. apply (Hall (Some tk)); [|done]. apply elem_of_app. left. apply list_elem_of_fmap. by exists tk.
  - intros k [Hk|Hk]%elem_of_app.
    + apply list_elem_of_fmap in Hk as (tk&->&Htk). destruct (Hl tk Htk) as (Hu&Ho&Hdef). simpl. unfold dispatch.
      eapply verdict_impl; [| |apply (Hchild _ (child_dispatch req (target tk) Hu) Ho Hdef)]; simpl; naive_solver.
    + unfold error_message in Hk. destruct (IterIsDoneOrCancelled e); [by apply not_elem_of_nil in Hk|].
      by apply list_elem_of_singleton in Hk as ->.
Qed.

(** *** The rewrites *)

Context (rel : RelationDef).
Abbreviation o := (Object (rq_TupleKey req)).
Abbreviation r := (Relation (rq_TupleKey req)).
Hypothesis Hrel : GetRelation typesys (GetType o) r = Ret rel.

Abbreviation userset_refs := (userset_references rel).

Lemma checkDirectUsersetTuples_verdict :
  userset_refs ≠ [] →
  verdict all (∃ u, usable o r u ∧ Tuple.GetRelation u ≠ "" ∧ T (SplitObjectRelation u).1 (Tuple.GetRelation u))
              (∀ u, usable o r u → Tuple.GetRelation u ≠ "" → D (SplitObjectRelation u).1 (Tuple.GetRelation u))
    (checkDirectUsersetTuples typesys conds fp resolve req userset_refs).
Proof.
  intros Hne. pose proof Hreq as (Hs&Hc&Hu&Ho).
  destruct (userset_read m typesys conds store reqCtx Hmodel Hconds Husers o r rel Ho Hrel Hne) as (it&l&e&Hget&Hread&Hstored&Hkeys&Hcover).
  assert (verdict all (∃ tk, tk ∈ l ∧ T (SplitObjectRelation (User tk)).1 (Tuple.GetRelation (User tk)))
    (∀ tk, tk ∈ l → D (SplitObjectRelation (User tk)).1 (Tuple.GetRelation (User tk)))
    (checkUsersetSlowPath typesys resolve req (l, Some e))) as Hv.
  { unfold checkUsersetSlowPath. cbn [fst snd]. destruct (userset_messages l e) as [-> ->].
    - intros tk (_&Hv&Hg)%Hkeys. split; [done|]. by apply (valid_user_facts _ Hv).
    - apply (consume_verdict _ userset_target e l _ eq_refl).
      intros tk (Hus&Hv&Hg)%Hkeys. pose proof (valid_user_facts _ Hv) as (_&Hty&_&Hobj&_). split_and!; [done|by apply Hobj|].
      destruct (usable_userset m typesys conds tuples reqCtx Hmodel Husers _ _ _ Hus Hg) as (_&rr&_&_&Hrt&Hrg&_&rel'&Hrel').
      exists rel'. unfold userset_target. simpl. by rewrite Hty, <-Hrt, <-Hrg. }
  assert (IsObjectRelation user = false → ∀ oc, usersets_answer typesys conds store reqCtx user denied l oc →
    verdict all (∃ tk, tk ∈ l ∧ T (SplitObjectRelation (User tk)).1 (Tuple.GetRelation (User tk)))
      (∀ tk, tk ∈ l → D (SplitObjectRelation (User tk)).1 (Tuple.GetRelation (User tk))) oc) as Hfast.
  { intros _ oc Hoc. eapply verdict_impl; [| |by apply verdict_all]; naive_solver. }
  pose proof (λ H, fpo_userset _ _ _ _ _ _ _ Hfp req rel l e Hreq H Hrel) as Hok.
  unfold checkDirectUsersetTuples. rewrite Hs, Hc, Hu, Hget.
  eapply verdict_impl with (Pt := ∃ tk, tk ∈ l ∧ T (SplitObjectRelation (User tk)).1 (Tuple.GetRelation (User tk)))
    (Pf := ∀ tk, tk ∈ l → D (SplitObjectRelation (User tk)).1 (Tuple.GetRelation (User tk))); cycle 2.
  { rewrite Hread. destruct (IsObjectRelation user) eqn:Hor; simpl; [done|].
    destruct (Hok eq_refl) as [Hok1 Hok2]; [split; [by exists it|intros tk Htk; by apply Hkeys]|intros tk Htk; by apply Hkeys|].
    destruct (UsersetCanFastPathWeight2 _ _ _ _ _); [by apply Hfast, Hok1|].
    destruct (RecursiveUsersetCanFastPathV2 _ _ _ _); [by apply Hfast, Hok2|done]. }
  - intros (tk&Htk&HT). destruct (Hkeys tk Htk) as (?&_&?). by exists (User tk).
  - intros HD u Hus Hg. destruct (Hcover u Hus Hg) as (tk&Htk&<-). by apply HD.
Qed.

(** The handlers [checkDirect] runs. *)
Definition direct_handlers : list checkOutcome :=
  (if shouldCheckDirectTuple typesys (NewTupleKey o r user) then [checkDirectUserTuple typesys conds req] else [])
  ++ (if shouldCheckPublicAssignable typesys (NewTupleKey o r user) then [checkPublicAssignable typesys conds req] else [])
  ++ (if bool_decide (userset_refs = []) then [] else [checkDirectUsersetTuples typesys conds fp resolve req userset_refs]).

Lemma checkDirect_handlers : checkDirect typesys conds fp resolve req = union (arrive req Userset_This direct_handlers).
Proof.
  pose proof Hreq as (_&_&Hu&_).
  unfold checkDirect, direct_handlers, DirectlyRelatedUsersets, GetDirectlyRelatedUserTypes.
  unfold shouldCheckDirectTuple, shouldCheckPublicAssignable. rewrite Hrel. cbn [outcome_bind]. simpl. by rewrite Hu.
Qed.

Lemma direct_granted resp :
  Ret resp ∈ direct_handlers → Allowed resp = true →
  granted_this typesys conds tuples reqCtx user T o r ∧ CycleDetected resp = false.
Proof.
  pose proof (relation_nonempty m typesys _ _ _ Hmodel Hrel) as Hr. intros Hx Ha. unfold direct_handlers in Hx.
  apply elem_of_app in Hx as [Hx|[Hx|Hx]%elem_of_app].
  - destruct (shouldCheckDirectTuple _ _); [|by apply not_elem_of_nil in Hx]. apply list_elem_of_singleton in Hx.
    pose proof (checkDirectUserTuple_verdict all req Hreq Hr) as Hv. rewrite <-Hx in Hv. simpl in Hv. rewrite Ha in Hv.
    destruct Hv. by split; [left|].
  - destruct (shouldCheckPublicAssignable _ _) eqn:Hs; [|by apply not_elem_of_nil in Hx]. apply list_elem_of_singleton in Hx.
    pose proof (checkPublicAssignable_verdict all req Hreq Hr) as Hv. rewrite <-Hx in Hv. simpl in Hv. rewrite Ha in Hv.
    destruct Hv. split; [right; left|done]. split; [|done]. unfold shouldCheckPublicAssignable in Hs. simpl in Hs.
    by destruct (IsObjectRelation user).
  - case_bool_decide as Hne; [by apply not_elem_of_nil in Hx|]. apply list_elem_of_singleton in Hx.
    pose proof (checkDirectUsersetTuples_verdict Hne) as Hv. rewrite <-Hx in Hv. simpl in Hv. rewrite Ha in Hv.
    destruct Hv. by split; [right; right|].
Qed.

Lemma direct_refuted :
  (∀ P Q f, f ∈ direct_handlers → verdict all P Q f → Q) → refuted_this typesys conds tuples reqCtx user D o r.
Proof.
  pose proof (relation_nonempty m typesys _ _ _ Hmodel Hrel) as Hr. intros Hden. unfold direct_handlers in Hden.
  assert (IsObjectRelation user = false → ¬ usable o r (TypedPublicWildcard (GetType user))) as Hw.
  { intros Ho Hus. refine (Hden _ _ _ _ (checkPublicAssignable_verdict all req Hreq Hr) Hus).
    rewrite (public_checked _ _ Ho Hus). set_solver. }
  split_and!; [|done|].
  - intros Hus. pose proof (direct_checked _ _ Hus) as [Hs|[Ho Heq]]; [|by apply Hw; [|rewrite <-Heq]].
    refine (Hden _ _ _ _ (checkDirectUserTuple_verdict all req Hreq Hr) Hus). rewrite Hs. set_solver.
  - intros u Hus Hg. assert (userset_refs ≠ []) as Hne.
    { pose proof (usable_userset m typesys conds tuples reqCtx Hmodel Husers _ _ _ Hus Hg) as (rel'&rr&Hrel'&Hrr&_&Hrg&_).
      rewrite Hrel in Hrel'. injection Hrel' as <-. intros Hnil. apply (not_elem_of_nil rr). rewrite <-Hnil.
      apply list_elem_of_In, List.filter_In. split; [by apply list_elem_of_In|]. by rewrite Hrg, bool_decide_false. }
    refine (Hden _ _ _ _ (checkDirectUsersetTuples_verdict Hne) u Hus Hg). rewrite (bool_decide_false _ Hne). set_solver.
Qed.

Lemma checkDirect_verdict :
  verdict all (granted_this typesys conds tuples reqCtx user T o r) (refuted_this typesys conds tuples reqCtx user D o r)
    (checkDirect typesys conds fp resolve req).
Proof.
  rewrite checkDirect_handlers. destruct (union _) as [resp|e|w] eqn:Hun; [|done|by apply union_no_panic in Hun]. apply union_Ret in Hun.
  unfold union_answer in Hun. simpl. destruct (Allowed resp) eqn:Ha.
  - rewrite arrive_perm in Hun. by apply direct_granted.
  - intros Hc. apply direct_refuted. intros P Q f Hf Hv.
    destruct (Hun f) as (r'&->&Hr'&Hcyc); [by rewrite arrive_perm|]. simpl in Hv. rewrite Hr' in Hv.
    apply Hv. destruct Hc as [?|?]; [by left|right; by apply Hcyc].
Qed.

(** The parents that were read decide a tuple-to-userset. *)
Definition parents_verdict (c : string) (l : list TupleKey) : checkOutcome → Prop :=
  verdict all (∃ tk, tk ∈ l ∧ ttu_skips typesys (SplitObjectRelation (User tk)).1 c = false ∧ T (SplitObjectRelation (User tk)).1 c)
              (∀ tk, tk ∈ l → ttu_skips typesys (SplitObjectRelation (User tk)).1 c = false → D (SplitObjectRelation (User tk)).1 c).

Lemma checkTTUSlowPath_verdict ts c l e :
  (ts, c) ∈ flattenUserset (rel_Rewrite rel) → (∀ tk, tk ∈ l → usable o ts (User tk)) →
  parents_verdict c l (checkTTUSlowPath typesys resolve req (Userset_TupleToUserset ts c) c (l, Some e)).
Proof.
  intros Hts Hus. unfold checkTTUSlowPath, parents_verdict. cbn [fst snd]. destruct (ttu_messages c l e) as [-> ->].
  eapply verdict_impl; [| |apply (consume_verdict _ (ttu_target c) e (List.filter (not_skipped c) l) _ eq_refl)].
  - intros (tk&(Hin&Hsk)%list_elem_of_In%List.filter_In&HT). exists tk. apply list_elem_of_In in Hin.
    unfold not_skipped in Hsk. apply negb_true_iff in Hsk. by split_and!.
  - intros HD tk Hin Hsk. apply (HD tk). apply list_elem_of_In, List.filter_In.
    split; [by apply list_elem_of_In|]. unfold not_skipped. by rewrite Hsk.
  - intros tk [Hin Hsk]%list_elem_of_In%List.filter_In. apply list_elem_of_In in Hin. unfold not_skipped in Hsk. apply negb_true_iff in Hsk.
    destruct (usable_ttu m typesys conds tuples reqCtx Hmodel Husers _ _ _ _ _ _ Hrel Hts (Hus tk Hin)) as (Heq&Hobj&_&_&_&_&_&Hdef).
    split_and!; [done|unfold ttu_target; simpl; by rewrite Heq|]. unfold defined_relation, ttu_target. simpl. rewrite Heq in *. by apply Hdef.
Qed.

Lemma checkTTU_verdict ts c :
  (ts, c) ∈ flattenUserset (rel_Rewrite rel) →
  verdict all (granted_ttu typesys conds tuples reqCtx T o ts c) (refuted_ttu typesys conds tuples reqCtx D o ts c)
    (checkTTU typesys conds fp resolve req ts c).
Proof.
  intros Hts. pose proof Hreq as (Hs&Hc&Hu&Ho). destruct (tupleset_read m typesys conds store reqCtx Hmodel Hconds Husers o r rel Ho Hrel ts c Hts) as (it&l&e&Hget&Hread&Hit&Hus).
  pose proof (checkTTUSlowPath_verdict ts c l e Hts ltac:(intros tk Htk; apply Hus; by exists tk)) as Hslow.
  assert (∀ oc, parents_answer typesys conds store reqCtx user denied c l oc → parents_verdict c l oc) as Hfast.
  { intros oc Hoc. eapply verdict_impl; [| |by apply verdict_all]; naive_solver. }
  assert (parents_verdict c l (checkTTU typesys conds fp resolve req ts c)) as Hv.
  { unfold checkTTU. rewrite Hs, Hc, Hu, Hget, Hread. destruct (IsObjectRelation user) eqn:Hor; simpl; [exact Hslow|].
    destruct (fpo_ttu _ _ _ _ _ _ _ Hfp req rel ts c l e Hreq Hor Hrel Hts) as [Hok1 Hok2].
    { split; [by exists it|]. intros tk Htk. apply Hus. by exists tk. }
    destruct (TTUCanFastPathWeight2 _ _ _ _ _ _); [by apply Hfast, Hok1|].
    destruct (RecursiveTTUCanFastPathV2 _ _ _ _ _ _); [by apply Hfast, Hok2|exact Hslow]. }
  eapply verdict_impl; [| |exact Hv].
  - intros (tk&Htk&Hsk&HT). exists (User tk). split_and!; [apply Hus; by exists tk|done|done].
  - intros HD u Hpu Hsk. apply Hus in Hpu as (tk&Hin&<-). by apply (HD tk).
Qed.

Lemma CheckRewrite_verdict rw :
  (∀ p, p ∈ flattenUserset rw → p ∈ flattenUserset (rel_Rewrite rel)) →
  (∀ c, c ∈ computed_leaves rw → c ∈ computed_leaves (rel_Rewrite rel)) →
  (all = true → has_difference rw = false) →
  verdict all (granted_rw T D o r rw) (refuted_rw T D o r rw) (CheckRewrite typesys conds fp self resolve req rw).
Proof.
  induction rw as [|ob c|ts c|l IH|l IH|b s IHb IHs|] using Userset_nested_ind; simpl; intros Ht Hcl Hd; try rewrite Forall_forall in IH.
  - apply checkDirect_verdict.
  - pose proof Hreq as (_&_&_&Ho). apply (Hself _ (child_computed req c)); [done|].
    pose proof (NewAndValidate_valid m typesys Hmodel) as [Hmv _].
    destruct (mv_computed _ Hmv _ _ _ c Hrel) as [_ [crel Hc]]; [set_solver|]. by exists crel.
  - apply checkTTU_verdict. set_solver.
  - rewrite foldr_or, foldr_and. destruct (union _) as [resp| |] eqn:Hun; [|done|by apply union_no_panic in Hun]. apply union_Ret in Hun.
    eapply (union_verdict all (CheckRewrite typesys conds fp self resolve req) (granted_rw T D o r) (refuted_rw T D o r) l);
      [apply arrive_perm| |exact Hun].
    intros x Hx. apply IH; [done|intros p Hp; apply Ht; by eapply elem_of_concat_fmap|intros p Hp; apply Hcl; by eapply elem_of_concat_fmap|].
    intros Hall. by eapply existsb_false_elem; [apply Hd|].
  - rewrite foldr_or, foldr_and.
    eapply (intersection_verdict all (CheckRewrite typesys conds fp self resolve req) (granted_rw T D o r) (refuted_rw T D o r) l);
      [apply arrive_perm|].
    intros x Hx. apply IH; [done|intros p Hp; apply Ht; by eapply elem_of_concat_fmap|intros p Hp; apply Hcl; by eapply elem_of_concat_fmap|].
    intros Hall. by eapply existsb_false_elem; [apply Hd|].
  - destruct all; [by discriminate (Hd eq_refl)|].
    apply exclusion_verdict; [apply IHb|apply IHs]; set_solver.
  - done.
Qed.
End dispatched.

(** *** The recursion *)

Context `{!GraphLaws} (maxResolutionDepth : Z).
Abbreviation granted := (granted typesys conds tuples reqCtx user).
Abbreviation refuted := (refuted typesys conds tuples reqCtx user).
Abbreviation ResolveCheck := (ResolveCheck typesys conds fp maxResolutionDepth).

Lemma PathExists_false ty r : PathExists typesys user r ty = Ret false → ¬ path_possible typesys user ty r.
Proof.
  pose proof (model_New m typesys Hmodel) as HN. pose proof (valid_user_facts _ Huser) as (_&Hty&_).
  unfold PathExists, ToUserParts, path_possible, user_label, Tuple.GetRelation in *.
  destruct (SplitObjectRelation user) as [uo ur]. simpl in *. unfold GetType in Hty at 1.
  destruct (SplitObject uo) as [ut uid]. simpl in Hty. subst ut.
  destruct (negb (ur =s "")) eqn:Hus.
  - intros Hp [Hpath|[-> _]]; [|done]. apply (graph_paths m) in Hpath; [|done]. by rewrite Hpath in Hp.
  - intros Hp [Hpath|[_ Hpath]]; apply (graph_paths m) in Hpath; try done; rewrite Hpath in Hp; [done|].
    by destruct (graph_PathExists _ _ _) as [[]|].
Qed.

Lemma PathExists_no_panic u r ty w : PathExists typesys u r ty ≠ Panic w.
Proof.
  unfold PathExists. destruct (ToUserParts u) as [[ut uid] ur].
  destruct (graph_PathExists _ _ _) as [[]|]; [done| |done]. destruct (negb _); [done|].
  by destruct (graph_PathExists _ _ _).
Qed.

Lemma child_request_ok req req' :
  request_ok req → child_of req req' → object_ok (Object (rq_TupleKey req')) → request_ok req'.
Proof. intros (?&?&?&?) Hc Ho. destruct Hc as [c|tk Htk]; split_and!; try done. by rewrite <-Htk in *. Qed.

Lemma hasCycle_request_ok req : request_ok req → request_ok (hasCycle req).2.
Proof. intros Hok. unfold hasCycle. by case_bool_decide. Qed.

Lemma self_defining_req req :
  request_ok req →
  IsSelfDefining (rq_TupleKey req) = self_defining user (Object (rq_TupleKey req)) (Relation (rq_TupleKey req)).
Proof. intros (_&_&Hu&_). unfold self_defining, IsSelfDefining. simpl. by rewrite Hu. Qed.

(** One level of derivations and of refutations. *)
Lemma granted_level o r :
  (self_defining user o r = true ∨ ∃ rel, GetRelation typesys (GetType o) r = Ret rel ∧ granted_rw has_some cannot_some o r (rel_Rewrite rel)) →
  has_some o r.
Proof. intros [?|(rel&Hrel&[n Hn]%rw_limit)]; [by exists 1%nat; left|]. exists (S n). right. by exists rel. Qed.

Lemma refuted_level o r :
  self_defining user o r = false →
  (¬ path_possible typesys user (GetType o) r ∨
   ∃ rel, GetRelation typesys (GetType o) r = Ret rel ∧ refuted_rw has_some cannot_some o r (rel_Rewrite rel)) →
  cannot_some o r.
Proof.
  intros ? [?|(rel&Hrel&[n Hn]%rw_limit)]; [exists 1%nat; split; [done|by left]|]. exists (S n). split; [done|]. right. by exists rel.
Qed.

(** The model has no exclusion. *)
Definition positive_model : Prop :=
  ∀ ty r rel, GetRelation typesys ty r = Ret rel → has_difference (rel_Rewrite rel) = false.

(** One level of the checker, from its own verdicts and those of its delegate. *)
Lemma LocalChecker_level all (T D : string → string → Prop) self delegate req
    (o := Object (rq_TupleKey req)) (r := Relation (rq_TupleKey req)) :
  request_ok req → (all = true → positive_model) → (∀ o r, has_some o r → T o r) → (∀ o r, denied o r → D o r) →
  (∀ f child, f = self ∨ f = delegate → child_of (hasCycle req).2 child → request_ok child → defined_relation (rq_TupleKey child) →
     verdict all (T (Object (rq_TupleKey child)) (Relation (rq_TupleKey child)))
                 (D (Object (rq_TupleKey child)) (Relation (rq_TupleKey child))) (f child)) →
  verdict all
    (self_defining user o r = true ∨ ∃ rel, GetRelation typesys (GetType o) r = Ret rel ∧ granted_rw T D o r (rel_Rewrite rel))
    (all = true ∧ (hasCycle req).1 = true ∨
     self_defining user o r = false ∧
       (¬ path_possible typesys user (GetType o) r ∨
        ∃ rel, GetRelation typesys (GetType o) r = Ret rel ∧ refuted_rw T D o r (rel_Rewrite rel)))
    (LocalChecker_ResolveCheck typesys conds fp maxResolutionDepth self delegate req).
Proof.
  intros Hreq Hpos HT HD Hdel. pose proof (hasCycle_request_ok req Hreq) as Hreq'. unfold LocalChecker_ResolveCheck.
  case_bool_decide; [done|]. destruct (hasCycle req) as [cyc req'] eqn:Hcyc.
  assert (rq_TupleKey req' = rq_TupleKey req) as Htk.
  { unfold hasCycle in Hcyc. by case_bool_decide; simplify_eq/=. }
  simpl in Hreq', Hdel. destruct cyc; [simpl; intros [?|?]; [by left|done]|].
  rewrite (self_defining_req req' Hreq'). rewrite Htk. fold o r.
  destruct (self_defining user o r) eqn:Hself; [simpl; split; [by left|done]|].
  fold (GetType o). destruct (GetRelation typesys _ _) as [rel|e|w] eqn:Hrel; [|done..].
  pose proof Hreq as (_&_&Hu&_). rewrite Hu.
  destruct (PathExists _ _ _ _) as [[]|e|w] eqn:Hpath; [|simpl|done|by apply PathExists_no_panic in Hpath].
  - subst o r. rewrite <-Htk in *.
    assert (∀ f, f = self ∨ f = delegate → children_answered all T D req' f) as Hch.
    { intros f Hf child Hc Ho Hdef. apply Hdel; [done|done|by eapply child_request_ok|done]. }
    eapply verdict_impl; [| |apply (CheckRewrite_verdict all T D HT HD self delegate req' Hreq' (Hch self (or_introl eq_refl))
      (Hch delegate (or_intror eq_refl)) rel Hrel (rel_Rewrite rel))];
      [intros Hg; right; by exists rel|intros Hr; right; split; [done|]; right; by exists rel|done|done|].
    intros Hall. by eapply (Hpos Hall).
  - intros _. right. split; [done|]. left. by apply PathExists_false.
Qed.

(** What a denial without cycle can mean: it carries over one level. *)
Record denial_meaning (D : string → string → Prop) : Prop := {
  dm_granted o r rel : GetRelation typesys (GetType o) r = Ret rel → granted_rw has_some D o r (rel_Rewrite rel) → has_some o r;
  dm_denied o r : self_defining user o r = false →
    (¬ path_possible typesys user (GetType o) r ∨
     ∃ rel, GetRelation typesys (GetType o) r = Ret rel ∧ refuted_rw has_some D o r (rel_Rewrite rel)) → D o r;
}.

Lemma cannot_meaning : denial_meaning cannot_some.
Proof. split; [|apply refuted_level]. intros o r rel Hrel Hg. apply granted_level. right. by exists rel. Qed.

(** When a denial of a fast path means [D], so does every denial without cycle. *)
Lemma LocalChecker_verdict (D : string → string → Prop) self delegate req :
  denial_meaning D → (∀ o r, denied o r → D o r) → request_ok req →
  (∀ f child, f = self ∨ f = delegate → request_ok child → defined_relation (rq_TupleKey child) →
     verdict false (has_some (Object (rq_TupleKey child)) (Relation (rq_TupleKey child)))
                   (D (Object (rq_TupleKey child)) (Relation (rq_TupleKey child))) (f child)) →
  verdict false (has_some (Object (rq_TupleKey req)) (Relation (rq_TupleKey req)))
                (D (Object (rq_TupleKey req)) (Relation (rq_TupleKey req)))
    (LocalChecker_ResolveCheck typesys conds fp maxResolutionDepth self delegate req).
Proof.
  intros [Hg Hl] Hd Hreq Hdel. eapply verdict_impl; [| |apply (LocalChecker_level false has_some D)]; auto.
  - intros [?|(rel&Hrel&?)]; [apply granted_level; by left|by eapply Hg].
  - intros [[? _]|[??]]; [done|by apply Hl].
  - done.
Qed.

Lemma ResolveCheck_verdict fuel req :
  (∀ o r, denied o r → cannot_some o r) → request_ok req →
  verdict false (has_some (Object (rq_TupleKey req)) (Relation (rq_TupleKey req)))
                (cannot_some (Object (rq_TupleKey req)) (Relation (rq_TupleKey req))) (ResolveCheck fuel req).
Proof.
  intros Hd. revert req. induction fuel as [|fuel IH]; intros req Hreq; [done|]. apply LocalChecker_verdict; [apply cannot_meaning|done..|].
  intros f child [->| ->] Hok _; by apply IH.
Qed.

(** *** Completeness on models without exclusion *)

(** Without exclusion the operands of a derivation are derivations. *)
Lemma positive_granted (G R R' : string → string → Prop) o r rw :
  has_difference rw = false → granted_rw G R o r rw → granted_rw G R' o r rw.
Proof.
  induction rw as [|ob c|ts c|l IH|l IH|b s IHb IHs|] using Userset_nested_ind; simpl; intros Hd; try rewrite Forall_forall in IH; try done.
  - rewrite !foldr_or. intros (c&Hc&Hg). exists c. split; [done|]. apply (IH c Hc); [by eapply existsb_false_elem|done].
  - rewrite !foldr_and. intros [Hne Hg]. split; [done|]. intros c Hc. apply (IH c Hc); [by eapply existsb_false_elem|by apply Hg].
Qed.

(** An allowed answer has a derivation, whatever the fast paths show by a denial. *)
Lemma ResolveCheck_positive fuel req :
  positive_model → request_ok req →
  verdict true (has_some (Object (rq_TupleKey req)) (Relation (rq_TupleKey req))) True (ResolveCheck fuel req).
Proof.
  intros Hpos. revert req. induction fuel as [|fuel IH]; intros req Hreq; [done|].
  eapply verdict_impl; [| |apply (LocalChecker_level true has_some (λ _ _, True))]; auto; [|intros f child [->| ->] _ Hok _; by apply IH].
  intros [?|(rel&Hrel&Hg)]; apply granted_level; [by left|]. right. exists rel. split; [done|].
  eapply positive_granted; [by eapply Hpos|done].
Qed.

Lemma positive_exclusive (G R T : string → string → Prop) o r rw :
  has_difference rw = false → granted_rw G R o r rw → refuted_rw T (λ o r, ¬ G o r) o r rw → False.
Proof.
  induction rw as [|ob c|ts c|l IH|l IH|b s IHb IHs|] using Userset_nested_ind; simpl; intros Hd; try rewrite Forall_forall in IH.
  - intros [?|[[??]|(u&?&?&?)]] (?&?&?); naive_solver.
  - auto.
  - intros (u&?&?&?) ?. naive_solver.
  - rewrite foldr_or, foldr_and. intros (c&Hc&Hg) Hr. apply (IH c Hc); [by eapply existsb_false_elem|done|auto].
  - rewrite foldr_or, foldr_and. intros [Hne Hg] [?|(c&Hc&Hr)]; [done|].
    apply (IH c Hc); [by eapply existsb_false_elem|auto|done].
  - done.
  - done.
Qed.

(** Without exclusion a denial can mean that there is no derivation. *)
Lemma positive_meaning : positive_model → denial_meaning (λ o r, ¬ has_some o r).
Proof.
  intros Hpos. split.
  - intros o r rel Hrel Hg. apply granted_level. right. exists rel. split; [done|]. eapply positive_granted; [by eapply Hpos|done].
  - intros o r Hself Hden [n Hn]. destruct n as [|n]; [done|]. destruct Hn as [?|(rel&Hrel&Hg)]; [congruence|].
    destruct Hden as [Hp|(rel'&Hrel'&Hr)].
    + apply Hp. eapply (granted_path m typesys conds tuples reqCtx user Hmodel Husers Huser (S n)); [|exact Hrel]. right. by exists rel.
    + assert (rel' = rel) as -> by congruence. eapply (positive_exclusive has_some cannot_some); [by eapply Hpos| |exact Hr].
      eapply rw_mono; [..|exact Hg]; intros ??; by exists n.
Qed.

(** Every visited path is one that has no derivation of height [n]. *)
Definition visited_ok (n : nat) (req : ResolveCheckRequest) : Prop :=
  ∀ k, k ∈ rq_VisitedPaths req →
    ∃ o r, k = TupleKeyToString (NewTupleKey o r user) ∧ has_byte "#" o = false ∧ ¬ granted n o r.

Lemma TupleKeyToString_inj o r o' r' :
  has_byte "#" o = false → has_byte "#" o' = false →
  TupleKeyToString (NewTupleKey o r user) = TupleKeyToString (NewTupleKey o' r' user) → o = o' ∧ r = r'.
Proof.
  intros Ho Ho' Heq. unfold TupleKeyToString in Heq. simpl in Heq.
  apply (str_split_unique "#" o _ o' _) in Heq as [-> Heq]; [|done..].
  by apply str_app_inj_r in Heq.
Qed.

Lemma TupleKeyToString_req req :
  request_ok req →
  TupleKeyToString (rq_TupleKey req) =
  TupleKeyToString (NewTupleKey (Object (rq_TupleKey req)) (Relation (rq_TupleKey req)) user).
Proof. intros (_&_&Hu&_). unfold TupleKeyToString. simpl. by rewrite Hu. Qed.

(** Recording the request keeps the invariant for smaller derivations. *)
Lemma visited_ok_step n req child :
  request_ok req → visited_ok (S n) req → TupleKeyToString (rq_TupleKey req) ∉ rq_VisitedPaths req →
  ¬ granted n (Object (rq_TupleKey req)) (Relation (rq_TupleKey req)) →
  child_of (hasCycle req).2 child → visited_ok n child.
Proof.
  intros Hreq Hv Hfresh Hng Hc k Hk. pose proof Hreq as (_&_&_&_&Hh).
  assert (rq_VisitedPaths child = {[TupleKeyToString (rq_TupleKey req)]} ∪ rq_VisitedPaths req) as Hvis.
  { unfold hasCycle in Hc. rewrite bool_decide_false in Hc by done. by destruct Hc. }
  rewrite Hvis in Hk. apply elem_of_union in Hk as [->%elem_of_singleton|Hk].
  - exists (Object (rq_TupleKey req)), (Relation (rq_TupleKey req)). by rewrite TupleKeyToString_req.
  - destruct (Hv k Hk) as (o&r&->&Ho&Hg). exists o, r. split_and!; [done..|].
    intros Hg'. by apply Hg, granted_refuted_mono.
Qed.

Lemma LocalChecker_complete n self delegate req resp :
  positive_model → (∀ o r, denied o r → ¬ has_some o r) → request_ok req → visited_ok (S n) req →
  ¬ granted n (Object (rq_TupleKey req)) (Relation (rq_TupleKey req)) →
  (∀ f child, f = self ∨ f = delegate → request_ok child → defined_relation (rq_TupleKey child) → visited_ok n child →
     verdict true True (¬ granted n (Object (rq_TupleKey child)) (Relation (rq_TupleKey child))) (f child)) →
  LocalChecker_ResolveCheck typesys conds fp maxResolutionDepth self delegate req = Ret resp → Allowed resp = false →
  ¬ granted (S n) (Object (rq_TupleKey req)) (Relation (rq_TupleKey req)).
Proof.
  intros Hpos Hno Hreq Hvis Hng Hdel Hres Hden Hg.
  assert (TupleKeyToString (rq_TupleKey req) ∉ rq_VisitedPaths req) as Hfresh.
  { intros Hin. pose proof (TupleKeyToString_req req Hreq) as Heq. pose proof Hreq as (_&_&_&_&Hh).
    destruct (Hvis _ Hin) as (o&r&Hk&Ho&Hgs). rewrite Heq in Hk. apply TupleKeyToString_inj in Hk as [<- <-]; [by apply Hgs|done..]. }
  pose proof (LocalChecker_level true (λ _ _, True) (λ o r, ¬ granted n o r) self delegate req Hreq (λ _, Hpos) (λ _ _ _, I)) as Hv.
  rewrite Hres in Hv. simpl in Hv. rewrite Hden in Hv. destruct Hv as [[_ Hc]|(Hself&Hrw)].
  - intros o r Hd Hgn. apply (Hno o r Hd). by exists n.
  - intros f child Hf Hc Hok Hdef. apply Hdel; [done|done|done|by apply (visited_ok_step n req child)].
  - by left.
  - unfold hasCycle in Hc. by rewrite bool_decide_false in Hc.
  - destruct Hg as [?|(rel&Hrel&Hg)]; [congruence|]. destruct Hrw as [Hp|(rel'&Hrel'&Hr)].
    + apply Hp. eapply (granted_path m typesys conds tuples reqCtx user Hmodel Husers Huser (S n)); [|exact Hrel]. right. by exists rel.
    + assert (rel' = rel) as -> by congruence. eapply positive_exclusive; [by eapply Hpos|exact Hg|exact Hr].
Qed.

Lemma visited_ok_pred n req : visited_ok (S n) req → visited_ok n req.
Proof.
  intros Hvis k Hk. destruct (Hvis k Hk) as (o&r&?&?&Hgs). exists o, r.
  split_and!; [done..|]. intros Hgn. by apply Hgs, granted_refuted_mono.
Qed.

Lemma ResolveCheck_complete n :
  positive_model → (∀ o r, denied o r → ¬ has_some o r) → ∀ fuel req resp,
  request_ok req → visited_ok n req → ResolveCheck fuel req = Ret resp → Allowed resp = false →
  ¬ granted n (Object (rq_TupleKey req)) (Relation (rq_TupleKey req)).
Proof.
  intros Hpos Hno. induction n as [|n IH]; intros fuel req resp Hreq Hvis Hres Hden; [by intros []|].
  destruct fuel as [|fuel]; [done|]. cbn [Check.ResolveCheck] in Hres.
  apply (LocalChecker_complete n (ResolveCheck fuel) (ResolveCheck fuel) req resp); try done.
  - apply (IH (S fuel) req resp); [done|by apply visited_ok_pred|done..].
  - intros f child Hf Hok _ Hv'. assert (f = ResolveCheck fuel) as -> by naive_solver. pose proof (ResolveCheck_positive fuel child Hpos Hok) as Hv.
    destruct (ResolveCheck fuel child) as [r'| |] eqn:Hr'; [simpl in Hv |- *|done..].
    destruct (Allowed r') eqn:Ha; [by destruct Hv|]. intros _. by apply (IH fuel child r').
Qed.
End handlers.

(** ** Theorems *)

(** What a check takes for granted: a validated model whose restrictions name their
    relations, compiled conditions, fast paths that keep their contract, valid users in
    the store and a valid user with a type in the request. *)
Record check_setting `{!ModelGraph, !Cel, !MapRange, !ConditionCompiler}
    (m : AuthorizationModel) (typesys : TypeSystem) (conds : gmap string EvaluableCondition) (fp : FastPaths)
    `{!RelationshipTupleReader} (store : string) `{!RelationshipTupleReaderSpec store} (reqCtx : option Struct) (user : string) : Prop := {
  cs_model : NewAndValidate m = Ret typesys;
  cs_refs : refs_named typesys;
  cs_conds : conds_compiled conds;
  cs_fast_paths : fast_paths_ok typesys conds fp store reqCtx user;
  cs_stored : ∀ t, t ∈ stored store → IsValidUser (User (Key t)) = true;
  cs_user : IsValidUser user = true;
  cs_typed : GetType user ≠ "";
}.

(** The same on models without exclusion, where the fast paths have the weaker contract. *)
Record positive_setting `{!ModelGraph, !Cel, !MapRange, !ConditionCompiler}
    (m : AuthorizationModel) (typesys : TypeSystem) (conds : gmap string EvaluableCondition) (fp : FastPaths)
    `{!RelationshipTupleReader} (store : string) `{!RelationshipTupleReaderSpec store} (reqCtx : option Struct) (user : string) : Prop := {
  ps_model : NewAndValidate m = Ret typesys;
  ps_refs : refs_named typesys;
  ps_conds : conds_compiled conds;
  ps_fast_paths : fast_paths_positive typesys conds fp store reqCtx user;
  ps_stored : ∀ t, t ∈ stored store → IsValidUser (User (Key t)) = true;
  ps_user : IsValidUser user = true;
  ps_typed : GetType user ≠ "";
}.

Section theorems.
Context `{!ModelGraph, !Cel, !MapRange, !ConditionCompiler, !Scheduler}.
Context `{!GraphLaws, !RelationshipTupleReader} (store : string) `{!RelationshipTupleReaderSpec store}.

(** A refutation leaves no derivation. *)
Lemma fast_paths_ok_positive m typesys conds fp user reqCtx :
  NewAndValidate m = Ret typesys → (∀ t, t ∈ stored store → IsValidUser (User (Key t)) = true) → IsValidUser user = true →
  fast_paths_ok typesys conds fp store reqCtx user → fast_paths_positive typesys conds fp store reqCtx user.
Proof.
  intros Hm Hs Hu. apply fast_paths_answer_impl. intros o r [k Hk] [n Hn].
  by eapply (proj1 (granted_refuted_exclusive m typesys conds (stored store) reqCtx user Hm Hs Hu n)).
Qed.

Lemma check_setting_positive m typesys conds fp user reqCtx :
  check_setting m typesys conds fp store reqCtx user → positive_setting m typesys conds fp store reqCtx user.
Proof. intros []. split; try done. by eapply fast_paths_ok_positive. Qed.

Lemma ResolveCheck_exact_spec (m : AuthorizationModel) (typesys : TypeSystem) (conds : gmap string EvaluableCondition)
    (fp : FastPaths) (user : string) (reqCtx : option Struct) (maxResolutionDepth : Z) (fuel : nat)
    (req : ResolveCheckRequest) :
  positive_setting m typesys conds fp store reqCtx user → positive_model typesys →
  request_ok store reqCtx user req → rq_VisitedPaths req = ∅ → depth_ok maxResolutionDepth req →
  (check_fuel typesys maxResolutionDepth req ≤ fuel)%nat →
  match ResolveCheck typesys conds fp maxResolutionDepth fuel req with
  | Ret resp => Allowed resp = true ↔
      ∃ n, granted typesys conds (stored store) reqCtx user n (Object (rq_TupleKey req)) (Relation (rq_TupleKey req))
  | Throw e => fuel_free e
  | Panic _ => False
  end.
Proof.
  intros [] Hpos Hreq Hvis Hd Hf.
  pose proof (ResolveCheck_positive m typesys conds fp store reqCtx user ltac:(done) ltac:(done) ltac:(done) _ ltac:(eassumption)
    ltac:(done) ltac:(done) ltac:(done) maxResolutionDepth fuel req Hpos Hreq) as Hv.
  destruct (ResolveCheck_fuel typesys conds fp maxResolutionDepth fuel fuel req) as [Hc _];
    [by eapply fpo_conclude|done..|].
  destruct (ResolveCheck typesys conds fp maxResolutionDepth fuel req) as [resp|e|w] eqn:Hres; [|by apply Hc|done].
  simpl in Hv. split; [intros Ha; rewrite Ha in Hv; by destruct Hv|].
  intros [n Hg]. destruct (Allowed resp) eqn:Ha; [done|]. exfalso.
  refine (ResolveCheck_complete m typesys conds fp store reqCtx user _ _ _ _ _ _ _ _ maxResolutionDepth n Hpos _ fuel req resp
    Hreq _ Hres Ha Hg); try done. intros k Hk. rewrite Hvis in Hk. by apply not_elem_of_empty in Hk.
Qed.

Lemma ResolveCheck_sound_spec (m : AuthorizationModel) (typesys : TypeSystem) (conds : gmap string EvaluableCondition)
    (fp : FastPaths) (user : string) (reqCtx : option Struct) (maxResolutionDepth : Z) (fuel : nat)
    (req : ResolveCheckRequest) (resp : ResolveCheckResponse)
    (has := granted typesys conds (stored store) reqCtx user) (cannot := refuted typesys conds (stored store) reqCtx user)
    (o := Object (rq_TupleKey req)) (r := Relation (rq_TupleKey req)) :
  check_setting m typesys conds fp store reqCtx user → request_ok store reqCtx user req →
  ResolveCheck typesys conds fp maxResolutionDepth fuel req = Ret resp →
  (Allowed resp = true → (∃ n, has n o r) ∧ ∀ n, ¬ cannot n o r) ∧
  (Allowed resp = false → CycleDetected resp = false → (∃ n, cannot n o r) ∧ ∀ n, ¬ has n o r).
Proof.
  intros [] Hreq Hres.
  pose proof (ResolveCheck_verdict m typesys conds fp store reqCtx user ltac:(done) ltac:(done) ltac:(done) _ ltac:(eassumption)
    ltac:(done) ltac:(done) ltac:(done) maxResolutionDepth fuel req (λ _ _ H, H) Hreq) as Hv.
  rewrite Hres in Hv. simpl in Hv.
  assert (∀ n k, has n o r → cannot k o r → False) as Hex.
  { intros n k. by apply (granted_refuted_exclusive m typesys conds (stored store) reqCtx user ltac:(done) ltac:(done) ltac:(done) n). }
  split.
  - intros Ha. rewrite Ha in Hv. destruct Hv as [[k Hk] _]. split; [by exists k|]. intros n Hn. by eapply Hex.
  - intros Ha Hc. rewrite Ha in Hv. destruct (Hv (or_intror Hc)) as [k Hk]. split; [by exists k|]. intros n Hn. by eapply Hex.
Qed.
End theorems.
