(* ===== verification/CheckMemory.v ===== *)
(** * Check over the in-memory datastore

    The datastore of [Memory.v] meets the interface of the checker, the theorems about
    [ResolveCheck] and a model on which the order of arrival decides the answer. *)

From S2P Require Import Prelude GoStd Tuple Iterators Model Memory MemorySpec Typesystem Entrypoints TypesystemSpec.
From S2P Require Import Condition Validation ValidationSpec Check CheckSpec CheckSemantics CheckExact.

Local Open Scope go_scope.

(** ** The interface *)

Definition memory_Reader (s : MemoryBackend) : RelationshipTupleReader := {|
  reader_iter := staticIterator;
  reader_Iterator := si_Iterator;
  rd_Read := Read s;
  rd_ReadUserTuple := ReadUserTuple s;
  rd_ReadUsersetTuples := ReadUsersetTuples s;
|}.

Lemma match_object_relation t o r :
  wf_record t → object_ok o → r ≠ "" →
  match_ t (mkTupleKey o r "" None) = true ↔
  Object (Key (AsTuple t)) = o ∧ Relation (Key (AsTuple t)) = r.
Proof.
  intros (Ht&Hid&Hr&Hu) ((ot&oid&->&Hot&Hoid)&_) Hne. unfold match_; simpl.
  assert (BuildObject ot oid ≠ "") as Hob by (unfold BuildObject; by destruct ot).
  rewrite SplitObject_build, (bool_decide_false (BuildObject ot oid = "")), (bool_decide_false (oid = "")),
    (bool_decide_false (r = "")) by done. simpl. rewrite andb_true_r, negb_involutive. split.
  - intros Hm. bool_norm. by subst.
  - intros [Ho <-]. apply BuildObject_inj in Ho as [-> ->]; [|done..]. by rewrite !bool_decide_true.
Qed.

Lemma AsTuple_User t : wf_record t → User (Key (AsTuple t)) = tr_User t.
Proof. intros (_&_&_&Hu). unfold AsTuple. simpl. by rewrite bool_decide_false. Qed.

Section memory.
Context (s : MemoryBackend) (Hinv : backend_inv s).

Lemma store_wf store t : t ∈ store_tuples s store → wf_record t.
Proof. intros Ht. destruct Hinv as [Hs _]. destruct (Hs store) as [Hwf _ _]. rewrite Forall_forall in Hwf. by apply Hwf. Qed.

Lemma memory_unique store t t' :
  t ∈ AsTuple <$> store_tuples s store → t' ∈ AsTuple <$> store_tuples s store →
  key_of (Key t) = key_of (Key t') → t = t'.
Proof.
  intros (x&->&Hx)%list_elem_of_fmap (y&->&Hy)%list_elem_of_fmap Heq.
  rewrite !AsTuple_key in Heq by by eapply store_wf.
  destruct Hinv as [Hs _]. destruct (Hs store) as [_ Hnd _]. by rewrite (NoDup_fmap_elem _ _ x y Hnd).
Qed.

Lemma memory_Read store o r :
  object_ok o → r ≠ "" →
  ∃ it, Read s store (NewTupleKey o r "") = Ret it ∧
    ∀ t, t ∈ items it ↔ t ∈ AsTuple <$> store_tuples s store ∧ Object (Key t) = o ∧ Relation (Key t) = r.
Proof.
  intros Ho Hr. eexists. split.
  { unfold Read, read. simpl. rewrite (bool_decide_false (r = "")), andb_false_r by done. simpl.
    rewrite bool_decide_true, go_slice_ok by (pose proof (zlen_nonneg (List.filter (λ t, match_ t (NewTupleKey o r "")) (store_tuples s store))); lia).
    done. }
  intros t. simpl. rewrite drop_0, take_ge by (unfold zlen; lia).
  rewrite !list_elem_of_fmap. setoid_rewrite list_elem_of_In. setoid_rewrite List.filter_In. setoid_rewrite <-list_elem_of_In.
  split.
  - intros (x&->&Hx&Hm). apply match_object_relation in Hm as [??]; [|by eapply store_wf|done..]. split; [|done]. by exists x.
  - intros ((x&->&Hx)&?&?). exists x. split_and!; [done..|]. apply match_object_relation; [by eapply store_wf|done..].
Qed.

Lemma memory_ReadUserTuple store tk :
  complete_key (key_of tk) →
  match ReadUserTuple s store tk with
  | Ret t => t ∈ AsTuple <$> store_tuples s store ∧ key_of (Key t) = key_of tk
  | Throw e => e = ErrNotFound ∧ ∀ t, t ∈ AsTuple <$> store_tuples s store → key_of (Key t) ≠ key_of tk
  | Panic _ => False
  end.
Proof.
  intros Hk. unfold ReadUserTuple. pose proof (store_wf store) as Hwf. revert Hwf.
  induction (store_tuples s store) as [|x l IH]; intros Hwf; simpl; [by split; [|intros ? ?%not_elem_of_nil]|].
  assert (wf_record x) as Hx by by apply Hwf, list_elem_of_here.
  destruct (match_ x tk) eqn:Hm.
  - apply match_spec in Hm; [|done..]. split; [apply list_elem_of_here|]. rewrite AsTuple_key; [done|by destruct Hx as (_&_&_&?)].
  - assert (rec_key x ≠ key_of tk) as Hne.
    { intros Heq. apply match_spec in Heq; [|done..]. congruence. }
    specialize (IH ltac:(intros t Ht; by apply Hwf, list_elem_of_further)).
    destruct (read_user_tuple_loop l tk) as [t|e|w]; [| |done].
    + destruct IH. split; [by apply list_elem_of_further|done].
    + destruct IH as [-> Hall]. split; [done|]. intros t [->|Ht]%elem_of_cons; [|by apply Hall].
      rewrite AsTuple_key; [done|by destruct Hx as (_&_&_&?)].
Qed.

Lemma memory_ReadUsersetTuples store o r refs :
  object_ok o → r ≠ "" → refs ≠ [] → Forall userset_ref refs →
  ∃ it, ReadUsersetTuples s store (mkReadUsersetTuplesFilter o r refs) = Ret it ∧
    ∀ t, t ∈ items it ↔ t ∈ AsTuple <$> store_tuples s store ∧ Object (Key t) = o ∧ Relation (Key t) = r ∧
      GetUserTypeFromUser (User (Key t)) = UserTypeUserSet ∧
      ∃ rr, rr ∈ refs ∧ rr_Type rr = GetType (User (Key t)) ∧ rr_GetRelation rr = (SplitObjectRelation (User (Key t))).2.
Proof.
  intros Ho Hr Hne _. eexists. split; [done|]. intros t. simpl. rewrite !list_elem_of_fmap.
  assert (∀ x y, x ∈ store_tuples s store → (y ∈ userset_matches (mkReadUsersetTuplesFilter o r refs) x ↔
    y = x ∧ Object (Key (AsTuple x)) = o ∧ Relation (Key (AsTuple x)) = r ∧ GetUserTypeFromUser (tr_User x) = UserTypeUserSet ∧
    ∃ rr, rr ∈ refs ∧ rr_Type rr = GetType (tr_User x) ∧ rr_GetRelation rr = (SplitObjectRelation (tr_User x)).2)) as Hm.
  { intros x y Hx. pose proof (match_object_relation x o r (store_wf _ _ Hx) Ho Hr) as Hmatch.
    assert (userset_matches (mkReadUsersetTuplesFilter o r refs) x =
      if match_ x (mkTupleKey o r "" None)
         && match GetUserTypeFromUser (tr_User x) with UserTypeUserSet => true | _ => false end
      then omap (λ a, if (rr_Type a =s GetType (tr_User x)) && (rr_GetRelation a =s (SplitObjectRelation (tr_User x)).2)
                      then Some x else None) refs
      else []) as -> by (unfold userset_matches; by destruct refs).
    destruct (match_ x _); cbn [andb].
    2: { split; [by intros ?%not_elem_of_nil|]. intros (_&Hx1&Hx2&_). by discriminate (proj2 Hmatch (conj Hx1 Hx2)). }
    destruct (GetUserTypeFromUser (tr_User x)); [split; [by intros ?%not_elem_of_nil|by intros (_&_&_&?&_)]|].
    rewrite list_elem_of_omap. destruct (proj1 Hmatch eq_refl) as [Hx1 Hx2]. split.
    - intros (rr&Hrr&Heq). destruct ((rr_Type rr =s _) && _) eqn:E; [|done]. injection Heq as ->. bool_norm.
      split_and!; [done..|]. by exists rr.
    - intros (->&_&_&_&rr&Hrr&Hty&Hg). exists rr. split; [done|]. by rewrite !bool_decide_true. }
  split.
  - intros (y&->&Hy). rewrite list_elem_of_In, in_concat in Hy. destruct Hy as (l&Hl&Hy). apply list_elem_of_In in Hl, Hy.
    apply list_elem_of_fmap in Hl as (x&->&Hx). apply Hm in Hy as (->&Hrest); [|done].
    rewrite AsTuple_User by by eapply store_wf. split; [by exists x|done].
  - intros ((x&->&Hx)&Hrest). exists x. split; [done|]. rewrite AsTuple_User in Hrest by by eapply store_wf.
    eapply elem_of_concat_fmap; [exact Hx|]. by apply Hm.
Qed.

Definition memory_ReaderSpec (store : string) : @RelationshipTupleReaderSpec (memory_Reader s) store.
Proof.
  refine (@Build_RelationshipTupleReaderSpec (memory_Reader s) store (AsTuple <$> store_tuples s store)
    si_IteratorSpec (memory_unique store) (memory_Read store) (memory_ReadUserTuple store) (memory_ReadUsersetTuples store)).
Defined.
End memory.

(** ** A setting to run checks in *)

Definition id_Scheduler : Scheduler := {| arrive _ _ l := l; arrive_perm _ _ l := Permutation_refl l; base_first _ _ := true |}.
Definition rev_Scheduler : Scheduler := {| arrive _ _ l := rev l; arrive_perm _ _ l := Permutation_sym (Permutation_rev l); base_first _ _ := true |}.

Definition demo_GraphLaws : @GraphLaws demo_Graph.
Proof. by split. Defined.

Definition no_paths : FastPaths :=
  mkFastPaths (λ _ _ _ _, false) (λ _ _ _, false) (λ _ _ _ _ _, false) (λ _ _ _ _ _, false)
    (λ _ _, Throw ErrPanic) (λ _ _, Throw ErrPanic) (λ _ _ _, Throw ErrPanic) (λ _ _ _, Throw ErrPanic).

Lemma no_paths_none : no_fast_paths no_paths.
Proof. by repeat split. Qed.

(** A backend with the given tuples, written by [Write]. *)
Definition backend_with (writes : list TupleKey) : MemoryBackend :=
  match @Write counter_Ulid 0 "store" [] writes (Memory.New None None) (0%N, 0%Z) with
  | Ret (s, _) => s
  | _ => Memory.New None None
  end.

Definition demo_check (sched : Scheduler) (t : @TypeSystem demo_Graph) (writes : list TupleKey) (tk : TupleKey) : checkOutcome :=
  @ResolveCheck demo_Graph demo_Cel sched (memory_Reader (backend_with writes)) t ∅ no_paths 25
    (@check_fuel demo_Graph t 25 (initial_request "store" tk None)) (initial_request "store" tk None).

(** type group with member: [user, team#member], type team with member: [user,
    group#member], type doc with base: [user], a: [group#member], b: [user] and
    viewer: base but not (a and b). *)
Definition order_model : AuthorizationModel :=
  mkAuthorizationModel "model" "1.1"
    [mkTypeDefinition "user" ∅ ∅;
     mkTypeDefinition "group" {["member" := This]}
       {["member" := [DirectRelationReference "user" ""; DirectRelationReference "team" "member"]]};
     mkTypeDefinition "team" {["member" := This]}
       {["member" := [DirectRelationReference "user" ""; DirectRelationReference "group" "member"]]};
     mkTypeDefinition "doc"
       (<["base" := This]> (<["a" := This]> (<["b" := This]>
        {["viewer" := Difference (ComputedUserset "base") (Intersection [ComputedUserset "a"; ComputedUserset "b"])]})))
       (<["base" := [DirectRelationReference "user" ""]]> (<["a" := [DirectRelationReference "group" "member"]]>
        {["b" := [DirectRelationReference "user" ""]]}))] ∅.

Definition order_tuples : list TupleKey :=
  [NewTupleKey "doc:1" "base" "user:x"; NewTupleKey "doc:1" "a" "group:1#member";
   NewTupleKey "group:1" "member" "team:1#member"; NewTupleKey "team:1" "member" "group:1#member"].

(** The answer of a check can depend on the order in which concurrent sub-problems
    finish.  Here user:x has base, is not in a (the groups only contain each other) and
    not in b, so user:x is a viewer.  The intersection answers with the first denial that
    arrives: when that is the one of a, it carries the cycle found among the groups, and
    the exclusion turns a cycle of its subtracted operand into a denial; when it is the
    one of b, the exclusion allows. *)
Theorem Check_depends_on_order :
  match validate order_model with
  | Ret t =>
      demo_check id_Scheduler t order_tuples (NewTupleKey "doc:1" "viewer" "user:x") = Ret (mkResolveCheckResponse false true) ∧
      demo_check rev_Scheduler t order_tuples (NewTupleKey "doc:1" "viewer" "user:x") = Ret (mkResolveCheckResponse true false)
  | _ => False
  end.
Proof. vm_compute. by split. Qed.

(** *** Deciding the hypotheses of the theorems on concrete settings *)

Definition all_relations `{!ModelGraph} (t : TypeSystem) : list RelationDef :=
  concat ((λ p : string * gmap string RelationDef, (map_to_list p.2).*2) <$> map_to_list (relations t)).

Lemma elem_of_all_relations `{!ModelGraph} t ty r rel : GetRelation t ty r = Ret rel → rel ∈ all_relations t.
Proof.
  intros [_ Hl]%GetRelation_Ret. destruct (relations t !! ty) as [rels|] eqn:E; simpl in Hl; [|by rewrite lookup_empty in Hl].
  eapply (elem_of_concat_fmap _ _ _ (ty, rels)); [by apply elem_of_map_to_list|]. simpl.
  apply list_elem_of_fmap. exists (r, rel). split; [done|]. by apply elem_of_map_to_list.
Qed.

Lemma forallb_elem {A} (f : A → bool) l x : forallb f l = true → x ∈ l → f x = true.
Proof. intros Hf Hx%list_elem_of_In. by eapply forallb_forall. Qed.

Definition named_ref (rr : RelationReference) : bool :=
  match rr_RelationOrWildcard rr with Some (RR_Relation r) => negb (r =s "") | _ => true end.

Lemma refs_named_decide `{!ModelGraph} t :
  forallb (λ rel, forallb named_ref (rel_DirectlyRelatedUserTypes rel)) (all_relations t) = true → refs_named t.
Proof.
  intros Hall ty r rel rr Hrel Hrr Heq. eapply forallb_elem in Hall; [|by eapply elem_of_all_relations].
  eapply forallb_elem in Hall; [|done]. unfold named_ref in Hall. by rewrite Heq in Hall.
Qed.

Lemma positive_decide `{!ModelGraph} t :
  forallb (λ rel, negb (has_difference (rel_Rewrite rel))) (all_relations t) = true → positive_model t.
Proof.
  intros Hall ty r rel Hrel. eapply forallb_elem in Hall; [|by eapply elem_of_all_relations].
  by apply negb_true_iff in Hall.
Qed.

Definition complete_b (tk : TupleKey) : bool :=
  negb (GetType (Object tk) =s "") && negb ((SplitObject (Object tk)).2 =s "")
  && negb (Relation tk =s "") && negb (User tk =s "").

Lemma complete_decide tk : complete_b tk = true → complete_key (key_of tk).
Proof.
  unfold complete_b, key_of, GetType. intros Hc. bool_norm.
  destruct (SplitObject_cases (Object tk)) as [[_ Hs]|(t&id&Ho&Ht&Hs)]; rewrite Hs in *; [done|].
  split_and!; [|done..]. by exists t, id.
Qed.

Lemma backend_with_inv writes :
  forallb complete_b writes = true → backend_inv (backend_with writes).
Proof.
  intros Hw. unfold backend_with.
  pose proof (@machine_inv_init counter_Ulid counter_UlidLaws None None (0%N, 0%Z)) as H0.
  destruct (@Write counter_Ulid 0 "store" [] writes (Memory.New None None) (0%N, 0%Z)) as [[s e]| |] eqn:E; [|apply H0..].
  apply (@machine_inv_write counter_Ulid counter_UlidLaws 0 "store" [] writes (Memory.New None None) (0%N, 0%Z) s e);
    [done|done| |done].
  apply Forall_forall. intros tk Htk. apply complete_decide. by eapply forallb_elem.
Qed.

(** The setting of a model, some tuples and a user. *)
Definition demo_setting_ok (t : @TypeSystem demo_Graph) (writes : list TupleKey) (user : string) : bool :=
  forallb (λ rel, forallb named_ref (rel_DirectlyRelatedUserTypes rel)) (all_relations t)
  && forallb complete_b writes
  && forallb (λ x, IsValidUser (User (Key x))) (AsTuple <$> store_tuples (backend_with writes) "store")
  && IsValidUser user && negb (GetType user =s "").

Lemma demo_setting m t writes user (Hw : forallb complete_b writes = true) :
  validate m = Ret t → demo_setting_ok t writes user = true →
  @check_setting demo_Graph demo_Cel map_to_list_MapRange demo_Compiler m t ∅ no_paths
    (memory_Reader (backend_with writes)) "store" (memory_ReaderSpec _ (backend_with_inv writes Hw) "store") None user.
Proof.
  intros Hm Hok. unfold demo_setting_ok in Hok. bool_norm. split; [done| | | | |done|done].
  - by apply refs_named_decide.
  - intros name e He. by rewrite lookup_empty in He.
  - apply no_fast_paths_ok, no_paths_none.
  - intros x Hx. by eapply (forallb_elem (λ x, IsValidUser (User (Key x)))); [|exact Hx].
Qed.

(** type group with member: [user, group#member], type folder with viewer: [user], type doc
    with parent: [folder] and viewer: [group#member] or viewer from parent. *)
Definition group_model : AuthorizationModel :=
  mkAuthorizationModel "model" "1.1"
    [mkTypeDefinition "user" ∅ ∅;
     mkTypeDefinition "group" {["member" := This]}
       {["member" := [DirectRelationReference "user" ""; DirectRelationReference "group" "member"]]};
     mkTypeDefinition "folder" {["viewer" := This]} {["viewer" := [DirectRelationReference "user" ""]]};
     mkTypeDefinition "doc"
       (<["parent" := This]> {["viewer" := Union [This; TupleToUserset "parent" "viewer"]]})
       (<["parent" := [DirectRelationReference "folder" ""]]> {["viewer" := [DirectRelationReference "group" "member"]]})] ∅.

(** Two groups that contain each other, user:x in one of them, user:y in a folder. *)
Definition group_tuples : list TupleKey :=
  [NewTupleKey "group:a" "member" "group:b#member"; NewTupleKey "group:b" "member" "group:a#member";
   NewTupleKey "group:b" "member" "user:x"; NewTupleKey "doc:1" "viewer" "group:a#member";
   NewTupleKey "doc:1" "parent" "folder:1"; NewTupleKey "folder:1" "viewer" "user:y"].

Definition viewer_request (user : string) : ResolveCheckRequest :=
  initial_request "store" (NewTupleKey "doc:1" "viewer" user) None.

Lemma viewer_request_ok user : request_ok "store" None user (viewer_request user).
Proof. split; [done|]. split; [done|]. split; [done|]. split; [|done]. by exists "doc", "1". Qed.

Lemma depth_25 user : depth_ok 25 (viewer_request user).
Proof. unfold depth_ok; simpl. lia. Qed.

Lemma group_tuples_complete : forallb complete_b group_tuples = true.
Proof. reflexivity. Qed.

Lemma ResolveCheck_terminates_witness :
  match validate group_model with
  | Ret t => ∃ o, concluded o ∧ demo_check rev_Scheduler t group_tuples (NewTupleKey "doc:1" "viewer" "user:z") = o
  | _ => False
  end.
Proof.
  destruct (validate group_model) as [t| |] eqn:E; [clear E|by vm_compute in E..].
  destruct (@ResolveCheck_terminates demo_Graph demo_Cel rev_Scheduler (memory_Reader (backend_with group_tuples)) t ∅ no_paths 25
    (viewer_request "user:z")) as (o&Hc&Ho).
  - exact (no_fast_paths_conclude _ no_paths_none).
  - exact (depth_25 _).
  - exists o. split; [exact Hc|]. apply Ho. reflexivity.
Defined.
