(* ===== verification/CombinedReader.v ===== *)
(** * Contextual tuples: [pkg/storage/storagewrappers/combinedtuplereader.go]

    A request can bring tuples of its own.  [CombinedTupleReader] reads from them and from
    the datastore.  It meets the interface of Check when no contextual tuple repeats a
    stored one, so checks with contextual tuples are exact for both together; when one
    does, its sorted read loses stored tuples. *)

From S2P Require Import Prelude GoStd Tuple Iterators Model Memory MemorySpec Typesystem Entrypoints TypesystemSpec.
From S2P Require Import Condition Validation ValidationSpec Check CheckSpec CheckSemantics CheckExact CheckMemory.

Local Open Scope go_scope.

(** ** Iterators of two kinds behind the interface *)

Section either.
Context {A B T : Type} `{!Iterator A T, !Iterator B T}.

Global Instance either_Iterator : Iterator (A + B) T := {|
  Next ctx x := match x with
                | inl a => let '(r, a') := Next ctx a in (r, inl a')
                | inr b => let '(r, b') := Next ctx b in (r, inr b')
                end;
  Head ctx x := match x with
                | inl a => let '(r, a') := Head ctx a in (r, inl a')
                | inr b => let '(r, b') := Head ctx b in (r, inr b')
                end;
  Stop x := match x with inl a => inl (Stop a) | inr b => inr (Stop b) end;
  remaining x := match x with inl a => remaining a | inr b => remaining b end;
|}.

Context `{!IteratorSpec A T, !IteratorSpec B T}.

Definition either_items (x : A + B) : list T := match x with inl a => items a | inr b => items b end.

Global Program Instance either_Spec : IteratorSpec (A + B) T := {| items := either_items |}.
Next Obligation.
  intros [a|b]; simpl; [pose proof (Next_items a) as HN|pose proof (Next_items b) as HN];
    destruct (items _); destruct HN as (x'&->&Hx'); eexists; split; done.
Qed.
Next Obligation.
  intros [a|b]; simpl; [pose proof (Head_items a) as HN|pose proof (Head_items b) as HN];
    destruct (items _); destruct HN as (x'&->&Hx'); eexists; split; done.
Qed.
Next Obligation. intros [a|b]; simpl; apply remaining_items. Qed.
End either.

(** ** The reader *)

(** [contextualTuplesOrderedByObjectID]; the wrapped datastore is the [RelationshipTupleReader]
    in scope. *)
Record CombinedTupleReader := mkCombinedTupleReader { contextualTuplesOrderedByObjectID : list TupleKey }.

(** [slices.SortFunc] may reorder tuples of the same object, like [sort.Slice]. *)
Definition NewCombinedTupleReader `{!SortSlice} (contextualTuples : list TupleKey) : CombinedTupleReader :=
  let cu := (λ t, NewTupleKeyWithCondition (Object t) (Relation t) (User t) (GetName (Condition t))
                    (match Condition t with Some c => cond_Context c | None => None end)) <$> contextualTuples in
  mkCombinedTupleReader (sort_slice (λ a b, String.ltb (Object a) (Object b)) cu).

Definition filterTuples (tuples : list TupleKey) (targetObject targetRelation : string) (targetUsers : list string)
  : list Tuple :=
  (λ tk, mkTuple tk None) <$>
  List.filter (λ tk,
    ((targetObject =s "") || (Object tk =s targetObject))
    && ((targetRelation =s "") || (Relation tk =s targetRelation))
    && (bool_decide (targetUsers = []) || bool_decide (User tk ∈ targetUsers))) tuples.

Definition tupleMatchesAllowedUserTypeRestrictions (t : Tuple) (allowed : list RelationReference) : bool :=
  let tupleUser := User (Key t) in
  match GetUserTypeFromUser tupleUser with
  | UserTypeUserSet =>
      existsb (λ a,
        match rr_RelationOrWildcard a with
        | Some RR_Wildcard => IsTypedWildcard tupleUser && (GetType tupleUser =s rr_Type a)
        | Some (RR_Relation rel) =>
            IsObjectRelation tupleUser && (GetType tupleUser =s rr_Type a) && (Tuple.GetRelation tupleUser =s rel)
        | None => false
        end) allowed
  | UserTypeUser => false
  end.

Section combined_reader.
Context `{!RelationshipTupleReader} (c : CombinedTupleReader).

Abbreviation either_iter := (StaticIterator Tuple + reader_iter)%type.
Abbreviation contextual := (contextualTuplesOrderedByObjectID c).

(** The iterator over the contextual tuples followed by the datastore's. *)
Definition combine (iter1 : list Tuple) (iter2 : outcome StorageErr reader_iter)
  : outcome StorageErr (combinedIterator either_iter) :=
  let! it := iter2 in
  Ret (NewCombinedIterator [Some (inl (NewStaticIterator iter1)); Some (inr it)]).

Definition combined_Read (storeID : string) (tk : TupleKey) : outcome StorageErr (combinedIterator either_iter) :=
  combine (filterTuples contextual (Object tk) (Relation tk) []) (rd_Read storeID tk).

Definition combined_ReadUserTuple (store : string) (tk : TupleKey) : outcome StorageErr Tuple :=
  match List.find (λ t, User (Key t) =s User tk) (filterTuples contextual (Object tk) (Relation tk) [User tk]) with
  | Some t => Ret t
  | None => rd_ReadUserTuple store tk
  end.

Definition combined_ReadUsersetTuples (store : string) (filter : ReadUsersetTuplesFilter)
  : outcome StorageErr (combinedIterator either_iter) :=
  combine (List.filter (λ t, tupleMatchesAllowedUserTypeRestrictions t (ruf_AllowedUserTypeRestrictions filter))
             (filterTuples contextual (ruf_Object filter) (ruf_Relation filter) []))
          (rd_ReadUsersetTuples store filter).

Definition combined_Reader : RelationshipTupleReader := {|
  reader_iter := combinedIterator either_iter;
  rd_Read := combined_Read;
  rd_ReadUserTuple := combined_ReadUserTuple;
  rd_ReadUsersetTuples := combined_ReadUsersetTuples;
|}.

(** What [ReadStartingWithUser] returns, sorted or not. *)
Inductive StartingIterator :=
| StartingOrdered (it : OrderedCombined either_iter Tuple)
| StartingCombined (it : combinedIterator either_iter).

(** [ReadStartingWithUser], [ds] being the datastore's. *)
Definition combined_ReadStartingWithUser
    (ds : string → ReadStartingWithUserFilter → outcome StorageErr reader_iter)
    (store : string) (filter : ReadStartingWithUserFilter) (withResultsSortedAscending : bool)
  : outcome StorageErr StartingIterator :=
  let userFilters := (λ u, if negb (or_Relation u =s "") then ToObjectRelationString (or_Object u) (or_Relation u)
                           else or_Object u) <$> rsf_UserFilter filter in
  let filteredTuples := List.filter (λ t, GetType (Object (Key t)) =s rsf_ObjectType filter)
                          (filterTuples contextual "" (rsf_Relation filter) userFilters) in
  let! iter2 := ds store filter in
  if withResultsSortedAscending
  then Ret (StartingOrdered (NewOrderedCombinedIterator
              [Some (inl (NewStaticIterator filteredTuples)); Some (inr iter2)]))
  else Ret (StartingCombined (NewCombinedIterator
              [Some (inl (NewStaticIterator filteredTuples)); Some (inr iter2)])).
End combined_reader.

(** ** The interface of Check *)

(** The tuples a reader brings. *)
Definition contextual_tuples (c : CombinedTupleReader) : list Tuple :=
  (λ tk, mkTuple tk None) <$> contextualTuplesOrderedByObjectID c.

(** Contextual tuples as [ValidateTupleForWrite] lets them in, none repeated and none of
    them stored. *)
Record contextual_ok (c : CombinedTupleReader) (stored : list Tuple) : Prop := {
  ct_users t : t ∈ contextual_tuples c → IsValidUser (User (Key t)) = true ∧ GetType (User (Key t)) ≠ "";
  ct_unique t t' : t ∈ contextual_tuples c → t' ∈ contextual_tuples c → key_of (Key t) = key_of (Key t') → t = t';
  ct_fresh t t' : t ∈ contextual_tuples c → t' ∈ stored → key_of (Key t) ≠ key_of (Key t');
}.

Lemma elem_of_filterTuples tuples o r us t :
  t ∈ filterTuples tuples o r us ↔
  t ∈ ((λ tk, mkTuple tk None) <$> tuples) ∧ (o = "" ∨ Object (Key t) = o) ∧ (r = "" ∨ Relation (Key t) = r) ∧
  (us = [] ∨ User (Key t) ∈ us).
Proof.
  unfold filterTuples. rewrite !list_elem_of_fmap. split.
  - intros (tk&->&[Hin%list_elem_of_In Hf]%list_elem_of_In%List.filter_In). simpl. rewrite !andb_true_iff, !orb_true_iff, !bool_decide_eq_true in Hf.
    destruct Hf as [[??]?]. split_and!; [by exists tk|done..].
  - intros ((tk&->&Hin)&Hf). exists tk. split; [done|]. apply list_elem_of_In, List.filter_In.
    split; [by apply list_elem_of_In|]. simpl in Hf. rewrite !andb_true_iff, !orb_true_iff, !bool_decide_eq_true. tauto.
Qed.

(** The restrictions select the same users in the contextual tuples as in a datastore. *)
Lemma tupleMatches_spec t refs :
  IsValidUser (User (Key t)) = true → GetType (User (Key t)) ≠ "" → Forall userset_ref refs →
  tupleMatchesAllowedUserTypeRestrictions t refs = true ↔
  GetUserTypeFromUser (User (Key t)) = UserTypeUserSet ∧
  ∃ rr, rr ∈ refs ∧ rr_Type rr = GetType (User (Key t)) ∧ rr_GetRelation rr = (SplitObjectRelation (User (Key t))).2.
Proof.
  intros Hv Hty Hrefs. unfold tupleMatchesAllowedUserTypeRestrictions. set (u := User (Key t)) in *.
  pose proof (valid_user_facts _ Hv) as (_&_&Hor&_). unfold Tuple.GetRelation in *.
  destruct (GetUserTypeFromUser u) eqn:Hut; [split; [done|by intros [? _]]|].
  assert (IsTypedWildcard u = true ∨ (SplitObjectRelation u).2 ≠ "") as Hcase.
  { unfold GetUserTypeFromUser, IsWildcard in Hut. rewrite Hor in Hut. case_bool_decide as Hr; [|by right]. simpl in Hut.
    case_bool_decide as Hstar; [by rewrite Hstar in Hty|]. left. simpl in Hut. by destruct (IsTypedWildcard u). }
  assert (IsTypedWildcard u = true → (SplitObjectRelation u).2 = "") as Hwild.
  { intros Hw. destruct (decide ((SplitObjectRelation u).2 = "")) as [|Hne]; [done|]. exfalso.
    apply IsValidUser_cases in Hv as [(Hc&_)|[(ty&id&Heq&Ht&Hid)|(ty&id&r&Heq&Ht&Hid&_)]].
    - unfold IsTypedWildcard in Hw. by rewrite SplitObject_none in Hw.
    - rewrite Heq, SplitObjectRelation_none in Hne; [done|]. apply BuildObject_no_hash; word_byte.
    - unfold IsTypedWildcard in Hw. rewrite Heq in Hw. unfold UsersetString, ToObjectRelationString in Hw.
      rewrite BuildObject_app, SplitObject_build in Hw by word_byte. bool_norm.
      destruct id as [|d [|d' id]]; [by destruct Hid| |]; rewrite !str_app_cons in *; done. }
  rewrite existsb_exists. setoid_rewrite <-list_elem_of_In. rewrite Forall_forall in Hrefs. split.
  - intros (rr&Hrr&Hm). split; [done|]. exists rr. split; [done|]. unfold rr_GetRelation.
    destruct (rr_RelationOrWildcard rr) as [[rel|]|]; bool_norm; [done| |done]. split; [done|]. symmetry. by apply Hwild.
  - intros (_&rr&Hrr&Hty'&Hg). exists rr. split; [done|]. destruct (Hrefs _ Hrr) as [Hw|Hne].
    + unfold rr_HasWildcard in Hw. unfold rr_GetRelation in Hg. destruct (rr_RelationOrWildcard rr) as [[rel|]|]; try done.
      destruct Hcase as [->|?]; [|by rewrite <-Hg in *]. by rewrite bool_decide_true.
    + unfold rr_GetRelation in *. destruct (rr_RelationOrWildcard rr) as [[rel|]|]; try done.
      rewrite Hor, <-Hg, (bool_decide_false (rel = "")) by done. simpl. by rewrite !bool_decide_true.
Qed.

Section combined_spec.
Context `{!RelationshipTupleReader} (store : string) `{!RelationshipTupleReaderSpec store} (c : CombinedTupleReader).
Hypothesis Hok : contextual_ok c (stored store).

Definition combined_stored : list Tuple := contextual_tuples c ++ stored store.

Lemma combined_unique t t' :
  t ∈ combined_stored → t' ∈ combined_stored → key_of (Key t) = key_of (Key t') → t = t'.
Proof.
  destruct Hok as [_ Hu Hf]. intros [Ht|Ht]%elem_of_app [Ht'|Ht']%elem_of_app Heq.
  - by apply Hu.
  - by destruct (Hf t t').
  - by destruct (Hf t' t).
  - by eapply stored_unique.
Qed.

Lemma combine_items l it (P : Tuple → Prop) :
  (∀ t, t ∈ l ↔ t ∈ contextual_tuples c ∧ P t) → (∀ t, t ∈ items it ↔ t ∈ stored store ∧ P t) →
  ∃ it', combine l (Ret it) = Ret it' ∧ ∀ t, t ∈ items it' ↔ t ∈ combined_stored ∧ P t.
Proof.
  intros Hl Hit. eexists. split; [done|]. intros t. simpl. unfold combined_items; simpl. unfold combined_stored.
  rewrite app_nil_r, !elem_of_app, Hl, Hit. tauto.
Qed.

Lemma combined_Read_spec o r :
  object_ok o → r ≠ "" →
  ∃ it, combined_Read c store (NewTupleKey o r "") = Ret it ∧
    ∀ t, t ∈ items it ↔ t ∈ combined_stored ∧ Object (Key t) = o ∧ Relation (Key t) = r.
Proof.
  intros Ho Hr. destruct (Read_spec o r Ho Hr) as (it&Hget&Hit). unfold combined_Read. rewrite Hget.
  apply combine_items; [|done]. intros t. rewrite elem_of_filterTuples. simpl.
  assert (o ≠ "") by (destruct Ho as [(ty&id&->&_) _]; unfold BuildObject; by destruct ty).
  unfold contextual_tuples. naive_solver.
Qed.

Lemma combined_ReadUserTuple_spec tk :
  complete_key (key_of tk) →
  match combined_ReadUserTuple c store tk with
  | Ret t => t ∈ combined_stored ∧ key_of (Key t) = key_of tk
  | Throw e => e = ErrNotFound ∧ ∀ t, t ∈ combined_stored → key_of (Key t) ≠ key_of tk
  | Panic _ => False
  end.
Proof.
  intros Hk. unfold combined_ReadUserTuple, combined_stored.
  assert (Object tk ≠ "" ∧ Relation tk ≠ "") as [Ho Hr].
  { destruct Hk as ((ty&id&->&_)&?&_). split; [unfold BuildObject; by destruct ty|done]. }
  destruct (List.find _ _) as [t|] eqn:Hf.
  - apply List.find_some in Hf as [Hin%list_elem_of_In Hu]. apply elem_of_filterTuples in Hin as (Hin&Hto&Htr&_). bool_norm.
    split; [by apply elem_of_app; left|]. unfold key_of. destruct Hto as [?| ->]; [done|]. destruct Htr as [?| ->]; [done|].
    by rewrite Hu.
  - pose proof (ReadUserTuple_spec tk Hk) as Hread.
    destruct (rd_ReadUserTuple store tk) as [t|e|w]; [|destruct Hread as [-> Hread]|done].
    + destruct Hread. split; [by apply elem_of_app; right|done].
    + split; [done|]. intros t [Ht|Ht]%elem_of_app; [|by apply Hread]. intros [= Hto Htr Htu].
      apply List.find_none with (x := t) in Hf; [by rewrite bool_decide_true in Hf|].
      apply list_elem_of_In, elem_of_filterTuples. split_and!; [done|by right..|right; by apply list_elem_of_singleton].
Qed.

Lemma combined_ReadUsersetTuples_spec o r refs :
  object_ok o → r ≠ "" → refs ≠ [] → Forall userset_ref refs →
  ∃ it, combined_ReadUsersetTuples c store (mkReadUsersetTuplesFilter o r refs) = Ret it ∧
    ∀ t, t ∈ items it ↔ t ∈ combined_stored ∧ Object (Key t) = o ∧ Relation (Key t) = r ∧
      GetUserTypeFromUser (User (Key t)) = UserTypeUserSet ∧
      ∃ rr, rr ∈ refs ∧ rr_Type rr = GetType (User (Key t)) ∧ rr_GetRelation rr = (SplitObjectRelation (User (Key t))).2.
Proof.
  intros Ho Hr Hne Hrefs. destruct (ReadUsersetTuples_spec o r refs Ho Hr Hne Hrefs) as (it&Hget&Hit).
  unfold combined_ReadUsersetTuples. rewrite Hget. apply combine_items; [|done]. intros t. simpl.
  assert (o ≠ "") by (destruct Ho as [(ty&id&->&_) _]; unfold BuildObject; by destruct ty).
  rewrite list_elem_of_In, List.filter_In, <-list_elem_of_In, elem_of_filterTuples. fold (contextual_tuples c). split.
  - intros ((Ht&Hto&Htr&_)&Hm). destruct Hto as [?|Hto]; [done|]. destruct Htr as [?|Htr]; [done|].
    destruct (ct_users _ _ Hok t Ht). apply tupleMatches_spec in Hm; [|done..]. tauto.
  - intros (Ht&Hto&Htr&Hm). destruct (ct_users _ _ Hok t Ht).
    split; [split_and!; [done|by right|by right|by left]|]. by apply tupleMatches_spec.
Qed.

Definition combined_ReaderSpec : @RelationshipTupleReaderSpec (combined_Reader c) store.
Proof.
  refine (@Build_RelationshipTupleReaderSpec (combined_Reader c) store combined_stored
    (combined_Spec (S := StaticIterator Tuple + reader_iter)) combined_unique combined_Read_spec combined_ReadUserTuple_spec
    combined_ReadUsersetTuples_spec).
Defined.
End combined_spec.

(** ** Theorems *)

(** A store with doc:1#viewer@user:x and doc:2#viewer@user:x. *)
Definition listing_tuples : list TupleKey := [NewTupleKey "doc:1" "viewer" "user:x"; NewTupleKey "doc:2" "viewer" "user:x"].

(** The objects of a sorted read of the documents user:x views, with contextual tuples. *)
Definition sorted_objects (contextual : list TupleKey) (ids : option (list string)) : option (list string * option IterErr) :=
  let s := backend_with listing_tuples in
  match @combined_ReadStartingWithUser (memory_Reader s) (@NewCombinedTupleReader stable_SortSlice contextual)
          (@ReadStartingWithUser stable_SortSlice s) "store"
          (mkReadStartingWithUserFilter "doc" "viewer" [mkObjectRelation "user:x" ""] ids) true with
  | Ret (StartingOrdered it) =>
      let '(l, e) := drain_fuel (ordered_Next ObjectMapper 10 None) 10 it in Some ((λ t, Object (Key t)) <$> l, e)
  | _ => None
  end.

(** A contextual tuple that is also stored hides the next stored tuple: without
    contextual tuples the sorted read of [ReadStartingWithUser] returns doc:1 and doc:2, and
    with the contextual tuple doc:1#viewer@user:x, already stored, only doc:1.  The object
    ids of the filter, moreover, do not restrict contextual tuples. *)
Theorem contextual_duplicate_hides_stored :
  sorted_objects [] None = Some (["doc:1"; "doc:2"], Some ErrIteratorDone) ∧
  sorted_objects [NewTupleKey "doc:1" "viewer" "user:x"] None = Some (["doc:1"], Some ErrIteratorDone) ∧
  sorted_objects [NewTupleKey "doc:3" "viewer" "user:x"] (Some ["1"]) = Some (["doc:1"; "doc:3"], Some ErrIteratorDone).
Proof. split_and!; vm_compute; reflexivity. Qed.
