(* ===== verification/RelationshipGraph.v ===== *)
(** * The reverse edges of a model: [internal/graph/graph.go]

    ListObjects walks a model backwards, from a user towards the objects.
    [getRelationshipEdges] collects, for a target relation and a source (a type, a wildcard
    or a relation), the edges that leave the source on a path to the target.  The walk is
    a depth-first search over the relations of the model with a shared visited set; the
    fuel of [getRelationshipEdges] bounds the nesting of its calls, each of which marks a
    new relation.

    The theorems describe the pruned search, the one ListObjects uses: it returns an edge
    for every leaf of every relation reachable from the target that the source matches,
    and an edge that is not marked for further evaluation comes from a leaf that no
    intersection or exclusion encloses. *)

From S2P Require Import Prelude GoStd Tuple Model Typesystem Entrypoints TypesystemSpec.

Local Open Scope go_scope.

(** ** Edges *)

Inductive RelationshipEdgeType := DirectEdge | TupleToUsersetEdge | ComputedUsersetEdge.

Global Instance RelationshipEdgeType_eq_dec : EqDecision RelationshipEdgeType.
Proof. solve_decision. Defined.

Definition edge_type_String (r : RelationshipEdgeType) : string :=
  match r with
  | DirectEdge => "direct"
  | ComputedUsersetEdge => "computed_userset"
  | TupleToUsersetEdge => "ttu"
  end.

Record RelationshipEdge := mkRelationshipEdge {
  edge_Type : RelationshipEdgeType;
  TargetReference : RelationReference;
  TuplesetRelation : string;
  TargetReferenceInvolvesIntersectionOrExclusion : bool;
}.

Inductive findEdgeOption := resolveAllEdges | resolveAnyEdge.

(** [childresult.TargetReferenceInvolvesIntersectionOrExclusion = true]. *)
Definition require_further_eval (e : RelationshipEdge) : RelationshipEdge :=
  mkRelationshipEdge (edge_Type e) (TargetReference e) (TuplesetRelation e) true.

(** The assignment to the first edge of a list, if there is one. *)
Definition require_first (edges : list RelationshipEdge) : list RelationshipEdge :=
  match edges with [] => [] | e :: rest => require_further_eval e :: rest end.

(** ** The search *)

(** An outcome with the visited map that the calls share. *)
Abbreviation edges_outcome := (outcome TsErr (list RelationshipEdge) * gset string)%type.

(** [x, err := call; if err != nil { return nil, err }]. *)
Definition edges_bind (r : edges_outcome) (k : list RelationshipEdge → gset string → edges_outcome) : edges_outcome :=
  match r with
  | (Ret edges, visited) => k edges visited
  | (Throw e, visited) => (Throw e, visited)
  | (Panic w, visited) => (Panic w, visited)
  end.

(** The loops that append the edges of each element. *)
Section collect.
Context {A : Type} (f : A → gset string → edges_outcome).

Fixpoint collect (l : list A) (visited : gset string) : edges_outcome :=
  match l with
  | [] => (Ret [], visited)
  | x :: rest =>
      edges_bind (f x visited) (λ edges visited,
      edges_bind (collect rest visited) (λ more visited, (Ret (edges ++ more), visited)))
  end.
End collect.

(** [v, _ := call]: the zero value when the call fails. *)
Definition ignore_err {E A} (zero : A) (r : outcome E A) : A := match r with Ret a => a | _ => zero end.

Lemma ignore_err_true {E} (r : outcome E bool) : ignore_err false r = true → r = Ret true.
Proof. by destruct r as [[]| |]. Qed.

Section edges.
Context `{!ModelGraph} (t : TypeSystem) (source : RelationReference) (opt : findEdgeOption).

Section rewrite.
(** [getRelationshipEdges] for the other targets, and the target at hand. *)
Context (rec : RelationReference → gset string → edges_outcome) (target : RelationReference).

Abbreviation target_ref := (DirectRelationReference (rr_Type target) (rr_GetRelation target)).

(** The iteration over the types of a tupleset relation. *)
Definition edges_ttu_type (tupleset computedUserset : string) (typeRestriction : RelationReference) (visited : gset string)
  : edges_outcome :=
  match GetRelation t (rr_Type typeRestriction) computedUserset with
  | Throw (RelationUndefinedError _ _) | Throw (ErrTuplesetRelationUndefined _) => (Ret [], visited)
  | Throw e => (Throw e, visited)
  | Panic w => (Panic w, visited)
  | Ret r =>
      edges_bind
        (if (rr_Type typeRestriction =s rr_Type source) && (computedUserset =s rr_GetRelation source) then
           (let! involvesIntersection := RelationInvolvesIntersection t (rr_Type typeRestriction) (rel_Name r) in
            let! involvesExclusion := RelationInvolvesExclusion t (rr_Type typeRestriction) (rel_Name r) in
            Ret [mkRelationshipEdge TupleToUsersetEdge target_ref tupleset (involvesIntersection || involvesExclusion)],
            visited)
         else (Ret [], visited))
        (λ res visited,
         edges_bind (rec (DirectRelationReference (rr_Type typeRestriction) computedUserset) visited)
           (λ subResults visited, (Ret (res ++ subResults), visited)))
  end.

(** [getRelationshipEdgesWithTargetRewrite]. *)
Fixpoint getRelationshipEdgesWithTargetRewrite (targetRewrite : Userset) (visited : gset string) : edges_outcome :=
  match targetRewrite with
  | Userset_This =>
      let directlyRelated := ignore_err false (IsDirectlyRelated t target source) in
      let publiclyAssignable := ignore_err false (IsPubliclyAssignable t target (rr_Type source)) in
      let res := if directlyRelated || publiclyAssignable
                 then [mkRelationshipEdge DirectEdge target_ref "" false] else [] in
      let typeRestrictions := ignore_err [] (GetDirectlyRelatedUserTypes t (rr_Type target) (rr_GetRelation target)) in
      edges_bind
        (collect (λ typeRestriction visited,
           if negb (rr_GetRelation typeRestriction =s "") then rec typeRestriction visited else (Ret [], visited))
           typeRestrictions visited)
        (λ edges visited, (Ret (res ++ edges), visited))
  | Userset_ComputedUserset _ relation =>
      let edges := if (rr_Type target =s rr_Type source) && (relation =s rr_GetRelation source)
                   then [mkRelationshipEdge ComputedUsersetEdge target_ref "" false] else [] in
      edges_bind (rec (DirectRelationReference (rr_Type target) relation) visited)
        (λ collected visited, (Ret (edges ++ collected), visited))
  | Userset_TupleToUserset tupleset computedUserset =>
      collect (edges_ttu_type tupleset computedUserset)
        (ignore_err [] (GetDirectlyRelatedUserTypes t (rr_Type target) tupleset)) visited
  | Userset_Union child => collect getRelationshipEdgesWithTargetRewrite child visited
  | Userset_Intersection child =>
      match opt with
      | resolveAnyEdge =>
          match child with
          | [] => (Panic "index out of range", visited)
          | c :: _ =>
              edges_bind (getRelationshipEdgesWithTargetRewrite c visited)
                (λ childresults visited, (Ret (require_further_eval <$> childresults), visited))
          end
      | resolveAllEdges =>
          edges_bind (collect getRelationshipEdgesWithTargetRewrite child visited)
            (λ edges visited, (Ret (require_first edges), visited))
      end
  | Userset_Difference base subtract =>
      match opt with
      | resolveAnyEdge =>
          edges_bind (getRelationshipEdgesWithTargetRewrite base visited)
            (λ childresults visited, (Ret (require_further_eval <$> childresults), visited))
      | resolveAllEdges =>
          edges_bind (getRelationshipEdgesWithTargetRewrite base visited) (λ baseEdges visited,
          edges_bind (getRelationshipEdgesWithTargetRewrite subtract visited) (λ subEdges visited,
          (Ret (require_first baseEdges ++ subEdges), visited)))
      end
  | Userset_nil => (Panic "unexpected userset rewrite encountered", visited)
  end.
End rewrite.

Fixpoint getRelationshipEdges (fuel : nat) (target : RelationReference) (visited : gset string) : edges_outcome :=
  match fuel with
  | O => (Throw ErrFuel, visited)
  | S fuel =>
      let key := ToObjectRelationString (rr_Type target) (rr_GetRelation target) in
      if bool_decide (key ∈ visited) then (Ret [], visited)
      else
        let visited := {[key]} ∪ visited in
        match GetRelation t (rr_Type target) (rr_GetRelation target) with
        | Throw e => (Throw e, visited)
        | Panic w => (Panic w, visited)
        | Ret relation =>
            getRelationshipEdgesWithTargetRewrite (getRelationshipEdges fuel) target (rel_Rewrite relation) visited
        end
  end.
End edges.

(** The relations of the model and one undefined one bound the nesting. *)
Definition edges_fuel `{!ModelGraph} (t : TypeSystem) : nat := S (S (relation_count (relations t))).

Definition GetRelationshipEdges `{!ModelGraph} (t : TypeSystem) (target source : RelationReference)
  : outcome TsErr (list RelationshipEdge) :=
  (getRelationshipEdges t source resolveAllEdges (edges_fuel t) target ∅).1.

Definition GetPrunedRelationshipEdges `{!ModelGraph} (t : TypeSystem) (target source : RelationReference)
  : outcome TsErr (list RelationshipEdge) :=
  (getRelationshipEdges t source resolveAnyEdge (edges_fuel t) target ∅).1.

(** ** What the pruned search returns *)

(** The leaves of a rewrite that the pruned search follows: all operands of a union, the
    first of an intersection, the base of an exclusion; with each leaf, whether an
    intersection or an exclusion encloses it. *)
Fixpoint pruned_leaves (enclosed : bool) (rw : Userset) : list (bool * Userset) :=
  match rw with
  | Userset_Union child => concat (pruned_leaves enclosed <$> child)
  | Userset_Intersection (c :: _) => pruned_leaves true c
  | Userset_Intersection [] => []
  | Userset_Difference base _ => pruned_leaves true base
  | Userset_nil => []
  | leaf => [(enclosed, leaf)]
  end.

Definition relation_key (ty r : string) : string := ToObjectRelationString ty r.

Section leaves.
Context `{!ModelGraph} (t : TypeSystem) (source : RelationReference).

(** The source is matched by the leaf of relation [r] of [ty]: the edge it gives, of the
    given type and tupleset relation. *)
Definition leaf_matches (ty r : string) (leaf : Userset) (kind : RelationshipEdgeType) (tupleset : string) : Prop :=
  match leaf with
  | Userset_This =>
      kind = DirectEdge ∧ tupleset = "" ∧
      (IsDirectlyRelated t (DirectRelationReference ty r) source = Ret true ∨
       IsPubliclyAssignable t (DirectRelationReference ty r) (rr_Type source) = Ret true)
  | Userset_ComputedUserset _ c =>
      kind = ComputedUsersetEdge ∧ tupleset = "" ∧ ty = rr_Type source ∧ c = rr_GetRelation source
  | Userset_TupleToUserset ts c =>
      kind = TupleToUsersetEdge ∧ tupleset = ts ∧ c = rr_GetRelation source ∧
      ∃ tsrel rr crel, GetRelation t ty ts = Ret tsrel ∧ rr ∈ rel_DirectlyRelatedUserTypes tsrel ∧
        rr_Type rr = rr_Type source ∧ GetRelation t (rr_Type rr) c = Ret crel
  | _ => False
  end.

(** The relations that the leaf leads to. *)
Definition leaf_next (ty r : string) (leaf : Userset) (ty' r' : string) : Prop :=
  match leaf with
  | Userset_This => ∃ rel rr, GetRelation t ty r = Ret rel ∧ rr ∈ rel_DirectlyRelatedUserTypes rel ∧
      rr_GetRelation rr ≠ "" ∧ ty' = rr_Type rr ∧ r' = rr_GetRelation rr
  | Userset_ComputedUserset _ c => ty' = ty ∧ r' = c
  | Userset_TupleToUserset ts c =>
      ∃ tsrel rr crel, GetRelation t ty ts = Ret tsrel ∧ rr ∈ rel_DirectlyRelatedUserTypes tsrel ∧
        GetRelation t (rr_Type rr) c = Ret crel ∧ ty' = rr_Type rr ∧ r' = c
  | _ => False
  end.

(** An edge comes from a leaf of its target relation, and is marked when the leaf is
    enclosed. *)
Definition edge_sound (e : RelationshipEdge) : Prop :=
  ∃ ty r rel enclosed leaf,
    TargetReference e = DirectRelationReference ty r ∧ GetRelation t ty r = Ret rel ∧
    (enclosed, leaf) ∈ pruned_leaves false (rel_Rewrite rel) ∧
    leaf_matches ty r leaf (edge_Type e) (TuplesetRelation e) ∧
    (TargetReferenceInvolvesIntersectionOrExclusion e = false → enclosed = false).

(** The edge of a leaf is among the edges, and the relations it leads to are visited. *)
Definition leaf_covered (ty r : string) (leaf : Userset) (edges : list RelationshipEdge) (visited : gset string) : Prop :=
  (∀ kind ts, leaf_matches ty r leaf kind ts →
     ∃ e, e ∈ edges ∧ edge_Type e = kind ∧ TargetReference e = DirectRelationReference ty r ∧ TuplesetRelation e = ts) ∧
  (∀ ty' r', leaf_next ty r leaf ty' r' → relation_key ty' r' ∈ visited).

Definition relation_covered (ty r : string) (edges : list RelationshipEdge) (visited : gset string) : Prop :=
  ∃ rel, GetRelation t ty r = Ret rel ∧
    ∀ enclosed leaf, (enclosed, leaf) ∈ pruned_leaves false (rel_Rewrite rel) → leaf_covered ty r leaf edges visited.

(** What a call that takes [visited] to [visited'] and returns [edges] has done. *)
Record covers (visited : gset string) (edges : list RelationshipEdge) (visited' : gset string) : Prop := {
  cv_mono : visited ⊆ visited';
  cv_sound : Forall edge_sound edges;
  cv_new k : k ∈ visited' → k ∉ visited → ∃ ty r, k = relation_key ty r ∧ relation_covered ty r edges visited';
}.

Lemma leaf_covered_mono ty r leaf edges edges' v v' :
  leaf_covered ty r leaf edges v → edges ⊆ edges' → v ⊆ v' → leaf_covered ty r leaf edges' v'.
Proof.
  intros [H1 H2] He Hv. split; [|set_solver]. intros kind ts Hm. destruct (H1 _ _ Hm) as (e&?&?). exists e. set_solver.
Qed.

Lemma relation_covered_mono ty r edges edges' v v' :
  relation_covered ty r edges v → edges ⊆ edges' → v ⊆ v' → relation_covered ty r edges' v'.
Proof. intros (rel&?&Hl) ??. exists rel. split; [done|]. intros. eapply leaf_covered_mono; eauto. Qed.

Lemma covers_nil v : covers v [] v.
Proof. split; [done|constructor|set_solver]. Qed.

Lemma covers_app v edges v1 more v2 :
  covers v edges v1 → covers v1 more v2 → covers v (edges ++ more) v2.
Proof.
  intros [Hm1 Hs1 Hn1] [Hm2 Hs2 Hn2]. split; [set_solver|by apply Forall_app|].
  intros k Hk Hnk. destruct (decide (k ∈ v1)) as [Hk1|Hk1].
  - destruct (Hn1 k Hk1 Hnk) as (ty&r&?&?). exists ty, r. split; [done|]. eapply relation_covered_mono; [done|set_solver|done].
  - destruct (Hn2 k Hk Hk1) as (ty&r&?&?). exists ty, r. split; [done|]. eapply relation_covered_mono; [done|set_solver|done].
Qed.

Lemma edge_sound_mark e : edge_sound e → edge_sound (require_further_eval e).
Proof. intros (ty&r&rel&enc&leaf&?&?&?&?&_). by exists ty, r, rel, enc, leaf. Qed.

(** Marking edges keeps what they cover. *)
Lemma leaf_covered_marked ty r leaf edges v :
  leaf_covered ty r leaf edges v → leaf_covered ty r leaf (require_further_eval <$> edges) v.
Proof.
  intros [H1 H2]. split; [|done]. intros kind ts Hm. destruct (H1 _ _ Hm) as (e&?&?&?&?).
  exists (require_further_eval e). split; [by apply list_elem_of_fmap_2|done].
Qed.
End leaves.

Section pruned_spec.
Context `{!ModelGraph} (t : TypeSystem) (source : RelationReference).

Abbreviation covers := (covers t source).
Abbreviation edge_sound := (edge_sound t source).
Abbreviation leaf_covered := (leaf_covered t source).

Lemma edges_bind_Ret r k es v :
  edges_bind r k = (Ret es, v) → ∃ es1 v1, r = (Ret es1, v1) ∧ k es1 v1 = (Ret es, v).
Proof. destruct r as [[es1| |] v1]; simpl; [by eauto|done..]. Qed.

(** Edges of an enclosed rewrite are seen marked. *)
Definition mark (enclosed : bool) (e : RelationshipEdge) : RelationshipEdge := if enclosed then require_further_eval e else e.

Lemma mark_false (edges : list RelationshipEdge) : mark false <$> edges = edges.
Proof. apply list_fmap_id. Qed.

Lemma covers_mark b v edges v' : covers v edges v' → covers v (mark b <$> edges) v'.
Proof.
  destruct b; [|by rewrite mark_false]. intros [Hm Hs Hn]. split; [done| |].
  - apply Forall_fmap. eapply Forall_impl; [exact Hs|]. intros e. apply edge_sound_mark.
  - intros k Hk Hnk. destruct (Hn k Hk Hnk) as (ty&r&Hkey&rel&?&Hl). exists ty, r. split; [done|]. exists rel.
    split; [done|]. intros. eapply leaf_covered_marked, Hl. done.
Qed.

Lemma leaf_covered_mark b ty r leaf edges v : leaf_covered ty r leaf edges v → leaf_covered ty r leaf (mark b <$> edges) v.
Proof. destruct b; [apply leaf_covered_marked|by rewrite mark_false]. Qed.

Lemma collect_covers {A} b (f : A → gset string → edges_outcome) (l : list A) (Q : A → list RelationshipEdge → gset string → Prop) :
  (∀ x es v es' v', Q x es v → es ⊆ es' → v ⊆ v' → Q x es' v') →
  (∀ x v es v', x ∈ l → f x v = (Ret es, v') → covers v (mark b <$> es) v' ∧ Q x (mark b <$> es) v') →
  ∀ v es v', collect f l v = (Ret es, v') → covers v (mark b <$> es) v' ∧ ∀ x, x ∈ l → Q x (mark b <$> es) v'.
Proof.
  intros Hmono Hf. induction l as [|x l IH]; intros v es v' Hc; simpl in Hc.
  { simplify_eq. split; [apply covers_nil|set_solver]. }
  apply edges_bind_Ret in Hc as (es1&v1&H1&Hc). apply edges_bind_Ret in Hc as (es2&v2&H2&[= <- <-]).
  destruct (Hf x v es1 v1 ltac:(set_solver) H1) as [Hc1 Hq1].
  destruct (IH ltac:(set_solver) v1 es2 v2 H2) as [Hc2 Hq2]. rewrite fmap_app. split; [by eapply covers_app|].
  pose proof (cv_mono _ _ _ _ _ Hc2). intros y [->|Hy]%elem_of_cons.
  - eapply Hmono; [done|set_solver|done].
  - eapply Hmono; [by apply Hq2|set_solver|done].
Qed.

Section target.
Context (rec : RelationReference → gset string → edges_outcome) (target : RelationReference) (rel : RelationDef).
Context (enclosed : bool).
Abbreviation ty := (rr_Type target).
Abbreviation r := (rr_GetRelation target).
Hypothesis Hrec : ∀ tgt v es v', rec tgt v = (Ret es, v') →
  covers v es v' ∧ relation_key (rr_Type tgt) (rr_GetRelation tgt) ∈ v'.
Hypothesis Hrel : GetRelation t ty r = Ret rel.

(** An edge for a leaf of the relation. *)
Lemma own_edge_sound leaf kind ts flag :
  (enclosed, leaf) ∈ pruned_leaves false (rel_Rewrite rel) → leaf_matches t source ty r leaf kind ts →
  edge_sound (mark enclosed (mkRelationshipEdge kind (DirectRelationReference ty r) ts flag)).
Proof.
  intros Hin Hm. exists ty, r, rel, enclosed, leaf. by destruct enclosed.
Qed.

Lemma own_covers leaf kind ts flag v :
  (enclosed, leaf) ∈ pruned_leaves false (rel_Rewrite rel) → leaf_matches t source ty r leaf kind ts →
  covers v (mark enclosed <$> [mkRelationshipEdge kind (DirectRelationReference ty r) ts flag]) v.
Proof.
  intros Hin Hm. split; [done| |set_solver]. apply Forall_singleton. by eapply own_edge_sound.
Qed.

Lemma rec_covers tgt v es v' : rec tgt v = (Ret es, v') → covers v (mark enclosed <$> es) v'.
Proof. intros Hc. by apply covers_mark, (Hrec _ _ _ _ Hc). Qed.

Lemma this_covers v es v' :
  (enclosed, Userset_This) ∈ pruned_leaves false (rel_Rewrite rel) →
  getRelationshipEdgesWithTargetRewrite t source resolveAnyEdge rec target Userset_This v = (Ret es, v') →
  covers v (mark enclosed <$> es) v' ∧ leaf_covered ty r Userset_This (mark enclosed <$> es) v'.
Proof.
  intros Hin Hc. simpl in Hc. apply edges_bind_Ret in Hc as (es1&v1&H1&[= <- <-]).
  assert (IsDirectlyRelated t target source = IsDirectlyRelated t (DirectRelationReference ty r) source) as Hdir.
  { unfold IsDirectlyRelated. by rewrite DirectRelationReference_relation. }
  assert (IsPubliclyAssignable t target (rr_Type source) = IsPubliclyAssignable t (DirectRelationReference ty r) (rr_Type source)) as Hpub.
  { unfold IsPubliclyAssignable, PubliclyAssignableReferences. by rewrite DirectRelationReference_relation. }
  rewrite Hdir, Hpub, fmap_app.
  set (b := ignore_err false (IsDirectlyRelated _ _ _) || _).
  assert (b = true ↔ leaf_matches t source ty r Userset_This DirectEdge "") as Hb.
  { unfold b. simpl. rewrite orb_true_iff. split.
    - intros Hor. split_and!; [done..|]. by destruct Hor; [left|right]; apply ignore_err_true.
    - by intros (_&_&[->| ->]); [left|right]. }
  unfold GetDirectlyRelatedUserTypes in H1. rewrite Hrel in H1. simpl in H1.
  edestruct (collect_covers enclosed
    (λ tr v, if negb (rr_GetRelation tr =s "") then rec tr v else (Ret [], v)) (rel_DirectlyRelatedUserTypes rel)
    (λ tr _ v, rr_GetRelation tr ≠ "" → relation_key (rr_Type tr) (rr_GetRelation tr) ∈ v)) as [Hcov Hnext]; [| |exact H1|].
  { set_solver. }
  { intros x v0 es0 v0' _. case_bool_decide as Hx; simpl; intros Hc.
    - simplify_eq. split; [apply covers_nil|done].
    - split; [by eapply rec_covers|]. intros _. by apply (Hrec _ _ _ _ Hc). }
  split.
  - eapply covers_app; [|done]. destruct b; [|apply covers_nil]. eapply own_covers; [done|]. by apply Hb.
  - split.
    + intros kind ts Hm. pose proof Hm as (->&->&_). apply Hb in Hm. rewrite Hm. eexists. split; [apply elem_of_app; left; by left|].
      by destruct enclosed.
    + intros ty' r' (rel'&rr&Hrel'&Hrr&Hne&->&->). rewrite Hrel in Hrel'. simplify_eq/=. by apply Hnext.
Qed.

Lemma computed_covers ob c v es v' :
  (enclosed, Userset_ComputedUserset ob c) ∈ pruned_leaves false (rel_Rewrite rel) →
  getRelationshipEdgesWithTargetRewrite t source resolveAnyEdge rec target (Userset_ComputedUserset ob c) v = (Ret es, v') →
  covers v (mark enclosed <$> es) v' ∧ leaf_covered ty r (Userset_ComputedUserset ob c) (mark enclosed <$> es) v'.
Proof.
  intros Hin Hc. simpl in Hc. apply edges_bind_Ret in Hc as (es1&v1&H1&[= <- <-]). rewrite fmap_app.
  destruct (Hrec _ _ _ _ H1) as [_ Hkey]. simpl in Hkey. rewrite DirectRelationReference_relation in Hkey.
  set (b := _ && _).
  assert (b = true ↔ leaf_matches t source ty r (Userset_ComputedUserset ob c) ComputedUsersetEdge "") as Hb.
  { unfold b. simpl. rewrite andb_true_iff, !bool_decide_eq_true. naive_solver. }
  split.
  - eapply covers_app; [|by eapply rec_covers]. destruct b; [|apply covers_nil]. eapply own_covers; [done|]. by apply Hb.
  - split.
    + intros kind ts Hm. pose proof Hm as (->&->&_). apply Hb in Hm. rewrite Hm. eexists. split; [apply elem_of_app; left; by left|].
      by destruct enclosed.
    + by intros ty' r' (->&->).
Qed.

Lemma ttu_covers ts c v es v' :
  (enclosed, Userset_TupleToUserset ts c) ∈ pruned_leaves false (rel_Rewrite rel) →
  getRelationshipEdgesWithTargetRewrite t source resolveAnyEdge rec target (Userset_TupleToUserset ts c) v = (Ret es, v') →
  covers v (mark enclosed <$> es) v' ∧ leaf_covered ty r (Userset_TupleToUserset ts c) (mark enclosed <$> es) v'.
Proof.
  intros Hin Hc. simpl in Hc.
  destruct (GetDirectlyRelatedUserTypes t ty ts) as [types| |] eqn:Hts; simpl in Hc.
  2-3: simplify_eq; split; [apply covers_nil|]; unfold GetDirectlyRelatedUserTypes in Hts;
    split; [intros ?? (_&_&_&tsrel&?&?&Heq&_)|intros ?? (tsrel&?&?&Heq&_)]; by rewrite Heq in Hts.
  unfold GetDirectlyRelatedUserTypes in Hts. destruct (GetRelation t ty ts) as [tsrel| |] eqn:Htsrel; simplify_eq/=.
  edestruct (collect_covers enclosed (edges_ttu_type t source rec target ts c) (rel_DirectlyRelatedUserTypes tsrel)
    (λ rr es v, ∀ crel, GetRelation t (rr_Type rr) c = Ret crel →
       relation_key (rr_Type rr) c ∈ v ∧
       (rr_Type rr = rr_Type source → c = rr_GetRelation source →
        ∃ e, e ∈ es ∧ edge_Type e = TupleToUsersetEdge ∧ TargetReference e = DirectRelationReference ty r ∧
             TuplesetRelation e = ts))) as [Hcov Hnext]; [| |exact Hc|].
  - intros x es0 v0 es0' v0' HQ He Hv crel Hcrel. destruct (HQ _ Hcrel) as [Hk He']. split; [set_solver|].
    intros H1 H2. destruct (He' H1 H2) as (e&?&?). exists e. set_solver.
  - intros rr v0 es0 v0' Hrr. unfold edges_ttu_type.
    destruct (GetRelation t (rr_Type rr) c) as [crel|e|w] eqn:Hcrel; [| |done].
    2: { destruct e; intros; simplify_eq; (split; [apply covers_nil|done]). }
    intros Hb. apply edges_bind_Ret in Hb as (own&v1&Hown&Hb). apply edges_bind_Ret in Hb as (sub&v2&Hsub&[= <- <-]).
    destruct (Hrec _ _ _ _ Hsub) as [_ Hkey]. simpl in Hkey. rewrite DirectRelationReference_relation in Hkey.
    rewrite fmap_app.
    assert (v1 = v0 ∧
      ((rr_Type rr = rr_Type source ∧ c = rr_GetRelation source ∧ ∃ flag,
        own = [mkRelationshipEdge TupleToUsersetEdge (DirectRelationReference ty r) ts flag]) ∨
       (¬ (rr_Type rr = rr_Type source ∧ c = rr_GetRelation source) ∧ own = []))) as [-> Hcase].
    { destruct ((rr_Type rr =s rr_Type source) && (c =s rr_GetRelation source)) eqn:E.
      - apply andb_true_iff in E as [E1 E2]. apply bool_decide_eq_true in E1, E2.
        destruct (RelationInvolvesIntersection _ _ _); simplify_eq/=. destruct (RelationInvolvesExclusion _ _ _); simplify_eq/=.
        split; [done|]. left. eauto.
      - simplify_eq. split; [done|]. right. apply andb_false_iff in E. rewrite !bool_decide_eq_false in E. naive_solver. }
    split.
    + eapply covers_app; [|by eapply rec_covers]. destruct Hcase as [(H1&H2&flag&->)|[_ ->]]; [|apply covers_nil].
      eapply own_covers; [done|]. split_and!; [done..|]. exists tsrel, rr, crel. done.
    + intros crel' _. split; [done|]. intros H1 H2. destruct Hcase as [(_&_&flag&->)|[Hn _]]; [|by destruct Hn].
      eexists. split; [apply elem_of_app; left; by left|]. by destruct enclosed.
  - split; [done|]. split.
    + intros kind ts' (->&->&H2&tsrel'&rr&crel&Heq&Hrr&H1&Hcrel). rewrite Htsrel in Heq. simplify_eq.
      by eapply (Hnext rr).
    + intros ty' r' (tsrel'&rr&crel&Heq&Hrr&Hcrel&->&->). rewrite Htsrel in Heq. simplify_eq. by eapply (Hnext rr).
Qed.
End target.

Section targets.
Context (rec : RelationReference → gset string → edges_outcome) (target : RelationReference) (rel : RelationDef).
Hypothesis Hrec : ∀ tgt v es v', rec tgt v = (Ret es, v') →
  covers v es v' ∧ relation_key (rr_Type tgt) (rr_GetRelation tgt) ∈ v'.
Hypothesis Hrel : GetRelation t (rr_Type target) (rr_GetRelation target) = Ret rel.

Lemma rewrite_covers rw : ∀ enclosed v es v',
  (∀ x, x ∈ pruned_leaves enclosed rw → x ∈ pruned_leaves false (rel_Rewrite rel)) →
  getRelationshipEdgesWithTargetRewrite t source resolveAnyEdge rec target rw v = (Ret es, v') →
  covers v (mark enclosed <$> es) v' ∧
  ∀ b leaf, (b, leaf) ∈ pruned_leaves enclosed rw →
    leaf_covered (rr_Type target) (rr_GetRelation target) leaf (mark enclosed <$> es) v'.
Proof.
  assert (∀ enclosed v es v' leaf,
    covers v (mark enclosed <$> es) v' ∧
    leaf_covered (rr_Type target) (rr_GetRelation target) leaf (mark enclosed <$> es) v' →
    covers v (mark enclosed <$> es) v' ∧
    ∀ b leaf', (b, leaf') ∈ [(enclosed, leaf)] →
      leaf_covered (rr_Type target) (rr_GetRelation target) leaf' (mark enclosed <$> es) v') as Hleaf.
  { intros enc v es v' leaf [? ?]. split; [done|]. by intros b leaf' [= -> ->]%list_elem_of_singleton. }
  assert (∀ c enclosed v es v',
    (∀ es0, getRelationshipEdgesWithTargetRewrite t source resolveAnyEdge rec target c v = (Ret es0, v') →
       covers v (mark true <$> es0) v' ∧
       ∀ b leaf, (b, leaf) ∈ pruned_leaves true c →
         leaf_covered (rr_Type target) (rr_GetRelation target) leaf (mark true <$> es0) v') →
    edges_bind (getRelationshipEdgesWithTargetRewrite t source resolveAnyEdge rec target c v)
      (λ childresults visited, (Ret (require_further_eval <$> childresults), visited)) = (Ret es, v') →
    covers v (mark enclosed <$> es) v' ∧
    ∀ b leaf, (b, leaf) ∈ pruned_leaves true c →
      leaf_covered (rr_Type target) (rr_GetRelation target) leaf (mark enclosed <$> es) v') as Hmarked.
  { intros c enc v es v' IH Hc. apply edges_bind_Ret in Hc as (es1&v1&H1&[= <- <-]). destruct (IH _ H1) as [Hcv Hlv].
    split; [by apply covers_mark|]. intros b leaf Hin. by eapply leaf_covered_mark, Hlv. }
  induction rw as [|ob c|ts c|l IH|l IH|bs sb IHb IHs|] using Userset_nested_ind; intros enclosed v es v' Hsub Hc.
  - apply Hleaf. eapply this_covers; [done..| |done]. apply Hsub. by left.
  - apply Hleaf. eapply computed_covers; [done..| |done]. apply Hsub. by left.
  - apply Hleaf. eapply ttu_covers; [done..| |done]. apply Hsub. by left.
  - simpl in Hc. rewrite Forall_forall in IH.
    eapply (collect_covers enclosed _ _ (λ c es v, ∀ b leaf, (b, leaf) ∈ pruned_leaves enclosed c →
      leaf_covered (rr_Type target) (rr_GetRelation target) leaf es v)) in Hc as [Hcv Hlv].
    + split; [done|]. intros b leaf Hin. simpl in Hin. rewrite list_elem_of_In, in_concat in Hin.
      destruct Hin as (l'&Hl'&Hin). apply list_elem_of_In in Hl', Hin. apply list_elem_of_fmap in Hl' as (c&->&Hcl). by eapply Hlv.
    + intros. eapply leaf_covered_mono; eauto.
    + intros c v0 es0 v0' Hcl Hc0. eapply IH; [done| |done]. intros x Hx. apply Hsub. simpl.
      rewrite list_elem_of_In, in_concat. exists (pruned_leaves enclosed c). rewrite <-!list_elem_of_In.
      split; [by apply list_elem_of_fmap_2|done].
  - destruct l as [|c l]; [done|]. simpl in Hc. rewrite Forall_cons in IH. destruct IH as [IH _].
    eapply Hmarked; [|exact Hc]. intros es0 H0. by eapply (IH true).
  - eapply Hmarked; [|exact Hc]. intros es0 H0. by eapply (IHb true).
  - done.
Qed.
End targets.

Lemma getRelationshipEdges_covers fuel : ∀ target v es v',
  getRelationshipEdges t source resolveAnyEdge fuel target v = (Ret es, v') →
  covers v es v' ∧ relation_key (rr_Type target) (rr_GetRelation target) ∈ v'.
Proof.
  induction fuel as [|fuel IH]; intros target v es v' Hc; simpl in Hc; [done|].
  case_bool_decide as Hin; [simplify_eq; split; [apply covers_nil|done]|].
  destruct (GetRelation t _ _) as [rel| |] eqn:Hrel; [|done..].
  eapply (rewrite_covers _ target rel IH Hrel _ false) in Hc as [Hcv Hlv]; [|done]. rewrite mark_false in *.
  destruct Hcv as [Hm Hs Hn]. split; [|unfold relation_key in *; set_solver]. split; [set_solver|done|].
  intros k Hk Hnk. destruct (decide (k = relation_key (rr_Type target) (rr_GetRelation target))) as [->|Hne].
  - exists (rr_Type target), (rr_GetRelation target). split; [done|]. exists rel. done.
  - apply Hn; [done|]. unfold relation_key in *. set_solver.
Qed.
End pruned_spec.

(** ** Termination *)

(** The keys of the relations of the model. *)
Definition relation_keys `{!ModelGraph} (t : TypeSystem) : gset string :=
  list_to_set ((λ p : string * string, relation_key p.1 p.2) <$> all_pairs (relations t)).

Lemma size_relation_keys `{!ModelGraph} (t : TypeSystem) : (size (relation_keys t) ≤ relation_count (relations t))%nat.
Proof.
  unfold relation_keys. rewrite <-length_all_pairs, <-(length_fmap (λ p : string * string, relation_key p.1 p.2)).
  induction ((λ p : string * string, relation_key p.1 p.2) <$> all_pairs (relations t)) as [|k l IH]; cbn [list_to_set length]; [by rewrite size_empty|].
  rewrite size_union_alt, size_singleton. pose proof (subseteq_size (list_to_set l ∖ {[k]} : gset string) (list_to_set l)). set_solver by lia.
Qed.

Lemma defined_key `{!ModelGraph} (t : TypeSystem) ty r rel : GetRelation t ty r = Ret rel → relation_key ty r ∈ relation_keys t.
Proof.
  intros [_ Hr]%GetRelation_Ret. apply elem_of_list_to_set, list_elem_of_fmap. exists (ty, r). split; [done|].
  apply (elem_of_all_pairs (relations t) ty r rel). unfold typedef_get. by destruct (relations t !! ty).
Qed.

(** Marking a defined relation leaves fewer of them. *)
Lemma unvisited_decrease `{!ModelGraph} (t : TypeSystem) ty r rel (v v' : gset string) :
  GetRelation t ty r = Ret rel → relation_key ty r ∉ v → {[relation_key ty r]} ∪ v ⊆ v' →
  (size (relation_keys t ∖ v') < size (relation_keys t ∖ v))%nat.
Proof.
  intros Hrel Hnv Hsub. apply subset_size. split; [set_solver|]. apply defined_key in Hrel. set_solver.
Qed.

(** Two versions of a call do the same from [v] on, and neither runs out of fuel. *)
Definition agree {X B E} (bad : E) (v : gset string) (f g : X → gset string → outcome E B * gset string) : Prop :=
  ∀ x v', v ⊆ v' → f x v' = g x v' ∧ v' ⊆ (f x v').2 ∧ (f x v').1 ≠ Throw bad.

Lemma trans_agree {B E} (v v1 : gset string) (f g : outcome E B * gset string) (bad : E) :
  v ⊆ v1 → f = g ∧ v1 ⊆ f.2 ∧ f.1 ≠ Throw bad → f = g ∧ v ⊆ f.2 ∧ f.1 ≠ Throw bad.
Proof. intros ? (?&?&?). split_and!; [done|by etrans|done]. Qed.

Section walk_agree.
Context {R : Type} (h h' : Userset → gset string → option R * gset string) (v : gset string).
Hypothesis Hh : ∀ u v', v ⊆ v' → h u v' = h' u v' ∧ v' ⊆ (h u v').2.

Lemma walk_agree u : ∀ v', v ⊆ v' →
  WalkUsersetRewrite h u v' = WalkUsersetRewrite h' u v' ∧ v' ⊆ (WalkUsersetRewrite h u v').2 ∧
  (WalkUsersetRewrite h u v').1 ≠ Throw ErrFuel.
Proof.
  assert (∀ l, Forall (λ u, ∀ v', v ⊆ v' →
    WalkUsersetRewrite h u v' = WalkUsersetRewrite h' u v' ∧ v' ⊆ (WalkUsersetRewrite h u v').2 ∧
    (WalkUsersetRewrite h u v').1 ≠ Throw ErrFuel) l →
    let walk := λ (h : Userset → gset string → option R * gset string), fix walk_children (children : list Userset) (st : gset string) :=
      match children with
      | [] => (Ret None, st)
      | child :: rest => match WalkUsersetRewrite h child st with (Ret None, st) => walk_children rest st | stop => stop end
      end in
    ∀ v', v ⊆ v' → walk h l v' = walk h' l v' ∧ v' ⊆ (walk h l v').2 ∧ (walk h l v').1 ≠ Throw ErrFuel) as Hl.
  { intros l IH. cbv zeta. induction IH as [|c l Hc _ IHl]; intros v' Hv'; simpl; [done|].
    destruct (Hc v' Hv') as (<-&Hm&Hf). destruct (WalkUsersetRewrite h c v') as [[[x|]| |] v1] eqn:E; simpl in *; try done.
    destruct (IHl v1) as (<-&Hm'&Hf'); [set_solver|]. split_and!; [done|set_solver|done]. }
  assert (∀ u v', v ⊆ v' →
    (let '(result, st) := h u v' in (Ret result, st)) =
    ((let '(result, st) := h' u v' in (Ret result, st)) : outcome TsErr (option R) * gset string) ∧
    v' ⊆ ((let '(result, st) := h u v' in (Ret result, st)) : outcome TsErr (option R) * gset string).2 ∧
    ((let '(result, st) := h u v' in (Ret result, st)) : outcome TsErr (option R) * gset string).1 ≠ Throw ErrFuel) as Hagain.
  { intros w v' Hv'. destruct (Hh w v' Hv') as [<- Hm]. by destruct (h w v'). }
  induction u as [|ob c|ts c|l IH|l IH|b s IHb IHs|] using Userset_nested_ind; intros v' Hv'; simpl;
    match goal with |- context [h ?u v'] =>
      destruct (Hh u v' Hv') as [<- Hm]; destruct (h u v') as [[x|] v1]; simpl in *; [done|]
    end;
    try (apply (trans_agree v' v1); [done|by apply Hagain; etrans]).
  - apply (trans_agree v' v1); [done|]. apply (Hl l IH). by etrans.
  - apply (trans_agree v' v1); [done|]. apply (Hl l IH). by etrans.
  - destruct (IHb v1) as (<-&Hm1&?); [by etrans|].
    destruct (WalkUsersetRewrite h b v1) as [[[x|]| |] v2]; simpl in *; try (split_and!; [done|by etrans|done]).
    apply (trans_agree v' v2); [by etrans|]. apply IHs. by do 2 etrans.
  - done.
Qed.
End walk_agree.

Section fuel.
Context `{!ModelGraph} (t : TypeSystem).

Abbreviation unvisited v := (size (relation_keys t ∖ v)).

(** *** [relationInvolves] *)

Section involves_agree.
Context (rec rec' : string → string → gset string → outcome TsErr bool * gset string) (v : gset string).
Hypothesis Hrec : ∀ ty r, agree ErrFuel v (λ _ : unit, rec ty r) (λ _ : unit, rec' ty r).

Lemma involves_ttu_agree ty ts c types : ∀ v', v ⊆ v' →
  involves_ttu t rec ty ts c types v' = involves_ttu t rec' ty ts c types v' ∧
  v' ⊆ (involves_ttu t rec ty ts c types v').2.
Proof.
  induction types as [|rr types IH]; intros v' Hv'; simpl; [done|].
  case_bool_decide; simpl; [|done]. destruct (GetRelation t (rr_Type rr) c) as [rel|e|]; [|by destruct (is_undefined_err e); [apply IH|]|done].
  destruct (Hrec (rr_Type rr) (rel_Name rel) tt v' Hv') as (Heq&Hm&_). rewrite <-Heq.
  destruct (rec _ _ v') as [o v1]; simpl in *. destruct (involves_answer o); [done|].
  destruct (IH v1) as [<- ?]; [by etrans|]. split; [done|by etrans].
Qed.

Lemma involves_handler_agree target ty u v' : v ⊆ v' →
  involves_handler t target rec ty u v' = involves_handler t target rec' ty u v' ∧
  v' ⊆ (involves_handler t target rec ty u v').2.
Proof.
  intros Hv'. destruct u; simpl; try done.
  - destruct (GetRelation t ty relation) as [rel| |]; [|done..].
    destruct (Hrec ty (rel_Name rel) tt v' Hv') as (Heq&Hm&_). rewrite <-Heq. by destruct (rec _ _ v').
  - destruct (GetRelation t ty tupleset) as [rel| |]; [|done..]. by apply involves_ttu_agree.
Qed.

Lemma involves_restrictions_agree types : ∀ v', v ⊆ v' →
  involves_restrictions rec types v' = involves_restrictions rec' types v' ∧
  v' ⊆ (involves_restrictions rec types v').2 ∧ (involves_restrictions rec types v').1 ≠ Throw ErrFuel.
Proof.
  induction types as [|rr types IH]; intros v' Hv'; simpl; [done|]. case_bool_decide; simpl; [by apply IH|].
  case_bool_decide; [by apply IH|].
  destruct (Hrec (rr_Type rr) (rr_GetRelation rr) tt v' Hv') as (Heq&Hm&Hf). rewrite <-Heq.
  destruct (rec _ _ v') as [[[]| |] v1]; simpl in *; try done.
  apply (trans_agree v' v1); [done|]. apply IH. by etrans.
Qed.
End involves_agree.

Lemma relationInvolves_fuel target fuel : ∀ fuel' ty r v,
  (unvisited v < fuel)%nat → (unvisited v < fuel')%nat →
  relationInvolves fuel t target ty r v = relationInvolves fuel' t target ty r v ∧
  v ⊆ (relationInvolves fuel t target ty r v).2 ∧ (relationInvolves fuel t target ty r v).1 ≠ Throw ErrFuel.
Proof.
  induction fuel as [|fuel IH]; intros [|fuel'] ty r v Hf Hf'; [lia..|]. simpl.
  case_bool_decide as Hin; [done|].
  destruct (GetRelation t ty r) as [rel|e|w] eqn:Hrel; [|split_and!; [done|set_solver|simpl; intros [= ->]; by apply GetRelation_Throw in Hrel]|split_and!; [done|set_solver|done]].
  set (v0 := {[ToObjectRelationString ty r]} ∪ v).
  assert (∀ ty' r', agree ErrFuel v0 (λ _ : unit, relationInvolves fuel t target ty' r') (λ _ : unit, relationInvolves fuel' t target ty' r')) as Hrec.
  { intros ty' r' _ v' Hv'. pose proof (unvisited_decrease t ty r rel v v' Hrel Hin Hv'). apply IH; lia. }
  pose proof (walk_agree _ _ v0 (involves_handler_agree _ _ v0 Hrec target ty) (rel_Rewrite rel) v0 ltac:(done)) as (<-&Hm&Hw).
  apply (trans_agree v v0); [set_solver|].
  destruct (WalkUsersetRewrite _ _ v0) as [[[[[]| |]|]| |] v1]; simpl in *; try (split_and!; [done|done|congruence]);
    (apply (trans_agree v0 v1); [done|]; by apply (involves_restrictions_agree _ _ v0 Hrec)).
Qed.

Lemma RelationInvolves_no_fuel target ty r :
  (relationInvolves (S (S (relation_count (relations t)))) t target ty r ∅).1 ≠ Throw ErrFuel.
Proof.
  pose proof (size_relation_keys t). assert (unvisited ∅ ≤ size (relation_keys t))%nat by (apply subseteq_size; set_solver).
  apply (relationInvolves_fuel target _ (S (S (relation_count (relations t))))); lia.
Qed.

(** *** [getRelationshipEdges] *)

Section edges_agree.
Context (source : RelationReference) (opt : findEdgeOption) (target : RelationReference) (v : gset string).
Context (rec rec' : RelationReference → gset string → edges_outcome).
Hypothesis Hrec : agree ErrFuel v rec rec'.

Lemma edges_bind_agree (v' : gset string) (f g : edges_outcome) k k' :
  f = g ∧ v' ⊆ f.2 ∧ f.1 ≠ Throw ErrFuel → v ⊆ v' →
  (∀ es v1, v ⊆ v1 → k es v1 = k' es v1 ∧ v1 ⊆ (k es v1).2 ∧ (k es v1).1 ≠ Throw ErrFuel) →
  edges_bind f k = edges_bind g k' ∧ v' ⊆ (edges_bind f k).2 ∧ (edges_bind f k).1 ≠ Throw ErrFuel.
Proof.
  intros (<-&Hm&Hf) Hv' Hk. destruct f as [[es|e|w] v1]; simpl in *; [|split_and!; congruence || done..].
  apply (trans_agree v' v1); [done|]. apply Hk. by etrans.
Qed.

Lemma collect_agree {A} (f g : A → gset string → edges_outcome) l :
  (∀ x v', x ∈ l → v ⊆ v' → f x v' = g x v' ∧ v' ⊆ (f x v').2 ∧ (f x v').1 ≠ Throw ErrFuel) →
  ∀ v', v ⊆ v' → collect f l v' = collect g l v' ∧ v' ⊆ (collect f l v').2 ∧ (collect f l v').1 ≠ Throw ErrFuel.
Proof.
  induction l as [|x l IH]; intros Hf v' Hv'; simpl; [done|].
  apply edges_bind_agree; [apply Hf; set_solver|done|]. intros es v1 Hv1.
  apply edges_bind_agree; [apply IH; [set_solver|done]|done|done].
Qed.

Lemma edges_ttu_type_agree ts c rr v' : v ⊆ v' →
  edges_ttu_type t source rec target ts c rr v' = edges_ttu_type t source rec' target ts c rr v' ∧
  v' ⊆ (edges_ttu_type t source rec target ts c rr v').2 ∧
  (edges_ttu_type t source rec target ts c rr v').1 ≠ Throw ErrFuel.
Proof.
  intros Hv'. unfold edges_ttu_type. destruct (GetRelation t (rr_Type rr) c) as [crel|e|w] eqn:Hc; [| |done].
  2: { apply GetRelation_Throw in Hc. destruct e; split_and!; simpl; congruence || done. }
  apply edges_bind_agree; [|done|].
  - split; [done|]. split; [by case_match|]. case_match; cbn [fst]; [|done]. unfold RelationInvolvesIntersection, RelationInvolvesExclusion.
    pose proof (RelationInvolves_no_fuel intersectionSetOperator (rr_Type rr) (rel_Name crel)) as Hi.
    pose proof (RelationInvolves_no_fuel exclusionSetOperator (rr_Type rr) (rel_Name crel)) as Hx. revert Hi Hx.
    generalize (relationInvolves (S (S (relation_count (relations t)))) t intersectionSetOperator (rr_Type rr) (rel_Name crel) ∅).1.
    generalize (relationInvolves (S (S (relation_count (relations t)))) t exclusionSetOperator (rr_Type rr) (rel_Name crel) ∅).1.
    intros [] []; simpl; congruence.
  - intros es v1 Hv1. apply edges_bind_agree; [by apply Hrec|done|done].
Qed.

Lemma edges_rewrite_agree rw : ∀ v', v ⊆ v' →
  getRelationshipEdgesWithTargetRewrite t source opt rec target rw v' =
    getRelationshipEdgesWithTargetRewrite t source opt rec' target rw v' ∧
  v' ⊆ (getRelationshipEdgesWithTargetRewrite t source opt rec target rw v').2 ∧
  (getRelationshipEdgesWithTargetRewrite t source opt rec target rw v').1 ≠ Throw ErrFuel.
Proof.
  induction rw as [|ob c|ts c|l IH|l IH|b s IHb IHs|] using Userset_nested_ind; intros v' Hv'; simpl; try rewrite Forall_forall in IH.
  - apply edges_bind_agree; [|done|done]. apply collect_agree; [|done]. intros rr v1 _ Hv1.
    case_bool_decide; simpl; [done|by apply Hrec].
  - apply edges_bind_agree; [by apply Hrec|done|done].
  - apply collect_agree; [|done]. intros rr v1 _ Hv1. by apply edges_ttu_type_agree.
  - apply collect_agree; [|done]. intros c v1 Hc Hv1. by apply IH.
  - destruct opt.
    + apply edges_bind_agree; [|done|done]. apply collect_agree; [|done]. intros c v1 Hc Hv1. by apply IH.
    + destruct l as [|c l]; [done|]. apply edges_bind_agree; [|done|done]. apply IH; [set_solver|done].
  - destruct opt.
    + apply edges_bind_agree; [by apply IHb|done|]. intros es v1 Hv1.
      apply edges_bind_agree; [by apply IHs|done|done].
    + apply edges_bind_agree; [by apply IHb|done|done].
  - done.
Qed.
End edges_agree.

Lemma getRelationshipEdges_fuel source opt fuel : ∀ fuel' target v,
  (unvisited v < fuel)%nat → (unvisited v < fuel')%nat →
  getRelationshipEdges t source opt fuel target v = getRelationshipEdges t source opt fuel' target v ∧
  v ⊆ (getRelationshipEdges t source opt fuel target v).2 ∧
  (getRelationshipEdges t source opt fuel target v).1 ≠ Throw ErrFuel.
Proof.
  induction fuel as [|fuel IH]; intros [|fuel'] target v Hf Hf'; [lia..|]. simpl.
  case_bool_decide as Hin; [done|].
  destruct (GetRelation t (rr_Type target) (rr_GetRelation target)) as [rel|e|w] eqn:Hrel;
    [|split_and!; [done|set_solver|simpl; intros [= ->]; by apply GetRelation_Throw in Hrel]|split_and!; [done|set_solver|done]].
  set (v0 := {[ToObjectRelationString (rr_Type target) (rr_GetRelation target)]} ∪ v).
  apply (trans_agree v v0); [set_solver|]. apply (edges_rewrite_agree source opt target v0); [|done].
  intros tgt v' Hv'. pose proof (unvisited_decrease t _ _ rel v v' Hrel Hin Hv'). apply IH; lia.
Qed.
End fuel.

(** ** Theorems *)

Section theorems.
Context `{!ModelGraph} (t : TypeSystem).

(** The defined relations that the pruned search reaches from the target. *)
Inductive pruned_reach (target_ty target_r : string) : string → string → Prop :=
| reach_target : pruned_reach target_ty target_r target_ty target_r
| reach_next ty r rel enclosed leaf ty' r' rel' :
    pruned_reach target_ty target_r ty r → GetRelation t ty r = Ret rel →
    (enclosed, leaf) ∈ pruned_leaves false (rel_Rewrite rel) → leaf_next t ty r leaf ty' r' →
    GetRelation t ty' r' = Ret rel' → pruned_reach target_ty target_r ty' r'.

(** Type names without the separator of relation references. *)
Definition types_plain : Prop := ∀ ty, is_Some (typeDefinitions t !! ty) → has_byte "#" ty = false.

Lemma relation_key_inj ty r rel ty' r' rel' :
  types_plain → GetRelation t ty r = Ret rel → GetRelation t ty' r' = Ret rel' →
  relation_key ty r = relation_key ty' r' → ty = ty' ∧ r = r'.
Proof.
  intros Hp [H1 _]%GetRelation_Ret [H2 _]%GetRelation_Ret Heq. apply Hp in H1, H2.
  unfold relation_key, ToObjectRelationString in Heq. by apply str_split_unique in Heq.
Qed.

Lemma GetPrunedRelationshipEdges_exact_spec source ty r rel es :
  types_plain → GetRelation t ty r = Ret rel →
  GetPrunedRelationshipEdges t (DirectRelationReference ty r) source = Ret es →
  (∀ e, e ∈ es → edge_sound t source e) ∧
  ∀ ty' r' rel' enclosed leaf kind ts,
    pruned_reach ty r ty' r' → GetRelation t ty' r' = Ret rel' →
    (enclosed, leaf) ∈ pruned_leaves false (rel_Rewrite rel') → leaf_matches t source ty' r' leaf kind ts →
    ∃ e, e ∈ es ∧ edge_Type e = kind ∧ TargetReference e = DirectRelationReference ty' r' ∧ TuplesetRelation e = ts.
Proof.
  intros Hp Hrel Hes. unfold GetPrunedRelationshipEdges in Hes.
  destruct (getRelationshipEdges _ _ _ _ _ _) as [o v'] eqn:Hg. simpl in Hes. subst o.
  apply getRelationshipEdges_covers in Hg as [[_ Hs Hn] Hkey]. simpl in Hkey. rewrite DirectRelationReference_relation in Hkey.
  split; [by apply Forall_forall|].
  assert (∀ ty' r' rel', GetRelation t ty' r' = Ret rel' → relation_key ty' r' ∈ v' →
    ∀ enclosed leaf, (enclosed, leaf) ∈ pruned_leaves false (rel_Rewrite rel') → leaf_covered t source ty' r' leaf es v') as Hcov.
  { intros ty' r' rel' Hrel' Hin enc leaf Hleaf. destruct (Hn _ Hin) as (ty0&r0&Heq&rel0&Hrel0&Hall); [set_solver|].
    destruct (relation_key_inj ty' r' rel' ty0 r0 rel0) as [<- <-]; [done..|]. rewrite Hrel' in Hrel0. simplify_eq. by eapply Hall. }
  intros ty' r' rel' enc leaf kind ts Hreach Hrel' Hleaf Hm.
  assert (relation_key ty' r' ∈ v') as Hin'.
  { clear Hm Hleaf leaf enc. revert rel' Hrel'. induction Hreach as [|ty1 r1 rel1 enc leaf ty' r' rel2 _ IH Hrel1 Hleaf Hnext Hrel2]; intros rel' Hrel'; [done|].
    destruct (Hcov ty1 r1 rel1 Hrel1 (IH _ Hrel1) _ _ Hleaf) as [_ Hnx]. by apply Hnx. }
  destruct (Hcov ty' r' rel' Hrel' Hin' _ _ Hleaf) as [Hedge _]. by apply Hedge.
Qed.

(** C18: the edges that ListObjects follows are exactly the ones of the model.
    [GetPrunedRelationshipEdges] terminates within its recursion bound; its edges all come
    from a leaf of a relation that the source matches, the unmarked ones from a leaf that
    no intersection or exclusion encloses; and every leaf that the source matches in a
    relation reachable from the target has its edge, although relations visited once are
    not visited again. *)
Theorem GetPrunedRelationshipEdges_exact (source : RelationReference) (ty r : string) (rel : RelationDef) :
  types_plain → GetRelation t ty r = Ret rel →
  GetPrunedRelationshipEdges t (DirectRelationReference ty r) source ≠ Throw ErrFuel ∧
  ∀ es, GetPrunedRelationshipEdges t (DirectRelationReference ty r) source = Ret es →
    (∀ e, e ∈ es → edge_sound t source e) ∧
    ∀ ty' r' rel' enclosed leaf kind ts,
      pruned_reach ty r ty' r' → GetRelation t ty' r' = Ret rel' →
      (enclosed, leaf) ∈ pruned_leaves false (rel_Rewrite rel') → leaf_matches t source ty' r' leaf kind ts →
      ∃ e, e ∈ es ∧ edge_Type e = kind ∧ TargetReference e = DirectRelationReference ty' r' ∧ TuplesetRelation e = ts.
Proof.
  intros Hp Hrel. split; [|intros es; by eapply GetPrunedRelationshipEdges_exact_spec].
  pose proof (size_relation_keys t).
  assert (size (relation_keys t ∖ ∅) ≤ size (relation_keys t))%nat by (apply subseteq_size; set_solver).
  apply (getRelationshipEdges_fuel t source resolveAnyEdge _ (edges_fuel t)); unfold edges_fuel; lia.
Qed.
End theorems.
