(* ===== verification/ReverseExpand.v ===== *)
(** * Reverse expansion: [pkg/server/commands/reverseexpand/reverse_expand.go]

    The search behind ListObjects: from a user, follow the edges of [RelationshipGraph.v]
    through the stored tuples towards the objects of a type, and send every object found.
    Modelled is the search without the experimental weighted-graph optimizations, which
    are off by default.

    Concurrency.  [execute] runs its sub-searches in goroutines that share the maps
    [visitedUsersetsMap] and [candidateObjectsMap].  A call of [execute] is a [Task]; the
    search is a set of pending tasks with the shared maps, and [step] runs any of them, so
    every interleaving of the calls is a sequence of steps.  Once a task has failed the
    request's context is cancelled and pending tasks may return without running. *)

From S2P Require Import Prelude GoStd Tuple Iterators Model Memory Typesystem Condition Validation RelationshipGraph.

Local Open Scope Z_scope.
Local Open Scope go_scope.

(** ** Users and edges as strings *)

(** The field [Condition] of a userset is written and never read. *)
Inductive IsUserRef :=
| UserRefObject (Type_ Id : string)
| UserRefTypedWildcard (Type_ : string)
| UserRefObjectRelation (ref : ObjectRelation).

Definition ref_GetObjectType (u : IsUserRef) : string :=
  match u with
  | UserRefObject ty _ => ty
  | UserRefTypedWildcard ty => ty
  | UserRefObjectRelation ref => GetType (or_Object ref)
  end.

Definition ref_String (u : IsUserRef) : string :=
  match u with
  | UserRefObject ty id => BuildObject ty id
  | UserRefTypedWildcard ty => TypedPublicWildcard ty
  | UserRefObjectRelation ref => ToObjectRelationString (or_Object ref) (or_Relation ref)
  end.

(** The user as [evaluate] of list_objects.go hands it to the search. *)
Definition sourceUserRef (user : string) : IsUserRef :=
  let '(userObj, userRel) := SplitObjectRelation user in
  let '(userObjType, userObjID) := SplitObject userObj in
  if negb (userRel =s "") then UserRefObjectRelation (mkObjectRelation userObj userRel)
  else if IsTypedWildcard userObj then UserRefTypedWildcard (GetType userObj)
  else UserRefObject userObjType userObjID.

(** [TargetReference.String()]: the text form of the protobuf library. *)
Class ProtoText := { rr_String : RelationReference → string }.

(** [strings.ReplaceAll(s, "  ", " ")]. *)
Fixpoint ReplaceDoubleSpaces (s : string) : string :=
  match s with
  | String " " (String " " rest) => String " " (ReplaceDoubleSpaces rest)
  | String c rest => String c (ReplaceDoubleSpaces rest)
  | EmptyString => EmptyString
  end.

Definition edge_String `{!ProtoText} (r : RelationshipEdge) : string :=
  let val := if negb (TuplesetRelation r =s "")
             then "userset " +:+ rr_String (TargetReference r) +:+ ", type " +:+ edge_type_String (edge_Type r)
                  +:+ ", tupleset " +:+ TuplesetRelation r
             else "userset " +:+ rr_String (TargetReference r) +:+ ", type " +:+ edge_type_String (edge_Type r) in
  ReplaceDoubleSpaces val.

(** The key of [visitedUsersetsMap]. *)
Definition visited_key `{!ProtoText} (sourceUserObj : string) (e : RelationshipEdge) : string :=
  sourceUserObj +:+ "#" +:+ edge_String e.

(** ** Requests, results, errors *)

Record ReverseExpandRequest := mkReverseExpandRequest {
  re_StoreID : string;
  re_ObjectType : string;
  re_Relation : string;
  re_User : IsUserRef;
  re_Context : option Struct;
  re_edge : option RelationshipEdge;
}.

Inductive ConditionalResultStatus := RequiresFurtherEvalStatus | NoFurtherEvalStatus.

Record ReverseExpandResult := mkReverseExpandResult { res_Object : string; res_ResultStatus : ConditionalResultStatus }.

Inductive ReErr :=
| ErrReResolutionDepthExceeded
| ErrReTypesystem (e : TsErr)
| ErrReStorage (e : StorageErr)
| ErrReIterator (e : IterErr)
| ErrReCondition (e : CondErr)
| ErrRePanic (why : string).

(** [storage.RelationshipTupleReader], the method the search calls. *)
Class StartingReader := {
  sr_iter : Type;
  #[global] sr_Iterator :: Iterator sr_iter Tuple;
  rd_ReadStartingWithUser : string → ReadStartingWithUserFilter → outcome StorageErr sr_iter;
}.

(** A call of [execute]: its request, whether an edge on the way requires further
    evaluation, and the resolution depth of its context, if it has one. *)
Record Task := mkTask {
  task_req : ReverseExpandRequest;
  intersectionOrExclusionInPreviousEdges : bool;
  task_depth : option Z;
}.

(** The state that the calls share. *)
Record Search := mkSearch {
  pending : list Task;
  visitedUsersetsMap : gset string;
  candidateObjectsMap : gset string;
  sent : list ReverseExpandResult;
  errs : list ReErr;
}.

Section reverse_expand.
Context `{!ModelGraph, !Cel, !ProtoText, !StartingReader}.
Context (typesys : TypeSystem) (conds : gmap string EvaluableCondition) (resolveNodeLimit : Z).

Definition shouldCheckPublicAssignable (targetReference : RelationReference) (userRef : IsUserRef) : outcome TsErr bool :=
  match userRef with
  | UserRefObjectRelation _ => Ret false
  | _ => IsPubliclyAssignable typesys targetReference (ref_GetObjectType userRef)
  end.

(** The relation and the users to read for an edge. *)
Definition edge_filters (e : RelationshipEdge) (u : IsUserRef) : outcome TsErr (string * list ObjectRelation) :=
  match edge_Type e with
  | DirectEdge =>
      let! publiclyAssignable := shouldCheckPublicAssignable (TargetReference e) u in
      let public := if publiclyAssignable then [mkObjectRelation (TypedPublicWildcard (ref_GetObjectType u)) ""] else [] in
      let named := match u with
                   | UserRefObject ty id => [mkObjectRelation (BuildObject ty id) ""]
                   | UserRefObjectRelation ref => [ref]
                   | UserRefTypedWildcard _ => []
                   end in
      Ret (rr_GetRelation (TargetReference e), public ++ named)
  | TupleToUsersetEdge =>
      match u with
      | UserRefObjectRelation ref => Ret (TuplesetRelation e, [mkObjectRelation (or_Object ref) ""])
      | _ => Panic "unexpected source for reverse expansion of tuple to userset"
      end
  | ComputedUsersetEdge => Panic "unsupported edge type"
  end.

(** Whether a tuple's condition is met; an unmet one with missing parameters is an
    error. *)
Definition tuple_condition (context : option Struct) (tk : TupleKey) : outcome CondErr bool :=
  match (EvaluateTupleCondition tk conds context).1 with
  | Ret condEvalResult =>
      if ConditionMet condEvalResult then Ret true
      else if bool_decide (MissingParameters condEvalResult = ∅) then Ret false
      else Throw (MissingParametersError (GetName (Condition tk)) (MissingParameters condEvalResult))
  | Throw e => Throw e
  | Panic w => Panic w
  end.

(** The loop over the tuples read: the dispatched calls and the errors joined. *)
Fixpoint dispatch_tuples (req : ReverseExpandRequest) (e : RelationshipEdge) (flag : bool) (depth : Z) (tks : list TupleKey)
  : list Task * list ReErr :=
  match tks with
  | [] => ([], [])
  | tk :: rest =>
      let '(tasks, errors) := dispatch_tuples req e flag depth rest in
      match tuple_condition (re_Context req) tk with
      | Throw err => (tasks, ErrReCondition err :: errors)
      | Panic w => (tasks, ErrRePanic w :: errors)
      | Ret false => (tasks, errors)
      | Ret true =>
          let newRelation := match edge_Type e with
                             | DirectEdge => Relation tk
                             | _ => rr_GetRelation (TargetReference e)
                             end in
          (mkTask (mkReverseExpandRequest (re_StoreID req) (re_ObjectType req) (re_Relation req)
                     (UserRefObjectRelation (mkObjectRelation (Object tk) newRelation)) (re_Context req) (Some e))
                  flag (Some depth) :: tasks, errors)
      end
  end.

Definition readTuplesAndExecute (req : ReverseExpandRequest) (e : RelationshipEdge) (flag : bool) (depth : Z)
  : list Task * list ReErr :=
  match edge_filters e (re_User req) with
  | Throw err => ([], [ErrReTypesystem err])
  | Panic w => ([], [ErrRePanic w])
  | Ret (relationFilter, userFilter) =>
      match rd_ReadStartingWithUser (re_StoreID req)
              (mkReadStartingWithUserFilter (rr_Type (TargetReference e)) relationFilter userFilter None) with
      | Throw err => ([], [ErrReStorage err])
      | Panic w => ([], [ErrRePanic w])
      | Ret iter =>
          let '(tks, final) := drain (S (remaining iter))
            (NewFilteredTupleKeyIterator (NewTupleKeyIteratorFromTupleIterator iter) (FilterInvalidTuples typesys)) in
          let '(tasks, errors) := dispatch_tuples req e flag depth tks in
          (tasks, errors ++ match final with
                            | Some ErrIteratorDone => []
                            | Some err => [ErrReIterator err]
                            | None => [ErrRePanic "iterator"]
                            end)
      end
  end.

(** The body of the loop over the edges: a computed userset is dispatched, the other edges
    read tuples. *)
Definition follow_edge (req : ReverseExpandRequest) (sourceUserObj : string) (flag : bool) (depth : Z)
    (innerLoopEdge : RelationshipEdge) : list Task * list ReErr :=
  let flag := flag || TargetReferenceInvolvesIntersectionOrExclusion innerLoopEdge in
  match edge_Type innerLoopEdge with
  | ComputedUsersetEdge =>
      ([mkTask (mkReverseExpandRequest (re_StoreID req) (re_ObjectType req) (re_Relation req)
                  (UserRefObjectRelation
                     (mkObjectRelation sourceUserObj (rr_GetRelation (TargetReference innerLoopEdge))))
                  (re_Context req) (Some innerLoopEdge)) flag (Some depth)], [])
  | _ => readTuplesAndExecute req innerLoopEdge flag depth
  end.

Definition follow_edges (req : ReverseExpandRequest) (sourceUserObj : string) (flag : bool) (depth : Z)
    (edges : list RelationshipEdge) : list Task * list ReErr :=
  let parts := follow_edge req sourceUserObj flag depth <$> edges in
  (concat parts.*1, concat parts.*2).

(** The source of the edges, and the object of the user. *)
Definition source_ref (u : IsUserRef) : RelationReference :=
  match u with
  | UserRefObject ty _ => DirectRelationReference ty ""
  | UserRefTypedWildcard ty => WildcardRelationReference ty
  | UserRefObjectRelation ref => DirectRelationReference (GetType (or_Object ref)) (or_Relation ref)
  end.

Definition source_object (u : IsUserRef) : string :=
  match u with
  | UserRefObject ty id => BuildObject ty id
  | UserRefTypedWildcard _ => ""
  | UserRefObjectRelation ref => or_Object ref
  end.

Definition trySendCandidate (flag : bool) (candidateObject : string) (s : Search) : Search :=
  if bool_decide (candidateObject ∈ candidateObjectsMap s) then s
  else mkSearch (pending s) (visitedUsersetsMap s) ({[candidateObject]} ∪ candidateObjectsMap s)
         (sent s ++ [mkReverseExpandResult candidateObject
                       (if flag then RequiresFurtherEvalStatus else NoFurtherEvalStatus)]) (errs s).

Definition fail (e : ReErr) (s : Search) : Search :=
  mkSearch (pending s) (visitedUsersetsMap s) (candidateObjectsMap s) (sent s) (errs s ++ [e]).

Definition spawn (tasks : list Task) (errors : list ReErr) (s : Search) : Search :=
  mkSearch (tasks ++ pending s) (visitedUsersetsMap s) (candidateObjectsMap s) (sent s) (errs s ++ errors).

(** The depth of the context handed on, or nothing when the limit is reached. *)
Definition next_depth (depth : option Z) : option Z :=
  match depth with
  | None => Some 0
  | Some d => if bool_decide (d >= resolveNodeLimit) then None else Some (d + 1)
  end.

(** The sub-searches of a request. *)
Definition expand (req : ReverseExpandRequest) (flag : bool) (depth : Z) : list Task * list ReErr :=
  match GetPrunedRelationshipEdges typesys (DirectRelationReference (re_ObjectType req) (re_Relation req))
          (source_ref (re_User req)) with
  | Throw e => ([], [ErrReTypesystem e])
  | Panic w => ([], [ErrRePanic w])
  | Ret edges => follow_edges req (source_object (re_User req)) flag depth edges
  end.

Definition execute (t : Task) (s : Search) : Search :=
  let req := task_req t in
  let flag := intersectionOrExclusionInPreviousEdges t in
  match next_depth (task_depth t) with
  | None => fail ErrReResolutionDepthExceeded s
  | Some depth =>
      let go s := let '(tasks, errors) := expand req flag depth in spawn tasks errors s in
      match re_User req with
      | UserRefObjectRelation ref =>
          let visit := match re_edge req with Some e => Some (visited_key (or_Object ref) e) | None => None end in
          if match visit with Some key => bool_decide (key ∈ visitedUsersetsMap s) | None => false end then s
          else
            let s := match visit with
                     | Some key => mkSearch (pending s) ({[key]} ∪ visitedUsersetsMap s) (candidateObjectsMap s) (sent s) (errs s)
                     | None => s
                     end in
            let s := if UsersetMatchTypeAndRelation (ref_String (re_User req)) (re_Relation req) (re_ObjectType req)
                     then trySendCandidate flag (or_Object ref) s else s in
            go s
      | _ => go s
      end
  end.

(** [Execute]: one call, without depth in its context. *)
Definition start (req : ReverseExpandRequest) : Search := mkSearch [mkTask req false None] ∅ ∅ [] [].

Definition with_pending (ts : list Task) (s : Search) : Search :=
  mkSearch ts (visitedUsersetsMap s) (candidateObjectsMap s) (sent s) (errs s).

Inductive step : Search → Search → Prop :=
| step_execute l1 t l2 s :
    pending s = l1 ++ t :: l2 → step s (execute t (with_pending (l1 ++ l2) s))
| step_cancelled l1 t l2 s :
    pending s = l1 ++ t :: l2 → errs s ≠ [] → step s (with_pending (l1 ++ l2) s).

(** A schedule: always the first pending call. *)
Fixpoint run (fuel : nat) (s : Search) : Search :=
  match fuel with
  | O => s
  | S fuel => match pending s with [] => s | t :: rest => run fuel (execute t (with_pending rest s)) end
  end.
End reverse_expand.
