(* ===== verification/ReverseExpandSpec.v ===== *)
(** * Reverse expansion against the meaning of a check

    For every interleaving of its calls, the search of [ReverseExpand.v] terminates, sends
    no object twice, sends an object without asking for further evaluation only when the
    user has the relation with it, and, when it ends without error, has sent every object
    the user has the relation with, exclusions and intersections included. *)

From stdpp Require Import relations.
From S2P Require Import Prelude GoStd Tuple Iterators Model Memory MemorySpec Typesystem Entrypoints TypesystemSpec.
From S2P Require Import Condition Validation ValidationSpec Check CheckSpec CheckSemantics CheckExact.
From S2P Require Import RelationshipGraph ReverseExpand.

Local Open Scope Z_scope.
Local Open Scope go_scope.

(** ** What the search expects *)

(** The datastore returns exactly the tuples of a type and relation whose user is asked
    for. *)
Class StartingReaderSpec `{!StartingReader} (store : string) (stored : list Tuple) := {
  #[global] sr_IteratorSpec :: IteratorSpec sr_iter Tuple;
  ReadStartingWithUser_returns ty r users : r ≠ "" → users ≠ [] →
    ∃ it, rd_ReadStartingWithUser store (mkReadStartingWithUserFilter ty r users None) = Ret it ∧
      ∀ t, t ∈ items it ↔ t ∈ stored ∧ GetType (Object (Key t)) = ty ∧ Relation (Key t) = r ∧
        User (Key t) ∈ (target_user <$> users);
}.

(** Names without the separators of relation references and of the text form. *)
Definition names_plain `{!ModelGraph} (t : TypeSystem) : Prop :=
  ∀ ty, is_Some (typeDefinitions t !! ty) → has_byte "#" ty = false ∧ has_byte " " ty = false ∧
    ∀ r rel, GetRelation t ty r = Ret rel → has_byte "#" r = false ∧ has_byte " " r = false.

(** The text of an edge identifies its target, when names have no spaces. *)
Class ProtoTextLaws `{!ProtoText} := {
  edge_String_target e e' ty r ty' r' :
    TargetReference e = DirectRelationReference ty r → TargetReference e' = DirectRelationReference ty' r' →
    has_byte " " ty = false → has_byte " " r = false → has_byte " " ty' = false → has_byte " " r' = false →
    edge_String e = edge_String e' → ty = ty' ∧ r = r';
}.

(** ** Leaves of a rewrite *)

Section leaves.
Context `{!ModelGraph, !Cel}.
Context (typesys : TypeSystem) (conds : gmap string EvaluableCondition) (tuples : list Tuple) (reqCtx : option Struct) (user : string).
Context (G R : string → string → Prop) (o r : string).
Abbreviation granted_rw := (granted_rw typesys conds tuples reqCtx user G R o r).

Lemma pruned_leaves_enclosed rw leaf : (false, leaf) ∉ pruned_leaves true rw.
Proof.
  induction rw as [|ob c|ts c|l IH|l IH|b s IHb IHs|] using Userset_nested_ind; simpl;
    try (intros ?%list_elem_of_singleton; done); try done; try apply not_elem_of_nil.
  - rewrite list_elem_of_In, in_concat. intros (l'&Hl'&Hin). apply list_elem_of_In in Hl', Hin.
    apply list_elem_of_fmap in Hl' as (c&->&Hc). rewrite Forall_forall in IH. by eapply IH.
  - destruct l as [|c l]; [apply not_elem_of_nil|]. by apply Forall_cons in IH as [? _].
Qed.

(** A leaf that nothing encloses grants its rewrite. *)
Lemma unenclosed_leaf_granted rw leaf : (false, leaf) ∈ pruned_leaves false rw → granted_rw leaf → granted_rw rw.
Proof.
  intros Hin Hg. induction rw as [|ob c|ts c|l IH|l IH|b s IHb IHs|] using Userset_nested_ind; simpl in Hin.
  1-3: by apply list_elem_of_singleton in Hin as [= <-].
  - rewrite list_elem_of_In, in_concat in Hin. destruct Hin as (l'&Hl'&Hin). apply list_elem_of_In in Hl', Hin.
    apply list_elem_of_fmap in Hl' as (c&->&Hc). rewrite Forall_forall in IH. simpl. apply foldr_or. exists c. split; [done|by apply IH].
  - destruct l as [|c l]; [by apply not_elem_of_nil in Hin|]. by apply pruned_leaves_enclosed in Hin.
  - by apply pruned_leaves_enclosed in Hin.
  - by apply not_elem_of_nil in Hin.
Qed.

(** A granted rewrite has a granted leaf among the ones the search follows. *)
Lemma granted_leaf rw : ∀ enclosed, granted_rw rw → ∃ b leaf, (b, leaf) ∈ pruned_leaves enclosed rw ∧ granted_rw leaf.
Proof.
  induction rw as [|ob c|ts c|l IH|l IH|b s IHb IHs|] using Userset_nested_ind; intros enclosed Hg.
  1-3: eexists _, _; split; [by apply list_elem_of_singleton|exact Hg].
  - simpl in Hg. apply foldr_or in Hg as (c&Hc&Hg). rewrite Forall_forall in IH.
    destruct (IH c Hc enclosed Hg) as (b&leaf&Hin&?). exists b, leaf. split; [|done]. simpl. by eapply elem_of_concat_fmap.
  - simpl in Hg. destruct Hg as [Hne Hall]. rewrite foldr_and in Hall. destruct l as [|c l]; [done|].
    apply Forall_cons in IH as [IH _]. apply (IH true), Hall. by left.
  - destruct Hg as [Hb _]. by apply (IHb true).
  - done.
Qed.
End leaves.

(** ** The reference of a user *)

Lemma sourceUserRef_cases user :
  IsValidUser user = true → GetType user ≠ "" →
  (∃ o r, sourceUserRef user = UserRefObjectRelation (mkObjectRelation o r) ∧ user = ToObjectRelationString o r ∧
     SplitObjectRelation user = (o, r) ∧ r ≠ "" ∧ object_ok o ∧ IsObjectRelation user = true ∧ GetType o = GetType user) ∨
  (∃ ty, sourceUserRef user = UserRefTypedWildcard ty ∧ user = TypedPublicWildcard ty ∧ ty = GetType user ∧
     IsObjectRelation user = false ∧ IsTypedWildcard user = true ∧ Tuple.GetRelation user = "") ∨
  (∃ ty id, sourceUserRef user = UserRefObject ty id ∧ user = BuildObject ty id ∧ ty = GetType user ∧
     IsObjectRelation user = false ∧ IsTypedWildcard user = false ∧ Tuple.GetRelation user = "").
Proof.
  intros Hv Hty. pose proof (valid_user_facts _ Hv) as (_&Htyo&Hor&Hrel&Hnorel). unfold sourceUserRef, Tuple.GetRelation in *.
  destruct (SplitObjectRelation user) as [o r] eqn:Hs; simpl in *. destruct (SplitObject o) as [ty id] eqn:Ho.
  case_bool_decide as Hr; simpl.
  - specialize (Hnorel Hr). subst o. right. simpl in Hor.
    destruct (SplitObject_cases user) as [[_ Hs']|(t&id'&Heq&Ht&Hs')]; rewrite Hs' in Ho; injection Ho as <- <-.
    { unfold GetType in Hty. by rewrite Hs' in Hty. }
    assert (GetType user = t) as Hgt by (unfold GetType; by rewrite Hs').
    destruct (IsTypedWildcard user) eqn:Hw.
    + left. exists (GetType user). split_and!; try done. unfold IsTypedWildcard in Hw. rewrite Hs' in Hw. bool_norm. subst id'.
      by rewrite Hgt.
    + right. exists t, id'. by rewrite Hgt.
  - left. exists o, r. split_and!; try done; [|by apply Hrel].
    destruct (SplitObjectRelation_cases user) as [[_ Hs']|(o'&r'&Heq&_&Hs')]; rewrite Hs' in Hs; simplify_eq; done.
Qed.

(** ** The sub-searches of a call *)

Section dispatched.
Context `{!Cel} (conds : gmap string EvaluableCondition).

(** The call for [o#r], found through [e]. *)
Definition child (req : ReverseExpandRequest) (e : RelationshipEdge) (flag : bool) (depth : Z) (o r : string) : Task :=
  mkTask (mkReverseExpandRequest (re_StoreID req) (re_ObjectType req) (re_Relation req)
            (UserRefObjectRelation (mkObjectRelation o r)) (re_Context req) (Some e)) flag (Some depth).

Lemma elem_of_dispatch_tuples req e flag depth tks τ :
  τ ∈ (dispatch_tuples conds req e flag depth tks).1 ↔
  ∃ tk, tk ∈ tks ∧ tuple_condition conds (re_Context req) tk = Ret true ∧
    τ = child req e flag depth (Object tk)
          (match edge_Type e with DirectEdge => Relation tk | _ => rr_GetRelation (TargetReference e) end).
Proof.
  induction tks as [|tk tks IH]; simpl; [set_solver|].
  destruct (dispatch_tuples conds req e flag depth tks) as [tasks errors]. simpl in IH.
  assert (∀ P : TupleKey → Prop, (∃ tk', tk' ∈ tk :: tks ∧ P tk') ↔ P tk ∨ ∃ tk', tk' ∈ tks ∧ P tk') as Hcons.
  { intros P. setoid_rewrite elem_of_cons. naive_solver. }
  rewrite Hcons, <-IH.
  destruct (tuple_condition conds (re_Context req) tk) as [[]| |]; simpl; rewrite ?elem_of_cons; naive_solver.
Qed.

End dispatched.

Section expansion.
Context `{!ModelGraph, !Cel, !MapRange, !ConditionCompiler, !ProtoText, !StartingReader}.
Context (m : AuthorizationModel) (typesys : TypeSystem) (conds : gmap string EvaluableCondition) (resolveNodeLimit : Z).
Context (store : string) (stored : list Tuple) `{!StartingReaderSpec store stored} (reqCtx : option Struct).
Hypothesis Hmodel : NewAndValidate m = Ret typesys.

Definition is_userset (u : IsUserRef) : bool := match u with UserRefObjectRelation _ => true | _ => false end.

(** A tuple that the search follows. *)
Definition followed (o r w : string) : Prop :=
  ∃ t, t ∈ stored ∧ FilterInvalidTuples typesys (Key t) = true ∧ tuple_condition conds reqCtx (Key t) = Ret true ∧
    key_of (Key t) = (o, r, w).

(** The user leads to [o#r] through the edge. *)
Definition edge_leads (u : IsUserRef) (e : RelationshipEdge) (o r : string) : Prop :=
  TargetReference e = DirectRelationReference (GetType o) r ∧
  match edge_Type e with
  | DirectEdge =>
      followed o r (ref_String u) ∨
      (is_userset u = false ∧ IsPubliclyAssignable typesys (TargetReference e) (ref_GetObjectType u) = Ret true ∧
       followed o r (TypedPublicWildcard (ref_GetObjectType u)))
  | TupleToUsersetEdge => followed o (TuplesetRelation e) (source_object u)
  | ComputedUsersetEdge => o = source_object u
  end.

(** A userset names a relation. *)
Definition ref_named (u : IsUserRef) : Prop :=
  match u with UserRefObjectRelation ref => or_Relation ref ≠ "" | _ => True end.

Lemma GetRelation_nonempty ty r rel : GetRelation typesys ty r = Ret rel → r ≠ "".
Proof.
  intros Hrel ->. pose proof (NewAndValidate_valid m typesys Hmodel) as [Hmv _].
  destruct (mv_names _ Hmv _ _ _ Hrel) as [_ Hn]. apply Hn. by left.
Qed.

Lemma DirectRelationReference_inj ty r ty' r' :
  DirectRelationReference ty r = DirectRelationReference ty' r' → ty = ty' ∧ r = r'.
Proof. intros Heq. split; [by injection Heq|]. by rewrite <-(DirectRelationReference_relation ty r), Heq, DirectRelationReference_relation. Qed.

Lemma pruned_leaf_in rw : ∀ enclosed b leaf, (b, leaf) ∈ pruned_leaves enclosed rw →
  match leaf with
  | Userset_This => has_this rw = true
  | Userset_ComputedUserset _ c => c ∈ computed_leaves rw
  | Userset_TupleToUserset ts c => (ts, c) ∈ flattenUserset rw
  | _ => False
  end.
Proof.
  induction rw as [|ob c|ts c|l IH|l IH|bs sb IHb IHs|] using Userset_nested_ind; intros enclosed b leaf Hin; simpl in Hin.
  1-3: apply list_elem_of_singleton in Hin as [= -> ->]; simpl; done || by left.
  - rewrite list_elem_of_In, in_concat in Hin. destruct Hin as (l'&Hl'&Hin). apply list_elem_of_In in Hl', Hin.
    apply list_elem_of_fmap in Hl' as (c&->&Hc). rewrite Forall_forall in IH. specialize (IH c Hc _ _ _ Hin).
    destruct leaf; try done; simpl.
    + apply existsb_exists. exists c. split; [by apply list_elem_of_In|done].
    + by eapply elem_of_concat_fmap.
    + by eapply elem_of_concat_fmap.
  - destruct l as [|c l]; [by apply not_elem_of_nil in Hin|]. apply Forall_cons in IH as [IH _]. specialize (IH _ _ _ Hin).
    destruct leaf; try done; simpl; [by rewrite IH|apply elem_of_app; by left..].
  - specialize (IHb _ _ _ Hin). destruct leaf; try done; simpl; [by rewrite IHb|apply elem_of_app; by left..].
  - by apply not_elem_of_nil in Hin.
Qed.

(** A source matched by a computed userset or a tuple-to-userset is a userset. *)
Lemma matched_userset u ty r rel leaf kind ts b :
  GetRelation typesys ty r = Ret rel → (b, leaf) ∈ pruned_leaves false (rel_Rewrite rel) →
  leaf_matches typesys (source_ref u) ty r leaf kind ts → kind ≠ DirectEdge →
  ∃ ref, u = UserRefObjectRelation ref.
Proof.
  intros Hrel Hin Hm Hk. apply pruned_leaf_in in Hin.
  assert (rr_GetRelation (source_ref u) ≠ "") as Hne.
  { destruct leaf as [|c|ts' c| | | |]; simpl in Hm; try done.
    - by destruct Hm as [-> _].
    - destruct Hm as (_&_&_&<-). pose proof (NewAndValidate_valid m typesys Hmodel) as [Hmv _].
      destruct (mv_computed _ Hmv _ _ _ _ Hrel Hin) as [_ [crel Hc]]. by eapply GetRelation_nonempty.
    - destruct Hm as (_&_&<-&tsrel&rr&crel&_&_&_&Hc). by eapply GetRelation_nonempty. }
  destruct u as [uty id|uty|ref]; [done|done|by exists ref].
Qed.

(** The users read for a direct edge. *)
Lemma direct_filters u e ty r rel :
  ref_named u → TargetReference e = DirectRelationReference ty r → GetRelation typesys ty r = Ret rel → edge_Type e = DirectEdge →
  (IsDirectlyRelated typesys (DirectRelationReference ty r) (source_ref u) = Ret true ∨
   IsPubliclyAssignable typesys (DirectRelationReference ty r) (rr_Type (source_ref u)) = Ret true) →
  ∃ users, edge_filters typesys e u = Ret (r, users) ∧ users ≠ [] ∧
    ∀ w, w ∈ (target_user <$> users) ↔
      w = ref_String u ∨
      (is_userset u = false ∧ IsPubliclyAssignable typesys (TargetReference e) (ref_GetObjectType u) = Ret true ∧
       w = TypedPublicWildcard (ref_GetObjectType u)).
Proof.
  intros Hu He Hrel Hk Hm. unfold edge_filters, shouldCheckPublicAssignable. rewrite Hk, He, DirectRelationReference_relation.
  assert (∀ ty', ∃ b, IsPubliclyAssignable typesys (DirectRelationReference ty r) ty' = Ret b) as Hpub.
  { intros ty'. unfold IsPubliclyAssignable, PubliclyAssignableReferences. rewrite DirectRelationReference_relation. simpl.
    rewrite Hrel. simpl. eauto. }
  destruct u as [uty id|uty|ref]; simpl in *.
  - destruct (Hpub uty) as [[] ->]; simpl; eexists; (split; [done|]); (split; [done|]); intros w; unfold target_user; simpl; set_solver.
  - assert (IsPubliclyAssignable typesys (DirectRelationReference ty r) uty = Ret true) as Hp.
    { destruct Hm as [Hd|?]; [|done]. revert Hd. unfold IsDirectlyRelated, IsPubliclyAssignable, PubliclyAssignableReferences.
      rewrite DirectRelationReference_relation. simpl. rewrite Hrel. simpl. intros [= Hex].
      apply existsb_exists in Hex as (rr&Hrr&Heq). destruct (List.find _ _) eqn:Hf; [done|].
      apply List.find_none with (x := rr) in Hf; [|done]. unfold RelationEquals in Heq. simpl in Heq. unfold rr_IsPlain, rr_HasWildcard in Heq; simpl in Heq.
      unfold rr_HasWildcard in Hf. destruct (decide (uty = rr_Type rr)) as [->|Hn]; [|by rewrite bool_decide_false in Heq].
      rewrite bool_decide_true in Heq, Hf by done. by destruct (rr_RelationOrWildcard rr) as [[]|]. }
    rewrite Hp. simpl. eexists. split; [done|]. split; [done|]. intros w. unfold target_user. simpl. set_solver.
  - simpl. eexists. split; [done|]. split; [done|]. intros w. unfold target_user. simpl.
    rewrite (bool_decide_false (or_Relation ref = "")) by done. simpl. unfold GetObjectRelationAsString.
    rewrite (bool_decide_false (or_Relation ref = "")) by done. set_solver.
Qed.

Lemma read_tuples ty r users it :
  rd_ReadStartingWithUser store (mkReadStartingWithUserFilter ty r users None) = Ret it →
  ∃ tks, drain (S (remaining it))
    (NewFilteredTupleKeyIterator (NewTupleKeyIteratorFromTupleIterator it) (FilterInvalidTuples typesys)) = (tks, Some ErrIteratorDone) ∧
    ∀ tk, tk ∈ tks ↔ ∃ t, t ∈ items it ∧ Key t = tk ∧ FilterInvalidTuples typesys tk = true.
Proof.
  intros _. eexists. split.
  - apply drain_items. simpl. pose proof (remaining_items it).
    pose proof (List.filter_length_le (FilterInvalidTuples typesys) (Key <$> items it)) as Hle. rewrite length_fmap in Hle.
    unfold fmap in *. lia.
  - intros tk. simpl. rewrite list_elem_of_In, List.filter_In, <-list_elem_of_In, list_elem_of_fmap. naive_solver.
Qed.

(** The calls that following an edge starts. *)
Lemma follow_edge_tasks req u e flag depth τ :
  re_User req = u → re_StoreID req = store → re_Context req = reqCtx → ref_named u →
  edge_sound typesys (source_ref u) e →
  τ ∈ (follow_edge typesys conds req (source_object u) flag depth e).1 ↔
  ∃ o r, edge_leads u e o r ∧
    τ = child req e (flag || TargetReferenceInvolvesIntersectionOrExclusion e) depth o r.
Proof.
  intros Hu Hst Hctx Hnamed (ty&r0&rel&enc&leaf&He&Hrel&Hin&Hm&_). unfold follow_edge, edge_leads.
  set (flag' := flag || _).
  destruct (edge_Type e) eqn:Hk.
  - assert (leaf = Userset_This ∧ (IsDirectlyRelated typesys (DirectRelationReference ty r0) (source_ref u) = Ret true ∨
      IsPubliclyAssignable typesys (DirectRelationReference ty r0) (rr_Type (source_ref u)) = Ret true)) as [-> Hd].
    { destruct leaf; simpl in Hm; naive_solver. }
    destruct (direct_filters u e ty r0 rel) as (users&Hf&Hne&Hw); [done..|].
    unfold readTuplesAndExecute. rewrite Hu, Hf, He, Hst.
    change (rr_Type (DirectRelationReference ty r0)) with ty.
    destruct (ReadStartingWithUser_returns ty r0 users (GetRelation_nonempty _ _ _ Hrel) Hne) as (it&Hget&Hit). rewrite Hget.
    destruct (read_tuples _ _ _ _ Hget) as (tks&Hdr&Htks). rewrite Hdr.
    destruct (dispatch_tuples conds req e flag' depth tks) as [tasks errors] eqn:Hdisp. cbn [fst].
    replace tasks with (dispatch_tuples conds req e flag' depth tks).1 by by rewrite Hdisp.
    rewrite elem_of_dispatch_tuples, Hk, Hctx. split.
    + intros (tk&(t&Ht&<-&Hv)%Htks&Hc&->). apply Hit in Ht as (Hst'&<-&<-&Huser). apply Hw in Huser.
      exists (Object (Key t)), (Relation (Key t)). split; [|done]. split; [done|].
      destruct Huser as [Hu'|(Hus&Hp&Hu')]; [left|right; split_and!; [done|by rewrite <-He|]];
        exists t; unfold key_of; rewrite Hu'; done.
    + intros (o&r&[Href Hfol]&->). apply DirectRelationReference_inj in Href as [-> ->].
      assert (∃ w, w ∈ (target_user <$> users) ∧ followed o r w) as (w&Hwu&(t&Ht&Hv&Hc&[= <- <- <-])).
      { destruct Hfol as [Hfol|(?&?&Hfol)]; eexists; (split; [|exact Hfol]); apply Hw; [by left|right]. by rewrite He. }
      exists (Key t). split_and!; [|done..]. apply Htks. exists t. split_and!; [|done..]. by apply Hit.
  - destruct (matched_userset u ty r0 rel leaf TupleToUsersetEdge (TuplesetRelation e) enc) as [ref ->]; [done..|].
    unfold readTuplesAndExecute, edge_filters. rewrite Hk, Hu, He, Hst.
    change (rr_Type (DirectRelationReference ty r0)) with ty.
    assert (TuplesetRelation e ≠ "") as Hts.
    { destruct leaf; simpl in Hm; try naive_solver. destruct Hm as (_&->&_&tsrel&_&_&Hts&_). by eapply GetRelation_nonempty. }
    destruct (ReadStartingWithUser_returns ty (TuplesetRelation e) [mkObjectRelation (or_Object ref) ""]) as (it&Hget&Hit); [done..|].
    rewrite Hget. destruct (read_tuples _ _ _ _ Hget) as (tks&Hdr&Htks). rewrite Hdr.
    destruct (dispatch_tuples conds req e flag' depth tks) as [tasks errors] eqn:Hdisp. cbn [fst].
    replace tasks with (dispatch_tuples conds req e flag' depth tks).1 by by rewrite Hdisp.
    rewrite elem_of_dispatch_tuples, Hk, Hctx, He, DirectRelationReference_relation. split.
    + intros (tk&(t&Ht&<-&Hv)%Htks&Hc&->). apply Hit in Ht as (Hst'&<-&Hr&Huser).
      exists (Object (Key t)), r0. split; [|done]. split; [done|]. exists t. split_and!; [done..|].
      unfold key_of. rewrite Hr. by apply list_elem_of_singleton in Huser as ->.
    + intros (o&r&[Href (t&Ht&Hv&Hc&[= <- Hr Hus])]&->). apply DirectRelationReference_inj in Href as [-> ->].
      exists (Key t). split_and!; [|done..]. apply Htks. exists t. split_and!; [|done..]. apply Hit. split_and!; [done..|].
      rewrite Hus. by apply list_elem_of_singleton.
  - rewrite He, DirectRelationReference_relation.
    destruct (matched_userset u ty r0 rel leaf ComputedUsersetEdge (TuplesetRelation e) enc) as [ref ->]; [done..|].
    assert (ty = GetType (or_Object ref)) as Hty by (destruct leaf; simpl in Hm; naive_solver). simpl.
    rewrite list_elem_of_singleton. split.
    + intros ->. exists (or_Object ref), r0. by rewrite <-Hty.
    + intros (o&r&[Href ->]&->). apply DirectRelationReference_inj in Href as [_ ->]. done.
Qed.
End expansion.

(** ** One step along an edge *)

Section search.
Context `{!ModelGraph, !Cel, !MapRange, !ConditionCompiler, !ProtoText, !StartingReader}.
Context (m : AuthorizationModel) (typesys : TypeSystem) (conds : gmap string EvaluableCondition).
Context (store : string) (stored : list Tuple) `{!StartingReaderSpec store stored} (reqCtx : option Struct).
Context (user targetType targetRelation : string).
Hypothesis Hmodel : NewAndValidate m = Ret typesys.
Hypothesis Hrefs : refs_named typesys.
Hypothesis Hnames : names_plain typesys.
Hypothesis Husers : ∀ t, t ∈ stored → IsValidUser (User (Key t)) = true.
Hypothesis Hobjects : ∀ t, t ∈ stored → object_ok (Object (Key t)).
Hypothesis Huser : IsValidUser user = true.
Hypothesis Htyped : GetType user ≠ "".

Abbreviation granted := (granted typesys conds stored reqCtx user).
Abbreviation usable := (usable typesys conds stored reqCtx).
Abbreviation followed := (followed typesys conds stored reqCtx).
Abbreviation edge_leads := (edge_leads typesys conds stored reqCtx).

(** Conditions that are met have all their parameters. *)
Definition conditions_strict : Prop :=
  ∀ t res, t ∈ stored → (EvaluateTupleCondition (Key t) conds reqCtx).1 = Ret res → ConditionMet res = true →
    MissingParameters res = ∅.

Lemma usable_followed o r w : usable o r w → followed o r w.
Proof.
  intros (t&Ht&Hk&Hkey). apply andb_true_iff in Hk as [Hv Hc]. exists t. split_and!; [done..| |done].
  unfold condition_filter, BuildTupleKeyConditionFilter in Hc. unfold tuple_condition.
  destruct (EvaluateTupleCondition (Key t) conds reqCtx) as [[res| |] c']; simpl in *; try done.
  case_bool_decide; simpl in Hc; [|done]. by destruct (ConditionMet res).
Qed.

Lemma followed_usable o r w : conditions_strict → followed o r w → usable o r w.
Proof.
  intros Hs (t&Ht&Hv&Hc&Hkey). exists t. split_and!; [done| |done]. unfold usable_key. rewrite Hv. simpl.
  specialize (Hs t). unfold condition_filter, BuildTupleKeyConditionFilter. unfold tuple_condition in Hc.
  destruct (EvaluateTupleCondition (Key t) conds reqCtx) as [[res| |] c']; simpl in *; try done.
  destruct (ConditionMet res) eqn:Hm; [|by case_bool_decide]. by rewrite (Hs res), bool_decide_true.
Qed.

(** A user that the search can be at: the user of the request, or a userset found. *)
Definition ref_ok (u : IsUserRef) : Prop :=
  match u with
  | UserRefObjectRelation ref =>
      or_Relation ref ≠ "" ∧ object_ok (or_Object ref) ∧
      SplitObjectRelation (ref_String u) = (or_Object ref, or_Relation ref)
  | _ => ref_String u = user ∧ IsObjectRelation user = false ∧ ref_GetObjectType u = GetType user ∧ u = sourceUserRef user
  end.

(** The user has what the search is at. *)
Definition holds (u : IsUserRef) : Prop :=
  match u with
  | UserRefObjectRelation ref => ∃ n, granted n (or_Object ref) (or_Relation ref)
  | _ => True
  end.

Lemma ref_ok_named u : ref_ok u → ref_named u.
Proof. destruct u; simpl; tauto. Qed.

Lemma object_no_hash o : object_ok o → SplitObjectRelation o = (o, "").
Proof. intros [_ Hh]. by apply SplitObjectRelation_none. Qed.

Lemma found_ref_ok o r rel :
  object_ok o → GetRelation typesys (GetType o) r = Ret rel → ref_ok (UserRefObjectRelation (mkObjectRelation o r)).
Proof.
  intros Ho Hrel. split; [by eapply GetRelation_nonempty|]. split; [done|]. simpl.
  pose proof (proj1 (GetRelation_Ret _ _ _ _) Hrel) as [Hty _]. destruct (Hnames _ Hty) as (_&_&Hr).
  destruct (Hr _ _ Hrel) as [Hh _]. by apply SplitObjectRelation_build.
Qed.

Lemma source_ref_ok : ref_ok (sourceUserRef user) ∧ holds (sourceUserRef user) ∧ ref_String (sourceUserRef user) = user.
Proof.
  destruct (sourceUserRef_cases user Huser Htyped) as
    [(o&r&Hs&Heq&Hsp&Hr&Ho&_&Hty)|[(ty&Hs&Heq&Hty&Hor&_)|(ty&id&Hs&Heq&Hty&Hor&_)]]; rewrite Hs; simpl; [| |by rewrite <-Heq].
  - split_and!; [done..|by rewrite <-Heq| |done]. exists 1%nat. left. unfold self_defining, IsSelfDefining. simpl.
    rewrite Hsp. by rewrite !bool_decide_true.
  - by rewrite <-Heq.
Qed.

(** Following an unmarked edge from what the user has leads to what the user has. *)
Lemma edge_leads_granted u e o r :
  conditions_strict → ref_ok u → holds u → edge_sound typesys (source_ref u) e →
  TargetReferenceInvolvesIntersectionOrExclusion e = false → edge_leads u e o r → ∃ n, granted n o r.
Proof.
  intros Hs Hok Hh (ty&r0&rel&enc&leaf&He&Hrel&Hin&Hm&Hflag) Hf [Href Hlead]. specialize (Hflag Hf). subst enc.
  rewrite He in Href. apply DirectRelationReference_inj in Href as [-> ->].
  assert (∀ n, granted_rw typesys conds stored reqCtx user (granted n) (refuted typesys conds stored reqCtx user n) o r leaf →
    ∃ n, granted n o r) as Hleaf.
  { intros n Hg. exists (S n). right. exists rel. split; [done|]. by eapply unenclosed_leaf_granted. }
  destruct leaf as [|ob c|ts c| | | |]; simpl in Hm; try done.
  - destruct Hm as (Hk&_&_). rewrite Hk in Hlead. destruct Hlead as [Hfol|(Hus&_&Hfol)].
    + apply followed_usable in Hfol; [|done]. destruct u as [uty id|uty|ref].
      1-2: apply (Hleaf 0%nat); simpl; left; by rewrite <-(proj1 Hok).
      destruct Hok as (Hne&_&Hsp), Hh as [n Hg]. apply (Hleaf n). right. right. eexists. split; [exact Hfol|].
      unfold Tuple.GetRelation. rewrite Hsp. done.
    + apply followed_usable in Hfol; [|done]. apply (Hleaf 0%nat). right. left.
      destruct u as [uty id|uty|ref]; [| |done]; destruct Hok as (_&Hor&Hty&_); by rewrite Hty in Hfol.
  - destruct (matched_userset m typesys Hmodel u _ _ rel _ (edge_Type e) (TuplesetRelation e) _ Hrel Hin) as [ref ->]; [done|by destruct Hm as [-> _]|].
    destruct Hm as (Hk&_&_&->). rewrite Hk in Hlead. simpl in Hlead. subst o.
    destruct Hh as [n Hg]. apply (Hleaf n). simpl. by rewrite DirectRelationReference_relation.
  - destruct (matched_userset m typesys Hmodel u _ _ rel _ (edge_Type e) (TuplesetRelation e) _ Hrel Hin) as [ref ->]; [done|by destruct Hm as [-> _]|].
    destruct Hm as (Hk&Hts&Hc&tsrel&rr&crel&_&_&Hty&Hcrel). rewrite Hk in Hlead. simpl in Hlead, Hty.
    rewrite Hts in Hlead. apply followed_usable in Hlead; [|done]. destruct Hok as (_&Hobj&_), Hh as [n Hg].
    apply (Hleaf n). exists (or_Object ref). rewrite (object_no_hash _ Hobj). simpl in *. split; [done|].
    rewrite DirectRelationReference_relation in Hc. subst c. split; [|done]. unfold ttu_skips. by rewrite <-Hty, Hcrel.
Qed.

(** The restrictions of a usable tuple relate its user's reference. *)
Lemma usable_related o r w u rel :
  usable o r w → GetRelation typesys (GetType o) r = Ret rel →
  (∃ ref, u = UserRefObjectRelation ref ∧ w = ref_String u ∧ GetType (or_Object ref) = GetType w ∧
          or_Relation ref ≠ "" ∧ SplitObjectRelation w = (or_Object ref, or_Relation ref)) ∨
  (w = user ∧ u = sourceUserRef user) →
  IsDirectlyRelated typesys (DirectRelationReference (GetType o) r) (source_ref u) = Ret true.
Proof.
  intros Hus Hrel Hu.
  pose proof (usable_facts m typesys conds stored reqCtx Hmodel Husers _ _ _ Hus) as (Hv&rel'&rr&Hrel'&Hrr&Hty&Hshape).
  rewrite Hrel in Hrel'. simplify_eq. unfold IsDirectlyRelated. rewrite DirectRelationReference_relation. simpl. rewrite Hrel. simpl.
  f_equal. apply existsb_exists. exists rr. split; [by apply list_elem_of_In|].
  pose proof (valid_user_facts _ Hv) as (_&_&Hor&_). unfold Tuple.GetRelation in Hor.
  assert (∀ ref, SplitObjectRelation w = (or_Object ref, or_Relation ref) → GetType (or_Object ref) = GetType w → or_Relation ref ≠ "" →
    RelationEquals (source_ref (UserRefObjectRelation ref)) rr = true) as Hset.
  { intros ref Hsp Htyo Hne. rewrite Hsp in Hor, Hshape. simpl in Hor, Hshape. rewrite (bool_decide_false _ Hne) in Hor. simpl in Hor.
    rewrite Hor in Hshape. unfold RelationEquals. simpl. rewrite DirectRelationReference_relation, Htyo, Hty. unfold GetType.
    rewrite bool_decide_true by done. simpl. unfold rr_IsPlain, rr_HasWildcard. simpl. rewrite (bool_decide_false _ Hne). simpl.
    rewrite Hshape, (bool_decide_false _ Hne), bool_decide_true by done. done. }
  destruct Hu as [(ref&->&->&Htyo&Hne&Hsp)|[-> ->]]; [by apply Hset|].
  destruct (sourceUserRef_cases user Huser Htyped) as
    [(o'&r'&Hs&Heq&Hsp&Hr&Ho&_&Hty')|[(ty&Hs&Heq&Hty'&Hor'&Hw&Hr)|(ty&id&Hs&Heq&Hty'&Hor'&Hw&Hr)]]; rewrite Hs.
  - by apply Hset.
  - rewrite Hor', Hw in Hshape. unfold RelationEquals. simpl. rewrite Hty, Hty'. unfold GetType.
    rewrite bool_decide_true by done. simpl. unfold rr_IsPlain. simpl. by rewrite Hshape.
  - rewrite Hor', Hw in Hshape. destruct Hshape as [Hwc Hg]. pose proof (Hrefs _ _ _ _ Hrel Hrr) as Hn.
    unfold RelationEquals. simpl. rewrite Hty, Hty'. unfold GetType. rewrite bool_decide_true by done. simpl.
    unfold rr_IsPlain. simpl. unfold rr_HasWildcard, rr_GetRelation in *. by destruct (rr_RelationOrWildcard rr) as [[]|]; subst.
Qed.

Lemma usable_public o r rel :
  IsObjectRelation user = false → usable o r (TypedPublicWildcard (GetType user)) → GetRelation typesys (GetType o) r = Ret rel →
  IsPubliclyAssignable typesys (DirectRelationReference (GetType o) r) (GetType user) = Ret true.
Proof.
  intros Ho Hus Hrel. pose proof (usable_facts m typesys conds stored reqCtx Hmodel Husers _ _ _ Hus) as (Hv&rel'&rr&Hrel'&Hrr&Hty&Hshape).
  rewrite Hrel in Hrel'. simplify_eq.
  destruct (wildcard_facts _ (GetType_no_colon user) Hv) as (_&Ho'&Hw&Ht). rewrite Ho', Hw in Hshape.
  unfold IsPubliclyAssignable, PubliclyAssignableReferences. rewrite DirectRelationReference_relation. simpl. rewrite Hrel. simpl.
  destruct (List.find _ _) eqn:Hf; [done|]. exfalso. apply List.find_none with (x := rr) in Hf; [|by apply list_elem_of_In].
  simpl in Hf. rewrite Hshape, Hty in Hf. unfold GetType in Ht at 1. rewrite Ht in Hf. by rewrite bool_decide_true in Hf.
Qed.

(** What the search must have been at before [o#r]. *)
Definition before (n : nat) (u : IsUserRef) : Prop :=
  u = sourceUserRef user ∨
  ∃ o r rel, u = UserRefObjectRelation (mkObjectRelation o r) ∧ granted n o r ∧ object_ok o ∧
    pruned_reach typesys targetType targetRelation (GetType o) r ∧ GetRelation typesys (GetType o) r = Ret rel.

Lemma types_plain_names : types_plain typesys.
Proof. intros ty Hty. by apply Hnames. Qed.

(** Every derivation ends with an edge the search follows. *)
Lemma granted_leaf_edge n o r rel b leaf relT :
  GetRelation typesys targetType targetRelation = Ret relT →
  object_ok o → GetRelation typesys (GetType o) r = Ret rel → pruned_reach typesys targetType targetRelation (GetType o) r →
  (b, leaf) ∈ pruned_leaves false (rel_Rewrite rel) →
  granted_rw typesys conds stored reqCtx user (granted n) (refuted typesys conds stored reqCtx user n) o r leaf →
  ∃ u, before n u ∧
    ∀ es, GetPrunedRelationshipEdges typesys (DirectRelationReference targetType targetRelation) (source_ref u) = Ret es →
      ∃ e, e ∈ es ∧ edge_leads u e o r.
Proof.
  intros HT Ho Hrel Hreach Hin Hg. pose proof (NewAndValidate_valid m typesys Hmodel) as [Hmv _].
  pose proof (pruned_leaf_in _ _ _ _ Hin) as Hleaf.
  assert (∀ u kind ts, leaf_matches typesys (source_ref u) (GetType o) r leaf kind ts →
    (∀ e, edge_Type e = kind → TargetReference e = DirectRelationReference (GetType o) r → TuplesetRelation e = ts → edge_leads u e o r) →
    ∀ es, GetPrunedRelationshipEdges typesys (DirectRelationReference targetType targetRelation) (source_ref u) = Ret es →
      ∃ e, e ∈ es ∧ edge_leads u e o r) as Hedge.
  { intros u kind ts Hm Hl es Hes.
    apply (GetPrunedRelationshipEdges_exact_spec typesys (source_ref u) targetType targetRelation relT) in Hes as [_ Hc]; [|apply types_plain_names|done].
    destruct (Hc _ _ _ _ _ _ _ Hreach Hrel Hin Hm) as (e&He&Hk&Ht&Hts). exists e. split; [done|]. by apply Hl. }
  destruct leaf as [|ob c|ts c| | | |]; try done; simpl in Hg.
  - destruct Hg as [Hus|[[Hor Hus]|(w&Hus&Hne&Hgn)]].
    + exists (sourceUserRef user). split; [by left|]. apply (Hedge _ DirectEdge "").
      * split_and!; [done..|]. left. eapply usable_related; [done..|by right].
      * intros e Hk Ht _. split; [done|]. rewrite Hk. left. rewrite (proj2 (proj2 source_ref_ok)). by apply usable_followed.
    + assert (rr_Type (source_ref (sourceUserRef user)) = GetType user ∧ ref_GetObjectType (sourceUserRef user) = GetType user ∧
        is_userset (sourceUserRef user) = false) as (Ht1&Ht2&Hnu).
      { destruct (sourceUserRef_cases user Huser Htyped) as
          [(o'&r'&Hs&_&_&_&_&Hor'&_)|[(ty&Hs&_&Hty&_)|(ty&id&Hs&_&Hty&_)]]; rewrite Hs; simpl; congruence || done. }
      exists (sourceUserRef user). split; [by left|]. apply (Hedge _ DirectEdge "").
      * split_and!; [done..|]. right. rewrite Ht1. by eapply usable_public.
      * intros e Hk Ht _. split; [done|]. rewrite Hk. right. rewrite Ht2, Ht. split_and!; [done|by eapply usable_public|by apply usable_followed].
    + pose proof (usable_facts m typesys conds stored reqCtx Hmodel Husers _ _ _ Hus) as (Hv&_).
      pose proof (valid_user_facts _ Hv) as (_&Htyw&_&Hobj&_). destruct (Hobj Hne) as [Hobj' _].
      destruct (usable_userset m typesys conds stored reqCtx Hmodel Husers _ _ _ Hus Hne) as (rel1&rr&Hrel1&Hrr&Hty&Hgr&_&rel2&Hrel2).
      rewrite Hrel in Hrel1. simplify_eq.
      destruct (SplitObjectRelation_cases w) as [[_ Hs]|(o'&r'&Heq&_&Hs)]; unfold Tuple.GetRelation in *; rewrite Hs in *; [done|]; simpl in *.
      exists (UserRefObjectRelation (mkObjectRelation o' r')). split.
      * right. exists o', r', rel2. split_and!; [done..| |by rewrite Htyw, <-Hty, <-Hgr].
        eapply reach_next; [done..| |by rewrite Htyw, <-Hty, <-Hgr]. exists rel1, rr. rewrite Htyw. split_and!; [done..|by rewrite Hgr|done|done].
      * apply (Hedge _ DirectEdge "").
        -- split_and!; [done..|]. left. eapply usable_related; [done..|]. left. eexists. split_and!; [done| |done..]. done.
        -- intros e Hk Ht _. split; [done|]. rewrite Hk. left. simpl. rewrite <-Heq. by apply usable_followed.
  - destruct (mv_computed _ Hmv _ _ _ _ Hrel Hleaf) as [_ [crel Hc]].
    exists (UserRefObjectRelation (mkObjectRelation o c)). split.
    + right. exists o, c, crel. split_and!; [done..| |done]. by eapply reach_next.
    + apply (Hedge _ ComputedUsersetEdge ""); simpl; [by rewrite DirectRelationReference_relation|].
      intros e Hk Ht _. split; [done|]. by rewrite Hk.
  - destruct Hg as (w&Hus&Hskip&Hgn).
    destruct (usable_ttu m typesys conds stored reqCtx Hmodel Husers _ _ _ _ _ _ Hrel Hleaf Hus) as (Hs&Hobj&tsrel&rr&Hts&Hrr&Hty&Hdef).
    rewrite Hs in Hskip, Hgn. simpl in *. destruct (Hdef Hskip) as [crel Hc].
    exists (UserRefObjectRelation (mkObjectRelation w c)). split.
    + right. exists w, c, crel. split_and!; [done..| |done]. eapply reach_next; [done..| |done].
      exists tsrel, rr, crel. rewrite Hty. done.
    + apply (Hedge _ TupleToUsersetEdge ts); simpl.
      * rewrite DirectRelationReference_relation. split_and!; [done..|]. exists tsrel, rr, crel. rewrite Hty. done.
      * intros e Hk Ht Hts'. split; [done|]. rewrite Hk, Hts'. by apply usable_followed.
Qed.
End search.

(** ** The calls of a search *)

Section calls.
Context `{!ModelGraph, !Cel, !ProtoText, !StartingReader}.
Context (typesys : TypeSystem) (conds : gmap string EvaluableCondition) (resolveNodeLimit : Z).

Abbreviation step := (step typesys conds resolveNodeLimit).
Abbreviation execute := (execute typesys conds resolveNodeLimit).
Abbreviation expand := (expand typesys conds).
Abbreviation run := (run typesys conds resolveNodeLimit).

(** The part of [execute] before the edges: the maps, and the candidate. *)
Definition arrive_at (t : Task) (s : Search) : Search :=
  let req := task_req t in
  match re_User req with
  | UserRefObjectRelation ref =>
      let s := match re_edge req with
               | Some e => mkSearch (pending s) ({[visited_key (or_Object ref) e]} ∪ visitedUsersetsMap s)
                             (candidateObjectsMap s) (sent s) (errs s)
               | None => s
               end in
      if UsersetMatchTypeAndRelation (ref_String (re_User req)) (re_Relation req) (re_ObjectType req)
      then trySendCandidate (intersectionOrExclusionInPreviousEdges t) (or_Object ref) s else s
  | _ => s
  end.

Definition seen (t : Task) (s : Search) : bool :=
  match re_User (task_req t), re_edge (task_req t) with
  | UserRefObjectRelation ref, Some e => bool_decide (visited_key (or_Object ref) e ∈ visitedUsersetsMap s)
  | _, _ => false
  end.

Lemma execute_eq t s :
  execute t s =
  match next_depth resolveNodeLimit (task_depth t) with
  | None => fail ErrReResolutionDepthExceeded s
  | Some depth =>
      if seen t s then s
      else let '(tasks, errors) := expand (task_req t) (intersectionOrExclusionInPreviousEdges t) depth in
           spawn tasks errors (arrive_at t s)
  end.
Proof.
  unfold ReverseExpand.execute, seen, arrive_at. destruct (next_depth _ _); [|done].
  destruct (re_User (task_req t)); try done. by destruct (re_edge (task_req t)).
Qed.

Lemma arrive_at_same t s : pending (arrive_at t s) = pending s ∧ errs (arrive_at t s) = errs s.
Proof.
  unfold arrive_at, trySendCandidate. destruct (re_User (task_req t)); try done.
  destruct (re_edge (task_req t)); case_match; try done; by case_bool_decide.
Qed.

(** *** Termination *)

Lemma sum_list_app (l l' : list nat) : sum_list (l ++ l') = (sum_list l + sum_list l')%nat.
Proof. induction l as [|x l IH]; simpl; [done|]. rewrite IH. lia. Qed.

Lemma dispatch_tuples_depth req e flag depth tks t :
  t ∈ (dispatch_tuples conds req e flag depth tks).1 → task_depth t = Some depth.
Proof. intros (tk&_&_&->)%elem_of_dispatch_tuples. done. Qed.

Lemma expand_depth req flag depth t : t ∈ (expand req flag depth).1 → task_depth t = Some depth.
Proof.
  unfold ReverseExpand.expand. destruct (GetPrunedRelationshipEdges _ _ _) as [es| |]; simpl; [|by intros ?%not_elem_of_nil..].
  rewrite list_elem_of_In, in_concat. intros (l&Hl&Hin). apply list_elem_of_In in Hl, Hin.
  apply list_elem_of_fmap in Hl as (p&->&Hp). apply list_elem_of_fmap in Hp as (e&->&_).
  unfold follow_edge, readTuplesAndExecute in Hin. destruct (edge_Type e);
    [| |by apply list_elem_of_singleton in Hin as ->];
    (destruct (edge_filters _ _ _) as [[? ?]| |]; cbn [fst] in Hin; [|by apply not_elem_of_nil in Hin..];
     destruct (rd_ReadStartingWithUser _ _) as [it| |]; cbn [fst] in Hin; [|by apply not_elem_of_nil in Hin..];
     destruct (drain _ _) as [tks final]; destruct (dispatch_tuples _ _ _ _ _ _) as [ts er] eqn:Hd; cbn [fst] in Hin;
     eapply (dispatch_tuples_depth _ e _ depth tks); by rewrite Hd).
Qed.

(** The calls that a call can still lead to, over the levels below the depth limit. *)
Definition levels (depth : option Z) : nat :=
  match depth with None => Z.to_nat resolveNodeLimit + 2 | Some d => Z.to_nat (resolveNodeLimit - d) + 1 end%nat.

Fixpoint weight (n : nat) (t : Task) : nat :=
  match n with
  | O => 1
  | S n => 1 + match next_depth resolveNodeLimit (task_depth t) with
               | None => 0
               | Some depth => sum_list (weight n <$> (expand (task_req t) (intersectionOrExclusionInPreviousEdges t) depth).1)
               end
  end.

Definition task_weight (t : Task) : nat := weight (levels (task_depth t)) t.
Definition search_weight (s : Search) : nat := sum_list (task_weight <$> pending s).

Lemma next_depth_levels depth depth' :
  next_depth resolveNodeLimit depth = Some depth' → levels depth = S (levels (Some depth')).
Proof.
  destruct depth as [d|]; simpl; [|intros [= <-]; rewrite Z.sub_0_r; lia].
  case_bool_decide; [done|]. intros [= <-]. lia.
Qed.

Lemma task_weight_children t depth :
  next_depth resolveNodeLimit (task_depth t) = Some depth →
  task_weight t =
  S (sum_list (task_weight <$> (expand (task_req t) (intersectionOrExclusionInPreviousEdges t) depth).1)).
Proof.
  intros Hd. unfold task_weight at 1. rewrite (next_depth_levels _ _ Hd). cbn [weight]. rewrite Hd. simpl. f_equal. f_equal.
  apply list_fmap_ext. intros i c Hc%list_elem_of_lookup_2. unfold task_weight. by rewrite (expand_depth _ _ _ _ Hc).
Qed.

Lemma task_weight_pos t : (0 < task_weight t)%nat.
Proof. unfold task_weight. destruct (levels _); simpl; lia. Qed.

Lemma execute_weight t s : (search_weight (execute t s) < task_weight t + search_weight s)%nat.
Proof.
  pose proof (task_weight_pos t). rewrite execute_eq. destruct (next_depth _ _) as [depth|] eqn:Hd; [|unfold search_weight; simpl; lia].
  destruct (seen t s); [lia|]. rewrite (task_weight_children _ _ Hd).
  destruct (expand _ _ _) as [tasks errors]. unfold search_weight. simpl.
  rewrite (proj1 (arrive_at_same t s)), fmap_app, sum_list_app. lia.
Qed.

Lemma pending_weight l1 t l2 s :
  pending s = l1 ++ t :: l2 → search_weight s = (task_weight t + search_weight (with_pending (l1 ++ l2) s))%nat.
Proof. intros Hp. unfold search_weight. simpl. rewrite Hp, !fmap_app, fmap_cons, !sum_list_app. simpl. lia. Qed.

Lemma step_weight s s' : step s s' → (search_weight s' < search_weight s)%nat.
Proof.
  intros [l1 t l2 s0 Hp|l1 t l2 s0 Hp _]; rewrite (pending_weight _ _ _ _ Hp); [apply execute_weight|].
  pose proof (task_weight_pos t). lia.
Qed.

Lemma nsteps_weight n s s' : nsteps step n s s' → (n + search_weight s' ≤ search_weight s)%nat.
Proof. induction 1 as [|n s1 s2 s3 Hs%step_weight _ IH]; lia. Qed.

Lemma run_pending n s : (search_weight s ≤ n)%nat → pending (run n s) = [].
Proof.
  revert s. induction n as [|n IH]; intros s Hw; simpl.
  - unfold search_weight in Hw. destruct (pending s) as [|t l]; [done|]. simpl in Hw. pose proof (task_weight_pos t). lia.
  - destruct (pending s) as [|t l] eqn:Hp; [done|]. apply IH. rewrite (pending_weight [] t l s Hp) in Hw. simpl in Hw.
    pose proof (execute_weight t (with_pending l s)). lia.
Qed.

Lemma run_steps n s : rtc step s (run n s).
Proof.
  revert s. induction n as [|n IH]; intros s; simpl; [done|]. destruct (pending s) as [|t l] eqn:Hp; [done|].
  eapply rtc_l; [|apply IH]. by apply (step_execute _ _ _ [] t l s).
Qed.

(** C35: every interleaving of a search ends: from any state there is a bound on the number
    of steps that any schedule can take, whatever the model, the stored tuples (cycles
    among usersets included) and the visited usersets, because every call is one level
    deeper than its caller and [resolveNodeLimit] bounds the levels; and the schedule of
    [run] with that bound as fuel reaches a state without pending calls. *)
Theorem ReverseExpand_terminates (s : Search) :
  ∃ N, (∀ n s', nsteps step n s s' → (n ≤ N)%nat) ∧ rtc step s (run N s) ∧ pending (run N s) = [].
Proof.
  exists (search_weight s). split_and!; [|apply run_steps|by apply run_pending].
  intros n s' Hn%nsteps_weight. lia.
Qed.
End calls.

(** ** Invariants of the search *)

(** What a search takes for granted: a validated model with plain names, and a store whose
    tuples have valid objects and users, as writes leave it. *)
Record search_setting `{!ModelGraph, !Cel, !MapRange, !ConditionCompiler} (m : AuthorizationModel) (typesys : TypeSystem)
    (stored : list Tuple) (user targetType targetRelation : string) : Prop := {
  ss_model : NewAndValidate m = Ret typesys;
  ss_refs : refs_named typesys;
  ss_names : names_plain typesys;
  ss_users t : t ∈ stored → IsValidUser (User (Key t)) = true;
  ss_objects t : t ∈ stored → object_ok (Object (Key t));
  ss_user : IsValidUser user = true;
  ss_typed : GetType user ≠ "";
  ss_target : ∃ rel, GetRelation typesys targetType targetRelation = Ret rel;
}.

Section invariants.
Context `{!ModelGraph, !Cel, !MapRange, !ConditionCompiler, !ProtoText, !StartingReader}.
Context (m : AuthorizationModel) (typesys : TypeSystem) (conds : gmap string EvaluableCondition) (resolveNodeLimit : Z).
Context (store : string) (stored : list Tuple) `{!StartingReaderSpec store stored} (reqCtx : option Struct).
Context (user targetType targetRelation : string).
Hypothesis Hset : search_setting m typesys stored user targetType targetRelation.

Abbreviation granted := (granted typesys conds stored reqCtx user).
Abbreviation edge_leads := (edge_leads typesys conds stored reqCtx).
Abbreviation edge_sound := (edge_sound typesys).
Abbreviation ref_ok := (ref_ok user).
Abbreviation holds := (holds typesys conds stored reqCtx user).
Abbreviation strict := (conditions_strict conds stored reqCtx).
Abbreviation step := (step typesys conds resolveNodeLimit).
Abbreviation execute := (execute typesys conds resolveNodeLimit).
Abbreviation expand := (expand typesys conds).
Abbreviation edges_from u :=
  (GetPrunedRelationshipEdges typesys (DirectRelationReference targetType targetRelation) (source_ref u)).

Definition list_request : ReverseExpandRequest :=
  mkReverseExpandRequest store targetType targetRelation (sourceUserRef user) reqCtx None.

(** A call of this search: at the user of the request, or at a userset found through an
    edge. *)
Record task_ok (t : Task) : Prop := {
  to_store : re_StoreID (task_req t) = store;
  to_type : re_ObjectType (task_req t) = targetType;
  to_relation : re_Relation (task_req t) = targetRelation;
  to_context : re_Context (task_req t) = reqCtx;
  to_ref : ref_ok (re_User (task_req t));
  to_edge : match re_edge (task_req t) with
            | None => re_User (task_req t) = sourceUserRef user
            | Some e => ∃ o r rel, re_User (task_req t) = UserRefObjectRelation (mkObjectRelation o r) ∧
                TargetReference e = DirectRelationReference (GetType o) r ∧ GetRelation typesys (GetType o) r = Ret rel
            end;
}.

Lemma edges_sound u es e : edges_from u = Ret es → e ∈ es → edge_sound (source_ref u) e.
Proof.
  destruct Hset as [Hm ? Hn ? ? ? ? [rel Hrel]]. intros Hes He.
  apply (GetPrunedRelationshipEdges_exact_spec typesys (source_ref u) targetType targetRelation rel) in Hes as [Hs _];
    [by apply Hs|by apply types_plain_names|done].
Qed.

(** The calls started by a call. *)
Lemma expand_tasks t flag depth c :
  task_ok t →
  c ∈ (expand (task_req t) flag depth).1 ↔
  ∃ es e o r, edges_from (re_User (task_req t)) = Ret es ∧ e ∈ es ∧ edge_leads (re_User (task_req t)) e o r ∧
    c = child (task_req t) e (flag || TargetReferenceInvolvesIntersectionOrExclusion e) depth o r.
Proof.
  intros [Hst Hty Hr Hctx Hok _]. unfold ReverseExpand.expand. rewrite Hty, Hr.
  destruct (edges_from (re_User (task_req t))) as [es| |] eqn:Hes; simpl.
  2-3: split; [by intros ?%not_elem_of_nil|naive_solver].
  assert (∀ e, e ∈ es → (c ∈ (follow_edge typesys conds (task_req t) (source_object (re_User (task_req t))) flag depth e).1 ↔
    ∃ o r, edge_leads (re_User (task_req t)) e o r ∧
      c = child (task_req t) e (flag || TargetReferenceInvolvesIntersectionOrExclusion e) depth o r)) as Hfe.
  { intros e He. apply (follow_edge_tasks m typesys conds store stored reqCtx (ss_model _ _ _ _ _ _ Hset) _ _ e); try done.
    - by eapply ref_ok_named.
    - by eapply edges_sound. }
  unfold follow_edges. simpl. rewrite list_elem_of_In, in_concat. split.
  - intros (l&Hl&Hin). apply list_elem_of_In in Hl, Hin. apply list_elem_of_fmap in Hl as (p&->&Hp).
    apply list_elem_of_fmap in Hp as (e&->&He). apply Hfe in Hin as (o&r&?&?); [|done]. by exists es, e, o, r.
  - intros (es'&e&o&r&[= <-]&He&Hl&Hc). eexists. rewrite <-!list_elem_of_In. split; [|apply (Hfe e He); eauto].
    apply list_elem_of_fmap. eexists. split; [done|]. apply list_elem_of_fmap. by exists e.
Qed.

Lemma edge_leads_ok u e o r :
  ref_ok u → edge_sound (source_ref u) e → edge_leads u e o r →
  object_ok o ∧ ∃ rel, GetRelation typesys (GetType o) r = Ret rel.
Proof.
  intros Hok (ty&r0&rel&enc&leaf&He&Hrel&Hin&Hm&_) [Href Hlead]. rewrite He in Href.
  apply DirectRelationReference_inj in Href as [-> ->]. split; [|by exists rel].
  assert (∀ o r w, followed typesys conds stored reqCtx o r w → object_ok o) as Hobj.
  { intros o' r' w (t&Ht&_&_&[= <- <- <-]). by apply (ss_objects _ _ _ _ _ _ Hset). }
  destruct (edge_Type e) eqn:Hk.
  - destruct Hlead as [Hf|(_&_&Hf)]; by eapply Hobj.
  - by eapply Hobj.
  - destruct (matched_userset m typesys (ss_model _ _ _ _ _ _ Hset) u (GetType o) r rel leaf ComputedUsersetEdge (TuplesetRelation e) enc) as [ref ->];
      [done..|]. simpl in Hlead. subst o. by destruct Hok as (_&?&_).
Qed.

(** *** Soundness *)

Record sound_inv (s : Search) : Prop := {
  si_tasks : Forall (λ t, task_ok t ∧
    (strict → intersectionOrExclusionInPreviousEdges t = false → holds (re_User (task_req t)))) (pending s);
  si_sent : Forall (λ res, object_ok (res_Object res) ∧ GetType (res_Object res) = targetType ∧
    (strict → res_ResultStatus res = NoFurtherEvalStatus → ∃ n, granted n (res_Object res) targetRelation)) (sent s);
  si_nodup : NoDup (res_Object <$> sent s);
  si_candidates o : o ∈ candidateObjectsMap s ↔ o ∈ (res_Object <$> sent s);
}.

Lemma source_facts : ref_ok (sourceUserRef user) ∧ holds (sourceUserRef user).
Proof.
  destruct (source_ref_ok typesys conds stored reqCtx user) as (?&?&_); try apply Hset. done.
Qed.

Lemma sound_inv_start : sound_inv (start list_request).
Proof.
  destruct source_facts as [Hok Hh]. split; simpl; [|constructor|constructor|set_solver].
  apply Forall_singleton. split; [|done]. by split.
Qed.

Lemma children_ok t flag depth c :
  task_ok t → (strict → flag = false → holds (re_User (task_req t))) → c ∈ (expand (task_req t) flag depth).1 →
  task_ok c ∧ (strict → intersectionOrExclusionInPreviousEdges c = false → holds (re_User (task_req c))).
Proof.
  intros Hok Hh Hc. pose proof Hok as [Hst Hty Hr Hctx Href _]. apply expand_tasks in Hc as (es&e&o&r&Hes&He&Hl&->); [|done].
  pose proof (edges_sound _ _ _ Hes He) as Hs. destruct (edge_leads_ok _ _ _ _ Href Hs Hl) as [Ho [rel Hrel]]. split.
  - split; simpl; try done.
    + by apply (found_ref_ok m typesys user (ss_model _ _ _ _ _ _ Hset) (ss_names _ _ _ _ _ _ Hset) _ _ rel).
    + exists o, r, rel. by destruct Hl.
  - simpl. intros Hst' [-> Hfe]%orb_false_iff.
    eapply (edge_leads_granted m typesys conds stored reqCtx user (ss_model _ _ _ _ _ _ Hset) (re_User (task_req t)) e); try done. by apply Hh.
Qed.

Lemma match_target ref :
  ref_ok (UserRefObjectRelation ref) →
  UsersetMatchTypeAndRelation (ref_String (UserRefObjectRelation ref)) targetRelation targetType = true ↔
  or_Relation ref = targetRelation ∧ GetType (or_Object ref) = targetType.
Proof.
  intros (_&_&Hs). unfold UsersetMatchTypeAndRelation, ToUserParts. rewrite Hs. unfold GetType.
  destruct (SplitObject (or_Object ref)). simpl. rewrite andb_true_iff, !bool_decide_eq_true. naive_solver.
Qed.

(** Sending a candidate that the user has, unless it is marked. *)
Lemma trySend_sound flag o s :
  object_ok o → GetType o = targetType → (strict → flag = false → ∃ n, granted n o targetRelation) →
  sound_inv s → sound_inv (trySendCandidate flag o s).
Proof.
  intros Ho Hty Hg [Ht Hs Hn Hc]. unfold trySendCandidate. case_bool_decide as Hin; [done|]. split; simpl; [done| | |].
  - apply Forall_app. split; [done|]. apply Forall_singleton. simpl. split_and!; [done..|]. destruct flag; [done|auto].
  - rewrite fmap_app. apply NoDup_app. split_and!; [done| |apply NoDup_singleton].
    intros x Hx ->%list_elem_of_singleton. by apply Hin, Hc.
  - intros x. rewrite fmap_app, elem_of_app, <-Hc. simpl. set_solver.
Qed.

Lemma arrive_at_sound t s :
  task_ok t → (strict → intersectionOrExclusionInPreviousEdges t = false → holds (re_User (task_req t))) →
  sound_inv s → sound_inv (arrive_at t s).
Proof.
  intros [Hst Hty Hr Hctx Href _] Hh Hinv. unfold arrive_at. rewrite Hr, Hty.
  destruct (re_User (task_req t)) as [| |ref] eqn:Hu; [done..|].
  set (s0 := match re_edge (task_req t) with Some _ => _ | None => s end).
  assert (sound_inv s0) as Hs0 by (unfold s0; destruct (re_edge (task_req t)); [destruct Hinv; by split|done]).
  destruct (UsersetMatchTypeAndRelation _ _ _) eqn:Hmt; [|done]. apply match_target in Hmt as [Hrel Hty']; [|done].
  apply trySend_sound; try done; [by destruct Href as (_&?&_)|]. intros Hx1 Hx2. destruct (Hh Hx1 Hx2) as [n Hg]. exists n. by rewrite <-Hrel.
Qed.

Lemma sound_inv_step s s' : step s s' → sound_inv s → sound_inv s'.
Proof.
  intros Hstep Hinv.
  assert (∀ l1 t l2, pending s = l1 ++ t :: l2 → sound_inv (with_pending (l1 ++ l2) s) ∧ task_ok t ∧
    (strict → intersectionOrExclusionInPreviousEdges t = false → holds (re_User (task_req t)))) as Hpend.
  { intros l1 t l2 Hp. destruct Hinv as [Ht Hs Hn Hc]. rewrite Hp, Forall_app, Forall_cons in Ht. destruct Ht as (?&[? ?]&?).
    split; [|done]. split; try done. simpl. by apply Forall_app. }
  destruct Hstep as [l1 t l2 s Hp|l1 t l2 s Hp _]; destruct (Hpend _ _ _ Hp) as (Hs0&Hok&Hh); [|done].
  rewrite execute_eq. destruct (next_depth _ _) as [depth|]; [|by destruct Hs0].
  destruct (seen _ _); [done|]. pose proof (λ c, children_ok t _ depth c Hok Hh) as Hch.
  destruct (expand (task_req t) _ depth) as [tasks errors] eqn:He. simpl in Hch.
  pose proof (arrive_at_sound t _ Hok Hh Hs0) as [Ht Hs Hn Hc]. split; simpl; try done.
  apply Forall_app. split; [|done]. by apply Forall_forall.
Qed.

Lemma sound_inv_reachable s : rtc step (start list_request) s → sound_inv s.
Proof.
  intros Hr. pose proof sound_inv_start as Hs0. revert Hs0. induction Hr as [|s1 s2 s3 Hs _ IH]; [done|].
  intros Hs1. by eapply IH, sound_inv_step.
Qed.

(** C15: in every state that any interleaving of the search for a valid user reaches, no
    object has been sent twice, every object sent is an object of the requested type, and
    one that is sent without a demand for further evaluation is an object the user has the
    requested relation with, in the meaning of [CheckSemantics.v] over the stored tuples,
    provided that the stored conditions that are met have all their parameters (where one
    has not, Check reports an error: [tuple_condition_vs_Check]).  The model is validated
    with plain names, the stored tuples are as writes leave them. *)
Theorem ReverseExpand_sound (s : Search) :
  rtc step (start list_request) s →
  NoDup (res_Object <$> sent s) ∧
  ∀ res, res ∈ sent s →
    object_ok (res_Object res) ∧ GetType (res_Object res) = targetType ∧
    (strict → res_ResultStatus res = NoFurtherEvalStatus → ∃ n, granted n (res_Object res) targetRelation).
Proof.
  intros Hr. destruct (sound_inv_reachable s Hr) as [_ Hs Hn _]. split; [done|]. by apply Forall_forall.
Qed.

(** *** Completeness *)

Context `{!ProtoTextLaws}.

(** Where the search has been: the user of the request, or a userset. *)
Definition place_ref (d : option (string * string)) : IsUserRef :=
  match d with None => sourceUserRef user | Some (o, r) => UserRefObjectRelation (mkObjectRelation o r) end.

Definition task_place (t : Task) : option (string * string) :=
  match re_edge (task_req t), re_User (task_req t) with
  | Some _, UserRefObjectRelation ref => Some (or_Object ref, or_Relation ref)
  | _, _ => None
  end.

Lemma task_place_ref t : task_ok t → place_ref (task_place t) = re_User (task_req t).
Proof.
  intros [_ _ _ _ _ He]. unfold task_place. destruct (re_edge (task_req t)) as [e|]; [|by rewrite He].
  destruct He as (o&r&rel&->&_). done.
Qed.

(** [D] are the places where the search has been: what they lead to is in [D] or pending,
    their objects of the target type are candidates, and the visited keys are theirs. *)
Record explored (s : Search) (D : list (option (string * string))) : Prop := {
  ex_start : None ∈ D ∨ ∃ t, t ∈ pending s ∧ task_place t = None;
  ex_edges d : d ∈ D → ∃ es, edges_from (place_ref d) = Ret es ∧
    ∀ e o r, e ∈ es → edge_leads (place_ref d) e o r →
      Some (o, r) ∈ D ∨ ∃ t, t ∈ pending s ∧ task_place t = Some (o, r);
  ex_candidates d ref : d ∈ D → place_ref d = UserRefObjectRelation ref →
    or_Relation ref = targetRelation → GetType (or_Object ref) = targetType → or_Object ref ∈ candidateObjectsMap s;
  ex_visited k : k ∈ visitedUsersetsMap s → ∃ o r rel e, k = visited_key o e ∧ object_ok o ∧
    TargetReference e = DirectRelationReference (GetType o) r ∧ GetRelation typesys (GetType o) r = Ret rel ∧ Some (o, r) ∈ D;
}.

(** The key of a userset and edge determines the userset. *)
Lemma visited_key_inj o r rel e o' r' rel' e' :
  object_ok o → TargetReference e = DirectRelationReference (GetType o) r → GetRelation typesys (GetType o) r = Ret rel →
  object_ok o' → TargetReference e' = DirectRelationReference (GetType o') r' → GetRelation typesys (GetType o') r' = Ret rel' →
  visited_key o e = visited_key o' e' → o = o' ∧ r = r'.
Proof.
  intros [_ Ho] He Hr [_ Ho'] He' Hr' Heq. unfold visited_key in Heq. apply str_split_unique in Heq as [-> Heq]; [|done..].
  split; [done|]. pose proof (ss_names _ _ _ _ _ _ Hset) as Hn.
  pose proof (proj1 (GetRelation_Ret _ _ _ _) Hr) as [Hty _]. destruct (Hn _ Hty) as (_&Hsp&Hrs).
  destruct (Hrs _ _ Hr) as [_ ?]. destruct (Hrs _ _ Hr') as [_ ?].
  by destruct (edge_String_target e e' (GetType o') r (GetType o') r').
Qed.

(** Dropping a pending call whose place is in [D], or adding calls, keeps the rest. *)
Lemma explored_pending s s' D D' :
  explored s D → D ⊆ D' → visitedUsersetsMap s' = visitedUsersetsMap s → candidateObjectsMap s ⊆ candidateObjectsMap s' →
  (∀ t, t ∈ pending s → t ∈ pending s' ∨ task_place t ∈ D') →
  (∀ d, d ∈ D' → d ∉ D → ∃ es, edges_from (place_ref d) = Ret es ∧
    (∀ e o r, e ∈ es → edge_leads (place_ref d) e o r → ∃ t, t ∈ pending s' ∧ task_place t = Some (o, r)) ∧
    ∀ ref, place_ref d = UserRefObjectRelation ref → or_Relation ref = targetRelation →
      GetType (or_Object ref) = targetType → or_Object ref ∈ candidateObjectsMap s') →
  explored s' D'.
Proof.
  intros [Hst He Hc Hv] HD Hvis Hcand Hp Hnew. split.
  - destruct Hst as [?|(t&Ht&Hpl)]; [left; by apply HD|]. destruct (Hp t Ht) as [?|?]; [right; by exists t|left; by rewrite <-Hpl].
  - intros d Hd. destruct (decide (d ∈ D)) as [HdD|HdD].
    + destruct (He d HdD) as (es&Hes&Hl). exists es. split; [done|]. intros e o r Hin Hlead.
      destruct (Hl e o r Hin Hlead) as [?|(t&Ht&Hpl)]; [left; by apply HD|].
      destruct (Hp t Ht) as [?|?]; [right; by exists t|left; by rewrite <-Hpl].
    + destruct (Hnew d Hd HdD) as (es&Hes&Hl&_). exists es. split; [done|]. intros e o r Hin Hlead. right. by eapply Hl.
  - intros d ref Hd Href Hr Hty. destruct (decide (d ∈ D)) as [HdD|HdD]; [by eapply Hcand, Hc|].
    destruct (Hnew d Hd HdD) as (_&_&_&Hcd). by apply Hcd.
  - rewrite Hvis. intros k Hk. destruct (Hv k Hk) as (o&r&rel&e&?&?&?&?&?). exists o, r, rel, e. split_and!; [done..|]. by apply HD.
Qed.

Lemma explored_execute t l1 l2 s D :
  task_ok t → pending s = l1 ++ t :: l2 → errs (execute t (with_pending (l1 ++ l2) s)) = [] → explored s D →
  ∃ D', explored (execute t (with_pending (l1 ++ l2) s)) D'.
Proof.
  intros Hok Hp Herr Hex. rewrite execute_eq in *.
  assert (∀ x, x ∈ pending s → x = t ∨ x ∈ l1 ++ l2) as Hpend by (rewrite Hp; set_solver).
  destruct (next_depth _ _) as [depth|]; [|by apply app_eq_nil in Herr as [_ ?]].
  destruct (seen t _) eqn:Hseen.
  - exists D. apply (explored_pending s _ D D Hex); try done. intros x Hx. destruct (Hpend x Hx) as [->|?]; [right|by left].
    unfold seen in Hseen. destruct Hok as [_ _ _ _ Href He]. unfold task_place.
    destruct (re_User (task_req t)) as [| |ref] eqn:Hu; [done..|]. destruct (re_edge (task_req t)) as [e|]; [|done].
    destruct He as (o&r&rel&[= ->]&He&Hr). apply bool_decide_eq_true in Hseen. simpl in *.
    destruct (ex_visited _ _ Hex _ Hseen) as (o'&r'&rel'&e'&Hkey&Ho'&He'&Hr'&HD).
    destruct Href as (_&Ho&_). simpl in Ho. by destruct (visited_key_inj o r rel e o' r' rel' e') as [-> ->].
  - destruct (expand (task_req t) _ depth) as [tasks errors] eqn:Hexp. simpl in Herr.
    apply app_eq_nil in Herr as [Herr ->]. exists (task_place t :: D).
    assert (∃ es, edges_from (re_User (task_req t)) = Ret es) as [es Hes].
    { destruct Hok as [_ Hty Hr _ _ _]. unfold ReverseExpand.expand in Hexp. rewrite Hty, Hr in Hexp.
      destruct (edges_from (re_User (task_req t))); [by eauto|done..]. }
    set (s1 := with_pending (l1 ++ l2) s).
    assert (pending (arrive_at t s1) = l1 ++ l2) as Hp1 by apply (arrive_at_same t s1).
    assert (candidateObjectsMap s ⊆ candidateObjectsMap (arrive_at t s1) ∧
      ∀ ref, re_User (task_req t) = UserRefObjectRelation ref → or_Relation ref = targetRelation →
        GetType (or_Object ref) = targetType → or_Object ref ∈ candidateObjectsMap (arrive_at t s1)) as [Hcsub Hcand].
    { unfold arrive_at. destruct Hok as [_ Hty Hr _ Href _]. rewrite Hty, Hr. destruct (re_User (task_req t)) as [| |ref] eqn:Hu; [done..|].
      set (s0 := match re_edge (task_req t) with Some _ => _ | None => s1 end).
      assert (candidateObjectsMap s0 = candidateObjectsMap s) as Hs0 by (unfold s0; by destruct (re_edge (task_req t))).
      pose proof (match_target ref Href) as Hmt. destruct (UsersetMatchTypeAndRelation _ _ _).
      - unfold trySendCandidate. case_bool_decide; simpl; rewrite Hs0 in *; (split; [set_solver|]); intros ? [= <-]; set_solver.
      - rewrite Hs0. split; [done|]. intros ? [= <-] Hx1 Hx2. exfalso. by assert (false = true) by by apply Hmt. }
    assert (explored (mkSearch (tasks ++ l1 ++ l2) (visitedUsersetsMap s) (candidateObjectsMap (arrive_at t s1)) [] []) (task_place t :: D)) as Hex'.
    { apply (explored_pending s _ D _ Hex); try done; simpl.
      - set_solver.
      - intros x Hx. destruct (Hpend x Hx) as [->|?]; [right; by left|left; set_solver].
      - intros d [->|?]%elem_of_cons HdD; [|done]. rewrite (task_place_ref t Hok). exists es. split; [done|]. split; [|done].
        intros e o r He Hl. eexists (child (task_req t) e _ depth o r). split; [|done].
        apply elem_of_app. left. replace tasks with (expand (task_req t) (intersectionOrExclusionInPreviousEdges t) depth).1 by by rewrite Hexp.
        apply expand_tasks; [done|]. by exists es, e, o, r. }
    destruct Hex' as [Hx1 Hx2 Hx3 Hx4]. split; simpl in *; rewrite ?Hp1; try done.
    intros k Hk. assert (k ∈ visitedUsersetsMap s ∨ ∃ ref e, re_User (task_req t) = UserRefObjectRelation ref ∧ re_edge (task_req t) = Some e ∧
      k = visited_key (or_Object ref) e) as [Hold|(ref&e&Hu&He&->)].
    { revert Hk. unfold arrive_at, trySendCandidate. destruct (re_User (task_req t)) as [| |ref]; [by left..|].
      destruct (re_edge (task_req t)) as [e|]; case_match; try case_bool_decide; simpl; try (by left);
        (intros [->%elem_of_singleton|?]%elem_of_union; [right; by exists ref, e|by left]). }
    + by apply Hx4.
    + destruct Hok as [_ _ _ _ Href He']. rewrite He in He'. destruct He' as (o&r&rel&Hu'&Ht&Hr). rewrite Hu in Hu', Href. simplify_eq.
      exists o, r, rel, e. destruct Href as (_&Ho&_). split_and!; [done..|]. unfold task_place. rewrite He, Hu. by left.
Qed.

(** A search that ends without error has been everywhere. *)
Lemma explored_reachable s :
  rtc step (start list_request) s → errs s = [] → ∃ D, explored s D.
Proof.
  intros Hr. apply rtc_nsteps in Hr as [n Hr]. revert s Hr. induction n as [|n IH]; intros s Hr Herr.
  - inversion Hr; subst. exists []. split; simpl; [right; eexists; split; [by left|done]|set_solver..].
  - apply nsteps_inv_r in Hr as (s1&Hr&Hs). assert (rtc step (start list_request) s1) as Hr1 by by eapply rtc_nsteps_2.
    pose proof (sound_inv_reachable _ Hr1) as [Ht _ _ _].
    destruct Hs as [l1 t l2 s1 Hp|l1 t l2 s1 Hp Hne]; [|done].
    assert (task_ok t) as Hok by (rewrite Hp, Forall_app, Forall_cons in Ht; tauto).
    destruct (IH s1 Hr) as [D HD].
    { rewrite execute_eq in Herr. destruct (next_depth _ _); [|by apply app_eq_nil in Herr as [_ ?]]. destruct (seen _ _); [done|].
      destruct (expand _ _ _). simpl in Herr. apply app_eq_nil in Herr as [Herr _].
      by rewrite (proj2 (arrive_at_same t _)) in Herr. }
    by eapply explored_execute.
Qed.

Lemma explored_complete s D n : ∀ o r rel,
  explored s D → pending s = [] →
  granted n o r → object_ok o → pruned_reach typesys targetType targetRelation (GetType o) r →
  GetRelation typesys (GetType o) r = Ret rel →
  ∃ d, d ∈ D ∧ place_ref d = UserRefObjectRelation (mkObjectRelation o r).
Proof.
  destruct (ss_target _ _ _ _ _ _ Hset) as [relT HT].
  induction n as [|n IH]; intros o r rel Hex Hp Hg Ho Hreach Hrel; [done|].
  assert (None ∈ D) as Hnone.
  { destruct (ex_start _ _ Hex) as [?|(t&Ht&_)]; [done|]. rewrite Hp in Ht. by apply not_elem_of_nil in Ht. }
  destruct Hg as [Hself|(rel'&Hrel'&Hg)].
  - exists None. split; [done|]. simpl. unfold self_defining, IsSelfDefining in Hself. simpl in Hself.
    destruct (sourceUserRef_cases user (ss_user _ _ _ _ _ _ Hset) (ss_typed _ _ _ _ _ _ Hset)) as
      [(o'&r'&Hs&_&Hsp&_)|[(ty&_&_&_&_&_&Hr)|(ty&id&_&_&_&_&_&Hr)]].
    + rewrite Hsp in Hself. bool_norm. by subst.
    + unfold Tuple.GetRelation in Hr. destruct (SplitObjectRelation user); simpl in *. bool_norm. subst.
      by apply (GetRelation_nonempty m typesys (ss_model _ _ _ _ _ _ Hset)) in Hrel.
    + unfold Tuple.GetRelation in Hr. destruct (SplitObjectRelation user); simpl in *. bool_norm. subst.
      by apply (GetRelation_nonempty m typesys (ss_model _ _ _ _ _ _ Hset)) in Hrel.
  - rewrite Hrel in Hrel'. simplify_eq.
    destruct (granted_leaf typesys conds stored reqCtx user _ _ o r _ false Hg) as (b&leaf&Hin&Hgl).
    destruct (granted_leaf_edge m typesys conds stored reqCtx user targetType targetRelation) with
      (n := n) (o := o) (r := r) (rel := rel') (b := b) (leaf := leaf) (relT := relT) as (u&Hbefore&Hedge); try apply Hset; try done.
    assert (∃ d, d ∈ D ∧ place_ref d = u) as (d&Hd&Hu).
    { destruct Hbefore as [->|(o'&r'&rel2&->&Hg'&Ho'&Hreach'&Hrel2)]; [by exists None|]. by eapply IH. }
    destruct (ex_edges _ _ Hex d Hd) as (es&Hes&Hl). rewrite Hu in Hes, Hl. destruct (Hedge es Hes) as (e&He&Hlead).
    destruct (Hl e o r He Hlead) as [?|(t&Ht&_)]; [by exists (Some (o, r))|]. rewrite Hp in Ht. by apply not_elem_of_nil in Ht.
Qed.

(** The objects sent, in one list, at the end of a search without error. *)
Lemma finished_sent s o :
  rtc step (start list_request) s → pending s = [] → errs s = [] →
  object_ok o → GetType o = targetType → (∃ n, granted n o targetRelation) → o ∈ (res_Object <$> sent s).
Proof.
  intros Hr Hp He Ho Hty [n Hg]. destruct (explored_reachable s Hr He) as [D HD].
  destruct (ss_target _ _ _ _ _ _ Hset) as [relT HT].
  destruct (explored_complete s D n o targetRelation relT) as (d&Hd&Hpl); try done; try (rewrite Hty; first [done|constructor]).
  apply (si_candidates _ (sound_inv_reachable s Hr)). by apply (ex_candidates _ _ HD d _ Hd Hpl).
Qed.

(** C14: a search that ends without error has sent every object of the requested type that
    the user has the requested relation with, through whatever usersets, tuplesets,
    unions, intersections and exclusions the grant goes, and whatever the interleaving
    of its calls: the pruned edges and the usersets skipped as visited lose nothing. *)
Theorem ReverseExpand_complete (s : Search) :
  rtc step (start list_request) s → pending s = [] → errs s = [] →
  ∀ o, object_ok o → GetType o = targetType → (∃ n, granted n o targetRelation) → o ∈ (res_Object <$> sent s).
Proof. intros Hr Hp He o. by apply finished_sent. Qed.
End invariants.

(** ** Conditions in ListObjects and in Check *)

(** The search and the checker treat the condition of a tuple alike, except that a
    condition which is met although parameters are missing ([true || x]) lets the search
    follow the tuple and is an error for the checker: with no missing parameter both take
    the result, and with missing parameters and an unmet condition both report the same
    error. *)
Theorem tuple_condition_vs_Check `{!Cel} (tk : TupleKey) (conds : gmap string EvaluableCondition) (context : option Struct)
    (res : EvaluationResult) :
  (EvaluateTupleCondition tk conds context).1 = Ret res →
  let missing := MissingParametersError (GetName (Condition tk)) (MissingParameters res) in
  (MissingParameters res = ∅ →
     tuple_condition conds context tk = Ret (ConditionMet res) ∧
     (BuildTupleKeyConditionFilter context conds tk).1 = Ret (ConditionMet res)) ∧
  (MissingParameters res ≠ ∅ →
     tuple_condition conds context tk = (if ConditionMet res then Ret true else Throw missing) ∧
     (BuildTupleKeyConditionFilter context conds tk).1 = Throw missing).
Proof.
  unfold tuple_condition, BuildTupleKeyConditionFilter.
  destruct (EvaluateTupleCondition tk conds context) as [r conds']. simpl. intros ->. simpl.
  split; intros Hm; [rewrite bool_decide_true by done|rewrite bool_decide_false by done]; by destruct (ConditionMet res).
Qed.

(** A condition on x that declares y: x is given, y is not. *)
Definition lenient_conds : gmap string (@EvaluableCondition demo_Cel) :=
  {["c" := @mkEvaluable demo_Cel (mkModelCondition "c" "x" (<["x" := "string"]> {["y" := "string"]})) true (Some tt)]}.

Lemma tuple_condition_vs_Check_witness :
  @tuple_condition demo_Cel lenient_conds None conditioned_key = Ret true ∧
  (@BuildTupleKeyConditionFilter demo_Cel None lenient_conds conditioned_key).1 = Throw (MissingParametersError "c" {["y"]}).
Proof.
  pose proof (@tuple_condition_vs_Check demo_Cel conditioned_key lenient_conds None (mkEvaluationResult true {["y"]})) as Ht.
  apply (proj2 (Ht ltac:(by vm_compute))). simpl. set_solver.
Defined.
