(* ===== verification/ReverseExpandMemory.v ===== *)
(** * Reverse expansion over the in-memory datastore

    The datastore of [Memory.v], with or without contextual tuples, meets the interface of
    the search, and the theorems of [ReverseExpandSpec.v] on two groups that contain each
    other. *)

From stdpp Require Import relations.
From S2P Require Import Prelude GoStd Tuple Iterators Model Memory MemorySpec Typesystem Entrypoints TypesystemSpec.
From S2P Require Import Condition Validation ValidationSpec Check CheckSpec CheckSemantics CheckExact CheckMemory CombinedReader.
From S2P Require Import RelationshipGraph ReverseExpand ReverseExpandSpec.

Local Open Scope Z_scope.
Local Open Scope go_scope.

(** ** The interface *)

Definition memory_StartingReader (s : MemoryBackend) : StartingReader := {|
  sr_iter := staticIterator;
  sr_Iterator := si_Iterator;
  rd_ReadStartingWithUser := @ReadStartingWithUser stable_SortSlice s;
|}.

Section memory.
Context (s : MemoryBackend) (Hinv : backend_inv s) (store : string).

Lemma memory_ReadStartingWithUser `{!SortSlice} ty r users :
  ∃ it, ReadStartingWithUser s store (mkReadStartingWithUserFilter ty r users None) = Ret it ∧
    ∀ t, t ∈ items it ↔ t ∈ AsTuple <$> store_tuples s store ∧ GetType (Object (Key t)) = ty ∧ Relation (Key t) = r ∧
      User (Key t) ∈ (target_user <$> users).
Proof.
  destruct (ReadStartingWithUser_elements s store (mkReadStartingWithUserFilter ty r users None)) as (recs&Hget&_&Hin).
  simpl in Hin. eexists. split; [exact Hget|]. intros t. simpl. rewrite (list_elem_of_fmap AsTuple (store_tuples _ _)), (list_elem_of_fmap AsTuple recs).
  assert (∀ x, x ∈ store_tuples s store → GetType (Object (Key (AsTuple x))) = tr_ObjectType x ∧
    Relation (Key (AsTuple x)) = tr_Relation x ∧ User (Key (AsTuple x)) = tr_User x) as Hrec.
  { intros x Hx. pose proof (store_wf s Hinv _ _ Hx) as Hwf. split_and!; [|done|by apply AsTuple_User].
    destruct Hwf as (Ht&_). by apply GetType_build. }
  split.
  - intros (x&->&(Hx&Hty&Hr&_&Hu)%Hin). destruct (Hrec x Hx) as (->&->&->).
    split; [by exists x|done].
  - intros ((x&->&Hx)&Hrest). destruct (Hrec x Hx) as (Hx1&Hx2&Hx3). rewrite Hx1, Hx2, Hx3 in Hrest.
    exists x. split; [done|]. apply Hin. naive_solver.
Qed.

Definition memory_StartingReaderSpec :
  @StartingReaderSpec (memory_StartingReader s) store (AsTuple <$> store_tuples s store).
Proof.
  refine (@Build_StartingReaderSpec (memory_StartingReader s) store _ si_IteratorSpec _).
  intros ty r users _ _. apply memory_ReadStartingWithUser.
Defined.
End memory.

(** The reads of the search over a datastore and contextual tuples: unsorted ones. *)
Definition combined_StartingReader `{!RelationshipTupleReader} (c : CombinedTupleReader)
    (ds : string → ReadStartingWithUserFilter → outcome StorageErr reader_iter) : StartingReader := {|
  sr_iter := combinedIterator (StaticIterator Tuple + reader_iter);
  rd_ReadStartingWithUser store filter :=
    let! it := combined_ReadStartingWithUser c ds store filter false in
    match it with StartingCombined it => Ret it | StartingOrdered _ => Panic "sorted" end;
|}.

Section combined.
Context `{!RelationshipTupleReader} (store : string) `{!RelationshipTupleReaderSpec store} (c : CombinedTupleReader).
Context (ds : string → ReadStartingWithUserFilter → outcome StorageErr reader_iter).
Hypothesis Hds : ∀ ty r users, r ≠ "" → users ≠ [] →
  ∃ it, ds store (mkReadStartingWithUserFilter ty r users None) = Ret it ∧
    ∀ t, t ∈ items it ↔ t ∈ stored store ∧ GetType (Object (Key t)) = ty ∧ Relation (Key t) = r ∧
      User (Key t) ∈ (target_user <$> users).

Lemma target_user_strings (users : list ObjectRelation) :
  ((λ u, if negb (or_Relation u =s "") then ToObjectRelationString (or_Object u) (or_Relation u) else or_Object u) <$> users) =
  (target_user <$> users).
Proof.
  apply list_fmap_ext. intros i u _. unfold target_user, GetObjectRelationAsString.
  by case_bool_decide.
Qed.

Definition combined_StartingReaderSpec :
  @StartingReaderSpec (combined_StartingReader c ds) store (contextual_tuples c ++ stored store).
Proof.
  refine (@Build_StartingReaderSpec (combined_StartingReader c ds) store _ _ _).
  intros ty r users Hr Hus. destruct (Hds ty r users Hr Hus) as (it&Hget&Hit). simpl.
  unfold combined_ReadStartingWithUser. rewrite Hget. cbn [rsf_UserFilter rsf_ObjectType rsf_Relation].
  rewrite target_user_strings. eexists. split; [done|]. intros t.
  change (items (NewCombinedIterator ?l)) with (combined_items (NewCombinedIterator l)).
  unfold combined_items. simpl. rewrite app_nil_r, !elem_of_app, Hit, list_elem_of_In, List.filter_In, <-list_elem_of_In.
  rewrite elem_of_filterTuples, bool_decide_eq_true. unfold contextual_tuples.
  assert (target_user <$> users ≠ []) by by destruct users. naive_solver.
Defined.
End combined.

(** ** A text form *)

(** [type:T relation:R]. *)
Definition demo_ProtoText : ProtoText := {|
  rr_String rr := "type:" +:+ rr_Type rr +:+ " relation:" +:+ rr_GetRelation rr;
|}.

Lemma ReplaceDoubleSpaces_word w s : has_byte " " w = false → ReplaceDoubleSpaces (w +:+ s) = w +:+ ReplaceDoubleSpaces s.
Proof.
  induction w as [|a w IH]; [done|]. cbn [has_byte]. intros [Ha Hw]%orb_false_iff. rewrite !str_app_cons. cbn [ReplaceDoubleSpaces].
  rewrite <-IH by done. apply bool_decide_eq_false in Ha.
  destruct a as [[] [] [] [] [] [] [] []]; try done.
Qed.

Lemma ReplaceDoubleSpaces_space c s :
  c ≠ " "%char → ReplaceDoubleSpaces (String " " (String c s)) = String " " (String c (ReplaceDoubleSpaces s)).
Proof. intros Hc. by destruct c as [[] [] [] [] [] [] [] []]. Qed.

Lemma demo_edge_String e ty r :
  TargetReference e = DirectRelationReference ty r → has_byte " " ty = false → has_byte " " r = false →
  ∃ rest, @edge_String demo_ProtoText e = "userset type:" +:+ (ty +:+ String " " ("relation:" +:+ (r +:+ "," +:+ String " " rest))).
Proof.
  intros He Hty Hr. unfold edge_String. simpl. rewrite He, DirectRelationReference_relation. simpl.
  assert (∀ rest, ReplaceDoubleSpaces ("userset type:" +:+ (ty +:+ (" relation:" +:+ (r +:+ (", type" +:+ rest))))) =
    "userset type:" +:+ (ty +:+ String " " ("relation:" +:+ (r +:+ "," +:+ String " " ("type" +:+ ReplaceDoubleSpaces rest))))) as Hword.
  { intros rest.
    change (ReplaceDoubleSpaces ("userset" +:+ String " " (String "t" ("ype:" +:+ (ty +:+ String " " (String "r" ("elation:" +:+
      (r +:+ "," +:+ String " " (String "t" ("ype" +:+ rest)))))))))  =
      "userset" +:+ String " " (String "t" ("ype:" +:+ (ty +:+ String " " (String "r" ("elation:" +:+
      (r +:+ "," +:+ String " " (String "t" ("ype" +:+ ReplaceDoubleSpaces rest))))))))).
    repeat ((rewrite ReplaceDoubleSpaces_word by done) || (rewrite ReplaceDoubleSpaces_space by done)).
    done. }
  destruct (negb _); eexists.
  - etrans; [|apply (Hword (" " +:+ edge_type_String (edge_Type e) +:+ ", tupleset " +:+ TuplesetRelation e))].
    f_equal. by autorewrite with str.
  - etrans; [|apply (Hword (" " +:+ edge_type_String (edge_Type e)))]. f_equal. by autorewrite with str.
Qed.

Definition demo_ProtoTextLaws : @ProtoTextLaws demo_ProtoText.
Proof.
  constructor. intros e e' ty r ty' r' He He' Hty Hr Hty' Hr' Heq.
  destruct (demo_edge_String e ty r He Hty Hr) as [rest Hs], (demo_edge_String e' ty' r' He' Hty' Hr') as [rest' Hs'].
  rewrite Hs, Hs' in Heq. apply str_app_inj_l in Heq. apply str_split_unique in Heq as [-> Heq]; [|done..].
  apply str_app_inj_l in Heq. rewrite <-!str_app_assoc in Heq.
  apply str_split_unique in Heq as [Heq _]; [|by rewrite has_byte_app, ?Hr, ?Hr'..].
  by apply str_app_inj_r in Heq.
Qed.

(** ** A search *)

Definition names_plain_b `{!ModelGraph} (t : TypeSystem) : bool :=
  forallb (λ p : string * TypeDefinition, negb (has_byte "#" p.1) && negb (has_byte " " p.1)) (map_to_list (typeDefinitions t)) &&
  forallb (λ p : string * gmap string RelationDef,
    forallb (λ q : string * RelationDef, negb (has_byte "#" q.1) && negb (has_byte " " q.1)) (map_to_list p.2))
    (map_to_list (relations t)).

Lemma names_plain_decide `{!ModelGraph} t : names_plain_b t = true → names_plain t.
Proof.
  intros [Ht Hr]%andb_true_iff ty [td Hty].
  assert (∀ b b', negb b && negb b' = true → b = false ∧ b' = false) as Hnb by by intros [] [].
  pose proof (Hnb _ _ (forallb_elem _ _ (ty, td) Ht (proj2 (elem_of_map_to_list _ _ _) Hty))) as [Hx1 Hx2].
  split_and!; [done..|]. intros r rel [_ Hl]%GetRelation_Ret.
  destruct (relations t !! ty) as [rels|] eqn:E; simpl in Hl; [|by rewrite lookup_empty in Hl].
  pose proof (forallb_elem _ _ (ty, rels) Hr (proj2 (elem_of_map_to_list _ _ _) E)) as Hrels. simpl in Hrels.
  apply (Hnb _ _ (forallb_elem _ _ (r, rel) Hrels (proj2 (elem_of_map_to_list _ _ _) Hl))).
Qed.

Definition object_ok_b (o : string) : bool :=
  has_byte ":" o && negb ((SplitObject o).2 =s "") && negb (has_byte "#" o).

Lemma object_ok_decide o : object_ok_b o = true → object_ok o.
Proof.
  unfold object_ok_b. rewrite !andb_true_iff, !negb_true_iff. intros [[Hc Hid] Hh]. split; [|done].
  destruct (SplitObject_cases o) as [[Hn _]|(t&id&->&Ht&Hs)]; [by rewrite Hn in Hc|]. rewrite Hs in Hid.
  exists t, id. by bool_norm.
Qed.

(** What a search over [writes] needs, decided. *)
Definition demo_search_ok (t : @TypeSystem demo_Graph) (writes : list TupleKey) (user ty r : string) : bool :=
  demo_setting_ok t writes user && names_plain_b t
  && forallb (λ x, object_ok_b (Object (Key x))) (AsTuple <$> store_tuples (backend_with writes) "store")
  && is_ret (GetRelation t ty r).

Lemma demo_search_setting m t writes user ty r :
  validate m = Ret t → demo_search_ok t writes user ty r = true →
  @search_setting demo_Graph demo_Cel map_to_list_MapRange demo_Compiler m t
    (AsTuple <$> store_tuples (backend_with writes) "store") user ty r.
Proof.
  intros Hm Hok. unfold demo_search_ok, demo_setting_ok in Hok. rewrite !andb_true_iff in Hok.
  destruct Hok as [[[[[[[Hrefs Hw] Husers] Huser] Hty] Hn] Hobj] Hrel]. split.
  - exact Hm.
  - by apply refs_named_decide.
  - by apply names_plain_decide.
  - intros x Hx. by eapply (forallb_elem (λ x, IsValidUser (User (Key x)))).
  - intros x Hx. by eapply object_ok_decide, (forallb_elem (λ x, object_ok_b (Object (Key x)))).
  - exact Huser.
  - by bool_norm.
  - destruct (GetRelation t ty r) as [rel| |] eqn:E; [by exists rel|done..].
Qed.

Section demo.
Context (t : @TypeSystem demo_Graph) (writes : list TupleKey) (user ty r : string).

Definition demo_list_request : ReverseExpandRequest := list_request "store" None user ty r.

Definition demo_step := @step demo_Graph demo_Cel demo_ProtoText (memory_StartingReader (backend_with writes)) t ∅ 25.
Definition demo_run (fuel : nat) : Search :=
  @run demo_Graph demo_Cel demo_ProtoText (memory_StartingReader (backend_with writes)) t ∅ 25 fuel (start demo_list_request).

Lemma demo_run_steps n : rtc demo_step (start demo_list_request) (demo_run n).
Proof. apply run_steps. Qed.
End demo.

(** Without conditions on the tuples, conditions that are met have their parameters. *)
Lemma unconditioned_strict (stored : list Tuple) :
  forallb (λ x, bool_decide (Condition (Key x) = None)) stored = true → @conditions_strict demo_Cel ∅ stored None.
Proof.
  intros Hc x res Hx. apply (forallb_elem _ _ x Hc), bool_decide_eq_true in Hx. unfold EvaluateTupleCondition.
  rewrite Hx. simpl. by intros [= <-].
Qed.

Definition search_facts (t : @TypeSystem demo_Graph) (user : string) : Prop :=
  demo_search_ok t group_tuples user "doc" "viewer" = true ∧
  forallb (λ x, bool_decide (Condition (Key x) = None)) (AsTuple <$> store_tuples (backend_with group_tuples) "store") = true ∧
  pending (demo_run t group_tuples user "doc" "viewer" 20) = [] ∧ errs (demo_run t group_tuples user "doc" "viewer" 20) = [] ∧
  sent (demo_run t group_tuples user "doc" "viewer" 20) = [mkReverseExpandResult "doc:1" NoFurtherEvalStatus].

Lemma group_search_facts :
  match validate group_model with Ret t => search_facts t "user:x" ∧ search_facts t "user:y" | _ => False end.
Proof. vm_compute. by repeat split. Qed.

(** user:x is in group:b, which is in group:a, whose members view doc:1. *)
Lemma ReverseExpand_sound_witness :
  match validate group_model with
  | Ret t => ∃ n, @granted demo_Graph demo_Cel t ∅ (AsTuple <$> store_tuples (backend_with group_tuples) "store") None
                    "user:x" n "doc:1" "viewer"
  | _ => False
  end.
Proof.
  pose proof group_search_facts as Hf. destruct (validate group_model) as [t| |] eqn:E; [|exact Hf..].
  destruct Hf as [(Hok&Hc&_&_&Hsent) _].
  pose proof (@ReverseExpand_sound demo_Graph demo_Cel map_to_list_MapRange demo_Compiler demo_ProtoText
    (memory_StartingReader (backend_with group_tuples)) group_model t ∅ 25 "store"
    (AsTuple <$> store_tuples (backend_with group_tuples) "store")
    (memory_StartingReaderSpec _ (backend_with_inv _ group_tuples_complete) "store") None "user:x" "doc" "viewer"
    (demo_search_setting _ _ _ _ _ _ E Hok) (demo_run t group_tuples "user:x" "doc" "viewer" 20)
    (demo_run_steps t group_tuples "user:x" "doc" "viewer" 20)) as [_ Hres].
  rewrite Hsent in Hres. destruct (Hres (mkReverseExpandResult "doc:1" NoFurtherEvalStatus)) as (_&_&Hg); [by left|].
  apply Hg; [exact (unconditioned_strict _ Hc)|reflexivity].
Defined.

(** user:y views doc:1, through its folder, and no other document. *)
Lemma ReverseExpand_complete_witness :
  match validate group_model with
  | Ret t => ∀ o, object_ok o → GetType o = "doc" →
      (∃ n, @granted demo_Graph demo_Cel t ∅ (AsTuple <$> store_tuples (backend_with group_tuples) "store") None
              "user:y" n o "viewer") → o = "doc:1"
  | _ => False
  end.
Proof.
  pose proof group_search_facts as Hf. destruct (validate group_model) as [t| |] eqn:E; [|exact Hf..].
  destruct Hf as [_ (Hok&_&Hp&He&Hsent)].
  pose proof (@ReverseExpand_complete demo_Graph demo_Cel map_to_list_MapRange demo_Compiler demo_ProtoText
    (memory_StartingReader (backend_with group_tuples)) group_model t ∅ 25 "store"
    (AsTuple <$> store_tuples (backend_with group_tuples) "store")
    (memory_StartingReaderSpec _ (backend_with_inv _ group_tuples_complete) "store") None "user:y" "doc" "viewer"
    (demo_search_setting _ _ _ _ _ _ E Hok) demo_ProtoTextLaws (demo_run t group_tuples "user:y" "doc" "viewer" 20)
    (demo_run_steps t group_tuples "user:y" "doc" "viewer" 20) Hp He) as Hres.
  rewrite Hsent in Hres. intros o Ho Hty Hg. by apply list_elem_of_singleton, (Hres o Ho Hty Hg).
Defined.

Definition edge_facts (t : @TypeSystem demo_Graph) : Prop :=
  names_plain_b t = true ∧ ∃ rel, GetRelation t "doc" "viewer" = Ret rel ∧
  rel_Rewrite rel = Union [This; TupleToUserset "parent" "viewer"] ∧
  IsDirectlyRelated t (DirectRelationReference "doc" "viewer") (DirectRelationReference "group" "member") = Ret true.

Lemma group_edge_facts : match validate group_model with Ret t => edge_facts t | _ => False end.
Proof. vm_compute. split; [done|]. eexists. by repeat split. Qed.

(** The members of groups reach the viewers of documents through a direct edge. *)
Lemma GetPrunedRelationshipEdges_exact_witness :
  match validate group_model with
  | Ret t => ∀ es,
      GetPrunedRelationshipEdges t (DirectRelationReference "doc" "viewer") (DirectRelationReference "group" "member") = Ret es →
      ∃ e, e ∈ es ∧ edge_Type e = DirectEdge ∧ TargetReference e = DirectRelationReference "doc" "viewer" ∧ TuplesetRelation e = ""
  | _ => False
  end.
Proof.
  pose proof group_edge_facts as Hf. destruct (validate group_model) as [t| |]; [|exact Hf..].
  destruct Hf as (Hn&rel&Hrel&Hin&Hd). intros es Hes.
  destruct (@GetPrunedRelationshipEdges_exact demo_Graph t (DirectRelationReference "group" "member") "doc" "viewer" rel) as [_ Hex].
  - exact (types_plain_names _ (names_plain_decide _ Hn)).
  - exact Hrel.
  - destruct (Hex es Hes) as [_ Hall].
    apply (Hall "doc" "viewer" rel false Userset_This DirectEdge "").
    + constructor.
    + exact Hrel.
    + rewrite Hin. by left.
    + split_and!; [reflexivity..|]. left. exact Hd.
Defined.
