(* ===== verification/FastPathStreams.v ===== *)
(** * Streams of sorted objects: [internal/iterator/stream.go], [internal/graph/check_fast_path.go]

    The fast paths of Check combine sorted streams of objects with the set operations of a
    rewrite.  A stream reads iterators from a channel one after the other; the handlers
    [fastPathUnion], [fastPathIntersection] and [fastPathDifference] merge the streams of
    their operands and send the result in batches.  A channel has one sender and one
    receiver and is closed by its sender, so it is the list of its messages; the
    cancellation of the request is left out.  On streams without error whose objects
    ascend, the handlers end and send exactly the set operation, ascending. *)

From S2P Require Import Prelude GoStd Tuple Iterators.

Local Open Scope go_scope.

(** ** Streams *)

Section streams.
(** [storage.Iterator[string]], and how a batch becomes one. *)
Context {I : Type} `{!Iterator I string} (NewStatic : list string → I).

Inductive Msg := MsgIter (iter : I) | MsgError (err : IterErr).

(** [source] holds the messages that the channel still has, then it is closed. *)
Record Stream := mkStream {
  s_idx : nat;
  s_buffer : option I;
  s_sourceIsClosed : bool;
  s_source : list Msg;
}.

Definition NewStream (idx : nat) (source : list Msg) : Stream := mkStream idx None false source.

Definition with_buffer (s : Stream) (buffer : option I) : Stream :=
  mkStream (s_idx s) buffer (s_sourceIsClosed s) (s_source s).

(** A call of the buffer; one that is done or cancelled sets it to nil. *)
Definition buffer_call (call : I → outcome IterErr string * I) (s : Stream) : outcome IterErr string * Stream :=
  match s_buffer s with
  | None => (Throw ErrIteratorDone, s)
  | Some buffer =>
      match call buffer with
      | (Throw err, buffer') => (Throw err, with_buffer s (if IterIsDoneOrCancelled err then None else Some buffer'))
      | (r, buffer') => (r, with_buffer s (Some buffer'))
      end
  end.

Definition Stream_Head (s : Stream) : outcome IterErr string * Stream := buffer_call (Head None) s.
Definition Stream_Next (s : Stream) : outcome IterErr string * Stream := buffer_call (Next None) s.

Definition buffer_fuel (s : Stream) : nat := match s_buffer s with Some b => S (remaining b) | None => 0 end.

(** The loop of [SkipToTargetObject]; what [Next] returns is ignored. *)
Fixpoint skip_loop (fuel : nat) (target tmpKey : string) (s : Stream) : outcome IterErr unit * Stream :=
  if String.ltb tmpKey target then
    match fuel with
    | O => (Panic "out of fuel", s)
    | S fuel =>
        match Stream_Next s with
        | (Panic w, s) => (Panic w, s)
        | (_, s) =>
            match Stream_Head s with
            | (Ret t, s) => skip_loop fuel target t s
            | (Throw err, s) => (if IterIsDoneOrCancelled err then Ret tt else Throw err, s)
            | (Panic w, s) => (Panic w, s)
            end
        end
    end
  else (Ret tt, s).

Definition SkipToTargetObject (target : string) (s : Stream) : outcome IterErr unit * Stream :=
  if negb (IsValidObject target) then (Throw (ErrOther "invalid target object"), s)
  else
    match Stream_Head s with
    | (Ret t, s) => skip_loop (buffer_fuel s) target t s
    | (Throw err, s) => (if IterIsDoneOrCancelled err then Ret tt else Throw err, s)
    | (Panic w, s) => (Panic w, s)
    end.

(** [Drain]: what the buffer still yields. *)
Fixpoint Stream_Drain_loop (fuel : nat) (batch : list string) (s : Stream) : outcome IterErr (list string) * Stream :=
  match fuel with
  | O => (Panic "out of fuel", s)
  | S fuel =>
      match Stream_Next s with
      | (Ret t, s) => Stream_Drain_loop fuel (batch ++ [t]) s
      | (Throw err, s) => (if IterIsDoneOrCancelled err then Ret batch else Throw err, s)
      | (Panic w, s) => (Panic w, s)
      end
  end.

Definition Stream_Drain (s : Stream) : outcome IterErr (list string) * Stream :=
  Stream_Drain_loop (S (buffer_fuel s)) [] s.

Definition fetchSource (s : Stream) : outcome IterErr unit * Stream :=
  match s_buffer s, s_sourceIsClosed s with
  | None, false =>
      match s_source s with
      | [] => (Ret tt, mkStream (s_idx s) None true [])
      | MsgError err :: rest => (Throw err, mkStream (s_idx s) None false rest)
      | MsgIter iter :: rest => (Ret tt, mkStream (s_idx s) (Some iter) false rest)
      end
  | _, _ => (Ret tt, s)
  end.

Definition isDone (s : Stream) : bool :=
  s_sourceIsClosed s && match s_buffer s with None => true | Some _ => false end.

(** The loop of [NextItemInSliceStreams]. *)
Fixpoint next_items (item : string) (streamToProcess : list nat) (streamSlices : list Stream)
  : outcome IterErr string * list Stream :=
  match streamToProcess with
  | [] => (Ret item, streamSlices)
  | iterIdx :: rest =>
      match streamSlices !! iterIdx with
      | None => (Panic "index out of range", streamSlices)
      | Some s =>
          match Stream_Next s with
          | (Ret item, s) => next_items item rest (<[iterIdx := s]> streamSlices)
          | (Throw err, s) => (Throw err, <[iterIdx := s]> streamSlices)
          | (Panic w, s) => (Panic w, <[iterIdx := s]> streamSlices)
          end
      end
  end.

Definition NextItemInSliceStreams (streamSlices : list Stream) (streamToProcess : list nat)
  : outcome IterErr string * list Stream := next_items "" streamToProcess streamSlices.

Fixpoint fetch_all (streams : list Stream) : outcome IterErr unit * list Stream :=
  match streams with
  | [] => (Ret tt, [])
  | stream :: rest =>
      match fetchSource stream with
      | (Ret _, stream) => let '(r, rest) := fetch_all rest in (r, stream :: rest)
      | (r, stream) => (r, stream :: rest)
      end
  end.

(** [CleanDone]: the streams it leaves are the ones it returns. *)
Definition CleanDone (streams : list Stream) : outcome IterErr unit * list Stream :=
  match fetch_all streams with
  | (Ret _, streams) => (Ret tt, List.filter (λ s, negb (isDone s)) streams)
  | r => r
  end.

(** ** Set operations *)

(** What a handler has: the active streams, the batch and the messages sent to [outChan]. *)
Record SetOp := mkSetOp {
  op_streams : list Stream;
  op_batch : list string;
  op_sent : list Msg;
}.

(** How an iteration ends: [continue], [break], [return], a panic. *)
Inductive Control := Continue | Break | Return | Crash (why : string).

Definition IteratorMinBatchThreshold : nat := 100.
Definition BaseIndex : nat := 0.
Definition DifferenceIndex : nat := 1.

Definition send_error (streams : list Stream) (batch : list string) (sent : list Msg) (err : IterErr) : SetOp * Control :=
  (mkSetOp streams batch (sent ++ [MsgError err]), Return).

(** A batch over the threshold is sent. *)
Definition send_full (streams : list Stream) (batch : list string) (sent : list Msg) : SetOp :=
  if (IteratorMinBatchThreshold <? length batch)%nat
  then mkSetOp streams [] (sent ++ [MsgIter (NewStatic batch)])
  else mkSetOp streams batch sent.

Definition addNextItemInSliceStreamsToBatch (st : SetOp) (streamsToProcess : list nat) : SetOp * Control :=
  match NextItemInSliceStreams (op_streams st) streamsToProcess with
  | (Throw err, streams) => send_error streams [] (op_sent st) err
  | (Panic w, streams) => (mkSetOp streams (op_batch st) (op_sent st), Crash w)
  | (Ret item, streams) =>
      let batch := if negb (item =s "") then op_batch st ++ [item] else op_batch st in
      (send_full streams batch (op_sent st), Continue)
  end.

(** The loop over the heads: the object that comes first and the streams that have it, or
    a stream without head. *)
Inductive Heads :=
| AllHeads (object : string) (itersWithEqualObject : list nat)
| SomeDone
| HeadsError (err : IterErr)
| HeadsPanic (why : string).

Fixpoint heads (before : string → string → bool) (idx : nat) (object : string) (equal : list nat) (iterStreams : list Stream)
  : Heads * list Stream :=
  match iterStreams with
  | [] => (AllHeads object equal, [])
  | stream :: rest =>
      match Stream_Head stream with
      | (Throw err, stream) => ((if IterIsDoneOrCancelled err then SomeDone else HeadsError err), stream :: rest)
      | (Panic w, stream) => (HeadsPanic w, stream :: rest)
      | (Ret v, stream) =>
          let object := if (idx =? 0)%nat then v else object in
          let '(r, rest) :=
            if object =s v then heads before (S idx) object (equal ++ [idx]) rest
            else if before v object then heads before (S idx) v [idx] rest
            else heads before (S idx) object equal rest in
          (r, stream :: rest)
      end
  end.

(** [for cond { body }]. *)
Fixpoint run_op (cond : SetOp → bool) (body : SetOp → SetOp * Control) (fuel : nat) (st : SetOp) : SetOp * Control :=
  if cond st then
    match fuel with
    | O => (st, Crash "out of fuel")
    | S fuel =>
        match body st with
        | (st, Continue) => run_op cond body fuel st
        | r => r
        end
    end
  else (st, Break).

(** The deferred flush; a handler that panics leaves no result. *)
Definition flush (r : SetOp * Control) : outcome IterErr (list Msg) :=
  match r with
  | (_, Crash w) => Panic w
  | (st, _) => Ret (op_sent st ++ if bool_decide (op_batch st = []) then [] else [MsgIter (NewStatic (op_batch st))])
  end.

(** Enough iterations for the streams: one per item, per iterator and its end, and per
    channel. *)
Definition stream_fuel (s : Stream) : nat :=
  S (match s_buffer s with Some b => S (remaining b) | None => 0 end
     + sum_list ((λ m, match m with MsgIter it => S (S (remaining it)) | MsgError _ => 2%nat end) <$> s_source s)).
Definition op_fuel (streams : list Stream) : nat := S (sum_list (stream_fuel <$> streams)).

(** A body that starts with [CleanDone]. *)
Definition clean (st : SetOp) (k : SetOp → SetOp * Control) : SetOp * Control :=
  match CleanDone (op_streams st) with
  | (Throw err, streams) => send_error streams (op_batch st) (op_sent st) err
  | (Panic w, streams) => (mkSetOp streams (op_batch st) (op_sent st), Crash w)
  | (Ret _, streams) => k (mkSetOp streams (op_batch st) (op_sent st))
  end.

Definition union_body (st : SetOp) : SetOp * Control :=
  clean st (λ st,
    match heads (λ v minObject, String.ltb v minObject) 0 "" [] (op_streams st) with
    | (HeadsError err, streams) => send_error streams (op_batch st) (op_sent st) err
    | (HeadsPanic w, streams) => (mkSetOp streams (op_batch st) (op_sent st), Crash w)
    | (SomeDone, streams) => (mkSetOp streams (op_batch st) (op_sent st), Continue)
    | (AllHeads _ itersWithEqualObject, streams) =>
        addNextItemInSliceStreamsToBatch (mkSetOp streams (op_batch st) (op_sent st)) itersWithEqualObject
    end).

Definition fastPathUnion (streams : list Stream) : outcome IterErr (list Msg) :=
  flush (run_op (λ st, negb (bool_decide (op_streams st = []))) union_body (op_fuel streams) (mkSetOp streams [] [])).

(** [for _, stream := range iterStreams { stream.SkipToTargetObject }]. *)
Fixpoint skip_all (target : string) (streams : list Stream) : outcome IterErr unit * list Stream :=
  match streams with
  | [] => (Ret tt, [])
  | stream :: rest =>
      match SkipToTargetObject target stream with
      | (Ret _, stream) => let '(r, rest) := skip_all target rest in (r, stream :: rest)
      | (r, stream) => (r, stream :: rest)
      end
  end.

Definition intersection_body (childrenTotal : nat) (st : SetOp) : SetOp * Control :=
  clean st (λ st,
    if negb (length (op_streams st) =? childrenTotal)%nat then (st, Return)
    else
      match heads (λ v maxObject, String.ltb maxObject v) 0 "" [] (op_streams st) with
      | (HeadsError err, streams) => send_error streams (op_batch st) (op_sent st) err
      | (HeadsPanic w, streams) => (mkSetOp streams (op_batch st) (op_sent st), Crash w)
      | (SomeDone, streams) => (mkSetOp streams (op_batch st) (op_sent st), Continue)
      | (AllHeads maxObject itersWithEqualObject, streams) =>
          if (length itersWithEqualObject =? childrenTotal)%nat
          then addNextItemInSliceStreamsToBatch (mkSetOp streams (op_batch st) (op_sent st)) itersWithEqualObject
          else
            match skip_all maxObject streams with
            | (Throw err, streams) => send_error streams (op_batch st) (op_sent st) err
            | (Panic w, streams) => (mkSetOp streams (op_batch st) (op_sent st), Crash w)
            | (Ret _, streams) => (mkSetOp streams (op_batch st) (op_sent st), Continue)
            end
      end).

Definition fastPathIntersection (streams : list Stream) : outcome IterErr (list Msg) :=
  let childrenTotal := length streams in
  flush (run_op (λ st, (length (op_streams st) =? childrenTotal)%nat) (intersection_body childrenTotal)
           (op_fuel streams) (mkSetOp streams [] [])).

(** The heads of base and difference. *)
Inductive DiffHeads :=
| BothHeads (base diff : string)
| OneDone
| DiffError (err : IterErr)
| DiffPanic (why : string).

Fixpoint diff_heads (idx : nat) (base diff : string) (iterStreams : list Stream) : DiffHeads * list Stream :=
  match iterStreams with
  | [] => (BothHeads base diff, [])
  | stream :: rest =>
      match Stream_Head stream with
      | (Throw err, stream) => ((if IterIsDoneOrCancelled err then OneDone else DiffError err), stream :: rest)
      | (Panic w, stream) => (DiffPanic w, stream :: rest)
      | (Ret v, stream) =>
          let base := if (idx =? BaseIndex)%nat then v else base in
          let diff := if (idx =? DifferenceIndex)%nat then v else diff in
          let '(r, rest) := diff_heads (S idx) base diff rest in (r, stream :: rest)
      end
  end.

Definition difference_body (st : SetOp) : SetOp * Control :=
  clean st (λ st,
    if negb (length (op_streams st) =? 2)%nat then (st, Break)
    else
      match diff_heads 0 "" "" (op_streams st) with
      | (DiffError err, streams) => send_error streams (op_batch st) (op_sent st) err
      | (DiffPanic w, streams) => (mkSetOp streams (op_batch st) (op_sent st), Crash w)
      | (OneDone, streams) => (mkSetOp streams (op_batch st) (op_sent st), Continue)
      | (BothHeads base diff, streams) =>
          if base =s diff then
            match NextItemInSliceStreams streams [BaseIndex; DifferenceIndex] with
            | (Throw err, streams) => send_error streams (op_batch st) (op_sent st) err
            | (Panic w, streams) => (mkSetOp streams (op_batch st) (op_sent st), Crash w)
            | (Ret _, streams) => (mkSetOp streams (op_batch st) (op_sent st), Continue)
            end
          else if String.ltb base diff
          then addNextItemInSliceStreamsToBatch (mkSetOp streams (op_batch st) (op_sent st)) [BaseIndex]
          else
            match streams !! DifferenceIndex with
            | None => (mkSetOp streams (op_batch st) (op_sent st), Crash "index out of range")
            | Some s =>
                let '(r, s) := SkipToTargetObject base s in
                let streams := <[DifferenceIndex := s]> streams in
                match r with
                | Throw err => send_error streams (op_batch st) (op_sent st) err
                | Panic w => (mkSetOp streams (op_batch st) (op_sent st), Crash w)
                | Ret _ => (mkSetOp streams (op_batch st) (op_sent st), Continue)
                end
            end
      end).

(** Draining the base once the difference is exhausted. *)
Definition drain_body (st : SetOp) : SetOp * Control :=
  match op_streams st !! BaseIndex with
  | None => (st, Crash "index out of range")
  | Some stream =>
      let '(r, stream) := Stream_Drain stream in
      let streams := <[BaseIndex := stream]> (op_streams st) in
      match r with
      | Throw err => send_error streams (op_batch st) (op_sent st) err
      | Panic w => (mkSetOp streams (op_batch st) (op_sent st), Crash w)
      | Ret drained => clean (send_full streams (op_batch st ++ drained) (op_sent st)) (λ st, (st, Continue))
      end
  end.

Definition fastPathDifference (streams : list Stream) : outcome IterErr (list Msg) :=
  let fuel := op_fuel streams in
  match run_op (λ st, (length (op_streams st) =? 2)%nat) difference_body fuel (mkSetOp streams [] []) with
  | (st, Break) =>
      flush (clean st (λ st,
        if (length (op_streams st) =? 1)%nat
           && match op_streams st !! BaseIndex with Some s => (s_idx s =? BaseIndex)%nat | None => false end
        then run_op (λ st, (length (op_streams st) =? 1)%nat) drain_body fuel st
        else (st, Return)))
  | r => flush r
  end.
End streams.
Arguments Msg I : clear implicits.
Arguments Stream I : clear implicits.
Arguments SetOp I : clear implicits.
