(* ===== verification/FastPathStreamsSpec.v ===== *)
(** * The set operations on streams are exact

    On streams without error whose objects ascend, [fastPathUnion], [fastPathIntersection]
    and [fastPathDifference] of [FastPathStreams.v] end and send, in ascending order,
    exactly the union, the intersection and the difference of the objects. *)

From S2P Require Import Prelude GoStd Tuple Iterators FastPathStreams.

Local Open Scope go_scope.

(** ** Ascending lists of strings *)

Definition str_lt (a b : string) : Prop := String.ltb a b = true.
Definition ascending (l : list string) : Prop := StronglySorted str_lt l.

Lemma str_lt_trans a b c : str_lt a b → str_lt b c → str_lt a c.
Proof. apply str_ltb_trans. Qed.

Lemma str_lt_irrefl a : ¬ str_lt a a.
Proof. unfold str_lt. by rewrite str_ltb_irrefl. Qed.

Lemma str_lt_neq a b : str_lt a b → a ≠ b.
Proof. intros Hab ->. by eapply str_lt_irrefl. Qed.

Lemma str_lt_cases a b : a = b ∨ str_lt a b ∨ str_lt b a.
Proof.
  unfold str_lt. destruct (String.ltb a b) eqn:E1; [by right; left|]. destruct (String.ltb b a) eqn:E2; [by right; right|].
  left. by apply str_ltb_total.
Qed.

Lemma str_lt_asym a b : str_lt a b → ¬ str_lt b a.
Proof. intros H1 H2. exact (str_lt_irrefl a (str_lt_trans a b a H1 H2)). Qed.

Lemma str_ltb_false a b : String.ltb a b = false → a = b ∨ str_lt b a.
Proof. intros H. destruct (str_lt_cases a b) as [?|[Hlt|?]]; [by left| |by right]. unfold str_lt in Hlt. by rewrite H in Hlt. Qed.

Lemma ascending_cons x l : ascending (x :: l) ↔ (∀ y, y ∈ l → str_lt x y) ∧ ascending l.
Proof.
  unfold ascending. split.
  - intros [Hs Hf]%StronglySorted_inv. rewrite Forall_forall in Hf. done.
  - intros [Hf Hs]. constructor; [done|]. by rewrite Forall_forall.
Qed.

Lemma ascending_snoc l x : ascending l → (∀ y, y ∈ l → str_lt y x) → ascending (l ++ [x]).
Proof.
  induction l as [|y l IH]; intros Hl Hx; simpl.
  { apply ascending_cons. split; [by intros y ?%not_elem_of_nil|constructor]. }
  apply ascending_cons in Hl as [Hy Hl]. apply ascending_cons. split.
  - intros z [Hz| ->%list_elem_of_singleton]%elem_of_app; [by apply Hy|]. apply Hx. by left.
  - apply IH; [done|]. intros z Hz. apply Hx. by right.
Qed.

Lemma ascending_app l k : ascending l → ascending k → (∀ x y, x ∈ l → y ∈ k → str_lt x y) → ascending (l ++ k).
Proof.
  induction l as [|x l IH]; intros Hl Hk Hlt; [done|]. apply ascending_cons in Hl as [Hx Hl]. simpl. apply ascending_cons. split.
  - intros y [Hy|Hy]%elem_of_app; [by apply Hx|]. apply Hlt; [by left|done].
  - apply IH; [done..|]. intros ????. apply Hlt; [by right|done].
Qed.

Lemma ascending_NoDup l : ascending l → NoDup l.
Proof.
  induction l as [|x l IH]; intros Hl; [constructor|]. apply ascending_cons in Hl as [Hx Hl]. constructor; [|by apply IH].
  intros Hin. by eapply str_lt_irrefl, Hx.
Qed.

Lemma ascending_prefix l k : ascending (l ++ k) → ascending l ∧ ∀ x y, x ∈ l → y ∈ k → str_lt x y.
Proof.
  induction l as [|x l IH]; intros H; [split; [constructor|by intros ?? ?%not_elem_of_nil]|]. simpl in H. apply ascending_cons in H as [Hx [Hl Hlk]%IH].
  split.
  - apply ascending_cons. split; [|done]. intros y Hy. apply Hx, elem_of_app. by left.
  - intros a c [->|Ha]%elem_of_cons Hc; [apply Hx, elem_of_app; by right|by apply Hlk].
Qed.

Lemma ascending_suffix l k : ascending (l ++ k) → ascending k.
Proof. induction l as [|x l IH]; [done|]. simpl. intros [_ ?]%ascending_cons. by apply IH. Qed.

(** ** Iterators in a good state *)

(** The contract of an iterator on the states that are [good], such as those whose filters
    do not fail. *)
Class GoodIterator (S T : Type) `{!Iterator S T} := {
  good : S → Prop;
  yields : S → list T;
  Next_yields s : good s →
    match yields s with
    | x :: l => ∃ s', Next None s = (Ret x, s') ∧ good s' ∧ yields s' = l
    | [] => ∃ s', Next None s = (Throw ErrIteratorDone, s') ∧ good s' ∧ yields s' = []
    end;
  Head_yields s : good s →
    match yields s with
    | x :: l => ∃ s', Head None s = (Ret x, s') ∧ good s' ∧ yields s' = x :: l
    | [] => ∃ s', Head None s = (Throw ErrIteratorDone, s') ∧ good s' ∧ yields s' = []
    end;
  remaining_yields s : good s → (length (yields s) ≤ remaining s)%nat;
}.

(** ** The contents of streams *)

Section contents.
Context {I : Type} `{!Iterator I string, !GoodIterator I string} (NewStatic : list string → I).
Hypothesis NewStatic_yields : ∀ l, good (NewStatic l) ∧ yields (NewStatic l) = l.

Lemma NewStatic_items l : yields (NewStatic l) = l.
Proof. apply NewStatic_yields. Qed.

Definition msg_items (m : Msg I) : list string := match m with MsgIter it => yields it | MsgError _ => [] end.
Definition msgs_items (ms : list (Msg I)) : list string := concat (msg_items <$> ms).
Definition msg_fine (m : Msg I) : Prop := match m with MsgIter it => good it | MsgError _ => False end.

Definition buffer_items (s : Stream I) : list string := match s_buffer s with Some b => yields b | None => [] end.
Definition stream_items (s : Stream I) : list string := buffer_items s ++ msgs_items (s_source s).

(** A stream among the active ones of a handler, no error to come. *)
Definition stream_ok (s : Stream I) : Prop :=
  s_sourceIsClosed s = false ∧ Forall msg_fine (s_source s) ∧ ∀ b, s_buffer s = Some b → good b.

Definition msg_weight (m : Msg I) : nat := S (S (length (msg_items m))).
Definition weight (s : Stream I) : nat :=
  S ((match s_buffer s with Some b => S (length (yields b)) | None => 0 end) + sum_list (msg_weight <$> s_source s)).
Definition weights (ss : list (Stream I)) : nat := sum_list (weight <$> ss).
#[local] Arguments weight _ : simpl never.
#[local] Arguments weights _ : simpl never.

(** [s] after calls that moved nothing, or that ended its buffer. *)
Definition same_stream (s s' : Stream I) : Prop :=
  stream_ok s' ∧ s_idx s' = s_idx s ∧ stream_items s' = stream_items s ∧ (weight s' ≤ weight s)%nat.

(** [s] shows the head [x]. *)
Definition has_head (x : string) (s : Stream I) : Prop :=
  ∃ b l, s_buffer s = Some b ∧ yields b = x :: l.

Lemma msgs_items_app ms ms' : msgs_items (ms ++ ms') = msgs_items ms ++ msgs_items ms'.
Proof. unfold msgs_items. by rewrite fmap_app, concat_app. Qed.

Lemma weights_cons s ss : weights (s :: ss) = (weight s + weights ss)%nat.
Proof. done. Qed.

Lemma same_stream_refl s : stream_ok s → same_stream s s.
Proof. intros Hok. by split_and!. Qed.

Lemma has_head_items x s : has_head x s → ∃ l, stream_items s = x :: l.
Proof. intros (b&l&Hb&Hl). unfold stream_items, buffer_items. rewrite Hb, Hl. by eexists. Qed.

Lemma Head_head x s :
  stream_ok s → has_head x s → ∃ s', Stream_Head s = (Ret x, s') ∧ same_stream s s' ∧ has_head x s' ∧ buffer_items s' = buffer_items s.
Proof.
  intros (?&?&Hg) (b&l&Hb&Hl). unfold Stream_Head, buffer_call. rewrite Hb.
  pose proof (Head_yields b (Hg b Hb)) as Hh. rewrite Hl in Hh. destruct Hh as (b'&->&Hg'&Hb').
  eexists. split; [done|]. unfold same_stream, stream_ok, stream_items, buffer_items, weight. simpl. rewrite Hb, Hl, Hb'.
  split; [split_and!; [done|done|by intros ? [= <-]|done..]|]. split; [by exists b', l|done].
Qed.

Lemma Head_done b s :
  stream_ok s → s_buffer s = Some b → yields b = [] →
  ∃ s', Stream_Head s = (Throw ErrIteratorDone, s') ∧ same_stream s s' ∧ (weight s' < weight s)%nat ∧ s_buffer s' = None.
Proof.
  intros (?&?&Hg) Hb Hl. unfold Stream_Head, buffer_call. rewrite Hb.
  pose proof (Head_yields b (Hg b Hb)) as Hh. rewrite Hl in Hh. destruct Hh as (b'&->&_). simpl.
  eexists. split; [done|]. unfold same_stream, stream_ok, stream_items, buffer_items, weight. simpl. rewrite Hb, Hl. simpl.
  split; [|split; [lia|done]]. split_and!; [done..|lia].
Qed.

(** [Next] on a stream with head [x]. *)
Lemma Next_head x s :
  stream_ok s → has_head x s →
  ∃ s', Stream_Next s = (Ret x, s') ∧ stream_ok s' ∧ s_idx s' = s_idx s ∧ stream_items s = x :: stream_items s' ∧
    (weight s' < weight s)%nat ∧ is_Some (s_buffer s') ∧ length (buffer_items s) = S (length (buffer_items s')) .
Proof.
  intros (?&?&Hg) (b&l&Hb&Hl). unfold Stream_Next, buffer_call. rewrite Hb.
  pose proof (Next_yields b (Hg b Hb)) as Hh. rewrite Hl in Hh. destruct Hh as (b'&->&Hg'&Hb').
  eexists. split; [done|]. unfold stream_ok, stream_items, buffer_items, weight. simpl. rewrite Hb, Hl, Hb'. simpl.
  split_and!; [done|done|by intros ? [= <-]|done|done|lia|done|done].
Qed.

Lemma Next_end b s :
  stream_ok s → s_buffer s = Some b → yields b = [] →
  ∃ s', Stream_Next s = (Throw ErrIteratorDone, s') ∧ same_stream s s' ∧ (weight s' < weight s)%nat ∧ s_buffer s' = None.
Proof.
  intros (?&?&Hg) Hb Hl. unfold Stream_Next, buffer_call. rewrite Hb.
  pose proof (Next_yields b (Hg b Hb)) as Hh. rewrite Hl in Hh. destruct Hh as (b'&->&_). simpl.
  eexists. split; [done|]. unfold same_stream, stream_ok, stream_items, buffer_items, weight. simpl. rewrite Hb, Hl. simpl.
  split; [|split; [lia|done]]. split_and!; [done..|lia].
Qed.

(** The buffer ends or shows a head. *)
Lemma buffer_cases s b : s_buffer s = Some b → yields b = [] ∨ ∃ x, has_head x s.
Proof. intros Hb. destruct (yields b) as [|x l] eqn:E; [by left|]. right. exists x. by exists b, l. Qed.

(** *** [CleanDone] *)

Definition refill (s : Stream I) : option (Stream I) :=
  match s_buffer s, s_source s with
  | Some _, _ => Some s
  | None, MsgIter it :: rest => Some (mkStream (s_idx s) (Some it) false rest)
  | None, _ => None
  end.

Lemma CleanDone_refill ss : Forall stream_ok ss → CleanDone ss = (Ret tt, omap refill ss).
Proof.
  intros Hok. unfold CleanDone.
  assert (∃ ss', fetch_all ss = (Ret tt, ss') ∧ List.filter (λ s, negb (isDone s)) ss' = omap refill ss) as (ss'&->&->); [|done].
  induction Hok as [|s ss [Hc Hs] _ (ss'&IH&IHf)]; simpl; [by exists []|]. unfold fetchSource. destruct s as [i [b|] c src]; simpl in *; subst c.
  - rewrite IH. eexists. split; [done|]. simpl. by rewrite IHf.
  - destruct src as [|[it|e] src]; simpl; [|rewrite IH; eexists; split; [done|]; simpl; by rewrite IHf|].
    + rewrite IH. eexists. split; [done|]. simpl. exact IHf.
    + destruct Hs as [[[] _]%Forall_cons_1 _].
Qed.

Lemma refill_spec s :
  stream_ok s →
  match refill s with
  | Some s' => same_stream s s' ∧ is_Some (s_buffer s') ∧ (s_buffer s = None → (weight s' < weight s)%nat)
  | None => stream_items s = [] ∧ s_buffer s = None ∧ (0 < weight s)%nat
  end.
Proof.
  intros (Hc&Hs&Hg). unfold refill, same_stream, stream_items, buffer_items, weight, stream_ok. destruct s as [i [b|] c src]; simpl in *; subst c.
  { by split_and!. }
  destruct src as [|[it|e] src]; simpl.
  - split_and!; [done..|lia].
  - apply Forall_cons_1 in Hs as [Hit Hs]. split_and!; try done; [by intros ? [= <-]|unfold fmap; lia..].
  - by apply Forall_cons_1 in Hs as [[] _].
Qed.

Ltac weigh := cbn [op_streams] in *; rewrite ?weights_cons in *; lia.

(** *** Streams that advance *)

(** [s'] is [s] after some of its first objects were dropped, all of them in [D]. *)
Definition advanced (D : string → Prop) (s s' : Stream I) : Prop :=
  stream_ok s' ∧ s_idx s' = s_idx s ∧ (weight s' ≤ weight s)%nat ∧
  ∃ l, stream_items s = l ++ stream_items s' ∧ ∀ y, y ∈ l → D y.

Lemma same_advanced D s s' : same_stream s s' → advanced D s s'.
Proof. intros (?&?&He&?). split_and!; [done..|]. exists []. split; [by rewrite He|]. by intros y ?%not_elem_of_nil. Qed.

Lemma advanced_trans D s1 s2 s3 : advanced D s1 s2 → advanced D s2 s3 → advanced D s1 s3.
Proof.
  intros (?&?&?&l1&E1&Hl1) (?&?&?&l2&E2&Hl2). split_and!; [done|congruence|lia|]. exists (l1 ++ l2).
  rewrite E1, E2, app_assoc. split; [done|]. intros y [?|?]%elem_of_app; auto.
Qed.

Lemma advanced_elem D s s' y : advanced D s s' → y ∈ stream_items s' → y ∈ stream_items s.
Proof. intros (_&_&_&l&->&_) Hy. apply elem_of_app. by right. Qed.

Lemma advanced_keeps D s s' y : advanced D s s' → y ∈ stream_items s → ¬ D y → y ∈ stream_items s'.
Proof. intros (_&_&_&l&->&Hl) [Hy|?]%elem_of_app Hn; [|done]. by destruct (Hn (Hl y Hy)). Qed.

Lemma advanced_weights D ss ss' : Forall2 (advanced D) ss ss' → (weights ss' ≤ weights ss)%nat.
Proof. induction 1 as [|s s' ss ss' (_&_&Hw&_) _ IH]; [done|]. rewrite !weights_cons. lia. Qed.

Lemma Forall2_compose {A} (P Q R : A → A → Prop) l1 l2 l3 :
  (∀ x y z, P x y → Q y z → R x z) → Forall2 P l1 l2 → Forall2 Q l2 l3 → Forall2 R l1 l3.
Proof. intros HR H1. revert l3. induction H1; intros l3 H2; inversion H2; subst; constructor; eauto. Qed.

(** Replacing one stream of a list. *)
Lemma weights_insert ss i s s' : ss !! i = Some s → (weights (<[i := s']> ss) + weight s = weights ss + weight s')%nat.
Proof.
  revert i. induction ss as [|x ss IH]; intros i Hi; [done|]. destruct i as [|i].
  - injection Hi as ->. change (<[0 := s']> (s :: ss)) with (s' :: ss). rewrite !weights_cons. lia.
  - change (<[S i := s']> (x :: ss)) with (x :: <[i := s']> ss). rewrite !weights_cons. specialize (IH i Hi). lia.
Qed.

Lemma Forall2_insert_one (R : Stream I → Stream I → Prop) ss i s s' :
  (∀ x, x ∈ ss → R x x) → ss !! i = Some s → R s s' → Forall2 R ss (<[i := s']> ss).
Proof.
  intros Hr Hi HR. apply Forall2_same_length_lookup_2; [by rewrite length_insert|]. intros j x y Hx Hy.
  destruct (decide (i = j)) as [<-|Hne].
  - rewrite list_lookup_insert_eq in Hy by (by eapply lookup_lt_Some). by simplify_eq.
  - rewrite list_lookup_insert_ne in Hy by done. simplify_eq. by eapply Hr, list_elem_of_lookup_2.
Qed.

(** *** Refilling all streams *)

Lemma clean_streams ss :
  Forall stream_ok ss →
  Forall stream_ok (omap refill ss) ∧ Forall (λ s, is_Some (s_buffer s)) (omap refill ss) ∧
  (weights (omap refill ss) ≤ weights ss)%nat ∧
  (∀ s', s' ∈ omap refill ss → ∃ s, s ∈ ss ∧ same_stream s s') ∧
  (∀ s, s ∈ ss → (∃ s', s' ∈ omap refill ss ∧ same_stream s s') ∨ stream_items s = []) ∧
  (Forall2 same_stream ss (omap refill ss) ∨
   (length (omap refill ss) < length ss)%nat ∧ (weights (omap refill ss) < weights ss)%nat ∧ ∃ s, s ∈ ss ∧ stream_items s = []).
Proof.
  induction 1 as [|s ss Hok _ (IH1&IH2&IH3&IH4&IH5&IH6)].
  { split_and!; [constructor..|done|set_solver|set_solver|left; constructor]. }
  pose proof (refill_spec s Hok) as Hs.
  assert (omap refill (s :: ss) = match refill s with Some s' => s' :: omap refill ss | None => omap refill ss end) as -> by done.
  destruct (refill s) as [s'|] eqn:E.
  - destruct Hs as (Hsame&Hb&_). rewrite !weights_cons. split_and!.
    + constructor; [apply Hsame|done].
    + by constructor.
    + destruct Hsame as (_&_&_&?). lia.
    + intros x [->|Hx]%elem_of_cons; [exists s; split; [by left|done]|]. destruct (IH4 x Hx) as (y&?&?). exists y. split; [by right|done].
    + intros x [->|Hx]%elem_of_cons; [left; exists s'; split; [by left|done]|].
      destruct (IH5 x Hx) as [(y&?&?)|?]; [left; exists y; split; [by right|done]|by right].
    + destruct IH6 as [?|(?&?&x&?&?)]; [left; by constructor|right]. rewrite !length_cons. destruct Hsame as (_&_&_&?).
      split_and!; [lia..|]. exists x. split; [by right|done].
  - destruct Hs as (Hnil&_&Hpos). rewrite weights_cons. split_and!; [done..|lia| | |].
    + intros x Hx. destruct (IH4 x Hx) as (y&?&?). exists y. split; [by right|done].
    + intros x [->|Hx]%elem_of_cons; [by right|]. destruct (IH5 x Hx); [by left|by right].
    + right. rewrite length_cons. split_and!; [|lia|exists s; split; [by left|done]].
      destruct IH6 as [?%Forall2_length|(?&_)]; lia.
Qed.

(** *** Heads *)

(** [heads] without the streams. *)
Fixpoint pick (before : string → string → bool) (idx : nat) (object : string) (equal : list nat) (hs : list string)
  : string * list nat :=
  match hs with
  | [] => (object, equal)
  | v :: rest =>
      let object := if (idx =? 0)%nat then v else object in
      if object =s v then pick before (S idx) object (equal ++ [idx]) rest
      else if before v object then pick before (S idx) v [idx] rest
      else pick before (S idx) object equal rest
  end.

Lemma heads_spec before ss : ∀ idx object equal,
  Forall stream_ok ss → Forall (λ s, is_Some (s_buffer s)) ss →
  ∃ r ss', heads before idx object equal ss = (r, ss') ∧ Forall2 same_stream ss ss' ∧
    match r with
    | AllHeads object' equal' => ∃ hs, Forall2 has_head hs ss' ∧ pick before idx object equal hs = (object', equal')
    | SomeDone => (weights ss' < weights ss)%nat
    | _ => False
    end.
Proof.
  induction ss as [|s ss IH]; intros idx object equal Hok Hb; simpl.
  { eexists _, []. split; [done|]. split; [constructor|]. exists []. split; [constructor|done]. }
  apply Forall_cons_1 in Hok as [Hs Hok]. apply Forall_cons_1 in Hb as [[b Hb] Hbs].
  assert (Forall2 same_stream ss ss) as Hrefl.
  { apply Forall_Forall2_diag. eapply Forall_impl; [exact Hok|]. intros. by apply same_stream_refl. }
  destruct (buffer_cases s b Hb) as [Hnil|(x&Hx)].
  { destruct (Head_done b s Hs Hb Hnil) as (s'&->&Hsame&Hw&_). simpl. eexists _, _. split; [done|].
    split; [by constructor|]. rewrite !weights_cons. lia. }
  destruct (Head_head x s Hs Hx) as (s'&->&Hsame&Hx'&_).
  assert (weight s' ≤ weight s)%nat by apply Hsame.
  set (obj := if (idx =? 0)%nat then x else object).
  assert (∀ object' equal', ∃ r rest, heads before (S idx) object' equal' ss = (r, rest) ∧
      Forall2 same_stream ss rest ∧
      match r with
      | AllHeads o e => ∃ hs, Forall2 has_head hs (s' :: rest) ∧ hs = x :: tail hs ∧ pick before (S idx) object' equal' (tail hs) = (o, e)
      | SomeDone => (weights (s' :: rest) < weights (s :: ss))%nat
      | _ => False
      end) as Hrec.
  { intros object' equal'. destruct (IH (S idx) object' equal' Hok Hbs) as (r&rest&?&?&Hr). exists r, rest. split_and!; [done..|].
    destruct r; [|rewrite !weights_cons; lia|done..]. destruct Hr as (hs&?&?). exists (x :: hs). split_and!; [by constructor|done..]. }
  destruct (obj =s x) eqn:E1; [|destruct (before x obj) eqn:E2].
  - destruct (Hrec obj (equal ++ [idx])) as (r&rest&->&?&Hr). exists r, (s' :: rest). split_and!; [done|by constructor|].
    destruct r; try done. destruct Hr as (hs&?&Hhs&?). exists hs. split; [done|]. rewrite Hhs. simpl. fold obj. by rewrite E1.
  - destruct (Hrec x [idx]) as (r&rest&->&?&Hr). exists r, (s' :: rest). split_and!; [done|by constructor|].
    destruct r; try done. destruct Hr as (hs&?&Hhs&?). exists hs. split; [done|]. rewrite Hhs. simpl. fold obj. by rewrite E1, E2.
  - destruct (Hrec obj equal) as (r&rest&->&?&Hr). exists r, (s' :: rest). split_and!; [done|by constructor|].
    destruct r; try done. destruct Hr as (hs&?&Hhs&?). exists hs. split; [done|]. rewrite Hhs. simpl. fold obj. by rewrite E1, E2.
Qed.

(** What [pick] finds: the object that comes first and where it is. *)
Definition picked (before : string → string → bool) (object : string) (equal : list nat) (hs : list string) : Prop :=
  object ∈ hs ∧ (∀ v, v ∈ hs → v = object ∨ before object v = true) ∧ NoDup equal ∧ ∀ i, i ∈ equal ↔ hs !! i = Some object.

Section pick.
Context (before : string → string → bool).
Hypothesis before_trans : ∀ a b c, before a b = true → before b c = true → before a c = true.
Hypothesis before_irrefl : ∀ a, before a a = false.
Hypothesis before_total : ∀ a b, before a b = false → a = b ∨ before b a = true.

Lemma pick_prefix rest : ∀ pre object equal,
  pre ≠ [] → picked before object equal pre →
  let '(object', equal') := pick before (length pre) object equal rest in picked before object' equal' (pre ++ rest).
Proof.
  induction rest as [|v rest IH]; intros pre object equal Hne (Hin&Hmin&Hnd&Heq); simpl; [by rewrite app_nil_r|].
  assert ((length pre =? 0)%nat = false) as -> by (destruct pre; done).
  assert (S (length pre) = length (pre ++ [v])) as -> by (rewrite length_app; simpl; lia).
  assert (∀ i o, (pre ++ [v]) !! i = Some o ↔ pre !! i = Some o ∨ i = length pre ∧ v = o) as Hlk.
  { intros i o. rewrite lookup_app_Some, list_lookup_singleton_Some.
    split; [intros [?|(?&?&?)]; [by left|right; split; [lia|done]]|]. intros [?|[-> ->]]; [by left|right]. split_and!; [lia..|done]. }
  assert (length pre ∉ equal) as Hfresh.
  { intros Hi%Heq. apply lookup_lt_Some in Hi. lia. }
  assert (pre ++ v :: rest = (pre ++ [v]) ++ rest) as -> by (by rewrite <-app_assoc).
  case_bool_decide as Hv.
  - subst v. apply IH; [by destruct pre|]. split_and!.
    + apply elem_of_app. by left.
    + intros w [Hw| ->%list_elem_of_singleton]%elem_of_app; [by apply Hmin|by left].
    + apply NoDup_app. split_and!; [done|by intros x ? ->%list_elem_of_singleton|apply NoDup_singleton].
    + intros i. rewrite elem_of_app, list_elem_of_singleton, Hlk, Heq. naive_solver.
  - destruct (before v object) eqn:Hb; apply IH; try (by destruct pre); split_and!.
    + apply elem_of_app. right. by left.
    + intros w [Hw| ->%list_elem_of_singleton]%elem_of_app; [right|by left]. destruct (Hmin w Hw) as [->|?]; [done|]. by eapply before_trans.
    + apply NoDup_singleton.
    + intros i. rewrite list_elem_of_singleton, Hlk. split; [by right|]. intros [Hi|[? _]]; [|done].
      apply list_elem_of_lookup_2, Hmin in Hi as [->|Hi]; [done|]. exfalso.
      pose proof (before_trans _ _ _ Hi Hb) as Hbad. by rewrite before_irrefl in Hbad.
    + apply elem_of_app. by left.
    + intros w [Hw| ->%list_elem_of_singleton]%elem_of_app; [by apply Hmin|]. destruct (before_total _ _ Hb) as [->|?]; [by left|by right].
    + done.
    + intros i. rewrite Hlk, Heq. naive_solver.
Qed.

Lemma pick_picked h hs :
  let '(object, equal) := pick before 0 "" [] (h :: hs) in picked before object equal (h :: hs).
Proof.
  simpl. rewrite bool_decide_true by done. apply (pick_prefix hs [h]); [done|].
  split_and!; [by left|by intros v ->%list_elem_of_singleton; left|apply NoDup_singleton|].
  intros i. rewrite list_elem_of_singleton, list_lookup_singleton_Some. naive_solver.
Qed.
End pick.

(** *** Moving streams *)

Definition popped (x : string) (s s' : Stream I) : Prop :=
  stream_ok s' ∧ s_idx s' = s_idx s ∧ stream_items s = x :: stream_items s' ∧ (weight s' < weight s)%nat.

Lemma next_items_spec x idxs : ∀ item ss,
  NoDup idxs → Forall stream_ok ss → (∀ i, i ∈ idxs → ∃ s, ss !! i = Some s ∧ has_head x s) →
  ∃ ss', next_items item idxs ss = (Ret (if bool_decide (idxs = []) then item else x), ss') ∧ length ss' = length ss ∧
    (∀ i s, ss !! i = Some s → ∃ s', ss' !! i = Some s' ∧ ((i ∈ idxs ∧ popped x s s') ∨ ((i ∉ idxs) ∧ s' = s))) ∧
    (weights ss' + length idxs ≤ weights ss)%nat.
Proof.
  induction idxs as [|i idxs IH]; intros item ss Hnd Hok Hhead.
  { exists ss. split_and!; [done..| |simpl; lia]. intros j s Hs. exists s. split; [done|right]. split; [by intros ?%not_elem_of_nil|done]. }
  apply NoDup_cons in Hnd as [Hi Hnd]. cbn [next_items].
  destruct (Hhead i) as (s&Hs&Hx); [by left|]. rewrite Hs.
  destruct (Next_head x s) as (s'&->&Hok'&Hidx&Hit&Hw&_); [|done|]. { rewrite Forall_forall in Hok. by eapply Hok, list_elem_of_lookup_2. }
  pose proof (lookup_lt_Some _ _ _ Hs) as Hlt.
  destruct (IH x (<[i := s']> ss)) as (ss'&->&Hlen&Hmoved&Hws).
  - done.
  - by apply Forall_insert.
  - intros j Hj. destruct (Hhead j) as (sj&Hsj&Hxj); [by right|]. exists sj. split; [|done].
    rewrite list_lookup_insert_ne; [done|]. by intros ->.
  - exists ss'. split_and!.
    + by case_bool_decide.
    + by rewrite Hlen, length_insert.
    + intros j sj Hsj. destruct (decide (i = j)) as [<-|Hne].
      * simplify_eq. destruct (Hmoved i s') as (s''&?&[[? _]|[_ ->]]); [by rewrite list_lookup_insert_eq|done|].
        exists s'. split; [done|left]. split; [by left|done].
      * destruct (Hmoved j sj) as (s''&?&Hcase); [by rewrite list_lookup_insert_ne|]. exists s''. split; [done|].
        destruct Hcase as [[??]|[? ->]]; [left; split; [by right|done]|right; split; [|done]].
        intros [->|?]%elem_of_cons; done.
    + pose proof (weights_insert ss i s s' Hs). simpl. lia.
Qed.

Lemma skip_loop_spec target fuel : ∀ t s,
  stream_ok s → has_head t s → (length (buffer_items s) ≤ fuel)%nat →
  ∃ s', skip_loop fuel target t s = (Ret tt, s') ∧ advanced (λ y, str_lt y target) s s' ∧
    (str_lt t target → (weight s' < weight s)%nat).
Proof.
  induction fuel as [|fuel IH]; intros t s Hok Hh Hf.
  { destruct Hh as (b&l&Hb&Hl). unfold buffer_items in Hf. rewrite Hb, Hl in Hf. simpl in Hf. lia. }
  simpl. destruct (String.ltb t target) eqn:Hlt.
  2:{ exists s. split_and!; [done|by apply same_advanced, same_stream_refl|]. unfold str_lt. by rewrite Hlt. }
  destruct (Next_head t s Hok Hh) as (s1&->&Hok1&Hidx1&Hit1&Hw1&[b1 Hb1]&Hlen1).
  assert (advanced (λ y, str_lt y target) s s1) as Hadv.
  { split_and!; [done..|lia|]. exists [t]. split; [done|]. by intros y ->%list_elem_of_singleton. }
  destruct (buffer_cases s1 b1 Hb1) as [Hnil|(x&Hx)].
  - destruct (Head_done b1 s1 Hok1 Hb1 Hnil) as (s2&->&Hsame&Hw2&_). simpl. exists s2. split_and!; [done| |lia].
    by eapply advanced_trans, same_advanced.
  - destruct (Head_head x s1 Hok1 Hx) as (s2&->&Hsame&Hx2&Hlen2).
    destruct (IH x s2) as (s3&->&Hadv3&_); [apply Hsame|done|rewrite Hlen2; lia|]. exists s3. split; [done|].
    split; [by eapply advanced_trans; [done|]; eapply advanced_trans; [by apply same_advanced|]|].
    destruct Hsame as (_&_&_&?). destruct Hadv3 as (_&_&?&_). lia.
Qed.

Lemma SkipToTargetObject_spec target x s :
  IsValidObject target = true → stream_ok s → has_head x s →
  ∃ s', SkipToTargetObject target s = (Ret tt, s') ∧ advanced (λ y, str_lt y target) s s' ∧
    (str_lt x target → (weight s' < weight s)%nat).
Proof.
  intros Hv Hok Hx. unfold SkipToTargetObject. rewrite Hv. simpl. destruct (Head_head x s Hok Hx) as (s1&->&Hsame&Hx1&_).
  destruct (skip_loop_spec target (buffer_fuel s1) x s1) as (s2&->&Hadv&Hw); [apply Hsame|done| |].
  { destruct Hx1 as (b&l&Hb&Hl). unfold buffer_items, buffer_fuel. rewrite Hb.
    destruct Hsame as ((_&_&Hg)&_). pose proof (remaining_yields b (Hg b Hb)). lia. }
  exists s2. split_and!; [done|by eapply advanced_trans; [by apply same_advanced|]|]. destruct Hsame as (_&_&_&?).
  intros Hlt. specialize (Hw Hlt). lia.
Qed.

Lemma skip_all_spec target hs ss :
  IsValidObject target = true → Forall stream_ok ss → Forall2 has_head hs ss →
  ∃ ss', skip_all target ss = (Ret tt, ss') ∧ Forall2 (advanced (λ y, str_lt y target)) ss ss' ∧
    ((∃ h, h ∈ hs ∧ str_lt h target) → (weights ss' < weights ss)%nat).
Proof.
  intros Hv Hok Hh. induction Hh as [|h s hs ss Hx _ IH]; simpl.
  { exists []. split_and!; [done|constructor|]. by intros (h&?%not_elem_of_nil&_). }
  apply Forall_cons_1 in Hok as [Hs Hok]. destruct (SkipToTargetObject_spec target h s Hv Hs Hx) as (s'&->&Hadv&Hw).
  destruct (IH Hok) as (ss'&->&Hadvs&Hws). exists (s' :: ss'). split_and!; [done|by constructor|]. rewrite !weights_cons.
  pose proof (advanced_weights _ _ _ Hadvs). assert (weight s' ≤ weight s)%nat by apply Hadv.
  intros (y&[->|Hy]%elem_of_cons&Hlt); [specialize (Hw Hlt); lia|]. assert (weights ss' < weights ss)%nat by eauto. lia.
Qed.

Lemma Drain_loop_spec n : ∀ batch b s,
  stream_ok s → s_buffer s = Some b → (length (yields b) < n)%nat →
  ∃ s', Stream_Drain_loop n batch s = (Ret (batch ++ yields b), s') ∧ stream_ok s' ∧ s_idx s' = s_idx s ∧
    stream_items s = yields b ++ stream_items s' ∧ (weight s' < weight s)%nat.
Proof.
  induction n as [|n IH]; intros batch b s Hok Hb Hn; [lia|]. simpl. destruct (yields b) as [|x l] eqn:Hl.
  - destruct (Next_end b s Hok Hb Hl) as (s'&->&Hsame&Hw&_). simpl. exists s'. rewrite app_nil_r.
    destruct Hsame as (?&?&?&?). by split_and!.
  - destruct (Next_head x s Hok) as (s1&->&Hok1&Hidx1&Hit1&Hw1&[b1 Hb1]&Hlen1); [by exists b, l|].
    assert (yields b1 = l) as Hl1.
    { unfold stream_items, buffer_items in Hit1. rewrite Hb, Hb1, Hl in Hit1. simpl in Hit1. injection Hit1 as Hit1.
      unfold buffer_items in Hlen1. rewrite Hb, Hb1, Hl in Hlen1. simpl in Hlen1. injection Hlen1 as Hlen1.
      symmetry in Hit1. apply app_inj_1 in Hit1 as [? _]; [done|done]. }
    destruct (IH (batch ++ [x]) b1 s1 Hok1 Hb1) as (s2&->&Hok2&Hidx2&Hit2&Hw2); [rewrite Hl1; simpl in Hn; lia|].
    exists s2. rewrite Hl1 in *. rewrite <-app_assoc. split_and!; [done..|congruence|by rewrite Hit1, Hit2|lia].
Qed.

(** *** What the handlers keep *)

Definition sent_items (st : SetOp I) : list string := msgs_items (op_sent st) ++ op_batch st.

(** The streams are fine and ascend through valid objects, and so does what was sent,
    which is below all that is still to come. *)
Record op_inv (st : SetOp I) : Prop := {
  oi_ok : Forall stream_ok (op_streams st);
  oi_asc s : s ∈ op_streams st → ascending (stream_items s);
  oi_valid s x : s ∈ op_streams st → x ∈ stream_items s → IsValidObject x = true;
  oi_fine : Forall msg_fine (op_sent st);
  oi_sent : ascending (sent_items st);
  oi_below s x y : x ∈ sent_items st → s ∈ op_streams st → y ∈ stream_items s → str_lt x y;
}.

Lemma op_inv_sub ss ss' b snt :
  op_inv (mkSetOp ss b snt) →
  (∀ s', s' ∈ ss' → stream_ok s' ∧ ∃ s l, s ∈ ss ∧ stream_items s = l ++ stream_items s') →
  op_inv (mkSetOp ss' b snt).
Proof.
  intros [H1 H2 H3 H4 H5 H6] Hsub. simpl in *. split; simpl; try done.
  - rewrite Forall_forall. intros s' Hs'. by apply Hsub.
  - intros s' Hs'. destruct (Hsub s' Hs') as (_&s&l&Hs&He). apply (ascending_suffix l). rewrite <-He. by apply H2.
  - intros s' x Hs' Hx. destruct (Hsub s' Hs') as (_&s&l&Hs&He). apply (H3 s); [done|]. rewrite He. apply elem_of_app. by right.
  - intros s' x y Hx Hs' Hy. destruct (Hsub s' Hs') as (_&s&l&Hs&He). apply (H6 s); [done..|]. rewrite He. apply elem_of_app. by right.
Qed.

Lemma op_inv_clean ss b snt : op_inv (mkSetOp ss b snt) → op_inv (mkSetOp (omap refill ss) b snt).
Proof.
  intros Hinv. apply (op_inv_sub ss); [done|]. intros s' Hs'.
  destruct (clean_streams ss (oi_ok _ Hinv)) as (_&_&_&Hfrom&_). destruct (Hfrom s' Hs') as (s&Hs&Hok&_&He&_).
  split; [done|]. exists s, []. by rewrite He.
Qed.

Lemma Forall2_elem_r {A B} (R : A → B → Prop) l k y : Forall2 R l k → y ∈ k → ∃ x, x ∈ l ∧ R x y.
Proof. intros HR [i Hi]%list_elem_of_lookup. destruct (Forall2_lookup_r _ _ _ _ _ HR Hi) as (x&Hx&?). exists x. by split; [eapply list_elem_of_lookup_2|]. Qed.

Lemma Forall2_elem_l {A B} (R : A → B → Prop) l k x : Forall2 R l k → x ∈ l → ∃ y, y ∈ k ∧ R x y.
Proof. intros HR [i Hi]%list_elem_of_lookup. destruct (Forall2_lookup_l _ _ _ _ _ HR Hi) as (y&Hy&?). exists y. by split; [eapply list_elem_of_lookup_2|]. Qed.

Lemma op_inv_advanced D ss ss' b snt :
  op_inv (mkSetOp ss b snt) → Forall2 (advanced D) ss ss' → op_inv (mkSetOp ss' b snt).
Proof.
  intros Hinv Hadv. apply (op_inv_sub ss); [done|]. intros s' Hs'.
  destruct (Forall2_elem_r _ _ _ _ Hadv Hs') as (s&Hs&Hok&_&_&l&He&_). split; [done|]. by exists s, l.
Qed.

Lemma same_advanced_all D ss ss' : Forall2 same_stream ss ss' → Forall2 (advanced D) ss ss'.
Proof. intros Hf. eapply Forall2_impl; [exact Hf|]. intros. by apply same_advanced. Qed.

(** Objects that go into the batch. *)
Lemma op_inv_emit ss b snt l :
  op_inv (mkSetOp ss b snt) → ascending l → (∀ x y, x ∈ sent_items (mkSetOp ss b snt) → y ∈ l → str_lt x y) →
  (∀ s x y, s ∈ ss → x ∈ l → y ∈ stream_items s → str_lt x y) →
  op_inv (send_full NewStatic ss (b ++ l) snt) ∧ op_streams (send_full NewStatic ss (b ++ l) snt) = ss ∧
  sent_items (send_full NewStatic ss (b ++ l) snt) = sent_items (mkSetOp ss b snt) ++ l.
Proof.
  intros [H1 H2 H3 H4 H5 H6] Hl Hsl Hls. simpl in *.
  assert (sent_items (send_full NewStatic ss (b ++ l) snt) = sent_items (mkSetOp ss b snt) ++ l ∧
    op_streams (send_full NewStatic ss (b ++ l) snt) = ss ∧ Forall msg_fine (op_sent (send_full NewStatic ss (b ++ l) snt))) as (He&Hs&Hfine).
  { unfold send_full, sent_items. case_match; simpl; split_and!; try done.
    - rewrite msgs_items_app, app_nil_r. unfold msgs_items at 2. simpl. by rewrite NewStatic_items, app_nil_r, app_assoc.
    - apply Forall_app. split; [done|]. constructor; [apply NewStatic_yields|constructor].
    - by rewrite app_assoc. }
  split; [|done]. split.
  - by rewrite Hs.
  - rewrite Hs. apply H2.
  - rewrite Hs. apply H3.
  - done.
  - rewrite He. by apply ascending_app.
  - rewrite He, Hs. intros s x y [Hx|Hx]%elem_of_app Hin Hy; [by eapply H6|by eapply Hls].
Qed.

(** Dropping the heads that are [x], the least of all. *)
Lemma pop_low ss b snt hs x equal :
  op_inv (mkSetOp ss b snt) → Forall2 has_head hs ss → x ∈ hs → (∀ v, v ∈ hs → v = x ∨ str_lt x v) →
  NoDup equal → (∀ i, i ∈ equal ↔ hs !! i = Some x) →
  ∃ ss', NextItemInSliceStreams ss equal = (Ret x, ss') ∧
    Forall2 (λ s s', s_idx s' = s_idx s ∧ ∀ y, y ∈ stream_items s' ↔ y ∈ stream_items s ∧ y ≠ x) ss ss' ∧
    op_inv (mkSetOp ss' b snt) ∧ (∀ s y, s ∈ ss' → y ∈ stream_items s → str_lt x y) ∧
    (∀ y, y ∈ sent_items (mkSetOp ss b snt) → str_lt y x) ∧ (weights ss' < weights ss)%nat ∧ IsValidObject x = true.
Proof.
  intros Hinv Hh Hx Hlow Hnd Heq. apply list_elem_of_lookup in Hx as [i0 Hi0].
  destruct (next_items_spec x equal "" ss Hnd (oi_ok _ Hinv)) as (ss'&Hnext&Hlen&Hmoved&Hw).
  { intros i Hi%Heq. destruct (Forall2_lookup_l _ _ _ _ _ Hh Hi) as (s&?&?). by exists s. }
  assert (equal ≠ []) as Hne by (intros ->; by apply (not_elem_of_nil i0), Heq).
  assert (∀ i s, ss !! i = Some s → ∃ s', ss' !! i = Some s' ∧ stream_ok s' ∧ s_idx s' = s_idx s ∧
    (∃ l, stream_items s = l ++ stream_items s') ∧ (∀ y, y ∈ stream_items s' ↔ y ∈ stream_items s ∧ y ≠ x) ∧
    ∀ y, y ∈ stream_items s' → str_lt x y) as Hpt.
  { intros i s Hs. destruct (Hmoved i s Hs) as (s'&Hs'&Hcase). exists s'. split; [done|].
    pose proof (list_elem_of_lookup_2 _ _ _ Hs) as Hin. pose proof (oi_asc _ Hinv s Hin) as Hasc.
    destruct (Forall2_lookup_r _ _ _ _ _ Hh Hs) as (h&Hhi&Hhead). destruct (has_head_items h s Hhead) as [l Hit].
    destruct Hcase as [[Hi%Heq (Hok&Hidx&He&_)]|[Hi ->]].
    - rewrite He in Hasc. apply ascending_cons in Hasc as [Hlt _]. split_and!; [done|done| | |done].
      + exists [x]. by rewrite He.
      + intros y. rewrite He, elem_of_cons. split; [|naive_solver].
        intros Hy. split; [by right|]. intros ->. by eapply str_lt_irrefl, Hlt.
    - assert (str_lt x h) as Hxh.
      { destruct (Hlow h) as [->|?]; [by eapply list_elem_of_lookup_2| |done]. by rewrite Heq in Hi. }
      assert (∀ y, y ∈ stream_items s → str_lt x y) as Hall.
      { rewrite Hit in *. apply ascending_cons in Hasc as [Hlt _]. intros y [->|Hy]%elem_of_cons; [done|]. eapply str_lt_trans; [done|by apply Hlt]. }
      split_and!; [by eapply Forall_forall, Hin; apply (oi_ok _ Hinv)|done|by exists []| |done].
      intros y. split; [|naive_solver]. intros Hy. split; [done|]. intros ->. by eapply str_lt_irrefl, Hall. }
  assert (∀ s', s' ∈ ss' → ∃ i s, ss !! i = Some s ∧ ss' !! i = Some s') as Hback.
  { intros s' [i Hi]%list_elem_of_lookup. destruct (lookup_lt_is_Some_2 ss i) as [s Hs]; [rewrite <-Hlen; by eapply lookup_lt_Some|]. by exists i, s. }
  exists ss'. split_and!.
  - unfold NextItemInSliceStreams. rewrite Hnext. by rewrite bool_decide_false.
  - apply Forall2_same_length_lookup_2; [done|]. intros i s s' Hs Hs'. destruct (Hpt i s Hs) as (s''&?&_&?&_&?&_). by simplify_eq.
  - apply (op_inv_sub ss); [done|]. intros s' (i&s&Hs&Hs')%Hback. destruct (Hpt i s Hs) as (s''&?&?&?&[l ?]&_). simplify_eq.
    split; [done|]. exists s, l. split; [by eapply list_elem_of_lookup_2|done].
  - intros s' y (i&s&Hs&Hs')%Hback Hy. destruct (Hpt i s Hs) as (s''&?&_&_&_&_&?). simplify_eq. auto.
  - destruct (Forall2_lookup_l _ _ _ _ _ Hh Hi0) as (s&Hs&Hhead). destruct (has_head_items x s Hhead) as [l Hit].
    intros y Hy. eapply (oi_below _ Hinv s); [done|by eapply list_elem_of_lookup_2|]. rewrite Hit. by left.
  - assert (0 < length equal)%nat by (destruct equal; [done|simpl; lia]). lia.
  - destruct (Forall2_lookup_l _ _ _ _ _ Hh Hi0) as (s&Hs&Hhead). destruct (has_head_items x s Hhead) as [l Hit].
    eapply (oi_valid _ Hinv s); [by eapply list_elem_of_lookup_2|]. rewrite Hit. by left.
Qed.

Lemma valid_nonempty x : IsValidObject x = true → x ≠ "".
Proof. by intros Hv ->. Qed.

(** [addNextItemInSliceStreamsToBatch] on those streams. *)
Lemma add_low ss b snt hs x equal :
  op_inv (mkSetOp ss b snt) → Forall2 has_head hs ss → x ∈ hs → (∀ v, v ∈ hs → v = x ∨ str_lt x v) →
  NoDup equal → (∀ i, i ∈ equal ↔ hs !! i = Some x) →
  ∃ st', addNextItemInSliceStreamsToBatch NewStatic (mkSetOp ss b snt) equal = (st', Continue) ∧ op_inv st' ∧
    Forall2 (λ s s', s_idx s' = s_idx s ∧ ∀ y, y ∈ stream_items s' ↔ y ∈ stream_items s ∧ y ≠ x) ss (op_streams st') ∧
    sent_items st' = sent_items (mkSetOp ss b snt) ++ [x] ∧ (weights (op_streams st') < weights ss)%nat.
Proof.
  intros Hinv Hh Hx Hlow Hnd Heq. destruct (pop_low ss b snt hs x equal Hinv Hh Hx Hlow Hnd Heq) as (ss'&Hn&Hf&Hinv'&Habove&Hbelow&Hw&Hv).
  unfold addNextItemInSliceStreamsToBatch. simpl. rewrite Hn, (bool_decide_false (x = "")) by by apply valid_nonempty. simpl.
  destruct (op_inv_emit ss' b snt [x] Hinv') as (?&Hs&He).
  - apply ascending_cons. split; [by intros ? ?%not_elem_of_nil|constructor].
  - intros y z Hy ->%list_elem_of_singleton. by apply Hbelow.
  - intros s y z Hs ->%list_elem_of_singleton Hz. by eapply Habove.
  - eexists. split; [done|]. rewrite Hs, He. done.
Qed.

(** *** Loops and results *)

(** A handler that ends and sends the objects of [P], ascending and without error. *)
Definition sends (P : string → Prop) (o : outcome IterErr (list (Msg I))) : Prop :=
  ∃ ms, o = Ret ms ∧ Forall msg_fine ms ∧ ascending (msgs_items ms) ∧ ∀ x, x ∈ msgs_items ms ↔ P x.

Lemma flush_sends st c (P : string → Prop) :
  op_inv st → (∀ w, c ≠ Crash w) → (∀ x, P x ↔ x ∈ sent_items st) → sends P (flush NewStatic (st, c)).
Proof.
  intros Hinv Hc HP. exists (op_sent st ++ if bool_decide (op_batch st = []) then [] else [MsgIter (NewStatic (op_batch st))]).
  assert (msgs_items (op_sent st ++ if bool_decide (op_batch st = []) then [] else [MsgIter (NewStatic (op_batch st))]) = sent_items st) as He.
  { rewrite msgs_items_app. unfold sent_items. case_bool_decide as Hb; [by rewrite Hb|]. unfold msgs_items at 2. simpl.
    by rewrite NewStatic_items, app_nil_r. }
  split_and!.
  - simpl. by destruct c as [| | |w]; [..|destruct (Hc w)].
  - apply Forall_app. split; [apply (oi_fine _ Hinv)|]. case_bool_decide; constructor; [apply NewStatic_yields|constructor].
  - rewrite He. apply (oi_sent _ Hinv).
  - intros x. by rewrite He, HP.
Qed.

Lemma run_op_ind (inv : SetOp I → Prop) (post : SetOp I → Control → Prop) cond body :
  (∀ st, inv st → cond st = true →
    (∃ st', body st = (st', Continue) ∧ inv st' ∧ (weights (op_streams st') < weights (op_streams st))%nat) ∨
    (∃ st' c, body st = (st', c) ∧ c ≠ Continue ∧ post st' c)) →
  (∀ st, inv st → cond st = false → post st Break) →
  ∀ fuel st, inv st → (weights (op_streams st) < fuel)%nat → ∃ st' c, run_op cond body fuel st = (st', c) ∧ post st' c.
Proof.
  intros Hbody Hend fuel. induction fuel as [|fuel IH]; intros st Hst Hw; [lia|]. simpl.
  destruct (cond st) eqn:Hc; [|by eauto]. destruct (Hbody st Hst Hc) as [(st'&->&Hst'&Hw')|(st'&c&->&Hne&Hpost)].
  - apply IH; [done|lia].
  - exists st', c. split; [by destruct c|done].
Qed.

Lemma weights_fuel ss : Forall stream_ok ss → (weights ss < op_fuel ss)%nat.
Proof.
  assert (∀ s, stream_ok s → weight s ≤ stream_fuel s)%nat as Hone.
  { intros s (_&Hs&Hg). unfold weight, stream_fuel.
    assert (sum_list (msg_weight <$> s_source s) ≤
      sum_list ((λ m, match m with MsgIter it => S (S (remaining it)) | MsgError _ => 2%nat end) <$> s_source s))%nat.
    { induction Hs as [|m ms Hm _ IHm]; [done|]. unfold fmap in *. simpl. destruct m as [it|]; simpl; [pose proof (remaining_yields it Hm)|]; lia. }
    destruct (s_buffer s) as [b|]; [pose proof (remaining_yields b (Hg b eq_refl))|]; lia. }
  intros Hok. unfold weights, op_fuel. apply Nat.lt_succ_r. induction Hok as [|s ss Hs _ IH]; [done|]. specialize (Hone s Hs).
  change (weight s + sum_list (weight <$> ss) ≤ stream_fuel s + sum_list (stream_fuel <$> ss))%nat. lia.
Qed.

(** ** Union *)

Definition some_item (ss : list (Stream I)) (x : string) : Prop := ∃ s, s ∈ ss ∧ x ∈ stream_items s.

Lemma some_item_clean ss x : Forall stream_ok ss → some_item (omap refill ss) x ↔ some_item ss x.
Proof.
  intros Hok. destruct (clean_streams ss Hok) as (_&_&_&Hfrom&Hto&_). unfold some_item. split.
  - intros (s'&Hs'&Hx). destruct (Hfrom s' Hs') as (s&Hs&_&_&He&_). exists s. by rewrite <-He.
  - intros (s&Hs&Hx). destruct (Hto s Hs) as [(s'&Hs'&_&_&He&_)|He]; [exists s'; by rewrite He|]. rewrite He in Hx. by apply not_elem_of_nil in Hx.
Qed.

Lemma some_item_same ss ss' x : Forall2 same_stream ss ss' → some_item ss' x ↔ some_item ss x.
Proof.
  intros Hf. unfold some_item. split.
  - intros (s'&Hs'&Hx). destruct (Forall2_elem_r _ _ _ _ Hf Hs') as (s&Hs&_&_&He&_). exists s. by rewrite <-He.
  - intros (s&Hs&Hx). destruct (Forall2_elem_l _ _ _ _ Hf Hs) as (s'&Hs'&_&_&He&_). exists s'. by rewrite He.
Qed.

Definition union_inv (P : string → Prop) (st : SetOp I) : Prop :=
  op_inv st ∧ ∀ x, P x ↔ x ∈ sent_items st ∨ some_item (op_streams st) x.

Definition op_post (P : string → Prop) (st : SetOp I) (c : Control) : Prop :=
  op_inv st ∧ (∀ w, c ≠ Crash w) ∧ ∀ x, P x ↔ x ∈ sent_items st.

Lemma min_picked h hs x equal :
  pick (λ v minObject, String.ltb v minObject) 0 "" [] (h :: hs) = (x, equal) →
  x ∈ h :: hs ∧ (∀ v, v ∈ h :: hs → v = x ∨ str_lt x v) ∧ NoDup equal ∧ ∀ i, i ∈ equal ↔ (h :: hs) !! i = Some x.
Proof.
  intros Hp. pose proof (pick_picked (λ v m, String.ltb v m)) as Hk. specialize (Hk ltac:(apply str_ltb_trans) str_ltb_irrefl).
  specialize (Hk str_ltb_false h hs). rewrite Hp in Hk. exact Hk.
Qed.

Lemma union_body_step P st :
  union_inv P st → op_streams st ≠ [] →
  ∃ st', union_body NewStatic st = (st', Continue) ∧ union_inv P st' ∧ (weights (op_streams st') < weights (op_streams st))%nat.
Proof.
  intros [Hinv HP] Hne. destruct st as [ss b snt]. simpl in *. unfold union_body, clean. simpl.
  rewrite (CleanDone_refill ss (oi_ok _ Hinv)). simpl. pose proof (op_inv_clean _ _ _ Hinv) as Hinv1.
  destruct (clean_streams ss (oi_ok _ Hinv)) as (Hok1&Hb1&Hw1&_&_&Hcase).
  setoid_rewrite <-(some_item_clean ss _ (oi_ok _ Hinv)) in HP.
  destruct (omap refill ss) as [|s1 ss1] eqn:E.
  { simpl. destruct (op_inv_emit [] b snt [] Hinv1) as (?&Hs&He); [constructor|by intros ?? _ ?%not_elem_of_nil|by intros ??? ?%not_elem_of_nil|].
    rewrite !app_nil_r in *. unfold addNextItemInSliceStreamsToBatch. simpl. eexists. split; [done|]. unfold union_inv. rewrite Hs, He. split; [done|].
    destruct Hcase as [Hf|(_&?&_)]; [by apply Forall2_nil_inv_r in Hf|done]. }
  destruct (heads_spec (λ v m, String.ltb v m) (s1 :: ss1) 0 "" [] Hok1 Hb1) as (r&ss2&->&Hsame&Hr).
  pose proof (op_inv_advanced (λ _, False) _ _ _ _ Hinv1 (same_advanced_all _ _ _ Hsame)) as Hinv2.
  pose proof (advanced_weights _ _ _ (same_advanced_all (λ _, False) _ _ Hsame)) as Hw2.
  setoid_rewrite <-(some_item_same _ _ _ Hsame) in HP.
  destruct r as [x equal| | |]; [|eexists; split; [done|]; split; [by split|simpl; lia]|done..].
  destruct Hr as (hs&Hh&Hp). destruct hs as [|h hs]; [by apply Forall2_nil_inv_l in Hh as ->; apply Forall2_nil_inv_r in Hsame|].
  apply min_picked in Hp as (Hx&Hlow&Hnd&Heq).
  destruct (add_low ss2 b snt (h :: hs) x equal Hinv2 Hh Hx Hlow Hnd Heq) as (st'&->&Hinv'&Hf&He&Hw').
  exists st'. split; [done|]. split; [|simpl; lia]. split; [done|]. intros y. rewrite HP, He, elem_of_app, list_elem_of_singleton.
  assert (some_item ss2 x) as Hsx.
  { destruct (Forall2_elem_l _ _ _ _ Hh Hx) as (s&Hs&(l&Hl)%has_head_items). exists s. split; [done|]. rewrite Hl. by left. }
  assert (some_item ss2 y ↔ y = x ∨ some_item (op_streams st') y) as ->; [|tauto]. split.
  - intros (s&Hs&Hy). destruct (decide (y = x)) as [->|Hyx]; [by left|right].
    destruct (Forall2_elem_l _ _ _ _ Hf Hs) as (s'&Hs'&_&Hiff). exists s'. split; [done|]. by apply Hiff.
  - intros [->|(s'&Hs'&Hy)]; [done|]. destruct (Forall2_elem_r _ _ _ _ Hf Hs') as (s&Hs&_&Hiff). exists s. split; [done|]. by apply Hiff.
Qed.

(** A channel that brings valid objects, ascending and without error. *)
Definition channel_ok (ms : list (Msg I)) : Prop :=
  Forall msg_fine ms ∧ ascending (msgs_items ms) ∧ ∀ x, x ∈ msgs_items ms → IsValidObject x = true.

Lemma elem_of_open (chans : list (list (Msg I))) s :
  s ∈ imap NewStream chans ↔ ∃ i ms, chans !! i = Some ms ∧ s = NewStream i ms.
Proof. rewrite elem_of_lookup_imap. naive_solver. Qed.

Lemma open_streams_inv (chans : list (list (Msg I))) : Forall channel_ok chans → op_inv (mkSetOp (imap NewStream chans) [] []).
Proof.
  rewrite Forall_forall. intros Hc. split; simpl.
  - rewrite Forall_forall. intros s (i&ms&Hms&->)%elem_of_open. split; [done|]. split; [by eapply Hc, list_elem_of_lookup_2|done].
  - intros s (i&ms&Hms&->)%elem_of_open. unfold stream_items, buffer_items. simpl. by eapply Hc, list_elem_of_lookup_2.
  - intros s x (i&ms&Hms&->)%elem_of_open. unfold stream_items, buffer_items. simpl. eapply Hc. by eapply list_elem_of_lookup_2.
  - done.
  - constructor.
  - intros s x y Hx. by apply not_elem_of_nil in Hx.
Qed.

Lemma fastPathUnion_exact (chans : list (list (Msg I))) :
  Forall channel_ok chans →
  sends (λ x, ∃ ms, ms ∈ chans ∧ x ∈ msgs_items ms) (fastPathUnion NewStatic (imap NewStream chans)).
Proof.
  intros Hc. set (P := λ x, ∃ ms, ms ∈ chans ∧ x ∈ msgs_items ms). unfold fastPathUnion.
  destruct (run_op_ind (union_inv P) (op_post P) (λ st, negb (bool_decide (op_streams st = []))) (union_body NewStatic))
    with (fuel := op_fuel (imap NewStream chans)) (st := mkSetOp (imap NewStream chans) [] []) as (st&c&->&Hinv&Hcr&HP).
  - intros st Hst Hne. left. apply union_body_step; [done|]. by case_bool_decide.
  - intros st [Hinv HP] He. split_and!; [done..|]. intros x. rewrite HP. apply negb_false_iff, bool_decide_eq_true in He. unfold some_item.
    rewrite He. set_solver.
  - split; [by apply open_streams_inv|]. intros x. simpl. unfold P, some_item, sent_items. simpl. split.
    + intros (ms&[i Hi]%list_elem_of_lookup&Hx). right. exists (NewStream i ms). split; [|done]. apply elem_of_open. by exists i, ms.
    + intros [Hx%not_elem_of_nil|(s&(i&ms&Hms&->)%elem_of_open&Hx)]; [done|]. exists ms. split; [by eapply list_elem_of_lookup_2|done].
  - by apply weights_fuel, (oi_ok _ (open_streams_inv _ Hc)).
  - by apply flush_sends.
Qed.

(** ** Intersection *)

Definition all_items (ss : list (Stream I)) (x : string) : Prop := ∀ s, s ∈ ss → x ∈ stream_items s.

Lemma all_items_same ss ss' x : Forall2 same_stream ss ss' → all_items ss' x ↔ all_items ss x.
Proof.
  intros Hf. unfold all_items. split; intros Hall s Hs.
  - destruct (Forall2_elem_l _ _ _ _ Hf Hs) as (s'&Hs'&_&_&He&_). rewrite <-He. by apply Hall.
  - destruct (Forall2_elem_r _ _ _ _ Hf Hs) as (s'&Hs'&_&_&He&_). rewrite He. by apply Hall.
Qed.

Definition inter_inv (P : string → Prop) (n : nat) (st : SetOp I) : Prop :=
  op_inv st ∧ length (op_streams st) = n ∧ ∀ x, P x ↔ x ∈ sent_items st ∨ all_items (op_streams st) x.

Lemma max_picked h hs x equal :
  pick (λ v maxObject, String.ltb maxObject v) 0 "" [] (h :: hs) = (x, equal) →
  x ∈ h :: hs ∧ (∀ v, v ∈ h :: hs → v = x ∨ str_lt v x) ∧ NoDup equal ∧ ∀ i, i ∈ equal ↔ (h :: hs) !! i = Some x.
Proof.
  intros Hp. pose proof (pick_picked (λ v m, String.ltb m v)) as Hk.
  specialize (Hk ltac:(simpl; intros a b c ??; by eapply str_ltb_trans) str_ltb_irrefl).
  specialize (Hk ltac:(simpl; intros a b [->|?]%str_ltb_false; [by left|by right]) h hs). rewrite Hp in Hk. exact Hk.
Qed.

(** All the streams have the object when as many positions as streams were found. *)
Lemma picked_all (hs : list string) x equal :
  NoDup equal → (∀ i, i ∈ equal ↔ hs !! i = Some x) → (length equal = length hs ↔ ∀ h, h ∈ hs → h = x).
Proof.
  intros Hnd Heq.
  assert (equal ⊆+ seq 0 (length hs)) as Hsub.
  { apply NoDup_submseteq; [done|]. intros i Hi%Heq. apply elem_of_seq. split; [lia|]. by eapply lookup_lt_Some. }
  split.
  - intros Hlen h [i Hi]%list_elem_of_lookup. assert (i ∈ equal) as Hie; [|apply Heq in Hie; congruence].
    rewrite (submseteq_length_Permutation _ _ Hsub) by (rewrite length_seq; lia). apply elem_of_seq. apply lookup_lt_Some in Hi. lia.
  - intros Hall. apply submseteq_length in Hsub as Hle. rewrite length_seq in Hle. apply Nat.le_antisymm; [done|].
    rewrite <-(length_seq (length hs) 0). apply submseteq_length, NoDup_submseteq; [apply NoDup_seq|]. intros i [_ Hi]%elem_of_seq.
    destruct (lookup_lt_is_Some_2 hs i Hi) as [h Hh]. apply Heq. rewrite Hh. f_equal. by eapply Hall, list_elem_of_lookup_2.
Qed.

Lemma intersection_body_step P n st :
  inter_inv P n st → (0 < n)%nat →
  (∃ st', intersection_body NewStatic n st = (st', Continue) ∧ inter_inv P n st' ∧ (weights (op_streams st') < weights (op_streams st))%nat) ∨
  (∃ st' c, intersection_body NewStatic n st = (st', c) ∧ c ≠ Continue ∧ op_post P st' c).
Proof.
  intros (Hinv&Hn&HP) Hpos. destruct st as [ss b snt]. simpl in *. unfold intersection_body, clean. simpl.
  rewrite (CleanDone_refill ss (oi_ok _ Hinv)). simpl. pose proof (op_inv_clean _ _ _ Hinv) as Hinv1.
  destruct (clean_streams ss (oi_ok _ Hinv)) as (Hok1&Hb1&Hw1&_&_&Hcase). destruct Hcase as [Hsame0|(Hlt&_&s0&Hs0&Hnil)].
  2:{ right. destruct (length (omap refill ss) =? n)%nat eqn:E; [apply Nat.eqb_eq in E; lia|]. simpl. eexists _, _. split; [done|].
      split; [done|]. split_and!; [done..|]. intros x. rewrite HP. split; [|by left]. intros [?|Hall]; [done|].
      specialize (Hall s0 Hs0). rewrite Hnil in Hall. by apply not_elem_of_nil in Hall. }
  left. pose proof (Forall2_length _ _ _ Hsame0) as Hlen. rewrite <-Hlen, Hn, Nat.eqb_refl. simpl.
  setoid_rewrite <-(all_items_same _ _ _ Hsame0) in HP.
  destruct (heads_spec (λ v m, String.ltb m v) (omap refill ss) 0 "" [] Hok1 Hb1) as (r&ss2&->&Hsame&Hr).
  pose proof (op_inv_advanced (λ _, False) _ _ _ _ Hinv1 (same_advanced_all _ _ _ Hsame)) as Hinv2.
  pose proof (advanced_weights _ _ _ (same_advanced_all (λ _, False) _ _ Hsame)) as Hw2.
  pose proof (Forall2_length _ _ _ Hsame) as Hlen2.
  setoid_rewrite <-(all_items_same _ _ _ Hsame) in HP.
  destruct r as [x equal| | |]; [|eexists; split; [done|]; split; [split_and!; [done|simpl; lia|done]|simpl; lia]|done..].
  destruct Hr as (hs&Hh&Hp). pose proof (Forall2_length _ _ _ Hh) as Hlen3. destruct hs as [|h hs]; [simpl in *; lia|].
  apply max_picked in Hp as (Hx&Hhigh&Hnd&Heq). pose proof (picked_all _ _ _ Hnd Heq) as Hall.
  assert (∀ y, all_items ss2 y → y = x ∨ str_lt x y) as Hge.
  { intros y Hy. destruct (Forall2_elem_l _ _ _ _ Hh Hx) as (sx&Hsx&(l&Hl)%has_head_items).
    pose proof (oi_asc _ Hinv2 sx Hsx) as Hasc. pose proof (Hy sx Hsx) as Hin. rewrite Hl in *.
    apply ascending_cons in Hasc as [Hlt _]. apply elem_of_cons in Hin as [->|Hin]; [by left|right; by apply Hlt]. }
  assert (length equal = n ↔ length equal = length (h :: hs)) as Hlen4 by (rewrite Hlen3; lia).
  destruct (length equal =? n)%nat eqn:E.
  - apply Nat.eqb_eq in E. pose proof (proj1 Hall (proj1 Hlen4 E)) as Hsamex.
    destruct (add_low ss2 b snt (h :: hs) x equal Hinv2 Hh Hx) as (st'&->&Hinv'&Hf&He&Hw'); [intros v Hv; left; by apply Hsamex|done..|].
    exists st'. split; [done|]. split; [|simpl; lia]. split_and!; [done|rewrite <-(Forall2_length _ _ _ Hf); lia|].
    intros y. rewrite HP, He, elem_of_app, list_elem_of_singleton.
    assert (all_items ss2 y ↔ y = x ∨ all_items (op_streams st') y) as ->; [|tauto]. split.
    + intros Hy. destruct (decide (y = x)) as [->|Hyx]; [by left|right]. intros s' Hs'.
      destruct (Forall2_elem_r _ _ _ _ Hf Hs') as (s&Hs&_&Hiff). apply Hiff. split; [by apply Hy|done].
    + intros [->|Hy] s Hs.
      * destruct (Forall2_elem_r _ _ _ _ Hh Hs) as (v&Hv&(l&Hl)%has_head_items). rewrite Hl, (Hsamex v Hv). by left.
      * destruct (Forall2_elem_l _ _ _ _ Hf Hs) as (s'&Hs'&_&Hiff). by apply Hiff, Hy.
  - apply Nat.eqb_neq in E. rewrite Hlen4, Hall in E.
    assert (∃ v, v ∈ h :: hs ∧ str_lt v x) as Hex.
    { destruct (decide (Forall (λ v, v = x) (h :: hs))) as [Hf|Hf]; [by rewrite Forall_forall in Hf|].
      apply not_Forall_Exists, Exists_exists in Hf as (v&Hv&Hvx); [|apply _]. exists v. split; [done|]. by destruct (Hhigh v Hv). }
    destruct (Forall2_elem_l _ _ _ _ Hh Hx) as (sx&Hsx&Hhx). pose proof (has_head_items _ _ Hhx) as (lx&Hlx).
    destruct (skip_all_spec x (h :: hs) ss2) as (ss3&->&Hadv&Hw3).
    + apply (oi_valid _ Hinv2 sx x Hsx). rewrite Hlx. by left.
    + apply (oi_ok _ Hinv2).
    + done.
    + specialize (Hw3 Hex). eexists. split; [done|]. split; [|simpl; lia].
      split_and!; [by eapply op_inv_advanced|simpl; rewrite <-(Forall2_length _ _ _ Hadv); lia|].
      intros y. rewrite HP. simpl. assert (all_items ss2 y ↔ all_items ss3 y) as ->; [|done]. split.
      * intros Hy s' Hs'. destruct (Forall2_elem_r _ _ _ _ Hadv Hs') as (s&Hs&Ha). eapply advanced_keeps; [exact Ha|by apply Hy|].
        destruct (Hge y Hy) as [->|?]; [apply str_lt_irrefl|by apply str_lt_asym].
      * intros Hy s Hs. destruct (Forall2_elem_l _ _ _ _ Hadv Hs) as (s'&Hs'&Ha). by eapply advanced_elem, Hy.
Qed.

Lemma fastPathIntersection_exact (chans : list (list (Msg I))) :
  chans ≠ [] → Forall channel_ok chans →
  sends (λ x, ∀ ms, ms ∈ chans → x ∈ msgs_items ms) (fastPathIntersection NewStatic (imap NewStream chans)).
Proof.
  intros Hne Hc. set (P := λ x, ∀ ms, ms ∈ chans → x ∈ msgs_items ms). unfold fastPathIntersection. rewrite length_imap.
  destruct (run_op_ind (inter_inv P (length chans)) (op_post P) (λ st, (length (op_streams st) =? length chans)%nat) (intersection_body NewStatic (length chans)))
    with (fuel := op_fuel (imap NewStream chans)) (st := mkSetOp (imap NewStream chans) [] []) as (st&c&->&Hinv&Hcr&HP).
  - intros st Hst _. apply intersection_body_step; [done|]. destruct chans; [done|simpl; lia].
  - intros st (_&Hlen&_) He. apply Nat.eqb_neq in He. lia.
  - split_and!; [by apply open_streams_inv|simpl; by rewrite length_imap|]. intros x. simpl. unfold P, all_items, sent_items. simpl. split.
    + intros Hx. right. intros s (i&ms&Hms&->)%elem_of_open. by eapply Hx, list_elem_of_lookup_2.
    + intros [Hx%not_elem_of_nil|Hx] ms [i Hi]%list_elem_of_lookup; [done|]. apply (Hx (NewStream i ms)), elem_of_open. by exists i, ms.
  - by apply weights_fuel, (oi_ok _ (open_streams_inv _ Hc)).
  - by apply flush_sends.
Qed.

(** ** Difference *)

Definition diff_inv (P : string → Prop) (st : SetOp I) : Prop :=
  op_inv st ∧ ∃ sb sd, op_streams st = [sb; sd] ∧ s_idx sb = BaseIndex ∧ s_idx sd = DifferenceIndex ∧
    ∀ x, P x ↔ x ∈ sent_items st ∨ (x ∈ stream_items sb ∧ x ∉ stream_items sd).

(** The first loop ends with the base alone, or without it. *)
Definition diff_post (P : string → Prop) (st : SetOp I) (c : Control) : Prop :=
  c = Break ∧ op_inv st ∧
  ((∃ sb, op_streams st = [sb] ∧ s_idx sb = BaseIndex ∧ ∀ x, P x ↔ x ∈ sent_items st ∨ x ∈ stream_items sb) ∨
   ((op_streams st = [] ∨ ∃ sd, op_streams st = [sd] ∧ s_idx sd = DifferenceIndex) ∧ ∀ x, P x ↔ x ∈ sent_items st)).

Lemma diff_heads_spec sb sd :
  stream_ok sb → stream_ok sd → is_Some (s_buffer sb) → is_Some (s_buffer sd) →
  ∃ r sb' sd', diff_heads 0 "" "" [sb; sd] = (r, [sb'; sd']) ∧ same_stream sb sb' ∧ same_stream sd sd' ∧
    match r with
    | BothHeads base diff => has_head base sb' ∧ has_head diff sd'
    | OneDone => (weight sb' + weight sd' < weight sb + weight sd)%nat
    | _ => False
    end.
Proof.
  intros Hokb Hokd [bb Hbb] [bd Hbd]. simpl. destruct (buffer_cases sb bb Hbb) as [Hnil|(x&Hx)].
  { destruct (Head_done bb sb Hokb Hbb Hnil) as (sb'&->&?&?&_). simpl. exists OneDone, sb', sd.
    split; [done|]. split; [done|]. split; [by apply same_stream_refl|unfold weight in *; lia]. }
  destruct (Head_head x sb Hokb Hx) as (sb'&->&Hb&Hxb&_). assert (weight sb' ≤ weight sb)%nat by apply Hb.
  destruct (buffer_cases sd bd Hbd) as [Hnil|(y&Hy)].
  { destruct (Head_done bd sd Hokd Hbd Hnil) as (sd'&->&?&?&_). simpl. exists OneDone, sb', sd'.
    split; [done|]. split; [done|]. split; [done|unfold weight in *; lia]. }
  destruct (Head_head y sd Hokd Hy) as (sd'&->&Hd&Hyd&_). simpl. by eexists _, sb', sd'.
Qed.

Lemma Forall2_pair (R : Stream I → Stream I → Prop) a b l : Forall2 R [a; b] l → ∃ a' b', l = [a'; b'] ∧ R a a' ∧ R b b'.
Proof. intros (a'&l'&?&(b'&l''&?&->%Forall2_nil_inv_l&->)%Forall2_cons_inv_l&->)%Forall2_cons_inv_l. by exists a', b'. Qed.

(** The first loop, once both streams have a head. *)
Lemma difference_heads_step P sb sd b snt x y :
  op_inv (mkSetOp [sb; sd] b snt) → s_idx sb = BaseIndex → s_idx sd = DifferenceIndex →
  (∀ z, P z ↔ z ∈ sent_items (mkSetOp [sb; sd] b snt) ∨ (z ∈ stream_items sb ∧ z ∉ stream_items sd)) →
  has_head x sb → has_head y sd →
  ∃ st', (if x =s y then
            match NextItemInSliceStreams [sb; sd] [BaseIndex; DifferenceIndex] with
            | (Throw err, streams) => send_error streams b snt err
            | (Panic w, streams) => (mkSetOp streams b snt, Crash w)
            | (Ret _, streams) => (mkSetOp streams b snt, Continue)
            end
          else if String.ltb x y
          then addNextItemInSliceStreamsToBatch NewStatic (mkSetOp [sb; sd] b snt) [BaseIndex]
          else
            let '(r, s) := SkipToTargetObject x sd in
            match r with
            | Throw err => send_error [sb; s] b snt err
            | Panic w => (mkSetOp [sb; s] b snt, Crash w)
            | Ret _ => (mkSetOp [sb; s] b snt, Continue)
            end) = (st', Continue) ∧
    diff_inv P st' ∧ (weights (op_streams st') < weights [sb; sd])%nat.
Proof.
  intros Hinv Hib Hid HP Hx Hy.
  assert (Forall2 has_head [x; y] [sb; sd]) as Hh by (by repeat constructor).
  destruct (has_head_items x sb Hx) as [lx Hlx]. destruct (has_head_items y sd Hy) as [ly Hly].
  pose proof (oi_asc _ Hinv sd ltac:(set_solver)) as Hascd. rewrite Hly in Hascd. apply ascending_cons in Hascd as [Hlty _].
  pose proof (oi_asc _ Hinv sb ltac:(set_solver)) as Hascb. rewrite Hlx in Hascb. apply ascending_cons in Hascb as [Hltx _].
  case_bool_decide as Hxy.
  - subst y. destruct (pop_low [sb; sd] b snt [x; x] x [BaseIndex; DifferenceIndex] Hinv Hh) as (ss'&->&Hf&Hinv'&_&_&Hw&_).
    + by left.
    + intros v Hv. left. set_solver.
    + repeat constructor; set_solver.
    + intros i. destruct i as [|[|i]]; simpl; [set_solver..|]. split; [set_solver|done].
    + eexists. split; [done|]. split; [|done]. split; [done|]. apply Forall2_pair in Hf as (sb'&sd'&->&[Hib' Hb']&[Hid' Hd']).
      exists sb', sd'. split_and!; [done|congruence..|]. intros z. rewrite HP, Hb', Hd'. unfold sent_items. simpl.
      rewrite Hlx, Hly, !elem_of_cons. destruct (decide (z = x)); naive_solver.
  - destruct (String.ltb x y) eqn:Hlt.
    + destruct (add_low [sb; sd] b snt [x; y] x [BaseIndex] Hinv Hh) as (st'&->&Hinv'&Hf&He&Hw).
      * by left.
      * intros v [->|[->|?%not_elem_of_nil]%elem_of_cons]%elem_of_cons; [by left|by right|done].
      * apply NoDup_singleton.
      * intros i. rewrite list_elem_of_singleton. destruct i as [|[|i]]; simpl; [done|split; [done|congruence]|done].
      * exists st'. split; [done|]. split; [|done]. split; [done|]. apply Forall2_pair in Hf as (sb'&sd'&->&[Hib' Hb']&[Hid' Hd']).
        exists sb', sd'. split_and!; [done|congruence..|]. intros z. rewrite HP, He, elem_of_app, list_elem_of_singleton, Hb', Hd'.
        assert (x ∉ stream_items sd) as Hxd.
        { rewrite Hly, elem_of_cons. intros [?|Hin]; [done|]. eapply str_lt_asym; [exact Hlt|by apply Hlty]. }
        assert (x ∈ stream_items sb) by (rewrite Hlx; by left).
        destruct (decide (z = x)) as [->|]; naive_solver.
    + assert (str_lt y x) as Hyx by (destruct (str_ltb_false _ _ Hlt); [done|done]).
      destruct (SkipToTargetObject_spec x y sd) as (sd'&->&Hadv&Hw).
      * apply (oi_valid _ Hinv sb x); [by left|]. rewrite Hlx. by left.
      * pose proof (oi_ok _ Hinv) as Hok. simpl in Hok. by repeat apply Forall_cons_1 in Hok as [? Hok].
      * done.
      * eexists. split; [done|]. specialize (Hw Hyx). split; [|simpl; rewrite !weights_cons; lia].
        assert (Forall2 (advanced (λ z, str_lt z x)) [sb; sd] [sb; sd']) as Hadvs.
        { constructor; [|constructor; [done|constructor]]. apply same_advanced, same_stream_refl. pose proof (oi_ok _ Hinv) as Hok. by apply Forall_cons_1 in Hok as [? _]. }
        split; [by eapply op_inv_advanced|]. exists sb, sd'. split_and!; [done..|destruct Hadv as (_&?&_); congruence|].
        intros z. rewrite HP. simpl. assert (z ∈ stream_items sb → z ∈ stream_items sd ↔ z ∈ stream_items sd') as Hiff; [|naive_solver].
        intros Hz. split; [|by apply (advanced_elem _ _ _ _ Hadv)]. intros Hzd. eapply advanced_keeps; [done..|].
        rewrite Hlx in Hz. apply elem_of_cons in Hz as [->|Hz]; [apply str_lt_irrefl|]. by apply str_lt_asym, Hltx.
Qed.

Lemma difference_body_step P st :
  diff_inv P st →
  (∃ st', difference_body NewStatic st = (st', Continue) ∧ diff_inv P st' ∧ (weights (op_streams st') < weights (op_streams st))%nat) ∨
  (∃ st' c, difference_body NewStatic st = (st', c) ∧ c ≠ Continue ∧ diff_post P st' c ∧ (weights (op_streams st') ≤ weights (op_streams st))%nat).
Proof.
  intros (Hinv&sb&sd&Hss&Hib&Hid&HP). destruct st as [ss b snt]. simpl in *. subst ss. unfold difference_body, clean. cbn [op_streams op_batch op_sent].
  rewrite (CleanDone_refill [sb; sd] (oi_ok _ Hinv)). pose proof (op_inv_clean _ _ _ Hinv) as Hinv1.
  pose proof (oi_ok _ Hinv) as Hok. simpl in Hok. apply Forall_cons_1 in Hok as [Hokb [Hokd _]%Forall_cons_1].
  pose proof (refill_spec sb Hokb) as Hrb. pose proof (refill_spec sd Hokd) as Hrd.
  assert (omap refill [sb; sd] = match refill sb with Some s => [s] | None => [] end ++ match refill sd with Some s => [s] | None => [] end) as He.
  { simpl. destruct (refill sb), (refill sd); done. }
  destruct (clean_streams [sb; sd] (oi_ok _ Hinv)) as (_&_&Hcw&_).
  rewrite He in *. clear He. unfold sent_items in HP. simpl in HP.
  destruct (refill sb) as [sb1|], (refill sd) as [sd1|]; cbn [app op_streams length Nat.eqb negb] in *.
  - destruct Hrb as (Hsb&Hbb&_), Hrd as (Hsd&Hbd&_). left.
    destruct (diff_heads_spec sb1 sd1) as (r&sb2&sd2&->&Hsb2&Hsd2&Hr); [apply Hsb|apply Hsd|done|done|].
    assert (op_inv (mkSetOp [sb2; sd2] b snt)) as Hinv2.
    { eapply (op_inv_advanced (λ _, False)); [exact Hinv1|]. apply same_advanced_all. by constructor; [|constructor; [|constructor]]. }
    assert (stream_items sb2 = stream_items sb) as Eb by (transitivity (stream_items sb1); [apply Hsb2|apply Hsb]).
    assert (stream_items sd2 = stream_items sd) as Ed by (transitivity (stream_items sd1); [apply Hsd2|apply Hsd]).
    assert (s_idx sb2 = BaseIndex) as Ib by (transitivity (s_idx sb1); [apply Hsb2|transitivity (s_idx sb); [apply Hsb|done]]).
    assert (s_idx sd2 = DifferenceIndex) as Id by (transitivity (s_idx sd1); [apply Hsd2|transitivity (s_idx sd); [apply Hsd|done]]).
    assert (weight sb1 ≤ weight sb ∧ weight sd1 ≤ weight sd ∧ weight sb2 ≤ weight sb1 ∧ weight sd2 ≤ weight sd1)%nat as Hws by
      (split_and!; [apply Hsb|apply Hsd|apply Hsb2|apply Hsd2]).
    assert (∀ z, P z ↔ z ∈ sent_items (mkSetOp [sb2; sd2] b snt) ∨ (z ∈ stream_items sb2 ∧ z ∉ stream_items sd2)) as HP2.
    { intros z. rewrite Eb, Ed. apply HP. }
    destruct r as [x y| | |]; [|eexists; split; [done|]; split; [split; [done|by exists sb2, sd2]|weigh]|done..].
    destruct Hr as [Hx Hy]. destruct (difference_heads_step P sb2 sd2 b snt x y Hinv2 Ib Id HP2 Hx Hy) as (st'&Hst&?&Hw).
    exists st'. split; [rewrite <-Hst; simpl; by destruct (SkipToTargetObject x sd2) as [[]]|]. split; [done|]. weigh.
  - destruct Hrb as (Hsb&_), Hrd as (Hnil&_). right. eexists _, _. split; [done|]. split; [done|]. split; [|done]. split_and!; [done..|]. left.
    exists sb1. split_and!; [done|transitivity (s_idx sb); [apply Hsb|done]|]. intros z. rewrite HP, Hnil.
    assert (stream_items sb1 = stream_items sb) as -> by apply Hsb. unfold sent_items. simpl. set_solver.
  - destruct Hrb as (Hnil&_), Hrd as (Hsd&_). right. eexists _, _. split; [done|]. split; [done|]. split; [|done]. split_and!; [done..|]. right.
    split; [right; exists sd1; split; [done|transitivity (s_idx sd); [apply Hsd|done]]|]. intros z. rewrite HP, Hnil. unfold sent_items. simpl. set_solver.
  - destruct Hrb as (Hnil&_). right. eexists _, _. split; [done|]. split; [done|]. split; [|done]. split_and!; [done..|]. right.
    split; [by left|]. intros z. rewrite HP, Hnil. unfold sent_items. simpl. set_solver.
Qed.

(** The second loop drains the base. *)
Definition drain_inv (P : string → Prop) (st : SetOp I) : Prop :=
  op_inv st ∧ (op_streams st = [] ∨ ∃ s, op_streams st = [s] ∧ is_Some (s_buffer s)) ∧
  ∀ x, P x ↔ x ∈ sent_items st ∨ some_item (op_streams st) x.

(** [CleanDone] on one stream. *)
Lemma clean_one P s b snt :
  op_inv (mkSetOp [s] b snt) → (∀ x, P x ↔ x ∈ sent_items (mkSetOp [s] b snt) ∨ x ∈ stream_items s) →
  ∃ ss, CleanDone [s] = (Ret tt, ss) ∧ drain_inv P (mkSetOp ss b snt) ∧ (weights ss ≤ weights [s])%nat ∧
    (ss = [] ∨ ∃ s', ss = [s'] ∧ s_idx s' = s_idx s).
Proof.
  intros Hinv HP. exists (omap refill [s]). rewrite (CleanDone_refill [s] (oi_ok _ Hinv)). split; [done|].
  destruct (clean_streams [s] (oi_ok _ Hinv)) as (_&Hb&Hw&Hfrom&_&_). split; [|split; [done|]].
  - split_and!; [by apply op_inv_clean| |].
    + simpl in *. destruct (refill s) as [s'|]; [right|by left]. exists s'. split; [done|]. by apply Forall_cons_1 in Hb as [? _].
    + intros x. rewrite HP. simpl. rewrite (some_item_clean [s] x (oi_ok _ Hinv)). unfold some_item. set_solver.
  - simpl in *. destruct (refill s) as [s'|]; [right|by left]. exists s'. split; [done|].
    destruct (Hfrom s') as (s0&->%list_elem_of_singleton&_&?&_); [by left|done].
Qed.

Lemma drain_body_step P st :
  drain_inv P st → length (op_streams st) = 1%nat →
  ∃ st', drain_body NewStatic st = (st', Continue) ∧ drain_inv P st' ∧ (weights (op_streams st') < weights (op_streams st))%nat.
Proof.
  intros (Hinv&[Hn|(s&Hss&[buf Hb])]&HP) Hlen; [by rewrite Hn in Hlen|]. destruct st as [ss b snt]. simpl in *. subst ss. unfold drain_body. simpl.
  pose proof (oi_ok _ Hinv) as Hok. simpl in Hok. apply Forall_cons_1 in Hok as [Hok _].
  destruct (Drain_loop_spec (S (buffer_fuel s)) [] buf s Hok Hb) as (s'&Hdrain&Hok'&Hidx&Hit&Hw).
  { unfold buffer_fuel. rewrite Hb. destruct Hok as (_&_&Hg). pose proof (remaining_yields buf (Hg buf Hb)). lia. }
  unfold Stream_Drain. rewrite Hdrain. simpl.
  pose proof (oi_asc _ Hinv s ltac:(by left)) as Hasc. rewrite Hit in Hasc. apply ascending_prefix in Hasc as [Hasc Hlt].
  destruct (op_inv_emit [s'] b snt (yields buf)) as (Hinv'&Hs'&He).
  - apply (op_inv_sub [s]); [done|]. intros s0 ->%list_elem_of_singleton. split; [done|]. exists s, (yields buf). split; [by left|done].
  - done.
  - intros x y Hx Hy. apply (oi_below _ Hinv s x y); [done|by left|]. rewrite Hit. apply elem_of_app. by left.
  - intros s0 x y ->%list_elem_of_singleton. apply Hlt.
  - destruct (send_full NewStatic [s'] (b ++ yields buf) snt) as [ss2 b2 snt2]. simpl in *. subst ss2.
    destruct (clean_one P s' b2 snt2 Hinv') as (ss3&Hclean&Hinv3&Hw3&_).
    + intros x. rewrite HP, He, elem_of_app. split.
      * intros [?|(s0&->%list_elem_of_singleton&Hx)]; [by left; left|]. rewrite Hit in Hx. apply elem_of_app in Hx as [?|?]; [by left; right|by right].
      * intros [[?|?]|?]; [by left|right; exists s; split; [by left|]; rewrite Hit; apply elem_of_app; by left|].
        right. exists s. split; [by left|]. rewrite Hit. apply elem_of_app. by right.
    + unfold clean. simpl. rewrite Hclean. eexists. split; [done|]. split; [done|]. weigh.
Qed.

Lemma fastPathDifference_exact (base diff : list (Msg I)) :
  channel_ok base → channel_ok diff →
  sends (λ x, x ∈ msgs_items base ∧ x ∉ msgs_items diff) (fastPathDifference NewStatic (imap NewStream [base; diff])).
Proof.
  intros Hbase Hdiff. set (P := λ x, x ∈ msgs_items base ∧ x ∉ msgs_items diff). unfold fastPathDifference.
  assert (op_inv (mkSetOp (imap NewStream [base; diff]) [] [])) as Hinv0 by (apply open_streams_inv; by constructor; [|constructor; [|constructor]]).
  set (W := weights (imap NewStream [base; diff])).
  destruct (run_op_ind (λ st, diff_inv P st ∧ (weights (op_streams st) ≤ W)%nat) (λ st c, diff_post P st c ∧ (weights (op_streams st) ≤ W)%nat)
      (λ st, (length (op_streams st) =? 2)%nat) (difference_body NewStatic))
    with (fuel := op_fuel (imap NewStream [base; diff])) (st := mkSetOp (imap NewStream [base; diff]) [] []) as (st&c&->&(->&Hinv&Hpost)&HW).
  - intros st [Hst HW] _. destruct (difference_body_step P st Hst) as [(st'&?&?&?)|(st'&c&?&?&?&?)]; [left; exists st'|right; exists st', c].
    + split; [done|]. split; [split; [done|lia]|done].
    + split; [done|]. split; [done|]. split; [done|lia].
  - intros st [(_&sb&sd&Hss&_) _] Hc. by rewrite Hss in Hc.
  - split; [|done]. split; [done|]. simpl. eexists _, _. split_and!; [done..|]. intros x. unfold sent_items. simpl. unfold P. set_solver.
  - by apply weights_fuel, (oi_ok _ Hinv0).
  - destruct st as [ss b snt]. simpl in Hpost. unfold clean. cbn [op_streams op_batch op_sent].
    destruct Hpost as [(sb&->&Hib&HP)|[[->|(sd&->&Hid)] HP]].
    + destruct (clean_one P sb b snt Hinv HP) as (ss'&->&Hdi&Hw&Hcase).
      destruct Hcase as [->|(s'&->&Hidx)].
      { apply (flush_sends (mkSetOp [] b snt) Return); [apply Hdi|done|]. intros x. destruct Hdi as (_&_&HP'). rewrite HP'. unfold some_item. set_solver. }
      cbn [op_streams length Nat.eqb andb]. change ([s'] !! BaseIndex) with (Some s'). cbn beta iota. rewrite Hidx, Hib, Nat.eqb_refl.
      destruct (run_op_ind (drain_inv P) (op_post P) (λ st, (length (op_streams st) =? 1)%nat) (drain_body NewStatic))
        with (fuel := op_fuel (imap NewStream [base; diff])) (st := mkSetOp [s'] b snt) as (st'&c'&->&Hinv'&Hcr&HP').
      * intros st' Hst Hlen%Nat.eqb_eq. left. by apply drain_body_step.
      * intros st' (Hinv'&[He|(s0&He&_)]&HP') Hc; [|by rewrite He in Hc]. split_and!; [done..|]. intros x. rewrite HP', He. unfold some_item. set_solver.
      * done.
      * pose proof (weights_fuel (imap NewStream [base; diff]) (oi_ok _ Hinv0)) as Hfuel. change (W < op_fuel (imap NewStream [base; diff]))%nat in Hfuel. weigh.
      * by apply flush_sends.
    + by apply (flush_sends (mkSetOp [] b snt) Return).
    + destruct (clean_one (λ x, x ∈ sent_items (mkSetOp [sd] b snt) ∨ x ∈ stream_items sd) sd b snt Hinv) as (ss'&->&Hdi&_&Hcase); [done|].
      destruct Hcase as [->|(s'&->&Hidx)]; [by apply (flush_sends (mkSetOp [] b snt) Return); [apply Hdi|..]|].
      simpl. rewrite Hidx, Hid. by apply (flush_sends (mkSetOp [s'] b snt) Return); [apply Hdi|..].
Qed.

End contents.
