(* ===== verification/FastPath.v ===== *)
(** * The fast paths of Check: [internal/graph/check_fast_path.go]

    When the relations that usersets or a tuple-to-userset lead to need nothing but direct
    tuples of the user's type, Check does not dispatch a check for every userset.  It
    streams, in ascending order, the objects that the user has those relations with
    ([fastPathRewrite], with the set operations of [FastPathStreams.v]), and looks for one
    of them among the usersets of the object ([resolveFastPath]).

    The two sides arrive in an unspecified order: [fan_in] merges the channels of the left
    side, [arrivals] the two sides, and a [FastScheduler] chooses one such order.  The
    cancellation of the request is left out.  Computed usersets take one unit of fuel
    each; a handler that panics takes the process with it, because it closes its channel
    before the recovered panic is sent. *)

From S2P Require Import Prelude GoStd Tuple Iterators Model Memory Typesystem Condition Validation Check.
From S2P Require Import CombinedReader ReverseExpand FastPathStreams.

Local Open Scope go_scope.

(** ** Reading the objects of a user: [internal/checkutil] *)

Definition userFilter (hasPubliclyAssignedType : bool) (user userType : string) : list ObjectRelation :=
  if negb hasPubliclyAssignedType || (user =s TypedPublicWildcard userType) then [mkObjectRelation user ""]
  else [mkObjectRelation user ""; mkObjectRelation (TypedPublicWildcard userType) ""].

Definition BuildUsersetV2RelationFunc (ref : RelationReference) : string := rr_GetRelation ref.
Definition BuildTTUV2RelationFunc (computedRelation : string) (_ : RelationReference) : string := computedRelation.

(** The conditions-filtered iterator behind the interface; its filter is a parameter. *)
Section conditions_iterator.
Context {S : Type} `{!Iterator S TupleKey} (filter : TupleKey → outcome IterErr bool).

Definition conditions_Stop (f : ConditionsFiltered S) : ConditionsFiltered S :=
  mkConditionsFiltered (Stop (cf_iter f)) (cf_lastError f) (cf_onceValid f).

Definition conditions_Iterator : Iterator (ConditionsFiltered S) TupleKey := {|
  Next ctx f := run_loop id f (conditions_Next filter (Datatypes.S (remaining (cf_iter f))) ctx f);
  Head ctx f := run_loop id f (conditions_Head filter (Datatypes.S (remaining (cf_iter f))) ctx f);
  Stop := conditions_Stop;
  remaining f := remaining (cf_iter f);
|}.
End conditions_iterator.

(** A mapper behind the interface. *)
Definition mapper_Iterator {S} (inner : Iterator S TupleKey) (kind : TupleMapperKind) : Iterator (TupleMapper S) string := {|
  Next ctx m := mapper_Next kind ctx m;
  Head ctx m := mapper_Head kind ctx m;
  Stop := mapper_Stop;
  remaining m := remaining (mp_iter m);
|}.

(** ** Messages of the right side: [check.go] *)

(** [usersetMessage]. *)
Inductive usersetMessage := UsersetFound (userset : string) | UsersetError (err : CheckErr).

(** [streamedLookupUsersetFromIterator] over what the filtered iterator yields and how it
    ends; a panic of the iterator is sent as an error. *)
Fixpoint streamedLookupUsersetFromIterator (kind : TupleMapperKind) (keys : list TupleKey) (final : option IterErr)
  : list usersetMessage :=
  match keys with
  | [] => match final with
          | Some e => if IterIsDoneOrCancelled e then [] else [UsersetError (ErrCheckIterator e)]
          | None => [UsersetError ErrPanic]
          end
  | tk :: rest =>
      match doMap kind tk with
      | Ret res => UsersetFound res :: streamedLookupUsersetFromIterator kind rest final
      | Throw e => if IterIsDoneOrCancelled e then [] else [UsersetError (ErrCheckIterator e)]
      | Panic _ => [UsersetError ErrPanic]
      end
  end.

(** [processUsersetMessage]: the primary set with the userset, and whether the secondary
    has it. *)
Definition processUsersetMessage (userset : string) (primarySet secondarySet : gset string) : bool * gset string :=
  (bool_decide (userset ∈ secondarySet), {[userset]} ∪ primarySet).

(** [FanInIteratorChannels]: the messages of every channel in their order, in some order
    across channels. *)
Inductive fan_in {A} : list (list A) → list A → Prop :=
| fan_in_closed chans : Forall (λ c, c = []) chans → fan_in chans []
| fan_in_next chans i m rest out :
    chans !! i = Some (m :: rest) → fan_in (<[i := rest]> chans) out → fan_in chans (m :: out).

Section resolve.
Context {I : Type} `{!Iterator I string}.

(** What the [select] of the consumer receives. *)
Inductive Arrival :=
| LeftMsg (m : Msg I)
| LeftClosed
| RightMsg (m : usersetMessage)
| RightClosed.

(** The order of arrivals: each side in its order and then closed. *)
Inductive arrivals : option (list (Msg I)) → option (list usersetMessage) → list Arrival → Prop :=
| arrivals_end : arrivals None None []
| arrivals_left m l r evs : arrivals (Some l) r evs → arrivals (Some (m :: l)) r (LeftMsg m :: evs)
| arrivals_left_closed r evs : arrivals None r evs → arrivals (Some []) r (LeftClosed :: evs)
| arrivals_right l m r evs : arrivals l (Some r) evs → arrivals l (Some (m :: r)) (RightMsg m :: evs)
| arrivals_right_closed l evs : arrivals l None evs → arrivals l (Some []) (RightClosed :: evs).

(** The inner loop over an iterator of the left side: whether a match was found, the set
    and the last error.  An error that is not the end is remembered and the loop goes on
    with the stopped iterator. *)
Fixpoint consume_left (fuel : nat) (it : I) (leftSet rightSet : gset string) (lastErr : option CheckErr)
  : outcome CheckErr (bool * gset string * option CheckErr) :=
  match fuel with
  | O => Panic "out of fuel"
  | S fuel =>
      match Next None it with
      | (Ret t, it) =>
          let '(found, leftSet) := processUsersetMessage t leftSet rightSet in
          if found then Ret (true, leftSet, None) else consume_left fuel it leftSet rightSet lastErr
      | (Throw e, it) =>
          if IterIsDoneOrCancelled e then Ret (false, leftSet, lastErr)
          else consume_left fuel (Stop it) leftSet rightSet (Some (ErrCheckIterator e))
      | (Panic w, _) => Panic w
      end
  end.

(** [return res, lastErr]. *)
Definition denied_or (lastErr : option CheckErr) : checkOutcome :=
  match lastErr with Some e => Throw e | None => Ret (mkResolveCheckResponse false false) end.

(** [ConsumerLoop], on the arrivals. *)
Fixpoint consumer_loop (leftSet rightSet : gset string) (lastErr : option CheckErr) (evs : list Arrival) : checkOutcome :=
  match evs with
  | [] => denied_or lastErr
  | LeftClosed :: rest =>
      if bool_decide (leftSet = ∅) then denied_or lastErr else consumer_loop leftSet rightSet lastErr rest
  | LeftMsg (MsgError e) :: _ => Throw (ErrCheckIterator e)
  | LeftMsg (MsgIter it) :: rest =>
      match consume_left (S (S (remaining it))) it leftSet rightSet lastErr with
      | Ret (true, _, _) => Ret (mkResolveCheckResponse true false)
      | Ret (false, leftSet, lastErr) => consumer_loop leftSet rightSet lastErr rest
      | Throw e => Throw e
      | Panic w => Panic w
      end
  | RightClosed :: rest => consumer_loop leftSet rightSet lastErr rest
  | RightMsg (UsersetError e) :: rest => consumer_loop leftSet rightSet (Some e) rest
  | RightMsg (UsersetFound u) :: rest =>
      let '(found, rightSet) := processUsersetMessage u rightSet leftSet in
      if found then Ret (mkResolveCheckResponse true false) else consumer_loop leftSet rightSet lastErr rest
  end.

(** Which order the two sides arrive in. *)
Class FastScheduler := {
  fast_arrivals : list (list (Msg I)) → list usersetMessage → list Arrival;
  fast_arrivals_order chans right :
    ∃ left, fan_in chans left ∧ arrivals (Some left) (Some right) (fast_arrivals chans right);
}.

(** [resolveFastPath]: the first message of the right side is waited for. *)
Definition resolveFastPath `{!FastScheduler} (leftChans : list (list (Msg I))) (right : list usersetMessage) : checkOutcome :=
  match right with
  | [] => Ret (mkResolveCheckResponse false false)
  | UsersetError e :: _ => Throw e
  | UsersetFound u :: rest => consumer_loop ∅ {[u]} None (fast_arrivals leftChans rest)
  end.
End resolve.
Arguments FastScheduler I : clear implicits.
Arguments Arrival I : clear implicits.

Section fast_path.
Context `{!ModelGraph, !Cel, !StartingReader}.
Context (typesys : TypeSystem) (conds : gmap string EvaluableCondition) (reqCtx : option Struct).

Abbreviation filtered_iter := (filteredTupleKeyIterator (tupleKeyIterator sr_iter) TupleKey).
Abbreviation object_iter := (TupleMapper (ConditionsFiltered filtered_iter)).

(** The iterators that the channels carry: batches, and objects read from the datastore. *)
Definition string_iter : Type := StaticIterator string + object_iter.

#[local] Instance object_Iterator : Iterator object_iter string :=
  mapper_Iterator (conditions_Iterator (condition_filter conds reqCtx)) ObjectIDKind.
#[local] Instance string_Iterator : Iterator string_iter string := either_Iterator.

Definition NewStatic (batch : list string) : string_iter := inl (NewStaticIterator batch).

Abbreviation channel := (list (Msg string_iter)).

(** [IteratorReadStartingFromUser]; the reads of the datastore in scope are the sorted ones. *)
Definition IteratorReadStartingFromUser (req : ResolveCheckRequest) (objectRel : string) (objectIDs : option (list string))
  : outcome StorageErr (ConditionsFiltered filtered_iter) :=
  let user := User (rq_TupleKey req) in
  let userType := GetType user in
  let '(objectType, relation) := SplitObjectRelation objectRel in
  let hasPubliclyAssignedType := or_false (IsPubliclyAssignable typesys (DirectRelationReference objectType relation) userType) in
  let! iter := rd_ReadStartingWithUser (rq_StoreID req)
                 (mkReadStartingWithUserFilter objectType relation (userFilter hasPubliclyAssignedType user userType) objectIDs) in
  Ret (NewConditionsFiltered
         (NewFilteredTupleKeyIterator (NewTupleKeyIteratorFromTupleIterator iter) (FilterInvalidTuples typesys))).

Definition fastPathNoop : outcome CheckErr channel := Ret [].

Definition fastPathDirect (req : ResolveCheckRequest) : outcome CheckErr channel :=
  let tk := rq_TupleKey req in
  let objRel := ToObjectRelationString (GetType (Object tk)) (Relation tk) in
  match IteratorReadStartingFromUser req objRel None with
  | Throw e => Throw (ErrDatastore e)
  | Panic w => Panic w
  | Ret i => Ret [MsgIter (inr (WrapIterator_ i false))]
  end.

(** The channels of the operands, or the first error. *)
Fixpoint all_channels (chans : list (outcome CheckErr channel)) : outcome CheckErr (list channel) :=
  match chans with
  | [] => Ret []
  | producerChan :: rest =>
      let! c := producerChan in
      let! cs := all_channels rest in
      Ret (c :: cs)
  end.

Definition fastPathOperationSetup (resolver : list (Stream string_iter) → outcome IterErr (list (Msg string_iter)))
    (children : list (outcome CheckErr channel)) : outcome CheckErr channel :=
  let! chans := all_channels children in
  match resolver (imap NewStream chans) with
  | Ret out => Ret out
  | Throw e => Panic "unreachable"
  | Panic w => Panic w
  end.

Section rewrite.
(** [fastPathRewrite] for the relation of a computed userset. *)
Context (rewrite_rec : ResolveCheckRequest → Userset → outcome CheckErr channel).

Definition with_relation (req : ResolveCheckRequest) (object relation : string) : ResolveCheckRequest :=
  mkResolveCheckRequest (rq_StoreID req) (NewTupleKey object relation (User (rq_TupleKey req)))
    (rq_Context req) (rq_Depth req) (rq_VisitedPaths req).

Definition fastPathComputed (req : ResolveCheckRequest) (computedRelation : string) : outcome CheckErr channel :=
  let childRequest := with_relation req (Object (rq_TupleKey req)) computedRelation in
  match Typesystem.GetRelation typesys (GetType (Object (rq_TupleKey childRequest))) computedRelation with
  | Throw e => Throw (ErrTypesystem e)
  | Panic w => Panic w
  | Ret rel => rewrite_rec childRequest (rel_Rewrite rel)
  end.

Fixpoint fastPathRewrite_cases (req : ResolveCheckRequest) (rewrite : Userset) : outcome CheckErr channel :=
  match rewrite with
  | Userset_This => fastPathDirect req
  | Userset_ComputedUserset _ relation => fastPathComputed req relation
  | Userset_Union child => fastPathOperationSetup (fastPathUnion NewStatic) (fastPathRewrite_cases req <$> child)
  | Userset_Intersection child => fastPathOperationSetup (fastPathIntersection NewStatic) (fastPathRewrite_cases req <$> child)
  | Userset_Difference base subtract =>
      fastPathOperationSetup (fastPathDifference NewStatic) [fastPathRewrite_cases req base; fastPathRewrite_cases req subtract]
  | Userset_TupleToUserset _ _ => fastPathNoop
  | Userset_nil => Throw ErrUnknownSetOperator
  end.
End rewrite.

Fixpoint fastPathRewrite (fuel : nat) (req : ResolveCheckRequest) (rewrite : Userset) : outcome CheckErr channel :=
  match fuel with
  | O => Throw ErrCheckFuel
  | S fuel => fastPathRewrite_cases (fastPathRewrite fuel) req rewrite
  end.

(** Enough for the computed usersets of a type. *)
Definition rewrite_fuel (objectType : string) : nat := S (size (default ∅ (relations typesys !! objectType))).

(** [produceLeftChannels]; types without the relation are skipped. *)
Fixpoint produceLeftChannels (req : ResolveCheckRequest) (relationReferences : list RelationReference)
    (relationFunc : RelationReference → string) : outcome CheckErr (list channel) :=
  match relationReferences with
  | [] => Ret []
  | parentType :: rest =>
      let relation := relationFunc parentType in
      match Typesystem.GetRelation typesys (rr_Type parentType) relation with
      | Ret rel =>
          let r := with_relation req (BuildObject (rr_Type parentType) "ignore") relation in
          let! leftChan := fastPathRewrite (rewrite_fuel (rr_Type parentType)) r (rel_Rewrite rel) in
          let! leftChans := produceLeftChannels req rest relationFunc in
          Ret (leftChan :: leftChans)
      | Throw _ => produceLeftChannels req rest relationFunc
      | Panic w => Panic w
      end
  end.

Context `{!FastScheduler string_iter}.

Definition checkUsersetFastPathV2 (req : ResolveCheckRequest) (read : list TupleKey * option IterErr) : checkOutcome :=
  let objectType := GetType (Object (rq_TupleKey req)) in
  let directlyRelatedUsersetTypes :=
    match DirectlyRelatedUsersets typesys objectType (Relation (rq_TupleKey req)) with Ret l => l | _ => [] end in
  let! leftChans := produceLeftChannels req directlyRelatedUsersetTypes BuildUsersetV2RelationFunc in
  if bool_decide (leftChans = []) then Ret (mkResolveCheckResponse false false)
  else resolveFastPath leftChans (streamedLookupUsersetFromIterator UsersetKind read.1 read.2).

Definition checkTTUFastPathV2 (req : ResolveCheckRequest) (rewrite : Userset) (read : list TupleKey * option IterErr) : checkOutcome :=
  let objectType := GetType (Object (rq_TupleKey req)) in
  let '(tuplesetRelation, computedRelation) :=
    match rewrite with Userset_TupleToUserset tupleset computed => (tupleset, computed) | _ => ("", "") end in
  match GetDirectlyRelatedUserTypes typesys objectType tuplesetRelation with
  | Throw e => Throw (ErrTypesystem e)
  | Panic w => Panic w
  | Ret possibleParents =>
      let! leftChans := produceLeftChannels req possibleParents (BuildTTUV2RelationFunc computedRelation) in
      if bool_decide (leftChans = []) then Ret (mkResolveCheckResponse false false)
      else resolveFastPath leftChans (streamedLookupUsersetFromIterator TTUKind read.1 read.2)
  end.
End fast_path.

(** The fast paths for relations of weight two, where [canUserset] and [canTTU] select them;
    the recursive ones are not selected. *)
Definition weight2_paths `{!ModelGraph, !Cel, !StartingReader, !FastScheduler string_iter}
    (typesys : TypeSystem) (conds : gmap string EvaluableCondition)
    (canUserset : string → string → string → list RelationReference → bool)
    (canTTU : string → string → string → string → string → bool) : FastPaths := {|
  Check.UsersetCanFastPathWeight2 := canUserset;
  Check.RecursiveUsersetCanFastPathV2 _ _ _ := false;
  Check.TTUCanFastPathWeight2 := canTTU;
  Check.RecursiveTTUCanFastPathV2 _ _ _ _ _ := false;
  Check.checkUsersetFastPathV2 req := checkUsersetFastPathV2 typesys conds (rq_Context req) req;
  Check.recursiveUsersetFastPathV2 _ _ := Panic "not selected";
  Check.checkTTUFastPathV2 req := checkTTUFastPathV2 typesys conds (rq_Context req) req;
  Check.recursiveTTUFastPathV2 _ _ _ := Panic "not selected";
|}.
