(* ===== verification/FastPathSpec.v ===== *)
(** * The fast paths of Check are exact

    [fastPathRewrite] streams exactly the objects of a type that the user has a relation
    with, when the relation needs nothing but direct tuples of the user's type; the fast
    paths of usersets and tuple-to-usersets then answer what the dispatched checks would,
    whatever the order of arrival. *)

From stdpp Require Import relations.
From S2P Require Import Prelude GoStd Tuple Iterators Model Memory MemorySpec Typesystem Entrypoints TypesystemSpec.
From S2P Require Import Condition Validation ValidationSpec Check CheckSpec CheckSemantics CheckExact CombinedReader ReverseExpand.
From S2P Require Import FastPathStreams FastPathStreamsSpec FastPath.

Local Open Scope go_scope.

(** ** Iterators in a good state through the wrappers *)

(** An iterator that meets its contract in every state. *)
Definition spec_Good {S T} `{!Iterator S T, !IteratorSpec S T} : GoodIterator S T.
Proof.
  refine {| good _ := True; yields := items |}.
  - intros s _. pose proof (Next_items s) as HN. destruct (items s); destruct HN as (s'&?&?); eauto.
  - intros s _. pose proof (Head_items s) as HN. destruct (items s); destruct HN as (s'&?&?); eauto.
  - intros s _. apply remaining_items.
Defined.

(** The documents 1 and 3 without the document 3. *)
Definition two_channels : list (list (Msg (StaticIterator string))) :=
  [[MsgIter (NewStaticIterator ["doc:1"; "doc:3"])]; [MsgIter (NewStaticIterator ["doc:3"])]].


Section tuple_key_good.
Context {S : Type} `{!Iterator S Tuple, !GoodIterator S Tuple}.

Definition tupleKey_yields (t : tupleKeyIterator S) : list TupleKey := Key <$> yields (tk_iter t).

Lemma tupleKey_Next_good t :
  good (tk_iter t) →
  match tupleKey_yields t with
  | x :: l => ∃ t', tupleKey_Next None t = (Ret x, t') ∧ good (tk_iter t') ∧ tupleKey_yields t' = l
  | [] => ∃ t', tupleKey_Next None t = (Throw ErrIteratorDone, t') ∧ good (tk_iter t') ∧ tupleKey_yields t' = []
  end.
Proof.
  destruct t as [i b]. intros Hg. unfold tupleKey_yields, tupleKey_Next; simpl in *. pose proof (Next_yields i Hg) as HN.
  destruct (yields i); simpl; destruct HN as (i'&->&?&Hi'); eexists; (split; [done|]); simpl; by rewrite Hi'.
Qed.

Lemma tupleKey_Head_good t :
  good (tk_iter t) →
  match tupleKey_yields t with
  | x :: l => ∃ t', tupleKey_Head None t = (Ret x, t') ∧ good (tk_iter t') ∧ tupleKey_yields t' = x :: l
  | [] => ∃ t', tupleKey_Head None t = (Throw ErrIteratorDone, t') ∧ good (tk_iter t') ∧ tupleKey_yields t' = []
  end.
Proof.
  destruct t as [i b]. intros Hg. unfold tupleKey_yields, tupleKey_Head; simpl in *. pose proof (Head_yields i Hg) as HN.
  destruct (yields i); simpl; destruct HN as (i'&->&?&Hi'); eexists; (split; [done|]); simpl; by rewrite Hi'.
Qed.

Lemma tupleKey_remaining_good t : good (tk_iter t) → (length (tupleKey_yields t) ≤ remaining (tk_iter t))%nat.
Proof. intros Hg. unfold tupleKey_yields. rewrite length_fmap. by apply remaining_yields. Qed.

Global Instance tupleKey_Good : GoodIterator (tupleKeyIterator S) TupleKey :=
  Build_GoodIterator _ _ tupleKey_Iterator (λ t, good (tk_iter t)) tupleKey_yields
    tupleKey_Next_good tupleKey_Head_good tupleKey_remaining_good.
End tuple_key_good.

Section filtered_good.
Context {S T : Type} `{!Iterator S T, !GoodIterator S T} (filter : T → bool).

Lemma filtered_Next_good fuel : ∀ s, good s → (length (yields s) < fuel)%nat →
  match List.filter filter (yields s) with
  | x :: l => ∃ s', filtered_Next filter fuel None s = Some (Ret x, s') ∧ good s' ∧ List.filter filter (yields s') = l
  | [] => ∃ s', filtered_Next filter fuel None s = Some (Throw ErrIteratorDone, s') ∧ good s' ∧ yields s' = []
  end.
Proof.
  induction fuel as [|fuel IH]; intros s Hg Hf; [lia|]. simpl. pose proof (Next_yields s Hg) as HN.
  destruct (yields s) as [|x l]; simpl; destruct HN as (s'&->&Hg'&Hs'); [by eauto|]. destruct (filter x); [by rewrite <-Hs'; eauto|].
  specialize (IH s' Hg'). rewrite Hs' in IH. apply IH. simpl in Hf. lia.
Qed.

Lemma filtered_Head_good fuel : ∀ s, good s → (length (yields s) < fuel)%nat →
  match List.filter filter (yields s) with
  | x :: l => ∃ s', filtered_Head filter fuel None s = Some (Ret x, s') ∧ good s' ∧ List.filter filter (yields s') = x :: l
  | [] => ∃ s', filtered_Head filter fuel None s = Some (Throw ErrIteratorDone, s') ∧ good s' ∧ yields s' = []
  end.
Proof.
  induction fuel as [|fuel IH]; intros s Hg Hf; [lia|]. simpl. pose proof (Head_yields s Hg) as HH.
  destruct (yields s) as [|x l]; simpl; destruct HH as (s'&->&Hg'&Hs'); [by eauto|]. destruct (filter x) eqn:Hx.
  { exists s'. rewrite Hs'. simpl. by rewrite Hx. }
  pose proof (Next_yields s' Hg') as HN. rewrite Hs' in HN. destruct HN as (s''&->&Hg''&Hs'').
  specialize (IH s'' Hg''). rewrite Hs'' in IH. apply IH. simpl in Hf. lia.
Qed.
End filtered_good.

Global Instance filtered_Good {S T} `{!Iterator S T, !GoodIterator S T} : GoodIterator (filteredTupleKeyIterator S T) T.
Proof.
  refine (@Build_GoodIterator (filteredTupleKeyIterator S T) T filtered_Iterator (λ f, @good S T _ _ (ft_iter f)) (λ f, List.filter (ft_filter f) (@yields S T _ _ (ft_iter f))) _ _ _).
  - intros [i p b] Hg; simpl in *. unfold filteredTupleKey_Next; cbn [ft_iter ft_filter].
    pose proof (filtered_Next_good p (Datatypes.S (remaining i)) i Hg) as HN. pose proof (remaining_yields i Hg).
    destruct (List.filter p (yields i)); destruct HN as (s'&->&?&Hs'); [lia| |lia|]; eexists; (split; [done|]); simpl; by rewrite Hs'.
  - intros [i p b] Hg; simpl in *. unfold filteredTupleKey_Head; cbn [ft_iter ft_filter].
    pose proof (filtered_Head_good p (Datatypes.S (remaining i)) i Hg) as HN. pose proof (remaining_yields i Hg).
    destruct (List.filter p (yields i)); destruct HN as (s'&->&?&Hs'); [lia| |lia|]; eexists; (split; [done|]); simpl; by rewrite Hs'.
  - intros [i p b] Hg; simpl in *. etrans; [|by apply remaining_yields]. rewrite filter_length_le. done.
Defined.

(** Conditions that can be decided on everything the iterator yields. *)
Section conditions_good.
Context {S : Type} `{!Iterator S TupleKey, !GoodIterator S TupleKey} (filter : TupleKey → outcome IterErr bool).

Definition met (tk : TupleKey) : bool := match filter tk with Ret true => true | _ => false end.
Definition decided (l : list TupleKey) : Prop := ∀ tk, tk ∈ l → ∃ b, filter tk = Ret b.

Lemma conditions_Next_good fuel : ∀ s once, good s → decided (yields s) → (length (yields s) < fuel)%nat →
  match List.filter met (yields s) with
  | x :: l => ∃ s' once', conditions_Next filter fuel None (mkConditionsFiltered s None once) = Some (Ret x, mkConditionsFiltered s' None once') ∧
      good s' ∧ List.filter met (yields s') = l ∧ decided (yields s')
  | [] => ∃ s', conditions_Next filter fuel None (mkConditionsFiltered s None once) = Some (Throw ErrIteratorDone, mkConditionsFiltered s' None once) ∧
      good s' ∧ yields s' = []
  end.
Proof.
  induction fuel as [|fuel IH]; intros s once Hg Hd Hf; [lia|]. simpl. pose proof (Next_yields s Hg) as HN. unfold decided in Hd.
  destruct (yields s) as [|x l]; simpl; destruct HN as (s'&->&Hg'&Hs'); [destruct once; eauto|].
  destruct (Hd x) as [b Hb]; [by left|]. unfold met at 1. rewrite Hb.
  assert (decided (yields s')) as Hd' by (intros tk Htk; rewrite Hs' in Htk; apply Hd; by right).
  destruct b; [rewrite <-Hs'; by eauto 10|]. specialize (IH s' once Hg' Hd'). rewrite Hs' in IH. apply IH. simpl in Hf. lia.
Qed.

Lemma conditions_Head_good fuel : ∀ s once, good s → decided (yields s) → (length (yields s) < fuel)%nat →
  match List.filter met (yields s) with
  | x :: l => ∃ s' once', conditions_Head filter fuel None (mkConditionsFiltered s None once) = Some (Ret x, mkConditionsFiltered s' None once') ∧
      good s' ∧ List.filter met (yields s') = x :: l ∧ decided (yields s')
  | [] => ∃ s', conditions_Head filter fuel None (mkConditionsFiltered s None once) = Some (Throw ErrIteratorDone, mkConditionsFiltered s' None once) ∧
      good s' ∧ yields s' = []
  end.
Proof.
  induction fuel as [|fuel IH]; intros s once Hg Hd Hf; [lia|]. simpl. pose proof (Head_yields s Hg) as HH. unfold decided in Hd.
  destruct (yields s) as [|x l]; simpl; destruct HH as (s'&->&Hg'&Hs'); [destruct once; eauto|].
  destruct (Hd x) as [b Hb]; [by left|]. unfold met at 1. rewrite Hb. destruct b.
  { exists s', true. split; [done|]. rewrite Hs'. simpl. unfold met at 1. by rewrite Hb. }
  pose proof (Next_yields s' Hg') as HN. rewrite Hs' in HN. destruct HN as (s''&->&Hg''&Hs'').
  assert (decided (yields s'')) as Hd'' by (intros tk Htk; rewrite Hs'' in Htk; apply Hd; by right).
  specialize (IH s'' once Hg'' Hd''). rewrite Hs'' in IH. apply IH. simpl in Hf. lia.
Qed.

Definition conditions_Good : @GoodIterator (ConditionsFiltered S) TupleKey (conditions_Iterator filter).
Proof.
  refine (@Build_GoodIterator _ _ (conditions_Iterator filter)
    (λ f, good (cf_iter f) ∧ decided (yields (cf_iter f)) ∧ cf_lastError f = None) (λ f, List.filter met (yields (cf_iter f))) _ _ _).
  - intros [s e once] (Hg&Hd&He). cbn [cf_iter cf_lastError Next Head conditions_Iterator] in *. subst e. pose proof (remaining_yields s Hg).
    pose proof (conditions_Next_good (Datatypes.S (remaining s)) s once Hg Hd ltac:(lia)) as HN.
    destruct (List.filter met (yields s)); [destruct HN as (s'&->&?&Hs')|destruct HN as (s'&once'&->&?&?&?)].
    + eexists. split; [done|]. simpl. rewrite Hs'. split_and!; [done|by intros ? ?%not_elem_of_nil|done..].
    + by eexists.
  - intros [s e once] (Hg&Hd&He). cbn [cf_iter cf_lastError Next Head conditions_Iterator] in *. subst e. pose proof (remaining_yields s Hg).
    pose proof (conditions_Head_good (Datatypes.S (remaining s)) s once Hg Hd ltac:(lia)) as HN.
    destruct (List.filter met (yields s)); [destruct HN as (s'&->&?&Hs')|destruct HN as (s'&once'&->&?&?&?)].
    + eexists. split; [done|]. simpl. rewrite Hs'. split_and!; [done|by intros ? ?%not_elem_of_nil|done..].
    + by eexists.
  - intros [s e once] (Hg&_). simpl in *. etrans; [|by apply remaining_yields]. rewrite filter_length_le. done.
Defined.
End conditions_good.

(** The objects of the keys of an iterator. *)
Section object_good.
Context {S : Type} {inner : Iterator S TupleKey} (Hin : @GoodIterator S TupleKey inner).

Definition object_yields (m : TupleMapper S) : list string := Object <$> yields (mp_iter m).

Definition object_Good : @GoodIterator (TupleMapper S) string (mapper_Iterator inner ObjectIDKind).
Proof.
  refine (@Build_GoodIterator _ _ (mapper_Iterator inner ObjectIDKind) (λ m, good (mp_iter m)) object_yields _ _ _).
  - intros [s st] Hg. unfold object_yields. simpl in *. unfold mapper_Next. simpl. pose proof (Next_yields s Hg) as HN.
    destruct (yields s); destruct HN as (s'&->&?&Hs'); eexists; (split; [done|]); simpl; by rewrite Hs'.
  - intros [s st] Hg. unfold object_yields. simpl in *. unfold mapper_Head. simpl. pose proof (Head_yields s Hg) as HN.
    destruct (yields s); destruct HN as (s'&->&?&Hs'); eexists; (split; [done|]); simpl; by rewrite Hs'.
  - intros [s st] Hg. unfold object_yields. simpl in *. rewrite length_fmap. by apply remaining_yields.
Defined.
End object_good.

Definition either_Good {A B T} {ia : Iterator A T} {ib : Iterator B T} (Ha : GoodIterator A T) (Hb : GoodIterator B T)
  : GoodIterator (A + B) T.
Proof.
  refine {| good x := match x with inl a => good a | inr b => good b end;
            yields x := match x with inl a => yields a | inr b => yields b end |}.
  - intros [a|b] Hg; simpl; [pose proof (Next_yields a Hg) as HN|pose proof (Next_yields b Hg) as HN];
      destruct (yields _); destruct HN as (x'&->&?&?); by eexists.
  - intros [a|b] Hg; simpl; [pose proof (Head_yields a Hg) as HN|pose proof (Head_yields b Hg) as HN];
      destruct (yields _); destruct HN as (x'&->&?&?); by eexists.
  - intros [a|b] Hg; simpl; by apply remaining_yields.
Defined.

(** ** Matching the two sides *)

Section resolve_spec.
Context {I : Type} `{!Iterator I string, !GoodIterator I string}.

Lemma consume_left_spec fuel : ∀ it leftSet rightSet e,
  good it → (length (yields it) < fuel)%nat →
  match consume_left fuel it leftSet rightSet e with
  | Ret (true, _, _) => ∃ x, x ∈ yields it ∧ x ∈ rightSet
  | Ret (false, leftSet', e') => e' = e ∧ (∀ x, x ∈ leftSet' ↔ x ∈ leftSet ∨ x ∈ yields it) ∧ ∀ x, x ∈ yields it → x ∉ rightSet
  | _ => False
  end.
Proof.
  induction fuel as [|fuel IH]; intros it leftSet rightSet e Hg Hf; [lia|]. cbn [consume_left]. pose proof (Next_yields it Hg) as HN.
  destruct (yields it) as [|x l]; destruct HN as (it'&->&Hg'&Hy).
  { simpl. split_and!; [done|set_solver|set_solver]. }
  cbn [processUsersetMessage]. case_bool_decide as Hx; [exists x; by split; [left|]|].
  specialize (IH it' ({[x]} ∪ leftSet) rightSet e Hg'). rewrite Hy in IH. specialize (IH ltac:(simpl in Hf; lia)).
  destruct (consume_left fuel it' _ _ _) as [[[[] L] e']| |]; [|destruct IH as (->&HL&Hr)|done..].
  - destruct IH as (y&?&?). exists y. split; [by right|done].
  - split_and!; [done|set_solver|set_solver].
Qed.

(** The usersets of messages without error. *)
Definition right_fine (m : usersetMessage) : Prop := match m with UsersetFound _ => True | UsersetError _ => False end.

Lemma consumer_loop_spec l r evs :
  arrivals l r evs → ∀ leftSet rightSet,
  Forall msg_fine (default [] l) → Forall right_fine (default [] r) → (∀ x, x ∈ leftSet → x ∉ rightSet) →
  ∃ b, consumer_loop leftSet rightSet None evs = Ret (mkResolveCheckResponse b false) ∧
    (b = true ↔ ∃ x, (x ∈ leftSet ∨ x ∈ msgs_items (default [] l)) ∧ (x ∈ rightSet ∨ UsersetFound x ∈ default [] r)).
Proof.
  induction 1 as [|m l r evs Hev IH|r evs Hev IH|l m r evs Hev IH|l evs Hev IH]; intros leftSet rightSet Hl Hr Hdis; cbn [consumer_loop default] in *.
  - exists false. split; [done|]. unfold msgs_items. set_solver.
  - apply Forall_cons_1 in Hl as [Hm Hl]. destruct m as [it|]; [|done]. simpl in Hm. pose proof (remaining_yields it Hm) as Hrem.
    pose proof (consume_left_spec (S (S (remaining it))) it leftSet rightSet None Hm ltac:(lia)) as Hc.
    destruct (consume_left _ _ _ _ _) as [[[[] L] e']| |]; [|destruct Hc as (->&HL&Hno)|done..].
    + exists true. split; [done|]. split; [|done]. intros _. destruct Hc as (x&?&?). exists x. split; [right|by left].
      unfold msgs_items. simpl. apply elem_of_app. by left.
    + destruct (IH L rightSet Hl Hr) as (b&->&Hb); [set_solver|]. exists b. split; [done|]. rewrite Hb. unfold msgs_items. simpl.
      setoid_rewrite elem_of_app. setoid_rewrite HL. fold (msgs_items l). clear -Hno. naive_solver.
  - case_bool_decide as He.
    + exists false. split; [done|]. subst. unfold msgs_items. set_solver.
    + destruct (IH leftSet rightSet) as (b&->&Hb); [constructor|done..|]. by exists b.
  - apply Forall_cons_1 in Hr as [Hm Hr]. destruct m as [u|]; [|done]. cbn [processUsersetMessage]. case_bool_decide as Hu.
    + exists true. split; [done|]. split; [|done]. intros _. exists u. split; [by left|right]. by left.
    + destruct (IH leftSet ({[u]} ∪ rightSet) Hl Hr) as (b&->&Hb); [set_solver|]. exists b. split; [done|]. rewrite Hb.
      setoid_rewrite elem_of_cons. setoid_rewrite elem_of_union. setoid_rewrite elem_of_singleton.
      split; intros (x&H1&H2); exists x; (split; [done|]); naive_solver.
  - destruct (IH leftSet rightSet) as (b&->&Hb); [done|constructor|done|]. by exists b.
Qed.

Lemma fan_in_items (chans : list (list (Msg I))) left :
  fan_in chans left →
  (Forall (Forall msg_fine) chans → Forall msg_fine left) ∧ ∀ x, x ∈ msgs_items left ↔ ∃ c, c ∈ chans ∧ x ∈ msgs_items c.
Proof.
  induction 1 as [chans Hnil|chans i m rest out Hi _ [IH1 IH2]].
  - split; [constructor|]. intros x. split; [by intros ?%not_elem_of_nil|]. intros (c&Hc&Hx). rewrite Forall_forall in Hnil.
    rewrite (Hnil c Hc) in Hx. by apply not_elem_of_nil in Hx.
  - pose proof (lookup_lt_Some _ _ _ Hi) as Hlt.
    assert (∀ c, c ∈ <[i := rest]> chans ↔ c = rest ∨ ∃ j, j ≠ i ∧ chans !! j = Some c) as Hins.
    { intros c. rewrite list_elem_of_lookup. split.
      - intros [j Hj]. destruct (decide (j = i)) as [->|Hne]; [rewrite list_lookup_insert_eq in Hj by done; naive_solver|].
        rewrite list_lookup_insert_ne in Hj by done. right. by exists j.
      - intros [->|(j&Hne&Hj)]; [exists i; by rewrite list_lookup_insert_eq|]. exists j. by rewrite list_lookup_insert_ne. }
    split.
    + intros Hall. rewrite Forall_forall in Hall. pose proof (Hall _ (list_elem_of_lookup_2 _ _ _ Hi)) as [Hm Hrest]%Forall_cons_1.
      constructor; [done|]. apply IH1. rewrite Forall_forall. intros c [->|(j&_&Hj)]%Hins; [done|]. by eapply Hall, list_elem_of_lookup_2.
    + intros x. unfold msgs_items. simpl. rewrite elem_of_app. fold (msgs_items out). rewrite IH2. split.
      * intros [Hx|(c&[->|(j&_&Hj)]%Hins&Hx)]; [exists (m :: rest)|exists (m :: rest)|exists c].
        -- split; [by eapply list_elem_of_lookup_2|]. simpl. apply elem_of_app. by left.
        -- split; [by eapply list_elem_of_lookup_2|]. simpl. apply elem_of_app. by right.
        -- split; [by eapply list_elem_of_lookup_2|done].
      * intros (c&[j Hj]%list_elem_of_lookup&Hx). destruct (decide (j = i)) as [->|Hne].
        -- rewrite Hi in Hj. injection Hj as <-. simpl in Hx. apply elem_of_app in Hx as [?|?]; [by left|right]. exists rest. split; [|done]. apply Hins. by left.
        -- right. exists c. split; [|done]. apply Hins. right. by exists j.
Qed.

(** The fast path finds a userset of the right side among the objects of the left. *)
Lemma resolveFastPath_spec `{!FastScheduler I} chans right :
  Forall (Forall msg_fine) chans → Forall right_fine right →
  ∃ b, resolveFastPath chans right = Ret (mkResolveCheckResponse b false) ∧
    (b = true ↔ ∃ x c, c ∈ chans ∧ x ∈ msgs_items c ∧ UsersetFound x ∈ right).
Proof.
  intros Hc Hr. unfold resolveFastPath. destruct right as [|[u|e] right].
  - exists false. split; [done|]. set_solver.
  - apply Forall_cons_1 in Hr as [_ Hr]. destruct (fast_arrivals_order chans right) as (left&Hfan&Harr).
    destruct (fan_in_items _ _ Hfan) as [Hfine Hitems].
    destruct (consumer_loop_spec _ _ _ Harr ∅ {[u]} (Hfine Hc) Hr) as (b&->&Hb); [set_solver|]. exists b. split; [done|]. rewrite Hb. simpl.
    setoid_rewrite Hitems. setoid_rewrite elem_of_cons. setoid_rewrite elem_of_singleton. split.
    + intros (x&[?%not_elem_of_empty|(c&?&?)]&Hx); [done|]. exists x, c. split_and!; [done..|]. naive_solver.
    + intros (x&c&?&?&Hx). exists x. split; [right; by exists c|]. naive_solver.
  - by apply Forall_cons_1 in Hr as [[] _].
Qed.
End resolve_spec.

Lemma ascending_filter (p : TupleKey → bool) l : ascending (Object <$> l) → ascending (Object <$> List.filter p l).
Proof.
  induction l as [|tk l IH]; [done|]. rewrite fmap_cons. intros [Hlt Hl]%ascending_cons. simpl. destruct (p tk); [|by apply IH].
  rewrite fmap_cons. apply ascending_cons. split; [|by apply IH]. intros y (k&->&[Hk%list_elem_of_In _]%list_elem_of_In%List.filter_In)%list_elem_of_fmap.
  apply Hlt, list_elem_of_fmap. by exists k.
Qed.

(** ** What the fast paths rely on *)

(** A tuple that a read of the objects of [users] asks for. *)
Definition read_matches (ty r : string) (users : list ObjectRelation) (t : Tuple) : Prop :=
  GetType (Object (Key t)) = ty ∧ Relation (Key t) = r ∧ User (Key t) ∈ (target_user <$> users).

(** The sorted reads of a datastore: when no object is asked for twice, they return every
    tuple asked for, by ascending object. *)
Class SortedReaderSpec `{!StartingReader} (store : string) (stored : list Tuple) := {
  #[global] sorted_Good :: GoodIterator sr_iter Tuple;
  ReadStartingWithUser_sorted ty r users : r ≠ "" → users ≠ [] → NoDup (target_user <$> users) →
    (∀ t t', t ∈ stored → t' ∈ stored → read_matches ty r users t → read_matches ty r users t' →
       Object (Key t) = Object (Key t') → t = t') →
    ∃ it, rd_ReadStartingWithUser store (mkReadStartingWithUserFilter ty r users None) = Ret it ∧ good it ∧
      ascending ((λ t, Object (Key t)) <$> yields it) ∧ ∀ t, t ∈ yields it ↔ t ∈ stored ∧ read_matches ty r users t;
}.

(** No intersection without operands. *)
Fixpoint nonempty_intersections (rw : Userset) : bool :=
  match rw with
  | Userset_Union child => forallb nonempty_intersections child
  | Userset_Intersection child => negb (bool_decide (child = [])) && forallb nonempty_intersections child
  | Userset_Difference b s => nonempty_intersections b && nonempty_intersections s
  | _ => true
  end.

(** A relation of weight one for the user: on the way through computed usersets, neither a
    userset restriction nor a tuple-to-userset leads to the user's type. *)
Definition weight_one `{!ModelGraph} (typesys : TypeSystem) (user ty r : string) : Prop :=
  ∀ r' rel, rtc (computed_step typesys ty) r r' → GetRelation typesys ty r' = Ret rel →
    (∀ rr, rr ∈ rel_DirectlyRelatedUserTypes rel → rr_GetRelation rr ≠ "" →
       ¬ path_possible typesys user (rr_Type rr) (rr_GetRelation rr)) ∧
    (∀ ts c tsrel rr, (ts, c) ∈ flattenUserset (rel_Rewrite rel) → GetRelation typesys ty ts = Ret tsrel →
       rr ∈ rel_DirectlyRelatedUserTypes tsrel → ¬ path_possible typesys user (rr_Type rr) c) ∧
    nonempty_intersections (rel_Rewrite rel) = true.

(** No object is assigned both to the user and to everybody of its type. *)
Definition no_public_overlap (tuples : list Tuple) (user : string) : Prop :=
  ∀ t t', t ∈ tuples → t' ∈ tuples → User (Key t) = user → User (Key t') = TypedPublicWildcard (GetType user) →
    user ≠ TypedPublicWildcard (GetType user) → Relation (Key t) = Relation (Key t') → Object (Key t) ≠ Object (Key t').

Record fast_setting `{!ModelGraph, !Cel, !MapRange, !ConditionCompiler}
    (m : AuthorizationModel) (typesys : TypeSystem) (conds : gmap string EvaluableCondition) (tuples : list Tuple)
    (reqCtx : option Struct) (user : string) : Prop := {
  fs_model : NewAndValidate m = Ret typesys;
  fs_names ty r rel : GetRelation typesys ty r = Ret rel → has_byte ":" ty = false ∧ has_byte "#" r = false;
  fs_users t : t ∈ tuples → IsValidUser (User (Key t)) = true;
  fs_objects t : t ∈ tuples → IsValidObject (Object (Key t)) = true;
  fs_decided t : t ∈ tuples → ∃ b, condition_filter conds reqCtx (Key t) = Ret b;
  fs_user : IsValidUser user = true;
  fs_not_userset : IsObjectRelation user = false;
  fs_overlap : no_public_overlap tuples user;
}.

Lemma computed_acyclic `{!ModelGraph} t ty r : computed_terminates t ty r → ¬ tc (computed_step t ty) r r.
Proof.
  induction 1 as [r _ IH]. intros Hc.
  assert (∃ y, computed_step t ty r y ∧ rtc (computed_step t ty) y r) as (y&Hy&Hyr).
  { clear -Hc. inversion Hc as [? ? Hs|? y ? Hs Ht]; subst; [by exists r|]. exists y. split; [done|]. by apply tc_rtc. }
  apply (IH y Hy). eapply tc_rtc_l; [exact Hyr|]. by apply tc_once.
Qed.

(** A path of computed usersets to [r]: its relations are distinct. *)
Definition computed_path `{!ModelGraph} (t : TypeSystem) (ty r : string) (path : list string) : Prop :=
  NoDup (r :: path) ∧
  ∀ v, v ∈ r :: path → v ∈ dom (default ∅ (relations t !! ty)) ∧ rtc (computed_step t ty) v r.

Lemma computed_path_nil `{!ModelGraph} t ty r rel : GetRelation t ty r = Ret rel → computed_path t ty r [].
Proof.
  intros Hrel. split; [apply NoDup_singleton|]. intros v ->%list_elem_of_singleton. split; [|done].
  apply GetRelation_Ret in Hrel as [_ Hl]. by apply elem_of_dom_2 in Hl.
Qed.

Lemma computed_path_length `{!ModelGraph} t ty r path :
  computed_path t ty r path → (length (r :: path) ≤ size (default ∅ (relations t !! ty)))%nat.
Proof. intros [Hnd Hpath]. exact (path_bound _ _ Hnd (λ v Hv, proj1 (Hpath v Hv))). Qed.

Lemma computed_path_cons `{!ModelGraph, !MapRange, !ConditionCompiler} t ty r c rel crel path :
  model_valid t → computed_path t ty r path → GetRelation t ty r = Ret rel → c ∈ computed_leaves (rel_Rewrite rel) →
  GetRelation t ty c = Ret crel → computed_path t ty c (r :: path).
Proof.
  intros Hmv [Hnd Hpath] Hrel Hc Hcrel. assert (computed_step t ty r c) as Hstep by by exists rel. split.
  - constructor; [|done]. intros Hin. apply (computed_acyclic t ty c (mv_acyclic _ Hmv _ _ _ Hcrel)).
    eapply tc_rtc_l; [by apply Hpath|by apply tc_once].
  - intros v [->|Hv]%elem_of_cons.
    + split; [|done]. apply GetRelation_Ret in Hcrel as [_ Hl]. by apply elem_of_dom_2 in Hl.
    + split; [by apply Hpath|]. eapply rtc_r; [by apply Hpath|done].
Qed.

Section rewrite_spec.
Context `{!ModelGraph, !Cel, !MapRange, !ConditionCompiler}.
Context (m : AuthorizationModel) (typesys : TypeSystem) (conds : gmap string EvaluableCondition).
Context `{!RelationshipTupleReader} (store : string) `{!RelationshipTupleReaderSpec store}.
Context `{!StartingReader, !SortedReaderSpec store (stored store)} (reqCtx : option Struct) (user : string).
Hypothesis Hset : fast_setting m typesys conds (stored store) reqCtx user.

Abbreviation tuples := (stored store).
Abbreviation usable := (usable typesys conds tuples reqCtx).
Abbreviation has_some := (has_some typesys conds tuples reqCtx user).
Abbreviation cannot_some := (cannot_some typesys conds tuples reqCtx user).
Abbreviation granted_rw := (granted_rw typesys conds tuples reqCtx user).
Abbreviation refuted_rw := (refuted_rw typesys conds tuples reqCtx user).
Abbreviation wild := (TypedPublicWildcard (GetType user)).

#[local] Instance check_Iterator : Iterator string_iter string := string_Iterator conds reqCtx.
#[local] Instance string_Good : GoodIterator string_iter string :=
  either_Good spec_Good (object_Good (conditions_Good (condition_filter conds reqCtx))).

Lemma NewStatic_good l : good (NewStatic l) ∧ yields (NewStatic l) = l.
Proof. done. Qed.

Lemma user_plain : Tuple.GetRelation user = "".
Proof.
  pose proof (fs_not_userset _ _ _ _ _ _ Hset) as Hn. pose proof (valid_user_facts _ (fs_user _ _ _ _ _ _ Hset)) as (_&_&Hor&_).
  rewrite Hn in Hor. symmetry in Hor. by apply negb_false_iff, bool_decide_eq_true in Hor.
Qed.

Lemma not_self_defining o r : r ≠ "" → self_defining user o r = false.
Proof.
  intros Hr. unfold self_defining, IsSelfDefining. simpl. pose proof user_plain as Hu. unfold Tuple.GetRelation in Hu.
  destruct (SplitObjectRelation user) as [uo ur]. simpl in Hu. subst ur. by rewrite bool_decide_false.
Qed.

Lemma relation_named ty r rel : GetRelation typesys ty r = Ret rel → r ≠ "".
Proof.
  intros Hrel. pose proof (NewAndValidate_valid m typesys (fs_model _ _ _ _ _ _ Hset)) as [Hmv _].
  destruct (mv_names _ Hmv _ _ _ Hrel) as [_ Hn]. unfold name_ok in Hn. set_solver.
Qed.

(** No path of the model: no derivation. *)
Lemma no_path_cannot o r : r ≠ "" → ¬ path_possible typesys user (GetType o) r → cannot_some o r.
Proof. intros Hr Hp. exists 1%nat. split; [by apply not_self_defining|by left]. Qed.

(** The rewrite of a relation decides it. *)
Lemma rewrite_has x c crel :
  GetRelation typesys (GetType x) c = Ret crel → granted_rw has_some cannot_some x c (rel_Rewrite crel) → has_some x c.
Proof.
  intros Hc Hg. destruct (proj1 (rw_limit typesys conds tuples reqCtx user x c (rel_Rewrite crel)) Hg) as [n Hn].
  exists (S n). right. by exists crel.
Qed.

Lemma rewrite_cannot x c crel :
  GetRelation typesys (GetType x) c = Ret crel → refuted_rw has_some cannot_some x c (rel_Rewrite crel) → cannot_some x c.
Proof.
  intros Hc Hr. destruct (proj2 (rw_limit typesys conds tuples reqCtx user x c (rel_Rewrite crel)) Hr) as [n Hn].
  exists (S n). split; [apply not_self_defining; by eapply relation_named|]. right. by exists crel.
Qed.

(** What a channel for a part of a rewrite of relation [r] of [ty] holds. *)
Definition streams_rewrite (ty r : string) (rw : Userset) (ms : list (Msg string_iter)) : Prop :=
  channel_ok ms ∧ (∀ x, x ∈ msgs_items ms → GetType x = ty) ∧
  ∀ x, GetType x = ty → (x ∈ msgs_items ms → granted_rw has_some cannot_some x r rw) ∧
                        (x ∉ msgs_items ms → refuted_rw has_some cannot_some x r rw).

Definition rewrite_ok (ty r : string) (rw : Userset) (o : outcome CheckErr (list (Msg string_iter))) : Prop :=
  ∃ ms, o = Ret ms ∧ streams_rewrite ty r rw ms.

(** *** Direct relations *)

Lemma userFilter_users b :
  target_user <$> userFilter b user (GetType user) = if negb b || bool_decide (user = wild) then [user] else [user; wild].
Proof. unfold userFilter. destruct b; simpl; [case_bool_decide|]; done. Qed.

Lemma public_users ty r o b :
  or_false (IsPubliclyAssignable typesys (DirectRelationReference ty r) (GetType user)) = b → GetType o = ty →
  (usable o r user ∨ usable o r wild ↔ ∃ u, usable o r u ∧ u ∈ (target_user <$> userFilter b user (GetType user))).
Proof.
  intros Hb Hty. rewrite userFilter_users. split.
  - intros [Hu|Hw]; [exists user; split; [done|]; by destruct (negb b || _); left|]. exists wild. split; [done|].
    pose proof (public_checked m typesys conds store reqCtx user (fs_model _ _ _ _ _ _ Hset) (fs_users _ _ _ _ _ _ Hset) o r
      (fs_not_userset _ _ _ _ _ _ Hset) Hw) as Hp. unfold Check.shouldCheckPublicAssignable in Hp. simpl in Hp.
    rewrite (fs_not_userset _ _ _ _ _ _ Hset), Hty, Hb in Hp. rewrite Hp. simpl. case_bool_decide as He; [rewrite <-He; by left|]. by right; left.
  - intros (u&Hu&Hin). destruct (negb b || _); [apply list_elem_of_singleton in Hin as ->; by left|].
    apply elem_of_cons in Hin as [->|Hin]; [by left|]. apply list_elem_of_singleton in Hin as ->. by right.
Qed.

(** The stream of a direct relation: the objects assigned to the user or to everybody. *)
Lemma fastPathDirect_stream ty r rel req :
  GetRelation typesys ty r = Ret rel → rq_StoreID req = store → GetType (Object (rq_TupleKey req)) = ty →
  Relation (rq_TupleKey req) = r → User (rq_TupleKey req) = user →
  ∃ ms, fastPathDirect typesys req = Ret ms ∧ channel_ok ms ∧
    ∀ x, x ∈ msgs_items ms ↔ GetType x = ty ∧ (usable x r user ∨ usable x r wild).
Proof.
  intros Hrel Hstore Hty Hr Hu. unfold fastPathDirect, IteratorReadStartingFromUser. rewrite Hty, Hr, Hu, Hstore.
  rewrite SplitObjectRelation_build by (by eapply (fs_names _ _ _ _ _ _ Hset)).
  set (b := or_false (IsPubliclyAssignable typesys (DirectRelationReference ty r) (GetType user))).
  set (users := userFilter b user (GetType user)).
  destruct (ReadStartingWithUser_sorted ty r users (relation_named _ _ _ Hrel)) as (it&->&Hg&Hasc&Hit).
  { unfold users, userFilter. by destruct (negb b || _). }
  { unfold users. rewrite userFilter_users. destruct (negb b || bool_decide (user = wild)) eqn:Hb; [apply NoDup_singleton|].
    apply orb_false_iff in Hb as [_ Hb%bool_decide_eq_false]. apply NoDup_cons. split; [by rewrite list_elem_of_singleton|apply NoDup_singleton]. }
  { intros t t' Ht Ht' (_&Hrt&Hut) (_&Hrt'&Hut') Ho. unfold users in Hut, Hut'. rewrite userFilter_users in Hut, Hut'.
    destruct (decide (User (Key t) = User (Key t'))) as [He|Hne].
    { apply stored_unique; [done..|]. unfold key_of. congruence. }
    exfalso. destruct (negb b || bool_decide (user = wild)) eqn:Hb; [rewrite list_elem_of_singleton in Hut, Hut'; congruence|].
    apply orb_false_iff in Hb as [_ Hb%bool_decide_eq_false].
    rewrite elem_of_cons, list_elem_of_singleton in Hut, Hut'. destruct Hut as [Hx|Hx], Hut' as [Hy|Hy]; try congruence.
    - exact (fs_overlap _ _ _ _ _ _ Hset t t' Ht Ht' Hx Hy Hb ltac:(congruence) Ho).
    - exact (fs_overlap _ _ _ _ _ _ Hset t' t Ht' Ht Hy Hx Hb ltac:(congruence) (eq_sym Ho)). }
  simpl. set (i := WrapIterator_ _ _). set (ms := [MsgIter (inr i)] : list (Msg string_iter)).
  assert (msgs_items ms = Object <$> List.filter (usable_key typesys conds reqCtx) (Key <$> yields it)) as Hitems.
  { unfold msgs_items. simpl. rewrite app_nil_r. unfold object_yields. simpl. rewrite filter_filter. done. }
  assert (∀ x, x ∈ msgs_items ms ↔ ∃ t, t ∈ tuples ∧ read_matches ty r users t ∧ usable_key typesys conds reqCtx (Key t) = true ∧ Object (Key t) = x) as Hin.
  { intros x. rewrite Hitems, list_elem_of_fmap. setoid_rewrite list_elem_of_In. setoid_rewrite List.filter_In. setoid_rewrite <-list_elem_of_In.
    setoid_rewrite list_elem_of_fmap. setoid_rewrite Hit. naive_solver. }
  exists ms. split; [done|]. split.
  - split_and!.
    + constructor; [|constructor]. simpl. split_and!; [done| |done]. intros tk Htk. simpl in Htk.
      apply list_elem_of_In, List.filter_In in Htk as [(t&->&Ht)%list_elem_of_In%list_elem_of_fmap _].
      apply Hit in Ht as [Ht _]. by apply (fs_decided _ _ _ _ _ _ Hset).
    + rewrite Hitems. apply ascending_filter. by rewrite <-list_fmap_compose.
    + intros x (t&Ht&_&_&<-)%Hin. by apply (fs_objects _ _ _ _ _ _ Hset).
  - intros x. rewrite Hin. split.
    + intros (t&Ht&(Hx&Hrt&Hut)&Hk&<-). split; [done|]. apply (public_users ty r _ b eq_refl Hx). exists (User (Key t)). split; [|done].
      exists t. split_and!; [done..|]. unfold key_of. by rewrite Hrt.
    + intros [Hx Hus]. apply (public_users ty r x b eq_refl Hx) in Hus as (u&(t&Ht&Hk&[= Ho Hrt Hut])&Hus). exists t.
      unfold read_matches. rewrite Ho, Hrt, Hut. split_and!; done.
Qed.

Lemma fastPathDirect_ok ty r rel req :
  GetRelation typesys ty r = Ret rel → rq_StoreID req = store → GetType (Object (rq_TupleKey req)) = ty →
  Relation (rq_TupleKey req) = r → User (rq_TupleKey req) = user →
  (∀ rr, rr ∈ rel_DirectlyRelatedUserTypes rel → rr_GetRelation rr ≠ "" →
     ¬ path_possible typesys user (rr_Type rr) (rr_GetRelation rr)) →
  rewrite_ok ty r Userset_This (fastPathDirect typesys req).
Proof.
  intros Hrel Hstore Hty Hr Hu Hno. destruct (fastPathDirect_stream ty r rel req Hrel Hstore Hty Hr Hu) as (ms&Hms&Hch&Hin).
  exists ms. split; [done|]. split; [done|]. split; [by intros x [? _]%Hin|].
  intros x Hx. rewrite Hin. split.
  - intros [_ [?|?]]; simpl; unfold granted_this; [by left|right; left]. split; [apply (fs_not_userset _ _ _ _ _ _ Hset)|done].
  - intros Hn. simpl. split_and!; [tauto|tauto|]. intros u Hus Hne.
    destruct (usable_userset m typesys conds tuples reqCtx (fs_model _ _ _ _ _ _ Hset) (fs_users _ _ _ _ _ _ Hset) _ _ _ Hus Hne)
      as (rel'&rr&Hrel'&Hrr&Hrt&Hrg&_&rel''&Hrel''). assert (rel' = rel) as -> by congruence.
    pose proof (usable_facts m typesys conds tuples reqCtx (fs_model _ _ _ _ _ _ Hset) (fs_users _ _ _ _ _ _ Hset) _ _ _ Hus) as (Hv&_).
    pose proof (valid_user_facts _ Hv) as (_&Hgt&_). apply no_path_cannot; [done|]. rewrite Hgt, <-Hrt, <-Hrg. apply Hno; [done|]. by rewrite Hrg.
Qed.

(** *** Set operations *)

Lemma all_channels_ok ty r (f : Userset → outcome CheckErr (list (Msg string_iter))) l :
  (∀ c, c ∈ l → rewrite_ok ty r c (f c)) →
  ∃ chans, all_channels (f <$> l) = Ret chans ∧ Forall2 (streams_rewrite ty r) l chans.
Proof.
  induction l as [|c l IH]; intros Hl; [exists []; by split|]. destruct (Hl c) as (ms&Hms&Hok); [by left|].
  destruct IH as (chans&Hc&Hf); [intros c' Hc'; apply Hl; by right|]. exists (ms :: chans).
  rewrite fmap_cons. cbn [all_channels]. rewrite Hms. cbn [outcome_bind]. rewrite Hc. split; [done|]. by constructor.
Qed.

Lemma streams_channels ty r l chans : Forall2 (streams_rewrite ty r) l chans → Forall channel_ok chans.
Proof. induction 1 as [|c ms l chans [? _] _ IH]; by constructor. Qed.

(** The messages that a handler sends, when its objects come from its operands. *)
Lemma sends_streams ty r rw (P : string → Prop) o :
  sends P o → (∀ x, P x → IsValidObject x = true ∧ GetType x = ty) →
  (∀ x, GetType x = ty → (P x → granted_rw has_some cannot_some x r rw) ∧ (¬ P x → refuted_rw has_some cannot_some x r rw)) →
  ∃ ms, o = Ret ms ∧ streams_rewrite ty r rw ms.
Proof.
  intros (ms&->&Hfine&Hasc&Hin) HP Hrw. exists ms. split; [done|]. split; [split_and!; [done..|]|split].
  - intros x Hx. by apply HP, Hin.
  - intros x Hx. by apply HP, Hin.
  - intros x Hx. rewrite Hin. by apply Hrw.
Qed.

Lemma streams_elem ty r rw ms x : streams_rewrite ty r rw ms → x ∈ msgs_items ms → IsValidObject x = true ∧ GetType x = ty.
Proof. intros ((_&_&Hv)&Ht&_) Hx. split; [by apply Hv|by apply Ht]. Qed.

Lemma union_ok ty r l chans :
  Forall2 (streams_rewrite ty r) l chans →
  ∃ ms, fastPathUnion NewStatic (imap NewStream chans) = Ret ms ∧ streams_rewrite ty r (Userset_Union l) ms.
Proof.
  intros Hf. eapply sends_streams; [apply (fastPathUnion_exact NewStatic NewStatic_good); by eapply streams_channels|..].
  - intros x (ms&Hms&Hx). destruct (Forall2_elem_r _ _ _ _ Hf Hms) as (c&_&Hok). by eapply streams_elem.
  - intros x Hx. simpl. rewrite foldr_or, foldr_and. split.
    + intros (ms&Hms&Hin). destruct (Forall2_elem_r _ _ _ _ Hf Hms) as (c&Hc&_&_&Hok). exists c. split; [done|]. by apply Hok.
    + intros Hn c Hc. destruct (Forall2_elem_l _ _ _ _ Hf Hc) as (ms&Hms&_&_&Hok). apply Hok; [done|]. intros Hin. apply Hn. by exists ms.
Qed.

Lemma intersection_ok ty r l chans :
  l ≠ [] → Forall2 (streams_rewrite ty r) l chans →
  ∃ ms, fastPathIntersection NewStatic (imap NewStream chans) = Ret ms ∧ streams_rewrite ty r (Userset_Intersection l) ms.
Proof.
  intros Hne Hf. assert (chans ≠ []) as Hne' by (intros ->; by apply Forall2_nil_inv_r in Hf).
  eapply sends_streams; [apply (fastPathIntersection_exact NewStatic NewStatic_good); [done|by eapply streams_channels]|..].
  - intros x Hall. destruct chans as [|ms chans]; [done|]. apply Forall2_cons_inv_r in Hf as (c&l'&Hok&_). eapply streams_elem; [exact Hok|].
    apply Hall. by left.
  - intros x Hx. simpl. rewrite foldr_or, foldr_and. split.
    + intros Hall. split; [done|]. intros c Hc. destruct (Forall2_elem_l _ _ _ _ Hf Hc) as (ms&Hms&_&_&Hok). by apply Hok, Hall.
    + intros Hn. right. destruct (decide (Forall (λ ms, x ∈ msgs_items ms) chans)) as [Hall|Hex].
      { destruct Hn. by rewrite Forall_forall in Hall. }
      apply not_Forall_Exists, Exists_exists in Hex as (ms&Hms&Hnot); [|apply _].
      destruct (Forall2_elem_r _ _ _ _ Hf Hms) as (c&Hc&_&_&Hok). exists c. split; [done|]. by apply Hok.
Qed.

Lemma difference_ok ty r b s mb msub :
  streams_rewrite ty r b mb → streams_rewrite ty r s msub →
  ∃ ms, fastPathDifference NewStatic (imap NewStream [mb; msub]) = Ret ms ∧ streams_rewrite ty r (Userset_Difference b s) ms.
Proof.
  intros Hb Hs. eapply sends_streams; [apply (fastPathDifference_exact NewStatic NewStatic_good); [apply Hb|apply Hs]|..].
  - intros x [Hx _]. by apply (streams_elem ty r b mb).
  - intros x Hx. destruct Hb as (_&_&Hb). destruct Hs as (_&_&Hs). destruct (Hb x Hx) as [Hb1 Hb2], (Hs x Hx) as [Hs1 Hs2]. simpl.
    destruct (decide (x ∈ msgs_items mb)), (decide (x ∈ msgs_items msub)); tauto.
Qed.

(** *** Rewrites *)

(** A part of the rewrite of a relation. *)
Record rewrite_part (rel : RelationDef) (rw : Userset) : Prop := {
  rp_computed c : c ∈ computed_leaves rw → c ∈ computed_leaves (rel_Rewrite rel);
  rp_ttu p : p ∈ flattenUserset rw → p ∈ flattenUserset (rel_Rewrite rel);
  rp_nil : has_nil rw = false;
  rp_nonempty : nonempty_intersections rw = true;
}.

Lemma forallb_elem_of {A} (f : A → bool) l x : forallb f l = true → x ∈ l → f x = true.
Proof. intros Hf Hx. rewrite forallb_forall in Hf. by apply Hf, list_elem_of_In. Qed.

Lemma rewrite_part_union rel l c : rewrite_part rel (Userset_Union l) → c ∈ l → rewrite_part rel c.
Proof.
  intros [Hc Ht Hn He] Hin. simpl in *. split.
  - intros x Hx. apply Hc. by eapply elem_of_concat_fmap.
  - intros x Hx. apply Ht. by eapply elem_of_concat_fmap.
  - by eapply existsb_false_elem.
  - by eapply forallb_elem_of.
Qed.

Lemma rewrite_part_inter rel l c : rewrite_part rel (Userset_Intersection l) → c ∈ l → rewrite_part rel c.
Proof.
  intros [Hc Ht Hn He] Hin. simpl in *. apply andb_true_iff in He as [_ He]. split.
  - intros x Hx. apply Hc. by eapply elem_of_concat_fmap.
  - intros x Hx. apply Ht. by eapply elem_of_concat_fmap.
  - by eapply existsb_false_elem.
  - by eapply forallb_elem_of.
Qed.

Lemma rewrite_part_difference rel b s : rewrite_part rel (Userset_Difference b s) → rewrite_part rel b ∧ rewrite_part rel s.
Proof.
  intros [Hc Ht Hn He]. simpl in *. apply orb_false_iff in Hn as [??]. apply andb_true_iff in He as [??].
  split; split; try done; intros x Hx; (apply Hc || apply Ht); apply elem_of_app; auto.
Qed.

(** The rewrite assigns users directly. *)
Fixpoint contains_this (rw : Userset) : bool :=
  match rw with
  | Userset_This => true
  | Userset_Union child | Userset_Intersection child => existsb contains_this child
  | Userset_Difference b s => contains_this b || contains_this s
  | _ => false
  end.

(** A part whose direct users and tuple-to-usersets do not lead to the user's type by
    another relation. *)
Record plain_part (ty : string) (rel : RelationDef) (rw : Userset) : Prop := {
  pp_part : rewrite_part rel rw;
  pp_this rr : contains_this rw = true → rr ∈ rel_DirectlyRelatedUserTypes rel → rr_GetRelation rr ≠ "" →
    ¬ path_possible typesys user (rr_Type rr) (rr_GetRelation rr);
  pp_ttu ts c tsrel rr : (ts, c) ∈ flattenUserset rw → GetRelation typesys ty ts = Ret tsrel →
    rr ∈ rel_DirectlyRelatedUserTypes tsrel → ¬ path_possible typesys user (rr_Type rr) c;
}.

Lemma plain_part_child ty rel rw c :
  plain_part ty rel rw → rewrite_part rel c → (contains_this c = true → contains_this rw = true) →
  (∀ p, p ∈ flattenUserset c → p ∈ flattenUserset rw) → plain_part ty rel c.
Proof. intros [_ Hd Ht] Hp Hc Hf. split; [done|intros rr Hx; by apply Hd, Hc|intros ts c' tsrel rr Hx; by apply Ht, Hf]. Qed.

Lemma plain_part_elem ty rel (l : list Userset) c rw :
  rw = Userset_Union l ∨ rw = Userset_Intersection l → plain_part ty rel rw → c ∈ l → plain_part ty rel c.
Proof.
  intros Hrw Hp Hc. eapply plain_part_child; [exact Hp|..].
  - destruct Hrw as [-> | ->]; [by eapply rewrite_part_union; [apply Hp|]|by eapply rewrite_part_inter; [apply Hp|]].
  - intros Ht. destruct Hrw as [-> | ->]; simpl; apply existsb_exists; exists c; by split; [apply list_elem_of_In|].
  - intros p Hin. destruct Hrw as [-> | ->]; simpl; by eapply elem_of_concat_fmap.
Qed.

(** A request for the user and some object of the type. *)
Definition left_request (ty r : string) (req : ResolveCheckRequest) : Prop :=
  rq_StoreID req = store ∧ GetType (Object (rq_TupleKey req)) = ty ∧ Relation (rq_TupleKey req) = r ∧ User (rq_TupleKey req) = user.

Lemma fastPathRewrite_cases_ok ty r rel rec req :
  GetRelation typesys ty r = Ret rel → left_request ty r req →
  (∀ c crel req', c ∈ computed_leaves (rel_Rewrite rel) → GetRelation typesys ty c = Ret crel → left_request ty c req' →
     rewrite_ok ty c (rel_Rewrite crel) (rec req' (rel_Rewrite crel))) →
  ∀ rw, plain_part ty rel rw → rewrite_ok ty r rw (fastPathRewrite_cases typesys conds reqCtx rec req rw).
Proof.
  intros Hrel Hreq Hrec rw. pose proof Hreq as (Hstore&Hty&Hr&Hu).
  pose proof (NewAndValidate_valid m typesys (fs_model _ _ _ _ _ _ Hset)) as [Hmv _].
  induction rw as [|ob c|ts c|l IH|l IH|b s IHb IHs|] using Userset_nested_ind; intros [Hp Hdirect Httu]; try rewrite Forall_forall in IH; cbn [fastPathRewrite_cases].
  - eapply fastPathDirect_ok; [done..|]. intros rr. by apply Hdirect.
  - assert (c ∈ computed_leaves (rel_Rewrite rel)) as Hc by (apply (rp_computed _ _ Hp); by left).
    destruct (mv_computed _ Hmv _ _ _ c Hrel Hc) as (_&crel&Hcrel). unfold fastPathComputed. simpl. rewrite Hty, Hcrel.
    destruct (Hrec c crel (with_relation req (Object (rq_TupleKey req)) c) Hc Hcrel) as (ms&Hms&Hch&Htypes&Hok); [by split_and!|].
    exists ms. split; [done|]. split; [done|]. split; [done|]. intros x Hx. destruct (Hok x Hx) as [Hg Hn]. rewrite <-Hx in Hcrel. simpl. split.
    + intros Hin. apply (rewrite_has _ _ _ Hcrel). by apply Hg.
    + intros Hnin. apply (rewrite_cannot _ _ _ Hcrel). by apply Hn.
  - exists []. split; [done|]. split; [split_and!; [constructor..|]; by intros ? ?%not_elem_of_nil|]. split; [by intros ? ?%not_elem_of_nil|].
    intros x Hx. split; [by intros ?%not_elem_of_nil|]. intros _. simpl. intros u Hus Hsk.
    assert ((ts, c) ∈ flattenUserset (rel_Rewrite rel)) as Hin by (apply (rp_ttu _ _ Hp); by left).
    rewrite <-Hx in Hrel, Httu.
    destruct (usable_ttu m typesys conds tuples reqCtx (fs_model _ _ _ _ _ _ Hset) (fs_users _ _ _ _ _ _ Hset) x r rel ts c u Hrel Hin Hus)
      as (Hsp&_&tsrel&rr&Hts&Hrr&Hrt&Hdef). rewrite Hsp in *. simpl in *. destruct (Hdef Hsk) as [crel Hcrel].
    apply no_path_cannot; [by eapply relation_named|]. rewrite <-Hrt. by eapply Httu; [left|..].
  - destruct (all_channels_ok ty r (fastPathRewrite_cases typesys conds reqCtx rec req) l) as (chans&Hc&Hf).
    { intros c Hc. apply IH; [done|]. by eapply (plain_part_elem ty rel l c); [left| |]. }
    unfold fastPathOperationSetup. rewrite Hc. cbn [outcome_bind].
    destruct (union_ok ty r l chans Hf) as (ms&Hms&Hok). unfold check_Iterator in Hms. rewrite Hms. by exists ms.
  - destruct (all_channels_ok ty r (fastPathRewrite_cases typesys conds reqCtx rec req) l) as (chans&Hc&Hf).
    { intros c Hc. apply IH; [done|]. by eapply (plain_part_elem ty rel l c); [right| |]. }
    pose proof (rp_nonempty _ _ Hp) as Hne. simpl in Hne. apply andb_true_iff in Hne as [Hne%negb_true_iff%bool_decide_eq_false _].
    unfold fastPathOperationSetup. rewrite Hc. cbn [outcome_bind].
    destruct (intersection_ok ty r l chans Hne Hf) as (ms&Hms&Hok). unfold check_Iterator in Hms. rewrite Hms. by exists ms.
  - pose proof (rewrite_part_difference _ _ _ Hp) as [Hpb Hps]. assert (plain_part ty rel (Userset_Difference b s)) as Hpp by by split.
    destruct IHb as (mb&Hmb&Hb); [eapply plain_part_child; [exact Hpp|done|simpl; by intros ->|simpl; set_solver]|].
    destruct IHs as (msub&Hmsub&Hs); [eapply plain_part_child; [exact Hpp|done|simpl; intros ->; by rewrite orb_true_r|simpl; set_solver]|].
    unfold fastPathOperationSetup. cbn [all_channels]. rewrite Hmb, Hmsub. cbn [outcome_bind].
    destruct (difference_ok ty r b s mb msub Hb Hs) as (ms&Hms&Hok). unfold check_Iterator in Hms. rewrite Hms. by exists ms.
  - by pose proof (rp_nil _ _ Hp).
Qed.

Lemma weight_one_step ty r c rel :
  weight_one typesys user ty r → GetRelation typesys ty r = Ret rel → c ∈ computed_leaves (rel_Rewrite rel) →
  weight_one typesys user ty c.
Proof. intros Hw Hrel Hc r' rel' Hstep Hrel'. apply (Hw r' rel'); [|done]. eapply rtc_l; [|done]. by exists rel. Qed.

(** The recursion on computed usersets: the relations on the way are distinct, so that there
    is fuel for each relation of the type. *)
Lemma fastPathRewrite_path ty fuel : ∀ r rel path req,
  GetRelation typesys ty r = Ret rel → weight_one typesys user ty r → left_request ty r req → computed_path typesys ty r path →
  (size (default ∅ (relations typesys !! ty)) < fuel + length (r :: path))%nat →
  rewrite_ok ty r (rel_Rewrite rel) (fastPathRewrite typesys conds reqCtx fuel req (rel_Rewrite rel)).
Proof.
  pose proof (NewAndValidate_valid m typesys (fs_model _ _ _ _ _ _ Hset)) as [Hmv _].
  induction fuel as [|fuel IH]; intros r rel path req Hrel Hw Hreq Hpath Hfuel.
  { apply computed_path_length in Hpath. lia. }
  destruct (Hw r rel (rtc_refl _ _) Hrel) as (Hd&Ht&Hi).
  cbn [fastPathRewrite]. apply (fastPathRewrite_cases_ok ty r rel); try done.
  - intros c crel req' Hc Hcrel Hreq'. apply (IH c crel (r :: path)); try done; [by eapply weight_one_step|by eapply computed_path_cons|].
    simpl in *. lia.
  - split; [split; try done; by apply (mv_complete _ Hmv _ _ _ Hrel)|intros rr _; by apply Hd|exact Ht].
Qed.

Lemma fastPathRewrite_ok ty r rel req :
  GetRelation typesys ty r = Ret rel → weight_one typesys user ty r → left_request ty r req →
  rewrite_ok ty r (rel_Rewrite rel) (fastPathRewrite typesys conds reqCtx (rewrite_fuel typesys ty) req (rel_Rewrite rel)).
Proof.
  intros Hrel Hw Hreq. apply (fastPathRewrite_path ty _ r rel [] req); try done; [by eapply computed_path_nil|].
  unfold rewrite_fuel. simpl. lia.
Qed.

(** *** The channels of the left side *)

(** The channels stream what the user has among the referenced relations. *)
Lemma produceLeftChannels_ok (f : RelationReference → string) req refs :
  rq_StoreID req = store → User (rq_TupleKey req) = user →
  (∀ rr, rr ∈ refs → weight_one typesys user (rr_Type rr) (f rr)) →
  ∃ chans, produceLeftChannels typesys conds reqCtx req refs f = Ret chans ∧
    Forall (Forall msg_fine) chans ∧
    ∀ x, ((∃ c, c ∈ chans ∧ x ∈ msgs_items c) →
            ∃ rr rel, rr ∈ refs ∧ rr_Type rr = GetType x ∧ GetRelation typesys (GetType x) (f rr) = Ret rel ∧ has_some x (f rr)) ∧
         (¬ (∃ c, c ∈ chans ∧ x ∈ msgs_items c) → ∀ rr rel, rr ∈ refs → rr_Type rr = GetType x →
            GetRelation typesys (GetType x) (f rr) = Ret rel → cannot_some x (f rr)).
Proof.
  intros Hs Hu. induction refs as [|rr refs IH]; intros Hrefs.
  { exists []. split; [done|]. split; [constructor|]. intros x. split; [intros (c&?%not_elem_of_nil&_); done|].
    intros _ rr rel ?%not_elem_of_nil. done. }
  destruct IH as (chans&Hc&Hfine&Hx); [intros rr' Hrr'; apply Hrefs; by right|]. pose proof (Hrefs rr ltac:(by left)) as Hw.
  cbn [produceLeftChannels]. destruct (GetRelation typesys (rr_Type rr) (f rr)) as [rel|e|w] eqn:Hrel; [| |by apply GetRelation_no_panic in Hrel].
  - destruct (fastPathRewrite_ok (rr_Type rr) (f rr) rel (with_relation req (BuildObject (rr_Type rr) "ignore") (f rr)) Hrel Hw)
      as (ms&Hms&(Hfine'&_&_)&Htypes&Hok).
    { split_and!; [done| |done|done]. apply GetType_build. by apply (fs_names _ _ _ _ _ _ Hset _ _ _ Hrel). }
    rewrite Hms, Hc. exists (ms :: chans). split; [done|]. split; [by constructor|]. intros x. destruct (Hx x) as [HA HB]. split.
    + intros (c&[->|Hin]%elem_of_cons&Hxc).
      * exists rr, rel. split; [by left|]. specialize (Htypes x Hxc). split; [done|]. rewrite <-Htypes in Hrel. split; [done|].
        apply (rewrite_has _ _ _ Hrel). by apply Hok.
      * destruct HA as (rr'&rel'&?&?&?); [by exists c|]. exists rr', rel'. split; [by right|done].
    + intros Hno rr' rel' [->|Hin]%elem_of_cons Hty Hrel'.
      * rewrite Hty in Hrel. apply (rewrite_cannot _ _ _ Hrel). apply Hok; [done|]. intros Hxc. apply Hno. exists ms. by split; [left|].
      * apply (HB ltac:(intros (c&?&?); apply Hno; exists c; by split; [right|]) rr' rel'); done.
  - exists chans. split; [done|]. split; [done|]. intros x. destruct (Hx x) as [HA HB]. split.
    + intros Hex. destruct (HA Hex) as (rr'&rel'&?&?&?). exists rr', rel'. by split; [right|].
    + intros Hno rr' rel' [->|Hin]%elem_of_cons Hty Hrel'; [rewrite <-Hty in Hrel'; congruence|]. by eapply HB.
Qed.

(** *** The keys of the right side *)

(** When every condition can be decided, a read ends with its tuples. *)
Lemma fast_read_done req r l e :
  conds_compiled conds → fast_read typesys conds store reqCtx req r l e → e = ErrIteratorDone.
Proof.
  intros Hconds ((it&Hit&Hread)&_). unfold read_filtered in Hread. rewrite read_pipeline_spec in Hread.
  - injection Hread as _ He. assert (∀ e0 keys, (∀ tk, tk ∈ keys → ∃ b, condition_filter conds reqCtx tk = Ret b) →
      cond_last_error (condition_filter conds reqCtx) e0 keys = e0) as Hnone.
    { intros e0 keys. revert e0. induction keys as [|tk keys IH]; intros e0 Hk; [done|]. simpl.
      destruct (Hk tk) as [b ->]; [by left|]. destruct b; apply IH; intros k ?; apply Hk; by right. }
    rewrite Hnone in He; [by destruct (cond_valid _ _)|]. intros tk Htk. apply list_elem_of_In, List.filter_In in Htk as [Htk _].
    apply list_elem_of_In, list_elem_of_fmap in Htk as (t&->&Ht). by apply (fs_decided _ _ _ _ _ _ Hset), Hit.
  - intros tk. by apply condition_filter_no_panic.
  - pose proof (remaining_items it). lia.
  - pose proof (remaining_items it). lia.
Qed.

Lemma lookup_messages kind (f : TupleKey → string) keys :
  (∀ tk, tk ∈ keys → doMap kind tk = Ret (f tk)) →
  streamedLookupUsersetFromIterator kind keys (Some ErrIteratorDone) = (λ tk, UsersetFound (f tk)) <$> keys.
Proof.
  induction keys as [|tk keys IH]; intros Hk; [done|]. cbn [streamedLookupUsersetFromIterator]. rewrite (Hk tk) by by left.
  rewrite fmap_cons, IH; [done|]. intros k ?. apply Hk. by right.
Qed.

(** *** The fast paths *)

Context `{!FastScheduler string_iter}.

(** Matching the channels of the left side with the usersets of the right. *)
Lemma match_channels chans kind (f : TupleKey → string) l :
  Forall (Forall msg_fine) chans → (∀ tk, tk ∈ l → doMap kind tk = Ret (f tk)) →
  ∃ b, (if bool_decide (chans = []) then Ret (mkResolveCheckResponse false false)
        else resolveFastPath chans (streamedLookupUsersetFromIterator kind l (Some ErrIteratorDone))) =
       Ret (mkResolveCheckResponse b false) ∧
    (b = true ↔ ∃ tk c, tk ∈ l ∧ c ∈ chans ∧ f tk ∈ msgs_items c).
Proof.
  intros Hc Hl. rewrite (lookup_messages kind f l Hl). case_bool_decide as Hne.
  { exists false. split; [done|]. split; [done|]. intros (tk&c&_&Hx&_). subst. by apply not_elem_of_nil in Hx. }
  destruct (resolveFastPath_spec chans ((λ tk, UsersetFound (f tk)) <$> l) Hc) as (b&->&Hb).
  { rewrite Forall_fmap. by apply Forall_true. }
  exists b. split; [done|]. rewrite Hb. setoid_rewrite list_elem_of_fmap. split.
  - intros (x&c&Hx&Hxc&tk&[= ->]&Htk). by exists tk, c.
  - intros (tk&c&Htk&Hx&Hxc). exists (f tk), c. split_and!; [done..|]. by exists tk.
Qed.

Lemma DirectlyRelatedUsersets_references ty r rel :
  GetRelation typesys ty r = Ret rel → DirectlyRelatedUsersets typesys ty r = Ret (userset_references rel).
Proof. intros Hrel. unfold DirectlyRelatedUsersets, GetDirectlyRelatedUserTypes. by rewrite Hrel. Qed.

Hypothesis Hconds : conds_compiled conds.

Lemma checkUsersetFastPathV2_ok req rel l e (o := Object (rq_TupleKey req)) (r := Relation (rq_TupleKey req)) :
  request_ok store reqCtx user req → GetRelation typesys (GetType o) r = Ret rel →
  fast_read typesys conds store reqCtx req r l e → (∀ tk, tk ∈ l → Tuple.GetRelation (User tk) ≠ "") →
  (∀ rr, rr ∈ userset_references rel → weight_one typesys user (rr_Type rr) (rr_GetRelation rr)) →
  (∀ rr rr', rr ∈ userset_references rel → rr' ∈ userset_references rel → rr_Type rr = rr_Type rr' →
     rr_GetRelation rr = rr_GetRelation rr') →
  usersets_answer typesys conds store reqCtx user cannot_some l (checkUsersetFastPathV2 typesys conds reqCtx req (l, Some e)).
Proof.
  intros (Hs&_&Hu&_) Hrel Hread Hne Hw Huniq. pose proof (fast_read_done _ _ _ _ Hconds Hread) as ->. destruct Hread as [_ Hl].
  assert (∀ tk, tk ∈ l → ∃ rr rel', rr ∈ userset_references rel ∧ rr_Type rr = GetType (SplitObjectRelation (User tk)).1 ∧
    rr_GetRelation rr = Tuple.GetRelation (User tk) ∧ GetRelation typesys (rr_Type rr) (rr_GetRelation rr) = Ret rel') as Href.
  { intros tk Htk. destruct (usable_userset m typesys conds tuples reqCtx (fs_model _ _ _ _ _ _ Hset) (fs_users _ _ _ _ _ _ Hset) _ _ _ (Hl tk Htk) (Hne tk Htk))
      as (rel'&rr&Hrel'&Hrr&Hrt&Hrg&_&rel''&Hrel''). fold o in Hrel'. rewrite Hrel in Hrel'. injection Hrel' as <-.
    pose proof (usable_facts m typesys conds tuples reqCtx (fs_model _ _ _ _ _ _ Hset) (fs_users _ _ _ _ _ _ Hset) _ _ _ (Hl tk Htk)) as (Hv&_).
    pose proof (valid_user_facts _ Hv) as (_&Hgt&_). exists rr, rel''. split_and!; [|congruence|done|done].
    apply list_elem_of_In, List.filter_In. split; [by apply list_elem_of_In|]. rewrite Hrg, bool_decide_false by by apply Hne. done. }
  unfold FastPath.checkUsersetFastPathV2. fold o r. rewrite (DirectlyRelatedUsersets_references _ _ _ Hrel).
  destruct (produceLeftChannels_ok BuildUsersetV2RelationFunc req (userset_references rel) Hs Hu Hw) as (chans&->&Hfine&Hx). cbn [outcome_bind fst snd].
  destruct (match_channels chans UsersetKind (λ tk, (SplitObjectRelation (User tk)).1) l Hfine) as (b&Hres&Hb).
  { intros tk Htk. specialize (Hne tk Htk). unfold Tuple.GetRelation in Hne. simpl. unfold UsersetMapper_doMap.
    destruct (SplitObjectRelation (User tk)) as [uo ur]. simpl in Hne. by rewrite bool_decide_false by done. }
  unfold check_Iterator in Hres. rewrite Hres. unfold usersets_answer. simpl. destruct b.
  - split; [|done]. destruct (proj1 Hb eq_refl) as (tk&c&Htk&Hc&Hin). exists tk. split; [done|].
    destruct (proj1 (Hx _) ltac:(by exists c)) as (rr&_&Hrr&Hty&_&Hhas). destruct (Href tk Htk) as (rr'&_&Hrr'&Hty'&Hg'&_).
    rewrite <-Hg', <-(Huniq rr rr' Hrr Hrr' ltac:(congruence)). exact Hhas.
  - intros _ tk Htk. destruct (Href tk Htk) as (rr&rel'&Hrr&Hty&Hg&Hrel'). rewrite <-Hg. rewrite Hty in Hrel'.
    apply (proj2 (Hx _)) with (rel := rel'); [|done..]. intros (c&Hc&Hin). by discriminate (proj2 Hb ltac:(by exists tk, c)).
Qed.

Lemma checkTTUFastPathV2_ok req rel ts c tsrel l e (o := Object (rq_TupleKey req)) (r := Relation (rq_TupleKey req)) :
  request_ok store reqCtx user req → GetRelation typesys (GetType o) r = Ret rel →
  (ts, c) ∈ flattenUserset (rel_Rewrite rel) → GetRelation typesys (GetType o) ts = Ret tsrel →
  fast_read typesys conds store reqCtx req ts l e →
  (∀ rr, rr ∈ rel_DirectlyRelatedUserTypes tsrel → weight_one typesys user (rr_Type rr) c) →
  parents_answer typesys conds store reqCtx user cannot_some c l
    (checkTTUFastPathV2 typesys conds reqCtx req (Userset_TupleToUserset ts c) (l, Some e)).
Proof.
  intros (Hs&_&Hu&_) Hrel Hts Htsrel Hread Hw. pose proof (fast_read_done _ _ _ _ Hconds Hread) as ->. destruct Hread as [_ Hl].
  assert (∀ tk, tk ∈ l → SplitObjectRelation (User tk) = (User tk, "") ∧
    ∃ rr, rr ∈ rel_DirectlyRelatedUserTypes tsrel ∧ rr_Type rr = GetType (User tk) ∧
      (ttu_skips typesys (User tk) c = false → ∃ crel, GetRelation typesys (GetType (User tk)) c = Ret crel)) as Href.
  { intros tk Htk. destruct (usable_ttu m typesys conds tuples reqCtx (fs_model _ _ _ _ _ _ Hset) (fs_users _ _ _ _ _ _ Hset) _ _ _ _ _ _ Hrel Hts (Hl tk Htk))
      as (Hsp&_&tsrel'&rr&Hts'&Hrr&Hty&Hdef). fold o in Hts'. rewrite Htsrel in Hts'. injection Hts' as <-. split; [done|]. by exists rr. }
  unfold FastPath.checkTTUFastPathV2. fold o. unfold GetDirectlyRelatedUserTypes. rewrite Htsrel. cbn [outcome_bind].
  destruct (produceLeftChannels_ok (BuildTTUV2RelationFunc c) req (rel_DirectlyRelatedUserTypes tsrel) Hs Hu Hw) as (chans&->&Hfine&Hx).
  cbn [outcome_bind fst snd].
  destruct (match_channels chans TTUKind User l Hfine) as (b&Hres&Hb); [done|].
  unfold check_Iterator in Hres. rewrite Hres.
  unfold parents_answer. simpl. destruct b.
  - split; [|done]. destruct (proj1 Hb eq_refl) as (tk&ch&Htk&Hch&Hin). exists tk. split; [done|]. destruct (Href tk Htk) as (Heq&_).
    destruct (proj1 (Hx _) ltac:(by exists ch)) as (rr&crel&Hrr&Hty&Hcrel&Hhas).
    rewrite Heq. simpl. split; [|exact Hhas]. unfold ttu_skips. unfold BuildTTUV2RelationFunc in Hcrel. by rewrite Hcrel.
  - intros _ tk Htk. destruct (Href tk Htk) as (Heq&rr&Hrr&Hty&Hdef). rewrite Heq. simpl. intros Hsk. destruct (Hdef Hsk) as [crel Hcrel].
    apply (proj2 (Hx (User tk))) with (rr := rr) (rel := crel); [|done..]. intros (ch&Hch&Hin). by discriminate (proj2 Hb ltac:(by exists tk, ch)).
Qed.
End rewrite_spec.
