(* ===== verification/SortedCombined.v ===== *)
(** * Sorted reads with contextual tuples

    The sorted iterator of [CombinedTupleReader] behind the interface, and the sorted reads
    of a datastore with contextual tuples: they meet what the fast paths of Check rely on
    when no object is asked for twice. *)

From S2P Require Import Prelude GoStd Tuple Iterators Model Memory MemorySpec Typesystem Entrypoints TypesystemSpec.
From S2P Require Import Condition Validation ValidationSpec Check CheckSpec CheckSemantics CheckExact CheckMemory CombinedReader.
From S2P Require Import ReverseExpand ReverseExpandMemory FastPathStreams FastPathStreamsSpec FastPath FastPathSpec.

Local Open Scope go_scope.

(** ** The ordered iterator behind the interface *)

Section ordered_iterator.
Context {S T : Type} `{!Iterator S T} (mapper : T → string).

Definition ordered_remaining (c : OrderedCombined S T) : nat := sum_list (remaining <$> omap id (oc_pending c)).

Definition ordered_Iterator : Iterator (OrderedCombined S T) T := {|
  Next ctx c := run_loop id c (ordered_Next mapper (Datatypes.S (ordered_remaining c)) ctx c);
  Head ctx c := run_loop id c (ordered_Head mapper (Datatypes.S (ordered_remaining c)) ctx c);
  Stop := ordered_Stop;
  remaining := ordered_remaining;
|}.

Context `{!IteratorSpec S T}.
Abbreviation pend c := (pending_items (oc_pending c)).

(** The merge of what is pending. *)
Definition merged (c : OrderedCombined S T) : list T :=
  (drain_fuel (ordered_Next mapper 0 None) (Datatypes.S (length (concat (pend c)))) c).1.

Lemma merged_spec c :
  merge_inv mapper (oc_lastYielded c) (pend c) → merged c ≡ₚ concat (pend c) ∧ StronglySorted (key_before mapper) (merged c).
Proof.
  intros Hinv. destruct (ordered_drain_spec mapper (Datatypes.S (length (concat (pend c)))) 0 c Hinv) as (out&Hd&Hp&Hs); [lia|].
  unfold merged. by rewrite Hd.
Qed.

Lemma merged_unique c out :
  merge_inv mapper (oc_lastYielded c) (pend c) → out ≡ₚ concat (pend c) → StronglySorted (key_before mapper) out → merged c = out.
Proof.
  intros Hinv Hp Hs. destruct (merged_spec c Hinv) as [Hp' Hs']. assert (merged c ≡ₚ out) as Hperm by by rewrite Hp'.
  clear -Hperm Hs Hs'. revert out Hperm Hs Hs'. induction (merged c) as [|x l IH]; intros out Hperm Hs Hs'; [by apply Permutation_nil_l in Hperm|].
  destruct out as [|y out]; [by apply Permutation_nil_r in Hperm|].
  apply StronglySorted_inv in Hs as [Hs Hy]. apply StronglySorted_inv in Hs' as [Hs' Hx]. rewrite Forall_forall in Hx, Hy.
  assert (x = y) as ->.
  { assert (x ∈ y :: out) as [->|Hin]%elem_of_cons by (rewrite <-Hperm; by left); [done|].
    assert (y ∈ x :: l) as [->|Hin']%elem_of_cons by (rewrite Hperm; by left); [done|].
    pose proof (Hy x Hin) as Hlt. pose proof (Hx y Hin') as Hgt. unfold key_before in *.
    pose proof (str_ltb_trans _ _ _ Hlt Hgt) as Hc. by rewrite str_ltb_irrefl in Hc. }
  f_equal. apply IH; [by apply Permutation_cons_inv in Hperm|done|done].
Qed.

Definition ordered_good (c : OrderedCombined S T) : Prop :=
  merge_inv mapper (oc_lastYielded c) (pend c) ∧ ∀ t, oc_lastHead c = Some t → head (merged c) = Some t.

Lemma merged_nil c : merge_inv mapper (oc_lastYielded c) (pend c) → concat (pend c) = [] → merged c = [].
Proof. intros Hinv Hnil. destruct (merged_spec c Hinv) as [Hp _]. rewrite Hnil in Hp. by apply Permutation_nil_r in Hp. Qed.

Lemma ordered_Next_good c :
  ordered_good c →
  match merged c with
  | x :: l => ∃ c', Next (Iterator := ordered_Iterator) None c = (Ret x, c') ∧ ordered_good c' ∧ merged c' = l
  | [] => ∃ c', Next (Iterator := ordered_Iterator) None c = (Throw ErrIteratorDone, c') ∧ ordered_good c' ∧ merged c' = []
  end.
Proof.
  intros [Hinv Hh]. simpl. set (fuel := Datatypes.S _).
  destruct (ordered_Next_spec mapper fuel c Hinv) as [(Hnil&c'&->&Hlh&Hnil'&Hinv')|(x&c'&->&Hly&Hlh&Hperm&Hinv')].
  - rewrite (merged_nil c Hinv Hnil) in *. exists c'. split; [done|]. pose proof (merged_nil c' Hinv' Hnil') as Hm.
    split; [split; [done|]|done]. rewrite Hlh, Hm. exact Hh.
  - rewrite <-Hly in Hinv'. destruct (merged_spec c' Hinv') as [Hp' Hs'].
    rewrite (merged_unique c (x :: merged c') Hinv).
    + exists c'. split; [done|]. split; [split; [done|by rewrite Hlh]|done].
    + by rewrite Hp'.
    + constructor; [done|]. apply Forall_forall. intros y Hy. rewrite Hp' in Hy. by eapply (mi_after _ _ _ Hinv').
Qed.

Lemma ordered_Head_good c :
  ordered_good c →
  match merged c with
  | x :: l => ∃ c', Head (Iterator := ordered_Iterator) None c = (Ret x, c') ∧ ordered_good c' ∧ merged c' = x :: l
  | [] => ∃ c', Head (Iterator := ordered_Iterator) None c = (Throw ErrIteratorDone, c') ∧ ordered_good c' ∧ merged c' = []
  end.
Proof.
  intros [Hinv Hh]. simpl. set (fuel := Datatypes.S _). destruct (oc_lastHead c) as [t|] eqn:Hlh.
  { specialize (Hh t eq_refl). destruct (merged c) as [|x l] eqn:Hm; [done|]. injection Hh as ->. exists c. unfold ordered_Head. rewrite Hlh.
    split; [done|]. split; [|done]. split; [done|]. intros t' Ht'. rewrite Hm. simpl. congruence. }
  destruct (ordered_Head_spec mapper fuel c Hinv Hlh) as [(Hnil&c'&->&Hlh'&Hnil'&Hinv')|(x&c'&->&Hlh'&Hc&Hin&Hmin&Hinv')].
  - rewrite (merged_nil c Hinv Hnil). exists c'. split; [done|]. pose proof (merged_nil c' Hinv' Hnil').
    split; [split; [done|by rewrite Hlh']|done].
  - destruct (merged_spec c Hinv) as [Hp Hs]. assert (merged c' = merged c) as Hm by (apply merged_unique; [done|by rewrite Hc|done]).
    assert (∃ l, merged c = x :: l) as [l Hl].
    { destruct (merged c) as [|y l] eqn:E; [rewrite <-Hp in Hin; by apply not_elem_of_nil in Hin|]. exists l.
      rewrite <-Hp in Hin. apply elem_of_cons in Hin as [->|Hin]; [done|]. apply StronglySorted_inv in Hs as [_ Hy]. rewrite Forall_forall in Hy.
      specialize (Hy x Hin). unfold key_before in Hy. rewrite (Hmin y) in Hy; [done|]. rewrite <-Hp. by left. }
    rewrite Hl. exists c'. split; [done|]. split; [split; [done|]|by rewrite Hm]. intros t. rewrite Hlh', Hm, Hl. by intros [= <-].
Qed.

Lemma ordered_remaining_good c : ordered_good c → (length (merged c) ≤ ordered_remaining c)%nat.
Proof.
  intros [Hinv _]. destruct (merged_spec c Hinv) as [Hp _]. rewrite (Permutation_length Hp). unfold ordered_remaining, pending_items. clear.
  induction (omap id (oc_pending c)) as [|s l IH]; [done|]. rewrite !fmap_cons. cbn [concat]. rewrite length_app.
  change (sum_list (remaining s :: (remaining <$> l))) with (remaining s + sum_list (remaining <$> l))%nat.
  pose proof (remaining_items s). lia.
Qed.

Definition ordered_Good : @GoodIterator (OrderedCombined S T) T ordered_Iterator :=
  @Build_GoodIterator _ _ ordered_Iterator ordered_good merged ordered_Next_good ordered_Head_good ordered_remaining_good.
End ordered_iterator.

(** ** The sorted reads *)

Definition sorted_StartingReader `{!RelationshipTupleReader} (c : CombinedTupleReader)
    (ds : string → ReadStartingWithUserFilter → outcome StorageErr reader_iter) : StartingReader := {|
  sr_iter := OrderedCombined (StaticIterator Tuple + reader_iter) Tuple;
  sr_Iterator := ordered_Iterator ObjectMapper;
  rd_ReadStartingWithUser store filter :=
    let! it := combined_ReadStartingWithUser c ds store filter true in
    match it with StartingOrdered it => Ret it | StartingCombined _ => Panic "not sorted" end;
|}.

(** The sorted reads of a datastore. *)
Definition sorted_reads `{!RelationshipTupleReader} (store : string) `{!RelationshipTupleReaderSpec store}
    (ds : string → ReadStartingWithUserFilter → outcome StorageErr reader_iter) : Prop :=
  ∀ ty r users, r ≠ "" → users ≠ [] → NoDup (target_user <$> users) →
    (∀ t t', t ∈ stored store → t' ∈ stored store → read_matches ty r users t → read_matches ty r users t' →
       Object (Key t) = Object (Key t') → t = t') →
    ∃ it, ds store (mkReadStartingWithUserFilter ty r users None) = Ret it ∧
      StronglySorted (key_before ObjectMapper) (items it) ∧ ∀ t, t ∈ items it ↔ t ∈ stored store ∧ read_matches ty r users t.

Section sorted_combined.
Context `{!RelationshipTupleReader} (store : string) `{!RelationshipTupleReaderSpec store} (c : CombinedTupleReader).
Context (ds : string → ReadStartingWithUserFilter → outcome StorageErr reader_iter).
Hypothesis Hds : sorted_reads store ds.
Hypothesis Hok : contextual_ok c (stored store).
Hypothesis Hnd : NoDup (contextualTuplesOrderedByObjectID c).
Hypothesis Hsorted : StronglySorted (λ a b, String.ltb (Object b) (Object a) = false) (contextualTuplesOrderedByObjectID c).

Lemma filter_fmap_list {A B} (f : A → B) (p : B → bool) l : List.filter p (f <$> l) = f <$> List.filter (λ x, p (f x)) l.
Proof. induction l as [|x l IH]; [done|]. rewrite fmap_cons. simpl. destruct (p (f x)); [rewrite fmap_cons|]; by rewrite IH. Qed.

Lemma NoDup_ListFilter {A} (p : A → bool) l : NoDup l → NoDup (List.filter p l).
Proof.
  induction 1 as [|x l Hx Hl IH]; simpl; [constructor|]. destruct (p x); [|done]. constructor; [|done].
  intros [Hin%list_elem_of_In _]%list_elem_of_In%List.filter_In. done.
Qed.

Lemma filter_sorted {A} (R : A → A → Prop) (p : A → bool) l : StronglySorted R l → StronglySorted R (List.filter p l).
Proof.
  induction 1 as [|x l Hs IH Hx]; simpl; [constructor|]. destruct (p x); [|done]. constructor; [done|].
  rewrite Forall_forall in Hx |- *. intros y [Hy%list_elem_of_In _]%list_elem_of_In%List.filter_In. by apply Hx.
Qed.

Lemma sorted_nodup (l : list Tuple) : StronglySorted (key_before ObjectMapper) l → NoDup (ObjectMapper <$> l).
Proof.
  induction 1 as [|x l _ IH Hx]; [constructor|]. rewrite fmap_cons. constructor; [|done]. intros (y&Heq&Hy)%list_elem_of_fmap.
  rewrite Forall_forall in Hx. specialize (Hx y Hy). unfold key_before in Hx. by rewrite Heq, str_ltb_irrefl in Hx.
Qed.

(** The tuples of a sorted list that have different objects ascend strictly. *)
Lemma strictly_sorted (l : list TupleKey) :
  StronglySorted (λ a b, String.ltb (Object b) (Object a) = false) l → NoDup l →
  (∀ a b, a ∈ l → b ∈ l → Object a = Object b → a = b) →
  StronglySorted (key_before ObjectMapper) ((λ tk, mkTuple tk None) <$> l).
Proof.
  induction l as [|x l IH]; intros Hs Hl Huniq; [constructor|]. apply NoDup_cons in Hl as [Hx Hl]. apply StronglySorted_inv in Hs as [Hs Hle].
  rewrite fmap_cons. constructor; [apply IH; [done..|]; intros a b ??; apply Huniq; by right|].
  apply Forall_forall. rewrite List.Forall_forall in Hle. setoid_rewrite <-list_elem_of_In in Hle. intros t (y&->&Hy)%list_elem_of_fmap. unfold key_before, ObjectMapper. simpl.
  destruct (String.ltb (Object x) (Object y)) eqn:Hlt; [done|]. destruct Hx.
  rewrite (Huniq x y); [done|by left|by right|]. apply str_ltb_total; [done|by apply Hle].
Qed.

Definition sorted_SortedReaderSpec :
  @SortedReaderSpec (sorted_StartingReader c ds) store (contextual_tuples c ++ stored store).
Proof.
  refine (@Build_SortedReaderSpec (sorted_StartingReader c ds) store _ (ordered_Good ObjectMapper) _).
  intros ty r users Hr Hus Hn Huniq. destruct (Hds ty r users Hr Hus Hn) as (it&Hget&Hs&Hit).
  { intros t t' Ht Ht'. apply Huniq; apply elem_of_app; by right. }
  simpl. unfold combined_ReadStartingWithUser. rewrite Hget. cbn [outcome_bind rsf_UserFilter rsf_ObjectType rsf_Relation]. rewrite target_user_strings.
  set (ctx := List.filter _ (filterTuples _ _ _ _)).
  assert (∀ t, t ∈ ctx ↔ t ∈ contextual_tuples c ∧ read_matches ty r users t) as Hctx.
  { intros t. unfold ctx. rewrite list_elem_of_In, List.filter_In, <-list_elem_of_In, elem_of_filterTuples, bool_decide_eq_true.
    unfold contextual_tuples, read_matches. assert (target_user <$> users ≠ []) by by destruct users. naive_solver. }
  assert (StronglySorted (key_before ObjectMapper) ctx) as Hcs.
  { unfold ctx, filterTuples. rewrite filter_fmap_list. apply strictly_sorted.
    - by apply filter_sorted, filter_sorted.
    - by apply NoDup_ListFilter, NoDup_ListFilter.
    - intros a b Ha Hb Ho. assert (mkTuple a None ∈ ctx ∧ mkTuple b None ∈ ctx) as [Hca Hcb].
      { unfold ctx, filterTuples. rewrite filter_fmap_list. split; apply list_elem_of_fmap; eauto. }
      apply Hctx in Hca as [Hca Ham]. apply Hctx in Hcb as [Hcb Hbm].
      assert (mkTuple a None = mkTuple b None) as [= ->]; [|done]. apply Huniq; try done; apply elem_of_app; by left. }
  assert (merge_inv ObjectMapper None [ctx; items it]) as Hinv.
  { split; [by constructor; [|constructor]| |done]. cbn [concat]. rewrite app_nil_r, fmap_app. apply NoDup_app. split_and!.
    - by apply sorted_nodup.
    - intros x (t&->&Ht)%list_elem_of_fmap (t'&Hx&Ht')%list_elem_of_fmap. apply Hctx in Ht as [Ht Hm]. apply Hit in Ht' as [Ht' Hm'].
      apply (ct_fresh _ _ Hok t t' Ht Ht'). f_equal. f_equal. apply Huniq; try done; [apply elem_of_app; by left|apply elem_of_app; by right].
    - by apply sorted_nodup. }
  set (it0 := NewOrderedCombinedIterator _). exists it0. split; [done|].
  assert (pending_items (oc_pending it0) = [ctx; items it]) as Hp by done.
  assert (ordered_good ObjectMapper it0) as Hgood by (split; [by rewrite Hp|done]).
  destruct (merged_spec ObjectMapper it0 ltac:(by rewrite Hp)) as [Hm Hms]. split; [done|]. split.
  - change (ascending (ObjectMapper <$> merged ObjectMapper it0)). clear -Hms.
    induction Hms as [|x l _ IH Hx]; [constructor|]. rewrite fmap_cons. apply ascending_cons. split; [|done].
    intros y (z&->&Hz)%list_elem_of_fmap. rewrite Forall_forall in Hx. by apply Hx.
  - intros t. change (t ∈ merged ObjectMapper it0 ↔ t ∈ contextual_tuples c ++ stored store ∧ read_matches ty r users t).
    rewrite Hm, Hp. cbn [concat]. rewrite app_nil_r, !elem_of_app, Hctx, Hit. tauto.
Defined.
End sorted_combined.
