(* ===== verification/FastPathExact.v ===== *)
(** * Check with its fast paths

    The fast paths for relations of weight two keep the contract that Check relies on
    ([fast_paths_ok]): they end, and answer what the dispatched checks would.  Check stays
    exact with them. *)

From stdpp Require Import relations.
From S2P Require Import Prelude GoStd Tuple Iterators Model Memory MemorySpec Typesystem Entrypoints TypesystemSpec.
From S2P Require Import Condition Validation ValidationSpec Check CheckSpec CheckSemantics CheckExact CombinedReader ReverseExpand.
From S2P Require Import FastPathStreams FastPathStreamsSpec FastPath FastPathSpec.

Local Open Scope go_scope.

(** ** The fast paths end *)

Section conclude.
Context `{!ModelGraph, !Cel, !MapRange, !ConditionCompiler, !StartingReader, !FastScheduler string_iter}.
Context (m : AuthorizationModel) (typesys : TypeSystem) (conds : gmap string EvaluableCondition) (reqCtx : option Struct).
Hypothesis Hmodel : NewAndValidate m = Ret typesys.

(** The error of a channel comes from the program. *)
Definition channel_concluded {A} (o : outcome CheckErr A) : Prop := ∀ e, o = Throw e → fuel_free e.

Lemma bind_concluded {A B} (o : outcome CheckErr A) (f : A → outcome CheckErr B) :
  channel_concluded o → (∀ a, channel_concluded (f a)) → channel_concluded (outcome_bind o f).
Proof. intros Ho Hf. destruct o as [a|e|w]; simpl; [by apply Hf| |done]. intros e' [= <-]. by apply Ho. Qed.

Lemma ret_concluded {A} (a : A) : channel_concluded (Ret a).
Proof. by intros e. Qed.

Lemma all_channels_concluded l : Forall channel_concluded l → channel_concluded (all_channels l).
Proof.
  induction 1 as [|o l Ho _ IH]; simpl; [apply ret_concluded|]. apply bind_concluded; [done|]. intros c.
  apply bind_concluded; [done|]. intros cs. apply ret_concluded.
Qed.

Lemma setup_concluded resolver l : Forall channel_concluded l → channel_concluded (fastPathOperationSetup resolver l).
Proof.
  intros Hl. apply bind_concluded; [by apply all_channels_concluded|]. intros chans. by destruct (resolver _).
Qed.

Lemma direct_concluded req : channel_concluded (fastPathDirect typesys req).
Proof. unfold fastPathDirect. destruct (IteratorReadStartingFromUser _ _ _ _); [done| |done]. by intros e' [= <-]. Qed.

Lemma cases_concluded rec req rw :
  (∀ c crel, c ∈ computed_leaves rw → GetRelation typesys (GetType (Object (rq_TupleKey req))) c = Ret crel →
     channel_concluded (rec (with_relation req (Object (rq_TupleKey req)) c) (rel_Rewrite crel))) →
  channel_concluded (fastPathRewrite_cases typesys conds reqCtx rec req rw).
Proof.
  induction rw as [|ob c|ts c|l IH|l IH|b s IHb IHs|] using Userset_nested_ind; intros Hrec; cbn [fastPathRewrite_cases].
  - apply direct_concluded.
  - unfold fastPathComputed. simpl. destruct (GetRelation _ _ c) as [crel|e|w] eqn:Hc; [|by intros ? [= <-]|done].
    by apply Hrec; [left|].
  - apply ret_concluded.
  - apply setup_concluded. rewrite Forall_fmap. rewrite Forall_forall in IH |- *. intros c Hc. simpl. apply (IH c Hc).
    intros d crel Hd. apply Hrec. by eapply elem_of_concat_fmap.
  - apply setup_concluded. rewrite Forall_fmap. rewrite Forall_forall in IH |- *. intros c Hc. simpl. apply (IH c Hc).
    intros d crel Hd. apply Hrec. by eapply elem_of_concat_fmap.
  - apply setup_concluded. repeat constructor; [apply IHb|apply IHs]; intros d crel Hd; apply Hrec; simpl; apply elem_of_app; auto.
  - by intros e [= <-].
Qed.

(** The computed usersets of a validated model run in no cycle. *)
Lemma rewrite_concluded ty fuel : ∀ r rel path req,
  GetRelation typesys ty r = Ret rel → GetType (Object (rq_TupleKey req)) = ty → computed_path typesys ty r path →
  (size (default ∅ (relations typesys !! ty)) < fuel + length (r :: path))%nat →
  channel_concluded (fastPathRewrite typesys conds reqCtx fuel req (rel_Rewrite rel)).
Proof.
  pose proof (NewAndValidate_valid m typesys Hmodel) as [Hmv _].
  induction fuel as [|fuel IH]; intros r rel path req Hrel Hty Hpath Hfuel.
  { apply computed_path_length in Hpath. lia. }
  cbn [fastPathRewrite]. apply cases_concluded. intros c crel Hc Hcrel. rewrite Hty in Hcrel.
  apply (IH c crel (r :: path)); [done|done|by eapply computed_path_cons|]. simpl in *. lia.
Qed.

(** A type whose name has no colon, as those of the objects of the requests. *)
Hypothesis Hnames : ∀ ty r rel, GetRelation typesys ty r = Ret rel → has_byte ":" ty = false.

Lemma channels_concluded req refs f : channel_concluded (produceLeftChannels typesys conds reqCtx req refs f).
Proof.
  induction refs as [|rr refs IH]; cbn [produceLeftChannels]; [apply ret_concluded|].
  destruct (GetRelation typesys (rr_Type rr) (f rr)) as [rel|e|w] eqn:Hrel; [|done|done]. apply bind_concluded.
  - apply (rewrite_concluded (rr_Type rr) _ (f rr) rel []); [done| |by eapply computed_path_nil|unfold rewrite_fuel; simpl; lia].
    apply GetType_build. by eapply Hnames.
  - intros c. apply bind_concluded; [done|]. intros cs. apply ret_concluded.
Qed.

Definition message_concluded (msg : usersetMessage) : Prop :=
  match msg with UsersetError e => fuel_free e | UsersetFound _ => True end.

Lemma lookup_concluded kind keys final : Forall message_concluded (streamedLookupUsersetFromIterator kind keys final).
Proof.
  induction keys as [|tk keys IH]; cbn [streamedLookupUsersetFromIterator].
  - destruct final as [e|]; [destruct (IterIsDoneOrCancelled e)|]; by repeat constructor.
  - destruct (doMap kind tk) as [x|e|w]; [by constructor|destruct (IterIsDoneOrCancelled e)|]; by repeat constructor.
Qed.

Lemma consume_left_concluded {I} `{!Iterator I string} fuel : ∀ (it : I) L R lastErr,
  (∀ e, lastErr = Some e → fuel_free e) →
  match consume_left fuel it L R lastErr with
  | Ret (_, _, err) => ∀ e, err = Some e → fuel_free e
  | Throw e => fuel_free e
  | Panic _ => True
  end.
Proof.
  induction fuel as [|fuel IH]; intros it L R lastErr He; [done|]. cbn [consume_left]. destruct (Next None it) as [[t|e|w] it'].
  - cbn [processUsersetMessage]. case_bool_decide; [done|]. by apply IH.
  - destruct (IterIsDoneOrCancelled e); [done|]. apply IH. by intros e' [= <-].
  - done.
Qed.

Lemma denied_or_concluded lastErr : (∀ e, lastErr = Some e → fuel_free e) → concluded (denied_or lastErr).
Proof. intros He. unfold denied_or. destruct lastErr; [|done]. intros e [= <-]. by apply He. Qed.

Lemma consumer_loop_concluded {I} `{!Iterator I string} l r evs :
  arrivals (I := I) l r evs → ∀ L R lastErr, Forall message_concluded (default [] r) → (∀ e, lastErr = Some e → fuel_free e) →
  concluded (consumer_loop L R lastErr evs).
Proof.
  induction 1 as [|msg l r evs Hev IH|r evs Hev IH|l msg r evs Hev IH|l evs Hev IH]; intros L R lastErr Hr He; cbn [consumer_loop default] in *.
  - by apply denied_or_concluded.
  - destruct msg as [it|e]; [|by intros e' [= <-]]. pose proof (consume_left_concluded (S (S (remaining it))) it L R lastErr He) as Hc.
    destruct (consume_left _ _ _ _ _) as [[[[] L'] err]|e|w]; [done|by apply IH|by intros e' [= <-]|done].
  - case_bool_decide; [by apply denied_or_concluded|by apply IH].
  - apply Forall_cons_1 in Hr as [Hm Hr]. destruct msg as [u|e]; cbn [processUsersetMessage]; [case_bool_decide; [done|]; by apply IH|].
    apply IH; [done|]. by intros e' [= <-].
  - apply IH; [constructor|done].
Qed.

Lemma resolve_concluded chans right : Forall message_concluded right → concluded (@resolveFastPath _ (string_Iterator conds reqCtx) _ chans right).
Proof.
  intros Hr. unfold resolveFastPath. destruct right as [|[u|e] right]; [done| |].
  - destruct (fast_arrivals_order chans right) as (left&_&Harr). apply Forall_cons_1 in Hr as [_ Hr].
    by eapply consumer_loop_concluded.
  - apply Forall_cons_1 in Hr as [Hm _]. by intros e' [= <-].
Qed.

Lemma left_right_concluded req refs f kind read :
  concluded (let! leftChans := produceLeftChannels typesys conds reqCtx req refs f in
    if bool_decide (leftChans = []) then Ret (mkResolveCheckResponse false false)
    else @resolveFastPath _ (string_Iterator conds reqCtx) _ leftChans (streamedLookupUsersetFromIterator kind read.1 read.2)).
Proof.
  apply bind_concluded; [apply channels_concluded|]. intros chans. case_bool_decide; [apply ret_concluded|].
  apply resolve_concluded, lookup_concluded.
Qed.
End conclude.

Lemma weight2_conclude `{!ModelGraph, !Cel, !MapRange, !ConditionCompiler, !StartingReader, !FastScheduler string_iter}
    m typesys conds canUserset canTTU :
  NewAndValidate m = Ret typesys → (∀ ty r rel, GetRelation typesys ty r = Ret rel → has_byte ":" ty = false) →
  fast_paths_conclude (weight2_paths typesys conds canUserset canTTU).
Proof.
  intros Hm Hn. split_and!; simpl; try done.
  - intros _ _ _ _ _ req l. exact (left_right_concluded m typesys conds _ Hm Hn _ _ _ _ _).
  - intros _ _ _ _ _ _ req rw l. unfold FastPath.checkTTUFastPathV2. destruct (match rw with Userset_TupleToUserset _ _ => _ | _ => _ end) as [ts c].
    destruct (GetDirectlyRelatedUserTypes _ _ _) as [refs|e|w]; [exact (left_right_concluded m typesys conds _ Hm Hn _ _ _ _ _)|by intros e' [= <-]|done].
Qed.

(** ** The contract *)

(** The selection of the fast paths for a user: what is referenced has weight one, and a
    relation refers to at most one userset of each type. *)
Record weight2_selection `{!ModelGraph} (typesys : TypeSystem) (user : string)
    (canUserset : string → string → string → list RelationReference → bool)
    (canTTU : string → string → string → string → string → bool) : Prop := {
  ws_userset ty r rel :
    GetRelation typesys ty r = Ret rel → canUserset ty r (GetType user) (userset_references rel) = true →
    (∀ rr, rr ∈ userset_references rel → weight_one typesys user (rr_Type rr) (rr_GetRelation rr)) ∧
    (∀ rr rr', rr ∈ userset_references rel → rr' ∈ userset_references rel → rr_Type rr = rr_Type rr' →
       rr_GetRelation rr = rr_GetRelation rr');
  ws_ttu ty r rel ts c tsrel :
    GetRelation typesys ty r = Ret rel → (ts, c) ∈ flattenUserset (rel_Rewrite rel) → GetRelation typesys ty ts = Ret tsrel →
    canTTU ty r (GetType user) ts c = true →
    ∀ rr, rr ∈ rel_DirectlyRelatedUserTypes tsrel → weight_one typesys user (rr_Type rr) c;
}.

(** When the fast paths can be relied on: types have no colon in their names, as the API
    checks, and for a user that is no userset either no fast path is selected for its type
    or the selection and the tuples are as above. *)
Record weight2_ready `{!ModelGraph, !Cel, !MapRange, !ConditionCompiler} (m : AuthorizationModel) (typesys : TypeSystem)
    (conds : gmap string EvaluableCondition) (tuples : list Tuple) (reqCtx : option Struct) (user : string)
    (canUserset : string → string → string → list RelationReference → bool)
    (canTTU : string → string → string → string → string → bool) : Prop := {
  wr_names ty r rel : GetRelation typesys ty r = Ret rel → has_byte ":" ty = false;
  wr_selected : IsObjectRelation user = false →
    ((∀ o r refs, canUserset o r (GetType user) refs = false) ∧ (∀ o r ts c, canTTU o r (GetType user) ts c = false)) ∨
    (fast_setting m typesys conds tuples reqCtx user ∧ weight2_selection typesys user canUserset canTTU);
}.

Section exact.
Context `{!ModelGraph, !Cel, !MapRange, !ConditionCompiler, !Scheduler, !GraphLaws}.
Context (m : AuthorizationModel) (typesys : TypeSystem) (conds : gmap string EvaluableCondition).
Context `{!RelationshipTupleReader} (store : string) `{!RelationshipTupleReaderSpec store}.
Context `{!StartingReader, !SortedReaderSpec store (stored store), !FastScheduler string_iter}.
Context (reqCtx : option Struct) (user : string).
Context (canUserset : string → string → string → list RelationReference → bool).
Context (canTTU : string → string → string → string → string → bool).

Lemma weight2_paths_ok :
  fast_setting m typesys conds (stored store) reqCtx user → conds_compiled conds →
  weight2_selection typesys user canUserset canTTU →
  fast_paths_ok typesys conds (weight2_paths typesys conds canUserset canTTU) store reqCtx user.
Proof.
  intros Hset Hconds Hsel. split.
  - eapply weight2_conclude; [apply Hset|]. intros ty r rel Hrel. by apply (fs_names _ _ _ _ _ _ Hset ty r rel).
  - intros req rel l e o r Hreq _ Hrel Hread Hne. pose proof Hreq as (_&Hctx&_). split; [|done]. simpl. rewrite Hctx. intros Hc.
    destruct (ws_userset _ _ _ _ Hsel _ _ _ Hrel Hc) as [Hw Hu]. by eapply checkUsersetFastPathV2_ok.
  - intros req rel ts c l e o r rw Hreq _ Hrel Hts Hread. pose proof Hreq as (_&Hctx&_). split; [|done]. simpl. rewrite Hctx. intros Hc.
    pose proof (NewAndValidate_valid m typesys (fs_model _ _ _ _ _ _ Hset)) as [Hmv _].
    destruct (mv_ttu _ Hmv _ _ _ ts c Hrel Hts) as (tsrel&Htsrel&_).
    pose proof (ws_ttu _ _ _ _ Hsel _ _ _ _ _ _ Hrel Hts Htsrel Hc) as Hw. by eapply checkTTUFastPathV2_ok.
Qed.

Lemma weight2_ready_ok :
  NewAndValidate m = Ret typesys → conds_compiled conds → weight2_ready m typesys conds (stored store) reqCtx user canUserset canTTU →
  fast_paths_ok typesys conds (weight2_paths typesys conds canUserset canTTU) store reqCtx user.
Proof.
  intros Hm Hconds [Hn Hsel]. split; [by eapply weight2_conclude| |].
  - intros req rel l e o r Hreq Hor. destruct (Hsel Hor) as [[Hnu _]|[Hset Hw]]; [|by eapply (weight2_paths_ok Hset Hconds Hw)].
    intros _ _ _. split; [|done]. simpl. by rewrite Hnu.
  - intros req rel ts c l e o r rw Hreq Hor. destruct (Hsel Hor) as [[_ Hnt]|[Hset Hw]]; [|by eapply (weight2_paths_ok Hset Hconds Hw)].
    intros _ _ _. split; [|done]. simpl. by rewrite Hnt.
Qed.

Context (maxResolutionDepth : Z).
Abbreviation fast := (weight2_paths typesys conds canUserset canTTU).
Abbreviation has o r := (∃ n, granted typesys conds (stored store) reqCtx user n o r).

Lemma fast_check_setting :
  fast_setting m typesys conds (stored store) reqCtx user → refs_named typesys → conds_compiled conds → GetType user ≠ "" →
  weight2_selection typesys user canUserset canTTU →
  check_setting m typesys conds fast store reqCtx user.
Proof. intros Hset Href Hconds Hty Hsel. pose proof (weight2_paths_ok Hset Hconds Hsel). destruct Hset. by split. Qed.

(** Check with its fast paths for relations of weight two is exact on models without
    exclusion: for every order in which sub-problems, channels and usersets arrive, the
    answer is allowed if and only if the user has a derivation of the relation, and
    otherwise the check fails with an error of the program. *)
Theorem ResolveCheck_fast_exact (fuel : nat) (req : ResolveCheckRequest) :
  fast_setting m typesys conds (stored store) reqCtx user → refs_named typesys → conds_compiled conds → GetType user ≠ "" →
  weight2_selection typesys user canUserset canTTU → positive_model typesys →
  request_ok store reqCtx user req → rq_VisitedPaths req = ∅ → depth_ok maxResolutionDepth req →
  (check_fuel typesys maxResolutionDepth req ≤ fuel)%nat →
  match ResolveCheck typesys conds fast maxResolutionDepth fuel req with
  | Ret resp => Allowed resp = true ↔ has (Object (rq_TupleKey req)) (Relation (rq_TupleKey req))
  | Throw e => fuel_free e
  | Panic _ => False
  end.
Proof. intros Hset Href Hconds Hty Hsel. by apply (ResolveCheck_exact_spec store m), check_setting_positive, fast_check_setting. Qed.

(** C2: on every model, with exclusions too, where the recursive fast paths are not selected
    and those of weight two are as [weight2_ready] asks, and for every order of arrival,
    depth and history of the request: an allowed answer is backed by a derivation that the
    user has the relation and by no refutation, and a denied answer that reports no cycle
    is backed by a refutation and by no derivation.  The model is validated, its
    restrictions name their relations and the stored users are valid; where a fast path is
    selected for the user's type, what is referenced has weight one, a relation refers to
    at most one userset of each type, every stored condition is decided, and no object has
    both a tuple of the user and one of everybody. *)
Theorem ResolveCheck_fast_sound (fuel : nat) (req : ResolveCheckRequest) (resp : ResolveCheckResponse)
    (has := granted typesys conds (stored store) reqCtx user) (cannot := refuted typesys conds (stored store) reqCtx user)
    (o := Object (rq_TupleKey req)) (r := Relation (rq_TupleKey req)) :
  NewAndValidate m = Ret typesys → refs_named typesys → conds_compiled conds →
  (∀ t, t ∈ stored store → IsValidUser (User (Key t)) = true) → IsValidUser user = true → GetType user ≠ "" →
  weight2_ready m typesys conds (stored store) reqCtx user canUserset canTTU → request_ok store reqCtx user req →
  ResolveCheck typesys conds fast maxResolutionDepth fuel req = Ret resp →
  (Allowed resp = true → (∃ n, has n o r) ∧ ∀ n, ¬ cannot n o r) ∧
  (Allowed resp = false → CycleDetected resp = false → (∃ n, cannot n o r) ∧ ∀ n, ¬ has n o r).
Proof.
  intros Hm Href Hconds Hst Hu Hty Hready. eapply ResolveCheck_sound_spec. split; try done. by apply weight2_ready_ok.
Qed.

(** C3: under the conditions below the fast paths for relations of weight two do not change
    an answer: on a validated model, with exclusions too, a check with them and a check
    without them that return without reporting a cycle agree, whatever their depth and
    recursion.  The conditions: a path is selected only where the relations referenced have
    weight one for the user's type and a relation refers to at most one userset of each
    type; the user is no userset; every condition of a stored tuple is decided; no object
    has both a tuple of the user and one of everybody for a relation; the stored objects
    and users are valid, names have no separators and restrictions name their relations.
    Without them the answers differ: [fast_path_grants_other_relation],
    [fast_path_loses_group]. *)
Theorem fast_paths_transparent (slow : FastPaths) (fuel fuel' : nat) (req : ResolveCheckRequest) (resp resp' : ResolveCheckResponse) :
  fast_setting m typesys conds (stored store) reqCtx user → refs_named typesys → conds_compiled conds → GetType user ≠ "" →
  weight2_selection typesys user canUserset canTTU → no_fast_paths slow → request_ok store reqCtx user req →
  ResolveCheck typesys conds fast maxResolutionDepth fuel req = Ret resp → CycleDetected resp = false →
  ResolveCheck typesys conds slow maxResolutionDepth fuel' req = Ret resp' → CycleDetected resp' = false →
  Allowed resp = Allowed resp'.
Proof.
  intros Hset Href Hconds Hty Hsel Hslow Hreq Hf Hfc Hs Hsc.
  pose proof (fast_check_setting Hset Href Hconds Hty Hsel) as Hfast.
  assert (check_setting m typesys conds slow store reqCtx user) as Hslow' by (destruct Hfast; split; try done; by apply no_fast_paths_ok).
  destruct (ResolveCheck_sound_spec store m typesys conds fast user reqCtx maxResolutionDepth fuel req resp Hfast Hreq Hf) as [Hf1 Hf2].
  destruct (ResolveCheck_sound_spec store m typesys conds slow user reqCtx maxResolutionDepth fuel' req resp' Hslow' Hreq Hs) as [Hs1 Hs2].
  destruct (Allowed resp), (Allowed resp'); try done.
  - destruct (Hf1 eq_refl) as [[n Hn] _]. destruct (Hs2 eq_refl Hsc) as [_ Hno]. by destruct (Hno n).
  - destruct (Hs1 eq_refl) as [[n Hn] _]. destruct (Hf2 eq_refl Hfc) as [_ Hno]. by destruct (Hno n).
Qed.
End exact.
