(* ===== verification/WeightedGraph.v ===== *)
(** * The weighted graph of a model

    [pkg/typesystem/typesystem.go] (the choice of the fast paths of Check, the edges for
    ListObjects) and [pkg/typesystem/weighted_graph.go], over the weighted graph that the
    language library builds from a model.  The library is a parameter ([WeightedGraph]):
    nodes with labels, edges with types, and for both the weight of each user type they
    lead to.  Nodes and edges are compared by identity, as the pointers of the source. *)

From S2P Require Import Prelude GoStd Tuple Model Typesystem.

Local Open Scope Z_scope.
Local Open Scope go_scope.

(** ** The library *)

Inductive EdgeType := DirectEdge | RewriteEdge | TTUEdge | ComputedEdge | OtherEdge.
Inductive NodeType := SpecificType | SpecificTypeAndRelation | OperatorNode | SpecificTypeWildcard | OtherNode.

#[global] Instance EdgeType_eq : EqDecision EdgeType.
Proof. solve_decision. Defined.
#[global] Instance NodeType_eq : EqDecision NodeType.
Proof. solve_decision. Defined.

Class WeightedGraph := {
  wgraph : Type;
  wnode : Type;
  wedge : Type;
  #[global] wnode_eq :: EqDecision wnode;
  #[global] wedge_eq :: EqDecision wedge;
  GetNodeByID : wgraph → string → option wnode;
  wg_GetEdgesFromNode : wgraph → wnode → option (list wedge);
  node_GetWeight : wnode → string → option Z;
  GetUniqueLabel : wnode → string;
  GetNodeType : wnode → NodeType;
  GetLabel : wnode → string;
  edge_GetWeight : wedge → string → option Z;
  GetEdgeType : wedge → EdgeType;
  GetTo : wedge → wnode;
  GetTuplesetRelation : wedge → string;
  (** [graph.Infinite] and the labels of operators *)
  Infinite : Z;
  ExclusionOperator : string;
  IntersectionOperator : string;
  UnionOperator : string;
}.

(** The errors of the component, by the format of their message. *)
Inductive WgErr :=
| ErrWeightedGraphNil
| ErrNoOutgoingEdges (label : string)
| ErrNodeNotFound (label : string)
| ErrInvalidIntersection (sourceType : string)
| ErrInvalidExclusion (sourceType : string)
| ErrUnknownEdgeType (label : string)
| ErrConstructFailed (label : string) (cause : WgErr)
| ErrExclusionOperands (label : string) (count : nat)
| ErrUnknownOperator (label uniqueLabel : string)
| ErrUnknownNodeType (label : string)
| ErrConstructFuel.

(** [strings.HasSuffix]. *)
Definition HasSuffix (s suffix : string) : bool :=
  (String.length suffix <=? String.length s)%nat
  && (String.substring (String.length s - String.length suffix) (String.length suffix) s =s suffix).

Section weighted_graph.
Context `{!WeightedGraph}.

(** ** Passes over the levels of a graph *)

Section levels.
Context (wg : wgraph).

(** ** The selection of the fast paths of weight two *)

(** One pass over [edges]: the edges behind set operators, and the edges that [wanted]
    selects and that lead to the user type; [None] for an early [return false]. *)
Fixpoint weight2_level (wanted : wedge → bool) (userType : string) (edges innerEdges found : list wedge)
  : option (list wedge * list wedge) :=
  match edges with
  | [] => Some (innerEdges, found)
  | edge :: rest =>
      let inner :=
        if bool_decide (GetEdgeType edge = RewriteEdge)
        then (λ operationalEdges, innerEdges ++ operationalEdges) <$> wg_GetEdgesFromNode wg (GetTo edge)
        else Some innerEdges in
      match inner with
      | None => None
      | Some innerEdges =>
          if wanted edge then
            match edge_GetWeight edge userType with
            | Some w => if w >? 2 then None else weight2_level wanted userType rest innerEdges (found ++ [edge])
            | None => weight2_level wanted userType rest innerEdges found
            end
          else weight2_level wanted userType rest innerEdges found
      end
  end.

(** The loop over the levels while [continue] asks for more, with the [done] of its end;
    [None] when the recursion bound is reached. *)
Fixpoint weight2_levels (fuel : nat) (wanted : wedge → bool) (continue done : list wedge → bool) (userType : string)
    (edges found : list wedge) : option bool :=
  if negb (continue found) || bool_decide (edges = []) then Some (done found)
  else match fuel with
  | O => None
  | S fuel =>
      match weight2_level wanted userType edges [] found with
      | None => Some false
      | Some ([], found) => Some (done found)
      | Some (innerEdges, found) => weight2_levels fuel wanted continue done userType innerEdges found
      end
  end.

(** One pass: [None] for an early [return false]; [recursive] selects the recursive edge. *)
Fixpoint recursive_level (recursive : wedge → bool) (userType : string) (edges innerEdges : list wedge) (found : bool)
  : option (list wedge * bool) :=
  match edges with
  | [] => Some (innerEdges, found)
  | edge :: rest =>
      match edge_GetWeight edge userType with
      | None => recursive_level recursive userType rest innerEdges found
      | Some w =>
          if (w =? Infinite) && bool_decide (GetEdgeType edge = RewriteEdge) then
            match wg_GetEdgesFromNode wg (GetTo edge) with
            | None => None
            | Some operationalEdges => recursive_level recursive userType rest (innerEdges ++ operationalEdges) found
            end
          else if (w =? Infinite) && negb found && recursive edge then recursive_level recursive userType rest innerEdges true
          else if w >? 1 then None
          else recursive_level recursive userType rest innerEdges found
      end
  end.

Fixpoint recursive_levels (fuel : nat) (recursive : wedge → bool) (userType : string) (edges : list wedge) (found : bool)
  : option bool :=
  if bool_decide (edges = []) then Some found
  else match fuel with
  | O => None
  | S fuel =>
      match recursive_level recursive userType edges [] found with
      | None => Some false
      | Some (innerEdges, found) =>
          if bool_decide (innerEdges = []) then Some found
          else recursive_levels fuel recursive userType innerEdges found
      end
  end.

End levels.

(** ** The selection of the fast paths *)

Section selection.
(** [nil] when the library could not build the graph. *)
Context (authzWeightedGraph : option wgraph).

(** The node of the relation with its weight for the user type and its edges. *)
Definition relation_node (objectType relation userType : string) : option (wgraph * wnode * Z * list wedge) :=
  match authzWeightedGraph with
  | None => None
  | Some wg =>
      match GetNodeByID wg (ToObjectRelationString objectType relation) with
      | None => None
      | Some node =>
          match node_GetWeight node userType, wg_GetEdgesFromNode wg node with
          | Some w, Some edges => Some (wg, node, w, edges)
          | _, _ => None
          end
      end
  end.

Definition UsersetCanFastPathWeight2 (fuel : nat) (objectType relation userType : string)
    (allowedUsersets : list RelationReference) : option bool :=
  match relation_node objectType relation userType with
  | None => Some false
  | Some (wg, _, _, edges) =>
      let allowed : gset string :=
        list_to_set ((λ u, ToObjectRelationString (rr_Type u) (rr_GetRelation u)) <$> allowedUsersets) in
      let totalAllowed := size allowed in
      weight2_levels wg fuel
        (λ edge, bool_decide (GetEdgeType edge = DirectEdge) && bool_decide (GetUniqueLabel (GetTo edge) ∈ allowed))
        (λ found, negb (Nat.eqb (length found) totalAllowed)) (λ found, Nat.eqb (length found) totalAllowed)
        userType edges []
  end.

(** The edges of a tuple-to-userset. *)
Definition ttu_edge (tuplesetRelationKey computedRelation : string) (edge : wedge) : bool :=
  bool_decide (GetEdgeType edge = TTUEdge) && (GetTuplesetRelation edge =s tuplesetRelationKey)
  && HasSuffix (GetUniqueLabel (GetTo edge)) ("#" +:+ computedRelation).

Definition TTUCanFastPathWeight2 (fuel : nat) (objectType relation userType tupleset computed : string) : option bool :=
  match relation_node objectType relation userType with
  | None => Some false
  | Some (wg, _, _, edges) =>
      weight2_levels wg fuel (ttu_edge (ToObjectRelationString objectType tupleset) computed)
        (λ found, bool_decide (found = [])) (λ found, negb (bool_decide (found = []))) userType edges []
  end.

(** What both recursive fast paths ask of the node. *)
Definition recursive_selection (fuel : nat) (objectType relation userType : string) (recursive : wnode → wedge → bool)
  : option bool :=
  match relation_node objectType relation userType with
  | None => Some false
  | Some (wg, objRelNode, w, edges) =>
      if negb (w =? Infinite) then Some false
      else recursive_levels wg fuel (recursive objRelNode) userType edges false
  end.

Definition RecursiveTTUCanFastPathV2 (fuel : nat) (objectType relation userType tupleset computed : string) : option bool :=
  recursive_selection fuel objectType relation userType (λ objRelNode edge,
    ttu_edge (ToObjectRelationString objectType tupleset) computed edge && bool_decide (GetTo edge = objRelNode)).

Definition RecursiveUsersetCanFastPathV2 (fuel : nat) (objectType relation userType : string) : option bool :=
  recursive_selection fuel objectType relation userType (λ objRelNode edge,
    bool_decide (GetEdgeType edge = DirectEdge) && (GetUniqueLabel (GetTo edge) =s GetUniqueLabel objRelNode)
    && bool_decide (GetTo edge = objRelNode)).

(** ** Edges for the listing of objects *)

Definition hasPathTo (weights : string → option Z) (destinationType : string) : bool :=
  match weights destinationType with Some _ => true | None => false end.

Definition edgeHasPathTo (edge : wedge) (destinationType : string) : bool := hasPathTo (edge_GetWeight edge) destinationType.

Record IntersectionEdges := mkIntersectionEdges {
  LowestEdge : option wedge;
  Siblings : list wedge;
  DirectEdges : list wedge;
  DirectEdgesAreLeastWeight : bool;
}.

Definition emptyIntersectionEdges : IntersectionEdges := mkIntersectionEdges None [] [] false.

(** The pass that separates the direct edges and takes their largest weight. *)
Fixpoint direct_pass (sourceType : string) (edges direct nonDirect : list wedge) (areLowest : bool) (lowestWeight : Z)
  : list wedge * list wedge * bool * Z :=
  match edges with
  | [] => (direct, nonDirect, areLowest, lowestWeight)
  | edge :: rest =>
      match edge_GetWeight edge sourceType with
      | None => direct_pass sourceType rest direct nonDirect areLowest lowestWeight
      | Some weight =>
          if negb (bool_decide (GetEdgeType edge = DirectEdge))
          then direct_pass sourceType rest direct (nonDirect ++ [edge]) areLowest lowestWeight
          else if weight >? lowestWeight then direct_pass sourceType rest (direct ++ [edge]) nonDirect true weight
          else direct_pass sourceType rest (direct ++ [edge]) nonDirect areLowest lowestWeight
      end
  end.

(** The pass that looks for a lower weight among the other edges. *)
Fixpoint lowest_pass (sourceType : string) (noDirect first : bool) (edges : list wedge) (lowest : option wedge) (lowestWeight : Z)
    (areLowest : bool) : option wedge * bool :=
  match edges with
  | [] => (lowest, areLowest)
  | edge :: rest =>
      let weight := default 0 (edge_GetWeight edge sourceType) in
      if (weight <? lowestWeight) || (first && noDirect)
      then lowest_pass sourceType noDirect false rest (Some edge) weight false
      else lowest_pass sourceType noDirect false rest lowest lowestWeight areLowest
  end.

(** The edges that are neither direct nor the lowest; [None] for one without a path. *)
Fixpoint siblings_of (sourceType : string) (lowest : option wedge) (edges : list wedge) : option (list wedge) :=
  match edges with
  | [] => Some []
  | edge :: rest =>
      if negb (bool_decide (GetEdgeType edge = DirectEdge)) && negb (bool_decide (Some edge = lowest)) then
        if negb (edgeHasPathTo edge sourceType) then None
        else (cons edge) <$> siblings_of sourceType lowest rest
      else siblings_of sourceType lowest rest
  end.

Definition GetEdgesForIntersection (edges : list wedge) (sourceType : string) : outcome WgErr IntersectionEdges :=
  match edges with
  | first :: _ :: _ =>
      let '(direct, nonDirect, areLowest, lowestWeight) := direct_pass sourceType edges [] [] false 0 in
      if (lowestWeight =? 0) && bool_decide (GetEdgeType first = DirectEdge) then Ret emptyIntersectionEdges
      else
        let '(lowest, areLowest) := lowest_pass sourceType (bool_decide (direct = [])) true nonDirect None lowestWeight areLowest in
        match siblings_of sourceType lowest edges with
        | None => Ret emptyIntersectionEdges
        | Some siblings => Ret (mkIntersectionEdges lowest siblings direct areLowest)
        end
  | _ => Throw (ErrInvalidIntersection sourceType)
  end.

(** [GetEdgesForExclusion]: the base edges and the excluded edge. *)
Definition GetEdgesForExclusion (edges : list wedge) (sourceType : string) : outcome WgErr (list wedge * option wedge) :=
  match last edges with
  | Some butNotEdge =>
      if (length edges <? 2)%nat then Throw (ErrInvalidExclusion sourceType)
      else let relevantEdges := List.filter (λ edge, edgeHasPathTo edge sourceType) (removelast edges) in
      if negb (edgeHasPathTo butNotEdge sourceType) then Ret (relevantEdges, None)
      else Ret (relevantEdges, Some butNotEdge)
  | None => Throw (ErrInvalidExclusion sourceType)
  end.

Definition cheapestEdgeTo (edges : list wedge) (dst : string) : option wedge :=
  fold_left (λ (lowest : option wedge) (current : wedge),
    match lowest with
    | None => match edge_GetWeight current dst with Some _ => Some current | None => None end
    | Some l =>
        match edge_GetWeight l dst, edge_GetWeight current dst with
        | None, _ => Some current
        | Some _, None => Some l
        | Some a, Some b => if b <? a then Some current else Some l
        end
    end) edges None.

(** [TypeSystem.GetNode] and [TypeSystem.GetEdgesFromNode]. *)
Definition GetNode (uniqueID : string) : option wnode :=
  match authzWeightedGraph with None => None | Some wg => GetNodeByID wg uniqueID end.

Definition GetEdgesFromNode (node : wnode) (sourceType : string) : outcome WgErr (list wedge) :=
  match authzWeightedGraph with
  | None => Throw ErrWeightedGraphNil
  | Some wg =>
      if negb (hasPathTo (node_GetWeight node) sourceType) then Ret []
      else match wg_GetEdgesFromNode wg node with
           | None => Throw (ErrNoOutgoingEdges (GetUniqueLabel node))
           | Some edges => Ret edges
           end
  end.

(** [GetEdgesForListObjects]: the relevant edges and whether a check is needed.  A cheapest
    edge that is nil is dereferenced by the last filter. *)
Definition GetEdgesForListObjects (targetTypeRelation sourceType : string) : outcome WgErr (list wedge * bool) :=
  match authzWeightedGraph with
  | None => Throw ErrWeightedGraphNil
  | Some wg =>
      match GetNodeByID wg targetTypeRelation with
      | None => Throw (ErrNodeNotFound targetTypeRelation)
      | Some currentNode =>
          let! edges := GetEdgesFromNode currentNode sourceType in
          match last edges with
          | None => Throw (ErrNoOutgoingEdges (GetUniqueLabel currentNode))
          | Some lastEdge =>
              let! selected :=
                if negb (bool_decide (GetNodeType currentNode = OperatorNode)) then Ret (edges, false)
                else if GetLabel currentNode =s ExclusionOperator then Ret (removelast edges, edgeHasPathTo lastEdge sourceType)
                else if GetLabel currentNode =s IntersectionOperator then
                  let directEdges := List.filter (λ edge, bool_decide (GetEdgeType edge = DirectEdge) && edgeHasPathTo edge sourceType) edges in
                  if negb (bool_decide (directEdges = [])) then Ret (directEdges, true)
                  else match cheapestEdgeTo edges sourceType with
                       | Some edge => Ret ([edge], true)
                       | None => Panic "invalid memory address or nil pointer dereference"
                       end
                else Ret (edges, false) in
              let '(edges, needsCheck) := selected in
              Ret (List.filter (λ edge, edgeHasPathTo edge sourceType) edges, needsCheck)
          end
      end
  end.

(** [ConstructUserset]; the object of a computed userset is not used by Check and is left
    out.  The recursion follows the operators. *)
Fixpoint ConstructUserset (fuel : nat) (currentEdge : wedge) : outcome WgErr Userset :=
  match fuel with
  | O => Throw ErrConstructFuel
  | S fuel =>
      let currentNode := GetTo currentEdge in
      let uniqueLabel := GetUniqueLabel currentNode in
      match GetNodeType currentNode with
      | SpecificType | SpecificTypeWildcard => Ret Userset_This
      | SpecificTypeAndRelation =>
          match GetEdgeType currentEdge with
          | DirectEdge | RewriteEdge | ComputedEdge => Ret (Userset_ComputedUserset "" (SplitObjectRelation uniqueLabel).2)
          | TTUEdge =>
              Ret (Userset_TupleToUserset (SplitObjectRelation (GetTuplesetRelation currentEdge)).2 (SplitObjectRelation uniqueLabel).2)
          | OtherEdge => Throw (ErrUnknownEdgeType uniqueLabel)
          end
      | OperatorNode =>
          match authzWeightedGraph with
          | None => Panic "invalid memory address or nil pointer dereference"
          | Some wg =>
              match wg_GetEdgesFromNode wg currentNode with
              | None => Throw (ErrNoOutgoingEdges uniqueLabel)
              | Some edges =>
                  let! usersets :=
                    (fix construct (edges : list wedge) : outcome WgErr (list Userset) :=
                       match edges with
                       | [] => Ret []
                       | edge :: rest =>
                           match ConstructUserset fuel edge with
                           | Throw e => Throw (ErrConstructFailed (GetUniqueLabel (GetTo edge)) e)
                           | Panic w => Panic w
                           | Ret currentUserset => let! usersets := construct rest in Ret (currentUserset :: usersets)
                           end
                       end) edges in
                  if GetLabel currentNode =s ExclusionOperator then
                    match usersets with
                    | [base; subtract] => Ret (Userset_Difference base subtract)
                    | _ => Throw (ErrExclusionOperands uniqueLabel (length usersets))
                    end
                  else if GetLabel currentNode =s IntersectionOperator then Ret (Userset_Intersection usersets)
                  else if GetLabel currentNode =s UnionOperator then Ret (Userset_Union usersets)
                  else Throw (ErrUnknownOperator (GetLabel currentNode) uniqueLabel)
              end
          end
      | OtherNode => Throw (ErrUnknownNodeType uniqueLabel)
      end
  end.
End selection.
End weighted_graph.

(** ** What the selection of the userset fast path checks *)

Section selection_spec.
Context `{!WeightedGraph} (wg : wgraph).

(** The edges behind the set operators among [edges]. *)
Definition operational (edges : list wedge) : list wedge :=
  concat ((λ edge, if bool_decide (GetEdgeType edge = RewriteEdge) then default [] (wg_GetEdgesFromNode wg (GetTo edge)) else [])
            <$> edges).

(** The edges of the first levels. *)
Fixpoint level_edges (fuel : nat) (edges : list wedge) : list wedge :=
  edges ++ match fuel with O => [] | S fuel => level_edges fuel (operational edges) end.

Definition within (wanted : wedge → bool) (userType : string) (edge : wedge) : Prop :=
  wanted edge = true ∧ ∃ w, edge_GetWeight edge userType = Some w ∧ w ≤ 2.

Lemma weight2_level_spec wanted userType edges : ∀ inner found inner' found',
  weight2_level wg wanted userType edges inner found = Some (inner', found') →
  inner' = inner ++ operational edges ∧
  ∃ new, found' = found ++ new ∧ new `sublist_of` edges ∧ Forall (within wanted userType) new.
Proof.
  induction edges as [|edge edges IH]; intros inner found inner' found'; cbn [weight2_level].
  { intros [= <- <-]. split; [by rewrite app_nil_r|]. exists []. rewrite app_nil_r. by repeat split. }
  unfold operational. rewrite fmap_cons. cbn [concat]. fold (operational edges).
  set (ops := if bool_decide (GetEdgeType edge = RewriteEdge) then default [] (wg_GetEdgesFromNode wg (GetTo edge)) else []).
  intros Hl. assert (∃ found1, weight2_level wg wanted userType edges (inner ++ ops) found1 = Some (inner', found') ∧
    ∃ new, found1 = found ++ new ∧ new `sublist_of` [edge] ∧ Forall (within wanted userType) new) as (found1&Hrest&new&->&Hsub&Hnew).
  { set (oi := if bool_decide (GetEdgeType edge = RewriteEdge) then (λ o, inner ++ o) <$> wg_GetEdgesFromNode wg (GetTo edge) else Some inner) in Hl.
    assert (∀ i, oi = Some i → i = inner ++ ops) as Hi.
    { intros i. unfold oi, ops. case_bool_decide; [|intros [= <-]; by rewrite app_nil_r]. by destruct (wg_GetEdgesFromNode wg (GetTo edge)) as [o|]; intros [= <-]. }
    clearbody oi. destruct oi as [i|]; [|done]. rewrite (Hi i eq_refl) in Hl.
    destruct (wanted edge) eqn:Hw; [|exists found; split; [done|]; exists []; rewrite app_nil_r; split_and!; [done|apply sublist_nil_l|done]].
    destruct (edge_GetWeight edge userType) as [w|] eqn:Hwt; [|exists found; split; [done|]; exists []; rewrite app_nil_r; split_and!; [done|apply sublist_nil_l|done]].
    destruct (w >? 2) eqn:Hgt; [done|]. exists (found ++ [edge]). split; [done|]. exists [edge]. split_and!; [done..|].
    constructor; [|constructor]. split; [done|]. exists w. split; [done|]. rewrite Z.gtb_ltb in Hgt. apply Z.ltb_ge in Hgt. lia. }
  apply IH in Hrest as (->&new'&->&Hsub'&Hnew'). split; [by rewrite <-app_assoc|]. exists (new ++ new').
  split; [by rewrite <-app_assoc|]. split; [exact (sublist_app _ _ _ _ Hsub Hsub')|]. by apply Forall_app.
Qed.

Lemma weight2_levels_spec wanted continue done userType fuel : ∀ edges found,
  weight2_levels wg fuel wanted continue done userType edges found = Some true →
  ∃ new, done (found ++ new) = true ∧ new `sublist_of` level_edges fuel edges ∧ Forall (within wanted userType) new.
Proof.
  induction fuel as [|fuel IH]; intros edges found; cbn [weight2_levels level_edges]; destruct (negb (continue found) || bool_decide (edges = []));
    try (intros [= Hd]; exists []; rewrite app_nil_r; split_and!; [done|apply sublist_nil_l|constructor]); [done|].
  destruct (weight2_level wg wanted userType edges [] found) as [[inner found']|] eqn:Hl; [|done].
  apply weight2_level_spec in Hl as (->&new&->&Hsub&Hnew). cbn [app]. destruct (operational edges) as [|e es] eqn:Hops.
  - intros [= Hd]. exists new. split_and!; [done| |done]. by apply sublist_inserts_r.
  - intros (new'&Hd&Hsub'&Hnew')%IH. exists (new ++ new'). rewrite app_assoc.
    split_and!; [done|exact (sublist_app _ _ _ _ Hsub Hsub')|by apply Forall_app].
Qed.

(** When the direct edges of a relation lead to different usersets, the fast path is only
    selected when each of the allowed usersets has an edge of weight at most two. *)
Lemma userset_selected fuel objectType relation userType allowedUsersets node w edges :
  relation_node (Some wg) objectType relation userType = Some (wg, node, w, edges) →
  NoDup ((λ e, GetUniqueLabel (GetTo e)) <$> List.filter (λ e, bool_decide (GetEdgeType e = DirectEdge)) (level_edges fuel edges)) →
  UsersetCanFastPathWeight2 (Some wg) fuel objectType relation userType allowedUsersets = Some true →
  ∀ u, u ∈ allowedUsersets → ∃ edge w', edge ∈ level_edges fuel edges ∧ GetEdgeType edge = DirectEdge ∧
    GetUniqueLabel (GetTo edge) = ToObjectRelationString (rr_Type u) (rr_GetRelation u) ∧
    edge_GetWeight edge userType = Some w' ∧ w' ≤ 2.
Proof.
  intros Hnode Hnd Hsel u Hu. unfold UsersetCanFastPathWeight2 in Hsel. rewrite Hnode in Hsel.
  set (allowed := list_to_set _ : gset string) in Hsel.
  apply weight2_levels_spec in Hsel as (new&Hlen&Hsub&Hnew). apply Nat.eqb_eq in Hlen. rewrite app_nil_l in Hlen. rewrite Forall_forall in Hnew.
  set (label := λ e, GetUniqueLabel (GetTo e)) in *.
  assert (∀ e, e ∈ new → GetEdgeType e = DirectEdge ∧ label e ∈ allowed) as Hw.
  { intros e [Hw _]%Hnew. apply andb_true_iff in Hw as [?%bool_decide_eq_true ?%bool_decide_eq_true]. done. }
  assert (NoDup (label <$> new)) as Hnd'.
  { eapply sublist_NoDup; [exact Hnd|]. apply fmap_sublist.
    assert (List.filter (λ e, bool_decide (GetEdgeType e = DirectEdge)) new = new) as <-.
    { clear -Hw. induction new as [|e new IH]; [done|]. simpl. destruct (Hw e) as [Hd _]; [by left|]. rewrite (bool_decide_true _ Hd). f_equal.
      apply IH. intros e' He'. apply Hw. by right. }
    clear -Hsub. induction Hsub as [|e l l' Hs IH|e l l' Hs IH]; simpl; [done|case_bool_decide; [by apply sublist_skip|done]|].
    case_bool_decide; [by apply sublist_cons|done]. }
  assert (list_to_set (label <$> new) ≡@{gset string} allowed) as Heq.
  { apply set_subseteq_size_equiv.
    - intros x (e&->&He)%elem_of_list_to_set%list_elem_of_fmap. by apply Hw.
    - rewrite size_list_to_set by done. rewrite length_fmap. lia. }
  assert (ToObjectRelationString (rr_Type u) (rr_GetRelation u) ∈ allowed) as Hx.
  { unfold allowed. apply elem_of_list_to_set, list_elem_of_fmap. by exists u. }
  rewrite <-Heq in Hx. apply elem_of_list_to_set, list_elem_of_fmap in Hx as (e&He&Hin). destruct (Hnew e Hin) as (_&w'&?&?).
  destruct (Hw e Hin). exists e, w'. split_and!; try done. by eapply elem_of_sublist.
Qed.
End selection_spec.

(** ** The edges of an intersection *)

Section intersection_spec.
Context `{!WeightedGraph} (sourceType : string).

Abbreviation weight e := (default 0 (edge_GetWeight e sourceType)).
Abbreviation path e := (edgeHasPathTo e sourceType).
Abbreviation is_direct e := (bool_decide (GetEdgeType e = DirectEdge)).

(** Weights count from one. *)
Definition weights_positive (edges : list wedge) : Prop :=
  ∀ e w, e ∈ edges → edge_GetWeight e sourceType = Some w → 0 < w.

Lemma direct_pass_spec edges : ∀ direct nonDirect areLowest lowestWeight direct' nonDirect' areLowest' lowestWeight',
  direct_pass sourceType edges direct nonDirect areLowest lowestWeight = (direct', nonDirect', areLowest', lowestWeight') →
  direct' = direct ++ List.filter (λ e, is_direct e && path e) edges ∧
  nonDirect' = nonDirect ++ List.filter (λ e, negb (is_direct e) && path e) edges ∧
  lowestWeight ≤ lowestWeight' ∧
  (∀ e, e ∈ List.filter (λ e, is_direct e && path e) edges → weight e ≤ lowestWeight') ∧
  (lowestWeight' = lowestWeight ∧ areLowest' = areLowest ∨
   areLowest' = true ∧ lowestWeight < lowestWeight' ∧
   ∃ e, e ∈ List.filter (λ e, is_direct e && path e) edges ∧ weight e = lowestWeight').
Proof.
  induction edges as [|e edges IH]; intros direct nonDirect areLowest lw direct' nonDirect' areLowest' lw'; cbn [direct_pass].
  { intros [= <- <- <- <-]. simpl. rewrite !app_nil_r. split_and!; [done|done|lia|by intros e ?%not_elem_of_nil|by left]. }
  cbn [List.filter]. assert (path e = match edge_GetWeight e sourceType with Some _ => true | None => false end) as -> by done.
  destruct (edge_GetWeight e sourceType) as [w|] eqn:Hw; [|rewrite !andb_false_r; apply IH].
  rewrite !andb_true_r. case_bool_decide as Hd; cbn [negb].
  - assert (weight e = w) as Hwe by (by rewrite Hw). destruct (w >? lw) eqn:Hgt; rewrite Z.gtb_ltb in Hgt.
    + apply Z.ltb_lt in Hgt. intros (->&->&Hle&Hall&Hcase)%IH. rewrite <-app_assoc. split_and!; try done; [lia| |].
      * intros e' [->|He']%elem_of_cons; [lia|by apply Hall].
      * right. destruct Hcase as [[-> ->]|(->&?&e'&?&?)]; (split_and!; [done|lia|]); [exists e; split; [by left|done]|exists e'; split; [by right|done]].
    + apply Z.ltb_ge in Hgt. intros (->&->&Hle&Hall&Hcase)%IH. rewrite <-app_assoc. split_and!; try done.
      * intros e' [->|He']%elem_of_cons; [lia|by apply Hall].
      * destruct Hcase as [[-> ->]|(->&?&e'&?&?)]; [by left|right]. split_and!; [done..|]. exists e'. split; [by right|done].
  - intros (->&->&?)%IH. by rewrite <-app_assoc.
Qed.

Lemma lowest_pass_spec noDirect edges : ∀ first lowest lowestWeight areLowest lowest' areLowest',
  lowest_pass sourceType noDirect first edges lowest lowestWeight areLowest = (lowest', areLowest') →
  (lowest' = lowest ∧ areLowest' = areLowest ∧ (edges = [] ∨ first && noDirect = false) ∧ ∀ e, e ∈ edges → lowestWeight ≤ weight e) ∨
  (∃ l, l ∈ edges ∧ lowest' = Some l ∧ areLowest' = false ∧ (first && noDirect = true ∨ weight l < lowestWeight) ∧
     ∀ e, e ∈ edges → weight l ≤ weight e).
Proof.
  induction edges as [|e edges IH]; intros first lowest lw are lowest' are'; cbn [lowest_pass].
  { intros [= <- <-]. left. split_and!; try done; [by left|by intros e ?%not_elem_of_nil]. }
  destruct ((weight e <? lw) || (first && noDirect)) eqn:Hc.
  - intros [(->&->&_&Hall)|(l&Hl&->&->&[?|Hlt]&Hall)]%IH; [right; exists e|done|right; exists l].
    + apply orb_true_iff in Hc as [Hc%Z.ltb_lt|Hc]; (split_and!; [by left|done..|by auto|]); intros e' [->|He']%elem_of_cons; auto; lia.
    + split_and!; [by right|done..| |].
      * apply orb_true_iff in Hc as [Hc%Z.ltb_lt|Hc]; [right; lia|by left].
      * intros e' [->|He']%elem_of_cons; auto; lia.
  - apply orb_false_iff in Hc as [Hc%Z.ltb_ge Hf]. intros [(->&->&_&Hall)|(l&Hl&->&->&[?|Hlt]&Hall)]%IH; [left|done|right; exists l].
    + split_and!; try done; [by right|]. intros e' [->|He']%elem_of_cons; auto.
    + split_and!; [by right|done..|by right|]. intros e' [->|He']%elem_of_cons; auto; lia.
Qed.

Lemma siblings_of_spec lowest edges :
  match siblings_of sourceType lowest edges with
  | Some l => l = List.filter (λ e, negb (is_direct e) && negb (bool_decide (Some e = lowest))) edges ∧ ∀ e, e ∈ l → path e = true
  | None => ∃ e, e ∈ edges ∧ is_direct e = false ∧ Some e ≠ lowest ∧ path e = false
  end.
Proof.
  induction edges as [|e edges IH]; cbn [siblings_of List.filter]; [split; [done|]; by intros e ?%not_elem_of_nil|].
  destruct (negb (is_direct e) && negb (bool_decide (Some e = lowest))) eqn:Hs.
  - destruct (path e) eqn:Hp; cbn [negb].
    + destruct (siblings_of sourceType lowest edges) as [l|]; simpl.
      * destruct IH as [-> IH]. split; [done|]. intros e' [->|He']%elem_of_cons; auto.
      * destruct IH as (e'&?&?). exists e'. split; [by right|done].
    + exists e. apply andb_true_iff in Hs as [Hs1%negb_true_iff Hs2%negb_true_iff%bool_decide_eq_false]. by split_and!; [left|..].
  - destruct (siblings_of sourceType lowest edges) as [l|]; [done|]. destruct IH as (e'&?&?). exists e'. split; [by right|done].
Qed.

(** What the edges of an intersection are split into. *)
Record intersection_split (edges : list wedge) (ie : IntersectionEdges) : Prop := {
  is_direct_edges : DirectEdges ie = List.filter (λ e, is_direct e && path e) edges;
  is_siblings : Siblings ie = List.filter (λ e, negb (is_direct e) && negb (bool_decide (Some e = LowestEdge ie))) edges;
  is_connected e : e ∈ Siblings ie → path e = true;
  (** the lowest edge is one of the others, not above a sibling and below the direct edges *)
  is_lowest l : LowestEdge ie = Some l →
    l ∈ edges ∧ is_direct l = false ∧ DirectEdgesAreLeastWeight ie = false ∧
    (∀ e, e ∈ Siblings ie → weight l ≤ weight e) ∧
    (DirectEdges ie ≠ [] → ∃ d, d ∈ DirectEdges ie ∧ weight l < weight d);
  (** without one the direct edges are not above any other, or nothing leads to the type *)
  is_direct_lowest : LowestEdge ie = None →
    (DirectEdgesAreLeastWeight ie = true ∧ DirectEdges ie ≠ [] ∧
     ∀ d e, d ∈ DirectEdges ie → e ∈ Siblings ie → weight d ≤ weight e) ∨
    ∀ e, e ∈ edges → path e = false;
}.

Lemma elem_of_filter_true {A} (f : A → bool) l x : x ∈ List.filter f l ↔ x ∈ l ∧ f x = true.
Proof. rewrite !list_elem_of_In. apply List.filter_In. Qed.

(** C19: the edges that the listing of objects takes from an intersection: the direct edges
    together, one edge of lowest weight or none when the direct edges are lowest, and the
    siblings, all of which lead to the source type; nothing is returned only when some
    operand does not lead to the type. *)
Theorem GetEdgesForIntersection_correct (edges : list wedge) :
  weights_positive edges →
  match GetEdgesForIntersection edges sourceType with
  | Ret ie => intersection_split edges ie ∨ ie = emptyIntersectionEdges ∧ ∃ e, e ∈ edges ∧ path e = false
  | Throw e => e = ErrInvalidIntersection sourceType ∧ (length edges < 2)%nat
  | Panic _ => False
  end.
Proof.
  intros Hpos. destruct edges as [|e0 [|e1 rest]]; [split; [done|simpl; lia]..|].
  unfold GetEdgesForIntersection. set (edges := e0 :: e1 :: rest) in *. change (match edges with first :: _ :: _ => _ | _ => _ end) with
    (let '(direct, nonDirect, areLowest, lowestWeight) := direct_pass sourceType edges [] [] false 0 in
      if (lowestWeight =? 0) && is_direct e0 then Ret emptyIntersectionEdges
      else
        let '(lowest, areLowest) := lowest_pass sourceType (bool_decide (direct = [])) true nonDirect None lowestWeight areLowest in
        match siblings_of sourceType lowest edges with
        | None => Ret emptyIntersectionEdges
        | Some siblings => Ret (mkIntersectionEdges lowest siblings direct areLowest)
        end : outcome WgErr IntersectionEdges).
  destruct (direct_pass sourceType edges [] [] false 0) as [[[direct nonDirect] are] lw] eqn:Hdp.
  apply direct_pass_spec in Hdp as (Hdir&Hnon&Hlw&Hall&Hcase). rewrite app_nil_l in Hdir, Hnon.
  assert (lw = 0 → direct = []) as Hnone.
  { intros ->. destruct direct as [|d direct]; [done|]. assert (d ∈ List.filter (λ e, is_direct e && path e) edges) as Hd by (rewrite <-Hdir; by left).
    specialize (Hall d Hd). apply elem_of_filter_true in Hd as [Hin [_ Hp]%andb_true_iff]. unfold edgeHasPathTo, hasPathTo in Hp.
    destruct (edge_GetWeight d sourceType) as [w|] eqn:Hw; [|done]. specialize (Hpos d w Hin Hw). simpl in Hall. lia. }
  destruct ((lw =? 0) && is_direct e0) eqn:He0.
  { right. split; [done|]. apply andb_true_iff in He0 as [H0%Z.eqb_eq Hd0]. exists e0. split; [by left|].
    destruct (path e0) eqn:Hp; [|done]. specialize (Hnone H0). rewrite Hdir in Hnone.
    assert (e0 ∈ List.filter (λ e, is_direct e && path e) edges) as Hin by (apply elem_of_filter_true; split; [by left|]; by rewrite Hd0, Hp).
    rewrite Hnone in Hin. by apply not_elem_of_nil in Hin. }
  destruct (lowest_pass sourceType (bool_decide (direct = [])) true nonDirect None lw are) as [lowest are'] eqn:Hlp. apply lowest_pass_spec in Hlp.
  pose proof (siblings_of_spec lowest edges) as Hsib. destruct (siblings_of sourceType lowest edges) as [siblings|].
  2:{ right. split; [done|]. destruct Hsib as (e&?&_&_&?). by exists e. }
  destruct Hsib as [Hsib Hpath].
  assert (∀ e, e ∈ siblings → e ∈ nonDirect) as Hsub.
  { intros e He. pose proof (Hpath e He) as Hp. rewrite Hsib in He. apply elem_of_filter_true in He as [Hin [Hd _]%andb_true_iff].
    rewrite Hnon. apply elem_of_filter_true. split; [done|]. by rewrite Hd, Hp. }
  assert (direct ≠ [] → are = true ∧ ∃ d, d ∈ direct ∧ weight d = lw) as Hdirect.
  { intros Hne. destruct Hcase as [[H0 _]|(?&_&d&?&?)]; [by apply Hnone in H0|]. split; [done|]. exists d. by rewrite Hdir. }
  left. split; cbn [DirectEdges Siblings LowestEdge DirectEdgesAreLeastWeight]; try done.
  - intros l ->. destruct Hlp as [(?&_)|(l'&Hl'&[= <-]&->&Hlt&Hmin)]; [done|]. pose proof Hl' as Hin. rewrite Hnon in Hin.
    apply elem_of_filter_true in Hin as [Hin [Hd%negb_true_iff _]%andb_true_iff]. split_and!; [done..|by auto|].
    intros Hne. destruct (Hdirect Hne) as (_&d&Hd'&Hw). exists d. split; [done|].
    destruct Hlt as [Hlt%bool_decide_eq_true|]; [done|]. lia.
  - intros ->. destruct Hlp as [(_&->&Hnil&Hmin)|(l'&_&?&_)]; [|done]. destruct (decide (direct = [])) as [Hd|Hd].
    + right. destruct Hnil as [Hnil|Hnil%bool_decide_eq_false]; [|done]. intros e He. destruct (path e) eqn:Hp; [|done]. exfalso.
      destruct (is_direct e) eqn:Hde.
      * apply (not_elem_of_nil e). rewrite <-Hd, Hdir. apply elem_of_filter_true. by rewrite Hde, Hp.
      * apply (not_elem_of_nil e). rewrite <-Hnil, Hnon. apply elem_of_filter_true. by rewrite Hde, Hp.
    + left. destruct (Hdirect Hd) as [-> _]. split_and!; [done..|]. intros d e Hin He. rewrite Hdir in Hin. specialize (Hall d Hin).
      specialize (Hmin e (Hsub e He)). lia.
Qed.

Lemma GetEdgesForExclusion_spec edges :
  match GetEdgesForExclusion edges sourceType with
  | Ret (base, excluded) => ∃ init butNot, edges = init ++ [butNot] ∧ init ≠ [] ∧ base = List.filter (λ e, path e) init ∧
      excluded = if path butNot then Some butNot else None
  | Throw e => e = ErrInvalidExclusion sourceType ∧ (length edges < 2)%nat
  | Panic _ => False
  end.
Proof.
  unfold GetEdgesForExclusion. destruct edges as [|butNot init _] using rev_ind; [split; [done|simpl; lia]|].
  rewrite last_snoc, length_app, removelast_last. cbn [length]. destruct (Nat.ltb_spec (length init + 1) 2); [done|].
  assert (init ≠ []) as Hne by (intros ->; simpl in *; lia).
  destruct (path butNot) eqn:Hp; cbn [negb]; exists init, butNot; by rewrite Hp.
Qed.
End intersection_spec.

(** ** Graphs as lists *)

Record list_node := mkNode { ln_id : string; ln_type : NodeType; ln_label : string; ln_weights : list (string * Z) }.
Record list_edge := mkEdge { le_type : EdgeType; le_to : list_node; le_tupleset : string; le_weights : list (string * Z) }.

#[global] Instance list_node_eq : EqDecision list_node.
Proof. solve_decision. Defined.
#[global] Instance list_edge_eq : EqDecision list_edge.
Proof. solve_decision. Defined.

Definition list_weight (weights : list (string * Z)) (ty : string) : option Z :=
  snd <$> List.find (λ p, p.1 =s ty) weights.

(** A graph given by its nodes with their edges. *)
Definition list_WeightedGraph : WeightedGraph := {|
  wgraph := list (list_node * list list_edge);
  wnode := list_node;
  wedge := list_edge;
  GetNodeByID g id := fst <$> List.find (λ p, ln_id p.1 =s id) g;
  wg_GetEdgesFromNode g n := snd <$> List.find (λ p, ln_id p.1 =s ln_id n) g;
  node_GetWeight n := list_weight (ln_weights n);
  GetUniqueLabel := ln_id;
  GetNodeType := ln_type;
  GetLabel := ln_label;
  edge_GetWeight e := list_weight (le_weights e);
  GetEdgeType := le_type;
  GetTo := le_to;
  GetTuplesetRelation := le_tupleset;
  Infinite := 2147483647;
  ExclusionOperator := "exclusion";
  IntersectionOperator := "intersection";
  UnionOperator := "union";
|}.

Definition type_node (ty : string) : list_node := mkNode ty SpecificType ty [(ty, 1)].
Definition relation_of (label : string) (weights : list (string * Z)) : list_node := mkNode label SpecificTypeAndRelation label weights.

(** [user, group#member] and b: the direct edges have weights one and two, b has one. *)
Definition demo_intersection : list list_edge :=
  [mkEdge DirectEdge (type_node "user") "" [("user", 1)];
   mkEdge DirectEdge (relation_of "group#member" [("user", 1)]) "" [("user", 2)];
   mkEdge ComputedEdge (relation_of "doc#b" [("user", 1)]) "" [("user", 1)];
   mkEdge ComputedEdge (relation_of "doc#c" [("user", 3)]) "" [("user", 3)]].

Lemma GetEdgesForIntersection_correct_witness :
  @GetEdgesForIntersection list_WeightedGraph demo_intersection "user" =
    Ret (@mkIntersectionEdges list_WeightedGraph (demo_intersection !! 2%nat) (drop 3 demo_intersection) (take 2 demo_intersection) false) ∧
  @intersection_split list_WeightedGraph "user" demo_intersection
    (@mkIntersectionEdges list_WeightedGraph (demo_intersection !! 2%nat) (drop 3 demo_intersection) (take 2 demo_intersection) false).
Proof.
  pose proof (@GetEdgesForIntersection_correct list_WeightedGraph "user" demo_intersection) as Hc.
  assert (@GetEdgesForIntersection list_WeightedGraph demo_intersection "user" =
    Ret (@mkIntersectionEdges list_WeightedGraph (demo_intersection !! 2%nat) (drop 3 demo_intersection) (take 2 demo_intersection) false)) as Heq
    by (vm_compute; reflexivity).
  split; [exact Heq|]. rewrite Heq in Hc. destruct Hc as [Hs|[Hn _]]; [|exact Hs|by vm_compute in Hn].
  intros e w He Hw. unfold demo_intersection in He. rewrite !elem_of_cons in He.
  destruct He as [->|[->|[->|[->|He]]]]; [vm_compute in Hw; injection Hw as <-; lia..|by apply not_elem_of_nil in He].
Defined.
