(* ===== verification/FastPathMemory.v ===== *)
(** * The fast paths of Check over the in-memory datastore

    The sorted reads of [Memory.v] meet what the fast paths rely on; Check with its fast
    paths on a model of weight two; and a model whose relation refers to two usersets of a
    type, where the fast path grants what Check without it denies. *)

From stdpp Require Import relations.
From S2P Require Import Prelude GoStd Tuple Iterators Model Memory MemorySpec Typesystem Entrypoints TypesystemSpec.
From S2P Require Import Condition Validation ValidationSpec Check CheckSpec CheckSemantics CheckExact CheckMemory CombinedReader.
From S2P Require Import WeightedGraph ReverseExpand ReverseExpandMemory FastPathStreams FastPathStreamsSpec FastPath FastPathSpec SortedCombined FastPathExact.

Local Open Scope Z_scope.
Local Open Scope go_scope.

(** ** Sorted reads *)

Lemma str_ltb_prefix p a b : String.ltb (p +:+ a) (p +:+ b) = String.ltb a b.
Proof.
  induction p as [|c p IH]; [done|]. unfold String.ltb in *. simpl.
  replace (Ascii.compare c c) with Eq; [done|]. symmetry. apply N.compare_refl.
Qed.

Lemma omap_none {A B} (f : A → string) (x : string) (t : B) us :
  x ∉ f <$> us → omap (λ u, if negb (f u =s x) then None else Some t) us = [].
Proof.
  induction us as [|v us IH]; [done|]. rewrite fmap_cons, not_elem_of_cons. intros [Hv Hus]. simpl.
  rewrite bool_decide_false by congruence. by apply IH.
Qed.

Lemma omap_once {A B} (f : A → string) (x : string) (t : B) us :
  NoDup (f <$> us) → omap (λ u, if negb (f u =s x) then None else Some t) us `sublist_of` [t].
Proof.
  induction us as [|u us IH]; [intros; apply sublist_nil_l|]. rewrite fmap_cons. intros [Hu Hnd]%NoDup_cons. simpl.
  case_bool_decide as He; simpl; [|by apply IH]. pose proof (omap_none f x t us ltac:(by rewrite <-He)) as Hnil.
  unfold omap in Hnil. rewrite Hnil. done.
Qed.

(** A tuple is appended at most once when the filters name different users. *)
Lemma starting_matches_once filter t :
  NoDup (target_user <$> rsf_UserFilter filter) → starting_matches filter t `sublist_of` [t].
Proof.
  intros Hnd. unfold starting_matches. destruct (negb _); [apply sublist_nil_l|]. destruct (negb _); [apply sublist_nil_l|].
  destruct (match rsf_ObjectIDs filter with Some ids => _ | None => false end); [apply sublist_nil_l|].
  exact (omap_once target_user (tr_User t) t _ Hnd).
Qed.

Lemma sublist_concat {A} (g : A → list A) l : (∀ x, g x `sublist_of` [x]) → concat (g <$> l) `sublist_of` l.
Proof. intros Hg. induction l as [|x l IH]; simpl; [done|]. exact (sublist_app _ _ _ _ (Hg x) IH). Qed.

Lemma starting_records_nodup `{!SortSlice} s store filter recs :
  NoDup (rec_key <$> store_tuples s store) → NoDup (target_user <$> rsf_UserFilter filter) →
  ReadStartingWithUser s store filter = Ret (mkStatic recs "") → NoDup (rec_key <$> recs).
Proof.
  intros Hnd Hu [= <-]. rewrite sort_slice_perm.
  eapply sublist_NoDup; [exact Hnd|]. apply fmap_sublist, sublist_concat. intros t. by apply starting_matches_once.
Qed.

Section sorted.
Context `{!SortSlice} (s : MemoryBackend) (Hinv : backend_inv s) (store : string).

Lemma records_ascending ty (recs : list TupleRecord) :
  (∀ x, x ∈ recs → tr_ObjectType x = ty) → StronglySorted (λ a b, String.le (tr_ObjectID a) (tr_ObjectID b)) recs →
  NoDup (rec_key <$> recs) →
  (∀ x y, x ∈ recs → y ∈ recs → tr_ObjectID x = tr_ObjectID y → rec_key x = rec_key y) →
  StronglySorted (key_before ObjectMapper) (AsTuple <$> recs).
Proof.
  induction recs as [|x recs IH]; intros Hty Hs Hnd Huniq; [constructor|]. apply NoDup_cons in Hnd as [Hx Hnd].
  apply StronglySorted_inv in Hs as [Hs Hle]. rewrite fmap_cons. constructor.
  - apply IH; [intros y ?; apply Hty; by right|done|done|]. intros y z ??. apply Huniq; by right.
  - apply Forall_forall. intros z (y&->&Hy)%list_elem_of_fmap. unfold key_before, ObjectMapper. simpl. unfold BuildObject.
    rewrite (Hty x) by by left. rewrite (Hty y) by by right. rewrite !str_ltb_prefix, str_ltb_lt. intros Hge.
    rewrite Forall_forall in Hle. apply Hx. rewrite (Huniq x y); [by apply list_elem_of_fmap_2|by left|by right|].
    apply (anti_symm String.le); [by apply Hle|done].
Qed.

Lemma memory_sorted_reads :
  @sorted_reads (memory_Reader s) store (memory_ReaderSpec s Hinv store) (ReadStartingWithUser s).
Proof.
  intros ty r users _ _ Hnd Huniq. destruct (memory_ReadStartingWithUser s Hinv store ty r users) as (it&Hget&Hit).
  destruct (ReadStartingWithUser_elements s store (mkReadStartingWithUserFilter ty r users None)) as (recs&Hget'&Hsort&Hin).
  rewrite Hget in Hget'. injection Hget' as ->. exists (mkStatic recs ""). split; [exact Hget|]. split; [|exact Hit].
  change (StronglySorted (key_before ObjectMapper) (AsTuple <$> recs)).
  pose proof Hinv as [Hstores _]. destruct (Hstores store) as [Hwf Hkeys _].
  apply (records_ascending ty); [|done|exact (starting_records_nodup s store (mkReadStartingWithUserFilter ty r users None) recs Hkeys Hnd Hget)|].
  - intros x Hx. by apply Hin in Hx as (_&?&_).
  - intros x y Hx Hy Hid. assert (tr_ObjectType x = ty ∧ tr_ObjectType y = ty) as [Htx Hty].
    { apply Hin in Hx as (_&?&_). by apply Hin in Hy as (_&?&_). }
    assert (AsTuple x = AsTuple y) as Heq.
    { assert (∀ z, z ∈ recs → AsTuple z ∈ AsTuple <$> store_tuples s store ∧ read_matches ty r users (AsTuple z)) as Hz.
      { intros z Hz. apply Hit. simpl. by apply list_elem_of_fmap_2. }
      destruct (Hz x Hx), (Hz y Hy). apply Huniq; try done. simpl. by rewrite Htx, Hty, Hid. }
    rewrite <-!AsTuple_key by (rewrite Forall_forall in Hwf; apply Hwf; by eapply Hin). by rewrite Heq.
Qed.
End sorted.

(** ** A setting to run the fast paths in *)

(** The channels of the left side one after the other, then the right side. *)
Lemma fan_in_nil {A} (chans : list (list A)) out : fan_in chans out → fan_in ([] :: chans) out.
Proof.
  induction 1 as [chans Hnil|chans i m rest out Hi Hf IH]; [constructor; by constructor|].
  apply (fan_in_next _ (S i) m rest); [done|]. exact IH.
Qed.

Lemma fan_in_concat {A} (chans : list (list A)) : fan_in chans (concat chans).
Proof.
  induction chans as [|c chans IH]; simpl; [by constructor|]. induction c as [|m c IHc]; simpl; [by apply fan_in_nil|].
  by apply (fan_in_next _ 0%nat m c).
Qed.

Definition left_first_arrivals {I} (left : list (Msg I)) (right : list usersetMessage) : list (Arrival I) :=
  (LeftMsg <$> left) ++ LeftClosed :: (RightMsg <$> right) ++ [RightClosed].

Lemma left_first_order {I} (left : list (Msg I)) right : arrivals (Some left) (Some right) (left_first_arrivals left right).
Proof.
  unfold left_first_arrivals. induction left as [|m left IH]; simpl; [|by constructor]. constructor.
  induction right as [|m right IH]; simpl; repeat constructor. done.
Qed.

Definition left_first_Scheduler I : FastScheduler I.
Proof.
  refine {| fast_arrivals chans right := left_first_arrivals (concat chans) right |}.
  intros chans right. exists (concat chans). split; [apply fan_in_concat|apply left_first_order].
Defined.

(** The fast paths that the weighted graph selects. *)
Definition graph_paths `{!ModelGraph, !Cel, !StartingReader, !FastScheduler string_iter, !WeightedGraph}
    (typesys : TypeSystem) (conds : gmap string EvaluableCondition) (wg : option wgraph) (fuel : nat) : FastPaths :=
  weight2_paths typesys conds
    (λ o r u l, default false (UsersetCanFastPathWeight2 wg fuel o r u l))
    (λ o r u ts c, default false (TTUCanFastPathWeight2 wg fuel o r u ts c)).

Section demo.
Context (t : @TypeSystem demo_Graph) (writes contextual : list TupleKey).

(** The readers of a request: its contextual tuples with the datastore's. *)
Definition demo_combined : CombinedTupleReader := @NewCombinedTupleReader stable_SortSlice contextual.
Definition demo_Reader : RelationshipTupleReader := @combined_Reader (memory_Reader (backend_with writes)) demo_combined.
Definition demo_Starting : StartingReader :=
  @sorted_StartingReader (memory_Reader (backend_with writes)) demo_combined (@ReadStartingWithUser stable_SortSlice (backend_with writes)).

Definition demo_paths (wg : list (list_node * list list_edge)) : FastPaths :=
  @graph_paths demo_Graph demo_Cel demo_Starting (left_first_Scheduler _) list_WeightedGraph t ∅ (Some wg) 10.

Definition demo_run (fp : FastPaths) (tk : TupleKey) : checkOutcome :=
  @ResolveCheck demo_Graph demo_Cel rev_Scheduler demo_Reader t ∅ fp 25
    (@check_fuel demo_Graph t 25 (initial_request "store" tk None)) (initial_request "store" tk None).

Definition slow_check (tk : TupleKey) : checkOutcome := demo_run no_paths tk.
Definition fast_check (wg : list (list_node * list list_edge)) (tk : TupleKey) : checkOutcome := demo_run (demo_paths wg) tk.
End demo.

(** ** A relation with two usersets of a type *)

(** type group with member: [user] and owner: [user], type doc with viewer:
    [group#member, group#owner]. *)
Definition two_model : AuthorizationModel :=
  mkAuthorizationModel "model" "1.1"
    [mkTypeDefinition "user" ∅ ∅;
     mkTypeDefinition "group" (<["member" := This]> {["owner" := This]})
       (<["member" := [DirectRelationReference "user" ""]]> {["owner" := [DirectRelationReference "user" ""]]});
     mkTypeDefinition "doc" {["viewer" := This]}
       {["viewer" := [DirectRelationReference "group" "member"; DirectRelationReference "group" "owner"]]}] ∅.

(** Its weighted graph. *)
Definition two_graph : list (list_node * list list_edge) :=
  let user := type_node "user" in
  let member := relation_of "group#member" [("user", 1)] in
  let owner := relation_of "group#owner" [("user", 1)] in
  [(user, []); (member, [mkEdge DirectEdge user "" [("user", 1)]]); (owner, [mkEdge DirectEdge user "" [("user", 1)]]);
   (relation_of "doc#viewer" [("user", 2)],
     [mkEdge DirectEdge member "" [("user", 2)]; mkEdge DirectEdge owner "" [("user", 2)]])].

(** The members of group:a are viewers of doc:1; user:x owns group:a and is no member. *)
Definition two_tuples : list TupleKey :=
  [NewTupleKey "doc:1" "viewer" "group:a#member"; NewTupleKey "group:a" "owner" "user:x"; NewTupleKey "group:b" "member" "user:y"].

(** With a relation of two usersets of a type, the fast path of usersets grants access
    that Check without it denies: the usersets read lose their relation, so that a group
    whose members were assigned is matched with the groups that the user owns.  user:x, who
    owns group:a and is not a member of it, is a viewer of doc:1, which only the members of
    group:a were made. *)
Theorem fast_path_grants_other_relation :
  match validate two_model with
  | Ret t =>
      slow_check t two_tuples [] (NewTupleKey "doc:1" "viewer" "user:x") = Ret (mkResolveCheckResponse false false) ∧
      fast_check t two_tuples [] two_graph (NewTupleKey "doc:1" "viewer" "user:x") = Ret (mkResolveCheckResponse true false)
  | _ => False
  end.
Proof. vm_compute. by split. Qed.

(** ** Two tuples on an object *)

(** type group with member: [user, user:*], type doc with viewer: [group#member]. *)
Definition public_model : AuthorizationModel :=
  mkAuthorizationModel "model" "1.1"
    [mkTypeDefinition "user" ∅ ∅;
     mkTypeDefinition "group" {["member" := This]}
       {["member" := [DirectRelationReference "user" ""; WildcardRelationReference "user"]]};
     mkTypeDefinition "doc" {["viewer" := This]} {["viewer" := [DirectRelationReference "group" "member"]]}] ∅.

Definition public_graph : list (list_node * list list_edge) :=
  let user := type_node "user" in
  let member := relation_of "group#member" [("user", 1)] in
  let everybody := mkNode "user:*" SpecificTypeWildcard "user:*" [("user", 1)] in
  [(user, []); (member, [mkEdge DirectEdge user "" [("user", 1)]; mkEdge DirectEdge everybody "" [("user", 1)]]);
   (relation_of "doc#viewer" [("user", 2)], [mkEdge DirectEdge member "" [("user", 2)]])].

(** Everybody and user:x are members of group:a, user:x is a member of group:b, whose members
    are the viewers of doc:1. *)
Definition public_tuples : list TupleKey :=
  [NewTupleKey "group:a" "member" "user:*"; NewTupleKey "group:a" "member" "user:x"; NewTupleKey "group:b" "member" "user:x";
   NewTupleKey "doc:1" "viewer" "group:b#member"].

(** The fast path of usersets denies access that Check without it grants, when a group is
    assigned both to the user and to everybody: the sorted read behind it meets the group
    twice and drops the next one.  user:x is a member of group:b and so a viewer of
    doc:1; the fast path loses group:b and answers no.  The same happens without a public
    tuple when a contextual tuple repeats a stored one. *)
Theorem fast_path_loses_group :
  match validate public_model with
  | Ret t =>
      slow_check t public_tuples [] (NewTupleKey "doc:1" "viewer" "user:x") = Ret (mkResolveCheckResponse true false) ∧
      fast_check t public_tuples [] public_graph (NewTupleKey "doc:1" "viewer" "user:x") = Ret (mkResolveCheckResponse false false) ∧
      fast_check t (tail public_tuples) [] public_graph (NewTupleKey "doc:1" "viewer" "user:x") = Ret (mkResolveCheckResponse true false) ∧
      fast_check t (tail public_tuples) [NewTupleKey "group:a" "member" "user:x"] public_graph
        (NewTupleKey "doc:1" "viewer" "user:x") = Ret (mkResolveCheckResponse false false)
  | _ => False
  end.
Proof. vm_compute. by repeat split. Qed.

(** ** Deciding the hypotheses of the theorems on concrete settings *)

Section decide.
Context `{!ModelGraph}.

(** Neither a userset nor a tuple-to-userset in the relation. *)
Definition plain_b (rel : RelationDef) : bool :=
  bool_decide (userset_references rel = []) && bool_decide (flattenUserset (rel_Rewrite rel) = [])
  && nonempty_intersections (rel_Rewrite rel).

Definition plain_type_b (t : TypeSystem) (ty : string) : bool :=
  forallb (λ p, plain_b p.2) (map_to_list (default ∅ (relations t !! ty))).

Lemma plain_weight_one t user ty r : plain_type_b t ty = true → weight_one t user ty r.
Proof.
  intros Hb r' rel _ Hrel. apply GetRelation_Ret in Hrel as [_ Hl].
  pose proof (forallb_elem _ _ (r', rel) Hb (proj2 (elem_of_map_to_list _ _ _) Hl)) as Hp. simpl in Hp. unfold plain_b in Hp.
  rewrite !andb_true_iff, !bool_decide_eq_true in Hp. destruct Hp as [[Hu Ht] Hi]. split_and!; [| |done].
  - intros rr Hrr Hg. exfalso. apply (not_elem_of_nil rr). rewrite <-Hu. apply elem_of_filter_true. split; [done|]. by rewrite bool_decide_false.
  - intros ts c tsrel rr Hin. rewrite Ht in Hin. by apply not_elem_of_nil in Hin.
Qed.

Definition one_userset_b (l : list RelationReference) : bool :=
  forallb (λ rr, forallb (λ rr', negb (rr_Type rr =s rr_Type rr') || (rr_GetRelation rr =s rr_GetRelation rr')) l) l.

Lemma one_userset_decide l : one_userset_b l = true →
  ∀ rr rr', rr ∈ l → rr' ∈ l → rr_Type rr = rr_Type rr' → rr_GetRelation rr = rr_GetRelation rr'.
Proof.
  intros Hone rr rr' Hrr Hrr' Hty. pose proof (forallb_elem _ _ rr' (forallb_elem _ _ rr Hone Hrr) Hrr') as Hor. simpl in Hor.
  apply orb_true_iff in Hor as [Hor%negb_true_iff%bool_decide_eq_false|Hor%bool_decide_eq_true]; done.
Qed.

(** Everything that is referenced is plain. *)
Definition weight2_b (t : TypeSystem) : bool :=
  forallb (λ rel, forallb (λ rr, plain_type_b t (rr_Type rr)) (rel_DirectlyRelatedUserTypes rel) && one_userset_b (userset_references rel))
    (all_relations t).

Lemma weight2_decide t user canUserset canTTU : weight2_b t = true → weight2_selection t user canUserset canTTU.
Proof.
  intros Hb. assert (∀ ty r rel, GetRelation t ty r = Ret rel →
    (∀ rr, rr ∈ rel_DirectlyRelatedUserTypes rel → plain_type_b t (rr_Type rr) = true) ∧ one_userset_b (userset_references rel) = true) as Hall.
  { intros ty r rel Hrel. pose proof (forallb_elem _ _ rel Hb (elem_of_all_relations t ty r rel Hrel)) as Hp. simpl in Hp.
    apply andb_true_iff in Hp as [Hp Hone]. split; [|done]. intros rr Hrr. exact (forallb_elem _ _ rr Hp Hrr). }
  split.
  - intros ty r rel Hrel _. destruct (Hall _ _ _ Hrel) as [Hp Hone]. split.
    + intros rr [Hrr _]%elem_of_filter_true. by apply plain_weight_one, Hp.
    + by apply one_userset_decide.
  - intros ty r rel ts c tsrel _ _ Hts _ rr Hrr. apply plain_weight_one. by apply (proj1 (Hall _ _ _ Hts)).
Qed.

(** Names as the API accepts them. *)
Definition names_b (t : TypeSystem) : bool :=
  forallb (λ p : string * gmap string RelationDef,
    negb (has_byte ":" p.1) && forallb (λ q, negb (has_byte "#" q.1)) (map_to_list p.2)) (map_to_list (relations t)).

Lemma names_decide t : names_b t = true → ∀ ty r rel, GetRelation t ty r = Ret rel → has_byte ":" ty = false ∧ has_byte "#" r = false.
Proof.
  intros Hb ty r rel [_ Hl]%GetRelation_Ret. destruct (relations t !! ty) as [rels|] eqn:E; simpl in Hl; [|by rewrite lookup_empty in Hl].
  pose proof (forallb_elem _ _ (ty, rels) Hb (proj2 (elem_of_map_to_list _ _ _) E)) as Hp. simpl in Hp. apply andb_true_iff in Hp as [Hc%negb_true_iff Hr].
  split; [done|]. by apply negb_true_iff, (forallb_elem _ _ (r, rel) Hr (proj2 (elem_of_map_to_list _ _ _) Hl)).
Qed.

Definition tuple_b `{!Cel} (conds : gmap string EvaluableCondition) (reqCtx : option Struct) (user : string) (x : Tuple) : bool :=
  IsValidUser (User (Key x)) && IsValidObject (Object (Key x)) && negb (User (Key x) =s TypedPublicWildcard (GetType user))
  && match condition_filter conds reqCtx (Key x) with Ret _ => true | _ => false end.

Definition fast_setting_b `{!Cel} (t : TypeSystem) (conds : gmap string EvaluableCondition) (tuples : list Tuple) (reqCtx : option Struct)
    (user : string) : bool :=
  names_b t && forallb (tuple_b conds reqCtx user) tuples && IsValidUser user && negb (IsObjectRelation user).

Lemma fast_setting_decide `{!Cel, !MapRange, !ConditionCompiler} m t conds tuples reqCtx user :
  NewAndValidate m = Ret t → fast_setting_b t conds tuples reqCtx user = true → fast_setting m t conds tuples reqCtx user.
Proof.
  intros Hm Hb. unfold fast_setting_b in Hb. rewrite !andb_true_iff in Hb. destruct Hb as [[[Hn Ht] Hu] Ho%negb_true_iff].
  assert (∀ x, x ∈ tuples → IsValidUser (User (Key x)) = true ∧ IsValidObject (Object (Key x)) = true ∧
    User (Key x) ≠ TypedPublicWildcard (GetType user) ∧ ∃ b, condition_filter conds reqCtx (Key x) = Ret b) as Hx.
  { intros x Hx. pose proof (forallb_elem _ _ x Ht Hx) as Hb. unfold tuple_b in Hb. rewrite !andb_true_iff in Hb.
    destruct Hb as [[[? ?] ?%negb_true_iff%bool_decide_eq_false] Hc]. split_and!; [done..|].
    destruct (condition_filter _ _ _); [by eexists|done..]. }
  split; [done|by apply names_decide|intros x ?; by apply Hx..|done|done|].
  intros x x' _ Hx' _ Hw. by destruct (Hx x' Hx') as (_&_&Hne&_).
Qed.
End decide.

Lemma demo_sorted contextual :
  StronglySorted (λ a b, String.ltb (Object b) (Object a) = false) (contextualTuplesOrderedByObjectID (demo_combined contextual)).
Proof.
  unfold demo_combined, NewCombinedTupleReader. cbn [contextualTuplesOrderedByObjectID].
  eapply sorted_weaken; [|apply sort_slice_sorted, (str_key_StrictWeak Object)]. by intros a b.
Qed.

Definition contextual_b (c : CombinedTupleReader) (stored : list Tuple) : bool :=
  forallb (λ t, IsValidUser (User (Key t)) && negb (GetType (User (Key t)) =s "")) (contextual_tuples c)
  && bool_decide (NoDup (key_of <$> contextualTuplesOrderedByObjectID c))
  && forallb (λ t, forallb (λ t', negb (bool_decide (key_of (Key t) = key_of (Key t')))) stored) (contextual_tuples c).

Lemma contextual_decide c stored :
  contextual_b c stored = true → contextual_ok c stored ∧ NoDup (contextualTuplesOrderedByObjectID c).
Proof.
  unfold contextual_b. rewrite !andb_true_iff, bool_decide_eq_true. intros [[Hu Hnd] Hf]. split; [|by eapply NoDup_fmap_1]. split.
  - intros t Ht. pose proof (forallb_elem _ _ t Hu Ht) as Hb. simpl in Hb. apply andb_true_iff in Hb as [? ?%negb_true_iff%bool_decide_eq_false]. done.
  - intros t t' (k&->&Hk)%list_elem_of_fmap (k'&->&Hk')%list_elem_of_fmap Heq. simpl in Heq.
    f_equal. by eapply (NoDup_fmap_elem key_of).
  - intros t t' Ht Ht' Heq. pose proof (forallb_elem _ _ t' (forallb_elem _ _ t Hf Ht) Ht') as Hb. simpl in Hb.
    by apply negb_true_iff, bool_decide_eq_false in Hb.
Qed.

(** ** Check with fast paths on a model of weight two *)

(** type group with member: [user], type folder with owner: [user] and viewer: [user] and
    owner, type doc with parent: [folder] and viewer: [group#member] or viewer from
    parent. *)
Definition weight2_model : AuthorizationModel :=
  mkAuthorizationModel "model" "1.1"
    [mkTypeDefinition "user" ∅ ∅;
     mkTypeDefinition "group" {["member" := This]} {["member" := [DirectRelationReference "user" ""]]};
     mkTypeDefinition "folder" (<["owner" := This]> {["viewer" := Intersection [This; ComputedUserset "owner"]]})
       (<["owner" := [DirectRelationReference "user" ""]]> {["viewer" := [DirectRelationReference "user" ""]]});
     mkTypeDefinition "doc" (<["parent" := This]> {["viewer" := Union [This; TupleToUserset "parent" "viewer"]]})
       (<["parent" := [DirectRelationReference "folder" ""]]> {["viewer" := [DirectRelationReference "group" "member"]]})] ∅.

Definition weight2_graph : list (list_node * list list_edge) :=
  let user := type_node "user" in
  let member := relation_of "group#member" [("user", 1)] in
  let viewer := relation_of "folder#viewer" [("user", 1)] in
  let or := mkNode "union:doc#viewer" OperatorNode "union" [("user", 2)] in
  [(user, []); (member, [mkEdge DirectEdge user "" [("user", 1)]]); (viewer, []);
   (relation_of "doc#viewer" [("user", 2)], [mkEdge RewriteEdge or "" [("user", 2)]]);
   (or, [mkEdge DirectEdge member "" [("user", 2)]; mkEdge TTUEdge viewer "doc#parent" [("user", 2)]])].

(** user:x is in the group, user:y views and owns the folder, user:w only views it; user:z is
    in the group by a contextual tuple. *)
Definition weight2_tuples : list TupleKey :=
  [NewTupleKey "group:a" "member" "user:x"; NewTupleKey "doc:1" "viewer" "group:a#member"; NewTupleKey "doc:1" "parent" "folder:1";
   NewTupleKey "folder:1" "viewer" "user:y"; NewTupleKey "folder:1" "owner" "user:y"; NewTupleKey "folder:1" "viewer" "user:w"].
Definition weight2_contextual : list TupleKey := [NewTupleKey "group:a" "member" "user:z"].
Definition weight2_users : list string := ["user:x"; "user:y"; "user:z"; "user:w"].

Definition weight2_stored : list Tuple :=
  contextual_tuples (demo_combined weight2_contextual) ++ (AsTuple <$> store_tuples (backend_with weight2_tuples) "store").

Lemma weight2_tuples_complete : forallb complete_b weight2_tuples = true.
Proof. reflexivity. Qed.

Lemma weight2_contextual_ok :
  contextual_ok (demo_combined weight2_contextual) (AsTuple <$> store_tuples (backend_with weight2_tuples) "store") ∧
  NoDup (contextualTuplesOrderedByObjectID (demo_combined weight2_contextual)).
Proof. apply contextual_decide. vm_compute. reflexivity. Qed.

Definition weight2_ReaderSpec : @RelationshipTupleReaderSpec (demo_Reader weight2_tuples weight2_contextual) "store" :=
  @combined_ReaderSpec (memory_Reader (backend_with weight2_tuples)) "store"
    (memory_ReaderSpec _ (backend_with_inv _ weight2_tuples_complete) "store") _ (proj1 weight2_contextual_ok).

Definition weight2_SortedSpec : @SortedReaderSpec (demo_Starting weight2_tuples weight2_contextual) "store" weight2_stored :=
  @sorted_SortedReaderSpec (memory_Reader (backend_with weight2_tuples)) "store"
    (memory_ReaderSpec _ (backend_with_inv _ weight2_tuples_complete) "store") _ _
    (@memory_sorted_reads stable_SortSlice _ (backend_with_inv _ weight2_tuples_complete) "store")
    (proj1 weight2_contextual_ok) (proj2 weight2_contextual_ok) (demo_sorted weight2_contextual).

Lemma weight2_facts :
  match validate weight2_model with
  | Ret t =>
      forallb (λ rel, forallb named_ref (rel_DirectlyRelatedUserTypes rel)) (all_relations t)
      && forallb (λ rel, negb (has_difference (rel_Rewrite rel))) (all_relations t)
      && weight2_b t && forallb (@fast_setting_b demo_Graph demo_Cel t ∅ weight2_stored None) weight2_users = true ∧
      (λ u, fast_check t weight2_tuples weight2_contextual weight2_graph (NewTupleKey "doc:1" "viewer" u)) <$> weight2_users =
        (λ b, Ret (mkResolveCheckResponse b false)) <$> [true; true; true; false] ∧
      (λ u, slow_check t weight2_tuples weight2_contextual (NewTupleKey "doc:1" "viewer" u)) <$> weight2_users =
        (λ b, Ret (mkResolveCheckResponse b false)) <$> [true; true; true; false]
  | _ => False
  end.
Proof. vm_compute. by repeat split. Qed.

(** The graph selects both fast paths. *)
Lemma weight2_selected :
  @UsersetCanFastPathWeight2 list_WeightedGraph (Some weight2_graph) 10 "doc" "viewer" "user" [DirectRelationReference "group" "member"] = Some true ∧
  @TTUCanFastPathWeight2 list_WeightedGraph (Some weight2_graph) 10 "doc" "viewer" "user" "parent" "viewer" = Some true.
Proof. vm_compute. by split. Qed.

Lemma weight2_setting t user :
  validate weight2_model = Ret t → user ∈ weight2_users →
  forallb (@fast_setting_b demo_Graph demo_Cel t ∅ weight2_stored None) weight2_users = true →
  @fast_setting demo_Graph demo_Cel map_to_list_MapRange demo_Compiler weight2_model t ∅ weight2_stored None user ∧
  GetType user ≠ "" ∧ request_ok "store" None user (viewer_request user).
Proof.
  intros Hm Hu Hb. split; [|split; [|apply viewer_request_ok]].
  - apply (@fast_setting_decide demo_Graph demo_Cel map_to_list_MapRange demo_Compiler); [exact Hm|]. exact (forallb_elem _ _ user Hb Hu).
  - clear Hb Hm. unfold weight2_users in Hu. rewrite !elem_of_cons in Hu.
    destruct Hu as [->|[->|[->|[->|Hu]]]]; [vm_compute; discriminate..|by apply not_elem_of_nil in Hu].
Qed.

Lemma ResolveCheck_fast_exact_witness :
  match validate weight2_model with
  | Ret t =>
      (∃ n, @granted demo_Graph demo_Cel t ∅ weight2_stored None "user:x" n "doc:1" "viewer") ∧
      (∃ n, @granted demo_Graph demo_Cel t ∅ weight2_stored None "user:z" n "doc:1" "viewer") ∧
      ¬ ∃ n, @granted demo_Graph demo_Cel t ∅ weight2_stored None "user:w" n "doc:1" "viewer"
  | _ => False
  end.
Proof.
  pose proof weight2_facts as Hf. destruct (validate weight2_model) as [t| |] eqn:E; [|done..].
  destruct Hf as (Hb&Hres&_). rewrite !andb_true_iff in Hb. destruct Hb as [[[Hrefs Hpos] Hw] Hset].
  cbn [fmap list_fmap weight2_users] in Hres. injection Hres as Hx Hy Hz Hn.
  assert (∀ user, user ∈ weight2_users →
    match fast_check t weight2_tuples weight2_contextual weight2_graph (NewTupleKey "doc:1" "viewer" user) with
    | Ret resp => Allowed resp = true ↔ ∃ n, @granted demo_Graph demo_Cel t ∅ weight2_stored None user n "doc:1" "viewer"
    | Throw e => fuel_free e
    | Panic _ => False
    end) as Hex.
  { intros user Hu. destruct (weight2_setting t user E Hu Hset) as (Hs&Hty&Hreq).
    refine (@ResolveCheck_fast_exact demo_Graph demo_Cel map_to_list_MapRange demo_Compiler rev_Scheduler demo_GraphLaws
      weight2_model t ∅ (demo_Reader weight2_tuples weight2_contextual) "store" weight2_ReaderSpec
      (demo_Starting weight2_tuples weight2_contextual) weight2_SortedSpec (left_first_Scheduler _) None user _ _ 25 _ (viewer_request user)
      Hs (refs_named_decide _ Hrefs) _ Hty (weight2_decide _ _ _ _ Hw) (positive_decide _ Hpos) Hreq eq_refl (depth_25 _) (le_n _)).
    intros name e He. by rewrite lookup_empty in He. }
  clear E. pose proof (Hex "user:x" (list_elem_of_here _ _)) as Hxe.
  pose proof (Hex "user:z" (list_elem_of_further _ _ _ (list_elem_of_further _ _ _ (list_elem_of_here _ _)))) as Hze.
  pose proof (Hex "user:w" (list_elem_of_further _ _ _ (list_elem_of_further _ _ _ (list_elem_of_further _ _ _ (list_elem_of_here _ _))))) as Hwe. rewrite Hx in Hxe. rewrite Hz in Hze. rewrite Hn in Hwe.
  split_and!; [by apply Hxe|by apply Hze|]. intros Hg. by apply Hwe in Hg.
Defined.

Lemma fast_paths_transparent_witness :
  match validate weight2_model with
  | Ret t => ∀ resp resp',
      fast_check t weight2_tuples weight2_contextual weight2_graph (NewTupleKey "doc:1" "viewer" "user:y") = Ret resp →
      slow_check t weight2_tuples weight2_contextual (NewTupleKey "doc:1" "viewer" "user:y") = Ret resp' →
      CycleDetected resp = false → CycleDetected resp' = false → Allowed resp = Allowed resp'
  | _ => False
  end.
Proof.
  pose proof weight2_facts as Hf. destruct (validate weight2_model) as [t| |] eqn:E; [|done..].
  destruct Hf as (Hb&_). rewrite !andb_true_iff in Hb. destruct Hb as [[[Hrefs Hpos] Hw] Hset].
  destruct (weight2_setting t "user:y" E (list_elem_of_further _ _ _ (list_elem_of_here _ _)) Hset) as (Hs&Hty&Hreq). intros resp resp' Hfast Hslow Hc Hc'.
  refine (@fast_paths_transparent demo_Graph demo_Cel map_to_list_MapRange demo_Compiler rev_Scheduler demo_GraphLaws
    weight2_model t ∅ (demo_Reader weight2_tuples weight2_contextual) "store" weight2_ReaderSpec
    (demo_Starting weight2_tuples weight2_contextual) weight2_SortedSpec (left_first_Scheduler _) None "user:y" _ _ 25 no_paths _ _
    (viewer_request "user:y") resp resp' Hs (refs_named_decide _ Hrefs) _ Hty (weight2_decide _ _ _ _ Hw) no_paths_none Hreq Hfast Hc Hslow Hc').
  intros name e He. by rewrite lookup_empty in He.
Defined.

Lemma ResolveCheck_fast_sound_witness :
  match validate weight2_model with
  | Ret t =>
      (∃ n, @granted demo_Graph demo_Cel t ∅ weight2_stored None "user:y" n "doc:1" "viewer") ∧
      (∃ n, @refuted demo_Graph demo_Cel t ∅ weight2_stored None "user:w" n "doc:1" "viewer")
  | _ => False
  end.
Proof.
  pose proof weight2_facts as Hf. destruct (validate weight2_model) as [t| |] eqn:E; [|done..].
  destruct Hf as (Hb&Hres&_). rewrite !andb_true_iff in Hb. destruct Hb as [[[Hrefs Hpos] Hw] Hset].
  cbn [fmap list_fmap weight2_users] in Hres. injection Hres as Hx Hy Hz Hn.
  assert (∀ user resp, user ∈ weight2_users →
    fast_check t weight2_tuples weight2_contextual weight2_graph (NewTupleKey "doc:1" "viewer" user) = Ret resp →
    (Allowed resp = true → ∃ n, @granted demo_Graph demo_Cel t ∅ weight2_stored None user n "doc:1" "viewer") ∧
    (Allowed resp = false → CycleDetected resp = false → ∃ n, @refuted demo_Graph demo_Cel t ∅ weight2_stored None user n "doc:1" "viewer")) as Hex.
  { intros user resp Hu Hr. destruct (weight2_setting t user E Hu Hset) as (Hs&Hty&Hreq).
    assert (@conds_compiled demo_Cel ∅) as Hcc by (intros name e He; by rewrite lookup_empty in He).
    assert (@weight2_ready demo_Graph demo_Cel map_to_list_MapRange demo_Compiler weight2_model t ∅ weight2_stored None user
      (λ o r u l, default false (@UsersetCanFastPathWeight2 list_WeightedGraph (Some weight2_graph) 10 o r u l))
      (λ o r u ts c, default false (@TTUCanFastPathWeight2 list_WeightedGraph (Some weight2_graph) 10 o r u ts c))) as Hready.
    { split; [intros ty r rel Hrel; by apply (fs_names _ _ _ _ _ _ Hs ty r rel)|]. intros _. right. split; [exact Hs|by apply weight2_decide]. }
    destruct (@ResolveCheck_fast_sound demo_Graph demo_Cel map_to_list_MapRange demo_Compiler rev_Scheduler demo_GraphLaws
      weight2_model t ∅ (demo_Reader weight2_tuples weight2_contextual) "store" weight2_ReaderSpec
      (demo_Starting weight2_tuples weight2_contextual) weight2_SortedSpec (left_first_Scheduler _) None user _ _ 25 _ (viewer_request user) resp
      E (refs_named_decide _ Hrefs) Hcc (fs_users _ _ _ _ _ _ Hs) (fs_user _ _ _ _ _ _ Hs) Hty Hready Hreq Hr) as [Ha Hd].
    split; [intros H; apply (Ha H)|intros H H'; apply (Hd H H')]. }
  clear E. split.
  - by apply (Hex "user:y" _ (list_elem_of_further _ _ _ (list_elem_of_here _ _)) Hy).
  - by apply (Hex "user:w" _ (list_elem_of_further _ _ _ (list_elem_of_further _ _ _ (list_elem_of_further _ _ _ (list_elem_of_here _ _)))) Hn).
Defined.
