(* ===== verification/RecursivePath.v ===== *)
(** * The recursive fast paths of Check: [internal/graph/check_fast_path.go]

    A relation that refers to itself, by a userset such as [group#member] in
    [define member: [user, group#member]] or by a tuple-to-userset such as
    [define viewer: [user] or viewer from parent], is not resolved by a check for every
    userset.  [recursiveFastPath] collects the objects that the user has the relation with
    without recursion ([objectProvider] of object_providers.go) and looks for one of them
    among the usersets of the object, then among the usersets of those, level by level
    ([breadthFirstRecursiveMatch]); a userset is read once, so that cycles among the
    objects end.

    The two sides of the first level arrive in an unspecified order, and so do the
    usersets of a level: a [RecursiveScheduler] chooses both.  The order of a level
    decides only which of several errors is reported.  Cancellation of the request is left
    out.  The number of levels is what the 32-bit depth leaves before it equals the
    maximum. *)

From S2P Require Import Prelude GoStd Tuple Iterators Model Memory Typesystem Condition Validation Check.
From S2P Require Import CombinedReader ReverseExpand FastPathStreams FastPath.

Local Open Scope Z_scope.
Local Open Scope go_scope.

(** ** The objects of the user: [object_providers.go] *)

Section provider.
Context {I : Type} `{!Iterator I string}.

(** What the goroutine of [iteratorsToUserset] sends of one iterator; the iterator is
    stopped at an error. *)
Fixpoint iterator_messages (fuel : nat) (it : I) : outcome CheckErr (list usersetMessage) :=
  match fuel with
  | O => Panic "out of fuel"
  | S fuel =>
      match Next None it with
      | (Ret t, it) => let! rest := iterator_messages fuel it in Ret (UsersetFound t :: rest)
      | (Throw e, _) => Ret (if IterIsDoneOrCancelled e then [] else [UsersetError (ErrCheckIterator e)])
      | (Panic w, _) => Panic w
      end
  end.

(** What it sends of one channel. *)
Fixpoint channel_messages (c : list (Msg I)) : outcome CheckErr (list usersetMessage) :=
  match c with
  | [] => Ret []
  | MsgError e :: _ => Ret [UsersetError (ErrCheckIterator e)]
  | MsgIter it :: rest =>
      let! l := iterator_messages (S (remaining it)) it in
      let! l' := channel_messages rest in
      Ret (l ++ l')
  end.

(** [iteratorsToUserset], before the channels are merged. *)
Fixpoint iteratorsToUserset (chans : list (list (Msg I))) : outcome CheckErr (list (list usersetMessage)) :=
  match chans with
  | [] => Ret []
  | c :: rest =>
      let! l := channel_messages c in
      let! ls := iteratorsToUserset rest in
      Ret (l :: ls)
  end.
End provider.

(** ** The first level *)

(** What the [select] of [recursiveFastPath] receives. *)
Inductive RecArrival :=
| FromUser (m : usersetMessage)
| UserClosed
| FromObject (m : usersetMessage)
| ObjectClosed.

(** The order of the two sides, each in its order and then closed, and the order of the
    usersets of a level. *)
Class RecursiveScheduler := {
  rec_arrivals : list (list usersetMessage) → list usersetMessage → list RecArrival;
  rec_arrivals_order chans right : ∃ left, fan_in chans left ∧
    fan_in [(FromUser <$> left) ++ [UserClosed]; (FromObject <$> right) ++ [ObjectClosed]] (rec_arrivals chans right);
  level_order : gset string → list string;
  level_order_perm level : level_order level ≡ₚ elements level;
}.

Definition allowed_response : checkOutcome := Ret (mkResolveCheckResponse true false).
Definition denied_response : checkOutcome := Ret (mkResolveCheckResponse false false).

(** The loop until both sides are closed: an answer, or the two sets. *)
Fixpoint first_level (usersetFromUser usersetFromObject : gset string) (evs : list RecArrival)
  : checkOutcome + gset string * gset string :=
  match evs with
  | [] => inr (usersetFromUser, usersetFromObject)
  | UserClosed :: rest =>
      if bool_decide (usersetFromUser = ∅) then inl denied_response
      else first_level usersetFromUser usersetFromObject rest
  | FromUser (UsersetError e) :: _ => inl (Throw e)
  | FromUser (UsersetFound u) :: rest =>
      let '(found, usersetFromUser) := processUsersetMessage u usersetFromUser usersetFromObject in
      if found then inl allowed_response else first_level usersetFromUser usersetFromObject rest
  | ObjectClosed :: rest => first_level usersetFromUser usersetFromObject rest
  | FromObject (UsersetError e) :: _ => inl (Throw e)
  | FromObject (UsersetFound u) :: rest =>
      let '(found, usersetFromObject) := processUsersetMessage u usersetFromObject usersetFromUser in
      if found then inl allowed_response else first_level usersetFromUser usersetFromObject rest
  end.

(** ** The levels *)

Record recursiveMapping := mkRecursiveMapping {
  rm_kind : TupleMapperKind;
  rm_tuplesetRelation : string;
  rm_allowedUserTypeRestrictions : list RelationReference;
}.

(** The goroutine of one userset: whether it found a match, the error it sent, and the
    usersets it added to the next level. *)
Fixpoint scan_userset (usersetFromUser : gset string) (msgs : list usersetMessage) (next : gset string)
  : bool * option CheckErr * gset string :=
  match msgs with
  | [] => (false, None, next)
  | UsersetError e :: _ => (false, Some e, next)
  | UsersetFound u :: rest =>
      if bool_decide (u ∈ usersetFromUser) then (true, None, next)
      else scan_userset usersetFromUser rest ({[u]} ∪ next)
  end.

Section recursive.
Context `{!ModelGraph, !Cel, !RelationshipTupleReader, !StartingReader, !RecursiveScheduler}.
Context (typesys : TypeSystem) (conds : gmap string EvaluableCondition) (reqCtx : option Struct).
Context (maxResolutionDepth : Z).

#[local] Instance string_Iterator : Iterator string_iter string := FastPath.string_Iterator conds reqCtx.

(** [buildRecursiveMapper] with what its iterator yields. *)
Definition buildRecursiveMapper (req : ResolveCheckRequest) (mapping : recursiveMapping)
  : outcome CheckErr (list TupleKey * option IterErr) :=
  let tk := rq_TupleKey req in
  let read :=
    match rm_kind mapping with
    | UsersetKind => Some (rd_ReadUsersetTuples (rq_StoreID req)
        (mkReadUsersetTuplesFilter (Object tk) (Relation tk) (rm_allowedUserTypeRestrictions mapping)))
    | TTUKind => Some (rd_Read (rq_StoreID req) (NewTupleKey (Object tk) (rm_tuplesetRelation mapping) ""))
    | ObjectIDKind => None
    end in
  match read with
  | None => Throw (ErrCheckIterator (ErrOther "unsupported mapper kind"))
  | Some (Throw e) => Throw (ErrDatastore e)
  | Some (Panic w) => Panic w
  | Some (Ret iter) => Ret (read_filtered typesys conds reqCtx iter)
  end.

(** The loop over the usersets of a level; [None] for the error when there was none. *)
Fixpoint scan_level (req : ResolveCheckRequest) (mapping : recursiveMapping) (usersetFromUser : gset string)
    (usersets : list string) (visitedUserset next : gset string) (lastErr : option CheckErr)
  : outcome CheckErr (bool * gset string * gset string * option CheckErr) :=
  match usersets with
  | [] => Ret (false, visitedUserset, next, lastErr)
  | userset :: rest =>
      if bool_decide (userset ∈ visitedUserset) then scan_level req mapping usersetFromUser rest visitedUserset next lastErr
      else
        let visitedUserset := {[userset]} ∪ visitedUserset in
        match buildRecursiveMapper (with_relation req userset (Relation (rq_TupleKey req))) mapping with
        | Panic w => Panic w
        | Throw e => scan_level req mapping usersetFromUser rest visitedUserset next (Some e)
        | Ret (keys, final) =>
            let '(found, err, next) := scan_userset usersetFromUser (streamedLookupUsersetFromIterator (rm_kind mapping) keys final) next in
            if found then Ret (true, visitedUserset, next, None)
            else scan_level req mapping usersetFromUser rest visitedUserset next (match err with Some e => Some e | None => lastErr end)
        end
  end.

(** [breadthFirstRecursiveMatch] with the consumer of [recursiveMatchUserUserset], which
    keeps the last error unless a match arrives; [levels] is how often the depth can be
    incremented before it equals the maximum. *)
Fixpoint breadthFirstRecursiveMatch (levels : nat) (req : ResolveCheckRequest) (mapping : recursiveMapping)
    (visitedUserset currentUsersetLevel usersetFromUser : gset string) (lastErr : option CheckErr) : checkOutcome :=
  match levels with
  | O => Throw ErrResolutionDepthExceeded
  | S levels =>
      if bool_decide (currentUsersetLevel = ∅) then denied_or lastErr
      else
        match scan_level req mapping usersetFromUser (level_order currentUsersetLevel) visitedUserset ∅ lastErr with
        | Ret (true, _, _, _) => allowed_response
        | Ret (false, visitedUserset, nextUsersetLevel, lastErr) =>
            breadthFirstRecursiveMatch levels req mapping visitedUserset nextUsersetLevel usersetFromUser lastErr
        | Throw e => Throw e
        | Panic w => Panic w
        end
  end.

(** [Depth++] until it equals the maximum. *)
Definition depth_levels (depth : Z) : nat := Z.to_nat ((maxResolutionDepth - (depth + 1)) mod 2^32).

Definition recursiveMatchUserUserset (req : ResolveCheckRequest) (mapping : recursiveMapping)
    (currentLevelFromObject usersetFromUser : gset string) : checkOutcome :=
  breadthFirstRecursiveMatch (depth_levels (rq_Depth req)) req mapping ∅ currentLevelFromObject usersetFromUser None.

(** [recursiveFastPath]: the objects of the user are only asked for when the object has a
    userset. *)
Definition recursiveFastPath (req : ResolveCheckRequest) (right : list usersetMessage) (mapping : recursiveMapping)
    (begin : outcome CheckErr (list (list (Msg string_iter)))) : checkOutcome :=
  match right with
  | [] => denied_response
  | UsersetError e :: _ => Throw e
  | UsersetFound u :: rest =>
      let! leftChans := begin in
      let! userToUserset := iteratorsToUserset leftChans in
      match first_level ∅ {[u]} (rec_arrivals userToUserset rest) with
      | inl answer => answer
      | inr (usersetFromUser, usersetFromObject) => recursiveMatchUserUserset req mapping usersetFromObject usersetFromUser
      end
  end.

(** [recursiveTTUObjectProvider.Begin]. *)
Definition recursiveTTU_Begin (req : ResolveCheckRequest) (tuplesetRelation computedRelation : string)
  : outcome CheckErr (list (list (Msg string_iter))) :=
  match GetDirectlyRelatedUserTypes typesys (GetType (Object (rq_TupleKey req))) tuplesetRelation with
  | Throw e => Throw (ErrTypesystem e)
  | Panic w => Panic w
  | Ret possibleParents => produceLeftChannels typesys conds reqCtx req possibleParents (BuildTTUV2RelationFunc computedRelation)
  end.

(** [recursiveUsersetObjectProvider.Begin]. *)
Definition recursiveUserset_Begin (req : ResolveCheckRequest) : outcome CheckErr (list (list (Msg string_iter))) :=
  let objectType := GetType (Object (rq_TupleKey req)) in
  produceLeftChannels typesys conds reqCtx req
    [mkRelationReference objectType (Some (RR_Relation (Relation (rq_TupleKey req)))) ""] BuildUsersetV2RelationFunc.

Definition recursiveTTUFastPathV2 (req : ResolveCheckRequest) (rewrite : Userset) (read : list TupleKey * option IterErr) : checkOutcome :=
  let '(tuplesetRelation, computedRelation) :=
    match rewrite with Userset_TupleToUserset tupleset computed => (tupleset, computed) | _ => ("", "") end in
  recursiveFastPath req (streamedLookupUsersetFromIterator TTUKind read.1 read.2)
    (mkRecursiveMapping TTUKind tuplesetRelation []) (recursiveTTU_Begin req tuplesetRelation computedRelation).

Definition recursiveUsersetFastPathV2 (req : ResolveCheckRequest) (read : list TupleKey * option IterErr) : checkOutcome :=
  let directlyRelatedUsersetTypes :=
    match DirectlyRelatedUsersets typesys (GetType (Object (rq_TupleKey req))) (Relation (rq_TupleKey req)) with Ret l => l | _ => [] end in
  recursiveFastPath req (streamedLookupUsersetFromIterator UsersetKind read.1 read.2)
    (mkRecursiveMapping UsersetKind "" directlyRelatedUsersetTypes) (recursiveUserset_Begin req).
End recursive.

(** ** Every fast path of Check *)

(** What selects them. *)
Record FastPathSelection := mkSelection {
  canUserset : string → string → string → list RelationReference → bool;
  canTTU : string → string → string → string → string → bool;
  canRecursiveUserset : string → string → string → bool;
  canRecursiveTTU : string → string → string → string → string → bool;
}.

Definition all_paths `{!ModelGraph, !Cel, !RelationshipTupleReader, !StartingReader, !FastScheduler string_iter, !RecursiveScheduler}
    (typesys : TypeSystem) (conds : gmap string EvaluableCondition) (maxResolutionDepth : Z) (sel : FastPathSelection) : FastPaths := {|
  Check.UsersetCanFastPathWeight2 := canUserset sel;
  Check.RecursiveUsersetCanFastPathV2 := canRecursiveUserset sel;
  Check.TTUCanFastPathWeight2 := canTTU sel;
  Check.RecursiveTTUCanFastPathV2 := canRecursiveTTU sel;
  Check.checkUsersetFastPathV2 req := FastPath.checkUsersetFastPathV2 typesys conds (rq_Context req) req;
  Check.recursiveUsersetFastPathV2 req := recursiveUsersetFastPathV2 typesys conds (rq_Context req) maxResolutionDepth req;
  Check.checkTTUFastPathV2 req := FastPath.checkTTUFastPathV2 typesys conds (rq_Context req) req;
  Check.recursiveTTUFastPathV2 req := recursiveTTUFastPathV2 typesys conds (rq_Context req) maxResolutionDepth req;
|}.
