(* ===== verification/RecursivePathSpec.v ===== *)
(** * What the recursive fast paths answer

    The search of [RecursivePath.v] finds exactly the objects that can be reached through
    the recursion, whatever the order of arrivals and also when the objects form cycles,
    for an abstract step relation; [RecursivePathExact.v] gives the steps of a model. *)

From stdpp Require Import relations.
From S2P Require Import Prelude GoStd Tuple Iterators Model Memory MemorySpec Typesystem Entrypoints TypesystemSpec.
From S2P Require Import Condition Validation ValidationSpec Check CheckSpec CheckSemantics CheckExact CombinedReader ReverseExpand.
From S2P Require Import FastPathStreams FastPathStreamsSpec FastPath FastPathSpec RecursivePath.

Local Open Scope go_scope.

(** ** The first level *)

(** What is left of a side: its messages and then the end, or nothing. *)
Definition side (f : usersetMessage → RecArrival) (closed : RecArrival) (l : list string) (evs : list RecArrival) : Prop :=
  evs = ((λ u, f (UsersetFound u)) <$> l) ++ [closed] ∨ l = [] ∧ evs = [].

Lemma side_cons f closed l m rest :
  side f closed l (m :: rest) →
  (∃ u l', l = u :: l' ∧ m = f (UsersetFound u) ∧ side f closed l' rest) ∨ (l = [] ∧ m = closed ∧ rest = []).
Proof.
  intros [Heq|[_ ?]]; [|done]. destruct l as [|u l]; [right; by simplify_eq/=|]. left. exists u, l.
  injection Heq as -> ->. split_and!; [done..|]. by left.
Qed.

(** The outcome of the first level, whatever the order: a match of the two sides, nothing
    on the user's side, or the two sets. *)
Lemma first_level_spec left right lev rev evs fromUser fromObject :
  fan_in [lev; rev] evs → side FromUser UserClosed left lev → side FromObject ObjectClosed right rev →
  (∀ x, x ∈ fromUser → x ∉ fromObject) →
  match first_level fromUser fromObject evs with
  | inl o => (o = allowed_response ∧ ∃ x, (x ∈ fromUser ∨ x ∈ left) ∧ (x ∈ fromObject ∨ x ∈ right)) ∨
             (o = denied_response ∧ fromUser = ∅ ∧ left = [])
  | inr (fu, fo) => (∀ x, x ∈ fu ↔ x ∈ fromUser ∨ x ∈ left) ∧ (∀ x, x ∈ fo ↔ x ∈ fromObject ∨ x ∈ right) ∧ ∀ x, x ∈ fu → x ∉ fo
  end.
Proof.
  intros Hf. remember [lev; rev] as chans eqn:Hch. revert lev rev left right fromUser fromObject Hch.
  induction Hf as [chans Hnil|chans i m rest out Hi _ IH]; intros lev rev left right fu fo -> Hl Hr Hdis.
  { apply Forall_cons_1 in Hnil as [-> Hnil]. apply Forall_cons_1 in Hnil as [-> _].
    assert (left = [] ∧ right = []) as [-> ->].
    { destruct Hl as [Hl|[? _]]; [by destruct left|]. destruct Hr as [Hr|[? _]]; [by destruct right|]. done. }
    simpl. set_solver. }
  destruct i as [|[|i]]; simplify_eq/=.
  - apply side_cons in Hl as [(u&l&->&->&Hl)|(->&->&->)].
    + cbn [first_level processUsersetMessage]. case_bool_decide as Hu; [left; split; [done|]; exists u; set_solver|].
      specialize (IH rest rev l right ({[u]} ∪ fu) fo eq_refl Hl Hr ltac:(set_solver)).
      destruct (first_level _ fo out) as [o|[fu' fo']]; [|set_solver]. destruct IH as [(->&x&Hx)|(->&Hx&_)]; [|set_solver].
      left. split; [done|]. exists x. set_solver.
    + cbn [first_level]. case_bool_decide as Hu; [by right|].
      specialize (IH [] rev [] right fu fo eq_refl (or_intror (conj eq_refl eq_refl)) Hr Hdis). done.
  - apply side_cons in Hr as [(u&l&->&->&Hr)|(->&->&->)].
    + cbn [first_level processUsersetMessage]. case_bool_decide as Hu; [left; split; [done|]; exists u; set_solver|].
      specialize (IH lev rest left l fu ({[u]} ∪ fo) eq_refl Hl Hr ltac:(set_solver)).
      destruct (first_level fu _ out) as [o|[fu' fo']]; [|set_solver]. destruct IH as [(->&x&Hx)|(->&Hx&?)]; [|by right].
      left. split; [done|]. exists x. set_solver.
    + cbn [first_level]. by apply (IH lev [] left [] fu fo eq_refl Hl (or_intror (conj eq_refl eq_refl))).
Qed.

(** ** The messages of the user's side *)

Section provider.
Context {I : Type} `{!Iterator I string, !GoodIterator I string}.

Lemma iterator_messages_spec fuel : ∀ it, good it → (length (yields it) < fuel)%nat →
  iterator_messages fuel it = Ret (UsersetFound <$> yields it).
Proof.
  induction fuel as [|fuel IH]; intros it Hg Hf; [lia|]. cbn [iterator_messages]. pose proof (Next_yields it Hg) as HN.
  destruct (yields it) as [|x l]; destruct HN as (it'&->&Hg'&Hy); [done|]. rewrite IH, Hy; [done|done|]. rewrite Hy. simpl in Hf. lia.
Qed.

Lemma channel_messages_spec c : Forall msg_fine c → channel_messages c = Ret (UsersetFound <$> msgs_items c).
Proof.
  induction 1 as [|msg c Hm _ IH]; [done|]. destruct msg as [it|e]; [|done]. cbn [channel_messages].
  rewrite iterator_messages_spec, IH; [|done|pose proof (remaining_yields it Hm); lia]. simpl. unfold msgs_items. simpl. by rewrite fmap_app.
Qed.

Lemma iteratorsToUserset_spec chans :
  Forall (Forall msg_fine) chans → iteratorsToUserset chans = Ret ((λ c, UsersetFound <$> msgs_items c) <$> chans).
Proof.
  induction 1 as [|c chans Hc _ IH]; [done|]. cbn [iteratorsToUserset]. by rewrite channel_messages_spec, IH.
Qed.
End provider.

(** A merge has the elements of its channels. *)
Lemma fan_in_elem {A} (chans : list (list A)) out : fan_in chans out → ∀ x, x ∈ out ↔ ∃ c, c ∈ chans ∧ x ∈ c.
Proof.
  induction 1 as [chans Hnil|chans i m rest out Hi _ IH]; intros x.
  { split; [by intros ?%not_elem_of_nil|]. rewrite Forall_forall in Hnil. intros (c&Hc&Hx). rewrite (Hnil c Hc) in Hx. by apply not_elem_of_nil in Hx. }
  rewrite elem_of_cons, IH. split.
  - intros [->|(c&Hc&Hx)]; [exists (m :: rest); split; [by eapply list_elem_of_lookup_2|by left]|].
    apply list_elem_of_lookup in Hc as [j Hj]. destruct (decide (i = j)) as [<-|Hne].
    + rewrite list_lookup_insert_eq in Hj by by eapply lookup_lt_Some. injection Hj as <-. exists (m :: rest). split; [by eapply list_elem_of_lookup_2|by right].
    + rewrite list_lookup_insert_ne in Hj by done. exists c. split; [by eapply list_elem_of_lookup_2|done].
  - intros (c&[j Hj]%list_elem_of_lookup&Hx). destruct (decide (i = j)) as [<-|Hne].
    + rewrite Hi in Hj. injection Hj as <-. apply elem_of_cons in Hx as [->|Hx]; [by left|right]. exists rest. split; [|done].
      eapply list_elem_of_lookup_2. apply list_lookup_insert_eq. by eapply lookup_lt_Some.
    + right. exists c. split; [|done]. eapply (list_elem_of_lookup_2 _ j). by rewrite list_lookup_insert_ne.
Qed.

(** Both sides of the first level when no message is an error. *)
Lemma first_level_arrivals `{!RecursiveScheduler} (chans : list (list string)) (u : string) (right : list string) :
  match first_level ∅ {[u]} (rec_arrivals ((λ c : list string, UsersetFound <$> c) <$> chans) (UsersetFound <$> right)) with
  | inl o => (o = allowed_response ∧ ∃ x c, c ∈ chans ∧ x ∈ c ∧ x ∈ u :: right) ∨ (o = denied_response ∧ ∀ c x, c ∈ chans → x ∉ c)
  | inr (fu, fo) => (∀ x, x ∈ fu ↔ ∃ c, c ∈ chans ∧ x ∈ c) ∧ (∀ x, x ∈ fo ↔ x ∈ u :: right) ∧ ∀ x, x ∈ fu → x ∉ fo
  end.
Proof.
  destruct (rec_arrivals_order ((λ c : list string, UsersetFound <$> c) <$> chans) (UsersetFound <$> right)) as (left&Hleft&Hord).
  pose proof (fan_in_elem _ _ Hleft) as Hel.
  assert (∃ l, left = UsersetFound <$> l ∧ ∀ x, x ∈ l ↔ ∃ c, c ∈ chans ∧ x ∈ c) as (l&->&Hl).
  { assert (Forall (λ m, ∃ x, m = UsersetFound x) left) as Hall.
    { apply Forall_forall. intros msg (c&(k&->&_)%list_elem_of_fmap&(x&->&_)%list_elem_of_fmap)%Hel. by exists x. }
    assert (∃ l, left = UsersetFound <$> l) as [l ->].
    { clear -Hall. induction Hall as [|msg left [x ->] _ [l ->]]; [by exists []|by exists (x :: l)]. }
    exists l. split; [done|]. intros x. specialize (Hel (UsersetFound x)). rewrite list_elem_of_fmap_inj in Hel by (by intros ?? [=]).
    rewrite Hel. split.
    - intros (c&(k&->&Hk)%list_elem_of_fmap&Hx). exists k. split; [done|]. by apply list_elem_of_fmap_inj in Hx; [|intros ?? [=]].
    - intros (k&Hk&Hx). exists (UsersetFound <$> k). split; [|by apply list_elem_of_fmap_2]. apply list_elem_of_fmap. by exists k. }
  rewrite <-!list_fmap_compose in Hord. pose proof (first_level_spec l right _ _ _ ∅ {[u]} Hord) as Hfl.
  specialize (Hfl (or_introl eq_refl) (or_introl eq_refl) ltac:(set_solver)).
  destruct (first_level _ _ _) as [o|[fu fo]].
  - destruct Hfl as [(->&x&Hx&Hu)|(->&_&->)]; [left|right]; (split; [done|]).
    + destruct Hx as [?|(c&?&?)%Hl]; [set_solver|]. exists x, c. set_solver.
    + intros c x Hc Hx. apply (not_elem_of_nil x). apply Hl. by exists c.
  - destruct Hfl as (Hfu&Hfo&Hdis). split_and!; [|set_solver|done]. intros x. rewrite Hfu, Hl. set_solver.
Qed.

(** ** The search *)

Lemma scan_userset_spec fromUser us : ∀ next,
  match scan_userset fromUser (UsersetFound <$> us) next with
  | (true, _, _) => ∃ u, u ∈ us ∧ u ∈ fromUser
  | (false, e, next') => e = None ∧ (∀ x, x ∈ next' ↔ x ∈ next ∨ x ∈ us) ∧ ∀ u, u ∈ us → u ∉ fromUser
  end.
Proof.
  induction us as [|u us IH]; intros next; [simpl; set_solver|]. rewrite fmap_cons. cbn [scan_userset].
  case_bool_decide as Hu; [exists u; set_solver|]. specialize (IH ({[u]} ∪ next)).
  destruct (scan_userset _ _ _) as [[[] e] next']; set_solver.
Qed.

Section search.
Context `{!ModelGraph, !Cel, !RelationshipTupleReader, !RecursiveScheduler}.
Context (typesys : TypeSystem) (conds : gmap string EvaluableCondition) (reqCtx : option Struct).
Context (req : ResolveCheckRequest) (mapping : recursiveMapping) (fromUser : gset string).
(** The objects of the search and where the recursion leads from them. *)
Context (node : string → Prop) (step : string → string → Prop).
Hypothesis Hstep : ∀ x y, node x → step x y → node y.
Hypothesis Hread : ∀ x, node x → ∃ keys us,
  buildRecursiveMapper typesys conds reqCtx (with_relation req x (Relation (rq_TupleKey req))) mapping = Ret (keys, Some ErrIteratorDone) ∧
  streamedLookupUsersetFromIterator (rm_kind mapping) keys (Some ErrIteratorDone) = UsersetFound <$> us ∧
  ∀ y, y ∈ us ↔ step x y.

Lemma scan_level_spec usersets : ∀ visited next,
  (∀ x, x ∈ usersets → node x) →
  match scan_level typesys conds reqCtx req mapping fromUser usersets visited next None with
  | Ret (true, _, _, _) => ∃ x y, x ∈ usersets ∧ step x y ∧ y ∈ fromUser
  | Ret (false, visited', next', e) =>
      e = None ∧ (∀ x, x ∈ visited' ↔ x ∈ visited ∨ x ∈ usersets) ∧
      (∀ y, y ∈ next' ↔ y ∈ next ∨ ∃ x, x ∈ usersets ∧ (x ∉ visited) ∧ step x y) ∧
      ∀ x y, x ∈ usersets → x ∉ visited → step x y → y ∉ fromUser
  | _ => False
  end.
Proof.
  induction usersets as [|x usersets IH]; intros visited next Hnode; cbn [scan_level]; [set_solver|].
  assert (∀ x, x ∈ usersets → node x) as Hrest by (intros; apply Hnode; by right).
  case_bool_decide as Hx.
  { specialize (IH visited next Hrest). destruct (scan_level _ _ _ _ _ _ _ _ _ _) as [[[[[] v] n] e]|e|w]; [|..|done|done]; set_solver. }
  destruct (Hread x) as (keys&us&->&->&Hus); [apply Hnode; by left|].
  pose proof (scan_userset_spec fromUser us next) as Hs. destruct (scan_userset _ _ _) as [[[] e] next'].
  { destruct Hs as (u&Hu&Hin). exists x, u. split_and!; [by left|by apply Hus|done]. }
  destruct Hs as (->&Hnext&Hno). specialize (IH ({[x]} ∪ visited) next' Hrest).
  destruct (scan_level _ _ _ _ _ _ _ _ _ _) as [[[[[] v] n] e]|e|w]; [set_solver| |done|done].
  destruct IH as (->&Hv&Hn&Hf). split_and!; [done|set_solver| |].
  - intros y. rewrite Hn, Hnext, Hus. split.
    + intros [[?|?]|(z&Hz&Hzv&Hst)]; [by left|right; exists x; set_solver|right; exists z; set_solver].
    + intros [?|(z&[->|Hz]%elem_of_cons&Hzv&Hst)]; [by left; left|by left; right|].
      destruct (decide (z = x)) as [->|Hne]; [by left; right|]. right. exists z. set_solver.
  - intros z y [->|Hz]%elem_of_cons Hzv Hst; [by apply Hno, Hus|].
    destruct (decide (z = x)) as [->|Hne]; [by apply Hno, Hus|]. apply (Hf z); [done|set_solver|done].
Qed.

(** A search that denies has visited everything that can be reached; one that allows has
    found an object of the user. *)
Lemma breadthFirst_spec levels : ∀ visited current,
  (∀ x, x ∈ current → node x ∧ x ∉ fromUser) →
  (∀ x, x ∈ visited → (x ∉ fromUser) ∧ ∀ y, step x y → y ∈ visited ∨ y ∈ current) →
  match breadthFirstRecursiveMatch typesys conds reqCtx levels req mapping visited current fromUser None with
  | Ret resp => CycleDetected resp = false ∧
      if Allowed resp then ∃ x y, x ∈ current ∧ rtc step x y ∧ y ∈ fromUser
      else ∀ x y, x ∈ visited ∨ x ∈ current → rtc step x y → y ∉ fromUser
  | Throw e => e = ErrResolutionDepthExceeded
  | Panic _ => False
  end.
Proof.
  induction levels as [|levels IH]; intros visited current Hcur Hvis; cbn [breadthFirstRecursiveMatch]; [done|].
  case_bool_decide as Hne.
  { simpl. split; [done|]. intros x y Hx Hxy. assert (x ∈ visited) as Hv by set_solver. clear Hx.
    induction Hxy as [x|x z y Hxz _ IH']; [by apply Hvis|]. apply IH'. destruct (proj2 (Hvis x Hv) z Hxz); [done|set_solver]. }
  assert (∀ x, x ∈ level_order current ↔ x ∈ current) as Hord by (intros x; rewrite level_order_perm; apply elem_of_elements).
  pose proof (scan_level_spec (level_order current) visited ∅) as Hs.
  destruct (scan_level _ _ _ _ _ _ _ _ _ _) as [[[[[] v] n] e]|e|w].
  - destruct Hs as (x&y&Hx%Hord&Hst&Hy); [intros x Hx; by apply Hcur, Hord|]. simpl. split; [done|]. exists x, y. split_and!; [done|by apply rtc_once|done].
  - destruct Hs as (->&Hv&Hn&Hf); [intros x Hx; by apply Hcur, Hord|].
    assert (∀ y, y ∈ n → node y ∧ y ∉ fromUser) as Hcur'.
    { intros y [?|(x&Hx%Hord&Hxv&Hst)]%Hn; [set_solver|]. split; [by eapply Hstep; [apply Hcur|]|]. apply (Hf x y); [by apply Hord|done..]. }
    assert (∀ x, x ∈ v → (x ∉ fromUser) ∧ ∀ y, step x y → y ∈ v ∨ y ∈ n) as Hvis'.
    { intros x [Hx|Hx]%Hv.
      - destruct (Hvis x Hx) as [Hxf Hxs]. split; [done|]. intros y [Hy|Hy]%Hxs; left; apply Hv; [by left|right; by apply Hord].
      - split; [by apply Hcur, Hord|]. intros y Hst. destruct (decide (x ∈ visited)) as [Hxv|Hxv].
        + destruct (proj2 (Hvis x Hxv) y Hst) as [?|?]; left; apply Hv; [by left|right; by apply Hord].
        + right. apply Hn. right. by exists x. }
    specialize (IH v n Hcur' Hvis'). destruct (breadthFirstRecursiveMatch _ _ _ _ _ _ _ _ _ _) as [resp|e|w]; [|done..].
    destruct IH as [Hc IH]. split; [done|]. destruct (Allowed resp).
    + destruct IH as (x&y&[?|(z&Hz%Hord&_&Hst)]%Hn&Hxy&Hy); [set_solver|]. exists z, y. split_and!; [done|by eapply rtc_l|done].
    + intros x y Hx. apply IH. left. apply Hv. destruct Hx; [by left|right; by apply Hord].
  - destruct Hs. intros x Hx. by apply Hcur, Hord.
  - destruct Hs. intros x Hx. by apply Hcur, Hord.
Qed.
End search.
