(* ===== verification/RecursivePathExact.v ===== *)
(** * Check with all its fast paths

    On a relation that is the union of parts without recursion and of one recursive userset
    or tuple-to-userset, the recursive fast paths answer what the dispatched checks mean,
    also when the objects form cycles.  With them and the fast paths of weight two Check
    is exact on models without exclusion. *)

From stdpp Require Import relations.
From S2P Require Import Prelude GoStd Tuple Iterators Model Memory MemorySpec Typesystem Entrypoints TypesystemSpec.
From S2P Require Import Condition Validation ValidationSpec Check CheckSpec CheckSemantics CheckExact CombinedReader ReverseExpand.
From S2P Require Import FastPathStreams FastPathStreamsSpec FastPath FastPathSpec FastPathExact RecursivePath RecursivePathSpec.

Local Open Scope go_scope.

(** ** Recursive relations *)

(** How a relation leads back to itself: by usersets of its own, or by a tupleset relation
    whose objects have it. *)
Inductive recursion := ByUserset | ByTupleset (tupleset : string).

(** The operands of nested unions. *)
Fixpoint union_leaves (rw : Userset) : list Userset :=
  match rw with
  | Userset_Union l => concat (union_leaves <$> l)
  | _ => [rw]
  end.

Section relations.
Context `{!ModelGraph} (typesys : TypeSystem) (user : string) (mode : recursion) (ty r : string) (rel : RelationDef).

(** An operand: the recursion, or a part that only direct tuples of the user decide. *)
Definition recursive_leaf (rw : Userset) : Prop :=
  match rw with
  | Userset_This => mode ≠ ByUserset → ∀ rr, rr ∈ rel_DirectlyRelatedUserTypes rel → rr_GetRelation rr ≠ "" →
      ¬ path_possible typesys user (rr_Type rr) (rr_GetRelation rr)
  | Userset_TupleToUserset ts c =>
      (mode = ByTupleset ts ∧ c = r) ∨
      ∀ tsrel rr, GetRelation typesys ty ts = Ret tsrel → rr ∈ rel_DirectlyRelatedUserTypes tsrel →
        ¬ path_possible typesys user (rr_Type rr) c
  | _ => plain_part typesys user ty rel rw
  end.

Record recursive_relation : Prop := {
  rc_leaves leaf : leaf ∈ union_leaves (rel_Rewrite rel) → recursive_leaf leaf;
  rc_recursive : match mode with ByUserset => Userset_This | ByTupleset ts => Userset_TupleToUserset ts r end ∈ union_leaves (rel_Rewrite rel);
  rc_targets :
    match mode with
    | ByUserset => ∀ rr, rr ∈ rel_DirectlyRelatedUserTypes rel → rr_GetRelation rr ≠ "" → rr_Type rr = ty ∧ rr_GetRelation rr = r
    | ByTupleset ts => ∀ tsrel rr, GetRelation typesys ty ts = Ret tsrel → rr ∈ rel_DirectlyRelatedUserTypes tsrel → rr_Type rr = ty
    end;
  rc_computed c : c ∈ computed_leaves (rel_Rewrite rel) → weight_one typesys user ty c;
}.
End relations.

Lemma elem_of_concat_inv {A B} (f : A → list B) l x : x ∈ concat (f <$> l) → ∃ c, c ∈ l ∧ x ∈ f c.
Proof.
  rewrite list_elem_of_In, in_concat. intros (k&(c&->&Hc)%list_elem_of_In%list_elem_of_fmap&Hx). exists c.
  by split; [|apply list_elem_of_In].
Qed.

Lemma union_leaves_flatten rw leaf p : leaf ∈ union_leaves rw → p ∈ flattenUserset leaf → p ∈ flattenUserset rw.
Proof.
  induction rw as [|ob c|ts c|l IH|l IH|b s IHb IHs|] using Userset_nested_ind; simpl;
    try (by intros ->%list_elem_of_singleton). rewrite Forall_forall in IH.
  intros (k&Hk&Hleaf)%elem_of_concat_inv Hp. eapply elem_of_concat_fmap; [exact Hk|]. by apply IH.
Qed.

Section meaning.
Context `{!ModelGraph, !Cel, !MapRange, !ConditionCompiler}.
Context (m : AuthorizationModel) (typesys : TypeSystem) (conds : gmap string EvaluableCondition).
Context `{!RelationshipTupleReader} (store : string) `{!RelationshipTupleReaderSpec store}.
Context `{!StartingReader, !SortedReaderSpec store (stored store)} (reqCtx : option Struct) (user : string).
Hypothesis Hset : fast_setting m typesys conds (stored store) reqCtx user.
Context (mode : recursion) (ty r : string) (rel : RelationDef).
Hypothesis Hrel : GetRelation typesys ty r = Ret rel.
Hypothesis Hrec : recursive_relation typesys user mode ty r rel.

Abbreviation tuples := (stored store).
Abbreviation usable := (usable typesys conds tuples reqCtx).
Abbreviation has_some := (has_some typesys conds tuples reqCtx user).
Abbreviation cannot_some := (cannot_some typesys conds tuples reqCtx user).
Abbreviation granted := (granted typesys conds tuples reqCtx user).
Abbreviation refuted := (refuted typesys conds tuples reqCtx user).
Abbreviation granted_rw := (granted_rw typesys conds tuples reqCtx user).
Abbreviation refuted_rw := (refuted_rw typesys conds tuples reqCtx user).
Abbreviation wild := (TypedPublicWildcard (GetType user)).

(** The objects that the recursion leads to. *)
Definition rec_step (x y : string) : Prop :=
  match mode with
  | ByUserset => ∃ u, usable x r u ∧ Tuple.GetRelation u ≠ "" ∧ (SplitObjectRelation u).1 = y
  | ByTupleset ts => usable x ts y
  end.

Definition node (x : string) : Prop := object_ok x ∧ GetType x = ty.

(** What the user has without recursion. *)
Definition leaf_base (x : string) (leaf : Userset) : Prop :=
  match leaf with
  | Userset_This => usable x r user ∨ usable x r wild
  | Userset_TupleToUserset _ _ => False
  | _ => granted_rw has_some cannot_some x r leaf
  end.

Definition base (x : string) : Prop := ∃ leaf, leaf ∈ union_leaves (rel_Rewrite rel) ∧ leaf_base x leaf.

Lemma leaf_base_granted x leaf : leaf_base x leaf → granted_rw has_some cannot_some x r leaf.
Proof.
  destruct leaf; simpl; try done. unfold granted_this. intros [?|?]; [by left|right; left].
  split; [apply (fs_not_userset _ _ _ _ _ _ Hset)|done].
Qed.

Lemma union_leaf_granted (G R : string → string → Prop) x rw :
  granted_rw G R x r rw ↔ ∃ leaf, leaf ∈ union_leaves rw ∧ granted_rw G R x r leaf.
Proof.
  induction rw as [|ob c|ts c|l IH|l IH|b s IHb IHs|] using Userset_nested_ind; simpl;
    try (setoid_rewrite list_elem_of_singleton; naive_solver).
  rewrite Forall_forall in IH. rewrite foldr_or. split.
  - intros (c&Hc&Hg). apply (IH c Hc) in Hg as (leaf&Hleaf&Hg). exists leaf. split; [by eapply elem_of_concat_fmap|done].
  - intros (leaf&(k&Hk&Hleaf)%elem_of_concat_inv&Hg). exists k. split; [done|]. apply (IH k Hk). by exists leaf.
Qed.

Lemma has_cannot x c : has_some x c → cannot_some x c → False.
Proof.
  intros [n Hn] [k Hk]. by eapply (proj1 (granted_refuted_exclusive m typesys conds tuples reqCtx user
    (fs_model _ _ _ _ _ _ Hset) (fs_users _ _ _ _ _ _ Hset) (fs_user _ _ _ _ _ _ Hset) n)).
Qed.

Lemma base_has x : GetType x = ty → base x → has_some x r.
Proof.
  intros Hx (leaf&Hleaf&Hb). apply (rewrite_has typesys conds store reqCtx user x r rel); [by rewrite Hx|].
  apply union_leaf_granted. exists leaf. split; [done|]. by apply leaf_base_granted.
Qed.

(** *** Steps *)

Abbreviation Hm := (fs_model _ _ _ _ _ _ Hset).
Abbreviation Hus := (fs_users _ _ _ _ _ _ Hset).

(** A userset of the relation is one of the recursive ones. *)
Lemma rec_userset x u :
  mode = ByUserset → GetType x = ty → usable x r u → Tuple.GetRelation u ≠ "" →
  node (SplitObjectRelation u).1 ∧ Tuple.GetRelation u = r.
Proof.
  intros Hmode Hx Hu Hne. pose proof (rc_targets _ _ _ _ _ _ Hrec) as Ht. rewrite Hmode in Ht.
  destruct (usable_userset m typesys conds tuples reqCtx Hm Hus _ _ _ Hu Hne) as (rel'&rr&Hrel'&Hrr&Hrt&Hrg&_).
  rewrite Hx, Hrel in Hrel'. injection Hrel' as <-. destruct (Ht rr Hrr) as [Hty Hr]; [by rewrite Hrg|].
  pose proof (usable_facts m typesys conds tuples reqCtx Hm Hus _ _ _ Hu) as (Hv&_).
  pose proof (valid_user_facts _ Hv) as (_&Hgt&_&Hobj&_). unfold node. split; [split; [by apply Hobj|congruence]|congruence].
Qed.

(** A parent by the tupleset relation. *)
Lemma rec_parent x ts u :
  mode = ByTupleset ts → GetType x = ty → usable x ts u →
  SplitObjectRelation u = (u, "") ∧ node u ∧ ttu_skips typesys u r = false.
Proof.
  intros Hmode Hx Hu. pose proof (rc_targets _ _ _ _ _ _ Hrec) as Ht. pose proof (rc_recursive _ _ _ _ _ _ Hrec) as Hin. rewrite Hmode in Ht, Hin.
  assert ((ts, r) ∈ flattenUserset (rel_Rewrite rel)) as Hts by (eapply union_leaves_flatten; [exact Hin|by left]).
  assert (GetRelation typesys (GetType x) r = Ret rel) as Hrel' by by rewrite Hx.
  destruct (usable_ttu m typesys conds tuples reqCtx Hm Hus x r rel ts r u Hrel' Hts Hu) as (Hsp&Hobj&tsrel&rr&Htsrel&Hrr&Hty&_).
  rewrite Hx in Htsrel. pose proof (Ht tsrel rr Htsrel Hrr) as Hrt. assert (GetType u = ty) as Hgt by congruence.
  split_and!; [done|by split|]. unfold ttu_skips. by rewrite Hgt, Hrel.
Qed.

Lemma mode_cases : mode = ByUserset ∨ ∃ ts, mode = ByTupleset ts.
Proof. destruct mode as [|ts]; [by left|right; by exists ts]. Qed.

Lemma rec_step_node x y : node x → rec_step x y → node y.
Proof.
  intros [_ Hx]. unfold rec_step. destruct mode_cases as [Hmode|[ts Hmode]]; rewrite Hmode.
  - intros (u&Hu&Hne&<-). by apply (rec_userset x u).
  - intros Hu. by apply (rec_parent x ts y).
Qed.

Lemma rec_step_has x y : node x → rec_step x y → has_some y r → has_some x r.
Proof.
  intros [_ Hx] Hstep Hy. apply (rewrite_has typesys conds store reqCtx user x r rel); [by rewrite Hx|].
  apply union_leaf_granted. pose proof (rc_recursive _ _ _ _ _ _ Hrec) as Hin. unfold rec_step in Hstep. destruct mode_cases as [Hmode|[ts Hmode]]; rewrite Hmode in Hin, Hstep.
  - destruct Hstep as (u&Hu&Hne&<-). exists Userset_This. split; [done|]. right; right. exists u. split_and!; [done..|].
    destruct (rec_userset x u Hmode Hx Hu Hne) as [_ Hr]. by rewrite Hr.
  - exists (Userset_TupleToUserset ts r). split; [done|]. destruct (rec_parent x ts y Hmode Hx Hstep) as (Hsp&_&Hsk).
    exists y. rewrite Hsp. by split_and!.
Qed.

(** A derivation is one without recursion, or one step and a smaller derivation. *)
Lemma granted_union_leaf n x leaf :
  GetType x = ty → leaf ∈ union_leaves (rel_Rewrite rel) → granted_rw (granted n) (refuted n) x r leaf →
  leaf_base x leaf ∨ ∃ y, rec_step x y ∧ granted n y r.
Proof.
  intros Hx Hleaf Hg. pose proof (rc_leaves _ _ _ _ _ _ Hrec leaf Hleaf) as Hok.
  assert (∀ rw, granted_rw (granted n) (refuted n) x r rw → granted_rw has_some cannot_some x r rw) as Hmono.
  { intros rw. apply rw_mono; intros; by exists n. }
  destruct leaf as [|ob c|ts c|l|l|b s|]; try (left; by apply Hmono).
  - destruct Hg as [?|[[_ ?]|(u&Hu&Hne&Hgu)]]; [by left; left|by left; right|].
    destruct mode_cases as [Hmode|[ts Hmode]].
    + destruct (rec_userset x u Hmode Hx Hu Hne) as [_ Hr]. right. exists (SplitObjectRelation u).1.
      unfold rec_step. rewrite Hmode. split; [by exists u|]. rewrite <-Hr. exact Hgu.
    + exfalso. destruct (usable_userset m typesys conds tuples reqCtx Hm Hus _ _ _ Hu Hne) as (rel'&rr&Hrel'&Hrr&Hrt&Hrg&_).
      rewrite Hx, Hrel in Hrel'. injection Hrel' as <-.
      pose proof (usable_facts m typesys conds tuples reqCtx Hm Hus _ _ _ Hu) as (Hv&_). pose proof (valid_user_facts _ Hv) as (_&Hgt&_).
      apply (has_cannot (SplitObjectRelation u).1 (Tuple.GetRelation u)); [by exists n|].
      apply (no_path_cannot m typesys conds store reqCtx user Hset); [done|]. rewrite Hgt, <-Hrt, <-Hrg. apply Hok; [by rewrite Hmode|done|by rewrite Hrg].
  - destruct Hg as (u&Hu&Hsk&Hgu). assert ((ts, c) ∈ flattenUserset (rel_Rewrite rel)) as Hts by (eapply union_leaves_flatten; [exact Hleaf|by left]).
    assert (GetRelation typesys (GetType x) r = Ret rel) as Hrel' by by rewrite Hx.
    destruct (usable_ttu m typesys conds tuples reqCtx Hm Hus x r rel ts c u Hrel' Hts Hu) as (Hsp&Hobj&tsrel&rr&Htsrel&Hrr&Hty&Hdef).
    rewrite Hsp in *. simpl in *. destruct Hok as [[Hmode ->]|Hok].
    + right. exists u. unfold rec_step. by rewrite Hmode.
    + exfalso. destruct (Hdef Hsk) as [crel Hcrel]. apply (has_cannot u c); [by exists n|].
      apply (no_path_cannot m typesys conds store reqCtx user Hset); [by eapply (relation_named m typesys conds store reqCtx user Hset)|].
      rewrite <-Hty. rewrite Hx in Htsrel. by eapply Hok.
Qed.

Lemma granted_step n x : GetType x = ty → granted (S n) x r → base x ∨ ∃ y, rec_step x y ∧ granted n y r.
Proof.
  intros Hx [Hself|(rel'&Hrel'&Hg)].
  { exfalso. pose proof (not_self_defining m typesys conds store reqCtx user Hset x r) as Hn. rewrite Hself in Hn.
    by discriminate (Hn ltac:(by eapply (relation_named m typesys conds store reqCtx user Hset))). }
  rewrite Hx, Hrel in Hrel'. injection Hrel' as <-. apply union_leaf_granted in Hg as (leaf&Hleaf&Hg).
  destruct (granted_union_leaf n x leaf Hx Hleaf Hg) as [Hb|?]; [left; by exists leaf|by right].
Qed.

(** The recursion: the user has the relation with the objects from which one without
    recursion can be reached. *)
Lemma has_reaches x : node x → has_some x r ↔ ∃ y, rtc rec_step x y ∧ base y.
Proof.
  intros Hx. split.
  - intros [n Hn]. revert x Hx Hn. induction n as [|n IH]; intros x Hx Hn; [done|].
    destruct (granted_step n x (proj2 Hx) Hn) as [Hb|(y&Hst&Hy)]; [by exists x|].
    destruct (IH y) as (z&Hyz&Hz); [by eapply rec_step_node|done|]. exists z. split; [by eapply rtc_l|done].
  - intros (y&Hxy&Hy). induction Hxy as [x|x z y Hxz _ IH]; [by apply base_has; [apply Hx|]|].
    apply (rec_step_has x z Hx Hxz). apply IH; [by eapply rec_step_node|done].
Qed.

(** *** The objects of the user *)

#[local] Instance rec_Iterator : Iterator string_iter string := FastPath.string_Iterator conds reqCtx.
#[local] Instance rec_Good : GoodIterator string_iter string :=
  either_Good spec_Good (object_Good (conditions_Good (condition_filter conds reqCtx))).

Lemma static_good l : good (NewStatic l) ∧ yields (NewStatic l) = l.
Proof. done. Qed.

(** A channel streams the objects of the type with a property. *)
Definition streams (P : string → Prop) (o : outcome CheckErr (list (Msg string_iter))) : Prop :=
  ∃ ms, o = Ret ms ∧ channel_ok ms ∧ ∀ x, x ∈ msgs_items ms ↔ GetType x = ty ∧ P x.

(** The parts without recursion. *)
Lemma plain_streams rw o : rewrite_ok typesys conds store reqCtx user ty r rw o → streams (λ x, granted_rw has_some cannot_some x r rw) o.
Proof.
  intros (ms&->&Hch&Hty&Hok). exists ms. split; [done|]. split; [done|]. intros x. split.
  - intros Hx. pose proof (Hty x Hx). split; [done|]. by apply Hok.
  - intros [Hx Hg]. destruct (decide (x ∈ msgs_items ms)) as [|Hn]; [done|]. exfalso.
    apply (proj1 (rw_exclusive typesys conds tuples reqCtx user has_some cannot_some has_some cannot_some x r rw has_cannot has_cannot) Hg).
    by apply Hok.
Qed.

Lemma union_streams l (f : Userset → outcome CheckErr (list (Msg string_iter))) (P : Userset → string → Prop) :
  (∀ c, c ∈ l → streams (P c) (f c)) →
  streams (λ x, ∃ c, c ∈ l ∧ P c x) (fastPathOperationSetup (fastPathUnion NewStatic) (f <$> l)).
Proof.
  intros Hl. assert (∃ chans, all_channels (f <$> l) = Ret chans ∧
    Forall2 (λ c ms, channel_ok ms ∧ ∀ x, x ∈ msgs_items ms ↔ GetType x = ty ∧ P c x) l chans) as (chans&Hc&Hf).
  { induction l as [|c l IH]; [exists []; by split|]. destruct IH as (chans&Hc&Hf); [intros; apply Hl; by right|].
    destruct (Hl c) as (ms&Hms&Hok); [by left|]. exists (ms :: chans). rewrite fmap_cons. cbn [all_channels]. rewrite Hms, Hc. split; [done|].
    by constructor. }
  unfold fastPathOperationSetup. rewrite Hc. cbn [outcome_bind].
  assert (Forall channel_ok chans) as Hch by (clear -Hf; induction Hf as [|c ms l chans [? _] _ IH]; by constructor).
  destruct (fastPathUnion_exact NewStatic static_good chans Hch) as (ms&Hms&Hfine&Hasc&Hin).
  unfold rec_Iterator in *. rewrite Hms. exists ms. split; [done|].
  assert (∀ x, x ∈ msgs_items ms ↔ GetType x = ty ∧ ∃ c, c ∈ l ∧ P c x) as Hx.
  { intros x. rewrite Hin. split.
    - intros (k&Hk&Hx). destruct (Forall2_elem_r _ _ _ _ Hf Hk) as (c&Hcl&Hok). destruct (proj1 (proj2 Hok x) Hx) as [Hxt HP]. split; [done|]. by exists c.
    - intros [Hx (c&Hcl&HP)]. destruct (Forall2_elem_l _ _ _ _ Hf Hcl) as (k&Hk&Hok). exists k. split; [done|]. by apply (proj2 Hok). }
  split; [|done]. split_and!; [done..|]. intros x (k&Hk&Hxk)%Hin. rewrite Forall_forall in Hch. by apply (Hch k Hk).
Qed.

Lemma streams_iff P Q o : (∀ x, P x ↔ Q x) → streams P o → streams Q o.
Proof. intros HPQ (ms&->&Hch&Hin). exists ms. split; [done|]. split; [done|]. intros x. by rewrite Hin, HPQ. Qed.

(** The rewrite of the relation streams what the user has without recursion. *)
Lemma cases_streams rec req rw :
  left_request store user ty r req →
  (∀ c crel req', c ∈ computed_leaves (rel_Rewrite rel) → GetRelation typesys ty c = Ret crel → left_request store user ty c req' →
     rewrite_ok typesys conds store reqCtx user ty c (rel_Rewrite crel) (rec req' (rel_Rewrite crel))) →
  (∀ leaf, leaf ∈ union_leaves rw → leaf ∈ union_leaves (rel_Rewrite rel)) →
  streams (λ x, ∃ leaf, leaf ∈ union_leaves rw ∧ leaf_base x leaf) (fastPathRewrite_cases typesys conds reqCtx rec req rw).
Proof.
  intros Hreq Hrw. pose proof Hreq as (Hs&Hty&Hr&Hu).
  assert (∀ rw, plain_part typesys user ty rel rw → union_leaves rw = [rw] → (∀ x, leaf_base x rw ↔ granted_rw has_some cannot_some x r rw) →
    streams (λ x, ∃ leaf, leaf ∈ union_leaves rw ∧ leaf_base x leaf) (fastPathRewrite_cases typesys conds reqCtx rec req rw)) as Hplain.
  { intros rw0 Hp Hl Hb. eapply streams_iff; [|apply plain_streams, (fastPathRewrite_cases_ok m typesys conds store reqCtx user Hset ty r rel); done].
    intros x. rewrite Hl. setoid_rewrite list_elem_of_singleton. rewrite <-Hb. naive_solver. }
  induction rw as [|ob c|ts c|l IH|l IH|b s IHb IHs|] using Userset_nested_ind; intros Hleaves;
    try (apply Hplain; [exact (rc_leaves _ _ _ _ _ _ Hrec _ (Hleaves _ ltac:(by left)))|done|done]).
  - cbn [fastPathRewrite_cases]. destruct (fastPathDirect_stream m typesys conds store reqCtx user Hset ty r rel req Hrel Hs Hty Hr Hu) as (ms&Hms&Hch&Hin).
    exists ms. split; [done|]. split; [done|]. intros x. rewrite Hin. simpl. setoid_rewrite list_elem_of_singleton. naive_solver.
  - exists []. split; [done|]. split; [split_and!; [constructor..|by intros ? ?%not_elem_of_nil]|]. intros x. split; [by intros ?%not_elem_of_nil|].
    intros [_ (leaf&->%list_elem_of_singleton&[])].
  - cbn [fastPathRewrite_cases]. rewrite Forall_forall in IH. eapply streams_iff; [|apply union_streams with (P := λ c x, ∃ leaf, leaf ∈ union_leaves c ∧ leaf_base x leaf)].
    + intros x. simpl. split.
      * intros (c&Hc&leaf&Hleaf&Hb). exists leaf. split; [by eapply elem_of_concat_fmap|done].
      * intros (leaf&(c&Hc&Hleaf)%elem_of_concat_inv&Hb). exists c. split; [done|]. by exists leaf.
    + intros c Hc. apply IH; [done|]. intros leaf Hleaf. apply Hleaves. simpl. by eapply elem_of_concat_fmap.
Qed.

Lemma relation_streams req :
  left_request store user ty r req →
  streams base (fastPathRewrite typesys conds reqCtx (rewrite_fuel typesys ty) req (rel_Rewrite rel)).
Proof.
  intros Hreq. unfold rewrite_fuel. cbn [fastPathRewrite]. apply cases_streams; [done| |done].
  intros c crel req' Hc Hcrel Hreq'. pose proof (NewAndValidate_valid m typesys Hm) as [Hmv _].
  apply (fastPathRewrite_path m typesys conds store reqCtx user Hset ty _ c crel [r]); [done|by apply (rc_computed _ _ _ _ _ _ Hrec)|done| |simpl; lia].
  eapply computed_path_cons; [done|by eapply computed_path_nil|done..].
Qed.

(** The channels of the object provider, when all references are to the relation. *)
Lemma provider_channels (f : RelationReference → string) req refs :
  rq_StoreID req = store → User (rq_TupleKey req) = user → refs ≠ [] → (∀ rr, rr ∈ refs → rr_Type rr = ty ∧ f rr = r) →
  ∃ chans, produceLeftChannels typesys conds reqCtx req refs f = Ret chans ∧ Forall (Forall msg_fine) chans ∧
    ∀ x, (∃ c, c ∈ msgs_items <$> chans ∧ x ∈ c) ↔ GetType x = ty ∧ base x.
Proof.
  intros Hs Hu Hne. assert (∀ refs, (∀ rr, rr ∈ refs → rr_Type rr = ty ∧ f rr = r) →
    ∃ chans, produceLeftChannels typesys conds reqCtx req refs f = Ret chans ∧ length chans = length refs ∧
      Forall (λ ms, channel_ok ms ∧ ∀ x, x ∈ msgs_items ms ↔ GetType x = ty ∧ base x) chans) as Hall.
  { clear refs Hne. induction refs as [|rr refs IH]; intros Hrefs; [exists []; by split_and!|].
    destruct IH as (chans&Hc&Hlen&Hf); [intros; apply Hrefs; by right|]. destruct (Hrefs rr) as [Hty Hr]; [by left|].
    cbn [produceLeftChannels]. rewrite Hty, Hr, Hrel.
    destruct (relation_streams (with_relation req (BuildObject ty "ignore") r)) as (ms&Hms&Hok).
    { split_and!; [done| |done|done]. apply GetType_build. by apply (fs_names _ _ _ _ _ _ Hset _ _ _ Hrel). }
    rewrite Hms, Hc. exists (ms :: chans). simpl. split_and!; [done|by rewrite Hlen|by constructor]. }
  intros Hrefs. destruct (Hall refs Hrefs) as (chans&Hc&Hlen&Hf). exists chans. split; [done|].
  assert (chans ≠ []) as Hne' by (intros ->; by destruct refs). clear -Hf Hne'. split.
  - eapply Forall_impl; [exact Hf|]. intros ms [(Hfine&_&_) _]. done.
  - intros x. rewrite Forall_forall in Hf. split.
    + intros (c&(ms&->&Hms)%list_elem_of_fmap&Hx). by apply (Hf ms Hms).
    + intros Hx. destruct chans as [|ms chans]; [done|]. exists (msgs_items ms). split; [by left|]. by apply (Hf ms); [left|].
Qed.

(** *** The search *)

Context `{!RecursiveScheduler} (maxResolutionDepth : Z).
Hypothesis Hconds : conds_compiled conds.

Definition rec_mapping : recursiveMapping :=
  match mode with
  | ByUserset => mkRecursiveMapping UsersetKind "" (userset_references rel)
  | ByTupleset ts => mkRecursiveMapping TTUKind ts []
  end.

Lemma userset_mapped tk :
  Tuple.GetRelation (User tk) ≠ "" → doMap UsersetKind tk = Ret (SplitObjectRelation (User tk)).1.
Proof.
  unfold Tuple.GetRelation. simpl. unfold UsersetMapper_doMap. destruct (SplitObjectRelation (User tk)) as [uo ur]. simpl.
  intros Hne. by rewrite bool_decide_false.
Qed.

(** The usersets of an object of the search. *)
Lemma rec_read req x :
  rq_StoreID req = store → Relation (rq_TupleKey req) = r → node x → (mode = ByUserset → userset_references rel ≠ []) →
  ∃ keys us,
    buildRecursiveMapper typesys conds reqCtx (with_relation req x (Relation (rq_TupleKey req))) rec_mapping = Ret (keys, Some ErrIteratorDone) ∧
    streamedLookupUsersetFromIterator (rm_kind rec_mapping) keys (Some ErrIteratorDone) = UsersetFound <$> us ∧
    ∀ y, y ∈ us ↔ rec_step x y.
Proof.
  intros Hs Hr [Ho Hx] Hne. assert (GetRelation typesys (GetType x) r = Ret rel) as Hrel' by by rewrite Hx.
  unfold rec_mapping, rec_step, buildRecursiveMapper. pose proof (rc_recursive _ _ _ _ _ _ Hrec) as Hin.
  destruct mode_cases as [Hmode|[ts Hmode]]; rewrite Hmode in *; simpl.
  - destruct (userset_read m typesys conds store reqCtx Hm Hconds Hus x r rel Ho Hrel' (Hne eq_refl)) as (it&l&e&Hget&Hread&Hit&Hkeys&Hcover).
    rewrite Hs, Hr, Hget, Hread. exists l, ((λ tk, (SplitObjectRelation (User tk)).1) <$> l).
    assert (e = ErrIteratorDone) as ->.
    { apply (fast_read_done m typesys conds store reqCtx user Hset (with_relation req x r) r l e Hconds). split; [by exists it|]. intros tk Htk. by apply Hkeys. }
    split; [done|]. split.
    + rewrite (lookup_messages UsersetKind (λ tk, (SplitObjectRelation (User tk)).1) l); [by rewrite <-list_fmap_compose|].
      intros tk Htk. apply userset_mapped. by apply Hkeys.
    + intros y. rewrite list_elem_of_fmap. split.
      * intros (tk&->&Htk). exists (User tk). destruct (Hkeys tk Htk) as (?&_&?). done.
      * intros (u&Hu&Hg&<-). destruct (Hcover u Hu Hg) as (tk&Htk&<-). by exists tk.
  - assert ((ts, r) ∈ flattenUserset (rel_Rewrite rel)) as Hts by (eapply union_leaves_flatten; [exact Hin|by left]).
    destruct (tupleset_read m typesys conds store reqCtx Hm Hconds Hus x r rel Ho Hrel' ts r Hts) as (it&l&e&Hget&Hread&Hit&Hu).
    rewrite Hs, Hget, Hread. exists l, (User <$> l).
    assert (e = ErrIteratorDone) as ->.
    { apply (fast_read_done m typesys conds store reqCtx user Hset (with_relation req x r) ts l e Hconds). split; [by exists it|]. intros tk Htk. apply Hu. by exists tk. }
    split; [done|]. split; [rewrite (lookup_messages TTUKind User l) by done; by rewrite <-list_fmap_compose|].
    intros y. rewrite list_elem_of_fmap, Hu. naive_solver.
Qed.

(** What the fast path answers for the usersets that were read: whether the user has the
    relation with one of them. *)
Lemma recursiveFastPath_answer req us (begin : outcome CheckErr (list (list (Msg string_iter)))) chans :
  rq_StoreID req = store → Relation (rq_TupleKey req) = r → (∀ x, x ∈ us → node x) → (mode = ByUserset → us ≠ [] → userset_references rel ≠ []) →
  begin = Ret chans → Forall (Forall msg_fine) chans → (∀ x, (∃ c, c ∈ msgs_items <$> chans ∧ x ∈ c) ↔ GetType x = ty ∧ base x) →
  verdict true (∃ x, x ∈ us ∧ has_some x r) (∀ x, x ∈ us → ¬ has_some x r)
    (recursiveFastPath typesys conds reqCtx maxResolutionDepth req (UsersetFound <$> us) rec_mapping begin).
Proof.
  intros Hs Hr Hnode Hrefs -> Hfine Hbase. unfold recursiveFastPath. destruct us as [|u us]; [simpl; set_solver|].
  cbn [fmap list_fmap outcome_bind]. unfold RecursivePath.string_Iterator. change (FastPath.string_Iterator conds reqCtx) with rec_Iterator.
  rewrite (iteratorsToUserset_spec chans Hfine). cbn [outcome_bind].
  pose proof (first_level_arrivals (msgs_items <$> chans) u us) as Hfl. rewrite <-list_fmap_compose in Hfl. unfold compose in Hfl.
  assert (∀ x, node x → base x ↔ ∃ c, c ∈ msgs_items <$> chans ∧ x ∈ c) as Hb by (intros x [_ Hx]; rewrite Hbase; tauto).
  assert (∀ x y, node x → rtc rec_step x y → node y) as Hreach.
  { intros x y Hx Hxy. induction Hxy as [|x z y Hxz _ IH]; [done|]. apply IH. by eapply rec_step_node. }
  destruct (first_level _ _ _) as [o|[fu fo]].
  - destruct Hfl as [(->&x&c&Hc&Hxc&Hx)|(->&Hnone)]; simpl.
    + split; [|done]. exists x. split; [done|]. apply base_has; [by apply Hnode|]. apply Hb; [by apply Hnode|]. by exists c.
    + intros _ x Hx Hhas. pose proof (Hnode x Hx) as Hn. apply has_reaches in Hhas as (y&Hxy&Hy); [|done].
      apply Hb in Hy as (c&Hc&Hyc); [by eapply Hnone|by eapply Hreach].
  - destruct Hfl as (Hfu&Hfo&Hdis). unfold recursiveMatchUserUserset.
    pose proof (breadthFirst_spec typesys conds reqCtx req rec_mapping fu node rec_step rec_step_node) as Hbf.
    specialize (Hbf (λ x Hx, rec_read req x Hs Hr Hx (λ Hm, Hrefs Hm ltac:(done))) (depth_levels maxResolutionDepth (rq_Depth req)) ∅ fo).
    assert (∀ x, x ∈ fo → node x ∧ x ∉ fu) as Hcur by (intros x Hx; split; [by apply Hnode, Hfo|intros Hxu; by apply (Hdis x)]).
    specialize (Hbf Hcur ltac:(set_solver)). destruct (breadthFirstRecursiveMatch _ _ _ _ _ _ _ _ _ _) as [resp|e|w]; simpl; [|done..].
    destruct Hbf as [Hc Hbf]. destruct (Allowed resp).
    + split; [|done]. destruct Hbf as (x&y&Hx&Hxy&Hy). exists x. split; [by apply Hfo|]. apply has_reaches; [by apply Hcur|].
      exists y. split; [done|]. apply Hb; [eapply Hreach; [by apply Hcur|done]|]. by apply Hfu.
    + intros _ x Hx Hhas. apply Hfo in Hx. apply has_reaches in Hhas as (y&Hxy&Hy); [|by apply Hcur].
      apply (Hbf x y (or_intror Hx) Hxy). apply Hfu, Hb; [eapply Hreach; [by apply Hcur|done]|done].
Qed.
End meaning.

(** ** The recursive fast paths *)

Section paths.
Context `{!ModelGraph, !Cel, !MapRange, !ConditionCompiler}.
Context (m : AuthorizationModel) (typesys : TypeSystem) (conds : gmap string EvaluableCondition).
Context `{!RelationshipTupleReader} (store : string) `{!RelationshipTupleReaderSpec store}.
Context `{!StartingReader, !SortedReaderSpec store (stored store), !RecursiveScheduler} (reqCtx : option Struct) (user : string).
Context (maxResolutionDepth : Z).
Hypothesis Hset : fast_setting m typesys conds (stored store) reqCtx user.
Hypothesis Hconds : conds_compiled conds.

Abbreviation has_some := (has_some typesys conds (stored store) reqCtx user).
Abbreviation Hm := (fs_model _ _ _ _ _ _ Hset).
Abbreviation Hus := (fs_users _ _ _ _ _ _ Hset).

Lemma recursiveUsersetFastPathV2_ok req rel l e (o := Object (rq_TupleKey req)) (r := Relation (rq_TupleKey req)) :
  request_ok store reqCtx user req → GetRelation typesys (GetType o) r = Ret rel →
  recursive_relation typesys user ByUserset (GetType o) r rel →
  fast_read typesys conds store reqCtx req r l e → (∀ tk, tk ∈ l → Tuple.GetRelation (User tk) ≠ "") →
  usersets_answer typesys conds store reqCtx user (λ o r, ¬ has_some o r) l
    (recursiveUsersetFastPathV2 typesys conds reqCtx maxResolutionDepth req (l, Some e)).
Proof.
  intros (Hs&_&Hu&Ho) Hrel Hrec Hread Hne. pose proof (fast_read_done m typesys conds store reqCtx user Hset _ _ _ _ Hconds Hread) as ->.
  destruct Hread as [_ Hl].
  assert (∀ tk, tk ∈ l → node (GetType o) (SplitObjectRelation (User tk)).1 ∧ Tuple.GetRelation (User tk) = r) as Hnode.
  { intros tk Htk. eapply (rec_userset m typesys conds store reqCtx user Hset ByUserset (GetType o) r rel Hrel Hrec o); [done|done|by apply Hl|by apply Hne]. }
  assert (l ≠ [] → userset_references rel ≠ []) as Hrefs.
  { destruct l as [|tk l]; [done|]. intros _ Hnil.
    destruct (usable_userset m typesys conds (stored store) reqCtx Hm Hus _ _ _ (Hl tk ltac:(by left)) (Hne tk ltac:(by left))) as (rel'&rr&Hrel'&Hrr&_&Hrg&_).
    fold o in Hrel'. rewrite Hrel in Hrel'. injection Hrel' as <-. apply (not_elem_of_nil rr). rewrite <-Hnil. apply list_elem_of_In, List.filter_In.
    split; [by apply list_elem_of_In|]. rewrite Hrg, bool_decide_false; [done|]. apply Hne. by left. }
  destruct (provider_channels m typesys conds store reqCtx user Hset ByUserset (GetType o) r rel Hrel Hrec BuildUsersetV2RelationFunc req
    [mkRelationReference (GetType o) (Some (RR_Relation r)) ""] Hs Hu ltac:(done)) as (chans&Hc&Hfine&Hb).
  { by intros rr ->%list_elem_of_singleton. }
  unfold RecursivePath.recursiveUsersetFastPathV2. fold o r. rewrite (DirectlyRelatedUsersets_references typesys _ _ _ Hrel). cbn [fst snd].
  rewrite (lookup_messages UsersetKind (λ tk, (SplitObjectRelation (User tk)).1) l) by (intros tk Htk; by apply userset_mapped, Hne).
  pose proof (recursiveFastPath_answer m typesys conds store reqCtx user Hset ByUserset (GetType o) r rel Hrel Hrec maxResolutionDepth Hconds req
    ((λ tk, (SplitObjectRelation (User tk)).1) <$> l) (recursiveUserset_Begin typesys conds reqCtx req) chans Hs eq_refl) as Ha.
  rewrite <-list_fmap_compose in Ha. eapply verdict_impl; [| |apply Ha; [|..|exact Hc|exact Hfine|exact Hb]].
  - intros (x&(tk&->&Htk)%list_elem_of_fmap&Hx). exists tk. split; [done|]. by rewrite (proj2 (Hnode tk Htk)).
  - intros Hall tk Htk. rewrite (proj2 (Hnode tk Htk)). apply Hall, list_elem_of_fmap. by exists tk.
  - intros x (tk&->&Htk)%list_elem_of_fmap. by apply Hnode.
  - intros _ Hn. apply Hrefs. intros ->. done.
Qed.

Lemma recursiveTTUFastPathV2_ok req rel ts l e (o := Object (rq_TupleKey req)) (r := Relation (rq_TupleKey req)) :
  request_ok store reqCtx user req → GetRelation typesys (GetType o) r = Ret rel →
  recursive_relation typesys user (ByTupleset ts) (GetType o) r rel →
  fast_read typesys conds store reqCtx req ts l e →
  parents_answer typesys conds store reqCtx user (λ o r, ¬ has_some o r) r l
    (recursiveTTUFastPathV2 typesys conds reqCtx maxResolutionDepth req (Userset_TupleToUserset ts r) (l, Some e)).
Proof.
  intros (Hs&_&Hu&Ho) Hrel Hrec Hread. pose proof (fast_read_done m typesys conds store reqCtx user Hset _ _ _ _ Hconds Hread) as ->.
  destruct Hread as [_ Hl]. unfold RecursivePath.recursiveTTUFastPathV2. cbn [fst snd]. rewrite (lookup_messages TTUKind User l) by done.
  assert (∀ tk, tk ∈ l → SplitObjectRelation (User tk) = (User tk, "") ∧ node (GetType o) (User tk) ∧ ttu_skips typesys (User tk) r = false) as Hnode.
  { intros tk Htk. by eapply (rec_parent m typesys conds store reqCtx user Hset (ByTupleset ts) (GetType o) r rel Hrel Hrec o ts); [..|by apply Hl]. }
  destruct (decide (l = [])) as [->|Hne]; [intros _ tk Htk; by apply not_elem_of_nil in Htk|].
  pose proof (rc_recursive _ _ _ _ _ _ Hrec) as Hin. pose proof (rc_targets _ _ _ _ _ _ Hrec) as Ht. simpl in Hin, Ht.
  assert ((ts, r) ∈ flattenUserset (rel_Rewrite rel)) as Hts by (eapply union_leaves_flatten; [exact Hin|by left]).
  assert (∃ tsrel, GetRelation typesys (GetType o) ts = Ret tsrel ∧ rel_DirectlyRelatedUserTypes tsrel ≠ []) as (tsrel&Htsrel&Hrefs).
  { destruct l as [|tk l]; [done|].
    destruct (usable_ttu m typesys conds (stored store) reqCtx Hm Hus o r rel ts r (User tk) Hrel Hts (Hl tk ltac:(by left))) as (_&_&tsrel&rr&Htsrel&Hrr&_).
    exists tsrel. split; [done|]. intros Hnil. rewrite Hnil in Hrr. by apply not_elem_of_nil in Hrr. }
  destruct (provider_channels m typesys conds store reqCtx user Hset (ByTupleset ts) (GetType o) r rel Hrel Hrec (BuildTTUV2RelationFunc r) req
    (rel_DirectlyRelatedUserTypes tsrel) Hs Hu Hrefs) as (chans&Hc&Hfine&Hb).
  { intros rr Hrr. split; [by eapply Ht|done]. }
  pose proof (recursiveFastPath_answer m typesys conds store reqCtx user Hset (ByTupleset ts) (GetType o) r rel Hrel Hrec maxResolutionDepth Hconds req
    (User <$> l) (recursiveTTU_Begin typesys conds reqCtx req ts r) chans Hs eq_refl) as Ha.
  rewrite <-list_fmap_compose in Ha. eapply verdict_impl; [| |apply Ha; [|done| |exact Hfine|exact Hb]].
  - intros (x&(tk&->&Htk)%list_elem_of_fmap&Hx). exists tk. split; [done|]. destruct (Hnode tk Htk) as (->&_&Hsk). done.
  - intros Hall tk Htk. destruct (Hnode tk Htk) as (->&_&_). intros _. apply Hall, list_elem_of_fmap. by exists tk.
  - intros x (tk&->&Htk)%list_elem_of_fmap. by apply Hnode.
  - unfold recursiveTTU_Begin. fold o. unfold GetDirectlyRelatedUserTypes. rewrite Htsrel. exact Hc.
Qed.
End paths.

(** ** The recursive fast paths end *)

Section provider_conclude.
Context {I : Type} `{!Iterator I string}.

Definition sent (o : outcome CheckErr (list usersetMessage)) : Prop :=
  match o with Ret l => Forall message_concluded l | Throw _ => False | Panic _ => True end.

Lemma iterator_messages_sent fuel : ∀ it : I, sent (iterator_messages fuel it).
Proof.
  induction fuel as [|fuel IH]; intros it; [done|]. cbn [iterator_messages]. destruct (Next None it) as [[t|e|w] it'].
  - specialize (IH it'). destruct (iterator_messages fuel it'); simpl in *; [by constructor|done|done].
  - destruct (IterIsDoneOrCancelled e); simpl; by repeat constructor.
  - done.
Qed.

Lemma channel_messages_sent (c : list (Msg I)) : sent (channel_messages c).
Proof.
  induction c as [|[it|e] c IH]; cbn [channel_messages]; [constructor| |by repeat constructor].
  pose proof (iterator_messages_sent (S (remaining it)) it) as Hi. destruct (iterator_messages _ it) as [l|e|w]; [|done..].
  destruct (channel_messages c) as [l'|e|w]; [|done..]. by apply Forall_app.
Qed.

Lemma iteratorsToUserset_sent (chans : list (list (Msg I))) :
  match iteratorsToUserset chans with Ret ls => Forall (Forall message_concluded) ls | Throw _ => False | Panic _ => True end.
Proof.
  induction chans as [|c chans IH]; cbn [iteratorsToUserset]; [constructor|].
  pose proof (channel_messages_sent c) as Hc. destruct (channel_messages c) as [l|e|w]; [|done..].
  destruct (iteratorsToUserset chans) as [ls|e|w]; [|done..]. by constructor.
Qed.
End provider_conclude.

Section recursive_conclude.
Context `{!ModelGraph, !Cel, !MapRange, !ConditionCompiler, !RelationshipTupleReader, !StartingReader, !RecursiveScheduler}.
Context (m : AuthorizationModel) (typesys : TypeSystem) (conds : gmap string EvaluableCondition) (reqCtx : option Struct).
Context (maxResolutionDepth : Z).
Hypothesis Hmodel : NewAndValidate m = Ret typesys.
Hypothesis Hnames : ∀ ty r rel, GetRelation typesys ty r = Ret rel → has_byte ":" ty = false.

Definition arrival_concluded (a : RecArrival) : Prop :=
  match a with FromUser msg | FromObject msg => message_concluded msg | _ => True end.

Lemma first_level_concluded evs : Forall arrival_concluded evs → ∀ fu fo,
  match first_level fu fo evs with inl o => concluded o | inr _ => True end.
Proof.
  induction 1 as [|a evs Ha _ IH]; intros fu fo; [done|]. destruct a as [[u|e]| |[u|e]|]; cbn [first_level processUsersetMessage].
  - case_bool_decide; [done|apply IH].
  - by intros ? [= <-].
  - case_bool_decide; [done|apply IH].
  - case_bool_decide; [done|apply IH].
  - by intros ? [= <-].
  - apply IH.
Qed.

Lemma scan_userset_concluded fromUser msgs : Forall message_concluded msgs → ∀ next e,
  (scan_userset fromUser msgs next).1.2 = Some e → fuel_free e.
Proof.
  induction 1 as [|[u|e'] msgs Hmsg _ IH]; intros next e; cbn [scan_userset]; [done|case_bool_decide; [done|apply IH]|by intros [= <-]].
Qed.

Definition error_free (err : option CheckErr) : Prop := ∀ e, err = Some e → fuel_free e.

Lemma scan_level_concluded req mapping fromUser us : ∀ visited next lastErr, error_free lastErr →
  match scan_level typesys conds reqCtx req mapping fromUser us visited next lastErr with
  | Ret (_, _, _, err) => error_free err
  | Throw e => fuel_free e
  | Panic _ => True
  end.
Proof.
  induction us as [|u us IH]; intros visited next lastErr He; cbn [scan_level]; [done|]. case_bool_decide; [by apply IH|].
  destruct (buildRecursiveMapper _ _ _ _ _) as [[keys final]|e|w] eqn:Hb; [| |done].
  - pose proof (scan_userset_concluded fromUser _ (lookup_concluded (rm_kind mapping) keys final) next) as Hs.
    destruct (scan_userset _ _ _) as [[[] err] next']; [done|]. apply IH. destruct err as [e|]; [|done]. intros e' [= <-]. by apply Hs.
  - apply IH. intros e' [= <-]. unfold buildRecursiveMapper in Hb. destruct (rm_kind mapping); try destruct (rd_ReadUsersetTuples _ _); try destruct (rd_Read _ _); by simplify_eq/=.
Qed.

Lemma breadthFirst_concluded levels : ∀ req mapping visited current fromUser lastErr, error_free lastErr →
  concluded (breadthFirstRecursiveMatch typesys conds reqCtx levels req mapping visited current fromUser lastErr).
Proof.
  induction levels as [|levels IH]; intros req mapping visited current fromUser lastErr He; cbn [breadthFirstRecursiveMatch]; [by intros ? [= <-]|].
  case_bool_decide; [by apply denied_or_concluded|].
  pose proof (scan_level_concluded req mapping fromUser (level_order current) visited ∅ lastErr He) as Hs.
  destruct (scan_level _ _ _ _ _ _ _ _ _ _) as [[[[[] v] n] err]|e|w]; [done|by apply IH|by intros ? [= <-]|done].
Qed.

Lemma recursiveFastPath_concluded req right mapping begin :
  Forall message_concluded right → channel_concluded begin →
  concluded (recursiveFastPath typesys conds reqCtx maxResolutionDepth req right mapping begin).
Proof.
  intros Hright Hbegin. unfold recursiveFastPath. destruct right as [|[u|e] right]; [done| |by apply Forall_cons_1 in Hright as [? _]; intros ? [= <-]].
  apply Forall_cons_1 in Hright as [_ Hright]. apply bind_concluded; [done|]. intros chans.
  pose proof (@iteratorsToUserset_sent _ (string_Iterator conds reqCtx) chans) as Hsent.
  destruct (iteratorsToUserset chans) as [ls|e|w]; [|done..]. cbn [outcome_bind].
  pose proof (first_level_concluded (rec_arrivals ls right)) as Hfl. specialize (λ H, Hfl H ∅ {[u]}).
  destruct (first_level _ _ _) as [o|[fu fo]]; [apply Hfl|by apply breadthFirst_concluded].
  destruct (rec_arrivals_order ls right) as (left&Hleft&Hord). pose proof (proj1 (Forall_forall _ _) Hsent) as Hls. pose proof (proj1 (Forall_forall _ _) Hright) as Hrs. apply Forall_forall.
  intros a (c&Hc&Hac)%(fan_in_elem _ _ Hord). apply elem_of_cons in Hc as [->|Hc]; [|apply list_elem_of_singleton in Hc as ->];
    (apply elem_of_app in Hac as [Hac|Hac]; [apply list_elem_of_fmap in Hac as (msg&->&Hmsg)|by apply list_elem_of_singleton in Hac as ->]).
  - apply (fan_in_elem _ _ Hleft) in Hmsg as (k&Hk&Hmsg). exact (proj1 (Forall_forall _ _) (Hls k Hk) msg Hmsg).
  - by apply Hrs.
Qed.
End recursive_conclude.

(** ** Check with every fast path *)

(** The selection for a user: the recursive fast paths are selected for relations whose
    only recursion they follow. *)
Record all_selection `{!ModelGraph} (typesys : TypeSystem) (user : string) (sel : FastPathSelection) : Prop := {
  as_weight2 : weight2_selection typesys user (canUserset sel) (canTTU sel);
  as_userset ty r rel :
    GetRelation typesys ty r = Ret rel → canRecursiveUserset sel ty r (GetType user) = true →
    recursive_relation typesys user ByUserset ty r rel;
  as_ttu ty r rel ts c :
    GetRelation typesys ty r = Ret rel → (ts, c) ∈ flattenUserset (rel_Rewrite rel) → canRecursiveTTU sel ty r (GetType user) ts c = true →
    c = r ∧ recursive_relation typesys user (ByTupleset ts) ty r rel;
}.

(** When the fast paths can be relied on: types have no colon in their names, as the API
    checks, and for a user that is no userset either no fast path is selected for its type
    or the selection and the tuples are as above. *)
Definition unselected (user : string) (sel : FastPathSelection) : Prop :=
  (∀ o r refs, canUserset sel o r (GetType user) refs = false) ∧ (∀ o r ts c, canTTU sel o r (GetType user) ts c = false) ∧
  (∀ o r, canRecursiveUserset sel o r (GetType user) = false) ∧ (∀ o r ts c, canRecursiveTTU sel o r (GetType user) ts c = false).

Record paths_ready `{!ModelGraph, !Cel, !MapRange, !ConditionCompiler} (m : AuthorizationModel) (typesys : TypeSystem)
    (conds : gmap string EvaluableCondition) (tuples : list Tuple) (reqCtx : option Struct) (user : string)
    (sel : FastPathSelection) : Prop := {
  pr_names ty r rel : GetRelation typesys ty r = Ret rel → has_byte ":" ty = false;
  pr_selected : IsObjectRelation user = false →
    unselected user sel ∨ (fast_setting m typesys conds tuples reqCtx user ∧ all_selection typesys user sel);
}.

Section exact.
Context `{!ModelGraph, !Cel, !MapRange, !ConditionCompiler, !Scheduler, !GraphLaws}.
Context (m : AuthorizationModel) (typesys : TypeSystem) (conds : gmap string EvaluableCondition).
Context `{!RelationshipTupleReader} (store : string) `{!RelationshipTupleReaderSpec store}.
Context `{!StartingReader, !SortedReaderSpec store (stored store), !FastScheduler string_iter, !RecursiveScheduler}.
Context (reqCtx : option Struct) (user : string) (sel : FastPathSelection) (maxResolutionDepth : Z).

Abbreviation every_path := (all_paths typesys conds maxResolutionDepth sel).

Lemma all_paths_conclude :
  NewAndValidate m = Ret typesys → (∀ ty r rel, GetRelation typesys ty r = Ret rel → has_byte ":" ty = false) →
  fast_paths_conclude every_path.
Proof.
  intros Hm Hn. destruct (weight2_conclude m typesys conds (canUserset sel) (canTTU sel) Hm Hn) as (Hw&_&Ht&_). split_and!; [exact Hw| |exact Ht|]; simpl.
  - intros _ _ _ _ req l. apply recursiveFastPath_concluded; [apply lookup_concluded|by eapply channels_concluded].
  - intros _ _ _ _ _ _ req rw l. unfold RecursivePath.recursiveTTUFastPathV2. destruct (match rw with Userset_TupleToUserset _ _ => _ | _ => _ end) as [ts c].
    apply recursiveFastPath_concluded; [apply lookup_concluded|]. unfold recursiveTTU_Begin.
    destruct (GetDirectlyRelatedUserTypes _ _ _) as [refs|e|w]; [by eapply channels_concluded|by intros e' [= <-]|done].
Qed.

Lemma all_paths_positive :
  fast_setting m typesys conds (stored store) reqCtx user → conds_compiled conds → all_selection typesys user sel →
  fast_paths_positive typesys conds every_path store reqCtx user.
Proof.
  intros Hset Hconds Hsel. pose proof (weight2_paths_ok m typesys conds store reqCtx user (canUserset sel) (canTTU sel) Hset Hconds (as_weight2 _ _ _ Hsel)) as Hw.
  apply (fast_paths_ok_positive store m) in Hw as [_ Hu Ht]; [|by destruct Hset..]. split.
  - apply all_paths_conclude; [by destruct Hset|]. intros ty r rel Hrel. by apply (fs_names _ _ _ _ _ _ Hset ty r rel).
  - intros req rel l e o r Hreq Hor Hrel Hread Hne. destruct (Hu req rel l e Hreq Hor Hrel Hread Hne) as [Hw2 _]. split; [exact Hw2|].
    simpl. intros Hc. pose proof Hreq as (_&->&_). apply (recursiveUsersetFastPathV2_ok m typesys conds store reqCtx user maxResolutionDepth Hset Hconds req rel l e); try done.
    by apply (as_userset _ _ _ Hsel).
  - intros req rel ts c l e o r rw Hreq Hor Hrel Hts Hread. destruct (Ht req rel ts c l e Hreq Hor Hrel Hts Hread) as [Hw2 _]. split; [exact Hw2|].
    simpl. intros Hc. pose proof Hreq as (_&->&_). destruct (as_ttu _ _ _ Hsel _ _ _ _ _ Hrel Hts Hc) as [-> Hrec].
    by apply (recursiveTTUFastPathV2_ok m typesys conds store reqCtx user maxResolutionDepth Hset Hconds req rel ts l e).
Qed.

Lemma paths_ready_positive :
  NewAndValidate m = Ret typesys → conds_compiled conds → paths_ready m typesys conds (stored store) reqCtx user sel →
  fast_paths_positive typesys conds every_path store reqCtx user.
Proof.
  intros Hm Hconds [Hn Hsel]. split; [by apply all_paths_conclude| |].
  - intros req rel l e o r Hreq Hor. destruct (Hsel Hor) as [(Hnu&_&Hnr&_)|[Hset Hw]]; [|by eapply (all_paths_positive Hset Hconds Hw)].
    intros _ _ _. simpl. by rewrite Hnu, Hnr.
  - intros req rel ts c l e o r rw Hreq Hor. destruct (Hsel Hor) as [(_&Hnt&_&Hnr)|[Hset Hw]]; [|by eapply (all_paths_positive Hset Hconds Hw)].
    intros _ _ _. simpl. by rewrite Hnt, Hnr.
Qed.

(** C1: Check with its fast paths is exact on models without exclusion.  For every store,
    every validated such model, every order in which sub-problems, channels and usersets
    arrive and enough recursion, the answer to a request without history is allowed if and
    only if the user has a derivation of the relation from the usable tuples, although
    sub-problems already visited are cut and denied as cycles; otherwise Check fails with
    an error of the program, and never panics.  The fast paths are those of the program,
    for whatever selection, provided that [paths_ready] holds: where one is selected for
    the user's type, relations refer to at most one userset of each type and recurse only
    as the path follows, every stored condition is decided, and no object has both a tuple
    of the user and one of everybody.  The restrictions of the model name their relations
    and the stored users are valid. *)
Theorem ResolveCheck_all_fast_exact (fuel : nat) (req : ResolveCheckRequest) :
  NewAndValidate m = Ret typesys → refs_named typesys → conds_compiled conds →
  (∀ t, t ∈ stored store → IsValidUser (User (Key t)) = true) → IsValidUser user = true → GetType user ≠ "" →
  paths_ready m typesys conds (stored store) reqCtx user sel → positive_model typesys →
  request_ok store reqCtx user req → rq_VisitedPaths req = ∅ → depth_ok maxResolutionDepth req →
  (check_fuel typesys maxResolutionDepth req ≤ fuel)%nat →
  match ResolveCheck typesys conds every_path maxResolutionDepth fuel req with
  | Ret resp => Allowed resp = true ↔
      ∃ n, granted typesys conds (stored store) reqCtx user n (Object (rq_TupleKey req)) (Relation (rq_TupleKey req))
  | Throw e => fuel_free e
  | Panic _ => False
  end.
Proof.
  intros Hm Href Hconds Hst Hu Hty Hready. apply (ResolveCheck_exact_spec store m). split; try done. by apply paths_ready_positive.
Qed.
End exact.
