(* ===== verification/RecursivePathMemory.v ===== *)
(** * The recursive fast paths over the in-memory datastore

    Models on which a recursive fast path answers another question than the checks it
    replaces, and Check with all its fast paths on a model of recursive groups and
    folders. *)

From stdpp Require Import relations.
From S2P Require Import Prelude GoStd Tuple Iterators Model Memory MemorySpec Typesystem Entrypoints TypesystemSpec.
From S2P Require Import Condition Validation ValidationSpec Check CheckSpec CheckSemantics CheckExact CheckMemory CombinedReader.
From S2P Require Import WeightedGraph ReverseExpand ReverseExpandMemory FastPathStreams FastPathStreamsSpec FastPath FastPathSpec SortedCombined.
From S2P Require Import FastPathExact FastPathMemory RecursivePath RecursivePathSpec RecursivePathExact.

Local Open Scope Z_scope.
Local Open Scope go_scope.

(** ** A setting to run the fast paths in *)

(** The objects of the user first, then the usersets of the object; levels as they are. *)
Definition user_first_arrivals (left right : list usersetMessage) : list RecArrival :=
  (FromUser <$> left) ++ UserClosed :: (FromObject <$> right) ++ [ObjectClosed].

Lemma user_first_order left right :
  fan_in [(FromUser <$> left) ++ [UserClosed]; (FromObject <$> right) ++ [ObjectClosed]] (user_first_arrivals left right).
Proof.
  assert (user_first_arrivals left right = concat [(FromUser <$> left) ++ [UserClosed]; (FromObject <$> right) ++ [ObjectClosed]]) as ->.
  { unfold user_first_arrivals. simpl. by rewrite app_nil_r, <-app_assoc. }
  apply fan_in_concat.
Qed.

Definition user_first_Scheduler : RecursiveScheduler.
Proof.
  refine {| rec_arrivals chans right := user_first_arrivals (concat chans) right; level_order := elements |}.
  - intros chans right. exists (concat chans). split; [apply fan_in_concat|apply user_first_order].
  - done.
Defined.

(** The selection by the weighted graph. *)
Definition graph_selection `{!WeightedGraph} (wg : option wgraph) (fuel : nat) : FastPathSelection := {|
  canUserset o r u l := default false (UsersetCanFastPathWeight2 wg fuel o r u l);
  canTTU o r u ts c := default false (TTUCanFastPathWeight2 wg fuel o r u ts c);
  canRecursiveUserset o r u := default false (RecursiveUsersetCanFastPathV2 wg fuel o r u);
  canRecursiveTTU o r u ts c := default false (RecursiveTTUCanFastPathV2 wg fuel o r u ts c);
|}.

(** Check of a request over the datastore, with all fast paths that the graph selects. *)
Definition all_check (t : @TypeSystem demo_Graph) (writes : list TupleKey) (wg : list (list_node * list list_edge)) (tk : TupleKey)
  : checkOutcome :=
  @ResolveCheck demo_Graph demo_Cel rev_Scheduler (demo_Reader writes []) t ∅
    (@all_paths demo_Graph demo_Cel (demo_Reader writes []) (demo_Starting writes []) (left_first_Scheduler _) user_first_Scheduler
       t ∅ 25 (@graph_selection list_WeightedGraph (Some wg) 10)) 25
    (@check_fuel demo_Graph t 25 (initial_request "store" tk None)) (initial_request "store" tk None).

(** ** Another userset of the type *)

(** type doc with editor: [employee] and viewer: [user, doc#viewer, doc#editor]. *)
Definition other_model : AuthorizationModel :=
  mkAuthorizationModel "model" "1.1"
    [mkTypeDefinition "user" ∅ ∅; mkTypeDefinition "employee" ∅ ∅;
     mkTypeDefinition "doc" (<["editor" := This]> {["viewer" := This]})
       (<["editor" := [DirectRelationReference "employee" ""]]>
          {["viewer" := [DirectRelationReference "user" ""; DirectRelationReference "doc" "viewer"; DirectRelationReference "doc" "editor"]]})] ∅.

Definition infinite (u : string) : string * Z := (u, @Infinite list_WeightedGraph).

Definition other_graph : list (list_node * list list_edge) :=
  let user := type_node "user" in
  let employee := type_node "employee" in
  let editor := relation_of "doc#editor" [("employee", 1)] in
  let viewer := relation_of "doc#viewer" [infinite "user"; infinite "employee"] in
  [(user, []); (employee, []); (editor, [mkEdge DirectEdge employee "" [("employee", 1)]]);
   (viewer, [mkEdge DirectEdge user "" [("user", 1)]; mkEdge DirectEdge viewer "" [infinite "user"; infinite "employee"];
             mkEdge DirectEdge editor "" [("employee", 2)]])].

(** The editors of doc:2 view doc:1; user:x views doc:2 and does not edit it. *)
Definition other_tuples : list TupleKey :=
  [NewTupleKey "doc:1" "viewer" "doc:2#editor"; NewTupleKey "doc:2" "viewer" "user:x"].

(** The recursive fast path of usersets grants access that Check without it denies: when
    the relation also refers to another userset of its own type, the usersets read lose
    their relation, so that doc:2, whose editors may view doc:1, is matched with the
    documents that the user views. *)
Theorem recursive_path_grants_other_userset :
  match validate other_model with
  | Ret t =>
      slow_check t other_tuples [] (NewTupleKey "doc:1" "viewer" "user:x") = Ret (mkResolveCheckResponse false false) ∧
      all_check t other_tuples other_graph (NewTupleKey "doc:1" "viewer" "user:x") = Ret (mkResolveCheckResponse true false)
  | _ => False
  end.
Proof. vm_compute. by split. Qed.

(** ** A parent of another type *)

(** type folder with parent: [doc] and viewer: [employee], type doc with parent: [doc,
    folder] and viewer: [user] or viewer from parent. *)
Definition parents_model : AuthorizationModel :=
  mkAuthorizationModel "model" "1.1"
    [mkTypeDefinition "user" ∅ ∅; mkTypeDefinition "employee" ∅ ∅;
     mkTypeDefinition "folder" (<["parent" := This]> {["viewer" := This]})
       (<["parent" := [DirectRelationReference "doc" ""]]> {["viewer" := [DirectRelationReference "employee" ""]]});
     mkTypeDefinition "doc" (<["parent" := This]> {["viewer" := Union [This; TupleToUserset "parent" "viewer"]]})
       (<["parent" := [DirectRelationReference "doc" ""; DirectRelationReference "folder" ""]]>
          {["viewer" := [DirectRelationReference "user" ""]]})] ∅.

Definition parents_graph : list (list_node * list list_edge) :=
  let user := type_node "user" in
  let employee := type_node "employee" in
  let folder := relation_of "folder#viewer" [("employee", 1)] in
  let viewer := relation_of "doc#viewer" [infinite "user"; infinite "employee"] in
  let or := mkNode "union:doc#viewer" OperatorNode "union" [infinite "user"; infinite "employee"] in
  [(user, []); (employee, []); (folder, [mkEdge DirectEdge employee "" [("employee", 1)]]);
   (viewer, [mkEdge RewriteEdge or "" [infinite "user"; infinite "employee"]]);
   (or, [mkEdge DirectEdge user "" [("user", 1)]; mkEdge TTUEdge viewer "doc#parent" [infinite "user"; infinite "employee"];
         mkEdge TTUEdge folder "doc#parent" [("employee", 2)]])].

(** doc:1 is in folder:1, which has the parent doc:2; user:x views doc:2. *)
Definition parents_tuples : list TupleKey :=
  [NewTupleKey "doc:1" "parent" "folder:1"; NewTupleKey "folder:1" "parent" "doc:2"; NewTupleKey "doc:2" "viewer" "user:x"].

(** The recursive fast path of tuple-to-usersets grants access that Check without it
    denies: it follows the tupleset relation through objects of every type, also where the
    relation is not defined by it.  The viewers of folder:1 do not come from its parent,
    but user:x, who views that parent, views doc:1. *)
Theorem recursive_path_grants_through_parent :
  match validate parents_model with
  | Ret t =>
      slow_check t parents_tuples [] (NewTupleKey "doc:1" "viewer" "user:x") = Ret (mkResolveCheckResponse false false) ∧
      all_check t parents_tuples parents_graph (NewTupleKey "doc:1" "viewer" "user:x") = Ret (mkResolveCheckResponse true false)
  | _ => False
  end.
Proof. vm_compute. by split. Qed.

(** ** Cycles below an exclusion *)

(** type doc with blocked: [user, doc#blocked] and viewer: [user] but not blocked. *)
Definition cycle_model : AuthorizationModel :=
  mkAuthorizationModel "model" "1.1"
    [mkTypeDefinition "user" ∅ ∅;
     mkTypeDefinition "doc" (<["blocked" := This]> {["viewer" := Difference This (ComputedUserset "blocked")]})
       (<["blocked" := [DirectRelationReference "user" ""; DirectRelationReference "doc" "blocked"]]>
          {["viewer" := [DirectRelationReference "user" ""]]})] ∅.

Definition cycle_graph : list (list_node * list list_edge) :=
  let user := type_node "user" in
  let blocked := relation_of "doc#blocked" [infinite "user"] in
  [(user, []); (blocked, [mkEdge DirectEdge user "" [("user", 1)]; mkEdge DirectEdge blocked "" [infinite "user"]])].

Definition cycle_tuples : list TupleKey :=
  [NewTupleKey "doc:1" "blocked" "doc:2#blocked"; NewTupleKey "doc:2" "blocked" "doc:1#blocked"; NewTupleKey "doc:1" "viewer" "user:x"].

(** Below an exclusion the recursive fast path changes answers: a cycle among the blocked
    documents makes Check without it deny, because an exclusion denies when its
    subtracted operand reports a cycle; the fast path reports no cycle and user:x, who is
    not blocked, is granted. *)
Theorem recursive_path_ignores_cycle :
  match validate cycle_model with
  | Ret t =>
      slow_check t cycle_tuples [] (NewTupleKey "doc:1" "viewer" "user:x") = Ret (mkResolveCheckResponse false true) ∧
      all_check t cycle_tuples cycle_graph (NewTupleKey "doc:1" "viewer" "user:x") = Ret (mkResolveCheckResponse true false)
  | _ => False
  end.
Proof. vm_compute. by split. Qed.

(** ** Deciding the selection on concrete models *)

Section decide.
Context `{!ModelGraph} (t : TypeSystem) (user : string).

Section relation.
Context (mode : recursion) (ty r : string) (rel : RelationDef).

Definition leaf_b (rw : Userset) : bool :=
  match rw, mode with
  | Userset_This, ByUserset => true
  | Userset_This, ByTupleset _ => bool_decide (userset_references rel = [])
  | Userset_ComputedUserset _ _, _ => true
  | Userset_TupleToUserset ts c, ByTupleset ts' => (ts =s ts') && (c =s r)
  | _, _ => false
  end.

Definition recursion_b (rw : Userset) : bool :=
  match rw, mode with
  | Userset_This, ByUserset => true
  | Userset_TupleToUserset ts c, ByTupleset ts' => (ts =s ts') && (c =s r)
  | _, _ => false
  end.

Definition targets_b : bool :=
  match mode with
  | ByUserset => forallb (λ rr, (rr_Type rr =s ty) && (rr_GetRelation rr =s r)) (userset_references rel)
  | ByTupleset ts =>
      match GetRelation t ty ts with
      | Ret tsrel => forallb (λ rr, rr_Type rr =s ty) (rel_DirectlyRelatedUserTypes tsrel)
      | _ => true
      end
  end.

(** A computed relation without further rewrites. *)
Definition last_b (c : string) : bool :=
  match GetRelation t ty c with Ret crel => plain_b crel && bool_decide (computed_leaves (rel_Rewrite crel) = []) | _ => false end.

Definition recursive_b : bool :=
  forallb leaf_b (union_leaves (rel_Rewrite rel)) && existsb recursion_b (union_leaves (rel_Rewrite rel))
  && targets_b && forallb last_b (computed_leaves (rel_Rewrite rel)).

Lemma elem_of_userset_references rr :
  rr ∈ userset_references rel ↔ rr ∈ rel_DirectlyRelatedUserTypes rel ∧ rr_GetRelation rr ≠ "".
Proof. unfold userset_references. rewrite elem_of_filter_true, negb_true_iff, bool_decide_eq_false. done. Qed.

Lemma last_weight_one c : last_b c = true → weight_one t user ty c.
Proof.
  unfold last_b. intros Hb r' rel' Hr' Hrel'. destruct (GetRelation t ty c) as [crel| |] eqn:Hc; [|done..].
  apply andb_true_iff in Hb as [Hp Hnil%bool_decide_eq_true].
  assert (r' = c) as ->.
  { inversion Hr' as [|? y ? (crel'&Hc'&Hy)]; subst; [done|]. rewrite Hc in Hc'. injection Hc' as <-. rewrite Hnil in Hy. by apply not_elem_of_nil in Hy. }
  rewrite Hc in Hrel'. injection Hrel' as <-. unfold plain_b in Hp. rewrite !andb_true_iff, !bool_decide_eq_true in Hp.
  destruct Hp as [[Hu Ht] Hi]. split_and!; [| |done].
  - intros rr Hrr Hg. exfalso. apply (not_elem_of_nil rr). rewrite <-Hu. apply elem_of_filter_true. split; [done|]. by rewrite bool_decide_false.
  - intros ts d tsrel rr Hin. rewrite Ht in Hin. by apply not_elem_of_nil in Hin.
Qed.

Lemma union_leaves_computed rw ob c : Userset_ComputedUserset ob c ∈ union_leaves rw → c ∈ computed_leaves rw.
Proof.
  induction rw as [|ob0 d|ts d|l IH|l IH|b s IHb IHs|] using Userset_nested_ind; simpl; try (by intros ?%list_elem_of_singleton).
  - intros [= _ ->]%list_elem_of_singleton. by left.
  - rewrite Forall_forall in IH. intros (k&Hk&Hleaf)%elem_of_concat_inv. eapply elem_of_concat_fmap; [exact Hk|]. by apply IH.
Qed.

Lemma leaf_decide leaf : leaf ∈ union_leaves (rel_Rewrite rel) → leaf_b leaf = true → recursive_leaf t user mode ty r rel leaf.
Proof.
  intros Hleaf Hb. destruct leaf as [|ob c|ts c|l|l|b s|]; simpl in *; try (by destruct mode).
  - destruct mode as [|ts]; [done|]. apply bool_decide_eq_true in Hb. intros _ rr Hrr Hg. exfalso. apply (not_elem_of_nil rr). rewrite <-Hb.
    by apply elem_of_userset_references.
  - apply union_leaves_computed in Hleaf. split; [split; simpl; try done|done|].
    + by intros d ->%list_elem_of_singleton.
    + by intros d ?%not_elem_of_nil.
    + by intros ? ? ? ? ?%not_elem_of_nil.
  - destruct mode as [|ts']; [done|]. apply andb_true_iff in Hb as [->%bool_decide_eq_true ->%bool_decide_eq_true]. by left.
Qed.

Lemma recursive_decide : recursive_b = true → recursive_relation t user mode ty r rel.
Proof.
  unfold recursive_b. rewrite !andb_true_iff. intros [[[Hl (leaf&Hleaf%list_elem_of_In&Hrb)%existsb_exists] Ht] Hc]. split.
  - intros leaf' Hleaf'. apply leaf_decide; [done|]. exact (forallb_elem _ _ leaf' Hl Hleaf').
  - destruct leaf as [|ob c|ts c|l|l|b s|]; simpl in Hrb; try (by destruct mode); destruct mode as [|ts']; try done.
    by apply andb_true_iff in Hrb as [->%bool_decide_eq_true ->%bool_decide_eq_true].
  - unfold targets_b in Ht. destruct mode as [|ts].
    + intros rr Hrr Hg. pose proof (forallb_elem _ _ rr Ht (proj2 (elem_of_userset_references rr) (conj Hrr Hg))) as Hb.
      by apply andb_true_iff in Hb as [?%bool_decide_eq_true ?%bool_decide_eq_true].
    + intros tsrel rr Hts Hrr. rewrite Hts in Ht. pose proof (forallb_elem _ _ rr Ht Hrr) as Hb. by apply bool_decide_eq_true in Hb.
  - intros c Hcl. apply last_weight_one. exact (forallb_elem _ _ c Hc Hcl).
Qed.
End relation.

(** What is selected for each relation; the fast paths of weight two only where the types
    referenced have neither usersets nor tuple-to-usersets. *)
Definition relation_selection_b (sel : FastPathSelection) (ty r : string) (rel : RelationDef) : bool :=
  (negb (canUserset sel ty r (GetType user) (userset_references rel)) ||
     forallb (λ rr, plain_type_b t (rr_Type rr)) (userset_references rel) && one_userset_b (userset_references rel))
  && (negb (canRecursiveUserset sel ty r (GetType user)) || recursive_b ByUserset ty r rel)
  && forallb (λ p : string * string,
       (negb (canTTU sel ty r (GetType user) p.1 p.2) ||
          match GetRelation t ty p.1 with Ret tsrel => forallb (λ rr, plain_type_b t (rr_Type rr)) (rel_DirectlyRelatedUserTypes tsrel) | _ => true end)
       && (negb (canRecursiveTTU sel ty r (GetType user) p.1 p.2) || (p.2 =s r) && recursive_b (ByTupleset p.1) ty r rel)) (flattenUserset (rel_Rewrite rel)).

Definition selection_b (sel : FastPathSelection) : bool :=
  forallb (λ p : string * gmap string RelationDef, forallb (λ q, relation_selection_b sel p.1 q.1 q.2) (map_to_list p.2)) (map_to_list (relations t)).

Lemma selection_relation sel ty r rel : selection_b sel = true → GetRelation t ty r = Ret rel → relation_selection_b sel ty r rel = true.
Proof.
  intros Hb [_ Hl]%GetRelation_Ret. destruct (relations t !! ty) as [rels|] eqn:E; simpl in Hl; [|by rewrite lookup_empty in Hl].
  pose proof (forallb_elem _ _ (ty, rels) Hb (proj2 (elem_of_map_to_list _ _ _) E)) as Hp.
  exact (forallb_elem _ _ (r, rel) Hp (proj2 (elem_of_map_to_list _ _ _) Hl)).
Qed.

Lemma selection_decide sel : selection_b sel = true → all_selection t user sel.
Proof.
  intros Hb. split; [split|..].
  - intros ty r rel Hrel Hc. pose proof (selection_relation sel ty r rel Hb Hrel) as Hs. unfold relation_selection_b in Hs.
    rewrite Hc in Hs. cbn [negb orb] in Hs. rewrite !andb_true_iff in Hs. destruct Hs as [[[Hp Hone] _] _]. split.
    + intros rr Hrr. apply plain_weight_one. exact (forallb_elem _ _ rr Hp Hrr).
    + by apply one_userset_decide.
  - intros ty r rel ts c tsrel Hrel Hts Htsrel Hc rr Hrr. pose proof (selection_relation sel ty r rel Hb Hrel) as Hs. unfold relation_selection_b in Hs.
    rewrite !andb_true_iff in Hs. pose proof (forallb_elem _ _ (ts, c) (proj2 Hs) Hts) as Hp. cbn [fst snd] in Hp. rewrite Hc, Htsrel in Hp.
    cbn [negb orb] in Hp. apply andb_true_iff in Hp as [Hp _]. apply plain_weight_one. exact (forallb_elem _ _ rr Hp Hrr).
  - intros ty r rel Hrel Hc. pose proof (selection_relation sel ty r rel Hb Hrel) as Hs. unfold relation_selection_b in Hs.
    rewrite Hc in Hs. cbn [negb orb] in Hs. rewrite !andb_true_iff in Hs. apply recursive_decide, Hs.
  - intros ty r rel ts c Hrel Hts Hc. pose proof (selection_relation sel ty r rel Hb Hrel) as Hs. unfold relation_selection_b in Hs.
    rewrite !andb_true_iff in Hs. pose proof (forallb_elem _ _ (ts, c) (proj2 Hs) Hts) as Hp. cbn [fst snd] in Hp.
    rewrite Hc in Hp. cbn [negb orb] in Hp. rewrite !andb_true_iff, bool_decide_eq_true in Hp. destruct Hp as [_ [-> Hp]]. split; [done|]. by apply recursive_decide.
Qed.
End decide.

(** ** Check with all fast paths on recursive relations *)

(** type doc with parent: [doc], editor: [user], member: [user, doc#member] and viewer:
    [user] or editor or viewer from parent. *)
Definition nested_model : AuthorizationModel :=
  mkAuthorizationModel "model" "1.1"
    [mkTypeDefinition "user" ∅ ∅;
     mkTypeDefinition "doc"
       (<["parent" := This]> (<["editor" := This]> (<["member" := This]>
          {["viewer" := Union [This; ComputedUserset "editor"; TupleToUserset "parent" "viewer"]]})))
       (<["parent" := [DirectRelationReference "doc" ""]]> (<["editor" := [DirectRelationReference "user" ""]]>
          (<["member" := [DirectRelationReference "user" ""; DirectRelationReference "doc" "member"]]>
             {["viewer" := [DirectRelationReference "user" ""]]})))] ∅.

Definition nested_graph : list (list_node * list list_edge) :=
  let user := type_node "user" in
  let editor := relation_of "doc#editor" [("user", 1)] in
  let member := relation_of "doc#member" [infinite "user"] in
  let viewer := relation_of "doc#viewer" [infinite "user"] in
  let or := mkNode "union:doc#viewer" OperatorNode "union" [infinite "user"] in
  [(user, []); (editor, [mkEdge DirectEdge user "" [("user", 1)]]);
   (member, [mkEdge DirectEdge user "" [("user", 1)]; mkEdge DirectEdge member "" [infinite "user"]]);
   (viewer, [mkEdge RewriteEdge or "" [infinite "user"]]);
   (or, [mkEdge DirectEdge user "" [("user", 1)]; mkEdge ComputedEdge editor "" [("user", 1)];
         mkEdge TTUEdge viewer "doc#parent" [infinite "user"]])].

(** The parents and the members of doc:1, doc:2 and doc:3 form cycles; user:x edits doc:3
    and is a member of it, user:y views doc:4 and is a member of it. *)
Definition nested_tuples : list TupleKey :=
  [NewTupleKey "doc:1" "parent" "doc:2"; NewTupleKey "doc:2" "parent" "doc:3"; NewTupleKey "doc:3" "parent" "doc:1";
   NewTupleKey "doc:1" "member" "doc:2#member"; NewTupleKey "doc:2" "member" "doc:3#member"; NewTupleKey "doc:3" "member" "doc:1#member";
   NewTupleKey "doc:3" "editor" "user:x"; NewTupleKey "doc:3" "member" "user:x";
   NewTupleKey "doc:4" "viewer" "user:y"; NewTupleKey "doc:4" "member" "user:y"].

Definition nested_stored : list Tuple :=
  contextual_tuples (demo_combined []) ++ (AsTuple <$> store_tuples (backend_with nested_tuples) "store").

Definition nested_selection : FastPathSelection := @graph_selection list_WeightedGraph (Some nested_graph) 10.

(** The graph selects both recursive fast paths, whose answers are these; the check without
    fast paths reports the cycles. *)
Lemma nested_facts :
  canRecursiveUserset nested_selection "doc" "member" "user" && canRecursiveTTU nested_selection "doc" "viewer" "user" "parent" "viewer" = true ∧
  match validate nested_model with
  | Ret t =>
      forallb (λ rel, forallb named_ref (rel_DirectlyRelatedUserTypes rel)) (all_relations t)
      && forallb (λ rel, negb (has_difference (rel_Rewrite rel))) (all_relations t)
      && forallb (λ u, @selection_b demo_Graph t u nested_selection) ["user:x"; "user:y"]
      && forallb (@fast_setting_b demo_Graph demo_Cel t ∅ nested_stored None) ["user:x"; "user:y"] = true ∧
      (λ p : string * string, all_check t nested_tuples nested_graph (NewTupleKey "doc:1" p.1 p.2)) <$>
        [("member", "user:x"); ("viewer", "user:x"); ("member", "user:y"); ("viewer", "user:y")] =
        (λ b, Ret (mkResolveCheckResponse b false)) <$> [true; true; false; false] ∧
      slow_check t nested_tuples [] (NewTupleKey "doc:1" "viewer" "user:y") = Ret (mkResolveCheckResponse false true)
  | _ => False
  end.
Proof. vm_compute. by repeat split. Qed.

Lemma nested_tuples_complete : forallb complete_b nested_tuples = true.
Proof. reflexivity. Qed.

Lemma nested_contextual_ok :
  contextual_ok (demo_combined []) (AsTuple <$> store_tuples (backend_with nested_tuples) "store") ∧
  NoDup (contextualTuplesOrderedByObjectID (demo_combined [])).
Proof. apply contextual_decide. vm_compute. reflexivity. Qed.

Definition nested_ReaderSpec : @RelationshipTupleReaderSpec (demo_Reader nested_tuples []) "store" :=
  @combined_ReaderSpec (memory_Reader (backend_with nested_tuples)) "store"
    (memory_ReaderSpec _ (backend_with_inv _ nested_tuples_complete) "store") _ (proj1 nested_contextual_ok).

Definition nested_SortedSpec : @SortedReaderSpec (demo_Starting nested_tuples []) "store" nested_stored :=
  @sorted_SortedReaderSpec (memory_Reader (backend_with nested_tuples)) "store"
    (memory_ReaderSpec _ (backend_with_inv _ nested_tuples_complete) "store") _ _
    (@memory_sorted_reads stable_SortSlice _ (backend_with_inv _ nested_tuples_complete) "store")
    (proj1 nested_contextual_ok) (proj2 nested_contextual_ok) (demo_sorted []).

(** A request about doc:1. *)
Definition doc_request (r user : string) : ResolveCheckRequest := initial_request "store" (NewTupleKey "doc:1" r user) None.

Lemma doc_request_ok r user : request_ok "store" None user (doc_request r user).
Proof. split; [done|]. split; [done|]. split; [done|]. split; [|done]. by exists "doc", "1". Qed.

Lemma doc_request_depth r user : depth_ok 25 (doc_request r user).
Proof. unfold depth_ok; simpl. lia. Qed.

Lemma ResolveCheck_all_fast_exact_witness :
  match validate nested_model with
  | Ret t =>
      (∃ n, @granted demo_Graph demo_Cel t ∅ nested_stored None "user:x" n "doc:1" "member") ∧
      (∃ n, @granted demo_Graph demo_Cel t ∅ nested_stored None "user:x" n "doc:1" "viewer") ∧
      (¬ ∃ n, @granted demo_Graph demo_Cel t ∅ nested_stored None "user:y" n "doc:1" "member") ∧
      ¬ ∃ n, @granted demo_Graph demo_Cel t ∅ nested_stored None "user:y" n "doc:1" "viewer"
  | _ => False
  end.
Proof.
  pose proof nested_facts as [_ Hf]. destruct (validate nested_model) as [t| |] eqn:E; [|done..].
  destruct Hf as (Hb&Hres&_). rewrite !andb_true_iff in Hb. destruct Hb as [[[Hrefs Hpos] Hsel] Hset].
  cbn [fmap list_fmap fst snd] in Hres. injection Hres as Hxm Hxv Hym Hyv.
  assert (∀ r user, user ∈ ["user:x"; "user:y"] → GetType user ≠ "" →
    match all_check t nested_tuples nested_graph (NewTupleKey "doc:1" r user) with
    | Ret resp => Allowed resp = true ↔ ∃ n, @granted demo_Graph demo_Cel t ∅ nested_stored None user n "doc:1" r
    | Throw e => fuel_free e
    | Panic _ => False
    end) as Hex.
  { intros r user Hu Hty.
    pose proof (@fast_setting_decide demo_Graph demo_Cel map_to_list_MapRange demo_Compiler _ _ _ _ _ _ E (forallb_elem _ _ user Hset Hu)) as Hfs.
    refine (@ResolveCheck_all_fast_exact demo_Graph demo_Cel map_to_list_MapRange demo_Compiler rev_Scheduler demo_GraphLaws
      nested_model t ∅ (demo_Reader nested_tuples []) "store" nested_ReaderSpec
      (demo_Starting nested_tuples []) nested_SortedSpec (left_first_Scheduler _) user_first_Scheduler None user nested_selection 25 _ (doc_request r user)
      E (refs_named_decide _ Hrefs) _ (fs_users _ _ _ _ _ _ Hfs) (fs_user _ _ _ _ _ _ Hfs) Hty _ (positive_decide _ Hpos) (doc_request_ok r user) eq_refl (doc_request_depth r user) (le_n _)).
    - intros name e He. by rewrite lookup_empty in He.
    - split; [intros ty r' rel Hr; by apply (fs_names _ _ _ _ _ _ Hfs ty r' rel)|]. intros _. right. split; [exact Hfs|].
      apply selection_decide. exact (forallb_elem _ _ user Hsel Hu). }
  clear E Hsel Hset.
  pose proof (Hex "member" "user:x" (list_elem_of_here _ _) ltac:(vm_compute; discriminate)) as Hx1.
  pose proof (Hex "viewer" "user:x" (list_elem_of_here _ _) ltac:(vm_compute; discriminate)) as Hx2.
  pose proof (Hex "member" "user:y" (list_elem_of_further _ _ _ (list_elem_of_here _ _)) ltac:(vm_compute; discriminate)) as Hy1.
  pose proof (Hex "viewer" "user:y" (list_elem_of_further _ _ _ (list_elem_of_here _ _)) ltac:(vm_compute; discriminate)) as Hy2.
  rewrite Hxm in Hx1. rewrite Hxv in Hx2. rewrite Hym in Hy1. rewrite Hyv in Hy2.
  split_and!; [by apply Hx1|by apply Hx2| |]; intros Hg; [by apply Hy1 in Hg|by apply Hy2 in Hg].
Defined.
