(* ===== verification/ListUsers.v ===== *)
(** * ListUsers: [pkg/server/commands/listusers/list_users_rpc.go], [list_users.go]

    [ListUsers] finds the users that have a relation with an object: it expands the rewrite
    of the relation over the stored tuples, sends every user it meets through channels,
    combines the users of the operands of a rewrite, and collects what arrives.

    Concurrency.  A call of [expand] is a [Run]: the users it sends on its channel, in the
    order in which they arrive, and how it ends.  Everything the scheduler decides is an
    oracle, the class [ListUsersSchedule], asked at the position of the call in the tree of
    calls: the order in which the messages of concurrent senders arrive, which of the failing
    tasks of a pool is first, which others its cancellation reaches, and, in a cancelled
    context, which reads and sends still succeed.  Throttling, tracing and metrics are left
    out, and the counters of users, of 32 bits in the code, are unbounded. *)

From S2P Require Import Prelude GoStd Tuple Iterators Model Memory Typesystem Condition Validation.
From S2P Require Import Check RelationshipGraph.

Local Open Scope Z_scope.
Local Open Scope go_scope.

(** ** Requests and messages *)

Record UserTypeFilter := mkUserTypeFilter { uf_Type : string; uf_Relation : string }.

(** The fields of [ListUsersRequest] that the query reads; the object is its type and id. *)
Record ListUsersRequest := mkListUsersRequest {
  lu_StoreId : string;
  lu_Object : string * string;
  lu_Relation : string;
  lu_UserFilters : list UserTypeFilter;
  lu_ContextualTuples : list TupleKey;
  lu_Context : option Struct;
}.

Record internalListUsersRequest := mkInternalRequest {
  lu_request : ListUsersRequest;
  visitedUsersetsMap : gset string;
  lu_depth : Z;
}.

Definition fromListUsersRequest (o : ListUsersRequest) : internalListUsersRequest := mkInternalRequest o ∅ 0.

Definition ObjectKey (o : string * string) : string := BuildObject o.1 o.2.

Definition with_object_relation (r : ListUsersRequest) (object : string * string) (relation : string) : ListUsersRequest :=
  mkListUsersRequest (lu_StoreId r) object relation (lu_UserFilters r) (lu_ContextualTuples r) (lu_Context r).

(** [clone] and the assignments that follow it: a request for another object and relation,
    with a copy of the visited usersets and the same depth. *)
Definition rewritten (req : internalListUsersRequest) (object : string * string) (relation : string) : internalListUsersRequest :=
  mkInternalRequest (with_object_relation (lu_request req) object relation) (visitedUsersetsMap req) (lu_depth req).

Inductive userRelationshipStatus := HasRelationship | NoRelationship.

Record foundUser := mkFoundUser {
  fu_user : UserProto;
  excludedUsers : list UserProto;
  relationshipStatus : userRelationshipStatus;
}.

Definition found (u : UserProto) : foundUser := mkFoundUser u [] HasRelationship.

(** [tuple.UserProtoToString] of the user of a message, which is never unset: it comes from
    [StringToUserProto] or is a userset. *)
Definition user_key (u : UserProto) : string := match UserProtoToString u with Ret s => s | _ => "" end.
Definition fu_key (fu : foundUser) : string := user_key (fu_user fu).

(** ** Errors and contexts *)

Inductive CtxErr := ContextCanceled | ContextDeadlineExceeded.

Inductive LuErr :=
| LuResolutionDepthExceeded
| LuCondition (e : CondErr)
| LuDatastore (e : StorageErr)
| LuIterator (e : IterErr)
| LuTypesystem (e : TsErr)
| LuContext (e : CtxErr)
| LuPanic.

(** A Go error is the list of the errors that [errors.Join] joined; nil is the empty list. *)
Abbreviation LuError := (list LuErr).

(** [errors.Is(err, context.DeadlineExceeded)]. *)
Definition is_deadline (err : LuError) : bool :=
  existsb (λ e, match e with LuContext ContextDeadlineExceeded => true | _ => false end) err.

(** The context of a call: live to its end, or done at some moment of it. *)
Inductive CtxState := CtxLive | CtxDone (e : CtxErr).

(** A context derived by a pool that was cancelled. *)
Definition cancelled (c : CtxState) : CtxState := match c with CtxLive => CtxDone ContextCanceled | _ => c end.

Record expandResponse := mkExpandResponse { resp_hasCycle : bool; resp_err : LuError }.

(** How a call ends; a panic in a goroutine that nobody recovers ends the process. *)
Inductive Ending := Returned (resp : expandResponse) | Panicked (why : string) | Crashed (why : string).

Record Run := mkRun { sent : list foundUser; ending : Ending }.

(** ** The scheduler *)

Abbreviation position := (list nat).

Class ListUsersSchedule := {
  (** the arrival of the messages of concurrent senders on one channel *)
  interleave : position → list (list foundUser) → list foundUser;
  interleave_perm p l : interleave p l ≡ₚ concat l;
  (** which of the failing tasks of a pool returns first, and whether the cancellation
      that follows reaches task [i] before it ends *)
  first_failure : position → nat;
  reached : position → nat → bool;
  (** sends in a context that is done: either case of the select can be taken *)
  survive : position → list foundUser → list foundUser;
  survive_sub p l : survive p l ⊆ l;
  (** reads in a context that is done: the tuples still yielded, and the errors if any *)
  cut_short : position → CtxErr → list TupleKey → list TupleKey * LuError;
  cut_short_sub p e l : (cut_short p e l).1 ⊆ l;
  cut_short_deadline p e l : is_deadline (cut_short p e l).2 = true → e = ContextDeadlineExceeded;
}.

Section list_users.
Context `{!ModelGraph, !Cel, !MapRange, !ListUsersSchedule, !RelationshipTupleReader}.
Context (typesys : TypeSystem) (conds : gmap string EvaluableCondition) (resolveNodeLimit : Z).

(** [concurrency.TrySendThroughChannel], for a sequence of messages. *)
Definition TrySendThroughChannel (p : position) (c : CtxState) (msgs : list foundUser) : list foundUser :=
  match c with CtxLive => msgs | CtxDone _ => survive p msgs end.

(** ** Pools *)

Definition failed (r : Run) : bool :=
  match ending r with
  | Returned resp => match resp_err resp with [] => false | _ => true end
  | _ => true
  end.

Fixpoint failures (i : nat) (runs : list Run) : list nat :=
  match runs with
  | [] => []
  | r :: rest => if failed r then i :: failures (S i) rest else failures (S i) rest
  end.

(** The tasks of a [concurrency.NewPool]: as long as none fails each runs in the context of
    the pool; after the first failure the others can see a cancelled one. *)
Definition pool_runs (p : position) (c : CtxState) (tasks : list (CtxState → Run)) : list Run * option nat :=
  let runs := (λ task : CtxState → Run, task c) <$> tasks in
  match failures 0 runs with
  | [] => (runs, None)
  | failing =>
      let first := default O (failing !! (first_failure p mod length failing)%nat) in
      (imap (λ i (task : CtxState → Run), task (if (i =? first)%nat || negb (reached p i) then c else cancelled c)) tasks, Some first)
  end.

Inductive WaitResult := WaitErr (err : LuError) | WaitPanic (why : string) | WaitCrash (why : string).

Definition first_crash (runs : list Run) : option string :=
  head (omap (λ r, match ending r with Crashed w => Some w | _ => None end) runs).

Definition first_panic (runs : list Run) : option string :=
  head (omap (λ r, match ending r with Panicked w => Some w | _ => None end) runs).

Definition run_err (r : Run) : LuError := match ending r with Returned resp => resp_err resp | _ => [] end.

Definition run_hasCycle (r : Run) : bool := match ending r with Returned resp => resp_hasCycle resp | _ => false end.

(** [pool.Wait()]: it panics again with the panic of a task, else the first error. *)
Definition pool_Wait (r : list Run * option nat) : WaitResult :=
  match first_crash r.1, first_panic r.1 with
  | Some w, _ => WaitCrash w
  | None, Some w => WaitPanic w
  | None, None => WaitErr (match r.2 with Some i => default [] (run_err <$> r.1 !! i) | None => [] end)
  end.

(** ** Reading tuples *)

Definition tupleConditionMet (reqCtx : option Struct) (t : TupleKey) : outcome CondErr bool :=
  let! condEvalResult := (EvaluateTupleCondition t conds reqCtx).1 in
  if bool_decide (MissingParameters condEvalResult = ∅) then Ret (ConditionMet condEvalResult)
  else Throw (MissingParametersError (GetName (Condition t)) (MissingParameters condEvalResult)).

(** [errors.Is(err, condition.ErrEvaluationFailed)]. *)
Definition cond_evaluation_failed (e : CondErr) : bool :=
  match e with EvaluationError _ | MissingParametersError _ _ => true | _ => false end.

(** What the filtered iterator yields and how it ends. *)
Definition read_valid (iter : reader_iter) : list TupleKey * option IterErr :=
  drain (S (remaining iter))
    (NewFilteredTupleKeyIterator (NewTupleKeyIteratorFromTupleIterator iter) (FilterInvalidTuples typesys)).

(** The loop on the iterator, up to the use of a tuple: the tuples whose condition is met,
    and the errors; a failed evaluation skips its tuple, another error ends the loop. *)
Fixpoint condition_loop (reqCtx : option Struct) (keys : list TupleKey) (final : LuError)
  : outcome Empty_set (list TupleKey * LuError) :=
  match keys with
  | [] => Ret ([], final)
  | tk :: rest =>
      match tupleConditionMet reqCtx tk with
      | Panic w => Panic w
      | Throw e =>
          if cond_evaluation_failed e then
            let! r := condition_loop reqCtx rest final in Ret (r.1, LuCondition e :: r.2)
          else Ret ([], [LuCondition e])
      | Ret condMet =>
          let! r := condition_loop reqCtx rest final in
          Ret (if condMet then tk :: r.1 else r.1, r.2)
      end
  end.

(** [l.datastore.Read] and the loop over its filtered iterator. *)
Definition read_tuples (p : position) (c : CtxState) (req : internalListUsersRequest) (relation : string)
  : outcome LuError (list TupleKey * LuError) :=
  match rd_Read (lu_StoreId (lu_request req)) (NewTupleKey (ObjectKey (lu_Object (lu_request req))) relation "") with
  | Throw e => Throw [LuDatastore e]
  | Panic w => Panic w
  | Ret iter =>
      match read_valid iter with
      | (_, None) => Panic "iterator"
      | (keys, Some e) =>
          let final := match e with ErrIteratorDone => [] | _ => [LuIterator e] end in
          let '(keys, final) := match c with
                                | CtxLive => (keys, final)
                                | CtxDone e => let '(keys, err) := cut_short p e keys in (keys, err ++ final)
                                end in
          match condition_loop (lu_Context (lu_request req)) keys final with
          | Ret r => Ret r
          | Throw e => match e with end
          | Panic w => Panic w
          end
      end
  end.

(** ** The operands of rewrites *)

Definition is_has (fu : foundUser) : bool :=
  match relationshipStatus fu with HasRelationship => true | NoRelationship => false end.

(** The keys of [foundUsersMap] of an operand; its counts are not read. *)
Definition has_keys (msgs : list foundUser) : list string := remove_dups (fu_key <$> List.filter is_has msgs).

(** The keys of the excluded users of messages. *)
Definition excluded_keys (msgs : list foundUser) : list string := user_key <$> concat (excludedUsers <$> msgs).

(** [foundUsersCountMap]: the users of an operand that has no wildcard count once. *)
Definition count_operand (wildcardKey : string) (counts : gmap string Z) (keys : list string) : gmap string Z :=
  foldl (λ m userKey, <[userKey := default 0 (m !! userKey) + 1 - (if bool_decide (wildcardKey ∈ keys) then 1 else 0)]> m) counts keys.

Definition wildcard_key (req : internalListUsersRequest) : string :=
  TypedPublicWildcard (match lu_UserFilters (lu_request req) with f :: _ => uf_Type f | [] => "" end).

(** What [expandIntersection] sends, from what its operands sent. *)
Definition intersection_users (req : internalListUsersRequest) (operands : list (list foundUser)) : list foundUser :=
  let wildcardKey := wildcard_key req in
  let keys := has_keys <$> operands in
  let wildcardCount := Z.of_nat (length (List.filter (λ l, bool_decide (wildcardKey ∈ l)) keys)) in
  let foundUsersCountMap := foldl (count_operand wildcardKey) ∅ keys in
  let excludedUsersMap : gmap string unit := list_to_map ((λ k, (k, tt)) <$> concat (excluded_keys <$> operands)) in
  let excluded := (λ e : string * unit, StringToUserProto e.1) <$> range_map excludedUsersMap in
  concat ((λ e : string * Z,
    if e.2 + wildcardCount =? Z.of_nat (length operands)
    then [mkFoundUser (StringToUserProto e.1) excluded HasRelationship] else []) <$> range_map foundUsersCountMap).

(** What [expandUnion] sends: every user of an operand. *)
Definition union_users (operands : list (list foundUser)) : list foundUser :=
  let foundUsersMap : gmap string unit := list_to_map ((λ k, (k, tt)) <$> concat (has_keys <$> operands)) in
  let excludedUsersCountMap : gmap string Z :=
    foldl (λ m key, <[key := default 0 (m !! key) + 1]> m) ∅ (concat (excluded_keys <$> operands)) in
  let excluded := concat ((λ e : string * Z,
    if e.2 =? Z.of_nat (length operands) then [StringToUserProto e.1] else []) <$> range_map excludedUsersCountMap) in
  (λ e : string * unit, mkFoundUser (StringToUserProto e.1) excluded HasRelationship) <$> range_map foundUsersMap.

(** The users of an operand by key, the last message of a user winning. *)
Definition last_messages (msgs : list foundUser) : gmap string foundUser :=
  foldl (λ m fu, <[fu_key fu := fu]> m) ∅ msgs.

(** The messages for the subtracted users when the base holds a wildcard. *)
Definition subtracted_messages (userKey : string) (userIsSubtracted : bool) (e : string * foundUser) : list foundUser :=
  let '(subtractedUserKey, subtractedFu) := e in
  if IsTypedWildcard subtractedUserKey then
    if negb userIsSubtracted then [mkFoundUser (StringToUserProto userKey) [] NoRelationship] else []
  else
    match relationshipStatus subtractedFu with
    | NoRelationship => [mkFoundUser (StringToUserProto subtractedUserKey) [] HasRelationship]
    | HasRelationship =>
        [mkFoundUser (StringToUserProto subtractedUserKey) [StringToUserProto subtractedUserKey] NoRelationship]
    end.

(** What [expandExclusion] sends. *)
Definition exclusion_users (req : internalListUsersRequest) (base subtract : list foundUser) : list foundUser :=
  let wildcardKey := wildcard_key req in
  let baseFoundUsersMap := last_messages base in
  let subtractFoundUsersMap := last_messages subtract in
  let baseWildcardExists := bool_decide (is_Some (baseFoundUsersMap !! wildcardKey)) in
  let wildcardSubtracted := bool_decide (is_Some (subtractFoundUsersMap !! wildcardKey)) in
  concat ((λ e : string * foundUser,
    let '(userKey, fu) := e in
    let subtractedUser := subtractFoundUsersMap !! userKey in
    let userIsSubtracted := bool_decide (is_Some subtractedUser) in
    if baseWildcardExists then
      (if negb userIsSubtracted && negb wildcardSubtracted then [found (StringToUserProto userKey)] else [])
      ++ concat (subtracted_messages userKey userIsSubtracted <$> range_map subtractFoundUsersMap)
    else if wildcardSubtracted || userIsSubtracted then
      match from_option relationshipStatus HasRelationship subtractedUser with
      | HasRelationship => [mkFoundUser (StringToUserProto userKey) [] NoRelationship]
      | NoRelationship => [mkFoundUser (StringToUserProto userKey) [] HasRelationship]
      end
    else [mkFoundUser (StringToUserProto userKey) [] (relationshipStatus fu)]) <$> range_map baseFoundUsersMap).

(** ** The expansion *)

Definition no_error : Ending := Returned (mkExpandResponse false []).

Definition enteredCycle (req : internalListUsersRequest) : bool * internalListUsersRequest :=
  let key := ToObjectRelationString (ObjectKey (lu_Object (lu_request req))) (lu_Relation (lu_request req)) in
  if bool_decide (key ∈ visitedUsersetsMap req) then (true, req)
  else (false, mkInternalRequest (lu_request req) ({[key]} ∪ visitedUsersetsMap req) (lu_depth req)).

Section rewrites.
(** [l.dispatch], which calls [l.expand]. *)
Context (dispatch : position → CtxState → internalListUsersRequest → Run).

(** The message for a tuple's user that is not a userset. *)
Definition direct_messages (req : internalListUsersRequest) (tk : TupleKey) : list foundUser :=
  let '(userObject, userRelation) := SplitObjectRelation (User tk) in
  let '(userObjectType, userObjectID) := SplitObject userObject in
  if userRelation =s "" then
    concat ((λ f, if uf_Type f =s userObjectType
                  then [found (StringToUserProto (BuildObject userObjectType userObjectID))] else []) <$> lu_UserFilters (lu_request req))
  else [].

(** The request for a tuple's userset. *)
Definition userset_request (req : internalListUsersRequest) (tk : TupleKey) : option internalListUsersRequest :=
  let '(userObject, userRelation) := SplitObjectRelation (User tk) in
  if userRelation =s "" then None else Some (rewritten req (SplitObject userObject) userRelation).

(** [panics.Try] around [expandDirectDispatch]. *)
Definition recovered_run (r : Run) : Run :=
  match ending r with
  | Panicked _ => mkRun (sent r) (Returned (mkExpandResponse false [LuPanic]))
  | _ => r
  end.

Definition dispatches (p : position) (reqs : list internalListUsersRequest) : list (CtxState → Run) :=
  imap (λ i req c, dispatch (i :: p) c req) reqs.

Definition expandDirect (p : position) (c : CtxState) (req : internalListUsersRequest) : Run :=
  match read_tuples p c req (lu_Relation (lu_request req)) with
  | Throw err => mkRun [] (Returned (mkExpandResponse false err))
  | Panic w => mkRun [] (Panicked w)
  | Ret (met, errs) =>
      let tasks := (λ (task : CtxState → Run) c, recovered_run (task c)) <$> dispatches p (omap (userset_request req) met) in
      let pool := pool_runs p c tasks in
      let direct := TrySendThroughChannel p c (concat (direct_messages req <$> met)) in
      mkRun (interleave p (direct :: (sent <$> pool.1)))
        match pool_Wait pool with
        | WaitErr err => Returned (mkExpandResponse (existsb run_hasCycle pool.1) (errs ++ err))
        | WaitPanic w => Panicked w
        | WaitCrash w => Crashed w
        end
  end.

Definition expandTTU (p : position) (c : CtxState) (req : internalListUsersRequest) (tuplesetRelation computedRelation : string) : Run :=
  match read_tuples p c req tuplesetRelation with
  | Throw err => mkRun [] (Returned (mkExpandResponse false err))
  | Panic w => mkRun [] (Panicked w)
  | Ret (met, errs) =>
      let pool := pool_runs p c (dispatches p ((λ tk, rewritten req (SplitObject (User tk)) computedRelation) <$> met)) in
      mkRun (interleave p (sent <$> pool.1))
        match pool_Wait pool with
        | WaitErr err => Returned (mkExpandResponse false (err ++ errs))
        | WaitPanic w => Panicked w
        | WaitCrash w => Crashed w
        end
  end.

(** [expandUnion] and [expandIntersection] wait for their pool in a goroutine of their own. *)
Definition expandOperands (p : position) (c : CtxState) (combine : list (list foundUser) → list foundUser)
    (operands : list (CtxState → Run)) : Run :=
  let pool := pool_runs p c operands in
  mkRun (TrySendThroughChannel p c (combine (sent <$> pool.1)))
    match pool_Wait pool with
    | WaitErr err => Returned (mkExpandResponse false err)
    | WaitPanic w => Crashed w
    | WaitCrash w => Crashed w
    end.

Definition expandExclusion (p : position) (c : CtxState) (req : internalListUsersRequest) (base subtract : Run) : Run :=
  match ending base, ending subtract with
  | Returned baseResp, Returned subtractResp =>
      if resp_hasCycle subtractResp then mkRun [] no_error
      else mkRun (TrySendThroughChannel p c (exclusion_users req (sent base) (sent subtract)))
             (Returned (mkExpandResponse false (resp_err baseResp ++ resp_err subtractResp)))
  | Returned _, (Panicked w | Crashed w) | (Panicked w | Crashed w), _ => mkRun [] (Crashed w)
  end.

Fixpoint expandRewrite (rewrite : Userset) (p : position) (c : CtxState) (req : internalListUsersRequest) : Run :=
  match rewrite with
  | Userset_This => expandDirect p c req
  | Userset_ComputedUserset _ relation => dispatch (O :: p) c (rewritten req (lu_Object (lu_request req)) relation)
  | Userset_TupleToUserset tupleset computed => expandTTU p c req tupleset computed
  | Userset_Intersection children =>
      expandOperands p c (intersection_users req)
        (imap (λ i child c, child (i :: p) c req) (expandRewrite <$> children))
  | Userset_Union children =>
      expandOperands p c union_users (imap (λ i child c, child (i :: p) c req) (expandRewrite <$> children))
  | Userset_Difference base subtract =>
      expandExclusion p c req (expandRewrite base (O :: p) c req) (expandRewrite subtract (S O :: p) c req)
  | Userset_nil => mkRun [] (Panicked "unexpected userset rewrite encountered")
  end.
End rewrites.

(** The request itself, when a filter asks for its userset. *)
Definition self_messages (req : internalListUsersRequest) : list foundUser :=
  let '(reqObjectType, reqObjectID) := lu_Object (lu_request req) in
  let reqRelation := lu_Relation (lu_request req) in
  concat ((λ f, if (reqObjectType =s uf_Type f) && (reqRelation =s uf_Relation f)
                then [found (User_Userset reqObjectType reqObjectID reqRelation)] else []) <$> lu_UserFilters (lu_request req)).

(** [expand]; the depth is a uint32. *)
Fixpoint expand (fuel : nat) (p : position) (c : CtxState) (req : internalListUsersRequest) : Run :=
  match fuel with
  | O => mkRun [] (Crashed "out of fuel")
  | S fuel =>
      if resolveNodeLimit <=? lu_depth req then mkRun [] (Returned (mkExpandResponse false [LuResolutionDepthExceeded]))
      else
        let req := mkInternalRequest (lu_request req) (visitedUsersetsMap req) ((lu_depth req + 1) mod 2^32) in
        let '(cycle, req) := enteredCycle req in
        if cycle then mkRun [] (Returned (mkExpandResponse true []))
        else
          let self := TrySendThroughChannel p c (self_messages req) in
          match Typesystem.GetRelation typesys (lu_Object (lu_request req)).1 (lu_Relation (lu_request req)) with
          | Throw (RelationUndefinedError _ _) => mkRun self no_error
          | Throw e => mkRun self (Returned (mkExpandResponse false [LuTypesystem e]))
          | Panic w => mkRun self (Panicked w)
          | Ret relation =>
              let r := expandRewrite (expand fuel) (rel_Rewrite relation) (O :: p) c req in
              mkRun (self ++ sent r) (ending r)
          end
  end.

Definition expand_fuel : nat := S (Z.to_nat resolveNodeLimit).

(** ** The query *)

Definition doesHavePossibleEdges (req : ListUsersRequest) (userFilter : UserTypeFilter) : outcome TsErr bool :=
  let source := DirectRelationReference (uf_Type userFilter) (uf_Relation userFilter) in
  let target := DirectRelationReference (lu_Object req).1 (lu_Relation req) in
  let! edges := GetPrunedRelationshipEdges typesys target source in
  Ret (match edges with [] => false | _ => true end).

(** The consumer of the users found: [foundUsersUnique], and whether it stopped early. *)
Fixpoint collect_users (maxResults : Z) (foundUsersUnique : gmap string foundUser) (msgs : list foundUser)
  : gmap string foundUser * bool :=
  match msgs with
  | [] => (foundUsersUnique, false)
  | fu :: rest =>
      let foundUsersUnique := <[fu_key fu := fu]> foundUsersUnique in
      if (0 <? maxResults) && (maxResults <=? Z.of_nat (size foundUsersUnique)) then (foundUsersUnique, true)
      else collect_users maxResults foundUsersUnique rest
  end.

(** What the clock and the race with the expansion decide: whether the deadline passes
    while the query runs, whether the query notices it before the users are collected, and
    whether an error of the expansion has arrived when the maximum is reached. *)
Record QueryRace := mkQueryRace { deadline_passes : bool; deadlineExceeded : bool; error_arrived : bool }.

Definition result_users (foundUsersUnique : gmap string foundUser) : list UserProto :=
  concat ((λ e : string * foundUser,
    match relationshipStatus e.2 with NoRelationship => [] | HasRelationship => [StringToUserProto e.1] end)
      <$> range_map foundUsersUnique).

Definition ListUsers (maxResults : Z) (race : QueryRace) (req : ListUsersRequest) : outcome LuError (list UserProto) :=
  match lu_UserFilters req with
  | [] => Panic "index out of range"
  | userFilter :: _ =>
      let userset := ToObjectRelationString (ObjectKey (lu_Object req)) (lu_Relation req) in
      let! possible :=
        if negb (UsersetMatchTypeAndRelation userset (uf_Relation userFilter) (uf_Type userFilter))
        then match doesHavePossibleEdges req userFilter with
             | Ret b => Ret b
             | Throw e => Throw [LuTypesystem e]
             | Panic w => Panic w
             end
        else Ret true in
      if negb possible then Ret []
      else
        let r := expand expand_fuel [] (if deadline_passes race then CtxDone ContextDeadlineExceeded else CtxLive)
                   (fromListUsersRequest req) in
        match ending r with
        | Panicked w | Crashed w => Panic w
        | Returned resp =>
            let '(foundUsersUnique, stopped) := collect_users maxResults ∅ (sent r) in
            let received := if stopped && negb (error_arrived race) then [] else resp_err resp in
            match received with
            | [] => Ret (result_users foundUsersUnique)
            | err =>
                if (deadline_passes race && deadlineExceeded race) || is_deadline err
                then Ret (result_users foundUsersUnique) else Throw err
            end
        end
  end.
End list_users.
