(* ===== verification/ListUsersSpec.v ===== *)
(** * ListUsers against the semantics of checks

    On models without exclusion the users that [ListUsers] returns are those that have the
    relation in the sense of [CheckSemantics.v]: every user returned has it, whatever the
    scheduler, the deadline and the errors do; and when the query runs to its end below the
    maximum, every user of the type that has it is returned, or the wildcard is. *)

From S2P Require Import Prelude GoStd Tuple Iterators Model Memory Typesystem Entrypoints TypesystemSpec.
From S2P Require Import Condition Validation ValidationSpec Check CheckSpec CheckSemantics CheckExact RelationshipGraph.
From S2P Require Import ReverseExpand ReverseExpandSpec ListUsers.

Local Open Scope Z_scope.
Local Open Scope go_scope.

(** ** The messages of operands *)

Lemma elem_of_has_keys k msgs : k ∈ has_keys msgs ↔ ∃ fu, fu ∈ msgs ∧ is_has fu = true ∧ fu_key fu = k.
Proof.
  unfold has_keys. rewrite elem_of_remove_dups, list_elem_of_fmap. setoid_rewrite list_elem_of_In at 1.
  setoid_rewrite List.filter_In. setoid_rewrite <-list_elem_of_In. naive_solver.
Qed.

Lemma lookup_fold_insert {V} (f : option V → V) (keys : list string) (m : gmap string V) k :
  NoDup keys →
  foldl (λ m key, <[key := f (m !! key)]> m) m keys !! k = if decide (k ∈ keys) then Some (f (m !! k)) else m !! k.
Proof.
  intros Hnd. revert m. induction Hnd as [|key keys Hk Hnd IH]; intros m; cbn [foldl]; [done|]. rewrite IH.
  destruct (decide (k = key)) as [->|Hne].
  - rewrite decide_False, decide_True by (done || apply list_elem_of_here). by rewrite lookup_insert_eq.
  - rewrite lookup_insert_ne by done. apply decide_ext. rewrite elem_of_cons. naive_solver.
Qed.

Section messages.
Context `{!MapRange}.

(** A key that the conversions between strings and users keep. *)
Definition printable (k : string) : Prop := user_key (StringToUserProto k) = k.

Lemma lookup_set_map (l : list string) k :
  (list_to_map ((λ k, (k, tt)) <$> l) : gmap string unit) !! k = Some tt ↔ k ∈ l.
Proof.
  induction l as [|x l IH]; simpl; [by rewrite lookup_empty, elem_of_nil|].
  rewrite elem_of_cons. destruct (decide (k = x)) as [->|Hne]; [rewrite lookup_insert_eq; tauto|].
  rewrite lookup_insert_ne by done. rewrite IH. naive_solver.
Qed.

Lemma elem_of_union_users fu operands :
  fu ∈ union_users operands → is_has fu = true ∧ ∃ msgs k, msgs ∈ operands ∧ k ∈ has_keys msgs ∧ fu_user fu = StringToUserProto k.
Proof.
  unfold union_users. intros ([k []]&->&Hk%elem_of_range_map)%list_elem_of_fmap. split; [done|].
  apply lookup_set_map in Hk. apply list_elem_of_In, in_concat in Hk as (l&Hl%list_elem_of_In&Hk%list_elem_of_In).
  apply list_elem_of_fmap in Hl as (msgs&->&Hm). by exists msgs, k.
Qed.

Lemma union_users_complete operands msgs k :
  msgs ∈ operands → k ∈ has_keys msgs → ∃ fu, fu ∈ union_users operands ∧ is_has fu = true ∧ fu_user fu = StringToUserProto k.
Proof.
  intros Hm Hk. unfold union_users. eexists. split; [apply list_elem_of_fmap; exists (k, tt); split; [reflexivity|]|done].
  apply elem_of_range_map, lookup_set_map. by eapply elem_of_concat_fmap.
Qed.

(** The count of a user: the operands without wildcard that have it. *)
Definition has_key (W k : string) (keys : list string) : bool := bool_decide (k ∈ keys) && negb (bool_decide (W ∈ keys)).

Lemma count_operand_lookup W counts keys k :
  NoDup keys →
  count_operand W counts keys !! k =
    if decide (k ∈ keys) then Some (default 0 (counts !! k) + (if has_key W k keys then 1 else 0)) else counts !! k.
Proof.
  intros Hnd. unfold count_operand, has_key.
  rewrite (lookup_fold_insert (λ o : option Z, default 0 o + 1 - (if bool_decide (W ∈ keys) then 1 else 0))) by done.
  destruct (decide (k ∈ keys)); [|done]. rewrite (bool_decide_true (k ∈ keys)) by done. simpl. f_equal.
  case_bool_decide; simpl; lia.
Qed.

Lemma no_key_counts W k l : existsb (λ keys, bool_decide (k ∈ keys)) l = false → List.filter (has_key W k) l = [].
Proof.
  induction l as [|keys l IH]; cbn [existsb List.filter]; [done|]. intros [Hk Hl]%orb_false_iff.
  unfold has_key at 1. rewrite Hk. simpl. by apply IH.
Qed.

Lemma count_operands W (l : list (list string)) k : ∀ counts,
  Forall (@NoDup string) l →
  foldl (count_operand W) counts l !! k =
    if existsb (λ keys, bool_decide (k ∈ keys)) l
    then Some (default 0 (counts !! k) + Z.of_nat (length (List.filter (has_key W k) l))) else counts !! k.
Proof.
  induction l as [|keys l IH]; intros counts Hnd; cbn [foldl existsb List.filter]; [done|].
  apply Forall_cons in Hnd as [Hk Hnd]. rewrite IH by done. rewrite (count_operand_lookup W counts keys k Hk).
  destruct (decide (k ∈ keys)) as [Hin|Hin].
  - rewrite (bool_decide_true (k ∈ keys)) by done. cbn [orb].
    destruct (existsb _ l) eqn:Ex; [|rewrite (no_key_counts W k l Ex)]; destruct (has_key W k keys); simpl; f_equal; lia.
  - assert (has_key W k keys = false) as -> by (unfold has_key; by rewrite bool_decide_false).
    by rewrite (bool_decide_false (k ∈ keys)).
Qed.

(** The operands with a wildcard and those with the user and none are all the operands
    exactly when each of them has the user or the wildcard. *)
Lemma count_le W k (l : list (list string)) :
  (length (List.filter (has_key W k) l) + length (List.filter (λ keys, bool_decide (W ∈ keys)) l) ≤ length l)%nat.
Proof. induction l as [|keys l IH]; simpl; [done|]. unfold has_key at 1. repeat case_bool_decide; simpl; lia. Qed.

Lemma count_all W k (l : list (list string)) :
  Z.of_nat (length (List.filter (has_key W k) l)) + Z.of_nat (length (List.filter (λ keys, bool_decide (W ∈ keys)) l))
    = Z.of_nat (length l) ↔ ∀ keys, keys ∈ l → k ∈ keys ∨ W ∈ keys.
Proof.
  induction l as [|keys l IH]; [split; [by intros _ ? ?%not_elem_of_nil|done]|].
  pose proof (count_le W k l) as Hle. simpl. unfold has_key at 1. split.
  - intros Heq keys' Hin. apply elem_of_cons in Hin as [->|Hin].
    + repeat case_bool_decide; simpl in Heq; auto. lia.
    + revert keys' Hin. apply IH. repeat case_bool_decide; simpl in Heq; lia.
  - intros Hall. pose proof (Hall keys (list_elem_of_here _ _)) as Hk.
    assert (∀ keys, keys ∈ l → k ∈ keys ∨ W ∈ keys) as Hl%IH by (intros; apply Hall; by right).
    repeat case_bool_decide; simpl; try lia. naive_solver.
Qed.

(** What an intersection sends: the users that some operand has and that each operand has,
    itself or by its wildcard. *)
Lemma elem_of_intersection_users req fu operands (W := wildcard_key req) :
  fu ∈ intersection_users req operands →
  is_has fu = true ∧ ∃ k, fu_user fu = StringToUserProto k ∧ (∃ msgs, msgs ∈ operands ∧ k ∈ has_keys msgs) ∧
    ∀ msgs, msgs ∈ operands → k ∈ has_keys msgs ∨ W ∈ has_keys msgs.
Proof.
  unfold intersection_users. intros (l&Hl%list_elem_of_In&Hfu%list_elem_of_In)%list_elem_of_In%in_concat.
  apply list_elem_of_fmap in Hl as ([k n]&->&Hk%elem_of_range_map). cbn [fst snd] in Hfu. case_match eqn:Hn; [|by apply not_elem_of_nil in Hfu].
  apply list_elem_of_singleton in Hfu as ->. split; [done|]. exists k. split; [done|].
  rewrite count_operands in Hk by (apply Forall_fmap, Forall_forall; intros; apply NoDup_remove_dups).
  rewrite lookup_empty in Hk. destruct (existsb _ _) eqn:Ex; [|done]. injection Hk as <-. cbn [default snd fst from_option id] in Hn.
  apply Z.eqb_eq in Hn. rewrite <-(length_fmap has_keys operands), Z.add_0_l in Hn. pose proof (proj1 (count_all _ _ _) Hn) as Hall. split.
  - apply existsb_exists in Ex as (keys&Hkeys%list_elem_of_In&Hk%bool_decide_eq_true).
    apply list_elem_of_fmap in Hkeys as (msgs&->&?). by exists msgs.
  - intros msgs Hm. apply Hall, list_elem_of_fmap. by exists msgs.
Qed.

Lemma intersection_users_complete req operands msgs k (W := wildcard_key req) :
  msgs ∈ operands → k ∈ has_keys msgs → (∀ msgs, msgs ∈ operands → k ∈ has_keys msgs ∨ W ∈ has_keys msgs) →
  ∃ fu, fu ∈ intersection_users req operands ∧ is_has fu = true ∧ fu_user fu = StringToUserProto k.
Proof.
  intros Hm Hk Hall. unfold intersection_users.
  set (n := Z.of_nat (length (List.filter (has_key W k) (has_keys <$> operands)))).
  eexists. split; [eapply elem_of_concat_fmap with (c := (k, n)); [apply elem_of_range_map|]|].
  - rewrite count_operands by (apply Forall_fmap, Forall_forall; intros; apply NoDup_remove_dups).
    rewrite (proj2 (existsb_exists _ _)); [by rewrite lookup_empty|]. exists (has_keys msgs). split; [|by apply bool_decide_true].
    apply list_elem_of_In, list_elem_of_fmap. by exists msgs.
  - simpl. rewrite (proj2 (Z.eqb_eq _ _)); [apply list_elem_of_here|].
    rewrite <-(length_fmap has_keys operands). apply count_all. intros keys (msgs'&->&?)%list_elem_of_fmap. by apply Hall.
  - done.
Qed.
End messages.

(** ** Pools *)

Section pools.
Context `{!ListUsersSchedule}.

Lemma failures_spec runs : ∀ i j, j ∈ failures i runs → ∃ k r, j = (i + k)%nat ∧ runs !! k = Some r ∧ failed r = true.
Proof.
  induction runs as [|r runs IH]; intros i j; simpl; [by intros ?%not_elem_of_nil|].
  assert (j ∈ failures (S i) runs → ∃ k r', j = (i + k)%nat ∧ (r :: runs) !! k = Some r' ∧ failed r' = true) as Hrest.
  { intros (k&r'&->&?&?)%IH. exists (S k), r'. split_and!; [lia|done..]. }
  destruct (failed r) eqn:Hr; [|done]. intros [->|?]%elem_of_cons; [|auto]. exists O, r. split_and!; [lia|done..].
Qed.

Lemma failures_none runs i : failures i runs = [] → ∀ r, r ∈ runs → failed r = false.
Proof.
  revert i. induction runs as [|r runs IH]; intros i; simpl; [by intros _ r ?%not_elem_of_nil|].
  destruct (failed r) eqn:Hr; [done|]. intros Hf r' [->|?]%elem_of_cons; [done|]. by eapply IH.
Qed.

(** Every run of a pool is the run of one of its tasks, in some context. *)
Lemma pool_runs_elem p c tasks r : r ∈ (pool_runs p c tasks).1 → ∃ task c', task ∈ tasks ∧ r = task c'.
Proof.
  unfold pool_runs. destruct (failures _ _) eqn:E; simpl.
  - intros (task&->&Ht)%list_elem_of_fmap. by exists task, c.
  - intros (i&task&->&Ht)%elem_of_lookup_imap. eexists task, _. split; [by eapply list_elem_of_lookup_2|done].
Qed.

Lemma elem_of_omap_head {A B} (f : A → option B) (l : list A) x y : x ∈ l → f x = Some y → head (omap f l) ≠ None.
Proof.
  intros Hx Hf Hh. apply head_None in Hh. assert (y ∈ omap f l) as Hy by (apply list_elem_of_omap; by exists x).
  rewrite Hh in Hy. by apply not_elem_of_nil in Hy.
Qed.

Lemma pool_runs_lookup p c tasks i task :
  tasks !! i = Some task → ∃ c', (pool_runs p c tasks).1 !! i = Some (task c').
Proof.
  intros Ht. unfold pool_runs. destruct (failures _ _); simpl.
  - exists c. by rewrite list_lookup_fmap, Ht.
  - eexists. by rewrite list_lookup_imap, Ht.
Qed.

(** A pool without error ran every task in its own context, and none failed. *)
Lemma pool_ok p c tasks :
  pool_Wait (pool_runs p c tasks) = WaitErr [] →
  (pool_runs p c tasks).1 = (λ task : CtxState → Run, task c) <$> tasks ∧ ∀ task, task ∈ tasks → failed (task c) = false.
Proof.
  unfold pool_runs. set (runs := (λ task : CtxState → Run, task c) <$> tasks).
  destruct (failures 0 runs) as [|f fs] eqn:E.
  - intros _. split; [done|]. intros task Ht. eapply failures_none; [exact E|]. apply list_elem_of_fmap. by exists task.
  - set (i := default O ((f :: fs) !! _)). intros Hw. exfalso.
    assert (i ∈ failures 0 runs) as (k&r&Hi&Hr&Hf)%failures_spec.
    { rewrite E. subst i. destruct (lookup_lt_is_Some_2 (f :: fs) (first_failure p mod length (f :: fs))) as [x Hx].
      - apply Nat.mod_upper_bound. done.
      - rewrite Hx. by eapply list_elem_of_lookup_2. }
    simpl in Hi. subst k. unfold runs in Hr. rewrite list_lookup_fmap in Hr. destruct (tasks !! i) as [task|] eqn:Ht; [|done].
    simpl in Hr. injection Hr as <-. unfold pool_Wait in Hw. simpl in Hw.
    set (l := imap _ tasks) in Hw.
    assert (l !! i = Some (task c)) as Hl.
    { subst l. rewrite list_lookup_imap, Ht. simpl. by rewrite Nat.eqb_refl. }
    assert (task c ∈ l) as Hin by by eapply list_elem_of_lookup_2.
    rewrite Hl in Hw. unfold failed in Hf. simpl in Hw. unfold run_err in Hw.
    destruct (ending (task c)) as [resp|w|w] eqn:He.
    + destruct (first_crash l), (first_panic l); try done. by destruct (resp_err resp).
    + destruct (first_crash l); [done|]. destruct (first_panic l) eqn:Hp; [done|].
      eapply elem_of_omap_head in Hp; [done|exact Hin|by rewrite He].
    + destruct (first_crash l) eqn:Hp; [done|]. eapply elem_of_omap_head in Hp; [done|exact Hin|by rewrite He].
Qed.

Lemma elem_of_TrySend p c msgs fu : fu ∈ TrySendThroughChannel p c msgs → fu ∈ msgs.
Proof. destruct c; simpl; [done|]. apply survive_sub. Qed.

Lemma elem_of_interleave p l fu : fu ∈ interleave p l ↔ ∃ msgs, msgs ∈ l ∧ fu ∈ msgs.
Proof. rewrite interleave_perm, list_elem_of_In, in_concat. setoid_rewrite list_elem_of_In. done. Qed.
End pools.

(** ** The users of a filter *)

Section filter_users.
Context (f : UserTypeFilter).
Hypothesis Htype : uf_Type f ≠ "".

(** A user that the filter asks for: an object of its type, or the type's wildcard. *)
Definition filter_user (u : string) : Prop := IsValidUser u = true ∧ Tuple.GetRelation u = "" ∧ GetType u = uf_Type f.

Lemma filter_user_string u :
  filter_user u → SplitObjectRelation u = (u, "") ∧ (∃ id, u = BuildObject (uf_Type f) id ∧ SplitObject u = (uf_Type f, id)) ∧ printable u.
Proof.
  intros (Hv&Hr&Hty). unfold Tuple.GetRelation in Hr.
  destruct (SplitObjectRelation_cases u) as [[Hh Hs]|(o&r&->&Hrh&Hs)].
  - split; [done|]. unfold GetType in Hty.
    destruct (SplitObject_cases u) as [[_ Hso]|(t&id&Hu&Ht&Hso)]; rewrite Hso in Hty; simpl in Hty; [by subst|].
    subst t. split; [by exists id|]. unfold printable, StringToUserProto. rewrite Hs, Hso. simpl.
    case_bool_decide; simpl; [subst id; by rewrite Hu|by rewrite Hu].
  - exfalso. rewrite Hs in Hr. simpl in Hr. subst r. apply IsValidUser_cases in Hv as [(_&Hh&_)|[(t&id&Heq&Ht&Hid)|(t&id&r&Heq&Ht&Hid&Hr)]].
    + unfold ToObjectRelationString in Hh. rewrite has_byte_app in Hh. by rewrite orb_true_r in Hh.
    + assert (has_byte "#" (ToObjectRelationString o "") = false) as Hh.
      { rewrite Heq. apply BuildObject_no_hash; word_byte. }
      unfold ToObjectRelationString in Hh. rewrite has_byte_app in Hh. by rewrite orb_true_r in Hh.
    + rewrite Heq in Hs. unfold UsersetString in Hs. rewrite SplitObjectRelation_build in Hs by word_byte.
      injection Hs as _ ->. by destruct Hr.
Qed.

Lemma filter_user_not_self u o r : filter_user u → r ≠ "" → self_defining u o r = false.
Proof.
  intros (Hs&_)%filter_user_string Hr. unfold self_defining, IsSelfDefining. simpl. rewrite Hs. by rewrite bool_decide_false.
Qed.

Lemma filter_user_plain u : filter_user u → IsObjectRelation u = false.
Proof. intros (Hv&Hr&_). destruct (valid_user_facts _ Hv) as (_&_&->&_). by rewrite Hr. Qed.

Lemma filter_user_key u : filter_user u → fu_key (found (StringToUserProto u)) = u.
Proof. intros Hu. by destruct (filter_user_string _ Hu) as (_&_&?). Qed.

(** A user of the type that is not the wildcard, when the wildcard is a user. *)
Lemma wildcard_user : filter_user (TypedPublicWildcard (uf_Type f)) →
  filter_user (BuildObject (uf_Type f) "x") ∧ IsTypedWildcard (BuildObject (uf_Type f) "x") = false.
Proof.
  intros (Hv&_&Hty). apply IsValidUser_cases in Hv as [(Hc&_)|[(t&id&Heq&Ht&_)|(t&id&r&Heq&Ht&Hid&Hr)]].
  - unfold TypedPublicWildcard in Hc. rewrite has_byte_BuildObject in Hc. by rewrite orb_true_r in Hc.
  - assert (has_byte ":" t = false) as Htc by word_byte.
    unfold TypedPublicWildcard in *. rewrite Heq, GetType_build in Hty by done. subst t.
    unfold filter_user, IsTypedWildcard. rewrite SplitObject_build, GetType_build by done. split; [|by rewrite andb_false_r].
    split_and!; [|unfold Tuple.GetRelation; rewrite SplitObjectRelation_none; [done|]|done].
    + unfold IsValidUser. assert (IsValidObject (BuildObject (uf_Type f) "x") = true) as Hobj.
      { apply IsValidObject_spec. exists (uf_Type f), "x". split_and!; [done..|]. by vm_compute. }
      unfold IsValidObject in Hobj. rewrite Hobj. by rewrite orb_true_r.
    + apply BuildObject_no_hash; [word_byte|done].
  - exfalso. assert (has_byte "*" (UsersetString t id r) = true → has_byte "*" t = true) as Hstar.
    { unfold UsersetString, ToObjectRelationString, BuildObject. rewrite !has_byte_app. destruct (has_byte "*" t); [done|].
      assert (has_byte "*" id = false) as -> by word_byte. assert (has_byte "*" r = false) as -> by word_byte. done. }
    unfold TypedPublicWildcard, UsersetString, ToObjectRelationString in *. rewrite BuildObject_app in Heq.
    rewrite Heq, GetType_build in Hty by word_byte. subst t. apply BuildObject_inj in Heq as [_ Heq]; [|word_byte..].
    destruct id as [|c id]; [by destruct Hid|]. injection Heq as <- _. destruct Hid as [_ Hid]. by vm_compute in Hid.
Qed.
End filter_users.

(** ** Reading tuples *)

(** The condition of a tuple is met for the query exactly when the filter of Check lets it
    through. *)
Lemma tupleConditionMet_filter `{!Cel} conds reqCtx tk b :
  tupleConditionMet conds reqCtx tk = Ret b ↔ condition_filter conds reqCtx tk = Ret b.
Proof.
  unfold condition_filter, BuildTupleKeyConditionFilter, tupleConditionMet.
  destruct (EvaluateTupleCondition tk conds reqCtx) as [res conds']. simpl.
  destruct res as [res| |]; simpl; [case_bool_decide| |]; split; intros; by simplify_eq.
Qed.

Lemma tupleConditionMet_no_panic `{!Cel} conds reqCtx tk w : conds_compiled conds → tupleConditionMet conds reqCtx tk ≠ Panic w.
Proof.
  intros Hc Hp. pose proof (condition_filter_no_panic conds reqCtx tk Hc) as Hn.
  unfold condition_filter, BuildTupleKeyConditionFilter, tupleConditionMet in *.
  destruct (EvaluateTupleCondition tk conds reqCtx) as [res conds']. simpl in *.
  destruct res as [res| |]; simpl in *; [|done..]. by case_bool_decide.
Qed.

Lemma condition_loop_spec `{!Cel} conds reqCtx keys final :
  conds_compiled conds →
  ∃ met errs, condition_loop conds reqCtx keys final = Ret (met, errs) ∧
    (∀ tk, tk ∈ met → tk ∈ keys ∧ tupleConditionMet conds reqCtx tk = Ret true) ∧
    (errs = [] → ∀ tk, tk ∈ keys → tupleConditionMet conds reqCtx tk = Ret true → tk ∈ met).
Proof.
  intros Hc. induction keys as [|tk keys (met&errs&IH&Hs&Hcomp)]; simpl.
  { exists [], final. split_and!; [done|by intros ? ?%not_elem_of_nil|by intros _ ? ?%not_elem_of_nil]. }
  destruct (tupleConditionMet conds reqCtx tk) as [b|e|w] eqn:E; [| |by eapply tupleConditionMet_no_panic in E].
  - rewrite IH. simpl. eexists _, _. split; [reflexivity|]. split.
    + intros tk' Hin. destruct b; [apply elem_of_cons in Hin as [->|Hin]|]; [by split; [left|]|..];
        (destruct (Hs _ Hin); split; [by right|done]).
    + intros -> tk' [->|Hin]%elem_of_cons Hm; [rewrite E in Hm; simplify_eq; by left|].
      destruct b; [right|]; by apply Hcomp.
  - destruct (cond_evaluation_failed e).
    + rewrite IH. simpl. eexists _, _. split; [reflexivity|]. split; [|done].
      intros tk' Hin. destruct (Hs _ Hin). split; [by right|done].
    + eexists _, _. split; [reflexivity|]. split; [by intros ? ?%not_elem_of_nil|done].
Qed.

(** ** The calls of an expansion *)

Section calls.
Context `{!ModelGraph, !Cel, !MapRange, !ListUsersSchedule, !RelationshipTupleReader}.
Context (typesys : TypeSystem) (conds : gmap string EvaluableCondition).
Context (dispatch : position → CtxState → internalListUsersRequest → Run) (req : internalListUsersRequest).

Lemma elem_of_dispatches p reqs task :
  task ∈ dispatches dispatch p reqs → ∃ i req', req' ∈ reqs ∧ task = λ c, dispatch (i :: p) c req'.
Proof.
  unfold dispatches. intros (i&req'&->&Hl)%elem_of_lookup_imap. exists i, req'. split; [by eapply list_elem_of_lookup_2|done].
Qed.

Lemma elem_of_operands (l : list Userset) p (tasks := imap (λ i child c, child (i :: p) c req) (expandRewrite typesys conds dispatch <$> l)) :
  (∀ task, task ∈ tasks → ∃ child i, child ∈ l ∧ task = λ c, expandRewrite typesys conds dispatch child (i :: p) c req) ∧
  (∀ child, child ∈ l → ∃ i, tasks !! i = Some (λ c, expandRewrite typesys conds dispatch child (i :: p) c req)).
Proof.
  split.
  - intros task (i&g&->&Hl)%elem_of_lookup_imap. rewrite list_lookup_fmap in Hl. destruct (l !! i) as [child|] eqn:E; [|done].
    injection Hl as <-. exists child, i. split; [by eapply list_elem_of_lookup_2|done].
  - intros child [i Hi]%list_elem_of_lookup_1. exists i. subst tasks. by rewrite list_lookup_imap, list_lookup_fmap, Hi.
Qed.

End calls.

(** ** Deadlines *)

(** Without a deadline no error is one of a deadline. *)
Section deadlines.
Context `{!ModelGraph, !Cel, !MapRange, !ListUsersSchedule, !RelationshipTupleReader}.
Context (typesys : TypeSystem) (conds : gmap string EvaluableCondition) (resolveNodeLimit : Z).

Definition quiet (run : Run) : Prop := is_deadline (run_err run) = false.
Abbreviation in_time c := (c ≠ CtxDone ContextDeadlineExceeded).

Lemma is_deadline_app a b : is_deadline (a ++ b) = is_deadline a || is_deadline b.
Proof. apply existsb_app. Qed.

Lemma condition_loop_quiet reqCtx keys final met errs :
  condition_loop conds reqCtx keys final = Ret (met, errs) → is_deadline final = false → is_deadline errs = false.
Proof.
  revert met errs. induction keys as [|tk keys IH]; intros met errs; simpl; [by intros [= <- <-]|].
  destruct (tupleConditionMet conds reqCtx tk) as [b|e|w]; [| |done].
  - destruct (condition_loop conds reqCtx keys final) as [[met' errs']| |]; [|done..]. intros [= <- <-]. by eapply IH.
  - destruct (cond_evaluation_failed e); [|by intros [= <- <-]].
    destruct (condition_loop conds reqCtx keys final) as [[met' errs']| |]; [|done..]. intros [= <- <-]. exact (IH met' errs' eq_refl).
Qed.

Lemma read_tuples_quiet p c req r :
  in_time c →
  match read_tuples typesys conds p c req r with
  | Ret (_, errs) => is_deadline errs = false
  | Throw err => is_deadline err = false
  | Panic _ => True
  end.
Proof.
  intros Hc. unfold read_tuples. destruct (rd_Read _ _) as [iter| |]; [|done..]. destruct (read_valid typesys iter) as [keys [e|]]; [|done].
  set (final := match e with ErrIteratorDone => [] | _ => [LuIterator e] end).
  assert (is_deadline final = false) as Hf by by destruct e.
  destruct c as [|ce].
  - destruct (condition_loop _ _ _ _) as [[met errs]|[]|] eqn:E; [|done]. by eapply condition_loop_quiet.
  - pose proof (cut_short_deadline p ce keys) as Hd. destruct (cut_short p ce keys) as [keys' err]. simpl in Hd.
    destruct (condition_loop _ _ _ _) as [[met errs]|[]|] eqn:E; [|done]. eapply condition_loop_quiet; [exact E|].
    rewrite is_deadline_app, Hf, orb_false_r. destruct (is_deadline err); [|done]. by rewrite Hd in Hc.
Qed.

Lemma pool_quiet p c tasks err :
  in_time c → (∀ task c', task ∈ tasks → in_time c' → quiet (task c')) →
  pool_Wait (pool_runs p c tasks) = WaitErr err → is_deadline err = false.
Proof.
  intros Hc Htasks. assert (∀ run, run ∈ (pool_runs p c tasks).1 → quiet run) as Hruns.
  { unfold pool_runs. destruct (failures _ _); simpl.
    - intros run (task&->&?)%list_elem_of_fmap. auto.
    - intros run (i&task&->&?%list_elem_of_lookup_2)%elem_of_lookup_imap. apply Htasks; [done|].
      destruct (_ || _); [done|]. by destruct c. }
  unfold pool_Wait. destruct (first_crash _); [done|]. destruct (first_panic _); [done|]. intros [= <-].
  destruct (pool_runs p c tasks) as [runs [i|]]; simpl in *; [|done]. destruct (runs !! i) as [run|] eqn:E; simpl; [|done].
  apply Hruns. by eapply list_elem_of_lookup_2.
Qed.

Section rewrites_quiet.
Context (dispatch : position → CtxState → internalListUsersRequest → Run).
Hypothesis Hdispatch : ∀ p c req, in_time c → quiet (dispatch p c req).

Lemma expandDirect_quiet p c req : in_time c → quiet (expandDirect typesys conds dispatch p c req).
Proof.
  intros Hc. unfold expandDirect. pose proof (read_tuples_quiet p c req (lu_Relation (lu_request req)) Hc) as Hr.
  destruct (read_tuples _ _ _ _ _ _) as [[met errs]| |]; [|done..]. unfold quiet, run_err. cbn [ending].
  destruct (pool_Wait _) as [err| |] eqn:Hw; [|done..]. cbn [resp_err]. rewrite is_deadline_app, Hr. eapply pool_quiet; [exact Hc| |exact Hw].
  intros task c' (task'&->&(i&req'&_&->)%elem_of_dispatches)%list_elem_of_fmap Hc'.
  pose proof (Hdispatch (i :: p) c' req' Hc') as Hq. unfold recovered_run.
  by destruct (ending (dispatch (i :: p) c' req')).
Qed.

Lemma expandTTU_quiet p c req ts cr : in_time c → quiet (expandTTU typesys conds dispatch p c req ts cr).
Proof.
  intros Hc. unfold expandTTU. pose proof (read_tuples_quiet p c req ts Hc) as Hr.
  destruct (read_tuples _ _ _ _ _ _) as [[met errs]| |]; [|done..]. unfold quiet, run_err. cbn [ending].
  destruct (pool_Wait _) as [err| |] eqn:Hw; [|done..]. cbn [resp_err]. rewrite is_deadline_app, Hr, orb_false_r.
  eapply pool_quiet; [exact Hc| |exact Hw]. intros task c' (i&req'&_&->)%elem_of_dispatches. apply Hdispatch.
Qed.

Lemma expandOperands_quiet p c combine tasks :
  in_time c → (∀ task c', task ∈ tasks → in_time c' → quiet (task c')) → quiet (expandOperands p c combine tasks).
Proof.
  intros Hc Ht. unfold expandOperands, quiet, run_err. cbn [ending]. destruct (pool_Wait _) as [err| |] eqn:Hw; [|done..]. by eapply pool_quiet.
Qed.

Lemma expandRewrite_quiet rw : ∀ p c req, in_time c → quiet (expandRewrite typesys conds dispatch rw p c req).
Proof.
  induction rw as [|ob cr|ts cr|l IH|l IH|b s IHb IHs|] using Userset_nested_ind; intros p c req Hc; try rewrite Forall_forall in IH.
  - by apply expandDirect_quiet.
  - by apply Hdispatch.
  - by apply expandTTU_quiet.
  - apply expandOperands_quiet; [done|]. intros task c' (child&i&Hch&->)%elem_of_operands. by apply IH.
  - apply expandOperands_quiet; [done|]. intros task c' (child&i&Hch&->)%elem_of_operands. by apply IH.
  - pose proof (IHb (O :: p) c req Hc) as Hb. pose proof (IHs (S O :: p) c req Hc) as Hs. cbn [expandRewrite]. unfold expandExclusion, quiet, run_err in *.
    destruct (ending (expandRewrite _ _ _ b _ _ _)) as [rb| |], (ending (expandRewrite _ _ _ s _ _ _)) as [rs| |]; try done.
    destruct (resp_hasCycle rs); [done|]. cbn [ending resp_err]. by rewrite is_deadline_app, Hb, Hs.
  - done.
Qed.
End rewrites_quiet.

Lemma expand_quiet fuel : ∀ p c req, in_time c → quiet (expand typesys conds resolveNodeLimit fuel p c req).
Proof.
  induction fuel as [|fuel IH]; intros p c req Hc; [done|]. cbn [expand]. destruct (_ <=? _); [done|].
  destruct (enteredCycle _) as [[] req']; [done|]. destruct (GetRelation typesys _ _) as [rel|e|w]; [|by destruct e|done].
  pose proof (expandRewrite_quiet _ IH (rel_Rewrite rel) (O :: p) c req' Hc) as Hq. exact Hq.
Qed.
End deadlines.

Section expansion.
Context `{!ModelGraph, !Cel, !MapRange, !ConditionCompiler, !ListUsersSchedule}.
Context (m : AuthorizationModel) (typesys : TypeSystem) (conds : gmap string EvaluableCondition) (resolveNodeLimit : Z).
Context `{!RelationshipTupleReader} (store : string) `{!RelationshipTupleReaderSpec store}.
Context (reqCtx : option Struct) (f : UserTypeFilter).
Hypothesis Hmodel : NewAndValidate m = Ret typesys.
Hypothesis Hconds : conds_compiled conds.
Hypothesis Husers : ∀ t, t ∈ stored store → IsValidUser (User (Key t)) = true.
Hypothesis Htype : uf_Type f ≠ "".
Hypothesis Hrelation : uf_Relation f = "".

Abbreviation usable := (usable typesys conds (stored store) reqCtx).
Abbreviation granted := (granted typesys conds (stored store) reqCtx).
Abbreviation refuted := (refuted typesys conds (stored store) reqCtx).
Abbreviation has := (has_some typesys conds (stored store) reqCtx).
Abbreviation cannot := (cannot_some typesys conds (stored store) reqCtx).
Abbreviation granted_rw := (granted_rw typesys conds (stored store) reqCtx).

Definition lu_object (req : internalListUsersRequest) : string := ObjectKey (lu_Object (lu_request req)).

(** A request of the query: the object is well formed and the relation has a name. *)
Record lu_request_ok (req : internalListUsersRequest) : Prop := {
  lr_store : lu_StoreId (lu_request req) = store;
  lr_context : lu_Context (lu_request req) = reqCtx;
  lr_filters : lu_UserFilters (lu_request req) = [f];
  lr_object : object_ok (lu_object req);
  lr_split : SplitObject (lu_object req) = lu_Object (lu_request req);
  lr_relation : lu_Relation (lu_request req) ≠ "";
}.

Lemma reader_valid_drain (iter : reader_iter) :
  read_valid typesys iter = (List.filter (FilterInvalidTuples typesys) (Key <$> items iter), Some ErrIteratorDone).
Proof.
  unfold read_valid. rewrite drain_items; [done|]. simpl. pose proof (remaining_items iter).
  pose proof (filter_length_le (FilterInvalidTuples typesys) (Key <$> items iter)) as Hl. rewrite length_fmap in Hl. lia.
Qed.

(** The tuples read are usable, and without errors they are all the usable ones. *)
Lemma read_tuples_spec p c req r :
  lu_request_ok req → r ≠ "" →
  ∃ met errs, read_tuples typesys conds p c req r = Ret (met, errs) ∧
    (∀ tk, tk ∈ met → usable (lu_object req) r (User tk)) ∧
    (c = CtxLive → errs = [] → ∀ u, usable (lu_object req) r u → ∃ tk, tk ∈ met ∧ User tk = u).
Proof.
  intros [Hs Hctx _ Ho _ _] Hr. unfold read_tuples. rewrite Hs, Hctx.
  destruct (Read_spec (store := store) (lu_object req) r Ho Hr) as (it&Hread&Hit). unfold lu_object in Hread. rewrite Hread.
  rewrite reader_valid_drain. set (keys := List.filter _ _).
  assert (∀ tk, tk ∈ keys ↔ ∃ t, t ∈ items it ∧ Key t = tk ∧ FilterInvalidTuples typesys tk = true) as Hkeys.
  { intros tk. unfold keys. rewrite list_elem_of_In, List.filter_In, <-list_elem_of_In, list_elem_of_fmap. naive_solver. }
  assert (∀ tk, tk ∈ keys → tupleConditionMet conds reqCtx tk = Ret true → usable (lu_object req) r (User tk)) as Hus.
  { intros tk (t&Ht&<-&Hv)%Hkeys Hc%tupleConditionMet_filter. apply Hit in Ht as (Hst&Hob&Hre). exists t.
    split_and!; [done|by unfold usable_key; rewrite Hv, Hc|]. unfold key_of. by rewrite Hob, Hre. }
  destruct c as [|e].
  - destruct (condition_loop_spec conds reqCtx keys [] Hconds) as (met&errs&->&Hsound&Hcomp).
    exists met, errs. split_and!; [done|intros tk [??]%Hsound; by apply Hus|].
    intros _ He u (t&Ht&Hk&Heq). injection Heq as Hob Hre Hu. exists (Key t). split; [|done].
    unfold usable_key in Hk. apply andb_true_iff in Hk as [Hv Hc]. apply Hcomp; [done|apply Hkeys; exists t|].
    + split_and!; [|done..]. by apply Hit.
    + apply tupleConditionMet_filter. by destruct (condition_filter _ _ _) as [[]| |].
  - destruct (cut_short p e keys) as [keys' err] eqn:Hcut.
    pose proof (cut_short_sub p e keys) as Hsub. rewrite Hcut in Hsub. simpl in Hsub.
    destruct (condition_loop_spec conds reqCtx keys' (err ++ []) Hconds) as (met&errs&->&Hsound&_).
    exists met, errs. split_and!; [done| |done]. intros tk [??]%Hsound. apply Hus; [by apply Hsub|done].
Qed.

(** ** Users and wildcards *)

Abbreviation lu_user := (filter_user f).
Abbreviation W := (TypedPublicWildcard (uf_Type f)).
Abbreviation lu_user_string := (filter_user_string f Htype).
Abbreviation lu_user_not_self := (filter_user_not_self f Htype).
Abbreviation fu_key_found := (filter_user_key f Htype).

Lemma granted_defined u n o r : lu_user u → r ≠ "" → granted u n o r → ∃ rel, GetRelation typesys (GetType o) r = Ret rel.
Proof.
  intros Hu Hr. destruct n as [|n]; [done|]. intros [Hs|(rel&?&_)]; [|by exists rel]. by rewrite lu_user_not_self in Hs.
Qed.

(** The leaves of a rewrite are leaves of a relation. *)
Definition within (rel : RelationDef) (rw : Userset) : Prop :=
  (∀ c, c ∈ computed_leaves rw → c ∈ computed_leaves (rel_Rewrite rel)) ∧
  (∀ p, p ∈ flattenUserset rw → p ∈ flattenUserset (rel_Rewrite rel)).

Lemma within_child rel (mk : list Userset → Userset) l c :
  mk = Userset_Union ∨ mk = Userset_Intersection → within rel (mk l) → c ∈ l → within rel c.
Proof.
  intros Hmk [Hw1 Hw2] Hc. split; intros x Hx; [apply Hw1|apply Hw2]; destruct Hmk as [-> | ->]; simpl; by eapply elem_of_concat_fmap.
Qed.

(** The relations that rewrites name are named. *)
Lemma leaf_computed o r rel ob c :
  GetRelation typesys (GetType o) r = Ret rel → within rel (Userset_ComputedUserset ob c) → c ≠ "".
Proof.
  intros Hrel [Hw _]. pose proof (NewAndValidate_valid m typesys Hmodel) as [Hmv _].
  destruct (mv_computed _ Hmv _ _ _ c Hrel) as [_ [crel Hc]]; [apply Hw; set_solver|]. by eapply GetRelation_nonempty.
Qed.

Lemma leaf_ttu o r rel ts c :
  GetRelation typesys (GetType o) r = Ret rel → within rel (Userset_TupleToUserset ts c) →
  ts ≠ "" ∧ c ≠ "" ∧ (ts, c) ∈ flattenUserset (rel_Rewrite rel).
Proof.
  intros Hrel [_ Hw]. pose proof (NewAndValidate_valid m typesys Hmodel) as [Hmv _].
  assert ((ts, c) ∈ flattenUserset (rel_Rewrite rel)) as Hin by (apply Hw; set_solver).
  destruct (mv_ttu _ Hmv _ _ _ ts c Hrel Hin) as (tsrel&Hts&_&_&rr&crel&_&Hc).
  split_and!; [by eapply GetRelation_nonempty..|done].
Qed.

Lemma wildcard_lu_user u o r : lu_user u → usable o r (TypedPublicWildcard (GetType u)) → lu_user W.
Proof.
  intros (_&_&Hty) Hus. rewrite Hty in Hus.
  destruct (usable_facts m typesys conds _ reqCtx Hmodel Husers _ _ _ Hus) as [Hv _].
  pose proof (GetType_no_colon u) as Hcolon. rewrite Hty in Hcolon.
  destruct (wildcard_facts _ Hcolon Hv) as (Hr&_&_&Ht). by split_and!.
Qed.

(** What the wildcard of the type has, every user of the type has. *)
Lemma wildcard_rw u (Gw Gu Rw Ru : string → string → Prop) o r rel rw :
  lu_user u → lu_user W → (∀ o r, r ≠ "" → Gw o r → Gu o r) → GetRelation typesys (GetType o) r = Ret rel → within rel rw →
  has_difference rw = false → granted_rw W Gw Rw o r rw → granted_rw u Gu Ru o r rw.
Proof.
  intros Hu HW HG Hrel. induction rw as [|ob c|ts c|l IH|l IH|b s _ _|] using Userset_nested_ind; simpl; intros Hin Hd; try rewrite Forall_forall in IH.
  - assert (usable o r W → granted_this typesys conds (stored store) reqCtx u Gu o r) as Hwild.
    { intros Hus. right. left. split; [by apply (filter_user_plain f)|]. by destruct Hu as (_&_&->). }
    intros [Hus|[[_ Hus]|(w&Hus&Hne&Hg)]]; [auto| |].
    + apply Hwild. destruct HW as (_&_&HW). by rewrite HW in Hus.
    + right. right. exists w. split_and!; [done..|by apply HG].
  - apply HG. by eapply leaf_computed.
  - intros (w&Hus&Hsk&Hg). exists w. split_and!; [done..|]. apply HG; [|done]. by eapply leaf_ttu.
  - rewrite !foldr_or. intros (c&Hc&Hg). exists c. split; [done|]. apply (IH c Hc); [|by eapply existsb_false_elem|done].
    eapply within_child; [by left|done..].
  - rewrite !foldr_and. intros [Hne Hg]. split; [done|]. intros c Hc. apply (IH c Hc); [|by eapply existsb_false_elem|auto].
    eapply within_child; [by right|done..].
  - done.
  - done.
Qed.

Hypothesis Hpositive : positive_model typesys.

Lemma wildcard_granted u n : lu_user u → lu_user W → ∀ o r, r ≠ "" → granted W n o r → granted u n o r.
Proof.
  intros Hu HW. induction n as [|n IH]; intros o r Hr; [done|]. intros [Hs|(rel&Hrel&Hg)]; [by rewrite lu_user_not_self in Hs|].
  right. exists rel. split; [done|]. eapply wildcard_rw; [done|done|exact IH|done|done|by eapply Hpositive|exact Hg].
Qed.

(** ** Soundness *)

(** Every message names a user of the filter for which [P] holds. *)
Definition sound (P : string → Prop) (msgs : list foundUser) : Prop :=
  ∀ fu, fu ∈ msgs → is_has fu = true ∧ lu_user (fu_key fu) ∧ P (fu_key fu).

Lemma sound_has_keys P msgs k : sound P msgs → k ∈ has_keys msgs → lu_user k ∧ P k.
Proof. intros Hs (fu&Hfu&_&<-)%elem_of_has_keys. by destruct (Hs fu Hfu) as (_&?&?). Qed.

Lemma sound_impl (P Q : string → Prop) msgs : sound P msgs → (∀ u, lu_user u → P u → Q u) → sound Q msgs.
Proof. intros Hs HPQ fu (?&?&?)%Hs. auto. Qed.

Lemma lu_rewritten req o r :
  lu_request_ok req → object_ok o → r ≠ "" →
  lu_request_ok (rewritten req (SplitObject o) r) ∧ lu_object (rewritten req (SplitObject o) r) = o.
Proof.
  intros [Hs Hc Hf _ _ _] Ho Hr. assert (lu_object (rewritten req (SplitObject o) r) = o) as Heq.
  { unfold lu_object, ObjectKey. simpl. destruct Ho as [(t&id&->&Ht&_) _]. by rewrite SplitObject_build. }
  split; [|done]. split; simpl; try done; by rewrite Heq.
Qed.

Lemma lu_same_object req r :
  lu_request_ok req → r ≠ "" →
  lu_request_ok (rewritten req (lu_Object (lu_request req)) r) ∧ lu_object (rewritten req (lu_Object (lu_request req)) r) = lu_object req.
Proof. intros Hreq Hr. rewrite <-(lr_split _ Hreq). apply lu_rewritten; [done|by apply lr_object|done]. Qed.

Lemma wildcard_key_filter req : lu_request_ok req → wildcard_key req = W.
Proof. intros Hreq. unfold wildcard_key. by rewrite (lr_filters _ Hreq). Qed.

(** The message of a tuple's user. *)
Lemma elem_of_direct_messages req tk fu :
  lu_request_ok req → IsValidUser (User tk) = true →
  fu ∈ direct_messages req tk ↔ lu_user (User tk) ∧ fu = found (StringToUserProto (User tk)).
Proof.
  intros Hreq Hv. unfold direct_messages. destruct (valid_user_facts _ Hv) as (_&Hty&_&_&Hself).
  assert (lu_user (User tk) → SplitObjectRelation (User tk) = (User tk, "") ∧
    ∃ id, User tk = BuildObject (uf_Type f) id ∧ SplitObject (User tk) = (uf_Type f, id)) as Hlu.
  { intros Hu. by destruct (lu_user_string _ Hu) as (?&?&_). }
  rewrite (lr_filters _ Hreq). unfold lu_user, Tuple.GetRelation, GetType in *.
  destruct (SplitObjectRelation (User tk)) as [uo ur]. simpl in *. split.
  - destruct (SplitObject uo) as [t id] eqn:Hso. simpl in Hty. case_bool_decide as Hr; [|by intros ?%not_elem_of_nil].
    rewrite app_nil_r. case_bool_decide as Ht; [|by intros ?%not_elem_of_nil]. intros ->%list_elem_of_singleton.
    assert (uo = User tk) as -> by auto. split; [by rewrite Hso|].
    destruct (Hlu ltac:(by rewrite Hso)) as (_&id'&Hu&Hso'). rewrite Hso in Hso'. injection Hso' as -> ->. by rewrite <-Hu.
  - intros [Hu ->]. destruct (Hlu Hu) as (Hs&id&Hub&Hso). injection Hs as -> ->. rewrite Hso. simpl.
    rewrite bool_decide_true by done. rewrite <-Hub. apply list_elem_of_here.
Qed.

(** The request for the userset of a usable tuple. *)
Lemma userset_request_ok req tk o r req' :
  lu_request_ok req → usable o r (User tk) → userset_request req tk = Some req' →
  lu_request_ok req' ∧ Tuple.GetRelation (User tk) ≠ "" ∧
  lu_object req' = (SplitObjectRelation (User tk)).1 ∧ lu_Relation (lu_request req') = Tuple.GetRelation (User tk).
Proof.
  intros Hreq Hus Heq. destruct (usable_facts m typesys conds _ reqCtx Hmodel Husers _ _ _ Hus) as [Hv _].
  destruct (valid_user_facts _ Hv) as (_&_&_&Hobj&_). unfold userset_request, Tuple.GetRelation in *.
  destruct (SplitObjectRelation (User tk)) as [uo ur]. simpl in *. case_bool_decide as Hr; [done|]. injection Heq as <-.
  destruct (Hobj Hr) as [Ho _]. destruct (lu_rewritten req uo ur Hreq Ho Hr). by split_and!.
Qed.

Section rewrites_sound.
Context (dispatch : position → CtxState → internalListUsersRequest → Run) (req : internalListUsersRequest) (rel : RelationDef).
Hypothesis Hdispatch : ∀ p c req', lu_request_ok req' → sound (λ u, has u (lu_object req') (lu_Relation (lu_request req'))) (sent (dispatch p c req')).
Hypothesis Hreq : lu_request_ok req.
Abbreviation o := (lu_object req).
Abbreviation r := (lu_Relation (lu_request req)).
Hypothesis Hrel : GetRelation typesys (GetType o) r = Ret rel.

Abbreviation sound_rw rw := (sound (λ u, granted_rw u (has u) (cannot u) o r rw)).

Lemma expandDirect_sound p c : sound_rw Userset_This (sent (expandDirect typesys conds dispatch p c req)).
Proof.
  unfold expandDirect. destruct (read_tuples_spec p c req r Hreq (lr_relation _ Hreq)) as (met&errs&->&Hmet&_).
  simpl. intros fu (msgs&[->|Hm]%elem_of_cons&Hfu)%elem_of_interleave.
  - apply elem_of_TrySend in Hfu. apply list_elem_of_In, in_concat in Hfu as (l&Hl%list_elem_of_In&Hfu%list_elem_of_In).
    apply list_elem_of_fmap in Hl as (tk&->&Htk). pose proof (Hmet _ Htk) as Hus.
    destruct (usable_facts m typesys conds _ reqCtx Hmodel Husers _ _ _ Hus) as [Hv _].
    apply elem_of_direct_messages in Hfu as [Hu ->]; [|done..]. rewrite fu_key_found by done. split_and!; [done..|]. by left.
  - apply list_elem_of_fmap in Hm as (run&->&Hrun). apply pool_runs_elem in Hrun as (task&c'&Htask&->).
    apply list_elem_of_fmap in Htask as (task'&->&Htask). apply elem_of_dispatches in Htask as (i&req'&Hr'&->).
    apply list_elem_of_omap in Hr' as (tk&Htk&Heq). pose proof (Hmet _ Htk) as Hus.
    destruct (userset_request_ok _ _ _ _ _ Hreq Hus Heq) as (Hok&Hne&Ho&Hr).
    assert (fu ∈ sent (dispatch (i :: p) c' req')) as Hfu'.
    { unfold recovered_run in Hfu. by destruct (ending (dispatch (i :: p) c' req')). }
    destruct (Hdispatch _ _ _ Hok fu Hfu') as (?&?&Hg). rewrite Ho, Hr in Hg. split_and!; [done..|].
    right. right. by exists (User tk).
Qed.

Lemma expandTTU_sound p c ts cr :
  within rel (Userset_TupleToUserset ts cr) →
  sound_rw (Userset_TupleToUserset ts cr) (sent (expandTTU typesys conds dispatch p c req ts cr)).
Proof.
  intros Hw. destruct (leaf_ttu _ _ _ _ _ Hrel Hw) as (Hts&Hcr&Hin).
  unfold expandTTU. destruct (read_tuples_spec p c req ts Hreq Hts) as (met&errs&->&Hmet&_).
  simpl. intros fu (msgs&Hm&Hfu)%elem_of_interleave.
  apply list_elem_of_fmap in Hm as (run&->&Hrun). apply pool_runs_elem in Hrun as (task&c'&Htask&->).
  apply elem_of_dispatches in Htask as (i&req'&Hr'&->). apply list_elem_of_fmap in Hr' as (tk&->&Htk).
  pose proof (Hmet _ Htk) as Hus.
  destruct (usable_ttu m typesys conds _ reqCtx Hmodel Husers _ _ _ _ _ _ Hrel Hin Hus) as (Hsp&Hobj&_).
  destruct (lu_rewritten req (User tk) cr Hreq Hobj Hcr) as [Hok Ho].
  destruct (Hdispatch _ _ _ Hok fu Hfu) as (?&Hu&Hg). rewrite Ho in Hg. simpl in Hg. split_and!; [done..|].
  exists (User tk). rewrite Hsp. simpl. split_and!; [done| |done]. destruct Hg as [n Hg].
  destruct (granted_defined _ _ _ _ Hu Hcr Hg) as [crel Hc]. unfold ttu_skips. by rewrite Hc.
Qed.

Lemma expandRewrite_sound rw : ∀ p c,
  within rel rw → has_difference rw = false → sound_rw rw (sent (expandRewrite typesys conds dispatch rw p c req)).
Proof.
  induction rw as [|ob cr|ts cr|l IH|l IH|b s _ _|] using Userset_nested_ind; intros p c Hw Hd; try rewrite Forall_forall in IH.
  - apply expandDirect_sound.
  - pose proof (leaf_computed _ _ _ _ _ Hrel Hw) as Hcr. destruct (lu_same_object req cr Hreq Hcr) as [Hok Ho].
    simpl. eapply sound_impl; [by apply Hdispatch|]. simpl. by rewrite Ho.
  - by apply expandTTU_sound.
  - simpl. intros fu (Hh&msgs&k&Hm&Hk&Heq)%elem_of_TrySend%elem_of_union_users. split; [done|].
    apply list_elem_of_fmap in Hm as (run&->&Hrun). apply pool_runs_elem in Hrun as (task&c'&Htask&->).
    apply elem_of_operands in Htask as (child&i&Hc&->).
    assert (sound_rw child (sent (expandRewrite typesys conds dispatch child (i :: p) c' req))) as Hs.
    { apply IH; [done| |by eapply existsb_false_elem]. eapply within_child; [by left|done..]. }
    destruct (sound_has_keys _ _ _ Hs Hk) as [Hu Hg]. unfold fu_key. rewrite Heq.
    destruct (lu_user_string _ Hu) as (_&_&->). split; [done|]. rewrite foldr_or. by exists child.
  - simpl. intros fu (Hh&k&Heq&(msgs&Hm&Hk)&Hall)%elem_of_TrySend%elem_of_intersection_users. split; [done|].
    rewrite (wildcard_key_filter _ Hreq) in Hall.
    assert (∀ child i c', child ∈ l → sound_rw child (sent (expandRewrite typesys conds dispatch child (i :: p) c' req))) as Hs.
    { intros child i c' Hc. apply IH; [done| |by eapply existsb_false_elem]. eapply within_child; [by right|done..]. }
    assert (lu_user k) as Hu.
    { apply list_elem_of_fmap in Hm as (run&->&Hrun). apply pool_runs_elem in Hrun as (task&c'&Htask&->).
      apply elem_of_operands in Htask as (child&i&Hc&->). by destruct (sound_has_keys _ _ _ (Hs child i c' Hc) Hk). }
    unfold fu_key. rewrite Heq. destruct (lu_user_string _ Hu) as (_&_&->). split; [done|]. split.
    { intros ->. simpl in Hm. unfold pool_runs in Hm. simpl in Hm. by apply not_elem_of_nil in Hm. }
    rewrite foldr_and. intros child Hc. destruct (proj2 (elem_of_operands typesys conds dispatch req l p) child Hc) as [i Hi].
    destruct (pool_runs_lookup p c _ _ _ Hi) as [c' Hrun].
    destruct (Hall (sent (expandRewrite typesys conds dispatch child (i :: p) c' req))) as [Hk'|HW].
    + apply list_elem_of_fmap. eexists. split; [reflexivity|]. by eapply list_elem_of_lookup_2.
    + by destruct (sound_has_keys _ _ _ (Hs child i c' Hc) Hk').
    + destruct (sound_has_keys _ _ _ (Hs child i c' Hc) HW) as [HWu Hg].
      eapply (wildcard_rw k (has W) (has k)); [done|done| |exact Hrel| |by eapply existsb_false_elem|exact Hg].
      * intros o' r' Hr' [n Hn]. exists n. by apply wildcard_granted.
      * eapply within_child; [by right|done..].
  - done.
  - by intros fu ?%not_elem_of_nil.
Qed.
End rewrites_sound.

Lemma self_messages_nil req : lu_request_ok req → self_messages req = [].
Proof.
  intros Hreq. unfold self_messages. destruct (lu_Object (lu_request req)) as [t id]. rewrite (lr_filters _ Hreq). simpl.
  rewrite Hrelation, (bool_decide_false (lu_Relation (lu_request req) = "")) by by apply lr_relation. by rewrite andb_false_r.
Qed.

(** The request as [expand] passes it on. *)
Definition entered (req : internalListUsersRequest) : internalListUsersRequest :=
  mkInternalRequest (lu_request req) ({[ToObjectRelationString (lu_object req) (lu_Relation (lu_request req))]} ∪ visitedUsersetsMap req)
    ((lu_depth req + 1) mod 2^32).

Lemma lu_entered req : lu_request_ok req → lu_request_ok (entered req).
Proof. by intros []. Qed.

(** [expand] on a request of the query. *)
Lemma expand_eq fuel p c req :
  lu_request_ok req →
  expand typesys conds resolveNodeLimit (S fuel) p c req =
    if resolveNodeLimit <=? lu_depth req then mkRun [] (Returned (mkExpandResponse false [LuResolutionDepthExceeded]))
    else if bool_decide (ToObjectRelationString (lu_object req) (lu_Relation (lu_request req)) ∈ visitedUsersetsMap req)
    then mkRun [] (Returned (mkExpandResponse true []))
    else match GetRelation typesys (GetType (lu_object req)) (lu_Relation (lu_request req)) with
         | Throw (RelationUndefinedError _ _) => mkRun (TrySendThroughChannel p c []) no_error
         | Throw e => mkRun (TrySendThroughChannel p c []) (Returned (mkExpandResponse false [LuTypesystem e]))
         | Panic w => mkRun (TrySendThroughChannel p c []) (Panicked w)
         | Ret relation =>
             let run := expandRewrite typesys conds (expand typesys conds resolveNodeLimit fuel) (rel_Rewrite relation) (O :: p) c (entered req) in
             mkRun (TrySendThroughChannel p c [] ++ sent run) (ending run)
         end.
Proof.
  intros Hreq. cbn [expand]. destruct (resolveNodeLimit <=? lu_depth req); [done|]. unfold enteredCycle.
  cbn [lu_request visitedUsersetsMap lu_depth]. fold (lu_object req). case_bool_decide; [done|].
  change (mkInternalRequest (lu_request req) _ _) with (entered req).
  rewrite (self_messages_nil _ (lu_entered _ Hreq)). change (lu_request (entered req)) with (lu_request req).
  rewrite <-(lr_split _ Hreq). done.
Qed.

Lemma TrySend_nil p c : TrySendThroughChannel p c [] = [].
Proof. destruct c; [done|]. simpl. pose proof (survive_sub p []) as Hs. destruct (survive p []) as [|x l]; [done|]. exfalso. by eapply not_elem_of_nil, Hs, list_elem_of_here. Qed.

(** Every user that [expand] sends has the relation, whatever the scheduler does. *)
Lemma expand_sound fuel : ∀ p c req,
  lu_request_ok req → sound (λ u, has u (lu_object req) (lu_Relation (lu_request req))) (sent (expand typesys conds resolveNodeLimit fuel p c req)).
Proof.
  assert (∀ P, sound P []) as Hnil by by intros P fu ?%not_elem_of_nil.
  induction fuel as [|fuel IH]; intros p c req Hreq; [apply Hnil|]. rewrite expand_eq, TrySend_nil by done.
  destruct (resolveNodeLimit <=? lu_depth req); [apply Hnil|]. case_bool_decide; [apply Hnil|].
  destruct (GetRelation typesys _ _) as [rel|e|w] eqn:Hrel; [|by destruct e; apply Hnil|apply Hnil]. simpl.
  eapply sound_impl; [apply (expandRewrite_sound _ (entered req) rel); [exact IH|by apply lu_entered|exact Hrel|done|by eapply Hpositive]|].
  intros u Hu Hg. apply granted_level. right. by exists rel.
Qed.

(** ** Completeness *)

Section complete.
Context (user : string).
Hypothesis Huser : lu_user user.

(** The user is among the users sent, or the wildcard of its type is. *)
Definition covered (msgs : list foundUser) : Prop := user ∈ has_keys msgs ∨ W ∈ has_keys msgs.

Lemma covered_sub msgs msgs' : covered msgs → (∀ fu, fu ∈ msgs → fu ∈ msgs') → covered msgs'.
Proof. unfold covered. rewrite !elem_of_has_keys. naive_solver. Qed.

Lemma failed_Returned run : failed run = false → ∃ b, ending run = Returned (mkExpandResponse b []).
Proof.
  unfold failed. destruct (ending run) as [[b err]| |]; [|done..]. simpl. destruct err; [|done]. by exists b.
Qed.

Lemma elem_of_dispatches_2 dispatch p reqs req' :
  req' ∈ reqs → ∃ i, (λ c, dispatch (i :: p) c req') ∈ dispatches dispatch p reqs.
Proof.
  intros [i Hi]%list_elem_of_lookup_1. exists i. eapply list_elem_of_lookup_2 with (i := i).
  unfold dispatches. by rewrite list_lookup_imap, Hi.
Qed.

Lemma failed_recovered run : failed (recovered_run run) = false → failed run = false ∧ recovered_run run = run.
Proof. unfold failed, recovered_run. by destruct (ending run) eqn:E; simpl; rewrite ?E. Qed.

Section rewrites_complete.
Context (dispatch : position → CtxState → internalListUsersRequest → Run) (req : internalListUsersRequest) (rel : RelationDef) (n : nat).
Hypothesis Hsound : ∀ p c req', lu_request_ok req' → sound (λ u, has u (lu_object req') (lu_Relation (lu_request req'))) (sent (dispatch p c req')).
Hypothesis Hdispatch : ∀ p req',
  lu_request_ok req' → visitedUsersetsMap req' = visitedUsersetsMap req → failed (dispatch p CtxLive req') = false →
  granted user n (lu_object req') (lu_Relation (lu_request req')) → covered (sent (dispatch p CtxLive req')).
Hypothesis Hreq : lu_request_ok req.
Abbreviation o := (lu_object req).
Abbreviation r := (lu_Relation (lu_request req)).
Hypothesis Hrel : GetRelation typesys (GetType o) r = Ret rel.
Abbreviation rewritten_users rw p := (sent (expandRewrite typesys conds dispatch rw p CtxLive req)).

Lemma direct_covered met p c (runs : list Run) tk u :
  tk ∈ met → User tk = u → lu_user u → u = user ∨ u = W → c = CtxLive →
  covered (interleave p (TrySendThroughChannel p c (concat (direct_messages req <$> met)) :: (sent <$> runs))).
Proof.
  intros Htk <- Hu Hk ->. assert (User tk ∈ has_keys (direct_messages req tk)) as Hin.
  { apply elem_of_has_keys. exists (found (StringToUserProto (User tk))). split_and!; [|done|by apply fu_key_found].
    apply elem_of_direct_messages; [done| |done]. by destruct Hu. }
  eapply covered_sub with (msgs := direct_messages req tk); [destruct Hk as [Hk|Hk]; [left|right]; by rewrite <-Hk|].
  intros fu Hfu. apply elem_of_interleave. eexists. split; [apply list_elem_of_here|]. by eapply elem_of_concat_fmap.
Qed.

Lemma expandDirect_complete p (run := expandDirect typesys conds dispatch p CtxLive req) :
  failed run = false → granted_this typesys conds (stored store) reqCtx user (granted user n) o r → covered (sent run).
Proof.
  subst run. unfold expandDirect.
  destruct (read_tuples_spec p CtxLive req r Hreq (lr_relation _ Hreq)) as (met&errs&->&Hmet&Hall).
  set (tasks := _ <$> dispatches _ _ _). intros (b&He)%failed_Returned. cbn [ending] in He.
  destruct (pool_Wait (pool_runs p CtxLive tasks)) as [err|w|w] eqn:Hw; [|done..]. injection He as _ [-> ->]%app_nil.
  specialize (Hall eq_refl eq_refl). destruct (pool_ok _ _ _ Hw) as [Hruns Htasks]. cbn [sent].
  intros [Hus|[[_ Hus]|(w&Hus&Hne&Hg)]].
  - destruct (Hall _ Hus) as (tk&Htk&Hu). by eapply direct_covered; [| |exact Huser|left|].
  - pose proof (wildcard_lu_user _ _ _ Huser Hus) as HW. destruct (Hall _ Hus) as (tk&Htk&Hu).
    eapply direct_covered; [done|exact Hu| |right; by destruct Huser as (_&_&->)|done]. by destruct Huser as (_&_&->).
  - destruct (Hall _ Hus) as (tk&Htk&Hu). rewrite <-Hu in *.
    destruct (userset_request req tk) as [req'|] eqn:Hr'.
    2:{ unfold userset_request in Hr'. unfold Tuple.GetRelation in Hne. destruct (SplitObjectRelation (User tk)). by case_bool_decide. }
    destruct (userset_request_ok _ _ _ _ _ Hreq Hus Hr') as (Hok&_&Ho&Hr).
    destruct (elem_of_dispatches_2 dispatch p (omap (userset_request req) met) req') as [i Hi].
    { apply list_elem_of_omap. by exists tk. }
    assert ((λ c, recovered_run (dispatch (i :: p) c req')) ∈ tasks) as Ht.
    { apply list_elem_of_fmap. by exists (λ c, dispatch (i :: p) c req'). }
    destruct (failed_recovered _ (Htasks _ Ht)) as [Hf Heq].
    eapply covered_sub; [apply (Hdispatch (i :: p) req' Hok); [|exact Hf|by rewrite Ho, Hr]|].
    + unfold userset_request in Hr'. destruct (SplitObjectRelation (User tk)). case_bool_decide; [done|]. by injection Hr' as <-.
    + intros fu Hfu. apply elem_of_interleave. exists (sent (dispatch (i :: p) CtxLive req')). split; [|done]. right.
      apply list_elem_of_fmap. exists (dispatch (i :: p) CtxLive req'). split; [done|]. rewrite Hruns. apply list_elem_of_fmap.
      eexists. split; [|exact Ht]. symmetry. exact Heq.
Qed.

Lemma expandTTU_complete p ts cr (run := expandTTU typesys conds dispatch p CtxLive req ts cr) :
  within rel (Userset_TupleToUserset ts cr) → failed run = false →
  granted_ttu typesys conds (stored store) reqCtx (granted user n) o ts cr → covered (sent run).
Proof.
  subst run. intros Hw. destruct (leaf_ttu _ _ _ _ _ Hrel Hw) as (Hts&Hcr&Hin). unfold expandTTU.
  destruct (read_tuples_spec p CtxLive req ts Hreq Hts) as (met&errs&->&Hmet&Hall).
  set (tasks := dispatches _ _ _). intros (b&He)%failed_Returned. cbn [ending] in He.
  destruct (pool_Wait (pool_runs p CtxLive tasks)) as [err|w|w] eqn:Hwait; [|done..]. injection He as _ [-> ->]%app_nil.
  specialize (Hall eq_refl eq_refl). destruct (pool_ok _ _ _ Hwait) as [Hruns Htasks]. cbn [sent].
  intros (w&Hus&Hsk&Hg). destruct (Hall _ Hus) as (tk&Htk&Hu). rewrite <-Hu in *.
  destruct (usable_ttu m typesys conds _ reqCtx Hmodel Husers _ _ _ _ _ _ Hrel Hin Hus) as (Hsp&Hobj&_). rewrite Hsp in Hg.
  destruct (lu_rewritten req (User tk) cr Hreq Hobj Hcr) as [Hok Ho]. set (req' := rewritten req (SplitObject (User tk)) cr) in *.
  destruct (elem_of_dispatches_2 dispatch p ((λ tk, rewritten req (SplitObject (User tk)) cr) <$> met) req') as [i Hi].
  { apply list_elem_of_fmap. by exists tk. }
  eapply covered_sub; [apply (Hdispatch (i :: p) req' Hok); [done|exact (Htasks _ Hi)|by rewrite Ho]|].
  intros fu Hfu. apply elem_of_interleave. exists (sent (dispatch (i :: p) CtxLive req')). split; [|done].
  apply list_elem_of_fmap. exists (dispatch (i :: p) CtxLive req'). split; [done|]. rewrite Hruns. apply list_elem_of_fmap.
  by exists (λ c, dispatch (i :: p) c req').
Qed.

(** The operands of a union or intersection that did not fail. *)
Lemma operands_ok p l combine (tasks := imap (λ i child c, child (i :: p) c req) (expandRewrite typesys conds dispatch <$> l)) :
  failed (expandOperands p CtxLive combine tasks) = false →
  sent (expandOperands p CtxLive combine tasks) = combine ((λ task : CtxState → Run, sent (task CtxLive)) <$> tasks) ∧
  (∀ task, task ∈ tasks → failed (task CtxLive) = false) ∧
  ∀ child, child ∈ l → ∃ i, rewritten_users child (i :: p) ∈ (λ task : CtxState → Run, sent (task CtxLive)) <$> tasks ∧
    failed (expandRewrite typesys conds dispatch child (i :: p) CtxLive req) = false.
Proof.
  unfold expandOperands. intros (b&He)%failed_Returned. cbn [ending] in He.
  destruct (pool_Wait _) as [err|w|w] eqn:Hw; [|done..]. injection He as _ ->. destruct (pool_ok _ _ _ Hw) as [Hruns Htasks]. split; [|split; [exact Htasks|]].
  - cbn [sent TrySendThroughChannel]. rewrite Hruns. f_equal. by rewrite <-list_fmap_compose.
  - intros child Hc. destruct (proj2 (elem_of_operands typesys conds dispatch req l p) child Hc) as [i Hi]. exists i.
    apply list_elem_of_lookup_2 in Hi. split; [|exact (Htasks _ Hi)]. apply list_elem_of_fmap. eexists. split; [|exact Hi]. done.
Qed.

Lemma operand_keys p l k msgs (tasks := imap (λ i child c, child (i :: p) c req) (expandRewrite typesys conds dispatch <$> l)) (mk : list Userset → Userset) :
  mk = Userset_Union ∨ mk = Userset_Intersection → within rel (mk l) → existsb has_difference l = false →
  msgs ∈ (λ task : CtxState → Run, sent (task CtxLive)) <$> tasks → k ∈ has_keys msgs → printable k.
Proof.
  intros Hmk Hw Hd (task&->&Ht)%list_elem_of_fmap Hk. apply elem_of_operands in Ht as (child&i&Hc&->).
  eapply sound_has_keys in Hk as [Hu _]; [by destruct (lu_user_string _ Hu) as (_&_&?)|].
  eapply expandRewrite_sound; [done|done|done| |by eapply existsb_false_elem]. by eapply within_child.
Qed.

Lemma sent_key k msgs : printable k → (∃ fu, fu ∈ msgs ∧ is_has fu = true ∧ fu_user fu = StringToUserProto k) → k ∈ has_keys msgs.
Proof. intros Hp (fu&?&?&Heq). apply elem_of_has_keys. exists fu. split_and!; [done..|]. unfold fu_key. by rewrite Heq. Qed.

Lemma expandRewrite_complete rw : ∀ p,
  within rel rw → has_difference rw = false → failed (expandRewrite typesys conds dispatch rw p CtxLive req) = false →
  granted_rw user (granted user n) (refuted user n) o r rw → covered (rewritten_users rw p).
Proof.
  induction rw as [|ob cr|ts cr|l IH|l IH|b s _ _|] using Userset_nested_ind; intros p Hw Hd Hf; try rewrite Forall_forall in IH.
  - by apply expandDirect_complete.
  - pose proof (leaf_computed _ _ _ _ _ Hrel Hw) as Hcr. destruct (lu_same_object req cr Hreq Hcr) as [Hok Ho].
    simpl. intros Hg. apply Hdispatch; [done..|]. by rewrite Ho.
  - by apply expandTTU_complete.
  - cbn [expandRewrite CheckSemantics.granted_rw] in *. destruct (operands_ok _ _ _ Hf) as (->&_&Hops). rewrite foldr_or. intros (child&Hc&Hg).
    destruct (Hops child Hc) as (i&Hin&Hfi).
    assert (covered (rewritten_users child (i :: p))) as Hcov.
    { apply IH; [done| |by eapply existsb_false_elem|done|done]. eapply within_child; [by left|done..]. }
    destruct Hcov as [Hk|Hk]; [left|right]; (apply sent_key; [eapply operand_keys; [by left|done..]|]); by eapply union_users_complete.
  - cbn [expandRewrite CheckSemantics.granted_rw] in *. destruct (operands_ok _ _ _ Hf) as (->&Htasks&Hops). rewrite foldr_and. intros [Hne Hg].
    set (operands := _ <$> imap _ _) in *.
    assert (∀ msgs, msgs ∈ operands → covered msgs) as Hcov.
    { intros msgs (task&->&Ht)%list_elem_of_fmap. pose proof Ht as Ht'. apply elem_of_operands in Ht as (child&i&Hc&->).
      apply IH; [done| |by eapply existsb_false_elem|exact (Htasks _ Ht')|by apply Hg]. eapply within_child; [by right|done..]. }
    destruct l as [|child l]; [done|]. destruct (Hops child (list_elem_of_here _ _)) as (i&Hin&_).
    destruct (decide (Forall (λ msgs, W ∈ has_keys msgs) operands)) as [HW|HW].
    + rewrite Forall_forall in HW. right. apply sent_key; [eapply operand_keys; [by right|done|done|exact Hin|by apply HW]|].
      eapply intersection_users_complete; [exact Hin|by apply HW|]. intros msgs Hm. left. by apply HW.
    + apply not_Forall_Exists in HW; [|intros ?; apply _]. apply Exists_exists in HW as (msgs&Hm&HnW).
      destruct (Hcov msgs Hm) as [Hk|]; [|done]. left. apply sent_key; [eapply operand_keys; [by right|done..]|].
      eapply intersection_users_complete; [done..|]. rewrite wildcard_key_filter by done. exact Hcov.
  - done.
  - done.
Qed.
End rewrites_complete.

(** The visited usersets have no derivation of height [n]. *)
Definition lu_visited_ok (n : nat) (visited : gset string) : Prop :=
  ∀ k, k ∈ visited → ∃ o r, k = ToObjectRelationString o r ∧ has_byte "#" o = false ∧ ¬ granted user n o r.

Lemma lu_visited_fresh n req :
  lu_request_ok req → lu_visited_ok n (visitedUsersetsMap req) → granted user n (lu_object req) (lu_Relation (lu_request req)) →
  ToObjectRelationString (lu_object req) (lu_Relation (lu_request req)) ∉ visitedUsersetsMap req.
Proof.
  intros Hreq Hv Hg Hin. destruct (Hv _ Hin) as (o&r&Heq&Ho&Hng). destruct (lr_object _ Hreq) as [_ Hh].
  unfold ToObjectRelationString in Heq. apply str_split_unique in Heq as [Heqo Heqr]; [|done..]. subst. by apply Hng.
Qed.

(** A run of [expand] that does not fail, in a live context, sends the user or its type's
    wildcard when the user has the relation. *)
Lemma expand_complete n : ∀ fuel p req,
  lu_request_ok req → lu_visited_ok n (visitedUsersetsMap req) →
  failed (expand typesys conds resolveNodeLimit fuel p CtxLive req) = false →
  granted user n (lu_object req) (lu_Relation (lu_request req)) →
  covered (sent (expand typesys conds resolveNodeLimit fuel p CtxLive req)).
Proof.
  induction n as [|n IH]; intros fuel p req Hreq Hv Hf Hg; [done|].
  match goal with |- covered ?msgs => destruct (decide (user ∈ has_keys msgs ∨ W ∈ has_keys msgs)) as [|Hn]; [done|exfalso] end.
  assert (∀ k, k ∈ visitedUsersetsMap req → ∃ o r, k = ToObjectRelationString o r ∧ has_byte "#" o = false ∧ ¬ granted user n o r) as Hv'.
  { intros k (o&r&?&?&Hng)%Hv. exists o, r. split_and!; [done..|]. intros ?. by apply Hng, granted_refuted_mono. }
  assert (¬ granted user n (lu_object req) (lu_Relation (lu_request req))) as Hng.
  { intros Hgn. apply Hn. by apply IH. }
  apply Hn. clear Hn. destruct fuel as [|fuel]; [done|]. rewrite expand_eq in Hf |- * by done.
  pose proof (lu_visited_fresh _ _ Hreq Hv Hg) as Hfresh.
  destruct (resolveNodeLimit <=? lu_depth req); [done|]. rewrite bool_decide_false in Hf |- * by exact Hfresh.
  pose proof (lr_relation _ Hreq) as Hr. destruct (granted_defined _ _ _ _ Huser Hr Hg) as [rel Hrel]. rewrite Hrel in Hf |- *.
  destruct Hg as [Hs|(rel'&Hrel'&Hg)]; [by rewrite lu_user_not_self in Hs|]. rewrite Hrel in Hrel'. injection Hrel' as <-.
  cbn [sent ending TrySendThroughChannel app] in *.
  eapply (expandRewrite_complete _ (entered req) rel n); [by intros; apply expand_sound| |by apply lu_entered|exact Hrel|done|by eapply Hpositive|exact Hf|exact Hg].
  intros p' req' Hok Hvis Hf' Hg'. apply IH; [done| |done|done]. rewrite Hvis. intros k Hk. simpl in Hk.
  apply elem_of_union in Hk as [->%elem_of_singleton|Hk]; [|by apply Hv'].
  exists (lu_object req), (lu_Relation (lu_request req)). split_and!; [done| |done]. by destruct (lr_object _ Hreq).
Qed.
End complete.

(** ** Termination *)

Definition returns (run : Run) : Prop := ∃ resp, ending run = Returned resp.

Lemma omap_head_None {A B} (g : A → option B) (l : list A) : (∀ x, x ∈ l → g x = None) → head (omap g l) = None.
Proof.
  intros Hall. induction l as [|x l IH]; [done|]. simpl. rewrite Hall by apply list_elem_of_here. apply IH. intros y Hy. apply Hall. by right.
Qed.

Lemma pool_returns p c tasks :
  (∀ task c', task ∈ tasks → returns (task c')) → ∃ err, pool_Wait (pool_runs p c tasks) = WaitErr err.
Proof.
  intros Hall. assert (∀ run, run ∈ (pool_runs p c tasks).1 → returns run) as Hr.
  { intros run (task&c'&Ht&->)%pool_runs_elem. auto. }
  unfold pool_Wait, first_crash, first_panic.
  rewrite !omap_head_None by (intros run [resp ->]%Hr; done). by eexists.
Qed.

Section rewrites_return.
Context (dispatch : position → CtxState → internalListUsersRequest → Run) (req : internalListUsersRequest) (rel : RelationDef).
Hypothesis Hdispatch : ∀ p c req', lu_request_ok req' → lu_depth req' = lu_depth req → returns (dispatch p c req').
Hypothesis Hreq : lu_request_ok req.
Abbreviation o := (lu_object req).
Abbreviation r := (lu_Relation (lu_request req)).
Hypothesis Hrel : GetRelation typesys (GetType o) r = Ret rel.

Lemma expandDirect_returns p c : returns (expandDirect typesys conds dispatch p c req).
Proof.
  unfold expandDirect. destruct (read_tuples_spec p c req r Hreq (lr_relation _ Hreq)) as (met&errs&->&Hmet&_).
  match goal with |- context [pool_runs p c ?tasks] => destruct (pool_returns p c tasks) as [err Herr] end.
  - intros task c' (task'&->&Ht)%list_elem_of_fmap. apply elem_of_dispatches in Ht as (i&req'&Hr'&->).
    apply list_elem_of_omap in Hr' as (tk&Htk&Heq). destruct (userset_request_ok _ _ _ _ _ Hreq (Hmet _ Htk) Heq) as (Hok&_).
    destruct (Hdispatch (i :: p) c' req' Hok) as [resp Hresp].
    + unfold userset_request in Heq. destruct (SplitObjectRelation (User tk)). case_bool_decide; [done|]. by injection Heq as <-.
    + exists resp. unfold recovered_run. by rewrite Hresp.
  - unfold returns. cbn [ending]. rewrite Herr. by eexists.
Qed.

Lemma expandTTU_returns p c ts cr :
  within rel (Userset_TupleToUserset ts cr) → returns (expandTTU typesys conds dispatch p c req ts cr).
Proof.
  intros Hw. destruct (leaf_ttu _ _ _ _ _ Hrel Hw) as (Hts&Hcr&Hin).
  unfold expandTTU. destruct (read_tuples_spec p c req ts Hreq Hts) as (met&errs&->&Hmet&_).
  match goal with |- context [pool_runs p c ?tasks] => destruct (pool_returns p c tasks) as [err Herr] end.
  - intros task c' Ht. apply elem_of_dispatches in Ht as (i&req'&Hr'&->). apply list_elem_of_fmap in Hr' as (tk&->&Htk).
    destruct (usable_ttu m typesys conds _ reqCtx Hmodel Husers _ _ _ _ _ _ Hrel Hin (Hmet _ Htk)) as (_&Hobj&_).
    apply Hdispatch; [by apply lu_rewritten|done].
  - unfold returns. cbn [ending]. rewrite Herr. by eexists.
Qed.

Lemma expandRewrite_returns rw : ∀ p c,
  within rel rw → has_nil rw = false → returns (expandRewrite typesys conds dispatch rw p c req).
Proof.
  induction rw as [|ob cr|ts cr|l IH|l IH|b s IHb IHs|] using Userset_nested_ind; intros p c Hw Hn; try rewrite Forall_forall in IH.
  - apply expandDirect_returns.
  - pose proof (leaf_computed _ _ _ _ _ Hrel Hw) as Hcr. destruct (lu_same_object req cr Hreq Hcr) as [Hok _]. by apply Hdispatch.
  - by apply expandTTU_returns.
  - cbn [expandRewrite]. unfold expandOperands, returns. cbn [ending].
    match goal with |- context [pool_runs p c ?tasks] => destruct (pool_returns p c tasks) as [err Herr] end; [|rewrite Herr; by eexists].
    intros task c' Ht. apply elem_of_operands in Ht as (child&i&Hc&->). apply IH; [done| |by eapply existsb_false_elem].
    eapply within_child; [by left|done..].
  - cbn [expandRewrite]. unfold expandOperands, returns. cbn [ending].
    match goal with |- context [pool_runs p c ?tasks] => destruct (pool_returns p c tasks) as [err Herr] end; [|rewrite Herr; by eexists].
    intros task c' Ht. apply elem_of_operands in Ht as (child&i&Hc&->). apply IH; [done| |by eapply existsb_false_elem].
    eapply within_child; [by right|done..].
  - simpl in Hn. apply orb_false_iff in Hn as [Hnb Hns].
    assert (within rel b ∧ within rel s) as [Hwb Hws] by (unfold within in *; simpl in Hw; set_solver).
    destruct (IHb (O :: p) c Hwb Hnb) as [rb Hb], (IHs (S O :: p) c Hws Hns) as [rs Hs].
    cbn [expandRewrite]. unfold expandExclusion. rewrite Hb, Hs. destruct (resp_hasCycle rs); by eexists.
  - done.
Qed.
End rewrites_return.

(** The expansion ends within its recursion bound, on every model, and never panics. *)
Lemma expand_returns fuel : ∀ p c req,
  lu_request_ok req → 0 ≤ lu_depth req → resolveNodeLimit < 2^32 → (Z.to_nat (resolveNodeLimit - lu_depth req) < fuel)%nat →
  returns (expand typesys conds resolveNodeLimit fuel p c req).
Proof.
  induction fuel as [|fuel IH]; intros p c req Hreq Hd Hl Hf; [lia|]. rewrite expand_eq by done.
  destruct (Z.leb_spec resolveNodeLimit (lu_depth req)); [by eexists|]. case_bool_decide; [by eexists|].
  destruct (GetRelation typesys _ _) as [rel|e|w] eqn:Hrel; [|by destruct e; eexists|by apply GetRelation_no_panic in Hrel].
  pose proof (NewAndValidate_valid m typesys Hmodel) as [Hmv _].
  destruct (expandRewrite_returns (expand typesys conds resolveNodeLimit fuel) (entered req) rel) with (rw := rel_Rewrite rel) (p := O :: p) (c := c)
    as [resp Hresp]; [|by apply lu_entered|exact Hrel|done|by eapply mv_complete|exists resp; exact Hresp].
  intros p' c' req' Hok Hdep. simpl in Hdep. rewrite Z.mod_small in Hdep by lia. apply IH; [done|lia|done|lia].
Qed.
End expansion.

(** ** Edges *)

Section edges.
Context `{!ModelGraph, !Cel, !MapRange, !ConditionCompiler}.
Context (m : AuthorizationModel) (typesys : TypeSystem) (conds : gmap string EvaluableCondition).
Context (stored : list Tuple) (reqCtx : option Struct) (f : UserTypeFilter) (T R : string) (relT : RelationDef).
Hypothesis Hmodel : NewAndValidate m = Ret typesys.
Hypothesis Hrefs : refs_named typesys.
Hypothesis Hnames : names_plain typesys.
Hypothesis Husers : ∀ t, t ∈ stored → IsValidUser (User (Key t)) = true.
Hypothesis Htype : uf_Type f ≠ "".
Hypothesis HT : GetRelation typesys T R = Ret relT.

(** Without an edge from the type of the filter no user of the type has the relation. *)
Lemma edge_needed user n : ∀ o r rel,
  filter_user f user → IsTypedWildcard user = false → object_ok o → GetRelation typesys (GetType o) r = Ret rel →
  pruned_reach typesys T R (GetType o) r → granted typesys conds stored reqCtx user n o r →
  GetPrunedRelationshipEdges typesys (DirectRelationReference T R) (DirectRelationReference (uf_Type f) "") ≠ Ret [].
Proof.
  induction n as [|n IH]; intros o r rel Hu Hw Ho Hrel Hreach; [done|].
  pose proof Hu as (Hv&_&Hty). assert (GetType user ≠ "") as Htyped by by rewrite Hty.
  intros [Hs|(rel'&Hrel'&Hg)] Hes.
  { rewrite (filter_user_not_self f Htype) in Hs; [done|done|]. by eapply GetRelation_nonempty. }
  rewrite Hrel in Hrel'. injection Hrel' as <-. destruct (granted_leaf _ _ _ _ _ _ _ _ _ _ false Hg) as (b&leaf&Hin&Hleaf).
  destruct (granted_leaf_edge m typesys conds stored reqCtx user T R Hmodel Hrefs Hnames Husers Hv Htyped n o r rel b leaf relT)
    as (u&Hbefore&Hedge); [done..|]. destruct Hbefore as [->|(o'&r'&rel'&->&Hg'&Ho'&Hreach'&Hrel')].
  - destruct (sourceUserRef_cases user Hv Htyped) as [(o'&r'&_&_&_&_&_&Hor&_)|[(ty&_&_&_&_&Hw'&_)|(ty&id&Hs&_&Hty'&_)]].
    + by rewrite (filter_user_plain f) in Hor.
    + by rewrite Hw in Hw'.
    + rewrite Hs in Hedge. simpl in Hedge. rewrite Hty', Hty in Hedge. destruct (Hedge _ Hes) as (e&He&_). by apply not_elem_of_nil in He.
  - by eapply (IH o' r' rel').
Qed.

End edges.

(** ** The query *)

Lemma collect_users_spec maxResults msgs : ∀ unique M stopped,
  collect_users maxResults unique msgs = (M, stopped) →
  (∀ k fu, M !! k = Some fu → unique !! k = Some fu ∨ (fu ∈ msgs ∧ fu_key fu = k)) ∧
  dom unique ⊆ dom M ∧ (stopped = false → ∀ fu, fu ∈ msgs → fu_key fu ∈ dom M) ∧
  (0 < maxResults → Z.of_nat (size unique) < maxResults → Z.of_nat (size M) ≤ maxResults) ∧
  (stopped = true → 0 < maxResults ∧ maxResults ≤ Z.of_nat (size M)).
Proof.
  induction msgs as [|fu msgs IH]; intros unique M stopped; simpl.
  { intros [= <- <-]. split_and!; [auto|done|by intros _ ? ?%not_elem_of_nil|lia|done]. }
  set (unique' := <[fu_key fu := fu]> unique).
  assert (∀ k fu', unique' !! k = Some fu' → unique !! k = Some fu' ∨ (fu' ∈ fu :: msgs ∧ fu_key fu' = k)) as Hins.
  { intros k fu' [[<- <-]|[? ?]]%lookup_insert_Some; [right; split; [left|done]|by left]. }
  assert (dom unique ⊆ dom unique' ∧ fu_key fu ∈ dom unique') as [Hsub Hfu] by (subst unique'; rewrite dom_insert; set_solver).
  assert (size unique' ≤ S (size unique))%nat as Hsize.
  { subst unique'. rewrite map_size_insert. destruct (unique !! fu_key fu); simpl; lia. }
  destruct (Z.ltb_spec 0 maxResults), (Z.leb_spec maxResults (Z.of_nat (size unique'))); simpl.
  1:{ intros [= <- <-]. split_and!; [done|done|done|lia|lia]. }
  all: intros (H1&H2&H3&H4&H5)%IH.
  all: split_and!; [|set_solver| |intros; apply H4; lia|done].
  all: try (intros k fu' [Hk|[? ?]]%H1; [by apply Hins|right; split; [by right|done]]).
  all: intros Hst fu' [->|Hin]%elem_of_cons; [set_solver|by apply H3].
Qed.

(** What the users returned by a query are: distinct users that the filter asks for, at
    most the maximum, each with the relation; all of them, or the wildcard, when neither the
    deadline nor the maximum cuts the query off. *)
Definition listed `{!ModelGraph, !Cel} (typesys : TypeSystem) (conds : gmap string EvaluableCondition) (tuples : list Tuple)
    (req : ListUsersRequest) (f : UserTypeFilter) (maxResults : Z) (race : QueryRace) (users : list UserProto) : Prop :=
  let has_relation u := ∃ n, granted typesys conds tuples (lu_Context req) u n (ObjectKey (lu_Object req)) (lu_Relation req) in
  NoDup users ∧ (0 < maxResults → Z.of_nat (length users) ≤ maxResults) ∧
  (∀ x, x ∈ users → ∃ u, x = StringToUserProto u ∧ filter_user f u ∧ has_relation u) ∧
  (deadline_passes race = false → ¬ (0 < maxResults ∧ Z.of_nat (length users) = maxResults) →
   ∀ u, filter_user f u → has_relation u → StringToUserProto u ∈ users ∨ User_Wildcard (uf_Type f) ∈ users).

Section query.
Context `{!ModelGraph, !Cel, !MapRange, !ConditionCompiler, !ListUsersSchedule}.
Context (m : AuthorizationModel) (typesys : TypeSystem) (conds : gmap string EvaluableCondition) (resolveNodeLimit : Z).
Context `{!RelationshipTupleReader} (store : string) `{!RelationshipTupleReaderSpec store}.

(** What a query for the objects of a type takes for granted. *)
Record list_users_setting (req : ListUsersRequest) (f : UserTypeFilter) : Prop := {
  lus_model : NewAndValidate m = Ret typesys;
  lus_refs : refs_named typesys;
  lus_names : names_plain typesys;
  lus_conds : conds_compiled conds;
  lus_users t : t ∈ stored store → IsValidUser (User (Key t)) = true;
  lus_limit : resolveNodeLimit < 2^32;
  lus_store : lu_StoreId req = store;
  lus_filters : lu_UserFilters req = [f];
  lus_type : uf_Type f ≠ "";
  lus_plain : uf_Relation f = "";
  lus_object : object_ok (ObjectKey (lu_Object req)) ∧ has_byte ":" (lu_Object req).1 = false;
  lus_target : ∃ rel, GetRelation typesys (lu_Object req).1 (lu_Relation req) = Ret rel;
}.

Section setting.
Context (req : ListUsersRequest) (f : UserTypeFilter).
Hypothesis Hset : list_users_setting req f.
Hypothesis Hpositive : positive_model typesys.

Abbreviation o := (ObjectKey (lu_Object req)).
Abbreviation r := (lu_Relation req).
Abbreviation has_relation u := (∃ n, granted typesys conds (stored store) (lu_Context req) u n o r).

Lemma initial_ok : lu_request_ok store (lu_Context req) f (fromListUsersRequest req).
Proof.
  destruct Hset. destruct lus_object0 as [Ho Hc]. destruct lus_target0 as [rel Hrel]. split; try done.
  - unfold lu_object, ObjectKey. simpl. rewrite SplitObject_build by done. by destruct (lu_Object req).
  - by eapply GetRelation_nonempty.
Qed.

Lemma object_type : GetType o = (lu_Object req).1.
Proof. destruct Hset. destruct lus_object0 as [_ Hc]. unfold ObjectKey. by rewrite GetType_build. Qed.

(** Without possible edges there is nobody to list. *)
Lemma no_edges_no_users u :
  doesHavePossibleEdges typesys req f = Ret false → filter_user f u → ¬ has_relation u.
Proof.
  intros Hedges Hu [n Hn]. destruct Hset as [Hmodel Hrefs Hnames Hconds Husers _ _ _ Htype Hplain [Ho Hc] [rel Hrel]].
  unfold doesHavePossibleEdges in Hedges. rewrite Hplain in Hedges.
  assert (∀ u', filter_user f u' → IsTypedWildcard u' = false → ¬ granted typesys conds (stored store) (lu_Context req) u' n o r) as Hnone.
  { intros u' Hu' Hw' Hg.
    assert (GetPrunedRelationshipEdges typesys (DirectRelationReference (lu_Object req).1 r) (DirectRelationReference (uf_Type f) "") = Ret []) as Hes.
    { destruct (GetPrunedRelationshipEdges _ _ _) as [[|e l]| |]; done. }
    revert Hes. eapply (edge_needed m typesys conds (stored store) (lu_Context req) f _ _ rel); try done; rewrite ?object_type; [exact Hrel|constructor]. }
  destruct (IsTypedWildcard u) eqn:Hw; [|by apply (Hnone u)].
  assert (u = TypedPublicWildcard (uf_Type f)) as ->.
  { destruct (filter_user_string f Htype u Hu) as (_&(id&->&Hs)&_). unfold IsTypedWildcard in Hw. rewrite Hs in Hw. by bool_norm; subst. }
  destruct (wildcard_user f Htype Hu) as [Hx Hxw]. apply (Hnone _ Hx Hxw).
  eapply wildcard_granted; [done..| |done]. by eapply GetRelation_nonempty.
Qed.

Abbreviation run race := (expand typesys conds resolveNodeLimit (expand_fuel resolveNodeLimit) []
  (if deadline_passes race then CtxDone ContextDeadlineExceeded else CtxLive) (fromListUsersRequest req)).

Lemma wildcard_proto :
  filter_user f (TypedPublicWildcard (uf_Type f)) → StringToUserProto (TypedPublicWildcard (uf_Type f)) = User_Wildcard (uf_Type f).
Proof.
  intros HW. destruct (filter_user_string f (lus_type _ _ Hset) _ HW) as (Hs&(id&Heq&Hso)&_).
  assert (id = Wildcard) as ->.
  { pose proof (GetType_no_colon (TypedPublicWildcard (uf_Type f))) as Hcol. destruct HW as (_&_&Hty). rewrite Hty in Hcol.
    unfold TypedPublicWildcard in Hso. rewrite SplitObject_build in Hso by done. by injection Hso as <-. }
  unfold StringToUserProto. by rewrite Hs, Hso.
Qed.

(** The users collected from a run. *)
Lemma collected_listed maxResults race M stopped :
  collect_users maxResults ∅ (sent (run race)) = (M, stopped) →
  (deadline_passes race = false → stopped = false → failed (run race) = false) →
  listed typesys conds (stored store) req f maxResults race (result_users M).
Proof.
  intros (Hc1&_&Hc3&Hc4&Hc5)%collect_users_spec Hfail.
  destruct Hset as [Hmodel Hrefs Hnames Hconds Husers _ _ _ Htype Hplain _ _].
  pose proof (expand_sound m typesys conds resolveNodeLimit store (lu_Context req) f Hmodel Hconds Husers Htype Hplain Hpositive
    (expand_fuel resolveNodeLimit) [] (if deadline_passes race then CtxDone ContextDeadlineExceeded else CtxLive) _ initial_ok) as Hsound.
  assert (∀ k fu, M !! k = Some fu → is_has fu = true ∧ filter_user f k ∧ has_relation k ∧ fu ∈ sent (run race)) as HM.
  { intros k fu [Hk|[Hfu <-]]%Hc1; [by rewrite lookup_empty in Hk|]. by destruct (Hsound fu Hfu) as (?&?&?). }
  assert (result_users M = (λ e : string * foundUser, StringToUserProto e.1) <$> range_map M) as Hres.
  { unfold result_users. assert (∀ e, e ∈ range_map M → is_has e.2 = true) as Hall.
    { intros [k fu] Hin%elem_of_range_map. by destruct (HM k fu Hin). }
    induction (range_map M) as [|[k fu] l IH]; [done|]. cbn [fmap list_fmap concat].
    pose proof (Hall _ (list_elem_of_here _ _)) as Hh. unfold is_has in Hh. cbn [snd] in *. destruct (relationshipStatus fu); [|done].
    cbn [app]. f_equal. apply IH. intros e He. apply Hall. by right. }
  assert (∀ k, k ∈ dom M ↔ ∃ fu, (k, fu) ∈ range_map M) as Hdom.
  { intros k. rewrite elem_of_dom. split; [intros [fu ?]; exists fu|intros [fu ?]; exists fu]; by apply elem_of_range_map. }
  assert (length (result_users M) = size M) as Hlen.
  { rewrite Hres, length_fmap, range_map_perm. apply length_map_to_list. }
  split_and!.
  - rewrite Hres. apply NoDup_fmap_2_strong.
    + intros [k fu] [k' fu'] Hk%elem_of_range_map Hk'%elem_of_range_map Heq. simpl in Heq.
      destruct (HM _ _ Hk) as (_&Hu&_). destruct (HM _ _ Hk') as (_&Hu'&_).
      destruct (filter_user_string f Htype _ Hu) as (_&_&Hp). destruct (filter_user_string f Htype _ Hu') as (_&_&Hp').
      unfold printable in *. assert (k = k') as -> by congruence. rewrite Hk in Hk'. by injection Hk' as ->.
    + rewrite range_map_perm. apply NoDup_map_to_list.
  - intros Hmax. rewrite Hlen. apply Hc4; [done|]. rewrite map_size_empty. lia.
  - intros x Hx. rewrite Hres in Hx. apply list_elem_of_fmap in Hx as ([k fu]&->&Hk%elem_of_range_map).
    destruct (HM _ _ Hk) as (_&Hu&Hg&_). by exists k.
  - intros Hdl Hfull u Hu [n Hn]. destruct stopped; [exfalso; apply Hfull|].
    { destruct (Hc5 eq_refl) as [Hpos Hge]. split; [done|]. rewrite Hlen. pose proof (Hc4 Hpos). rewrite map_size_empty in *. lia. }
    specialize (Hfail Hdl eq_refl). rewrite Hdl in *.
    assert (covered f u (sent (expand typesys conds resolveNodeLimit (expand_fuel resolveNodeLimit) [] CtxLive (fromListUsersRequest req)))) as Hcov.
    { eapply (expand_complete m) with (n := n); try done; exact initial_ok. }
    assert (∀ k, k ∈ has_keys (sent (expand typesys conds resolveNodeLimit (expand_fuel resolveNodeLimit) [] CtxLive (fromListUsersRequest req))) →
      StringToUserProto k ∈ result_users M) as Hin.
    { intros k (fu&Hfu&_&<-)%elem_of_has_keys. apply Hc3, Hdom in Hfu as [fu' Hfu']; [|done]. rewrite Hres. apply list_elem_of_fmap. by exists (fu_key fu, fu'). }
    destruct Hcov as [Hk|Hk]; [left; by apply Hin|right]. destruct (sound_has_keys _ _ _ _ Hsound Hk) as [HW _].
    rewrite <-(wildcard_proto HW). by apply Hin.
Qed.

(** A run in a live context whose error is nil did not fail. *)
Lemma run_returns race : ∃ resp, ending (run race) = Returned resp ∧ (deadline_passes race = false → is_deadline (resp_err resp) = false) ∧
  (resp_err resp = [] → failed (run race) = false).
Proof.
  destruct Hset. destruct (expand_returns m typesys conds resolveNodeLimit store (lu_Context req) f) with
    (fuel := expand_fuel resolveNodeLimit) (p := @nil nat) (c := if deadline_passes race then CtxDone ContextDeadlineExceeded else CtxLive)
    (req := fromListUsersRequest req) as [resp Hresp]; try done; [exact initial_ok|unfold expand_fuel; simpl; lia|].
  exists resp. split_and!; [done| |].
  - intros Hd. rewrite Hd in Hresp.
    pose proof (expand_quiet typesys conds resolveNodeLimit (expand_fuel resolveNodeLimit) [] CtxLive (fromListUsersRequest req)) as Hq.
    unfold quiet, run_err in Hq. rewrite Hresp in Hq. by apply Hq.
  - intros He. unfold failed. by rewrite Hresp, He.
Qed.

Lemma ListUsers_exact_spec maxResults race :
  match ListUsers typesys conds resolveNodeLimit maxResults race req with
  | Ret users => listed typesys conds (stored store) req f maxResults race users
  | Throw err => err ≠ []
  | Panic w => doesHavePossibleEdges typesys req f = Panic w
  end.
Proof.
  unfold ListUsers. rewrite (lus_filters _ _ Hset).
  set (possible := if negb _ then _ else _ : outcome LuError bool).
  assert (match possible with
          | Ret true => True
          | Ret false => doesHavePossibleEdges typesys req f = Ret false
          | Throw err => err ≠ []
          | Panic w => doesHavePossibleEdges typesys req f = Panic w
          end) as Hp.
  { subst possible. destruct (negb _); [|done]. by destruct (doesHavePossibleEdges typesys req f) as [[]| |]. }
  destruct possible as [[]| |]; cbn [outcome_bind negb]; cbv zeta; [|..|done|done].
  2:{ split_and!; [constructor|simpl; lia|by intros ? ?%not_elem_of_nil|]. intros _ _ u Hu Hg. by destruct (no_edges_no_users u Hp Hu). }
  destruct (run_returns race) as (resp&Hresp&Hquiet&Hok). rewrite Hresp.
  destruct (collect_users maxResults ∅ (sent (run race))) as [M stopped] eqn:Hcol.
  pose proof (collected_listed maxResults race M stopped Hcol) as Hlist.
  destruct (stopped && negb (error_arrived race)) eqn:Hst.
  { apply Hlist. intros _ ->. done. }
  destruct (resp_err resp) as [|e err] eqn:Herr; [apply Hlist; auto|].
  destruct (_ || _) eqn:Hdl; [|done]. apply Hlist. intros Hd _. rewrite Hd in Hdl. by rewrite (Hquiet Hd) in Hdl.
Qed.
End setting.

(** C8: ListUsers is exact on models without exclusion.  For every store, every such model,
    every scheduling of its goroutines, with any errors, cancellations and deadline: the
    users returned are distinct objects or the wildcard of the type asked for, at most the
    maximum, and each has the relation; when the deadline does not pass and the maximum is
    not reached, every user of the type that has the relation is returned, or the wildcard
    of the type is.  Otherwise the query fails with an error, or panics where the search for
    possible edges does, on an intersection without operands. *)
Theorem ListUsers_exact (req : ListUsersRequest) (f : UserTypeFilter) (maxResults : Z) (race : QueryRace) :
  list_users_setting req f → positive_model typesys →
  match ListUsers typesys conds resolveNodeLimit maxResults race req with
  | Ret users => listed typesys conds (stored store) req f maxResults race users
  | Throw err => err ≠ []
  | Panic w => doesHavePossibleEdges typesys req f = Panic w
  end.
Proof. intros Hset Hpos. by apply ListUsers_exact_spec. Qed.
End query.
