(* ===== verification/ServerErrors.v ===== *)
(** * Errors of the API: [pkg/server/errors/errors.go]

    The status errors that the commands return to clients, and the two functions that
    translate internal errors into them.  A status error is its code with the names its
    message is built from; the text of messages is left out. *)

From S2P Require Import Prelude GoStd Tuple Iterators Model Memory Typesystem Condition Validation.

Inductive ServerError :=
| SE_AuthorizationModelResolutionTooComplex
| SE_InvalidWriteInput
| SE_InvalidContinuationToken
| SE_InvalidStartTime
| SE_InvalidExpandInput
| SE_UnsupportedUserSet
| SE_StoreIDNotFound
| SE_MismatchObjectType
| SE_ValidationError
| SE_InvalidTuple
| SE_TypeNotFound (objectType : string)
| SE_RelationNotFound (relation objectType : string)
| SE_ExceededEntityLimit (entity : string) (limit : Z)
| SE_DuplicateTupleInWrite (object relation user : string)
| SE_WriteFailedDueToInvalidInput
| SE_InvalidAuthorizationModelInput
| SE_AuthorizationModelNotFound (modelID : string)
| SE_LatestAuthorizationModelNotFound (store : string)
| SE_TransactionThrottled
| SE_Aborted
| SE_RequestCancelled
| SE_RequestDeadlineExceeded
| SE_Internal.

(** [HandleError] on the errors of a datastore: what it does not know is internal. *)
Definition HandleError (err : StorageErr) : ServerError :=
  match err with
  | ErrTransactionThrottled => SE_TransactionThrottled
  | ErrInvalidStartTime => SE_InvalidStartTime
  | ErrInvalidContinuationToken => SE_InvalidContinuationToken
  | _ => SE_Internal
  end.

(** [HandleTupleValidateError]. *)
Definition HandleTupleValidateError (err : ValErr) : ServerError :=
  match err with
  | InvalidTupleError _ _ => SE_InvalidTuple
  | TypeNotFoundError typeName => SE_TypeNotFound typeName
  | RelationNotFoundError typeName relation => SE_RelationNotFound relation typeName
  | InvalidConditionalTupleError _ _ => SE_ValidationError
  | _ => SE_Internal
  end.
