(* ===== verification/CheckCommand.v ===== *)
(** * The Check command: [pkg/server/commands/check_command.go], [commands/errors.go],
    [internal/graph/resolve_check_request.go]

    What the API does with a check: validation of the tuple and of the contextual tuples,
    the request with its cache key, the reader over contextual and stored tuples, the call
    of the resolver, and the translation of errors.  The resolver is a parameter of the
    command; [local_resolver] is the local checker with the fast paths of the program, over
    the contextual tuples and the datastore. *)

From S2P Require Import Prelude GoStd Tuple Iterators Model Memory MemorySpec Typesystem Entrypoints TypesystemSpec.
From S2P Require Import Condition Validation ValidationSpec Check CheckSpec CheckSemantics CheckExact CheckMemory CombinedReader.
From S2P Require Import ReverseExpand ReverseExpandMemory FastPathStreams FastPathStreamsSpec FastPath FastPathSpec SortedCombined FastPathExact.
From S2P Require Import WeightedGraph FastPathMemory RecursivePath RecursivePathSpec RecursivePathExact RecursivePathMemory.
From S2P Require Import CacheKeys ServerErrors.

Local Open Scope Z_scope.
Local Open Scope go_scope.

(** ** Requests *)

(** The parts of a [ResolveCheckRequest] that its sub-problems share. *)
Record RequestInvariant := mkRequestInvariant {
  AuthorizationModelID : string;
  ContextualTuples : list TupleKey;
  HigherConsistency : bool;
  LastCacheInvalidationTime : Z;
  invariantCacheKey : string;
}.

Record ResolveCheckRequestParams := mkResolveCheckRequestParams {
  rp_StoreID : string;
  rp_TupleKey : TupleKey;
  rp_ContextualTuples : list TupleKey;
  rp_Context : option Struct;
  rp_HigherConsistency : bool;
  rp_LastCacheInvalidationTime : Z;
  rp_AuthorizationModelID : string;
}.

Inductive CheckCmdErr :=
| InvalidRelationError (cause : ValErr)
| CmdInvalidTupleError (cause : ValErr)
| MissingAuthorizationModelID
| MissingStoreID
| CmdKeyError (e : KeyErr)
| CmdResolveError (e : CheckErr).

Definition NewResolveCheckRequest `{!SortTupleKeys} (params : ResolveCheckRequestParams)
  : outcome CheckCmdErr (ResolveCheckRequest * RequestInvariant) :=
  if rp_AuthorizationModelID params =s "" then Throw MissingAuthorizationModelID
  else if rp_StoreID params =s "" then Throw MissingStoreID
  else
    match WriteInvariantCheckCacheKey (mkCheckCacheKeyParams (rp_StoreID params) (rp_AuthorizationModelID params)
            (rp_TupleKey params) (rp_ContextualTuples params) (rp_Context params)) with
    | Throw e => Throw (CmdKeyError e)
    | Panic w => Panic w
    | Ret key =>
        Ret (initial_request (rp_StoreID params) (rp_TupleKey params) (rp_Context params),
             mkRequestInvariant (rp_AuthorizationModelID params) (rp_ContextualTuples params) (rp_HigherConsistency params)
               (rp_LastCacheInvalidationTime params) key)
    end.

(** ** The command *)

Record CheckCommandParams := mkCheckCommandParams {
  cp_StoreID : string;
  cp_TupleKey : TupleKeyWithoutCondition;
  cp_ContextualTuples : list TupleKey;
  cp_Context : option Struct;
  cp_HigherConsistency : bool;
}.

Section command.
Context `{!ModelGraph, !Cel, !SortTupleKeys} (typesys : TypeSystem).

(** The loop over the contextual tuples. *)
Fixpoint validate_contextual (tuples : list TupleKey) : outcome CheckCmdErr unit :=
  match tuples with
  | [] => Ret tt
  | ctxTuple :: rest =>
      match ValidateTupleForWrite typesys ctxTuple with
      | Throw e => Throw (CmdInvalidTupleError e)
      | Panic w => Panic w
      | Ret _ => validate_contextual rest
      end
  end.

Definition validateCheckRequest (tupleKey : TupleKeyWithoutCondition) (contextualTuples : list TupleKey)
  : outcome CheckCmdErr unit :=
  match ValidateUserObjectRelation typesys (TupleKeyWithoutConditionToTupleKey tupleKey) with
  | Throw e => Throw (InvalidRelationError e)
  | Panic w => Panic w
  | Ret _ => validate_contextual contextualTuples
  end.

(** [CheckQuery.Execute]; [resolver] resolves checks over a reader of the contextual tuples
    and the datastore's, [invalidationTime] is the cache controller's. *)
Definition CheckQuery_Execute (invalidationTime : string → Z)
    (resolver : list TupleKey → RequestInvariant → ResolveCheckRequest → checkOutcome) (params : CheckCommandParams)
  : outcome CheckCmdErr ResolveCheckResponse :=
  let! _ := validateCheckRequest (cp_TupleKey params) (cp_ContextualTuples params) in
  let cacheInvalidationTime := if cp_HigherConsistency params then 0 else invalidationTime (cp_StoreID params) in
  let! req := NewResolveCheckRequest
    (mkResolveCheckRequestParams (cp_StoreID params) (TupleKeyWithoutConditionToTupleKey (cp_TupleKey params))
       (cp_ContextualTuples params) (cp_Context params) (cp_HigherConsistency params) cacheInvalidationTime (modelID typesys)) in
  match resolver (cp_ContextualTuples params) req.2 req.1 with
  | Ret resp => Ret resp
  | Throw e => Throw (CmdResolveError e)
  | Panic w => Panic w
  end.
End command.

(** ** Errors *)

(** [errors.Is(err, target)] for the errors that [Is] unwraps. *)
Fixpoint err_Is (target : CheckErr → bool) (e : CheckErr) : bool :=
  target e || match e with ErrJoin a b => err_Is target a || err_Is target b | _ => false end.

Definition is_depth_exceeded (e : CheckErr) : bool := match e with ErrResolutionDepthExceeded => true | _ => false end.

(** [condition.ErrEvaluationFailed], as the readers pass it on. *)
Definition is_evaluation_failed (e : CheckErr) : bool :=
  match e with ErrCheckIterator (ErrOther s) => s =s "condition" | _ => false end.

Definition CheckCommandErrorToServerError (err : CheckCmdErr) : ServerError :=
  match err with
  | InvalidRelationError _ => SE_ValidationError
  | CmdInvalidTupleError e => HandleTupleValidateError (InvalidTupleError e (NewTupleKey "" "" ""))
  | CmdResolveError e =>
      if err_Is is_depth_exceeded e then SE_AuthorizationModelResolutionTooComplex
      else if err_Is is_evaluation_failed e then SE_ValidationError
      else SE_Internal
  | _ => SE_Internal
  end.

(** ** The local checker as it is served *)

(** What its fast paths run with, besides their selection: the sorted reads of the
    datastore, and the orders of arrival for the reader of each request. *)
Class FastPathRuntime `{!RelationshipTupleReader} := {
  sortedRead : string → ReadStartingWithUserFilter → outcome StorageErr reader_iter;
  #[global] fr_fast c :: FastScheduler (@string_iter (sorted_StartingReader c sortedRead));
  #[global] fr_recursive :: RecursiveScheduler;
}.

Section served.
Context `{!ModelGraph, !Cel, !Scheduler, !SortSlice, !RelationshipTupleReader, !FastPathRuntime}.
Context (typesys : TypeSystem) (conds : gmap string EvaluableCondition) (sel : FastPathSelection) (maxResolutionDepth : Z).

(** The fast paths over the contextual tuples and the datastore. *)
Definition served_paths (contextual : list TupleKey) : FastPaths :=
  let c := NewCombinedTupleReader contextual in
  @all_paths _ _ (combined_Reader c) (sorted_StartingReader c sortedRead) (fr_fast c) fr_recursive typesys conds maxResolutionDepth sel.

(** The local checker over the contextual tuples and the datastore. *)
Definition local_resolver (contextual : list TupleKey) (_ : RequestInvariant) (req : ResolveCheckRequest) : checkOutcome :=
  @ResolveCheck _ _ _ (combined_Reader (NewCombinedTupleReader contextual)) typesys conds (served_paths contextual) maxResolutionDepth
    (check_fuel typesys maxResolutionDepth req) req.
End served.

(** ** What the command promises *)

Section spec.
Context `{!ModelGraph, !Cel, !MapRange, !ConditionCompiler, !Scheduler, !GraphLaws, !SortSlice, !SortTupleKeys}.
Context `{!RelationshipTupleReader} (store : string) `{!RelationshipTupleReaderSpec store, !FastPathRuntime}.
Context (m : AuthorizationModel) (typesys : TypeSystem) (conds : gmap string EvaluableCondition) (sel : FastPathSelection).
Context (maxResolutionDepth : Z).

Abbreviation local_resolver := (local_resolver typesys conds sel maxResolutionDepth).

(** A server with a validated model over a store whose tuples have valid users. *)
Record server_setting : Prop := {
  sv_model : NewAndValidate m = Ret typesys;
  sv_modelID : modelID typesys ≠ "";
  sv_refs : refs_named typesys;
  sv_conds : conds_compiled conds;
  sv_sorted : sorted_reads store sortedRead;
  sv_stored : ∀ t, t ∈ stored store → IsValidUser (User (Key t)) = true;
  sv_store : store ≠ "";
  sv_depth : 0 ≤ maxResolutionDepth < 2^32;
}.

(** The tuples that a request sees. *)
Definition request_tuples (contextual : list TupleKey) : list Tuple :=
  contextual_tuples (NewCombinedTupleReader contextual) ++ stored store.

(** No contextual tuple twice, or already stored. *)
Definition contextual_fresh (contextual : list TupleKey) : Prop :=
  NoDup (key_of <$> contextual) ∧ ∀ tk, tk ∈ contextual → key_of tk ∉ ((λ t, key_of (Key t)) <$> stored store).

Lemma contextual_keys contextual :
  (λ t, key_of (Key t)) <$> contextual_tuples (NewCombinedTupleReader contextual) ≡ₚ key_of <$> contextual.
Proof.
  unfold contextual_tuples, NewCombinedTupleReader. simpl. rewrite sort_slice_perm, <-!list_fmap_compose.
  done.
Qed.

Lemma contextual_from contextual t :
  t ∈ contextual_tuples (NewCombinedTupleReader contextual) → ∃ tk, tk ∈ contextual ∧ key_of (Key t) = key_of tk.
Proof.
  intros Ht. assert (key_of (Key t) ∈ key_of <$> contextual) as (tk&?&?)%list_elem_of_fmap; [|by exists tk].
  rewrite <-contextual_keys. by apply (list_elem_of_fmap_2 (λ t, key_of (Key t))).
Qed.

Lemma validate_contextual_Ret contextual tk :
  validate_contextual typesys contextual = Ret tt → tk ∈ contextual → ValidateTupleForWrite typesys tk = Ret tt.
Proof.
  induction contextual as [|x l IH]; simpl; [by intros _ ?%not_elem_of_nil|].
  destruct (ValidateTupleForWrite typesys x) as [[]| |] eqn:E; [|done..]. intros Hv [->|?]%elem_of_cons; [done|by apply IH].
Qed.

Lemma contextual_ok_new contextual :
  NewAndValidate m = Ret typesys → validate_contextual typesys contextual = Ret tt → contextual_fresh contextual →
  contextual_ok (NewCombinedTupleReader contextual) (stored store).
Proof.
  intros Hm Hv [Hn Hf]. pose proof (NewAndValidate_valid m typesys Hm) as [Hmv _]. split.
  - intros t (tk&Htk&Hkey)%contextual_from. pose proof (validate_contextual_Ret _ _ Hv Htk) as Hw.
    unfold ValidateTupleForWrite, wrap_invalid, ValidateUserObjectRelation in Hw.
    destruct (ValidateUser typesys (User tk)) as [[]| |] eqn:Hu; simpl in Hw; [|done..].
    apply ValidateUser_Ret in Hu as [Hx1 Hx2]. injection Hkey as _ _ ->. split; [done|]. apply Hx2, Hmv.
  - intros t t' Ht Ht' Heq. rewrite <-contextual_keys in Hn. by apply (NoDup_fmap_elem (λ t, key_of (Key t)) _ t t' Hn).
  - intros t t' (tk&Htk&Hkey)%contextual_from Ht' Heq. apply (Hf tk Htk). rewrite <-Hkey, Heq.
    by apply (list_elem_of_fmap_2 (λ t, key_of (Key t))).
Qed.

Lemma validateCheckRequest_Ret tk contextual :
  validateCheckRequest typesys tk contextual = Ret tt →
  ValidateUserObjectRelation typesys (TupleKeyWithoutConditionToTupleKey tk) = Ret tt ∧
  validate_contextual typesys contextual = Ret tt.
Proof. unfold validateCheckRequest. by destruct (ValidateUserObjectRelation _ _) as [[]| |]. Qed.

(** The sorted reads over the contextual tuples and the datastore. *)
Lemma contextual_sorted contextual :
  StronglySorted (λ a b, String.ltb (Object b) (Object a) = false)
    (contextualTuplesOrderedByObjectID (NewCombinedTupleReader contextual)).
Proof.
  unfold NewCombinedTupleReader. cbn [contextualTuplesOrderedByObjectID].
  eapply sorted_weaken; [|apply sort_slice_sorted, (str_key_StrictWeak Object)]. by intros a b.
Qed.

Lemma contextual_nodup contextual :
  contextual_fresh contextual → NoDup (contextualTuplesOrderedByObjectID (NewCombinedTupleReader contextual)).
Proof.
  intros [Hn _]. unfold NewCombinedTupleReader. cbn [contextualTuplesOrderedByObjectID]. rewrite sort_slice_perm.
  apply (NoDup_fmap_1 key_of). by rewrite <-list_fmap_compose.
Qed.

(** What validation establishes about the request. *)
Lemma validated_request tk :
  server_setting → ValidateUserObjectRelation typesys tk = Ret tt →
  IsValidUser (User tk) = true ∧ GetType (User tk) ≠ "" ∧ object_ok (Object tk).
Proof.
  intros Hs Hv. pose proof (NewAndValidate_valid m typesys (sv_model Hs)) as [Hmv _].
  unfold ValidateUserObjectRelation in Hv. destruct (ValidateUser typesys (User tk)) as [[]| |] eqn:Hu; simpl in Hv; [|done..].
  apply ValidateUser_Ret in Hu as [Hx1 Hx2]. split; [done|]. split; [apply Hx2, Hmv|].
  unfold ValidateObject in Hv. destruct (IsValidObject (Object tk)) eqn:Ho; [|done]. by apply valid_object_facts.
Qed.

(** The answer to a request that was resolved. *)
Definition resolved (contextual : list TupleKey) (context : option Struct) (tk : TupleKey) (o : checkOutcome) : Prop :=
  match o with
  | Ret resp => Allowed resp = true ↔
      ∃ n, granted typesys conds (request_tuples contextual) context (User tk) n (Object tk) (Relation tk)
  | Throw e => fuel_free e
  | Panic _ => False
  end.

Lemma local_resolver_exact contextual context tk inv :
  server_setting → positive_model typesys → validate_contextual typesys contextual = Ret tt → contextual_fresh contextual →
  ValidateUserObjectRelation typesys tk = Ret tt → paths_ready m typesys conds (request_tuples contextual) context (User tk) sel →
  resolved contextual context tk (local_resolver contextual inv (initial_request store tk context)).
Proof.
  intros Hs Hpos Hv Hf Htk Hready. destruct (validated_request tk Hs Htk) as (Hu&Hty&Ho).
  pose proof (contextual_ok_new contextual (sv_model Hs) Hv Hf) as Hok.
  pose proof (sorted_SortedReaderSpec store _ _ (sv_sorted Hs) Hok (contextual_nodup _ Hf) (contextual_sorted contextual)) as Hsr.
  apply (@ResolveCheck_exact_spec _ _ _ _ _ _ (combined_Reader (NewCombinedTupleReader contextual)) store
    (combined_ReaderSpec store _ Hok) m typesys conds (served_paths typesys conds sel maxResolutionDepth contextual) (User tk) context
    maxResolutionDepth _ (initial_request store tk context)).
  - destruct Hs. split; try done.
    { exact (@paths_ready_positive _ _ _ _ m typesys conds (combined_Reader (NewCombinedTupleReader contextual)) store
        (combined_ReaderSpec store _ Hok) (sorted_StartingReader (NewCombinedTupleReader contextual) sortedRead) Hsr (fr_fast _) fr_recursive context (User tk) sel maxResolutionDepth
        sv_model0 sv_conds0 Hready). } intros t [Ht|Ht]%elem_of_app; [|by auto]. by destruct (ct_users _ _ Hok t Ht).
  - done.
  - done.
  - done.
  - split; simpl; [|by apply Hs]. pose proof (sv_depth Hs). lia.
  - done.
Qed.

(** A resolver that answers the request of the command, once it is validated. *)
Definition resolver_exact (resolver : list TupleKey → RequestInvariant → ResolveCheckRequest → checkOutcome)
    (params : CheckCommandParams) : Prop :=
  let tk := TupleKeyWithoutConditionToTupleKey (cp_TupleKey params) in
  ∀ inv,
    validate_contextual typesys (cp_ContextualTuples params) = Ret tt → ValidateUserObjectRelation typesys tk = Ret tt →
    resolved (cp_ContextualTuples params) (cp_Context params) tk
      (resolver (cp_ContextualTuples params) inv (initial_request store tk (cp_Context params))).

Definition command_answer (params : CheckCommandParams) (o : outcome CheckCmdErr ResolveCheckResponse) : Prop :=
  let tk := TupleKeyWithoutConditionToTupleKey (cp_TupleKey params) in
  match o with
  | Ret resp => Allowed resp = true ↔
      ∃ n, granted typesys conds (request_tuples (cp_ContextualTuples params)) (cp_Context params) (User tk) n (Object tk) (Relation tk)
  | Throw (InvalidRelationError e) => ValidateUserObjectRelation typesys tk = Throw e
  | Throw (CmdInvalidTupleError e) => ∃ t, t ∈ cp_ContextualTuples params ∧ ValidateTupleForWrite typesys t = Throw e
  | Throw (CmdKeyError _) => forallb kinded_tuple (cp_ContextualTuples params) && kinded_struct (cp_Context params) = false
  | Throw (CmdResolveError e) => fuel_free e
  | Throw _ | Panic _ => False
  end.

Lemma validate_contextual_cases contextual :
  match validate_contextual typesys contextual with
  | Ret _ => True
  | Throw (CmdInvalidTupleError e) => ∃ t, t ∈ contextual ∧ ValidateTupleForWrite typesys t = Throw e
  | _ => False
  end.
Proof.
  induction contextual as [|t l IH]; simpl; [done|]. pose proof (ValidateTupleForWrite_no_panic typesys t) as Hn.
  destruct (ValidateTupleForWrite typesys t) as [[]|e|w] eqn:E; [|by exists t; split; [left|]|done].
  destruct (validate_contextual typesys l) as [|[]|]; try done. destruct IH as (t'&?&?). exists t'. split; [by right|done].
Qed.

Lemma NewResolveCheckRequest_cases tk contextual context higher time :
  store ≠ "" → modelID typesys ≠ "" →
  match NewResolveCheckRequest (mkResolveCheckRequestParams store tk contextual context higher time (modelID typesys)) with
  | Ret (req, _) => req = initial_request store tk context
  | Throw (CmdKeyError _) => forallb kinded_tuple contextual && kinded_struct context = false
  | _ => False
  end.
Proof.
  intros Hs Hid. unfold NewResolveCheckRequest. simpl. rewrite !bool_decide_false by done.
  set (p := mkCheckCacheKeyParams _ _ _ _ _). pose proof (WriteCheckCacheKey_ok p) as Hok.
  pose proof (WriteInvariantCheckCacheKey_no_panic p) as Hnp. unfold WriteCheckCacheKey in Hok.
  destruct (WriteInvariantCheckCacheKey p); simpl in *; done.
Qed.

Lemma CheckQuery_Execute_exact resolver times params :
  server_setting → resolver_exact resolver params → cp_StoreID params = store →
  command_answer params (CheckQuery_Execute typesys times resolver params).
Proof.
  intros Hs Hres Hst. unfold CheckQuery_Execute, command_answer. rewrite Hst.
  destruct (validateCheckRequest typesys _ _) as [[]|e|w] eqn:Hv.
  2-3: unfold validateCheckRequest in Hv; pose proof (ValidateUserObjectRelation_no_panic typesys (TupleKeyWithoutConditionToTupleKey (cp_TupleKey params)));
    pose proof (validate_contextual_cases (cp_ContextualTuples params)) as Hc;
    destruct (ValidateUserObjectRelation _ _) as [[]| |] eqn:E; [rewrite Hv in Hc|..]; simplify_eq/=; done || by destruct e.
  apply validateCheckRequest_Ret in Hv as [Hx1 Hx2]. cbn [outcome_bind].
  set (time := if cp_HigherConsistency params then _ else _).
  pose proof (NewResolveCheckRequest_cases (TupleKeyWithoutConditionToTupleKey (cp_TupleKey params)) (cp_ContextualTuples params)
    (cp_Context params) (cp_HigherConsistency params) time (sv_store Hs) (sv_modelID Hs)) as Hn.
  destruct (NewResolveCheckRequest _) as [[req inv]|e|w] eqn:E; cbn [outcome_bind fst snd]; [|by destruct e|done]. subst req.
  pose proof (Hres inv Hx2 Hx1) as Hr.
  by destruct (resolver _ _ _).
Qed.

Lemma local_resolver_serves params :
  server_setting → positive_model typesys → contextual_fresh (cp_ContextualTuples params) →
  paths_ready m typesys conds (request_tuples (cp_ContextualTuples params)) (cp_Context params) (woc_User (cp_TupleKey params)) sel →
  resolver_exact local_resolver params.
Proof. intros Hs Hpos Hf Hready inv Hv Htk. by apply local_resolver_exact. Qed.

(** C5: the Check command is exact on models without exclusion: for every request whose
    contextual tuples are distinct and not already stored, and with the fast paths of the
    program where [paths_ready] holds, it either answers, and then allows exactly the
    users who have the relation through the stored and the contextual tuples together; or
    reports the validation error of its tuple, the validation error of one of the
    contextual tuples, a context with a value without kind, or an error of the resolution.
    It never panics, and everything else the checker takes for granted about the request is
    established by the command's own validation. *)
Theorem Check_command_exact (times : string → Z) (params : CheckCommandParams) :
  server_setting → positive_model typesys → cp_StoreID params = store → contextual_fresh (cp_ContextualTuples params) →
  paths_ready m typesys conds (request_tuples (cp_ContextualTuples params)) (cp_Context params) (woc_User (cp_TupleKey params)) sel →
  command_answer params (CheckQuery_Execute typesys times local_resolver params).
Proof. intros Hs Hpos Hst Hf Hready. apply CheckQuery_Execute_exact; [done| |done]. by apply local_resolver_serves. Qed.
End spec.

(** ** A check with contextual tuples *)

(** The fast paths over the in-memory datastore. *)
Definition memory_Runtime `{!SortSlice} (fast : ∀ I, FastScheduler I) (recursive : RecursiveScheduler) (s : MemoryBackend)
  : @FastPathRuntime (memory_Reader s) :=
  @Build_FastPathRuntime (memory_Reader s) (ReadStartingWithUser s) (λ _, fast _) recursive.

Definition demo_Runtime (writes : list TupleKey) : @FastPathRuntime (memory_Reader (backend_with writes)) :=
  @memory_Runtime stable_SortSlice left_first_Scheduler user_first_Scheduler (backend_with writes).

Definition no_selection : FastPathSelection := mkSelection (λ _ _ _ _, false) (λ _ _ _ _ _, false) (λ _ _ _, false) (λ _ _ _ _ _, false).

Lemma no_selection_ready `{!ModelGraph, !Cel, !MapRange, !ConditionCompiler} m t conds tuples reqCtx user :
  names_b t = true → paths_ready m t conds tuples reqCtx user no_selection.
Proof. intros Hn. split; [intros ty r rel Hr; by eapply names_decide|]. intros _. by left. Qed.

(** A selection that passes [selection_b] for a user of a fast setting. *)
Lemma selection_ready `{!ModelGraph, !Cel, !MapRange, !ConditionCompiler} m t conds tuples reqCtx user sel :
  NewAndValidate m = Ret t → fast_setting_b t conds tuples reqCtx user = true → selection_b t user sel = true →
  paths_ready m t conds tuples reqCtx user sel.
Proof.
  intros Hm Hb Hsel. pose proof (fast_setting_decide m t conds tuples reqCtx user Hm Hb) as Hs.
  split; [intros ty r rel Hr; by apply (fs_names _ _ _ _ _ _ Hs ty r rel)|]. intros _. right. split; [done|]. by apply selection_decide.
Qed.

Lemma demo_server_setting mdl t writes (Hw : forallb complete_b writes = true) user :
  validate mdl = Ret t → demo_setting_ok t writes user = true → bool_decide (modelID t ≠ "") = true →
  @server_setting demo_Graph demo_Cel map_to_list_MapRange demo_Compiler (memory_Reader (backend_with writes)) "store"
    (memory_ReaderSpec _ (backend_with_inv writes Hw) "store") (demo_Runtime writes) mdl t ∅ 25.
Proof.
  intros Hm Hok Hid. destruct (demo_setting mdl t writes user Hw Hm Hok). split; try done.
  - by apply bool_decide_eq_true in Hid.
  - exact (@memory_sorted_reads stable_SortSlice _ (backend_with_inv writes Hw) "store").
Qed.

(** The weighted graph of [group_model]. *)
Definition group_graph : list (list_node * list list_edge) :=
  let user := type_node "user" in
  let member := relation_of "group#member" [infinite "user"] in
  let folder := relation_of "folder#viewer" [("user", 1)] in
  let or := mkNode "union:doc#viewer" OperatorNode "union" [infinite "user"] in
  [(user, []); (folder, [mkEdge DirectEdge user "" [("user", 1)]]);
   (member, [mkEdge DirectEdge user "" [("user", 1)]; mkEdge DirectEdge member "" [infinite "user"]]);
   (relation_of "doc#viewer" [infinite "user"], [mkEdge RewriteEdge or "" [infinite "user"]]);
   (or, [mkEdge DirectEdge member "" [infinite "user"]; mkEdge TTUEdge folder "doc#parent" [("user", 2)]])].

Definition group_selection : FastPathSelection := @graph_selection list_WeightedGraph (Some group_graph) 10.

Definition demo_params (user : string) : CheckCommandParams :=
  mkCheckCommandParams "store" (mkTupleKeyWithoutCondition "doc:1" "viewer" user)
    [NewTupleKey "group:b" "member" "user:z"; NewTupleKey "doc:1" "viewer" "group:c#member"] None false.

Definition demo_command (t : @TypeSystem demo_Graph) (user : string) : outcome CheckCmdErr ResolveCheckResponse :=
  @CheckQuery_Execute demo_Graph demo_Cel insertion_SortTupleKeys t (λ _, 0)
    (@local_resolver demo_Graph demo_Cel rev_Scheduler stable_SortSlice (memory_Reader (backend_with group_tuples)) (demo_Runtime group_tuples)
       t ∅ group_selection 25)
    (demo_params user).

Definition group_request_tuples (user : string) : list Tuple :=
  contextual_tuples (@NewCombinedTupleReader stable_SortSlice (cp_ContextualTuples (demo_params user))) ++
  (AsTuple <$> store_tuples (backend_with group_tuples) "store").

Definition contextual_fresh_b (stored : list Tuple) (contextual : list TupleKey) : bool :=
  bool_decide (NoDup (key_of <$> contextual)) &&
  forallb (λ tk, bool_decide (key_of tk ∉ ((λ t, key_of (Key t)) <$> stored))) contextual.

Lemma contextual_fresh_decide `{!RelationshipTupleReader} store `{!RelationshipTupleReaderSpec store} contextual :
  contextual_fresh_b (stored store) contextual = true → contextual_fresh store contextual.
Proof.
  intros [Hn Hf]%andb_true_iff. apply bool_decide_eq_true in Hn. split; [done|]. intros tk Htk.
  by apply (forallb_elem _ _ _ Hf), bool_decide_eq_true in Htk.
Qed.

Lemma command_facts :
  match validate group_model with
  | Ret t => demo_setting_ok t group_tuples "user:z" = true ∧ bool_decide (modelID t ≠ "") = true ∧
      forallb (λ rel, negb (has_difference (rel_Rewrite rel))) (all_relations t) = true ∧
      contextual_fresh_b (AsTuple <$> store_tuples (backend_with group_tuples) "store") (cp_ContextualTuples (demo_params "user:z")) = true ∧
      @fast_setting_b demo_Graph demo_Cel t ∅ (group_request_tuples "user:z") None "user:z" && @selection_b demo_Graph t "user:z" group_selection = true ∧
      demo_command t "user:z" = Ret (mkResolveCheckResponse true false)
  | _ => False
  end ∧
  canRecursiveUserset group_selection "group" "member" "user" && canTTU group_selection "doc" "viewer" "user" "parent" "viewer" = true.
Proof. vm_compute. by split_and!. Qed.

(** user:z is in no stored group, and a contextual tuple puts user:z in group:b; the groups
    are checked by the recursive fast path. *)
Lemma Check_command_exact_witness :
  match validate group_model with
  | Ret t =>
      ∃ n, @granted demo_Graph demo_Cel t ∅
             (@request_tuples stable_SortSlice (memory_Reader (backend_with group_tuples)) "store"
               (memory_ReaderSpec _ (backend_with_inv _ group_tuples_complete) "store") (cp_ContextualTuples (demo_params "user:z")))
             None "user:z" n "doc:1" "viewer"
  | _ => False
  end.
Proof.
  destruct command_facts as [Hf _]. destruct (validate group_model) as [t| |] eqn:E; [|exact Hf..].
  destruct Hf as (Hok&Hid&Hpos&Hfresh&[Hfs Hsel]%andb_true_iff&Hres).
  pose proof (@Check_command_exact demo_Graph demo_Cel map_to_list_MapRange demo_Compiler rev_Scheduler demo_GraphLaws stable_SortSlice
    insertion_SortTupleKeys (memory_Reader (backend_with group_tuples)) "store"
    (memory_ReaderSpec _ (backend_with_inv _ group_tuples_complete) "store") (demo_Runtime group_tuples) group_model t ∅ group_selection 25 (λ _, 0)
    (demo_params "user:z") (demo_server_setting _ _ _ _ _ E Hok Hid) (positive_decide _ Hpos) eq_refl
    (@contextual_fresh_decide (memory_Reader (backend_with group_tuples)) "store"
      (memory_ReaderSpec _ (backend_with_inv _ group_tuples_complete) "store") _ Hfresh)
    (@selection_ready demo_Graph demo_Cel map_to_list_MapRange demo_Compiler _ _ _ _ _ _ _ E Hfs Hsel)) as Hex.
  unfold demo_command in Hres. rewrite Hres in Hex. apply Hex. reflexivity.
Defined.
