(* ===== verification/Expand.v ===== *)
(** * The Expand command: [pkg/server/commands/expand.go]

    [Expand] shows one level of the definition of a relation on an object as a tree of
    usersets.  The trees are the messages of the API; the children of a node are resolved
    concurrently, and the first of their errors to occur is returned.  The tree is proved to
    be what [CheckSemantics.v] unfolds the relation to. *)

From S2P Require Import Prelude GoStd Tuple Iterators Model Memory MemorySpec Typesystem Entrypoints TypesystemSpec.
From S2P Require Import Condition Validation ValidationSpec Check CheckSpec CheckSemantics CheckExact CheckMemory CombinedReader.
From S2P Require Import ServerErrors CheckCommand.

Local Open Scope Z_scope.
Local Open Scope go_scope.

(** [UsersetTree_Leaf] and [UsersetTree_Node]. *)
Inductive UsersetTree_Leaf :=
| Leaf_Users (users : list string)
| Leaf_Computed (userset : string)
| Leaf_TupleToUserset (tupleset : string) (computed : list string).

Inductive UsersetTree_Node :=
| Node_Leaf (name : string) (leaf : UsersetTree_Leaf)
| Node_Union (name : string) (nodes : list UsersetTree_Node)
| Node_Intersection (name : string) (nodes : list UsersetTree_Node)
| Node_Difference (name : string) (base subtract : UsersetTree_Node).

(** Which of the errors of concurrent calls occurs first. *)
Class FirstError := { first_error : ServerError → list ServerError → ServerError }.
Class FirstErrorLaws `{!FirstError} := { first_error_elem e l : first_error e l ∈ e :: l }.

Definition toObjectRelation (tk : TupleKey) : string := ToObjectRelationString (Object tk) (Relation tk).

(** [errgroup.Wait] over calls that put their results in order. *)
Definition collect {A} `{!FirstError} (l : list (outcome ServerError A)) : outcome ServerError (list A) :=
  match omap (λ o : outcome ServerError A, match o with Panic w => Some w | _ => None end) l with
  | w :: _ => Panic w
  | [] =>
      match omap (λ o : outcome ServerError A, match o with Throw e => Some e | _ => None end) l with
      | e :: es => Throw (first_error e es)
      | [] => Ret (omap (λ o : outcome ServerError A, match o with Ret a => Some a | _ => None end) l)
      end
  end.

Section expand.
Context `{!ModelGraph, !Cel, !MapRange, !FirstError, !RelationshipTupleReader}.
Context (typesys : TypeSystem) (store : string).

(** The loop over the filtered iterator: what it yields, or its error. *)
Definition read_valid (tk : TupleKey) : outcome ServerError (list TupleKey) :=
  let! tupleIter := match rd_Read store tk with Ret it => Ret it | Throw e => Throw (HandleError e) | Panic w => Panic w end in
  let filteredIter := NewFilteredTupleKeyIterator (NewTupleKeyIteratorFromTupleIterator tupleIter) (FilterInvalidTuples typesys) in
  match drain (S (remaining filteredIter)) filteredIter with
  | (keys, Some ErrIteratorDone) => Ret keys
  | (_, Some _) => Throw SE_Internal
  | (_, None) => Panic "iterator"
  end.

(** [distinctUsers], ranged over and sorted. *)
Definition distinct_users (keys : list TupleKey) : list string :=
  let distinctUsers : gmap string bool := foldl (λ m tk, <[User tk := true]> m) ∅ keys in
  SliceStable String.ltb ((range_map distinctUsers).*1).

Definition resolveThis (tk : TupleKey) : outcome ServerError UsersetTree_Node :=
  let! keys := read_valid tk in
  Ret (Node_Leaf (toObjectRelation tk) (Leaf_Users (distinct_users keys))).

Definition resolveComputedUserset (object relation : string) (tk : TupleKey) : outcome ServerError UsersetTree_Node :=
  let computed := NewTupleKey (if object =s "" then Object tk else object) (if relation =s "" then Relation tk else relation) "" in
  Ret (Node_Leaf (toObjectRelation tk) (Leaf_Computed (toObjectRelation computed))).

(** The loop over the tupleset's tuples: a userset the first time it is seen. *)
Fixpoint ttu_computed (computedRelation : string) (seen : gset string) (keys : list TupleKey) : list string :=
  match keys with
  | [] => []
  | tk :: rest =>
      let '(tObject, tRelation) := SplitObjectRelation (User tk) in
      let tRelation := if tRelation =s "" then computedRelation else tRelation in
      let computed := toObjectRelation (NewTupleKey tObject tRelation "") in
      if bool_decide (computed ∈ seen) then ttu_computed computedRelation seen rest
      else computed :: ttu_computed computedRelation ({[computed]} ∪ seen) rest
  end.

Definition resolveTupleToUserset (tupleset computedRelation : string) (tk : TupleKey) : outcome ServerError UsersetTree_Node :=
  let targetObject := Object tk in
  let objectType := GetType targetObject in
  let! _ := match Typesystem.GetRelation typesys objectType tupleset with
            | Throw (ObjectTypeUndefinedError _) => Throw (SE_TypeNotFound objectType)
            | Throw (RelationUndefinedError _ _) => Throw (SE_RelationNotFound tupleset objectType)
            | Panic w => Panic w
            | _ => Ret tt
            end in
  let tsKey := NewTupleKey targetObject (if tupleset =s "" then Relation tk else tupleset) "" in
  let! keys := read_valid tsKey in
  Ret (Node_Leaf (toObjectRelation tk) (Leaf_TupleToUserset (toObjectRelation tsKey) (ttu_computed computedRelation ∅ keys))).

Fixpoint resolveUserset (userset : Userset) (tk : TupleKey) : outcome ServerError UsersetTree_Node :=
  match userset with
  | Userset_nil | Userset_This => resolveThis tk
  | Userset_ComputedUserset object relation => resolveComputedUserset object relation tk
  | Userset_TupleToUserset tupleset computed => resolveTupleToUserset tupleset computed tk
  | Userset_Union child =>
      let! nodes := collect ((λ us, resolveUserset us tk) <$> child) in Ret (Node_Union (toObjectRelation tk) nodes)
  | Userset_Intersection child =>
      let! nodes := collect ((λ us, resolveUserset us tk) <$> child) in Ret (Node_Intersection (toObjectRelation tk) nodes)
  | Userset_Difference base subtract =>
      let! nodes := collect [resolveUserset base tk; resolveUserset subtract tk] in
      match nodes with
      | [base; subtract] => Ret (Node_Difference (toObjectRelation tk) base subtract)
      | _ => Panic "index out of range"
      end
  end.
End expand.

Section execute.
Context `{!ModelGraph, !Cel, !MapRange, !FirstError, !SortSlice, !RelationshipTupleReader}.

(** The loop over the contextual tuples. *)
Fixpoint validate_expand_tuples (typesys : TypeSystem) (tuples : list TupleKey) : outcome ServerError unit :=
  match tuples with
  | [] => Ret tt
  | ctxTuple :: rest =>
      match ValidateTupleForWrite typesys ctxTuple with
      | Throw e => Throw (HandleTupleValidateError e)
      | Panic w => Panic w
      | Ret _ => validate_expand_tuples typesys rest
      end
  end.

Definition val_error {A} (o : outcome ValErr A) : outcome ServerError A :=
  match o with Ret a => Ret a | Throw _ => Throw SE_ValidationError | Panic w => Panic w end.

Definition ExpandQuery_Execute (typesys : TypeSystem) (store object relation : string) (contextual : list TupleKey)
  : outcome ServerError UsersetTree_Node :=
  if (object =s "") || (relation =s "") then Throw SE_InvalidExpandInput
  else
    let tk := NewTupleKey object relation "" in
    let! _ := validate_expand_tuples typesys contextual in
    let! _ := val_error (ValidateObject typesys tk) in
    let! _ := val_error (ValidateRelation typesys tk) in
    let objectType := GetType object in
    match Typesystem.GetRelation typesys objectType relation with
    | Throw (ObjectTypeUndefinedError _) => Throw (SE_TypeNotFound objectType)
    | Throw (RelationUndefinedError _ _) => Throw (SE_RelationNotFound relation objectType)
    | Throw _ => Throw SE_Internal
    | Panic w => Panic w
    | Ret rel =>
        @resolveUserset _ _ _ _ (combined_Reader (NewCombinedTupleReader contextual)) typesys store (rel_Rewrite rel) tk
    end.
End execute.

(** ** What a tree means *)

Section tree.
Context `{!ModelGraph} (typesys : TypeSystem) (user : string) (G R : string → string → Prop).

(** Who has, and who cannot have, one of the usersets that a tree names: [G] and [R] say so
    for object and relation. *)
Definition names_granted (userset : string) : Prop := G (SplitObjectRelation userset).1 (SplitObjectRelation userset).2.
Definition names_refuted (userset : string) : Prop := R (SplitObjectRelation userset).1 (SplitObjectRelation userset).2.

(** The userset is of a relation that its type has. *)
Definition names_defined (userset : string) : Prop :=
  ttu_skips typesys (SplitObjectRelation userset).1 (SplitObjectRelation userset).2 = false.

Definition leaf_granted (leaf : UsersetTree_Leaf) : Prop :=
  match leaf with
  | Leaf_Users users =>
      user ∈ users ∨ (IsObjectRelation user = false ∧ TypedPublicWildcard (GetType user) ∈ users) ∨
      ∃ u, u ∈ users ∧ Tuple.GetRelation u ≠ "" ∧ names_granted u
  | Leaf_Computed userset => names_granted userset
  | Leaf_TupleToUserset _ computed => ∃ userset, userset ∈ computed ∧ names_defined userset ∧ names_granted userset
  end.

Definition leaf_refuted (leaf : UsersetTree_Leaf) : Prop :=
  match leaf with
  | Leaf_Users users =>
      (user ∉ users) ∧ (IsObjectRelation user = false → TypedPublicWildcard (GetType user) ∉ users) ∧
      ∀ u, u ∈ users → Tuple.GetRelation u ≠ "" → names_refuted u
  | Leaf_Computed userset => names_refuted userset
  | Leaf_TupleToUserset _ computed => ∀ userset, userset ∈ computed → names_defined userset → names_refuted userset
  end.

Fixpoint node_granted (node : UsersetTree_Node) : Prop :=
  match node with
  | Node_Leaf _ leaf => leaf_granted leaf
  | Node_Union _ nodes => foldr (λ n P, node_granted n ∨ P) False nodes
  | Node_Intersection _ nodes => nodes ≠ [] ∧ foldr (λ n P, node_granted n ∧ P) True nodes
  | Node_Difference _ base subtract => node_granted base ∧ node_refuted subtract
  end
with node_refuted (node : UsersetTree_Node) : Prop :=
  match node with
  | Node_Leaf _ leaf => leaf_refuted leaf
  | Node_Union _ nodes => foldr (λ n P, node_refuted n ∧ P) True nodes
  | Node_Intersection _ nodes => nodes = [] ∨ foldr (λ n P, node_refuted n ∨ P) False nodes
  | Node_Difference _ base subtract => node_refuted base ∨ node_granted subtract
  end.
End tree.

(** The lists of users of a tree are sorted, without repetition. *)
Fixpoint users_sorted (node : UsersetTree_Node) : Prop :=
  match node with
  | Node_Leaf _ (Leaf_Users users) => StronglySorted (λ a b, String.ltb a b = true) users
  | Node_Leaf _ _ => True
  | Node_Union _ nodes | Node_Intersection _ nodes => foldr (λ n P, users_sorted n ∧ P) True nodes
  | Node_Difference _ base subtract => users_sorted base ∧ users_sorted subtract
  end.

(** ** The tree is right *)

Lemma collect_Ret `{!FirstError} {A B} (f : A → outcome ServerError B) (P : A → B → Prop) (l : list A) :
  (∀ a, a ∈ l → ∃ b, f a = Ret b ∧ P a b) → ∃ bs, collect (f <$> l) = Ret bs ∧ Forall2 P l bs.
Proof.
  intros Hl. assert (∃ bs, f <$> l = Ret <$> bs ∧ Forall2 P l bs) as (bs&->&HP).
  { induction l as [|a l IH]; [by exists []|]. destruct (Hl a) as (b&Hf&Hb); [left|].
    destruct IH as (bs&Hbs&HP); [intros a' Ha'; apply Hl; by right|]. exists (b :: bs). rewrite !fmap_cons, Hf, Hbs. by split; [|constructor]. }
  exists bs. split; [|done]. unfold collect. clear HP.
  assert (omap (λ o : outcome ServerError B, match o with Panic w => Some w | _ => None end) (Ret <$> bs) = []) as -> by by induction bs.
  assert (omap (λ o : outcome ServerError B, match o with Throw w => Some w | _ => None end) (Ret <$> bs) = []) as -> by by induction bs.
  f_equal. induction bs as [|b bs IH]; [done|]. rewrite fmap_cons. cbn. f_equal. exact IH.
Qed.

Lemma distinct_users_spec `{!MapRange} keys :
  StronglySorted (λ a b, String.ltb a b = true) (distinct_users keys) ∧
  ∀ u, u ∈ distinct_users keys ↔ u ∈ User <$> keys.
Proof.
  unfold distinct_users. set (m := foldl _ _ keys).
  assert (∀ u, u ∈ (range_map m).*1 ↔ is_Some (m !! u)) as Hr.
  { intros u. rewrite list_elem_of_fmap. split.
    - intros ([k b]&->&Hin%elem_of_range_map). by exists b.
    - intros [b Hb]. exists (u, b). split; [done|]. by apply elem_of_range_map. }
  assert (∀ u, is_Some (m !! u) ↔ u ∈ User <$> keys) as Hm.
  { unfold m. intros u. assert (∀ (m0 : gmap string bool), is_Some (foldl (λ m tk, <[User tk := true]> m) m0 keys !! u) ↔
      is_Some (m0 !! u) ∨ u ∈ User <$> keys) as Hgen.
    { clear. induction keys as [|tk keys IH]; intros m0; simpl; [set_solver|]. rewrite IH, elem_of_cons, lookup_insert_is_Some'. naive_solver. }
    rewrite Hgen, lookup_empty. split; [intros [[]|?]; done|by right]. }
  assert (NoDup (range_map m).*1) as Hnd by (rewrite range_map_perm; apply NoDup_fst_map_to_list).
  split; [|intros u; rewrite SliceStable_perm, Hr; apply Hm].
  pose proof (SliceStable_sorted String.ltb ((range_map m).*1)) as Hs. rewrite <-(SliceStable_perm String.ltb) in Hnd.
  revert Hs Hnd. generalize (SliceStable String.ltb (range_map m).*1) as l. clear. induction 1 as [|x l _ IH Hx]; intros Hnd; [constructor|].
  apply NoDup_cons in Hnd as [Hnin Hnd]. constructor; [by apply IH|]. rewrite Forall_forall in Hx |- *. intros y Hy.
  specialize (Hx y Hy). unfold not_less in Hx. destruct (String.ltb x y) eqn:E; [done|]. destruct Hnin. by rewrite (str_ltb_total x y).
Qed.

Lemma elem_of_ttu_computed c seen keys us :
  us ∈ ttu_computed c seen keys ↔ (us ∉ seen) ∧ ∃ tk, tk ∈ keys ∧
    us = ToObjectRelationString (SplitObjectRelation (User tk)).1
           (if (SplitObjectRelation (User tk)).2 =s "" then c else (SplitObjectRelation (User tk)).2).
Proof.
  revert seen. induction keys as [|tk keys IH]; intros seen; simpl; [set_solver|].
  destruct (SplitObjectRelation (User tk)) as [o r] eqn:Hs. unfold toObjectRelation; simpl.
  set (x := ToObjectRelationString o _). setoid_rewrite elem_of_cons. case_bool_decide as Hin.
  - rewrite IH. split; intros (Hn&tk'&Htk&->); (split; [done|]); [exists tk'; by auto|].
    destruct Htk as [->|?]; [|by exists tk']. rewrite Hs in Hn. done.
  - rewrite elem_of_cons, IH. split.
    + intros [->|(Hn&tk'&?&?)]; [split; [done|]; exists tk; rewrite Hs; by auto|]. split; [set_solver|]. exists tk'. auto.
    + intros (Hn&tk'&[->|?]&Hus); [left; by rewrite Hus, Hs|]. destruct (decide (us = x)) as [->|Hne]; [by left|right].
      split; [set_solver|]. by exists tk'.
Qed.

(** The objects that the computed usersets of a rewrite name. *)
Fixpoint computed_objects (u : Userset) : list string :=
  match u with
  | Userset_ComputedUserset object _ => [object]
  | Userset_Union child | Userset_Intersection child => concat (computed_objects <$> child)
  | Userset_Difference b s => computed_objects b ++ computed_objects s
  | _ => []
  end.

Section spec.
Context `{!ModelGraph, !Cel, !MapRange, !ConditionCompiler, !FirstError}.
Context `{!RelationshipTupleReader} (store : string) `{!RelationshipTupleReaderSpec store}.
Context (m : AuthorizationModel) (typesys : TypeSystem) (conds : gmap string EvaluableCondition) (reqCtx : option Struct).
Hypothesis Hmodel : NewAndValidate m = Ret typesys.
Hypothesis Hnames : ∀ ty r rel, GetRelation typesys ty r = Ret rel → has_byte "#" r = false.
Hypothesis Husers : ∀ t, t ∈ stored store → IsValidUser (User (Key t)) = true.
(** Expand does not look at conditions. *)
Hypothesis Hconds : ∀ t, t ∈ stored store → FilterInvalidTuples typesys (Key t) = true → condition_filter conds reqCtx (Key t) = Ret true.

Abbreviation usable := (usable typesys conds (stored store) reqCtx).

Lemma read_valid_spec o r :
  object_ok o → r ≠ "" → ∃ keys, read_valid typesys store (NewTupleKey o r "") = Ret keys ∧ ∀ u, u ∈ User <$> keys ↔ usable o r u.
Proof.
  intros Ho Hr. destruct (Read_spec o r Ho Hr) as (it&Hit&Hitems). unfold read_valid. rewrite Hit. cbn [outcome_bind].
  set (f := NewFilteredTupleKeyIterator _ _). rewrite (drain_items _ f) by (pose proof (remaining_items f); lia).
  eexists. split; [done|]. intros u. simpl. rewrite list_elem_of_fmap. unfold CheckSemantics.usable.
  setoid_rewrite list_elem_of_In. setoid_rewrite List.filter_In. setoid_rewrite <-list_elem_of_In.
  setoid_rewrite list_elem_of_fmap. split.
  - intros (tk&->&(t&->&Ht)&Hf). apply Hitems in Ht as (Hst&<-&<-). exists t. split_and!; [done| |done].
    unfold usable_key. by rewrite Hf, Hconds.
  - intros (t&Hst&Hk&[= <- <- <-]). exists (Key t). split; [done|]. split; [exists t; split; [done|by apply Hitems]|].
    by apply andb_true_iff in Hk as [? _].
Qed.

Section relation.
Context (o r : string) (rel : RelationDef).
Hypothesis Ho : object_ok o.
Hypothesis Hrel : GetRelation typesys (GetType o) r = Ret rel.

(** The trees of the parts of the relation's rewrite. *)
Definition tree_ok (rw : Userset) (node : UsersetTree_Node) : Prop :=
  users_sorted node ∧
  ∀ user G R,
    (node_granted typesys user G R node ↔ granted_rw typesys conds (stored store) reqCtx user G R o r rw) ∧
    (node_refuted typesys user G R node ↔ refuted_rw typesys conds (stored store) reqCtx user G R o r rw).

Lemma expand_relation_nonempty ty c crel : GetRelation typesys ty c = Ret crel → c ≠ "".
Proof.
  intros Hc ->. destruct (NewAndValidate_valid m typesys Hmodel) as [Hmv _]. destruct (mv_names _ Hmv _ _ _ Hc) as [_ Hn]. apply Hn. left.
Qed.

Lemma resolveThis_ok : ∃ node, resolveThis typesys store (NewTupleKey o r "") = Ret node ∧ tree_ok Userset_This node.
Proof.
  destruct (read_valid_spec o r Ho (expand_relation_nonempty _ _ _ Hrel)) as (keys&Hk&Hu). unfold resolveThis. rewrite Hk. simpl.
  eexists. split; [done|]. destruct (distinct_users_spec keys) as [Hs He]. split; [exact Hs|]. intros user G R. simpl.
  unfold granted_this, refuted_this, names_granted, names_refuted, Tuple.GetRelation. setoid_rewrite He. setoid_rewrite Hu. done.
Qed.

Lemma resolveComputed_ok c crel :
  GetRelation typesys (GetType o) c = Ret crel →
  ∃ node, resolveComputedUserset "" c (NewTupleKey o r "") = Ret node ∧ tree_ok (Userset_ComputedUserset "" c) node.
Proof.
  intros Hc. eexists. split; [done|]. split; [done|]. intros user G R. simpl. unfold names_granted, names_refuted, toObjectRelation. simpl.
  rewrite bool_decide_false by by eapply expand_relation_nonempty. rewrite SplitObjectRelation_build by by eapply Hnames. done.
Qed.

Lemma tupleset_user ts c u :
  (ts, c) ∈ flattenUserset (rel_Rewrite rel) → usable o ts u → SplitObjectRelation u = (u, "").
Proof. intros Hin Hus. by eapply usable_ttu in Hus as (?&_). Qed.

Lemma resolveTTU_ok ts c :
  (ts, c) ∈ flattenUserset (rel_Rewrite rel) →
  ∃ node, resolveTupleToUserset typesys store ts c (NewTupleKey o r "") = Ret node ∧ tree_ok (Userset_TupleToUserset ts c) node.
Proof.
  intros Hin. destruct (NewAndValidate_valid m typesys Hmodel) as [Hmv _].
  destruct (mv_ttu _ Hmv _ _ _ _ _ Hrel Hin) as (tsrel&Hts&_&_&rr&crel&_&Hc).
  destruct (read_valid_spec o ts Ho (expand_relation_nonempty _ _ _ Hts)) as (keys&Hk&Hu).
  unfold resolveTupleToUserset. simpl. rewrite Hts. simpl. rewrite (bool_decide_false (ts = "")) by by eapply expand_relation_nonempty.
  rewrite Hk. simpl. eexists. split; [done|]. split; [done|]. intros user G R.
  assert (∀ us, us ∈ ttu_computed c ∅ keys ↔ ∃ u, usable o ts u ∧ us = ToObjectRelationString u c) as Hus.
  { intros us. rewrite elem_of_ttu_computed. split.
    - intros (_&tk&Htk&->). assert (usable o ts (User tk)) as Hus by (apply Hu; by apply list_elem_of_fmap_2).
      exists (User tk). split; [done|]. by rewrite (tupleset_user _ _ _ Hin Hus).
    - intros (u&Hus&->). split; [set_solver|]. pose proof (tupleset_user _ _ _ Hin Hus) as Hsp.
      apply Hu, list_elem_of_fmap in Hus as (tk&->&Htk). exists tk. split; [done|]. by rewrite Hsp. }
  assert (∀ u, usable o ts u → SplitObjectRelation (ToObjectRelationString u c) = (u, c) ∧ (SplitObjectRelation u).1 = u) as Hsplit.
  { intros u Hus'. split; [apply SplitObjectRelation_build; by eapply Hnames|by rewrite (tupleset_user _ _ _ Hin Hus')]. }
  simpl. unfold granted_ttu, refuted_ttu, names_granted, names_refuted, names_defined. split; split.
  - intros (us&(u&Husu&->)%Hus&Hd&Hg). destruct (Hsplit u Husu) as [Hx1 Hx2]. rewrite Hx1 in *. exists u. by rewrite Hx2.
  - intros (u&Husu&Hd&Hg). destruct (Hsplit u Husu) as [Hx1 Hx2]. rewrite Hx2 in *. exists (ToObjectRelationString u c).
    rewrite Hx1. split_and!; [apply Hus; by exists u|done..].
  - intros Hall u Husu. destruct (Hsplit u Husu) as [Hx1 Hx2]. rewrite Hx2.
    specialize (Hall (ToObjectRelationString u c)). rewrite Hx1 in Hall. apply Hall, Hus. by exists u.
  - intros Hall us (u&Husu&->)%Hus. destruct (Hsplit u Husu) as [Hx1 Hx2]. rewrite Hx1. specialize (Hall u Husu). by rewrite Hx2 in Hall.
Qed.

Lemma tree_ok_union name l nodes : Forall2 tree_ok l nodes → tree_ok (Userset_Union l) (Node_Union name nodes).
Proof.
  intros Hl. split; [|intros user G R; split]; simpl; induction Hl as [|rw node l nodes [Hs Hx] _ IH]; simpl; try done.
  - by rewrite IH, (proj1 (Hx user G R)).
  - by rewrite IH, (proj2 (Hx user G R)).
Qed.

Lemma tree_ok_intersection name l nodes : Forall2 tree_ok l nodes → tree_ok (Userset_Intersection l) (Node_Intersection name nodes).
Proof.
  intros Hl. assert (l = [] ↔ nodes = []) as Hnil by by destruct Hl.
  split; [|intros user G R; simpl; rewrite Hnil; split; [apply and_iff_compat_l|apply or_iff_compat_l]]; simpl; clear Hnil;
    induction Hl as [|rw node l nodes [Hs Hx] _ IH]; simpl; try done.
  - by rewrite IH, (proj1 (Hx user G R)).
  - by rewrite IH, (proj2 (Hx user G R)).
Qed.

(** A part of the relation's rewrite; its computed usersets name no object. *)
Record part_ok (rw : Userset) : Prop := {
  pt_complete : has_nil rw = false;
  pt_computed c : c ∈ computed_leaves rw → ∃ crel, GetRelation typesys (GetType o) c = Ret crel;
  pt_ttus x : x ∈ flattenUserset rw → x ∈ flattenUserset (rel_Rewrite rel);
  pt_objects ob : ob ∈ computed_objects rw → ob = "";
}.

Lemma part_ok_child l c (rw := Userset_Union l) : part_ok rw → c ∈ l → part_ok c.
Proof.
  intros [Hx1 Hx2 Hx3 Hx4] Hc. simpl in *. split.
  - destruct (has_nil c) eqn:E; [|done]. assert (existsb has_nil l = true) as Hex; [|congruence].
    apply existsb_exists. exists c. split; [by apply list_elem_of_In|done].
  - intros x Hx. apply Hx2. by eapply elem_of_concat_fmap.
  - intros x Hx. apply Hx3. by eapply elem_of_concat_fmap.
  - intros x Hx. apply Hx4. by eapply elem_of_concat_fmap.
Qed.

(** Every part of the rewrite resolves to a right tree. *)
Lemma resolveUserset_ok rw :
  part_ok rw → ∃ node, resolveUserset typesys store rw (NewTupleKey o r "") = Ret node ∧ tree_ok rw node.
Proof.
  induction rw as [|ob c|ts c|l IH|l IH|b s IHb IHs|] using Userset_nested_ind; intros Hp; simpl.
  - apply resolveThis_ok.
  - destruct (pt_computed _ Hp c) as [crel Hc]; [left|]. rewrite (pt_objects _ Hp ob) by left. by eapply resolveComputed_ok.
  - apply resolveTTU_ok, (pt_ttus _ Hp). left.
  - rewrite Forall_forall in IH. destruct (collect_Ret (λ us, resolveUserset typesys store us (NewTupleKey o r "")) tree_ok l) as (nodes&Hn&Hok).
    { intros c Hc. apply IH; [done|]. by eapply part_ok_child. }
    rewrite Hn. simpl. eexists. split; [done|]. by apply tree_ok_union.
  - rewrite Forall_forall in IH. destruct (collect_Ret (λ us, resolveUserset typesys store us (NewTupleKey o r "")) tree_ok l) as (nodes&Hn&Hok).
    { intros c Hc. apply IH; [done|]. eapply (part_ok_child l); [|done]. by destruct Hp. }
    rewrite Hn. simpl. eexists. split; [done|]. by apply tree_ok_intersection.
  - assert (part_ok (Userset_Union [b; s])) as Hu.
    { destruct Hp as [Hx1 Hx2 Hx3 Hx4]. split; simpl in *; [by rewrite orb_false_r|by rewrite app_nil_r..]. }
    destruct IHb as (nb&Hb&Hsb&Hgb); [apply (part_ok_child _ _ Hu); left|].
    destruct IHs as (ns&Hs&Hss&Hgs); [apply (part_ok_child _ _ Hu); right; left|].
    rewrite Hb, Hs. eexists. split; [done|]. split; [done|]. intros user G R. simpl.
    by rewrite (proj1 (Hgb user G R)), (proj2 (Hgb user G R)), (proj1 (Hgs user G R)), (proj2 (Hgs user G R)).
  - by destruct Hp.
Qed.

Lemma rewrite_part_ok : (∀ ob, ob ∈ computed_objects (rel_Rewrite rel) → ob = "") → part_ok (rel_Rewrite rel).
Proof.
  intros Hob. destruct (NewAndValidate_valid m typesys Hmodel) as [Hmv _]. split; [by eapply mv_complete| |done|done].
  intros c Hc. by apply (mv_computed _ Hmv _ _ _ _ Hrel Hc).
Qed.
End relation.
End spec.

(** ** The command *)

Section command.
Context `{!ModelGraph, !Cel, !MapRange, !ConditionCompiler, !FirstError, !SortSlice}.
Context `{!RelationshipTupleReader} (store : string) `{!RelationshipTupleReaderSpec store}.
Context (m : AuthorizationModel) (typesys : TypeSystem) (conds : gmap string EvaluableCondition) (reqCtx : option Struct).

(** A server with a validated model whose computed usersets name no object, over a store
    whose tuples have valid users, and a request none of whose tuples is conditioned to be
    left out. *)
Record expand_setting (contextual : list TupleKey) : Prop := {
  ex_model : NewAndValidate m = Ret typesys;
  ex_names ty r rel : GetRelation typesys ty r = Ret rel → has_byte "#" r = false;
  ex_objects ty r rel : GetRelation typesys ty r = Ret rel → ∀ ob, ob ∈ computed_objects (rel_Rewrite rel) → ob = "";
  ex_users t : t ∈ stored store → IsValidUser (User (Key t)) = true;
  ex_fresh : contextual_fresh store contextual;
  ex_conds t : t ∈ request_tuples store contextual → FilterInvalidTuples typesys (Key t) = true →
    condition_filter conds reqCtx (Key t) = Ret true;
}.

Lemma validate_expand_tuples_cases contextual :
  match validate_expand_tuples typesys contextual with
  | Ret _ => validate_contextual typesys contextual = Ret tt
  | Throw e => ∃ ct ve, ct ∈ contextual ∧ ValidateTupleForWrite typesys ct = Throw ve ∧ e = HandleTupleValidateError ve
  | Panic _ => False
  end.
Proof.
  induction contextual as [|ct l IH]; simpl; [done|]. pose proof (ValidateTupleForWrite_no_panic typesys ct) as Hn.
  destruct (ValidateTupleForWrite typesys ct) as [[]|ve|w] eqn:E; [|exists ct, ve; split_and!; [left|done|done]|done].
  destruct (validate_expand_tuples typesys l) as [[]|e|w]; [done| |done].
  destruct IH as (ct'&ve&?&?&?). exists ct', ve. split_and!; [by right|done|done].
Qed.

Lemma ValidateObject_cases tk :
  match ValidateObject typesys tk with Ret _ => object_ok (Object tk) | Throw _ => True | Panic _ => False end.
Proof.
  unfold ValidateObject. destruct (IsValidObject (Object tk)) eqn:Ho; [|done]. destruct (SplitObject (Object tk)) as [ty id]. simpl.
  case_bool_decide; [done|]. destruct (GetTypeDefinition typesys ty); [|done]. by apply valid_object_facts.
Qed.

Lemma ValidateRelation_cases tk :
  match ValidateRelation typesys tk with
  | Ret _ => ∃ rel, GetRelation typesys (GetType (Object tk)) (Relation tk) = Ret rel
  | Throw _ => True
  | Panic _ => False
  end.
Proof.
  unfold ValidateRelation. destruct (IsValidRelation (Relation tk)); [|done]. pose proof (GetRelation_np typesys (GetType (Object tk)) (Relation tk)).
  simpl. destruct (Typesystem.GetRelation _ _ _) as [rel|[]|]; try done. by exists rel.
Qed.

(** C22: Expand is exact.  It answers every request with a valid object, relation and
    contextual tuples, and reports the validation error of the others.  The tree it
    answers with is the definition of the relation on the object, unfolded once: a user has
    the relation exactly if the tree says so of the users and usersets it names, its
    intersections, exclusions and references to other usersets included, or is that userset
    itself.  The users of a leaf are sorted and distinct.  [expand_setting] has what is taken
    for granted: Expand evaluates no conditions, so those of the valid tuples that the
    request sees are taken to be met; the computed usersets of the model name no object, as
    Expand would follow it and Check does not; names of relations have no hash, and the
    contextual tuples are distinct and not stored. *)
Theorem Expand_exact (object relation : string) (contextual : list TupleKey) :
  expand_setting contextual →
  match ExpandQuery_Execute typesys store object relation contextual with
  | Ret node =>
      users_sorted node ∧
      ∀ user n, granted typesys conds (request_tuples store contextual) reqCtx user (S n) object relation ↔
        self_defining user object relation = true ∨
        node_granted typesys user (granted typesys conds (request_tuples store contextual) reqCtx user n)
          (refuted typesys conds (request_tuples store contextual) reqCtx user n) node
  | Throw e =>
      e = SE_InvalidExpandInput ∧ (object = "" ∨ relation = "") ∨
      (∃ ct ve, ct ∈ contextual ∧ ValidateTupleForWrite typesys ct = Throw ve ∧ e = HandleTupleValidateError ve) ∨
      e = SE_ValidationError ∧ ∃ ve, ValidateObject typesys (NewTupleKey object relation "") = Throw ve ∨
                                     ValidateRelation typesys (NewTupleKey object relation "") = Throw ve
  | Panic _ => False
  end.
Proof.
  intros Hs. unfold ExpandQuery_Execute.
  destruct ((object =s "") || (relation =s "")) eqn:Hemp.
  { left. split; [done|]. apply orb_true_iff in Hemp. by rewrite !bool_decide_eq_true in Hemp. }
  pose proof (validate_expand_tuples_cases contextual) as Hc.
  destruct (validate_expand_tuples typesys contextual) as [[]|e|w]; simpl; [|by right; left|done].
  pose proof (ValidateObject_cases (NewTupleKey object relation "")) as Ho.
  destruct (ValidateObject typesys _) as [[]|ve|w]; simpl; [|right; right; split; [done|]; exists ve; by left|done].
  pose proof (ValidateRelation_cases (NewTupleKey object relation "")) as Hr.
  destruct (ValidateRelation typesys _) as [[]|ve|w]; simpl; [|right; right; split; [done|]; exists ve; by right|done].
  destruct Hr as [rel Hrel]. simpl in Ho, Hrel. rewrite Hrel.
  pose proof (contextual_ok_new store m typesys contextual (ex_model _ Hs) Hc (ex_fresh _ Hs)) as Hok.
  assert (∀ t, t ∈ request_tuples store contextual → IsValidUser (User (Key t)) = true) as Hu.
  { intros t [Ht|Ht]%elem_of_app; [by destruct (ct_users _ _ Hok t Ht)|by apply (ex_users _ Hs)]. }
  destruct (@resolveUserset_ok _ _ _ _ _ (combined_Reader (NewCombinedTupleReader contextual)) store (combined_ReaderSpec store _ Hok)
    m typesys conds reqCtx (ex_model _ Hs) (ex_names _ Hs) Hu (ex_conds _ Hs) object relation rel Ho Hrel (rel_Rewrite rel)
    (rewrite_part_ok m typesys (ex_model _ Hs) object relation rel Hrel (ex_objects _ Hs _ _ _ Hrel))) as (node&->&Hsorted&Htree).
  split; [done|]. intros user n. rewrite (proj1 (Htree user _ _)). cbn [granted]. split.
  - intros [?|(rel'&Hrel'&?)]; [by left|right]. assert (rel' = rel) as <- by congruence. done.
  - intros [?|?]; [by left|right]. by exists rel.
Qed.
End command.

(** ** An expansion *)

Definition order_FirstError : FirstError := {| first_error e _ := e |}.

Definition demo_expand (t : @TypeSystem demo_Graph) : outcome ServerError UsersetTree_Node :=
  @ExpandQuery_Execute demo_Graph demo_Cel map_to_list_MapRange order_FirstError stable_SortSlice (memory_Reader (backend_with group_tuples))
    t "store" "doc:1" "viewer" (cp_ContextualTuples (demo_params "user:z")).

(** The decidable parts of the setting. *)
Definition expand_ok (t : @TypeSystem demo_Graph) : bool :=
  forallb (λ p : string * gmap string RelationDef, forallb (λ q : string * RelationDef, negb (has_byte "#" q.1)) (map_to_list p.2))
    (map_to_list (relations t))
  && forallb (λ rel, forallb (λ ob, ob =s "") (computed_objects (rel_Rewrite rel))) (all_relations t)
  && forallb (λ x, IsValidUser (User (Key x))) (AsTuple <$> store_tuples (backend_with group_tuples) "store")
  && contextual_fresh_b (AsTuple <$> store_tuples (backend_with group_tuples) "store") (cp_ContextualTuples (demo_params "user:z"))
  && forallb (λ x, match @condition_filter demo_Cel ∅ None (Key x) with Ret b => b | _ => false end)
       (contextual_tuples (@NewCombinedTupleReader stable_SortSlice (cp_ContextualTuples (demo_params "user:z"))) ++
        (AsTuple <$> store_tuples (backend_with group_tuples) "store")).

Lemma expand_facts :
  match validate group_model with Ret t => expand_ok t = true ∧ is_ret (demo_expand t) = true | _ => False end.
Proof. vm_compute. by split. Qed.

Lemma demo_expand_setting t :
  validate group_model = Ret t → expand_ok t = true →
  @expand_setting demo_Graph demo_Cel map_to_list_MapRange demo_Compiler stable_SortSlice (memory_Reader (backend_with group_tuples)) "store"
    (memory_ReaderSpec _ (backend_with_inv _ group_tuples_complete) "store") group_model t ∅ None (cp_ContextualTuples (demo_params "user:z")).
Proof.
  intros Hm Hok. unfold expand_ok in Hok. rewrite !andb_true_iff in Hok. destruct Hok as [[[[Hn Hob] Hu] Hf] Hc]. split; [exact Hm|..].
  - intros ty r rel [_ Hl]%GetRelation_Ret. destruct (relations t !! ty) as [rels|] eqn:E; simpl in Hl; [|by rewrite lookup_empty in Hl].
    pose proof (forallb_elem _ _ (ty, rels) Hn (proj2 (elem_of_map_to_list _ _ _) E)) as Hr. simpl in Hr.
    by apply elem_of_map_to_list, (forallb_elem _ _ (r, rel) Hr), negb_true_iff in Hl.
  - intros ty r rel Hrel ob Hin. pose proof (forallb_elem _ _ rel Hob (elem_of_all_relations t ty r rel Hrel)) as Hr.
    pose proof (forallb_elem _ _ ob Hr Hin) as Hb. by apply bool_decide_eq_true in Hb.
  - intros x Hx. exact (forallb_elem _ _ x Hu Hx).
  - by apply contextual_fresh_decide.
  - intros x Hx _. pose proof (forallb_elem _ _ x Hc Hx) as Hb. simpl in Hb. destruct (condition_filter _ _ _) as [[]| |]; done.
Qed.

Lemma Expand_exact_witness :
  match validate group_model with
  | Ret t => match demo_expand t with Ret node => users_sorted node | _ => False end
  | _ => False
  end.
Proof.
  pose proof expand_facts as Hf. destruct (validate group_model) as [t| |] eqn:E; [|exact Hf..]. destruct Hf as [Hok Hret].
  pose proof (@Expand_exact demo_Graph demo_Cel map_to_list_MapRange demo_Compiler order_FirstError stable_SortSlice
    (memory_Reader (backend_with group_tuples)) "store" (memory_ReaderSpec _ (backend_with_inv _ group_tuples_complete) "store")
    group_model t ∅ None "doc:1" "viewer" (cp_ContextualTuples (demo_params "user:z")) (demo_expand_setting t E Hok)) as Hex.
  unfold demo_expand in *. destruct (ExpandQuery_Execute _ _ _ _ _) as [node| |]; [|discriminate..]. destruct Hex as [Hs _]. exact Hs.
Defined.
