(* ===== verification/CachedResolver.v ===== *)
(** * The caching check resolver: [internal/graph/cached_resolver.go]

    [CachedCheckResolver] sits in front of the local checker, for a request and for the
    sub-problems that the checker dispatches: it answers from the cache when the entry is
    newer than the last invalidation, and saves what the local checker answers, unless the
    answer reports a cycle.  Computed usersets do not pass through it: the local checker
    calls itself for them.

    The cache is shared by all requests and evicts entries when it likes, so what a lookup
    finds is not a function of the request.  The model keeps the log of everything ever
    saved, in the order in which calls end, and lets a lookup find nothing or any entry
    saved before under the key.  The histories considered are those of the requests of one
    class: same model, contextual tuples, context and invariant key, over a store that does
    not change, without a collision of the 64-bit hash among their lookups.  Contexts that
    share a key and entries from before a write are outside. *)

From stdpp Require Import relations.
From S2P Require Import Prelude GoStd Tuple CacheKeys Iterators Model Memory MemorySpec Typesystem Entrypoints TypesystemSpec.
From S2P Require Import Condition Validation ValidationSpec Check CheckSpec CheckSemantics CheckExact CheckMemory CombinedReader.
From S2P Require Import ReverseExpand ReverseExpandMemory FastPathStreams FastPathStreamsSpec FastPath FastPathSpec SortedCombined FastPathExact.
From S2P Require Import WeightedGraph FastPathMemory RecursivePath RecursivePathSpec RecursivePathExact RecursivePathMemory ServerErrors CheckCommand.

Local Open Scope Z_scope.
Local Open Scope go_scope.

Record CheckResponseCacheEntry := mkCheckResponseCacheEntry {
  LastModified : Z;
  CheckResponse : ResolveCheckResponse;
}.

(** [xxhash] of a string, in decimal. *)
Class XXHash := { xxhash : string → string }.

(** What is hashed, and the key. *)
Definition cache_string (inv : RequestInvariant) (tk : TupleKey) : string := TupleKeyToString tk +:+ invariantCacheKey inv.

Definition BuildCacheKey `{!XXHash} (inv : RequestInvariant) (tk : TupleKey) : string :=
  xxhash (cache_string inv tk).

(** [CachedCheckResolver.ResolveCheck]: the response, and the entry saved under the key of
    the request.  [found] is what the cache holds for the key, [delegated] the outcome of
    the delegate, which is called only without a valid entry. *)
Definition CachedCheckResolver_ResolveCheck (inv : RequestInvariant) (found : option CheckResponseCacheEntry)
    (delegated : checkOutcome) (now : Z) : checkOutcome * option CheckResponseCacheEntry :=
  let tryCache := negb (HigherConsistency inv) in
  let cached := if tryCache then
                  match found with
                  | Some res => if LastCacheInvalidationTime inv <? LastModified res then Some (CheckResponse res) else None
                  | None => None
                  end
                else None in
  match cached with
  | Some resp => (Ret resp, None)
  | None =>
      match delegated with
      | Ret resp => if CycleDetected resp then (Ret resp, None) else (Ret resp, Some (mkCheckResponseCacheEntry now resp))
      | o => (o, None)
      end
  end.

Section cached.
Context `{!ModelGraph, !Cel, !Scheduler, !RelationshipTupleReader, !XXHash}.
Context (typesys : TypeSystem) (conds : gmap string EvaluableCondition) (fp : FastPaths) (maxResolutionDepth : Z).
Context (inv : RequestInvariant).

(** What the lookups of a request find, and the clock when its calls save. *)
Context (lookup : nat → ResolveCheckRequest → option CheckResponseCacheEntry) (clock : nat → ResolveCheckRequest → Z).

(** The local checker below the caching resolver: it is its own checker for computed
    usersets, and dispatches other sub-problems to the caching resolver in front of it. *)
Fixpoint LocalResolveCheck (fuel : nat) (req : ResolveCheckRequest) : checkOutcome :=
  match fuel with
  | O => Throw ErrCheckFuel
  | S fuel =>
      LocalChecker_ResolveCheck typesys conds fp maxResolutionDepth (LocalResolveCheck fuel)
        (λ child, (CachedCheckResolver_ResolveCheck inv (lookup fuel child) (LocalResolveCheck fuel child) (clock fuel child)).1) req
  end.

Definition CachedResolveCheck (fuel : nat) (req : ResolveCheckRequest) : checkOutcome :=
  (CachedCheckResolver_ResolveCheck inv (lookup fuel req) (LocalResolveCheck fuel req) (clock fuel req)).1.

(** What the call for [req] saves. *)
Definition saved (fuel : nat) (req : ResolveCheckRequest) : option CheckResponseCacheEntry :=
  (CachedCheckResolver_ResolveCheck inv (lookup fuel req) (LocalResolveCheck fuel req) (clock fuel req)).2.
End cached.

(** ** Correctness *)

Section spec.
Context `{!ModelGraph, !Cel, !MapRange, !ConditionCompiler, !Scheduler, !GraphLaws, !XXHash}.
Context `{!RelationshipTupleReader} (store : string) `{!RelationshipTupleReaderSpec store}.
Context (m : AuthorizationModel) (typesys : TypeSystem) (conds : gmap string EvaluableCondition) (fp : FastPaths).
Context (maxResolutionDepth : Z) (reqCtx : option Struct) (ikey : string).

(** The users whose checks are considered, and what a saved denial means for them. *)
Context (asked : string → Prop) (D : string → string → string → Prop).

Abbreviation has user := (has_some typesys conds (stored store) reqCtx user).
Abbreviation LocalResolveCheck := (LocalResolveCheck typesys conds fp maxResolutionDepth).
Abbreviation CachedResolveCheck := (CachedResolveCheck typesys conds fp maxResolutionDepth).
Abbreviation saved := (saved typesys conds fp maxResolutionDepth).

(** A validated model over a store with valid users, with relation names as the API accepts
    them. *)
Record cache_setting : Prop := {
  ch_model : NewAndValidate m = Ret typesys;
  ch_refs : refs_named typesys;
  ch_conds : conds_compiled conds;
  ch_stored : ∀ t, t ∈ stored store → IsValidUser (User (Key t)) = true;
  ch_names : ∀ ty r rel, GetRelation typesys ty r = Ret rel → has_byte "@" r = false;
  ch_users : ∀ user, asked user → IsValidUser user = true ∧ GetType user ≠ "";
}.

(** A denial without cycle means [D], one of a fast path too. *)
Definition denials_mean : Prop := ∀ user, asked user →
  denial_meaning typesys conds store reqCtx user (D user) ∧ fast_paths_answer typesys conds fp store reqCtx user (D user).

(** The checks that the cache is asked for. *)
Record problem_ok (tk : TupleKey) : Prop := {
  po_user : asked (User tk);
  po_object : object_ok (Object tk);
  po_relation : defined_relation typesys tk;
}.

(** A request for a problem, in the class of requests that share [ikey]: same store, model,
    contextual tuples and context. *)
Definition class_request (inv : RequestInvariant) (req : ResolveCheckRequest) : Prop :=
  invariantCacheKey inv = ikey ∧ problem_ok (rq_TupleKey req) ∧ request_ok store reqCtx (User (rq_TupleKey req)) req.

Definition problem_string (tk : TupleKey) : string := TupleKeyToString tk +:+ ikey.

(** The answer of an entry is definitive. *)
Definition right (tk : TupleKey) (resp : ResolveCheckResponse) : Prop :=
  CycleDetected resp = false ∧
  (if Allowed resp then has (User tk) (Object tk) (Relation tk) else D (User tk) (Object tk) (Relation tk)).

Abbreviation cache_log := (list (string * CheckResponseCacheEntry)).

Definition log_right (log : cache_log) : Prop :=
  ∀ tk e, problem_ok tk → (problem_string tk, e) ∈ log → right tk (CheckResponse e).

(** Lookups find entries of the log whose string has the key of the request; none of them is
    a collision of the hash. *)
Definition lookup_from (inv : RequestInvariant) (log : cache_log) (lookup : nat → ResolveCheckRequest → option CheckResponseCacheEntry)
  : Prop :=
  ∀ n req e, lookup n req = Some e → ∃ s, (s, e) ∈ log ∧ xxhash s = BuildCacheKey inv (rq_TupleKey req).

Definition collision_free (inv : RequestInvariant) (log : cache_log) (lookup : nat → ResolveCheckRequest → option CheckResponseCacheEntry)
  : Prop :=
  ∀ n req e s, lookup n req = Some e → (s, e) ∈ log → xxhash s = BuildCacheKey inv (rq_TupleKey req) → s = cache_string inv (rq_TupleKey req).

(** A call of the caching resolver that saves an entry. *)
Inductive log_step : cache_log → cache_log → Prop :=
| log_save log inv lookup clock fuel req e :
    class_request inv req → lookup_from inv log lookup → collision_free inv log lookup → saved inv lookup clock fuel req = Some e →
    log_step log ((cache_string inv (rq_TupleKey req), e) :: log).

Hypothesis Hset : cache_setting.
Hypothesis Hmean : denials_mean.

Lemma problem_string_inj tk tk' :
  problem_ok tk → problem_ok tk' → problem_string tk = problem_string tk' → key_of tk = key_of tk'.
Proof.
  intros [_ [_ Ho] [rel Hr]] [_ [_ Ho'] [rel' Hr']] Heq. apply str_app_inj_r in Heq.
  unfold TupleKeyToString in Heq. rewrite !str_app_char in Heq. apply str_split_unique in Heq as [Heo Heq]; [|done..].
  apply str_split_unique in Heq as [Her Heu]; [|by eapply (ch_names Hset)..]. unfold key_of. congruence.
Qed.

Section run.
Context (inv : RequestInvariant) (lookup : nat → ResolveCheckRequest → option CheckResponseCacheEntry) (clock : nat → ResolveCheckRequest → Z).
Context (log : cache_log).
Hypothesis Hlog : log_right log.
Hypothesis Hlookup : lookup_from inv log lookup.
Hypothesis Hfree : collision_free inv log lookup.

(** An answer from the cache or the delegate's. *)
Lemma cached_cases fuel req o :
  CachedCheckResolver_ResolveCheck inv (lookup fuel req) o (clock fuel req) = (o, None) ∨
  (∃ resp, CachedCheckResolver_ResolveCheck inv (lookup fuel req) o (clock fuel req) = (Ret resp, None) ∧
     ∃ e, CheckResponse e = resp ∧ (cache_string inv (rq_TupleKey req), e) ∈ log) ∨
  (∃ resp, o = Ret resp ∧ CycleDetected resp = false ∧
     CachedCheckResolver_ResolveCheck inv (lookup fuel req) o (clock fuel req) =
       (o, Some (mkCheckResponseCacheEntry (clock fuel req) resp))).
Proof.
  unfold CachedCheckResolver_ResolveCheck. set (c := if negb _ then _ else _).
  assert (∀ resp, c = Some resp → ∃ e, CheckResponse e = resp ∧ (cache_string inv (rq_TupleKey req), e) ∈ log) as Hc.
  { intros resp. unfold c. destruct (HigherConsistency inv); simpl; [done|]. destruct (lookup fuel req) as [e|] eqn:E; [|done].
    destruct (_ <? _); [|done]. intros [= <-]. exists e. split; [done|].
    destruct (Hlookup _ _ _ E) as (s&Hs&Hk). by rewrite <-(Hfree _ _ _ _ E Hs Hk). }
  destruct c as [resp|]; [right; left; exists resp; split; [done|by apply Hc]|].
  destruct o as [resp| |]; [|by left..]. destruct (CycleDetected resp) eqn:E; [by left|]. right; right. by exists resp.
Qed.

Abbreviation answers req := (verdict false (has (User (rq_TupleKey req)) (Object (rq_TupleKey req)) (Relation (rq_TupleKey req)))
                                          (D (User (rq_TupleKey req)) (Object (rq_TupleKey req)) (Relation (rq_TupleKey req)))).

(** Sub-problems are in the class. *)
Lemma class_child req child :
  class_request inv req → request_ok store reqCtx (User (rq_TupleKey req)) child → defined_relation typesys (rq_TupleKey child) →
  class_request inv child ∧ User (rq_TupleKey child) = User (rq_TupleKey req).
Proof.
  intros (Hik&[Hu Ho Hr]&_) Hok Hdef. pose proof Hok as (_&_&Hcu&Hco). split; [|done]. split_and!; [done| |by rewrite Hcu].
  split; [by rewrite Hcu|done|done].
Qed.

(** The answer of the caching resolver is as good as the local checker's. *)
Lemma cached_answers fuel req :
  class_request inv req → answers req (LocalResolveCheck inv lookup clock fuel req) → answers req (CachedResolveCheck inv lookup clock fuel req).
Proof.
  intros (Hik&Hp&Hok) Hv. unfold CachedResolver.CachedResolveCheck.
  destruct (cached_cases fuel req (LocalResolveCheck inv lookup clock fuel req)) as [->|[(resp&->&e&<-&He)|(resp&Heq&_&->)]]; [exact Hv| |exact Hv].
  unfold cache_string in He. rewrite Hik in He. destruct (Hlog _ e Hp He) as [Hc Hr']. simpl. by destruct (Allowed (CheckResponse e)).
Qed.

Lemma local_answers fuel : ∀ req, class_request inv req → answers req (LocalResolveCheck inv lookup clock fuel req).
Proof.
  induction fuel as [|fuel IH]; intros req Hreq; [done|]. cbn [CachedResolver.LocalResolveCheck].
  pose proof Hreq as (Hik&[Hu Ho Hr]&Hok). destruct (ch_users Hset _ Hu) as [Hvu Hty]. destruct (Hmean _ Hu) as [Hm Hfp].
  apply (LocalChecker_verdict m typesys conds fp store reqCtx (User (rq_TupleKey req)) (ch_model Hset) (ch_refs Hset) (ch_conds Hset) (D (User (rq_TupleKey req))) Hfp
    (ch_stored Hset) Hvu Hty); [done|auto|done|].
  intros f child Hf Hok' Hdef. destruct (class_child req child Hreq Hok' Hdef) as [Hc Hcu]. rewrite <-Hcu.
  destruct Hf as [->| ->]; [by apply IH|]. by apply cached_answers, IH.
Qed.

Lemma cached_verdict fuel req : class_request inv req → answers req (CachedResolveCheck inv lookup clock fuel req).
Proof. intros Hreq. apply cached_answers; [done|]. by apply local_answers. Qed.

(** What a call saves is definitive. *)
Lemma saved_right fuel req e :
  class_request inv req → saved inv lookup clock fuel req = Some e → right (rq_TupleKey req) (CheckResponse e).
Proof.
  intros Hreq Hs. pose proof (local_answers fuel req Hreq) as Hv. unfold CachedResolver.saved in Hs.
  destruct (cached_cases fuel req (LocalResolveCheck inv lookup clock fuel req))
    as [Heq|[(resp&Heq&_)|(resp&Ho&Hc&Heq)]]; rewrite Heq in *; [done|done|]. injection Hs as <-. rewrite Ho in Hv. simpl in *.
  split; [done|]. destruct (Allowed resp); [by destruct Hv|]. apply Hv. by right.
Qed.

Lemma cached_concluded_local fuel req :
  concluded (LocalResolveCheck inv lookup clock fuel req) → concluded (CachedResolveCheck inv lookup clock fuel req).
Proof.
  intros Hc. unfold CachedResolver.CachedResolveCheck.
  destruct (cached_cases fuel req (LocalResolveCheck inv lookup clock fuel req)) as [->|[(resp&->&_)|(resp&_&_&->)]]; [done|by apply concluded_ret|done].
Qed.

Lemma local_concluded fuel req :
  fast_paths_conclude fp → depth_ok maxResolutionDepth req → (check_fuel typesys maxResolutionDepth req ≤ fuel)%nat →
  concluded (LocalResolveCheck inv lookup clock fuel req).
Proof.
  intros Hfp. revert req. induction fuel as [|fuel IH]; intros req Hd Hf; [pose proof (check_fuel_pos typesys maxResolutionDepth req); lia|].
  cbn [CachedResolver.LocalResolveCheck].
  apply (LocalChecker_delegates typesys conds fp maxResolutionDepth _ (LocalResolveCheck inv lookup clock fuel) _ (CachedResolveCheck inv lookup clock fuel));
    [done|done|]. intros child Hc Hlt. assert (concluded (LocalResolveCheck inv lookup clock fuel child)) as Hl by (apply IH; [done|lia]).
  split; [done|]. split; [|done]. by apply cached_concluded_local.
Qed.

(** On models without exclusion a denial is definitive for requests without history. *)
Section complete.
Hypothesis Hpos : positive_model typesys.
Hypothesis HD : ∀ user o r, asked user → D user o r → ¬ has user o r.

Abbreviation underivable n req := (¬ granted typesys conds (stored store) reqCtx (User (rq_TupleKey req)) n
                                     (Object (rq_TupleKey req)) (Relation (rq_TupleKey req))).

Lemma cached_complete_local n fuel req resp :
  class_request inv req → (∀ resp, LocalResolveCheck inv lookup clock fuel req = Ret resp → Allowed resp = false → underivable n req) →
  CachedResolveCheck inv lookup clock fuel req = Ret resp → Allowed resp = false → underivable n req.
Proof.
  intros (Hik&Hp&_) Hlocal Hres Hden. unfold CachedResolver.CachedResolveCheck in Hres.
  destruct (cached_cases fuel req (LocalResolveCheck inv lookup clock fuel req)) as [Heq|[(resp'&Heq&e&<-&He)|(resp'&_&_&Heq)]];
    rewrite Heq in Hres; simpl in Hres; [by eapply Hlocal| |by eapply Hlocal].
  injection Hres as <-. unfold cache_string in He. rewrite Hik in He. destruct (Hlog _ e Hp He) as [_ Hright]. rewrite Hden in Hright.
  intros Hg. apply (HD _ _ _ (po_user _ Hp) Hright). by exists n.
Qed.

Lemma local_complete n : ∀ fuel req resp,
  class_request inv req → visited_ok typesys conds store reqCtx (User (rq_TupleKey req)) n req →
  LocalResolveCheck inv lookup clock fuel req = Ret resp → Allowed resp = false → underivable n req.
Proof.
  induction n as [|n IH]; intros fuel req resp Hreq Hvis Hres Hden; [by intros []|].
  destruct fuel as [|fuel]; [done|]. pose proof Hreq as (Hik&[Hu Ho Hr]&Hok).
  assert (underivable n req) as Hng by (apply (IH (S fuel) req resp); [done|by apply visited_ok_pred|done..]).
  destruct (ch_users Hset _ Hu) as [Hvu Hty]. destruct (Hmean _ Hu) as [_ Hfp].
  cbn [CachedResolver.LocalResolveCheck] in Hres.
  refine (LocalChecker_complete m typesys conds fp store reqCtx (User (rq_TupleKey req)) (ch_model Hset) (ch_refs Hset) (ch_conds Hset) _ Hfp
    (ch_stored Hset) Hvu Hty maxResolutionDepth n _ _ req resp Hpos (λ o r, HD _ o r Hu) Hok Hvis Hng _ Hres Hden).
  intros f child Hf Hok' Hdef Hv'. destruct (class_child req child Hreq Hok' Hdef) as [Hc Hcu]. rewrite <-Hcu in *.
  destruct Hf as [->| ->].
  - pose proof (local_answers fuel child Hc) as Hv.
    destruct (LocalResolveCheck inv lookup clock fuel child) as [r'| |] eqn:Hr'; [simpl in Hv |- *|done..].
    destruct (Allowed r') eqn:Ha; [by destruct Hv|]. intros _. by apply (IH fuel child r').
  - pose proof (cached_verdict fuel child Hc) as Hv. fold (CachedResolveCheck inv lookup clock fuel child).
    destruct (CachedResolveCheck inv lookup clock fuel child) as [r'| |] eqn:Hr'; [simpl in Hv |- *|done..].
    destruct (Allowed r') eqn:Ha; [by destruct Hv|]. intros _.
    apply (cached_complete_local n fuel child r'); [done| |done..]. intros resp'. by apply IH.
Qed.
End complete.
End run.

Lemma log_right_reachable log : rtc log_step [] log → log_right log.
Proof.
  apply (rtc_ind_r log_right); [by intros tk e _ ?%not_elem_of_nil|].
  intros l1 l2 _ Hs IH. destruct Hs as [log' inv lookup clock fuel req e Hreq Hl Hfr Hsv].
  intros tk e' Htk [Heq|Hin]%elem_of_cons; [|by apply IH].
  injection Heq as Hkey ->. pose proof (saved_right inv lookup clock log' IH Hl Hfr fuel req e Hreq Hsv) as [Hx1 Hx2].
  assert (key_of tk = key_of (rq_TupleKey req)) as [= Hk1 Hk2 Hk3].
  { apply problem_string_inj; [done|by apply Hreq|]. unfold cache_string in Hkey. by rewrite (proj1 Hreq) in Hkey. }
  split; [done|]. by rewrite Hk1, Hk2, Hk3.
Qed.

Lemma CachedResolveCheck_exact_spec log inv lookup clock fuel req :
  positive_model typesys → (∀ user o r, asked user → D user o r → ¬ has user o r) → fast_paths_conclude fp →
  rtc log_step [] log → lookup_from inv log lookup → collision_free inv log lookup → class_request inv req → rq_VisitedPaths req = ∅ →
  depth_ok maxResolutionDepth req → (check_fuel typesys maxResolutionDepth req ≤ fuel)%nat →
  match CachedResolveCheck inv lookup clock fuel req with
  | Ret resp => Allowed resp = true ↔
      ∃ n, granted typesys conds (stored store) reqCtx (User (rq_TupleKey req)) n (Object (rq_TupleKey req)) (Relation (rq_TupleKey req))
  | Throw e => fuel_free e
  | Panic _ => False
  end.
Proof.
  intros Hpos HD Hfp Hlog%log_right_reachable Hl Hfr Hreq Hvis Hd Hf.
  pose proof (cached_verdict inv lookup clock log Hlog Hl Hfr fuel req Hreq) as Hv.
  pose proof (cached_concluded_local inv lookup clock log Hl Hfr fuel req (local_concluded inv lookup clock log Hl Hfr fuel req Hfp Hd Hf)) as Hc.
  destruct (CachedResolveCheck inv lookup clock fuel req) as [resp|e|w] eqn:Hres; [|by apply Hc|done].
  simpl in Hv. split; [intros Ha; rewrite Ha in Hv; by destruct Hv|].
  intros [n Hg]. destruct (Allowed resp) eqn:Ha; [done|]. exfalso.
  eapply (cached_complete_local inv lookup clock log Hlog Hl Hfr HD n fuel req resp); try done. intros resp'.
  apply (local_complete inv lookup clock log Hlog Hl Hfr Hpos HD n); [done|]. intros k Hk. rewrite Hvis in Hk. by apply not_elem_of_empty in Hk.
Qed.
End spec.

(** ** The cache over the checker of the program *)

Section theorems.
Context `{!ModelGraph, !Cel, !MapRange, !ConditionCompiler, !Scheduler, !GraphLaws, !XXHash}.
Context `{!RelationshipTupleReader} (store : string) `{!RelationshipTupleReaderSpec store}.
Context `{!StartingReader, !SortedReaderSpec store (stored store), !FastScheduler string_iter, !RecursiveScheduler}.
Context (m : AuthorizationModel) (typesys : TypeSystem) (conds : gmap string EvaluableCondition) (maxResolutionDepth : Z).
Context (reqCtx : option Struct) (ikey : string) (asked : string → Prop).

Abbreviation has user := (has_some typesys conds (stored store) reqCtx user).
Abbreviation cannot user := (cannot_some typesys conds (stored store) reqCtx user).
Hypothesis Hset : cache_setting store m typesys conds asked.

(** C17: what the cache holds is definitive, on every model, exclusions included: after any
    history of checks by the users [asked], with one context, one set of contextual tuples
    and one content of the store, without a collision of the hash, and with the fast paths
    of weight two only, where [weight2_ready] holds for each user, an allowed entry is
    backed by a derivation and a denied one by a refutation, although the answers saved
    were themselves computed with answers from the cache, and although denials of
    sub-problems may come from cut cycles. *)
Theorem cache_log_right (canUserset : string → string → string → list RelationReference → bool)
    (canTTU : string → string → string → string → string → bool)
    (log : list (string * CheckResponseCacheEntry)) (tk : TupleKey) (e : CheckResponseCacheEntry) :
  (∀ user, asked user → weight2_ready m typesys conds (stored store) reqCtx user canUserset canTTU) →
  rtc (log_step store typesys conds (weight2_paths typesys conds canUserset canTTU) maxResolutionDepth reqCtx ikey asked) [] log →
  problem_ok typesys asked tk → (problem_string ikey tk, e) ∈ log →
  if Allowed (CheckResponse e)
  then has (User tk) (Object tk) (Relation tk) ∧ ¬ cannot (User tk) (Object tk) (Relation tk)
  else cannot (User tk) (Object tk) (Relation tk) ∧ ¬ has (User tk) (Object tk) (Relation tk).
Proof.
  intros Hready Hlog Htk He.
  assert (denials_mean store typesys conds (weight2_paths typesys conds canUserset canTTU) reqCtx asked (λ user, cannot user)) as Hmean.
  { intros user Hu. split; [apply cannot_meaning|]. apply (weight2_ready_ok m); [by destruct Hset..|by apply Hready]. }
  destruct (log_right_reachable _ _ _ _ _ _ _ _ _ _ Hset Hmean log Hlog tk e Htk He) as [_ Hr].
  assert (∀ n k, granted typesys conds (stored store) reqCtx (User tk) n (Object tk) (Relation tk) →
    refuted typesys conds (stored store) reqCtx (User tk) k (Object tk) (Relation tk) → False) as Hex.
  { intros n k. destruct Hset as [Hm _ _ Hst _ Hus]. destruct (Hus _ (po_user _ _ _ Htk)) as [Hu _].
    apply (proj1 (granted_refuted_exclusive m typesys conds (stored store) reqCtx (User tk) Hm Hst Hu n)). }
  destruct (Allowed (CheckResponse e)), Hr as [n Hn]; (split; [by exists n|]); intros [k Hk]; by eapply Hex.
Qed.

(** C16: a check through the cache is exact on models without exclusion, with all the fast
    paths of the program where [paths_ready] holds for the users [asked]: whatever checks of
    these users, with the same context, contextual tuples and content of the store, have
    filled the cache before, whichever of their entries the lookups of the request and of
    its sub-problems find, if none hits a collision of the hash, and whatever the
    invalidation time and consistency of the request, it is allowed if and only if the user
    has the relation, and otherwise fails with an error of the program. *)
Theorem CachedResolveCheck_exact (sel : FastPathSelection) (log : list (string * CheckResponseCacheEntry)) (inv : RequestInvariant)
    (lookup : nat → ResolveCheckRequest → option CheckResponseCacheEntry) (clock : nat → ResolveCheckRequest → Z)
    (fuel : nat) (req : ResolveCheckRequest) (fp := all_paths typesys conds maxResolutionDepth sel) :
  positive_model typesys → (∀ user, asked user → paths_ready m typesys conds (stored store) reqCtx user sel) →
  rtc (log_step store typesys conds fp maxResolutionDepth reqCtx ikey asked) [] log →
  lookup_from inv log lookup → collision_free inv log lookup → class_request store typesys reqCtx ikey asked inv req → rq_VisitedPaths req = ∅ →
  depth_ok maxResolutionDepth req → (check_fuel typesys maxResolutionDepth req ≤ fuel)%nat →
  match CachedResolveCheck typesys conds fp maxResolutionDepth inv lookup clock fuel req with
  | Ret resp => Allowed resp = true ↔
      ∃ n, granted typesys conds (stored store) reqCtx (User (rq_TupleKey req)) n (Object (rq_TupleKey req)) (Relation (rq_TupleKey req))
  | Throw e => fuel_free e
  | Panic _ => False
  end.
Proof.
  intros Hpos Hready Hlog Hl Hfr Hreq. pose proof Hset as [Hm _ Hcs Hst _ Hus].
  assert (∀ user, asked user → fast_paths_positive typesys conds fp store reqCtx user) as Hfp.
  { intros user Hu. apply (paths_ready_positive m); [done..|by apply Hready]. }
  eapply (CachedResolveCheck_exact_spec store m typesys conds fp maxResolutionDepth reqCtx ikey asked (λ user o r, ¬ has user o r)); [exact Hset| |done|by auto| |done..].
  - intros user Hu. split; [|by apply Hfp]. apply (positive_meaning m); [done|done|by apply Hus|done].
  - by eapply fpo_conclude, (Hfp (User (rq_TupleKey req))), Hreq.
Qed.
End theorems.

(** ** A check twice *)

Definition id_XXHash : XXHash := {| xxhash s := s |}.

Definition no_at_b `{!ModelGraph} (t : TypeSystem) : bool :=
  forallb (λ p : string * gmap string RelationDef,
    forallb (λ q : string * RelationDef, negb (has_byte "@" q.1)) (map_to_list p.2)) (map_to_list (relations t)).

Lemma no_at_decide `{!ModelGraph} t :
  no_at_b t = true → ∀ ty r rel, GetRelation t ty r = Ret rel → has_byte "@" r = false.
Proof.
  intros Hb ty r rel [_ Hl]%GetRelation_Ret. destruct (relations t !! ty) as [rels|] eqn:E; simpl in Hl; [|by rewrite lookup_empty in Hl].
  pose proof (forallb_elem _ _ (ty, rels) Hb (proj2 (elem_of_map_to_list _ _ _) E)) as Hrels. simpl in Hrels.
  by apply negb_true_iff, (forallb_elem _ _ (r, rel) Hrels (proj2 (elem_of_map_to_list _ _ _) Hl)).
Qed.

Definition demo_inv : RequestInvariant := mkRequestInvariant "model" [] false 0 " sp.store/model".
Definition demo_asked (user : string) : Prop := user = "user:x".

(** A setting from that of the fast paths. *)
Lemma demo_cache_setting writes contextual spec mdl t :
  @fast_setting demo_Graph demo_Cel map_to_list_MapRange demo_Compiler mdl t ∅
    (@stored (demo_Reader writes contextual) "store" spec) None "user:x" →
  forallb (λ rel, forallb named_ref (rel_DirectlyRelatedUserTypes rel)) (all_relations t) = true → no_at_b t = true →
  @cache_setting demo_Graph demo_Cel map_to_list_MapRange demo_Compiler (demo_Reader writes contextual) "store" spec mdl t ∅ demo_asked.
Proof.
  intros [] Hrefs Hat. split; [done|by apply refs_named_decide| |done|by apply no_at_decide|by intros user ->].
  intros name e He. by rewrite lookup_empty in He.
Qed.

Section demo.
Context (t : @TypeSystem demo_Graph) (writes contextual : list TupleKey) (fp : FastPaths).

Definition demo_saved : option CheckResponseCacheEntry :=
  @saved demo_Graph demo_Cel rev_Scheduler (demo_Reader writes contextual) t ∅ fp 25 demo_inv
    (λ _ _, None) (λ _ _, 7) 100 (viewer_request "user:x").

Definition demo_entry : CheckResponseCacheEntry := mkCheckResponseCacheEntry 7 (mkResolveCheckResponse true false).
Definition demo_key : string := "doc:1#viewer@user:x sp.store/model".

(** The second time, the cache has the entry. *)
Definition demo_lookup (_ : nat) (req : ResolveCheckRequest) : option CheckResponseCacheEntry :=
  if bool_decide (TupleKeyToString (rq_TupleKey req) +:+ " sp.store/model" = demo_key) then Some demo_entry else None.

Definition demo_cached : checkOutcome :=
  @CachedResolveCheck demo_Graph demo_Cel rev_Scheduler (demo_Reader writes contextual) t ∅ fp 25 demo_inv
    demo_lookup (λ _ _, 9) (@check_fuel demo_Graph t 25 (viewer_request "user:x")) (viewer_request "user:x").

Lemma demo_class_request :
  is_ret (GetRelation t "doc" "viewer") = true →
  @class_request demo_Graph "store" t None " sp.store/model" demo_asked demo_inv (viewer_request "user:x").
Proof.
  intros Hr. split_and!; [done| |exact (viewer_request_ok _)]. split; [done| |].
  - split; [by exists "doc", "1"|done].
  - unfold defined_relation. change (GetType (Object (rq_TupleKey (viewer_request "user:x")))) with "doc".
    change (Relation (rq_TupleKey (viewer_request "user:x"))) with "viewer".
    destruct (GetRelation t "doc" "viewer") as [rel| |]; [by exists rel|done..].
Qed.

Lemma demo_log :
  is_ret (GetRelation t "doc" "viewer") = true → demo_saved = Some demo_entry →
  rtc (@log_step demo_Graph demo_Cel rev_Scheduler id_XXHash (demo_Reader writes contextual) "store" t ∅ fp 25 None
    " sp.store/model" demo_asked) [] [(demo_key, demo_entry)].
Proof.
  unfold demo_saved. intros Hr Hs. apply rtc_once.
  apply (@log_save demo_Graph demo_Cel rev_Scheduler id_XXHash (demo_Reader writes contextual) "store" t ∅ fp 25 None
    " sp.store/model" demo_asked [] demo_inv (λ _ _, None) (λ _ _, 7) 100 (viewer_request "user:x") demo_entry);
    [by apply demo_class_request|by intros n req e|by intros n req e|]. exact Hs.
Qed.
End demo.

Lemma demo_lookup_from : @lookup_from id_XXHash demo_inv [(demo_key, demo_entry)] demo_lookup.
Proof.
  intros n req e. unfold demo_lookup. case_bool_decide as Hk; [|done]. intros [= <-]. exists demo_key. split; [by left|].
  by rewrite <-Hk.
Qed.

Lemma demo_collision_free : @collision_free id_XXHash demo_inv [(demo_key, demo_entry)] demo_lookup.
Proof. by intros n req e s _ _. Qed.

Lemma weight2_cache_facts :
  match validate weight2_model with
  | Ret t =>
      forallb (λ rel, forallb named_ref (rel_DirectlyRelatedUserTypes rel)) (all_relations t) && no_at_b t && weight2_b t
      && is_ret (GetRelation t "doc" "viewer") && @fast_setting_b demo_Graph demo_Cel t ∅ weight2_stored None "user:x" = true ∧
      demo_saved t weight2_tuples weight2_contextual (demo_paths t weight2_tuples weight2_contextual weight2_graph) = Some demo_entry
  | _ => False
  end.
Proof. vm_compute. by split. Qed.

Lemma cache_log_right_witness :
  match validate weight2_model with
  | Ret t => @has_some demo_Graph demo_Cel t ∅ weight2_stored None "user:x" "doc:1" "viewer"
  | _ => False
  end.
Proof.
  pose proof weight2_cache_facts as Hf. destruct (validate weight2_model) as [t| |] eqn:E; [|exact Hf..].
  destruct Hf as [Hb Hs]. rewrite !andb_true_iff in Hb. destruct Hb as [[[[Hrefs Hat] Hw] Hr] Hfs].
  pose proof (@fast_setting_decide demo_Graph demo_Cel map_to_list_MapRange demo_Compiler _ _ _ _ _ _ E Hfs) as Hset.
  refine (proj1 (@cache_log_right demo_Graph demo_Cel map_to_list_MapRange demo_Compiler rev_Scheduler demo_GraphLaws id_XXHash
    (demo_Reader weight2_tuples weight2_contextual) "store" weight2_ReaderSpec
    (demo_Starting weight2_tuples weight2_contextual) weight2_SortedSpec (left_first_Scheduler _)
    weight2_model t ∅ 25 None " sp.store/model" demo_asked (demo_cache_setting _ _ weight2_ReaderSpec _ _ Hset Hrefs Hat) _ _ [(demo_key, demo_entry)]
    (rq_TupleKey (viewer_request "user:x")) demo_entry _ (demo_log t _ _ _ Hr Hs) _ _)).
  - intros user ->. split; [intros ty r rel Hrel; by apply (fs_names _ _ _ _ _ _ Hset ty r rel)|]. intros _. right.
    split; [exact Hset|by apply weight2_decide].
  - exact (proj1 (proj2 (demo_class_request t Hr))).
  - by left.
Defined.

Definition nested_paths (t : @TypeSystem demo_Graph) : FastPaths :=
  @all_paths demo_Graph demo_Cel (demo_Reader nested_tuples []) (demo_Starting nested_tuples []) (left_first_Scheduler _) user_first_Scheduler
    t ∅ 25 nested_selection.

Lemma nested_cache_facts :
  match validate nested_model with
  | Ret t =>
      forallb (λ rel, forallb named_ref (rel_DirectlyRelatedUserTypes rel)) (all_relations t) && no_at_b t
      && forallb (λ rel, negb (has_difference (rel_Rewrite rel))) (all_relations t)
      && is_ret (GetRelation t "doc" "viewer") && @fast_setting_b demo_Graph demo_Cel t ∅ nested_stored None "user:x"
      && @selection_b demo_Graph t "user:x" nested_selection = true ∧
      demo_saved t nested_tuples [] (nested_paths t) = Some demo_entry ∧
      demo_cached t nested_tuples [] (nested_paths t) = Ret (mkResolveCheckResponse true false)
  | _ => False
  end.
Proof. vm_compute. by split_and!. Qed.

Lemma CachedResolveCheck_exact_witness :
  match validate nested_model with
  | Ret t => ∃ n, @granted demo_Graph demo_Cel t ∅ nested_stored None "user:x" n "doc:1" "viewer"
  | _ => False
  end.
Proof.
  pose proof nested_cache_facts as Hf. destruct (validate nested_model) as [t| |] eqn:E; [|exact Hf..].
  destruct Hf as (Hb&Hs&Hc). rewrite !andb_true_iff in Hb. destruct Hb as [[[[[Hrefs Hat] Hpos] Hr] Hfs] Hsel].
  pose proof (@fast_setting_decide demo_Graph demo_Cel map_to_list_MapRange demo_Compiler _ _ _ _ _ _ E Hfs) as Hset.
  pose proof (@CachedResolveCheck_exact demo_Graph demo_Cel map_to_list_MapRange demo_Compiler rev_Scheduler demo_GraphLaws id_XXHash
    (demo_Reader nested_tuples []) "store" nested_ReaderSpec (demo_Starting nested_tuples []) nested_SortedSpec (left_first_Scheduler _) user_first_Scheduler
    nested_model t ∅ 25 None " sp.store/model" demo_asked
    (demo_cache_setting _ _ nested_ReaderSpec _ _ Hset Hrefs Hat) nested_selection [(demo_key, demo_entry)] demo_inv demo_lookup (λ _ _, 9)
    (@check_fuel demo_Graph t 25 (viewer_request "user:x")) (viewer_request "user:x") (positive_decide _ Hpos)) as Hex.
  unfold demo_cached in Hc. change (all_paths t ∅ 25 nested_selection) with (nested_paths t) in Hex. rewrite Hc in Hex. apply Hex.
  - intros user ->. exact (@selection_ready demo_Graph demo_Cel map_to_list_MapRange demo_Compiler _ _ _ _ _ _ _ E Hfs Hsel).
  - exact (demo_log t _ _ _ Hr Hs).
  - exact demo_lookup_from.
  - exact demo_collision_free.
  - exact (demo_class_request t Hr).
  - exact eq_refl.
  - exact (depth_25 _).
  - exact (le_n _).
  - reflexivity.
Defined.
