(* ===== verification/BatchCheck.v ===== *)
(** * The BatchCheck command: [pkg/server/commands/batch_check_command.go]

    Many checks in one request: they are validated, grouped by cache key, each group is
    checked once, and every correlation id gets the outcome of its group.  A group whose
    goroutine finds the context of the request done is not checked; which ones do is the
    oracle [done]. *)

From S2P Require Import Prelude GoStd Tuple CacheKeys Iterators Model Memory MemorySpec Typesystem Entrypoints TypesystemSpec.
From S2P Require Import Condition Validation ValidationSpec Check CheckSpec CheckSemantics CheckExact CheckMemory CombinedReader.
From S2P Require Import ServerErrors CheckCommand CachedResolver.

Local Open Scope Z_scope.
Local Open Scope go_scope.

Record BatchCheckItem := mkBatchCheckItem {
  bi_TupleKey : TupleKeyWithoutCondition;
  bi_ContextualTuples : list TupleKey;
  bi_Context : option Struct;
  bi_CorrelationId : string;
}.

Record BatchCheckCommandParams := mkBatchCheckCommandParams {
  bp_Checks : list BatchCheckItem;
  bp_HigherConsistency : bool;
  bp_StoreID : string;
}.

Inductive BatchErr :=
| TooManyChecks (received allowed : Z)
| NoChecks
| EmptyCorrelationID (tk : TupleKeyWithoutCondition)
| DuplicateCorrelationID (id : string)
| BatchKeyError (e : KeyErr).

(** [BatchCheckOutcome]: a response, the error of the check, or that of the context. *)
Inductive BatchCheckOutcome (E R : Type) :=
| BatchResponse (response : R)
| BatchError (e : E)
| BatchContextErr.
Arguments BatchResponse {E R}.
Arguments BatchError {E R}.
Arguments BatchContextErr {E R}.

Record BatchCheckMetadata := mkBatchCheckMetadata { DuplicateCheckCount : Z }.

(** The loop of [validateCorrelationIDs], with the ids seen. *)
Fixpoint validate_ids (seen : gset string) (checks : list BatchCheckItem) : outcome BatchErr unit :=
  match checks with
  | [] => Ret tt
  | check :: rest =>
      if bi_CorrelationId check =s "" then Throw (EmptyCorrelationID (bi_TupleKey check))
      else if bool_decide (bi_CorrelationId check ∈ seen) then Throw (DuplicateCorrelationID (bi_CorrelationId check))
      else validate_ids ({[bi_CorrelationId check]} ∪ seen) rest
  end.

Definition validateCorrelationIDs (checks : list BatchCheckItem) : outcome BatchErr unit := validate_ids ∅ checks.

Section batch.
Context `{!SortTupleKeys, !XXHash, !MapRange}.

Definition generateCacheKeyFromCheck (check : BatchCheckItem) (storeID authModelID : string) : outcome KeyErr string :=
  let tupleKey := bi_TupleKey check in
  let! key := WriteCheckCacheKey (mkCheckCacheKeyParams storeID authModelID
                (mkTupleKey (woc_Object tupleKey) (woc_Relation tupleKey) (woc_User tupleKey) None)
                (bi_ContextualTuples check) (bi_Context check)) in
  Ret (xxhash key).

(** [checkAndCorrelationIDs], by cache key. *)
Abbreviation key_map := (gmap string (BatchCheckItem * list string)).

(** The body of the loop that groups the checks. *)
Definition add_check (cacheKeyMap : key_map) (key : string) (check : BatchCheckItem) : key_map :=
  match cacheKeyMap !! key with
  | Some (item, ids) => <[key := (item, ids ++ [bi_CorrelationId check])]> cacheKeyMap
  | None => <[key := (check, [bi_CorrelationId check])]> cacheKeyMap
  end.

Fixpoint group_checks (storeID modelID : string) (cacheKeyMap : key_map) (checks : list BatchCheckItem) : outcome BatchErr key_map :=
  match checks with
  | [] => Ret cacheKeyMap
  | check :: rest =>
      match generateCacheKeyFromCheck check storeID modelID with
      | Throw e => Throw (BatchKeyError e)
      | Panic w => Panic w
      | Ret key => group_checks storeID modelID (add_check cacheKeyMap key check) rest
      end
  end.

Definition item_params (params : BatchCheckCommandParams) (check : BatchCheckItem) : CheckCommandParams :=
  mkCheckCommandParams (bp_StoreID params) (bi_TupleKey check) (bi_ContextualTuples check) (bi_Context check) (bp_HigherConsistency params).

Section run.
Context {E R : Type} (done : string → bool) (check_execute : CheckCommandParams → outcome E R).

(** The goroutine of a group: what it stores, or its panic. *)
Definition run_check (params : BatchCheckCommandParams) (key : string) (check : BatchCheckItem) : outcome BatchErr (BatchCheckOutcome E R) :=
  if done key then Ret BatchContextErr
  else
    match check_execute (item_params params check) with
    | Ret response => Ret (BatchResponse response)
    | Throw e => Ret (BatchError e)
    | Panic w => Panic w
    end.

(** The pool, up to [Wait], which raises the panic of a goroutine again. *)
Fixpoint run_checks (params : BatchCheckCommandParams) (cacheKeyMap : list (string * (BatchCheckItem * list string)))
  : outcome BatchErr (gmap string (BatchCheckOutcome E R)) :=
  match cacheKeyMap with
  | [] => Ret ∅
  | (key, item) :: rest =>
      let! o := run_check params key item.1 in
      let! resultMap := run_checks params rest in
      Ret (<[key := o]> resultMap)
  end.

(** The loop that maps every correlation id of a group to the outcome of the group. *)
Fixpoint collect_results {O} (resultMap results : gmap string O) (cacheKeyMap : list (string * (BatchCheckItem * list string)))
  : outcome BatchErr (gmap string O) :=
  match cacheKeyMap with
  | [] => Ret results
  | (key, item) :: rest =>
      match resultMap !! key with
      | Some o => collect_results resultMap (foldl (λ results id, <[id := o]> results) results item.2) rest
      | None => Panic "interface conversion"
      end
  end.

(** [Execute]; [check_execute] is the Check command. *)
Definition BatchCheck_Execute (maxChecksAllowed : Z) (modelID : string) (params : BatchCheckCommandParams)
  : outcome BatchErr (gmap string (BatchCheckOutcome E R) * BatchCheckMetadata) :=
  let n := Z.of_nat (length (bp_Checks params)) in
  if maxChecksAllowed <? n then Throw (TooManyChecks n maxChecksAllowed)
  else if n =? 0 then Throw NoChecks
  else
    let! _ := validateCorrelationIDs (bp_Checks params) in
    let! cacheKeyMap := group_checks (bp_StoreID params) modelID ∅ (bp_Checks params) in
    let! resultMap := run_checks params (range_map cacheKeyMap) in
    let! results := collect_results resultMap ∅ (range_map cacheKeyMap) in
    Ret (results, mkBatchCheckMetadata (n - Z.of_nat (size cacheKeyMap))).
End run.
End batch.

(** ** Lemmas *)

Lemma foldl_insert_lookup {V} (l : list (string * V)) (acc : gmap string V) :
  NoDup l.*1 →
  (∀ k v, (k, v) ∈ l → foldl (λ m p, <[p.1 := p.2]> m) acc l !! k = Some v) ∧
  (∀ k, k ∉ l.*1 → foldl (λ m p, <[p.1 := p.2]> m) acc l !! k = acc !! k).
Proof.
  revert acc. induction l as [|[k v] l IH]; intros acc; csimpl; [split; [by intros ?? ?%not_elem_of_nil|done]|].
  intros [Hk Hn]%NoDup_cons. destruct (IH (<[k := v]> acc) Hn) as [H1 H2]. split.
  - intros k' v' [[= -> ->]|Hin]%elem_of_cons; [|by apply H1]. by rewrite H2, lookup_insert_eq.
  - intros k' [Hne Hk']%not_elem_of_cons. rewrite H2 by done. by rewrite lookup_insert_ne.
Qed.

Lemma foldl_concat {V} (f : string * (BatchCheckItem * list string) → V) (l : list (string * (BatchCheckItem * list string))) (acc : gmap string V) :
  foldl (λ m p, foldl (λ m id, <[id := f p]> m) m p.2.2) acc l =
  foldl (λ m p, <[p.1 := p.2]> m) acc (concat ((λ p, ((λ id, (id, f p)) <$> p.2.2)) <$> l)).
Proof.
  revert acc. induction l as [|p l IH]; intros acc; csimpl; [done|]. rewrite foldl_app, IH. f_equal.
  revert acc. induction p.2.2 as [|id ids IHi]; intros acc; csimpl; [done|]. by rewrite IHi.
Qed.

Lemma collect_results_eq {V} (resultMap : gmap string V) (f : string * (BatchCheckItem * list string) → V) l (acc : gmap string V) :
  (∀ p, p ∈ l → resultMap !! p.1 = Some (f p)) →
  collect_results resultMap acc l = Ret (foldl (λ m p, foldl (λ m id, <[id := f p]> m) m p.2.2) acc l).
Proof.
  revert acc. induction l as [|[key item] l IH]; intros acc Hl; csimpl; [done|].
  pose proof (Hl (key, item) (list_elem_of_here _ _)) as Hk. simpl in Hk. rewrite Hk. apply IH. intros q Hq. apply Hl. by right.
Qed.

(** The goroutines of distinct keys each store their outcome, or one of them panics. *)
Lemma run_checks_cases {E R} done (check_execute : CheckCommandParams → outcome E R) params l :
  NoDup l.*1 →
  match run_checks done check_execute params l with
  | Ret resultMap => ∀ p, p ∈ l → ∃ o, run_check done check_execute params p.1 p.2.1 = Ret o ∧ resultMap !! p.1 = Some o
  | Throw _ => False
  | Panic w => ∃ p, p ∈ l ∧ done p.1 = false ∧ check_execute (item_params params p.2.1) = Panic w
  end.
Proof.
  induction l as [|[key item] l IH]; csimpl; [by intros _ p ?%not_elem_of_nil|]. intros [Hk Hn]%NoDup_cons. specialize (IH Hn).
  destruct (run_check done check_execute params key item.1) as [o|e|w] eqn:Hr; simpl.
  - destruct (run_checks _ _ _ l) as [m|e|w]; simpl; [|done|by destruct IH as (p&?&?); exists p; split; [right|]].
    intros p [->|Hp]%elem_of_cons; [exists o; split; [done|apply lookup_insert_eq]|]. destruct (IH p Hp) as (o'&?&?). exists o'.
    split; [done|]. rewrite lookup_insert_ne; [done|]. intros ->. apply Hk. by apply list_elem_of_fmap_2.
  - unfold run_check in Hr. destruct (done key); [done|]. by destruct (check_execute _).
  - exists (key, item). split; [by left|]. unfold run_check in Hr. simpl. destruct (done key); [done|]. split; [done|].
    destruct (check_execute _); by simplify_eq.
Qed.

Lemma validate_ids_Ret seen checks :
  validate_ids seen checks = Ret tt → NoDup (bi_CorrelationId <$> checks) ∧ ∀ c, c ∈ checks → (bi_CorrelationId c ∉ seen) ∧ (bi_CorrelationId c ≠ "").
Proof.
  revert seen. induction checks as [|c l IH]; intros seen; csimpl; [split; [constructor|by intros ? ?%not_elem_of_nil]|].
  case_bool_decide as Hne; [done|]. case_bool_decide as Hs; [done|]. intros [Hn Hall]%IH. split.
  - apply NoDup_cons. split; [|done]. intros (c'&Heq&Hc')%list_elem_of_fmap. apply Hall in Hc' as [Hx _]. rewrite <-Heq in Hx. set_solver.
  - intros c' [->|Hc']%elem_of_cons; [done|]. apply Hall in Hc'. set_solver.
Qed.

Section grouping.
Context `{!SortTupleKeys, !XXHash, !MapRange} (storeID modelID : string).

Abbreviation key_of_check check := (generateCacheKeyFromCheck check storeID modelID).
Abbreviation key_map := (gmap string (BatchCheckItem * list string)).

(** [m] groups the checks [l]. *)
Record groups (l : list BatchCheckItem) (m : key_map) : Prop := {
  gr_item k it ids : m !! k = Some (it, ids) → it ∈ l ∧ key_of_check it = Ret k;
  gr_ids k it ids id : m !! k = Some (it, ids) → id ∈ ids → ∃ c, c ∈ l ∧ key_of_check c = Ret k ∧ bi_CorrelationId c = id;
  gr_all c : c ∈ l → ∃ k it ids, key_of_check c = Ret k ∧ m !! k = Some (it, ids) ∧ bi_CorrelationId c ∈ ids;
  gr_perm : concat ((λ p : string * (BatchCheckItem * list string), p.2.2) <$> map_to_list m) ≡ₚ bi_CorrelationId <$> l;
  gr_size : (size m ≤ length l)%nat;
}.

Lemma groups_add l m k c :
  groups l m → key_of_check c = Ret k → groups (l ++ [c]) (add_check m k c).
Proof.
  intros [Hitem Hids Hall Hperm Hsize] Hk. unfold add_check. destruct (m !! k) as [[it ids]|] eqn:Hm; split.
  - intros k' it' ids' [[<- [= <- <-]]|[Hne Hl]]%lookup_insert_Some; [|apply Hitem in Hl; set_solver]. apply Hitem in Hm. set_solver.
  - intros k' it' ids' id [[<- [= <- <-]]|[Hne Hl]]%lookup_insert_Some Hid.
    + apply elem_of_app in Hid as [Hid| ->%list_elem_of_singleton]; [|exists c; set_solver].
      destruct (Hids _ _ _ _ Hm Hid) as (c'&?&?&?). exists c'. set_solver.
    + destruct (Hids _ _ _ _ Hl Hid) as (c'&?&?&?). exists c'. set_solver.
  - intros c' [Hc'| ->%list_elem_of_singleton]%elem_of_app.
    + destruct (Hall c' Hc') as (k'&it'&ids'&Hk'&Hl&Hin). destruct (decide (k = k')) as [<-|Hne].
      * exists k, it, (ids ++ [bi_CorrelationId c]). rewrite lookup_insert_eq. rewrite Hm in Hl. injection Hl as <- <-. set_solver.
      * exists k', it', ids'. by rewrite lookup_insert_ne.
    + exists k, it, (ids ++ [bi_CorrelationId c]). rewrite lookup_insert_eq. set_solver.
  - rewrite fmap_app. simpl. rewrite <-Hperm. rewrite <-(insert_delete_id m k (it, ids) Hm) at 2.
    rewrite <-insert_delete_eq. rewrite !map_to_list_insert by apply lookup_delete_eq. csimpl. rewrite <-!app_assoc.
    apply Permutation_app_head, Permutation_app_comm.
  - rewrite map_size_insert_Some by by eauto. rewrite length_app. lia.
  - intros k' it' ids' [[<- [= <- <-]]|[Hne Hl]]%lookup_insert_Some; [set_solver|]. apply Hitem in Hl. set_solver.
  - intros k' it' ids' id [[<- [= <- <-]]|[Hne Hl]]%lookup_insert_Some Hid.
    + apply list_elem_of_singleton in Hid as ->. exists c. set_solver.
    + destruct (Hids _ _ _ _ Hl Hid) as (c'&?&?&?). exists c'. set_solver.
  - intros c' [Hc'| ->%list_elem_of_singleton]%elem_of_app.
    + destruct (Hall c' Hc') as (k'&it'&ids'&Hk'&Hl&Hin). exists k', it', ids'. rewrite lookup_insert_ne; [done|]. intros <-. by rewrite Hm in Hl.
    + exists k, c, [bi_CorrelationId c]. rewrite lookup_insert_eq. set_solver.
  - rewrite fmap_app, map_to_list_insert by done. csimpl. rewrite Hperm. apply Permutation_cons_append.
  - rewrite map_size_insert_None by done. rewrite length_app. simpl. lia.
Qed.

Lemma group_checks_groups rest : ∀ l m m',
  groups l m → group_checks storeID modelID m rest = Ret m' → groups (l ++ rest) m'.
Proof.
  induction rest as [|c rest IH]; intros l m m' Hg; simpl; [intros [= <-]; by rewrite app_nil_r|].
  destruct (key_of_check c) as [k| |] eqn:Hk; [|done..]. intros Hm'.
  rewrite cons_middle, app_assoc. eapply IH; [|done]. by apply groups_add.
Qed.

Lemma group_checks_Ret checks m : group_checks storeID modelID ∅ checks = Ret m → groups checks m.
Proof.
  apply (group_checks_groups checks [] ∅). split.
  - intros k it ids. by rewrite lookup_empty.
  - intros k it ids id. by rewrite lookup_empty.
  - by intros c ?%not_elem_of_nil.
  - by rewrite map_to_list_empty.
  - by rewrite map_size_empty.
Qed.
End grouping.

(** ** Theorems *)

Section theorems.
Context `{!SortTupleKeys, !XXHash, !MapRange} {E R : Type} (maxChecksAllowed : Z) (modelID : string).
Context (done : string → bool) (check_execute : CheckCommandParams → outcome E R) (params : BatchCheckCommandParams).

Abbreviation item_key c := (generateCacheKeyFromCheck c (bp_StoreID params) modelID).

(** Checks with the same key are the same check. *)
Definition keys_identify : Prop :=
  ∀ c c' k, c ∈ bp_Checks params → c' ∈ bp_Checks params → item_key c = Ret k → item_key c' = Ret k →
    item_params params c = item_params params c'.

Lemma validate_ids_cases seen checks :
  match validate_ids seen checks with
  | Ret _ => True
  | Throw (EmptyCorrelationID _) => ∃ c, c ∈ checks ∧ bi_CorrelationId c = ""
  | Throw (DuplicateCorrelationID id) => ∃ c, c ∈ checks ∧ bi_CorrelationId c = id ∧ (id ∈ seen ∨ ¬ NoDup (bi_CorrelationId <$> checks))
  | _ => False
  end.
Proof.
  revert seen. induction checks as [|c l IH]; intros seen; csimpl; [done|].
  case_bool_decide as Hne; [by exists c; split; [left|]|]. case_bool_decide as Hs; [exists c; split_and!; [by left|done|by left]|].
  specialize (IH ({[bi_CorrelationId c]} ∪ seen)). destruct (validate_ids _ l) as [|[]|]; try done.
  - destruct IH as (c'&?&?). exists c'. split; [by right|done].
  - destruct IH as (c'&Hc'&<-&Hd). exists c'. split_and!; [by right|done|]. destruct Hd as [[Heq%elem_of_singleton|?]%elem_of_union|Hd].
    + right. intros [Hn _]%NoDup_cons. apply Hn. rewrite <-Heq. by apply list_elem_of_fmap_2.
    + by left.
    + right. intros [_ Hn]%NoDup_cons. by apply Hd.
Qed.

Lemma group_checks_cases rest : ∀ m,
  match group_checks (bp_StoreID params) modelID m rest with
  | Ret _ => True
  | Throw (BatchKeyError _) => ∃ c, c ∈ rest ∧ forallb kinded_tuple (bi_ContextualTuples c) && kinded_struct (bi_Context c) = false
  | _ => False
  end.
Proof.
  induction rest as [|c l IH]; intros m; simpl; [done|]. unfold generateCacheKeyFromCheck.
  set (p := mkCheckCacheKeyParams _ _ _ _ _). pose proof (WriteCheckCacheKey_ok p) as Hok.
  pose proof (WriteInvariantCheckCacheKey_no_panic p) as Hnp.
  assert (no_panic (WriteCheckCacheKey p)) as Hnp' by by apply no_panic_bind.
  destruct (WriteCheckCacheKey p) as [k| |]; simpl in *; [|by exists c; split; [left|]|done].
  specialize (IH (add_check m (xxhash k) c)). destruct (group_checks _ _ _ l) as [|[]|]; try done.
  destruct IH as (c'&?&?). exists c'. split; [by right|done].
Qed.

Lemma range_keys (m : gmap string (BatchCheckItem * list string)) : NoDup (range_map m).*1.
Proof. rewrite range_map_perm. apply NoDup_fst_map_to_list. Qed.

(** The outcome of the group of a check. *)
Lemma BatchCheck_groups results meta :
  BatchCheck_Execute done check_execute maxChecksAllowed modelID params = Ret (results, meta) →
  ∃ m, groups (bp_StoreID params) modelID (bp_Checks params) m ∧ (Z.of_nat (length (bp_Checks params)) ≤ maxChecksAllowed) ∧ bp_Checks params ≠ [] ∧
    NoDup (bi_CorrelationId <$> bp_Checks params) ∧ (∀ c, c ∈ bp_Checks params → bi_CorrelationId c ≠ "") ∧
    DuplicateCheckCount meta = Z.of_nat (length (bp_Checks params)) - Z.of_nat (size m) ∧
    (∀ k it ids id, m !! k = Some (it, ids) → id ∈ ids →
       ∃ o, run_check done check_execute params k it = Ret o ∧ results !! id = Some o) ∧
    (∀ id, id ∉ bi_CorrelationId <$> bp_Checks params → results !! id = None).
Proof.
  unfold BatchCheck_Execute. destruct (_ <? _) eqn:Hmax; [done|]. destruct (_ =? 0) eqn:Hz0; [done|].
  destruct (validateCorrelationIDs _) as [[]| |] eqn:Hv; simpl; [|done..].
  destruct (group_checks _ _ _ _) as [m| |] eqn:Hm; simpl; [|done..].
  pose proof (run_checks_cases done check_execute params (range_map m) (range_keys m)) as Hrun.
  destruct (run_checks _ _ _ _) as [rm| |]; simpl; [|done..].
  set (f := λ p : string * (BatchCheckItem * list string), default BatchContextErr (rm !! p.1)).
  rewrite (collect_results_eq _ f) by (intros p Hp; destruct (Hrun p Hp) as (o&_&Ho); unfold f; by rewrite Ho).
  simpl. intros [= <- <-]. apply validate_ids_Ret in Hv as [Hn Hids]. apply group_checks_Ret in Hm as Hg. exists m.
  rewrite foldl_concat. set (pairs := concat _).
  assert (pairs.*1 ≡ₚ bi_CorrelationId <$> bp_Checks params) as Hpairs.
  { rewrite <-(gr_perm _ _ _ _ Hg), <-range_map_perm. unfold pairs. clear. induction (range_map m) as [|p l IH]; csimpl; [done|].
    rewrite fmap_app, IH, <-list_fmap_compose. apply Permutation_app_tail. simpl. by rewrite list_fmap_id. }
  assert (NoDup pairs.*1) as Hnp by by rewrite Hpairs.
  destruct (foldl_insert_lookup pairs ∅ Hnp) as [Hx1 Hx2].
  split_and!; [done|apply Z.ltb_ge in Hmax; lia|intros Hnil; by rewrite Hnil in Hz0|done|intros c Hc; by apply Hids|done| |].
  - intros k it ids id Hl Hid. assert ((k, (it, ids)) ∈ range_map m) as Hp by by apply elem_of_range_map.
    destruct (Hrun _ Hp) as (o&Hro&Ho). exists o. split; [done|]. apply Hx1. unfold pairs. eapply elem_of_concat_fmap; [exact Hp|].
    apply list_elem_of_fmap. exists id. split; [|done]. unfold f. by rewrite Ho.
  - intros id Hid. rewrite Hx2, lookup_empty; [done|]. by rewrite Hpairs.
Qed.

Lemma BatchCheck_errors e :
  BatchCheck_Execute done check_execute maxChecksAllowed modelID params = Throw e →
  match e with
  | TooManyChecks n max => n = Z.of_nat (length (bp_Checks params)) ∧ max = maxChecksAllowed ∧ max < n
  | NoChecks => bp_Checks params = []
  | EmptyCorrelationID _ => "" ∈ (bi_CorrelationId <$> bp_Checks params)
  | DuplicateCorrelationID _ => ¬ NoDup (bi_CorrelationId <$> bp_Checks params)
  | BatchKeyError _ => ∃ c, c ∈ bp_Checks params ∧ forallb kinded_tuple (bi_ContextualTuples c) && kinded_struct (bi_Context c) = false
  end.
Proof.
  unfold BatchCheck_Execute. destruct (_ <? _) eqn:Hmax; [intros [= <-]; split_and!; [done..|lia]|].
  destruct (_ =? 0) eqn:Hz0; [intros [= <-]; apply Z.eqb_eq in Hz0; destruct (bp_Checks params); [done|simpl in Hz0; lia]|].
  pose proof (validate_ids_cases ∅ (bp_Checks params)) as Hv. unfold validateCorrelationIDs.
  destruct (validate_ids ∅ _) as [[]|e'|]; simpl; [|intros [= <-]|done].
  - pose proof (group_checks_cases (bp_Checks params) ∅) as Hg. destruct (group_checks _ _ _ _) as [m| |]; simpl; [|intros [= <-]; by case_match|done].
    pose proof (run_checks_cases done check_execute params (range_map m) (range_keys m)) as Hrun.
    destruct (run_checks _ _ _ _) as [rm| |]; simpl; [|done..].
    rewrite (collect_results_eq _ (λ p, default BatchContextErr (rm !! p.1))); [done|]. intros p Hp. by destruct (Hrun p Hp) as (o&_&->).
  - destruct e'; try done.
    + destruct Hv as (c&Hc&Heq). rewrite <-Heq. by apply list_elem_of_fmap_2.
    + destruct Hv as (c&Hc&_&[?|?]); [set_solver|done].
Qed.

Lemma BatchCheck_panics w :
  BatchCheck_Execute done check_execute maxChecksAllowed modelID params = Panic w →
  ∃ c, c ∈ bp_Checks params ∧ check_execute (item_params params c) = Panic w.
Proof.
  unfold BatchCheck_Execute. destruct (_ <? _); [done|]. destruct (_ =? 0); [done|].
  pose proof (validate_ids_cases ∅ (bp_Checks params)) as Hv. unfold validateCorrelationIDs.
  destruct (validate_ids ∅ _) as [[]|e'|]; simpl; [|done|done].
  pose proof (group_checks_cases (bp_Checks params) ∅) as Hg. destruct (group_checks _ _ _ _) as [m| |] eqn:Hm; simpl; [|done..].
  apply group_checks_Ret in Hm as Hgr.
  pose proof (run_checks_cases done check_execute params (range_map m) (range_keys m)) as Hrun.
  destruct (run_checks _ _ _ _) as [rm| |w']; simpl; [|done|].
  - rewrite (collect_results_eq _ (λ p, default BatchContextErr (rm !! p.1))); [done|]. intros p Hp. by destruct (Hrun p Hp) as (o&_&->).
  - intros [= <-]. destruct Hrun as ([k [it ids]]&Hin%elem_of_range_map&_&Hp). exists it. split; [|done]. by destruct (gr_item _ _ _ _ Hgr _ _ _ Hin).
Qed.

(** C23: every check of the batch is answered, and nothing else: when checks with the same
    cache key are the same check, a check gets the response or the error that the Check
    command gives for it, or, if the context of the request is done when its goroutine
    starts, the error of the context; the checks answered are at most [maxChecksAllowed],
    and fewer than all are counted as duplicates.  The command fails on too many checks, on
    none, on an empty or a repeated correlation id, or when the context of a check has a
    value without kind, and panics only if the Check command does for a check of the
    batch. *)
Theorem BatchCheck_correct :
  match BatchCheck_Execute done check_execute maxChecksAllowed modelID params with
  | Ret (results, meta) =>
      (keys_identify → ∀ c, c ∈ bp_Checks params → ∃ k o,
         item_key c = Ret k ∧ results !! bi_CorrelationId c = Some o ∧
         if done k then o = BatchContextErr
         else match check_execute (item_params params c) with
              | Ret response => o = BatchResponse response
              | Throw e => o = BatchError e
              | Panic _ => False
              end) ∧
      dom results = list_to_set (bi_CorrelationId <$> bp_Checks params) ∧
      0 ≤ DuplicateCheckCount meta ∧ DuplicateCheckCount meta < Z.of_nat (length (bp_Checks params)) ∧
      Z.of_nat (length (bp_Checks params)) ≤ maxChecksAllowed ∧
      NoDup (bi_CorrelationId <$> bp_Checks params) ∧ "" ∉ (bi_CorrelationId <$> bp_Checks params)
  | Throw (TooManyChecks n max) => n = Z.of_nat (length (bp_Checks params)) ∧ max = maxChecksAllowed ∧ max < n
  | Throw NoChecks => bp_Checks params = []
  | Throw (EmptyCorrelationID _) => "" ∈ (bi_CorrelationId <$> bp_Checks params)
  | Throw (DuplicateCorrelationID _) => ¬ NoDup (bi_CorrelationId <$> bp_Checks params)
  | Throw (BatchKeyError _) =>
      ∃ c, c ∈ bp_Checks params ∧ forallb kinded_tuple (bi_ContextualTuples c) && kinded_struct (bi_Context c) = false
  | Panic w => ∃ c, c ∈ bp_Checks params ∧ check_execute (item_params params c) = Panic w
  end.
Proof.
  destruct (BatchCheck_Execute done check_execute maxChecksAllowed modelID params) as [[results meta]|e|w] eqn:Ex.
  - apply BatchCheck_groups in Ex as (m&[Hitem Hids Hall Hperm Hsize]&Hmax&Hne&Hn&Hempty&Hdup&Hres&Hnone). split_and!.
    + intros Hid c Hc. destruct (Hall c Hc) as (k&it&ids&Hk&Hl&Hin). destruct (Hitem _ _ _ Hl) as [Hit Hkit].
      destruct (Hres _ _ _ _ Hl Hin) as (o&Hro&Ho). exists k, o. split_and!; [done..|]. unfold run_check in Hro.
      rewrite (Hid c it k) by done. destruct (done k); [congruence|]. destruct (check_execute _); congruence.
    + apply set_eq. intros id. rewrite elem_of_dom, elem_of_list_to_set. split.
      * intros [o Ho]. destruct (decide (id ∈ bi_CorrelationId <$> bp_Checks params)); [done|]. by rewrite Hnone in Ho.
      * intros (c&->&Hc)%list_elem_of_fmap. destruct (Hall c Hc) as (k&it&ids&Hk&Hl&Hin). destruct (Hres _ _ _ _ Hl Hin) as (o&_&Ho). eauto.
    + lia.
    + assert (size m ≠ 0%nat); [|lia]. destruct (bp_Checks params) as [|c l] eqn:Ec; [done|].
      destruct (Hall c) as (k&it&ids&_&Hl&_); [by left|]. intros Hz%map_size_empty_inv. subst m. by rewrite lookup_empty in Hl.
    + done.
    + done.
    + intros (c&Heq&Hc)%list_elem_of_fmap. by apply (Hempty c).
  - by apply BatchCheck_errors in Ex.
  - by apply BatchCheck_panics in Ex.
Qed.
End theorems.

(** Two checks of the same tuple, the context of one a list and of the other the string of
    its elements. *)
Definition colliding_batch (store : string) (tk : TupleKeyWithoutCondition) : BatchCheckCommandParams :=
  mkBatchCheckCommandParams
    [mkBatchCheckItem tk [] (Some (mkStruct {["x" := ListValue [StringValue "a"; StringValue "b"]]})) "1";
     mkBatchCheckItem tk [] (Some (mkStruct {["x" := StringValue "a,b"]})) "2"] false store.

(** Checks of one tuple with different contexts can be answered as one: in this batch
    only the check with the list is run, and its outcome is also given to the correlation
    id of the check with the string, whatever the Check command would answer. *)
Theorem BatchCheck_context_collision `{!SortTupleKeys, !XXHash, !MapRange} {E R : Type} (modelID store : string)
    (tk : TupleKeyWithoutCondition) (check_execute : CheckCommandParams → outcome E R) (response : R) :
  let first := mkCheckCommandParams store tk [] (Some (mkStruct {["x" := ListValue [StringValue "a"; StringValue "b"]]})) false in
  check_execute first = Ret response →
  match BatchCheck_Execute (λ _, false) check_execute 50 modelID (colliding_batch store tk) with
  | Ret (results, meta) => results !! "1" = Some (BatchResponse response) ∧ results !! "2" = Some (BatchResponse response) ∧
      DuplicateCheckCount meta = 1
  | _ => False
  end.
Proof.
  intros first Hfirst. unfold BatchCheck_Execute.
  change (validateCorrelationIDs (bp_Checks (colliding_batch store tk))) with (Ret tt : outcome BatchErr unit). simpl.
  set (k := generateCacheKeyFromCheck _ store modelID).
  change (generateCacheKeyFromCheck (mkBatchCheckItem tk [] (Some (mkStruct {["x" := StringValue "a,b"]})) "2") store modelID) with k.
  destruct k as [key| |] eqn:Ek; [clear Ek; clearbody k|done..].
  unfold add_check at 2. rewrite lookup_empty. unfold add_check. rewrite lookup_insert_eq, insert_insert_eq. simpl.
  set (m := <[key := _]> _).
  assert (range_map m = [(key, (mkBatchCheckItem tk [] (cp_Context first) "1", ["1"; "2"]))]) as Hm.
  { apply Permutation_singleton_r. rewrite range_map_perm. unfold m. by rewrite insert_empty, map_to_list_singleton. }
  rewrite Hm. cbn [run_checks run_check fst]. change (item_params _ _) with first. rewrite Hfirst. simpl.
  rewrite lookup_insert_eq. simpl.
  split_and!; [by rewrite lookup_insert_ne, lookup_insert_eq|by rewrite lookup_insert_eq|].
  unfold m. by rewrite insert_empty, map_size_singleton.
Qed.
