(* ===== verification/ListObjects.v ===== *)
(** * The ListObjects command: [pkg/server/commands/list_objects.go]

    [evaluate] runs the reverse expansion of [ReverseExpand.v] and consumes its results:
    one that needs no further evaluation is an object of the answer, the others are checked
    first, all in goroutines of one pool.  [Execute] collects what [evaluate] sends, up to a
    maximum.

    The goroutines are a transition system: the search, the channel between search and
    consumer, the checks in flight, the shared counter [objectsFound], the channel of
    results and the cancellation of the pool.  A send through [TrySendThroughChannel] may be
    dropped once its context is cancelled. *)

From S2P Require Import Prelude GoStd Tuple CacheKeys Iterators Model Memory Typesystem Condition Validation Check CheckCommand.
From S2P Require Import RelationshipGraph ReverseExpand ServerErrors.

Local Open Scope Z_scope.
Local Open Scope go_scope.

Record ListObjectsRequest := mkListObjectsRequest {
  lo_StoreId : string;
  lo_Type : string;
  lo_Relation : string;
  lo_User : string;
  lo_ContextualTuples : list TupleKey;
  lo_Context : option Struct;
  lo_HigherConsistency : bool;
}.

(** ** Validation *)

(** The validation of the contextual tuples. *)
Fixpoint validate_ctx_tuples `{!ModelGraph, !Cel} (typesys : TypeSystem) (tuples : list TupleKey) : outcome ServerError unit :=
  match tuples with
  | [] => Ret tt
  | ctxTuple :: rest =>
      match ValidateTupleForWrite typesys ctxTuple with
      | Throw e => Throw (HandleTupleValidateError e)
      | Panic w => Panic w
      | Ret _ => validate_ctx_tuples typesys rest
      end
  end.

(** What [evaluate] checks before it starts. *)
Definition evaluate_validate `{!ModelGraph, !Cel} (typesys : TypeSystem) (req : ListObjectsRequest) : outcome ServerError unit :=
  if negb (IsSchemaVersionSupported (schemaVersion typesys)) then Throw SE_ValidationError
  else
    let! _ := validate_ctx_tuples typesys (lo_ContextualTuples req) in
    match Typesystem.GetRelation typesys (lo_Type req) (lo_Relation req) with
    | Throw (ObjectTypeUndefinedError _) => Throw (SE_TypeNotFound (lo_Type req))
    | Throw (RelationUndefinedError _ _) => Throw (SE_RelationNotFound (lo_Relation req) (lo_Type req))
    | Throw _ => Throw SE_Internal
    | Panic w => Panic w
    | Ret _ =>
        match ValidateUser typesys (lo_User req) with
        | Throw _ => Throw SE_ValidationError
        | Panic w => Panic w
        | Ret _ => Ret tt
        end
    end.

(** The request of the search. *)
Definition expand_request (req : ListObjectsRequest) : ReverseExpandRequest :=
  mkReverseExpandRequest (lo_StoreId req) (lo_Type req) (lo_Relation req) (sourceUserRef (lo_User req)) (lo_Context req) None.

(** The check of a candidate, and what it may answer. *)
Definition candidate_check (req : ListObjectsRequest) (object : string) : CheckCommandParams :=
  mkCheckCommandParams (lo_StoreId req) (mkTupleKeyWithoutCondition object (lo_Relation req) (lo_User req))
    (lo_ContextualTuples req) (lo_Context req) (lo_HigherConsistency req).

Definition candidate_answers `{!ModelGraph, !Cel, !SortTupleKeys} (typesys : TypeSystem) (times : string → Z)
    (resolver : list TupleKey → RequestInvariant → ResolveCheckRequest → checkOutcome) (req : ListObjectsRequest)
    (object : string) (out : CheckCmdErr + bool) : Prop :=
  match CheckQuery_Execute typesys times resolver (candidate_check req object) with
  | Ret resp => out = inr (Allowed resp)
  | Throw e => out = inl e
  | Panic _ => False
  end.

(** ** The state of [evaluate] *)

(** The goroutine of a candidate: its check runs, or it is about to send the object. *)
Inductive CheckCall := Checking (object : string) | SendingObject (object : string).

(** The goroutine of the search: running, returned after closing its channel, or failed. *)
Inductive SearchStatus := SearchRunning | SearchClosed | SearchFailed.

(** The first error of the pool. *)
Inductive PoolErr :=
| PoolSearch (es : list ReErr)
| PoolCheck (e : CheckCmdErr)
| PoolCancelled.

Record Listing := mkListing {
  search : Search;
  status : SearchStatus;
  aborted : bool;                        (* the search has seen its context cancelled *)
  inbox : list ReverseExpandResult;      (* sent by the search, not yet received *)
  consuming : bool;                      (* ConsumerReadLoop runs *)
  checks : list CheckCall;
  objectsFound : Z;                      (* a uint32 *)
  results : list string;                 (* the objects sent on resultsChan *)
  cancelled : bool;                      (* the context of the pool *)
  expired : bool;                        (* the context of the request *)
  pool_err : option PoolErr;
  closed : bool;
}.

Definition init (req : ListObjectsRequest) : Listing :=
  mkListing (start (expand_request req)) SearchRunning false [] true [] 0 [] false false None false.

Definition first_err (old : option PoolErr) (e : PoolErr) : option PoolErr := match old with Some _ => old | None => Some e end.

(** [objectsFound.Add(1)]: the new value, and whether the object may be sent. *)
Definition count_object (maxResults found : Z) : Z * bool :=
  if maxResults =? 0 then (found, true)
  else let found := (found + 1) mod 2^32 in (found, found <=? maxResults).

(** Updates. *)
Definition set_search (s : Search) (new : list ReverseExpandResult) (ab : bool) (l : Listing) : Listing :=
  mkListing s (status l) (aborted l || ab) (inbox l ++ new) (consuming l) (checks l) (objectsFound l) (results l) (cancelled l)
    (expired l) (pool_err l) (closed l).
Definition fail_pool (e : PoolErr) (l : Listing) : Listing :=
  mkListing (search l) (status l) (aborted l) (inbox l) (consuming l) (checks l) (objectsFound l) (results l) true (expired l)
    (first_err (pool_err l) e) (closed l).
Definition set_status (st : SearchStatus) (l : Listing) : Listing :=
  mkListing (search l) st (aborted l) (inbox l) (consuming l) (checks l) (objectsFound l) (results l) (cancelled l) (expired l)
    (pool_err l) (closed l).
Definition stop_consuming (cancel : bool) (l : Listing) : Listing :=
  mkListing (search l) (status l) (aborted l) (inbox l) false (checks l) (objectsFound l) (results l) (cancelled l || cancel) (expired l)
    (pool_err l) (closed l).
Definition set_inbox (rs : list ReverseExpandResult) (l : Listing) : Listing :=
  mkListing (search l) (status l) (aborted l) rs (consuming l) (checks l) (objectsFound l) (results l) (cancelled l) (expired l)
    (pool_err l) (closed l).
Definition set_checks (cs : list CheckCall) (l : Listing) : Listing :=
  mkListing (search l) (status l) (aborted l) (inbox l) (consuming l) cs (objectsFound l) (results l) (cancelled l) (expired l)
    (pool_err l) (closed l).
Definition set_found (n : Z) (l : Listing) : Listing :=
  mkListing (search l) (status l) (aborted l) (inbox l) (consuming l) (checks l) n (results l) (cancelled l) (expired l) (pool_err l)
    (closed l).
Definition push_result (object : string) (l : Listing) : Listing :=
  mkListing (search l) (status l) (aborted l) (inbox l) (consuming l) (checks l) (objectsFound l) (results l ++ [object]) (cancelled l)
    (expired l) (pool_err l) (closed l).
Definition expire (l : Listing) : Listing :=
  mkListing (search l) (status l) (aborted l) (inbox l) (consuming l) (checks l) (objectsFound l) (results l) true true (pool_err l)
    (closed l).
Definition close (l : Listing) : Listing :=
  mkListing (search l) (status l) (aborted l) (inbox l) (consuming l) (checks l) (objectsFound l) (results l) (cancelled l) (expired l)
    (pool_err l) true.

Section evaluate.
Context `{!ModelGraph, !Cel, !ProtoText, !StartingReader}.
Context (typesys : TypeSystem) (conds : gmap string EvaluableCondition) (resolveNodeLimit maxResults : Z).

(** What the Check command may answer for a candidate. *)
Context (check_answers : string → CheckCmdErr + bool → Prop).

(** [trySendObject] of the consumer, with the context of the request. *)
Definition trySendObject (object : string) (l : Listing) : Listing :=
  let '(found, send) := count_object maxResults (objectsFound l) in
  let l := set_found found l in
  if send then push_result object l else l.

(** A result received by the consumer. *)
Definition receive (r : ReverseExpandResult) (l : Listing) : Listing :=
  if negb (maxResults =? 0) && (maxResults <=? objectsFound l) then stop_consuming true l
  else match res_ResultStatus r with
       | NoFurtherEvalStatus => trySendObject (res_Object r) l
       | RequiresFurtherEvalStatus => set_checks (Checking (res_Object r) :: checks l) l
       end.

(** A check that ended, [cs] being the other calls: an allowed object is counted, and sent
    by a later step. *)
Definition check_done (object : string) (o : CheckCmdErr + bool) (cs : list CheckCall) (l : Listing) : Listing :=
  match o with
  | inr true =>
      let '(found, send) := count_object maxResults (objectsFound l) in
      set_checks (if send then SendingObject object :: cs else cs) (set_found found l)
  | inr false => set_checks cs l
  | inl e => fail_pool (PoolCheck e) (set_checks cs l)
  end.

Inductive lstep : Listing → Listing → Prop :=
(* the search *)
| ls_search l s' new :
    status l = SearchRunning → step typesys conds resolveNodeLimit (search l) s' → sent s' = sent (search l) ++ new →
    lstep l (set_search s' new false l)
| ls_search_unsent l s' :
    status l = SearchRunning → step typesys conds resolveNodeLimit (search l) s' → (cancelled l = true ∨ errs (search l) ≠ []) →
    lstep l (set_search s' [] false l)
| ls_search_abort l l1 t l2 :
    status l = SearchRunning → pending (search l) = l1 ++ t :: l2 → cancelled l = true →
    lstep l (set_search (with_pending (l1 ++ l2) (search l)) [] true l)
| ls_search_close l :
    status l = SearchRunning → pending (search l) = [] → errs (search l) = [] → aborted l = false →
    lstep l (set_status SearchClosed l)
| ls_search_fail l es :
    status l = SearchRunning → pending (search l) = [] → es ≠ [] → es ⊆ errs (search l) →
    lstep l (fail_pool (PoolSearch es) (set_status SearchFailed l))
| ls_search_cancelled l :
    status l = SearchRunning → pending (search l) = [] → aborted l = true →
    lstep l (fail_pool PoolCancelled (set_status SearchFailed l))
(* the consumer *)
| ls_receive l l1 r l2 :
    consuming l = true → inbox l = l1 ++ r :: l2 → lstep l (receive r (set_inbox (l1 ++ l2) l))
| ls_receive_unsent l l1 r l2 :
    consuming l = true → inbox l = l1 ++ r :: l2 → expired l = true → res_ResultStatus r = NoFurtherEvalStatus →
    negb (maxResults =? 0) && (maxResults <=? objectsFound l) = false →
    lstep l (set_found (count_object maxResults (objectsFound l)).1 (set_inbox (l1 ++ l2) l))
| ls_closed l :
    consuming l = true → inbox l = [] → status l = SearchClosed → lstep l (stop_consuming false l)
| ls_failed l :
    consuming l = true → status l = SearchFailed → lstep l (stop_consuming true l)
| ls_expired l :
    consuming l = true → expired l = true → lstep l (stop_consuming true l)
(* the checks *)
| ls_check l l1 o l2 out :
    checks l = l1 ++ Checking o :: l2 → check_answers o out → lstep l (check_done o out (l1 ++ l2) l)
| ls_check_cancelled l l1 o l2 :
    checks l = l1 ++ Checking o :: l2 → cancelled l = true → lstep l (fail_pool PoolCancelled (set_checks (l1 ++ l2) l))
| ls_send l l1 o l2 :
    checks l = l1 ++ SendingObject o :: l2 → lstep l (push_result o (set_checks (l1 ++ l2) l))
| ls_unsent l l1 o l2 :
    checks l = l1 ++ SendingObject o :: l2 → cancelled l = true → lstep l (set_checks (l1 ++ l2) l)
(* the deadline, and the end *)
| ls_deadline l :
    expired l = false → lstep l (expire l)
| ls_close l :
    closed l = false → consuming l = false → status l ≠ SearchRunning → checks l = [] → lstep l (close l).

(** ** [Execute] *)

Definition re_depth_exceeded (e : ReErr) : bool := match e with ErrReResolutionDepthExceeded => true | _ => false end.
Definition re_evaluation_failed (e : ReErr) : bool := match e with ErrReCondition _ => true | _ => false end.

Definition pool_depth_exceeded (e : PoolErr) : bool :=
  match e with
  | PoolSearch es => existsb re_depth_exceeded es
  | PoolCheck (CmdResolveError e) => err_Is is_depth_exceeded e
  | _ => false
  end.

Definition pool_evaluation_failed (e : PoolErr) : bool :=
  match e with
  | PoolSearch es => existsb re_evaluation_failed es
  | PoolCheck (CmdResolveError e) => err_Is is_evaluation_failed e
  | _ => false
  end.

Inductive ListErr := ListServerError (e : ServerError) | ListConditionErrors (e : PoolErr).

(** What [Execute] returns when [evaluate] has closed the channel of results. *)
Definition Execute_response (l : Listing) : outcome ListErr (list string) :=
  match pool_err l with
  | None | Some PoolCancelled => Ret (results l)
  | Some e =>
      if pool_depth_exceeded e then Throw (ListServerError SE_AuthorizationModelResolutionTooComplex)
      else if pool_evaluation_failed e then
        if Z.of_nat (length (results l)) <? maxResults then Throw (ListConditionErrors e) else Ret (results l)
      else Throw (ListServerError SE_Internal)
  end.

(** What [ExecuteStreamed] returns, after sending the results. *)
Definition ExecuteStreamed_response (l : Listing) : outcome ListErr unit :=
  match pool_err l with
  | None | Some PoolCancelled => Ret tt
  | Some e =>
      if pool_depth_exceeded e then Throw (ListServerError SE_AuthorizationModelResolutionTooComplex)
      else if pool_evaluation_failed e then Throw (ListServerError SE_ValidationError)
      else Throw (ListServerError SE_Internal)
  end.
End evaluate.
