(* ===== verification/ListObjectsSpec.v ===== *)
(** * ListObjects against the meaning of a check

    For every interleaving of its goroutines, [evaluate] ends, what [Execute] returns is a
    list without duplicates of objects the user has the relation with, not longer than the
    maximum, and, without deadline, all of them unless the maximum was reached. *)

From stdpp Require Import relations.
From S2P Require Import Prelude GoStd Tuple CacheKeys Iterators Model Memory MemorySpec Typesystem Entrypoints TypesystemSpec.
From S2P Require Import Condition Validation ValidationSpec Check CheckSpec CheckSemantics CheckExact CheckMemory CombinedReader.
From S2P Require Import RelationshipGraph ReverseExpand ReverseExpandSpec ReverseExpandMemory ServerErrors CheckCommand ListObjects.

Local Open Scope Z_scope.
Local Open Scope go_scope.

(** ** The search, step by step *)

Section search.
Context `{!ModelGraph, !Cel, !ProtoText, !StartingReader}.
Context (typesys : TypeSystem) (conds : gmap string EvaluableCondition) (resolveNodeLimit : Z).
Abbreviation execute := (execute typesys conds resolveNodeLimit).
Abbreviation step := (step typesys conds resolveNodeLimit).

Lemma step_errs s s' : step s s' → errs s ⊆ errs s'.
Proof.
  intros [l1 t l2 s0 Hp|l1 t l2 s0 Hp _]; [|done]. rewrite execute_eq. destruct (next_depth _ _); simpl; [|set_solver].
  destruct (seen t _); [done|]. destruct (expand _ _ _ _ _). simpl. rewrite (proj2 (arrive_at_same t _)). simpl. set_solver.
Qed.

Lemma arrive_at_sent t s : ∃ new, sent (arrive_at t s) = sent s ++ new ∧ (length new ≤ 1)%nat.
Proof.
  unfold arrive_at. destruct (re_User (task_req t)) as [| |ref]; [by exists []; rewrite app_nil_r; split; [|simpl; lia]..|].
  set (s0 := match re_edge (task_req t) with Some _ => _ | None => _ end).
  assert (sent s0 = sent s) as <- by (unfold s0; by destruct (re_edge (task_req t))).
  destruct (UsersetMatchTypeAndRelation _ _ _); [|by exists []; rewrite app_nil_r; split; [|simpl; lia]].
  unfold trySendCandidate. case_bool_decide; simpl; [by exists []; rewrite app_nil_r; split; [|simpl; lia]|]. by eexists.
Qed.

Lemma execute_grows t s :
  (∃ new, sent (execute t s) = sent s ++ new ∧ (length new ≤ 1)%nat) ∧ (errs s ≠ [] → errs (execute t s) ≠ []).
Proof.
  rewrite execute_eq. destruct (next_depth _ _); simpl.
  2: { split; [by exists []; rewrite app_nil_r; split; [|simpl; lia]|]. intros Hne [? _]%app_eq_nil. done. }
  destruct (seen t s); [split; [by exists []; rewrite app_nil_r; split; [|simpl; lia]|done]|].
  destruct (expand _ _ _ _ _) as [tasks errors]. simpl. split; [apply arrive_at_sent|].
  rewrite (proj2 (arrive_at_same t s)). intros Hne [? _]%app_eq_nil. done.
Qed.

Lemma step_grows s s' :
  step s s' → (∃ new, sent s' = sent s ++ new ∧ (length new ≤ 1)%nat) ∧ (errs s ≠ [] → errs s' ≠ []).
Proof.
  intros [l1 t l2 s0 Hp|l1 t l2 s0 Hp _].
  - apply (execute_grows t (with_pending (l1 ++ l2) s0)).
  - split; [by exists []; rewrite app_nil_r; split; [|simpl; lia]|done].
Qed.
End search.

(** ** Termination *)

Section ends.
Context `{!ModelGraph, !Cel, !ProtoText, !StartingReader}.
Context (typesys : TypeSystem) (conds : gmap string EvaluableCondition) (resolveNodeLimit maxResults : Z).
Context (check_answers : string → CheckCmdErr + bool → Prop).
Abbreviation lstep := (lstep typesys conds resolveNodeLimit maxResults check_answers).
Abbreviation weight s := (search_weight typesys conds resolveNodeLimit s).

Definition call_weight (c : CheckCall) : nat := match c with Checking _ => 3 | SendingObject _ => 2 end.

(** The work that is left: every step does some. *)
Definition listing_weight (l : Listing) : nat :=
  5 * weight (search l) + (if status l is SearchRunning then 1 else 0) + 4 * length (inbox l) + sum_list (call_weight <$> checks l) +
  (if consuming l then 1 else 0) + (if closed l then 0 else 1) + (if expired l then 0 else 1).

Lemma listing_weight_step l l' : lstep l l' → (listing_weight l' < listing_weight l)%nat.
Proof.
  unfold listing_weight.
  intros [l0 s' new Hst Hs Hnew|l0 s' Hst Hs _|l0 l1 t l2 Hst Hp _|l0 Hst Hp He Ha|l0 es Hst Hp He Hes|l0 Hst Hp Ha
    |l0 l1 r l2 Hc Hin|l0 l1 r l2 Hc Hin He Hr Hlim|l0 Hc Hin Hst|l0 Hc Hst|l0 Hc He|l0 l1 o l2 out Hc Ho|l0 l1 o l2 Hc Hca|l0 l1 o l2 Hc
    |l0 l1 o l2 Hc Hca|l0 He|l0 Hcl Hc Hst Hch]; simpl; rewrite ?Hst, ?Hc; simpl.
  - pose proof (step_weight _ _ _ _ _ Hs) as Hw. destruct (step_grows _ _ _ _ _ Hs) as [(new'&Hn'&Hlen) _].
    rewrite Hnew in Hn'. apply app_inv_head in Hn' as ->. rewrite length_app. lia.
  - pose proof (step_weight _ _ _ _ _ Hs) as Hw. rewrite app_nil_r. lia.
  - pose proof (pending_weight typesys conds resolveNodeLimit _ _ _ _ Hp) as Hw.
    pose proof (task_weight_pos typesys conds resolveNodeLimit t). rewrite app_nil_r. lia.
  - lia.
  - lia.
  - lia.
  - rewrite Hin, length_app. unfold receive. destruct (negb _ && _); simpl; rewrite ?Hc, ?length_app; simpl; [lia|].
    unfold trySendObject. destruct (res_ResultStatus r); [|destruct (count_object _ _) as [? []]]; cbn; rewrite ?Hc, ?length_app; cbn; lia.
  - rewrite Hin, !length_app. simpl. rewrite ?Hc. lia.
  - lia.
  - lia.
  - lia.
  - rewrite fmap_app, sum_list_app, fmap_cons. simpl. unfold check_done.
    destruct out as [e|[]]; [|destruct (count_object _ _) as [? []]|]; simpl; rewrite ?fmap_app, ?sum_list_app; simpl; rewrite ?fmap_app, ?sum_list_app; lia.
  - rewrite !fmap_app, !sum_list_app, fmap_cons. simpl. lia.
  - rewrite !fmap_app, !sum_list_app, fmap_cons. simpl. lia.
  - rewrite !fmap_app, !sum_list_app, fmap_cons. simpl. lia.
  - rewrite He. lia.
  - rewrite Hcl. lia.
Qed.

Lemma listing_weight_nsteps n l l' : nsteps lstep n l l' → (n + listing_weight l' ≤ listing_weight l)%nat.
Proof. induction 1 as [|n l1 l2 l3 Hs%listing_weight_step _ IH]; lia. Qed.

(** What is not closed goes on. *)
Lemma listing_progress l : (∀ o, ∃ out, check_answers o out) → closed l = false → ∃ l', lstep l l'.
Proof.
  intros Hans Hcl. destruct (status l) eqn:Hst.
  - destruct (pending (search l)) as [|t ts] eqn:Hp.
    + destruct (errs (search l)) as [|e es] eqn:He.
      * destruct (aborted l) eqn:Ha; eexists; [by eapply ls_search_cancelled|by eapply ls_search_close].
      * eexists. eapply (ls_search_fail _ _ _ _ _ l [e]); [done..|]. rewrite He. set_solver.
    + assert (step typesys conds resolveNodeLimit (search l) (execute typesys conds resolveNodeLimit t (with_pending ts (search l)))) as Hs.
      { by apply (step_execute _ _ _ [] t ts). }
      destruct (step_grows _ _ _ _ _ Hs) as [(new&Hn&_) _]. eexists. by eapply ls_search.
  - destruct (checks l) as [|[o|o] cs] eqn:Hc.
    + destruct (consuming l) eqn:Hco; [|eexists; by apply ls_close; rewrite ?Hst].
      destruct (inbox l) as [|r rs] eqn:Hi; eexists; [by eapply ls_closed|]. by eapply (ls_receive _ _ _ _ _ l [] r rs).
    + destruct (Hans o) as [out Ho]. eexists. by eapply (ls_check _ _ _ _ _ l [] o cs out).
    + eexists. by eapply (ls_send _ _ _ _ _ l [] o cs).
  - destruct (checks l) as [|[o|o] cs] eqn:Hc.
    + destruct (consuming l) eqn:Hco; eexists; [by apply ls_failed|by apply ls_close; rewrite ?Hst].
    + destruct (Hans o) as [out Ho]. eexists. by eapply (ls_check _ _ _ _ _ l [] o cs out).
    + eexists. by eapply (ls_send _ _ _ _ _ l [] o cs).
Qed.

End ends.

(** ** What the goroutines keep *)

Lemma submseteq_NoDup {A} (l k : list A) : l ⊆+ k → NoDup k → NoDup l.
Proof. intros [k' ->]%submseteq_Permutation Hn. by apply NoDup_app in Hn as [? _]. Qed.

Definition checking (cs : list CheckCall) : list string := omap (λ c, if c is Checking o then Some o else None) cs.
Definition sending (cs : list CheckCall) : list string := omap (λ c, if c is SendingObject o then Some o else None) cs.

Section listing.
Context `{!ModelGraph, !Cel, !MapRange, !ConditionCompiler, !ProtoText, !StartingReader}.
Context (m : AuthorizationModel) (typesys : TypeSystem) (conds : gmap string EvaluableCondition) (resolveNodeLimit maxResults : Z).
Context (check_answers : string → CheckCmdErr + bool → Prop) (req : ListObjectsRequest).
Context (stored : list Tuple) `{!StartingReaderSpec (lo_StoreId req) stored}.
Abbreviation lstep := (lstep typesys conds resolveNodeLimit maxResults check_answers).
Abbreviation step := (step typesys conds resolveNodeLimit).
Abbreviation sound := (sound_inv typesys conds (lo_StoreId req) stored (lo_Context req) (lo_User req) (lo_Type req) (lo_Relation req)).

(** The object is one the user has the relation with. *)
Definition has (o : string) : Prop :=
  ∃ n, granted typesys conds stored (lo_Context req) (lo_User req) n o (lo_Relation req).

Hypothesis Hset : search_setting m typesys stored (lo_User req) (lo_Type req) (lo_Relation req).
Hypothesis Hstrict : conditions_strict conds stored (lo_Context req).
Hypothesis Hchecks : ∀ o b, object_ok o → GetType o = lo_Type req → check_answers o (inr b) → (b = true ↔ has o).

(** Control: what has been cancelled, stopped and closed, and why.  [counted] are the
    objects that [objectsFound] counts. *)
Record control_inv (counted : list string) (l : Listing) : Prop := {
  ci_search : sound (search l);
  ci_steps : aborted l = false → rtc step (start (expand_request req)) (search l);
  ci_aborted : aborted l = true → cancelled l = true;
  ci_expired : expired l = true → cancelled l = true;
  ci_error : pool_err l ≠ None → cancelled l = true;
  ci_failed : status l = SearchFailed → cancelled l = true;
  ci_finished : status l = SearchClosed → pending (search l) = [] ∧ errs (search l) = [] ∧ aborted l = false;
  ci_consuming : consuming l = false → cancelled l = true ∨ (status l = SearchClosed ∧ inbox l = []);
  ci_closed : closed l = true → consuming l = false ∧ checks l = [] ∧ status l ≠ SearchRunning;
  ci_pool_err : match pool_err l with
                | Some (PoolSearch es) => es ≠ [] ∧ es ⊆ errs (search l)
                | Some (PoolCheck e) => ∃ o, check_answers o (inl e)
                | _ => True
                end;
  ci_cancelled : cancelled l = true → expired l = true ∨ (∃ e, pool_err l = Some e ∧ e ≠ PoolCancelled) ∨
    (maxResults ≠ 0 ∧ maxResults ≤ Z.of_nat (length counted));
}.

(** Flow: every candidate is on its way, or counted; only objects the user has are counted,
    and only counted ones are sent. *)
Record flow_inv (counted : list string) (l : Listing) : Prop := {
  fi_flow : counted ++ (res_Object <$> inbox l) ++ checking (checks l) ⊆+ (res_Object <$> sent (search l));
  fi_inbox : inbox l ⊆ sent (search l);
  fi_has : Forall has counted;
  fi_results : results l ++ sending (checks l) ⊆+ counted;
  fi_found : 0 ≤ objectsFound l ≤ Z.of_nat (length counted);
  fi_exact : maxResults ≠ 0 → Z.of_nat (length (sent (search l))) < 2^32 →
    objectsFound l = Z.of_nat (length counted) ∧
    Z.of_nat (length (results l ++ sending (checks l))) ≤ maxResults;
  fi_candidates : cancelled l = false → errs (search l) = [] → ∀ o, o ∈ res_Object <$> sent (search l) →
    o ∈ (res_Object <$> inbox l) ++ checking (checks l) ∨ o ∈ counted ∨ ¬ has o;
  fi_counted : cancelled l = false → ∀ o, o ∈ counted → o ∈ results l ++ sending (checks l) ∨
    (maxResults ≠ 0 ∧ maxResults < Z.of_nat (length counted));
}.

Lemma sound_drop s l1 t l2 : pending s = l1 ++ t :: l2 → sound s → sound (with_pending (l1 ++ l2) s).
Proof.
  intros Hp [Ht Hs Hn Hc]. split; try done. simpl. rewrite Hp, Forall_app, Forall_cons in Ht. apply Forall_app. tauto.
Qed.

Lemma checking_split l1 c l2 : checking (l1 ++ c :: l2) = checking l1 ++ checking [c] ++ checking l2.
Proof. unfold checking. rewrite omap_app. f_equal. apply (omap_app _ [c] l2). Qed.

Lemma sending_split l1 c l2 : sending (l1 ++ c :: l2) = sending l1 ++ sending [c] ++ sending l2.
Proof. unfold sending. rewrite omap_app. f_equal. apply (omap_app _ [c] l2). Qed.

(** The search moves on: what it sends reaches the consumer, or the calls are cancelled. *)
Lemma flow_search c l l' new :
  flow_inv c l → sent (search l') = sent (search l) ++ new → (errs (search l') = [] → errs (search l) = []) →
  (inbox l' = inbox l ++ new ∨ inbox l' = inbox l ∧ (new = [] ∨ cancelled l = true ∨ errs (search l) ≠ [])) →
  checks l' = checks l → results l' = results l → objectsFound l' = objectsFound l → cancelled l' = cancelled l →
  flow_inv c l'.
Proof.
  intros [Hf Hi Hh Hr Hn Hx Hca Hco] Hs He Hin Hch Hre Hfo Hcan. split; rewrite ?Hs, ?Hch, ?Hre, ?Hfo, ?Hcan; try done.
  - rewrite fmap_app. destruct Hin as [->|[-> _]].
    + rewrite fmap_app. etrans; [|by apply submseteq_app; [exact Hf|]]. solve_submseteq.
    + etrans; [exact Hf|]. solve_submseteq.
  - destruct Hin as [->|[-> _]]; set_solver.
  - intros Hm Hlen. rewrite length_app in Hlen. apply Hx; [done|lia].
  - intros Hc Herr o. rewrite fmap_app, elem_of_app. specialize (Hca Hc (He Herr) o). destruct Hin as [->|[-> Hnone]].
    + rewrite fmap_app. set_solver.
    + intros Hin. apply Hca. destruct Hin as [?|Hin]; [done|].
      destruct Hnone as [->|[?|Hne]]; [by apply not_elem_of_nil in Hin|congruence|by destruct (Hne (He Herr))].
Qed.

(** Candidates move on or are dropped. *)
Lemma flow_drop c l l' :
  flow_inv c l → search l' = search l → objectsFound l' = objectsFound l →
  (res_Object <$> inbox l') ++ checking (checks l') ⊆+ (res_Object <$> inbox l) ++ checking (checks l) →
  inbox l' ⊆ inbox l →
  results l' ++ sending (checks l') ⊆+ results l ++ sending (checks l) →
  (cancelled l' = false → cancelled l = false ∧ results l ++ sending (checks l) ⊆ results l' ++ sending (checks l') ∧
    ∀ o, o ∈ (res_Object <$> inbox l) ++ checking (checks l) →
      o ∈ (res_Object <$> inbox l') ++ checking (checks l') ∨ ¬ has o) →
  flow_inv c l'.
Proof.
  intros [Hf Hi Hh Hr Hn Hx Hca Hco] Hs Hfo Hfl Hin Hre Hcan. split; rewrite ?Hs, ?Hfo; try done.
  - etrans; [|exact Hf]. by apply submseteq_app.
  - set_solver.
  - by etrans.
  - intros Hm Hlen. apply submseteq_length in Hre. destruct (Hx Hm Hlen). split; [done|lia].
  - intros Hc Herr o Hsent. destruct (Hcan Hc) as (Hc0&_&Hmv). specialize (Hca Hc0 Herr o Hsent). specialize (Hmv o). tauto.
  - intros Hc o Ho. destruct (Hcan Hc) as (Hc0&Hsub&_). destruct (Hco Hc0 o Ho); [left; by apply Hsub|by right].
Qed.

Hypothesis Hmax : 0 ≤ maxResults < 2^32.

(** The counter against the number [n] of objects counted before. *)
Lemma count_object_spec old n found send :
  count_object maxResults old = (found, send) → 0 ≤ old ≤ Z.of_nat n →
  0 ≤ found ≤ Z.of_nat (S n) ∧
  (maxResults ≠ 0 → old = Z.of_nat n → Z.of_nat (S n) < 2^32 → found = Z.of_nat (S n)) ∧
  (send = true → maxResults ≠ 0 → found ≤ maxResults) ∧ (send = false → maxResults ≠ 0 ∧ maxResults < found).
Proof.
  unfold count_object. destruct (maxResults =? 0) eqn:Hm.
  - apply Z.eqb_eq in Hm. intros [= <- <-] Hn. split_and!; [lia..|done|done].
  - apply Z.eqb_neq in Hm. intros [= <- <-] Hn.
    pose proof (Z.mod_pos_bound (old + 1) (2^32)). pose proof (Z.mod_le (old + 1) (2^32)).
    split_and!; [lia|lia| |intros Hle%Z.leb_le; done|intros Hle%Z.leb_gt; done].
    intros _ Hlen Hlt. rewrite Z.mod_small; lia.
Qed.

(** An object the user has is counted; it is sent, unless the maximum is passed or the
    context cancelled. *)
Lemma flow_count c l l' o found send :
  flow_inv c l → has o → count_object maxResults (objectsFound l) = (found, send) →
  search l' = search l → objectsFound l' = found → cancelled l' = cancelled l →
  o :: (res_Object <$> inbox l') ++ checking (checks l') ≡ₚ (res_Object <$> inbox l) ++ checking (checks l) →
  inbox l' ⊆ inbox l →
  (send = true ∧ results l' ++ sending (checks l') ≡ₚ o :: results l ++ sending (checks l) ∨
   results l' ++ sending (checks l') = results l ++ sending (checks l) ∧ (send = false ∨ cancelled l = true)) →
  flow_inv (c ++ [o]) l'.
Proof.
  intros [Hf Hi Hh Hr Hn Hx Hca Hco] Ho Hcnt Hs Hfo Hcan Hfl Hin Hre.
  assert (c ++ [o] ++ (res_Object <$> inbox l') ++ checking (checks l') ⊆+ (res_Object <$> sent (search l))) as Hflow.
  { simpl. by rewrite Hfl. }
  assert (length c < length (sent (search l)))%nat as Hlt.
  { apply submseteq_length in Hflow. rewrite !length_app, !length_fmap in Hflow. simpl in Hflow. lia. }
  destruct (count_object_spec _ (length c) found send Hcnt Hn) as (Hfound&Hexact&Hsend&Hnot).
  split; rewrite ?Hs, ?Hfo, ?Hcan.
  - by rewrite <-app_assoc.
  - set_solver.
  - apply Forall_app. split; [done|by apply Forall_singleton].
  - destruct Hre as [[_ ->]|[-> _]].
    + rewrite (Permutation_app_comm c). by apply submseteq_skip.
    + etrans; [exact Hr|]. solve_submseteq.
  - rewrite length_app. simpl. lia.
  - intros Hm Hlen. destruct (Hx Hm Hlen) as [Hold Hle]. rewrite length_app. simpl.
    assert (found = Z.of_nat (S (length c))) as Hnew by (apply Hexact; [done..|lia]). split; [lia|]. destruct Hre as [[Hse ->]|[-> _]]; [|done].
    specialize (Hsend Hse Hm). apply submseteq_length in Hr. simpl. lia.
  - intros Hc Herr x Hsent. specialize (Hca Hc Herr x Hsent). rewrite <-Hfl, elem_of_cons in Hca. set_solver.
  - intros Hc x [Hx'| ->%list_elem_of_singleton]%elem_of_app.
    + destruct (Hco Hc x Hx') as [?|[? ?]]; [|right; split; [done|rewrite length_app; lia]].
      left. destruct Hre as [[_ ->]|[-> _]]; set_solver.
    + destruct Hre as [[_ ->]|[_ [Hse|?]]]; [left; set_solver| |congruence].
      right. destruct (Hnot Hse). split; [done|]. rewrite length_app. simpl. lia.
Qed.

(** What a candidate is. *)
Lemma sent_candidate s r :
  sound s → r ∈ sent s → object_ok (res_Object r) ∧ GetType (res_Object r) = lo_Type req ∧
    (res_ResultStatus r = NoFurtherEvalStatus → has (res_Object r)).
Proof. intros [_ Hs _ _] Hr. rewrite Forall_forall in Hs. destruct (Hs r Hr) as (?&?&Hh). split_and!; [done..|]. by apply Hh. Qed.

Lemma sent_object s o : sound s → o ∈ res_Object <$> sent s → object_ok o ∧ GetType o = lo_Type req.
Proof. intros Hs (r&->&Hr)%list_elem_of_fmap. by destruct (sent_candidate s r Hs Hr) as (?&?&_). Qed.

Lemma flow_receive c l l1 r l2 :
  sound (search l) → flow_inv c l → inbox l = l1 ++ r :: l2 →
  ∃ new, flow_inv (c ++ new) (receive maxResults r (set_inbox (l1 ++ l2) l)).
Proof.
  intros Hs Hf Hin. unfold receive. destruct (negb _ && _).
  { exists []. rewrite app_nil_r. apply (flow_drop c l); simpl; try done; rewrite ?Hin, ?orb_true_r; try done; [|set_solver].
    rewrite !fmap_app, fmap_cons. solve_submseteq. }
  destruct (res_ResultStatus r) eqn:Hst.
  - exists []. rewrite app_nil_r. apply (flow_drop c l); simpl; try done; rewrite ?Hin; [|set_solver|].
    + rewrite !fmap_app, fmap_cons. unfold checking. simpl. solve_submseteq.
    + intros Hc. split_and!; [done..|]. intros o. rewrite !fmap_app, fmap_cons. unfold checking. simpl. set_solver.
  - destruct (sent_candidate (search l) r Hs) as (_&_&Hhas); [apply (fi_inbox _ _ Hf); rewrite Hin; set_solver|].
    exists [res_Object r]. unfold trySendObject. destruct (count_object _ _) as [found send] eqn:Hcnt.
    apply (flow_count c l _ _ found send Hf (Hhas Hst) Hcnt); destruct send; simpl; try done; rewrite ?Hin; try set_solver.
    + rewrite !fmap_app, fmap_cons. solve_Permutation.
    + rewrite !fmap_app, fmap_cons. solve_Permutation.
    + left. split; [done|]. solve_Permutation.
Qed.

Lemma flow_check c l l1 o l2 out :
  sound (search l) → flow_inv c l → checks l = l1 ++ Checking o :: l2 → check_answers o out →
  ∃ new, flow_inv (c ++ new) (check_done maxResults o out (l1 ++ l2) l).
Proof.
  intros Hs Hf Hch Hout. destruct (sent_object (search l) o Hs) as [Hok Hty].
  { pose proof (fi_flow _ _ Hf) as Hfl. rewrite Hch, checking_split in Hfl. eapply elem_of_submseteq; [|exact Hfl]. set_solver. }
  pose proof (Hchecks o) as Hex. unfold check_done. destruct out as [e|[]].
  - exists []. rewrite app_nil_r. apply (flow_drop c l); simpl; try done; rewrite ?Hch, ?checking_split, ?sending_split; simpl.
    + unfold checking. rewrite omap_app. solve_submseteq.
    + unfold sending. by rewrite omap_app.
  - destruct (count_object _ _) as [found send] eqn:Hcnt. exists [o].
    apply (flow_count c l _ _ found send Hf (proj1 (Hex _ Hok Hty Hout) eq_refl) Hcnt); simpl; try done; rewrite ?Hch, ?checking_split, ?sending_split.
    + unfold checking. destruct send; simpl; rewrite omap_app; solve_Permutation.
    + unfold sending. destruct send; simpl; rewrite omap_app; [left|right]; (split; [done|]); [solve_Permutation|by left].
  - exists []. rewrite app_nil_r. apply (flow_drop c l); simpl; try done; rewrite ?Hch, ?checking_split, ?sending_split; simpl.
    + unfold checking. rewrite omap_app. solve_submseteq.
    + unfold sending. by rewrite omap_app.
    + intros Hc. unfold checking, sending. rewrite !omap_app. split_and!; [done..|]. intros x Hx.
      destruct (decide (x = o)) as [->|]; [right; intros Hh; by apply (Hex _ Hok Hty Hout) in Hh|left; set_solver].
Qed.

Lemma flow_step c l l' : lstep l l' → sound (search l) → (expired l = true → cancelled l = true) → flow_inv c l → ∃ new, flow_inv (c ++ new) l'.
Proof.
  intros [l0 s' new Hst Hs Hnew|l0 s' Hst Hs Hlost|l0 l1 t l2 Hst Hp Hca|l0 Hst Hp He Ha|l0 es Hst Hp He Hes|l0 Hst Hp Ha
    |l0 l1 r l2 Hc Hin|l0 l1 r l2 Hc Hin He Hr Hlim|l0 Hc Hin Hst|l0 Hc Hst|l0 Hc He|l0 l1 o l2 out Hc Ho|l0 l1 o l2 Hc Hca|l0 l1 o l2 Hc
    |l0 l1 o l2 Hc Hca|l0 He|l0 Hcl Hc Hst Hch] Hsd Hex Hf.
  7: by eapply flow_receive.
  11: by eapply flow_check.
  7: { destruct (sent_candidate _ r Hsd) as (_&_&Hhas); [apply (fi_inbox _ _ Hf); rewrite Hin; set_solver|].
       exists [res_Object r]. destruct (count_object maxResults (objectsFound l0)) as [found send] eqn:Hcnt.
       apply (flow_count c l0 _ _ found send Hf (Hhas Hr) Hcnt); simpl; try done; rewrite ?Hin; [|set_solver|].
       - rewrite !fmap_app, fmap_cons. solve_Permutation.
       - right. split; [done|]. right. by apply Hex. }
  all: exists []; rewrite app_nil_r.
  1: { apply (flow_search c l0 _ new Hf); simpl; try done; [|by left].
       intros He. destruct (step_grows _ _ _ _ _ Hs) as [_ Hg]. destruct (errs (search l0)); [done|]. by destruct Hg. }
  1: { destruct (step_grows _ _ _ _ _ Hs) as [(new&Hn&_) Hg]. apply (flow_search c l0 _ new Hf); simpl; try done; rewrite ?app_nil_r; [|tauto].
       intros He. destruct (errs (search l0)); [done|]. by destruct Hg. }
  1: { apply (flow_search c l0 _ [] Hf); simpl; rewrite ?app_nil_r; try done. by left. }
  all: apply (flow_drop c l0 _ Hf); simpl; try done; rewrite ?Hc, ?checking_split, ?sending_split, ?orb_true_r; unfold checking, sending; rewrite ?omap_app; simpl.
  all: try solve_submseteq.
  all: try rewrite orb_false_r.
  all: intros Hcan; split_and!; try done; try congruence; set_solver.
Qed.

Lemma control_counted c c' l : control_inv c l → (length c ≤ length c')%nat → control_inv c' l.
Proof. intros [] Hlen. split; try done. intros Hc. destruct (ci_cancelled0 Hc) as [?|[?|[? ?]]]; [tauto..|]. right. right. split; [done|lia]. Qed.

(** The consumer and the checks leave the rest of the control alone. *)
Lemma control_same c l l' :
  control_inv c l → search l' = search l → status l' = status l → aborted l' = aborted l → (consuming l' = false → consuming l = false) →
  (inbox l = [] → inbox l' = []) → cancelled l' = cancelled l → expired l' = expired l → pool_err l' = pool_err l → closed l' = closed l →
  (closed l = true → consuming l' = consuming l ∧ (checks l = [] → checks l' = [])) → control_inv c l'.
Proof.
  intros [] E1 E2 E3 E4 E5 E6 E7 E8 E9 E10. split; rewrite ?E1, ?E2, ?E3, ?E6, ?E7, ?E8, ?E9; try done.
  - intros Hc. destruct (ci_consuming0 (E4 Hc)) as [?|[? ?]]; [by left|]. right. auto.
  - intros Hc. destruct (ci_closed0 Hc) as (?&?&?). destruct (E10 Hc) as [-> Hch]. auto.
Qed.

(** An error of the pool cancels it. *)
Lemma control_fail c l e :
  control_inv c l →
  match e with
  | PoolSearch es => es ≠ [] ∧ es ⊆ errs (search l)
  | PoolCheck e => ∃ o, check_answers o (inl e)
  | PoolCancelled => cancelled l = true
  end → control_inv c (fail_pool e l).
Proof.
  intros [] He. split; simpl; try done.
  - intros Hc. by left.
  - unfold first_err. destruct (pool_err l); [done|]. by destruct e.
  - intros _. unfold first_err. destruct (pool_err l) as [[]|] eqn:Hp; simpl.
    1-2: right; left; eexists; by split.
    + destruct (ci_cancelled0 (ci_error0 ltac:(done))) as [?|[(?&[= <-]&?)|?]]; [tauto|done|tauto].
    + destruct e; [right; left; eexists; by split..|]. destruct (ci_cancelled0 He) as [?|[(?&?&?)|?]]; [tauto|done|tauto].
Qed.

Lemma control_search c l s' new (ab : bool) :
  control_inv c l → status l = SearchRunning → sound s' → (errs (search l) ⊆ errs s') →
  (if ab then cancelled l = true else step (search l) s') → control_inv c (set_search s' new ab l).
Proof.
  intros [] Hst Hs Hes Hab. split; simpl; try done.
  - destruct ab; [by rewrite orb_true_r|]. rewrite orb_false_r. intros Ha. by eapply rtc_r; [apply ci_steps0|].
  - destruct ab; [done|]. by rewrite orb_false_r.
  - congruence.
  - intros Hc. destruct (ci_consuming0 Hc) as [?|[? _]]; [by left|congruence].
  - destruct (pool_err l) as [[]|]; [|done..]. destruct ci_pool_err0. split; [done|set_solver].
Qed.

Lemma control_search_failed c l :
  control_inv c l → status l = SearchRunning → cancelled l = true → control_inv c (set_status SearchFailed l).
Proof.
  intros [] Hst Hca. split; simpl; try done.
  - by left.
  - intros Hcl. by destruct (ci_closed0 Hcl) as (?&?&?).
Qed.

Lemma control_stop c l :
  control_inv c l → consuming l = true →
  (expired l = true ∨ (∃ e, pool_err l = Some e ∧ e ≠ PoolCancelled) ∨ (maxResults ≠ 0 ∧ maxResults ≤ Z.of_nat (length c))) →
  control_inv c (stop_consuming true l).
Proof.
  intros [] Hco Hwhy. split; simpl; rewrite ?orb_true_r; try done; [by left|].
  intros Hcl. by destruct (ci_closed0 Hcl) as (?&?&?).
Qed.

Lemma control_step c c' l l' : lstep l l' → (length c ≤ length c')%nat → flow_inv c l → control_inv c l → control_inv c' l'.
Proof.
  intros Hstep Hlen Hf Hi. apply (control_counted _ c') in Hi as Hi'; [|done].
  destruct Hstep as [l0 s' new Hst Hs Hnew|l0 s' Hst Hs Hlost|l0 l1 t l2 Hst Hp Hca|l0 Hst Hp He Ha|l0 es Hst Hp He Hes|l0 Hst Hp Ha
    |l0 l1 r l2 Hc Hin|l0 l1 r l2 Hc Hin He Hr Hlim|l0 Hc Hin Hst|l0 Hc Hst|l0 Hc He|l0 l1 o l2 out Hc Ho|l0 l1 o l2 Hc Hca|l0 l1 o l2 Hc
    |l0 l1 o l2 Hc Hca|l0 He|l0 Hcl Hc Hst Hch].
  - apply control_search; try done; [by eapply sound_inv_step, Hi|by eapply step_errs].
  - apply control_search; try done; [by eapply sound_inv_step, Hi|by eapply step_errs].
  - apply control_search; try done. eapply sound_drop; [done|apply Hi].
  - destruct Hi'. split; simpl; try done.
    + intros Hco. destruct (ci_consuming0 Hco) as [?|[? ?]]; [by left|congruence].
    + intros Hcl. by destruct (ci_closed0 Hcl) as (?&?&?).
  - change (fail_pool ?e (set_status ?st l0)) with (set_status st (fail_pool e l0)). apply control_search_failed; try done.
    by apply control_fail.
  - change (fail_pool ?e (set_status ?st l0)) with (set_status st (fail_pool e l0)). apply control_search_failed; try done.
    apply control_fail; [done|]. by apply Hi.
  - unfold receive. destruct (negb _ && _) eqn:Hlim.
    + apply control_stop; [|done|].
      * apply (control_same c' l0 _ Hi'); simpl; try done. rewrite Hin. by intros [_ ?]%app_nil.
      * right. right. pose proof (fi_found _ _ Hf). simpl in Hlim. apply andb_true_iff in Hlim as [Hne%negb_true_iff Hle].
        apply Z.eqb_neq in Hne. apply Z.leb_le in Hle. split; [done|lia].
    + assert (closed l0 = true → False) as Hcl by (intros Hcl; destruct (ci_closed _ _ Hi Hcl); congruence).
      apply (control_same c' l0 _ Hi'); unfold trySendObject;
        destruct (res_ResultStatus r), (count_object maxResults (objectsFound (set_inbox (l1 ++ l2) l0))) as [? []]; simpl; try done.
      all: rewrite Hin; by intros [_ ?]%app_nil.
  - assert (closed l0 = true → False) as Hcl by (intros Hcl; destruct (ci_closed _ _ Hi Hcl); congruence).
    apply (control_same c' l0 _ Hi'); simpl; try done. rewrite Hin. by intros [_ ?]%app_nil.
  - destruct Hi'. split; simpl; rewrite ?orb_false_r; try done; [by right|].
    intros Hcl. destruct (ci_closed0 Hcl) as (?&?&?). done.
  - apply control_stop; [done..|]. by apply (ci_cancelled _ _ Hi'), (ci_failed _ _ Hi').
  - apply control_stop; [done..|]. by left.
  - assert (closed l0 = true → False) as Hcl.
    { intros Hcl. destruct (ci_closed _ _ Hi Hcl) as (_&Hn&_). rewrite Hc in Hn. by apply app_nil in Hn as [_ ?]. }
    unfold check_done. destruct out as [e|[]].
    + apply control_fail; [|by exists o]. by apply (control_same c' l0 _ Hi').
    + destruct (count_object _ _). by apply (control_same c' l0 _ Hi').
    + by apply (control_same c' l0 _ Hi').
  - apply control_fail; [|done]. apply (control_same c' l0 _ Hi'); try done. simpl. rewrite Hc. split; [done|]. by intros [_ ?]%app_nil.
  - apply (control_same c' l0 _ Hi'); try done. simpl. rewrite Hc. split; [done|]. by intros [_ ?]%app_nil.
  - apply (control_same c' l0 _ Hi'); try done. simpl. rewrite Hc. split; [done|]. by intros [_ ?]%app_nil.
  - destruct Hi'. split; simpl; try done; by left.
  - destruct Hi'. by split.
Qed.

Lemma listing_reachable l : rtc lstep (init req) l → ∃ c, control_inv c l ∧ flow_inv c l.
Proof.
  intros Hr. apply rtc_nsteps in Hr as [n Hr]. revert l Hr. induction n as [|n IH]; intros l Hr.
  - inversion Hr; subst. exists []. split; split; simpl; try done.
    + by eapply sound_inv_start.
    + intros _ _. split; [done|lia].
    + by intros _ _ o ?%not_elem_of_nil.
    + by intros _ o ?%not_elem_of_nil.
  - apply nsteps_inv_r in Hr as (l1&Hr&Hs). destruct (IH l1 Hr) as (c&Hc&Hf).
    destruct (flow_step c l1 l Hs (ci_search _ _ Hc) (ci_expired _ _ Hc) Hf) as [new Hf'].
    exists (c ++ new). split; [|done]. apply (control_step c (c ++ new) l1 l Hs); [rewrite length_app; lia|done..].
Qed.

(** An object of the answer. *)
Definition listed_ok (o : string) : Prop := object_ok o ∧ GetType o = lo_Type req ∧ has o.

(** What is counted: distinct objects the user has. *)
Lemma counted_objects c l : control_inv c l → flow_inv c l → NoDup c ∧ Forall listed_ok c.
Proof.
  intros Hc Hf. pose proof (ci_search _ _ Hc) as Hs. assert (c ⊆+ res_Object <$> sent (search l)) as Hsub.
  { etrans; [|apply (fi_flow _ _ Hf)]. solve_submseteq. }
  split; [by eapply submseteq_NoDup; [|apply Hs]|].
  pose proof (fi_has _ _ Hf) as Hh. rewrite Forall_forall in *. intros o Ho.
  destruct (sent_object _ o Hs) as [? ?]; [by eapply elem_of_submseteq|]. split_and!; auto.
Qed.

(** The answer is right. *)
Lemma results_sound c l : control_inv c l → flow_inv c l → NoDup (results l) ∧ Forall listed_ok (results l).
Proof.
  intros Hc Hf. destruct (counted_objects c l Hc Hf) as [Hn Hok].
  assert (results l ⊆+ c) as Hsub by (etrans; [|apply (fi_results _ _ Hf)]; solve_submseteq).
  split; [by eapply submseteq_NoDup|]. rewrite Forall_forall in *. intros o Ho. by eapply Hok, elem_of_submseteq.
Qed.

Lemma results_bounded c l :
  flow_inv c l → maxResults ≠ 0 → Z.of_nat (length (sent (search l))) < 2^32 → Z.of_nat (length (results l)) ≤ maxResults.
Proof. intros Hf Hm Hlen. destruct (fi_exact _ _ Hf Hm Hlen) as [_ Hb]. rewrite length_app in Hb. lia. Qed.

Context `{!ProtoTextLaws}.

(** Nothing is missing at the end, if nothing was cancelled. *)
Lemma results_complete c l o :
  control_inv c l → flow_inv c l → closed l = true → cancelled l = false → listed_ok o →
  o ∈ results l ∨ (maxResults ≠ 0 ∧ maxResults < Z.of_nat (length c)).
Proof.
  intros Hc Hf Hcl Hca (Ho&Hty&Hh). destruct (ci_closed _ _ Hc Hcl) as (Hco&Hch&Hst).
  destruct (ci_consuming _ _ Hc Hco) as [?|[Hfin Hin]]; [congruence|].
  destruct (ci_finished _ _ Hc Hfin) as (Hp&He&Ha).
  assert (o ∈ res_Object <$> sent (search l)) as Hsent by by apply (finished_sent m typesys conds resolveNodeLimit
    (lo_StoreId req) stored (lo_Context req) (lo_User req) (lo_Type req) (lo_Relation req) Hset (search l) o (ci_steps _ _ Hc Ha)).
  destruct (fi_candidates _ _ Hf Hca He o Hsent) as [Hw|[Hw|?]]; [|destruct (fi_counted _ _ Hf Hca o Hw) as [Hr|?]|done].
  - rewrite Hin, Hch in Hw. by apply not_elem_of_nil in Hw.
  - rewrite Hch in Hr. unfold sending in Hr. simpl in Hr. rewrite app_nil_r in Hr. by left.
  - by right.
Qed.

(** What [Execute] returns: a right answer, complete unless the deadline passed, the user
    has the maximum of objects, or (with no maximum) a condition failed. *)
Definition list_answer (l : Listing) (o : outcome ListErr (list string)) : Prop :=
  match o with
  | Ret objects =>
      NoDup objects ∧ Forall listed_ok objects ∧
      (maxResults ≠ 0 → Z.of_nat (length (sent (search l))) < 2^32 → Z.of_nat (length objects) ≤ maxResults) ∧
      (expired l = false →
         (∀ o, listed_ok o → o ∈ objects) ∨
         (maxResults ≠ 0 ∧ ∃ many, NoDup many ∧ Forall listed_ok many ∧ maxResults ≤ Z.of_nat (length many)) ∨
         (maxResults = 0 ∧ ∃ e, pool_err l = Some e ∧ pool_evaluation_failed e = true))
  | Throw _ => (∃ es, pool_err l = Some (PoolSearch es) ∧ es ⊆ errs (search l)) ∨
               (∃ e o, pool_err l = Some (PoolCheck e) ∧ check_answers o (inl e))
  | Panic _ => False
  end.

Lemma PoolCancelled_match {A} (e : PoolErr) (x y : A) : e ≠ PoolCancelled → match e with PoolCancelled => x | _ => y end = y.
Proof. by destruct e. Qed.

Lemma list_answer_exact l :
  rtc lstep (init req) l → closed l = true → list_answer l (Execute_response maxResults l).
Proof.
  intros Hr Hcl. destruct (listing_reachable l Hr) as (c&Hc&Hf). pose proof (results_sound c l Hc Hf) as [Hn Hok].
  pose proof (results_bounded c l Hf) as Hb. destruct (counted_objects c l Hc Hf) as [Hnc Hoc].
  assert (∀ x, pool_err l = Some x → x ≠ PoolCancelled →
    (∃ es, pool_err l = Some (PoolSearch es) ∧ es ⊆ errs (search l)) ∨
    (∃ e o, pool_err l = Some (PoolCheck e) ∧ check_answers o (inl e))) as Herr.
  { intros x Hx Hne. pose proof (ci_pool_err _ _ Hc) as Hp. rewrite Hx in Hp |- *. destruct x as [es|e|]; [left|right|done].
    - exists es. by destruct Hp.
    - destruct Hp as [o Ho]. by exists e, o. }
  assert (pool_err l = None ∨ pool_err l = Some PoolCancelled → expired l = false →
    (∀ o, listed_ok o → o ∈ results l) ∨
    (maxResults ≠ 0 ∧ ∃ many, NoDup many ∧ Forall listed_ok many ∧ maxResults ≤ Z.of_nat (length many))) as Hcomp.
  { intros Hp Hex. destruct (decide (maxResults ≠ 0 ∧ maxResults ≤ Z.of_nat (length c))) as [[Hm Hle]|Hno].
    { right. split; [done|]. by exists c. }
    left. intros o Ho. destruct (cancelled l) eqn:Hca.
    - exfalso. destruct (ci_cancelled _ _ Hc Hca) as [?|[(e&He&Hne)|?]]; [congruence| |tauto].
      destruct Hp as [Hp|Hp]; rewrite Hp in He; congruence.
    - destruct (results_complete c l o Hc Hf Hcl Hca Ho) as [?|[? ?]]; [done|]. exfalso. apply Hno. split; [done|lia]. }
  unfold Execute_response. destruct (pool_err l) as [e|] eqn:Hp.
  2: { split_and!; try done. intros Hex. destruct (Hcomp (or_introl eq_refl) Hex); tauto. }
  assert (e = PoolCancelled ∨ e ≠ PoolCancelled) as [->|Hne] by (destruct e; auto); [split_and!; try done; intros Hex; destruct (Hcomp (or_intror eq_refl) Hex); tauto|].
  specialize (Herr e eq_refl Hne). rewrite <-Hp in Herr. rewrite (PoolCancelled_match e) by done. destruct (pool_depth_exceeded e); [exact Herr|].
  destruct (pool_evaluation_failed e) eqn:Hev; [|exact Herr].
  destruct (Z.of_nat (length (results l)) <? maxResults) eqn:Hlt; [exact Herr|]. apply Z.ltb_ge in Hlt.
  split_and!; try done. intros _. destruct (decide (maxResults = 0)) as [->|Hm]; [right; right; split; [done|]; by exists e|].
  right. left. split; [done|]. by exists (results l).
Qed.
End listing.
