(* ===== verification/ListObjectsCommand.v ===== *)
(** * ListObjects as the server runs it

    The goroutines of [ListObjects.v] with the checks that the Check command of
    [CheckCommand.v] answers and the reads over contextual and stored tuples: the answer of
    [Execute] against the meaning of a check, on every interleaving, and one interleaving
    that loses an object. *)

From stdpp Require Import relations.
From S2P Require Import Prelude GoStd Tuple CacheKeys Iterators Model Memory MemorySpec Typesystem Entrypoints TypesystemSpec.
From S2P Require Import Condition Validation ValidationSpec Check CheckSpec CheckSemantics CheckExact CheckMemory CombinedReader.
From S2P Require Import FastPath FastPathSpec SortedCombined FastPathMemory RecursivePath RecursivePathExact RecursivePathMemory.
From S2P Require Import RelationshipGraph ReverseExpand ReverseExpandSpec ReverseExpandMemory.
From S2P Require Import ServerErrors CheckCommand ListObjects ListObjectsSpec.

Local Open Scope Z_scope.
Local Open Scope go_scope.

Section served.
Context `{!ModelGraph, !Cel, !MapRange, !ConditionCompiler, !Scheduler, !GraphLaws, !SortSlice, !SortTupleKeys, !ProtoText, !ProtoTextLaws}.
Context `{!RelationshipTupleReader} (store : string) `{!RelationshipTupleReaderSpec store, !FastPathRuntime}.
Context (m : AuthorizationModel) (typesys : TypeSystem) (conds : gmap string EvaluableCondition) (sel : FastPathSelection).
Context (maxResolutionDepth resolveNodeLimit maxResults : Z) (times : string → Z) (req : ListObjectsRequest).

(** The tuples of the request, and the reads of the search over them. *)
Abbreviation tuples := (request_tuples store (lo_ContextualTuples req)).
Context `{!StartingReader, !StartingReaderSpec (lo_StoreId req) tuples}.

Abbreviation check_answers := (candidate_answers typesys times (local_resolver typesys conds sel maxResolutionDepth) req).
Abbreviation lstep := (lstep typesys conds resolveNodeLimit maxResults check_answers).

(** A validated request to a server whose stored tuples have valid objects: its contextual
    tuples are distinct and not stored, conditions that are met have all their parameters,
    and the fast paths of its checks are as [paths_ready] asks. *)
Record list_setting : Prop := {
  lr_server : server_setting store m typesys conds maxResolutionDepth;
  lr_paths : paths_ready m typesys conds tuples (lo_Context req) (lo_User req) sel;
  lr_names : names_plain typesys;
  lr_objects : ∀ t, t ∈ stored store → object_ok (Object (Key t));
  lr_store : lo_StoreId req = store;
  lr_fresh : contextual_fresh store (lo_ContextualTuples req);
  lr_validated : evaluate_validate typesys req = Ret tt;
  lr_strict : conditions_strict conds tuples (lo_Context req);
  lr_max : 0 ≤ maxResults < 2^32;
}.

(** The contextual tuples are validated alike by both commands. *)
Lemma validate_ctx_tuples_Ret tks :
  validate_ctx_tuples typesys tks = Ret tt → validate_contextual typesys tks = Ret tt.
Proof.
  induction tks as [|tk tks IH]; simpl; [done|]. by destruct (ValidateTupleForWrite typesys tk) as [[]| |].
Qed.

Lemma evaluate_validate_Ret :
  evaluate_validate typesys req = Ret tt →
  validate_contextual typesys (lo_ContextualTuples req) = Ret tt ∧
  (∃ rel, GetRelation typesys (lo_Type req) (lo_Relation req) = Ret rel) ∧
  IsValidUser (lo_User req) = true ∧ GetType (lo_User req) ≠ "".
Proof.
  unfold evaluate_validate. destruct (IsSchemaVersionSupported _) eqn:Hv; simpl; [|done].
  destruct (validate_ctx_tuples _ _) as [[]| |] eqn:Hc; simpl; [|done..].
  destruct (GetRelation _ _ _) as [rel|[]|] eqn:Hrel; try done.
  destruct (ValidateUser _ _) as [[]| |] eqn:Hu; [|done..]. intros _. apply ValidateUser_Ret in Hu as [Hx1 Hx2].
  split_and!; [by apply validate_ctx_tuples_Ret|by exists rel|done|by apply Hx2].
Qed.

Lemma list_search_setting : list_setting → search_setting m typesys tuples (lo_User req) (lo_Type req) (lo_Relation req).
Proof.
  intros Hl. destruct (evaluate_validate_Ret (lr_validated Hl)) as (Hctx&Hrel&Hu&Hty). pose proof (lr_server Hl) as Hs.
  split; try apply Hs; try apply Hl; try done.
  - intros t [Ht|Ht]%elem_of_app; [|by apply (sv_stored _ _ _ _ _ Hs)].
    by destruct (ct_users _ _ (contextual_ok_new _ _ _ _ (sv_model _ _ _ _ _ Hs) Hctx (lr_fresh Hl)) t Ht).
  - intros t [(tk&Htk&Hkey)%contextual_from|Ht]%elem_of_app; [|by apply (lr_objects Hl)].
    pose proof (validate_contextual_Ret _ _ _ Hctx Htk) as Hw. injection Hkey as -> _ _.
    unfold ValidateTupleForWrite, wrap_invalid, ValidateUserObjectRelation in Hw.
    destruct (ValidateUser typesys (User tk)) as [[]| |]; simpl in Hw; [|done..].
    unfold ValidateObject in Hw. destruct (IsValidObject (Object tk)) eqn:Ho; [|done]. by apply valid_object_facts.
Qed.

Lemma candidate_command o :
  list_setting → positive_model typesys →
  command_answer store typesys conds (candidate_check req o)
    (CheckQuery_Execute typesys times (local_resolver typesys conds sel maxResolutionDepth) (candidate_check req o)).
Proof.
  intros Hl Hpos. eapply (CheckQuery_Execute_exact store m typesys conds maxResolutionDepth); [apply Hl| |apply Hl].
  apply (local_resolver_serves store m); [by destruct Hl|done|by destruct Hl..].
Qed.

Lemma candidate_answers_exact o b :
  list_setting → positive_model typesys → check_answers o (inr b) → (b = true ↔ has typesys conds req tuples o).
Proof.
  intros Hl Hpos Hans. pose proof (candidate_command o Hl Hpos) as Hex.
  unfold candidate_answers in Hans. destruct (CheckQuery_Execute _ _ _ _) as [resp| |]; [|done..]. injection Hans as ->. apply Hex.
Qed.

Lemma candidate_answers_total o : list_setting → positive_model typesys → ∃ out, check_answers o out.
Proof.
  intros Hl Hpos. pose proof (candidate_command o Hl Hpos) as Hex. unfold candidate_answers.
  destruct (CheckQuery_Execute _ _ _ _) as [resp|e|w]; [by eexists..|done].
Qed.

End served.

(** ** Schedules *)

(** The steps of an interleaving, each taken on the first of what is waiting. *)
Inductive Move := MSearch | MSearchClose | MReceive | MConsumerEnd | MCheck | MSend | MDrop | MClose.

Section schedules.
Context `{!ModelGraph, !Cel, !ProtoText, !StartingReader}.
Context (typesys : TypeSystem) (conds : gmap string EvaluableCondition) (resolveNodeLimit maxResults : Z).
Context (check_answers : string → CheckCmdErr + bool → Prop) (answer : string → option (CheckCmdErr + bool)).
Context (Hanswer : ∀ o out, answer o = Some out → check_answers o out).
Abbreviation lstep := (lstep typesys conds resolveNodeLimit maxResults check_answers).

Definition do_move (mv : Move) (l : Listing) : option Listing :=
  match mv with
  | MSearch =>
      match status l, pending (search l) with
      | SearchRunning, t :: ts =>
          let s' := execute typesys conds resolveNodeLimit t (with_pending ts (search l)) in
          Some (set_search s' (drop (length (sent (search l))) (sent s')) false l)
      | _, _ => None
      end
  | MSearchClose =>
      match status l, pending (search l), errs (search l), aborted l with
      | SearchRunning, [], [], false => Some (set_status SearchClosed l)
      | _, _, _, _ => None
      end
  | MReceive =>
      match consuming l, inbox l with
      | true, r :: rs => Some (receive maxResults r (set_inbox rs l))
      | _, _ => None
      end
  | MConsumerEnd =>
      match consuming l, inbox l, status l with
      | true, [], SearchClosed => Some (stop_consuming false l)
      | _, _, _ => None
      end
  | MCheck =>
      match checks l with
      | Checking o :: cs => (λ out, check_done maxResults o out cs l) <$> answer o
      | _ => None
      end
  | MSend =>
      match checks l with
      | SendingObject o :: cs => Some (push_result o (set_checks cs l))
      | _ => None
      end
  | MDrop =>
      match checks l, cancelled l with
      | SendingObject o :: cs, true => Some (set_checks cs l)
      | _, _ => None
      end
  | MClose =>
      match closed l, consuming l, status l, checks l with
      | false, false, SearchClosed, [] => Some (close l)
      | _, _, _, _ => None
      end
  end.

Fixpoint do_moves (mvs : list Move) (l : Listing) : option Listing :=
  match mvs with [] => Some l | mv :: rest => do_move mv l ≫= do_moves rest end.

Lemma do_move_step mv l l' : do_move mv l = Some l' → lstep l l'.
Proof.
  destruct mv; simpl.
  - destruct (status l) eqn:Hst; [|done..]. destruct (pending (search l)) as [|t ts] eqn:Hp; [done|]. intros [= <-].
    assert (step typesys conds resolveNodeLimit (search l) (execute typesys conds resolveNodeLimit t (with_pending ts (search l)))) as Hs
      by by apply (step_execute _ _ _ [] t ts).
    destruct (step_grows _ _ _ _ _ Hs) as [(new&Hn&_) _]. apply ls_search; [done..|]. by rewrite Hn, drop_app_length.
  - repeat case_match; try done. intros [= <-]. by apply ls_search_close.
  - repeat case_match; try done. intros [= <-]. by apply (ls_receive _ _ _ _ _ l [] _ _).
  - repeat case_match; try done. intros [= <-]. by apply ls_closed.
  - destruct (checks l) as [|[o|o] cs] eqn:Hc; try done. destruct (answer o) as [out|] eqn:Ho; [|done]. intros [= <-].
    by apply (ls_check _ _ _ _ _ l [] o cs); [|apply Hanswer].
  - destruct (checks l) as [|[o|o] cs] eqn:Hc; try done. intros [= <-]. by apply (ls_send _ _ _ _ _ l [] o cs).
  - destruct (checks l) as [|[o|o] cs] eqn:Hc; try done. destruct (cancelled l) eqn:Hca; [|done]. intros [= <-].
    by apply (ls_unsent _ _ _ _ _ l [] o cs).
  - repeat case_match; try done. intros [= <-]. apply ls_close; try done. congruence.
Qed.

Lemma do_moves_steps mvs l l' : do_moves mvs l = Some l' → rtc lstep l l'.
Proof.
  revert l. induction mvs as [|mv rest IH]; simpl; intros l; [by intros [= ->]|].
  destruct (do_move mv l) as [l1|] eqn:Hm; [|done]. simpl. intros Hr. eapply rtc_l; [by eapply do_move_step|by apply IH].
Qed.
End schedules.

(** ** Documents that two relations make visible *)

(** type doc with owner: [user], reader: [user] and viewer: owner and reader. *)
Definition both_model : AuthorizationModel :=
  mkAuthorizationModel "model" "1.1"
    [mkTypeDefinition "user" ∅ ∅;
     mkTypeDefinition "doc"
       (<["owner" := This]> (<["reader" := This]> {["viewer" := Intersection [ComputedUserset "owner"; ComputedUserset "reader"]]}))
       (<["owner" := [DirectRelationReference "user" ""]]> {["reader" := [DirectRelationReference "user" ""]]})] ∅.

(** user:x owns three documents and reads two of them, user:y becomes a reader of one by a
    contextual tuple. *)
Definition both_tuples : list TupleKey :=
  [NewTupleKey "doc:1" "owner" "user:x"; NewTupleKey "doc:1" "reader" "user:x"; NewTupleKey "doc:2" "owner" "user:x";
   NewTupleKey "doc:2" "reader" "user:x"; NewTupleKey "doc:3" "owner" "user:x"; NewTupleKey "doc:3" "owner" "user:y"].

Definition both_request (user : string) : ListObjectsRequest :=
  mkListObjectsRequest "store" "doc" "viewer" user [NewTupleKey "doc:3" "reader" "user:y"] None false.

Section demo.
Context (t : @TypeSystem demo_Graph) (user : string) (maxResults : Z).

Definition both_backend : MemoryBackend := backend_with both_tuples.
Definition both_reader : StartingReader :=
  @combined_StartingReader (memory_Reader both_backend) (@NewCombinedTupleReader stable_SortSlice (lo_ContextualTuples (both_request user)))
    (@ReadStartingWithUser stable_SortSlice both_backend).

Definition both_resolver :=
  @local_resolver demo_Graph demo_Cel rev_Scheduler stable_SortSlice (memory_Reader both_backend) (demo_Runtime both_tuples) t ∅ no_selection 25.

Definition both_answers : string → CheckCmdErr + bool → Prop :=
  @candidate_answers demo_Graph demo_Cel insertion_SortTupleKeys t (λ _, 0) both_resolver (both_request user).

(** The answer of a check, as a function. *)
Definition both_answer (o : string) : option (CheckCmdErr + bool) :=
  match @CheckQuery_Execute demo_Graph demo_Cel insertion_SortTupleKeys t (λ _, 0) both_resolver (candidate_check (both_request user) o) with
  | Ret resp => Some (inr (Allowed resp))
  | Throw e => Some (inl e)
  | Panic _ => None
  end.

Lemma both_answer_ok o out : both_answer o = Some out → both_answers o out.
Proof. unfold both_answer, both_answers, candidate_answers. destruct (CheckQuery_Execute _ _ _ _); by intros [= <-]. Qed.

Definition both_step := @lstep demo_Graph demo_Cel demo_ProtoText both_reader t ∅ 25 maxResults both_answers.
Definition both_moves (mvs : list Move) : option Listing :=
  @do_moves demo_Graph demo_Cel demo_ProtoText both_reader t ∅ 25 maxResults both_answer mvs (init (both_request user)).

Lemma both_moves_steps mvs l : both_moves mvs = Some l → rtc both_step (init (both_request user)) l.
Proof. apply do_moves_steps, both_answer_ok. Qed.
End demo.

(** The search to its end. *)
Definition search_moves : list Move := replicate 7 MSearch ++ [MSearchClose].
Definition listing_moves : list Move :=
  search_moves ++ replicate 3 MReceive ++ [MConsumerEnd; MCheck; MCheck; MSend; MCheck; MSend; MClose].

(** The consumer reads the second candidate after the first was counted and before it is
    sent. *)
Definition race_moves : list Move := search_moves ++ [MReceive; MCheck; MReceive; MDrop; MClose].

Definition list_setting_b (t : @TypeSystem demo_Graph) (user : string) : bool :=
  demo_search_ok t both_tuples user "doc" "viewer" && bool_decide (modelID t ≠ "")
  && forallb (λ rel, negb (has_difference (rel_Rewrite rel))) (all_relations t)
  && forallb (λ x, bool_decide (Condition (Key x) = None)) (AsTuple <$> store_tuples both_backend "store")
  && contextual_fresh_b (AsTuple <$> store_tuples both_backend "store") (lo_ContextualTuples (both_request user))
  && names_b t && is_ret (@evaluate_validate demo_Graph demo_Cel t (both_request user)).

Definition list_facts (t : @TypeSystem demo_Graph) : Prop :=
  list_setting_b t "user:x" = true ∧
  both_answer t "user:x" "doc:1" = Some (inr true) ∧ both_answer t "user:x" "doc:2" = Some (inr true) ∧
  match both_moves t "user:x" 0 listing_moves with
  | Some l => closed l = true ∧ expired l = false ∧ pool_err l = None ∧ results l = ["doc:2"; "doc:1"]
  | None => False
  end ∧
  match both_moves t "user:x" 1 race_moves with
  | Some l => closed l = true ∧ expired l = false ∧ pool_err l = None ∧ errs (search l) = [] ∧ results l = []
  | None => False
  end.

Lemma both_list_facts : match validate both_model with Ret t => list_facts t | _ => False end.
Proof. vm_compute. by split_and!. Qed.

Lemma both_tuples_complete : forallb complete_b both_tuples = true.
Proof. reflexivity. Qed.

Abbreviation both_ReaderSpec := (memory_ReaderSpec both_backend (backend_with_inv _ both_tuples_complete) "store").
Abbreviation both_request_tuples user := (@request_tuples stable_SortSlice (memory_Reader both_backend) "store" both_ReaderSpec
  (lo_ContextualTuples (both_request user))).

Definition both_readerSpec user : @StartingReaderSpec (both_reader user) "store" (both_request_tuples user).
Proof.
  apply (@combined_StartingReaderSpec (memory_Reader both_backend) "store" both_ReaderSpec).
  intros ty r users _ _. exact (memory_ReadStartingWithUser both_backend (backend_with_inv _ both_tuples_complete) "store" ty r users).
Defined.

Lemma both_list_setting t user maxResults :
  validate both_model = Ret t → list_setting_b t user = true → 0 ≤ maxResults < 2^32 →
  @list_setting demo_Graph demo_Cel map_to_list_MapRange demo_Compiler stable_SortSlice (memory_Reader both_backend) "store"
    both_ReaderSpec (demo_Runtime both_tuples) both_model t ∅ no_selection 25 maxResults (both_request user).
Proof.
  intros Hm Hok Hmax. unfold list_setting_b in Hok. rewrite !andb_true_iff in Hok.
  destruct Hok as [[[[[[Hs Hid] Hpos] Hc] Hf] Hn] Hv]. pose proof (demo_search_setting _ _ _ _ _ _ Hm Hs) as Hset.
  assert (demo_setting_ok t both_tuples user = true) as Hsrv.
  { unfold demo_search_ok in Hs. rewrite !andb_true_iff in Hs. tauto. }
  split.
  - exact (demo_server_setting _ _ _ _ _ Hm Hsrv Hid).
  - exact (@no_selection_ready demo_Graph demo_Cel map_to_list_MapRange demo_Compiler _ _ _ _ _ _ Hn).
  - apply Hset.
  - apply Hset.
  - done.
  - by apply contextual_fresh_decide.
  - by destruct (evaluate_validate _ _) as [[]| |].
  - apply unconditioned_strict. unfold request_tuples. rewrite forallb_app. apply andb_true_iff. by split; [vm_compute|].
  - done.
Qed.

Lemma both_positive t user : list_setting_b t user = true → positive_model t.
Proof. intros Hok. apply positive_decide. unfold list_setting_b in Hok. rewrite !andb_true_iff in Hok. tauto. Qed.



(** An object can be lost: with a maximum of one object, user:x viewing doc:1 and doc:2,
    no error, no deadline and every check answering, there is an interleaving in which
    [Execute] returns no object at all.  The goroutine of the first check counts its object
    before it sends it; the consumer sees the maximum counted, cancels the pool, and the
    send gives up. *)
Theorem ListObjects_loses_object :
  match validate both_model with
  | Ret t =>
      (∀ o, o ∈ ["doc:1"; "doc:2"] → both_answers t "user:x" o (inr true)) ∧
      ∃ l, rtc (both_step t "user:x" 1) (init (both_request "user:x")) l ∧ closed l = true ∧ expired l = false ∧
        errs (search l) = [] ∧ Execute_response 1 l = Ret []
  | _ => False
  end.
Proof.
  pose proof both_list_facts as Hf. destruct (validate both_model) as [t| |] eqn:E; [|exact Hf..].
  destruct Hf as (Hok&Ha1&Ha2&_&Hl). destruct (both_moves t "user:x" 1 race_moves) as [l|] eqn:El; [|destruct Hl].
  destruct Hl as (Hcl&Hex&Hp&He&Hres). split.
  - intros o [->|[->|[]%not_elem_of_nil]%elem_of_cons]%elem_of_cons; by apply both_answer_ok.
  - exists l. clear E. split; [exact (both_moves_steps _ _ _ _ _ El)|]. unfold Execute_response. rewrite Hp, Hres. by clear El.
Qed.
