(* ===== verification/Tokens.v ===== *)
(** * Continuation tokens: [pkg/encoder], [pkg/encrypter]

    What the API does with the tokens of the datastore before a client sees them, and when
    the client sends them back: a serializer that joins the token with the type it is for,
    an optional encryption and base64.  [Encoder] and [Encrypter] are the interfaces of the
    sources, with the law that the other direction undoes each; every implementation is
    proved to meet it. *)

From S2P Require Import Prelude GoStd Memory.

Local Open Scope N_scope.
Local Open Scope go_scope.

(** ** encoding/base64, [URLEncoding] *)

Definition b64_alphabet : string := "ABCDEFGHIJKLMNOPQRSTUVWXYZabcdefghijklmnopqrstuvwxyz0123456789-_".

Definition b64_char (n : N) : ascii := default "="%char (String.get (N.to_nat n) b64_alphabet).
Definition b64_value (c : ascii) : option N := N.of_nat <$> IndexByte b64_alphabet c.

(** Three bytes are four digits, the last group is padded. *)
Fixpoint EncodeToString (s : string) : string :=
  match s with
  | "" => ""
  | String a "" =>
      let n := N_of_ascii a * 65536 in
      String (b64_char (n / 262144)) (String (b64_char (n / 4096 mod 64)) "==")
  | String a (String b "") =>
      let n := N_of_ascii a * 65536 + N_of_ascii b * 256 in
      String (b64_char (n / 262144)) (String (b64_char (n / 4096 mod 64)) (String (b64_char (n / 64 mod 64)) "="))
  | String a (String b (String c rest)) =>
      let n := N_of_ascii a * 65536 + N_of_ascii b * 256 + N_of_ascii c in
      String (b64_char (n / 262144)) (String (b64_char (n / 4096 mod 64)) (String (b64_char (n / 64 mod 64))
        (String (b64_char (n mod 64)) (EncodeToString rest))))
  end.

(** The decoder skips line ends. *)
Fixpoint strip_newlines (s : string) : string :=
  match s with
  | "" => ""
  | String c rest => if bool_decide (c ∈ ["010"; "013"]%char) then strip_newlines rest else String c (strip_newlines rest)
  end.

Definition group_bytes (n : N) (k : nat) : string :=
  str_take k (String (ascii_of_N (n / 65536)) (String (ascii_of_N (n / 256 mod 256)) (String (ascii_of_N (n mod 256)) ""))).

Fixpoint decode_groups (s : string) : option string :=
  match s with
  | "" => Some ""
  | String c1 (String c2 (String c3 (String c4 rest))) =>
      match b64_value c1, b64_value c2 with
      | Some v1, Some v2 =>
          match b64_value c3, b64_value c4 with
          | Some v3, Some v4 =>
              (λ s, group_bytes (v1 * 262144 + v2 * 4096 + v3 * 64 + v4) 3 +:+ s) <$> decode_groups rest
          | Some v3, None =>
              if bool_decide (c4 = "=")%char && (rest =s "") then Some (group_bytes (v1 * 262144 + v2 * 4096 + v3 * 64) 2) else None
          | None, _ =>
              if bool_decide (c3 = "=")%char && bool_decide (c4 = "=")%char && (rest =s "")
              then Some (group_bytes (v1 * 262144 + v2 * 4096) 1) else None
          end
      | _, _ => None
      end
  | _ => None
  end.

Definition DecodeString (s : string) : option string := decode_groups (strip_newlines s).

(** ** Encrypters *)

Inductive TokenErr := ErrCorruptInput | ErrCiphertextTooShort | ErrCipher | ErrNonce | ErrEmptyUlid.

Class Encrypter := {
  Decrypt : string → outcome TokenErr string;
  Encrypt : string → outcome TokenErr string;
}.

Class EncrypterLaws `{!Encrypter} := {
  Decrypt_Encrypt data enc : Encrypt data = Ret enc → Decrypt enc = Ret data;
}.

Definition NoopEncrypter : Encrypter := {| Decrypt data := Ret data; Encrypt data := Ret data |}.

(** The cipher mode: [crypto/cipher]'s AEAD under the key of the encrypter.  [Seal] appends
    to its first argument. *)
Class AEAD := {
  NonceSize : nat;
  Seal : string → string → string;
  Open : string → string → option string;
}.

Class AEADLaws `{!AEAD} := {
  Open_Seal nonce data : String.length nonce = NonceSize → Open nonce (Seal nonce data) = Some data;
}.

(** [GCMEncrypter]; [nonce] is what [rand.Reader] gives for the data. *)
Definition GCMEncrypter `{!AEAD} (nonce : string → option string) : Encrypter := {|
  Decrypt data :=
    if data =s "" then Ret data
    else if (String.length data <? NonceSize)%nat then Throw ErrCiphertextTooShort
    else match Open (str_take NonceSize data) (str_drop NonceSize data) with
         | Some plain => Ret plain
         | None => Throw ErrCipher
         end;
  Encrypt data :=
    if data =s "" then Ret data
    else match nonce data with
         | Some n => Ret (n +:+ Seal n data)
         | None => Throw ErrNonce
         end;
|}.

(** ** Encoders *)

Class Encoder := {
  Decode : string → outcome TokenErr string;
  Encode : string → outcome TokenErr string;
}.

Class EncoderLaws `{!Encoder} := {
  Decode_Encode data enc : Encode data = Ret enc → Decode enc = Ret data;
  Decode_empty : Decode "" = Ret "";
}.

Definition NoopEncoder : Encoder := {| Decode s := Ret s; Encode data := Ret data |}.

Definition Base64Encoder : Encoder := {|
  Decode s := match DecodeString s with Some data => Ret data | None => Throw ErrCorruptInput end;
  Encode data := Ret (EncodeToString data);
|}.

Definition TokenEncoder (encrypter : Encrypter) (encoder : Encoder) : Encoder := {|
  Decode s := let! decoded := @Decode encoder s in @Decrypt encrypter decoded;
  Encode data := let! encrypted := @Encrypt encrypter data in @Encode encoder encrypted;
|}.

(** ** Serializers *)

Class ContinuationTokenSerializer := {
  Serialize : string → string → outcome TokenErr string;
  Deserialize : string → outcome StorageErr (string * string);
}.

(** [strings.Split(token, "|")], its first two parts. *)
Definition StringContinuationTokenSerializer : ContinuationTokenSerializer := {|
  Serialize ulid objType := if ulid =s "" then Throw ErrEmptyUlid else Ret (ulid +:+ String "|" objType);
  Deserialize continuationToken :=
    if negb (has_byte "|" continuationToken) then Throw ErrInvalidContinuationToken
    else let '(first, rest, _) := Cut continuationToken "|" in
         let '(second, _, _) := Cut rest "|" in
         Ret (first, second);
|}.

(** ** The laws *)

Lemma b64_digits : forallb (λ n, bool_decide (b64_value (b64_char (N.of_nat n)) = Some (N.of_nat n))) (seq 0 64) = true.
Proof. by vm_compute. Qed.

Lemma b64_value_char n : n < 64 → b64_value (b64_char n) = Some n.
Proof.
  intros Hn. pose proof b64_digits as Hd. rewrite forallb_forall in Hd. specialize (Hd (N.to_nat n)).
  rewrite N2Nat.id in Hd. apply (bool_decide_eq_true_1 _), Hd, in_seq. lia.
Qed.

Lemma b64_chars : forallb (λ n, bool_decide (b64_char (N.of_nat n) ∉ ["010"; "013"]%char)) (seq 0 64) = true.
Proof. by vm_compute. Qed.

Lemma b64_char_no_newline n : n < 64 → b64_char n ∉ ["010"; "013"]%char.
Proof.
  intros Hn. pose proof b64_chars as Hd. rewrite forallb_forall in Hd. specialize (Hd (N.to_nat n)).
  rewrite N2Nat.id in Hd. apply (bool_decide_eq_true_1 _), Hd, in_seq. lia.
Qed.

(** Induction by groups of three bytes. *)
Lemma string_ind3 (P : string → Prop) :
  P "" → (∀ a, P (String a "")) → (∀ a b, P (String a (String b ""))) →
  (∀ a b c s, P s → P (String a (String b (String c s)))) → ∀ s, P s.
Proof.
  intros H0 H1 H2 H3 s. enough (∀ n s, (String.length s ≤ n)%nat → P s) as He by by apply (He (String.length s)).
  clear s. induction n as [|n IH]; intros s Hn; [by destruct s; simpl in *; [|lia]|].
  destruct s as [|a [|b [|c s]]]; [done..|]. apply H3, IH. simpl in Hn. lia.
Qed.

Lemma byte_bound (a : ascii) : N_of_ascii a < 256.
Proof. apply N_ascii_bounded. Qed.

Lemma strip_newlines_Encode s : strip_newlines (EncodeToString s) = EncodeToString s.
Proof.
  assert (∀ n t, n < 64 → strip_newlines (String (b64_char n) t) = String (b64_char n) (strip_newlines t)) as Hchar.
  { intros n t Hn. cbn [strip_newlines]. rewrite bool_decide_false; [done|]. by apply b64_char_no_newline. }
  induction s as [|a|a b|a b c s IH] using string_ind3; [done| | |]; cbn [EncodeToString]; cbv zeta;
    pose proof (byte_bound a); try pose proof (byte_bound b); try pose proof (byte_bound c);
    repeat (rewrite Hchar by first [apply N.mod_lt; lia|apply N.Div0.div_lt_upper_bound; lia]); [done..|].
  by rewrite IH.
Qed.

(** The groups hold their bytes. *)
Lemma group_bytes_ok (a b c : ascii) (n := N_of_ascii a * 65536 + N_of_ascii b * 256 + N_of_ascii c) :
  n / 65536 = N_of_ascii a ∧ n / 256 mod 256 = N_of_ascii b ∧ n mod 256 = N_of_ascii c ∧
  n / 262144 * 262144 + n / 4096 mod 64 * 4096 + n / 64 mod 64 * 64 + n mod 64 = n.
Proof.
  pose proof (byte_bound a). pose proof (byte_bound b). pose proof (byte_bound c). subst n.
  generalize dependent (N_of_ascii a). generalize dependent (N_of_ascii b). generalize dependent (N_of_ascii c).
  intros z Hz y Hy x Hx. split_and!; zify; Z.to_euclidean_division_equations; lia.
Qed.

Lemma group_bytes_take (a b c : ascii) k :
  group_bytes (N_of_ascii a * 65536 + N_of_ascii b * 256 + N_of_ascii c) k = str_take k (String a (String b (String c ""))).
Proof.
  unfold group_bytes. destruct (group_bytes_ok a b c) as (->&->&->&_). by rewrite !ascii_N_embedding.
Qed.

Lemma decode_groups_Encode s : decode_groups (EncodeToString s) = Some s.
Proof.
  assert (∀ a b c : ascii, N_of_ascii a * 65536 + N_of_ascii b * 256 + N_of_ascii c < 16777216) as Hn.
  { intros a b c. pose proof (byte_bound a). pose proof (byte_bound b). pose proof (byte_bound c). lia. }
  induction s as [|a|a b|a b c s IH] using string_ind3; [done| | |]; cbn [EncodeToString]; cbv zeta.
  - pose proof (Hn a "000" "000")%char as Hb. change (N_of_ascii "000") with 0 in Hb. rewrite N.mul_0_l, !N.add_0_r in Hb.
    pose proof (group_bytes_ok a "000" "000")%char as (_&_&_&Hsum). change (N_of_ascii "000") with 0 in Hsum. rewrite N.mul_0_l, !N.add_0_r in Hsum.
    pose proof (group_bytes_take a "000" "000" 1)%char as Ht. change (N_of_ascii "000") with 0 in Ht. rewrite N.mul_0_l, !N.add_0_r in Ht.
    set (n := N_of_ascii a * 65536) in *. cbn [decode_groups].
    rewrite !b64_value_char by first [apply N.mod_lt; lia|apply N.Div0.div_lt_upper_bound; lia].
    change (b64_value "=") with (@None N). cbn [andb bool_decide decide_rel].
    assert (n / 262144 * 262144 + n / 4096 mod 64 * 4096 = n) as ->; [|by rewrite Ht].
    assert (n / 64 mod 64 = 0 ∧ n mod 64 = 0) as [E1 E2]; [|rewrite E1, E2 in Hsum; lia].
    subst n. clear. split; zify; Z.to_euclidean_division_equations; lia.
  - pose proof (Hn a b "000")%char as Hb. change (N_of_ascii "000") with 0 in Hb. rewrite !N.add_0_r in Hb.
    pose proof (group_bytes_ok a b "000")%char as (_&_&_&Hsum). change (N_of_ascii "000") with 0 in Hsum. rewrite !N.add_0_r in Hsum.
    pose proof (group_bytes_take a b "000" 2)%char as Ht. change (N_of_ascii "000") with 0 in Ht. rewrite !N.add_0_r in Ht.
    set (n := N_of_ascii a * 65536 + N_of_ascii b * 256) in *. cbn [decode_groups].
    rewrite !b64_value_char by first [apply N.mod_lt; lia|apply N.Div0.div_lt_upper_bound; lia].
    change (b64_value "=") with (@None N). 
    assert (n / 262144 * 262144 + n / 4096 mod 64 * 4096 + n / 64 mod 64 * 64 = n) as ->; [|by rewrite Ht].
    assert (n mod 64 = 0) as E2; [|rewrite E2 in Hsum; lia].
    subst n. clear. zify; Z.to_euclidean_division_equations; lia.
  - pose proof (Hn a b c) as Hb. pose proof (group_bytes_ok a b c) as (_&_&_&Hsum). pose proof (group_bytes_take a b c 3) as Ht.
    set (n := N_of_ascii a * 65536 + N_of_ascii b * 256 + N_of_ascii c) in *. cbn [decode_groups].
    rewrite !b64_value_char by first [apply N.mod_lt; lia|apply N.Div0.div_lt_upper_bound; lia].
    rewrite IH, Hsum, Ht. done.
Qed.

Definition NoopEncrypterLaws : @EncrypterLaws NoopEncrypter.
Proof. split. by intros data enc [= <-]. Defined.

Definition GCMEncrypterLaws `{!AEAD, !AEADLaws} nonce :
  (∀ data n, nonce data = Some n → String.length n = NonceSize) → (0 < NonceSize)%nat → @EncrypterLaws (GCMEncrypter nonce).
Proof.
  intros Hlen Hpos. split. intros data enc. cbn [Encrypt Decrypt GCMEncrypter].
  case_bool_decide as Hd; [intros [= <-]; by rewrite bool_decide_true|].
  destruct (nonce data) as [n|] eqn:Hn; [|done]. intros [= <-]. pose proof (Hlen _ _ Hn) as Hl.
  rewrite bool_decide_false by (destruct n; simpl in *; [lia|done]).
  rewrite (proj2 (Nat.ltb_ge _ _)) by (rewrite str_length_app; lia). rewrite <-Hl, str_take_app, str_drop_app, Open_Seal; done.
Defined.

Definition NoopEncoderLaws : @EncoderLaws NoopEncoder.
Proof. split; [by intros data enc [= <-]|done]. Defined.

Definition Base64EncoderLaws : @EncoderLaws Base64Encoder.
Proof.
  split; [|done]. intros data enc [= <-]. cbn [Decode Base64Encoder]. unfold DecodeString.
  by rewrite strip_newlines_Encode, decode_groups_Encode.
Defined.

(** Both layers of [TokenEncoder]; an empty token stays empty. *)
Definition TokenEncoderLaws (encrypter : Encrypter) (encoder : Encoder) `{!@EncrypterLaws encrypter, !@EncoderLaws encoder} :
  Decrypt "" = Ret "" → @EncoderLaws (TokenEncoder encrypter encoder).
Proof.
  intros He. split.
  - intros data enc. cbn [Encode Decode TokenEncoder]. destruct (Encrypt data) as [x| |] eqn:Hx; simpl; [|done..].
    intros Hy%Decode_Encode. rewrite Hy. simpl. by apply Decrypt_Encrypt.
  - cbn [Decode TokenEncoder]. by rewrite Decode_empty.
Defined.

Lemma Serialize_Deserialize ulid objType token :
  @Serialize StringContinuationTokenSerializer ulid objType = Ret token → has_byte "|" ulid = false → has_byte "|" objType = false →
  @Deserialize StringContinuationTokenSerializer token = Ret (ulid, objType).
Proof.
  cbn [Serialize Deserialize StringContinuationTokenSerializer]. case_bool_decide; [done|]. intros [= <-] Hu Ht.
  rewrite has_byte_app, has_byte_cons, bool_decide_true, orb_true_r by done. cbn [negb]. rewrite Cut_app by done.
  by rewrite Cut_none.
Qed.

(** C29: a continuation token survives its way to the client and back: what [Decode] and
    [Deserialize] get out of an encrypted and base64-encoded token is the position and type
    that [Serialize] put in, for every cipher that opens what it sealed and every nonce of
    its size, provided neither the position nor the type has a pipe: [Deserialize] cuts the
    type at one ([ReadChanges_pipe_type]). *)
Theorem token_roundtrip `{!AEAD, !AEADLaws} (nonce : string → option string) (ulid objType token enc : string) :
  let encoder := TokenEncoder (GCMEncrypter nonce) Base64Encoder in
  let serializer := StringContinuationTokenSerializer in
  (∀ data n, nonce data = Some n → String.length n = NonceSize) → (0 < NonceSize)%nat →
  has_byte "|" ulid = false → has_byte "|" objType = false →
  @Serialize serializer ulid objType = Ret token → @Encode encoder token = Ret enc →
  @Decode encoder enc = Ret token ∧ @Deserialize serializer token = Ret (ulid, objType).
Proof.
  intros encoder serializer Hlen Hpos Hu Ht Hs He. split; [|by eapply Serialize_Deserialize].
  assert (@EncoderLaws encoder) as Hlaws.
  { exact (@TokenEncoderLaws (GCMEncrypter nonce) Base64Encoder (GCMEncrypterLaws nonce Hlen Hpos) Base64EncoderLaws eq_refl). }
  by apply (@Decode_Encode _ Hlaws).
Qed.

(** A cipher that prefixes the nonce. *)
Definition demo_AEAD : AEAD := {|
  NonceSize := 2;
  Seal n data := n +:+ data;
  Open n c := if bool_decide (str_take 2 c = n) then Some (str_drop 2 c) else None;
|}.
Definition demo_AEADLaws : @AEADLaws demo_AEAD.
Proof.
  split. intros n data Hn. cbn [Open Seal demo_AEAD] in *. change NonceSize with 2%nat in Hn.
  by rewrite <-Hn, str_take_app, str_drop_app, bool_decide_true.
Defined.

Lemma token_roundtrip_witness :
  let encoder := @TokenEncoder (@GCMEncrypter demo_AEAD (λ _, Some "xy")) Base64Encoder in
  @Decode encoder "eHl4eTAxQXxkb2M=" = Ret "01A|doc" ∧
  @Deserialize StringContinuationTokenSerializer "01A|doc" = Ret ("01A", "doc").
Proof.
  apply (@token_roundtrip demo_AEAD demo_AEADLaws (λ _, Some "xy") "01A" "doc"); [by intros _ n [= <-]|simpl; lia|reflexivity..].
Defined.
