(* ===== verification/ReadCommands.v ===== *)
(** * The reading commands: [pkg/server/commands]

    [read.go], [read_changes.go], [read_authzmodel.go], [read_authzmodels.go],
    [read_assertions.go], [get_store.go] and [list_stores.go] over the in-memory datastore,
    with the tokens of [Tokens.v]: a client that sends back the tokens it gets reads
    everything. *)

From Stdlib Require Import DecimalString.
From S2P Require Import Prelude GoStd Tuple Iterators Model Memory MemorySpec ServerErrors Tokens.

Local Open Scope Z_scope.
Local Open Scope go_scope.

Definition NewPaginationOptions (ps : Z) (contToken : string) : PaginationOptions :=
  mkPagination (if bool_decide (ps > 0) then ps else DefaultPageSize) contToken.

(** [ulid.New(ulid.Timestamp(t), nil)], its string; it fails on times after 10889 AD. *)
Class UlidTime := { ulid_of_time : Z → option string }.

(** The zero [time.Time], in milliseconds. *)
Definition zero_time : Z := -62135596800000.

Record ReadRequest := mkReadRequest {
  rq_StoreId : string;
  rq_Key : option TupleKeyWithoutCondition;
  rq_PageSize : Z;
  rq_ContinuationToken : string;
}.

Record ReadChangesRequest := mkReadChangesRequest {
  rc_StoreId : string;
  rc_Type : string;
  rc_PageSize : Z;
  rc_ContinuationToken : string;
  rc_StartTime : option Z;
}.

Section commands.
Context `{!Encoder, !ContinuationTokenSerializer}.

(** [q.encoder.Decode], [q.encoder.Encode] and [q.tokenSerializer.Serialize] with the errors
    of the commands. *)
Definition decode_token (token : string) : outcome ServerError string :=
  match Decode token with Ret t => Ret t | Throw _ => Throw SE_InvalidContinuationToken | Panic w => Panic w end.
Definition encode_token (token : string) : outcome ServerError string :=
  match Encode token with Ret t => Ret t | Throw _ => Throw SE_Internal | Panic w => Panic w end.
Definition serialize_token (token objType : string) : outcome ServerError string :=
  match Serialize token objType with Ret t => Ret t | Throw _ => Throw SE_Internal | Panic w => Panic w end.
Definition from_storage {A} (o : outcome StorageErr A) : outcome ServerError A :=
  match o with Ret a => Ret a | Throw e => Throw (HandleError e) | Panic w => Panic w end.

(** The restriction on the key of a Read, and the position that its token names. *)
Definition check_read_key (key : option TupleKeyWithoutCondition) : outcome ServerError unit :=
  match key with
  | Some tk =>
      let '(objectType, objectID) := SplitObject (woc_Object tk) in
      if (objectType =s "") || ((objectID =s "") && (woc_User tk =s "")) then Throw SE_ValidationError else Ret tt
  | None => Ret tt
  end.

Definition token_from (decodedContToken : string) : outcome ServerError string :=
  if decodedContToken =s "" then Ret decodedContToken
  else match Deserialize decodedContToken with
       | Ret (from, _) => Ret from
       | Throw _ => Throw SE_InvalidContinuationToken
       | Panic w => Panic w
       end.

Definition ReadQuery_Execute (s : MemoryBackend) (req : ReadRequest) : outcome ServerError (list Tuple * string) :=
  let! _ := check_read_key (rq_Key req) in
  let! decodedContToken := decode_token (rq_ContinuationToken req) in
  let! decodedContToken := token_from decodedContToken in
  let tk := match rq_Key req with Some tk => TupleKeyWithoutConditionToTupleKey tk | None => NewTupleKey "" "" "" end in
  let! (tuples, contUlid) :=
    from_storage (ReadPage None s (rq_StoreId req) tk (NewPaginationOptions (rq_PageSize req) decodedContToken)) in
  if contUlid =s "" then Ret (tuples, "")
  else
    let! contToken := serialize_token contUlid "" in
    let! encodedContToken := encode_token contToken in
    Ret (tuples, encodedContToken).

Definition ReadChangesQuery_Execute `{!Ulid, !UlidTime} (horizonOffset now : Z) (s : MemoryBackend) (req : ReadChangesRequest)
  : outcome ServerError (list TupleChange * string) :=
  let! token := decode_token (rc_ContinuationToken req) in
  let! fromUlid :=
    if negb (token =s "") then
      match Deserialize token with
      | Ret (fromUlid, objType) => if negb (objType =s rc_Type req) then Throw SE_MismatchObjectType else Ret fromUlid
      | Throw _ => Throw SE_InvalidContinuationToken
      | Panic w => Panic w
      end
    else match rc_StartTime req with
         | Some startTime =>
             if bool_decide (startTime = zero_time) then Ret ""
             else match ulid_of_time startTime with Some u => Ret u | None => Throw (HandleError ErrInvalidStartTime) end
         | None => Ret ""
         end in
  match ReadChanges now s (rc_StoreId req) (mkReadChangesFilter (rc_Type req) horizonOffset)
          (NewPaginationOptions (rc_PageSize req) fromUlid) false with
  | Throw ErrNotFound => Ret ([], rc_ContinuationToken req)
  | Throw e => Throw (HandleError e)
  | Panic w => Panic w
  | Ret (changes, contUlid) =>
      if contUlid =s "" then Ret (changes, "")
      else
        let! contToken := serialize_token contUlid (rc_Type req) in
        let! encodedContToken := encode_token contToken in
        Ret (changes, encodedContToken)
  end.

Definition ReadAuthorizationModelQuery_Execute `{!MapRange} (s : MemoryBackend) (store modelID : string)
  : outcome ServerError AuthorizationModel :=
  match ReadAuthorizationModel s store modelID with
  | Ret azm => Ret azm
  | Throw ErrNotFound => Throw (SE_AuthorizationModelNotFound modelID)
  | Throw e => Throw (HandleError e)
  | Panic w => Panic w
  end.

Definition ReadAuthorizationModelsQuery_Execute `{!SortSlice, !MapRange} (s : MemoryBackend) (store : string) (pageSize : Z)
    (continuationToken : string) : outcome ServerError (list AuthorizationModel * string) :=
  let! decodedContToken := decode_token continuationToken in
  let! (models, contToken) := from_storage (ReadAuthorizationModels s store (NewPaginationOptions pageSize decodedContToken)) in
  let! encodedContToken := encode_token contToken in
  Ret (models, encodedContToken).

Definition ReadAssertionsQuery_Execute (s : MemoryBackend) (store modelID : string) : outcome ServerError (string * list Assertion) :=
  Ret (modelID, ReadAssertions s store modelID).

Definition GetStoreQuery_Execute (s : MemoryBackend) (storeID : string) : outcome ServerError Store :=
  match GetStore s storeID with
  | Ret store => Ret store
  | Throw ErrNotFound => Throw SE_StoreIDNotFound
  | Throw e => Throw (HandleError e)
  | Panic w => Panic w
  end.

Definition ListStoresQuery_Execute `{!MapRange} (s : MemoryBackend) (name : string) (pageSize : Z) (continuationToken : string)
    (storeIDs : list string) : outcome ServerError (list Store * string) :=
  let! decodedContToken := decode_token continuationToken in
  let! (stores, continuationToken) :=
    from_storage (ListStores s (mkListStoresOptions storeIDs name (NewPaginationOptions pageSize decodedContToken))) in
  let! encodedToken := encode_token continuationToken in
  Ret (stores, encodedToken).

(** ** Clients *)

(** A client that follows the tokens of Read until it gets an empty one. *)
Fixpoint read_all (fuel : nat) (s : MemoryBackend) (store : string) (key : option TupleKeyWithoutCondition) (pageSize : Z)
    (token : string) : outcome ServerError (list Tuple) :=
  match fuel with
  | O => Panic "out of fuel"
  | S fuel =>
      let! (page, token') := ReadQuery_Execute s (mkReadRequest store key pageSize token) in
      if token' =s "" then Ret page
      else let! rest := read_all fuel s store key pageSize token' in Ret (page ++ rest)
  end.

(** A client that follows the tokens of ReadChanges until a page is empty. *)
Fixpoint changes_all `{!Ulid, !UlidTime} (fuel : nat) (horizonOffset now : Z) (s : MemoryBackend) (store objType : string) (pageSize : Z)
    (token : string) : outcome ServerError (list TupleChange) :=
  match fuel with
  | O => Panic "out of fuel"
  | S fuel =>
      let! (page, token') :=
        ReadChangesQuery_Execute horizonOffset now s (mkReadChangesRequest store objType pageSize token None) in
      match page with
      | [] => Ret []
      | _ => let! rest := changes_all fuel horizonOffset now s store objType pageSize token' in Ret (page ++ rest)
      end
  end.
End commands.

(** ** Following tokens *)

Lemma uint_no_pipe u : has_byte "|" (NilEmpty.string_of_uint u) = false.
Proof. induction u; cbn [NilEmpty.string_of_uint]; rewrite ?has_byte_cons, ?IHu; done. Qed.

Lemma Itoa_no_pipe z : has_byte "|" (Itoa z) = false.
Proof.
  unfold Itoa. destruct (Z.to_int z) as [u|u]; destruct u; cbn; rewrite ?uint_no_pipe; done.
Qed.

Section tokens.
Context (enc : Encoder) `{!@EncoderLaws enc}.
Hypothesis Hencode : ∀ data, ∃ t, Encode data = Ret t.

Let ser := StringContinuationTokenSerializer.

(** A token of the API: its text decodes to what was serialized, and it is not empty. *)
Lemma token_sent ulid objType :
  ulid ≠ "" → has_byte "|" ulid = false → has_byte "|" objType = false →
  ∃ raw t, @serialize_token ser ulid objType = Ret raw ∧ encode_token raw = Ret t ∧ t ≠ "" ∧ decode_token t = Ret raw ∧ raw ≠ "" ∧
    @Deserialize ser raw = Ret (ulid, objType).
Proof.
  intros Hne Hu Ht. assert (@Serialize ser ulid objType = Ret (ulid +:+ String "|" objType)) as Hs.
  { cbn [Serialize ser StringContinuationTokenSerializer]. by rewrite bool_decide_false. }
  destruct (Hencode (ulid +:+ String "|" objType)) as [t Hen]. pose proof (Decode_Encode _ _ Hen) as Hde.
  exists (ulid +:+ String "|" objType), t. unfold serialize_token, encode_token, decode_token. rewrite Hs, Hen, Hde.
  assert (ulid +:+ String "|" objType ≠ "") by by destruct ulid.
  split_and!; [done..| |done|done|by eapply Serialize_Deserialize].
  intros ->. rewrite Decode_empty in Hde. congruence.
Qed.

Lemma decode_empty : decode_token "" = Ret "".
Proof. unfold decode_token. by rewrite Decode_empty. Qed.

(** The tuple key of a read. *)
Definition read_key (key : option TupleKeyWithoutCondition) : TupleKey :=
  match key with Some tk => TupleKeyWithoutConditionToTupleKey tk | None => NewTupleKey "" "" "" end.

Lemma read_all_from fuel s store key ps token from :
  let size := if bool_decide (ps > 0) then ps else DefaultPageSize in
  check_read_key key = Ret tt → zlen (matching s store (read_key key)) ≤ int64_max →
  (token = "" ∧ from = 0 ∨ ∃ raw, token ≠ "" ∧ decode_token token = Ret raw ∧ raw ≠ "" ∧ @Deserialize ser raw = Ret (Itoa from, "")) →
  0 ≤ from ≤ zlen (matching s store (read_key key)) →
  (length (matching s store (read_key key)) - Z.to_nat from < fuel)%nat →
  @read_all enc ser fuel s store key ps token = Ret (AsTuple <$> drop (Z.to_nat from) (matching s store (read_key key))).
Proof.
  intros size Hkey Hmax. assert (0 < size) as Hsize by (unfold size, DefaultPageSize; case_bool_decide; lia).
  revert token from. induction fuel as [|fuel IH]; intros token from Htok Hfrom Hfuel; [lia|].
  cbn [read_all]. unfold ReadQuery_Execute at 1. cbn [rq_Key rq_ContinuationToken rq_PageSize rq_StoreId].
  rewrite Hkey. cbn [outcome_bind]. fold (read_key key). set (ms := matching s store (read_key key)) in *.
  assert (∃ raw tok, decode_token token = Ret raw ∧ @token_from ser raw = Ret tok ∧
    (tok = "" ∧ from = 0 ∨ tok ≠ "" ∧ Atoi tok = Some from)) as (raw&tok&Heq&Hft&Htok').
  { destruct Htok as [[-> ->]|(raw&Hne&Hd&Hraw&Hdes)].
    - exists "", "". rewrite decode_empty. split_and!; [done..|by left].
    - exists raw, (Itoa from). unfold token_from. rewrite bool_decide_false, Hdes by done. split_and!; [done..|]. right.
      split; [apply Itoa_nonempty|]. apply Atoi_Itoa. unfold int64_range, int64_min. lia. }
  rewrite Heq. cbn [outcome_bind]. rewrite Hft. cbn [outcome_bind].
  unfold NewPaginationOptions. fold size. rewrite (read_page s store (read_key key) size tok from) by done.
  fold ms. cbn [from_storage outcome_bind]. destruct (bool_decide (from + size < zlen ms)) eqn:Hlt; bool_norm; [|rewrite bool_decide_true by done].
  - rewrite bool_decide_false by apply Itoa_nonempty.
    destruct (token_sent (Itoa (from + size)) "") as (raw'&t&Hs&He&Ht&Hde&Hraw&Hdes); [apply Itoa_nonempty|apply Itoa_no_pipe|done|].
    rewrite Hs. cbn [outcome_bind]. rewrite He. cbn [outcome_bind]. rewrite bool_decide_false by done.
    rewrite (IH t (from + size)); [|right; by exists raw'|lia|unfold zlen in *; lia].
    cbn [outcome_bind]. rewrite <-fmap_app, Z2Nat.inj_add, <-drop_drop, take_drop by lia. done.
  - cbn [outcome_bind]. rewrite bool_decide_true by done. rewrite take_ge; [done|]. rewrite length_drop. unfold zlen in *. lia.
Qed.

(** C30: a client that follows the tokens of the Read API from the empty token, with any page
    size, terminates and gets every tuple that matches the key it asked for exactly once, in
    storage order, through any encoder of tokens that can undo its encoding. *)
Theorem Read_api_complete (s : MemoryBackend) (store : string) (key : option TupleKeyWithoutCondition) (ps : Z) (fuel : nat) :
  check_read_key key = Ret tt → zlen (matching s store (read_key key)) ≤ int64_max →
  (length (matching s store (read_key key)) < fuel)%nat →
  @read_all enc ser fuel s store key ps "" = Ret (AsTuple <$> matching s store (read_key key)).
Proof.
  intros Hkey Hmax Hfuel. pose proof (zlen_nonneg (matching s store (read_key key))).
  rewrite (read_all_from fuel s store key ps "" 0); [by rewrite drop_0|done|done|by left|lia|lia].
Qed.

Section changes.
Context `{!Ulid, !UlidLaws, !UlidTime}.
Hypothesis Hplain : ∀ u, has_byte "|" (ulid_String u) = false.

Lemma changes_all_from fuel horizonOffset now s store objType ps token p q :
  let filter := mkReadChangesFilter objType horizonOffset in
  has_byte "|" objType = false → StronglySorted N.lt (ChangeUlid <$> store_changes s store) → offered now s store filter = p ++ q →
  (token = "" ∧ p = [] ∨
   ∃ raw p' x, decode_token token = Ret raw ∧ raw ≠ "" ∧ @Deserialize ser raw = Ret (ulid_String (ChangeUlid x), objType) ∧ p = p' ++ [x]) →
  (length q < fuel)%nat →
  @changes_all enc ser _ _ fuel horizonOffset now s store objType ps token = Ret (Change <$> q).
Proof.
  intros filter Hty Hs. revert token p q. induction fuel as [|fuel IH]; intros token p q Hoff Htok Hfuel; [lia|].
  cbn [changes_all]. unfold ReadChangesQuery_Execute at 1. cbn [rc_ContinuationToken rc_Type rc_StartTime rc_StoreId rc_PageSize].
  set (size := if bool_decide (ps > 0) then ps else DefaultPageSize).
  assert (0 < size) as Hsize by (unfold size, DefaultPageSize; case_bool_decide; lia).
  assert (∃ raw tok, decode_token token = Ret raw ∧
    (if negb (raw =s "") then
       match @Deserialize ser raw with
       | Ret (fromUlid, objType') => if negb (objType' =s objType) then Throw SE_MismatchObjectType else Ret fromUlid
       | Throw _ => Throw SE_InvalidContinuationToken
       | Panic w => Panic w
       end
     else Ret "") = Ret tok ∧
    (tok = "" ∧ p = [] ∨ ∃ p' x, tok = ulid_String (ChangeUlid x) ∧ p = p' ++ [x])) as (raw&tok&Hd&Hft&Htok').
  { destruct Htok as [[-> ->]|(raw&p'&x&Hd&Hraw&Hdes&->)].
    - exists "", "". rewrite decode_empty. split_and!; [done..|by left].
    - exists raw, (ulid_String (ChangeUlid x)). rewrite bool_decide_false, Hdes, bool_decide_true by done.
      split_and!; [done..|]. right. by exists p', x. }
  rewrite Hd. cbn [outcome_bind]. rewrite Hft. cbn [outcome_bind]. unfold NewPaginationOptions. fold size filter.
  rewrite (ReadChanges_page now s store filter size tok p q Hsize Hs Hoff Htok'). destruct (decide (q = [])) as [->|Hq]; [by rewrite bool_decide_true|].
  rewrite (bool_decide_false (q = [])) by done.
  destruct (last (take (Z.to_nat size) q)) as [x|] eqn:Hlast.
  2: { apply last_None in Hlast. destruct q; [done|]. destruct (Z.to_nat size) eqn:?; [lia|done]. }
  apply last_Some in Hlast as (p'&Hp'). cbn [fmap option_fmap option_map default id]. rewrite bool_decide_false by apply ulid_String_nonempty.
  destruct (token_sent (ulid_String (ChangeUlid x)) objType) as (raw'&t&Hse&He&Ht&Hde&Hraw&Hdes); [apply ulid_String_nonempty|done..|].
  rewrite Hse. cbn [outcome_bind]. rewrite He. cbn [outcome_bind].
  destruct (Change <$> take (Z.to_nat size) q) as [|c cs] eqn:Hcs; [rewrite Hp', fmap_app in Hcs; by apply app_nil in Hcs as [_ ?]|].
  rewrite (IH t (p ++ take (Z.to_nat size) q) (drop (Z.to_nat size) q)).
  - cbn [outcome_bind]. by rewrite <-Hcs, <-fmap_app, take_drop.
  - by rewrite <-app_assoc, take_drop.
  - right. exists raw', (p ++ p'), x. split_and!; [done..|]. by rewrite Hp', app_assoc.
  - rewrite length_drop. destruct q; [done|]. simpl in *. lia.
Qed.

(** C31: a client that follows the tokens of the ReadChanges API, without start time and with
    any page size, terminates and gets every change of the type up to the horizon exactly
    once, in the order they were made, provided the type has no pipe in its name. *)
Theorem ReadChanges_api_complete (horizonOffset now : Z) (s : MemoryBackend) (store objType : string) (ps : Z) (fuel : nat) :
  let filter := mkReadChangesFilter objType horizonOffset in
  has_byte "|" objType = false → StronglySorted N.lt (ChangeUlid <$> store_changes s store) →
  (length (offered now s store filter) < fuel)%nat →
  @changes_all enc ser _ _ fuel horizonOffset now s store objType ps "" = Ret (Change <$> offered now s store filter).
Proof. intros filter Hty Hs Hfuel. apply (changes_all_from _ _ _ _ _ _ _ _ []); try done. by left. Qed.

Lemma ReadChanges_token now s store filter p cs u : ReadChanges now s store filter p false = Ret (cs, u) → ∃ x, u = ulid_String x.
Proof.
  unfold ReadChanges. intros (from&_&Hr)%outcome_bind_Ret. case_bool_decide; [done|]. cbv zeta in Hr.
  case_bool_decide; case_bool_decide; try done; apply outcome_bind_Ret in Hr as (page&_&[= _ <-]); by eexists.
Qed.

(** With a pipe in the name of the type the second page cannot be read: the token of any
    first page is refused as one for another type, although the type is the same. *)
Theorem ReadChanges_pipe_type (horizonOffset now : Z) (s : MemoryBackend) (store a b : string) (ps : Z) (changes : list TupleChange)
    (token : string) :
  let objType := a +:+ String "|" b in
  let request token := mkReadChangesRequest store objType ps token None in
  has_byte "|" a = false → changes ≠ [] →
  @ReadChangesQuery_Execute enc ser _ _ horizonOffset now s (request "") = Ret (changes, token) →
  @ReadChangesQuery_Execute enc ser _ _ horizonOffset now s (request token) = Throw SE_MismatchObjectType.
Proof.
  intros objType request Ha Hne. unfold ReadChangesQuery_Execute at 1.
  cbn [request rc_ContinuationToken rc_Type rc_StartTime rc_StoreId rc_PageSize]. rewrite decode_empty. cbn [outcome_bind].
  rewrite bool_decide_true by done. cbn [negb outcome_bind].
  destruct (ReadChanges _ _ _ _ _ _) as [[cs u]|[]|] eqn:Hrc; try done; [|by intros [= <-]].
  assert (∃ x, u = ulid_String x) as [x ->].
  { by eapply ReadChanges_token. }
  rewrite bool_decide_false by apply ulid_String_nonempty. unfold serialize_token, encode_token.
  cbn [Serialize ser StringContinuationTokenSerializer]. rewrite bool_decide_false by apply ulid_String_nonempty. cbn [outcome_bind].
  destruct (Hencode (ulid_String x +:+ String "|" objType)) as [t Hen]. rewrite Hen. cbn [outcome_bind]. intros [= -> <-].
  unfold ReadChangesQuery_Execute. cbn [request rc_ContinuationToken rc_Type]. unfold decode_token. rewrite (Decode_Encode _ _ Hen). cbn [outcome_bind].
  rewrite bool_decide_false by (intros Hnil; by destruct (ulid_String x)). cbn [negb Deserialize ser StringContinuationTokenSerializer].
  rewrite has_byte_app, has_byte_cons, bool_decide_true, orb_true_r by done. cbn [negb]. rewrite Cut_app by done.
  unfold objType at 1. rewrite Cut_app by done. rewrite bool_decide_false; [done|]. unfold objType.
  intros Heq%(f_equal String.length). rewrite str_length_app in Heq. simpl in Heq. lia.
Qed.
End changes.
End tokens.

(** ** Clients of a small server *)

Lemma base64_total data : ∃ t, @Encode Base64Encoder data = Ret t.
Proof. by eexists. Qed.

Lemma Read_api_complete_witness :
  @read_all Base64Encoder StringContinuationTokenSerializer 4 demo_backend "store" None 2 "" =
  Ret (AsTuple <$> matching demo_backend "store" (NewTupleKey "" "" "")).
Proof.
  apply (@Read_api_complete Base64Encoder Base64EncoderLaws base64_total demo_backend "store" None 2 4);
    [reflexivity|by vm_compute|vm_compute; lia].
Defined.

Lemma counter_plain u : has_byte "|" (@ulid_String counter_Ulid u) = false.
Proof. cbn [ulid_String counter_Ulid]. induction u as [|u IH] using N.peano_ind; [done|]. by rewrite N.iter_succ. Qed.

Definition no_UlidTime : UlidTime := {| ulid_of_time _ := None |}.

Lemma ReadChanges_api_complete_witness :
  @changes_all Base64Encoder StringContinuationTokenSerializer counter_Ulid no_UlidTime 3 0 10 demo_store "store" "doc" 1 "" =
  Ret [mkTupleChange (TupleKeyWithoutConditionToTupleKey demo_delete) OperationWrite 0].
Proof.
  etrans; [apply (@ReadChanges_api_complete Base64Encoder Base64EncoderLaws base64_total counter_Ulid counter_UlidLaws no_UlidTime
    counter_plain 0 10 demo_store "store" "doc" 1 3)|reflexivity].
  - reflexivity.
  - repeat constructor.
  - vm_compute. lia.
Defined.

(** One tuple of the type a|b. *)
Definition pipe_store : MemoryBackend :=
  match @Write counter_Ulid 0 "store" [] [NewTupleKey "a|b:1" "viewer" "user:x"] (New None None) (0%N, 0) with
  | Ret (s, _) => s
  | _ => New None None
  end.

Definition pipe_execute (token : string) : outcome ServerError (list TupleChange * string) :=
  @ReadChangesQuery_Execute Base64Encoder StringContinuationTokenSerializer counter_Ulid no_UlidTime 0 10 pipe_store
    (mkReadChangesRequest "store" "a|b" 1 token None).

Lemma ReadChanges_pipe_type_witness :
  match pipe_execute "" with
  | Ret (changes, token) => length changes = 1%nat ∧ pipe_execute token = Throw SE_MismatchObjectType
  | _ => False
  end.
Proof.
  destruct (pipe_execute "") as [[changes token]| |] eqn:E; [|by vm_compute in E..].
  assert (length changes = 1%nat) as Hlen by (vm_compute in E; by injection E as <- _). split; [exact Hlen|].
  apply (@ReadChanges_pipe_type Base64Encoder Base64EncoderLaws base64_total counter_Ulid counter_UlidLaws no_UlidTime counter_plain
    0 10 pipe_store "store" "a" "b" 1 changes token); [reflexivity|intros Hnil; by rewrite Hnil in Hlen|exact E].
Defined.
