(* ===== verification/WriteCommands.v ===== *)
(** * The writing commands: [pkg/server/commands]

    [write.go], [write_authzmodel.go], [write_assertions.go], [create_store.go] and
    [delete_store.go] over the in-memory datastore.  A command gets the backend, the ULID
    entropy and the clock, and gives the backend and the entropy after it; on an error
    nothing has changed.  The commands are the only way in: the states they reach from the
    empty backend hold validated models and tuples only. *)

From S2P Require Import Prelude GoStd Tuple Iterators Model Memory MemorySpec Typesystem TypesystemSpec.
From S2P Require Import Condition Validation ValidationSpec Check CheckSpec CheckSemantics CheckMemory ServerErrors.

Local Open Scope Z_scope.
Local Open Scope go_scope.

(** [proto.Size]: the bytes of a message on the wire. *)
Class ProtoSize := {
  size_Struct : option Struct → Z;
  size_Model : AuthorizationModel → Z;
  size_Assertion : Assertion → Z;
}.

Record WriteRequest := mkWriteRequest {
  wr_StoreId : string;
  wr_AuthorizationModelId : string;
  wr_Deletes : list TupleKeyWithoutCondition;
  wr_Writes : list TupleKey;
}.

(** A status error, or an error of [typesystem.New], which [write.go] returns as it is. *)
Inductive WriteErr := WE_Server (e : ServerError) | WE_Typesystem (e : TsErr).

Section commands.
Context `{!ModelGraph, !Cel, !MapRange, !ConditionCompiler, !Ulid, !ProtoSize}.

Definition as_ValidationError {A} (o : outcome ValErr A) : outcome WriteErr A :=
  match o with Ret a => Ret a | Throw _ => Throw (WE_Server SE_ValidationError) | Panic w => Panic w end.

Definition validateNotImplicit (tk : TupleKey) : outcome WriteErr unit :=
  let '(userObject, userRelation) := SplitObjectRelation (User tk) in
  if (Relation tk =s userRelation) && (Object tk =s userObject) then Throw (WE_Server SE_ValidationError) else Ret tt.

Section write.
Context (conditionContextByteLimit : Z).

(** The loop over the tuples to write. *)
Fixpoint validate_each_write (typesys : TypeSystem) (writes : list TupleKey) : outcome WriteErr unit :=
  match writes with
  | [] => Ret tt
  | tk :: rest =>
      let! _ := as_ValidationError (ValidateTupleForWrite typesys tk) in
      let! _ := validateNotImplicit tk in
      let contextSize := size_Struct (match Condition tk with Some c => cond_Context c | None => None end) in
      if bool_decide (contextSize > conditionContextByteLimit) then Throw (WE_Server SE_ValidationError)
      else validate_each_write typesys rest
  end.

(** The loop over the tuples to delete. *)
Fixpoint validate_each_delete (deletes : list TupleKeyWithoutCondition) : outcome WriteErr unit :=
  match deletes with
  | [] => Ret tt
  | tk :: rest => if IsValidUser (woc_User tk) then validate_each_delete rest else Throw (WE_Server SE_ValidationError)
  end.

(** The map of the tuples of a request by their text. *)
Fixpoint add_keys (keys : gset string) (tks : list TupleKey) : outcome WriteErr (gset string) :=
  match tks with
  | [] => Ret keys
  | tk :: rest =>
      let key := TupleKeyToString tk in
      if bool_decide (key ∈ keys) then Throw (WE_Server (SE_DuplicateTupleInWrite (Object tk) (Relation tk) (User tk)))
      else add_keys ({[key]} ∪ keys) rest
  end.

Definition validateNoDuplicatesAndCorrectSize (s : MemoryBackend) (deletes : list TupleKeyWithoutCondition) (writes : list TupleKey)
  : outcome WriteErr unit :=
  let! keys := add_keys ∅ (TupleKeyWithoutConditionToTupleKey <$> deletes) in
  let! keys := add_keys keys writes in
  if bool_decide (Z.of_nat (size keys) > maxTuplesPerWrite s)
  then Throw (WE_Server (SE_ExceededEntityLimit "write operations" (maxTuplesPerWrite s)))
  else Ret tt.

(** The model of the request, and the checks of the tuples against it. *)
Definition validate_writes_against_model (s : MemoryBackend) (req : WriteRequest) : outcome WriteErr unit :=
  match ReadAuthorizationModel s (wr_StoreId req) (wr_AuthorizationModelId req) with
  | Throw ErrNotFound => Throw (WE_Server (SE_AuthorizationModelNotFound (wr_AuthorizationModelId req)))
  | Throw e => Throw (WE_Server (HandleError e))
  | Panic w => Panic w
  | Ret authModel =>
      if negb (IsSchemaVersionSupported (am_SchemaVersion authModel)) then Throw (WE_Server SE_ValidationError)
      else match Typesystem.New authModel with
           | Throw e => Throw (WE_Typesystem e)
           | Panic w => Panic w
           | Ret typesys => validate_each_write typesys (wr_Writes req)
           end
  end.

Definition validateWriteRequest (s : MemoryBackend) (req : WriteRequest) : outcome WriteErr unit :=
  if bool_decide (wr_Deletes req = []) && bool_decide (wr_Writes req = []) then Throw (WE_Server SE_InvalidWriteInput)
  else
    let! _ := if bool_decide (wr_Writes req = []) then Ret tt else validate_writes_against_model s req in
    let! _ := validate_each_delete (wr_Deletes req) in
    validateNoDuplicatesAndCorrectSize s (wr_Deletes req) (wr_Writes req).

Definition WriteCommand_Execute (now : Z) (s : MemoryBackend) (e : entropy) (req : WriteRequest)
  : outcome WriteErr (MemoryBackend * entropy) :=
  let! _ := validateWriteRequest s req in
  match Write now (wr_StoreId req) (wr_Deletes req) (wr_Writes req) s e with
  | Ret r => Ret r
  | Throw ErrTransactionalWriteFailed => Throw (WE_Server SE_Aborted)
  | Throw (ErrInvalidWriteInput _ _ _ _) => Throw (WE_Server SE_WriteFailedDueToInvalidInput)
  | Throw err => Throw (WE_Server (HandleError err))
  | Panic w => Panic w
  end.
End write.

(** [ulid.Make().String()]. *)
Definition ulid_Make (now : Z) (e : entropy) : string * entropy :=
  let '(u, e') := new_ulid now e in (ulid_String u, e').

Record WriteAuthorizationModelRequest := mkWriteAuthorizationModelRequest {
  wm_StoreId : string;
  wm_SchemaVersion : string;
  wm_TypeDefinitions : list TypeDefinition;
  wm_Conditions : gmap string ModelCondition;
}.

(** The entropy is consumed even when the model is refused; a refused command leaves the
    backend alone. *)
Definition WriteAuthorizationModelCommand_Execute (maxAuthorizationModelSizeInBytes now : Z) (s : MemoryBackend) (e : entropy)
    (req : WriteAuthorizationModelRequest) : outcome ServerError (string * MemoryBackend * entropy) :=
  if bool_decide (zlen (wm_TypeDefinitions req) > maxTypesPerAuthorizationModel s)
  then Throw (SE_ExceededEntityLimit "type definitions in an authorization model" (maxTypesPerAuthorizationModel s))
  else
    let schemaVersion := if wm_SchemaVersion req =s "" then SchemaVersion1_1 else wm_SchemaVersion req in
    let '(id, e') := ulid_Make now e in
    let model := mkAuthorizationModel id schemaVersion (wm_TypeDefinitions req) (wm_Conditions req) in
    if bool_decide (size_Model model > maxAuthorizationModelSizeInBytes)
    then Throw (SE_ExceededEntityLimit "model" maxAuthorizationModelSizeInBytes)
    else match NewAndValidate model with
         | Throw _ => Throw SE_InvalidAuthorizationModelInput
         | Panic w => Panic w
         | Ret _ => Ret (id, WriteAuthorizationModel s (wm_StoreId req) model, e')
         end.

Definition DefaultMaxAssertionSizeInBytes : Z := 64000.

(** The two loops over the assertions. *)
Definition assertions_size (l : list Assertion) : Z := foldl (λ n a, wrap64 (n + size_Assertion a)) 0 l.

Fixpoint validate_tuples_for_write (typesys : TypeSystem) (tks : list TupleKey) : outcome ServerError unit :=
  match tks with
  | [] => Ret tt
  | ct :: rest =>
      match ValidateTupleForWrite typesys ct with
      | Throw _ => Throw SE_ValidationError
      | Panic w => Panic w
      | Ret _ => validate_tuples_for_write typesys rest
      end
  end.

Fixpoint validate_assertions (typesys : TypeSystem) (l : list Assertion) : outcome ServerError unit :=
  match l with
  | [] => Ret tt
  | a :: rest =>
      match ValidateUserObjectRelation typesys (TupleKeyWithoutConditionToTupleKey (as_TupleKey a)) with
      | Throw _ => Throw SE_ValidationError
      | Panic w => Panic w
      | Ret _ =>
          let! _ := validate_tuples_for_write typesys (as_ContextualTuples a) in
          validate_assertions typesys rest
      end
  end.

Definition WriteAssertionsCommand_Execute (maxAssertionSizeInBytes : Z) (s : MemoryBackend) (store modelID : string)
    (l : list Assertion) : outcome ServerError MemoryBackend :=
  match ReadAuthorizationModel s store modelID with
  | Throw ErrNotFound => Throw (SE_AuthorizationModelNotFound modelID)
  | Throw err => Throw (HandleError err)
  | Panic w => Panic w
  | Ret model =>
      if negb (IsSchemaVersionSupported (am_SchemaVersion model)) then Throw SE_ValidationError
      else match Typesystem.New model with
           | Throw _ => Throw SE_Internal
           | Panic w => Panic w
           | Ret typesys =>
               if bool_decide (assertions_size l > maxAssertionSizeInBytes)
               then Throw (SE_ExceededEntityLimit "bytes" maxAssertionSizeInBytes)
               else let! _ := validate_assertions typesys l in Ret (WriteAssertions s store modelID l)
           end
  end.

Definition CreateStoreCommand_Execute (now : Z) (s : MemoryBackend) (e : entropy) (name : string)
  : outcome ServerError (Store * MemoryBackend * entropy) :=
  let '(id, e') := ulid_Make now e in
  match CreateStore now s (mkStore id name 0 0) with
  | Ret (store, s') => Ret (store, s', e')
  | Throw err => Throw (HandleError err)
  | Panic w => Panic w
  end.

Definition DeleteStoreCommand_Execute (s : MemoryBackend) (storeID : string) : outcome ServerError MemoryBackend :=
  match GetStore s storeID with
  | Throw ErrNotFound => Ret s
  | Throw err => Throw (HandleError err)
  | Panic w => Panic w
  | Ret store => Ret (DeleteStore s (store_Id store))
  end.
End commands.

(** ** The Write command *)

Section write_spec.
Context `{!ModelGraph, !Cel, !MapRange, !Ulid, !ProtoSize} (limit : Z).

(** The shape of a tuple that passed validation for writing. *)
Lemma ValidateTupleForWrite_shape t tk :
  ValidateTupleForWrite t tk = Ret tt → complete_key (key_of tk) ∧ IsValidUser (User tk) = true ∧ object_ok (Object tk).
Proof.
  unfold ValidateTupleForWrite. destruct (ValidateUserObjectRelation t tk) as [[]| |] eqn:Hv; simpl; [intros _|done..].
  split; [by apply ValidateUserObjectRelation_Ret in Hv as (?&_)|]. unfold ValidateUserObjectRelation in Hv.
  destruct (ValidateUser t (User tk)) as [[]| |] eqn:Hu; simpl in Hv; [|done..]. apply ValidateUser_Ret in Hu as [Hu _].
  split; [done|]. unfold ValidateObject in Hv. destruct (IsValidObject (Object tk)) eqn:Ho; [|done]. by apply valid_object_facts.
Qed.

(** The command lets a tuple be written under the model. *)
Definition writable (typesys : TypeSystem) (tk : TupleKey) : Prop :=
  ValidateTupleForWrite typesys tk = Ret tt ∧ SplitObjectRelation (User tk) ≠ (Object tk, Relation tk) ∧
  size_Struct (match Condition tk with Some c => cond_Context c | None => None end) ≤ limit.

(** All the tuples of a request. *)
Definition request_keys (req : WriteRequest) : list TupleKey :=
  (TupleKeyWithoutConditionToTupleKey <$> wr_Deletes req) ++ wr_Writes req.

(** What each error of the validation says about the request. *)
Definition refusal (s : MemoryBackend) (req : WriteRequest) (e : WriteErr) : Prop :=
  match e with
  | WE_Server SE_InvalidWriteInput => wr_Deletes req = [] ∧ wr_Writes req = []
  | WE_Server (SE_AuthorizationModelNotFound id) =>
      wr_Writes req ≠ [] ∧ id = wr_AuthorizationModelId req ∧ ReadAuthorizationModel s (wr_StoreId req) id = Throw ErrNotFound
  | WE_Server SE_ValidationError =>
      (∃ d, d ∈ wr_Deletes req ∧ IsValidUser (woc_User d) = false) ∨
      wr_Writes req ≠ [] ∧ ∃ m, ReadAuthorizationModel s (wr_StoreId req) (wr_AuthorizationModelId req) = Ret m ∧
        (IsSchemaVersionSupported (am_SchemaVersion m) = false ∨
         ∃ t tk, Typesystem.New m = Ret t ∧ tk ∈ wr_Writes req ∧ ¬ writable t tk)
  | WE_Server (SE_DuplicateTupleInWrite o r u) =>
      ∃ l1 tk l2 l3, request_keys req = l1 ++ tk :: l2 ++ l3 ∧ (o, r, u) ∈ key_of <$> l3 ∧
        TupleKeyToString tk = TupleKeyToString (NewTupleKey o r u)
  | WE_Server (SE_ExceededEntityLimit _ n) => n = maxTuplesPerWrite s ∧ zlen (request_keys req) > n
  | WE_Typesystem e =>
      wr_Writes req ≠ [] ∧ ∃ m, ReadAuthorizationModel s (wr_StoreId req) (wr_AuthorizationModelId req) = Ret m ∧ Typesystem.New m = Throw e
  | _ => False
  end.

(** What the validation of a request establishes. *)
Record accepted (s : MemoryBackend) (req : WriteRequest) : Prop := {
  ac_nonempty : request_keys req ≠ [];
  ac_writes : wr_Writes req ≠ [] → ∃ m t,
    ReadAuthorizationModel s (wr_StoreId req) (wr_AuthorizationModelId req) = Ret m ∧
    IsSchemaVersionSupported (am_SchemaVersion m) = true ∧ Typesystem.New m = Ret t ∧ Forall (writable t) (wr_Writes req);
  ac_deletes : Forall (λ d, IsValidUser (woc_User d) = true) (wr_Deletes req);
  ac_nodup : NoDup (TupleKeyToString <$> request_keys req);
  ac_size : zlen (request_keys req) ≤ maxTuplesPerWrite s;
}.

(** A true error is one of a request that is not accepted. *)
Lemma refusal_refused s req e : refusal s req e → ¬ accepted s req.
Proof.
  intros Hr [Hne Hw Hd Hnd Hsz]. destruct e as [se|te]; simpl in Hr.
  - destruct se; try done.
    + destruct Hr as [Hx1 Hx2]. apply Hne. unfold request_keys. by rewrite Hx1, Hx2.
    + destruct Hr as [(d&Hin&Hu)|(Hne'&m&Hm&Hbad)].
      { rewrite Forall_forall in Hd. specialize (Hd d Hin). congruence. }
      destruct (Hw Hne') as (m'&t&Hm'&Hs&Ht&Hall). rewrite Hm in Hm'. injection Hm' as <-.
      destruct Hbad as [?|(t'&tk&Ht'&Hin&Hn)]; [congruence|]. rewrite Ht in Ht'. injection Ht' as <-.
      rewrite Forall_forall in Hall. by apply Hn, Hall.
    + lia.
    + destruct Hr as (l1&tk&l2&l3&Heq&(x&Hx&Hin)%list_elem_of_fmap&Hk). rewrite Heq, fmap_app in Hnd.
      apply NoDup_app in Hnd as (_&_&Hnd). csimpl in Hnd. apply NoDup_cons in Hnd as [Hnd _]. apply Hnd.
      rewrite Hk. apply list_elem_of_fmap. exists x. split; [|apply elem_of_app; by right].
      injection Hx as -> -> ->. done.
    + destruct Hr as (Hne'&->&Hm). destruct (Hw Hne') as (m'&t&Hm'&_). congruence.
  - destruct Hr as (Hne'&m&Hm&Ht). destruct (Hw Hne') as (m'&t&Hm'&_&Ht'&_). congruence.
Qed.

Lemma validate_each_write_cases t writes :
  match validate_each_write limit t writes with
  | Ret _ => Forall (writable t) writes
  | Throw e => e = WE_Server SE_ValidationError ∧ ∃ tk, tk ∈ writes ∧ ¬ writable t tk
  | Panic _ => False
  end.
Proof.
  induction writes as [|tk l IH]; simpl; [done|]. pose proof (ValidateTupleForWrite_no_panic t tk) as Hn.
  assert (¬ writable t tk → WE_Server SE_ValidationError = WE_Server SE_ValidationError ∧
    ∃ tk', tk' ∈ tk :: l ∧ ¬ writable t tk') as Hbad by (intros; split; [done|]; exists tk; split; [left|done]).
  destruct (ValidateTupleForWrite t tk) as [[]|e|w] eqn:Hv; simpl; [|apply Hbad; intros (Hw&_); congruence|done].
  unfold validateNotImplicit. destruct (SplitObjectRelation (User tk)) as [uo ur] eqn:Hs.
  destruct ((Relation tk =s ur) && (Object tk =s uo)) eqn:Hi; simpl.
  { apply Hbad. intros (_&Hne&_). bool_norm. by subst. }
  destruct (bool_decide (size_Struct _ > limit)) eqn:Hsz; [apply bool_decide_eq_true in Hsz; apply Hbad; intros (_&_&?); lia|].
  apply bool_decide_eq_false in Hsz.
  assert (writable t tk) as Hok.
  { split; [done|]. split; [|lia]. rewrite Hs. intros [= -> ->]. by rewrite !bool_decide_true in Hi. }
  destruct (validate_each_write limit t l) as [[]|e|w]; [by constructor| |done].
  destruct IH as (->&tk'&?&?). split; [done|]. exists tk'. split; [by right|done].
Qed.

Lemma validate_each_delete_cases deletes :
  match validate_each_delete deletes with
  | Ret _ => Forall (λ d, IsValidUser (woc_User d) = true) deletes
  | Throw e => e = WE_Server SE_ValidationError ∧ ∃ d, d ∈ deletes ∧ IsValidUser (woc_User d) = false
  | Panic _ => False
  end.
Proof.
  induction deletes as [|d l IH]; simpl; [done|].
  destruct (IsValidUser (woc_User d)) eqn:Hd; [|split; [done|]; exists d; split; [left|done]].
  destruct (validate_each_delete l) as [[]|e|w]; [by constructor| |done].
  destruct IH as (->&d'&?&?). split; [done|]. exists d'. split; [by right|done].
Qed.

Lemma add_keys_app keys l1 l2 : add_keys keys (l1 ++ l2) = (let! keys := add_keys keys l1 in add_keys keys l2).
Proof. revert keys. induction l1 as [|tk l1 IH]; intros keys; simpl; [done|]. case_bool_decide; [done|apply IH]. Qed.

(** The map built from the tuples before [tks], then [tks]. *)
Lemma add_keys_cases before tks :
  NoDup (TupleKeyToString <$> before) →
  match add_keys (list_to_set (TupleKeyToString <$> before)) tks with
  | Ret keys => NoDup (TupleKeyToString <$> before ++ tks) ∧ size keys = length (before ++ tks)
  | Throw e => ∃ l1 tk l2 tk' l3, before ++ tks = l1 ++ tk :: l2 ++ tk' :: l3 ∧ TupleKeyToString tk = TupleKeyToString tk' ∧
      e = WE_Server (SE_DuplicateTupleInWrite (Object tk') (Relation tk') (User tk'))
  | Panic _ => False
  end.
Proof.
  revert before. induction tks as [|tk tks IH]; intros before Hnd; simpl.
  { rewrite app_nil_r. split; [done|]. rewrite size_list_to_set, length_fmap by done. done. }
  case_bool_decide as Hin.
  - apply elem_of_list_to_set, list_elem_of_fmap in Hin as (x&Heq&(l1&l2&->)%list_elem_of_split).
    exists l1, x, l2, tk, tks. split_and!; [by rewrite <-app_assoc|done|done].
  - assert (NoDup (TupleKeyToString <$> before ++ [tk])) as Hnd'.
    { rewrite fmap_app. apply NoDup_app. split_and!; [done| |apply NoDup_singleton].
      intros x Hx ->%list_elem_of_singleton. apply Hin. by apply elem_of_list_to_set. }
    specialize (IH (before ++ [tk]) Hnd'). rewrite <-app_assoc in IH. simpl in IH.
    replace ({[TupleKeyToString tk]} ∪ list_to_set (TupleKeyToString <$> before) : gset string)
      with (list_to_set (TupleKeyToString <$> before ++ [tk]) : gset string); [done|].
    rewrite fmap_app, list_to_set_app_L. simpl. set_solver.
Qed.

Lemma validateNoDuplicates_cases s req :
  match validateNoDuplicatesAndCorrectSize s (wr_Deletes req) (wr_Writes req) with
  | Ret _ => NoDup (TupleKeyToString <$> request_keys req) ∧ zlen (request_keys req) ≤ maxTuplesPerWrite s
  | Throw e => refusal s req e
  | Panic _ => False
  end.
Proof.
  unfold validateNoDuplicatesAndCorrectSize. pose proof (add_keys_cases [] (request_keys req) (NoDup_nil_2)) as Hc.
  unfold request_keys in Hc at 1. simpl in Hc. rewrite add_keys_app in Hc.
  destruct (add_keys ∅ _) as [k1|e|w] eqn:E1; simpl in *; [|..].
  - destruct (add_keys k1 (wr_Writes req)) as [k2|e|w]; simpl in *; [|..].
    + destruct Hc as [Hnd Hsz]. rewrite Hsz. case_bool_decide; [by split|]. split; [done|]. unfold zlen. lia.
    + destruct Hc as (l1&tk&l2&tk'&l3&Heq&Hstr&->). exists l1, tk, l2, (tk' :: l3). split_and!; [done|left|done].
    + done.
  - destruct Hc as (l1&tk&l2&tk'&l3&Heq&Hstr&->). exists l1, tk, l2, (tk' :: l3). split_and!; [done|left|done].
  - done.
Qed.

Lemma ReadAuthorizationModel_errors s store id :
  match ReadAuthorizationModel s store id with Throw e => e = ErrNotFound | Panic _ => False | Ret _ => True end.
Proof.
  unfold ReadAuthorizationModel. destruct (authorizationModels s !! store) as [tm|]; [|done].
  destruct (findAuthorizationModelByID id tm) as [m|]; [|done]. by destruct (am_TypeDefinitions m).
Qed.

Lemma New_no_panic m : no_panic (Typesystem.New m).
Proof.
  unfold Typesystem.New. destruct (foldl _ _ _) as [[tds rels] ttus]. destruct (NewAuthorizationModelGraph m) as [g|]; [|done].
  destruct (IsListObjectsDirection g); simpl; [done|]. by destruct (Reversed g).
Qed.

Lemma validate_writes_against_model_cases s req :
  wr_Writes req ≠ [] →
  match validate_writes_against_model limit s req with
  | Ret _ => ∃ m t, ReadAuthorizationModel s (wr_StoreId req) (wr_AuthorizationModelId req) = Ret m ∧
      IsSchemaVersionSupported (am_SchemaVersion m) = true ∧ Typesystem.New m = Ret t ∧ Forall (writable t) (wr_Writes req)
  | Throw e => refusal s req e
  | Panic _ => False
  end.
Proof.
  intros Hne. unfold validate_writes_against_model.
  pose proof (ReadAuthorizationModel_errors s (wr_StoreId req) (wr_AuthorizationModelId req)) as Hr.
  destruct (ReadAuthorizationModel _ _ _) as [m|e|w] eqn:Hm; [|by subst e|done].
  destruct (IsSchemaVersionSupported (am_SchemaVersion m)) eqn:Hs; simpl; [|right; split; [done|]; exists m; split; [done|by left]].
  pose proof (New_no_panic m) as Hnp. destruct (Typesystem.New m) as [t|e|w] eqn:HN; [|by split; [|exists m]|done].
  pose proof (validate_each_write_cases t (wr_Writes req)) as Hc.
  destruct (validate_each_write limit t (wr_Writes req)) as [[]|e|w]; [by exists m, t| |done].
  destruct Hc as (->&tk&Htk&Hbad). right. split; [done|]. exists m. split; [done|]. right. by exists t, tk.
Qed.

Lemma validateWriteRequest_cases s req :
  match validateWriteRequest limit s req with
  | Ret _ => accepted s req
  | Throw e => refusal s req e
  | Panic _ => False
  end.
Proof.
  unfold validateWriteRequest. destruct (bool_decide (wr_Deletes req = []) && bool_decide (wr_Writes req = [])) eqn:Hemp.
  { apply andb_true_iff in Hemp as [Hx1%bool_decide_eq_true Hx2%bool_decide_eq_true]. done. }
  assert (request_keys req ≠ []) as Hne.
  { unfold request_keys. intros [Hx1 Hx2]%app_nil. apply fmap_nil_inv in Hx1. by rewrite Hx1, Hx2 in Hemp. }
  assert (match (if bool_decide (wr_Writes req = []) then Ret tt else validate_writes_against_model limit s req) with
          | Ret _ => wr_Writes req ≠ [] → ∃ m t, ReadAuthorizationModel s (wr_StoreId req) (wr_AuthorizationModelId req) = Ret m ∧
              IsSchemaVersionSupported (am_SchemaVersion m) = true ∧ Typesystem.New m = Ret t ∧ Forall (writable t) (wr_Writes req)
          | Throw e => refusal s req e
          | Panic _ => False
          end) as Hw.
  { destruct (decide (wr_Writes req = [])) as [Hnil|Hnil]; [by rewrite bool_decide_true|rewrite bool_decide_false by done].
    pose proof (validate_writes_against_model_cases s req Hnil) as Hc.
    by destruct (validate_writes_against_model limit s req). }
  destruct (if bool_decide (wr_Writes req = []) then _ else _) as [[]|e|w]; simpl; [|done..].
  pose proof (validate_each_delete_cases (wr_Deletes req)) as Hd.
  destruct (validate_each_delete (wr_Deletes req)) as [[]|e|w]; simpl; [|destruct Hd as [-> Hd]; by left|done].
  pose proof (validateNoDuplicates_cases s req) as Hk.
  destruct (validateNoDuplicatesAndCorrectSize s (wr_Deletes req) (wr_Writes req)) as [[]|e|w]; [|done..].
  destruct Hk. by split.
Qed.

(** The datastore refuses a write only for its tuples. *)
Lemma Write_errors now store deletes writes s e :
  match Write now store deletes writes s e with
  | Throw err => ∃ u r o op, err = ErrInvalidWriteInput u r o op
  | Panic _ => False
  | Ret _ => True
  end.
Proof.
  unfold Write, validateTuples.
  assert (match validate_deletes (store_tuples s store) deletes with
          | Throw err => ∃ u r o op, err = ErrInvalidWriteInput u r o op | Panic _ => False | Ret _ => True end) as Hd.
  { induction deletes as [|d l IH]; simpl; [done|]. destruct (find _ _); simpl; [done|]. by eexists _, _, _, _. }
  assert (match validate_writes (store_tuples s store) writes with
          | Throw err => ∃ u r o op, err = ErrInvalidWriteInput u r o op | Panic _ => False | Ret _ => True end) as Hw.
  { induction writes as [|d l IH]; simpl; [done|]. destruct (find _ _); simpl; [by eexists _, _, _, _|done]. }
  destruct (validate_deletes _ _) as [[]| |]; simpl; [|done..]. destruct (validate_writes _ _) as [[]| |]; simpl; [|done..].
  destruct (delete_loop _ _ _ _) as [[kept cs1] e1]. by destruct (write_loop _ _ _ _ _) as [[recs cs2] e2].
Qed.

Lemma accepted_complete s req : accepted s req → Forall (λ k, complete_key (key_of k)) (wr_Writes req).
Proof.
  intros Ha. destruct (decide (wr_Writes req = [])) as [->|Hne]; [constructor|].
  destruct (ac_writes _ _ Ha Hne) as (m&t&_&_&_&Hw). eapply Forall_impl; [exact Hw|].
  intros tk (Hv&_). by apply ValidateTupleForWrite_shape in Hv as [? _].
Qed.

(** C10: the Write command is exact, for requests whose deletes name an object, a relation and
    a user, on a store of the in-memory datastore.  It accepts a request if and only if it is
    not empty, has at most the datastore's number of tuples, none of them twice, valid users
    in its deletes and, if it writes tuples, a stored model under which each of them is
    valid, not implicit and within the limit of the condition context: an accepted request
    becomes what the abstract write promises, or fails with an invalid input, and then the
    abstract write refuses too; every other error is one of the validation, true of the
    request, which is not acceptable.  The changelog keeps replaying to the store and other
    stores are untouched.  It never panics. *)
Theorem Write_command_exact (now : Z) (s : MemoryBackend) (e : entropy) (req : WriteRequest)
    (S := tuple_set (store_tuples s (wr_StoreId req)))
    (D := list_to_set (key_of_woc <$> wr_Deletes req) : gset akey)
    (W := list_to_set (key_of <$> wr_Writes req) : gset akey) :
  store_inv (store_tuples s (wr_StoreId req)) (store_changes s (wr_StoreId req)) →
  Forall (λ k, complete_key (key_of_woc k)) (wr_Deletes req) →
  match WriteCommand_Execute limit now s e req with
  | Ret (s', _) =>
      accepted s req ∧ spec_write S D W = Some (tuple_set (store_tuples s' (wr_StoreId req))) ∧
      store_inv (store_tuples s' (wr_StoreId req)) (store_changes s' (wr_StoreId req)) ∧
      store_changes s (wr_StoreId req) `prefix_of` store_changes s' (wr_StoreId req) ∧
      ∀ other, other ≠ wr_StoreId req → store_tuples s' other = store_tuples s other ∧ store_changes s' other = store_changes s other
  | Throw (WE_Server SE_WriteFailedDueToInvalidInput) => accepted s req ∧ spec_write S D W = None
  | Throw err => refusal s req err ∧ ¬ accepted s req
  | Panic _ => False
  end.
Proof.
  intros Hinv Hd. unfold WriteCommand_Execute. pose proof (validateWriteRequest_cases s req) as Hv.
  destruct (validateWriteRequest limit s req) as [[]|err|w]; simpl; [|pose proof (refusal_refused _ _ _ Hv); by destruct err as [[]|]|done].
  pose proof (Write_spec now _ _ _ s e Hinv Hd (accepted_complete _ _ Hv)) as Hw.
  pose proof (Write_errors now (wr_StoreId req) (wr_Deletes req) (wr_Writes req) s e) as He.
  destruct (Write _ _ _ _ _ _) as [[s' e']|err|w].
  - destruct Hw as (Hx1&Hx2&Hx3&Hx4&_). by split_and!.
  - destruct He as (u&r&o&op&->). by destruct Hw as [Hw _].
  - done.
Qed.
End write_spec.

(** ** The server as a state machine *)

Section server.
Context `{!ModelGraph, !Cel, !MapRange, !ConditionCompiler, !Ulid, !UlidLaws, !ProtoSize}.

(** The commands that change the backend, on a clock that does not go back.  A refused
    model has used a ULID. *)
Inductive api_step : MemoryBackend * entropy → MemoryBackend * entropy → Prop :=
| api_Write limit now req s e s' e' :
    last_ms e ≤ now / 1000000 → WriteCommand_Execute limit now s e req = Ret (s', e') → api_step (s, e) (s', e')
| api_WriteModel maxSize now req id s e s' e' :
    last_ms e ≤ now / 1000000 → WriteAuthorizationModelCommand_Execute maxSize now s e req = Ret (id, s', e') →
    api_step (s, e) (s', e')
| api_ModelRefused maxSize now req err s e :
    last_ms e ≤ now / 1000000 → WriteAuthorizationModelCommand_Execute maxSize now s e req = Throw err →
    api_step (s, e) (s, (ulid_Make now e).2)
| api_WriteAssertions maxSize store modelID l s e s' :
    WriteAssertionsCommand_Execute maxSize s store modelID l = Ret s' → api_step (s, e) (s', e)
| api_CreateStore now name st s e s' e' :
    last_ms e ≤ now / 1000000 → CreateStoreCommand_Execute now s e name = Ret (st, s', e') → api_step (s, e) (s', e')
| api_DeleteStore id s e s' :
    DeleteStoreCommand_Execute s id = Ret s' → api_step (s, e) (s', e).

(** An id that the ULID library has given out. *)
Definition given_out (id : string) (e : entropy) : Prop := ∃ u, id = ulid_String u ∧ (u ≤ last_ulid e)%N.

Record api_inv (x : MemoryBackend * entropy) : Prop := {
  ai_machine : machine_inv x;
  ai_tuples : ∀ store k, k ∈ tuple_set (store_tuples x.1 store) → IsValidUser k.2 = true ∧ object_ok k.1.1;
  ai_models : ∀ store tm id entry, authorizationModels x.1 !! store = Some tm → tm !! id = Some entry →
    (∃ t, NewAndValidate (entry_model entry) = Ret t) ∧ given_out id x.2;
  ai_stores : ∀ id st, stores x.1 !! id = Some st → given_out id x.2;
}.

Lemma given_out_mono id e e' : (last_ulid e ≤ last_ulid e')%N → given_out id e → given_out id e'.
Proof. intros Hle (u&->&Hu). exists u. split; [done|lia]. Qed.

Lemma ulid_String_inj u v : ulid_String u = ulid_String v → u = v.
Proof. intros Heq. pose proof (ulid_Parse_String u) as Hu. rewrite Heq, ulid_Parse_String in Hu. by injection Hu. Qed.

(** A new ULID has not been given out before. *)
Lemma ulid_Make_fresh now e :
  last_ms e ≤ now / 1000000 →
  let '(id, e') := ulid_Make now e in
  ¬ given_out id e ∧ given_out id e' ∧ id ≠ "" ∧ (last_ulid e ≤ last_ulid e')%N ∧ last_ms e' = now / 1000000.
Proof.
  intros Hms. unfold ulid_Make, new_ulid. destruct (MustNew_monotonic _ _ Hms) as (Hlt&Hlast&Hms').
  destruct (MustNew _ e) as [u e']; simpl in *. split_and!; [|exists u; split; [done|lia]|apply ulid_String_nonempty|lia|done].
  intros (v&Heq%ulid_String_inj&Hv). subst v. lia.
Qed.

Lemma machine_inv_entropy s e e' : (last_ulid e ≤ last_ulid e')%N → machine_inv (s, e) → machine_inv (s, e').
Proof.
  intros Hle [Hb Hu]. split; [done|]. intros store. destruct (Hu store) as (Hs&Hf&Hx). split_and!; [done| |simpl in *; lia].
  eapply Forall_impl; [exact Hf|]. simpl. intros; lia.
Qed.

Lemma api_inv_entropy s e e' : (last_ulid e ≤ last_ulid e')%N → api_inv (s, e) → api_inv (s, e').
Proof.
  intros Hle [Hm Ht Hmo Hst]. split; [by eapply machine_inv_entropy|done|..].
  - intros store tm id entry Hx1 Hx2. destruct (Hmo _ _ _ _ Hx1 Hx2). split; [done|]. by eapply given_out_mono.
  - intros id st Hid. by eapply given_out_mono, Hst.
Qed.

Lemma api_inv_init a b e : api_inv (Memory.New a b, e).
Proof.
  split; [apply machine_inv_init|..].
  - intros store k. unfold store_tuples; simpl. rewrite lookup_empty. unfold tuple_set. simpl. set_solver.
  - intros store tm id entry. simpl. by rewrite lookup_empty.
  - intros id st. simpl. by rewrite lookup_empty.
Qed.

Lemma api_inv_write limit now req s e s' e' :
  api_inv (s, e) → last_ms e ≤ now / 1000000 → WriteCommand_Execute limit now s e req = Ret (s', e') → api_inv (s', e').
Proof.
  intros Hinv Hms. unfold WriteCommand_Execute. pose proof (validateWriteRequest_cases limit s req) as Ha.
  destruct (validateWriteRequest limit s req) as [[]| |]; simpl; [|done..].
  destruct (Write _ _ _ _ _ _) as [[s1 e1]|[]|] eqn:HW; [|done..]. intros [= -> ->].
  pose proof (accepted_complete _ _ _ Ha) as Hc. destruct Hinv as [Hm Ht Hmo Hst].
  pose proof (machine_inv_write _ _ _ _ _ _ _ _ Hm Hms Hc HW) as Hm'.
  destruct Hm as [(Hs&_) _]. pose proof (Write_Ret _ _ _ _ _ _ _ _ (Hs _) Hc HW) as (_&Hset&_&Hother&Hmods&Hsts&_).
  destruct (Write_ulids _ _ _ _ _ _ _ _ Hms HW) as (_&Hle&_). split; [done|..]; simpl in *.
  - intros store k Hk. destruct (decide (store = wr_StoreId req)) as [->|Hne].
    2: { destruct (Hother _ Hne) as [Heq _]. rewrite Heq in Hk. by eapply Ht. }
    rewrite Hset in Hk. apply elem_of_union in Hk as [(t&->&Hin)%elem_of_tuple_set|Hk].
    + apply (Ht (wr_StoreId req)). apply elem_of_tuple_set. exists t. split; [done|].
      rewrite list_elem_of_In, List.filter_In, <-list_elem_of_In in Hin. apply Hin.
    + apply elem_of_list_to_set, list_elem_of_fmap in Hk as (tk&->&Htk).
      destruct (ac_writes _ _ _ Ha ltac:(intros Hnil; rewrite Hnil in Htk; by apply not_elem_of_nil in Htk)) as (m&t&_&_&_&Hw).
      rewrite Forall_forall in Hw. destruct (Hw tk Htk) as (Hv&_). by apply ValidateTupleForWrite_shape in Hv as (_&?&?).
  - rewrite Hmods. intros store tm id entry Hx1 Hx2. destruct (Hmo _ _ _ _ Hx1 Hx2). split; [done|]. by eapply given_out_mono.
  - rewrite Hsts. intros id st Hid. by eapply given_out_mono, Hst.
Qed.

(** What a successful model write does. *)
Lemma WriteAuthorizationModelCommand_Ret maxSize now s e req id s' e' :
  WriteAuthorizationModelCommand_Execute maxSize now s e req = Ret (id, s', e') →
  ∃ m t, (id, e') = ulid_Make now e ∧ am_Id m = id ∧ NewAndValidate m = Ret t ∧ s' = WriteAuthorizationModel s (wm_StoreId req) m ∧
    zlen (am_TypeDefinitions m) ≤ maxTypesPerAuthorizationModel s ∧ size_Model m ≤ maxSize ∧
    am_TypeDefinitions m = wm_TypeDefinitions req.
Proof.
  unfold WriteAuthorizationModelCommand_Execute. destruct (bool_decide (_ > maxTypesPerAuthorizationModel s)) eqn:Hn; [done|].
  destruct (ulid_Make now e) as [u e1]. cbv zeta. set (m := mkAuthorizationModel _ _ _ _).
  destruct (bool_decide (size_Model m > maxSize)) eqn:Hsz; [done|].
  destruct (NewAndValidate m) as [t| |] eqn:Hm; [|done..]. intros [= <- <- <-]. exists m, t.
  apply bool_decide_eq_false in Hn, Hsz. split_and!; [done..|simpl; lia|lia|done].
Qed.

Lemma model_lookup_write s store m store' tm id entry :
  authorizationModels (WriteAuthorizationModel s store m) !! store' = Some tm → tm !! id = Some entry →
  (store' = store ∧ id = am_Id m ∧ entry_model entry = m) ∨
  ∃ tm0 entry0, authorizationModels s !! store' = Some tm0 ∧ tm0 !! id = Some entry0 ∧ entry_model entry = entry_model entry0.
Proof.
  simpl. intros [(<-&<-)|(Hne&Hl)]%lookup_insert_Some Hid; [|by right; exists tm, entry].
  apply lookup_insert_Some in Hid as [(<-&<-)|(Hne&Hid)]; [by left|]. rewrite lookup_fmap in Hid.
  apply fmap_Some in Hid as (entry0&Hid&->). right. destruct (authorizationModels s !! store) as [tm0|] eqn:E; [|done].
  by exists tm0, entry0.
Qed.

Lemma api_inv_step x y : api_step x y → api_inv x → api_inv y.
Proof.
  intros Hstep Hinv.
  destruct Hstep as [limit now req s e s' e' Hms HW|maxSize now req id s e s' e' Hms HW|maxSize now req err s e Hms HW
    |maxSize store mid l s e s' HW|now name st s e s' e' Hms HW|id s e s' HW].
  - by eapply api_inv_write.
  - apply WriteAuthorizationModelCommand_Ret in HW as (m&t&Heq&Hid&Hm&->&_). pose proof (ulid_Make_fresh now e Hms) as Hf.
    rewrite <-Heq in Hf. destruct Hf as (_&Hout&_&Hle&_). pose proof (api_inv_entropy _ _ _ Hle Hinv) as [Hx1 Hx2 Hx3 Hx4].
    split; [|done| |done].
    + apply (machine_inv_step (s, e')); [constructor|done].
    + intros store tm id' entry Hl Hl'. destruct (model_lookup_write _ _ _ _ _ _ _ Hl Hl') as [(->&->&->)|(tm0&e0&Hl0&Hl0'&->)].
      * split; [by exists t|by rewrite Hid].
      * by eapply Hx3.
  - pose proof (ulid_Make_fresh now e Hms) as Hf. destruct (ulid_Make now e) as [u e']. simpl.
    eapply api_inv_entropy; [|done]. apply Hf.
  - unfold WriteAssertionsCommand_Execute in HW. destruct (ReadAuthorizationModel s store mid) as [m|[]|]; try done.
    destruct (negb _); [done|]. destruct (Typesystem.New m) as [t| |]; try done. destruct (bool_decide _); [done|].
    destruct (validate_assertions t l) as [[]| |]; simpl in HW; [|done..]. injection HW as <-.
    destruct Hinv as [Hx1 Hx2 Hx3 Hx4]. split; [|done..]. apply (machine_inv_step (s, e)); [constructor|done].
  - unfold CreateStoreCommand_Execute in HW. pose proof (ulid_Make_fresh now e Hms) as Hf.
    destruct (ulid_Make now e) as [u e1]. destruct Hf as (_&Hout&_&Hle&_).
    destruct (CreateStore _ _ _) as [[st0 s1]| |] eqn:HC; [|done..]. injection HW as <- <- <-.
    pose proof (api_inv_entropy _ _ _ Hle Hinv) as [Hx1 Hx2 Hx3 Hx4].
    assert (machine_inv (s1, e1)) as Hm by (eapply machine_inv_step; [by eapply step_CreateStore|done]).
    unfold CreateStore in HC. destruct (stores s !! _) in HC; [done|]. injection HC as <- <-. split; [done..|].
    intros id' st'. simpl. intros [(<-&<-)|(_&Hl)]%lookup_insert_Some; [done|by eapply Hx4].
  - unfold DeleteStoreCommand_Execute in HW. destruct (GetStore s id) as [st|[]|]; try done; injection HW as <-; [|done].
    destruct Hinv as [Hx1 Hx2 Hx3 Hx4]. split; [|done|done|].
    + apply (machine_inv_step (s, e)); [constructor|done].
    + intros id' st'. simpl. intros [_ Hl]%lookup_delete_Some. by eapply Hx4.
Qed.

Lemma api_inv_steps x y : rtc api_step x y → api_inv x → api_inv y.
Proof. induction 1 as [|x y z Hxy _ IH]; [done|]. intros Hx. by apply IH, (api_inv_step x). Qed.
(** A model is read by its id from the entry that holds it. *)
Lemma ReadAuthorizationModel_by_id s store id m :
  id ≠ "" → ReadAuthorizationModel s store id = Ret m ↔
  ∃ tm entry, authorizationModels s !! store = Some tm ∧ tm !! id = Some entry ∧ entry_model entry = m ∧ am_TypeDefinitions m ≠ [].
Proof.
  intros Hid. unfold ReadAuthorizationModel, findAuthorizationModelByID. rewrite bool_decide_false by done. simpl. split.
  - destruct (authorizationModels s !! store) as [tm|] eqn:Htm; [|done]. destruct (tm !! id) as [entry|] eqn:He; simpl; [|done].
    destruct (am_TypeDefinitions (entry_model entry)) eqn:Htd; [done|]. intros [= <-]. exists tm, entry. by rewrite Htd.
  - intros (tm&entry&->&->&<-&Htd). simpl. by destruct (am_TypeDefinitions (entry_model entry)).
Qed.

(** Any model that can be read, by id or as the latest, is in an entry. *)
Lemma ReadAuthorizationModel_entry s store id m :
  ReadAuthorizationModel s store id = Ret m →
  ∃ tm k entry, authorizationModels s !! store = Some tm ∧ tm !! k = Some entry ∧ entry_model entry = m.
Proof.
  unfold ReadAuthorizationModel, findAuthorizationModelByID. destruct (authorizationModels s !! store) as [tm|]; [|done].
  destruct (negb (id =s "")).
  - destruct (tm !! id) as [entry|] eqn:He; simpl; [|done]. destruct (am_TypeDefinitions _); [done|]. intros [= <-]. by exists tm, id, entry.
  - destruct (find_latest (range_map tm)) as [m'|] eqn:Hf; [|done]. intros Hm. assert (m' = m) as -> by by destruct (am_TypeDefinitions m'); simplify_eq.
    destruct (find_latest_elem _ _ Hf) as (k&entry&Hin&Heq). exists tm, k, entry. by apply elem_of_range_map in Hin.
Qed.

(** Every step keeps the models that are stored, under a new id or not. *)
Lemma api_step_models x y store tm id entry :
  api_step x y → api_inv x → authorizationModels x.1 !! store = Some tm → tm !! id = Some entry →
  ∃ tm' entry', authorizationModels y.1 !! store = Some tm' ∧ tm' !! id = Some entry' ∧ entry_model entry' = entry_model entry.
Proof.
  intros Hstep Hinv Htm Hid.
  destruct Hstep as [limit now req s e s' e' Hms HW|maxSize now req mid s e s' e' Hms HW|maxSize now req err s e Hms HW
    |maxSize st mid l s e s' HW|now name st s e s' e' Hms HW|sid s e s' HW]; simpl in *.
  - assert (authorizationModels s' = authorizationModels s) as ->; [|by exists tm, entry].
    unfold WriteCommand_Execute in HW. destruct (validateWriteRequest limit s req) as [[]| |]; simpl in HW; [|done..].
    unfold Write in HW. destruct (validateTuples _ _ _) as [|[]|]; simpl in HW; [|done..].
    destruct (delete_loop _ _ _ _) as [[kept cs1] e1]. destruct (write_loop _ _ _ _ _) as [[recs cs2] e2]. by injection HW as <- _.
  - apply WriteAuthorizationModelCommand_Ret in HW as (m&t&Heq&Hm&_&->&_). pose proof (ulid_Make_fresh now e Hms) as Hf.
    rewrite <-Heq in Hf. destruct Hf as (Hfresh&_). simpl. destruct (decide (store = wm_StoreId req)) as [->|Hne].
    2: { rewrite lookup_insert_ne by done. by exists tm, entry. }
    rewrite lookup_insert_eq, Htm. simpl. eexists _, (mkModelEntry (entry_model entry) false). split; [done|]. split; [|done].
    rewrite lookup_insert_ne, lookup_fmap, Hid; [done|]. intros Hx. destruct (ai_models _ Hinv _ _ _ _ Htm Hid) as [_ Hg].
    by rewrite <-Hx, Hm in Hg.
  - by exists tm, entry.
  - unfold WriteAssertionsCommand_Execute in HW. destruct (ReadAuthorizationModel s st mid) as [m|[]|]; try done.
    destruct (negb _); [done|]. destruct (Typesystem.New m) as [t| |]; try done. destruct (bool_decide _); [done|].
    destruct (validate_assertions t l) as [[]| |]; simpl in HW; [|done..]. injection HW as <-. by exists tm, entry.
  - unfold CreateStoreCommand_Execute in HW. destruct (ulid_Make now e) as [u e1]. unfold CreateStore in HW. simpl in HW.
    destruct (stores s !! u); [done|]. injection HW as _ <- _. by exists tm, entry.
  - unfold DeleteStoreCommand_Execute in HW. destruct (GetStore s sid) as [st|[]|]; try done; injection HW as <-; by exists tm, entry.
Qed.

Lemma api_steps_models x y store tm id entry :
  rtc api_step x y → api_inv x → authorizationModels x.1 !! store = Some tm → tm !! id = Some entry →
  ∃ tm' entry', authorizationModels y.1 !! store = Some tm' ∧ tm' !! id = Some entry' ∧ entry_model entry' = entry_model entry.
Proof.
  intros Hr. revert tm entry. induction Hr as [x|x y z Hxy _ IH]; intros tm entry Hinv Htm Hid; [by exists tm, entry|].
  destruct (api_step_models _ _ _ _ _ _ Hxy Hinv Htm Hid) as (tm'&entry'&Htm'&Hid'&<-).
  apply (IH tm' entry'); [by eapply api_inv_step|done..].
Qed.

(** C11: in every state that the commands of the API reach from an empty backend, whatever
    requests they got: the stored tuples have well-formed objects and valid users, none is
    stored twice and the changelog replays to them; every model that can be read passed
    validation and has an id; and the creation of a store succeeds. *)
Theorem Api_reachable_inv (a b : option Z) (e0 e : entropy) (s : MemoryBackend) :
  rtc api_step (Memory.New a b, e0) (s, e) →
  (∀ store, store_inv (store_tuples s store) (store_changes s store)) ∧
  (∀ store t, t ∈ store_tuples s store → IsValidUser (User (Key (AsTuple t))) = true ∧ object_ok (Object (Key (AsTuple t)))) ∧
  (∀ store id m, ReadAuthorizationModel s store id = Ret m → am_Id m ≠ "" ∧ ∃ t, NewAndValidate m = Ret t) ∧
  (∀ now name, last_ms e ≤ now / 1000000 → ∃ st s' e', CreateStoreCommand_Execute now s e name = Ret (st, s', e')).
Proof.
  intros Hr. pose proof (api_inv_steps _ _ Hr (api_inv_init a b e0)) as Hinv.
  destruct (ai_machine _ Hinv) as [(Hs&Hm&_) _]. split_and!; [done|..].
  - intros store t Ht. pose proof (si_wf _ _ (Hs store)) as Hwf. rewrite Forall_forall in Hwf.
    change (IsValidUser (key_of (Key (AsTuple t))).2 = true ∧ object_ok (key_of (Key (AsTuple t))).1.1).
    rewrite AsTuple_key by apply (Hwf t Ht). apply (ai_tuples _ Hinv store (rec_key t)). apply elem_of_tuple_set. by exists t.
  - intros store id m (tm&k&entry&Htm&Hk&<-)%ReadAuthorizationModel_entry.
    destruct (ai_models _ Hinv _ _ _ _ Htm Hk) as [Hv (u&->&_)]. destruct (Hm _ _ Htm) as (_&Hid&_).
    rewrite (Hid _ _ Hk). split; [apply ulid_String_nonempty|done].
  - intros now name Hms. unfold CreateStoreCommand_Execute. pose proof (ulid_Make_fresh now e Hms) as Hf.
    destruct (ulid_Make now e) as [u e']. unfold CreateStore. simpl. destruct (stores s !! u) as [st|] eqn:E; [|by eexists _, _, _].
    destruct Hf as [[] _]. by apply (ai_stores _ Hinv u st).
Qed.

(** C13: models are immutable: a model that a store has under an id is read back unchanged
    under that id after any sequence of commands, also the writing of further models and
    the deletion of the store. *)
Theorem Api_models_immutable (a b : option Z) (e0 e e' : entropy) (s s' : MemoryBackend) (store id : string) (m : AuthorizationModel) :
  rtc api_step (Memory.New a b, e0) (s, e) → rtc api_step (s, e) (s', e') →
  id ≠ "" → ReadAuthorizationModel s store id = Ret m → ReadAuthorizationModel s' store id = Ret m.
Proof.
  intros Hr Hr' Hid (tm&entry&Htm&He&<-&Htd)%ReadAuthorizationModel_by_id; [|done].
  apply ReadAuthorizationModel_by_id; [done|].
  destruct (api_steps_models _ _ _ _ _ _ Hr' (api_inv_steps _ _ Hr (api_inv_init a b e0)) Htm He) as (tm'&entry'&?&?&Heq).
  exists tm', entry'. by rewrite Heq.
Qed.
End server.

(** ** Deletes that name fewer fields *)

Section partial_delete.
Context `{!ModelGraph, !Cel, !MapRange, !Ulid, !ProtoSize}.

Lemma find_user recs user :
  user ≠ "" → (∃ k, k ∈ tuple_set recs ∧ k.2 = user) → find recs (NewTupleKey "" "" user) = true.
Proof.
  intros Hne (k&(t&->&Ht)%elem_of_tuple_set&Hu). rewrite <-existsb_find. apply existsb_exists. exists t. split; [by apply list_elem_of_In|].
  unfold match_. simpl in *. by rewrite bool_decide_false, bool_decide_true.
Qed.

(** A delete is only checked for its user ("TODO validate relation format and object
    format"), and the in-memory datastore takes empty fields for wildcards: a delete that
    names a user and leaves object and relation empty is accepted and removes every tuple
    of that user from the store. *)
Theorem Write_delete_without_object (limit now : Z) (s : MemoryBackend) (e : entropy) (store user : string) :
  store_inv (store_tuples s store) (store_changes s store) → IsValidUser user = true → 1 ≤ maxTuplesPerWrite s →
  (∃ k, k ∈ tuple_set (store_tuples s store) ∧ k.2 = user) →
  ∃ s' e', WriteCommand_Execute limit now s e (mkWriteRequest store "" [mkTupleKeyWithoutCondition "" "" user] []) = Ret (s', e') ∧
    ∀ k, k ∈ tuple_set (store_tuples s' store) ↔ k ∈ tuple_set (store_tuples s store) ∧ k.2 ≠ user.
Proof.
  intros Hinv Hu Hmax Hk. assert (user ≠ "") as Hne by (intros ->; done).
  set (d := mkTupleKeyWithoutCondition "" "" user). set (req := mkWriteRequest store "" [d] []).
  assert (validateWriteRequest limit s req = Ret tt) as Hv.
  { unfold validateWriteRequest, validateNoDuplicatesAndCorrectSize.
    cbn [fmap list_fmap add_keys wr_Deletes wr_Writes validate_each_delete woc_User d req]. rewrite Hu.
    rewrite (bool_decide_false (_ ∈ ∅)) by set_solver. cbn [outcome_bind].
    rewrite (bool_decide_false (Z.of_nat _ > _)); [done|]. rewrite union_empty_r_L, size_singleton. lia. }
  unfold WriteCommand_Execute. rewrite Hv. simpl.
  destruct (Write now store [d] [] s e) as [[s' e']|err|w] eqn:HW.
  2-3: unfold Write, validateTuples in HW; cbn [validate_deletes] in HW;
    change (TupleKeyWithoutConditionToTupleKey d) with (NewTupleKey "" "" user) in HW; rewrite find_user in HW by done; simpl in HW;
    destruct (delete_loop _ _ _ _) as [[kept cs1] e1]; done.
  exists s', e'. split; [done|]. intros k.
  destruct (Write_Ret _ _ _ _ _ _ _ _ Hinv (Forall_nil_2 _) HW) as (_&->&_).
  change (list_to_set (key_of <$> [])) with (∅ : gset akey). rewrite union_empty_r_L, !elem_of_tuple_set.
  setoid_rewrite list_elem_of_In. setoid_rewrite List.filter_In. setoid_rewrite <-list_elem_of_In.
  assert (∀ t, deleted_by t [d] = bool_decide (tr_User t = user)) as Hd.
  { intros t. unfold deleted_by, match_. simpl. rewrite (bool_decide_false (user = "")) by done. simpl.
    by rewrite orb_false_r, negb_involutive. }
  split.
  - intros (t&->&Ht&Hdel). rewrite Hd in Hdel. split; [by exists t|]. simpl. by case_bool_decide.
  - intros ((t&->&Ht)&Hn). exists t. rewrite Hd. simpl in Hn. by rewrite bool_decide_false.
Qed.
End partial_delete.

(** ** A run of the commands *)

Definition zero_Size : ProtoSize := {| size_Struct _ := 0; size_Model _ := 0; size_Assertion _ := 0 |}.

Definition run_model : outcome ServerError (string * MemoryBackend * @entropy counter_Ulid) :=
  @WriteAuthorizationModelCommand_Execute demo_Graph map_to_list_MapRange demo_Compiler counter_Ulid zero_Size 100 0
    (Memory.New None None) (0%N, 0)
    (mkWriteAuthorizationModelRequest "store" "" (am_TypeDefinitions (cond_model true)) (am_Conditions (cond_model true))).

Definition run_write (s : MemoryBackend) (e : @entropy counter_Ulid) (deletes : list TupleKeyWithoutCondition) (writes : list TupleKey)
  : outcome WriteErr (MemoryBackend * @entropy counter_Ulid) :=
  @WriteCommand_Execute demo_Graph demo_Cel map_to_list_MapRange counter_Ulid zero_Size 100 5 s e (mkWriteRequest "store" "" deletes writes).

Definition run_tuple (id : string) : TupleKey := NewTupleKey ("doc:" +:+ id) "viewer" "user:a".

(** A store with the model and the tuples doc:1#viewer@user:a and doc:2#viewer@user:a. *)
Definition run : MemoryBackend * @entropy counter_Ulid :=
  match run_model with
  | Ret (_, s, e) =>
      match run_write s e [] [run_tuple "1"; run_tuple "2"] with Ret x => x | _ => (Memory.New None None, (0%N, 0)) end
  | _ => (Memory.New None None, (0%N, 0))
  end.

Abbreviation run_step :=
  (@api_step demo_Graph demo_Cel map_to_list_MapRange demo_Compiler counter_Ulid counter_UlidLaws zero_Size).

Lemma run_model_step : ∃ id s e, run_model = Ret (id, s, e) ∧ run_step (Memory.New None None, (0%N, 0)) (s, e).
Proof.
  destruct run_model as [[[id s] e]| |] eqn:E; [|by vm_compute in E..]. exists id, s, e. split; [done|].
  eapply (@api_WriteModel demo_Graph demo_Cel map_to_list_MapRange demo_Compiler counter_Ulid counter_UlidLaws zero_Size 100 0); [by vm_compute|exact E].
Qed.

Lemma run_reachable : rtc run_step (Memory.New None None, (0%N, 0)) run.
Proof.
  destruct run_model_step as (id&s&e&E&Hstep). unfold run. rewrite E.
  destruct (run_write s e [] [run_tuple "1"; run_tuple "2"]) as [[s' e']| |] eqn:HW; [|apply rtc_refl..].
  eapply rtc_l; [exact Hstep|]. apply rtc_once.
  eapply (@api_Write demo_Graph demo_Cel map_to_list_MapRange demo_Compiler counter_Ulid counter_UlidLaws zero_Size 100 5); [|exact HW].
  apply (f_equal (λ o, match o with Ret (_, _, e) => bool_decide (e.2 ≤ 0) | _ => false end)) in E. cbn beta iota in E.
  symmetry in E. replace (match run_model with Ret (_, _, e) => bool_decide (e.2 ≤ 0) | _ => false end) with true in E by by vm_compute.
  apply bool_decide_eq_true in E. change (e.2 ≤ 5 / 1000000). rewrite Z.div_small by lia. done.
Qed.

Lemma run_facts :
  rec_key <$> store_tuples run.1 "store" = [("doc:1", "viewer", "user:a"); ("doc:2", "viewer", "user:a")] ∧
  maxTuplesPerWrite run.1 = 100 ∧ is_ret (@ReadAuthorizationModel map_to_list_MapRange run.1 "store" "1U") = true ∧
  match run_write run.1 run.2 [mkTupleKeyWithoutCondition "doc:1" "viewer" "user:a"] [run_tuple "3"] with
  | Ret (s', _) => rec_key <$> store_tuples s' "store" = [("doc:2", "viewer", "user:a"); ("doc:3", "viewer", "user:a")]
  | _ => False
  end ∧
  run_write run.1 run.2 [] [run_tuple "3"; run_tuple "3"] = Throw (WE_Server (SE_DuplicateTupleInWrite "doc:3" "viewer" "user:a")) ∧
  run_write run.1 run.2 [] [run_tuple "1"] = Throw (WE_Server SE_WriteFailedDueToInvalidInput).
Proof. split_and!; vm_compute; reflexivity. Qed.

Lemma run_store_inv : store_inv (store_tuples run.1 "store") (store_changes run.1 "store").
Proof.
  destruct (api_inv_steps _ _ run_reachable) as [[(Hs&_) _] _ _ _]; [|apply Hs].
  exact (@api_inv_init demo_Graph map_to_list_MapRange demo_Compiler counter_Ulid counter_UlidLaws None None (0%N, 0)).
Qed.

Lemma Write_command_exact_witness :
  match run_write run.1 run.2 [mkTupleKeyWithoutCondition "doc:1" "viewer" "user:a"] [run_tuple "3"] with
  | Ret (s', _) => spec_write (tuple_set (store_tuples run.1 "store")) {[("doc:1", "viewer", "user:a")]} {[("doc:3", "viewer", "user:a")]} =
                     Some (tuple_set (store_tuples s' "store")) ∧
                   rec_key <$> store_tuples s' "store" = [("doc:2", "viewer", "user:a"); ("doc:3", "viewer", "user:a")]
  | _ => False
  end.
Proof.
  pose proof run_facts as (_&_&_&Hw&_).
  pose proof (@Write_command_exact demo_Graph demo_Cel map_to_list_MapRange counter_Ulid zero_Size 100 5 run.1 run.2
    (mkWriteRequest "store" "" [mkTupleKeyWithoutCondition "doc:1" "viewer" "user:a"] [run_tuple "3"]) run_store_inv) as Hex.
  unfold run_write in *. destruct (WriteCommand_Execute _ _ _ _ _) as [[s' e']| |]; [|exact Hw..].
  destruct Hex as (_&Hspec&_); [by apply Forall_singleton, (complete_demo "1")|]. split; [|exact Hw].
  cbn [wr_StoreId wr_Deletes wr_Writes] in Hspec. rewrite <-Hspec. f_equal; apply set_eq; intros k; cbn; set_solver.
Defined.

Lemma Api_reachable_inv_witness :
  rtc run_step (Memory.New None None, (0%N, 0)) run ∧
  ∀ t, t ∈ store_tuples run.1 "store" → IsValidUser (User (Key (AsTuple t))) = true.
Proof.
  split; [exact run_reachable|]. intros t Ht.
  destruct (@Api_reachable_inv demo_Graph demo_Cel map_to_list_MapRange demo_Compiler counter_Ulid counter_UlidLaws zero_Size
    None None (0%N, 0) run.2 run.1 ltac:(rewrite <-surjective_pairing; exact run_reachable)) as (_&Hv&_).
  apply (Hv "store" t Ht).
Defined.

Lemma Api_models_immutable_witness :
  match @ReadAuthorizationModel map_to_list_MapRange run.1 "store" "1U" with
  | Ret m => ∀ s' e', rtc run_step run (s', e') → @ReadAuthorizationModel map_to_list_MapRange s' "store" "1U" = Ret m
  | _ => False
  end.
Proof.
  pose proof run_facts as (_&_&Hm&_). destruct (ReadAuthorizationModel run.1 "store" "1U") as [m| |] eqn:E; [|done..].
  intros s' e' Hr. apply (@Api_models_immutable demo_Graph demo_Cel map_to_list_MapRange demo_Compiler counter_Ulid counter_UlidLaws zero_Size
    None None (0%N, 0) run.2 e' run.1 s' "store" "1U" m); [rewrite <-surjective_pairing; exact run_reachable| |done|exact E].
  rewrite <-surjective_pairing. exact Hr.
Defined.

Lemma Write_delete_without_object_witness :
  ∃ s' e', @WriteCommand_Execute demo_Graph demo_Cel map_to_list_MapRange counter_Ulid zero_Size 100 5 run.1 run.2
    (mkWriteRequest "store" "" [mkTupleKeyWithoutCondition "" "" "user:a"] []) = Ret (s', e') ∧
    ¬ ("doc:1", "viewer", "user:a") ∈ tuple_set (store_tuples s' "store").
Proof.
  pose proof run_facts as (Hrecs&Hmax&_).
  destruct (@Write_delete_without_object demo_Graph demo_Cel map_to_list_MapRange counter_Ulid zero_Size 100 5 run.1 run.2 "store" "user:a"
    run_store_inv eq_refl) as (s'&e'&Hex&Hset); [rewrite Hmax; lia| |].
  - exists ("doc:1", "viewer", "user:a"). split; [|done]. unfold tuple_set. rewrite Hrecs. set_solver.
  - exists s', e'. split; [exact Hex|]. intros [_ Hne]%Hset. by destruct Hne.
Defined.
