(* ===== verification/Server.v ===== *)
(** * The server: [pkg/typesystem/resolver.go] and the handlers of [pkg/server]

    [MemoizedTypesystemResolverFunc], which finds, validates and caches the model of a
    request, [resolveTypesystem] of [server.go] and the handlers [Check] ([check.go]) and
    [Write] ([write.go]).  The resolver's cache is shared by all requests and may drop
    entries at any time, so the server is a state machine of commands, resolutions and
    evictions.  What is proved about the check of a fixed model and store holds for every
    request to a server that was started empty. *)

From S2P Require Import Prelude GoStd Tuple CacheKeys Iterators Model Memory MemorySpec Typesystem Entrypoints TypesystemSpec.
From S2P Require Import Condition Validation ValidationSpec Check CheckSpec CheckSemantics CheckExact CheckMemory CombinedReader.
From S2P Require Import ReverseExpandMemory FastPath FastPathSpec SortedCombined FastPathMemory RecursivePath RecursivePathExact RecursivePathMemory.
From S2P Require Import ServerErrors CheckCommand WriteCommands.

Local Open Scope Z_scope.
Local Open Scope go_scope.

Inductive ResolverErr :=
| ErrModelNotFound
| ErrInvalidModel (e : TsErr)
| ErrLookup (e : StorageErr).

Section resolver.
Context `{!ModelGraph, !MapRange, !ConditionCompiler, !Ulid}.

Definition typesystem_key (storeID modelID : string) : string := storeID +:+ String "/" modelID.

(** The error of a lookup in the datastore. *)
Definition lookup_error {A} (o : outcome StorageErr A) : outcome ResolverErr A :=
  match o with
  | Ret a => Ret a
  | Throw ErrNotFound => Throw ErrModelNotFound
  | Throw e => Throw (ErrLookup e)
  | Panic w => Panic w
  end.

(** The model if it was looked up as the latest one, and the id of the model. *)
Definition latest_or_id (s : MemoryBackend) (storeID modelID : string) : outcome ResolverErr (option AuthorizationModel * string) :=
  if modelID =s "" then
    let! model := lookup_error (FindLatestAuthorizationModel s storeID) in Ret (Some model, am_Id model)
  else if bool_decide (ulid_Parse modelID = None) then Throw ErrModelNotFound
  else Ret (None, modelID).

(** The validated model that is not in the cache. *)
Definition load (s : MemoryBackend) (storeID modelID : string) (model : option AuthorizationModel) : outcome ResolverErr TypeSystem :=
  let! model := match model with
                | Some model => Ret model
                | None => lookup_error (ReadAuthorizationModel s storeID modelID)
                end in
  match NewAndValidate model with
  | Ret typesys => Ret typesys
  | Throw e => Throw (ErrInvalidModel e)
  | Panic w => Panic w
  end.

(** The function that [MemoizedTypesystemResolverFunc] returns, with the cache before and
    after.  Concurrent lookups of the same model share one read. *)
Definition MemoizedTypesystemResolverFunc (s : MemoryBackend) (cache : gmap string TypeSystem) (storeID modelID : string)
  : outcome ResolverErr TypeSystem * gmap string TypeSystem :=
  match latest_or_id s storeID modelID with
  | Throw e => (Throw e, cache)
  | Panic w => (Panic w, cache)
  | Ret (model, modelID) =>
      let key := typesystem_key storeID modelID in
      match cache !! key with
      | Some item => (Ret item, cache)
      | None =>
          match load s storeID modelID model with
          | Ret typesys => (Ret typesys, <[key := typesys]> cache)
          | o => (o, cache)
          end
      end
  end.

Definition resolveTypesystem (s : MemoryBackend) (cache : gmap string TypeSystem) (storeID modelID : string)
  : outcome ServerError TypeSystem * gmap string TypeSystem :=
  let '(o, cache) := MemoizedTypesystemResolverFunc s cache storeID modelID in
  (match o with
   | Ret typesys => Ret typesys
   | Throw ErrModelNotFound =>
       Throw (if modelID =s "" then SE_LatestAuthorizationModelNotFound storeID else SE_AuthorizationModelNotFound modelID)
   | Throw (ErrInvalidModel _) => Throw SE_ValidationError
   | Throw (ErrLookup e) => Throw (HandleError e)
   | Panic w => Panic w
   end, cache).
End resolver.

(** ** The handlers

    [authz] is the outcome of [checkAuthz] or [checkWriteAuthz] and [valid] that of the
    request's generated [Validate]. *)

Record CheckRequest := mkCheckRequest {
  cr_StoreId : string;
  cr_AuthorizationModelId : string;
  cr_TupleKey : TupleKeyWithoutCondition;
  cr_ContextualTuples : list TupleKey;
  cr_Context : option Struct;
  cr_HigherConsistency : bool;
}.

Section handlers.
Context `{!ModelGraph, !Cel, !MapRange, !ConditionCompiler, !Ulid, !SortTupleKeys, !ProtoSize}.

Definition Server_Check (authz valid : outcome ServerError unit) (invalidationTime : string → Z)
    (checkResolver : TypeSystem → list TupleKey → RequestInvariant → ResolveCheckRequest → checkOutcome)
    (s : MemoryBackend) (cache : gmap string TypeSystem) (req : CheckRequest)
  : outcome ServerError bool * gmap string TypeSystem :=
  match authz, valid with
  | Ret _, Ret _ =>
      let '(typesys, cache) := resolveTypesystem s cache (cr_StoreId req) (cr_AuthorizationModelId req) in
      (let! typesys := typesys in
       match CheckQuery_Execute typesys invalidationTime (checkResolver typesys)
               (mkCheckCommandParams (cr_StoreId req) (cr_TupleKey req) (cr_ContextualTuples req) (cr_Context req) (cr_HigherConsistency req)) with
       | Ret resp => Ret (Allowed resp)
       | Throw e => Throw (CheckCommandErrorToServerError e)
       | Panic w => Panic w
       end, cache)
  | Ret _, Throw e | Throw e, _ => (Throw e, cache)
  | Ret _, Panic w | Panic w, _ => (Panic w, cache)
  end.

Definition DefaultWriteContextByteLimit : Z := 32 * 1024.

(** [Write] writes under the id of the resolved model; the backend and the entropy after it. *)
Definition Server_Write (valid : outcome ServerError unit) (authz : TypeSystem → outcome ServerError unit) (now : Z)
    (s : MemoryBackend) (e : entropy) (cache : gmap string TypeSystem) (req : WriteRequest)
  : outcome WriteErr (MemoryBackend * entropy) * gmap string TypeSystem :=
  match valid with
  | Throw err => (Throw (WE_Server err), cache)
  | Panic w => (Panic w, cache)
  | Ret _ =>
      let '(typesys, cache) := resolveTypesystem s cache (wr_StoreId req) (wr_AuthorizationModelId req) in
      (match typesys with
       | Throw err => Throw (WE_Server err)
       | Panic w => Panic w
       | Ret typesys =>
           match authz typesys with
           | Throw err => Throw (WE_Server err)
           | Panic w => Panic w
           | Ret _ =>
               WriteCommand_Execute DefaultWriteContextByteLimit now s e
                 (mkWriteRequest (wr_StoreId req) (modelID typesys) (wr_Deletes req) (wr_Writes req))
           end
       end, cache)
  end.
End handlers.

(** ** The server as a state machine *)

Section world.
Context `{!ModelGraph, !Cel, !MapRange, !ConditionCompiler, !Ulid, !UlidLaws, !ProtoSize}.

Abbreviation world := (MemoryBackend * entropy * gmap string TypeSystem)%type.

(** Commands, resolutions of models and evictions from the cache, in any order.  The
    generated validation of the requests accepts only ULIDs as ids of stores, so the id of a
    store has no slash. *)
Inductive world_step : world → world → Prop :=
| world_command x y c : api_step x y → world_step (x, c) (y, c)
| world_resolve storeID modelID x c :
    has_byte "/" storeID = false →
    world_step (x, c) (x, (MemoizedTypesystemResolverFunc x.1 c storeID modelID).2)
| world_evict key x c : world_step (x, c) (x, delete key c).

(** The model of a store under an id. *)
Definition model_at (s : MemoryBackend) (store id : string) (m : AuthorizationModel) : Prop :=
  ∃ tm entry, authorizationModels s !! store = Some tm ∧ tm !! id = Some entry ∧ entry_model entry = m.

(** Every cached type system is that of a stored model. *)
Definition cache_inv (s : MemoryBackend) (c : gmap string TypeSystem) : Prop :=
  ∀ key t, c !! key = Some t → ∃ store id m, key = typesystem_key store id ∧ has_byte "/" store = false ∧
    model_at s store id m ∧ NewAndValidate m = Ret t.

Lemma model_at_unique s store id m m' : model_at s store id m → model_at s store id m' → m = m'.
Proof. intros (tm&en&?&?&<-) (tm'&en'&?&?&<-). by simplify_eq. Qed.

Lemma model_at_id x store id m : api_inv x → model_at x.1 store id m → am_Id m = id ∧ is_Some (ulid_Parse id) ∧ ∃ t, NewAndValidate m = Ret t.
Proof.
  intros Hinv (tm&entry&Htm&Hid&<-). destruct (ai_models _ Hinv _ _ _ _ Htm Hid) as [Hv (u&->&_)].
  destruct (ai_machine _ Hinv) as [(_&Hm&_) _]. destruct (Hm _ _ Htm) as (_&Hids&_).
  split_and!; [by apply (Hids _ _ Hid)|rewrite ulid_Parse_String; by eexists|done].
Qed.

Lemma FindLatest_cases s store :
  match FindLatestAuthorizationModel s store with
  | Ret m => ∃ id, model_at s store id m
  | Throw e => e = ErrNotFound
  | Panic _ => False
  end.
Proof.
  unfold FindLatestAuthorizationModel, findAuthorizationModelByID. destruct (authorizationModels s !! store) as [tm|] eqn:Htm; [|done].
  simpl. destruct (find_latest (range_map tm)) as [m|] eqn:Hf; [|done].
  destruct (find_latest_elem _ _ Hf) as (k&entry&Hin&Heq). exists k, tm, entry. by apply elem_of_range_map in Hin.
Qed.

(** What the resolver looks up: the model it will load, and its id. *)
Lemma latest_or_id_cases x store id :
  api_inv x →
  match latest_or_id x.1 store id with
  | Ret (model, id') => is_Some (ulid_Parse id') ∧
      match model with
      | Some m => id = "" ∧ model_at x.1 store id' m
      | None => id' = id ∧ id ≠ ""
      end
  | Throw e => e = ErrModelNotFound
  | Panic _ => False
  end.
Proof.
  intros Hinv. unfold latest_or_id. case_bool_decide as Hid.
  - pose proof (FindLatest_cases x.1 store) as Hc. destruct (FindLatestAuthorizationModel x.1 store) as [m|e|w]; simpl; [|by subst e|done].
    destruct Hc as (k&Hk). destruct (model_at_id _ _ _ _ Hinv Hk) as (<-&Hp&_). by split_and!.
  - case_bool_decide as Hp; [done|]. split; [|done]. by apply not_eq_None_Some.
Qed.

Lemma typesystem_key_inj store store' id id' :
  has_byte "/" store = false → has_byte "/" store' = false → typesystem_key store id = typesystem_key store' id' → store = store' ∧ id = id'.
Proof. unfold typesystem_key. intros Hs Hs'. by apply str_split_unique. Qed.

(** A hit of the cache is the validated model of the store under the id. *)
Lemma cache_hit s c store id t :
  cache_inv s c → has_byte "/" store = false → c !! typesystem_key store id = Some t →
  ∃ m, model_at s store id m ∧ NewAndValidate m = Ret t.
Proof.
  intros Hc Hst Hl. destruct (Hc _ _ Hl) as (store'&id'&m&Hkey&Hst'&Hm&Hv).
  apply typesystem_key_inj in Hkey as [-> ->]; [|done..]. by exists m.
Qed.

(** What is loaded is the model of the store under the id, if it has one. *)
Lemma load_cases x store id model :
  api_inv x → id ≠ "" → match model with Some m => model_at x.1 store id m | None => True end →
  match load x.1 store id model with
  | Ret t => ∃ m, model_at x.1 store id m ∧ NewAndValidate m = Ret t
  | Throw e => e = ErrModelNotFound
  | Panic _ => False
  end.
Proof.
  intros Hinv Hid Hm. unfold load.
  assert (∀ m, model_at x.1 store id m →
    match (match NewAndValidate m with Ret t => Ret t | Throw e => Throw (ErrInvalidModel e) | Panic w => Panic w end) with
    | Ret t => ∃ m, model_at x.1 store id m ∧ NewAndValidate m = Ret t
    | Throw e => e = ErrModelNotFound
    | Panic _ => False
    end) as Hload.
  { intros m Hat. destruct (model_at_id _ _ _ _ Hinv Hat) as (_&_&t&Hv). rewrite Hv. by exists m. }
  destruct model as [m|]; simpl; [by apply Hload|].
  pose proof (ReadAuthorizationModel_errors x.1 store id) as Hr.
  destruct (ReadAuthorizationModel x.1 store id) as [m|e|w] eqn:Hrm; simpl; [|by subst e|done].
  apply Hload. apply ReadAuthorizationModel_by_id in Hrm as (tm&entry&?&?&?&_); [|done]. by exists tm, entry.
Qed.

(** The empty text is no ULID: [ulid.Parse] asks for 26 characters. *)
Hypothesis Hempty : ulid_Parse "" = None.

Lemma parsed_nonempty id : is_Some (ulid_Parse id) → id ≠ "".
Proof. intros [u Hu] ->. congruence. Qed.

Lemma cache_inv_resolve x c store id :
  has_byte "/" store = false → api_inv x → cache_inv x.1 c → cache_inv x.1 (MemoizedTypesystemResolverFunc x.1 c store id).2.
Proof.
  intros Hst Hinv Hc. unfold MemoizedTypesystemResolverFunc. pose proof (latest_or_id_cases x store id Hinv) as Hl.
  destruct (latest_or_id x.1 store id) as [[model id']|e|w]; [|done..]. destruct Hl as [Hp Hmodel].
  destruct (c !! _) as [item|] eqn:Hhit; [done|].
  pose proof (load_cases x store id' model Hinv (parsed_nonempty _ Hp) ltac:(by destruct model; [destruct Hmodel|])) as Hload.
  destruct (load x.1 store id' model) as [t|e|w]; simpl; [|done..]. destruct Hload as (m&Hm&Hv).
  intros key t' [(<-&<-)|(_&Hk)]%lookup_insert_Some; [by exists store, id', m|by apply Hc].
Qed.

Lemma world_inv_step w w' :
  world_step w w' → api_inv w.1 ∧ cache_inv w.1.1 w.2 → api_inv w'.1 ∧ cache_inv w'.1.1 w'.2.
Proof.
  intros Hstep [Hinv Hc]. destruct Hstep as [x y c Hstep|store id x c Hst|key x c]; simpl in *.
  - split; [by eapply api_inv_step|]. intros key t Hk. destruct (Hc _ _ Hk) as (store&id&m&->&Hp&(tm&entry&Htm&Hid&<-)&Hv).
    destruct (api_step_models _ _ _ _ _ _ Hstep Hinv Htm Hid) as (tm'&entry'&?&?&Heq).
    exists store, id, (entry_model entry). split_and!; [done..| |done]. by exists tm', entry'.
  - split; [done|by apply cache_inv_resolve].
  - split; [done|]. intros k t [_ Hk]%lookup_delete_Some. by apply Hc.
Qed.

Lemma world_inv w w' : rtc world_step w w' → api_inv w.1 ∧ cache_inv w.1.1 w.2 → api_inv w'.1 ∧ cache_inv w'.1.1 w'.2.
Proof. induction 1 as [|x y z Hxy _ IH]; [done|]. intros Hx. by apply IH, (world_inv_step x). Qed.

Lemma world_inv_init a b e : api_inv (Memory.New a b, e) ∧ cache_inv (Memory.New a b) ∅.
Proof. split; [apply api_inv_init|]. intros key t. by rewrite lookup_empty. Qed.

(** What a resolution answers: the validated model that the store has under the id, or as
    its latest. *)
Definition resolution_ok (s : MemoryBackend) (store id : string) (o : outcome ResolverErr TypeSystem) : Prop :=
  match o with
  | Ret t => ∃ id' m, model_at s store id' m ∧ NewAndValidate m = Ret t ∧
      (if id =s "" then FindLatestAuthorizationModel s store = Ret m else id' = id)
  | Throw e => e = ErrModelNotFound
  | Panic _ => False
  end.

Lemma resolution x c store id :
  has_byte "/" store = false → api_inv x → cache_inv x.1 c → resolution_ok x.1 store id (MemoizedTypesystemResolverFunc x.1 c store id).1.
Proof.
  intros Hst Hinv Hc. unfold MemoizedTypesystemResolverFunc, resolution_ok. pose proof (latest_or_id_cases x store id Hinv) as Hl.
  destruct (latest_or_id x.1 store id) as [[model id']|e|w] eqn:Hlo; [|done..]. destruct Hl as [Hp Hmodel].
  assert (∀ m, model_at x.1 store id' m → if id =s "" then FindLatestAuthorizationModel x.1 store = Ret m else id' = id) as Hlatest.
  { intros m Hm. destruct model as [m'|]; destruct Hmodel as [Hx1 Hx2].
    - rewrite bool_decide_true by done. rewrite (model_at_unique _ _ _ _ _ Hm Hx2).
      unfold latest_or_id in Hlo. rewrite bool_decide_true in Hlo by done.
      destruct (FindLatestAuthorizationModel x.1 store) as [m0|[]|]; simpl in Hlo; [by simplify_eq|done..].
    - by rewrite bool_decide_false. }
  destruct (c !! _) as [item|] eqn:Hhit; simpl.
  { destruct (cache_hit x.1 c store id' item Hc Hst Hhit) as (m&Hm&Hv). exists id', m. split_and!; [done..|by apply Hlatest]. }
  pose proof (load_cases x store id' model Hinv (parsed_nonempty _ Hp) ltac:(by destruct model; [destruct Hmodel|])) as Hload.
  destruct (load x.1 store id' model) as [t|e|w]; simpl; [|done..]. destruct Hload as (m&Hm&Hv).
  exists id', m. split_and!; [done..|by apply Hlatest].
Qed.

(** C12: the cache of validated models is transparent.  In every state of a server that was
    started empty, after any commands, resolutions and evictions, the resolver answers with
    the cache what it would answer without: the validated form of the model that the store
    has under the id, or of its latest model, and that there is no such model otherwise; a
    stored model is never found to be invalid.  The models of the stores are taken to have
    type definitions and the ids of stores to have no slash, as the generated validation
    of the requests demands. *)
Theorem Resolver_transparent (a b : option Z) (e0 e : entropy) (s : MemoryBackend) (c : gmap string TypeSystem) (store id : string) :
  rtc world_step (Memory.New a b, e0, ∅) (s, e, c) → has_byte "/" store = false →
  (∀ store' id' m, model_at s store' id' m → am_TypeDefinitions m ≠ []) →
  (MemoizedTypesystemResolverFunc s c store id).1 = (MemoizedTypesystemResolverFunc s ∅ store id).1 ∧
  resolution_ok s store id (MemoizedTypesystemResolverFunc s c store id).1.
Proof.
  intros Hr Hst Htyped. destruct (world_inv _ _ Hr (world_inv_init a b e0)) as [Hinv Hc]. simpl in Hinv, Hc.
  split; [|by apply (resolution (s, e))]. unfold MemoizedTypesystemResolverFunc.
  pose proof (latest_or_id_cases (s, e) store id Hinv) as Hl. simpl in Hl.
  destruct (latest_or_id s store id) as [[model id']|err|w]; [|done..]. destruct Hl as [Hp Hmodel].
  rewrite lookup_empty. destruct (c !! _) as [t|] eqn:Hhit; [|by destruct (load s store id' model)].
  destruct (cache_hit s c store id' t Hc Hst Hhit) as (m&Hm&Hv).
  assert (load s store id' model = Ret t) as ->; [|done]. unfold load. destruct model as [m'|].
  - destruct Hmodel as [_ Hm']. rewrite (model_at_unique _ _ _ _ _ Hm' Hm). simpl. by rewrite Hv.
  - assert (ReadAuthorizationModel s store id' = Ret m) as ->; [|simpl; by rewrite Hv].
    apply ReadAuthorizationModel_by_id; [by apply parsed_nonempty|]. pose proof (Htyped _ _ _ Hm) as Htd.
    destruct Hm as (tm&entry&Hx1&Hx2&Hx3). by exists tm, entry.
Qed.

(** ** Checks by the server *)

Context `{!Scheduler, !GraphLaws, !SortSlice, !SortTupleKeys}.
Context (fast : ∀ I, FastScheduler I) (recursive : RecursiveScheduler).
Context (conds : TypeSystem → gmap string EvaluableCondition) (sel : TypeSystem → FastPathSelection) (maxResolutionDepth : Z).

(** The resolver that the server is configured with, without caches: the local checker over
    the datastore, with the fast paths that the type system selects. *)
Definition server_resolver (s : MemoryBackend) (typesys : TypeSystem) :=
  @local_resolver _ _ _ _ (memory_Reader s) (memory_Runtime fast recursive s) typesys (conds typesys) (sel typesys) maxResolutionDepth.

(** The tuples that a request sees. *)
Definition visible (s : MemoryBackend) (req : CheckRequest) : list Tuple :=
  contextual_tuples (NewCombinedTupleReader (cr_ContextualTuples req)) ++ (AsTuple <$> store_tuples s (cr_StoreId req)).

(** What remains to be assumed of a model that was validated, and of the configuration. *)
Record configured (typesys : TypeSystem) : Prop := {
  cf_refs : refs_named typesys;
  cf_positive : positive_model typesys;
  cf_conds : conds_compiled (conds typesys);
  cf_depth : 0 ≤ maxResolutionDepth < 2^32;
}.

Lemma NewAndValidate_modelID m t : NewAndValidate m = Ret t → modelID t = am_Id m.
Proof.
  intros Hv. assert (Typesystem.New m = Ret t) as HN by by apply model_New.
  unfold Typesystem.New in HN. destruct (foldl _ _ _) as [[tds rels] ttus]. destruct (NewAuthorizationModelGraph m) as [g|]; [|done].
  by destruct (if negb (IsListObjectsDirection g) then _ else _) as [g'| |]; simplify_eq/=.
Qed.

Lemma server_setting_world s e store id m t :
  api_inv (s, e) → model_at s store id m → NewAndValidate m = Ret t → configured t → store ≠ "" →
  ∃ Hb : backend_inv s,
    @server_setting _ _ _ _ (memory_Reader s) store (memory_ReaderSpec s Hb store) (memory_Runtime fast recursive s) m t (conds t) maxResolutionDepth.
Proof.
  intros Hinv Hat Hv [Hx1 Hx2 Hx3 Hx5] Hne. destruct (model_at_id (s, e) _ _ _ Hinv Hat) as (Hid&Hp&_).
  destruct (ai_machine _ Hinv) as [Hb _]. exists Hb. split; try done.
  - rewrite (NewAndValidate_modelID _ _ Hv), Hid. by apply parsed_nonempty.
  - apply memory_sorted_reads.
  - intros tu (r&->&Hin)%list_elem_of_fmap. rewrite AsTuple_User by by eapply store_wf.
    apply (ai_tuples _ Hinv store (rec_key r)), elem_of_tuple_set. by exists r.
Qed.

(** The model that a request asks for. *)
Definition requested (s : MemoryBackend) (store modelId id : string) (m : AuthorizationModel) : Prop :=
  model_at s store id m ∧ if modelId =s "" then FindLatestAuthorizationModel s store = Ret m else id = modelId.

(** C6: Check, end to end.  On a server that was started empty, after any history of
    commands, model resolutions and cache evictions, a Check request that is answered is
    answered for the validated model that its store has under the requested id (the latest
    one if it names none), and allowed exactly if the user has the relation through the
    tuples of the store and of the request; otherwise the error is that of authorization or
    request validation, says that the store has no such model, or is that of the command.
    It never panics.  The requested model is without exclusion and its restrictions name
    their relations, the fast paths selected are as [paths_ready] asks, the contextual
    tuples are distinct and not stored, and the id of the store has no slash; the stored
    tuples and the validity of the model are established by the commands that wrote them. *)
Theorem Server_Check_exact (a b : option Z) (e0 e : entropy) (s : MemoryBackend) (c : gmap string TypeSystem)
    (authz valid : outcome ServerError unit) (times : string → Z) (req : CheckRequest)
    (tk := TupleKeyWithoutConditionToTupleKey (cr_TupleKey req)) :
  rtc world_step (Memory.New a b, e0, ∅) (s, e, c) →
  (∀ id m t, requested s (cr_StoreId req) (cr_AuthorizationModelId req) id m → NewAndValidate m = Ret t →
     configured t ∧ paths_ready m t (conds t) (visible s req) (cr_Context req) (User tk) (sel t)) →
  cr_StoreId req ≠ "" → has_byte "/" (cr_StoreId req) = false → NoDup (key_of <$> cr_ContextualTuples req) →
  (∀ ct, ct ∈ cr_ContextualTuples req → key_of ct ∉ tuple_set (store_tuples s (cr_StoreId req))) →
  no_panic authz → no_panic valid →
  match (Server_Check authz valid times (server_resolver s) s c req).1 with
  | Ret allowed => ∃ id m t,
      requested s (cr_StoreId req) (cr_AuthorizationModelId req) id m ∧ NewAndValidate m = Ret t ∧
      (allowed = true ↔ ∃ n, granted t (conds t) (visible s req) (cr_Context req) (User tk) n (Object tk) (Relation tk))
  | Throw err =>
      authz = Throw err ∨ valid = Throw err ∨
      (MemoizedTypesystemResolverFunc s c (cr_StoreId req) (cr_AuthorizationModelId req)).1 = Throw ErrModelNotFound ∧
        err = (if cr_AuthorizationModelId req =s "" then SE_LatestAuthorizationModelNotFound (cr_StoreId req)
               else SE_AuthorizationModelNotFound (cr_AuthorizationModelId req)) ∨
      ∃ t e', (MemoizedTypesystemResolverFunc s c (cr_StoreId req) (cr_AuthorizationModelId req)).1 = Ret t ∧
        match e' with
        | InvalidRelationError ve => ValidateUserObjectRelation t tk = Throw ve
        | CmdInvalidTupleError ve => ∃ ct, ct ∈ cr_ContextualTuples req ∧ ValidateTupleForWrite t ct = Throw ve
        | CmdKeyError _ => forallb kinded_tuple (cr_ContextualTuples req) && kinded_struct (cr_Context req) = false
        | CmdResolveError re => fuel_free re
        | _ => False
        end ∧ err = CheckCommandErrorToServerError e'
  | Panic _ => False
  end.
Proof.
  intros Hr Hconf Hne Hst Hnd Hfresh Hna Hnv. destruct (world_inv _ _ Hr (world_inv_init a b e0)) as [Hinv Hc]. simpl in Hinv, Hc.
  unfold Server_Check. destruct authz as [[]|err|w]; simpl; [|by left|done]. destruct valid as [[]|err|w]; simpl; [|by right; left|done].
  unfold resolveTypesystem. pose proof (resolution (s, e) c (cr_StoreId req) (cr_AuthorizationModelId req) Hst Hinv Hc) as Hres. simpl in Hres.
  unfold resolution_ok in Hres.
  destruct (MemoizedTypesystemResolverFunc s c (cr_StoreId req) (cr_AuthorizationModelId req)) as [o c'] eqn:Ho. simpl in *.
  destruct o as [t|err|w]; simpl; [|rewrite Hres; by right; right; left|done].
  destruct Hres as (id&m&Hat&Hv&Hwhich). destruct (Hconf id m t (conj Hat Hwhich) Hv) as [Hcf Hready].
  destruct (server_setting_world s e (cr_StoreId req) id m t Hinv Hat Hv Hcf Hne) as (Hb&Hset).
  set (params := mkCheckCommandParams _ _ _ _ _).
  assert (command_answer (cr_StoreId req) (RelationshipTupleReaderSpec0 := memory_ReaderSpec s Hb (cr_StoreId req)) t (conds t) params
    (CheckQuery_Execute t times (server_resolver s t) params)) as Hans.
  { eapply CheckQuery_Execute_exact; [exact Hset| |done]. eapply local_resolver_serves; [exact Hset|apply Hcf| |exact Hready].
    split; [done|]. intros ct Hct Hin. apply (Hfresh ct Hct). apply list_elem_of_fmap in Hin as (tu&->&(r&->&Hin)%list_elem_of_fmap).
    rewrite AsTuple_key by by eapply (store_wf s Hb). apply elem_of_tuple_set. by exists r. }
  unfold command_answer in Hans.
  destruct (CheckQuery_Execute t times (server_resolver s t) params) as [resp|e'|w]; [|..].
  - exists id, m, t. split_and!; [done..|]. exact Hans.
  - right; right; right. exists t, e'. split; [done|]. split; [|done]. by destruct e'.
  - done.
Qed.
End world.

(** ** A check on the store of [run] *)

Definition no_conditions (t : @TypeSystem demo_Graph) : gmap string (@EvaluableCondition demo_Cel) := ∅.

Abbreviation run_world_step :=
  (@world_step demo_Graph demo_Cel map_to_list_MapRange demo_Compiler counter_Ulid counter_UlidLaws zero_Size).

Lemma run_world_commands x y : rtc run_step x y → rtc run_world_step (x, ∅) (y, ∅).
Proof. induction 1 as [|x y z Hxy _ IH]; [done|]. eapply rtc_l; [by constructor|done]. Qed.

(** The store of [run], after the model was resolved once. *)
Definition run_cache : gmap string (@TypeSystem demo_Graph) :=
  (@MemoizedTypesystemResolverFunc demo_Graph map_to_list_MapRange demo_Compiler counter_Ulid run.1 ∅ "store" "").2.

Lemma run_world : rtc run_world_step (Memory.New None None, (0%N, 0), ∅) (run, run_cache).
Proof. eapply rtc_r; [by apply run_world_commands, run_reachable|]. by apply (world_resolve "store" ""). Qed.

(** The properties of the models of a store that the theorems ask for. *)
Definition models_ok (s : MemoryBackend) (store : string) : bool :=
  match authorizationModels s !! store with
  | Some tm =>
      forallb (λ p : string * AuthorizationModelEntry,
        negb (bool_decide (length (am_TypeDefinitions (entry_model p.2)) = 0%nat)) &&
        match validate (entry_model p.2) with
        | Ret t => forallb (λ rel, forallb named_ref (rel_DirectlyRelatedUserTypes rel)) (all_relations t) &&
                   forallb (λ rel, negb (has_difference (rel_Rewrite rel))) (all_relations t) && names_b t
        | _ => true
        end) (map_to_list tm)
  | None => true
  end.

Definition run_request (id user : string) : CheckRequest :=
  mkCheckRequest "store" id (mkTupleKeyWithoutCondition "doc:1" "viewer" user) [] None false.

Definition run_selection (t : @TypeSystem demo_Graph) : FastPathSelection := no_selection.

Definition run_check (id user : string) : outcome ServerError bool :=
  (@Server_Check demo_Graph demo_Cel map_to_list_MapRange demo_Compiler counter_Ulid insertion_SortTupleKeys (Ret tt) (Ret tt) (λ _, 0)
     (@server_resolver demo_Graph demo_Cel rev_Scheduler stable_SortSlice left_first_Scheduler user_first_Scheduler no_conditions run_selection 25 run.1) run.1 run_cache (run_request id user)).1.

Lemma run_check_facts :
  models_ok run.1 "store" = true ∧ (λ p, p.1) <$> map_to_list (authorizationModels run.1) = ["store"] ∧
  (λ p, p.1) <$> map_to_list run_cache = ["store/1U"] ∧
  run_check "" "user:a" = Ret true ∧ run_check "1U" "user:b" = Ret false ∧
  run_check "11U" "user:a" = Throw (SE_AuthorizationModelNotFound "11U").
Proof. split_and!; vm_compute; reflexivity. Qed.

Lemma run_models store id m :
  model_at run.1 store id m →
  am_TypeDefinitions m ≠ [] ∧
  ∀ t, validate m = Ret t → @configured demo_Graph demo_Cel no_conditions 25 t ∧ names_b t = true.
Proof.
  destruct run_check_facts as (Hok&Hstores&_). intros (tm&entry&Htm&Hid&<-).
  assert (store = "store") as ->.
  { apply elem_of_map_to_list in Htm. apply (list_elem_of_fmap_2 (λ p, p.1)) in Htm. rewrite Hstores in Htm.
    by apply list_elem_of_singleton in Htm. }
  unfold models_ok in Hok. rewrite Htm in Hok. apply elem_of_map_to_list in Hid. apply (forallb_elem _ _ _ Hok) in Hid. simpl in Hid.
  apply andb_true_iff in Hid as [Htd Hv]. split.
  - intros Hnil. by rewrite Hnil in Htd.
  - intros t Ht. rewrite Ht in Hv. rewrite !andb_true_iff in Hv. destruct Hv as [[Hrefs Hpos] Hn].
    split; [|done]. split; [by apply refs_named_decide|by apply positive_decide|done|lia].
Qed.

Lemma Resolver_transparent_witness :
  rtc run_world_step (Memory.New None None, (0%N, 0), ∅) (run, run_cache) ∧
  (@MemoizedTypesystemResolverFunc demo_Graph map_to_list_MapRange demo_Compiler counter_Ulid run.1 run_cache "store" "1U").1 =
  (@MemoizedTypesystemResolverFunc demo_Graph map_to_list_MapRange demo_Compiler counter_Ulid run.1 ∅ "store" "1U").1.
Proof.
  split; [exact run_world|].
  refine (proj1 (@Resolver_transparent demo_Graph demo_Cel map_to_list_MapRange demo_Compiler counter_Ulid counter_UlidLaws zero_Size
    eq_refl None None (0%N, 0) run.2 run.1 run_cache "store" "1U" _ eq_refl _)).
  - rewrite <-surjective_pairing. exact run_world.
  - intros store id m Hm. exact (proj1 (run_models store id m Hm)).
Defined.

Lemma Server_Check_exact_witness :
  ∃ t n, @granted demo_Graph demo_Cel t ∅ (@visible stable_SortSlice run.1 (run_request "" "user:a")) None "user:a" n "doc:1" "viewer".
Proof.
  pose proof (@Server_Check_exact demo_Graph demo_Cel map_to_list_MapRange demo_Compiler counter_Ulid counter_UlidLaws zero_Size
    eq_refl rev_Scheduler demo_GraphLaws stable_SortSlice insertion_SortTupleKeys left_first_Scheduler user_first_Scheduler
    no_conditions run_selection 25
    None None (0%N, 0) run.2 run.1 run_cache (Ret tt) (Ret tt) (λ _, 0) (run_request "" "user:a")) as Hex.
  destruct run_check_facts as (_&_&_&Hres&_). unfold run_check in Hres. rewrite Hres in Hex.
  destruct Hex as (id&m&t&_&_&Hgr).
  - rewrite <-surjective_pairing. exact run_world.
  - intros id m t [Hat _] Hv. destruct (proj2 (run_models "store" id m Hat) t Hv) as [Hcf Hn]. split; [exact Hcf|].
    exact (@no_selection_ready demo_Graph demo_Cel map_to_list_MapRange demo_Compiler _ _ _ _ _ _ Hn).
  - discriminate.
  - reflexivity.
  - constructor.
  - intros ct Hct. destruct (not_elem_of_nil ct Hct).
  - exact I.
  - exact I.
  - destruct Hgr as [Hgr _]. destruct (Hgr eq_refl) as [n Hn]. exists t, n. exact Hn.
Defined.
