(* ===== verification/ListUsersCommand.v ===== *)
(** * The ListUsers API: [pkg/server/commands/listusers/validate.go] and [pkg/server/list_users.go]

    The validation of a request, the handler from the model of the request to the status
    errors, and what a request to a server with any history answers.  The query reads the
    contextual tuples of the request in front of the datastore, as [NewListUsersQuery] sets
    it up with [NewRequestStorageWrapper].  Worked queries, and models with exclusion on which
    the query lists users that Check denies. *)

From S2P Require Import Prelude GoStd Tuple CacheKeys Iterators Model Memory MemorySpec Typesystem Entrypoints TypesystemSpec.
From S2P Require Import Condition Validation ValidationSpec Check CheckSpec CheckSemantics CheckExact CheckMemory CombinedReader.
From S2P Require Import RelationshipGraph ReverseExpand ReverseExpandSpec ServerErrors CheckCommand WriteCommands Server.
From S2P Require Import ListUsers ListUsersSpec.

Local Open Scope Z_scope.
Local Open Scope go_scope.

(** ** Validation *)

Section validate.
Context `{!ModelGraph, !Cel} (typesys : TypeSystem).

Fixpoint validateContextualTuples (tuples : list TupleKey) : outcome ServerError unit :=
  match tuples with
  | [] => Ret tt
  | contextualTuple :: rest =>
      match ValidateTupleForWrite typesys contextualTuple with
      | Throw e => Throw (HandleTupleValidateError e)
      | Panic w => Panic w
      | Ret _ => validateContextualTuples rest
      end
  end.

Definition validateUserFilterRelation (usersFilter : UserTypeFilter) (filterObjectType : string) : outcome ServerError unit :=
  let filterObjectRelation := uf_Relation usersFilter in
  if filterObjectRelation =s "" then Ret tt
  else match GetRelation typesys filterObjectType filterObjectRelation with
       | Ret _ => Ret tt
       | Throw (RelationUndefinedError _ _) => Throw (SE_RelationNotFound filterObjectRelation filterObjectType)
       | Throw _ => Throw SE_Internal
       | Panic w => Panic w
       end.

Definition validateUserFilter (usersFilter : UserTypeFilter) : outcome ServerError unit :=
  let filterObjectType := uf_Type usersFilter in
  match GetTypeDefinition typesys filterObjectType with
  | None => Throw (SE_TypeNotFound filterObjectType)
  | Some _ => validateUserFilterRelation usersFilter filterObjectType
  end.

Fixpoint validateUsersFilters (filters : list UserTypeFilter) : outcome ServerError unit :=
  match filters with
  | [] => Ret tt
  | userFilter :: rest => let! _ := validateUserFilter userFilter in validateUsersFilters rest
  end.

Definition validateTargetRelation (req : ListUsersRequest) : outcome ServerError unit :=
  let objectType := (lu_Object req).1 in
  let targetRelation := lu_Relation req in
  match GetRelation typesys objectType targetRelation with
  | Ret _ => Ret tt
  | Throw (ObjectTypeUndefinedError _) => Throw (SE_TypeNotFound objectType)
  | Throw (RelationUndefinedError _ _) => Throw (SE_RelationNotFound targetRelation objectType)
  | Throw _ => Throw SE_Internal
  | Panic w => Panic w
  end.

Definition ValidateListUsersRequest (req : ListUsersRequest) : outcome ServerError unit :=
  let! _ := validateContextualTuples (lu_ContextualTuples req) in
  let! _ := validateUsersFilters (lu_UserFilters req) in
  validateTargetRelation req.
End validate.

(** ** Errors *)

(** [errors.Is] of a joined error with one of the sentinels. *)
Definition lu_Is (target : LuErr → bool) (err : LuError) : bool := existsb target err.

(** [HandleError] on the errors of the query. *)
Definition handle_query_error (err : LuError) : ServerError :=
  if lu_Is (λ e, match e with LuDatastore ErrTransactionThrottled => true | _ => false end) err then SE_TransactionThrottled
  else if lu_Is (λ e, match e with LuContext ContextCanceled => true | _ => false end) err then SE_RequestCancelled
  else if is_deadline err then SE_RequestDeadlineExceeded
  else if lu_Is (λ e, match e with LuDatastore ErrInvalidStartTime => true | _ => false end) err then SE_InvalidStartTime
  else if lu_Is (λ e, match e with LuDatastore ErrInvalidContinuationToken => true | _ => false end) err then SE_InvalidContinuationToken
  else SE_Internal.

(** The switch of the handler. *)
Definition query_server_error (err : LuError) : ServerError :=
  if lu_Is (λ e, match e with LuResolutionDepthExceeded => true | _ => false end) err then SE_AuthorizationModelResolutionTooComplex
  else if lu_Is (λ e, match e with LuCondition e => cond_evaluation_failed e | _ => false end) err then SE_ValidationError
  else handle_query_error err.

(** ** The handler *)

Section handler.
Context `{!ModelGraph, !Cel, !MapRange, !ConditionCompiler, !Ulid, !SortSlice, !ListUsersSchedule}.

(** [ListUsers] of the server; [authz] and [valid] as for the other handlers, [conds] the
    conditions of a type system. *)
Definition Server_ListUsers (authz valid : outcome ServerError unit) (conds : TypeSystem → gmap string EvaluableCondition)
    (resolveNodeLimit maxResults : Z) (race : QueryRace)
    (s : MemoryBackend) (cache : gmap string TypeSystem) (authorizationModelId : string) (req : ListUsersRequest)
  : outcome ServerError (list UserProto) * gmap string TypeSystem :=
  match valid, authz with
  | Ret _, Ret _ =>
      let '(typesys, cache) := resolveTypesystem s cache (lu_StoreId req) authorizationModelId in
      (let! typesys := typesys in
       let! _ := ValidateListUsersRequest typesys req in
       let datastore := @combined_Reader (memory_Reader s) (NewCombinedTupleReader (lu_ContextualTuples req)) in
       match @ListUsers _ _ _ _ datastore typesys (conds typesys) resolveNodeLimit maxResults race req with
       | Ret users => Ret users
       | Throw err => Throw (query_server_error err)
       | Panic w => Panic w
       end, cache)
  | Ret _, Throw e | Throw e, _ => (Throw e, cache)
  | Ret _, Panic w | Panic w, _ => (Panic w, cache)
  end.
End handler.

(** ** What the API promises *)

Section spec.
Context `{!ModelGraph, !Cel, !MapRange, !ConditionCompiler, !Ulid, !UlidLaws, !ProtoSize, !SortSlice, !ListUsersSchedule}.
Hypothesis Hempty : ulid_Parse "" = None.
Context (conds : TypeSystem → gmap string EvaluableCondition) (resolveNodeLimit : Z).

(** What remains to be assumed of a model that was validated, and of the configuration. *)
Record lu_configured (typesys : TypeSystem) : Prop := {
  lcf_refs : refs_named typesys;
  lcf_names : names_plain typesys;
  lcf_positive : positive_model typesys;
  lcf_conds : conds_compiled (conds typesys);
}.

(** The tuples that a request sees. *)
Definition lu_visible (s : MemoryBackend) (req : ListUsersRequest) : list Tuple :=
  contextual_tuples (NewCombinedTupleReader (lu_ContextualTuples req)) ++ (AsTuple <$> store_tuples s (lu_StoreId req)).

(** A request as the generated validation lets it in: one filter, for the objects of a type,
    and a well-formed object. *)
Definition lu_request_valid (req : ListUsersRequest) (f : UserTypeFilter) : Prop :=
  lu_UserFilters req = [f] ∧ uf_Type f ≠ "" ∧ uf_Relation f = "" ∧
  object_ok (ObjectKey (lu_Object req)) ∧ has_byte ":" (lu_Object req).1 = false.

Lemma validateContextualTuples_Ret typesys tuples :
  validateContextualTuples typesys tuples = Ret tt → validate_contextual typesys tuples = Ret tt.
Proof.
  induction tuples as [|tk l IH]; simpl; [done|]. by destruct (ValidateTupleForWrite typesys tk).
Qed.

Lemma validated_target typesys req :
  ValidateListUsersRequest typesys req = Ret tt →
  validate_contextual typesys (lu_ContextualTuples req) = Ret tt ∧
  ∃ rel, GetRelation typesys (lu_Object req).1 (lu_Relation req) = Ret rel.
Proof.
  unfold ValidateListUsersRequest. destruct (validateContextualTuples _ _) as [[]| |] eqn:E; simpl; [|done..].
  destruct (validateUsersFilters _ _) as [[]| |]; simpl; [|done..]. intros Ht. split; [by apply validateContextualTuples_Ret|].
  unfold validateTargetRelation in Ht. destruct (GetRelation typesys _ _) as [rel|e|w]; [by exists rel| |done]. by destruct e.
Qed.

Lemma ValidateListUsersRequest_no_panic typesys req w : ValidateListUsersRequest typesys req ≠ Panic w.
Proof.
  unfold ValidateListUsersRequest.
  assert (∀ l w, validateContextualTuples typesys l ≠ Panic w) as Hc.
  { induction l as [|tk l IH]; intros w'; simpl; [done|]. pose proof (ValidateTupleForWrite_no_panic typesys tk) as Hn.
    by destruct (ValidateTupleForWrite typesys tk). }
  assert (∀ l w, validateUsersFilters typesys l ≠ Panic w) as Hf.
  { induction l as [|uf l IH]; intros w'; simpl; [done|]. unfold validateUserFilter, validateUserFilterRelation.
    destruct (GetTypeDefinition typesys _); simpl; [|done]. case_bool_decide; simpl; [apply IH|].
    destruct (GetRelation typesys _ _) as [|e|] eqn:E; simpl; [apply IH|by destruct e|by apply GetRelation_no_panic in E]. }
  destruct (validateContextualTuples _ _) as [[]| |] eqn:E; simpl; [|done|by apply Hc in E].
  destruct (validateUsersFilters _ _) as [[]| |] eqn:Ef; simpl; [|done|by apply Hf in Ef].
  unfold validateTargetRelation. destruct (GetRelation typesys _ _) as [|e|] eqn:Er; [done|by destruct e|by apply GetRelation_no_panic in Er].
Qed.

(** The setting of the query, in a state of the server. *)
Lemma lu_setting s e m t req f :
  api_inv (s, e) → NewAndValidate m = Ret t → lu_configured t → lu_request_valid req f → resolveNodeLimit < 2^32 →
  NoDup (key_of <$> lu_ContextualTuples req) →
  (∀ ct, ct ∈ lu_ContextualTuples req → key_of ct ∉ tuple_set (store_tuples s (lu_StoreId req))) →
  ValidateListUsersRequest t req = Ret tt →
  ∃ Hspec : @RelationshipTupleReaderSpec (@combined_Reader (memory_Reader s) (NewCombinedTupleReader (lu_ContextualTuples req))) (lu_StoreId req),
    @stored _ _ Hspec = lu_visible s req ∧
    @list_users_setting _ _ _ _ m t (conds t) resolveNodeLimit _ (lu_StoreId req) Hspec req f.
Proof.
  intros Hinv Hm [Hrefs Hnames _ Hconds] (Hf&Hty&Hre&Ho&Hc) Hl Hnd Hfresh (Hctx&Htarget)%validated_target.
  destruct (ai_machine _ Hinv) as [Hb _]. set (R := memory_ReaderSpec s Hb (lu_StoreId req)).
  assert (contextual_ok (NewCombinedTupleReader (lu_ContextualTuples req)) (@stored _ _ R)) as Hok.
  { eapply contextual_ok_new; [exact Hm|exact Hctx|]. split; [done|].
    intros ct Hct Hin. apply (Hfresh ct Hct). apply list_elem_of_fmap in Hin as (tu&->&(r&->&Hin)%list_elem_of_fmap).
    rewrite AsTuple_key by by eapply (store_wf s Hb). apply elem_of_tuple_set. by exists r. }
  exists (combined_ReaderSpec (lu_StoreId req) _ Hok). split; [done|]. split; try done.
  intros tu [Htu|Htu]%elem_of_app; [by destruct (ct_users _ _ Hok tu Htu)|].
  apply list_elem_of_fmap in Htu as (r&->&Hin). rewrite AsTuple_User by by eapply (store_wf s Hb).
  apply (ai_tuples _ Hinv (lu_StoreId req) (rec_key r)), elem_of_tuple_set. by exists r.
Qed.

End spec.
