(* ===== verification/ListUsersMemory.v ===== *)
(** * ListUsers over the in-memory datastore

    Schedules to run queries with, witnesses of the theorems of [ListUsersSpec.v] and
    [ListUsersCommand.v], and models with exclusion on which ListUsers and Check disagree. *)

From S2P Require Import Prelude GoStd Tuple CacheKeys Iterators Model Memory MemorySpec Typesystem Entrypoints TypesystemSpec.
From S2P Require Import Condition Validation ValidationSpec Check CheckSpec CheckSemantics CheckExact CheckMemory CombinedReader.
From S2P Require Import RelationshipGraph ReverseExpand ReverseExpandSpec ReverseExpandMemory ServerErrors CheckCommand WriteCommands Server.
From S2P Require Import ListUsers ListUsersSpec ListUsersCommand.

Local Open Scope Z_scope.
Local Open Scope go_scope.

(** ** Schedules *)

(** Messages in the order of their tasks; a context that is done changes nothing. *)
Definition in_order : ListUsersSchedule := {|
  interleave _ l := concat l;
  interleave_perm _ l := Permutation_refl (concat l);
  first_failure _ := O;
  reached _ _ := true;
  survive _ l := l;
  survive_sub _ l x Hx := Hx;
  cut_short _ _ l := (l, []);
  cut_short_sub _ _ l x Hx := Hx;
  cut_short_deadline _ _ _ Hd := match Bool.diff_false_true Hd with end;
|}.

Lemma concat_rev_perm {A} (l : list (list A)) : concat (rev l) ≡ₚ concat l.
Proof.
  induction l as [|x l IH]; [done|]. cbn [rev concat]. rewrite concat_app. cbn [concat]. rewrite app_nil_r, IH. apply Permutation_app_comm.
Qed.

(** The messages of the last task arrive first. *)
Definition last_first : ListUsersSchedule := {|
  interleave _ l := concat (rev l);
  interleave_perm _ l := concat_rev_perm l;
  first_failure _ := O;
  reached _ _ := true;
  survive _ l := l;
  survive_sub _ l x Hx := Hx;
  cut_short _ _ l := (l, []);
  cut_short_sub _ _ l x Hx := Hx;
  cut_short_deadline _ _ _ Hd := match Bool.diff_false_true Hd with end;
|}.

(** The context is done before the read at one position, and the read fails. *)
Definition cut_at (at_ : position) (p : position) (e : CtxErr) (l : list TupleKey) : list TupleKey * LuError :=
  if bool_decide (p = at_) then ([], [LuContext e]) else (l, []).

Lemma cut_at_sub at_ p e l : (cut_at at_ p e l).1 ⊆ l.
Proof. unfold cut_at. case_bool_decide; [apply list_subseteq_nil|done]. Qed.

Lemma cut_at_deadline at_ p e l : is_deadline (cut_at at_ p e l).2 = true → e = ContextDeadlineExceeded.
Proof. unfold cut_at. case_bool_decide; [|done]. by destruct e. Qed.

Definition late_at (at_ : position) : ListUsersSchedule := {|
  interleave _ l := concat l;
  interleave_perm _ l := Permutation_refl (concat l);
  first_failure _ := O;
  reached _ _ := true;
  survive _ l := l;
  survive_sub _ l x Hx := Hx;
  cut_short p e l := cut_at at_ p e l;
  cut_short_sub p e l := cut_at_sub at_ p e l;
  cut_short_deadline p e l := cut_at_deadline at_ p e l;
|}.

Definition users_request (relation : string) (f : UserTypeFilter) : ListUsersRequest :=
  mkListUsersRequest "store" ("doc", "1") relation [f] [] None.

Definition user_filter : UserTypeFilter := mkUserTypeFilter "user" "".

Definition in_time : QueryRace := mkQueryRace false false false.

Definition demo_users (sched : ListUsersSchedule) (race : QueryRace) (t : @TypeSystem demo_Graph) (writes : list TupleKey) (relation : string)
  : outcome LuError (list UserProto) :=
  @ListUsers demo_Graph demo_Cel map_to_list_MapRange sched (memory_Reader (backend_with writes)) t ∅ 25 0 race (users_request relation user_filter).

(** ** Exclusions *)

(** type doc with a, b, c, d and member: [user, user:*], open: a but not b, shut: c but not d,
    twice: open but not c, viewer: open but not shut, both: open and member; type group with
    blocked: [user] and member: [user] but not blocked; doc also has reader: [group#member]. *)
Definition exclusion_model : AuthorizationModel :=
  let users := [DirectRelationReference "user" ""; WildcardRelationReference "user"] in
  mkAuthorizationModel "model" "1.1"
    [mkTypeDefinition "user" ∅ ∅;
     mkTypeDefinition "group" (<["blocked" := This]> {["member" := Difference This (ComputedUserset "blocked")]})
       (<["blocked" := [DirectRelationReference "user" ""]]> {["member" := [DirectRelationReference "user" ""]]});
     mkTypeDefinition "doc"
       (<["a" := This]> (<["b" := This]> (<["c" := This]> (<["d" := This]> (<["member" := This]> (<["reader" := This]>
        (<["open" := Difference (ComputedUserset "a") (ComputedUserset "b")]>
        (<["shut" := Difference (ComputedUserset "c") (ComputedUserset "d")]>
        (<["twice" := Difference (ComputedUserset "open") (ComputedUserset "c")]>
        (<["both" := Intersection [ComputedUserset "open"; ComputedUserset "member"]]>
         {["viewer" := Difference (ComputedUserset "open") (ComputedUserset "shut")]}))))))))))
       (<["a" := users]> (<["b" := users]> (<["c" := users]> (<["d" := users]> (<["member" := users]>
         {["reader" := [DirectRelationReference "group" "member"]]})))))] ∅.

Definition doc (relation user : string) : TupleKey := NewTupleKey "doc:1" relation user.

(** The users listed in a relation, and what Check answers for user:jon. *)
Definition listed_and_checked (sched : ListUsersSchedule) (race : QueryRace) (t : @TypeSystem demo_Graph) (writes : list TupleKey) (relation : string)
  : outcome LuError (list UserProto) * checkOutcome :=
  (demo_users sched race t writes relation, demo_check id_Scheduler t writes (doc relation "user:jon")).

Definition denied : checkOutcome := Ret (mkResolveCheckResponse false false).

(** With exclusions ListUsers can list users that do not have the relation, and that
    Check denies.  A user that the base of an exclusion excludes and the subtracted operand
    excludes too is listed; where the base holds the wildcard and excludes a user, an outer
    exclusion that does not mention the user lists it; and in an intersection the wildcard of
    an operand counts for a user that this operand excludes. *)
Theorem ListUsers_lists_excluded :
  match validate exclusion_model with
  | Ret t =>
      listed_and_checked in_order in_time t [doc "a" "user:jon"; doc "b" "user:jon"; doc "c" "user:jon"; doc "d" "user:jon"] "viewer"
        = (Ret [User_Object "user" "jon"], denied) ∧
      listed_and_checked in_order in_time t [doc "a" "user:*"; doc "b" "user:jon"] "twice"
        = (Ret [User_Object "user" "jon"; User_Wildcard "user"], denied) ∧
      listed_and_checked in_order in_time t [doc "a" "user:*"; doc "b" "user:jon"; doc "member" "user:jon"] "both"
        = (Ret [User_Object "user" "jon"], denied)
  | _ => False
  end.
Proof. vm_compute. by split_and!. Qed.

(** A user that has the relation through one userset can be missing because another
    userset excludes it: the last message about a user wins, so the answer depends on the
    order in which concurrent expansions send theirs. *)
Theorem ListUsers_depends_on_order :
  let writes := [doc "reader" "group:1#member"; doc "reader" "group:2#member";
                 NewTupleKey "group:1" "member" "user:jon"; NewTupleKey "group:1" "blocked" "user:jon";
                 NewTupleKey "group:2" "member" "user:jon"] in
  match validate exclusion_model with
  | Ret t =>
      listed_and_checked in_order in_time t writes "reader" = (Ret [User_Object "user" "jon"], Ret (mkResolveCheckResponse true false)) ∧
      listed_and_checked last_first in_time t writes "reader" = (Ret [], Ret (mkResolveCheckResponse true false))
  | _ => False
  end.
Proof. vm_compute. by split_and!. Qed.

(** The partial results of a query whose deadline passes can hold a user that is
    subtracted: when the read of the subtracted operand is the one that the deadline cuts
    off, the users of the base are still sent. *)
Theorem ListUsers_deadline_lists_subtracted :
  match validate exclusion_model with
  | Ret t =>
      listed_and_checked (late_at [0; 0; 1; 0]%nat) (mkQueryRace true true false) t [doc "a" "user:jon"; doc "b" "user:jon"] "open"
        = (Ret [User_Object "user" "jon"], denied)
  | _ => False
  end.
Proof. vm_compute. reflexivity. Qed.

(** ** Exact queries *)

(** The users of doc:1 in the model of groups: user:x through two groups that contain each
    other, user:y through a folder. *)
Lemma group_users_facts :
  match validate group_model with
  | Ret t => demo_search_ok t group_tuples "user:x" "doc" "viewer" = true ∧
      forallb (λ rel, negb (has_difference (rel_Rewrite rel))) (all_relations t) = true ∧
      demo_users last_first in_time t group_tuples "viewer" = Ret [User_Object "user" "y"; User_Object "user" "x"]
  | _ => False
  end.
Proof. vm_compute. by split_and!. Qed.

Lemma demo_users_setting m t writes relation (Hw : forallb complete_b writes = true) :
  validate m = Ret t → demo_search_ok t writes "user:x" "doc" relation = true →
  @list_users_setting demo_Graph demo_Cel map_to_list_MapRange demo_Compiler m t ∅ 25 (memory_Reader (backend_with writes)) "store"
    (memory_ReaderSpec _ (backend_with_inv writes Hw) "store") (users_request relation user_filter) user_filter.
Proof.
  intros Hm Hok. destruct (demo_search_setting m t writes "user:x" "doc" relation Hm Hok). split; try done.
  split; [|done]. by apply object_ok_decide.
Qed.

Lemma ListUsers_exact_witness :
  match validate group_model with
  | Ret t =>
      let has user := ∃ n, @granted demo_Graph demo_Cel t ∅ (AsTuple <$> store_tuples (backend_with group_tuples) "store") None
                             user n "doc:1" "viewer" in
      has "user:y" ∧ ¬ has "user:z"
  | _ => False
  end.
Proof.
  pose proof group_users_facts as Hf. destruct (validate group_model) as [t| |] eqn:E; [|exact Hf..].
  destruct Hf as (Hok&Hpos&Hres).
  pose proof (@ListUsers_exact demo_Graph demo_Cel map_to_list_MapRange demo_Compiler last_first group_model t ∅ 25
    (memory_Reader (backend_with group_tuples)) "store"
    (memory_ReaderSpec _ (backend_with_inv group_tuples group_tuples_complete) "store")
    (users_request "viewer" user_filter) user_filter 0 in_time
    (demo_users_setting _ _ _ _ group_tuples_complete E Hok) (positive_decide _ Hpos)) as Hex.
  unfold demo_users in Hres. rewrite Hres in Hex. destruct Hex as (_&_&Hsound&Hcomplete). clear E Hok Hpos Hres. split.
  - destruct (Hsound _ (list_elem_of_here _ _)) as (u&Heq&Hu&Hg).
    destruct (filter_user_string user_filter ltac:(discriminate) u Hu) as (_&_&Hp).
    unfold printable in Hp. rewrite <-Heq in Hp. vm_compute in Hp. rewrite Hp. exact Hg.
  - intros Hg. destruct (Hcomplete eq_refl ltac:(intros [Hlt _]; vm_compute in Hlt; discriminate) "user:z" ltac:(by vm_compute) Hg) as [Hin|Hin];
      rewrite !elem_of_cons, elem_of_nil in Hin; destruct Hin as [Hin|[Hin|[]]]; vm_compute in Hin; discriminate Hin.
Defined.

Definition run_users_request : ListUsersRequest := mkListUsersRequest "store" ("doc", "1") "viewer" [user_filter] [] None.

Definition run_users : outcome ServerError (list UserProto) :=
  (@Server_ListUsers demo_Graph demo_Cel map_to_list_MapRange demo_Compiler counter_Ulid stable_SortSlice in_order (Ret tt) (Ret tt)
     no_conditions 25 0 in_time run.1 run_cache "" run_users_request).1.

Definition names_ok (s : MemoryBackend) (store : string) : bool :=
  match authorizationModels s !! store with
  | Some tm => forallb (λ p : string * AuthorizationModelEntry,
      match validate (entry_model p.2) with Ret t => names_plain_b t | _ => true end) (map_to_list tm)
  | None => true
  end.

Lemma run_users_facts : names_ok run.1 "store" = true ∧ run_users = Ret [User_Object "user" "a"].
Proof. split; vm_compute; reflexivity. Qed.

Lemma run_lu_configured id m t : model_at run.1 "store" id m → validate m = Ret t → @lu_configured demo_Graph demo_Cel no_conditions t.
Proof.
  intros Hat Hv. destruct (proj2 (run_models "store" id m Hat) t Hv) as [[Hrefs Hpos _ _] _]. split; [done| |done|done].
  destruct run_users_facts as [Hok _]. destruct Hat as (tm&entry&Htm&Hid&<-). unfold names_ok in Hok. rewrite Htm in Hok.
  apply elem_of_map_to_list in Hid. apply (forallb_elem _ _ _ Hok) in Hid. simpl in Hid. rewrite Hv in Hid. by apply names_plain_decide.
Qed.

