(* ===== verification/CheckReaders.v ===== *)
(** * Check depends on a datastore only through its filtered reads

    Two datastores whose reads, through the validity and condition filters, yield the same
    tuples in the same order get the same answer to every check.  An iterator is only
    asked for its next item, so one that simulates another's [Next] can replace it. *)

From S2P Require Import Prelude GoStd Tuple Iterators Model Memory Typesystem Condition Validation Check.

Local Open Scope go_scope.

(** ** Iterators that yield the same items *)

(** [Next] of related states gives the same outcome and related states. *)
Definition next_sim {S1 S2 T} `{!Iterator S1 T, !Iterator S2 T} (R : S1 → S2 → Prop) : Prop :=
  ∀ s1 s2, R s1 s2 → remaining s1 = remaining s2 ∧
    ∃ o s1' s2', Next None s1 = (o, s1') ∧ Next None s2 = (o, s2') ∧ R s1' s2'.

Section sim.
Context {S1 S2 : Type} `{!Iterator S1 Tuple, !Iterator S2 Tuple} (R : S1 → S2 → Prop).
Hypothesis Hsim : next_sim R.

Definition key_sim (a : tupleKeyIterator S1) (b : tupleKeyIterator S2) : Prop := R (tk_iter a) (tk_iter b).

Lemma tupleKey_sim : next_sim key_sim.
Proof.
  intros a b Hab. destruct (Hsim _ _ Hab) as (Hrem&o&s1&s2&H1&H2&HR). split; [done|].
  eexists _, _, _. simpl. unfold tupleKey_Next. rewrite H1, H2. by split_and!.
Qed.

Lemma filtered_Next_sim (filter : TupleKey → bool) fuel a b :
  key_sim a b →
  match filtered_Next filter fuel None a, filtered_Next filter fuel None b with
  | Some (o, a'), Some (o', b') => o = o' ∧ key_sim a' b'
  | None, None => True
  | _, _ => False
  end.
Proof.
  revert a b. induction fuel as [|fuel IH]; intros a b Hab; [done|]. cbn [filtered_Next].
  destruct (tupleKey_sim _ _ Hab) as (_&o&a'&b'&->&->&HR). destruct o; [|by split..]. destruct (filter a0); [by split|by apply IH].
Qed.

Definition filter_sim (a : filteredTupleKeyIterator (tupleKeyIterator S1) TupleKey)
    (b : filteredTupleKeyIterator (tupleKeyIterator S2) TupleKey) : Prop :=
  key_sim (ft_iter a) (ft_iter b) ∧ ft_filter a = ft_filter b.

Lemma filtered_sim : next_sim filter_sim.
Proof.
  intros [a f s] [b f' s'] [Hab Hf]. simpl in *. subst f'.
  destruct (tupleKey_sim _ _ Hab) as (Hrem&_). split; [done|]. cbn [Next filtered_Iterator].
  unfold filteredTupleKey_Next. cbn [ft_iter ft_filter ft_stopped]. rewrite Hrem.
  pose proof (filtered_Next_sim f (S (remaining b)) a b Hab) as HN.
  destruct (filtered_Next f _ None a) as [[o a']|], (filtered_Next f _ None b) as [[o' b']|]; try done.
  - destruct HN as [-> HR]. eexists _, _, _. split_and!; [done|done|]. by split.
  - eexists _, _, _. split_and!; [done|done|]. by split.
Qed.

Abbreviation conditions1 := (ConditionsFiltered (filteredTupleKeyIterator (tupleKeyIterator S1) TupleKey)).
Abbreviation conditions2 := (ConditionsFiltered (filteredTupleKeyIterator (tupleKeyIterator S2) TupleKey)).

Definition cond_sim (a : conditions1) (b : conditions2) : Prop :=
  filter_sim (cf_iter a) (cf_iter b) ∧ cf_lastError a = cf_lastError b ∧ cf_onceValid a = cf_onceValid b.

Lemma conditions_Next_sim cond fuel (a : conditions1) (b : conditions2) :
  cond_sim a b →
  match conditions_Next cond fuel None a, conditions_Next cond fuel None b with
  | Some (o, a'), Some (o', b') => o = o' ∧ cond_sim a' b'
  | None, None => True
  | _, _ => False
  end.
Proof.
  revert a b. induction fuel as [|fuel IH]; intros [a la va] [b lb vb] (Hab&Hl&Hv); [done|]. simpl in Hab, Hl, Hv. subst.
  cbn [conditions_Next cf_iter cf_lastError cf_onceValid].
  destruct (filtered_sim _ _ Hab) as (_&o&a'&b'&->&->&HR).
  destruct o as [t|e|w]; [|destruct e; try (by split_and!); destruct vb, lb; by split_and!|by split_and!].
  destruct (cond t) as [[]|e|w]; [by split_and!|apply IH; by split_and!|apply IH; by split_and!|by split_and!].
Qed.

Lemma drain_sim cond fuel n (a : conditions1) (b : conditions2) :
  cond_sim a b → drain_fuel (conditions_Next cond fuel None) n a = drain_fuel (conditions_Next cond fuel None) n b.
Proof.
  revert a b. induction n as [|n IH]; intros a b Hab; [done|]. cbn [drain_fuel].
  pose proof (conditions_Next_sim cond fuel a b Hab) as HN.
  destruct (conditions_Next cond fuel None a) as [[o a']|], (conditions_Next cond fuel None b) as [[o' b']|]; try done.
  destruct HN as [-> HR]. destruct o'; [|done..]. by rewrite (IH a' b').
Qed.
End sim.

(** ** Check *)

Section readers.
Context `{!ModelGraph, !Cel, !Scheduler}.
Context (R1 R2 : RelationshipTupleReader).
Context (typesys : TypeSystem) (conds : gmap string EvaluableCondition) (fp : FastPaths) (maxResolutionDepth : Z).
Context (store user : string).

(** Two reads that look the same through the filters. *)
Definition same_read (a : outcome StorageErr (@reader_iter R1)) (b : outcome StorageErr (@reader_iter R2)) : Prop :=
  match a, b with
  | Ret i, Ret j => ∀ ctx, @read_filtered _ _ R1 typesys conds ctx i = @read_filtered _ _ R2 typesys conds ctx j
  | Throw e, Throw e' => e = e'
  | Panic w, Panic w' => w = w'
  | _, _ => False
  end.

(** The reads a check of [user] in [store] makes. *)
Record readers_agree : Prop := {
  ra_Read o r : same_read (@rd_Read R1 store (NewTupleKey o r "")) (@rd_Read R2 store (NewTupleKey o r ""));
  ra_ReadUserTuple tk : @rd_ReadUserTuple R1 store tk = @rd_ReadUserTuple R2 store tk;
  ra_Usersets o r refs : DirectlyRelatedUsersets typesys (GetType o) r = Ret refs → refs ≠ [] →
    same_read (@rd_ReadUsersetTuples R1 store (mkReadUsersetTuplesFilter o r refs))
              (@rd_ReadUsersetTuples R2 store (mkReadUsersetTuplesFilter o r refs));
  ra_Public o r : shouldCheckPublicAssignable typesys (NewTupleKey o r user) = true →
    same_read (@rd_ReadUsersetTuples R1 store (mkReadUsersetTuplesFilter o r [WildcardRelationReference (GetType user)]))
              (@rd_ReadUsersetTuples R2 store (mkReadUsersetTuplesFilter o r [WildcardRelationReference (GetType user)]));
}.
Hypothesis Hagree : readers_agree.

Definition for_user (req : ResolveCheckRequest) : Prop := rq_StoreID req = store ∧ User (rq_TupleKey req) = user.

Section handlers.
Context (resolve1 resolve2 : ResolveCheckRequest → checkOutcome).
Hypothesis Hresolve : ∀ req, for_user req → resolve1 req = resolve2 req.

Lemma processDispatches_same req msgs :
  for_user req → (∀ tk, MsgDispatch tk ∈ msgs → User tk = user) →
  processDispatches resolve1 req msgs = processDispatches resolve2 req msgs.
Proof.
  intros [Hs Hu] Hm. induction msgs as [|[e| |tk|] msgs IH]; simpl; [done| |done| |done].
  - rewrite IH; [done|]. intros tk Htk. apply Hm. by apply list_elem_of_further.
  - rewrite IH by (intros tk' Htk'; apply Hm; by apply list_elem_of_further). f_equal. unfold dispatch. apply Hresolve.
    split; [done|]. simpl. apply Hm, list_elem_of_here.
Qed.

Lemma userset_messages_user tk0 keys final tk :
  MsgDispatch tk ∈ produceUsersetDispatches typesys tk0 keys final → User tk = User tk0.
Proof.
  induction keys as [|t keys IH]; simpl.
  - destruct final as [e|]; [destruct (IterIsDoneOrCancelled e)|]; set_solver.
  - destruct (SplitObjectRelation (User t)) as [o r]. repeat case_match; set_solver.
Qed.

Lemma ttu_messages_user c tk0 keys final tk :
  MsgDispatch tk ∈ produceTTUDispatches typesys c tk0 keys final → User tk = User tk0.
Proof.
  induction keys as [|t keys IH]; simpl.
  - destruct final as [e|]; [destruct (IterIsDoneOrCancelled e)|]; set_solver.
  - destruct (SplitObjectRelation (User t)) as [o r]. repeat case_match; set_solver.
Qed.

Lemma checkUsersetSlowPath_same req read :
  for_user req → checkUsersetSlowPath typesys resolve1 req read = checkUsersetSlowPath typesys resolve2 req read.
Proof.
  intros Hreq. unfold checkUsersetSlowPath. rewrite processDispatches_same; [done|done|].
  intros tk ->%userset_messages_user. apply Hreq.
Qed.

Lemma checkTTUSlowPath_same req rw c read :
  for_user req → checkTTUSlowPath typesys resolve1 req rw c read = checkTTUSlowPath typesys resolve2 req rw c read.
Proof.
  intros Hreq. unfold checkTTUSlowPath. rewrite processDispatches_same; [done|done|].
  intros tk ->%ttu_messages_user. apply Hreq.
Qed.

(** A continuation of a read that looks only through the filters. *)
Lemma same_read_bind {A} a b ctx (k1 k2 : list TupleKey * option IterErr → outcome CheckErr A) :
  same_read a b → (∀ x, k1 x = k2 x) →
  match a with Ret i => k1 (@read_filtered _ _ R1 typesys conds ctx i) | Throw e => Throw (ErrDatastore e) | Panic w => Panic w end =
  match b with Ret j => k2 (@read_filtered _ _ R2 typesys conds ctx j) | Throw e => Throw (ErrDatastore e) | Panic w => Panic w end.
Proof. unfold same_read. destruct a, b; intros Hab Hk; try done; [by rewrite Hab, Hk|by rewrite Hab..]. Qed.

Lemma checkPublicAssignable_same req :
  for_user req → shouldCheckPublicAssignable typesys (rq_TupleKey req) = true →
  @checkPublicAssignable _ _ R1 typesys conds req = @checkPublicAssignable _ _ R2 typesys conds req.
Proof.
  intros [Hs Hu] Hpub. unfold checkPublicAssignable. rewrite Hs, Hu.
  pose proof (ra_Public Hagree (Object (rq_TupleKey req)) (Relation (rq_TupleKey req))) as Hsame.
  unfold shouldCheckPublicAssignable in *. rewrite Hu in Hpub. simpl in Hsame. specialize (Hsame Hpub).
  unfold same_read in Hsame. destruct (@rd_ReadUsersetTuples R1 _ _), (@rd_ReadUsersetTuples R2 _ _); try done; by rewrite Hsame.
Qed.

Lemma checkDirectUserTuple_same req :
  for_user req → @checkDirectUserTuple _ _ R1 typesys conds req = @checkDirectUserTuple _ _ R2 typesys conds req.
Proof. intros [Hs Hu]. unfold checkDirectUserTuple. by rewrite Hs, (ra_ReadUserTuple Hagree). Qed.

Lemma checkDirectUsersetTuples_same req refs :
  for_user req → DirectlyRelatedUsersets typesys (GetType (Object (rq_TupleKey req))) (Relation (rq_TupleKey req)) = Ret refs →
  refs ≠ [] →
  @checkDirectUsersetTuples _ _ _ R1 typesys conds fp resolve1 req refs =
  @checkDirectUsersetTuples _ _ _ R2 typesys conds fp resolve2 req refs.
Proof.
  intros Hreq Hrefs Hne. unfold checkDirectUsersetTuples. rewrite (proj1 Hreq).
  apply same_read_bind; [by apply (ra_Usersets Hagree)|]. intros x.
  destruct (negb _); [|by apply checkUsersetSlowPath_same]. repeat case_match; try done. by apply checkUsersetSlowPath_same.
Qed.

Lemma checkDirect_same req :
  for_user req →
  @checkDirect _ _ _ R1 typesys conds fp resolve1 req = @checkDirect _ _ _ R2 typesys conds fp resolve2 req.
Proof.
  intros Hreq. unfold checkDirect. rewrite checkDirectUserTuple_same by done. do 2 f_equal. f_equal. f_equal.
  - destruct (shouldCheckPublicAssignable _ _) eqn:E; [|done]. by rewrite checkPublicAssignable_same.
  - destruct (DirectlyRelatedUsersets _ _ _) as [refs| |] eqn:E; [|done..]. case_bool_decide; [done|].
    by rewrite checkDirectUsersetTuples_same.
Qed.

Lemma checkTTU_same req ts c :
  for_user req →
  @checkTTU _ _ _ R1 typesys conds fp resolve1 req ts c = @checkTTU _ _ _ R2 typesys conds fp resolve2 req ts c.
Proof.
  intros Hreq. unfold checkTTU. rewrite (proj1 Hreq).
  pose proof (ra_Read Hagree (Object (rq_TupleKey req)) ts) as Hsame. unfold same_read in Hsame.
  destruct (@rd_Read R1 _ _), (@rd_Read R2 _ _); try done; [|by rewrite Hsame..]. rewrite Hsame.
  destruct (negb _); [|by apply checkTTUSlowPath_same]. repeat case_match; try done. by apply checkTTUSlowPath_same.
Qed.

Lemma CheckRewrite_same req rw :
  for_user req →
  @CheckRewrite _ _ _ R1 typesys conds fp resolve1 resolve1 req rw = @CheckRewrite _ _ _ R2 typesys conds fp resolve2 resolve2 req rw.
Proof.
  intros Hreq. induction rw as [|ob r|ts c|child IH|child IH|b s IHb IHs|] using Userset_nested_ind; cbn [CheckRewrite].
  - by apply checkDirect_same.
  - unfold checkComputedUserset. apply Hresolve. split; [apply Hreq|]. simpl. apply Hreq.
  - by apply checkTTU_same.
  - do 2 f_equal. by apply Forall_fmap_ext_1.
  - do 2 f_equal. by apply Forall_fmap_ext_1.
  - by rewrite IHb, IHs.
  - done.
Qed.
End handlers.

(** The answer of a check. *)
Lemma ResolveCheck_same fuel req :
  for_user req →
  @ResolveCheck _ _ _ R1 typesys conds fp maxResolutionDepth fuel req =
  @ResolveCheck _ _ _ R2 typesys conds fp maxResolutionDepth fuel req.
Proof.
  revert req. induction fuel as [|fuel IH]; intros req Hreq; [done|]. cbn [ResolveCheck].
  unfold LocalChecker_ResolveCheck. case_bool_decide; [done|].
  unfold hasCycle. case_bool_decide; [done|]. cbn [rq_TupleKey rq_StoreID rq_Context rq_Depth rq_VisitedPaths].
  repeat case_match; try done. by apply CheckRewrite_same.
Qed.
End readers.
