(* ===== verification/MongoDriver.v ===== *)
(** * The MongoDB driver and server, as the datastore of [pkg/storage/mongo] uses them

    The driver and the server are not part of the repository.  [Mongo] is the interface the
    datastore calls, with collections of an unknown representation, and [MongoLaws] what
    the documentation of MongoDB promises of it: which documents a filter selects, that
    the order of an answer is unspecified unless a sort is asked for, what a unique index
    refuses, that an aborted transaction leaves nothing behind and that the body of a
    transaction can be run again.  A call can always fail, and a failed update may have
    been applied.  [list_Mongo] is a server that keeps documents in lists; it meets the
    laws, and the examples run on it. *)

From S2P Require Import Prelude GoStd Tuple Iterators Model Memory.

Local Open Scope Z_scope.
Local Open Scope go_scope.

(** ** The process: its clock and its source of ULIDs *)

(** The readings of [time.Now()], in nanoseconds, in the order they are taken. *)
Class Clock := { clock_reading : nat → Z }.
Class ClockLaws `{!Clock} : Prop := { clock_monotonic i j : (i ≤ j)%nat → clock_reading i ≤ clock_reading j }.

(** How many readings were taken, and the state of ulid's default entropy source. *)
Record Process `{!Ulid} := mkProcess { pr_ticks : nat; pr_entropy : entropy }.

Definition time_Now `{!Ulid, !Clock} (p : Process) : Z * Process :=
  (clock_reading (pr_ticks p), mkProcess _ (S (pr_ticks p)) (pr_entropy p)).

(** [ulid.Make().String()]. *)
Definition ulid_Make `{!Ulid, !Clock} (p : Process) : string * Process :=
  let '(now, p) := time_Now p in
  let '(u, e) := MustNew (now / 1000000) (pr_entropy p) in
  (ulid_String u, mkProcess _ (pr_ticks p) e).

(** The clock has not gone back since the last ULID. *)
Definition process_ok `{!Ulid, !UlidLaws, !Clock} (p : Process) : Prop :=
  last_ms (pr_entropy p) ≤ clock_reading (pr_ticks p) / 1000000.

(** [p'] is a state of the process at or after [p]. *)
Definition later `{!Ulid, !UlidLaws, !Clock} (p p' : Process) : Prop :=
  (last_ulid (pr_entropy p) ≤ last_ulid (pr_entropy p'))%N ∧ (process_ok p → process_ok p').

(** ULIDs are "lexicographically sortable": their strings sort like the numbers. *)
Class UlidOrder `{!Ulid} : Prop := {
  ulid_String_lt u v : (u < v)%N → String.ltb (ulid_String u) (ulid_String v) = true;
}.

(** ** Documents and filters *)

(** The values the datastore compares; an embedded message or array is [BDocument]. *)
Inductive bson_value := BString (s : string) | BDateTime (ms : Z) | BDocument.

Global Instance bson_value_eq_dec : EqDecision bson_value.
Proof. solve_decision. Defined.

(** The value a filter gives to a field: a value to equal or an operator document. *)
Inductive bson_cond :=
| BEq (v : bson_value)
| BGt (v : bson_value)
| BLt (v : bson_value)
| BGte (v : bson_value)
| BIn (l : list string)
| BRegex (pattern options : string)
| BExists (b : bool).

(** [bson.M], a Go map: setting a field again replaces what it asked for.  The filter of
    a query may also hold the key [$or]. *)
Abbreviation bson_M := (gmap string bson_cond).
Record bson_filter := mkFilter { f_fields : bson_M; f_or : option (list bson_M) }.

Definition set_field (k : string) (c : bson_cond) (f : bson_filter) : bson_filter :=
  mkFilter (<[k := c]> (f_fields f)) (f_or f).
Definition set_or (l : list bson_M) (f : bson_filter) : bson_filter := mkFilter (f_fields f) (Some l).

(** The fields of a document by their names in its [bson] tags, and the update of one. *)
Class BsonDoc (D : Type) := {
  doc_field : D → string → option bson_value;
  doc_set : string → bson_value → D → D;
}.

(** Comparison operators only hold between values of one type. *)
Definition bson_gt (v w : bson_value) : bool :=
  match v, w with
  | BString s, BString t => String.ltb s t
  | BDateTime a, BDateTime b => bool_decide (a < b)
  | _, _ => false
  end.

Section filters.
Context (regex : string → string → string → bool) `{!BsonDoc D}.

Definition cond_selects (c : bson_cond) (v : option bson_value) : bool :=
  match c with
  | BEq w => bool_decide (v = Some w)
  | BGt w => match v with Some v => bson_gt w v | None => false end
  | BLt w => match v with Some v => bson_gt v w | None => false end
  | BGte w => match v with Some v => bool_decide (v = w) || bson_gt w v | None => false end
  | BIn l => match v with Some (BString s) => bool_decide (s ∈ l) | _ => false end
  | BRegex pattern options => match v with Some (BString s) => regex pattern options s | _ => false end
  | BExists b => eqb b (bool_decide (is_Some v))
  end.

Definition fields_select (m : bson_M) (d : D) : bool :=
  forallb (λ kc : string * bson_cond, cond_selects kc.2 (doc_field d kc.1)) (map_to_list m).

(** The documents a filter selects. *)
Definition selects (f : bson_filter) (d : D) : bool :=
  fields_select (f_fields f) d
  && match f_or f with Some l => existsb (λ m, fields_select m d) l | None => true end.
End filters.

(** ** Sorting *)

Definition bson_rank (v : option bson_value) : Z :=
  match v with None => 0 | Some (BString _) => 1 | Some BDocument => 2 | Some (BDateTime _) => 3 end.

Definition bson_less (a b : option bson_value) : bool :=
  match a, b with
  | Some (BString s), Some (BString t) => String.ltb s t
  | Some (BDateTime x), Some (BDateTime y) => bool_decide (x < y)
  | _, _ => bool_decide (bson_rank a < bson_rank b)
  end.

Global Instance bson_less_StrictWeak : StrictWeak bson_less.
Proof.
  split.
  - intros [[]|]; simpl; [apply str_ltb_irrefl|case_bool_decide; [lia|done]|done|done].
  - intros [[]|] [[]|] [[]|]; simpl; try (repeat case_bool_decide; by (done || lia)). apply str_ltb_trans.
  - intros [[]|] [[]|] [[]|]; simpl; try (repeat case_bool_decide; by (done || lia)).
    rewrite !str_ltb_ge. intros. by etrans.
Qed.

(** A sort document: fields with 1 (ascending) or -1 (descending), the first deciding. *)
Fixpoint doc_less `{!BsonDoc D} (sort : list (string * Z)) (a b : D) : bool :=
  match sort with
  | [] => false
  | (k, dir) :: rest =>
      let x := doc_field a k in let y := doc_field b k in
      let '(x, y) := if bool_decide (0 < dir) then (x, y) else (y, x) in
      if bson_less x y then true else if bson_less y x then false else doc_less rest a b
  end.

(** Deciding by one order and then by another keeps a strict weak order. *)
Lemma lex_StrictWeak {A} (f g : A → A → bool) :
  StrictWeak f → StrictWeak g →
  StrictWeak (λ a b, if f a b then true else if f b a then false else g a b).
Proof.
  intros Hf Hg. split.
  - intros x. rewrite (sw_irrefl (less := f)). apply sw_irrefl.
  - intros x y z. destruct (f x y) eqn:Exy.
    + intros _. destruct (f y z) eqn:Eyz; [intros _; by rewrite (sw_trans (less := f) x y z)|].
      destruct (f z y) eqn:Ezy; [done|]. intros _. destruct (f x z) eqn:Exz; [done|].
      by rewrite (sw_incomp (less := f) x z y) in Exy.
    + destruct (f y x) eqn:Eyx; [done|]. intros Gxy. destruct (f y z) eqn:Eyz.
      * intros _. destruct (f x z) eqn:Exz; [done|]. by rewrite (sw_incomp (less := f) y x z) in Eyz.
      * destruct (f z y) eqn:Ezy; [done|]. intros Gyz.
        rewrite (sw_incomp (less := f) x y z), (sw_incomp (less := f) z y x) by done. by eapply sw_trans.
  - intros x y z. destruct (f x y) eqn:Exy; [done|]. destruct (f y z) eqn:Eyz; [by destruct (f y x)|].
    rewrite (sw_incomp (less := f) x y z) by done.
    destruct (f y x) eqn:Eyx.
    + intros _ _. destruct (f z x) eqn:Ezx; [done|]. by rewrite (sw_incomp (less := f) y z x) in Eyx.
    + destruct (f z y) eqn:Ezy.
      * intros _ _. destruct (f z x) eqn:Ezx; [done|]. by rewrite (sw_incomp (less := f) z x y) in Ezy.
      * rewrite (sw_incomp (less := f) z y x) by done. apply sw_incomp.
Qed.

Lemma flip_StrictWeak {A} (f : A → A → bool) : StrictWeak f → StrictWeak (λ a b, f b a).
Proof.
  intros Hf. split.
  - intros x. apply sw_irrefl.
  - intros x y z Hx Hy. by eapply (sw_trans (less := f)).
  - intros x y z Hx Hy. by eapply (sw_incomp (less := f)).
Qed.

Lemma key_StrictWeak {A B} (key : A → B) (f : B → B → bool) : StrictWeak f → StrictWeak (λ a b, f (key a) (key b)).
Proof.
  intros Hf. split; intros x *; [apply sw_irrefl|apply sw_trans|apply sw_incomp].
Qed.

Global Instance doc_less_StrictWeak `{!BsonDoc D} sort : StrictWeak (doc_less (D := D) sort).
Proof.
  induction sort as [|[k dir] sort IH]; simpl; [by split|].
  destruct (bool_decide (0 < dir)).
  - apply (lex_StrictWeak (λ a b, bson_less (doc_field a k) (doc_field b k)) (doc_less sort)); [|done].
    apply (key_StrictWeak (λ a, doc_field a k)), _.
  - apply (lex_StrictWeak (λ a b, bson_less (doc_field b k) (doc_field a k)) (doc_less sort)); [|done].
    apply (flip_StrictWeak (λ a b, bson_less (doc_field a k) (doc_field b k))), (key_StrictWeak (λ a, doc_field a k)), _.
Qed.

(** ** The interface *)

Inductive MongoErr :=
| ErrNoDocuments
| ErrDuplicateKey
| ErrDecode
| ErrServer (what : string).

(** What a query still returns, and the error [Err] reports once [Next] has said no. *)
Record Cursor (D : Type) := mkCursor { cur_docs : list D; cur_Err : option MongoErr }.
Arguments mkCursor {D} cur_docs cur_Err.
Arguments cur_docs {D} c.
Arguments cur_Err {D} c.

Record FindOptions := mkFindOptions { fo_Limit : Z; fo_Sort : list (string * Z) }.

Record IndexModel := mkIndexModel { ix_Keys : list string; ix_Unique : bool }.

(** An update returns its error and the collection as it is afterwards. *)
Abbreviation updated C := (outcome MongoErr unit * C)%type.

Class Mongo `{!Ulid} := {
  collection : Type → Type;
  Find `{!BsonDoc D} : collection D → bson_filter → FindOptions → outcome MongoErr (Cursor D);
  FindOne `{!BsonDoc D} : collection D → bson_filter → list (string * Z) → outcome MongoErr D;
  InsertOne `{!BsonDoc D} : collection D → D → updated (collection D);
  DeleteOne `{!BsonDoc D} : collection D → bson_filter → updated (collection D);
  UpdateOne_set `{!BsonDoc D} : collection D → bson_filter → string → bson_value → updated (collection D);
  ReplaceOne_upsert `{!BsonDoc D} : collection D → bson_filter → D → updated (collection D);
  CreateIndex `{!BsonDoc D} : collection D → IndexModel → updated (collection D);
  (** decoding a document that was encoded from a value of [D] *)
  Decode `{!BsonDoc D} : D → outcome MongoErr D;
  (** [session.WithTransaction]: the callback works on the collections [W] of the session
      and on the process; its errors are on the left, the server's on the right *)
  WithTransaction {W E} : (W → Process → outcome E unit * (W * Process)) →
    W → Process → outcome (E + MongoErr) unit * (W * Process);
}.

(** ** What the documentation promises *)

Definition limit_to {D} (n : Z) (l : list D) : list D :=
  if bool_decide (n = 0) then l else take (Z.to_nat (Z.abs n)) l.

(** An answer to a query: the selected documents, in some order that respects the sort. *)
Definition answers `{!BsonDoc D} (sel : list D) (sort : list (string * Z)) (l : list D) : Prop :=
  l ≡ₚ sel ∧ StronglySorted (not_less (doc_less sort)) l.

(** Two documents that a unique index keeps apart. *)
Definition index_conflict `{!BsonDoc D} (ix : IndexModel) (d d' : D) : bool :=
  ix_Unique ix && forallb (λ k, bool_decide (doc_field d k = doc_field d' k)) (ix_Keys ix).

Definition index_refuses `{!BsonDoc D} (ixs : list IndexModel) (docs : list D) (d : D) : bool :=
  existsb (λ ix, existsb (index_conflict ix d) docs) ixs.

(** The bytes that have a meaning of their own in a regular expression. *)
Definition regex_meta : list ascii := ["\"; "^"; "$"; "."; "|"; "?"; "*"; "+"; "("; ")"; "["; "]"; "{"; "}"]%char.
Definition regex_plain (s : string) : bool := forallb (λ c, negb (has_byte c s)) regex_meta.

Definition HasSuffix (s p : string) : bool :=
  (str_drop (String.length s - String.length p) s =s p).

Definition newline : ascii := "010".

Class MongoLaws `{!Ulid, !UlidLaws, !Clock, !Mongo} := {
  docs {D} : collection D → list D;
  indexes {D} : collection D → list IndexModel;
  regex_match : string → string → string → bool;

  regex_prefix lit s : regex_plain lit = true → regex_match ("^" +:+ lit) "" s = HasPrefix s lit;
  regex_suffix lit s : regex_plain lit = true → has_byte newline s = false →
    regex_match (lit +:+ "$") "" s = HasSuffix s lit;

  Find_law `{!BsonDoc D} (c : collection D) f o :
    match Find c f o with
    | Ret cur => ∃ l, answers (List.filter (selects regex_match f) (docs c)) (fo_Sort o) l ∧
        match cur_Err cur with
        | None => cur_docs cur = limit_to (fo_Limit o) l
        | Some e => cur_docs cur `prefix_of` limit_to (fo_Limit o) l ∧ ∃ what, e = ErrServer what
        end
    | Throw e => ∃ what, e = ErrServer what
    | Panic _ => False
    end;
  FindOne_law `{!BsonDoc D} (c : collection D) f sort :
    match FindOne c f sort with
    | Ret d => ∃ l, answers (List.filter (selects regex_match f) (docs c)) sort (d :: l)
    | Throw ErrNoDocuments => List.filter (selects regex_match f) (docs c) = []
    | Throw e => ∃ what, e = ErrServer what
    | Panic _ => False
    end;
  InsertOne_law `{!BsonDoc D} (c : collection D) d :
    indexes (InsertOne c d).2 = indexes c ∧
    match (InsertOne c d).1 with
    | Ret _ => index_refuses (indexes c) (docs c) d = false ∧ docs (InsertOne c d).2 ≡ₚ d :: docs c
    | Throw ErrDuplicateKey => index_refuses (indexes c) (docs c) d = true ∧ docs (InsertOne c d).2 = docs c
    | Throw e => (∃ what, e = ErrServer what) ∧
        (docs (InsertOne c d).2 = docs c ∨
         index_refuses (indexes c) (docs c) d = false ∧ docs (InsertOne c d).2 ≡ₚ d :: docs c)
    | Panic _ => False
    end;
  DeleteOne_law `{!BsonDoc D} (c : collection D) f :
    indexes (DeleteOne c f).2 = indexes c ∧
    let gone := (List.filter (selects regex_match f) (docs c) = [] ∧ docs (DeleteOne c f).2 = docs c) ∨
                (∃ d, selects regex_match f d = true ∧ docs c ≡ₚ d :: docs (DeleteOne c f).2) in
    match (DeleteOne c f).1 with
    | Ret _ => gone
    | Throw e => (∃ what, e = ErrServer what) ∧ (docs (DeleteOne c f).2 = docs c ∨ gone)
    | Panic _ => False
    end;
  UpdateOne_law `{!BsonDoc D} (c : collection D) f k v :
    indexes (UpdateOne_set c f k v).2 = indexes c ∧
    let done := (List.filter (selects regex_match f) (docs c) = [] ∧ docs (UpdateOne_set c f k v).2 = docs c) ∨
                (∃ d rest, selects regex_match f d = true ∧ docs c ≡ₚ d :: rest ∧
                           docs (UpdateOne_set c f k v).2 ≡ₚ doc_set k v d :: rest) in
    match (UpdateOne_set c f k v).1 with
    | Ret _ => done
    | Throw e => ((∃ what, e = ErrServer what) ∨ e = ErrDuplicateKey) ∧ (docs (UpdateOne_set c f k v).2 = docs c ∨ done)
    | Panic _ => False
    end;
  ReplaceOne_law `{!BsonDoc D} (c : collection D) f d' :
    indexes (ReplaceOne_upsert c f d').2 = indexes c ∧
    let done := (List.filter (selects regex_match f) (docs c) = [] ∧ docs (ReplaceOne_upsert c f d').2 ≡ₚ d' :: docs c) ∨
                (∃ d rest, selects regex_match f d = true ∧ docs c ≡ₚ d :: rest ∧ docs (ReplaceOne_upsert c f d').2 ≡ₚ d' :: rest) in
    match (ReplaceOne_upsert c f d').1 with
    | Ret _ => done
    | Throw e => ((∃ what, e = ErrServer what) ∨ e = ErrDuplicateKey) ∧ (docs (ReplaceOne_upsert c f d').2 = docs c ∨ done)
    | Panic _ => False
    end;
  CreateIndex_law `{!BsonDoc D} (c : collection D) ix :
    docs (CreateIndex c ix).2 = docs c ∧
    match (CreateIndex c ix).1 with
    | Ret _ => ∀ ix', ix' ∈ indexes (CreateIndex c ix).2 ↔ ix' = ix ∨ ix' ∈ indexes c
    | Throw _ => ∀ ix', ix' ∈ indexes c → ix' ∈ indexes (CreateIndex c ix).2
    | Panic _ => False
    end;
  (** the attempt that counts runs on the collections as they were, at some later moment *)
  WithTransaction_law {W E} (cb : W → Process → outcome E unit * (W * Process)) w p :
    ∃ p1, later p p1 ∧
      match WithTransaction cb w p with
      | (Ret _, (w', p')) => cb w p1 = (Ret tt, (w', p'))
      | (Throw (inl e), (w', p')) => w' = w ∧ (cb w p1).1 = Throw e ∧ p' = (cb w p1).2.2
      | (Throw (inr e), (w', p')) => (∃ what, e = ErrServer what) ∧ p' = (cb w p1).2.2 ∧
                                     (w' = w ∨ (cb w p1).1 = Ret tt ∧ w' = (cb w p1).2.1)
      | (Panic _, _) => ∃ why, (cb w p1).1 = Panic why
      end;
}.

(** A server that answers every call. *)
Class MongoUp `{!Ulid, !Mongo} : Prop := {
  up_Find `{!BsonDoc D} (c : collection D) f o : ∃ l, Find c f o = Ret (mkCursor l None);
  up_FindOne `{!BsonDoc D} (c : collection D) f sort what : FindOne c f sort ≠ Throw (ErrServer what);
  up_InsertOne `{!BsonDoc D} (c : collection D) d what : (InsertOne c d).1 ≠ Throw (ErrServer what);
  up_DeleteOne `{!BsonDoc D} (c : collection D) f what : (DeleteOne c f).1 ≠ Throw (ErrServer what);
  up_transaction {W E} (cb : W → Process → outcome E unit * (W * Process)) w p e :
    (WithTransaction cb w p).1 ≠ Throw (inr e);
}.
