(* ===== verification/Mongo.v ===== *)
(** * The MongoDB datastore: [pkg/storage/mongo/mongo.go]

    The documents, their conversions and filters, the iterator over a cursor and every
    method of [Datastore], over the interface of [MongoDriver.v].  A method that only reads
    is a function of the datastore's collections; one that updates returns its error
    together with the datastore and the process (its clock and ULIDs) as they are
    afterwards, because an update that fails may have happened. *)

From S2P Require Import Prelude GoStd Tuple Iterators Model Memory MongoDriver.

Local Open Scope Z_scope.
Local Open Scope go_scope.

(** ** Dates: [primitive.DateTime] counts milliseconds *)

Definition NewDateTimeFromTime (t : Z) : Z := t / 1000000.
Definition DateTime_Time (dt : Z) : Z := dt * 1000000.

(** ** Documents *)

Record TupleDocument := mkTupleDocument {
  td_Store : string;
  td_ObjectType : string;
  td_ObjectID : string;
  td_Relation : string;
  td_User : string;
  td_Condition : option RelationshipCondition;
  td_InsertedAt : Z;
  td_ULID : string;
}.

Record AuthorizationModelDocument := mkModelDocument {
  amd_Store : string;
  amd_ID : string;
  amd_SchemaVersion : string;
  amd_TypeDefs : list TypeDefinition;
  amd_Conditions : gmap string ModelCondition;
  amd_CreatedAt : Z;
}.

Record StoreDocument := mkStoreDocument {
  sd_ID : string;
  sd_Name : string;
  sd_CreatedAt : Z;
  sd_UpdatedAt : Z;
  sd_DeletedAt : option Z;
}.

Record AssertionDocument := mkAssertionDocument {
  ad_Store : string;
  ad_ModelID : string;
  ad_Assertions : list Assertion;
}.

Record ChangelogDocument := mkChangelogDocument {
  cd_Store : string;
  cd_ObjectType : string;
  cd_ObjectID : string;
  cd_Relation : string;
  cd_User : string;
  cd_Condition : option RelationshipCondition;
  cd_Operation : TupleOperation;
  cd_Timestamp : Z;
  cd_ULID : string;
}.

(** The [bson] tags; a field with [omitempty] is absent when it is nil. *)
Global Instance TupleDocument_Bson : BsonDoc TupleDocument := {|
  doc_field d k :=
    if k =s "store" then Some (BString (td_Store d))
    else if k =s "object_type" then Some (BString (td_ObjectType d))
    else if k =s "object_id" then Some (BString (td_ObjectID d))
    else if k =s "relation" then Some (BString (td_Relation d))
    else if k =s "user" then Some (BString (td_User d))
    else if k =s "condition" then (λ _, BDocument) <$> td_Condition d
    else if k =s "inserted_at" then Some (BDateTime (td_InsertedAt d))
    else if k =s "ulid" then Some (BString (td_ULID d))
    else None;
  doc_set _ _ d := d;
|}.

Global Instance AuthorizationModelDocument_Bson : BsonDoc AuthorizationModelDocument := {|
  doc_field d k :=
    if k =s "store" then Some (BString (amd_Store d))
    else if k =s "id" then Some (BString (amd_ID d))
    else if k =s "schema_version" then Some (BString (amd_SchemaVersion d))
    else if k =s "type_definitions" then Some BDocument
    else if k =s "conditions" then if bool_decide (amd_Conditions d = ∅) then None else Some BDocument
    else if k =s "created_at" then Some (BDateTime (amd_CreatedAt d))
    else None;
  doc_set _ _ d := d;
|}.

(** The only field the datastore sets in place is [deleted_at]. *)
Global Instance StoreDocument_Bson : BsonDoc StoreDocument := {|
  doc_field d k :=
    if k =s "id" then Some (BString (sd_ID d))
    else if k =s "name" then Some (BString (sd_Name d))
    else if k =s "created_at" then Some (BDateTime (sd_CreatedAt d))
    else if k =s "updated_at" then Some (BDateTime (sd_UpdatedAt d))
    else if k =s "deleted_at" then BDateTime <$> sd_DeletedAt d
    else None;
  doc_set k v d :=
    match v with
    | BDateTime t => if k =s "deleted_at"
                     then mkStoreDocument (sd_ID d) (sd_Name d) (sd_CreatedAt d) (sd_UpdatedAt d) (Some t) else d
    | _ => d
    end;
|}.

Global Instance AssertionDocument_Bson : BsonDoc AssertionDocument := {|
  doc_field d k :=
    if k =s "store" then Some (BString (ad_Store d))
    else if k =s "model_id" then Some (BString (ad_ModelID d))
    else if k =s "assertions" then Some BDocument
    else None;
  doc_set _ _ d := d;
|}.

Global Instance ChangelogDocument_Bson : BsonDoc ChangelogDocument := {|
  doc_field d k :=
    if k =s "store" then Some (BString (cd_Store d))
    else if k =s "object_type" then Some (BString (cd_ObjectType d))
    else if k =s "object_id" then Some (BString (cd_ObjectID d))
    else if k =s "relation" then Some (BString (cd_Relation d))
    else if k =s "user" then Some (BString (cd_User d))
    else if k =s "condition" then (λ _, BDocument) <$> cd_Condition d
    else if k =s "operation" then Some BDocument
    else if k =s "timestamp" then Some (BDateTime (cd_Timestamp d))
    else if k =s "ulid" then Some (BString (cd_ULID d))
    else None;
  doc_set _ _ d := d;
|}.

(** ** Errors *)

(** An error of the storage package, a new one, the wrapping of the driver's, the wrapping
    of the callback's by [Write] and that of the indexes' by [NewWithDB]. *)
Inductive DsErr :=
| DsStorage (e : StorageErr)
| DsNew (msg : string)
| DsWrap (msg : string) (e : MongoErr)
| DsTransaction (e : DsErr)
| DsCreateIndexes (e : DsErr).

(** What [errors.Is] finds behind the wrappings. *)
Fixpoint ds_storage (e : DsErr) : option StorageErr :=
  match e with
  | DsStorage e => Some e
  | DsTransaction e | DsCreateIndexes e => ds_storage e
  | _ => None
  end.

Definition wrap {A} (msg : string) (r : outcome MongoErr A) : outcome DsErr A :=
  match r with Ret a => Ret a | Throw e => Throw (DsWrap msg e) | Panic w => Panic w end.

(** ** Converting tuples *)

Section process.
Context `{!Ulid, !Clock}.

Definition tupleKeyToDoc (store : string) (tupleKey : TupleKey) (p : Process) : TupleDocument * Process :=
  let '(objectType, objectID) := SplitObject (Object tupleKey) in
  let '(now, p) := time_Now p in
  let '(u, p) := ulid_Make p in
  (mkTupleDocument store objectType objectID (Relation tupleKey) (User tupleKey) (Condition tupleKey)
     (NewDateTimeFromTime now) u, p).
End process.

Definition docToTuple (doc : TupleDocument) : Tuple :=
  mkTuple (mkTupleKey (BuildObject (td_ObjectType doc) (td_ObjectID doc)) (td_Relation doc) (td_User doc) (td_Condition doc))
          (Some (DateTime_Time (td_InsertedAt doc))).

Definition bson_str (s : string) : bson_cond := BEq (BString s).

(** A nil [tupleKey] is [None]. *)
Definition buildTupleFilter (store : string) (tupleKey : option TupleKey) : bson_filter :=
  let filter := mkFilter {["store" := bson_str store]} None in
  match tupleKey with
  | None => filter
  | Some tk =>
      let filter :=
        if negb (Object tk =s "") then
          let '(objectType, objectID) := SplitObject (Object tk) in
          set_field "object_id" (bson_str objectID) (set_field "object_type" (bson_str objectType) filter)
        else filter in
      let filter := if negb (Relation tk =s "") then set_field "relation" (bson_str (Relation tk)) filter else filter in
      if negb (User tk =s "") then set_field "user" (bson_str (User tk)) filter else filter
  end.

Section datastore.
Context `{!Ulid, !Clock, !Mongo}.

(** ** The iterator *)

(** [mongoTupleIterator] is its cursor. *)
Abbreviation mongoTupleIterator := (Cursor TupleDocument).

Definition it_Decode (doc : TupleDocument) : outcome IterErr Tuple :=
  match Decode doc with
  | Ret d => Ret (docToTuple d)
  | Throw _ => Throw (ErrOther "decode tuple document")
  | Panic w => Panic w
  end.

(** [cursor.Next] answers no when the documents are over, when the context is done and
    when the server failed; the method takes all of them for the end. *)
Definition it_Next (ctx : Ctx) (it : mongoTupleIterator) : outcome IterErr Tuple * mongoTupleIterator :=
  match ctx, cur_docs it with
  | None, doc :: rest => (it_Decode doc, mkCursor rest (cur_Err it))
  | _, _ => (Throw ErrIteratorDone, it)
  end.

(** [Head] advances the cursor too. *)
Definition it_Head (ctx : Ctx) (it : mongoTupleIterator) : outcome IterErr Tuple * mongoTupleIterator :=
  match ctx, cur_docs it with
  | None, doc :: rest => (it_Decode doc, mkCursor rest (cur_Err it))
  | _, _ => (Throw ErrIteratorDone, it)
  end.

(** A closed cursor has no further documents. *)
Definition it_Stop (it : mongoTupleIterator) : mongoTupleIterator := mkCursor [] (cur_Err it).

Global Instance mongo_Iterator : Iterator mongoTupleIterator Tuple :=
  {| Next := it_Next; Head := it_Head; Stop := it_Stop; remaining it := length (cur_docs it) |}.

(** A loop [for cursor.Next(ctx)] that decodes every document and then looks at
    [cursor.Err()]; [what] is the document of the error message. *)
Fixpoint decode_all `{!BsonDoc D} (what : string) (l : list D) : outcome DsErr (list D) :=
  match l with
  | [] => Ret []
  | doc :: rest =>
      let! d := wrap ("decode " +:+ what) (Decode doc) in
      let! ds := decode_all what rest in
      Ret (d :: ds)
  end.

Definition cursor_all `{!BsonDoc D} (what : string) (cur : Cursor D) : outcome DsErr (list D) :=
  let! ds := decode_all what (cur_docs cur) in
  match cur_Err cur with Some e => Throw (DsWrap "cursor error" e) | None => Ret ds end.

Definition it_ToArray (it : mongoTupleIterator) : outcome DsErr (list Tuple) :=
  let! ds := cursor_all "tuple document" it in Ret (docToTuple <$> ds).

(** ** The datastore *)

(** [client] and [database] are the collections. *)
Record Datastore := mkDatastore {
  Tuples : collection TupleDocument;
  AuthorizationModels : collection AuthorizationModelDocument;
  Stores : collection StoreDocument;
  Assertions : collection AssertionDocument;
  Changelog : collection ChangelogDocument;
  maxTuplesPerWriteField : Z;
  maxTypesPerModelField : Z;
}.

Definition set_session (ds : Datastore) (w : collection TupleDocument * collection ChangelogDocument) : Datastore :=
  mkDatastore w.1 (AuthorizationModels ds) (Stores ds) (Assertions ds) w.2
    (maxTuplesPerWriteField ds) (maxTypesPerModelField ds).
Definition set_Models (ds : Datastore) c : Datastore :=
  mkDatastore (Tuples ds) c (Stores ds) (Assertions ds) (Changelog ds) (maxTuplesPerWriteField ds) (maxTypesPerModelField ds).
Definition set_Stores (ds : Datastore) c : Datastore :=
  mkDatastore (Tuples ds) (AuthorizationModels ds) c (Assertions ds) (Changelog ds)
    (maxTuplesPerWriteField ds) (maxTypesPerModelField ds).
Definition set_Assertions (ds : Datastore) c : Datastore :=
  mkDatastore (Tuples ds) (AuthorizationModels ds) (Stores ds) c (Changelog ds)
    (maxTuplesPerWriteField ds) (maxTypesPerModelField ds).

Definition MaxTuplesPerWrite (ds : Datastore) : Z :=
  if bool_decide (0 < maxTuplesPerWriteField ds) then maxTuplesPerWriteField ds else 100.

Definition MaxTypesPerAuthorizationModel (ds : Datastore) : Z :=
  if bool_decide (0 < maxTypesPerModelField ds) then maxTypesPerModelField ds else 100.

(** *** Indexes *)

Definition unique_tuple_index : IndexModel :=
  mkIndexModel ["store"; "object_type"; "object_id"; "relation"; "user"] true.
Definition reverse_tuple_index : IndexModel := mkIndexModel ["store"; "user"; "object_type"; "relation"] false.
Definition model_index : IndexModel := mkIndexModel ["store"; "id"] true.
Definition store_index : IndexModel := mkIndexModel ["id"] true.
Definition changelog_index : IndexModel := mkIndexModel ["store"; "ulid"] false.

(** One [CreateOne]: its error with the message that wraps it. *)
Definition create_index `{!BsonDoc D} (msg : string) (c : collection D) (ix : IndexModel)
  : outcome DsErr unit * collection D :=
  let '(r, c') := CreateIndex c ix in (wrap msg r, c').

Definition createIndexes (ds : Datastore) : outcome DsErr unit * Datastore :=
  match create_index "create tuple index" (Tuples ds) unique_tuple_index with
  | (Ret _, tuples) =>
      let ds := set_session ds (tuples, Changelog ds) in
      match create_index "create reverse tuple index" (Tuples ds) reverse_tuple_index with
      | (Ret _, tuples) =>
          let ds := set_session ds (tuples, Changelog ds) in
          match create_index "create authorization model index" (AuthorizationModels ds) model_index with
          | (Ret _, models) =>
              let ds := set_Models ds models in
              match create_index "create store index" (Stores ds) store_index with
              | (Ret _, stores) =>
                  let ds := set_Stores ds stores in
                  let '(r, changelog) := create_index "create changelog index" (Changelog ds) changelog_index in
                  (r, set_session ds (Tuples ds, changelog))
              | (r, stores) => (r, set_Stores ds stores)
              end
          | (r, models) => (r, set_Models ds models)
          end
      | (r, tuples) => (r, set_session ds (tuples, Changelog ds))
      end
  | (r, tuples) => (r, set_session ds (tuples, Changelog ds))
  end.

(** *** Reading tuples *)

Definition no_options : FindOptions := mkFindOptions 0 [].

Definition Read (ds : Datastore) (store : string) (tupleKey : TupleKey) : outcome DsErr mongoTupleIterator :=
  wrap "find tuples" (Find (Tuples ds) (buildTupleFilter store (Some tupleKey)) no_options).

(** The token of a page: its last key when the page is full. *)
Definition page_token {A} (l : list A) (key : A → string) (pageSize : Z) : string :=
  if bool_decide (zlen l = pageSize) then default "" (key <$> last l) else "".

Definition ReadPage (ds : Datastore) (store : string) (tupleKey : TupleKey) (options : PaginationOptions)
  : outcome DsErr (list Tuple * string) :=
  let filter := buildTupleFilter store (Some tupleKey) in
  let '(filter, sort) :=
    if negb (From_ options =s "") then (set_field "ulid" (BGt (BString (From_ options))) filter, [("ulid", 1)])
    else (filter, []) in
  let! cursor := wrap "find tuples" (Find (Tuples ds) filter (mkFindOptions (PageSize options) sort)) in
  let! tuples := cursor_all "tuple document" cursor in
  Ret (docToTuple <$> tuples, page_token tuples td_ULID (PageSize options)).

(** [collection.FindOne(ctx, filter).Decode(&doc)]. *)
Definition find_one `{!BsonDoc D} (c : collection D) (filter : bson_filter) (sort : list (string * Z)) : outcome MongoErr D :=
  let! d := FindOne c filter sort in Decode d.

(** The error of a [find_one] whose missing document is [ErrNotFound]. *)
Definition or_not_found {A} (msg : string) (r : outcome MongoErr A) : outcome DsErr A :=
  match r with
  | Throw ErrNoDocuments => Throw (DsStorage ErrNotFound)
  | _ => wrap msg r
  end.

Definition ReadUserTuple (ds : Datastore) (store : string) (tupleKey : TupleKey) : outcome DsErr Tuple :=
  let! doc := or_not_found "find user tuple" (find_one (Tuples ds) (buildTupleFilter store (Some tupleKey)) []) in
  Ret (docToTuple doc).

(** The user filter of one type restriction: the relation's pattern replaces the type's. *)
Definition restriction_filter (restriction : RelationReference) : bson_M :=
  let userFilter : bson_M := ∅ in
  let userFilter :=
    if negb (rr_Type restriction =s "")
    then <["user" := BRegex ("^" +:+ rr_Type restriction +:+ ":") ""]> userFilter else userFilter in
  if negb (rr_GetRelation restriction =s "")
  then <["user" := BRegex ("#" +:+ rr_GetRelation restriction +:+ "$") ""]> userFilter else userFilter.

Definition userset_filter (store : string) (filter : ReadUsersetTuplesFilter) : bson_filter :=
  let mongoFilter := mkFilter (<["relation" := bson_str (ruf_Relation filter)]> {["store" := bson_str store]}) None in
  let '(objectType, objectID) := SplitObject (ruf_Object filter) in
  let mongoFilter := set_field "object_id" (bson_str objectID) (set_field "object_type" (bson_str objectType) mongoFilter) in
  if negb (bool_decide (ruf_AllowedUserTypeRestrictions filter = []))
  then set_or (restriction_filter <$> ruf_AllowedUserTypeRestrictions filter) mongoFilter else mongoFilter.

Definition ReadUsersetTuples (ds : Datastore) (store : string) (filter : ReadUsersetTuplesFilter)
  : outcome DsErr mongoTupleIterator :=
  wrap "find userset tuples" (Find (Tuples ds) (userset_filter store filter) no_options).

Definition starting_filter (store : string) (filter : ReadStartingWithUserFilter) : bson_filter :=
  let mongoFilter := mkFilter (<["relation" := bson_str (rsf_Relation filter)]>
    (<["object_type" := bson_str (rsf_ObjectType filter)]> {["store" := bson_str store]})) None in
  let userFilters : list bson_M := (λ userObj : ObjectRelation,
    let targetUser := or_Object userObj in
    let targetUser := if negb (or_Relation userObj =s "") then targetUser +:+ "#" +:+ or_Relation userObj else targetUser in
    {["user" := bson_str targetUser]}) <$> rsf_UserFilter filter in
  let mongoFilter := if bool_decide (0 < zlen userFilters) then set_or userFilters mongoFilter else mongoFilter in
  match rsf_ObjectIDs filter with
  | Some ids => if bool_decide (0 < zlen ids) then set_field "object_id" (BIn ids) mongoFilter else mongoFilter
  | None => mongoFilter
  end.

Definition ReadStartingWithUser (ds : Datastore) (store : string) (filter : ReadStartingWithUserFilter)
    (withResultsSortedAscending : bool) : outcome DsErr mongoTupleIterator :=
  let sort := if withResultsSortedAscending then [("object_id", 1); ("relation", 1); ("user", 1)] else [] in
  wrap "find starting with user tuples" (Find (Tuples ds) (starting_filter store filter) (mkFindOptions 0 sort)).

(** *** Writing tuples *)

(** The callback of the transaction: steps on the session's collections and the process
    that can fail. *)
Abbreviation session := (collection TupleDocument * collection ChangelogDocument)%type.
Definition tx (A : Type) : Type := session → Process → outcome DsErr A * (session * Process).

Definition tx_ret {A} (a : A) : tx A := λ w p, (Ret a, (w, p)).
Definition tx_throw {A} (e : DsErr) : tx A := λ w p, (Throw e, (w, p)).
Definition tx_bind {A B} (m : tx A) (k : A → tx B) : tx B := λ w p,
  match m w p with
  | (Ret a, (w, p)) => k a w p
  | (Throw e, s) => (Throw e, s)
  | (Panic why, s) => (Panic why, s)
  end.
Local Notation "'do!' x := m 'in' k" := (tx_bind m (λ x, k))
  (at level 10, x pattern, m at level 100, k at level 200, only parsing).

(** The steps: the process's clock and ULIDs, a query, the updates of the two collections. *)
Definition tx_process {A} (f : Process → A * Process) : tx A := λ w p, let '(a, p') := f p in (Ret a, (w, p')).
Definition tx_find (filter : bson_filter) : tx (outcome MongoErr TupleDocument) :=
  λ w p, (Ret (find_one w.1 filter []), (w, p)).
Definition tx_tuples (msg : string) (f : collection TupleDocument → updated (collection TupleDocument)) : tx unit :=
  λ w p, let '(r, c) := f w.1 in (wrap msg r, ((c, w.2), p)).
Definition tx_changelog (msg : string) (f : collection ChangelogDocument → updated (collection ChangelogDocument)) : tx unit :=
  λ w p, let '(r, c) := f w.2 in (wrap msg r, ((w.1, c), p)).

(** The changelog entry of a tuple's document. *)
Definition changelog_doc (store : string) (doc : TupleDocument) (operation : TupleOperation) (now : Z) (u : string)
  : ChangelogDocument :=
  mkChangelogDocument store (td_ObjectType doc) (td_ObjectID doc) (td_Relation doc) (td_User doc) (td_Condition doc)
    operation now u.

(** The body of the loop over the deletes. *)
Definition delete_tuple (store : string) (now : Z) (del : TupleKeyWithoutCondition) : tx unit :=
  let key := mkTupleKey (woc_Object del) (woc_Relation del) (woc_User del) None in
  let filter := buildTupleFilter store (Some key) in
  do! found := tx_find filter in
  match found with
  | Throw ErrNoDocuments => tx_throw (DsStorage (InvalidWriteInputError key OperationDelete))
  | Throw e => tx_throw (DsWrap "find tuple for delete" e)
  | Panic why => λ w p, (Panic why, (w, p))
  | Ret existingDoc =>
      do! _ := tx_tuples "delete tuple" (λ c, DeleteOne c filter) in
      do! u := tx_process ulid_Make in
      tx_changelog "insert changelog entry"
        (λ c, InsertOne c (changelog_doc store existingDoc OperationDelete now u))
  end.

(** The body of the loop over the writes. *)
Definition write_tuple (store : string) (now : Z) (write : TupleKey) : tx unit :=
  do! doc := tx_process (tupleKeyToDoc store write) in
  let filter := buildTupleFilter store (Some write) in
  do! found := tx_find filter in
  match found with
  | Ret _ => tx_throw (DsStorage (InvalidWriteInputError write OperationWrite))
  | Throw ErrNoDocuments =>
      do! _ := tx_tuples "insert tuple" (λ c, InsertOne c doc) in
      do! u := tx_process ulid_Make in
      tx_changelog "insert changelog entry"
        (λ c, InsertOne c (changelog_doc (td_Store doc) doc OperationWrite now u))
  | Throw e => tx_throw (DsWrap "find existing tuple" e)
  | Panic why => λ w p, (Panic why, (w, p))
  end.

Fixpoint tx_each {A} (f : A → tx unit) (l : list A) : tx unit :=
  match l with
  | [] => tx_ret tt
  | x :: rest => do! _ := f x in tx_each f rest
  end.

Definition write_callback (store : string) (deletes : list TupleKeyWithoutCondition) (writes : list TupleKey) : tx unit :=
  do! now := tx_process (λ p, let '(t, p) := time_Now p in (NewDateTimeFromTime t, p)) in
  do! _ := tx_each (delete_tuple store now) deletes in
  tx_each (write_tuple store now) writes.

(** An update of the datastore: its result, the datastore and the process afterwards. *)
Abbreviation ds_updated A := (outcome DsErr A * Datastore * Process)%type.

(** The two errors of [WithTransaction], both wrapped by [Write]. *)
Definition transaction_error (e : DsErr + MongoErr) : DsErr :=
  match e with inl e => DsTransaction e | inr e => DsWrap "transaction failed" e end.

Definition Write (store : string) (deletes : list TupleKeyWithoutCondition) (writes : list TupleKey)
    (ds : Datastore) (p : Process) : ds_updated unit :=
  if bool_decide (MaxTuplesPerWrite ds < zlen deletes + zlen writes)
  then (Throw (DsNew "write batch exceeds maximum allowed size"), ds, p)
  else
    let '(r, (w, p')) := WithTransaction (write_callback store deletes writes) (Tuples ds, Changelog ds) p in
    (match r with Ret a => Ret a | Throw e => Throw (transaction_error e) | Panic why => Panic why end,
     set_session ds w, p').

(** *** Authorization models *)

Definition docToModel (doc : AuthorizationModelDocument) : AuthorizationModel :=
  mkAuthorizationModel (amd_ID doc) (amd_SchemaVersion doc) (amd_TypeDefs doc) (amd_Conditions doc).

Definition ReadAuthorizationModel (ds : Datastore) (store id : string) : outcome DsErr AuthorizationModel :=
  let! doc := or_not_found "find authorization model"
    (find_one (AuthorizationModels ds) (mkFilter (<["id" := bson_str id]> {["store" := bson_str store]}) None) []) in
  Ret (docToModel doc).

Definition ReadAuthorizationModels (ds : Datastore) (store : string) (options : PaginationOptions)
  : outcome DsErr (list AuthorizationModel * string) :=
  let filter := mkFilter {["store" := bson_str store]} None in
  let filter := if negb (From_ options =s "") then set_field "id" (BLt (BString (From_ options))) filter else filter in
  let! cursor := wrap "find authorization models"
    (Find (AuthorizationModels ds) filter (mkFindOptions (PageSize options) [("id", -1)])) in
  let! models := cursor_all "authorization model" cursor in
  Ret (docToModel <$> models, page_token models amd_ID (PageSize options)).

Definition FindLatestAuthorizationModel (ds : Datastore) (store : string) : outcome DsErr AuthorizationModel :=
  let! doc := or_not_found "find latest authorization model"
    (find_one (AuthorizationModels ds) (mkFilter {["store" := bson_str store]} None) [("id", -1)]) in
  Ret (docToModel doc).

Definition WriteAuthorizationModel (store : string) (model : AuthorizationModel) (ds : Datastore) (p : Process) : ds_updated unit :=
  if bool_decide (am_TypeDefinitions model = []) then (Ret tt, ds, p)
  else if bool_decide (MaxTypesPerAuthorizationModel ds < zlen (am_TypeDefinitions model))
  then (Throw (DsNew "authorization model exceeds maximum types limit"), ds, p)
  else
    let '(now, p) := time_Now p in
    let doc := mkModelDocument store (am_Id model) (am_SchemaVersion model) (am_TypeDefinitions model)
                 (am_Conditions model) (NewDateTimeFromTime now) in
    let '(r, c) := InsertOne (AuthorizationModels ds) doc in
    (wrap "insert authorization model" r, set_Models ds c, p).

(** *** Stores *)

(** [openfgav1.Store] as the datastore fills it, with the date of deletion. *)
Record StoreMsg := mkStoreMsg {
  sm_Id : string;
  sm_Name : string;
  sm_CreatedAt : Z;
  sm_UpdatedAt : Z;
  sm_DeletedAt : option Z;
}.

Definition docToStore (doc : StoreDocument) : StoreMsg :=
  mkStoreMsg (sd_ID doc) (sd_Name doc) (DateTime_Time (sd_CreatedAt doc)) (DateTime_Time (sd_UpdatedAt doc))
    (DateTime_Time <$> sd_DeletedAt doc).

Definition CreateStore (id name : string) (ds : Datastore) (p : Process) : ds_updated StoreMsg :=
  if (id =s "") || (name =s "") then (Throw (DsNew "store ID and name are required"), ds, p)
  else
    let '(t, p) := time_Now p in
    let now := NewDateTimeFromTime t in
    let doc := mkStoreDocument id name now now None in
    let '(r, c) := InsertOne (Stores ds) doc in
    (match r with
     | Ret _ => Ret (docToStore doc)
     | Throw ErrDuplicateKey => Throw (DsStorage ErrCollision)
     | Throw e => Throw (DsWrap "insert store" e)
     | Panic why => Panic why
     end, set_Stores ds c, p).

(** The filter of a store that was not deleted. *)
Definition live_store (id : string) : bson_filter :=
  mkFilter (<["deleted_at" := BExists false]> {["id" := bson_str id]}) None.

Definition DeleteStore (id : string) (ds : Datastore) (p : Process) : ds_updated unit :=
  let '(t, p) := time_Now p in
  let '(r, c) := UpdateOne_set (Stores ds) (live_store id) "deleted_at" (BDateTime (NewDateTimeFromTime t)) in
  (wrap "delete store" r, set_Stores ds c, p).

Definition GetStore (ds : Datastore) (id : string) : outcome DsErr StoreMsg :=
  let! doc := or_not_found "find store" (find_one (Stores ds) (live_store id) []) in
  Ret (docToStore doc).

Definition ListStores (ds : Datastore) (options : ListStoresOptions) : outcome DsErr (list StoreMsg * string) :=
  let filter := mkFilter {["deleted_at" := BExists false]} None in
  let filter := if bool_decide (0 < zlen (lso_IDs options)) then set_field "id" (BIn (lso_IDs options)) filter else filter in
  let filter := if negb (lso_Name options =s "") then set_field "name" (BRegex (lso_Name options) "i") filter else filter in
  let from := From_ (lso_Pagination options) in
  let '(filter, sort) :=
    if negb (from =s "") then (set_field "id" (BGt (BString from)) filter, [("id", 1)]) else (filter, []) in
  let! cursor := wrap "find stores" (Find (Stores ds) filter (mkFindOptions (PageSize (lso_Pagination options)) sort)) in
  let! stores := cursor_all "store" cursor in
  Ret (docToStore <$> stores, page_token stores sd_ID (PageSize (lso_Pagination options))).

(** *** Assertions *)

Definition assertions_filter (store modelID : string) : bson_filter :=
  mkFilter (<["model_id" := bson_str modelID]> {["store" := bson_str store]}) None.

Definition WriteAssertions (store modelID : string) (assertions : list Assertion) (ds : Datastore) (p : Process) : ds_updated unit :=
  let '(r, c) := ReplaceOne_upsert (Assertions ds) (assertions_filter store modelID)
                   (mkAssertionDocument store modelID assertions) in
  (wrap "write assertions" r, set_Assertions ds c, p).

Definition ReadAssertions (ds : Datastore) (store modelID : string) : outcome DsErr (list Assertion) :=
  match find_one (Assertions ds) (assertions_filter store modelID) [] with
  | Throw ErrNoDocuments => Ret []
  | r => let! doc := wrap "find assertions" r in Ret (ad_Assertions doc)
  end.

(** *** Changes *)

Definition docToChange (doc : ChangelogDocument) : TupleChange :=
  mkTupleChange (mkTupleKey (BuildObject (cd_ObjectType doc) (cd_ObjectID doc)) (cd_Relation doc) (cd_User doc) (cd_Condition doc))
    (cd_Operation doc) (DateTime_Time (cd_Timestamp doc)).

(** The filter of [ReadChanges]; the clock is read when there is a horizon. *)
Definition changes_filter (store : string) (filter : ReadChangesFilter) (options : PaginationOptions) (sortDesc : bool)
    (p : Process) : bson_filter * Process :=
  let mongoFilter := mkFilter {["store" := bson_str store]} None in
  let mongoFilter := if negb (rcf_ObjectType filter =s "")
                     then set_field "object_type" (bson_str (rcf_ObjectType filter)) mongoFilter else mongoFilter in
  let '(mongoFilter, p) :=
    if bool_decide (0 < rcf_HorizonOffset filter) then
      let '(now, p) := time_Now p in
      let cutoffTime := now - rcf_HorizonOffset filter in
      (set_field "timestamp" (BGte (BDateTime (NewDateTimeFromTime cutoffTime))) mongoFilter, p)
    else (mongoFilter, p) in
  let mongoFilter :=
    if negb (From_ options =s "")
    then set_field "ulid" (if sortDesc then BLt (BString (From_ options)) else BGt (BString (From_ options))) mongoFilter
    else mongoFilter in
  (mongoFilter, p).

Definition ReadChanges (ds : Datastore) (store : string) (filter : ReadChangesFilter) (options : PaginationOptions)
    (sortDesc : bool) (p : Process) : outcome DsErr (list TupleChange * string) * Process :=
  let '(mongoFilter, p) := changes_filter store filter options sortDesc p in
  let sort := [("ulid", if sortDesc then -1 else 1)] in
  let r :=
    let! cursor := wrap "find changes" (Find (Changelog ds) mongoFilter (mkFindOptions (PageSize options) sort)) in
    cursor_all "changelog" cursor in
  match r with
  | Throw e => (Throw e, p)
  | Panic why => (Panic why, p)
  | Ret [] => (Throw (DsStorage ErrNotFound), p)
  | Ret changes =>
      if bool_decide (zlen changes = PageSize options)
      then (Ret (docToChange <$> changes, default "" (cd_ULID <$> last changes)), p)
      else let '(token, p) := ulid_Make p in (Ret (docToChange <$> changes, token), p)
  end.
End datastore.

(** ** Opening a datastore *)

(** [Config], its logger left out; durations in nanoseconds. *)
Record Config := mkConfig {
  URI : string;
  Database : string;
  Username : string;
  Password : string;
  MaxTuplesPerWriteField : Z;
  MaxTypesPerModelField : Z;
  MaxOpenConns : Z;
  ConnMaxIdleTime : Z;
  ConnMaxLifetime : Z;
  ExportMetrics : bool;
}.

Definition WithDatabase (database : string) (c : Config) : Config :=
  mkConfig (URI c) database (Username c) (Password c) (MaxTuplesPerWriteField c) (MaxTypesPerModelField c)
    (MaxOpenConns c) (ConnMaxIdleTime c) (ConnMaxLifetime c) (ExportMetrics c).
Definition WithUsername (username : string) (c : Config) : Config :=
  mkConfig (URI c) (Database c) username (Password c) (MaxTuplesPerWriteField c) (MaxTypesPerModelField c)
    (MaxOpenConns c) (ConnMaxIdleTime c) (ConnMaxLifetime c) (ExportMetrics c).
Definition WithPassword (password : string) (c : Config) : Config :=
  mkConfig (URI c) (Database c) (Username c) password (MaxTuplesPerWriteField c) (MaxTypesPerModelField c)
    (MaxOpenConns c) (ConnMaxIdleTime c) (ConnMaxLifetime c) (ExportMetrics c).
Definition WithMaxTuplesPerWrite (maxTuples : Z) (c : Config) : Config :=
  mkConfig (URI c) (Database c) (Username c) (Password c) maxTuples (MaxTypesPerModelField c)
    (MaxOpenConns c) (ConnMaxIdleTime c) (ConnMaxLifetime c) (ExportMetrics c).
Definition WithMaxTypesPerModel (maxTypes : Z) (c : Config) : Config :=
  mkConfig (URI c) (Database c) (Username c) (Password c) (MaxTuplesPerWriteField c) maxTypes
    (MaxOpenConns c) (ConnMaxIdleTime c) (ConnMaxLifetime c) (ExportMetrics c).

Definition WithMaxOpenConns (maxConns : Z) (c : Config) : Config :=
  mkConfig (URI c) (Database c) (Username c) (Password c) (MaxTuplesPerWriteField c) (MaxTypesPerModelField c)
    maxConns (ConnMaxIdleTime c) (ConnMaxLifetime c) (ExportMetrics c).
Definition WithConnMaxIdleTime (duration : Z) (c : Config) : Config :=
  mkConfig (URI c) (Database c) (Username c) (Password c) (MaxTuplesPerWriteField c) (MaxTypesPerModelField c)
    (MaxOpenConns c) duration (ConnMaxLifetime c) (ExportMetrics c).
Definition WithConnMaxLifetime (duration : Z) (c : Config) : Config :=
  mkConfig (URI c) (Database c) (Username c) (Password c) (MaxTuplesPerWriteField c) (MaxTypesPerModelField c)
    (MaxOpenConns c) (ConnMaxIdleTime c) duration (ExportMetrics c).
Definition WithExportMetrics (enable : bool) (c : Config) : Config :=
  mkConfig (URI c) (Database c) (Username c) (Password c) (MaxTuplesPerWriteField c) (MaxTypesPerModelField c)
    (MaxOpenConns c) (ConnMaxIdleTime c) (ConnMaxLifetime c) enable.

(** [options.ClientOptions], as far as [New] sets it. *)
Record ClientOptions := mkClientOptions {
  co_URI : string;
  co_Auth : option (string * string);
  co_MaxPoolSize : option Z;
  co_MaxConnIdleTime : option Z;
}.

Definition client_options (uri : string) (cfg : Config) : ClientOptions :=
  mkClientOptions uri
    (if negb (Username cfg =s "") && negb (Password cfg =s "") then Some (Username cfg, Password cfg) else None)
    (if bool_decide (0 < MaxOpenConns cfg) then Some (MaxOpenConns cfg) else None)
    (if bool_decide (0 < ConnMaxIdleTime cfg) then Some (ConnMaxIdleTime cfg) else None).

Section opening.
Context `{!Ulid, !Mongo}.

(** The collections of a database. *)
Record MongoDatabase := mkDatabase {
  db_tuples : collection TupleDocument;
  db_models : collection AuthorizationModelDocument;
  db_stores : collection StoreDocument;
  db_assertions : collection AssertionDocument;
  db_changelog : collection ChangelogDocument;
}.

(** [ping] is the outcome of [backoff.Retry] around [client.Ping]. *)
Definition NewWithDB (ping : outcome MongoErr unit) (database : MongoDatabase) (cfg : Config) : outcome DsErr Datastore :=
  let! _ := wrap "ping mongodb" ping in
  let datastore := mkDatastore (db_tuples database) (db_models database) (db_stores database) (db_assertions database)
                     (db_changelog database) (MaxTuplesPerWriteField cfg) (MaxTypesPerModelField cfg) in
  match createIndexes datastore with
  | (Ret _, datastore) => Ret datastore
  | (Throw e, _) => Throw (DsCreateIndexes e)
  | (Panic w, _) => Panic w
  end.

(** The client: [mongo.Connect], [client.Database] and the retried ping. *)
Definition New {client : Type} (Connect : ClientOptions → outcome MongoErr client) (client_Database : client → string → MongoDatabase)
    (ping : client → outcome MongoErr unit) (uri : string) (cfg : Config) : outcome DsErr Datastore :=
  if Database cfg =s "" then Throw (DsNew "database name is required")
  else
    let! c := wrap "initialize mongodb connection" (Connect (client_options uri cfg)) in
    NewWithDB (ping c) (client_Database c (Database cfg)) cfg.

(** [IsReady]: the message and the flag. *)
Definition IsReady (ping : outcome MongoErr unit) : string * bool :=
  match ping with
  | Ret _ => ("MongoDB connection is ready", true)
  | _ => ("MongoDB connection not ready", false)
  end.
End opening.
