(* ===== verification/MongoSpec.v ===== *)
(** * The contract of the MongoDB datastore

    The theorems about [Mongo.v], for every server that keeps the promises of
    [MongoDriver.v]: [Write] refines the abstract store of [Memory.v] and is atomic, the
    datastore's invariant, what reads return, and following the tokens of [ReadChanges]. *)

From S2P Require Import Prelude GoStd Tuple Iterators Model Memory MongoDriver Mongo.

Local Open Scope Z_scope.
Local Open Scope go_scope.

(** ** The process *)

Section process.
Context `{!Ulid, !UlidLaws, !Clock, !ClockLaws}.

Global Instance later_PreOrder : PreOrder later.
Proof.
  split; [by split|]. intros p q r [Hpq Hpq'] [Hqr Hqr']. split; [lia|auto].
Qed.

Lemma clock_ms_monotonic i j : (i ≤ j)%nat → clock_reading i / 1000000 ≤ clock_reading j / 1000000.
Proof. intros Hij%clock_monotonic. apply Z.div_le_mono; lia. Qed.

Lemma time_Now_later p : later p (time_Now p).2.
Proof.
  split; [simpl; lia|]. unfold process_ok. simpl. intros Hp. etrans; [exact Hp|]. apply clock_ms_monotonic. lia.
Qed.

(** A new ULID is above every earlier one. *)
Lemma ulid_Make_spec p :
  process_ok p →
  ∃ u p', ulid_Make p = (ulid_String u, p') ∧ (last_ulid (pr_entropy p) < u)%N ∧ last_ulid (pr_entropy p') = u ∧
    later p p' ∧ process_ok p'.
Proof.
  intros Hp. unfold ulid_Make. simpl. destruct (MustNew_monotonic _ _ Hp) as (Hlt&Hlast&Hms).
  destruct (MustNew _ _) as [u e]. simpl in *. eexists _, _. split; [done|]. simpl.
  assert (process_ok (mkProcess _ (S (pr_ticks p)) e)) as Hok.
  { unfold process_ok. simpl. rewrite Hms. apply clock_ms_monotonic. lia. }
  split_and!; [done|done| |done]. split; [simpl; lia|done].
Qed.
End process.

(** ** Filters *)

Section filters.
Context (regex : string → string → string → bool) `{!BsonDoc D}.

Lemma fields_select_empty (d : D) : fields_select regex ∅ d = true.
Proof. unfold fields_select. by rewrite map_to_list_empty. Qed.

Lemma fields_select_insert k c (m : bson_M) (d : D) :
  m !! k = None → fields_select regex (<[k := c]> m) d = cond_selects regex c (doc_field d k) && fields_select regex m d.
Proof. intros Hk. unfold fields_select. rewrite (forallb_perm _ _ _ (map_to_list_insert m k c Hk)). done. Qed.

Lemma fields_select_singleton k c (d : D) : fields_select regex {[k := c]} d = cond_selects regex c (doc_field d k).
Proof. rewrite <-insert_empty, fields_select_insert, fields_select_empty, andb_true_r by apply lookup_empty. done. Qed.

Lemma selects_fields (m : bson_M) (d : D) : selects regex (mkFilter m None) d = fields_select regex m d.
Proof. unfold selects. simpl. by rewrite andb_true_r. Qed.

Lemma selects_or (m : bson_M) l (d : D) :
  selects regex (mkFilter m (Some l)) d = fields_select regex m d && existsb (λ m', fields_select regex m' d) l.
Proof. done. Qed.
End filters.

Lemma bson_str_eq (s t : string) : bool_decide (Some (BString s) = Some (BString t)) = (s =s t).
Proof. apply bool_decide_ext. naive_solver. Qed.

(** Compute the fields of a document that is not known. *)
Ltac eval_fields :=
  repeat match goal with
  | |- context [@doc_field ?D ?I ?d ?k] =>
      let v := eval cbv -[td_Store td_ObjectType td_ObjectID td_Relation td_User td_Condition td_InsertedAt td_ULID
                          amd_Store amd_ID sd_ID sd_Name sd_DeletedAt ad_Store ad_ModelID
                          cd_Store cd_ObjectType cd_ObjectID cd_Timestamp cd_ULID fmap option_fmap] in (@doc_field D I d k) in
      change (@doc_field D I d k) with v
  end.

(** Compute the test of a filter on a document. *)
Ltac eval_filter :=
  unfold set_field, set_or; cbn [f_fields f_or];
  rewrite ?selects_fields, ?selects_or;
  repeat (rewrite fields_select_insert by (by simplify_map_eq));
  rewrite ?fields_select_singleton, ?fields_select_empty; unfold bson_str; cbn [cond_selects];
  eval_fields; rewrite ?bson_str_eq.

(** ** The tuples of a collection *)

(** The abstract tuple of a document. *)
Definition doc_key (d : TupleDocument) : akey :=
  (BuildObject (td_ObjectType d) (td_ObjectID d), td_Relation d, td_User d).

(** The tuples of a store. *)
Definition tuples_of (store : string) (l : list TupleDocument) : gset akey :=
  list_to_set (doc_key <$> List.filter (λ d, td_Store d =s store) l).

(** Replaying a changelog. *)
Definition replay_doc (S : gset akey) (c : ChangelogDocument) : gset akey :=
  let k := (BuildObject (cd_ObjectType c) (cd_ObjectID c), cd_Relation c, cd_User c) in
  match cd_Operation c with OperationWrite => S ∪ {[k]} | OperationDelete => S ∖ {[k]} end.
Definition replay_docs (store : string) (l : list ChangelogDocument) : gset akey :=
  foldl replay_doc ∅ (List.filter (λ c, cd_Store c =s store) l).

Lemma elem_of_tuples_of store l k :
  k ∈ tuples_of store l ↔ ∃ d, d ∈ l ∧ td_Store d = store ∧ doc_key d = k.
Proof.
  unfold tuples_of. rewrite elem_of_list_to_set, list_elem_of_fmap. setoid_rewrite list_elem_of_In.
  setoid_rewrite List.filter_In. setoid_rewrite bool_decide_eq_true. setoid_rewrite <-list_elem_of_In. naive_solver.
Qed.

Global Instance tuples_of_Proper store : Proper ((≡ₚ) ==> eq) (tuples_of store).
Proof. intros l l' Hl. apply set_eq. intros k. rewrite !elem_of_tuples_of. by setoid_rewrite Hl. Qed.

Lemma tuples_of_cons store d l :
  tuples_of store (d :: l) = if td_Store d =s store then {[doc_key d]} ∪ tuples_of store l else tuples_of store l.
Proof. unfold tuples_of. simpl. by case_bool_decide. Qed.

Lemma replay_docs_snoc store l c :
  replay_docs store (l ++ [c]) = if cd_Store c =s store then replay_doc (replay_docs store l) c else replay_docs store l.
Proof. unfold replay_docs. rewrite List.filter_app, foldl_app. simpl. by case_bool_decide. Qed.

(** A condition without a context of its own. *)
Definition cond_plain (c : option RelationshipCondition) : Prop :=
  match c with Some c => cond_Context c = None | None => True end.

(** The struct codec of the driver reads a document of texts, times and nested structs of
    texts back as it was written.  The values of a condition's context are interfaces of a
    protobuf oneof, of which nothing is assumed. *)
Class BsonLaws `{!Ulid, !Mongo} := {
  Decode_tuple (d : TupleDocument) : cond_plain (td_Condition d) → Decode d = Ret d;
  Decode_change (c : ChangelogDocument) : cond_plain (cd_Condition c) → Decode c = Ret c;
}.

Section contract.
Context `{!Ulid, !UlidLaws, !UlidOrder, !Clock, !ClockLaws, !Mongo, !MongoLaws, !BsonLaws}.

Definition wf_doc (d : TupleDocument) : Prop :=
  has_byte ":" (td_ObjectType d) = false ∧ td_ObjectID d ≠ "" ∧ td_Relation d ≠ "" ∧ td_User d ≠ "" ∧
  cond_plain (td_Condition d).

(** On complete keys the filter of a tuple key is equality. *)
Lemma tuple_filter_spec store tk d :
  wf_doc d → complete_key (key_of tk) →
  selects regex_match (buildTupleFilter store (Some tk)) d = true ↔ td_Store d = store ∧ doc_key d = key_of tk.
Proof.
  intros (Ht&Hid&Hr&Hu&_) ((ot&oid&Ho&Hot&Hoid)&Hr'&Hu').
  unfold buildTupleFilter, doc_key, key_of in *. destruct tk as [o r u c]; simpl in *. subst o.
  rewrite SplitObject_build, (bool_decide_false (r = "")), (bool_decide_false (u = "")) by done.
  rewrite bool_decide_false by (unfold BuildObject; by destruct ot). simpl. eval_filter.
  rewrite !andb_true_iff, !bool_decide_eq_true, !pair_equal_spec. split.
  - naive_solver.
  - intros (->&(Heq&->)&->). apply BuildObject_inj in Heq as [-> ->]; done.
Qed.

(** ** The invariant of a session *)

Abbreviation session := (collection TupleDocument * collection ChangelogDocument)%type.

(** [l] is the changelog in the order of its ULIDs. *)
Record session_inv (w : session) (p : Process) (l : list ChangelogDocument) : Prop := mkSessionInv {
  si_process : process_ok p;
  si_index ix : ix ∈ indexes w.1 → ix_Unique ix = true → ix = unique_tuple_index;
  si_log_index ix : ix ∈ indexes w.2 → ix_Unique ix = false;
  si_wf : Forall wf_doc (docs w.1);
  si_unique : NoDup ((λ d, (td_Store d, doc_key d)) <$> docs w.1);
  si_log : docs w.2 ≡ₚ l;
  si_ulids : ∃ us, cd_ULID <$> l = ulid_String <$> us ∧ StronglySorted N.lt us ∧
               Forall (λ u, u ≤ last_ulid (pr_entropy p))%N us;
  si_replay store : replay_docs store l = tuples_of store (docs w.1);
}.

Lemma session_inv_later w p p' l : session_inv w p l → later p p' → session_inv w p' l.
Proof.
  intros [Hp Hix Hlix Hwf Hnd Hlog (us&Hus&Hss&Hle) Hre] [Hlast Hok]. split; [by apply Hok|done..| |done].
  exists us. split_and!; [done..|]. eapply Forall_impl; [exact Hle|]. simpl. lia.
Qed.

Lemma StronglySorted_snoc {A} (R : relation A) l x :
  StronglySorted R l → Forall (λ y, R y x) l → StronglySorted R (l ++ [x]).
Proof.
  induction 1 as [|y l Hl IH Hy]; simpl; [by repeat constructor|]. intros Hx. apply Forall_cons in Hx as [Hyx Hx].
  constructor; [by apply IH|]. apply Forall_app. by split; [|apply Forall_singleton].
Qed.

(** A server failed, although it answers every call when it is up. *)
Definition server_down (e : DsErr) : Prop := (∃ msg what, e = DsWrap msg (ErrServer what)) ∧ ¬ MongoUp.

(** What a step of a transaction establishes: [Q] when it goes on, [X] of its error. *)
Definition tx_ok {A} (m : tx A) (w : session) (p : Process) (Q : A → session → Process → Prop) (X : DsErr → Prop) : Prop :=
  match m w p with
  | (Ret a, (w', p')) => Q a w' p' ∧ later p p'
  | (Throw e, (_, p')) => X e ∧ later p p'
  | (Panic _, _) => False
  end.

Lemma tx_ok_bind {A B} (m : tx A) (k : A → tx B) w p Q X :
  tx_ok m w p (λ a w' p', tx_ok (k a) w' p' Q X) X → tx_ok (tx_bind m k) w p Q X.
Proof.
  unfold tx_ok, tx_bind. destruct (m w p) as [[a|e|why] [w' p']]; [|done..]. intros [Hk Hl].
  destruct (k a w' p') as [[b|e|why] [w'' p'']]; [..|done]; destruct Hk; split; try done; by etrans.
Qed.

Lemma tx_ok_impl {A} (m : tx A) w p (Q Q' : A → session → Process → Prop) (X X' : DsErr → Prop) :
  tx_ok m w p Q X → (∀ a w' p', Q a w' p' → later p p' → Q' a w' p') → (∀ e, X e → X' e) → tx_ok m w p Q' X'.
Proof.
  intros Hm HQ HX. unfold tx_ok in *. destruct (m w p) as [[a|e|why] [w' p']]; naive_solver.
Qed.

Lemma tx_ok_ulid w p (Q : string → session → Process → Prop) X :
  process_ok p →
  (∀ u p', (last_ulid (pr_entropy p) < u)%N → last_ulid (pr_entropy p') = u → process_ok p' → later p p' → Q (ulid_String u) w p') →
  tx_ok (tx_process ulid_Make) w p Q X.
Proof.
  intros Hp HQ. unfold tx_ok, tx_process. destruct (ulid_Make_spec p Hp) as (u&p'&->&Hlt&Hlast&Hl&Hp').
  split; [|done]. by apply HQ.
Qed.

(** ** The steps of a transaction *)

Section steps.
Context (store : string) (w : session) (p : Process) (l : list ChangelogDocument).
Hypothesis Hinv : session_inv w p l.

Abbreviation tuples := (tuples_of store (docs w.1)).

Lemma inv_wf d : d ∈ docs w.1 → wf_doc d.
Proof. intros Hd. pose proof (si_wf _ _ _ Hinv) as Hwf. rewrite Forall_forall in Hwf. by apply Hwf. Qed.

Lemma inv_unique d d' : d ∈ docs w.1 → d' ∈ docs w.1 → td_Store d = td_Store d' → doc_key d = doc_key d' → d = d'.
Proof.
  intros Hd Hd' Hs Hk. eapply (NoDup_fmap_elem (λ d, (td_Store d, doc_key d))); [apply Hinv|done..|]. simpl. by rewrite Hs, Hk.
Qed.

Lemma selected_docs f d :
  d ∈ List.filter (selects regex_match f) (docs w.1) ↔ d ∈ docs w.1 ∧ selects regex_match f d = true.
Proof. by rewrite list_elem_of_In, List.filter_In, <-list_elem_of_In. Qed.

(** Finding the document of a key. *)
Lemma find_key tk :
  complete_key (key_of tk) →
  match find_one w.1 (buildTupleFilter store (Some tk)) [] with
  | Ret d => d ∈ docs w.1 ∧ td_Store d = store ∧ doc_key d = key_of tk
  | Throw ErrNoDocuments => key_of tk ∉ tuples
  | Throw e => (∃ what, e = ErrServer what) ∧ ¬ MongoUp
  | Panic _ => False
  end.
Proof.
  intros Hk. unfold find_one. pose proof (FindOne_law w.1 (buildTupleFilter store (Some tk)) []) as Hlaw.
  destruct (FindOne _ _ _) as [d|e|why] eqn:E; simpl; [| |done].
  - destruct Hlaw as (r&Hperm&_). assert (d ∈ docs w.1 ∧ selects regex_match (buildTupleFilter store (Some tk)) d = true) as [Hd Hs].
    { apply selected_docs. rewrite <-Hperm. apply list_elem_of_here. }
    pose proof (inv_wf d Hd) as Hwf. rewrite (Decode_tuple d (proj2 (proj2 (proj2 (proj2 Hwf))))).
    apply tuple_filter_spec in Hs; [|done..]. by split.
  - destruct e; [|destruct Hlaw as [? [=]]..|].
    + rewrite elem_of_tuples_of. intros (d&Hd&Hs&Hdk). apply (not_elem_of_nil d). rewrite <-Hlaw.
      apply selected_docs. split; [done|]. apply tuple_filter_spec; [by apply inv_wf|done..].
    + split; [by eexists|]. intros Hup. by eapply up_FindOne in E.
Qed.

(** Appending to the changelog. *)
Lemma log_append (c : ChangelogDocument) tl p' u :
  later p p' → process_ok p' → cd_ULID c = ulid_String u → (last_ulid (pr_entropy p) < u)%N → last_ulid (pr_entropy p') = u →
  (∀ other, replay_docs other (l ++ [c]) = tuples_of other (docs tl)) →
  Forall wf_doc (docs tl) → NoDup ((λ d, (td_Store d, doc_key d)) <$> docs tl) → indexes tl = indexes w.1 →
  tx_ok (tx_changelog "insert changelog entry" (λ x, InsertOne x c)) (tl, w.2) p'
    (λ _ w' p'', w'.1 = tl ∧ session_inv w' p'' (l ++ [c])) server_down.
Proof.
  intros Hlater Hp' Hc Hlt Hlast Hre Hwf Hnd Hix. unfold tx_ok, tx_changelog. cbn [snd fst].
  pose proof (InsertOne_law w.2 c) as [Hixs Hlaw]. destruct (InsertOne w.2 c) as [r c'] eqn:E. simpl in *.
  destruct r as [[]|e|why]; simpl; [|destruct e|done].
  - destruct Hlaw as [_ Hdocs]. split; [|done]. split; [done|]. destruct Hinv as [Hp Hi Hli _ _ Hlog (us&Hus&Hss&Hle) _].
    split; simpl; [done|by rewrite Hix|by rewrite Hixs|done|done| | |done].
    + rewrite Hdocs, Hlog. by rewrite Permutation_app_comm.
    + exists (us ++ [u]). rewrite !fmap_app, Hus. simpl. rewrite Hc. split_and!; [done| |].
      * apply StronglySorted_snoc; [done|]. eapply Forall_impl; [exact Hle|]. simpl. lia.
      * apply Forall_app. split; [|apply Forall_singleton; lia]. eapply Forall_impl; [exact Hle|]. simpl. lia.
  - by destruct Hlaw as [[? [=]] _].
  - exfalso. destruct Hlaw as [Hlaw _]. unfold index_refuses in Hlaw. apply existsb_exists in Hlaw as (ix&Hin&Hc').
    apply existsb_exists in Hc' as (d&_&Hc'). unfold index_conflict in Hc'.
    rewrite (si_log_index _ _ _ Hinv ix) in Hc'; [done|by apply list_elem_of_In].
  - by destruct Hlaw as [[? [=]] _].
  - split; [|done]. split; [by eexists _, _|]. intros Hup. apply (up_InsertOne w.2 c what). by rewrite E.
Qed.

(** What the step for the key [k] leaves behind: the tuples of [store] are now [S], the
    documents of other tuples are as they were, and the changelog has one entry more. *)
Definition stepped (k : akey) (S : gset akey) (w' : session) (p' : Process) : Prop :=
  (∃ c, session_inv w' p' (l ++ [c])) ∧ tuples_of store (docs w'.1) = S ∧
  ∀ d, (td_Store d, doc_key d) ≠ (store, k) → d ∈ docs w'.1 ↔ d ∈ docs w.1.

Lemma find_error_ok {A} msg e (m : tx A) Q X :
  (∃ what, e = ErrServer what) ∧ ¬ MongoUp → (∀ e, server_down e → X e) →
  m = tx_throw (DsWrap msg e) → tx_ok m w p Q X.
Proof. intros [[what ->] Hup] HX ->. split; [|done]. apply HX. split; [by eexists _, _|done]. Qed.

Lemma delete_tuple_ok now del (k := key_of_woc del) :
  complete_key k →
  tx_ok (delete_tuple store now del) w p (λ _ w' p', k ∈ tuples ∧ stepped k (tuples ∖ {[k]}) w' p')
    (λ e, server_down e ∨ ((k ∉ tuples) ∧ e = DsStorage (ErrInvalidWriteInput k.2 k.1.2 k.1.1 OperationDelete))).
Proof.
  intros Hk. unfold delete_tuple. set (tk := mkTupleKey _ _ _ _). set (f := buildTupleFilter _ _).
  apply tx_ok_bind. split; [|done]. pose proof (find_key tk Hk) as Hfind. fold f in Hfind.
  destruct (find_one w.1 f []) as [d|e|why]; [| |done].
  2: { destruct e; try (eapply find_error_ok; [exact Hfind|by left|done]). split; [|done]. by right. }
  destruct Hfind as (Hd&Hs&Hdk). assert (k ∈ tuples) as Hin by (apply elem_of_tuples_of; eauto).
  apply tx_ok_bind. unfold tx_ok at 1, tx_tuples. pose proof (DeleteOne_law w.1 f) as [Hixs Hlaw].
  destruct (DeleteOne w.1 f) as [r c] eqn:E. simpl in Hixs, Hlaw. destruct r as [[]|e|why]; simpl; [| |done].
  2: { destruct Hlaw as [[what ->] _]. split; [|done]. left. split; [by eexists _, _|]. intros Hup.
       apply (up_DeleteOne w.1 f what). by rewrite E. }
  split; [|done]. destruct Hlaw as [[Hnone _]|(d'&Hsel&Hperm)].
  { exfalso. apply (not_elem_of_nil d). rewrite <-Hnone. apply selected_docs. split; [done|].
    apply tuple_filter_spec; [by apply inv_wf|done..]. }
  assert (d' ∈ docs w.1) as Hd' by (rewrite Hperm; apply list_elem_of_here).
  apply tuple_filter_spec in Hsel as [Hs' Hk']; [|by apply inv_wf|done].
  assert (d' = d) as -> by (apply inv_unique; congruence).
  pose proof (si_unique _ _ _ Hinv) as Hnd. pose proof (si_wf _ _ _ Hinv) as Hwf. rewrite Hperm in Hnd, Hwf.
  simpl in Hnd. apply NoDup_cons in Hnd as [Hnot Hnd]. apply Forall_cons in Hwf as [_ Hwf].
  assert (k ∉ tuples_of store (docs c)) as Hgone.
  { rewrite elem_of_tuples_of. intros (x&Hx&Hxs&Hxk). apply Hnot. apply list_elem_of_fmap. exists x.
    split; [|done]. by rewrite Hs, Hxs, Hxk, Hdk. }
  assert (∀ other, tuples_of other (docs c) = if other =s store then tuples ∖ {[k]} else tuples_of other (docs w.1)) as Hset.
  { intros other. case_bool_decide as Ho; rewrite Hperm, tuples_of_cons, Hs.
    - subst other. rewrite bool_decide_true, Hdk by done. change (key_of tk) with k. set_solver.
    - by rewrite bool_decide_false by congruence. }
  apply tx_ok_bind, tx_ok_ulid; [apply Hinv|]. intros u p' Hlt Hlast Hp' Hl.
  eapply tx_ok_impl; [apply (log_append _ c p' u); try done| |by left].
  - intros other. rewrite replay_docs_snoc, Hset, (si_replay _ _ _ Hinv). simpl. case_bool_decide as Ho.
    + subst other. rewrite bool_decide_true by done. unfold replay_doc; simpl. fold (doc_key d). by rewrite Hdk.
    + by rewrite bool_decide_false.
  - intros _ w' p'' [Hw Hinv'] _. split; [done|]. split; [by eexists|]. rewrite Hw, Hset, bool_decide_true by done.
    split; [done|]. intros x Hx. rewrite Hperm, elem_of_cons. split; [by right|]. intros [->|?]; [|done].
    destruct Hx. by rewrite Hs, Hdk.
Qed.

(** No document of the collection stands in the way of a new key. *)
Lemma insert_not_refused doc :
  wf_doc doc → td_Store doc = store → doc_key doc ∉ tuples → index_refuses (indexes w.1) (docs w.1) doc = false.
Proof.
  intros Hdoc Hs Hnot. apply not_true_is_false. intros Hr. apply Hnot. unfold index_refuses in Hr.
  apply existsb_exists in Hr as (ix&Hix%list_elem_of_In&Hr). apply existsb_exists in Hr as (d&Hd%list_elem_of_In&Hr).
  apply elem_of_tuples_of. exists d. split; [done|]. unfold index_conflict in Hr. apply andb_true_iff in Hr as [Hu Hr].
  rewrite (si_index _ _ _ Hinv ix Hix Hu) in Hr. cbn [ix_Keys unique_tuple_index forallb] in Hr.
  revert Hr. eval_fields. intros Hr. bool_norm. unfold doc_key. split; congruence.
Qed.

Lemma tupleKeyToDoc_spec tk :
  complete_key (key_of tk) → cond_plain (Condition tk) →
  ∃ doc p', tupleKeyToDoc store tk p = (doc, p') ∧ later p p' ∧ wf_doc doc ∧ td_Store doc = store ∧
    doc_key doc = key_of tk ∧ td_Condition doc = Condition tk.
Proof.
  intros ((ot&oid&Ho&Hot&Hoid)&Hr&Hu) Hc. unfold tupleKeyToDoc. rewrite Ho, SplitObject_build by done.
  destruct (time_Now p) as [now p1] eqn:En. pose proof (time_Now_later p) as Hl1. rewrite En in Hl1. simpl in Hl1.
  assert (process_ok p1) as Hp1 by (apply Hl1, Hinv).
  destruct (ulid_Make_spec p1 Hp1) as (u&p2&->&_&_&Hl2&_). eexists _, _. split; [done|].
  split; [by etrans|]. split_and!; try done. unfold doc_key, key_of. simpl. by rewrite Ho.
Qed.
End steps.

(** The collection has the document of a written tuple, with its condition. *)
Definition written (store : string) (tk : TupleKey) (w : session) : Prop :=
  ∃ d, d ∈ docs w.1 ∧ td_Store d = store ∧ doc_key d = key_of tk ∧ td_Condition d = Condition tk.

Lemma write_tuple_ok store w p l now tk (k := key_of tk) (T := tuples_of store (docs w.1)) :
  session_inv w p l → complete_key k → cond_plain (Condition tk) →
  tx_ok (write_tuple store now tk) w p (λ _ w' p', (k ∉ T) ∧ stepped store w l k (T ∪ {[k]}) w' p' ∧ written store tk w')
    (λ e, server_down e ∨ (k ∈ T ∧ e = DsStorage (ErrInvalidWriteInput k.2 k.1.2 k.1.1 OperationWrite))).
Proof.
  intros Hinv Hk Hc. unfold write_tuple. apply tx_ok_bind. unfold tx_ok at 1, tx_process.
  destruct (tupleKeyToDoc_spec store w p l Hinv tk Hk Hc) as (doc&p1&->&Hl1&Hdoc&Hs&Hdk&Hcond). split; [|done].
  apply (session_inv_later _ _ p1) in Hinv; [|done].
  apply tx_ok_bind. split; [|done]. pose proof (find_key store w p1 l Hinv tk Hk) as Hfind.
  destruct (find_one w.1 _ []) as [d|e|why]; [| |done].
  { split; [|done]. right. split; [|done]. apply elem_of_tuples_of. exists d. naive_solver. }
  destruct e; try (eapply (find_error_ok w p1); [exact Hfind|by left|done]).
  apply tx_ok_bind. unfold tx_ok at 1, tx_tuples. pose proof (InsertOne_law w.1 doc) as [Hixs Hlaw].
  rewrite (insert_not_refused store w p1 l Hinv doc Hdoc Hs) in Hlaw by by rewrite Hdk.
  destruct (InsertOne w.1 doc) as [r c] eqn:E. simpl in Hixs, Hlaw.
  destruct r as [[]|e|why]; simpl; [| |done].
  2: { destruct e; [by destruct Hlaw as [[? [=]] _]|by destruct Hlaw|by destruct Hlaw as [[? [=]] _]|].
       split; [|done]. left. split; [by eexists _, _|]. intros Hup. apply (up_InsertOne w.1 doc what). by rewrite E. }
  destruct Hlaw as [_ Hperm]. split; [|done].
  assert (∀ other, tuples_of other (docs c) = if other =s store then T ∪ {[k]} else tuples_of other (docs w.1)) as Hset.
  { intros other. rewrite Hperm, tuples_of_cons, Hs. case_bool_decide as Ho.
    - subst other. rewrite bool_decide_true, Hdk by done. apply (comm_L (∪)).
    - by rewrite bool_decide_false by congruence. }
  apply tx_ok_bind, tx_ok_ulid; [apply Hinv|]. intros u p' Hlt Hlast Hp' Hl.
  eapply tx_ok_impl; [apply (log_append w p1 l Hinv _ c p' u); try done| |by left].
  - intros other. rewrite replay_docs_snoc, Hset, (si_replay _ _ _ Hinv). simpl. rewrite Hs. case_bool_decide as Ho.
    + subst other. rewrite bool_decide_true by done. unfold replay_doc; simpl. fold (doc_key doc). by rewrite Hdk.
    + by rewrite bool_decide_false.
  - rewrite Hperm. constructor; [done|apply Hinv].
  - rewrite Hperm. simpl. apply NoDup_cons. split; [|apply Hinv]. intros (d&Heq&Hd)%list_elem_of_fmap.
    apply Hfind, elem_of_tuples_of. exists d. apply pair_equal_spec in Heq as [<- <-]. by rewrite Hs, Hdk.
  - intros _ w' p'' [Hw Hinv'] _. split; [done|]. split.
    + split; [by eexists|]. rewrite Hw, Hset, bool_decide_true by done.
      split; [done|]. intros x Hx. rewrite Hperm, elem_of_cons. split; [|by right]. intros [->|?]; [|done].
      destruct Hx. by rewrite Hs, Hdk.
    + exists doc. rewrite Hw, Hperm. split; [apply list_elem_of_here|done].
Qed.

(** ** The loops *)

(** After the steps of a transaction on [store] for the keys [ks]. *)
Definition advanced (store : string) (w : session) (l : list ChangelogDocument) (ks : list akey) (S : gset akey)
    (w' : session) (p' : Process) : Prop :=
  (∃ cs, length cs = length ks ∧ session_inv w' p' (l ++ cs)) ∧ tuples_of store (docs w'.1) = S ∧
  ∀ d, td_Store d ≠ store ∨ doc_key d ∉ ks → d ∈ docs w'.1 ↔ d ∈ docs w.1.

(** Steps followed by others. *)
Lemma session_advanced_trans store w l ks cs w1 ks' S' w2 p2 :
  length cs = length ks → (∀ d, td_Store d ≠ store ∨ doc_key d ∉ ks → d ∈ docs w1.1 ↔ d ∈ docs w.1) →
  advanced store w1 (l ++ cs) ks' S' w2 p2 → advanced store w l (ks ++ ks') S' w2 p2.
Proof.
  intros Hlen Hframe ((cs'&Hlen'&Hinv')&Hset&Hframe'). split_and!; [|done|].
  - exists (cs ++ cs'). rewrite !length_app, app_assoc. split; [by rewrite Hlen, Hlen'|done].
  - intros d Hd. rewrite Hframe', Hframe; set_solver.
Qed.

Section loop.
Context {A : Type} (step : A → tx unit) (key : A → akey) (store : string) (op : TupleOperation).
(** whether a key may be processed, the tuples then, and what the step made *)
Context (okay : akey → gset akey → Prop) (apply_to : gset akey → akey → gset akey) (valid : A → Prop).
Context (made : A → session → Prop).
Abbreviation invalid x := (DsStorage (ErrInvalidWriteInput (key x).2 (key x).1.2 (key x).1.1 op)).
Hypothesis step_ok : ∀ w p l x, session_inv w p l → valid x →
  tx_ok (step x) w p (λ _ w' p', okay (key x) (tuples_of store (docs w.1)) ∧
                                 stepped store w l (key x) (apply_to (tuples_of store (docs w.1)) (key x)) w' p' ∧ made x w')
    (λ e, server_down e ∨ (¬ okay (key x) (tuples_of store (docs w.1)) ∧ e = invalid x)).
Hypothesis okay_frame : ∀ S k k', k ≠ k' → okay k (apply_to S k') ↔ okay k S.
Hypothesis made_frame : ∀ x (ks : list akey) w w', key x ∉ ks →
  (∀ d, td_Store d ≠ store ∨ doc_key d ∉ ks → d ∈ docs w'.1 ↔ d ∈ docs w.1) → made x w → made x w'.

Lemma loop_ok xs w p l (T := tuples_of store (docs w.1)) :
  session_inv w p l → Forall valid xs → NoDup (key <$> xs) →
  tx_ok (tx_each step xs) w p
    (λ _ w' p', Forall (λ x, okay (key x) T) xs ∧ Forall (λ x, made x w') xs ∧
                advanced store w l (key <$> xs) (foldl apply_to T (key <$> xs)) w' p')
    (λ e, server_down e ∨ ∃ x, x ∈ xs ∧ ¬ okay (key x) T ∧ e = invalid x).
Proof.
  revert w p l T. induction xs as [|x xs IH]; intros w p l T Hinv Hvalid Hnd; simpl.
  { split; [|done]. split_and!; [constructor..|]. split_and!; [|done|done]. exists []. by rewrite app_nil_r. }
  apply Forall_cons in Hvalid as [Hx Hvalid]. apply NoDup_cons in Hnd as [Hnot Hnd].
  apply tx_ok_bind. eapply tx_ok_impl; [by apply step_ok| |].
  2: { intros e [He|[He ->]]; [by left|right]. exists x. split; [apply list_elem_of_here|done]. }
  intros _ w1 p1 (Hok&((c&Hinv1)&Hset&Hframe)&Hmade) _.
  assert (∀ y, y ∈ xs → okay (key y) (tuples_of store (docs w1.1)) ↔ okay (key y) T) as Hokay.
  { intros y Hy. rewrite Hset. apply okay_frame. intros Heq. apply Hnot. rewrite <-Heq. by apply list_elem_of_fmap_2. }
  eapply tx_ok_impl; [by apply (IH w1 p1 (l ++ [c]))| |].
  - intros _ w2 p2 (Hall&Hmades&Hadv) _. split_and!.
    + constructor; [done|]. rewrite Forall_forall in Hall |- *. intros y Hy. apply Hokay; auto.
    + constructor; [|done]. destruct Hadv as (_&_&Hframe'). by eapply made_frame.
    + rewrite Hset in Hadv. apply (session_advanced_trans store w l [key x] [c] w1); [done| |done].
      intros d Hd. apply Hframe. set_solver.
  - intros e [He|(y&Hy&Hno&->)]; [by left|right]. exists y. split; [by apply list_elem_of_further|].
    split; [|done]. by rewrite <-Hokay.
Qed.
End loop.

Lemma foldl_difference (ks : list akey) (T : gset akey) : foldl (λ T k, T ∖ {[k]}) T ks = T ∖ list_to_set ks.
Proof. revert T. induction ks as [|k ks IH]; intros T; simpl; [set_solver|]. rewrite IH. set_solver. Qed.

Lemma foldl_union (ks : list akey) (T : gset akey) : foldl (λ T k, T ∪ {[k]}) T ks = T ∪ list_to_set ks.
Proof. revert T. induction ks as [|k ks IH]; intros T; simpl; [set_solver|]. rewrite IH. set_solver. Qed.

Lemma written_frame store tk (ks : list akey) w w' :
  key_of tk ∉ ks → (∀ d, td_Store d ≠ store ∨ doc_key d ∉ ks → d ∈ docs w'.1 ↔ d ∈ docs w.1) →
  written store tk w → written store tk w'.
Proof.
  intros Hk Hframe (d&Hd&Hs&Hdk&Hc). exists d. split; [|done]. apply Hframe; [|done]. right. by rewrite Hdk.
Qed.

(** ** The transaction of a write *)

Section write.
Context (store : string) (deletes : list TupleKeyWithoutCondition) (writes : list TupleKey).
Abbreviation dkeys := (key_of_woc <$> deletes).
Abbreviation wkeys := (key_of <$> writes).
Abbreviation D := (list_to_set dkeys : gset akey).
Abbreviation W := (list_to_set wkeys : gset akey).
Hypothesis Hdel : Forall (λ k, complete_key (key_of_woc k)) deletes.
Hypothesis Hwr : Forall (λ tk, complete_key (key_of tk) ∧ cond_plain (Condition tk)) writes.
Hypothesis Hnd : NoDup (dkeys ++ wkeys).

(** The batch names a tuple that is not there to delete, or that is there already. *)
Definition offends (T : gset akey) (e : StorageErr) : Prop :=
  ∃ (k : akey) op, e = ErrInvalidWriteInput k.2 k.1.2 k.1.1 op ∧
    match op with OperationDelete => k ∈ D ∧ k ∉ T | OperationWrite => k ∈ W ∧ k ∈ T end.

(** What a committed write has done to the tuples [T] of the store. *)
Definition committed (w : session) (l : list ChangelogDocument) (w' : session) (p' : Process) : Prop :=
  let T := tuples_of store (docs w.1) in
  D ⊆ T ∧ W ∩ T = ∅ ∧ Forall (λ tk, written store tk w') writes ∧
  advanced store w l (dkeys ++ wkeys) ((T ∖ D) ∪ W) w' p'.

Lemma write_callback_ok w p l :
  session_inv w p l →
  tx_ok (write_callback store deletes writes) w p (λ _, committed w l)
    (λ e, server_down e ∨ ∃ e', e = DsStorage e' ∧ offends (tuples_of store (docs w.1)) e').
Proof.
  intros Hinv. unfold write_callback. apply tx_ok_bind. unfold tx_ok at 1, tx_process.
  destruct (time_Now p) as [t p0] eqn:Et. pose proof (time_Now_later p) as Hl0. rewrite Et in Hl0. simpl in Hl0.
  split; [|done]. apply (session_inv_later _ _ p0) in Hinv; [|done].
  apply NoDup_app in Hnd as (Hnd1&Hdisj&Hnd2). set (T := tuples_of store (docs w.1)).
  apply tx_ok_bind. eapply tx_ok_impl.
  { apply (loop_ok (delete_tuple store (NewDateTimeFromTime t)) key_of_woc store OperationDelete (λ k S, k ∈ S)
      (λ S k, S ∖ {[k]}) (λ k, complete_key (key_of_woc k)) (λ _ _, True)); [| |done|exact Hinv|done|done].
    - intros w1 p1 l1 x Hinv1 Hx. eapply tx_ok_impl; [by apply delete_tuple_ok| |done]. naive_solver.
    - set_solver. }
  2: { intros e [He|(x&Hx&Hno&->)]; [by left|right]. eexists. split; [done|]. exists (key_of_woc x), OperationDelete.
       split; [done|]. split; [|done]. apply elem_of_list_to_set. by apply list_elem_of_fmap_2. }
  intros _ w1 p1 (HD&_&(cs&Hlen&Hinv1)&Hset&Hframe) _. rewrite foldl_difference in Hset.
  eapply tx_ok_impl.
  { apply (loop_ok (write_tuple store (NewDateTimeFromTime t)) key_of store OperationWrite (λ k S, k ∉ S)
      (λ S k, S ∪ {[k]}) (λ tk, complete_key (key_of tk) ∧ cond_plain (Condition tk)) (written store)); [| | |exact Hinv1|done|done].
    - intros w2 p2 l2 x Hinv2 [Hx Hc]. eapply tx_ok_impl; [by apply write_tuple_ok|done|].
      intros e [He|[He ->]]; [by left|right]. split; [|done]. intros Hn. by apply Hn.
    - set_solver.
    - apply written_frame. }
  - intros _ w2 p2 (HW&Hwritten&Hadv) _. rewrite foldl_union in Hadv. rewrite Hset in HW, Hadv.
    rewrite Forall_forall in HD. rewrite Forall_forall in HW. split_and!; [| |done|].
    + intros k (x&->&Hx)%elem_of_list_to_set%list_elem_of_fmap. by apply HD.
    + apply disjoint_intersection_L. intros k (x&->&Hx)%elem_of_list_to_set%list_elem_of_fmap HT.
      apply (HW x Hx). apply elem_of_difference. split; [done|]. intros Hk%elem_of_list_to_set.
      apply (Hdisj _ Hk). by apply list_elem_of_fmap_2.
    + apply (session_advanced_trans store w l dkeys cs w1); [done|done|done].
  - intros e [He|(x&Hx&Hno&->)]; [by left|right]. eexists. split; [done|]. exists (key_of x), OperationWrite.
    split; [done|]. split; [apply elem_of_list_to_set; by apply list_elem_of_fmap_2|].
    rewrite Hset in Hno. destruct (decide (key_of x ∈ T)) as [|HT]; [done|]. exfalso. apply Hno. set_solver.
Qed.

(** *** The datastore *)

(** The invariant of the datastore, with [l] its changelog in the order of the ULIDs. *)
Definition mongo_inv (ds : Datastore) (p : Process) (l : list ChangelogDocument) : Prop :=
  session_inv (Tuples ds, Changelog ds) p l.

(** An error of the server, possibly from inside the transaction. *)
Definition mongo_failed (e : DsErr) : Prop :=
  (∃ msg what, e = DsWrap msg (ErrServer what) ∨ e = DsTransaction (DsWrap msg (ErrServer what))) ∧ ¬ MongoUp.

(** The batch was applied: the abstract store has moved, every written tuple is there with
    its condition, the documents of other tuples are untouched, and the changelog has one
    more entry per tuple of the batch. *)
Definition applied (ds : Datastore) (l : list ChangelogDocument) (ds' : Datastore) (p' : Process) : Prop :=
  spec_write (tuples_of store (docs (Tuples ds))) D W = Some (tuples_of store (docs (Tuples ds'))) ∧
  (∀ tk, tk ∈ writes → ∃ d, d ∈ docs (Tuples ds') ∧ td_Store d = store ∧ Key (docToTuple d) = tk) ∧
  (∀ d, td_Store d ≠ store ∨ doc_key d ∉ dkeys ++ wkeys → d ∈ docs (Tuples ds') ↔ d ∈ docs (Tuples ds)) ∧
  ∃ cs, length cs = (length deletes + length writes)%nat ∧ mongo_inv ds' p' (l ++ cs).

Lemma committed_applied ds l w' p' :
  committed (Tuples ds, Changelog ds) l w' p' → applied ds l (set_session ds w') p'.
Proof.
  intros (HD&HW&Hwritten&(cs&Hlen&Hinv)&Hset&Hframe). simpl in *. split_and!.
  - unfold spec_write. rewrite bool_decide_true by done. simpl. by rewrite Hset.
  - intros tk Htk. rewrite Forall_forall in Hwritten. destruct (Hwritten tk Htk) as (d&Hd&Hs&Hk&Hc). exists d.
    split_and!; [done..|]. destruct tk. unfold doc_key, key_of in Hk. simpl in *. by simplify_eq.
  - done.
  - exists cs. rewrite length_app, !length_fmap in Hlen. split; [done|]. unfold mongo_inv. simpl. by destruct w'.
Qed.

Lemma offends_spec T e : offends T e → spec_write T D W = None.
Proof.
  intros (k&op&_&Hop). unfold spec_write. rewrite bool_decide_false; [done|]. intros [HD HW].
  destruct op; set_solver.
Qed.

Lemma Write_cases (ds : Datastore) (p : Process) (l : list ChangelogDocument) :
  mongo_inv ds p l →
  let '(r, ds', p') := Write store deletes writes ds p in
  match r with
  | Ret _ => zlen deletes + zlen writes ≤ MaxTuplesPerWrite ds ∧ applied ds l ds' p'
  | Throw e =>
      (ds' = ds ∧ mongo_inv ds p' l ∧
       (MaxTuplesPerWrite ds < zlen deletes + zlen writes ∨
        (∃ e', ds_storage e = Some e' ∧ offends (tuples_of store (docs (Tuples ds))) e') ∨ mongo_failed e)) ∨
      (mongo_failed e ∧ applied ds l ds' p')
  | Panic _ => False
  end.
Proof.
  intros Hinv. unfold Write. case_bool_decide as Hmax; [left; split_and!; [done..|by left]|].
  destruct (WithTransaction_law (write_callback store deletes writes) (Tuples ds, Changelog ds) p) as (p1&Hl&Hlaw).
  destruct (WithTransaction _ _ p) as [r [w' p']] eqn:E.
  pose proof (write_callback_ok _ p1 l (session_inv_later _ _ p1 _ Hinv Hl)) as Hcb. unfold tx_ok in Hcb.
  assert (set_session ds (Tuples ds, Changelog ds) = ds) as Hsame by by destruct ds.
  assert (∀ p2, later p1 p2 → mongo_inv ds p2 l) as Hkeep.
  { intros p2 Hl2. eapply session_inv_later; [exact Hinv|by etrans]. }
  destruct r as [[]|[e|e]|why].
  - rewrite Hlaw in Hcb. destruct Hcb as [Hcom _]. split; [lia|]. by apply committed_applied.
  - destruct Hlaw as (->&He&->). destruct (write_callback _ _ _ _ p1) as [r' [w2 p2]]. simpl in *. subst r'.
    destruct Hcb as [Hcb Hl2]. left. rewrite Hsame. split_and!; [done|by apply Hkeep|right].
    destruct Hcb as [[(msg&what&->) Hup]|(e'&->&Hoff)]; [right|left; by exists e'].
    split; [|done]. exists msg, what. by right.
  - destruct Hlaw as ((what&->)&->&Hw).
    assert (mongo_failed (transaction_error (inr (ErrServer what)))) as Hfail.
    { split; [exists "transaction failed", what; by left|]. intros Hup.
      apply (up_transaction (write_callback store deletes writes) (Tuples ds, Changelog ds) p (ErrServer what)). by rewrite E. }
    destruct (write_callback _ _ _ _ p1) as [r' [w2 p2]]. simpl in *. destruct Hw as [->|[-> ->]].
    + left. rewrite Hsame. split_and!; [done| |by right; right]. destruct r'; [apply Hkeep, Hcb..|done].
    + right. split; [done|]. by apply committed_applied, Hcb.
  - destruct Hlaw as [why' Hw]. destruct (write_callback _ _ _ _ p1) as [r' [w2 p2]]. simpl in Hw. by subst r'.
Qed.
End write.

(** ** A new datastore *)

Lemma create_index_ok `{!BsonDoc D} msg (c : collection D) ix c' :
  create_index msg c ix = (Ret tt, c') →
  docs c' = docs c ∧ ∀ ix', ix' ∈ indexes c' ↔ ix' = ix ∨ ix' ∈ indexes c.
Proof.
  unfold create_index. pose proof (CreateIndex_law c ix) as [Hd Hl].
  destruct (CreateIndex c ix) as [r c1]. simpl in *. intros [= Hr <-]. by destruct r as [[]| |].
Qed.

(** The collections a datastore finds are empty and have no index yet. *)
Record new_database (ds : Datastore) : Prop := {
  nd_tuples : docs (Tuples ds) = [] ∧ indexes (Tuples ds) = [];
  nd_changelog : docs (Changelog ds) = [] ∧ indexes (Changelog ds) = [];
  nd_models : docs (AuthorizationModels ds) = [] ∧ indexes (AuthorizationModels ds) = [];
  nd_stores : docs (Stores ds) = [] ∧ indexes (Stores ds) = [];
  nd_assertions : docs (Assertions ds) = [] ∧ indexes (Assertions ds) = [];
}.

(** What [createIndexes] leaves when it succeeds. *)
Lemma createIndexes_Ret ds ds' :
  createIndexes ds = (Ret tt, ds') →
  (docs (Tuples ds') = docs (Tuples ds) ∧
   ∀ ix, ix ∈ indexes (Tuples ds') ↔ ix = reverse_tuple_index ∨ ix = unique_tuple_index ∨ ix ∈ indexes (Tuples ds)) ∧
  (docs (Changelog ds') = docs (Changelog ds) ∧
   ∀ ix, ix ∈ indexes (Changelog ds') ↔ ix = changelog_index ∨ ix ∈ indexes (Changelog ds)) ∧
  (docs (AuthorizationModels ds') = docs (AuthorizationModels ds) ∧
   ∀ ix, ix ∈ indexes (AuthorizationModels ds') ↔ ix = model_index ∨ ix ∈ indexes (AuthorizationModels ds)) ∧
  (docs (Stores ds') = docs (Stores ds) ∧
   ∀ ix, ix ∈ indexes (Stores ds') ↔ ix = store_index ∨ ix ∈ indexes (Stores ds)) ∧
  Assertions ds' = Assertions ds.
Proof.
  unfold createIndexes.
  destruct (create_index "create tuple index" _ _) as [[[]| |] t1] eqn:E1; [|done..]. apply create_index_ok in E1 as [Hd1 Hi1].
  destruct (create_index "create reverse tuple index" _ _) as [[[]| |] t2] eqn:E2; [|done..]. apply create_index_ok in E2 as [Hd2 Hi2].
  destruct (create_index "create authorization model index" _ _) as [[[]| |] m1] eqn:E3; [|done..]. apply create_index_ok in E3.
  destruct (create_index "create store index" _ _) as [[[]| |] s1] eqn:E4; [|done..]. apply create_index_ok in E4.
  destruct (create_index "create changelog index" _ _) as [r c1] eqn:E5. intros [= -> <-]. apply create_index_ok in E5.
  simpl in *. split_and!; try apply E3; try apply E4; try apply E5; [by rewrite Hd2|by setoid_rewrite Hi2; setoid_rewrite Hi1|done].
Qed.

Lemma createIndexes_inv ds ds' p :
  new_database ds → process_ok p → createIndexes ds = (Ret tt, ds') → mongo_inv ds' p [].
Proof.
  intros [[Ht Hti] [Hc Hci] _ _ _] Hp ((Hd&Hi)&(Hd'&Hi')&_)%createIndexes_Ret. rewrite Hti in Hi. rewrite Hci in Hi'.
  rewrite Ht in Hd. rewrite Hc in Hd'. split; simpl; rewrite ?Hd, ?Hd'; try done; try by constructor.
  - intros ix [->|[->|?%not_elem_of_nil]]%Hi; done.
  - intros ix [->|?%not_elem_of_nil]%Hi'; done.
  - exists []. split_and!; [done|constructor..].
Qed.

(** ** The changelog *)

(** A client of [ReadChanges] that follows tokens, ascending, until ErrNotFound. *)
Fixpoint follow_changelog (fuel : nat) (ds : Datastore) (store : string) (filter : ReadChangesFilter) (size : Z)
    (token : string) (p : Process) : outcome DsErr (list TupleChange) :=
  match fuel with
  | O => Panic "out of fuel"
  | S fuel =>
      match Mongo.ReadChanges ds store filter (mkPagination size token) false p with
      | (Ret (page, token'), p') =>
          let! rest := follow_changelog fuel ds store filter size token' p' in Ret (page ++ rest)
      | (Throw (DsStorage ErrNotFound), _) => Ret []
      | (Throw e, _) => Throw e
      | (Panic w, _) => Panic w
      end
  end.

(** The changes of a store, of one type of object if the filter names one. *)
Definition asked_change (store : string) (filter : ReadChangesFilter) (c : ChangelogDocument) : bool :=
  (cd_Store c =s store) && ((rcf_ObjectType filter =s "") || (cd_ObjectType c =s rcf_ObjectType filter)).

Definition after_token (token : string) (c : ChangelogDocument) : bool :=
  (token =s "") || String.ltb token (cd_ULID c).

Section changelog.
Context (ds : Datastore) (p0 : Process) (l : list ChangelogDocument).
Hypothesis Hinv : mongo_inv ds p0 l.
Hypothesis Hup : MongoUp.
Hypothesis Hplain : ∀ c, c ∈ l → cond_plain (cd_Condition c).
Context (store : string) (filter : ReadChangesFilter) (size : Z).
Hypothesis Hhorizon : rcf_HorizonOffset filter ≤ 0.
Hypothesis Hsize : 0 < size.

Abbreviation asked := (List.filter (asked_change store filter) l).

Lemma changes_filter_selects token p c :
  (changes_filter store filter (mkPagination size token) false p).2 = p ∧
  selects regex_match (changes_filter store filter (mkPagination size token) false p).1 c =
  asked_change store filter c && after_token token c.
Proof.
  unfold changes_filter, asked_change, after_token. rewrite (bool_decide_false (0 < _)) by lia. cbn [From_].
  destruct (rcf_ObjectType filter =s "") eqn:Et, (token =s "") eqn:Ek; cbn [negb]; (split; [done|]); cbn [fst]; eval_filter;
    cbn [bson_gt orb]; by rewrite ?andb_true_r, 1?andb_comm, ?(andb_comm (cd_Store c =s store)), ?andb_assoc.
Qed.

Definition ulid_before (a b : ChangelogDocument) : Prop := String.ltb (cd_ULID a) (cd_ULID b) = true.

Lemma log_sorted : StronglySorted ulid_before l.
Proof.
  destruct (si_ulids _ _ _ Hinv) as (us&Hus&Hss&_). revert us Hus Hss.
  assert (∀ l' : list ChangelogDocument, ∀ us, cd_ULID <$> l' = ulid_String <$> us → StronglySorted N.lt us → StronglySorted ulid_before l')
    as Hgen; [|by apply Hgen].
  induction l' as [|c l' IH]; intros [|u us]; try done; [constructor|]. rewrite !fmap_cons. intros [= Hc Hus].
  intros [Hss Hall]%StronglySorted_inv. constructor; [by eapply IH|]. apply Forall_forall. intros x Hx.
  assert (cd_ULID x ∈ ulid_String <$> us) as (v&Hv&Hin)%list_elem_of_fmap by (rewrite <-Hus; by apply list_elem_of_fmap_2).
  unfold ulid_before. rewrite Hc, Hv. apply ulid_String_lt. rewrite Forall_forall in Hall. by apply Hall.
Qed.

Lemma StronglySorted_List_filter {A} (R : relation A) (f : A → bool) k :
  StronglySorted R k → StronglySorted R (List.filter f k).
Proof.
  induction 1 as [|x k Hk IH Hx]; simpl; [constructor|]. destruct (f x); [|done]. constructor; [done|].
  rewrite Forall_forall in Hx |- *. intros y [Hy _]%list_elem_of_In%List.filter_In. by apply Hx, list_elem_of_In.
Qed.

Lemma List_filter_perm {A} (f : A → bool) k k' : k ≡ₚ k' → List.filter f k ≡ₚ List.filter f k'.
Proof.
  induction 1 as [|x k k' _ IH|x y k|k k' k'' _ IH _ IH']; simpl; [done| | |by etrans].
  - destruct (f x); [by constructor|done].
  - destruct (f x), (f y); try done. apply Permutation_swap.
Qed.

Lemma decode_all_id k what : (∀ c, c ∈ k → Decode c = Ret c) → decode_all what k = Ret k :> outcome DsErr (list ChangelogDocument).
Proof.
  induction k as [|c k IH]; intros Hk; [done|]. cbn [decode_all]. rewrite (Hk c) by apply list_elem_of_here. simpl.
  rewrite IH; [done|]. intros x Hx. apply Hk. by apply list_elem_of_further.
Qed.

Lemma StronglySorted_weaken {A} (R R' : relation A) k :
  (∀ x y, R x y → R' x y) → StronglySorted R k → StronglySorted R' k.
Proof.
  intros HR. induction 1 as [|x k _ IH Hx]; constructor; [done|]. eapply Forall_impl; [exact Hx|]. auto.
Qed.

(** A ULID names one change. *)
Lemma ulid_before_inj k x y :
  StronglySorted ulid_before k → x ∈ k → y ∈ k → cd_ULID x = cd_ULID y → x = y.
Proof.
  induction 1 as [|z k _ IH Hz]; [by intros ?%not_elem_of_nil|]. rewrite Forall_forall in Hz.
  assert (∀ w, w ∈ k → cd_ULID w ≠ cd_ULID z) as Hne.
  { intros w Hw Heq. pose proof (Hz w Hw) as Hlt. unfold ulid_before in Hlt. by rewrite Heq, str_ltb_irrefl in Hlt. }
  intros [->|Hx]%elem_of_cons [->|Hy]%elem_of_cons Heq; [done| | |by apply IH].
  - by destruct (Hne y Hy).
  - by destruct (Hne x Hx).
Qed.

(** One page of the changes after a token. *)
Lemma changelog_page token p :
  Mongo.ReadChanges ds store filter (mkPagination size token) false p =
  let rest := List.filter (after_token token) asked in
  let page := take (Z.to_nat size) rest in
  match rest with
  | [] => (Throw (DsStorage ErrNotFound), p)
  | _ => if bool_decide (zlen page = size) then (Ret (docToChange <$> page, default "" (cd_ULID <$> last page)), p)
         else let '(token', p') := ulid_Make p in (Ret (docToChange <$> page, token'), p')
  end.
Proof.
  unfold Mongo.ReadChanges. pose proof (changes_filter_selects token p) as Hsel.
  destruct (changes_filter store filter _ false p) as [f p'] eqn:Ef. cbn [fst snd] in Hsel.
  assert (p' = p) as -> by apply (proj1 (Hsel (mkChangelogDocument "" "" "" "" "" None OperationWrite 0 ""))).
  pose proof (Find_law (Changelog ds) f (mkFindOptions size [("ulid", 1)])) as Hlaw. cbn [PageSize].
  destruct (up_Find (Changelog ds) f (mkFindOptions size [("ulid", 1)])) as [found Hf]. rewrite Hf in Hlaw |- *.
  cbn [cur_Err cur_docs fo_Sort fo_Limit] in Hlaw. destruct Hlaw as (k&[Hperm Hsorted]&->).
  set (rest := List.filter (after_token token) asked).
  assert (k = rest) as ->.
  { assert (List.filter (selects regex_match f) (docs (Changelog ds)) ≡ₚ rest) as Hrest.
    { unfold rest. rewrite filter_filter. etrans; [apply List_filter_perm, (si_log _ _ _ Hinv)|]. simpl.
      rewrite (List.filter_ext _ (λ c, asked_change store filter c && after_token token c)); [done|]. intros c. apply Hsel. }
    assert (StronglySorted ulid_before rest) as Hss by (apply StronglySorted_List_filter, StronglySorted_List_filter, log_sorted).
    assert (∀ a b, doc_less [("ulid", 1)] a b = String.ltb (cd_ULID a) (cd_ULID b)) as Hless.
    { intros a b. unfold doc_less. simpl. eval_fields. cbn [bson_less].
      by destruct (String.ltb (cd_ULID a) (cd_ULID b)), (String.ltb (cd_ULID b) (cd_ULID a)). }
    apply (StronglySorted_unique_strong (not_less (doc_less [("ulid", 1)]))); [|done| |by etrans].
    - intros x y Hx Hy. unfold not_less. rewrite !Hless. intros Hyx Hxy. apply (ulid_before_inj rest); [done| |done|by apply str_ltb_total].
      by rewrite <-Hrest, <-Hperm.
    - eapply StronglySorted_weaken; [|exact Hss]. unfold not_less, ulid_before. intros a b Hab. rewrite Hless.
      by apply (sw_asym (λ a b, String.ltb (cd_ULID a) (cd_ULID b))). }
  assert (limit_to size rest = take (Z.to_nat size) rest) as ->.
  { unfold limit_to. rewrite bool_decide_false by lia. by rewrite Z.abs_eq by lia. }
  unfold cursor_all. cbn [wrap outcome_bind cur_docs cur_Err]. rewrite decode_all_id.
  2: { intros c Hc. apply Decode_change, Hplain. assert (c ∈ rest) as Hin by (rewrite <-(take_drop (Z.to_nat size) rest); apply elem_of_app; by left).
       unfold rest in Hin. rewrite filter_filter in Hin. by apply list_elem_of_In, List.filter_In in Hin as [?%list_elem_of_In _]. }
  cbn [outcome_bind]. destruct rest as [|c rest']; [by rewrite take_nil|].
  destruct (Z.to_nat size) as [|n] eqn:En; [lia|]. done.
Qed.

Lemma List_filter_all {A} (f : A → bool) k : (∀ x, x ∈ k → f x = true) → List.filter f k = k.
Proof.
  induction k as [|x k IH]; intros Hk; simpl; [done|]. rewrite (Hk x), IH; [done| |apply list_elem_of_here].
  intros y Hy. apply Hk. by apply list_elem_of_further.
Qed.

Lemma List_filter_none {A} (f : A → bool) k : (∀ x, x ∈ k → f x = false) → List.filter f k = [].
Proof.
  induction k as [|x k IH]; intros Hk; simpl; [done|]. rewrite (Hk x), IH; [done| |apply list_elem_of_here].
  intros y Hy. apply Hk. by apply list_elem_of_further.
Qed.

(** The ULID of a change is one the process has made. *)
Lemma change_ulid c :
  c ∈ l → ∃ u, cd_ULID c = ulid_String u ∧ (u ≤ last_ulid (pr_entropy p0))%N.
Proof.
  intros Hc. destruct (si_ulids _ _ _ Hinv) as (us&Hus&_&Hle).
  assert (cd_ULID c ∈ ulid_String <$> us) as (u&Hu&Hin)%list_elem_of_fmap by (rewrite <-Hus; by apply list_elem_of_fmap_2).
  exists u. split; [done|]. rewrite Forall_forall in Hle. by apply Hle.
Qed.

(** Splitting a sorted changelog at one of its changes. *)
Lemma split_at k c k' x :
  StronglySorted ulid_before (k ++ [c] ++ k') → c ∈ l →
  (x ∈ k ++ [c] → after_token (cd_ULID c) x = false) ∧ (x ∈ k' → after_token (cd_ULID c) x = true).
Proof.
  intros Hss Hc. destruct (change_ulid c Hc) as (u&Hu&_). unfold after_token.
  rewrite Hu, (bool_decide_false (ulid_String u = "")) by apply ulid_String_nonempty. rewrite <-Hu. simpl. split.
  - intros [Hx|Hx]%elem_of_app; [|apply list_elem_of_singleton in Hx as ->; apply str_ltb_irrefl].
    apply (sw_asym (λ a b, String.ltb (cd_ULID a) (cd_ULID b)) x c).
    eapply StronglySorted_app_1_elem_of in Hss; [exact Hss|done|]. apply list_elem_of_here.
  - intros Hx. apply StronglySorted_app_1_r in Hss. simpl in Hss. apply StronglySorted_inv in Hss as [_ Hall].
    rewrite Forall_forall in Hall. by apply Hall.
Qed.

Lemma follow_from fuel token p seen r :
  later p0 p → asked = seen ++ r →
  (∀ c, c ∈ seen → after_token token c = false) → (∀ c, c ∈ r → after_token token c = true) → (length r < fuel)%nat →
  follow_changelog fuel ds store filter size token p = Ret (docToChange <$> r).
Proof.
  revert token p seen r. induction fuel as [|fuel IH]; intros token p seen r Hl Hasked Hseen Hr Hfuel; [lia|].
  cbn [follow_changelog]. rewrite changelog_page, Hasked, List.filter_app, (List_filter_none _ seen), (List_filter_all _ r) by done.
  simpl app. cbv zeta. destruct r as [|c0 r0] eqn:Er; [done|]. assert (r ≠ []) as Hne by by rewrite Er. rewrite <-Er in *. clear Er c0 r0.
  assert (Forall (λ c, c ∈ l) (seen ++ r)) as Hin.
  { rewrite <-Hasked. apply Forall_forall. intros c Hc. by apply list_elem_of_In, List.filter_In in Hc as [?%list_elem_of_In _]. }
  assert (StronglySorted ulid_before (seen ++ r)) as Hss by (rewrite <-Hasked; apply StronglySorted_List_filter, log_sorted).
  assert (∀ c, c ∈ seen ++ r → c ∈ l) as Hin' by by apply Forall_forall. clear Hin.
  pose proof (take_drop (Z.to_nat size) r) as Htd. set (page := take (Z.to_nat size) r) in *.
  case_bool_decide as Hfull.
  - destruct (last page) as [c|] eqn:Hlast; [|apply last_None in Hlast; rewrite Hlast in Hfull; unfold zlen in Hfull; simpl in Hfull; lia].
    apply last_Some in Hlast as [front Hpage]. cbn [fmap option_fmap option_map default outcome_bind].
    assert (seen ++ r = (seen ++ front) ++ [c] ++ drop (Z.to_nat size) r) as Hsplit.
    { rewrite <-Htd at 1. rewrite Hpage. by rewrite !app_assoc. }
    assert (c ∈ l) as Hc by (apply Hin'; rewrite Hsplit; set_solver). rewrite Hsplit in Hss.
    rewrite (IH _ p (seen ++ page) (drop (Z.to_nat size) r)); [|done| | | |].
    + cbn [outcome_bind]. by rewrite <-fmap_app, Htd.
    + by rewrite Hasked, <-app_assoc, Htd.
    + intros x Hx. apply (split_at _ c _ x Hss Hc). by rewrite <-app_assoc, <-Hpage.
    + intros x Hx. by apply (split_at _ c _ x Hss Hc).
    + rewrite length_drop. unfold page, zlen in Hfull. rewrite length_take in Hfull. lia.
  - assert (page = r) as -> by (apply take_ge; unfold page, zlen in Hfull; rewrite length_take in Hfull; lia).
    destruct (ulid_Make_spec p) as (u&p'&->&Hlt&_&Hl'&_); [apply Hl, Hinv|]. cbn [outcome_bind].
    rewrite (IH _ p' (seen ++ r) []); [cbn [outcome_bind]; by rewrite app_nil_r|by etrans|by rewrite app_nil_r| | |].
    + intros x Hx. destruct (change_ulid x (Hin' x Hx)) as (v&Hv&Hle). unfold after_token. rewrite Hv.
      rewrite bool_decide_false by apply ulid_String_nonempty. simpl.
      apply (sw_asym String.ltb), ulid_String_lt. destruct Hl as [Hl _]. lia.
    + by intros x ?%not_elem_of_nil.
    + destruct r; simpl in *; [done|lia].
Qed.
End changelog.
End contract.
