(* ===== verification/MongoList.v ===== *)
(** * A MongoDB server that keeps its documents in lists

    An instance of the interface of [MongoDriver.v], proved to meet its laws: documents are
    kept in the order of insertion, and a query without a sort answers in that order or,
    for [newest_first], in the opposite one.  The examples about [Mongo.v] run on it, with
    a clock that advances by a millisecond at every reading and ULIDs that count. *)

From S2P Require Import Prelude GoStd Tuple Iterators Model Memory MemorySpec MongoDriver Mongo MongoSpec.

Local Open Scope Z_scope.
Local Open Scope go_scope.

(** ** The process *)

(** A ULID printed in unary, which sorts like the number. *)
Definition sorted_Ulid : Ulid := {|
  entropy := N * Z;
  MustNew ms e := (N.succ e.1, (N.succ e.1, ms));
  ulid_String u := N.iter u (String "U") "U";
  ulid_Parse s :=
    let u := N.of_nat (pred (String.length s)) in
    if N.iter u (String "U") "U" =s s then Some u else None;
|}.

Lemma sorted_length u : String.length (N.iter u (String "U") "U") = S (N.to_nat u).
Proof.
  induction u as [|u IH] using N.peano_ind; [done|]. rewrite N.iter_succ. simpl. rewrite IH. lia.
Qed.

Definition sorted_UlidLaws : @UlidLaws sorted_Ulid.
Proof.
  refine (@Build_UlidLaws sorted_Ulid _ _ (fst : N * Z → N) (snd : N * Z → Z) _); simpl.
  - intros u. rewrite sorted_length. simpl. rewrite N2Nat.id. by rewrite bool_decide_true.
  - intros u Heq. apply (f_equal String.length) in Heq. by rewrite sorted_length in Heq.
  - intros ms e _. split; [lia|done].
Defined.

Lemma str_ltb_cons c s t : String.ltb (String c s) (String c t) = String.ltb s t.
Proof. unfold String.ltb. simpl. unfold Ascii.compare. by rewrite N.compare_refl. Qed.

Definition sorted_UlidOrder : @UlidOrder sorted_Ulid.
Proof.
  constructor. simpl. intros u v. revert v. induction u as [|u IH] using N.peano_ind; intros v Huv.
  - assert (v = N.succ (N.pred v)) as -> by lia. rewrite N.iter_succ. simpl.
    assert (∃ s, N.iter (N.pred v) (String "U") "U" = String "U" s) as [s ->]; [|done].
    induction (N.pred v) as [|w IHw] using N.peano_ind; [by eexists|]. rewrite N.iter_succ. by eexists.
  - assert (v = N.succ (N.pred v)) as -> by lia. rewrite !N.iter_succ, str_ltb_cons. apply IH. lia.
Defined.

Definition tick_Clock : Clock := {| clock_reading i := Z.of_nat i * 1000000 |}.

Definition tick_ClockLaws : @ClockLaws tick_Clock.
Proof. constructor. simpl. intros. lia. Defined.

#[local] Existing Instances sorted_Ulid sorted_UlidLaws tick_Clock.

Definition start_process : Process := mkProcess _ 0 (0%N, 0).

Lemma start_process_ok : process_ok start_process.
Proof. by vm_compute. Qed.

(** ** The server *)

Record list_collection (D : Type) := mkCollection { lc_docs : list D; lc_indexes : list IndexModel }.
Arguments mkCollection {D} lc_docs lc_indexes.
Arguments lc_docs {D} l.
Arguments lc_indexes {D} l.

(** A literal with an anchor at one of its ends. *)
Fixpoint contains (fuel : nat) (s p : string) : bool :=
  HasPrefix s p || match fuel, s with S fuel, String _ s => contains fuel s p | _, _ => false end.

Definition literal_regex (pattern options s : string) : bool :=
  match pattern with
  | String "^" lit => HasPrefix s lit
  | _ => if HasSuffix pattern "$" then HasSuffix s (str_take (String.length pattern - 1) pattern)
         else contains (String.length s) s pattern
  end.

(** The documents a query reads, in the order of the collection. *)
Definition scan (newest_first : bool) `{!BsonDoc D} (c : list_collection D) (f : bson_filter) : list D :=
  let l := List.filter (selects literal_regex f) (lc_docs c) in
  if newest_first then reverse l else l.

(** The first document [P] holds of, and the others. *)
Fixpoint pick {D} (P : D → bool) (l : list D) : option (D * list D) :=
  match l with
  | [] => None
  | d :: l => if P d then Some (d, l) else match pick P l with Some (x, r) => Some (x, d :: r) | None => None end
  end.

Definition list_Mongo (newest_first : bool) : Mongo := {|
  collection := list_collection;
  Find D _ c f o :=
    Ret (mkCursor (limit_to (fo_Limit o) (SliceStable (doc_less (fo_Sort o)) (scan newest_first c f))) None);
  FindOne D _ c f sort :=
    match SliceStable (doc_less sort) (scan newest_first c f) with [] => Throw ErrNoDocuments | d :: _ => Ret d end;
  InsertOne D _ c d :=
    if index_refuses (lc_indexes c) (lc_docs c) d then (Throw ErrDuplicateKey, c)
    else (Ret tt, mkCollection (lc_docs c ++ [d]) (lc_indexes c));
  DeleteOne D _ c f :=
    (Ret tt, match pick (selects literal_regex f) (lc_docs c) with
             | Some (_, rest) => mkCollection rest (lc_indexes c) | None => c end);
  UpdateOne_set D _ c f k v :=
    (Ret tt, match pick (selects literal_regex f) (lc_docs c) with
             | Some (d, rest) => mkCollection (doc_set k v d :: rest) (lc_indexes c) | None => c end);
  ReplaceOne_upsert D _ c f d' :=
    (Ret tt, match pick (selects literal_regex f) (lc_docs c) with
             | Some (_, rest) => mkCollection (d' :: rest) (lc_indexes c)
             | None => mkCollection (lc_docs c ++ [d']) (lc_indexes c) end);
  CreateIndex D _ c ix := (Ret tt, mkCollection (lc_docs c) (lc_indexes c ++ [ix]));
  Decode D _ d := Ret d;
  WithTransaction W E cb w p :=
    match cb w p with
    | (Ret _, s) => (Ret tt, s)
    | (Throw e, (_, p')) => (Throw (inl e), (w, p'))
    | (Panic why, (_, p')) => (Panic why, (w, p'))
    end;
|}.

Lemma pick_spec {D} (P : D → bool) l :
  match pick P l with
  | Some (d, rest) => P d = true ∧ l ≡ₚ d :: rest
  | None => List.filter P l = []
  end.
Proof.
  induction l as [|d l IH]; simpl; [done|]. destruct (P d) eqn:E; [done|].
  destruct (pick P l) as [[x r]|]; [|done]. destruct IH as [? ->]. split; [done|]. apply Permutation_swap.
Qed.

Lemma scan_perm b `{!BsonDoc D} (c : list_collection D) f :
  scan b c f ≡ₚ List.filter (selects literal_regex f) (lc_docs c).
Proof. unfold scan. destruct b; [apply reverse_Permutation|done]. Qed.

Lemma sorted_scan b `{!BsonDoc D} (c : list_collection D) f sort :
  answers (List.filter (selects literal_regex f) (lc_docs c)) sort (SliceStable (doc_less sort) (scan b c f)).
Proof. split; [by rewrite SliceStable_perm, scan_perm|]. apply SliceStable_sorted, _. Qed.

Lemma literal_suffix lit s :
  regex_plain lit = true → literal_regex (lit +:+ "$") "" s = HasSuffix s lit.
Proof.
  intros Hp. assert (HasSuffix (lit +:+ "$") "$" = true) as Hs.
  { unfold HasSuffix. rewrite str_length_app. simpl.
    replace (String.length lit + 1 - 1)%nat with (String.length lit) by lia. rewrite str_drop_app. by apply bool_decide_true. }
  assert (literal_regex (lit +:+ "$") "" s =
    HasSuffix s (str_take (String.length (lit +:+ "$") - 1) (lit +:+ "$"))) as ->.
  { unfold literal_regex. rewrite Hs. destruct lit as [|c lit]; [done|]. rewrite str_app_cons.
    assert (c ≠ "^"%char) as Hc; [|by destruct c as [[] [] [] [] [] [] [] []]].
    intros ->. unfold regex_plain in Hp. rewrite forallb_forall in Hp. specialize (Hp "^"%char).
    rewrite has_byte_cons, bool_decide_true in Hp by done. discriminate Hp. simpl. tauto. }
  rewrite str_length_app. simpl. replace (String.length lit + 1 - 1)%nat with (String.length lit) by lia.
  by rewrite str_take_app.
Qed.

Definition list_MongoLaws (b : bool) : @MongoLaws _ _ _ (list_Mongo b).
Proof.
  refine (@Build_MongoLaws _ _ _ (list_Mongo b) (@lc_docs) (@lc_indexes) literal_regex _ _ _ _ _ _ _ _ _ _).
  - done.
  - intros lit s Hp _. by apply literal_suffix.
  - intros D HD c f o. simpl. eexists. split; [apply sorted_scan|done].
  - intros D HD c f sort. simpl. pose proof (sorted_scan b c f sort) as Hs.
    destruct (SliceStable _ _) as [|d l]; [|by eexists]. destruct Hs as [Hs _]. by apply Permutation_nil in Hs.
  - intros D HD c d. simpl. destruct (index_refuses _ _ d) eqn:E; simpl; split; [done..|].
    split; [done|]. by rewrite Permutation_app_comm.
  - intros D HD c f. simpl. pose proof (pick_spec (selects literal_regex f) (lc_docs c)) as Hp.
    destruct (pick _ _) as [[d rest]|]; simpl; (split; [done|]); [right; by exists d|by left].
  - intros D HD c f k v. simpl. pose proof (pick_spec (selects literal_regex f) (lc_docs c)) as Hp.
    destruct (pick _ _) as [[d rest]|]; simpl; (split; [done|]); [right; exists d, rest; naive_solver|by left].
  - intros D HD c f d'. simpl. pose proof (pick_spec (selects literal_regex f) (lc_docs c)) as Hp.
    destruct (pick _ _) as [[d rest]|]; simpl; (split; [done|]); [right; exists d, rest; naive_solver|left].
    split; [done|]. by rewrite Permutation_app_comm.
  - intros D HD c ix. simpl. split; [done|]. intros ix'. rewrite elem_of_app, list_elem_of_singleton. tauto.
  - intros W E cb w p. exists p. split; [by split|]. simpl.
    destruct (cb w p) as [[[]|e|why] [w' p']] eqn:Ecb; simpl; rewrite ?Ecb; eauto.
Defined.

Definition list_MongoUp (b : bool) : @MongoUp _ (list_Mongo b).
Proof.
  split; simpl.
  - eauto.
  - intros. by destruct (SliceStable _ _).
  - intros D HD c d what. by destruct (index_refuses _ _ d).
  - done.
  - intros W E cb w p e. by destruct (cb w p) as [[] []].
Defined.

Definition list_BsonLaws (b : bool) : @BsonLaws _ (list_Mongo b).
Proof. by split. Qed.

Lemma list_docs b {D} (c : list_collection D) : @docs _ _ _ (list_Mongo b) (list_MongoLaws b) D c = lc_docs c.
Proof. done. Qed.
