(* ===== verification/MongoDatastore.v ===== *)
(** * What the MongoDB datastore promises

    The invariant of every reachable datastore, the refinement of the abstract store by
    [Write], the complete changelog, and where the datastore departs from the in-memory
    one. *)

From S2P Require Import Prelude GoStd Tuple Iterators Model Memory MemorySpec MongoDriver Mongo MongoSpec MongoList.

Local Open Scope Z_scope.
Local Open Scope go_scope.

Section machine.
Context `{!Ulid, !UlidLaws, !UlidOrder, !Clock, !ClockLaws, !Mongo, !MongoLaws, !BsonLaws}.

(** ** Reachable datastores *)

(** The updates, with whatever they answer; the tuples of a batch are complete and
    distinct, which the Write command checks of the writes and of the distinctness but not
    of the deletes, and their conditions have no context.  [ReadChanges] makes ULIDs. *)
Inductive mongo_step : Datastore * Process → Datastore * Process → Prop :=
| step_Write store deletes writes ds p r ds' p' :
    Forall (λ k, complete_key (key_of_woc k)) deletes →
    Forall (λ tk, complete_key (key_of tk) ∧ cond_plain (Condition tk)) writes →
    NoDup ((key_of_woc <$> deletes) ++ (key_of <$> writes)) →
    Mongo.Write store deletes writes ds p = (r, ds', p') → mongo_step (ds, p) (ds', p')
| step_WriteAuthorizationModel store model ds p r ds' p' :
    Mongo.WriteAuthorizationModel store model ds p = (r, ds', p') → mongo_step (ds, p) (ds', p')
| step_CreateStore id name ds p r ds' p' :
    Mongo.CreateStore id name ds p = (r, ds', p') → mongo_step (ds, p) (ds', p')
| step_DeleteStore id ds p r ds' p' :
    Mongo.DeleteStore id ds p = (r, ds', p') → mongo_step (ds, p) (ds', p')
| step_WriteAssertions store modelID a ds p r ds' p' :
    Mongo.WriteAssertions store modelID a ds p = (r, ds', p') → mongo_step (ds, p) (ds', p')
| step_ReadChanges store filter options sortDesc ds p r p' :
    Mongo.ReadChanges ds store filter options sortDesc p = (r, p') → mongo_step (ds, p) (ds, p').

(** No two documents for one tuple, model, store or list of assertions, and a changelog
    that tells how the tuples came about. *)
Record ds_inv (ds : Datastore) (p : Process) : Prop := {
  di_tuples : ∃ l, mongo_inv ds p l;
  di_model_index : model_index ∈ indexes (AuthorizationModels ds);
  di_models : NoDup ((λ d, (amd_Store d, amd_ID d)) <$> docs (AuthorizationModels ds));
  di_store_index : store_index ∈ indexes (Stores ds);
  di_stores : NoDup (sd_ID <$> docs (Stores ds));
  di_assertions : NoDup ((λ d, (ad_Store d, ad_ModelID d)) <$> docs (Assertions ds));
}.

Lemma mongo_inv_later ds p p' l : mongo_inv ds p l → later p p' → mongo_inv ds p' l.
Proof. apply session_inv_later. Qed.

(** A document that a unique index lets in has a key of its own. *)
Lemma not_refused_new `{!BsonDoc D} {K} (key : D → K) ixs k ix d :
  ix ∈ ixs → ix_Unique ix = true →
  (∀ d', key d = key d' → forallb (λ f, bool_decide (doc_field d f = doc_field d' f)) (ix_Keys ix) = true) →
  index_refuses ixs k d = false → key d ∉ key <$> k.
Proof.
  intros Hix Hu Hkey Href (d'&Heq&Hd')%list_elem_of_fmap. apply not_true_iff_false in Href. apply Href.
  unfold index_refuses. apply existsb_exists. exists ix. split; [by apply list_elem_of_In|].
  apply existsb_exists. exists d'. split; [by apply list_elem_of_In|]. unfold index_conflict. by rewrite Hu, Hkey.
Qed.

(** Inserting keeps the keys of a unique index distinct, whatever the insertion answers. *)
Lemma insert_unique `{!BsonDoc D} {K} (key : D → K) (c : collection D) ix d :
  ix ∈ indexes c → ix_Unique ix = true →
  (∀ d', key d = key d' → forallb (λ f, bool_decide (doc_field d f = doc_field d' f)) (ix_Keys ix) = true) →
  NoDup (key <$> docs c) → ix ∈ indexes (InsertOne c d).2 ∧ NoDup (key <$> docs (InsertOne c d).2).
Proof.
  intros Hix Hu Hkey Hnd. pose proof (InsertOne_law c d) as [-> Hlaw]. split; [done|].
  assert (index_refuses (indexes c) (docs c) d = false → docs (InsertOne c d).2 ≡ₚ d :: docs c →
    NoDup (key <$> docs (InsertOne c d).2)) as Hnew.
  { intros Hr Hd. rewrite Hd. simpl. apply NoDup_cons. split; [|done]. by eapply not_refused_new. }
  destruct (InsertOne c d).1 as [[]|e|w]; [destruct Hlaw; by apply Hnew| |done].
  destruct e; [by destruct Hlaw as [[? [=]] _]|by destruct Hlaw as [_ ->]|by destruct Hlaw as [[? [=]] _]|].
  destruct Hlaw as [_ [->|[Hr Hd]]]; [done|by apply Hnew].
Qed.

Lemma model_index_key (d d' : AuthorizationModelDocument) :
  (amd_Store d, amd_ID d) = (amd_Store d', amd_ID d') →
  forallb (λ f, bool_decide (doc_field d f = doc_field d' f)) (ix_Keys model_index) = true.
Proof.
  intros [Hs Hi]%pair_equal_spec. cbn [ix_Keys model_index forallb]. eval_fields. by rewrite Hs, Hi, !bool_decide_true.
Qed.

Lemma store_index_key (d d' : StoreDocument) :
  sd_ID d = sd_ID d' → forallb (λ f, bool_decide (doc_field d f = doc_field d' f)) (ix_Keys store_index) = true.
Proof. intros Hi. cbn [ix_Keys store_index forallb]. eval_fields. by rewrite Hi, !bool_decide_true. Qed.

Lemma changes_filter_later store filter options sortDesc p : later p (changes_filter store filter options sortDesc p).2.
Proof.
  unfold changes_filter. case_bool_decide; [|done]. pose proof (time_Now_later p) as Hl. by destruct (time_Now p).
Qed.

Lemma ds_inv_step x y : mongo_step x y → ds_inv x.1 x.2 → ds_inv y.1 y.2.
Proof.
  destruct 1 as [store deletes writes ds p r ds' p' Hd Hw Hnd E|store model ds p r ds' p' E|id name ds p r ds' p' E
    |id ds p r ds' p' E|store modelID a ds p r ds' p' E|store filter options sortDesc ds p r p' E];
    intros [[l Hinv] Hmi Hm Hsi Hs Ha]; simpl in *.
  - assert (∃ l', mongo_inv ds' p' l') as Hl'.
    { pose proof (Write_cases store deletes writes Hd Hw Hnd ds p l Hinv) as Hc. rewrite E in Hc.
      destruct r as [[]|e|w]; [|destruct Hc as [(->&?&_)|[_ (_&_&_&cs&_&?)]]|done]; eauto.
      destruct Hc as [_ (_&_&_&cs&_&?)]. eauto. }
    assert (∃ w, ds' = set_session ds w) as [w ->].
    { unfold Mongo.Write in E. case_bool_decide.
      - injection E as <- <- <-. exists (Tuples ds, Changelog ds). by destruct ds.
      - destruct (WithTransaction _ _ _) as [r0 [w p0]]. injection E as <- <- <-. by eexists. }
    by split.
  - unfold Mongo.WriteAuthorizationModel in E. case_bool_decide; [injection E as <- <- <-; split; eauto|].
    case_bool_decide; [injection E as <- <- <-; split; eauto|]. pose proof (time_Now_later p) as Hl.
    destruct (time_Now p) as [now p1]. set (doc := mkModelDocument _ _ _ _ _ _) in E.
    destruct (insert_unique (λ d, (amd_Store d, amd_ID d)) (AuthorizationModels ds) model_index doc) as [Hi Hn]; [done|done| |done|].
    { apply model_index_key. }
    destruct (InsertOne _ doc) as [r0 c]. injection E as <- <- <-. split; try done. exists l. by eapply mongo_inv_later.
  - unfold Mongo.CreateStore in E. destruct ((id =s "") || (name =s "")); [injection E as <- <- <-; split; eauto|].
    pose proof (time_Now_later p) as Hl. destruct (time_Now p) as [t p1]. set (doc := mkStoreDocument _ _ _ _ _) in E.
    destruct (insert_unique sd_ID (Stores ds) store_index doc) as [Hi Hn]; [done|done| |done|].
    { apply store_index_key. }
    destruct (InsertOne _ doc) as [r0 c]. injection E as <- <- <-. split; try done. exists l. by eapply mongo_inv_later.
  - unfold Mongo.DeleteStore in E. pose proof (time_Now_later p) as Hl. destruct (time_Now p) as [t p1].
    pose proof (UpdateOne_law (Stores ds) (live_store id) "deleted_at" (BDateTime (NewDateTimeFromTime t))) as [Hix Hlaw].
    destruct (UpdateOne_set _ _ _ _) as [r0 c]. simpl in Hix, Hlaw. injection E as <- <- <-.
    assert (NoDup (sd_ID <$> docs c)) as Hn.
    { assert (docs c = docs (Stores ds) ∨ ∃ d rest, docs (Stores ds) ≡ₚ d :: rest ∧
        docs c ≡ₚ doc_set "deleted_at" (BDateTime (NewDateTimeFromTime t)) d :: rest) as [->|(d&rest&Hd&->)]; [|done|].
      { destruct r0 as [[]|e|w]; [| |done]; naive_solver. }
      rewrite Hd in Hs. simpl in Hs |- *. done. }
    split; try done; [|by simpl; rewrite Hix]. exists l. by eapply mongo_inv_later.
  - unfold Mongo.WriteAssertions in E. set (doc := mkAssertionDocument _ _ _) in E.
    pose proof (ReplaceOne_law (Assertions ds) (assertions_filter store modelID) doc) as [_ Hlaw].
    destruct (ReplaceOne_upsert _ _ _) as [r0 c]. simpl in Hlaw. injection E as <- <- <-.
    assert (∀ d, selects regex_match (assertions_filter store modelID) d = true ↔ (ad_Store d, ad_ModelID d) = (store, modelID)) as Hsel.
    { intros d. unfold assertions_filter. eval_filter. rewrite andb_true_iff, !bool_decide_eq_true, pair_equal_spec. tauto. }
    assert (NoDup ((λ d, (ad_Store d, ad_ModelID d)) <$> docs c)) as Hn; [|split; try done; by exists l].
    assert (docs c = docs (Assertions ds) ∨
      (List.filter (selects regex_match (assertions_filter store modelID)) (docs (Assertions ds)) = [] ∧ docs c ≡ₚ doc :: docs (Assertions ds)) ∨
      ∃ d rest, selects regex_match (assertions_filter store modelID) d = true ∧ docs (Assertions ds) ≡ₚ d :: rest ∧ docs c ≡ₚ doc :: rest)
      as [->|[[Hnone ->]|(d&rest&Hd&Hperm&->)]]; [|done| |].
    { destruct r0 as [[]|e|w]; [by right|destruct Hlaw as [_ [Hsame|Hdone]]; [by left|by right]|done]. }
    + simpl. apply NoDup_cons. split; [|done]. intros (d&Heq&Hd)%list_elem_of_fmap. apply (not_elem_of_nil d).
      rewrite <-Hnone. apply list_elem_of_In, List.filter_In. split; [by apply list_elem_of_In|]. by apply Hsel.
    + rewrite Hperm in Ha. simpl in Ha |- *. apply Hsel in Hd. by rewrite Hd in Ha.
  - split; try done. exists l. eapply mongo_inv_later; [exact Hinv|].
    unfold Mongo.ReadChanges in E. pose proof (changes_filter_later store filter options sortDesc p) as Hl.
    destruct (changes_filter store filter options sortDesc p) as [f p1]. simpl in Hl.
    assert (process_ok p1) as Hp1 by (apply Hl, Hinv).
    destruct (let! cursor := _ in _) as [[|c cs]|e|w]; [by injection E as <- <-| |by injection E as <- <-..].
    case_bool_decide; [by injection E as <- <-|].
    destruct (ulid_Make_spec p1 Hp1) as (u&p2&Hu&_&_&Hl2&_). rewrite Hu in E. injection E as <- <-. by etrans.
Qed.

Lemma new_ds_inv ds ds' p :
  new_database ds → process_ok p → createIndexes ds = (Ret tt, ds') → ds_inv ds' p.
Proof.
  intros Hnew Hp Hc. pose proof (createIndexes_inv _ _ _ Hnew Hp Hc) as Hinv.
  destruct Hnew as [_ _ [Hm _] [Hs _] [Ha _]].
  apply createIndexes_Ret in Hc as (_&_&[Hdm Him]&[Hds His]&Has). split.
  - by exists [].
  - apply Him. by left.
  - rewrite Hdm, Hm. constructor.
  - apply His. by left.
  - rewrite Hds, Hs. constructor.
  - rewrite Has, Ha. constructor.
Qed.

(** [New] on an empty database, whatever its configuration. *)
Lemma New_ds_inv {client : Type} Connect (client_Database : client → string → MongoDatabase) ping uri cfg ds p :
  (∀ c name, let db := client_Database c name in
     new_database (mkDatastore (db_tuples db) (db_models db) (db_stores db) (db_assertions db) (db_changelog db)
       (MaxTuplesPerWriteField cfg) (MaxTypesPerModelField cfg))) →
  process_ok p → Mongo.New Connect client_Database ping uri cfg = Ret ds → Database cfg ≠ "" ∧ ds_inv ds p.
Proof.
  intros Hnew Hp. unfold Mongo.New. case_bool_decide as Hdb; [done|].
  destruct (Connect _) as [c| |]; cbn [wrap outcome_bind]; [|done..]. unfold NewWithDB.
  destruct (ping c) as [[]| |]; cbn [wrap outcome_bind]; [|done..].
  destruct (createIndexes _) as [[[]| |] ds'] eqn:E; [|done..]. intros [= <-]. split; [done|]. by eapply new_ds_inv.
Qed.

Lemma steps_ds_inv x y : rtc mongo_step x y → ds_inv x.1 x.2 → ds_inv y.1 y.2.
Proof. induction 1 as [|x y z Hxy _ IH]; [done|]. intros Hx. by eapply IH, ds_inv_step. Qed.

(** C27: in every datastore that the operations of [mongo_step] reach from an empty database
    (batches of distinct tuples that name object, relation and user, whose conditions have no
    context, and any other updates), with a server that may fail at every call and may apply
    what it fails, there is one document per tuple, per model, per store id and per list of
    assertions; replaying the changelog of a store in the order of its ULIDs gives exactly
    the tuples of the store; and the ULIDs ascend strictly, so a token of [ReadChanges]
    names one position. *)
Theorem Mongo_reachable_inv (ds0 ds1 ds : Datastore) (p0 p : Process) :
  new_database ds0 → process_ok p0 → createIndexes ds0 = (Ret tt, ds1) → rtc mongo_step (ds1, p0) (ds, p) →
  NoDup ((λ d, (td_Store d, doc_key d)) <$> docs (Tuples ds)) ∧
  NoDup ((λ d, (amd_Store d, amd_ID d)) <$> docs (AuthorizationModels ds)) ∧
  NoDup (sd_ID <$> docs (Stores ds)) ∧
  NoDup ((λ d, (ad_Store d, ad_ModelID d)) <$> docs (Assertions ds)) ∧
  ∃ l, docs (Changelog ds) ≡ₚ l ∧ StronglySorted ulid_before l ∧
    ∀ store, replay_docs store l = tuples_of store (docs (Tuples ds)).
Proof.
  intros Hnew Hp Hc Hsteps. assert (ds_inv ds p) as [[l Hinv] _ Hm _ Hs Ha].
  { apply (steps_ds_inv _ _ Hsteps). by eapply new_ds_inv. }
  split_and!; [apply Hinv|done..|]. exists l. split_and!; [apply Hinv|by eapply log_sorted|apply Hinv].
Qed.

(** ** Writing tuples *)

(** C26: [Write] on MongoDB refines the abstract store that the in-memory datastore refines,
    and is atomic, where the conditions of the stored tuples and of the batch have no
    context.  A batch of distinct tuples that name object, relation and user, and that the
    maximum allows, is applied exactly when every delete names a stored tuple and no write does: the tuples are then
    (S \ deletes) ∪ writes, every written tuple is there with its condition, no other
    document has changed and the changelog has one more entry per tuple.  Otherwise the
    datastore is what it was, and the error tells the offending tuple or that the batch is
    too large; an error of the server, which one that is up does not make, leaves nothing
    or the whole batch behind. *)
Theorem Mongo_Write_refines (store : string) (deletes : list TupleKeyWithoutCondition) (writes : list TupleKey)
    (ds : Datastore) (p : Process) (l : list ChangelogDocument)
    (S := tuples_of store (docs (Tuples ds)))
    (D := list_to_set (key_of_woc <$> deletes) : gset akey) (W := list_to_set (key_of <$> writes) : gset akey) :
  mongo_inv ds p l →
  Forall (λ k, complete_key (key_of_woc k)) deletes →
  Forall (λ tk, complete_key (key_of tk) ∧ cond_plain (Condition tk)) writes →
  NoDup ((key_of_woc <$> deletes) ++ (key_of <$> writes)) →
  let '(r, ds', p') := Mongo.Write store deletes writes ds p in
  match r with
  | Ret _ => zlen deletes + zlen writes ≤ MaxTuplesPerWrite ds ∧ applied store deletes writes ds l ds' p'
  | Throw e =>
      (ds' = ds ∧ mongo_inv ds p' l ∧
       (MaxTuplesPerWrite ds < zlen deletes + zlen writes ∨
        (spec_write S D W = None ∧ ∃ e', ds_storage e = Some e' ∧ offends deletes writes S e') ∨ mongo_failed e)) ∨
      (mongo_failed e ∧ applied store deletes writes ds l ds' p')
  | Panic _ => False
  end.
Proof.
  intros Hinv Hd Hw Hnd. pose proof (Write_cases store deletes writes Hd Hw Hnd ds p l Hinv) as Hc.
  destruct (Mongo.Write store deletes writes ds p) as [[r ds'] p']. destruct r as [[]|e|w]; [done| |done].
  destruct Hc as [(?&?&Hwhy)|?]; [left; split_and!; [done..|]|by right].
  destruct Hwhy as [?|[(e'&?&Hoff)|?]]; [by left| |by right; right]. right; left.
  split; [by eapply offends_spec|by exists e'].
Qed.

(** C28: the changelog can be read to its end, from a server that is up, without a horizon
    and where no logged condition has a context.  A client that follows the tokens of
    [ReadChanges] on MongoDB from the empty token, ascending and with any positive page
    size, gets every change of the store (of the type of object it asks for) exactly once,
    in the order they were made, and then ErrNotFound; a page that is not full ends with a
    token made at that moment, after every change there is. *)
Theorem Mongo_ReadChanges_complete (ds : Datastore) (p : Process) (l : list ChangelogDocument) (store : string)
    (filter : ReadChangesFilter) (size : Z) (fuel : nat) :
  mongo_inv ds p l → MongoUp → (∀ c, c ∈ l → cond_plain (cd_Condition c)) →
  rcf_HorizonOffset filter ≤ 0 → 0 < size → (length l < fuel)%nat →
  follow_changelog fuel ds store filter size "" p = Ret (docToChange <$> List.filter (asked_change store filter) l).
Proof.
  intros Hinv Hup Hdec Hh Hsize Hfuel. apply (follow_from ds p l Hinv Hup Hdec store filter size Hh Hsize fuel "" p []); [done|done| | |].
  - by intros c ?%not_elem_of_nil.
  - done.
  - pose proof (filter_length_le (asked_change store filter) l). lia.
Qed.

End machine.

(** ** Where the datastore departs from the in-memory one *)

Section departures.
Context `{!Ulid, !UlidLaws, !UlidOrder, !Clock, !ClockLaws, !Mongo, !MongoLaws, !BsonLaws}.

(** [Head] takes the item away: what the iterator then yields begins with the next one. *)
Theorem Mongo_Head_drops (d : TupleDocument) (rest : list TupleDocument) (e : option MongoErr) (n : nat) :
  Decode d = Ret d →
  (it_Head None (mkCursor (d :: rest) e)).1 = Ret (docToTuple d) ∧
  drain n (it_Head None (mkCursor (d :: rest) e)).2 = drain n (mkCursor rest e).
Proof. intros Hd. unfold it_Head, it_Decode. simpl. by rewrite Hd. Qed.

(** A cursor that the server broke off ends like one that was read to its end. *)
Theorem Mongo_Next_hides_error (found : list TupleDocument) (e : option MongoErr) :
  Forall (λ d, Decode d = Ret d) found →
  drain (S (length found)) (mkCursor found e) = (docToTuple <$> found, Some ErrIteratorDone).
Proof.
  induction 1 as [|d found Hd _ IH]; [done|]. cbn [length drain].
  change (Next None (mkCursor (d :: found) e)) with (it_Decode d, mkCursor found e). unfold it_Decode. rewrite Hd.
  cbn [drain length] in IH. by rewrite IH.
Qed.

(** A cursor only returns documents the query selects. *)
Lemma Find_elem `{!BsonDoc D} (c : collection D) f o cur d :
  Find c f o = Ret cur → d ∈ cur_docs cur → d ∈ docs c ∧ selects regex_match f d = true.
Proof.
  intros E Hd. pose proof (Find_law c f o) as Hlaw. rewrite E in Hlaw. destruct Hlaw as (k&[Hperm _]&Hcur).
  assert (d ∈ limit_to (fo_Limit o) k) as Hk.
  { destruct (cur_Err cur); [|by rewrite <-Hcur]. destruct Hcur as [[rest ->] _]. apply elem_of_app. by left. }
  assert (d ∈ k) as Hin.
  { unfold limit_to in Hk. case_bool_decide; [done|]. by apply elem_of_take in Hk as (?&?%list_elem_of_lookup_2&_). }
  rewrite Hperm in Hin. by apply list_elem_of_In, List.filter_In in Hin as [?%list_elem_of_In ?].
Qed.

Lemma decode_all_same `{!BsonDoc D} what (k k' : list D) :
  (∀ d, d ∈ k → Decode d = Ret d) → decode_all what k = Ret k' → k' = k.
Proof.
  revert k'. induction k as [|d k IH]; intros k' Hk; cbn [decode_all]; [by intros [= <-]|].
  rewrite (Hk d) by apply list_elem_of_here. cbn [wrap outcome_bind].
  destruct (decode_all what k) as [k1| |]; cbn [outcome_bind]; [|done..]. intros [= <-]. f_equal. apply IH; [|done].
  intros x Hx. apply Hk. by apply list_elem_of_further.
Qed.

(** Asking for every object of a type finds nothing: the empty id is taken literally. *)
Theorem Mongo_Read_by_type (ds : Datastore) (p : Process) (l : list ChangelogDocument) (store ty r u : string) (c : option RelationshipCondition) :
  mongo_inv ds p l → has_byte ":" ty = false →
  match Mongo.Read ds store (mkTupleKey (BuildObject ty "") r u c) with
  | Ret it => cur_docs it = []
  | Throw e => ∃ msg what, e = DsWrap msg (ErrServer what)
  | Panic _ => False
  end.
Proof.
  intros Hinv Hty. unfold Mongo.Read. pose proof (Find_law (Tuples ds) (buildTupleFilter store (Some (mkTupleKey (BuildObject ty "") r u c))) no_options) as Hlaw.
  destruct (Find _ _ _) as [cur|e|w] eqn:E; simpl; [|destruct Hlaw as [what ->]; by eexists _, _|done].
  destruct (cur_docs cur) as [|d k] eqn:Ek; [done|]. exfalso.
  destruct (Find_elem (Tuples ds) _ _ cur d E) as [Hd Hs]; [rewrite Ek; apply list_elem_of_here|].
  destruct (inv_wf _ _ _ Hinv d Hd) as (_&Hid&_). revert Hs. unfold buildTupleFilter. cbn [Object Relation User].
  rewrite SplitObject_build, (bool_decide_false (BuildObject ty "" = "")) by (done || (unfold BuildObject; by destruct ty)). cbn [negb].
  destruct (r =s ""), (u =s ""); cbn [negb]; eval_filter; rewrite !andb_true_iff, !bool_decide_eq_true; naive_solver.
Qed.

(** With a horizon the changes are the recent ones, those the horizon is meant to hide. *)
Theorem Mongo_ReadChanges_horizon (ds : Datastore) (store : string) (filter : ReadChangesFilter) (options : PaginationOptions)
    (sortDesc : bool) (p : Process) (page : list TupleChange) (token : string) (p' : Process) :
  (∀ c, c ∈ docs (Changelog ds) → Decode c = Ret c) → 0 < rcf_HorizonOffset filter →
  Mongo.ReadChanges ds store filter options sortDesc p = (Ret (page, token), p') →
  Forall (λ c, DateTime_Time (NewDateTimeFromTime (clock_reading (pr_ticks p) - rcf_HorizonOffset filter)) ≤ tc_Timestamp c) page.
Proof.
  intros Hdec Hh. unfold Mongo.ReadChanges.
  destruct (changes_filter store filter options sortDesc p) as [f p1] eqn:Ef.
  assert (∀ c, selects regex_match f c = true →
    NewDateTimeFromTime (clock_reading (pr_ticks p) - rcf_HorizonOffset filter) ≤ cd_Timestamp c) as Hsel.
  { intros c Hc. revert Ef. unfold changes_filter. rewrite (bool_decide_true (0 < _)) by done. unfold time_Now. intros [= <- _].
    revert Hc. destruct (rcf_ObjectType filter =s ""), (From_ options =s ""); cbn [negb]; eval_filter; cbn [bson_gt];
      rewrite ?andb_true_iff, orb_true_iff, !bool_decide_eq_true; intros Hc; destruct_and?; naive_solver lia. }
  destruct (Find (Changelog ds) f _) as [cur|e|w] eqn:EF; cbn [wrap outcome_bind]; [|done..]. unfold cursor_all.
  destruct (decode_all "changelog" (cur_docs cur)) as [cs|e|w] eqn:Ed; cbn [outcome_bind]; [|done..].
  destruct (cur_Err cur); [done|].
  assert (∀ c, c ∈ cur_docs cur → c ∈ docs (Changelog ds) ∧ selects regex_match f c = true) as Hcur by (intros c; by apply Find_elem with (1 := EF)).
  apply decode_all_same in Ed as ->; [|intros c [Hc _]%Hcur; by apply Hdec]. set (cs := cur_docs cur) in *.
  assert (Forall (λ c, selects regex_match f c = true) cs) as Hcs by (apply Forall_forall; intros c [_ Hc]%Hcur; done).
  assert (Forall (λ c, DateTime_Time (NewDateTimeFromTime (clock_reading (pr_ticks p) - rcf_HorizonOffset filter)) ≤ tc_Timestamp c)
    (docToChange <$> cs)) as Hpage.
  { apply Forall_fmap. eapply Forall_impl; [exact Hcs|]. intros c Hc%Hsel. simpl. unfold DateTime_Time. lia. }
  destruct cs as [|c cs]; [done|]. case_bool_decide; [by intros [= <- _ _]|].
  destruct (ulid_Make p1) as [u p2]. by intros [= <- _ _].
Qed.
End departures.

(** ** A server to run on *)

#[local] Existing Instances sorted_Ulid sorted_UlidLaws sorted_UlidOrder tick_Clock tick_ClockLaws.

Section demo.
Context (newest_first : bool).
#[local] Hint Extern 0 Mongo => exact (list_Mongo newest_first) : typeclass_instances.
#[local] Hint Extern 0 MongoLaws => exact (list_MongoLaws newest_first) : typeclass_instances.
#[local] Hint Extern 0 BsonLaws => exact (list_BsonLaws newest_first) : typeclass_instances.

Definition empty_database : Datastore :=
  mkDatastore (mkCollection [] []) (mkCollection [] []) (mkCollection [] []) (mkCollection [] []) (mkCollection [] []) 0 0.

Definition new_datastore : Datastore := (createIndexes empty_database).2.

Lemma new_datastore_inv : mongo_inv new_datastore start_process [].
Proof. apply (createIndexes_inv empty_database); [split; by split|exact start_process_ok|done]. Qed.

(** The datastore after one write to the store "store". *)
Definition datastore_with (writes : list TupleKey) : Datastore :=
  (Mongo.Write "store" [] writes new_datastore start_process).1.2.
End demo.

(** A client of [ReadPage] that asks for pages of [size] until the token is empty. *)
Fixpoint mongo_read_pages `{!Ulid, !Mongo} (fuel : nat) (ds : Datastore) (store : string) (tk : TupleKey) (size : Z) (token : string)
  : outcome DsErr (list Tuple) :=
  match fuel with
  | O => Panic "out of fuel"
  | S fuel =>
      let! (page, token') := Mongo.ReadPage ds store tk (mkPagination size token) in
      if token' =s "" then Ret page
      else let! rest := mongo_read_pages fuel ds store tk size token' in Ret (page ++ rest)
  end.

Definition three_docs : list TupleKey :=
  [NewTupleKey "doc:1" "viewer" "user:anne"; NewTupleKey "doc:2" "viewer" "user:anne"; NewTupleKey "doc:3" "viewer" "user:anne"].

(** The pages of [ReadPage] can miss tuples.  The first page is not sorted, but its
    token is taken for a position in the order of the ULIDs: where the server answers with
    the newest tuples first, which nothing forbids, a client that follows the tokens gets
    doc:3 and doc:2, then doc:3 again, and never doc:1; the in-memory datastore returns the
    three. *)
Theorem Mongo_ReadPage_loses_tuples :
  match @mongo_read_pages _ (list_Mongo true) 4 (datastore_with true three_docs) "store" all_keys 2 "" with
  | Ret ts => (λ t, Object (Key t)) <$> ts = ["doc:3"; "doc:2"; "doc:3"]
  | _ => False
  end ∧
  match @Memory.Write counter_Ulid 0 "store" [] three_docs (Memory.New None None) (0%N, 0%Z) with
  | Ret (s, _) =>
      match read_pages 4 s "store" all_keys 2 "" with
      | Ret ts => (λ t, Object (Key t)) <$> ts = ["doc:1"; "doc:2"; "doc:3"]
      | _ => False
      end
  | _ => False
  end.
Proof. by vm_compute. Qed.

(** ** Witnesses *)

Section witnesses.
#[local] Hint Extern 0 Mongo => exact (list_Mongo true) : typeclass_instances.
#[local] Hint Extern 0 MongoLaws => exact (list_MongoLaws true) : typeclass_instances.
#[local] Hint Extern 0 BsonLaws => exact (list_BsonLaws true) : typeclass_instances.
#[local] Hint Extern 0 MongoUp => exact (list_MongoUp true) : typeclass_instances.

Lemma three_docs_complete : Forall (λ tk, complete_key (key_of tk) ∧ cond_plain (Condition tk)) three_docs.
Proof.
  repeat (constructor; [split; [|done]; apply (complete_demo "1") || apply (complete_demo "2") || apply (complete_demo "3"); done|]).
  constructor.
Qed.

Lemma three_docs_distinct : NoDup (key_of <$> three_docs).
Proof. apply (bool_decide_unpack _). by vm_compute. Qed.

Lemma Mongo_reachable_inv_witness :
  ∃ l, docs (Changelog (datastore_with true three_docs)) ≡ₚ l ∧ StronglySorted ulid_before l ∧
    ∀ store, replay_docs store l = tuples_of store (docs (Tuples (datastore_with true three_docs))).
Proof.
  pose proof (Mongo_reachable_inv (empty_database true) (new_datastore true) (datastore_with true three_docs) start_process
    (Mongo.Write "store" [] three_docs (new_datastore true) start_process).2) as Hinv.
  apply Hinv; [split; by split|exact start_process_ok|done|].
  apply rtc_once. apply (step_Write "store" [] three_docs _ _
    (Mongo.Write "store" [] three_docs (new_datastore true) start_process).1.1); [constructor|exact three_docs_complete|exact three_docs_distinct|].
  unfold datastore_with. by destruct (Mongo.Write _ _ _ _ _) as [[]].
Defined.

(** The datastore and the process after the three writes. *)
Definition three_docs_process : Process := (Mongo.Write "store" [] three_docs (new_datastore true) start_process).2.

Lemma three_docs_inv : ∃ l, mongo_inv (datastore_with true three_docs) three_docs_process l.
Proof.
  pose proof (Write_cases "store" [] three_docs (List.Forall_nil _) three_docs_complete three_docs_distinct
    (new_datastore true) start_process [] (new_datastore_inv true)) as Hc.
  unfold datastore_with, three_docs_process. destruct (Mongo.Write _ _ _ _ _) as [[r ds'] p']. simpl.
  destruct r as [[]|e|w]; [|destruct Hc as [(->&Hinv&_)|[_ (_&_&_&cs&_&Hinv)]]|done]; eauto.
  destruct Hc as [_ (_&_&_&cs&_&Hinv)]. eauto.
Qed.

Definition doc_1 : TupleKeyWithoutCondition := mkTupleKeyWithoutCondition "doc:1" "viewer" "user:anne".
Definition doc_4 : TupleKey := NewTupleKey "doc:4" "viewer" "user:anne".

Lemma Mongo_Write_refines_witness :
  let '(r, ds', _) := Mongo.Write "store" [doc_1] [doc_4] (datastore_with true three_docs) three_docs_process in
  r = Ret tt ∧
  spec_write (tuples_of "store" (docs (Tuples (datastore_with true three_docs))))
    {[("doc:1", "viewer", "user:anne")]} {[("doc:4", "viewer", "user:anne")]} =
  Some (tuples_of "store" (docs (Tuples ds'))).
Proof.
  destruct three_docs_inv as [l Hinv].
  pose proof (Mongo_Write_refines "store" [doc_1] [doc_4] (datastore_with true three_docs) three_docs_process l Hinv) as Hc.
  assert (match (Mongo.Write "store" [doc_1] [doc_4] (datastore_with true three_docs) three_docs_process).1.1 with
          | Ret _ => True | _ => False end) as Hok by (vm_compute; exact I).
  destruct (Mongo.Write "store" [doc_1] [doc_4] _ _) as [[r ds'] p']. simpl in Hok. destruct r as [[]| |]; [|done..].
  split; [done|]. destruct Hc as [_ (Hspec&_)].
  - apply Forall_singleton. by apply (complete_demo "1").
  - apply Forall_singleton. split; [by apply (complete_demo "4")|done].
  - apply (bool_decide_unpack _). by vm_compute.
  - rewrite <-Hspec. f_equal; set_solver.
Defined.

Lemma Mongo_ReadChanges_complete_witness :
  match follow_changelog 4 (datastore_with true three_docs) "store" (mkReadChangesFilter "doc" 0) 2 "" three_docs_process with
  | Ret cs => (λ c, Object (tc_TupleKey c)) <$> cs = ["doc:1"; "doc:2"; "doc:3"]
  | _ => False
  end.
Proof.
  destruct three_docs_inv as [l Hinv]. assert (length l = 3)%nat as Hlen.
  { rewrite <-(si_log _ _ _ Hinv). by vm_compute. }
  pose proof (Mongo_ReadChanges_complete (datastore_with true three_docs) three_docs_process l "store" (mkReadChangesFilter "doc" 0) 2 4
    Hinv (list_MongoUp true)) as Hc.
  assert (match follow_changelog 4 (datastore_with true three_docs) "store" (mkReadChangesFilter "doc" 0) 2 "" three_docs_process with
    | Ret cs => (λ c, Object (tc_TupleKey c)) <$> cs = ["doc:1"; "doc:2"; "doc:3"] | _ => False end) as Hrun by by vm_compute.
  assert (∀ c, c ∈ l → cond_plain (cd_Condition c)) as Hplain.
  { intros c Hc'. rewrite <-(si_log _ _ _ Hinv) in Hc'. revert c Hc'. apply Forall_forall.
    assert (cd_Condition <$> docs (Changelog (datastore_with true three_docs)) = [None; None; None]) as Hn by by vm_compute.
    assert (Forall cond_plain (cd_Condition <$> docs (Changelog (datastore_with true three_docs)))) as Hall by (rewrite Hn; by repeat constructor).
    by rewrite Forall_fmap in Hall. }
  specialize (Hc Hplain ltac:(done) ltac:(done) ltac:(lia)). rewrite Hc in Hrun |- *. exact Hrun.
Defined.
End witnesses.
