(* ===== verification/MongoCheck.v ===== *)
(** * Check over the MongoDB datastore

    The datastore of [Mongo.v] does not return exactly the usersets it is asked for: the
    pattern it matches a user with ignores the type of a userset restriction, and for a
    wildcard it matches every user of the type.  The checker filters what it reads by the
    model, which makes up for the first but not for the second: Check is exact for a user
    whose type no relation makes public, and grants strangers where one does. *)

From S2P Require Import Prelude GoStd Tuple Iterators Model Memory MemorySpec Typesystem Entrypoints TypesystemSpec.
From S2P Require Import Condition Validation ValidationSpec Check CheckSpec CheckSemantics CheckExact CheckMemory CheckReaders.
From S2P Require Import MongoDriver Mongo MongoSpec MongoList MongoDatastore.

Local Open Scope Z_scope.
Local Open Scope go_scope.

(** ** Patterns *)

Lemma str_take_drop n s : str_take n s +:+ str_drop n s = s.
Proof. revert s. induction n as [|n IH]; intros [|c s]; simpl; try done. by rewrite str_app_cons, IH. Qed.

Lemma HasSuffix_spec s q : HasSuffix s q = true ↔ ∃ a, s = a +:+ q.
Proof.
  unfold HasSuffix. rewrite bool_decide_eq_true. split.
  - intros <-. eexists. symmetry. apply str_take_drop.
  - intros [a ->]. rewrite str_length_app. replace (_ - _)%nat with (String.length a) by lia. apply str_drop_app.
Qed.

Lemma regex_plain_app s t : regex_plain (s +:+ t) = regex_plain s && regex_plain t.
Proof.
  unfold regex_plain. induction regex_meta as [|c cs IH]; simpl; [done|]. rewrite IH, has_byte_app, negb_orb.
  destruct (has_byte c s), (has_byte c t); simpl; try done; by rewrite ?andb_false_r.
Qed.

Section reader.
Context `{!Ulid, !UlidLaws, !UlidOrder, !Clock, !ClockLaws, !Mongo, !MongoLaws, !BsonLaws}.

(** The error a client of the interface finds behind the wrappings, if it is one of the
    storage package. *)
Definition reader_err (e : DsErr) : StorageErr := default (ErrIterator (ErrOther "mongo")) (ds_storage e).

Definition reader_result {A} (r : outcome DsErr A) : outcome StorageErr A :=
  match r with Ret a => Ret a | Throw e => Throw (reader_err e) | Panic w => Panic w end.

Definition mongo_Reader (ds : Datastore) : RelationshipTupleReader := {|
  reader_iter := Cursor TupleDocument;
  reader_Iterator := mongo_Iterator;
  rd_Read store tk := reader_result (Mongo.Read ds store tk);
  rd_ReadUserTuple store tk := reader_result (Mongo.ReadUserTuple ds store tk);
  rd_ReadUsersetTuples store f := reader_result (Mongo.ReadUsersetTuples ds store f);
|}.

(** ** A reader that returns what it is asked for *)

(** The tuple is a userset that one of the restrictions asks for. *)
Definition asked_for (refs : list RelationReference) (t : Tuple) : bool :=
  let u := User (Key t) in
  match GetUserTypeFromUser u with
  | UserTypeUserSet => existsb (λ rr, (rr_Type rr =s GetType u) && (rr_GetRelation rr =s (SplitObjectRelation u).2)) refs
  | UserTypeUser => false
  end.

Definition plain_ref (rr : RelationReference) : bool := regex_plain (rr_Type rr) && regex_plain (rr_GetRelation rr).

Definition as_static (P : Tuple → bool) (r : outcome DsErr (Cursor TupleDocument)) : outcome StorageErr (StaticIterator Tuple) :=
  match r with
  | Ret it => Ret (NewStaticIterator (List.filter P (docToTuple <$> cur_docs it)))
  | Throw e => Throw (reader_err e)
  | Panic w => Panic w
  end.

(** The datastore's answers without the usersets nobody asked for.  Where a name is not
    plain in a regular expression, the usersets are taken from a read of the relation. *)
Definition exact_Reader (ds : Datastore) : RelationshipTupleReader := {|
  reader_iter := StaticIterator Tuple;
  reader_Iterator := _;
  rd_Read store tk := as_static (λ _, true) (Mongo.Read ds store tk);
  rd_ReadUserTuple store tk := reader_result (Mongo.ReadUserTuple ds store tk);
  rd_ReadUsersetTuples store f :=
    let refs := ruf_AllowedUserTypeRestrictions f in
    as_static (asked_for refs)
      (if forallb plain_ref refs then Mongo.ReadUsersetTuples ds store f
       else Mongo.Read ds store (NewTupleKey (ruf_Object f) (ruf_Relation f) ""));
|}.

Context (ds : Datastore) (p : Process) (l : list ChangelogDocument) (store : string).
Hypothesis Hinv : mongo_inv ds p l.
Hypothesis Hup : MongoUp.
Hypothesis Husers : ∀ d, d ∈ docs (Tuples ds) → td_Store d = store → IsValidUser (td_User d) = true.

Definition mongo_stored : list Tuple := docToTuple <$> List.filter (λ d, td_Store d =s store) (docs (Tuples ds)).

Lemma elem_of_stored t :
  t ∈ mongo_stored ↔ ∃ d, t = docToTuple d ∧ d ∈ docs (Tuples ds) ∧ td_Store d = store.
Proof.
  unfold mongo_stored. rewrite list_elem_of_fmap. setoid_rewrite list_elem_of_In. setoid_rewrite List.filter_In.
  setoid_rewrite bool_decide_eq_true. by setoid_rewrite <-list_elem_of_In.
Qed.

Lemma doc_wf d : d ∈ docs (Tuples ds) → wf_doc d.
Proof. apply (inv_wf _ _ _ Hinv). Qed.

Lemma doc_decodes d : d ∈ docs (Tuples ds) → Decode d = Ret d.
Proof. intros Hd. destruct (doc_wf d Hd) as (_&_&_&_&Hc). by apply Decode_tuple. Qed.

(** A query without options finds the selected documents. *)
Lemma Find_all f :
  ∃ found, Find (Tuples ds) f no_options = Ret (mkCursor found None) ∧
    ∀ d, d ∈ found ↔ d ∈ docs (Tuples ds) ∧ selects regex_match f d = true.
Proof.
  destruct (up_Find (Tuples ds) f no_options) as [found Hf]. exists found. split; [done|]. intros d.
  pose proof (Find_law (Tuples ds) f no_options) as Hlaw. rewrite Hf in Hlaw. simpl in Hlaw.
  destruct Hlaw as (r&[Hperm _]&->). unfold limit_to. simpl. rewrite Hperm.
  by rewrite list_elem_of_In, List.filter_In, <-list_elem_of_In.
Qed.

Lemma read_selects o r d :
  wf_doc d → object_ok o → r ≠ "" →
  selects regex_match (buildTupleFilter store (Some (NewTupleKey o r ""))) d = true ↔
  td_Store d = store ∧ Object (Key (docToTuple d)) = o ∧ Relation (Key (docToTuple d)) = r.
Proof.
  intros (Ht&Hid&_) ((ot&oid&->&Hot&Hoid)&_) Hr. unfold buildTupleFilter. simpl.
  rewrite SplitObject_build, (bool_decide_false (r = "")) by done.
  rewrite bool_decide_false by (unfold BuildObject; by destruct ot). simpl. eval_filter.
  rewrite !andb_true_iff, !bool_decide_eq_true. split; [naive_solver|].
  intros (->&Heq&->). apply BuildObject_inj in Heq as [-> ->]; done.
Qed.

(** The documents a userset read selects. *)
Lemma userset_selects o r refs d :
  wf_doc d → object_ok o → refs ≠ [] →
  selects regex_match (userset_filter store (mkReadUsersetTuplesFilter o r refs)) d = true ↔
  td_Store d = store ∧ Object (Key (docToTuple d)) = o ∧ Relation (Key (docToTuple d)) = r ∧
  ∃ rr, rr ∈ refs ∧ fields_select regex_match (restriction_filter rr) d = true.
Proof.
  intros (Ht&Hid&_) ((ot&oid&->&Hot&Hoid)&_) Hne. unfold userset_filter. cbn [ruf_Object ruf_Relation ruf_AllowedUserTypeRestrictions].
  rewrite SplitObject_build, (bool_decide_false (refs = [])) by done. cbn [negb]. eval_filter.
  rewrite !andb_true_iff, !bool_decide_eq_true, existsb_exists. setoid_rewrite <-list_elem_of_In.
  setoid_rewrite list_elem_of_fmap. simpl. split.
  - intros [Heqs (m&(rr&->&Hrr)&Hm)]. destruct_and!. split_and!; [done|by f_equal|done|]. by exists rr.
  - intros (->&Heq&->&rr&Hrr&Hm). apply BuildObject_inj in Heq as [-> ->]; [|done..]. split; [done|].
    eexists. split; [by exists rr|done].
Qed.

(** What the filter of a restriction with plain names says of a valid user. *)
Lemma restriction_selects rr d :
  plain_ref rr = true → IsValidUser (td_User d) = true →
  fields_select regex_match (restriction_filter rr) d =
  if negb (rr_GetRelation rr =s "") then HasSuffix (td_User d) ("#" +:+ rr_GetRelation rr)
  else if negb (rr_Type rr =s "") then HasPrefix (td_User d) (rr_Type rr +:+ ":") else true.
Proof.
  intros [Hty Hrel]%andb_true_iff Hv. unfold restriction_filter. destruct (negb (rr_GetRelation rr =s "")).
  - assert (∀ m : bson_M, (m = ∅ ∨ ∃ c, m = {["user" := c]}) → ∀ c, <["user" := c]> m = {["user" := c]}) as Hins.
    { intros m [->|[c' ->]] c; [done|]. by rewrite insert_singleton_eq. }
    rewrite Hins by (destruct (negb (rr_Type rr =s "")); [right; by eexists|by left]). eval_filter. cbv beta iota.
    rewrite <-str_app_assoc, regex_suffix; [done|by rewrite regex_plain_app, Hrel|]. apply IsValidUser_no_re_space; [|done].
    unfold re_space, newline. set_solver.
  - destruct (negb (rr_Type rr =s "")); [|by eval_filter]. rewrite insert_empty. eval_filter. cbv beta iota.
    rewrite regex_prefix; [done|]. by rewrite regex_plain_app, Hty.
Qed.

(** A userset that is asked for matches the pattern of its restriction. *)
Lemma asked_for_selected refs d :
  forallb plain_ref refs = true → IsValidUser (td_User d) = true → asked_for refs (docToTuple d) = true →
  ∃ rr, rr ∈ refs ∧ fields_select regex_match (restriction_filter rr) d = true.
Proof.
  intros Hplain Hv Ha. unfold asked_for in Ha. simpl in Ha. destruct (GetUserTypeFromUser _); [done|].
  apply existsb_exists in Ha as (rr&Hrr%list_elem_of_In&Ha). bool_norm. exists rr. split; [done|].
  rewrite restriction_selects by (done || by eapply forallb_elem). set (u := td_User d) in *.
  destruct (rr_GetRelation rr =s "") eqn:Er; simpl; bool_norm.
  - destruct (rr_Type rr =s "") eqn:Et; simpl; bool_norm; [done|].
    destruct (SplitObject_cases u) as [[_ Hs]|(t&id&Hu&_&Hs)]; unfold GetType in *; rewrite Hs in *; simpl in *; [done|].
    apply HasPrefix_spec. exists id. rewrite Hu. subst t. unfold BuildObject. by rewrite str_app_assoc.
  - destruct (SplitObjectRelation_cases u) as [[_ Hs]|(o&r&Hu&_&Hs)]; rewrite Hs in *; simpl in *; [done|].
    apply HasSuffix_spec. exists o. rewrite Hu. by subst r.
Qed.

(** A user that matches the pattern of a userset restriction is a userset. *)
Lemma selected_userset rr d :
  plain_ref rr = true → rr_GetRelation rr ≠ "" → IsValidUser (td_User d) = true →
  fields_select regex_match (restriction_filter rr) d = true →
  IsObjectRelation (td_User d) = true ∧ Tuple.GetRelation (td_User d) ≠ "".
Proof.
  intros Hplain Hr Hv. rewrite restriction_selects, bool_decide_false by done. simpl. intros [a Hu]%HasSuffix_spec.
  destruct (valid_user_facts _ Hv) as (_&_&Hor&_). rewrite Hor.
  assert (Tuple.GetRelation (td_User d) ≠ "") as Hne; [|split; [by rewrite bool_decide_false|done]].
  assert (has_byte "#" (td_User d) = true) as Hh by (rewrite Hu, has_byte_app; by rewrite orb_true_r).
  apply IsValidUser_cases in Hv as [(_&Hh'&_)|[(t&id&Heq&Ht&Hid)|(t&id&r&Heq&Ht&Hid&Hrel)]].
  - by rewrite Hh in Hh'.
  - rewrite Heq, has_byte_BuildObject in Hh. assert (has_byte "#" t = false) as Ht' by word_byte.
    assert (has_byte "#" id = false) as Hid' by word_byte. by rewrite Ht', Hid' in Hh.
  - unfold Tuple.GetRelation. rewrite Heq. unfold UsersetString. rewrite SplitObjectRelation_build by word_byte.
    simpl. by destruct Hrel.
Qed.

(** ** The exact reader meets the interface of the checker *)

Lemma stored_docs_unique t t' :
  t ∈ mongo_stored → t' ∈ mongo_stored → key_of (Key t) = key_of (Key t') → t = t'.
Proof.
  intros (d&->&Hd&Hs)%elem_of_stored (d'&->&Hd'&Hs')%elem_of_stored Heq. f_equal.
  apply (inv_unique _ _ _ Hinv); [done|done|by rewrite Hs, Hs'|exact Heq].
Qed.

Lemma exact_Read_spec o r :
  object_ok o → r ≠ "" →
  ∃ it, as_static (λ _, true) (Mongo.Read ds store (NewTupleKey o r "")) = Ret it ∧
    ∀ t, t ∈ items it ↔ t ∈ mongo_stored ∧ Object (Key t) = o ∧ Relation (Key t) = r.
Proof.
  intros Ho Hr. unfold Mongo.Read. destruct (Find_all (buildTupleFilter store (Some (NewTupleKey o r "")))) as (found&->&Hf).
  eexists. split; [done|]. intros t. simpl. rewrite list_elem_of_In, List.filter_In, <-list_elem_of_In, list_elem_of_fmap, elem_of_stored.
  split.
  - intros [(d&->&[Hd Hs]%Hf) _]. apply read_selects in Hs as (Hs&?&?); [|by apply doc_wf|done..]. split; [by exists d|done].
  - intros ((d&->&Hd&Hs)&?&?). split; [|done]. exists d. split; [done|]. apply Hf. split; [done|].
    by apply read_selects; [apply doc_wf|..].
Qed.

Lemma mongo_ReadUserTuple tk :
  complete_key (key_of tk) →
  match reader_result (Mongo.ReadUserTuple ds store tk) with
  | Ret t => t ∈ mongo_stored ∧ key_of (Key t) = key_of tk
  | Throw e => e = ErrNotFound ∧ ∀ t, t ∈ mongo_stored → key_of (Key t) ≠ key_of tk
  | Panic _ => False
  end.
Proof.
  intros Hk. unfold Mongo.ReadUserTuple. pose proof (find_key store _ _ _ Hinv tk Hk) as Hfind. simpl in Hfind.
  destruct (find_one (Tuples ds) _ []) as [d|e|w]; simpl; [| |done].
  - destruct Hfind as (Hd&Hs&Hdk). split; [|done]. apply elem_of_stored. by exists d.
  - destruct e; simpl; [|destruct Hfind as [_ []]; exact Hup..]. split; [done|].
    intros t (d&->&Hd&Hs)%elem_of_stored Heq. apply Hfind, elem_of_tuples_of. by exists d.
Qed.

Lemma asked_for_spec refs t :
  asked_for refs t = true ↔ GetUserTypeFromUser (User (Key t)) = UserTypeUserSet ∧
    ∃ rr, rr ∈ refs ∧ rr_Type rr = GetType (User (Key t)) ∧ rr_GetRelation rr = (SplitObjectRelation (User (Key t))).2.
Proof.
  unfold asked_for. destruct (GetUserTypeFromUser _); [split; [done|by intros [? _]]|].
  rewrite existsb_exists. setoid_rewrite andb_true_iff. setoid_rewrite bool_decide_eq_true.
  setoid_rewrite <-list_elem_of_In. naive_solver.
Qed.

Lemma exact_ReadUsersetTuples_spec o r refs :
  object_ok o → r ≠ "" → refs ≠ [] → Forall userset_ref refs →
  ∃ it, @rd_ReadUsersetTuples (exact_Reader ds) store (mkReadUsersetTuplesFilter o r refs) = Ret it ∧
    ∀ t, t ∈ items it ↔ t ∈ mongo_stored ∧ Object (Key t) = o ∧ Relation (Key t) = r ∧
      GetUserTypeFromUser (User (Key t)) = UserTypeUserSet ∧
      ∃ rr, rr ∈ refs ∧ rr_Type rr = GetType (User (Key t)) ∧ rr_GetRelation rr = (SplitObjectRelation (User (Key t))).2.
Proof.
  intros Ho Hr Hne _. setoid_rewrite <-asked_for_spec. simpl. destruct (forallb plain_ref refs) eqn:Hplain.
  - unfold Mongo.ReadUsersetTuples. destruct (Find_all (userset_filter store (mkReadUsersetTuplesFilter o r refs))) as (found&->&Hf).
    eexists. split; [done|]. intros t. simpl. rewrite list_elem_of_In, List.filter_In, <-list_elem_of_In, list_elem_of_fmap, elem_of_stored.
    split.
    + intros [(d&->&[Hd Hs]%Hf) Ha]. apply userset_selects in Hs as (Hs&?&?&_); [|by apply doc_wf|done..].
      split_and!; [by exists d|done..].
    + intros ((d&->&Hd&Hs)&?&?&Ha). split; [|done]. exists d. split; [done|]. apply Hf. split; [done|].
      apply userset_selects; [by apply doc_wf|done..|]. split_and!; [done..|]. apply asked_for_selected; auto.
  - unfold Mongo.Read. destruct (Find_all (buildTupleFilter store (Some (NewTupleKey o r "")))) as (found&->&Hf).
    eexists. split; [done|]. intros t. simpl. rewrite list_elem_of_In, List.filter_In, <-list_elem_of_In, list_elem_of_fmap, elem_of_stored.
    split.
    + intros [(d&->&[Hd Hs]%Hf) Ha]. apply read_selects in Hs as (Hs&?&?); [|by apply doc_wf|done..].
      split_and!; [by exists d|done..].
    + intros ((d&->&Hd&Hs)&?&?&Ha). split; [|done]. exists d. split; [done|]. apply Hf. split; [done|].
      by apply read_selects; [apply doc_wf|..].
Qed.

Definition exact_ReaderSpec : @RelationshipTupleReaderSpec (exact_Reader ds) store.
Proof.
  refine (@Build_RelationshipTupleReaderSpec (exact_Reader ds) store mongo_stored static_Spec stored_docs_unique
    exact_Read_spec mongo_ReadUserTuple exact_ReadUsersetTuples_spec).
Defined.

(** ** What the datastore's iterator yields *)

(** A cursor over documents that decode is a slice of their tuples. *)
Definition cursor_sim (it : Cursor TupleDocument) (st : StaticIterator Tuple) : Prop :=
  Forall (λ d, Decode d = Ret d) (cur_docs it) ∧ st_items st = docToTuple <$> cur_docs it.

Lemma cursor_next_sim : next_sim cursor_sim.
Proof.
  intros [found e] [its] [Hd Hits]. simpl in *. subst its. rewrite length_fmap. split; [done|].
  destruct found as [|d found]; [by eexists _, _, _|]. apply Forall_cons in Hd as [Hd Hrest].
  eexists _, _, _. simpl. unfold it_Next, it_Decode. simpl. rewrite Hd. split_and!; [done|done|]. by split.
Qed.

Context `{!ModelGraph, !Cel, !MapRange, !ConditionCompiler}.
Context (m : AuthorizationModel) (typesys : TypeSystem) (conds : gmap string EvaluableCondition).
Hypothesis Hconds : conds_compiled conds.

Lemma read_cursor ctx found e :
  Forall (λ d, Decode d = Ret d) found →
  @read_filtered _ _ (mongo_Reader ds) typesys conds ctx (mkCursor found e) =
  @read_filtered _ _ (exact_Reader ds) typesys conds ctx (NewStaticIterator (docToTuple <$> found)).
Proof.
  intros Hd. unfold read_filtered.
  change (@remaining _ _ (@reader_Iterator (mongo_Reader ds)) (mkCursor found e)) with (length found).
  change (@remaining _ _ (@reader_Iterator (exact_Reader ds)) (NewStaticIterator (docToTuple <$> found)))
    with (length (docToTuple <$> found)). rewrite length_fmap.
  apply (drain_sim cursor_sim cursor_next_sim). split; [|done]. split; [|done]. by split.
Qed.

(** Dropping tuples the model does not allow changes nothing. *)
Lemma read_static_filter ctx (P : Tuple → bool) ts :
  (∀ t, t ∈ ts → FilterInvalidTuples typesys (Key t) = true → P t = true) →
  @read_filtered _ _ (exact_Reader ds) typesys conds ctx (NewStaticIterator ts) =
  @read_filtered _ _ (exact_Reader ds) typesys conds ctx (NewStaticIterator (List.filter P ts)).
Proof.
  intros HP. unfold read_filtered. simpl remaining.
  rewrite !read_pipeline_spec; try (intros; by apply condition_filter_no_panic); simpl items; try lia.
  assert (List.filter (FilterInvalidTuples typesys) (Key <$> List.filter P ts) =
          List.filter (FilterInvalidTuples typesys) (Key <$> ts)) as ->; [|done].
  induction ts as [|t ts IH]; [done|]. cbn [List.filter]. rewrite fmap_cons. cbn [List.filter].
  specialize (IH ltac:(intros t' Ht'; apply HP; by apply list_elem_of_further)).
  destruct (P t) eqn:E; rewrite ?fmap_cons; cbn [List.filter]; rewrite IH; [done|].
  destruct (FilterInvalidTuples typesys (Key t)) eqn:Ev; [|done].
  rewrite (HP t) in E; [done|apply list_elem_of_here|done].
Qed.

Lemma userset_selects_fields o r refs d :
  refs ≠ [] → selects regex_match (userset_filter store (mkReadUsersetTuplesFilter o r refs)) d = true →
  td_Store d = store ∧ td_ObjectType d = GetType o ∧ td_Relation d = r ∧
  ∃ rr, rr ∈ refs ∧ fields_select regex_match (restriction_filter rr) d = true.
Proof.
  intros Hne. unfold userset_filter, GetType. cbn [ruf_Object ruf_Relation ruf_AllowedUserTypeRestrictions].
  destruct (SplitObject o) as [ot oid]. rewrite (bool_decide_false (refs = [])) by done. cbn [negb]. eval_filter.
  rewrite !andb_true_iff, !bool_decide_eq_true, existsb_exists. setoid_rewrite <-list_elem_of_In.
  setoid_rewrite list_elem_of_fmap. simpl. intros [Heqs (x&(rr&->&Hrr)&Hm)]. destruct_and!. split_and!; [done..|]. by exists rr.
Qed.

(** ** The checks of a user whose type is public nowhere *)

(** Every restriction's names are plain in a regular expression. *)
Definition refs_plain : Prop :=
  ∀ ty r rel rr, Typesystem.GetRelation typesys ty r = Ret rel → rr ∈ rel_DirectlyRelatedUserTypes rel → plain_ref rr = true.

(** No relation can be granted to everyone of the user's type. *)
Definition public_nowhere (user : string) : Prop :=
  ∀ o r, shouldCheckPublicAssignable typesys (NewTupleKey o r user) = false.

Hypothesis Hmodel : NewAndValidate m = Ret typesys.
Hypothesis Hplain : refs_plain.

(** A userset the model allows is one the checker asked for. *)
Lemma allowed_asked_for o r rel d :
  Typesystem.GetRelation typesys (GetType o) r = Ret rel → wf_doc d → IsValidUser (td_User d) = true →
  td_ObjectType d = GetType o → td_Relation d = r →
  (∃ rr, rr ∈ userset_references rel ∧ fields_select regex_match (restriction_filter rr) d = true) →
  FilterInvalidTuples typesys (Key (docToTuple d)) = true → asked_for (userset_references rel) (docToTuple d) = true.
Proof.
  intros Hrel (Ht&_) Hv Hty Hr (rr0&Hrr0&Hsel) Hvalid.
  apply list_elem_of_In, List.filter_In in Hrr0 as [Hrr0 Hne]. bool_norm. apply list_elem_of_In in Hrr0.
  destruct (selected_userset rr0 d (Hplain _ _ _ _ Hrel Hrr0) Hne Hv Hsel) as [Hor Hg].
  apply (valid_restriction m typesys) in Hvalid as (rel'&rr&Hrel'&Hrr&Hshape); [|done]. simpl in *.
  rewrite GetType_build, Hty, Hr, Hrel in Hrel' by done. injection Hrel' as <-.
  unfold shape_allowed in Hshape. rewrite Hor in Hshape. destruct Hshape as [Hrty Hrg].
  apply asked_for_spec. simpl. split; [unfold GetUserTypeFromUser; by rewrite Hor|]. exists rr. split_and!; [|done..].
  apply list_elem_of_In, List.filter_In. split; [by apply list_elem_of_In|]. by rewrite Hrg, bool_decide_false.
Qed.

Lemma mongo_readers_agree user :
  public_nowhere user → readers_agree (mongo_Reader ds) (exact_Reader ds) typesys conds store user.
Proof.
  intros Hpub. split.
  - intros o r. simpl. unfold Mongo.Read.
    destruct (Find_all (buildTupleFilter store (Some (NewTupleKey o r "")))) as (found&->&Hf). simpl. intros ctx.
    rewrite read_cursor; [|apply Forall_forall; intros d [Hd _]%Hf; by apply doc_decodes]. by apply read_static_filter.
  - done.
  - intros o r refs Hrefs Hne. unfold DirectlyRelatedUsersets, GetDirectlyRelatedUserTypes in Hrefs.
    destruct (Typesystem.GetRelation typesys (GetType o) r) as [rel| |] eqn:Hrel; simpl in Hrefs; [|done..].
    injection Hrefs as <-. fold (userset_references rel) in *. simpl.
    assert (forallb plain_ref (userset_references rel) = true) as ->.
    { apply forallb_forall. intros rr [Hrr _]%List.filter_In. eapply Hplain; [exact Hrel|by apply list_elem_of_In]. }
    unfold Mongo.ReadUsersetTuples.
    destruct (Find_all (userset_filter store (mkReadUsersetTuplesFilter o r (userset_references rel)))) as (found&->&Hf).
    simpl. intros ctx. rewrite read_cursor; [|apply Forall_forall; intros d [Hd _]%Hf; by apply doc_decodes].
    apply read_static_filter. intros t (d&->&[Hd Hs]%Hf)%list_elem_of_fmap.
    apply userset_selects_fields in Hs as (Hs&Hty&Hr&Hsel); [|done]. apply (allowed_asked_for o r rel d); auto. by apply doc_wf.
  - intros o r Hc. by rewrite Hpub in Hc.
Qed.
End reader.

(** ** Theorems *)

(** A datastore, a model and a user for which Check does not depend on the reads of
    usersets being exact. *)
Record mongo_setting `{!Ulid, !UlidLaws, !Clock, !Mongo, !MongoLaws}
    `{!ModelGraph, !Cel, !MapRange, !ConditionCompiler}
    (ds : Datastore) (m : AuthorizationModel) (typesys : TypeSystem) (conds : gmap string EvaluableCondition) (fp : FastPaths)
    (store user : string) : Prop := {
  ms_inv : ∃ p l, mongo_inv ds p l;
  ms_up : MongoUp;
  ms_users d : d ∈ docs (Tuples ds) → td_Store d = store → IsValidUser (td_User d) = true;
  ms_model : NewAndValidate m = Ret typesys;
  ms_refs : refs_named typesys;
  ms_plain : refs_plain typesys;
  ms_conds : conds_compiled conds;
  ms_fast_paths : no_fast_paths fp;
  ms_user : IsValidUser user = true;
  ms_typed : GetType user ≠ "";
  ms_public : public_nowhere typesys user;
}.

Section theorems.
Context `{!Ulid, !UlidLaws, !UlidOrder, !Clock, !ClockLaws, !Mongo, !MongoLaws, !BsonLaws}.
Context `{!ModelGraph, !Cel, !MapRange, !ConditionCompiler, !Scheduler, !GraphLaws}.
Context (ds : Datastore) (m : AuthorizationModel) (typesys : TypeSystem) (conds : gmap string EvaluableCondition).
Context (fp : FastPaths) (store user : string) (reqCtx : option Struct) (maxResolutionDepth : Z) (fuel : nat).
Context (req : ResolveCheckRequest).
Abbreviation o := (Object (rq_TupleKey req)).
Abbreviation r := (Relation (rq_TupleKey req)).
Abbreviation mongo_check := (@ResolveCheck _ _ _ (mongo_Reader ds) typesys conds fp maxResolutionDepth fuel req).
Abbreviation has n := (granted typesys conds (mongo_stored ds store) reqCtx user n o r).
Abbreviation cannot n := (refuted typesys conds (mongo_stored ds store) reqCtx user n o r).

(** The check over the datastore is the check over the exact reader, whose setting is in
    order. *)
Lemma mongo_check_exact_reader :
  mongo_setting ds m typesys conds fp store user → request_ok store reqCtx user req →
  ∃ spec : @RelationshipTupleReaderSpec (exact_Reader ds) store,
    @stored (exact_Reader ds) store spec = mongo_stored ds store ∧
    @check_setting _ _ _ _ m typesys conds fp (exact_Reader ds) store spec reqCtx user ∧
    mongo_check = @ResolveCheck _ _ _ (exact_Reader ds) typesys conds fp maxResolutionDepth fuel req.
Proof.
  intros [(p&l&Hinv) Hup Husers Hm Hrefs Hplain Hconds Hfp Huser Htyped Hpub] (Hs&_&Hu&_).
  exists (exact_ReaderSpec ds p l store Hinv Hup Husers). split; [done|]. split.
  - split; try done; [by apply no_fast_paths_ok|]. intros t (d&->&Hd&Hst)%elem_of_stored. by apply Husers.
  - apply (ResolveCheck_same (mongo_Reader ds) (exact_Reader ds) typesys conds fp maxResolutionDepth store user); [|by split].
    by eapply mongo_readers_agree.
Qed.

(** C4: Check over MongoDB without fast paths is exact, for every server that keeps MongoDB's
    promises and answers, on models without exclusion whose restrictions have names that are
    plain in a regular expression, for users of a type no relation makes public and stored
    tuples whose conditions have no context.  The datastore returns usersets of the wrong
    type and in any order, but the tuples the model does not allow are filtered: a check is
    allowed exactly when the user has a derivation of the relation from the stored tuples, or
    fails with an error of the program.  The fast paths are left out because the iterators
    of this datastore lose a tuple at every [Head] ([Mongo_Head_drops]). *)
Theorem Mongo_Check_exact :
  mongo_setting ds m typesys conds fp store user → positive_model typesys →
  request_ok store reqCtx user req → rq_VisitedPaths req = ∅ → depth_ok maxResolutionDepth req →
  (check_fuel typesys maxResolutionDepth req ≤ fuel)%nat →
  match mongo_check with
  | Ret resp => Allowed resp = true ↔ ∃ n, has n
  | Throw e => fuel_free e
  | Panic _ => False
  end.
Proof.
  intros Hset Hpos Hreq Hvis Hd Hf. destruct (mongo_check_exact_reader Hset Hreq) as (spec&<-&Hcs&->).
  apply ResolveCheck_exact_spec with (m := m); [by apply check_setting_positive|done..].
Qed.

(** With exclusions too, what Check over MongoDB grants is backed by a derivation and what
    it denies without a cycle by a refutation. *)
Theorem Mongo_Check_sound (resp : ResolveCheckResponse) :
  mongo_setting ds m typesys conds fp store user → request_ok store reqCtx user req → mongo_check = Ret resp →
  (Allowed resp = true → (∃ n, has n) ∧ ∀ n, ¬ cannot n) ∧
  (Allowed resp = false → CycleDetected resp = false → (∃ n, cannot n) ∧ ∀ n, ¬ has n).
Proof.
  intros Hset Hreq. destruct (mongo_check_exact_reader Hset Hreq) as (spec&<-&Hcs&->). intros Hres.
  by apply (ResolveCheck_sound_spec store m typesys conds fp user reqCtx maxResolutionDepth fuel req resp).
Qed.
End theorems.

(** ** A server to run checks on *)

#[local] Existing Instances sorted_Ulid sorted_UlidLaws sorted_UlidOrder tick_Clock tick_ClockLaws.

Section demo.
Context (newest_first : bool).
Abbreviation new_datastore := (new_datastore newest_first).
Abbreviation datastore_with := (datastore_with newest_first).
#[local] Hint Extern 0 Mongo => exact (list_Mongo newest_first) : typeclass_instances.
#[local] Hint Extern 0 MongoLaws => exact (list_MongoLaws newest_first) : typeclass_instances.
#[local] Hint Extern 0 BsonLaws => exact (list_BsonLaws newest_first) : typeclass_instances.

Lemma datastore_with_inv writes :
  forallb (λ tk, complete_b tk && bool_decide (Condition tk = None)) writes = true → bool_decide (NoDup (key_of <$> writes)) = true →
  ∃ p l, mongo_inv (datastore_with writes) p l.
Proof.
  intros Hw Hnd%bool_decide_eq_true. unfold datastore_with.
  pose proof (Write_cases "store" [] writes (List.Forall_nil _)) as Hcases.
  assert (Forall (λ tk, complete_key (key_of tk) ∧ cond_plain (Condition tk)) writes) as Hwr.
  { apply Forall_forall. intros tk Htk. pose proof (forallb_elem _ _ tk Hw Htk) as Hb. simpl in Hb.
    apply andb_true_iff in Hb as [Hb Hn%bool_decide_eq_true]. split; [by apply complete_decide|by rewrite Hn]. }
  specialize (Hcases Hwr Hnd new_datastore start_process [] (new_datastore_inv newest_first)).
  destruct (Mongo.Write _ _ _ _ _) as [[r ds'] p']. simpl.
  destruct r as [[]|e|w]; [|destruct Hcases as [(->&Hinv&_)|[_ (_&_&_&cs&_&Hinv)]]|done]; eauto.
  destruct Hcases as [_ (_&_&_&cs&_&Hinv)]. eauto.
Qed.

Definition mongo_demo_check (t : @TypeSystem demo_Graph) (writes : list TupleKey) (tk : TupleKey) : checkOutcome :=
  @ResolveCheck demo_Graph demo_Cel id_Scheduler (mongo_Reader (datastore_with writes)) t ∅ no_paths 25
    (@check_fuel demo_Graph t 25 (initial_request "store" tk None)) (initial_request "store" tk None).
End demo.

(** *** Public relations *)

(** type doc with viewer: [user, user:*]. *)
Definition public_model : AuthorizationModel :=
  mkAuthorizationModel "model" "1.1"
    [mkTypeDefinition "user" ∅ ∅;
     mkTypeDefinition "doc" {["viewer" := This]}
       {["viewer" := [DirectRelationReference "user" ""; WildcardRelationReference "user"]]}] ∅.

Definition anne_views : list TupleKey := [NewTupleKey "doc:1" "viewer" "user:anne"].

(** Over MongoDB, a relation that may be granted to everyone is granted to everyone as
    soon as one user has it.  The document doc:1 was shared with user:anne and with nobody
    else: the in-memory datastore denies user:bob, MongoDB's userset read for user:* also
    returns anne's tuple, which the checker takes for the wildcard. *)
Theorem Mongo_check_grants_stranger :
  match validate public_model with
  | Ret t =>
      let bob := NewTupleKey "doc:1" "viewer" "user:bob" in
      demo_check id_Scheduler t anne_views bob = Ret (mkResolveCheckResponse false false) ∧
      ∀ newest_first, mongo_demo_check newest_first t anne_views bob = Ret (mkResolveCheckResponse true false)
  | _ => False
  end.
Proof.
  assert (match validate public_model with
    | Ret t =>
        let bob := NewTupleKey "doc:1" "viewer" "user:bob" in
        (demo_check id_Scheduler t anne_views bob, mongo_demo_check true t anne_views bob, mongo_demo_check false t anne_views bob) =
        (Ret (mkResolveCheckResponse false false), Ret (mkResolveCheckResponse true false), Ret (mkResolveCheckResponse true false))
    | _ => False
    end) as Hall by by vm_compute.
  destruct (validate public_model) as [t| |]; [|done..]. injection Hall as Hmem Hnew Hold.
  split; [done|]. by intros [].
Qed.

(** *** Deciding the setting *)

Lemma refs_plain_decide `{!ModelGraph} t :
  forallb (λ rel, forallb plain_ref (rel_DirectlyRelatedUserTypes rel)) (all_relations t) = true → refs_plain t.
Proof.
  intros Hall ty r rel rr Hrel Hrr. eapply forallb_elem in Hall; [|by eapply elem_of_all_relations].
  by eapply forallb_elem in Hall.
Qed.

Lemma public_nowhere_decide `{!ModelGraph} t user :
  forallb (λ rel, negb (existsb (λ rr, (rr_Type rr =s GetType user) && rr_HasWildcard rr) (rel_DirectlyRelatedUserTypes rel)))
    (all_relations t) = true → public_nowhere t user.
Proof.
  intros Hall o r. unfold shouldCheckPublicAssignable. destruct (IsObjectRelation _); [done|]. simpl.
  unfold or_false, IsPubliclyAssignable, PubliclyAssignableReferences.
  destruct (Typesystem.GetRelation t _ _) as [rel| |] eqn:Hrel; simpl; [|done..].
  destruct (List.find _ _) as [rr|] eqn:Hf; [|done]. apply List.find_some in Hf as [Hrr Hw].
  eapply forallb_elem in Hall; [|by eapply elem_of_all_relations]. apply negb_true_iff in Hall.
  by rewrite (existsb_false_elem _ _ rr Hall) in Hw by by apply list_elem_of_In.
Qed.

Definition mongo_setting_ok (newest_first : bool) (t : @TypeSystem demo_Graph) (writes : list TupleKey) (user : string) : bool :=
  forallb (λ rel, forallb named_ref (rel_DirectlyRelatedUserTypes rel)
                  && forallb plain_ref (rel_DirectlyRelatedUserTypes rel)
                  && negb (existsb (λ rr, (rr_Type rr =s GetType user) && rr_HasWildcard rr) (rel_DirectlyRelatedUserTypes rel)))
    (all_relations t)
  && forallb (λ d, IsValidUser (td_User d)) (lc_docs (Tuples (datastore_with newest_first writes)))
  && IsValidUser user && negb (GetType user =s "").

Lemma forallb_and {A} (f g : A → bool) l : forallb (λ x, f x && g x) l = forallb f l && forallb g l.
Proof. induction l as [|x l IH]; simpl; [done|]. rewrite IH. destruct (f x), (g x), (forallb f l); done. Qed.

Lemma mongo_setting_decide newest_first m t writes user :
  validate m = Ret t → forallb (λ tk, complete_b tk && bool_decide (Condition tk = None)) writes = true → bool_decide (NoDup (key_of <$> writes)) = true →
  mongo_setting_ok newest_first t writes user = true →
  @mongo_setting _ _ _ (list_Mongo newest_first) (list_MongoLaws newest_first) demo_Graph demo_Cel map_to_list_MapRange demo_Compiler
    (datastore_with newest_first writes) m t ∅ no_paths "store" user.
Proof.
  intros Hm Hw Hnd Hok. unfold mongo_setting_ok in Hok. rewrite !forallb_and in Hok. bool_norm. split; try done.
  - apply datastore_with_inv; [done|by apply bool_decide_true].
  - apply list_MongoUp.
  - intros d Hd _. rewrite list_docs in Hd.
    match goal with Hv : forallb _ (lc_docs ?c) = true |- _ => exact (forallb_elem _ (lc_docs c) d Hv Hd) end.
  - by apply refs_named_decide.
  - by apply refs_plain_decide.
  - by apply public_nowhere_decide.
Qed.

Lemma Mongo_Check_exact_witness :
  match validate group_model with
  | Ret t =>
      let has user := ∃ n, @granted demo_Graph demo_Cel t ∅
        (@mongo_stored _ _ _ (list_Mongo true) (list_MongoLaws true) (datastore_with true group_tuples) "store") None
        user n "doc:1" "viewer" in
      has "user:x" ∧ ¬ has "user:z"
  | _ => False
  end.
Proof.
  assert (match validate group_model with
    | Ret t =>
        forallb (mongo_setting_ok true t group_tuples) ["user:x"; "user:z"] = true ∧
        forallb (λ rel, negb (has_difference (rel_Rewrite rel))) (all_relations t) = true ∧
        (λ user, mongo_demo_check true t group_tuples (NewTupleKey "doc:1" "viewer" user)) <$> ["user:x"; "user:z"] =
          [Ret (mkResolveCheckResponse true false); Ret (mkResolveCheckResponse false true)]
    | _ => False
    end) as Hf by (vm_compute; by split_and!).
  destruct (validate group_model) as [t| |] eqn:E; [|done..].
  destruct Hf as (Hok&Hpos&Hres). cbn [fmap list_fmap] in Hres. injection Hres as Hx Hz.
  assert (∀ user, user ∈ ["user:x"; "user:z"] →
    match mongo_demo_check true t group_tuples (NewTupleKey "doc:1" "viewer" user) with
    | Ret resp => Allowed resp = true ↔ ∃ n, @granted demo_Graph demo_Cel t ∅
        (@mongo_stored _ _ _ (list_Mongo true) (list_MongoLaws true) (datastore_with true group_tuples) "store") None
        user n "doc:1" "viewer"
    | Throw e => fuel_free e
    | Panic _ => False
    end) as Hex.
  { intros user Hu. unshelve refine (@Mongo_Check_exact _ _ _ _ _ (list_Mongo true) (list_MongoLaws true) (list_BsonLaws true)
      demo_Graph demo_Cel map_to_list_MapRange demo_Compiler id_Scheduler demo_GraphLaws
      (datastore_with true group_tuples) group_model t ∅ no_paths "store" user None 25 _ (viewer_request user) _ _
      (viewer_request_ok user) _ _ _).
    - apply mongo_setting_decide; [exact E|reflexivity|by vm_compute|]. by eapply forallb_elem.
    - by apply positive_decide.
    - reflexivity.
    - exact (depth_25 _).
    - reflexivity. }
  split.
  - pose proof (Hex "user:x" (list_elem_of_here _ _)) as Hc. rewrite Hx in Hc. by apply Hc.
  - pose proof (Hex "user:z" (list_elem_of_further _ _ _ (list_elem_of_here _ _))) as Hc. rewrite Hz in Hc. intros Hn. apply Hc in Hn. discriminate Hn.
Defined.
